(* ===== verification/_CoqProject ===== *)
-Q . S2P
Prelude.v
Clock.v
Locator.v
SumTree.v
SumTreeFacts.v
TreeHeights.v
Seek.v
Cursor.v
CursorFacts.v
CursorWalk.v
Keyed.v
KeyedFacts.v
TreeMap.v
TreeMapFacts.v
UndoMap.v
Patch.v
PatchFacts.v
Subscription.v
Selection.v
Utf8.v
Points.v
Lines.v
TextSummary.v
BitSelect.v
Chunk.v
ChunkBits.v
ChunkFacts.v
ChunkPositions.v
RopeTree.v
Rope.v
RopeFacts.v
RopeSeek.v
RopeCut.v
RopePositions.v
RopeClip.v
RopeIter.v
RopeIterFacts.v
RopePieces.v
RopeLines.v
RopeSteps.v
RopeBytes.v
Operation.v
History.v
HistoryFacts.v
LineEnding.v
LineEndingFacts.v
Fragment.v
FragmentFacts.v
Snapshot.v
EditSpec.v
EditInv.v
EditState.v
EditSteps.v
EditFinish.v
EditFacts.v
Undo.v
UndoFinds.v
UndoFacts.v
OperationQueue.v
Remote.v
RemoteSpec.v
RemoteSeek.v
RemoteSteps.v
RemoteDelete.v
RemoteFacts.v
Replay.v
Buffer.v
BufferFacts.v
BufferEdit.v
BufferUndo.v
BufferLaws.v
Receive.v
Delivery.v
Issue.v
Network.v
Replicas.v
Anchor.v
AnchorFacts.v
AnchorLaws.v
