(* ===== verification/Prelude.v ===== *)
(** * Verification of the text core of the Lexed editor

    Lexed is a fork of the Zed editor.  Below its user interface sits a small
    stack of Rust crates that hold every text the editor shows and merge the
    edits of several users into it.  This development models that stack and
    proves it correct, from the bottom up.

    ** The program and the files of the development

    - [crates/clock] ([Clock.v]): replica ids, Lamport timestamps and version
      vectors.  [Lamport] and [Global] are the Rust structs.
    - [crates/text/src/locator.rs] ([Locator.v]): fractional indices, the dense
      order in which the fragments of a buffer are sorted.
    - [crates/sum_tree] ([SumTree.v], [Cursor.v], [Keyed.v], [TreeMap.v] hold the
      definitions; [SumTreeFacts.v], [Seek.v], [CursorFacts.v], [CursorWalk.v],
      [KeyedFacts.v], [TreeMapFacts.v] the theorems): the B+ tree with summaries
      that every sequence of the text core is stored in.  [Node] is the Rust
      enum; [SumTree.v] has construction, [append], [push] and the queries without
      a cursor, [Cursor.v] the cursors and iterators with their explicit stacks,
      [Keyed.v] the trees sorted by a key and the batched [edit], [TreeMap.v] the
      ordered map and set built on them.
    - [crates/text/src/undo_map.rs] ([UndoMap.v]): the count of undos per edit, a
      keyed tree; a client of the above.
    - [crates/text/src/patch.rs] ([Patch.v], [PatchFacts.v]) and
      [subscription.rs] ([Subscription.v]): differences between two versions of a
      text, their composition, and the topic that hands them to subscribers.
    - [crates/text/src/selection.rs] ([Selection.v]): selections and their ends.
    - [crates/rope/src/chunk.rs]: [Points.v] has rows and columns in bytes and in
      UTF-16 units ([point.rs], [point_utf16.rs], [offset_utf16.rs],
      [unclipped.rs]); [TextSummary.v] the summaries of [rope.rs]; [Chunk.v] the
      chunks, 128 bytes with four bitmaps; [BitSelect.v] the branch-free select of
      a set bit; [ChunkBits.v], [ChunkFacts.v] and [ChunkPositions.v] the theorems
      on chunks.  [Utf8.v] models what these use of [str] and [char], and
      [Lines.v] is the specification by lines they are measured against.
    - [crates/rope/src/rope.rs]: [RopeTree.v] has the tree of chunks, a
      [SumTree] whose summaries are text summaries, and the dimensions a text is
      measured in; [Rope.v] the rope (building, cutting, positions, clipping, the
      cursor) and [RopeIter.v] its iterators over pieces, bytes and lines.
      [RopeFacts.v] shows what building does, [RopeSeek.v] what a search in the
      tree finds in the text, [RopeCut.v] cutting and replacing, [RopePositions.v]
      and [RopeClip.v] positions and clipping, [RopeIterFacts.v], [RopePieces.v],
      [RopeLines.v], [RopeSteps.v] and [RopeBytes.v] the iterators.
      [TreeHeights.v] bounds how high a tree built by pushing gets.
    - [crates/text/src/text.rs], the buffer.  [Operation.v] has the operations
      replicas exchange and [OperationQueue.v] the queue of those that wait
      ([operation_queue.rs]); [History.v] and [HistoryFacts.v] the undo and redo
      stacks with their transactions; [LineEnding.v] and [LineEndingFacts.v] line
      endings and indents; [Fragment.v] and [FragmentFacts.v] the fragments, the
      runs of a text with one insertion and one fate.  [Snapshot.v] has the
      snapshot (visible text, deleted text, fragments, insertions, slices) and
      [apply_edit_internal], [Undo.v] has [apply_undo], [Remote.v]
      [apply_remote_edit], and [Buffer.v] the buffer around them.
    - The buffer's specification is [EditSpec.v]: a text with its deleted parts is
      a list of atoms (bytes with their insertion, deletions and visibility),
      [snapshot_ok] says what a snapshot has to do with its atoms, and [edited]
      what an edit makes of them.  [EditInv.v] (what an edit builds),
      [EditState.v], [EditSteps.v] (the statements of the loop), [EditFinish.v]
      (the trees it ends with) and [EditFacts.v] show that [apply_edit_internal]
      refines it; [UndoFinds.v] and [UndoFacts.v] do this for undoing.
      [BufferFacts.v] has the invariant of a buffer, [BufferEdit.v] and
      [BufferUndo.v] show that editing and undoing keep it, and [BufferLaws.v] says what this means for the text.
    - Edits of other replicas are specified in [RemoteSpec.v]: [merged] goes once
      through the atoms, and two such merges commute.  [RemoteSeek.v] (positions in a
      version), [RemoteSteps.v], [RemoteDelete.v] (the statements of the loop) and
      [RemoteFacts.v] show that [apply_remote_edit] refines [merged].
    - The replicas of a text: [Replay.v] defines the replay of a log of operations
      by a version that has observed some of them, and shows that delivering an
      operation extends the replay.  [Receive.v] shows that [apply_op] delivers,
      [Delivery.v] that [apply_ops] with its deferred operations delivers all it
      can, [Issue.v] that local edits and undos extend the log.  [Network.v] is the
      step relation of a system of replicas with its invariant, and [Replicas.v]
      states convergence and what else they promise.
    - [crates/text/src/anchor.rs] ([Anchor.v]): anchors, which name a place by the
      insertion they are attached to, with the methods of a snapshot that make,
      resolve and compare them.  [AnchorFacts.v] says what an anchor means for the
      atoms, whatever the fragments are; [AnchorLaws.v] what this gives in a system
      of replicas.

    A component is a Module named like the Rust type, with one definition per
    method and the Rust names, except where Rocq reserves a word ([end_]).  The
    trees are generic: [Summary], [Item], [Dimension], [KeyedItem] and [Ord] are
    the traits as type classes, and [SummaryLaws], [DimensionLaws],
    [KeyedItemLaws] and [OrdLaws] are the laws a client of the tree has to
    provide; theorems on the tree are proved from the laws, and every client
    ([TreeMap], [UndoMap]) discharges them.

    ** Conventions

    - A function that can panic returns an [option]; [None] is the panic.
      Overflow checks and debug assertions are on, so a theorem that a result is
      [Some] rules out assertion failures and overflow, and the release profile
      computes the same value.
    - [u16], [u32], [u64] and [u128] values are [N] with their bounds written out
      where an operation can leave them; [usize] values are [nat], as they count
      things that are in memory.
    - The height of a node is a [u8] and a [nat] in the model.  [append] adds at
      most one to the greater height ([append_concatenates]), and the theorems that
      build on cursors ask for trees of less than 16 levels.
    - [&mut self] is state passing.  [Arc::make_mut] gives tree nodes value
      semantics, so sharing of nodes is not modelled; the shared patches of
      subscriptions are, in an explicit heap.
    - Summary contexts ([cx]) never change within an operation and are absorbed
      into the instances.  Closures passed to cursors are pure functions.
    - [sort_unstable_by_key] is one particular sort; the theorems that involve it
      ask for distinct keys, for which every sort gives the same list.
    - [push_transaction] takes a transaction from outside and checks nothing of
      its id.  That no call of a history can panic is shown for any transactions;
      that ids are distinct, for those whose id is new ([new_transaction]).
    - The assertions on the order of queued operations in their summaries are left
      out, as the summary of a tree is total; [operation_queue] shows that they
      hold.
    - A [loop] is a [Fixpoint] on a fuel the caller computes (the number of items,
      of edits, of bytes); that the fuel is enough is part of each theorem, which
      states that the operation returns [Some].
    - [TREE_BASE] is 6 and chunks hold 128 bytes, the values outside of tests.
    - A cursor's stack holds 16 entries; [searchable] bounds the height of a tree
      by this, which is more than memory can hold, and is the hypothesis of the
      theorems on cursors.
    - The sums of text summaries in a tree are those without overflow checks
      ([RopeTree.Unchecked]), as the laws of the generic tree need a total sum;
      every property of ropes and buffers asks that the texts before an operation
      and after it have at most [u32_max] bytes, where both sums agree:
      [holds_sums_checked] shows that then, at every node of a rope's tree, the
      sum with checks succeeds and is the one stored there, and [built] and
      [texts_checked] say so of the results.  The trees on the way to a result
      hold parts of its text, as ropes are built from the front.  Closures that
      change what they capture ([update_last] in [push]) are the functions [update_last_with] and
      [update_first_with], which also return the captured value.
    - [holds r s] says that the rope [r] is well formed and its text is [s].
      [walkable], [cuttable] and [replaceable] bound the height of its tree so
      that cursors have room; [from_str_bounded] shows that a rope built from a
      text below 4 GiB is at most seven levels high.
    - [snapshot_fits] and [buffer_fits] ask the same of the trees of a buffer, and
      that its texts are below 4 GiB; [undo_fits] of the undo map after an undo.
      [deliver_ready] asks this of every buffer on the way of a delivery, the last
      one included, and that the clock has room.  [edits_fit], [core_texts_fit] and
      [texts_fit] ask it of the texts after an edit, an undo and a remote edit.
    - In a system of replicas every one starts with the same text, edits and undoes
      it, opens and closes transactions, and receives any operations of the log in
      any order, batches and number.  Nothing is assumed of the network: what is
      lost is not in the inbox.
    - Where a buffer asks for the time, it is an argument.  The regular expression
      for line separators is a parameter with its documented laws
      ([LineSeparatorsLaws]).
    - The loops over pieces and lines run on the length of the range, as no piece
      is empty.

    ** What the theorems show

    - Clocks: joining is the least upper bound of the order [observed_all]
      decides; a timestamp handed out after an observation is greater; packing
      keeps the order.
    - Locators: between two locators, the right one without a trailing zero, there
      is always another one without, and typing at the end does not deepen them.
    - Trees: a well-formedness invariant (balance, fan-out, summaries), kept by
      every operation, and for every operation its effect on the list of items:
      [append] concatenates, [from_iter] and [from_par_iter] build, a search finds
      what a scan of the list finds, slices partition, cursors walk in both
      directions, filters filter, [edit] applies a batch to the represented map.
      [TreeMap] refines a finite map.
    - Undo: the count is the greatest one received, whatever the order.
    - Patches: a relation between patches and pairs of texts; composition
      composes it, inversion reverses it, positions map monotonically.  A
      subscriber never misses or repeats an edit, in every interleaving.
    - Chunks: the bitmaps of a chunk are those of its text under every operation
      that builds or cuts it; every position computed from them is the one the
      lines of the text give; conversions are inverse to each other; the summary
      of a concatenation is the sum of the summaries; the bit-parallel select is
      the select.
    - Ropes: as long as the text stays below 4 GiB, pushing, prepending, appending,
      slicing and replacing do to the rope what they say to its text, and neither
      panic nor overflow; every conversion and clipping
      of a position agrees with the text, whatever chunk the position is in; the
      pieces, bytes and lines of a range are those of the text, in both
      directions, after any seek and through reads of any size; comparisons piece
      by piece are those of the whole text.

    - Histories: transactions bracket their edits, grouping merges what follows
      closely, undo and redo are inverse, and no unwrap can fail, whatever
      transactions are pushed.
    - Buffers: a new buffer is well formed and holds its normalised text; a local
      edit never panics and replaces the text as it says, and the operation it
      returns says where; an edit that is undone is gone, and redone is back;
      undoing changes sides of exactly the edits of a transaction.  Subscribers
      see every change.
    - Queues: a queue is a set of operations in the order of their timestamps.
    - Edits of others: a remote edit never panics on a well-formed buffer and does
      to the atoms what the specification says.
    - Replicas: the text of a replica is the replay of the operations its version
      has observed, in the order of their timestamps; replicas that have received
      the same operations have the same version and show the same text; every
      operation received is applied or waits for one that has not been applied.
    - Anchors: an anchor resolves to the position it was made at in every replica
      with the same version; comparing anchors compares their positions; local
      edits move an anchor with the text it is attached to.

    ** Not modelled

    The channels by which a buffer tells that an operation has arrived, the edits
    since a version, and the accessors that only pass a call on to the rope.  Calls
    that merge, forget or regroup transactions are modelled, and are not steps of
    the system of replicas, as they send nothing.  Formatting, [size_hint],
    [PartialEq] and test support are left out.  Above the text core the program is
    user interface, network, processes and foreign libraries. *)

From stdpp Require Export base tactics list numbers option gmap sorting.

(** ** Panics

    A Rust function that may panic is a function to [option]; [None] is the
    panic.  Arithmetic follows the overflow-checked profile, and [debug_assert!]
    is executed, so a theorem that an operation returns [Some] shows that
    neither an assertion nor an overflow check can fire, and the release
    profile then computes the same value. *)

(** [assert!] and [debug_assert!]. *)
Definition rassert (b : bool) : option unit := if b then Some tt else None.

Lemma rassert_true b : b = true → rassert b = Some tt.
Proof. by intros ->. Qed.

Definition u8_max : N := 255.
Definition u16_max : N := 65535.
Definition u32_max : N := 4294967295.
Definition u64_max : N := 18446744073709551615.

(** [a + b] on an unsigned integer whose greatest value is [m]. *)
Definition checked_add (m a b : N) : option N :=
  if (a + b <=? m)%N then Some (a + b)%N else None.

Lemma checked_add_Some m a b : (a + b <= m)%N → checked_add m a b = Some (a + b)%N.
Proof. intros H. unfold checked_add. apply N.leb_le in H. by rewrite H. Qed.

Lemma checked_add_inv m a b c : checked_add m a b = Some c → (c = a + b ∧ a + b <= m)%N.
Proof. unfold checked_add. case_match eqn:E; [|done]. apply N.leb_le in E. naive_solver. Qed.

(** ** [std::cmp::Ord] *)

Class Ord (A : Type) := cmp : A → A → comparison.
#[global] Hint Mode Ord ! : typeclass_instances.

Class OrdLaws (A : Type) `{Ord A} : Prop := {
  cmp_refl (x : A) : cmp x x = Eq;
  cmp_eq (x y : A) : cmp x y = Eq → x = y;
  cmp_opp (x y : A) : cmp y x = CompOpp (cmp x y);
  cmp_lt_trans (x y z : A) : cmp x y = Lt → cmp y z = Lt → cmp x z = Lt;
}.

(** [Ordering::then_with] *)
Definition then_with (a b : comparison) : comparison :=
  match a with Eq => b | _ => a end.

Definition is_ge (c : comparison) : bool := match c with Lt => false | _ => true end.
Definition is_le (c : comparison) : bool := match c with Gt => false | _ => true end.
Definition is_lt (c : comparison) : bool := match c with Lt => true | _ => false end.
Definition is_eq (c : comparison) : bool := match c with Eq => true | _ => false end.

Lemma is_eq_true c : is_eq c = true ↔ c = Eq.
Proof. by destruct c. Qed.

(** [std::cmp::max]: the second argument when the two compare equal. *)
Definition cmp_max {A} `{Ord A} (x y : A) : A := if is_le (cmp x y) then y else x.

Section ord.
Context {A : Type} `{OrdLaws A}.

Lemma cmp_eq_iff (x y : A) : cmp x y = Eq ↔ x = y.
Proof. split; [apply cmp_eq|intros ->; apply cmp_refl]. Qed.

Lemma cmp_gt_lt (x y : A) : cmp x y = Gt ↔ cmp y x = Lt.
Proof. rewrite (cmp_opp x y). destruct (cmp x y); naive_solver. Qed.

Lemma cmp_le_lt_trans (x y z : A) : is_le (cmp x y) → cmp y z = Lt → cmp x z = Lt.
Proof.
  destruct (cmp x y) eqn:E; intros Hle ?; [|by eapply cmp_lt_trans|done].
  by apply cmp_eq in E as ->.
Qed.

Lemma cmp_lt_le_trans (x y z : A) : cmp x y = Lt → is_le (cmp y z) → cmp x z = Lt.
Proof.
  destruct (cmp y z) eqn:E; intros ? Hle; [|by eapply cmp_lt_trans|done].
  by apply cmp_eq in E as <-.
Qed.

Lemma cmp_le_trans (x y z : A) : is_le (cmp x y) → is_le (cmp y z) → is_le (cmp x z).
Proof.
  destruct (cmp y z) eqn:E; intros ? Hle; try done.
  - by apply cmp_eq in E as <-.
  - by erewrite cmp_le_lt_trans.
Qed.

Lemma cmp_not_le (x y : A) : is_le (cmp x y) = false → cmp y x = Lt.
Proof. intros Hxy. rewrite <-cmp_gt_lt. by destruct (cmp x y). Qed.

Lemma cmp_max_assoc (x y z : A) : cmp_max (cmp_max x y) z = cmp_max x (cmp_max y z).
Proof.
  unfold cmp_max. destruct (is_le (cmp x y)) eqn:Hxy, (is_le (cmp y z)) eqn:Hyz; rewrite ?Hxy, ?Hyz; try done.
  - rewrite (Is_true_true_1 (is_le (cmp x z))); [done|].
    eapply cmp_le_trans; [by rewrite Hxy|by rewrite Hyz].
  - apply cmp_not_le in Hxy, Hyz. pose proof (cmp_lt_trans _ _ _ Hyz Hxy) as Hzx.
    by rewrite (cmp_opp z x), Hzx.
Qed.
End ord.

#[global] Instance N_ord : Ord N := N.compare.
#[global] Instance N_ord_laws : OrdLaws N.
Proof.
  split; unfold cmp, N_ord; intros.
  - apply N.compare_refl.
  - by apply N.compare_eq.
  - apply N.compare_antisym.
  - rewrite N.compare_lt_iff in *. lia.
Qed.

Lemma N_cmp_lt (x y : N) : cmp x y = Lt ↔ (x < y)%N.
Proof. apply N.compare_lt_iff. Qed.

#[global] Instance nat_ord : Ord nat := Nat.compare.
#[global] Instance nat_ord_laws : OrdLaws nat.
Proof.
  split; unfold cmp, nat_ord; intros.
  - apply Nat.compare_refl.
  - by apply Nat.compare_eq.
  - apply Nat.compare_antisym.
  - rewrite Nat.compare_lt_iff in *. lia.
Qed.

(** [#[derive(Ord)]] on [Option]: [None] is the least value. *)
#[global] Instance option_ord {A} `{Ord A} : Ord (option A) := λ x y,
  match x, y with
  | None, None => Eq
  | None, Some _ => Lt
  | Some _, None => Gt
  | Some x, Some y => cmp x y
  end.
#[global] Instance option_ord_laws {A} `{OrdLaws A} : OrdLaws (option A).
Proof.
  split; unfold cmp, option_ord.
  - intros [x|]; [apply cmp_refl|done].
  - intros [x|] [y|] E; try done. f_equal. by apply cmp_eq.
  - intros [x|] [y|]; [apply cmp_opp|done..].
  - intros [x|] [y|] [z|]; try done. apply cmp_lt_trans.
Qed.

(** [#[derive(Ord)]] on a struct of two fields. *)
#[global] Instance prod_ord {A B} `{Ord A, Ord B} : Ord (A * B) := λ x y,
  then_with (cmp x.1 y.1) (cmp x.2 y.2).
Lemma prod_cmp {A B} `{Ord A, Ord B} (x x' : A) (y y' : B) :
  cmp (x, y) (x', y') = then_with (cmp x x') (cmp y y').
Proof. done. Qed.

#[global] Instance prod_ord_laws {A B} `{OrdLaws A, OrdLaws B} : OrdLaws (A * B).
Proof.
  split.
  - intros [x y]. by rewrite prod_cmp, (cmp_refl x), (cmp_refl y).
  - intros [x y] [x' y']. rewrite prod_cmp. intros E.
    destruct (cmp x x') eqn:E1; simpl in *; try done.
    apply cmp_eq in E1 as ->, E as ->. done.
  - intros [x y] [x' y']. rewrite !prod_cmp, (cmp_opp x x'), (cmp_opp y y').
    by destruct (cmp x x').
  - intros [x y] [x' y'] [x'' y'']. rewrite !prod_cmp. intros E1 E2.
    destruct (cmp x x') eqn:Ex, (cmp x' x'') eqn:Ex'; simpl in *; try done.
    + apply cmp_eq in Ex as ->, Ex' as ->. rewrite (cmp_refl x''); simpl. by eapply cmp_lt_trans.
    + apply cmp_eq in Ex as ->. by rewrite Ex'.
    + apply cmp_eq in Ex' as <-. by rewrite Ex.
    + by rewrite (cmp_lt_trans _ _ _ Ex Ex').
Qed.

(** The order of slices and vectors: lexicographic, a prefix is less. *)
#[global] Instance list_ord {A} `{Ord A} : Ord (list A) :=
  fix go (x y : list A) : comparison :=
    match x, y with
    | [], [] => Eq
    | [], _ :: _ => Lt
    | _ :: _, [] => Gt
    | a :: x, b :: y => then_with (cmp a b) (go x y)
    end.

Lemma list_cmp_cons {A} `{Ord A} (a b : A) (x y : list A) :
  cmp (a :: x) (b :: y) = then_with (cmp a b) (cmp x y).
Proof. done. Qed.

#[global] Instance list_ord_laws {A} `{OrdLaws A} : OrdLaws (list A).
Proof.
  split.
  - induction x as [|a x IH]; [done|]. rewrite list_cmp_cons, (cmp_refl a). exact IH.
  - induction x as [|a x IH]; intros [|b y]; try done. rewrite list_cmp_cons. intros E.
    destruct (cmp a b) eqn:Ea; try done. apply cmp_eq in Ea as ->. f_equal. by apply IH.
  - induction x as [|a x IH]; intros [|b y]; try done. rewrite !list_cmp_cons, (IH y), (cmp_opp a b).
    by destruct (cmp a b).
  - induction x as [|a x IH]; intros [|b y] [|c z]; try done. rewrite !list_cmp_cons. intros E1 E2.
    destruct (cmp a b) eqn:Ex, (cmp b c) eqn:Ex'; simpl in *; try done.
    + apply cmp_eq in Ex as ->, Ex' as ->. rewrite (cmp_refl c); simpl. by eapply IH.
    + apply cmp_eq in Ex as ->. by rewrite Ex'.
    + apply cmp_eq in Ex' as <-. by rewrite Ex.
    + by rewrite (cmp_lt_trans _ _ _ Ex Ex').
Qed.

(** ** Lists *)

Lemma existsb_lookup {A} (f : A → bool) (l : list A) :
  existsb f l = true ↔ ∃ i x, l !! i = Some x ∧ f x = true.
Proof.
  rewrite existsb_exists. split.
  - intros (x & Hin%list_elem_of_In & Hf). apply list_elem_of_lookup in Hin as [i Hi]. eauto.
  - intros (i & x & Hi & Hf). exists x. split; [|done].
    apply list_elem_of_In, list_elem_of_lookup. eauto.
Qed.

Lemma forallb_lookup {A} (f : A → bool) (l : list A) :
  forallb f l = true ↔ ∀ i x, l !! i = Some x → f x = true.
Proof.
  rewrite forallb_forall. split.
  - intros Hf i x Hi. apply Hf, list_elem_of_In, list_elem_of_lookup. eauto.
  - intros Hf x Hin%list_elem_of_In. apply list_elem_of_lookup in Hin as [i Hi]. eauto.
Qed.

Lemma lookup_zip_Some {A B} (l : list A) (k : list B) i p :
  zip l k !! i = Some p ↔ l !! i = Some p.1 ∧ k !! i = Some p.2.
Proof.
  rewrite lookup_zip_with_Some. destruct p as [x y]. naive_solver.
Qed.

Lemma Forall_snoc_2 {A} (P : A → Prop) l x : Forall P l → P x → Forall P (l ++ [x]).
Proof. intros. apply Forall_app. by split; [|constructor]. Qed.

Lemma Forall_snoc_inv {A} (P : A → Prop) l x : Forall P (l ++ [x]) → Forall P l ∧ P x.
Proof. intros [Hl Hx]%Forall_app. by inversion Hx. Qed.

Lemma filter_all {A} (P : A → Prop) `{∀ x, Decision (P x)} l : Forall P l → filter P l = l.
Proof. induction 1 as [|x l Hx _ IH]; [done|]. by rewrite filter_cons_True, IH. Qed.

Lemma filter_none {A} (P : A → Prop) `{∀ x, Decision (P x)} l : Forall (λ x, ¬ P x) l → filter P l = [].
Proof. induction 1 as [|x l Hx _ IH]; [done|]. by rewrite filter_cons_False. Qed.

(** ** Bits *)

(** Disjoint bit fields: [(a << n) | b] is [a * 2^n + b]. *)
Lemma N_lor_shiftl_add (a b n : N) :
  (b < 2 ^ n)%N → N.lor (N.shiftl a n) b = (a * 2 ^ n + b)%N.
Proof.
  intros Hb. assert (N.land (N.shiftl a n) b = 0%N) as Hdisj.
  { apply N.bits_inj. intros i. rewrite N.land_spec, N.bits_0.
    destruct (N.ltb_spec i n).
    - by rewrite N.shiftl_spec_low.
    - apply andb_false_iff. right. destruct (decide (b = 0%N)) as [->|Hb0]; [apply N.bits_0|].
      apply N.bits_above_log2. apply N.log2_lt_pow2 in Hb; lia. }
  rewrite <-N.lxor_lor, <-N.add_nocarry_lxor by done. by rewrite N.shiftl_mul_pow2.
Qed.
