(* ===== verification/Clock.v ===== *)
(** * Logical clocks ([crates/clock/src/clock.rs])

    Replica ids, Lamport timestamps and version vectors.  [Lamport] is the
    total order every replica uses to order concurrent operations; [Global] is
    the set of operations a replica has observed, as one sequence number per
    replica. *)

From S2P Require Import Prelude.

(** [struct ReplicaId(u16)] *)
Abbreviation ReplicaId := N (only parsing).
Definition LOCAL : ReplicaId := 0.
Definition REMOTE_SERVER : ReplicaId := 1.
Definition AGENT : ReplicaId := 2.
Definition LOCAL_BRANCH : ReplicaId := 3.
Definition FIRST_COLLAB_ID : ReplicaId := 8.

Definition is_remote (id : ReplicaId) : bool :=
  (id =? REMOTE_SERVER)%N || (FIRST_COLLAB_ID <=? id)%N.

(** [struct Lamport { value: u32, replica_id: u16 }] *)
Record Lamport := mkLamport { value : N; replica_id : ReplicaId }.

#[global] Instance Lamport_eq_dec : EqDecision Lamport.
Proof. solve_decision. Defined.
#[global] Instance Lamport_countable : Countable Lamport.
Proof.
  refine (inj_countable' (λ t, (value t, replica_id t)) (λ p, mkLamport p.1 p.2) _).
  by intros [].
Defined.

(** The ranges of the two fields. *)
Definition Lamport_ok (t : Lamport) : Prop := (value t <= u32_max ∧ replica_id t <= u16_max)%N.

Module Lamport.
Definition MIN : Lamport := {| replica_id := 0; value := 0 |}.
Definition MAX : Lamport := {| replica_id := u16_max; value := u32_max |}.

Definition new (replica_id : ReplicaId) : Lamport :=
  {| value := 1; replica_id := replica_id |}.

Definition as_u64 (t : Lamport) : N :=
  N.lor (N.shiftl (value t) 32) (replica_id t).

(** Returns the updated clock and the timestamp handed out. *)
Definition tick (self : Lamport) : option (Lamport * Lamport) :=
  let timestamp := self in
  v ← checked_add u32_max (value self) 1;
  Some (mkLamport v (replica_id self), timestamp).

Definition observe (self timestamp : Lamport) : option Lamport :=
  v ← checked_add u32_max (N.max (value self) (value timestamp)) 1;
  Some (mkLamport v (replica_id self)).
End Lamport.

(** [impl Ord for Lamport] *)
#[global] Instance Lamport_ord : Ord Lamport := λ self other,
  then_with (cmp (value self) (value other)) (cmp (replica_id self) (replica_id other)).

(** [struct Global { values: SmallVec<[u32; 4]> }] *)
Record Global := mkGlobal { values : list N }.

(** Writes through [left.iter_mut().zip(right)]: the tail of the longer list on
    the left is not visited. *)
Fixpoint zip_mut {A B} (f : A → B → A) (ls : list A) (rs : list B) : list A :=
  match ls, rs with
  | l :: ls, r :: rs => f l r :: zip_mut f ls rs
  | ls, [] => ls
  | [], _ => []
  end.

Module Global.
Definition new : Global := {| values := [] |}.

Definition get (self : Global) (replica_id : ReplicaId) : N :=
  default 0%N (values self !! N.to_nat replica_id).

Definition observe (self : Global) (timestamp : Lamport) : option Global :=
  _ ← rassert (negb (replica_id timestamp =? replica_id Lamport.MAX)%N);
  if (0 <? value timestamp)%N then
    let new_len := N.to_nat (replica_id timestamp) + 1 in
    let vs :=
      if decide (length (values self) < new_len)
      then resize new_len 0%N (values self) else values self in
    entry ← vs !! N.to_nat (replica_id timestamp);
    Some {| values := <[N.to_nat (replica_id timestamp) := N.max entry (value timestamp)]> vs |}
  else Some self.

Definition join (self other : Global) : Global :=
  let vs :=
    if decide (length (values self) < length (values other))
    then resize (length (values other)) 0%N (values self) else values self in
  {| values := zip_mut N.max vs (values other) |}.

Definition meet_entry (l r : N) : N :=
  match l, r with
  | 0%N, _ => r
  | _, 0%N => l
  | _, _ => N.min l r
  end.

(** The loop of [meet] from index [ix]: the new entries and [new_len]. *)
Fixpoint meet_loop (ix new_len : nat) (ls rs : list N) : list N * nat :=
  match ls, rs with
  | l :: ls, r :: rs =>
      let l' := meet_entry l r in
      let new_len := if (l' =? 0)%N then new_len else ix + 1 in
      let '(rest, new_len) := meet_loop (ix + 1) new_len ls rs in
      (l' :: rest, new_len)
  | ls, [] => (ls, new_len)
  | [], _ => ([], new_len)
  end.

Definition meet (self other : Global) : Global :=
  let vs :=
    if decide (length (values self) < length (values other))
    then resize (length (values other)) 0%N (values self) else values self in
  let '(vs, new_len) := meet_loop 0 0 vs (values other) in
  {| values := if decide (length (values other) = length vs) then take new_len vs else vs |}.

Definition iter (self : Global) : list Lamport :=
  imap (λ replica_id seq, {| replica_id := N.of_nat replica_id; value := seq |}) (values self).

Definition observed (self : Global) (timestamp : Lamport) : bool :=
  (value timestamp <=? get self (replica_id timestamp))%N.

Definition observed_any (self other : Global) : bool :=
  existsb (λ '(l, r), (0 <? value r)%N && (value r <=? value l)%N)
    (zip (iter self) (iter other)).

Definition observed_all (self other : Global) : bool :=
  if decide (length (values self) < length (values other)) then false else
  forallb (λ '(l, r), (value r <=? value l)%N) (zip (iter self) (iter other)).

Definition changed_since (self other : Global) : bool :=
  bool_decide (length (values other) < length (values self)) ||
  existsb (λ '(l, r), (r <? l)%N) (zip (values self) (values other)).

(** [Iterator::max_by_key]: the last of the greatest elements. *)
Definition most_recent (self : Global) : option Lamport :=
  foldl (λ best t,
    match best with
    | Some b => if (value b <=? value t)%N then Some t else Some b
    | None => Some t
    end) None (iter self).

Definition from_iter (locals : list Lamport) : option Global :=
  foldl (λ result local, result ← result; observe result local) (Some new) locals.
End Global.

(** ** Version vectors *)

(** A version vector has no trailing zero; the operations below keep it so, and
    on such vectors the derived (structural) equality is equality of the
    observed sequence numbers. *)
Definition canonical (g : Global) : Prop := last (values g) ≠ Some 0%N.

(** Equality of what two vectors have observed, coarser than [=]. *)
#[global] Instance Global_equiv : Equiv Global := λ a b, ∀ r, Global.get a r = Global.get b r.
#[global] Instance Global_equivalence : Equivalence (≡@{Global}).
Proof.
  split; [by intros a r|intros a b H r; symmetry; apply H|].
  intros a b c H1 H2 r. etrans; [apply H1|apply H2].
Qed.
#[global] Instance get_proper : Proper ((≡) ==> (=) ==> (=)) Global.get.
Proof. intros a b Hab r _ <-. apply Hab. Qed.

Lemma zip_mut_lookup {A B} (f : A → B → A) ls rs i :
  zip_mut f ls rs !! i =
    (l ← ls !! i; Some (match rs !! i with Some r => f l r | None => l end)).
Proof.
  revert rs i. induction ls as [|l ls IH]; intros [|r rs] [|i]; simpl; try done.
  - by destruct (ls !! i).
Qed.

Lemma length_zip_mut {A B} (f : A → B → A) ls rs : length (zip_mut f ls rs) = length ls.
Proof. revert rs. induction ls; intros []; simpl; auto. Qed.

(** Padding with zeros is not observable. *)
Lemma default_resize (n : nat) (l : list N) i :
  length l <= n → default 0%N (resize n 0%N l !! i) = default 0%N (l !! i).
Proof.
  intros Hn. destruct (decide (i < length l)).
  - rewrite lookup_resize by lia. done.
  - rewrite (lookup_ge_None_2 l i) by lia. destruct (decide (i < n)).
    + by rewrite lookup_resize_new by lia.
    + by rewrite lookup_resize_old by lia.
Qed.

Lemma pad_spec (l : list N) (n : nat) :
  let l' := if decide (length l < n) then resize n 0%N l else l in
  length l' = length l `max` n ∧ ∀ i, default 0%N (l' !! i) = default 0%N (l !! i).
Proof.
  simpl. case_decide.
  - rewrite length_resize. split; [lia|]. intros i. apply default_resize. lia.
  - split; [lia|done].
Qed.

Module GlobalFacts.
Import Global.

Lemma get_observe g t g' r :
  observe g t = Some g' →
  get g' r = (if decide (r = replica_id t) then N.max (get g r) (value t) else get g r)%N.
Proof.
  unfold observe, get. intros H.
  destruct (rassert _) as [[]|]; simpl in H; [|done].
  destruct (0 <? value t)%N eqn:Hv; simplify_eq/=.
  - apply N.ltb_lt in Hv.
    destruct (pad_spec (values g) (N.to_nat (replica_id t) + 1)) as [Hlen Hget].
    set (vs := if decide _ then _ else _) in *. clearbody vs.
    destruct (vs !! N.to_nat (replica_id t)) as [e|] eqn:He; simplify_eq/=.
    case_decide as Hr; subst.
    + rewrite list_lookup_insert_eq by lia. simpl. rewrite <-Hget, He. done.
    + rewrite list_lookup_insert_ne by lia. apply Hget.
  - apply N.ltb_ge in Hv. case_decide; [subst; lia|done].
Qed.

Lemma get_join a b r : get (join a b) r = N.max (get a r) (get b r).
Proof.
  unfold join, get; simpl.
  destruct (pad_spec (values a) (length (values b))) as [Hlen Hget].
  set (vs := if decide _ then _ else _) in *. clearbody vs.
  rewrite zip_mut_lookup, <-Hget.
  destruct (vs !! N.to_nat r) as [x|] eqn:Hx; simpl.
  - destruct (values b !! N.to_nat r); simpl; lia.
  - rewrite (lookup_ge_None_2 (values b)); [done|]. apply lookup_ge_None in Hx. lia.
Qed.

Lemma meet_loop_spec ix nl ls rs vs n :
  meet_loop ix nl ls rs = (vs, n) → nl <= ix →
  length vs = length ls ∧ nl <= n <= ix + length ls `min` length rs ∧
  (∀ i, vs !! i = (l ← ls !! i; Some (match rs !! i with Some r => meet_entry l r | None => l end))) ∧
  (∀ i x, i < length rs → vs !! i = Some x → x ≠ 0%N → ix + i < n) ∧
  (n = nl ∨ ∃ i x, n = ix + i + 1 ∧ i < length rs ∧ vs !! i = Some x ∧ x ≠ 0%N).
Proof.
  revert ix nl rs vs n. induction ls as [|l ls IH]; intros ix nl [|r rs] vs n Heq Hnl; simplify_eq/=;
    [split_and!; auto; try lia; naive_solver lia..| |].
  - split_and!; auto; try lia. intros [|i]; simpl; [done|by destruct (ls !! i)].
  - destruct (meet_loop _ _ _ _) as [rest n'] eqn:Hrec; simplify_eq/=.
    apply IH in Hrec as (Hlen & Hn & Hlook & Hnz & Hlast); [|case_match; lia].
    split_and!; [lia|case_match; lia|case_match; lia| | |].
    + by intros [|i]; simpl.
    + intros [|i] x Hi Hx Hx0; simplify_eq/=.
      * apply N.eqb_neq in Hx0. rewrite Hx0 in Hn. lia.
      * apply Hnz in Hx; [lia|lia|done].
    + destruct Hlast as [->|(i & x & -> & Hi & Hx & Hx0)].
      * destruct (meet_entry l r =? 0)%N eqn:E; [by left|right].
        apply N.eqb_neq in E. exists 0, (meet_entry l r). naive_solver lia.
      * right. exists (S i), x. naive_solver lia.
Qed.

Lemma get_meet a b r : get (meet a b) r = meet_entry (get a r) (get b r).
Proof.
  unfold meet, get.
  destruct (pad_spec (values a) (length (values b))) as [Hlen Hget].
  set (vs := if decide _ then _ else _) in *. clearbody vs.
  destruct (meet_loop _ _ _ _) as [vs' n] eqn:Hloop.
  apply meet_loop_spec in Hloop as (Hlen' & Hn & Hlook & Hnz & _); [|done]. simpl.
  rewrite <-Hget. set (i := N.to_nat r).
  transitivity (default 0%N (vs' !! i)).
  - case_decide as Heq; [|done].
    destruct (decide (i < n)); [by rewrite lookup_take_lt|].
    rewrite lookup_take_ge by lia. simpl.
    destruct (vs' !! i) as [x|] eqn:Hx; [|done]. simpl.
    destruct (decide (x = 0%N)) as [->|Hx0]; [done|].
    assert (i < length vs') by (by eapply lookup_lt_Some).
    exfalso. apply Hnz in Hx; [lia|lia|done].
  - rewrite Hlook. destruct (vs !! i) as [x|] eqn:Hx; simpl.
    + destruct (values b !! i); simpl; [done|]. by destruct x.
    + apply lookup_ge_None in Hx. rewrite (lookup_ge_None_2 (values b)); [done|lia].
Qed.

Lemma canonical_last_ne g : canonical g → values g ≠ [] →
  ∃ x, values g !! (length (values g) - 1) = Some x ∧ x ≠ 0%N.
Proof.
  unfold canonical. rewrite last_lookup, Nat.sub_1_r. intros Hc Hne.
  destruct (values g !! pred (length (values g))) as [x|] eqn:Hx.
  - exists x. split; [done|]. by intros ->.
  - apply lookup_ge_None in Hx. destruct (values g); simpl in *; [done|lia].
Qed.

Lemma canonical_intro g :
  (values g ≠ [] → ∃ x, values g !! (length (values g) - 1) = Some x ∧ x ≠ 0%N) →
  canonical g.
Proof.
  unfold canonical. rewrite last_lookup, Nat.sub_1_r. intros H Heq.
  destruct H as (x & Hx & Hx0); [by intros Hnil; rewrite Hnil in Heq|congruence].
Qed.

(** Equal observations are equal values on canonical vectors. *)
Lemma canonical_ext a b : canonical a → canonical b → a ≡ b → a = b.
Proof.
  assert (Hlen : ∀ a b, canonical a → a ≡ b → length (values a) <= length (values b)).
  { clear. intros a b Ha Hab. destruct (decide (values a = [])) as [->|Hne]; [simpl; lia|].
    destruct (canonical_last_ne a Ha Hne) as (x & Hx & Hx0).
    specialize (Hab (N.of_nat (length (values a) - 1))). unfold get in Hab.
    rewrite Nat2N.id, Hx in Hab. simpl in Hab.
    destruct (values b !! _) as [y|] eqn:Hy; [|done]. apply lookup_lt_Some in Hy. lia. }
  intros Ha Hb Hab. destruct a as [va], b as [vb]. f_equal.
  assert (length va = length vb) as Heq.
  { apply Nat.le_antisymm; [apply (Hlen (mkGlobal va) (mkGlobal vb))|
      apply (Hlen (mkGlobal vb) (mkGlobal va))]; done. }
  apply list_eq_same_length with (length vb); [done|done|].
  intros i x y _ Hx Hy. specialize (Hab (N.of_nat i)). unfold get in Hab; simpl in Hab.
  rewrite Nat2N.id, Hx, Hy in Hab. done.
Qed.

Lemma observe_canonical g t g' : canonical g → observe g t = Some g' → canonical g'.
Proof.
  unfold observe. intros Hc H. destruct (rassert _) as [[]|]; simpl in H; [|done].
  destruct (0 <? value t)%N eqn:Hv; simplify_eq/=; [|done]. apply N.ltb_lt in Hv.
  destruct (pad_spec (values g) (N.to_nat (replica_id t) + 1)) as [Hlen Hget].
  set (vs := if decide _ then _ else _) in *.
  destruct (vs !! _) as [e|] eqn:He; simplify_eq/=.
  apply canonical_intro; simpl. rewrite length_insert. intros _.
  destruct (decide (length vs - 1 = N.to_nat (replica_id t))) as [Heq|Hne].
  - rewrite Heq, list_lookup_insert_eq by lia. eexists; split; [done|lia].
  - rewrite list_lookup_insert_ne by lia. revert Hne Hlen. subst vs. case_decide; [lia|].
    intros _ _. apply canonical_last_ne; [done|]. destruct (values g); simpl in *; [lia|done].
Qed.

Lemma join_canonical a b : canonical a → canonical b → canonical (join a b).
Proof.
  intros Ha Hb. apply canonical_intro. unfold join; simpl. rewrite length_zip_mut.
  destruct (pad_spec (values a) (length (values b))) as [Hlen Hget].
  set (vs := if decide _ then _ else _) in *. rewrite zip_mut_lookup. intros Hne.
  assert (0 < length vs) by (destruct vs, (values b); simpl in *; [done|lia..]).
  destruct (vs !! (length vs - 1)) as [x|] eqn:Hx; [|apply lookup_ge_None in Hx; lia].
  eexists; split; [done|].
  destruct (decide (length (values b) < length vs)) as [Hlt|Hge].
  - rewrite (lookup_ge_None_2 (values b)) by lia. revert Hx Hlt Hlen. subst vs.
    case_decide; [lia|]. intros Hx ??. destruct (canonical_last_ne a) as (y & Hy & ?); [done| |congruence].
    intros Hnil. rewrite Hnil in *. simpl in *. lia.
  - destruct (canonical_last_ne b) as (y & Hy & ?); [done| |].
    + intros Hnil. rewrite Hnil in *. simpl in *. lia.
    + replace (length vs - 1) with (length (values b) - 1) by lia. rewrite Hy. lia.
Qed.

Lemma meet_canonical a b : canonical a → canonical b → canonical (meet a b).
Proof.
  intros Ha Hb. apply canonical_intro. unfold meet.
  destruct (pad_spec (values a) (length (values b))) as [Hlen Hget].
  set (vs := if decide (length (values a) < _) then _ else _) in *.
  destruct (meet_loop _ _ _ _) as [vs' n] eqn:Hloop.
  apply meet_loop_spec in Hloop as (Hlen' & Hn & Hlook & Hnz & Hlast); [|done]. simpl.
  case_decide as Heq.
  - rewrite length_take. intros Hne.
    destruct Hlast as [->|(i & x & -> & Hi & Hx & Hx0)]; [by rewrite take_0 in Hne|].
    exists x. rewrite lookup_take_lt by lia. split; [|done].
    rewrite <-Hx. f_equal. lia.
  - revert Hlen Hlook Heq Hlen'. subst vs. case_decide.
    { intros. exfalso. rewrite length_resize in *. lia. }
    intros _ Hlook Heq Hlen' Hne. rewrite Hlook, Hlen'.
    destruct (canonical_last_ne a) as (y & Hy & Hy0); [done| |].
    + intros Hnil. rewrite Hnil in *. destruct vs'; simpl in *; [done|lia].
    + rewrite Hy; simpl. eexists; split; [done|]. rewrite (lookup_ge_None_2 (values b)) by lia. done.
Qed.

Lemma iter_lookup g i t :
  iter g !! i = Some t ↔ values g !! i = Some (value t) ∧ replica_id t = N.of_nat i.
Proof.
  unfold iter. rewrite list_lookup_imap_Some.
  destruct t as [v r]; simpl. split; [naive_solver|]. intros [? ->]. eauto.
Qed.

Lemma get_lookup g i x : values g !! i = Some x → get g (N.of_nat i) = x.
Proof. intros H. unfold get. by rewrite Nat2N.id, H. Qed.

Lemma get_pos_lookup g r : (0 < get g r)%N → values g !! N.to_nat r = Some (get g r).
Proof. unfold get. destruct (_ !! _); simpl; [done|lia]. Qed.
End GlobalFacts.

(** *** Properties of version vectors *)

Import Global GlobalFacts.

#[export] Instance join_proper : Proper ((≡) ==> (≡) ==> (≡)) join.
Proof. intros a a' Ha b b' Hb r. by rewrite !get_join, Ha, Hb. Qed.
#[export] Instance meet_proper : Proper ((≡) ==> (≡) ==> (≡)) meet.
Proof. intros a a' Ha b b' Hb r. by rewrite !get_meet, Ha, Hb. Qed.
#[export] Instance observed_proper : Proper ((≡) ==> (=) ==> (=)) observed.
Proof. intros a a' Ha t _ <-. unfold observed. by rewrite Ha. Qed.

(** The vectors a replica can hold: [new] and whatever the three mutating
    operations make of vectors it holds. *)
Inductive reachable : Global → Prop :=
  | reachable_new : reachable new
  | reachable_observe g t g' : reachable g → observe g t = Some g' → reachable g'
  | reachable_join a b : reachable a → reachable b → reachable (join a b)
  | reachable_meet a b : reachable a → reachable b → reachable (meet a b).

Lemma reachable_canonical g : reachable g → canonical g.
Proof.
  induction 1; [done|by eapply observe_canonical|by apply join_canonical|by apply meet_canonical].
Qed.

Lemma observed_all_iff a b :
  canonical b → observed_all a b = true ↔ ∀ r, (get b r <= get a r)%N.
Proof.
  intros Hb. unfold observed_all. case_decide as Hlen.
  - split; [done|]. intros H. exfalso.
    destruct (canonical_last_ne b) as (x & Hx & Hx0); [done|by intros Hn; rewrite Hn in Hlen; simpl in *; lia|].
    specialize (H (N.of_nat (length (values b) - 1))). rewrite (get_lookup b _ x Hx) in H.
    unfold get in H. rewrite Nat2N.id, lookup_ge_None_2 in H by lia. simpl in H. lia.
  - rewrite forallb_lookup. split.
    + intros H r. destruct (decide (0 < get b r)%N) as [Hp|]; [|lia].
      apply get_pos_lookup in Hp as Hbr.
      destruct (values a !! N.to_nat r) as [x|] eqn:Har; [|apply lookup_ge_None in Har; apply lookup_lt_Some in Hbr; lia].
      specialize (H (N.to_nat r) (mkLamport x r, mkLamport (get b r) r)).
      rewrite lookup_zip_Some, !iter_lookup in H. simpl in H. rewrite N2Nat.id in H.
      apply N.leb_le in H; [|done]. unfold get at 2. by rewrite Har.
    + intros H i [l r] [Hl Hr]%lookup_zip_Some. simpl in *. apply N.leb_le.
      apply iter_lookup in Hl as [Hl _], Hr as [Hr _].
      rewrite <-(get_lookup a i _ Hl), <-(get_lookup b i _ Hr). apply H.
Qed.

(** A version vector [a] that a replica holds has observed all of another
    ([observed_all]) exactly when it has observed every timestamp the other
    has, and [changed_since] is the exact negation of the converse. *)
Theorem observed_all_spec a b :
  reachable a → reachable b →
  (observed_all a b = true ↔ ∀ t, observed b t = true → observed a t = true) ∧
  changed_since b a = negb (observed_all a b).
Proof.
  intros _ Hb%reachable_canonical. split.
  - rewrite observed_all_iff by done. unfold observed. split.
    + intros H t Ht%N.leb_le. apply N.leb_le. specialize (H (replica_id t)). lia.
    + intros H r. specialize (H (mkLamport (get b r) r)). simpl in H.
      apply N.leb_le, H, N.leb_le. lia.
  - unfold changed_since, observed_all. case_decide as Hlen.
    { by rewrite bool_decide_eq_true_2. }
    rewrite bool_decide_eq_false_2 by done. simpl.
    apply eq_true_iff_eq. rewrite negb_true_iff, <-not_true_iff_false, existsb_lookup, forallb_lookup.
    split.
    + intros (i & [x y] & [Hx Hy]%lookup_zip_Some & Hlt%N.ltb_lt) Hall; simpl in *.
      specialize (Hall i (mkLamport y (N.of_nat i), mkLamport x (N.of_nat i))).
      rewrite lookup_zip_Some, !iter_lookup in Hall. simpl in Hall.
      apply N.leb_le in Hall; [lia|done].
    + intros Hnot.
      destruct (existsb (λ '(l, r), (r <? l)%N) (zip (values b) (values a))) eqn:E;
        [by apply existsb_lookup|].
      exfalso. apply Hnot. intros i [l r] [Hl Hr]%lookup_zip_Some; simpl in *.
      apply iter_lookup in Hl as [Hl _], Hr as [Hr _]. apply N.leb_le, N.nlt_ge. intros Hlt.
      apply not_true_iff_false in E. apply E, existsb_lookup.
      exists i, (value r, value l). rewrite lookup_zip_Some. split; [done|]. by apply N.ltb_lt.
Qed.

Lemma observed_all_spec_witness :
  let a := mkGlobal [3; 2]%N in let b := mkGlobal [1; 2]%N in
  (observed_all a b = true ↔ ∀ t, observed b t = true → observed a t = true) ∧
  changed_since b a = negb (observed_all a b).
Proof.
  assert (H1 : reachable (mkGlobal [1; 2]%N)).
  { apply (reachable_observe (mkGlobal [1]%N) (mkLamport 2 1)); [|done].
    apply (reachable_observe new (mkLamport 1 0)); [constructor|done]. }
  apply observed_all_spec; [|done].
  apply (reachable_observe (mkGlobal [1; 2]%N) (mkLamport 3 0)); done.
Defined.

(** C37. Joining two vectors observes exactly the union of what the two have
    observed; [join] is therefore the least upper bound, and on the vectors a
    replica can hold it is commutative, associative and idempotent as a
    function (up to structural equality), so replicas that exchange their
    vectors in any order agree. *)
Theorem join_least_upper_bound a b c :
  reachable a → reachable b → reachable c →
  (∀ t, observed (join a b) t = observed a t || observed b t) ∧
  join a b = join b a ∧ join a (join b c) = join (join a b) c ∧ join a a = a.
Proof.
  intros Ha%reachable_canonical Hb%reachable_canonical Hc%reachable_canonical.
  split_and!.
  - intros t. unfold observed. rewrite get_join. apply eq_true_iff_eq.
    rewrite orb_true_iff, !N.leb_le. lia.
  - apply canonical_ext; auto using join_canonical. intros r. rewrite !get_join. lia.
  - apply canonical_ext; auto using join_canonical. intros r. rewrite !get_join. lia.
  - apply canonical_ext; auto using join_canonical. intros r. rewrite !get_join. lia.
Qed.

Lemma join_least_upper_bound_witness :
  let a := new in let b := mkGlobal [1]%N in
  (∀ t, observed (join a b) t = observed a t || observed b t) ∧
  join a b = join b a ∧ join a (join b b) = join (join a b) b ∧ join a a = a.
Proof.
  assert (H1 : reachable (mkGlobal [1]%N)).
  { apply (reachable_observe new (mkLamport 1 0)); [constructor|done]. }
  apply join_least_upper_bound; [constructor|done|done].
Defined.

Lemma observed_any_iff a b :
  observed_any a b = true ↔ ∃ t, (0 < value t)%N ∧ value t = get b (replica_id t) ∧ observed a t = true.
Proof.
  unfold observed_any, observed. rewrite existsb_lookup. split.
  - intros (i & [l r] & [Hl Hr]%lookup_zip_Some & [Hp%N.ltb_lt Hle%N.leb_le]%andb_true_iff).
    simpl in *. apply iter_lookup in Hl as [Hl _], Hr as [Hr Hid].
    exists r. split; [done|]. rewrite Hid, (get_lookup _ _ _ Hr), (get_lookup _ _ _ Hl).
    split; [done|]. by apply N.leb_le.
  - intros ([v rid] & Hp & Heq & Hle%N.leb_le); simpl in *.
    assert (0 < get b rid)%N as Hb%get_pos_lookup by lia.
    assert (0 < get a rid)%N as Ha%get_pos_lookup by lia.
    exists (N.to_nat rid), (mkLamport (get a rid) rid, mkLamport (get b rid) rid).
    rewrite lookup_zip_Some, !iter_lookup; simpl. rewrite !N2Nat.id. split; [done|].
    apply andb_true_iff. rewrite N.ltb_lt, N.leb_le. lia.
Qed.

(** [most_recent] is an observed timestamp no other observed one exceeds. *)
Lemma most_recent_spec g :
  match most_recent g with
  | Some t => value t = get g (replica_id t) ∧ ∀ r, (get g r <= value t)%N
  | None => ∀ r, get g r = 0%N
  end.
Proof.
  assert (Hfold : ∀ l best, match foldl (λ best t, match best with
      | Some b => if (value b <=? value t)%N then Some t else Some b
      | None => Some t end) best l with
    | Some m => (best = Some m ∨ m ∈ l) ∧
        (∀ x, x ∈ l → (value x <= value m)%N) ∧ (∀ b, best = Some b → (value b <= value m)%N)
    | None => l = [] ∧ best = None end).
  { induction l as [|x l IH]; intros best; simpl.
    - destruct best; [|done]. split; [by left|]. split; [set_solver|naive_solver lia].
    - match goal with |- context [foldl _ ?b l] => specialize (IH b) end.
      destruct (foldl _ _ l) as [m|]; [|destruct best as [b|]; simpl in IH; repeat case_match; naive_solver].
      destruct IH as (Hin & Hall & Hb).
      destruct best as [b|].
      + destruct (value b <=? value x)%N eqn:E; [apply N.leb_le in E|apply N.leb_gt in E];
          specialize (Hb _ eq_refl); (split; [set_solver|]); split.
        * intros y [->|Hy]%list_elem_of_In; [lia|apply Hall; by apply list_elem_of_In].
        * naive_solver lia.
        * intros y [->|Hy]%list_elem_of_In; [lia|apply Hall; by apply list_elem_of_In].
        * naive_solver lia.
      + specialize (Hb _ eq_refl). split; [set_solver|]. split; [|done].
        intros y [->|Hy]%list_elem_of_In; [lia|apply Hall; by apply list_elem_of_In]. }
  specialize (Hfold (iter g) None). unfold most_recent. destruct (foldl _ _ _) as [t|].
  - destruct Hfold as ([?|Hin] & Hall & _); [done|].
    apply list_elem_of_lookup in Hin as [i [Hi Hid]%iter_lookup]. split.
    + by rewrite Hid, (get_lookup _ _ _ Hi).
    + intros r. destruct (decide (0 < get g r)%N) as [Hp%get_pos_lookup|]; [|lia].
      apply (Hall (mkLamport (get g r) r)), list_elem_of_lookup. exists (N.to_nat r).
      apply iter_lookup. simpl. by rewrite N2Nat.id.
  - destruct Hfold as [Hnil _]. intros r. unfold get, iter in *.
    apply (f_equal length) in Hnil. rewrite length_imap in Hnil. simpl in Hnil.
    by destruct (values g).
Qed.

(** ** Lamport timestamps *)

#[global] Instance Lamport_ord_laws : OrdLaws Lamport.
Proof.
  assert (Hp : ∀ a b : Lamport, cmp a b = cmp (value a, replica_id a) (value b, replica_id b)) by done.
  split.
  - intros a. by rewrite Hp, cmp_refl.
  - intros [] [] Heq. rewrite Hp in Heq. apply cmp_eq in Heq. naive_solver.
  - intros a b. rewrite !Hp. apply cmp_opp.
  - intros a b c. rewrite !Hp. apply cmp_lt_trans.
Qed.

Lemma Lamport_lt_value a b : (value a < value b)%N → cmp a b = Lt.
Proof. intros H%N_cmp_lt. unfold cmp, Lamport_ord. by rewrite H. Qed.

(** [as_u64] embeds the order of timestamps: comparing the packed 64-bit
    integers is comparing the timestamps (sequence number first, replica id to
    break ties), the packing fits 64 bits and loses nothing. *)
Theorem as_u64_order a b :
  Lamport_ok a → Lamport_ok b →
  (Lamport.as_u64 a ?= Lamport.as_u64 b)%N = cmp a b ∧ (Lamport.as_u64 a <= u64_max)%N ∧
  (Lamport.as_u64 a = Lamport.as_u64 b → a = b).
Proof.
  unfold Lamport_ok, u16_max, u32_max, u64_max. intros [Hva Hra] [Hvb Hrb].
  assert (Hpack : ∀ t, (replica_id t <= 65535)%N →
    Lamport.as_u64 t = (value t * 4294967296 + replica_id t)%N).
  { intros t Ht. unfold Lamport.as_u64. rewrite N_lor_shiftl_add; [done|]. simpl. lia. }
  rewrite !Hpack by done.
  assert (Hcmp : (value a * 4294967296 + replica_id a ?= value b * 4294967296 + replica_id b)%N = cmp a b).
  { unfold cmp, Lamport_ord, cmp, N_ord.
    destruct (N.compare_spec (value a) (value b)) as [E|E|E]; simpl.
    - destruct (N.compare_spec (replica_id a) (replica_id b)) as [E'|E'|E'];
        [apply N.compare_eq_iff|apply N.compare_lt_iff|apply N.compare_gt_iff]; lia.
    - apply N.compare_lt_iff. lia.
    - apply N.compare_gt_iff. lia. }
  split; [done|]. split; [lia|]. intros Heq. apply cmp_eq. rewrite <-Hcmp, Heq. apply N.compare_refl.
Qed.

Lemma as_u64_order_witness :
  let a := mkLamport 7 2 in let b := mkLamport 7 9 in
  (Lamport.as_u64 a ?= Lamport.as_u64 b)%N = cmp a b ∧ (Lamport.as_u64 a <= u64_max)%N ∧
  (Lamport.as_u64 a = Lamport.as_u64 b → a = b).
Proof. apply as_u64_order; done. Defined.

(** What a replica does with its local clock: hand out a timestamp for an
    operation of its own, or observe the timestamp of a remote one. *)
Inductive ClockEvent := Tick | Observe (t : Lamport).

Fixpoint run_clock (clock : Lamport) (es : list ClockEvent) : option (Lamport * list Lamport) :=
  match es with
  | [] => Some (clock, [])
  | Tick :: es =>
      '(clock, t) ← Lamport.tick clock;
      '(clock, ts) ← run_clock clock es;
      Some (clock, t :: ts)
  | Observe t :: es => clock ← Lamport.observe clock t; run_clock clock es
  end.

Definition event_bound (m : N) (e : ClockEvent) : Prop :=
  match e with Tick => True | Observe t => (value t <= m)%N end.

Lemma run_clock_spec m es clock :
  (value clock <= m)%N → Forall (event_bound m) es → (m + N.of_nat (length es) <= u32_max)%N →
  ∃ clock' ts, run_clock clock es = Some (clock', ts) ∧
    Forall (λ t, replica_id t = replica_id clock ∧ (value clock <= value t)%N) ts ∧
    StronglySorted (λ s t, cmp s t = Lt) ts.
Proof.
  revert m clock. induction es as [|[|o] es IH]; intros m clock Hc Hes Hm; simpl in *.
  - eexists _, _. split; [done|]. split; constructor.
  - inversion_clear Hes. unfold Lamport.tick. rewrite checked_add_Some by lia. simpl.
    destruct (IH (m + 1)%N (mkLamport (value clock + 1) (replica_id clock))) as (c' & ts & -> & Hts & Hs);
      [simpl; lia| |lia|].
    { eapply Forall_impl; [done|]. intros []; simpl; lia. }
    simpl in *. eexists _, _. split; [done|]. split; constructor; auto; try lia.
    + eapply Forall_impl; [done|]. simpl. intros t [? ?]; split; [done|lia].
    + eapply Forall_impl; [done|]. simpl. intros t [? ?]. apply Lamport_lt_value. lia.
  - inversion_clear Hes as [|?? Ho Hes']; simpl in Ho. unfold Lamport.observe.
    rewrite checked_add_Some by lia. simpl.
    destruct (IH (m + 1)%N (mkLamport (N.max (value clock) (value o) + 1) (replica_id clock)))
      as (c' & ts & -> & Hts & Hs); [simpl; lia| |lia|].
    { eapply Forall_impl; [done|]. intros []; simpl; lia. }
    eexists _, _. split; [done|]. split; [|done].
    eapply Forall_impl; [done|]. simpl. intros t [? ?]; split; [done|lia].
Qed.

Lemma run_clock_app clock es1 es2 :
  run_clock clock (es1 ++ es2) =
    ('(clock1, ts1) ← run_clock clock es1; '(clock2, ts2) ← run_clock clock1 es2;
     Some (clock2, ts1 ++ ts2)).
Proof.
  revert clock. induction es1 as [|[|o] es1 IH]; intros clock; simpl.
  - by destruct (run_clock clock es2) as [[]|].
  - destruct (Lamport.tick clock) as [[c t]|]; simpl; [|done]. rewrite IH.
    destruct (run_clock c es1) as [[]|]; simpl; [|done]. by destruct (run_clock _ es2) as [[]|].
  - destruct (Lamport.observe clock o) as [c|]; simpl; [|done]. by rewrite IH.
Qed.

(** The clock condition.  As long as the sequence numbers leave room
    ([m + length es <= u32::MAX]), no tick or observation overflows, the
    timestamps a replica hands out are strictly increasing, and every timestamp
    handed out after a remote one was observed is greater than it. *)
Theorem lamport_clock_condition m clock es1 t es2 :
  (value clock <= m)%N → Forall (event_bound m) (es1 ++ Observe t :: es2) →
  (m + N.of_nat (length (es1 ++ Observe t :: es2)) <= u32_max)%N →
  ∃ clock' ts1 ts2,
    run_clock clock (es1 ++ Observe t :: es2) = Some (clock', ts1 ++ ts2) ∧
    (∃ clock1, run_clock clock es1 = Some (clock1, ts1)) ∧
    StronglySorted (λ s t, cmp s t = Lt) (ts1 ++ ts2) ∧
    Forall (λ s, cmp t s = Lt) ts2.
Proof.
  intros Hc Hes Hm.
  destruct (run_clock_spec m _ clock Hc Hes Hm) as (c' & ts & Hrun & _ & Hsorted).
  rewrite run_clock_app in Hrun.
  destruct (run_clock clock es1) as [[c1 ts1]|] eqn:H1; simpl in Hrun; [|done].
  destruct (Lamport.observe c1 t) as [c2|] eqn:H2; simpl in Hrun; [|done].
  destruct (run_clock c2 es2) as [[c3 ts2]|] eqn:H3; simplify_eq/=.
  eexists _, ts1, ts2. rewrite run_clock_app, H1. simpl. rewrite H2. simpl. rewrite H3.
  split_and!; eauto.
  unfold Lamport.observe in H2. apply bind_Some in H2 as (v & [-> Hv]%checked_add_inv & [= <-]).
  assert (Hge : ∀ es c c' ts, run_clock c es = Some (c', ts) → Forall (λ s, (value c <= value s)%N) ts).
  { clear. induction es as [|[|o] es IH]; intros c c' ts Hrun; simplify_eq/=; [constructor| |].
    - unfold Lamport.tick in Hrun. destruct (checked_add _ _ _) eqn:E; simplify_eq/=.
      apply checked_add_inv in E as [-> ?].
      destruct (run_clock _ es) as [[]|] eqn:Hr; simplify_eq/=. apply IH in Hr. simpl in Hr.
      constructor; [done|]. eapply Forall_impl; [done|]. simpl. lia.
    - unfold Lamport.observe in Hrun. destruct (checked_add _ _ _) eqn:E; simplify_eq/=.
      apply checked_add_inv in E as [-> ?]. apply IH in Hrun. simpl in Hrun.
      eapply Forall_impl; [done|]. simpl. lia. }
  apply Hge in H3. simpl in H3. eapply Forall_impl; [done|]. simpl.
  intros s Hs. apply Lamport_lt_value. lia.
Qed.

Lemma lamport_clock_condition_witness :
  ∃ clock' ts1 ts2,
    run_clock (Lamport.new LOCAL) ([Tick; Tick] ++ Observe (mkLamport 40 9) :: [Tick]) = Some (clock', ts1 ++ ts2) ∧
    (∃ clock1, run_clock (Lamport.new LOCAL) [Tick; Tick] = Some (clock1, ts1)) ∧
    StronglySorted (λ s t, cmp s t = Lt) (ts1 ++ ts2) ∧
    Forall (λ s, cmp (mkLamport 40 9) s = Lt) ts2.
Proof.
  apply (lamport_clock_condition 40); [done| |done]. repeat constructor; done.
Defined.
