(* ===== verification/Locator.v ===== *)
(** * Dense positions ([crates/text/src/locator.rs])

    A locator is a sequence of 64-bit digits ordered lexicographically; the
    fragments of a buffer carry locators, and an insertion between two
    fragments takes a fresh locator strictly between theirs. *)

From S2P Require Import Prelude.

(** [struct Locator(SmallVec<[u64; 2]>)] with its derived (lexicographic) order. *)
Abbreviation Locator := (list N) (only parsing).

Module Locator.

Definition min : Locator := [0%N].
Definition max : Locator := [u64_max].

(** [slice::copy_from_slice] panics unless the lengths agree. *)
Definition copy_from_slice {A} (dst src : list A) : option (list A) :=
  _ ← rassert (bool_decide (length dst = length src)); Some src.

Definition assign (self other : Locator) : option Locator :=
  copy_from_slice (resize (length other) 0%N self) other.

Definition mid (lhs rhs : N) : option N :=
  checked_add u64_max lhs (N.shiftr (rhs - lhs) 48).

(** The loop of [between].  The two iterators are infinite: after their digits
    the left one repeats [u64::MIN] and the right one [u64::MAX]. *)
Fixpoint between_loop (fuel : nat) (lhs rhs : list N) : option Locator :=
  match fuel with
  | 0 => None
  | S fuel =>
      let l := default 0%N (head lhs) in
      let r := default u64_max (head rhs) in
      m ← mid l r;
      if (l <? m)%N then Some [m]
      else rest ← between_loop fuel (tail lhs) (tail rhs); Some (m :: rest)
  end.

(** One digit more than the longer of the two always suffices. *)
Definition between (lhs rhs : Locator) : option Locator :=
  between_loop (S (length lhs `max` length rhs)) lhs rhs.

Definition len (self : Locator) : nat := length self.
Definition is_empty (self : Locator) : bool := len self =? 0.

End Locator.
Import Locator.

(** Digits are [u64]s. *)
Definition digits_ok (l : Locator) : Prop := Forall (λ d, d <= u64_max)%N l.

(** No trailing zero digit: every locator but [min] that the editor makes. *)
Definition proper (l : Locator) : Prop := last l ≠ Some 0%N.

Lemma assign_spec self other : assign self other = Some other.
Proof.
  unfold assign, copy_from_slice. rewrite length_resize.
  by rewrite bool_decide_eq_true_2.
Qed.

Lemma mid_spec l r :
  (l <= u64_max)%N → (r <= u64_max)%N →
  ∃ m, mid l r = Some m ∧ (l <= m <= u64_max)%N ∧ (l < r → m < r)%N ∧ (r <= l → m = l)%N ∧
    (l < m ↔ 2 ^ 48 <= r - l)%N.
Proof.
  unfold u64_max. intros Hl Hr. unfold mid. rewrite N.shiftr_div_pow2.
  assert (Hle : ((r - l) / 2 ^ 48 <= r - l)%N) by (apply N.Div0.div_le_upper_bound; lia).
  assert (Hlt : (l < r → (r - l) / 2 ^ 48 < r - l)%N) by (intros; apply N.div_lt; lia).
  assert (Hz : (r - l < 2 ^ 48 → (r - l) / 2 ^ 48 = 0)%N) by (intros; by apply N.div_small).
  assert (Hp : (2 ^ 48 <= r - l → 1 <= (r - l) / 2 ^ 48)%N) by (intros; apply N.div_le_lower_bound; lia).
  rewrite checked_add_Some by (unfold u64_max; lia).
  eexists; split; [done|]. simpl in *. split_and!; lia.
Qed.

Lemma digits_ok_head l d : digits_ok l → (d <= u64_max)%N → (default d (head l) <= u64_max)%N.
Proof. unfold digits_ok. by destruct 1. Qed.

Lemma digits_ok_tail l : digits_ok l → digits_ok (tail l).
Proof. unfold digits_ok. by destruct 1. Qed.

Create HintDb locator.
#[export] Hint Resolve digits_ok_head digits_ok_tail : locator.
#[export] Hint Extern 1 (_ <= u64_max)%N => done : locator.

Lemma between_loop_total fuel l r :
  digits_ok l → digits_ok r → length l `max` length r < fuel →
  ∃ m, between_loop fuel l r = Some m ∧ digits_ok m ∧ length m <= fuel.
Proof.
  revert l r. induction fuel as [|fuel IH]; intros l r Hl Hr Hf; [lia|]. simpl.
  destruct (mid_spec (default 0%N (head l)) (default u64_max (head r))) as (m & -> & Hm & _ & _ & Hgt);
    [auto with locator..|]. simpl.
  destruct (default 0%N (head l) <? m)%N eqn:E.
  - eexists; split; [done|]. split; [repeat constructor; lia|simpl; lia].
  - apply N.ltb_ge in E.
    assert (length (tail l) `max` length (tail r) < fuel).
    { destruct l, r; simpl in *; try lia. unfold u64_max in *; lia. }
    destruct (IH (tail l) (tail r)) as (m' & -> & Hok & Hlen); [auto with locator..|done|].
    simpl. eexists; split; [done|]. split; [constructor; [lia|done]|simpl; lia].
Qed.

Lemma between_loop_gt fuel l r m :
  digits_ok l → digits_ok r → between_loop fuel l r = Some m → cmp l m = Lt ∧ proper m ∧ m ≠ [].
Proof.
  revert l r m. induction fuel as [|fuel IH]; intros l r m Hl Hr; simpl; [done|].
  destruct (mid_spec (default 0%N (head l)) (default u64_max (head r))) as (d & -> & Hd & _);
    [auto with locator..|]. simpl.
  destruct (_ <? d)%N eqn:E; intros Hm; simplify_eq.
  - apply N.ltb_lt in E. split_and!; [|unfold proper; simpl; intros [=]; lia|done].
    destruct l as [|x l]; [done|]. simpl in E. rewrite list_cmp_cons.
    by rewrite (proj2 (N_cmp_lt x d) E).
  - apply N.ltb_ge in E. destruct (between_loop fuel _ _) as [rest|] eqn:Hrest; simplify_eq/=.
    apply IH in Hrest as (Hlt & Hp & Hne); [|by apply digits_ok_tail..].
    split_and!; [|unfold proper in *; by destruct rest|done].
    destruct l as [|x l]; [done|]. simpl in *. rewrite list_cmp_cons.
    assert (d = x) as -> by lia. by rewrite (cmp_refl x).
Qed.

Lemma between_loop_lt fuel l r m :
  digits_ok l → digits_ok r → proper r → cmp l r = Lt →
  between_loop fuel l r = Some m → cmp m r = Lt.
Proof.
  revert l r m. induction fuel as [|fuel IH]; intros l r m Hl Hr Hp Hlt; simpl; [done|].
  destruct r as [|y r]; [by destruct l|]. simpl.
  assert (Hy : (y <= u64_max)%N) by (by inversion Hr).
  destruct (mid_spec (default 0%N (head l)) y) as (d & -> & Hd & Hdr & Hdl & _);
    [auto with locator|done|]. simpl.
  assert (Hhead : (default 0%N (head l) < y)%N ∨ default 0%N (head l) = y ∧ cmp (tail l) r = Lt ∧ proper r).
  { destruct l as [|x l]; simpl.
    - destruct (decide (y = 0%N)) as [->|]; [right|left; lia]. unfold proper in *. by destruct r.
    - rewrite list_cmp_cons in Hlt. destruct (cmp x y) eqn:E; simpl in Hlt; [|left|done].
      + apply cmp_eq in E as ->. right. split_and!; [done..|]. unfold proper in *.
        destruct r; [by destruct l|done].
      + by apply N_cmp_lt in E. }
  intros Hm. destruct Hhead as [Hxy|(Hxy & Hlt' & Hp')].
  - specialize (Hdr Hxy). apply N_cmp_lt in Hdr.
    destruct (_ <? d)%N; [simplify_eq|destruct (between_loop _ _ _); simplify_eq/=];
      rewrite list_cmp_cons; by rewrite Hdr.
  - rewrite Hdl in * by lia. rewrite Hxy, N.ltb_irrefl in Hm.
    destruct (between_loop fuel _ _) as [rest|] eqn:Hrest; simplify_eq/=.
    rewrite list_cmp_cons, (cmp_refl (default 0%N (head l))). simpl.
    eapply IH, Hrest; [auto with locator|by inversion Hr|done|done].
Qed.

Lemma between_spec lhs rhs :
  digits_ok lhs → digits_ok rhs → proper rhs → cmp lhs rhs = Lt →
  ∃ m, between lhs rhs = Some m ∧ cmp lhs m = Lt ∧ cmp m rhs = Lt ∧
    digits_ok m ∧ proper m ∧ len m <= S (len lhs `max` len rhs).
Proof.
  intros Hl Hr Hp Hlt. unfold between, len.
  destruct (between_loop_total (S (length lhs `max` length rhs)) lhs rhs) as (m & Hm & Hok & Hlen);
    [done..|lia|].
  pose proof (between_loop_gt _ _ _ _ Hl Hr Hm) as (Hgt & Hpm & _).
  pose proof (between_loop_lt _ _ _ _ Hl Hr Hp Hlt Hm). naive_solver.
Qed.

(** C40. [between] is dense: for two locators in order (the right one without a
    trailing zero digit), it returns, without overflow and after at most one
    digit more than the longer of the two, a locator strictly between them that
    can itself bound later insertions on either side. *)
Theorem between_strict lhs rhs :
  digits_ok lhs → digits_ok rhs → proper rhs → cmp lhs rhs = Lt →
  ∃ m, between lhs rhs = Some m ∧ cmp lhs m = Lt ∧ cmp m rhs = Lt ∧
    digits_ok m ∧ proper m ∧ len m <= S (len lhs `max` len rhs).
Proof. apply between_spec. Qed.

Lemma between_strict_witness :
  ∃ m, between [5; 7]%N [5; 8]%N = Some m ∧ cmp [5; 7]%N m = Lt ∧ cmp m [5; 8]%N = Lt ∧
    digits_ok m ∧ proper m ∧ len m <= S (len [5; 7]%N `max` len [5; 8]%N).
Proof. apply between_strict; [by repeat constructor..|done|done]. Defined.

(** A trailing zero digit on the right leaves no room: the hypothesis of
    [between_strict] cannot be dropped. *)
Example between_trailing_zero :
  cmp [5]%N [5; 0]%N = Lt ∧ between [5]%N [5; 0]%N = Some [5; 0; 65535]%N ∧
  cmp [5; 0; 65535]%N [5; 0]%N = Gt.
Proof. done. Qed.

(** Appending [n] locators one after the other, each between the previous one
    and [max], as building the initial fragments of a buffer does. *)
Fixpoint append_n (n : nat) (prev : Locator) : option Locator :=
  match n with
  | 0 => Some prev
  | S n => next ← between prev max; append_n n next
  end.

Lemma between_depth_1 v :
  (v + 2 ^ 48 <= u64_max)%N →
  between [v] max = Some [v + N.shiftr (u64_max - v) 48]%N ∧
  (N.shiftr (u64_max - v) 48 <= 65535)%N.
Proof.
  intros Hv. unfold between, max. simpl.
  destruct (mid_spec v u64_max) as (m & Hm & Hle & _ & _ & Hgt); [lia..|].
  assert (l := proj2 Hgt ltac:(lia)). rewrite Hm; simpl. apply N.ltb_lt in l. rewrite l.
  unfold mid in Hm. apply checked_add_inv in Hm as [-> _]. split; [done|].
  rewrite N.shiftr_div_pow2. unfold u64_max in *.
  apply N.lt_succ_r, N.Div0.div_lt_upper_bound. simpl. lia.
Qed.

(** Sequential appends do not deepen the locators: the first [2^48 - 1]
    locators appended one after the other from [min] all have a single digit. *)
Theorem sequential_append_depth_1 n :
  (N.of_nat n < 2 ^ 48)%N →
  ∃ l, append_n n min = Some l ∧ len l = 1 ∧ (0 < n → cmp min l = Lt).
Proof.
  assert (Hgen : ∀ n v, (v + N.of_nat n * 65535 + 2 ^ 48 <= u64_max + 65535)%N →
    ∃ v', append_n n [v] = Some [v'] ∧ (v + N.of_nat n <= v')%N).
  { clear n. induction n as [|n IH]; intros v Hv; simpl.
    - exists v. split; [done|lia].
    - unfold u64_max in Hv. destruct (between_depth_1 v) as [-> Hstep]; [unfold u64_max; lia|]. simpl.
      destruct (IH (v + N.shiftr (u64_max - v) 48)%N) as (v' & -> & Hv'); [unfold u64_max in *; lia|].
      exists v'. split; [done|].
      assert (1 <= N.shiftr (u64_max - v) 48)%N; [|lia].
      rewrite N.shiftr_div_pow2. apply N.div_le_lower_bound; [done|]. unfold u64_max. lia. }
  intros Hn. destruct (Hgen n 0%N) as (v & Hv & Hle); [unfold u64_max; lia|].
  exists [v]. split_and!; [done|done|]. intros ?. unfold min. rewrite list_cmp_cons.
  assert (Hlt : (0 < v)%N) by lia. apply N_cmp_lt in Hlt. by rewrite Hlt.
Qed.

Lemma sequential_append_depth_1_witness :
  ∃ l, append_n 1000 min = Some l ∧ len l = 1 ∧ (0 < 1000 → cmp min l = Lt).
Proof. apply sequential_append_depth_1. done. Defined.
