(* ===== verification/SumTree.v ===== *)
(** * The summarised B+ tree ([crates/sum_tree/src/sum_tree.rs])

    [SumTree] is the sequence type every other part of the text core is built
    on: the chunks of a rope, the fragments of a buffer, the undo map, the
    deferred operations and the ordered maps.  Leaves hold items, every node
    caches the sum of its items' summaries.  [Node] is the Rust enum, one
    definition per method; [Arc::make_mut] gives the methods value semantics. *)

From S2P Require Import Prelude.

(** ** Traits

    A summary's context ([cx]) never changes during an operation: an instance
    for a summary with a context takes the context as a parameter. *)

(** [trait Summary], [trait ContextLessSummary] *)
Class Summary (S : Type) := {
  zero : S;
  add_summary : S → S → S;
}.

(** What the tree relies on: sums do not depend on the grouping, and [zero] on
    the left is neutral.  ([zero] on the right need not be: the summary of an
    ordered map is its last key, and adding overwrites.) *)
Class SummaryLaws (S : Type) `{Summary S} : Prop := {
  add_summary_assoc (a b c : S) : add_summary (add_summary a b) c = add_summary a (add_summary b c);
  add_summary_zero_l (a : S) : add_summary zero a = a;
}.

(** [trait Item] *)
Class Item (T S : Type) := item_summary : T → S.

(** [trait Dimension] *)
Class Dimension (D S : Type) := {
  dim_zero : D;
  dim_add : D → S → D;
}.

Class DimensionLaws (D S : Type) `{Summary S, Dimension D S} : Prop := {
  dim_add_add (d : D) (a b : S) : dim_add (dim_add d a) b = dim_add d (add_summary a b);
}.

Definition from_summary_dim {D S} `{Dimension D S} (summary : S) : D := dim_add dim_zero summary.

(** [impl Dimension for T: Summary], [impl Dimension for ()],
    [impl Dimension for Dimensions<D1, D2>] *)
#[global] Instance summary_dimension {S} `{Summary S} : Dimension S S | 10 :=
  {| dim_zero := zero; dim_add := add_summary |}.
#[global] Instance unit_dimension {S} : Dimension unit S :=
  {| dim_zero := tt; dim_add := λ _ _, tt |}.
#[global] Instance pair_dimension {S D1 D2} `{Dimension D1 S, Dimension D2 S} :
    Dimension (D1 * D2) S :=
  {| dim_zero := (dim_zero, dim_zero); dim_add := λ d s, (dim_add d.1 s, dim_add d.2 s) |}.

#[global] Instance summary_dimension_laws {S} `{SummaryLaws S} : DimensionLaws S S.
Proof. split. apply add_summary_assoc. Qed.
#[global] Instance unit_dimension_laws {S} `{Summary S} : DimensionLaws unit S.
Proof. done. Qed.
#[global] Instance pair_dimension_laws {S D1 D2}
    `{Summary S, Dimension D1 S, Dimension D2 S, !DimensionLaws D1 S, !DimensionLaws D2 S} :
  DimensionLaws (D1 * D2) S.
Proof. split. intros [] ??. simpl. by rewrite !dim_add_add. Qed.

(** [trait SeekTarget]: how the target compares with a position; for a
    dimension with an order, [Ord::cmp target], and for a pair of dimensions
    the comparison with the first. *)
Abbreviation SeekTarget D := (D → comparison) (only parsing).
Definition seek_ord {D} `{Ord D} (target : D) : SeekTarget D := λ cursor_location, cmp target cursor_location.
Definition seek_fst {D1 D2} (target : SeekTarget D1) : SeekTarget (D1 * D2) :=
  λ cursor_location, target cursor_location.1.

Inductive Bias := Left | Right.
#[global] Instance Bias_eq_dec : EqDecision Bias.
Proof. solve_decision. Defined.

Definition invert (b : Bias) : Bias := match b with Left => Right | Right => Left end.

(** ** Nodes *)

Definition TREE_BASE : nat := 6.
Definition CAPACITY : nat := 2 * TREE_BASE.
#[global] Arguments TREE_BASE : simpl never.
#[global] Arguments CAPACITY : simpl never.

(** Fixed-capacity vectors: an overfull one panics. *)
Definition array_collect {A} (l : list A) : option (list A) :=
  _ ← rassert (length l <=? CAPACITY); Some l.
Definition array_push {A} (l : list A) (x : A) : option (list A) :=
  _ ← rassert (length l <? CAPACITY); Some (l ++ [x]).
Definition array_extend {A} (l k : list A) : option (list A) :=
  _ ← rassert (length l + length k <=? CAPACITY); Some (l ++ k).
Definition array_insert_front {A} (x : A) (l : list A) : option (list A) :=
  _ ← rassert (length l <? CAPACITY); Some (x :: l).

(** [*l.last_mut().unwrap() = x] *)
Fixpoint set_last {A} (l : list A) (x : A) : option (list A) :=
  match l with
  | [] => None
  | [_] => Some [x]
  | y :: l => l' ← set_last l x; Some (y :: l')
  end.

(** Runs [f] on the last element in place. *)
Definition alter_last {A B} (f : A → option (A * B)) : list A → option (list A * B) :=
  fix go l :=
    match l with
    | [] => None
    | [x] => '(x', b) ← f x; Some ([x'], b)
    | x :: l => '(l', b) ← go l; Some (x :: l', b)
    end.

(** [enum Node] (and [struct SumTree(Arc<Node>)]) *)
Inductive Node (T S : Type) : Type :=
  | Internal (height : nat) (summary : S) (child_summaries : list S) (child_trees : list (Node T S))
  | Leaf (summary : S) (items : list T) (item_summaries : list S).
Arguments Internal {T S}.
Arguments Leaf {T S}.
Abbreviation SumTree := Node (only parsing).

Module Node.
Section node.
Context {T S : Type}.
Implicit Types self : Node T S.

Definition is_leaf self : bool := match self with Leaf _ _ _ => true | _ => false end.

Definition height self : nat := match self with Internal h _ _ _ => h | Leaf _ _ _ => 0 end.

Definition summary self : S :=
  match self with Internal _ s _ _ => s | Leaf s _ _ => s end.

Definition child_summaries self : list S :=
  match self with Internal _ _ css _ => css | Leaf _ _ iss => iss end.

(** Panics on a leaf. *)
Definition child_trees self : option (list (SumTree T S)) :=
  match self with Internal _ _ _ cts => Some cts | Leaf _ _ _ => None end.

(** Panics on an internal node. *)
Definition items self : option (list T) :=
  match self with Leaf _ its _ => Some its | Internal _ _ _ _ => None end.

Definition is_underflowing self : bool :=
  match self with
  | Internal _ _ _ cts => length cts <? TREE_BASE
  | Leaf _ its _ => length its <? TREE_BASE
  end.
End node.
End Node.

(** [fn sum] *)
Definition sum {S} `{Summary S} (l : list S) : S := foldl add_summary zero l.

(** [l[0] + l[1] + ...]: indexes the first element. *)
Definition sum1 {S} `{Summary S} (l : list S) : option S :=
  match l with [] => None | s :: l => Some (foldl add_summary s l) end.

Module SumTree.
Section sum_tree.
Context {T S : Type} `{Summary S, Item T S}.
Implicit Types self other : SumTree T S.

Definition new : SumTree T S := Leaf zero [] [].

Definition from_summary (summary : S) : SumTree T S := Leaf summary [] [].

Definition summary self : S := Node.summary self.

Definition is_empty self : bool :=
  match self with Internal _ _ _ _ => false | Leaf _ items _ => length items =? 0 end.

Definition extent {D} `{Dimension D S} self : D := dim_add dim_zero (Node.summary self).

Fixpoint leftmost_leaf self : option (SumTree T S) :=
  match self with
  | Leaf _ _ _ => Some self
  | Internal _ _ _ child_trees =>
      match child_trees with [] => None | c :: _ => leftmost_leaf c end
  end.

Fixpoint rightmost_leaf self : option (SumTree T S) :=
  match self with
  | Leaf _ _ _ => Some self
  | Internal _ _ _ child_trees =>
      (fix go l := match l with [] => None | [c] => rightmost_leaf c | _ :: l => go l end) child_trees
  end.

(** The outer option is the panic, the inner one the result. *)
Definition first self : option (option T) :=
  leaf ← leftmost_leaf self; items ← Node.items leaf; Some (head items).

Definition last self : option (option T) :=
  leaf ← rightmost_leaf self; items ← Node.items leaf; Some (list.last items).

Definition last_summary self : option (option S) :=
  leaf ← rightmost_leaf self; Some (list.last (Node.child_summaries leaf)).

(** *** Seeking without a cursor *)

Definition target_in_child (comparison : comparison) (bias : Bias) : bool :=
  match comparison with
  | Lt => true
  | Eq => bool_decide (bias = Left)
  | Gt => false
  end.

Section find.
Context {D : Type} `{Dimension D S} (exact : bool) (target : SeekTarget D) (bias : Bias).

Definition entry_found (comparison : comparison) : bool :=
  if exact then is_eq comparison else target_in_child comparison bias.

(** Returns the position (a [&mut] argument of the code) and the result. *)
Fixpoint find_leaf (position : D) (items : list T) (item_summaries : list S) : D * option (T * D) :=
  match items, item_summaries with
  | item :: items, item_summary :: item_summaries =>
      let child_end := dim_add position item_summary in
      if entry_found (target child_end) then (position, Some (item, child_end))
      else find_leaf child_end items item_summaries
  | _, _ => (position, None)
  end.

Fixpoint find_iterate (position : D) (this : SumTree T S) : D * option (T * D) :=
  match this with
  | Internal _ _ child_summaries child_trees =>
      (fix go position child_trees child_summaries {struct child_trees} :=
        match child_trees, child_summaries with
        | child_tree :: child_trees, child_summary :: child_summaries =>
            let child_end := dim_add position child_summary in
            if target_in_child (target child_end) bias then find_iterate position child_tree
            else go child_end child_trees child_summaries
        | _, _ => (position, None)
        end) position child_trees child_summaries
  | Leaf _ items item_summaries => find_leaf position items item_summaries
  end.

Definition find_from (self : SumTree T S) : D * D * option T :=
  let tree_end := dim_add dim_zero (summary self) in
  let comparison := target tree_end in
  if match comparison with Gt => true | Eq => bool_decide (bias = Right) | Lt => false end
  then (tree_end, tree_end, None)
  else
    match find_iterate dim_zero self with
    | (pos, Some (item, end_)) => (pos, end_, Some item)
    | (pos, None) => (pos, pos, None)
    end.

Fixpoint find_with_prev_leaf (prev : option T) (position : D) (items : list T)
    (item_summaries : list S) : D * option (option T * T * D) :=
  match items, item_summaries with
  | item :: items, item_summary :: item_summaries =>
      let child_end := dim_add position item_summary in
      if entry_found (target child_end) then (position, Some (prev, item, child_end))
      else find_with_prev_leaf (Some item) child_end items item_summaries
  | _, _ => (position, None)
  end.

Fixpoint find_with_prev_iterate (prev : option T) (position : D) (this : SumTree T S) :
    option (D * option (option T * T * D)) :=
  match this with
  | Internal _ _ child_summaries child_trees =>
      (fix go prev position child_trees child_summaries {struct child_trees} :=
        match child_trees, child_summaries with
        | child_tree :: child_trees, child_summary :: child_summaries =>
            let child_end := dim_add position child_summary in
            if target_in_child (target child_end) bias
            then find_with_prev_iterate prev position child_tree
            else prev ← last child_tree; go prev child_end child_trees child_summaries
        | _, _ => Some (position, None)
        end) prev position child_trees child_summaries
  | Leaf _ items item_summaries => Some (find_with_prev_leaf prev position items item_summaries)
  end.
End find.

Definition find_exact {D} `{Dimension D S} self (target : SeekTarget D) (bias : Bias) : D * D * option T :=
  find_from true target bias self.

Definition find {D} `{Dimension D S} self (target : SeekTarget D) (bias : Bias) : D * D * option T :=
  find_from false target bias self.

Definition find_with_prev {D} `{Dimension D S} self (target : SeekTarget D) (bias : Bias) :
    option (D * D * option (option T * T)) :=
  let tree_end := dim_add dim_zero (summary self) in
  let comparison := target tree_end in
  if match comparison with Gt => true | Eq => bool_decide (bias = Right) | Lt => false end
  then Some (tree_end, tree_end, None)
  else
    r ← find_with_prev_iterate false target bias None dim_zero self;
    match r with
    | (pos, Some (prev, item, end_)) => Some (pos, end_, Some (prev, item))
    | (pos, None) => Some (pos, pos, None)
    end.

(** *** Updating the ends *)

Fixpoint update_last_recursive (f : T → T) self : option (SumTree T S * option S) :=
  match self with
  | Internal height _ child_summaries child_trees =>
      '(child_trees, last_summary) ← alter_last (update_last_recursive f) child_trees;
      last_summary ← last_summary;
      child_summaries ← set_last child_summaries last_summary;
      let summary := sum child_summaries in
      Some (Internal height summary child_summaries child_trees, Some summary)
  | Leaf summary items item_summaries =>
      match list.last items, list.last item_summaries with
      | Some item, Some _ =>
          let item := f item in
          items ← set_last items item;
          item_summaries ← set_last item_summaries (item_summary item);
          let summary := sum item_summaries in
          Some (Leaf summary items item_summaries, Some summary)
      | _, _ => Some (self, None)
      end
  end.

Definition update_last (f : T → T) self : option (SumTree T S) :=
  fst <$> update_last_recursive f self.

Fixpoint update_first_recursive (f : T → T) self : option (SumTree T S * option S) :=
  match self with
  | Internal height _ child_summaries child_trees =>
      match child_summaries, child_trees with
      | _ :: child_summaries, first_child :: child_trees =>
          '(first_child, first_summary) ← update_first_recursive f first_child;
          first_summary ← first_summary;
          let child_summaries := first_summary :: child_summaries in
          let summary := sum child_summaries in
          Some (Internal height summary child_summaries (first_child :: child_trees), Some summary)
      | _, _ => None
      end
  | Leaf summary items item_summaries =>
      match items, item_summaries with
      | item :: items, _ :: item_summaries =>
          let item := f item in
          let item_summaries := item_summary item :: item_summaries in
          let summary := sum item_summaries in
          Some (Leaf summary (item :: items) item_summaries, Some summary)
      | _, _ => Some (self, None)
      end
  end.

Definition update_first (f : T → T) self : option (SumTree T S) :=
  fst <$> update_first_recursive f self.

(** *** Bulk construction *)

(** A leaf over one chunk of items. *)
Definition leaf_node (items : list T) : option (SumTree T S) :=
  items ← array_collect items;
  item_summaries ← array_collect (map item_summary items);
  summary ← sum1 item_summaries;
  Some (Leaf summary items item_summaries).

(** The first loop of [from_iter]: leaves of [2 * TREE_BASE] items. *)
Fixpoint leaf_nodes (fuel : nat) (iter : list T) : option (list (SumTree T S)) :=
  match fuel, iter with
  | _, [] => Some []
  | 0, _ => None
  | Datatypes.S fuel, _ =>
      node ← leaf_node (take CAPACITY iter);
      nodes ← leaf_nodes fuel (drop CAPACITY iter);
      Some (node :: nodes)
  end.

(** One iteration of the loop over [nodes.drain(..)]; the state is
    [(current_parent_node, parent_nodes)]. *)
Definition add_child_node (height : nat) (st : option (SumTree T S) * list (SumTree T S))
    (child_node : SumTree T S) : option (option (SumTree T S) * list (SumTree T S)) :=
  let '(current_parent_node, parent_nodes) := st in
  match default (Internal height zero [] []) current_parent_node with
  | Leaf _ _ _ => None
  | Internal height summary child_summaries child_trees =>
      let child_summary := Node.summary child_node in
      child_summaries ← array_push child_summaries child_summary;
      child_trees ← array_push child_trees child_node;
      let parent_node := Internal height (add_summary summary child_summary) child_summaries child_trees in
      if length child_trees =? CAPACITY
      then Some (None, parent_nodes ++ [parent_node])
      else Some (Some parent_node, parent_nodes)
  end.

Definition parent_level (height : nat) (nodes : list (SumTree T S)) : option (list (SumTree T S)) :=
  '(current_parent_node, parent_nodes) ←
    foldl (λ st child_node, st ← st; add_child_node height st child_node) (Some (None, [])) nodes;
  Some (parent_nodes ++ option_list current_parent_node).

Fixpoint build_levels (parents : nat → list (SumTree T S) → option (list (SumTree T S)))
    (fuel height : nat) (nodes : list (SumTree T S)) : option (list (SumTree T S)) :=
  if length nodes <=? 1 then Some nodes else
  match fuel with
  | 0 => None
  | Datatypes.S fuel =>
      let height := height + 1 in
      nodes ← parents height nodes;
      build_levels parents fuel height nodes
  end.

Definition root_of (nodes : list (SumTree T S)) : option (SumTree T S) :=
  match nodes with
  | [] => Some new
  | _ => _ ← rassert (length nodes =? 1); list.last nodes
  end.

(** The fuel is a bound on the iterations: each level has fewer nodes. *)
Definition from_iter (iter : list T) : option (SumTree T S) :=
  nodes ← leaf_nodes (length iter) iter;
  nodes ← build_levels parent_level (length nodes) 0 nodes;
  root_of nodes.

(** [ParallelIterator::chunks] *)
Fixpoint par_chunks {A} (fuel : nat) (l : list A) : list (list A) :=
  match fuel, l with
  | _, [] => []
  | 0, _ => []
  | Datatypes.S fuel, _ => take CAPACITY l :: par_chunks fuel (drop CAPACITY l)
  end.

Definition par_internal_node (height : nat) (child_nodes : list (SumTree T S)) : option (SumTree T S) :=
  child_trees ← array_collect child_nodes;
  child_summaries ← array_collect (map Node.summary child_trees);
  summary ← sum1 child_summaries;
  Some (Internal height summary child_summaries child_trees).

Definition from_par_iter (iter : list T) : option (SumTree T S) :=
  nodes ← mapM leaf_node (par_chunks (length iter) iter);
  nodes ← build_levels (λ height nodes,
    mapM (par_internal_node height) (par_chunks (length nodes) nodes)) (length nodes) 0 nodes;
  root_of nodes.

(** *** Appending *)

Definition from_child_trees (left_ right_ : SumTree T S) : option (SumTree T S) :=
  let height := Node.height left_ + 1 in
  child_summaries ← array_push [] (Node.summary left_);
  child_summaries ← array_push child_summaries (Node.summary right_);
  child_trees ← array_push [] left_;
  child_trees ← array_push child_trees right_;
  Some (Internal height (sum child_summaries) child_summaries child_trees).

(** [(child_count + child_count % 2) / 2] *)
Definition midpoint (child_count : nat) : nat := (child_count + child_count mod 2) / 2.

(** [usize::div_ceil(2)] *)
Definition div_ceil_2 (n : nat) : nat := (n + 1) / 2.

(** The end of the internal case of [push_tree_recursive]: the appended
    children fit, or the node is split at the midpoint. *)
Definition push_children (height : nat) (summary : S) (child_summaries : list S)
    (child_trees : list (SumTree T S)) (summaries_to_append : list S)
    (trees_to_append : list (SumTree T S)) : option (SumTree T S * option (SumTree T S)) :=
  let child_count := length child_trees + length trees_to_append in
  if CAPACITY <? child_count then
    let midpoint := midpoint child_count in
    let all_summaries := child_summaries ++ summaries_to_append in
    left_summaries ← array_collect (take midpoint all_summaries);
    right_summaries ← array_collect (drop midpoint all_summaries);
    let all_trees := child_trees ++ trees_to_append in
    left_trees ← array_collect (take midpoint all_trees);
    right_trees ← array_collect (drop midpoint all_trees);
    Some (Internal height (sum left_summaries) left_summaries left_trees,
          Some (Internal height (sum right_summaries) right_summaries right_trees))
  else
    child_summaries ← array_extend child_summaries summaries_to_append;
    child_trees ← array_extend child_trees trees_to_append;
    Some (Internal height summary child_summaries child_trees, None).

(** Returns the updated [self] and the split-off right sibling, if any. *)
Fixpoint push_tree_recursive self other : option (SumTree T S * option (SumTree T S)) :=
  match self with
  | Internal height summary child_summaries child_trees =>
      let summary := add_summary summary (Node.summary other) in
      _ ← rassert (Node.height other <=? height);
      let height_delta := height - Node.height other in
      '(child_summaries, child_trees, summaries_to_append, trees_to_append) ←
        (if height_delta =? 0 then
           other_trees ← Node.child_trees other;
           summaries_to_append ← array_extend [] (Node.child_summaries other);
           trees_to_append ← array_extend [] other_trees;
           Some (child_summaries, child_trees, summaries_to_append, trees_to_append)
         else if (height_delta =? 1) && negb (Node.is_underflowing other) then
           summaries_to_append ← array_push [] (Node.summary other);
           trees_to_append ← array_push [] other;
           Some (child_summaries, child_trees, summaries_to_append, trees_to_append)
         else
           '(child_trees, tree_to_append) ← alter_last (λ c, push_tree_recursive c other) child_trees;
           last_child ← list.last child_trees;
           child_summaries ← set_last child_summaries (Node.summary last_child);
           match tree_to_append with
           | Some split_tree =>
               summaries_to_append ← array_push [] (Node.summary split_tree);
               trees_to_append ← array_push [] split_tree;
               Some (child_summaries, child_trees, summaries_to_append, trees_to_append)
           | None => Some (child_summaries, child_trees, [], [])
           end);
      push_children height summary child_summaries child_trees summaries_to_append trees_to_append
  | Leaf summary items item_summaries =>
      other_items ← Node.items other;
      let child_count := length items + length other_items in
      if CAPACITY <? child_count then
        let midpoint := midpoint child_count in
        let all_items := items ++ other_items in
        left_items ← array_collect (take midpoint all_items);
        right_items ← array_collect (drop midpoint all_items);
        let all_summaries := item_summaries ++ Node.child_summaries other in
        left_summaries ← array_collect (take midpoint all_summaries);
        right_summaries ← array_collect (drop midpoint all_summaries);
        Some (Leaf (sum left_summaries) left_items left_summaries,
              Some (Leaf (sum right_summaries) right_items right_summaries))
      else
        items ← array_extend items other_items;
        item_summaries ← array_extend item_summaries (Node.child_summaries other);
        Some (Leaf (add_summary summary (Node.summary other)) items item_summaries, None)
  end.

(** Returns the updated [large] and the node that precedes it, if any. *)
Definition merge_into_right (small large : SumTree T S) : option (SumTree T S * option (SumTree T S)) :=
  _ ← rassert (Node.height small =? Node.height large);
  match small, large with
  | Internal _ small_summary small_child_summaries small_child_trees,
    Internal height summary child_summaries child_trees =>
      let total_child_count := length child_trees + length small_child_trees in
      if total_child_count <=? CAPACITY then
        all_trees ← array_extend small_child_trees child_trees;
        all_summaries ← array_extend small_child_summaries child_summaries;
        Some (Internal height (add_summary small_summary summary) all_summaries all_trees, None)
      else
        let midpoint := div_ceil_2 total_child_count in
        let all_trees := small_child_trees ++ child_trees in
        left_trees ← array_collect (take midpoint all_trees);
        child_trees ← array_collect (drop midpoint all_trees);
        let all_summaries := small_child_summaries ++ child_summaries in
        left_summaries ← array_collect (take midpoint all_summaries);
        child_summaries ← array_collect (drop midpoint all_summaries);
        Some (Internal height (sum child_summaries) child_summaries child_trees,
              Some (Internal height (sum left_summaries) left_summaries left_trees))
  | Leaf small_summary small_items small_item_summaries,
    Leaf summary items item_summaries =>
      let total_child_count := length small_items + length items in
      if total_child_count <=? CAPACITY then
        all_items ← array_extend small_items items;
        all_summaries ← array_extend small_item_summaries item_summaries;
        Some (Leaf (add_summary small_summary summary) all_items all_summaries, None)
      else
        let midpoint := div_ceil_2 total_child_count in
        let all_items := small_items ++ items in
        left_items ← array_collect (take midpoint all_items);
        items ← array_collect (drop midpoint all_items);
        let all_summaries := small_item_summaries ++ item_summaries in
        left_summaries ← array_collect (take midpoint all_summaries);
        item_summaries ← array_collect (drop midpoint all_summaries);
        Some (Leaf (sum item_summaries) items item_summaries,
              Some (Leaf (sum left_summaries) left_items left_summaries))
  | _, _ => None
  end.

(** Returns the updated [large] and the node that precedes it, if any. *)
Fixpoint append_large (small large : SumTree T S) : option (SumTree T S * option (SumTree T S)) :=
  if Node.height small =? Node.height large then
    if negb (Node.is_underflowing small) then Some (large, Some small)
    else merge_into_right small large
  else
    _ ← rassert (Node.height small <? Node.height large);
    match large with
    | Leaf _ _ _ => None
    | Internal height summary child_summaries child_trees =>
        let summary := add_summary (Node.summary small) summary in
        match child_trees, child_summaries with
        | first :: child_trees, _ :: child_summaries =>
            '(first, res) ← append_large small first;
            let child_trees := first :: child_trees in
            let child_summaries := Node.summary first :: child_summaries in
            match res with
            | Some tree =>
                if length child_trees <? CAPACITY then
                  child_summaries ← array_insert_front (Node.summary tree) child_summaries;
                  child_trees ← array_insert_front tree child_trees;
                  Some (Internal height summary child_summaries child_trees, None)
                else
                  new_child_summaries ← array_extend [Node.summary tree] (take TREE_BASE child_summaries);
                  new_child_trees ← array_extend [tree] (take TREE_BASE child_trees);
                  let child_summaries := drop TREE_BASE child_summaries in
                  let child_trees := drop TREE_BASE child_trees in
                  Some (Internal height (sum child_summaries) child_summaries child_trees,
                        Some (Internal height (sum new_child_summaries) new_child_summaries new_child_trees))
            | None => Some (Internal height summary child_summaries child_trees, None)
            end
        | _, _ => None
        end
    end.

Definition append self other : option (SumTree T S) :=
  if is_empty self then Some other
  else if is_empty other then Some self
  else if Node.height self <? Node.height other then
    '(other, tree) ← append_large self other;
    match tree with
    | Some tree => from_child_trees tree other
    | None => Some other
    end
  else
    '(self, split_tree) ← push_tree_recursive self other;
    match split_tree with
    | Some split_tree => from_child_trees self split_tree
    | None => Some self
    end.

Definition push self (item : T) : option (SumTree T S) :=
  let summary := item_summary item in
  append self (Leaf summary [item] [summary]).

Definition from_item (item : T) : option (SumTree T S) := push new item.

Definition extend self (iter : list T) : option (SumTree T S) :=
  other ← from_iter iter; append self other.

Definition par_extend self (iter : list T) : option (SumTree T S) :=
  other ← from_par_iter iter; append self other.
End sum_tree.
End SumTree.
