(* ===== verification/SumTreeFacts.v ===== *)
(** * The B+ tree is a sequence: invariant and refinement

    The abstract state of a tree is the list of its items ([to_list]).  The
    invariant [wf h] says that all leaves are at depth [h], no node is empty or
    over capacity, and every cached summary is the sum of the summaries below
    it.  The mutating operations of [SumTree] are shown to return (no panic) on
    trees that satisfy it, to preserve it, and to act on the items as the
    corresponding list operation. *)

From S2P Require Import Prelude SumTree.

(** ** Fixed-capacity vectors *)

Lemma CAPACITY_eq : CAPACITY = 12.
Proof. done. Qed.
Lemma TREE_BASE_eq : TREE_BASE = 6.
Proof. done. Qed.
#[global] Opaque CAPACITY TREE_BASE.

(** [lia] that knows the capacity. *)
Ltac cap_lia := pose proof CAPACITY_eq; pose proof TREE_BASE_eq; lia.

Lemma array_collect_Some {A} (l : list A) : length l <= CAPACITY → array_collect l = Some l.
Proof. intros Hl. unfold array_collect. apply Nat.leb_le in Hl. by rewrite Hl. Qed.

Lemma array_push_Some {A} (l : list A) x : length l < CAPACITY → array_push l x = Some (l ++ [x]).
Proof. intros Hl. unfold array_push. apply Nat.ltb_lt in Hl. by rewrite Hl. Qed.

Lemma array_extend_Some {A} (l k : list A) :
  length l + length k <= CAPACITY → array_extend l k = Some (l ++ k).
Proof. intros Hl. unfold array_extend. apply Nat.leb_le in Hl. by rewrite Hl. Qed.

Lemma array_insert_front_Some {A} (l : list A) x :
  length l < CAPACITY → array_insert_front x l = Some (x :: l).
Proof. intros Hl. unfold array_insert_front. apply Nat.ltb_lt in Hl. by rewrite Hl. Qed.

Lemma set_last_snoc {A} (l : list A) x y : set_last (l ++ [x]) y = Some (l ++ [y]).
Proof.
  induction l as [|z l IH]; [done|]. simpl. rewrite IH. by destruct l.
Qed.

Lemma alter_last_snoc {A B} (f : A → option (A * B)) l x :
  alter_last f (l ++ [x]) = ('(x', b) ← f x; Some (l ++ [x'], b)).
Proof.
  induction l as [|z l IH]; [done|].
  change (alter_last f ((z :: l) ++ [x])) with
    (match l ++ [x] with [] => '(x', b) ← f z; Some ([x'], b)
     | _ => '(l', b) ← alter_last f (l ++ [x]); Some (z :: l', b) end).
  rewrite IH. destruct (l ++ [x]) eqn:E; [by destruct l|].
  by destruct (f x) as [[]|].
Qed.

Create Rewrite HintDb array.
#[export] Hint Rewrite @array_collect_Some @array_push_Some @array_extend_Some
  @array_insert_front_Some using (try done; simpl in *; rewrite ?length_app, ?length_take, ?length_drop, ?length_map in *; simpl in *; lia) : array.

(** ** Sums *)

Section sums.
Context {S : Type} `{SummaryLaws S}.
Implicit Types l k : list S.

Lemma foldl_add_summary a l : l ≠ [] → foldl add_summary a l = add_summary a (sum l).
Proof.
  unfold sum. intros Hl. destruct l as [|b l]; [done|]. simpl. rewrite add_summary_zero_l.
  clear Hl. revert a b. induction l as [|c l IH]; intros a b; simpl; [done|].
  by rewrite add_summary_assoc, IH.
Qed.

Lemma sum_app l k : k ≠ [] → sum (l ++ k) = add_summary (sum l) (sum k).
Proof. intros Hk. unfold sum at 1. rewrite foldl_app. by apply foldl_add_summary. Qed.

Lemma sum_singleton a : sum [a] = a.
Proof. apply add_summary_zero_l. Qed.

Lemma sum1_sum l : l ≠ [] → sum1 l = Some (sum l).
Proof. destruct l; [done|]. unfold sum; simpl. by rewrite add_summary_zero_l. Qed.

Lemma sum_concat (ls : list (list S)) :
  Forall (λ l, l ≠ []) ls → sum (concat ls) = sum (map sum ls).
Proof.
  induction ls as [|l ls IH] using rev_ind; [done|].
  intros [Hls Hl]%Forall_app. inversion_clear Hl.
  rewrite concat_app, map_app; simpl. rewrite app_nil_r, sum_app by done.
  rewrite IH by done. rewrite sum_app by done. by rewrite sum_singleton.
Qed.
End sums.

(** ** The abstract sequence and the invariant *)

Section wf.
Context {T S : Type} `{SummaryLaws S, !Item T S}.
Implicit Types t : SumTree T S.

Fixpoint to_list t : list T :=
  match t with
  | Internal _ _ _ child_trees => concat (map to_list child_trees)
  | Leaf _ items _ => items
  end.

Definition items_sum (l : list T) : S := sum (map item_summary l).

Fixpoint wf (h : nat) t : Prop :=
  match h, t with
  | 0, Leaf summary items item_summaries =>
      item_summaries = map item_summary items ∧ summary = sum item_summaries ∧
      0 < length items <= CAPACITY
  | Datatypes.S h', Internal height summary child_summaries child_trees =>
      height = h ∧ child_summaries = map Node.summary child_trees ∧ summary = sum child_summaries ∧
      0 < length child_trees <= CAPACITY ∧ Forall (wf h') child_trees
  | _, _ => False
  end.

(** A whole tree: the empty leaf or a well-formed node. *)
Definition tree_ok t : Prop := t = SumTree.new ∨ ∃ h, wf h t.

Lemma wf_height h t : wf h t → Node.height t = h.
Proof. destruct h, t; simpl; naive_solver. Qed.

Lemma to_list_internal height s css cts :
  to_list (Internal height s css cts) = concat (map to_list cts).
Proof. done. Qed.

Lemma wf_nonempty h t : wf h t → to_list t ≠ [].
Proof.
  revert t. induction h as [|h IH]; intros [|]; simpl; try done.
  - intros (_ & _ & Hlen) ->. simpl in *. lia.
  - intros (_ & _ & _ & Hlen & Hall) Hnil. destruct child_trees as [|c cts]; simpl in *; [lia|].
    apply app_eq_nil in Hnil as [Hc _]. inversion Hall. by eapply IH.
Qed.

Lemma items_sum_app l k : k ≠ [] → items_sum (l ++ k) = add_summary (items_sum l) (items_sum k).
Proof. intros Hk. unfold items_sum. rewrite map_app. apply sum_app. by destruct k. Qed.

Lemma concat_to_list_sum h cts :
  (∀ t, wf h t → Node.summary t = items_sum (to_list t)) →
  Forall (wf h) cts → sum (map Node.summary cts) = items_sum (concat (map to_list cts)).
Proof.
  intros Hsum Hall. unfold items_sum. rewrite concat_map, sum_concat.
  - f_equal. rewrite !map_map. apply list_fmap_ext. intros i t Ht. apply Hsum.
    by eapply Forall_lookup_1.
  - rewrite map_map. apply Forall_map. eapply Forall_impl; [done|]. simpl.
    intros t Ht%wf_nonempty. by destruct (to_list t).
Qed.

(** The root's summary is the sum of the summaries of all the items. *)
Lemma wf_summary h t : wf h t → Node.summary t = items_sum (to_list t).
Proof.
  revert t. induction h as [|h IH]; intros [|]; simpl; try done.
  - by intros (-> & -> & _).
  - intros (_ & -> & -> & _ & Hall). by apply (concat_to_list_sum h).
Qed.

Lemma wf_children_sum h cts :
  Forall (wf h) cts → sum (map Node.summary cts) = items_sum (concat (map to_list cts)).
Proof. apply concat_to_list_sum, wf_summary. Qed.

Lemma wf_internal h s cts :
  Forall (wf h) cts → 0 < length cts <= CAPACITY → s = items_sum (concat (map to_list cts)) →
  wf (Datatypes.S h) (Internal (Datatypes.S h) s (map Node.summary cts) cts).
Proof. intros Hall Hlen ->. simpl. rewrite (wf_children_sum h) by done. done. Qed.

Lemma wf_leaf s items :
  0 < length items <= CAPACITY → s = items_sum items →
  wf 0 (Leaf s items (map item_summary items)).
Proof. intros Hlen ->. done. Qed.

Lemma wf_not_empty h t : wf h t → SumTree.is_empty t = false.
Proof.
  destruct h, t; simpl; try done. intros (_ & _ & Hlen). by apply Nat.eqb_neq; lia.
Qed.

(** Shapes of a well-formed node. *)
Lemma wf_0_inv t : wf 0 t → ∃ items, t = Leaf (items_sum items) items (map item_summary items) ∧
  0 < length items <= CAPACITY.
Proof. destruct t; simpl; [done|]. intros (-> & -> & ?). eauto. Qed.

Lemma wf_S_inv h t : wf (Datatypes.S h) t → ∃ cts,
  t = Internal (Datatypes.S h) (items_sum (concat (map to_list cts))) (map Node.summary cts) cts ∧
  Forall (wf h) cts ∧ 0 < length cts <= CAPACITY.
Proof.
  destruct t; simpl; [|done]. intros (-> & -> & -> & ? & ?).
  rewrite (wf_children_sum h) by done. eauto.
Qed.

Lemma tree_ok_summary t : tree_ok t → Node.summary t = items_sum (to_list t).
Proof. intros [->|[h Hh]]; [done|by eapply wf_summary]. Qed.

Lemma tree_ok_empty t : tree_ok t → SumTree.is_empty t = true ↔ to_list t = [].
Proof.
  intros [->|[h Hh]]; [done|]. rewrite (wf_not_empty h) by done.
  split; [done|]. intros Hnil. by apply wf_nonempty in Hh.
Qed.
End wf.

Lemma midpoint_bounds n : CAPACITY < n → n <= 2 * CAPACITY →
  0 < SumTree.midpoint n <= CAPACITY ∧ SumTree.midpoint n < n ∧ n - SumTree.midpoint n <= CAPACITY.
Proof.
  unfold SumTree.midpoint. rewrite CAPACITY_eq. intros Hn1 Hn2.
  pose proof (Nat.mod_upper_bound n 2). pose proof (Nat.div_mod_eq n 2).
  pose proof (Nat.div_mod_eq (n + n mod 2) 2). pose proof (Nat.mod_upper_bound (n + n mod 2) 2). lia.
Qed.

Lemma div_ceil_2_bounds n : CAPACITY < n → n <= 2 * CAPACITY →
  0 < SumTree.div_ceil_2 n <= CAPACITY ∧ SumTree.div_ceil_2 n < n ∧ n - SumTree.div_ceil_2 n <= CAPACITY.
Proof.
  unfold SumTree.div_ceil_2. rewrite CAPACITY_eq. intros Hn1 Hn2.
  pose proof (Nat.div_mod_eq (n + 1) 2). pose proof (Nat.mod_upper_bound (n + 1) 2). lia.
Qed.

Section append.
Context {T S : Type} `{SummaryLaws S, !Item T S}.
Implicit Types t self other : SumTree T S.

(** What an operation that may split its result promises: the node it
    updates and, for the other part, [before] or after it. *)
Definition grown (h : nat) (l : list T) (r : option (SumTree T S * option (SumTree T S))) : Prop :=
  ∃ self' split, r = Some (self', split) ∧ wf h self' ∧
    match split with
    | None => to_list self' = l
    | Some t => wf h t ∧ to_list self' ++ to_list t = l
    end.

Definition grown_left (h : nat) (l : list T) (r : option (SumTree T S * option (SumTree T S))) : Prop :=
  ∃ large' split, r = Some (large', split) ∧ wf h large' ∧
    match split with
    | None => to_list large' = l
    | Some t => wf h t ∧ to_list t ++ to_list large' = l
    end.

Lemma concat_map_app {A B} (f : A → list B) l k : concat (map f (l ++ k)) = concat (map f l) ++ concat (map f k).
Proof. by rewrite map_app, concat_app. Qed.

Lemma take_drop_wf h (cts : list (SumTree T S)) m :
  Forall (wf h) cts → 0 < m <= CAPACITY → m < length cts → length cts - m <= CAPACITY →
  let l := take m cts in let r := drop m cts in
  wf (Datatypes.S h) (Internal (Datatypes.S h) (sum (map Node.summary l)) (map Node.summary l) l) ∧
  wf (Datatypes.S h) (Internal (Datatypes.S h) (sum (map Node.summary r)) (map Node.summary r) r) ∧
  concat (map to_list l) ++ concat (map to_list r) = concat (map to_list cts).
Proof.
  intros Hall Hm Hlt Hrest. simpl. split_and!; try done.
  - rewrite length_take. lia.
  - rewrite length_take. lia.
  - by apply Forall_take.
  - rewrite length_drop. lia.
  - rewrite length_drop. lia.
  - by apply Forall_drop.
  - by rewrite <-concat_map_app, take_drop.
Qed.

Lemma take_drop_leaf_wf (items : list T) m :
  0 < m <= CAPACITY → m < length items → length items - m <= CAPACITY →
  let l := take m items in let r := drop m items in
  wf 0 (Leaf (sum (map item_summary l)) l (map item_summary l)) ∧
  wf 0 (Leaf (sum (map item_summary r)) r (map item_summary r)) ∧
  l ++ r = items.
Proof.
  intros Hm Hlt Hrest. simpl. rewrite length_take, length_drop, take_drop.
  split_and!; try done; lia.
Qed.

Lemma push_children_spec h s cts ta :
  Forall (wf h) cts → Forall (wf h) ta → 0 < length cts <= CAPACITY → length ta <= CAPACITY →
  s = items_sum (concat (map to_list (cts ++ ta))) →
  grown (Datatypes.S h) (concat (map to_list cts) ++ concat (map to_list ta))
    (SumTree.push_children (Datatypes.S h) s (map Node.summary cts) cts (map Node.summary ta) ta).
Proof.
  intros Hc Ht Hlc Hlt Hs. unfold SumTree.push_children.
  rewrite <-concat_map_app, <-map_app.
  assert (Hall : Forall (wf h) (cts ++ ta)) by (by apply Forall_app).
  destruct (Nat.ltb_spec CAPACITY (length cts + length ta)) as [Hover|Hfit].
  - destruct (midpoint_bounds (length cts + length ta)) as (Hm1 & Hm2 & Hm3); [lia..|].
    set (m := SumTree.midpoint _) in *. rewrite firstn_map, skipn_map.
    rewrite !array_collect_Some by (rewrite ?length_map, ?length_take, ?length_drop, ?length_app; lia).
    simpl. destruct (take_drop_wf h (cts ++ ta) m) as (Hl & Hr & Hcat); [done|lia|rewrite length_app; lia..|].
    eexists _, _. split; [done|]. split; [done|]. split; [done|]. done.
  - rewrite !array_extend_Some by (rewrite ?length_map; lia). simpl. rewrite <-map_app.
    eexists _, _. split; [done|]. split; [|done].
    apply wf_internal; [done|rewrite length_app; lia|done].
Qed.

Lemma push_tree_recursive_spec h h' self other :
  wf h self → wf h' other → h' <= h →
  grown h (to_list self ++ to_list other) (SumTree.push_tree_recursive self other).
Proof.
  revert self. induction h as [|h IH]; intros self Hself Hother Hle.
  - assert (h' = 0) as -> by lia.
    apply wf_0_inv in Hself as (items & -> & Hlen), Hother as (items' & -> & Hlen'). simpl.
    destruct (Nat.ltb_spec CAPACITY (length items + length items')) as [Hover|Hfit].
    + destruct (midpoint_bounds (length items + length items')) as (Hm1 & Hm2 & Hm3); [lia..|].
      set (m := SumTree.midpoint _) in *. rewrite <-map_app, firstn_map, skipn_map.
      rewrite !array_collect_Some by (rewrite ?length_map, ?length_take, ?length_drop, ?length_app; lia).
      simpl. destruct (take_drop_leaf_wf (items ++ items') m) as (Hl & Hr & Hcat); [lia|rewrite length_app; lia..|].
      eexists _, _. by split_and!.
    + rewrite !array_extend_Some by (rewrite ?length_map; lia). simpl. rewrite <-map_app.
      eexists _, _. split; [done|]. split; [|done]. apply wf_leaf; [rewrite length_app; lia|].
      rewrite items_sum_app; [done|]. destruct items'; simpl in *; [lia|done].
  - apply wf_S_inv in Hself as (cts & -> & Hcts & Hlen).
    simpl. rewrite (wf_height h' other), (wf_summary h' other) by done.
    rewrite <-items_sum_app by (by eapply wf_nonempty).
    destruct (Nat.leb_spec h' (Datatypes.S h)); [|lia]. simpl.
    destruct (Nat.eqb_spec (Datatypes.S h - h') 0) as [H0'|Hne].
    { assert (h' = Datatypes.S h) as -> by lia.
      apply wf_S_inv in Hother as (cts' & -> & Hcts' & Hlen'). simpl.
      rewrite !array_extend_Some by (rewrite ?length_map; simpl; lia). simpl.
      apply push_children_spec; try done; [lia|]. by rewrite concat_map_app. }
    destruct (_ && _) eqn:Hdir.
    { apply andb_true_iff in Hdir as [Hd%Nat.eqb_eq _]. assert (h' = h) as -> by lia.
      rewrite ?array_push_Some by (simpl; cap_lia). simpl.
      replace (to_list other) with (concat (map to_list [other])) by (simpl; by rewrite app_nil_r).
      replace [items_sum (concat (map to_list [other]))] with (map Node.summary [other])
        by (simpl; rewrite app_nil_r; f_equal; by apply (wf_summary h)).
      apply (push_children_spec h _ cts [other]); try done;
        [by constructor|simpl; cap_lia|by rewrite concat_map_app]. }
    clear Hdir. destruct cts as [|c0 cts _] using rev_ind; [simpl in *; lia|].
    apply Forall_app in Hcts as [Hcts Hc]. inversion_clear Hc as [|?? Hc0 _].
    rewrite alter_last_snoc.
    destruct (IH c0) as (c' & split & -> & Hc' & Hsplit); [done..|lia|]. simpl in *.
    rewrite last_snoc; simpl. rewrite (map_app Node.summary). simpl. rewrite set_last_snoc. simpl.
    replace (map Node.summary cts ++ [Node.summary c']) with (map Node.summary (cts ++ [c']))
      by (by rewrite map_app).
    rewrite concat_map_app, <-app_assoc. simpl. rewrite app_nil_r.
    rewrite length_app in Hlen; simpl in Hlen.
    destruct split as [t|].
    + destruct Hsplit as [Ht Hcat].
      rewrite ?array_push_Some by (simpl; cap_lia). simpl.
      rewrite <-Hcat.
      replace (concat (map to_list cts) ++ to_list c' ++ to_list t)
        with (concat (map to_list (cts ++ [c'])) ++ concat (map to_list [t]))
        by (rewrite concat_map_app; simpl; by rewrite !app_nil_r, app_assoc).
      apply (push_children_spec h _ (cts ++ [c']) [t]);
        [by apply Forall_snoc_2|by constructor|rewrite length_app; simpl; lia|
         simpl; cap_lia|by rewrite (concat_map_app _ (cts ++ [c']))].
    + rewrite <-Hsplit.
      replace (concat (map to_list cts) ++ to_list c')
        with (concat (map to_list (cts ++ [c'])) ++ concat (map (@to_list T S) []))
        by (rewrite concat_map_app; simpl; by rewrite !app_nil_r).
      apply (push_children_spec h _ (cts ++ [c']) []);
        [by apply Forall_snoc_2|by constructor|rewrite length_app; simpl; lia|simpl; lia|
         by rewrite (concat_map_app _ (cts ++ [c']))].
Qed.

Lemma merge_into_right_spec h small large :
  wf h small → wf h large →
  grown_left h (to_list small ++ to_list large) (SumTree.merge_into_right small large).
Proof.
  intros Hs Hl. unfold SumTree.merge_into_right.
  rewrite (wf_height h small), (wf_height h large), Nat.eqb_refl by done. cbn [rassert mbind option_bind].
  destruct h as [|h].
  - apply wf_0_inv in Hs as (items & -> & Hlen), Hl as (items' & -> & Hlen').
    destruct (Nat.leb_spec (length items + length items') CAPACITY) as [Hfit|Hover].
    + rewrite !array_extend_Some by (rewrite ?length_map; lia). simpl. rewrite <-map_app.
      eexists _, _. split; [done|]. split; [|done]. apply wf_leaf; [rewrite length_app; lia|].
      rewrite items_sum_app; [done|]. destruct items'; simpl in *; [lia|done].
    + destruct (div_ceil_2_bounds (length items + length items')) as (Hm1 & Hm2 & Hm3); [lia..|].
      set (m := SumTree.div_ceil_2 _) in *. rewrite <-map_app, firstn_map, skipn_map.
      rewrite !array_collect_Some by (rewrite ?length_map, ?length_take, ?length_drop, ?length_app; lia).
      simpl. destruct (take_drop_leaf_wf (items ++ items') m) as (Hl & Hr & Hcat); [lia|rewrite length_app; lia..|].
      eexists _, _. by split_and!.
  - apply wf_S_inv in Hs as (cts & -> & Hcts & Hlen), Hl as (cts' & -> & Hcts' & Hlen').
    rewrite (Nat.add_comm (length cts')).
    rewrite !to_list_internal, <-concat_map_app.
    assert (Hall : Forall (wf h) (cts ++ cts')) by (by apply Forall_app).
    destruct (Nat.leb_spec (length cts + length cts') CAPACITY) as [Hfit|Hover].
    + rewrite !array_extend_Some by (rewrite ?length_map; lia). simpl. rewrite <-map_app.
      eexists _, _. split; [done|]. split; [|done]. apply wf_internal; [done|rewrite length_app; lia|].
      rewrite concat_map_app, items_sum_app; [done|].
      apply (wf_nonempty (Datatypes.S h) (Internal (Datatypes.S h) (sum (map Node.summary cts')) (map Node.summary cts') cts')).
      done.
    + destruct (div_ceil_2_bounds (length cts + length cts')) as (Hm1 & Hm2 & Hm3); [lia..|].
      set (m := SumTree.div_ceil_2 _) in *. rewrite <-map_app, firstn_map, skipn_map.
      rewrite !array_collect_Some by (rewrite ?length_map, ?length_take, ?length_drop, ?length_app; lia).
      simpl. destruct (take_drop_wf h (cts ++ cts') m) as (Hl & Hr & Hcat); [done|lia|rewrite length_app; lia..|].
      eexists _, _. by split_and!.
Qed.

Lemma append_large_spec hs hl small large :
  wf hs small → wf hl large → hs <= hl →
  grown_left hl (to_list small ++ to_list large) (SumTree.append_large small large).
Proof.
  intros Hs. revert large. induction hl as [|hl IH]; intros large Hl Hle.
  - assert (hs = 0) as -> by lia. destruct (wf_0_inv _ Hl) as (items & -> & _).
    simpl. rewrite (wf_height 0 small) by done. simpl.
    destruct (negb _); [|by apply merge_into_right_spec]. eexists _, _. by split_and!.
  - pose proof Hl as Hl'. apply wf_S_inv in Hl as (cts & -> & Hcts & Hlen).
    simpl. rewrite (wf_height hs small) by done.
    destruct (Nat.eqb_spec hs (Datatypes.S hl)) as [->|Hne].
    { destruct (negb _); [|by apply merge_into_right_spec]. eexists _, _. by split_and!. }
    destruct (Nat.ltb_spec hs (Datatypes.S hl)) as [Hlt|]; [|lia]. simpl.
    destruct cts as [|first cts]; [simpl in *; lia|]. inversion_clear Hcts as [|?? Hfirst Hcts'].
    destruct (IH first) as (first' & res & Heq & Hf' & Hres); [done|lia|].
    simpl. rewrite Heq. simpl. simpl in Hlen.
    rewrite (wf_summary hs small), <-items_sum_app by
      (done || (intros [Hf0 _]%app_eq_nil; by apply wf_nonempty in Hfirst)).
    destruct res as [t|].
    + destruct Hres as [Ht Hcat]. rewrite app_assoc, <-Hcat.
      destruct (Nat.ltb_spec (Datatypes.S (length cts)) CAPACITY) as [Hfit|Hfull].
      * rewrite !array_insert_front_Some by (simpl; rewrite ?length_map; lia). simpl.
        eexists _, _. split; [done|].
        change (Node.summary t :: Node.summary first' :: map Node.summary cts) with
          (map Node.summary (t :: first' :: cts)).
        split; [|simpl; by rewrite <-app_assoc].
        apply wf_internal; [by repeat constructor|simpl; lia|]. simpl. by rewrite <-app_assoc.
      * change (Node.summary first' :: map Node.summary cts) with (map Node.summary (first' :: cts)).
        set (all := first' :: cts) in *.
        assert (Hall : Forall (wf hl) all) by (by constructor).
        assert (Hlall : length all = CAPACITY) by (simpl; lia).
        rewrite firstn_map, skipn_map.
        rewrite !array_extend_Some by (rewrite ?length_map, ?length_take; simpl; rewrite ?length_take; cap_lia).
        simpl ([_] ++ _). change (Node.summary t :: map Node.summary (take TREE_BASE all)) with
          (map Node.summary (t :: take TREE_BASE all)).
        cbn [mbind option_bind]. eexists _, _. split; [done|].
        split; [|split].
        -- apply wf_internal; [by apply Forall_drop|rewrite length_drop, Hlall; cap_lia|].
           by apply (wf_children_sum hl), Forall_drop.
        -- apply wf_internal; [constructor; [done|by apply Forall_take]|
             simpl length; rewrite length_take, Hlall; cap_lia|].
           apply (wf_children_sum hl). constructor; [done|by apply Forall_take].
        -- rewrite !to_list_internal.
           change (concat (map to_list (t :: take TREE_BASE all))) with
             (to_list t ++ concat (map to_list (take TREE_BASE all))).
           rewrite <-app_assoc, <-concat_map_app, take_drop. simpl. by rewrite app_assoc.
    + rewrite app_assoc, <-Hres. eexists _, _. split; [done|]. split; [|done].
      change (Node.summary first' :: map Node.summary cts) with (map Node.summary (first' :: cts)).
      apply wf_internal; [by constructor|simpl; lia|done].
Qed.

Lemma from_child_trees_spec h l r :
  wf h l → wf h r →
  ∃ t, SumTree.from_child_trees l r = Some t ∧ wf (Datatypes.S h) t ∧ to_list t = to_list l ++ to_list r.
Proof.
  intros Hl Hr. unfold SumTree.from_child_trees.
  rewrite (wf_height h l) by done. simpl.
  rewrite !array_push_Some by (simpl; cap_lia). simpl.
  rewrite !array_push_Some by (simpl; cap_lia). simpl.
  eexists. split; [done|]. split.
  - rewrite Nat.add_1_r. apply (wf_internal h _ [l; r]); [by repeat constructor|simpl; cap_lia|].
    apply (wf_children_sum h [l; r]). by repeat constructor.
  - simpl. by rewrite app_nil_r.
Qed.

(** The height of a tree grows by at most one in an [append]. *)
Lemma append_spec self other :
  tree_ok self → tree_ok other →
  ∃ t, SumTree.append self other = Some t ∧ tree_ok t ∧ to_list t = to_list self ++ to_list other ∧
    Node.height t <= Datatypes.S (Node.height self `max` Node.height other).
Proof.
  intros [->|[h1 H1]] Hother; unfold SumTree.append; [simpl; eauto with lia|].
  rewrite (wf_not_empty h1) by done.
  destruct Hother as [->|[h2 H2]].
  { simpl. exists self. split; [done|]. split; [right; eauto|]. rewrite app_nil_r. split; [done|lia]. }
  rewrite (wf_not_empty h2) by done.
  rewrite (wf_height h1 self), (wf_height h2 other) in * by done.
  destruct (Nat.ltb_spec h1 h2) as [Hlt|Hge].
  - destruct (append_large_spec h1 h2 self other) as (large & split & -> & Hl & Hsp); [done|done|lia|].
    simpl. destruct split as [t|].
    + destruct Hsp as [Ht <-]. destruct (from_child_trees_spec h2 t large) as (r & -> & Hr & Hcat); [done..|].
      exists r. rewrite (wf_height _ _ Hr). split_and!; [done|right; eauto|done|lia].
    + exists large. rewrite (wf_height _ _ Hl). split_and!; [done|right; eauto|done|lia].
  - destruct (push_tree_recursive_spec h1 h2 self other) as (self' & split & -> & Hl & Hsp); [done|done|lia|].
    simpl. destruct split as [t|].
    + destruct Hsp as [Ht <-]. destruct (from_child_trees_spec h1 self' t) as (r & -> & Hr & Hcat); [done..|].
      exists r. rewrite (wf_height _ _ Hr). split_and!; [done|right; eauto|done|lia].
    + exists self'. rewrite (wf_height _ _ Hl). split_and!; [done|right; eauto|done|lia].
Qed.

Lemma push_spec self item :
  tree_ok self →
  ∃ t, SumTree.push self item = Some t ∧ tree_ok t ∧ to_list t = to_list self ++ [item] ∧
    Node.height t <= Datatypes.S (Node.height self).
Proof.
  intros Hself. unfold SumTree.push.
  destruct (append_spec self (Leaf (item_summary item) [item] [item_summary item])) as (t & -> & Hok & Hl & Hht);
    [done| |].
  - right. exists 0. apply (wf_leaf _ [item]); [simpl; cap_lia|].
    unfold items_sum. simpl. by rewrite sum_singleton.
  - exists t. simpl in *. rewrite Nat.max_0_r in Hht. done.
Qed.
End append.

(** ** Bulk construction *)

Section from_iter.
Context {T S : Type} `{SummaryLaws S, !Item T S}.
Implicit Types t : SumTree T S.

(** The node over a full chunk of children. *)
Definition chunk_node (height : nat) (cts : list (SumTree T S)) : SumTree T S :=
  Internal height (sum (map Node.summary cts)) (map Node.summary cts) cts.

Lemma par_internal_node_eq height cts :
  0 < length cts <= CAPACITY → SumTree.par_internal_node height cts = Some (chunk_node height cts).
Proof.
  intros Hlen. unfold SumTree.par_internal_node.
  rewrite array_collect_Some by lia. simpl. rewrite array_collect_Some by (rewrite length_map; lia). simpl.
  rewrite sum1_sum by (destruct cts; simpl in *; [lia|done]). done.
Qed.

Lemma leaf_node_eq (items : list T) :
  0 < length items <= CAPACITY →
  SumTree.leaf_node items = Some (Leaf (sum (map item_summary items)) items (map item_summary items)).
Proof.
  intros Hlen. unfold SumTree.leaf_node.
  rewrite array_collect_Some by lia. simpl. rewrite array_collect_Some by (rewrite length_map; lia). simpl.
  rewrite sum1_sum by (destruct items; simpl in *; [lia|done]). done.
Qed.

Lemma par_chunks_cons {A} fuel (x : A) l :
  SumTree.par_chunks (Datatypes.S fuel) (x :: l) =
    take CAPACITY (x :: l) :: SumTree.par_chunks fuel (drop CAPACITY (x :: l)).
Proof. done. Qed.

Lemma par_chunks_spec {A} fuel (l : list A) :
  length l <= fuel →
  concat (SumTree.par_chunks fuel l) = l ∧
  Forall (λ c, 0 < length c <= CAPACITY) (SumTree.par_chunks fuel l) ∧
  CAPACITY * length (SumTree.par_chunks fuel l) < length l + CAPACITY.
Proof.
  revert l. induction fuel as [|fuel IH]; intros [|x l] Hlen; simpl in Hlen; try lia;
    [by simpl; split_and!; [..|cap_lia]|by simpl; split_and!; [..|cap_lia]|].
  rewrite par_chunks_cons.
  destruct (IH (drop CAPACITY (x :: l))) as (Hcat & Hall & Hnum); [rewrite length_drop; simpl; cap_lia|].
  cbn [concat length]. rewrite Hcat, take_drop. split_and!; [done| |].
  - constructor; [|done]. rewrite length_take. simpl. cap_lia.
  - rewrite length_drop in Hnum. simpl in *. cap_lia.
Qed.

Lemma leaf_nodes_chunks fuel (iter : list T) :
  length iter <= fuel →
  SumTree.leaf_nodes fuel iter = mapM SumTree.leaf_node (SumTree.par_chunks fuel iter).
Proof.
  revert iter. induction fuel as [|fuel IH]; intros [|x l] Hlen; simpl in Hlen; try lia; [done..|].
  rewrite par_chunks_cons. cbn [SumTree.leaf_nodes mapM].
  rewrite IH by (rewrite length_drop; simpl; cap_lia). done.
Qed.

Lemma add_child_chunk height cts l ps :
  0 < length cts < CAPACITY → length cts + length l <= CAPACITY →
  foldl (λ st child_node, st ← st; SumTree.add_child_node height st child_node)
    (Some (Some (chunk_node height cts), ps)) l =
  (if decide (length cts + length l = CAPACITY)
   then Some (None, ps ++ [chunk_node height (cts ++ l)])
   else Some (Some (chunk_node height (cts ++ l)), ps)).
Proof.
  revert cts. induction l as [|x l IH]; intros cts Hlen Htot; simpl in *.
  - rewrite decide_False by lia. by rewrite app_nil_r.
  - rewrite !array_push_Some by (rewrite ?length_map; lia). simpl.
    replace (map Node.summary cts ++ [Node.summary x]) with (map Node.summary (cts ++ [x])) by by rewrite map_app.
    replace (add_summary (sum (map Node.summary cts)) (Node.summary x)) with
      (sum (map Node.summary (cts ++ [x]))).
    2:{ rewrite map_app. simpl. unfold sum. by rewrite foldl_app. }
    rewrite length_app. simpl. destruct (Nat.eqb_spec (length cts + 1) CAPACITY) as [Heq|Hne].
    + destruct l; simpl in *; [|lia]. by rewrite decide_True by lia.
    + replace (cts ++ x :: l) with ((cts ++ [x]) ++ l) by by rewrite <-app_assoc.
      fold (chunk_node height (cts ++ [x])). rewrite IH by (rewrite length_app; simpl; lia).
      rewrite length_app; simpl. rewrite <-Nat.add_assoc. simpl. by rewrite Nat.add_succ_r.
Qed.

(** One level of [from_iter] is one level of [from_par_iter]. *)
Lemma parent_level_chunks height (nodes : list (SumTree T S)) fuel ps :
  length nodes <= fuel →
  ('(cur, parents) ← foldl (λ st child_node, st ← st; SumTree.add_child_node height st child_node)
      (Some (None, ps)) nodes; Some (parents ++ option_list cur)) =
  (rest ← mapM (SumTree.par_internal_node height) (SumTree.par_chunks fuel nodes); Some (ps ++ rest)).
Proof.
  revert nodes ps. induction fuel as [|fuel IH]; intros [|x l] ps Hlen; simpl in Hlen; try lia; [done..|].
  rewrite par_chunks_cons. rewrite <-(take_drop CAPACITY (x :: l)) at 1. rewrite foldl_app.
  assert (Hc : 0 < length (take CAPACITY (x :: l)) <= CAPACITY) by (rewrite length_take; simpl; cap_lia).
  assert (Hfirst : foldl (λ st child_node, st ← st; SumTree.add_child_node height st child_node)
      (Some (None, ps)) (take CAPACITY (x :: l)) =
    if decide (length (take CAPACITY (x :: l)) = CAPACITY)
    then Some (None, ps ++ [chunk_node height (take CAPACITY (x :: l))])
    else Some (Some (chunk_node height (take CAPACITY (x :: l))), ps)).
  { revert Hc. destruct (take CAPACITY (x :: l)) as [|y c]; simpl; [lia|]. intros Hc.
    rewrite array_push_Some by (simpl; cap_lia). simpl. rewrite array_push_Some by (simpl; cap_lia). simpl.
    destruct (Nat.eqb_spec 1 CAPACITY); [cap_lia|].
    apply (add_child_chunk height [y] c ps); simpl; cap_lia. }
  rewrite Hfirst. cbn [mapM]. rewrite par_internal_node_eq by done. cbn [mbind option_bind].
  case_decide as Hfull.
  - rewrite IH by (rewrite length_drop; simpl; cap_lia).
    destruct (mapM _ _) as [rest|]; simpl; [|done]. by rewrite <-app_assoc.
  - rewrite drop_ge by (rewrite length_take in Hfull; simpl in *; lia). simpl.
    by destruct fuel.
Qed.

Lemma parent_level_par height (nodes : list (SumTree T S)) :
  SumTree.parent_level height nodes =
    mapM (SumTree.par_internal_node height) (SumTree.par_chunks (length nodes) nodes).
Proof.
  unfold SumTree.parent_level. rewrite (parent_level_chunks _ _ (length nodes) []) by done.
  by destruct (mapM _ _).
Qed.

Lemma from_par_iter_eq (iter : list T) : SumTree.from_par_iter iter = SumTree.from_iter iter.
Proof.
  unfold SumTree.from_par_iter, SumTree.from_iter. rewrite leaf_nodes_chunks by done.
  destruct (mapM _ _) as [nodes|]; [|done]. cbn [mbind option_bind].
  assert (Hlev : ∀ fuel h (nodes : list (SumTree T S)), SumTree.build_levels (λ height nodes,
      mapM (SumTree.par_internal_node height) (SumTree.par_chunks (length nodes) nodes)) fuel h nodes =
    SumTree.build_levels SumTree.parent_level fuel h nodes).
  { clear iter nodes. induction fuel as [|fuel IH]; intros h nodes; simpl; [done|].
    case_match; [done|].
    rewrite parent_level_par. destruct (mapM _ _) as [rest|]; simpl; [|done]. apply IH. }
  by rewrite Hlev.
Qed.

Lemma mapM_Some_map {A B} (f : A → option B) (g : A → B) l :
  (∀ x, x ∈ l → f x = Some (g x)) → mapM f l = Some (map g l).
Proof.
  induction l as [|x l IH]; intros Hf; [done|]. cbn [mapM].
  rewrite Hf by set_solver. cbn [mbind option_bind]. rewrite IH; [done|]. set_solver.
Qed.

Lemma parent_level_spec h (nodes : list (SumTree T S)) :
  Forall (wf h) nodes →
  ∃ parents, SumTree.parent_level (Datatypes.S h) nodes = Some parents ∧
    Forall (wf (Datatypes.S h)) parents ∧
    concat (map to_list parents) = concat (map to_list nodes) ∧
    CAPACITY * length parents < length nodes + CAPACITY.
Proof.
  intros Hnodes. rewrite parent_level_par.
  destruct (par_chunks_spec (length nodes) nodes) as (Hcat & Hall & Hnum); [done|].
  set (cs := SumTree.par_chunks _ _) in *. clearbody cs.
  rewrite (mapM_Some_map _ (chunk_node (Datatypes.S h))).
  2:{ intros c Hc. apply par_internal_node_eq. by eapply Forall_forall in Hall. }
  simpl. eexists. split; [done|]. rewrite length_map. split_and!; [| |done].
  - apply Forall_map. rewrite Forall_forall. intros c Hc. simpl.
    rewrite Forall_forall in Hall. specialize (Hall c Hc). split_and!; try done; [lia..|].
    rewrite <-Hcat in Hnodes. rewrite Forall_concat in Hnodes.
    rewrite Forall_forall in Hnodes. by apply Hnodes.
  - subst nodes. clear. induction cs as [|c cs IH]; [done|]. simpl.
    by rewrite concat_map_app, IH.
Qed.

Lemma build_levels_spec k fuel h (nodes : list (SumTree T S)) :
  Forall (wf h) nodes → length nodes <= fuel → (N.of_nat (length nodes) <= 12 ^ k)%N →
  ∃ nodes' h', SumTree.build_levels SumTree.parent_level fuel h nodes = Some nodes' ∧
    Forall (wf h') nodes' ∧ length nodes' <= 1 ∧ h' <= h + N.to_nat k ∧
    concat (map to_list nodes') = concat (map to_list nodes).
Proof.
  revert h nodes k. induction fuel as [|fuel IH]; intros h nodes k Hwf Hlen Hk; simpl.
  { exists nodes, h. destruct (Nat.leb_spec (length nodes) 1); [|lia]. split_and!; [done..|lia|done]. }
  destruct (Nat.leb_spec (length nodes) 1).
  { exists nodes, h. split_and!; [done..|lia|done]. }
  assert (k ≠ 0%N) as Hk0 by (intros ->; simpl in Hk; lia).
  rewrite Nat.add_1_r. simpl.
  destruct (parent_level_spec h nodes Hwf) as (ps & -> & Hps & Hcat & Hnum). simpl.
  destruct (IH (Datatypes.S h) ps (N.pred k)) as (nodes' & h' & -> & Hwf' & Hl & Hh' & Hcat'); [done|cap_lia| |].
  - replace k with (N.succ (N.pred k)) in Hk by lia. rewrite N.pow_succ_r' in Hk. cap_lia.
  - exists nodes', h'. rewrite <-Hcat. split_and!; [done..|lia|done].
Qed.

Lemma from_iter_spec k (iter : list T) :
  (N.of_nat (length iter) <= 12 ^ (k + 1))%N →
  ∃ t, SumTree.from_iter iter = Some t ∧ tree_ok t ∧ to_list t = iter ∧ Node.height t <= N.to_nat k.
Proof.
  intros Hlen. unfold SumTree.from_iter. rewrite leaf_nodes_chunks by done.
  destruct (par_chunks_spec (length iter) iter) as (Hcat & Hall & Hnum); [done|].
  set (cs := SumTree.par_chunks _ _) in *. clearbody cs.
  rewrite (mapM_Some_map _ (λ c, Leaf (sum (map item_summary c)) c (map item_summary c))).
  2:{ intros c Hc. apply leaf_node_eq. by eapply Forall_forall in Hall. }
  cbn [mbind option_bind]. set (nodes := map _ cs).
  destruct (build_levels_spec k (length nodes) 0 nodes) as (nodes' & h' & -> & Hwf & Hl & Hh & Hcat').
  - apply Forall_map. eapply Forall_impl; [done|]. simpl. done.
  - done.
  - subst nodes. rewrite length_map. rewrite N.add_1_r, N.pow_succ_r' in Hlen. cap_lia.
  - cbn [mbind option_bind].
    assert (Hlist : concat (map to_list nodes) = iter).
    { subst nodes. rewrite map_map. simpl. by rewrite map_id. }
    rewrite Hlist in Hcat'. clear Hlist. clearbody nodes.
    destruct nodes' as [|t [|]]; simpl in *; [| |lia].
    + subst iter. rewrite <-Hcat'. eexists. split; [done|]. split; [by left|]. split; [done|simpl; lia].
    + rewrite app_nil_r in Hcat'. inversion_clear Hwf. exists t. split; [done|].
      split; [right; eauto|]. rewrite (wf_height h') by done. split; [done|lia].
Qed.
End from_iter.

(** ** The ends of the sequence *)

Section ends.
Context {T S : Type} `{SummaryLaws S, !Item T S}.
Implicit Types t : SumTree T S.

Lemma rightmost_leaf_snoc height s css (cts : list (SumTree T S)) c :
  SumTree.rightmost_leaf (Internal height s css (cts ++ [c])) = SumTree.rightmost_leaf c.
Proof.
  simpl. induction cts as [|c' cts IH]; [done|]. simpl. rewrite IH. by destruct cts.
Qed.

Lemma last_app_ne {A} (l k : list A) : k ≠ [] → last (l ++ k) = last k.
Proof. intros Hk. destruct k as [|x k _] using rev_ind; [done|]. by rewrite app_assoc, !last_snoc. Qed.

Lemma rightmost_leaf_spec h t :
  wf h t → ∃ l items, to_list t = l ++ items ∧ items ≠ [] ∧
    SumTree.rightmost_leaf t = Some (Leaf (items_sum items) items (map item_summary items)).
Proof.
  revert t. induction h as [|h IH]; intros t Ht.
  - apply wf_0_inv in Ht as (items & -> & Hlen). exists [], items. split_and!; [done| |done].
    destruct items; simpl in *; [exfalso; lia|done].
  - apply wf_S_inv in Ht as (cts & -> & Hcts & Hlen).
    destruct cts as [|c cts _] using rev_ind; [simpl in *; lia|].
    apply Forall_snoc_inv in Hcts as [_ Hc]. rewrite rightmost_leaf_snoc.
    destruct (IH c Hc) as (l & items & Hl & Hne & ->). exists (concat (map to_list cts) ++ l), items.
    rewrite to_list_internal, concat_map_app. simpl. by rewrite app_nil_r, Hl, <-app_assoc.
Qed.

Lemma leftmost_leaf_spec h t :
  wf h t → ∃ items l, to_list t = items ++ l ∧ items ≠ [] ∧
    SumTree.leftmost_leaf t = Some (Leaf (items_sum items) items (map item_summary items)).
Proof.
  revert t. induction h as [|h IH]; intros t Ht.
  - apply wf_0_inv in Ht as (items & -> & Hlen). exists items, []. rewrite app_nil_r. split_and!; [done| |done].
    destruct items; simpl in *; [exfalso; lia|done].
  - apply wf_S_inv in Ht as ([|c cts] & -> & Hcts & Hlen); [simpl in *; lia|].
    inversion_clear Hcts as [|?? Hc _]. simpl.
    destruct (IH c Hc) as (items & l & -> & Hne & ->). exists items, (l ++ concat (map to_list cts)).
    by rewrite <-app_assoc.
Qed.

Lemma last_spec t : tree_ok t → SumTree.last t = Some (last (to_list t)).
Proof.
  intros [->|[h Ht]]; [done|]. destruct (rightmost_leaf_spec h t Ht) as (l & items & -> & Hne & Hr).
  unfold SumTree.last. rewrite Hr. simpl. by rewrite last_app_ne.
Qed.

Lemma first_spec t : tree_ok t → SumTree.first t = Some (head (to_list t)).
Proof.
  intros [->|[h Ht]]; [done|]. destruct (leftmost_leaf_spec h t Ht) as (items & l & -> & Hne & Hr).
  unfold SumTree.first. rewrite Hr. simpl. by destruct items.
Qed.

Lemma last_summary_spec t :
  tree_ok t → SumTree.last_summary t = Some (item_summary <$> last (to_list t)).
Proof.
  intros [->|[h Ht]]; [done|]. destruct (rightmost_leaf_spec h t Ht) as (l & items & -> & Hne & Hr).
  unfold SumTree.last_summary. rewrite Hr. simpl. rewrite last_app_ne by done.
  destruct items as [|x items _] using rev_ind; [done|]. rewrite map_app. simpl. by rewrite !last_snoc.
Qed.

Lemma update_last_recursive_spec f h t :
  wf h t → ∃ t' l x, to_list t = l ++ [x] ∧
    SumTree.update_last_recursive f t = Some (t', Some (Node.summary t')) ∧
    wf h t' ∧ to_list t' = l ++ [f x].
Proof.
  revert t. induction h as [|h IH]; intros t Ht.
  - apply wf_0_inv in Ht as (items & -> & Hlen).
    destruct items as [|x items _] using rev_ind; [simpl in *; lia|]. cbn [SumTree.update_last_recursive].
    rewrite map_app. simpl. rewrite !last_snoc, !set_last_snoc. simpl.
    set (iss := map item_summary items ++ [item_summary (f x)]).
    exists (Leaf (sum iss) (items ++ [f x]) iss), items, x.
    split; [done|]. split; [done|]. split; [|done]. simpl. subst iss.
    rewrite length_app in *. simpl in *. split_and!; try lia; [by rewrite map_app|done].
  - apply wf_S_inv in Ht as (cts & -> & Hcts & Hlen).
    destruct cts as [|c cts _] using rev_ind; [simpl in *; lia|].
    apply Forall_snoc_inv in Hcts as [Hcts Hc]. cbn [SumTree.update_last_recursive].
    rewrite alter_last_snoc. destruct (IH c Hc) as (c' & l & x & Hl & -> & Hc' & Hl'). simpl.
    rewrite (map_app Node.summary). simpl. rewrite set_last_snoc. simpl.
    exists (chunk_node (Datatypes.S h) (cts ++ [c'])), (concat (map to_list cts) ++ l), x.
    rewrite length_app in Hlen. simpl in Hlen. unfold chunk_node. split; [|split; [|split]].
    + rewrite ?to_list_internal, concat_map_app. simpl. by rewrite app_nil_r, Hl, app_assoc.
    + by rewrite (map_app Node.summary).
    + simpl. rewrite length_app. simpl. split_and!; try done; try lia. by apply Forall_snoc_2.
    + rewrite ?to_list_internal, concat_map_app. simpl. by rewrite app_nil_r, Hl', app_assoc.
Qed.

Lemma update_last_spec f t :
  tree_ok t → ∃ t', SumTree.update_last f t = Some t' ∧ tree_ok t' ∧ Node.height t' = Node.height t ∧
    match last (to_list t) with
    | Some x => ∃ l, to_list t = l ++ [x] ∧ to_list t' = l ++ [f x]
    | None => t' = t
    end.
Proof.
  unfold SumTree.update_last. intros [->|[h Ht]].
  - simpl. eexists. split; [done|]. split; [by left|done].
  - destruct (update_last_recursive_spec f h t Ht) as (t' & l & x & Hl & -> & Ht' & Hl').
    exists t'. rewrite Hl, last_snoc, (wf_height h t), (wf_height h t') by done.
    split_and!; [done|right; eauto|done|eauto].
Qed.

Lemma update_first_recursive_spec f h t :
  wf h t → ∃ t' x l, to_list t = x :: l ∧
    SumTree.update_first_recursive f t = Some (t', Some (Node.summary t')) ∧
    wf h t' ∧ to_list t' = f x :: l.
Proof.
  revert t. induction h as [|h IH]; intros t Ht.
  - apply wf_0_inv in Ht as ([|x items] & -> & Hlen); [simpl in *; lia|]. simpl.
    set (iss := item_summary (f x) :: map item_summary items).
    exists (Leaf (sum iss) (f x :: items) iss), x, items.
    split; [done|]. split; [done|]. split; [|done]. simpl in *. split_and!; done || lia.
  - apply wf_S_inv in Ht as ([|c cts] & -> & Hcts & Hlen); [simpl in *; lia|].
    inversion_clear Hcts as [|?? Hc Hcts']. simpl.
    destruct (IH c Hc) as (c' & x & l & -> & -> & Hc' & Hl'). simpl.
    exists (chunk_node (Datatypes.S h) (c' :: cts)), x, (l ++ concat (map to_list cts)).
    split; [done|]. split; [done|]. split; [|by simpl; rewrite Hl'].
    simpl in *. split_and!; try done; try lia. by constructor.
Qed.

Lemma update_first_spec f t :
  tree_ok t → ∃ t', SumTree.update_first f t = Some t' ∧ tree_ok t' ∧ Node.height t' = Node.height t ∧
    to_list t' = match to_list t with x :: l => f x :: l | [] => [] end.
Proof.
  unfold SumTree.update_first. intros [->|[h Ht]].
  - simpl. eexists. split; [done|]. split; [by left|done].
  - destruct (update_first_recursive_spec f h t Ht) as (t' & x & l & -> & -> & Ht' & Hl').
    exists t'. rewrite (wf_height h t), (wf_height h t') by done.
    split_and!; [done|right; eauto|done|done].
Qed.
End ends.

(** ** Properties *)

(** C18. [append] concatenates: on well-formed trees it returns (no capacity
    overflow, no failed assertion), the result is well-formed, holds the items
    of the first tree followed by those of the second, caches their sum, and is
    at most one level higher than the higher of the two. *)
Theorem append_concatenates {T S} `{SummaryLaws S, !Item T S} (self other : SumTree T S)
    (Hself : tree_ok self) (Hother : tree_ok other) :
  ∃ t, SumTree.append self other = Some t ∧ tree_ok t ∧ to_list t = to_list self ++ to_list other ∧
    SumTree.summary t = sum (map item_summary (to_list self ++ to_list other)) ∧
    Node.height t <= Datatypes.S (Node.height self `max` Node.height other).
Proof.
  destruct (append_spec self other Hself Hother) as (t & Happ & Hok & Hl & Hh). exists t.
  split; [done|]. split; [done|]. split; [done|]. split; [|done].
  unfold SumTree.summary. by rewrite tree_ok_summary, Hl.
Qed.

(** Building a tree from an iterator, sequentially or in parallel: both
    algorithms return the same tree, it is well-formed, holds the items in
    order, and [12^(k+1)] items fit a tree of height [k]. *)
Theorem from_iter_builds {T S} `{SummaryLaws S, !Item T S} (iter : list T) (k : N)
    (Hlen : (N.of_nat (length iter) <= 12 ^ (k + 1))%N) :
  ∃ t, SumTree.from_iter iter = Some t ∧ SumTree.from_par_iter iter = Some t ∧ tree_ok t ∧
    to_list t = iter ∧ SumTree.first t = Some (head iter) ∧ SumTree.last t = Some (last iter) ∧
    Node.height t <= N.to_nat k.
Proof.
  destruct (from_iter_spec k iter Hlen) as (t & Hrun & Hok & <- & Hh). exists t.
  rewrite from_par_iter_eq, first_spec, last_spec by done. by split_and!.
Qed.

(** [update_last] and [update_first] replace one item in place: the cached
    summaries on the path are recomputed, so the tree stays well-formed. *)
Theorem update_ends {T S} `{SummaryLaws S, !Item T S} (f : T → T) (t : SumTree T S) (x y : T) (l : list T)
    (Ht : tree_ok t) (Hl : to_list t = x :: l ++ [y]) :
  (∃ t', SumTree.update_last f t = Some t' ∧ tree_ok t' ∧ to_list t' = x :: l ++ [f y]) ∧
  (∃ t', SumTree.update_first f t = Some t' ∧ tree_ok t' ∧ to_list t' = f x :: l ++ [y]).
Proof.
  split.
  - destruct (update_last_spec f t Ht) as (t' & Hrun & Hok & _ & Hlast). exists t'. split; [done|]. split; [done|].
    rewrite Hl, app_comm_cons, last_snoc in Hlast. destruct Hlast as (l' & Heq & ->).
    by apply app_inj_tail in Heq as [<- _].
  - destruct (update_first_spec f t Ht) as (t' & Hrun & Hok & _ & Hfirst). exists t'. rewrite Hl in Hfirst. done.
Qed.

(** Numbers that count for themselves, for the witnesses. *)
Module NatItems.
#[export] Instance nat_summary : Summary nat := {| zero := 0; add_summary := Nat.add |}.
#[export] Instance nat_summary_laws : SummaryLaws nat.
Proof. split; simpl; lia. Qed.
#[export] Instance nat_item : Item nat nat := λ x, x.

(** The tree of the first [n] numbers. *)
Definition tree (n : nat) : SumTree nat nat := default SumTree.new (SumTree.from_iter (seq 1 n)).

Lemma tree_13_ok : tree_ok (tree 13).
Proof.
  right. exists 1. vm_compute. split_and!; try lia; try done. repeat constructor; lia.
Qed.
End NatItems.
Import NatItems.

Lemma append_concatenates_witness :
  ∃ t, SumTree.append (NatItems.tree 13) (NatItems.tree 13) = Some t ∧ tree_ok t ∧
    to_list t = seq 1 13 ++ seq 1 13 ∧ SumTree.summary t = 182 ∧ Node.height t <= 2.
Proof. exact (append_concatenates (NatItems.tree 13) (NatItems.tree 13) NatItems.tree_13_ok NatItems.tree_13_ok). Defined.

Lemma from_iter_builds_witness :
  ∃ t : SumTree nat nat, SumTree.from_iter (seq 1 13) = Some t ∧ SumTree.from_par_iter (seq 1 13) = Some t ∧
    tree_ok t ∧ to_list t = seq 1 13 ∧ SumTree.first t = Some (Some 1) ∧ SumTree.last t = Some (Some 13) ∧
    Node.height t <= 1.
Proof. apply (from_iter_builds (seq 1 13) 1). simpl. lia. Defined.

Lemma update_ends_witness :
  (∃ t', SumTree.update_last (Nat.add 7) (NatItems.tree 13) = Some t' ∧ tree_ok t' ∧ to_list t' = seq 1 12 ++ [20]) ∧
  (∃ t', SumTree.update_first (Nat.add 7) (NatItems.tree 13) = Some t' ∧ tree_ok t' ∧ to_list t' = 8 :: seq 2 12).
Proof.
  exact (update_ends (Nat.add 7) (NatItems.tree 13) 1 13 (seq 2 11) NatItems.tree_13_ok
    ltac:(vm_compute; reflexivity)).
Defined.
