(* ===== verification/TreeHeights.v ===== *)
(** * How high appending makes a tree

    [append_spec] bounds the height of one append.  Many appends in a row, as
    slicing and the builders of a buffer do them, make a tree hardly higher: a
    node above the trees that are appended is made by splitting a full one, so it
    has at least [TREE_BASE] children, and every append adds at most one node to
    a level. *)

From S2P Require Import Prelude SumTree SumTreeFacts.

Section heights.
Context {T S : Type} `{SummaryLaws S, !Item T S}.
Implicit Types t self other : SumTree T S.

Definition children t : list (SumTree T S) := match t with Internal _ _ _ cts => cts | Leaf _ _ _ => [] end.

(** The nodes of height [m] in a tree of height [h]. *)
Fixpoint nodes_at (m h : nat) t : nat :=
  if h =? m then 1
  else match h with 0 => 0 | Datatypes.S h => sum_list (map (nodes_at m h) (children t)) end.

(** Below the root, the nodes higher than [m] have [TREE_BASE] children. *)
Fixpoint filled (m h : nat) t : Prop :=
  match h with
  | 0 => True
  | Datatypes.S h => Forall (λ c, (m < h → TREE_BASE <= length (children c)) ∧ filled m h c) (children t)
  end.

Lemma nodes_at_same m t : nodes_at m m t = 1.
Proof. destruct m; cbn [nodes_at]; by rewrite Nat.eqb_refl. Qed.

Lemma nodes_at_high m h t : h < m → nodes_at m h t = 0.
Proof.
  revert t. induction h as [|h IH]; intros t Hlt; [destruct m; [lia|done]|].
  cbn [nodes_at]. destruct (Nat.eqb_spec (Datatypes.S h) m); [lia|].
  induction (children t) as [|c l IHl]; simpl; [done|]. rewrite IHl, IH by lia. done.
Qed.

Lemma nodes_at_S m h t : m <= h → nodes_at m (Datatypes.S h) t = sum_list (map (nodes_at m h) (children t)).
Proof. cbn [nodes_at]. intros. destruct (Nat.eqb_spec (Datatypes.S h) m); [lia|done]. Qed.

Lemma filled_low m h t : h <= Datatypes.S m → filled m h t.
Proof.
  revert t. induction h as [|h IH]; intros t Hle; simpl; [done|].
  apply Forall_true. intros c. split; [lia|apply IH; lia].
Qed.

Lemma sum_list_map_app {A} (f : A → nat) l k : sum_list (map f (l ++ k)) = sum_list (map f l) + sum_list (map f k).
Proof. induction l as [|a l IH]; simpl; [done|]. rewrite IH. lia. Qed.

Lemma sum_list_map_ge {A} (f : A → nat) (b : nat) l : Forall (λ a, b <= f a) l → b * length l <= sum_list (map f l).
Proof. induction 1 as [|a l Ha _ IH]; simpl; lia. Qed.

(** The levels above [m] widen by [TREE_BASE] downwards. *)
Lemma nodes_at_ge m h t : m < h → filled m h t → TREE_BASE ^ (h - Datatypes.S m) * length (children t) <= nodes_at m h t.
Proof.
  revert t. induction h as [|h IH]; intros t Hlt Hf; [lia|]. rewrite nodes_at_S by lia. simpl in Hf.
  apply sum_list_map_ge. eapply Forall_impl; [exact Hf|]. intros c [Hc Hfc]. simpl.
  destruct (decide (h = m)) as [->|].
  { rewrite nodes_at_same, Nat.sub_diag. done. }
  assert (m < h) as Hmh by lia. specialize (IH c Hmh Hfc). specialize (Hc Hmh).
  replace (h - m) with (Datatypes.S (h - Datatypes.S m)) by lia. simpl.
  trans (TREE_BASE ^ (h - Datatypes.S m) * length (children c)); [|done]. rewrite Nat.mul_comm. by apply Nat.mul_le_mono_l.
Qed.

(** A tree made by [n] appends of trees no higher than [m]. *)
Definition low (m n : nat) t : Prop :=
  t = SumTree.new ∨ ∃ h, wf h t ∧ filled m h t ∧ (m < h → 2 <= length (children t)) ∧ nodes_at m h t <= Datatypes.S n.

Lemma low_small m n t : tree_ok t → Node.height t <= m → low m n t.
Proof.
  intros [->|[h Hwf]] Hle; [by left|]. right. exists h. rewrite (wf_height _ _ Hwf) in Hle.
  split; [done|]. split; [by apply filled_low; lia|]. split; [lia|].
  destruct (decide (h = m)) as [->|]; [rewrite nodes_at_same; lia|rewrite nodes_at_high; lia].
Qed.

Lemma low_more m n n' t : low m n t → n <= n' → low m n' t.
Proof. intros [->|(h & Hwf & Hf & Hroot & Hn)] Hle; [by left|]. right. exists h. split_and!; [done..|lia]. Qed.

Lemma low_tree_ok m n t : low m n t → tree_ok t.
Proof. intros [->|(h & Hwf & _)]; [by left|right; eauto]. Qed.

Lemma low_height m n t : low m n t → m < Node.height t → 2 * TREE_BASE ^ (Node.height t - Datatypes.S m) <= Datatypes.S n.
Proof.
  intros [->|(h & Hwf & Hf & Hroot & Hn)] Hlt; [simpl in Hlt; lia|]. rewrite (wf_height _ _ Hwf) in *.
  pose proof (nodes_at_ge m h t Hlt Hf) as Hge. specialize (Hroot Hlt).
  etrans; [|exact Hn]. etrans; [|exact Hge]. rewrite Nat.mul_comm. by apply Nat.mul_le_mono_l.
Qed.

(** *** Pushing a low tree *)

Lemma midpoint_base n : CAPACITY < n → n <= 2 * CAPACITY →
  TREE_BASE <= SumTree.midpoint n ∧ TREE_BASE <= n - SumTree.midpoint n.
Proof.
  pose proof CAPACITY_eq. pose proof TREE_BASE_eq. unfold SumTree.midpoint. intros.
  pose proof (Nat.div_mod_eq n 2). pose proof (Nat.mod_upper_bound n 2).
  pose proof (Nat.div_mod_eq (n + n mod 2) 2). pose proof (Nat.mod_upper_bound (n + n mod 2) 2). lia.
Qed.

(** What a push does to the levels above [m]. *)
Definition leveled (m h n w : nat) (r : SumTree T S * option (SumTree T S)) : Prop :=
  filled m h r.1 ∧
  match r.2 with
  | None => nodes_at m h r.1 <= n ∧ (m < h → TREE_BASE `min` w <= length (children r.1))
  | Some t => filled m h t ∧ nodes_at m h r.1 + nodes_at m h t <= n ∧
      (m < h → TREE_BASE <= length (children r.1) ∧ TREE_BASE <= length (children t))
  end.

Lemma push_children_leveled m h s cts ta ss tas n w r : m <= h →
  SumTree.push_children (Datatypes.S h) s ss cts tas ta = Some r →
  length cts <= CAPACITY → length ta <= CAPACITY → w <= length cts + length ta →
  Forall (λ c, (m < h → TREE_BASE <= length (children c)) ∧ filled m h c) (cts ++ ta) →
  sum_list (map (nodes_at m h) (cts ++ ta)) <= n →
  leveled m (Datatypes.S h) n w r.
Proof.
  unfold SumTree.push_children. intros Hmh Hrun Hc Hta Hw Hall Hn.
  destruct (Nat.ltb_spec CAPACITY (length cts + length ta)) as [Hover|Hfit].
  - destruct (midpoint_base (length cts + length ta)) as [Hm1 Hm2]; [lia..|].
    set (i := SumTree.midpoint _) in *. unfold array_collect in Hrun. simplify_option_eq.
    unfold leveled. cbn [fst snd]. rewrite !nodes_at_S by done. cbn [children filled].
    split; [by apply Forall_take|]. split; [by apply Forall_drop|].
    split; [by rewrite <-sum_list_map_app, take_drop|]. intros _. rewrite length_take, length_drop, length_app. lia.
  - unfold array_extend in Hrun. simplify_option_eq. unfold leveled. cbn [fst snd]. rewrite nodes_at_S by done.
    cbn [children filled]. split; [done|]. split; [done|]. intros _. rewrite length_app. lia.
Qed.

Lemma filled_children m h t : filled m (Datatypes.S h) t →
  Forall (λ c, (m < h → TREE_BASE <= length (children c)) ∧ filled m h c) (children t).
Proof. done. Qed.

Lemma leveled_low m h self r w : h <= m → leveled m h (Datatypes.S (nodes_at m h self)) w r.
Proof.
  intros Hle. unfold leveled. destruct r as [self' [t|]]; cbn [fst snd].
  all: split; [apply filled_low; lia|].
  - split; [apply filled_low; lia|]. split; [|lia].
    destruct (decide (h = m)) as [->|]; [rewrite !nodes_at_same|rewrite !nodes_at_high by lia]; lia.
  - split; [|lia]. destruct (decide (h = m)) as [->|]; [rewrite !nodes_at_same|rewrite !nodes_at_high by lia]; lia.
Qed.

Lemma push_tree_leveled m h h' self other r : wf h self → wf h' other → h' <= h → h' <= m → filled m h self →
  SumTree.push_tree_recursive self other = Some r → leveled m h (Datatypes.S (nodes_at m h self)) (length (children self)) r.
Proof.
  revert self r. induction h as [|h IH]; intros self [self' split] Hself Hother Hle Hm Hf Hrun.
  - apply leveled_low. lia.
  - destruct (decide (Datatypes.S h <= m)) as [Hlow|Hhigh]; [by apply leveled_low|].
    assert (m <= h) as Hmh by lia. rewrite nodes_at_S by done.
    apply wf_S_inv in Hself as (cts & -> & Hcts & Hlen). cbn [children] in *. apply filled_children in Hf. cbn [children] in Hf.
    cbn [SumTree.push_tree_recursive] in Hrun. rewrite (wf_height h' other) in Hrun by done.
    destruct (Nat.leb_spec h' (Datatypes.S h)); [|lia]. cbn [rassert mbind option_bind] in Hrun.
    destruct (Nat.eqb_spec (Datatypes.S h - h') 0) as [H0'|Hne]; [lia|].
    destruct (_ && _) eqn:Hdir.
    { apply andb_true_iff in Hdir as [Hd%Nat.eqb_eq _]. assert (h' = h) as -> by lia. assert (h = m) as -> by lia.
      unfold array_push in Hrun. simplify_option_eq.
      eapply push_children_leveled; [| exact Hrun | | | | |]; simpl; rewrite ?sum_list_map_app; simpl; try (cap_lia || lia).
      - apply Forall_app. split; [done|]. constructor; [|done]. split; [lia|]. apply filled_low. lia.
      - rewrite nodes_at_same. lia. }
    clear Hdir. destruct cts as [|c0 cts _] using rev_ind; [simpl in *; lia|].
    apply Forall_app in Hcts as [Hcts Hc]. inversion_clear Hc as [|?? Hc0 _].
    apply Forall_app in Hf as [Hf Hfc]. inversion_clear Hfc as [|?? [Hw0 Hf0] _].
    rewrite alter_last_snoc in Hrun. destruct (SumTree.push_tree_recursive c0 other) as [[c' split']|] eqn:Hc; [|done].
    specialize (IH c0 (c', split') Hc0 Hother ltac:(lia) Hm Hf0 Hc) as (Hfc' & Hsplit). cbn [mbind option_bind fst snd] in *.
    rewrite last_snoc in Hrun. cbn [mbind option_bind] in Hrun.
    destruct (set_last _ _) as [css|]; [|done]. cbn [mbind option_bind] in Hrun.
    rewrite sum_list_map_app. simpl. rewrite length_app in Hlen. simpl in Hlen.
    destruct split' as [t|].
    + destruct Hsplit as (Hft & Hn & Hws). unfold array_push in Hrun. simplify_option_eq.
      eapply push_children_leveled; [done| exact Hrun | | | | |]; rewrite ?length_app; simpl; try lia.
      * apply Forall_app. split; [apply Forall_snoc_2; [done|]|constructor; [|done]]; (split; [by intros [??]%Hws|done]).
      * rewrite !sum_list_map_app. simpl. lia.
    + destruct Hsplit as (Hn & Hws). eapply push_children_leveled; [done| exact Hrun | | | | |]; rewrite ?length_app; simpl; try lia.
      * rewrite app_nil_r. apply Forall_snoc_2; [done|]. split; [|done]. intros Hlt. specialize (Hws Hlt). specialize (Hw0 Hlt). lia.
      * rewrite app_nil_r, sum_list_map_app. simpl. lia.
Qed.

Lemma from_child_trees_children (l r t : SumTree T S) : SumTree.from_child_trees l r = Some t →
  children t = [l; r] ∧ Node.height t = Datatypes.S (Node.height l).
Proof. unfold SumTree.from_child_trees, array_push. intros. simplify_option_eq. split; [done|]. simpl. lia. Qed.

Lemma append_low m n self other t : low m n self → tree_ok other → Node.height other <= m →
  SumTree.append self other = Some t → low m (Datatypes.S n) t.
Proof.
  intros Hself Hother Hm Hrun. pose proof (low_tree_ok _ _ _ Hself) as Hok.
  destruct (append_spec self other Hok Hother) as (t' & Hrun' & Ht & _ & Hht). rewrite Hrun in Hrun'. injection Hrun' as <-.
  destruct (decide (Node.height t <= m)) as [|Hhigh]; [by apply low_small|].
  destruct Hself as [->|(h1 & H1 & Hf & Hroot & Hn)].
  { simpl in Hrun. injection Hrun as <-. lia. }
  unfold SumTree.append in Hrun. rewrite (wf_not_empty h1) in Hrun by done.
  destruct Hother as [->|[h2 H2]].
  { simpl in Hrun. injection Hrun as <-. right. exists h1. split_and!; [done..|lia]. }
  rewrite (wf_not_empty h2) in Hrun by done.
  rewrite (wf_height h1 self), (wf_height h2 other) in * by done.
  assert (∀ h u, wf h u → h = Datatypes.S m → length (children u) = 2 → low m (Datatypes.S n) u) as Htwo.
  { intros h u Hu -> Hl. right. exists (Datatypes.S m). split; [done|]. split; [by apply filled_low|]. split; [lia|].
    rewrite nodes_at_S by done. destruct (children u) as [|a [|b []]]; try done. simpl. rewrite !nodes_at_same. lia. }
  destruct (Nat.ltb_spec h1 h2) as [Hlt|Hge].
  - destruct (append_large_spec h1 h2 self other) as (large & split & Hlarge & Hl & Hsp); [done|done|lia|].
    rewrite Hlarge in Hrun. cbn [mbind option_bind] in Hrun. destruct split as [u|].
    + destruct Hsp as [Hu _]. apply from_child_trees_children in Hrun as [Hc Hh]. rewrite (wf_height _ _ Hu) in Hh.
      destruct Ht as [->|[h Ht]]; [done|]. rewrite (wf_height _ _ Ht) in *. apply (Htwo h); [done|lia|by rewrite Hc].
    + injection Hrun as <-. rewrite (wf_height _ _ Hl) in *. lia.
  - destruct (push_tree_recursive_spec h1 h2 self other) as (self' & split & Hpush & Hl & Hsp); [done|done|lia|].
    destruct (push_tree_leveled m h1 h2 self other (self', split)) as (Hf' & Hlev); [done..|]. cbn [fst snd] in *.
    rewrite Hpush in Hrun. cbn [mbind option_bind] in Hrun. destruct split as [u|].
    + destruct Hsp as [Hu _]. destruct Hlev as (Hfu & Hnu & Hw). apply from_child_trees_children in Hrun as [Hc Hh]. rewrite (wf_height _ _ Hl) in Hh.
      destruct Ht as [->|[h Ht]]; [done|]. rewrite (wf_height _ _ Ht) in *. subst h.
      destruct (decide (h1 = m)) as [->|]; [by apply (Htwo (Datatypes.S m)); [| |rewrite Hc]|].
      right. exists (Datatypes.S h1). split; [done|]. cbn [filled]. rewrite nodes_at_S, Hc by lia. simpl.
      split; [|split; [lia|lia]]. repeat constructor; try done; apply Hw; lia.
    + injection Hrun as <-. destruct Hlev as (Hnu & Hw). right. exists h1. rewrite (wf_height _ _ Hl) in *. split_and!; [done|done| |lia].
      intros Hlt. specialize (Hw Hlt). specialize (Hroot Hlt). cap_lia.
Qed.
End heights.
