(* ===== verification/Seek.v ===== *)
(** * Seeking in the item sequence

    The reference semantics of every seek of the tree: a scan of the item list
    that accumulates the dimension and stops at the first item whose end the
    target does not pass.  The descent of [find], [find_exact] and
    [find_with_prev] through the cached summaries is shown to return what the
    scan returns, for targets that are monotone along the sequence. *)

From S2P Require Import Prelude SumTree SumTreeFacts.

Section seek.
Context {T S D : Type} `{SummaryLaws S, !Item T S, !Dimension D S, !DimensionLaws D S}.
Implicit Types (l k : list T) (d : D) (t : SumTree T S).

(** The position after the items [l], starting from [d]. *)
Definition pos_after d l : D := foldl (λ d x, dim_add d (item_summary x)) d l.

Lemma pos_after_app d l k : pos_after d (l ++ k) = pos_after (pos_after d l) k.
Proof. apply foldl_app. Qed.

Lemma dim_add_items_sum d l : l ≠ [] → dim_add d (items_sum l) = pos_after d l.
Proof.
  induction l as [|x l IH] using rev_ind; [done|]. intros _.
  destruct (decide (l = [])) as [->|Hl].
  - unfold items_sum. simpl. by rewrite sum_singleton.
  - rewrite items_sum_app, <-dim_add_add, IH, pos_after_app by done.
    unfold items_sum. simpl. by rewrite sum_singleton.
Qed.

Lemma dim_add_wf d h t : wf h t → dim_add d (Node.summary t) = pos_after d (to_list t).
Proof. intros Ht. rewrite (wf_summary h) by done. apply dim_add_items_sum. by eapply wf_nonempty. Qed.

Section target.
Context (target : SeekTarget D) (bias : Bias).

Definition stops (d : D) : bool := SumTree.target_in_child (target d) bias.

(** [(passed items, position reached, remaining items)] *)
Fixpoint lin_seek d l : list T * D * list T :=
  match l with
  | [] => ([], d, [])
  | x :: l' =>
      let child_end := dim_add d (item_summary x) in
      if stops child_end then ([], d, l)
      else let '(b, p, r) := lin_seek child_end l' in (x :: b, p, r)
  end.

Lemma lin_seek_split d l b p r :
  lin_seek d l = (b, p, r) → l = b ++ r ∧ p = pos_after d b ∧
    match r with x :: _ => stops (dim_add p (item_summary x)) = true | [] => True end.
Proof.
  revert d b. induction l as [|x l IH]; intros d b; simpl.
  - intros; simplify_eq. done.
  - destruct (stops _) eqn:Hs; [intros; by simplify_eq|].
    destruct (lin_seek _ l) as [[b' p'] r'] eqn:Hrec. intros; simplify_eq.
    apply IH in Hrec as (-> & -> & Hr). done.
Qed.

Definition rank (c : comparison) : nat := match c with Lt => 0 | Eq => 1 | Gt => 2 end.

(** The target never moves ahead again as the position advances. *)
Definition monotone d l : Prop :=
  ∀ l1 l2 l3, l = l1 ++ l2 ++ l3 →
    rank (target (pos_after d (l1 ++ l2))) <= rank (target (pos_after d l1)).

Lemma monotone_app_l d l k : monotone d (l ++ k) → monotone d l.
Proof. intros Hm l1 l2 l3 ->. apply (Hm l1 l2 (l3 ++ k)). by rewrite <-!app_assoc. Qed.

Lemma monotone_app_r d l k : monotone d (l ++ k) → monotone (pos_after d l) k.
Proof.
  intros Hm l1 l2 l3 ->. rewrite <-!pos_after_app, app_assoc. apply (Hm (l ++ l1) l2 l3).
  by rewrite <-!app_assoc.
Qed.

Lemma stops_mono d l k : monotone d (l ++ k) → stops (pos_after d l) = true → stops (pos_after d (l ++ k)) = true.
Proof.
  intros Hm. specialize (Hm l k []). rewrite app_nil_r in Hm. specialize (Hm eq_refl).
  unfold stops, SumTree.target_in_child.
  destruct (target (pos_after d l)), (target (pos_after d (l ++ k))); simpl in Hm; try done; lia.
Qed.

(** A stretch of items whose end the target passes is passed as a whole. *)
Lemma lin_seek_skip d l k :
  monotone d l → l ≠ [] → stops (pos_after d l) = false →
  lin_seek d (l ++ k) = (let '(b, p, r) := lin_seek (pos_after d l) k in (l ++ b, p, r)).
Proof.
  revert d. induction l as [|x l IH]; intros d Hm Hne Hs; [done|]. simpl.
  destruct (stops (dim_add d (item_summary x))) eqn:Hx.
  { apply (stops_mono d [x] l) in Hx; [|done]. simpl in *. congruence. }
  destruct (decide (l = [])) as [->|Hl]; simpl; [by destruct (lin_seek _ k) as [[]]|].
  rewrite IH; [|by apply (monotone_app_r d [x])|done|exact Hs].
  by destruct (lin_seek _ k) as [[]].
Qed.

(** A stretch whose end the target does not pass holds the stop. *)
Lemma lin_seek_enter d l k :
  l ≠ [] → stops (pos_after d l) = true →
  ∃ b p r, lin_seek d l = (b, p, r) ∧ r ≠ [] ∧ lin_seek d (l ++ k) = (b, p, r ++ k).
Proof.
  revert d. induction l as [|x l IH]; intros d Hne Hs; [done|]. simpl.
  destruct (stops (dim_add d (item_summary x))) eqn:Hx; [eexists _, _, _; by split_and!|].
  destruct (decide (l = [])) as [->|Hl]; [simpl in *; congruence|].
  destruct (IH (dim_add d (item_summary x))) as (b & p & r & -> & Hr & ->); [done..|].
  eexists _, _, _; by split_and!.
Qed.

Lemma find_leaf_lin d l :
  SumTree.find_leaf false target bias d l (map item_summary l) =
    let '(b, p, r) := lin_seek d l in
    (p, x ← head r; Some (x, dim_add p (item_summary x))).
Proof.
  revert d. induction l as [|x l IH]; intros d; [done|]. simpl.
  unfold SumTree.entry_found, stops in *.
  destruct (SumTree.target_in_child _ _) eqn:Hs; [done|].
  rewrite IH. by destruct (lin_seek _ l) as [[]].
Qed.

(** The scan of a leaf by [find_exact], with [Bias::Left]. *)
Lemma find_leaf_exact d l :
  bias = Left → monotone d l → 
  (SumTree.find_leaf true target bias d l (map item_summary l)).2 =
    let '(b, p, r) := lin_seek d l in
    (x ← head r; let e := dim_add p (item_summary x) in if is_eq (target e) then Some (x, e) else None).
Proof.
  intros Hb. revert d. induction l as [|x l IH]; intros d Hm; [done|]. simpl.
  unfold SumTree.entry_found, stops in *.
  destruct (target (dim_add d (item_summary x))) eqn:Ht; simpl.
  - rewrite bool_decide_eq_true_2 by done. simpl. by rewrite Ht.
  - rewrite Ht. simpl. specialize (Hm [x]). simpl in Hm. rewrite Ht in Hm.
    clear IH Ht Hb. remember (dim_add d (item_summary x)) as d' eqn:Hd'. clear Hd'.
    assert (Hlt : ∀ l2 l3, l = l2 ++ l3 → target (pos_after d' l2) = Lt).
    { intros l2 l3 ->. specialize (Hm l2 l3 eq_refl). destruct (target _); simpl in Hm; [lia|done|lia]. }
    clear Hm. revert d' Hlt. induction l as [|y l IH]; intros d' Hlt; [done|]. simpl.
    assert (Hy := Hlt [y] l eq_refl). simpl in Hy. rewrite Hy. simpl. apply IH.
    intros l2 l3 ->. by apply (Hlt (y :: l2) l3).
  - rewrite IH by by apply (monotone_app_r d [x]). by destruct (lin_seek _ l) as [[]].
Qed.

(** The descent through the children, for [find] ([exact = false]). *)
Lemma find_iterate_lin h t d :
  wf h t → monotone d (to_list t) →
  SumTree.find_iterate false target bias d t =
    let '(b, p, r) := lin_seek d (to_list t) in
    (p, x ← head r; Some (x, dim_add p (item_summary x))).
Proof.
  revert t d. induction h as [|h IH]; intros t d Ht Hm.
  - apply wf_0_inv in Ht as (items & -> & _). apply find_leaf_lin.
  - apply wf_S_inv in Ht as (cts & -> & Hcts & _). simpl in *.
    revert d Hm. induction Hcts as [|c cts Hc Hcts IHcts]; intros d Hm; [done|]. simpl in *.
    rewrite (dim_add_wf d h) by done. fold (stops (pos_after d (to_list c))).
    assert (Hne : to_list c ≠ []) by by eapply wf_nonempty.
    destruct (stops _) eqn:Hs.
    + destruct (lin_seek_enter d (to_list c) (concat (map to_list cts))) as (b & p & r & Hl & Hr & ->); [done..|].
      rewrite IH, Hl by (done || by eapply monotone_app_l). by destruct r.
    + rewrite lin_seek_skip by (done || by eapply monotone_app_l).
      rewrite IHcts by by apply monotone_app_r. by destruct (lin_seek _ _) as [[]].
Qed.

Lemma find_iterate_exact h t d :
  bias = Left → wf h t → monotone d (to_list t) →
  (SumTree.find_iterate true target bias d t).2 =
    let '(b, p, r) := lin_seek d (to_list t) in
    (x ← head r; let e := dim_add p (item_summary x) in if is_eq (target e) then Some (x, e) else None).
Proof.
  intros Hb. revert t d. induction h as [|h IH]; intros t d Ht Hm.
  - apply wf_0_inv in Ht as (items & -> & _). by apply find_leaf_exact.
  - apply wf_S_inv in Ht as (cts & -> & Hcts & _). simpl in *.
    revert d Hm. induction Hcts as [|c cts Hc Hcts IHcts]; intros d Hm; [done|]. simpl in *.
    rewrite (dim_add_wf d h) by done. fold (stops (pos_after d (to_list c))).
    assert (Hne : to_list c ≠ []) by by eapply wf_nonempty.
    destruct (stops _) eqn:Hs.
    + destruct (lin_seek_enter d (to_list c) (concat (map to_list cts))) as (b & p & r & Hl & Hr & ->); [done..|].
      rewrite IH, Hl by (done || by eapply monotone_app_l). by destruct r.
    + rewrite lin_seek_skip by (done || by eapply monotone_app_l).
      rewrite IHcts by by apply monotone_app_r. by destruct (lin_seek _ _) as [[]].
Qed.
End target.
End seek.

(** The further a position, the less a target in the order of positions is ahead. *)
Lemma rank_cmp_le {K} `{OrdLaws K} (k d d' : K) : is_le (cmp d d') → rank (cmp k d') <= rank (cmp k d).
Proof.
  intros Hle. destruct (cmp k d) eqn:Hd; simpl; [|destruct (cmp k d') eqn:Hd'; simpl; try lia|destruct (cmp k d'); simpl; lia].
  - apply cmp_eq in Hd as ->. destruct (cmp d d'); simpl; [done|lia|done].
  - apply cmp_eq in Hd' as ->. by rewrite (cmp_opp d' d), Hd in Hle.
  - assert (Hc : cmp k d' = Lt); [by eapply cmp_lt_le_trans|congruence].
Qed.

Section find.
Context {T S D : Type} `{SummaryLaws S, !Item T S, !Dimension D S, !DimensionLaws D S}.
Context (target : SeekTarget D).
Implicit Types (t : SumTree T S).

Lemma early_exit_iff (c : comparison) (bias : Bias) :
  (match c with Gt => true | Eq => bool_decide (bias = Right) | Lt => false end) =
    negb (SumTree.target_in_child c bias).
Proof. by destruct c, bias. Qed.

Lemma lin_seek_all bias d (l : list T) :
  monotone target d l → l ≠ [] → stops target bias (pos_after d l) = false →
  lin_seek target bias d l = (l, pos_after d l, []).
Proof.
  intros Hm Hl Hs. rewrite <-(app_nil_r l) at 1. rewrite lin_seek_skip by done. simpl.
  by rewrite app_nil_r.
Qed.

Lemma find_spec bias h t :
  wf h t → monotone target dim_zero (to_list t) →
  SumTree.find t target bias =
    let '(b, p, r) := lin_seek target bias dim_zero (to_list t) in
    match r with x :: _ => (p, dim_add p (item_summary x), Some x) | [] => (p, p, None) end.
Proof.
  intros Ht Hm. unfold SumTree.find, SumTree.find_from.
  rewrite early_exit_iff. unfold SumTree.summary. rewrite (dim_add_wf dim_zero h) by done.
  fold (stops target bias (pos_after dim_zero (to_list t))).
  destruct (stops _ _ _) eqn:Hs; simpl.
  - rewrite (find_iterate_lin target bias h) by done.
    destruct (lin_seek _ _ _ _) as [[b p] [|x r]]; done.
  - rewrite lin_seek_all by (done || by eapply wf_nonempty). done.
Qed.

Lemma find_exact_spec h t :
  wf h t → monotone target dim_zero (to_list t) →
  (SumTree.find_exact t target Left).2 =
    let '(b, p, r) := lin_seek target Left dim_zero (to_list t) in
    (x ← head r; if is_eq (target (dim_add p (item_summary x))) then Some x else None).
Proof.
  intros Ht Hm. unfold SumTree.find_exact, SumTree.find_from.
  rewrite early_exit_iff. unfold SumTree.summary. rewrite (dim_add_wf dim_zero h) by done.
  fold (stops target Left (pos_after dim_zero (to_list t))).
  destruct (stops _ _ _) eqn:Hs; simpl.
  - pose proof (find_iterate_exact target Left h t dim_zero eq_refl Ht Hm) as Heq.
    destruct (SumTree.find_iterate _ _ _ _ _) as [pos [[x e]|]]; simpl in *;
      destruct (lin_seek _ _ _ _) as [[b p] [|y r]]; simpl in *; repeat case_match; naive_solver.
  - rewrite lin_seek_all by (done || by eapply wf_nonempty). done.
Qed.

Lemma find_with_prev_leaf_lin bias prev d (l : list T) :
  SumTree.find_with_prev_leaf false target bias prev d l (map item_summary l) =
    let '(b, p, r) := lin_seek target bias d l in
    (p, x ← head r; Some (from_option Some prev (last b), x, dim_add p (item_summary x))).
Proof.
  revert prev d. induction l as [|x l IH]; intros prev d; [done|]. simpl.
  unfold SumTree.entry_found, stops in *.
  destruct (SumTree.target_in_child _ _) eqn:Hs; [done|].
  rewrite IH. destruct (lin_seek _ _ _ l) as [[b p] r]. f_equal. destruct r as [|y r]; [done|]. simpl.
  do 3 f_equal. rewrite last_cons. by destruct (last b).
Qed.

Lemma find_with_prev_iterate_lin bias prev h t d :
  wf h t → monotone target d (to_list t) →
  SumTree.find_with_prev_iterate false target bias prev d t =
    let '(b, p, r) := lin_seek target bias d (to_list t) in
    Some (p, x ← head r; Some (from_option Some prev (last b), x, dim_add p (item_summary x))).
Proof.
  revert prev t d. induction h as [|h IH]; intros prev t d Ht Hm.
  - apply wf_0_inv in Ht as (items & -> & _). simpl. rewrite find_with_prev_leaf_lin.
    by destruct (lin_seek _ _ _ _) as [[]].
  - apply wf_S_inv in Ht as (cts & -> & Hcts & _). simpl in *.
    revert prev d Hm. induction Hcts as [|c cts Hc Hcts IHcts]; intros prev d Hm; [done|]. simpl in *.
    rewrite (dim_add_wf d h) by done. fold (stops target bias (pos_after d (to_list c))).
    assert (Hne : to_list c ≠ []) by by eapply wf_nonempty.
    destruct (stops _ _ _) eqn:Hs.
    + destruct (lin_seek_enter target bias d (to_list c) (concat (map to_list cts))) as (b & p & r & Hl & Hr & ->); [done..|].
      rewrite IH, Hl by (done || by eapply monotone_app_l). by destruct r.
    + rewrite lin_seek_skip by (done || by eapply monotone_app_l).
      rewrite last_spec by (right; eauto). simpl.
      rewrite IHcts by by apply monotone_app_r. destruct (lin_seek _ _ _ _) as [[b p] r].
      do 2 f_equal. destruct r as [|y r]; [done|]. simpl. do 3 f_equal.
      destruct b as [|z b _] using rev_ind; simpl.
      * rewrite app_nil_r. destruct (to_list c) as [|w l _] using rev_ind; [done|]. by rewrite last_snoc.
      * by rewrite app_assoc, !last_snoc.
Qed.

Lemma find_with_prev_spec bias h t :
  wf h t → monotone target dim_zero (to_list t) →
  SumTree.find_with_prev t target bias =
    let '(b, p, r) := lin_seek target bias dim_zero (to_list t) in
    Some match r with x :: _ => (p, dim_add p (item_summary x), Some (last b, x)) | [] => (p, p, None) end.
Proof.
  intros Ht Hm. unfold SumTree.find_with_prev.
  rewrite early_exit_iff. unfold SumTree.summary. rewrite (dim_add_wf dim_zero h) by done.
  fold (stops target bias (pos_after dim_zero (to_list t))).
  destruct (stops _ _ _) eqn:Hs; simpl.
  - rewrite (find_with_prev_iterate_lin bias None h) by done.
    destruct (lin_seek _ _ _ _) as [[b p] [|x r]]; simpl; [done|]. by destruct (last b).
  - rewrite lin_seek_all by (done || by eapply wf_nonempty). done.
Qed.
End find.

(** ** Properties *)

(** Seeking without a cursor.  For a target that is monotone along the
    sequence, [find], [find_with_prev] and (with [Bias::Left]) [find_exact],
    which descend through the cached summaries, return exactly what a linear
    scan of the items returns: the start and end position of the first item
    whose end the target does not pass, that item, and the item before it. *)
Theorem find_is_scan {T S D} `{SummaryLaws S, !Item T S, !Dimension D S, !DimensionLaws D S}
    (target : SeekTarget D) (bias : Bias) (h : nat) (t : SumTree T S)
    (Ht : wf h t) (Hm : monotone target dim_zero (to_list t)) :
  let '(b, p, r) := lin_seek target bias dim_zero (to_list t) in
  SumTree.find t target bias =
    match r with x :: _ => (p, dim_add p (item_summary x), Some x) | [] => (p, p, None) end ∧
  SumTree.find_with_prev t target bias =
    Some match r with x :: _ => (p, dim_add p (item_summary x), Some (last b, x)) | [] => (p, p, None) end ∧
  (bias = Left → (SumTree.find_exact t target Left).2 =
    (x ← head r; if is_eq (target (dim_add p (item_summary x))) then Some x else None)).
Proof.
  pose proof (find_spec target bias h t Ht Hm) as Hfind.
  pose proof (find_with_prev_spec target bias h t Ht Hm) as Hprev.
  pose proof (find_exact_spec target h t Ht Hm) as Hexact.
  destruct (lin_seek target bias _ _) as [[b p] r] eqn:Hlin. split; [done|]. split; [done|].
  intros ->. by rewrite Hlin in Hexact.
Qed.

Import NatItems.

(** The items 1..13 end at the triangular numbers; 18 falls into the item 6,
    which starts at 15. *)
Lemma find_is_scan_witness :
  SumTree.find (tree 13) (seek_ord 18) Left = (15, 21, Some 6) ∧
  SumTree.find_with_prev (tree 13) (seek_ord 18) Left = Some (15, 21, Some (Some 5, 6)) ∧
  (Left = Left → (SumTree.find_exact (tree 13) (seek_ord 18) Left).2 = None).
Proof.
  assert (Hwf : wf 1 (tree 13)).
  { vm_compute. split_and!; try lia; try done. repeat constructor; lia. }
  assert (Hm : monotone (seek_ord 18) (dim_zero : nat) (to_list (tree 13))).
  { intros l1 l2 l3 _. rewrite pos_after_app. set (d := pos_after _ l1). clearbody d.
    assert (Hle : d <= pos_after d l2).
    { revert d. induction l2 as [|x l2 IH]; intros d; simpl; [done|]. etrans; [|apply IH]. simpl. lia. }
    unfold seek_ord, cmp, nat_ord. destruct (Nat.compare_spec 18 d), (Nat.compare_spec 18 (pos_after d l2)); simpl; lia. }
  exact (find_is_scan (seek_ord 18) Left 1 (tree 13) Hwf Hm).
Defined.
