(* ===== verification/Cursor.v ===== *)
(** * Cursors over a tree ([crates/sum_tree/src/cursor.rs])

    A cursor is a path from the root to a leaf, kept in a vector of at most 16
    entries, with the position (a dimension summed up to the current item).
    The loops that walk the path are functions of a fuel, an explicit bound
    computed from the path; [CursorFacts] shows it is enough. *)

From S2P Require Import Prelude SumTree.

(** ** The path *)

Module StackEntry.
(** [struct StackEntry]; the top of the path is the head of the list. *)
Record t (T S D : Type) := mk { tree : SumTree T S; index : nat; position : D }.
Arguments mk {T S D}.
Arguments tree {T S D}.
Arguments index {T S D}.
Arguments position {T S D}.
End StackEntry.
Abbreviation StackEntry := StackEntry.t (only parsing).

Definition STACK_CAPACITY : nat := 16.
#[global] Arguments STACK_CAPACITY : simpl never.

(** [stack.push(entry).unwrap_oob()] *)
Definition stack_push {A} (entry : A) (stack : list A) : option (list A) :=
_ ← rassert (length stack <? STACK_CAPACITY); Some (entry :: stack).

(** [l[i..]] and [l[..i]] *)
Definition slice_from {A} (l : list A) (i : nat) : option (list A) :=
_ ← rassert (i <=? length l); Some (drop i l).
Definition slice_to {A} (l : list A) (i : nat) : option (list A) :=
_ ← rassert (i <=? length l); Some (take i l).

(** [a - b] on [usize]: underflow panics. *)
Definition checked_sub_nat (a b : nat) : option nat :=
_ ← rassert (b <=? a); Some (a - b).

(** A bound on the iterations of a walk through the whole of a node. *)
Fixpoint walk_cost {T S} (t : SumTree T S) : nat :=
match t with
| Leaf _ _ item_summaries => 1 + length item_summaries
| Internal _ _ _ child_trees => 1 + foldr (λ c n, 1 + walk_cost c + n) 0 child_trees
end.

Definition walk_fuel {T S D} (stack : list (StackEntry T S D)) : nat :=
foldr (λ e n, walk_cost (StackEntry.tree e) + n) 0 stack.

(** ** Aggregates *)

(** [trait SeekAggregate] *)
Record SeekAggregate (A T S : Type) := {
begin_leaf : A → A;
end_leaf : A → option A;
push_item : A → T → S → option A;
push_tree : A → SumTree T S → S → option A;
}.
Arguments begin_leaf {A T S}.
Arguments end_leaf {A T S}.
Arguments push_item {A T S}.
Arguments push_tree {A T S}.

(** [impl SeekAggregate for ()] *)
Definition unit_aggregate {T S} : SeekAggregate unit T S := {|
  begin_leaf := λ a, a;
  end_leaf := λ a, Some a;
  push_item := λ a _ _, Some a;
  push_tree := λ a _ _, Some a;
|}.

Module SliceSeekAggregate.
(** [struct SliceSeekAggregate] *)
Record t (T S : Type) := mk {
  tree : SumTree T S;
  leaf_items : list T;
  leaf_item_summaries : list S;
  leaf_summary : S;
}.
Arguments mk {T S}.
Arguments tree {T S}.
Arguments leaf_items {T S}.
Arguments leaf_item_summaries {T S}.
Arguments leaf_summary {T S}.

(** [impl SeekAggregate for SliceSeekAggregate] *)
Definition slice_aggregate {T S} `{Summary S, Item T S} : SeekAggregate (t T S) T S := {|
  begin_leaf := λ a, a;
  end_leaf := λ a,
    tree ← SumTree.append (tree a) (Leaf (leaf_summary a) (leaf_items a) (leaf_item_summaries a));
    Some (mk tree [] [] zero);
  push_item := λ a item summary,
    leaf_items ← array_push (leaf_items a) item;
    leaf_item_summaries ← array_push (leaf_item_summaries a) summary;
    Some (mk (tree a) leaf_items leaf_item_summaries (add_summary (leaf_summary a) summary));
  push_tree := λ a other _,
    tree ← SumTree.append (tree a) other;
    Some (mk tree (leaf_items a) (leaf_item_summaries a) (leaf_summary a));
|}.
End SliceSeekAggregate.

(** [impl SeekAggregate for SummarySeekAggregate<D>] *)
Definition summary_aggregate {T S D} `{Dimension D S} : SeekAggregate D T S := {|
  begin_leaf := λ a, a;
  end_leaf := λ a, Some a;
  push_item := λ a _ summary, Some (dim_add a summary);
  push_tree := λ a _ summary, Some (dim_add a summary);
|}.

(** [impl SeekTarget for End] *)
Definition End {D} : SeekTarget D := λ _, Gt.

(** ** The cursor *)

Module Cursor.
(** [struct Cursor] *)
Record t (T S D : Type) := mk {
  tree : SumTree T S;
  stack : list (StackEntry T S D);
  position : D;
  did_seek : bool;
  at_end : bool;
}.
Arguments mk {T S D}.
Arguments tree {T S D}.
Arguments stack {T S D}.
Arguments position {T S D}.
Arguments did_seek {T S D}.
Arguments at_end {T S D}.

Section cursor.
Context {T S D : Type} `{Summary S, Item T S, Dimension D S}.
Implicit Types self : t T S D.
Abbreviation entry := (StackEntry.t T S D) (only parsing).

Definition new (tree : SumTree T S) : t T S D :=
  mk tree [] dim_zero false (SumTree.is_empty tree).

Definition reset self : t T S D :=
  mk (tree self) [] dim_zero false (SumTree.is_empty (tree self)).

Definition start self : D := position self.

Definition assert_did_seek self : option unit := rassert (did_seek self).

(** The outer option is the panic. *)
Definition item self : option (option T) :=
  _ ← assert_did_seek self;
  match stack self with
  | entry :: _ =>
      match StackEntry.tree entry with
      | Leaf _ items _ =>
          if StackEntry.index entry =? length items then Some None
          else item ← items !! StackEntry.index entry; Some (Some item)
      | Internal _ _ _ _ => None
      end
  | [] => Some None
  end.

Definition item_summary self : option (option S) :=
  _ ← assert_did_seek self;
  match stack self with
  | entry :: _ =>
      match StackEntry.tree entry with
      | Leaf _ _ item_summaries =>
          if StackEntry.index entry =? length item_summaries then Some None
          else summary ← item_summaries !! StackEntry.index entry; Some (Some summary)
      | Internal _ _ _ _ => None
      end
  | [] => Some None
  end.

Definition end_ self : option D :=
  item_summary ← item_summary self;
  match item_summary with
  | Some summary => Some (dim_add (start self) summary)
  | None => Some (start self)
  end.

Fixpoint next_leaf (entries : list entry) : option (option (SumTree T S)) :=
  match entries with
  | [] => Some None
  | entry :: entries =>
      child_trees ← Node.child_trees (StackEntry.tree entry);
      last_index ← checked_sub_nat (length child_trees) 1;
      if StackEntry.index entry <? last_index then
        child ← child_trees !! (StackEntry.index entry + 1);
        leaf ← SumTree.leftmost_leaf child; Some (Some leaf)
      else next_leaf entries
  end.

Definition next_item self : option (option T) :=
  _ ← assert_did_seek self;
  match stack self with
  | entry :: parents =>
      items ← Node.items (StackEntry.tree entry);
      last_index ← checked_sub_nat (length items) 1;
      if StackEntry.index entry =? last_index then
        next_leaf ← next_leaf parents;
        match next_leaf with
        | Some leaf => items ← Node.items leaf; item ← head items; Some (Some item)
        | None => Some None
        end
      else item ← items !! (StackEntry.index entry + 1); Some (Some item)
  | [] => if at_end self then Some None else SumTree.first (tree self)
  end.

Fixpoint prev_leaf (entries : list entry) : option (option (SumTree T S)) :=
  match entries with
  | [] => Some None
  | entry :: entries =>
      if negb (StackEntry.index entry =? 0) then
        child_trees ← Node.child_trees (StackEntry.tree entry);
        child ← child_trees !! (StackEntry.index entry - 1);
        leaf ← SumTree.rightmost_leaf child; Some (Some leaf)
      else prev_leaf entries
  end.

Definition prev_item self : option (option T) :=
  _ ← assert_did_seek self;
  match stack self with
  | entry :: parents =>
      if StackEntry.index entry =? 0 then
        prev_leaf ← prev_leaf parents;
        match prev_leaf with
        | Some leaf => items ← Node.items leaf; item ← last items; Some (Some item)
        | None => Some None
        end
      else
        items ← Node.items (StackEntry.tree entry);
        item ← items !! (StackEntry.index entry - 1); Some (Some item)
  | [] => if at_end self then SumTree.last (tree self) else Some None
  end.

(** *** Walking *)

(** The loop of [search_backward]; the state is the position and the path. *)
Fixpoint search_backward_loop (filter_node : S → bool) (fuel : nat) (descending : bool)
    (position : D) (stack : list entry) : option (D * list entry) :=
  match stack with
  | [] => Some (position, [])
  | entry :: parents =>
      match fuel with
      | 0 => None
      | Datatypes.S fuel =>
          let position := match parents with parent :: _ => StackEntry.position parent | [] => dim_zero end in
          if negb descending && (StackEntry.index entry =? 0) then
            search_backward_loop filter_node fuel descending position parents
          else
            let index := if descending then StackEntry.index entry else StackEntry.index entry - 1 in
            before ← slice_to (Node.child_summaries (StackEntry.tree entry)) index;
            let position := foldl dim_add position before in
            let entry := StackEntry.mk (StackEntry.tree entry) index position in
            summary ← Node.child_summaries (StackEntry.tree entry) !! index;
            let descending := filter_node summary in
            match StackEntry.tree entry with
            | Internal _ _ _ child_trees =>
                if descending then
                  tree ← child_trees !! index;
                  index ← checked_sub_nat (length (Node.child_summaries tree)) 1;
                  stack ← stack_push (StackEntry.mk tree index dim_zero) (entry :: parents);
                  search_backward_loop filter_node fuel descending position stack
                else search_backward_loop filter_node fuel descending position (entry :: parents)
            | Leaf _ _ _ =>
                if descending then Some (position, entry :: parents)
                else search_backward_loop filter_node fuel descending position (entry :: parents)
            end
      end
  end.

Definition search_backward (filter_node : S → bool) self : option (t T S D) :=
  let at_end := if did_seek self then at_end self else true in
  '(stack, position, at_end) ←
    (if at_end then
       let at_end := SumTree.is_empty (tree self) in
       stack ← (if negb (SumTree.is_empty (tree self)) then
                  stack_push (StackEntry.mk (tree self) (length (Node.child_summaries (tree self)))
                    (from_summary_dim (SumTree.summary (tree self)))) (stack self)
                else Some (stack self));
       Some (stack, dim_zero, at_end)
     else Some (stack self, position self, at_end));
  '(position, stack) ← search_backward_loop filter_node (walk_fuel stack) false position stack;
  Some (mk (tree self) stack position true at_end).

Definition prev self : option (t T S D) := search_backward (λ _, true) self.

(** The inner loop over the remaining summaries of a node: skips those the
    filter rejects; returns the index, and the two positions it updates. *)
Fixpoint skip_rejected (filter_node : S → bool) (index : nat) (entry_position position : D)
    (summaries : list S) : nat * D * D :=
  match summaries with
  | [] => (index, entry_position, position)
  | next_summary :: summaries =>
      if filter_node next_summary then (index, entry_position, position)
      else skip_rejected filter_node (index + 1) (dim_add entry_position next_summary)
             (dim_add position next_summary) summaries
  end.

(** The loop of [search_forward]; the result's flag tells a [return] from
    inside the loop. *)
Fixpoint search_forward_loop (filter_node : S → bool) (fuel : nat) (descend : bool)
    (position : D) (stack : list entry) : option (D * list entry * bool) :=
  match stack with
  | [] => Some (position, [], false)
  | entry :: parents =>
      match fuel with
      | 0 => None
      | Datatypes.S fuel =>
          let tree := StackEntry.tree entry in
          match tree with
          | Internal _ _ child_summaries child_trees =>
              let index := if descend then StackEntry.index entry else StackEntry.index entry + 1 in
              let entry_position := if descend then StackEntry.position entry else position in
              let '(index, entry_position, position) :=
                skip_rejected filter_node index entry_position position (drop index child_summaries) in
              let entry := StackEntry.mk tree index entry_position in
              match child_trees !! index with
              | Some subtree =>
                  stack ← stack_push (StackEntry.mk subtree 0 position) (entry :: parents);
                  search_forward_loop filter_node fuel true position stack
              | None => search_forward_loop filter_node fuel false position parents
              end
          | Leaf _ _ item_summaries =>
              '(index, entry_position, position) ←
                (if descend then Some (StackEntry.index entry, StackEntry.position entry, position)
                 else
                   item_summary ← item_summaries !! StackEntry.index entry;
                   Some (StackEntry.index entry + 1, dim_add (StackEntry.position entry) item_summary,
                         dim_add position item_summary));
              let '(index, entry_position, position) :=
                skip_rejected filter_node index entry_position position (drop index item_summaries) in
              match item_summaries !! index with
              | Some _ => Some (position, StackEntry.mk tree index entry_position :: parents, true)
              | None => search_forward_loop filter_node fuel false position parents
              end
          end
      end
  end.

Definition is_leaf_or_none (stack : list entry) : bool :=
  match stack with [] => true | entry :: _ => Node.is_leaf (StackEntry.tree entry) end.

Definition search_forward (filter_node : S → bool) self : option (t T S D) :=
  '(stack, descend, did_seek) ←
    match stack self with
    | [] =>
        if negb (at_end self) then
          stack ← stack_push (StackEntry.mk (tree self) 0 dim_zero) [];
          Some (stack, true, true)
        else Some ([], false, true)
    | stack => Some (stack, false, did_seek self)
    end;
  '(position, stack, returned) ←
    search_forward_loop filter_node (walk_fuel stack) descend (position self) stack;
  if (returned : bool) then Some (mk (tree self) stack position did_seek (at_end self))
  else
    _ ← rassert (is_leaf_or_none stack);
    Some (mk (tree self) stack position did_seek (match stack with [] => true | _ => false end)).

Definition next self : option (t T S D) := search_forward (λ _, true) self.

(** *** Seeking *)

Section seek.
Context {A : Type} (aggregate : SeekAggregate A T S) (target : SeekTarget D) (bias : Bias).

(** [comparison == Greater || (comparison == Equal && bias == Right)] *)
Definition target_passes (comparison : comparison) : bool :=
  match comparison with
  | Gt => true
  | Eq => bool_decide (bias = Right)
  | Lt => false
  end.

(** The scan of a node's children; the last component is the child to
    enter, with its position. *)
Fixpoint seek_children (position : D) (entry : entry) (acc : A)
    (children : list (SumTree T S * S)) :
    option (D * StackEntry.t T S D * A * option (SumTree T S)) :=
  match children with
  | [] => Some (position, entry, acc, None)
  | (child_tree, child_summary) :: children =>
      let child_end := dim_add position child_summary in
      if target_passes (target child_end) then
        acc ← push_tree aggregate acc child_tree child_summary;
        seek_children child_end
          (StackEntry.mk (StackEntry.tree entry) (StackEntry.index entry + 1) child_end) acc children
      else Some (position, entry, acc, Some child_tree)
  end.

(** The scan of a leaf's items; the flag tells whether the target was
    reached. *)
Fixpoint seek_items (position : D) (entry : entry) (acc : A) (items : list (T * S)) :
    option (D * StackEntry.t T S D * A * bool) :=
  match items with
  | [] => Some (position, entry, acc, false)
  | (item, item_summary) :: items =>
      let child_end := dim_add position item_summary in
      if target_passes (target child_end) then
        acc ← push_item aggregate acc item item_summary;
        seek_items child_end
          (StackEntry.mk (StackEntry.tree entry) (StackEntry.index entry + 1) (StackEntry.position entry))
          acc items
      else Some (position, entry, acc, true)
  end.

Fixpoint seek_loop (fuel : nat) (ascending : bool) (position : D) (stack : list entry) (acc : A) :
    option (D * list entry * A) :=
  match stack with
  | [] => Some (position, [], acc)
  | entry :: parents =>
      match fuel with
      | 0 => None
      | Datatypes.S fuel =>
          match StackEntry.tree entry with
          | Internal _ _ child_summaries child_trees =>
              let entry :=
                if ascending
                then StackEntry.mk (StackEntry.tree entry) (StackEntry.index entry + 1) position
                else entry in
              trees ← slice_from child_trees (StackEntry.index entry);
              summaries ← slice_from child_summaries (StackEntry.index entry);
              '(position, entry, acc, child) ← seek_children position entry acc (zip trees summaries);
              match child with
              | Some child_tree =>
                  stack ← stack_push (StackEntry.mk child_tree 0 position) (entry :: parents);
                  seek_loop fuel false position stack acc
              | None => seek_loop fuel true position parents acc
              end
          | Leaf _ items item_summaries =>
              let acc := begin_leaf aggregate acc in
              items ← slice_from items (StackEntry.index entry);
              summaries ← slice_from item_summaries (StackEntry.index entry);
              '(position, entry, acc, reached) ← seek_items position entry acc (zip items summaries);
              acc ← end_leaf aggregate acc;
              if (reached : bool) then Some (position, entry :: parents, acc)
              else seek_loop fuel true position parents acc
          end
      end
  end.

Definition seek_internal self (acc : A) : option (bool * t T S D * A) :=
  _ ← rassert (is_ge (target (position self)));
  stack ← (if did_seek self then Some (stack self)
           else stack_push (StackEntry.mk (tree self) 0 dim_zero) (stack self));
  '(position, stack, acc) ← seek_loop (walk_fuel stack) false (position self) stack acc;
  let at_end := match stack with [] => true | _ => false end in
  _ ← rassert (is_leaf_or_none stack);
  let self := mk (tree self) stack position true at_end in
  item_summary ← item_summary self;
  let end_ :=
    match bias, item_summary with
    | Left, Some summary => dim_add position summary
    | _, _ => position
    end in
  Some (is_eq (target end_), self, acc).
End seek.

Definition seek_forward (pos : SeekTarget D) (bias : Bias) self : option (bool * t T S D) :=
  '(found, self, _) ← seek_internal unit_aggregate pos bias self tt; Some (found, self).

Definition seek (pos : SeekTarget D) (bias : Bias) self : option (bool * t T S D) :=
  seek_forward pos bias (reset self).

Definition slice (end_ : SeekTarget D) (bias : Bias) self : option (SumTree T S * t T S D) :=
  '(_, self, slice) ←
    seek_internal SliceSeekAggregate.slice_aggregate end_ bias self
      (SliceSeekAggregate.mk SumTree.new [] [] zero);
  Some (SliceSeekAggregate.tree slice, self).

Definition suffix self : option (SumTree T S * t T S D) := slice End Right self.

Definition summary {Output} `{Dimension Output S} (end_ : SeekTarget D) (bias : Bias) self :
    option (Output * t T S D) :=
  '(_, self, summary) ← seek_internal summary_aggregate end_ bias self dim_zero;
  Some (summary, self).

(** *** [impl Iterator for Cursor] *)

Definition iter_next self : option (option T * t T S D) :=
  self ← (if did_seek self then Some self else next self);
  item ← item self;
  match item with
  | Some item => self ← next self; Some (Some item, self)
  | None => Some (None, self)
  end.
End cursor.
End Cursor.

(** ** [FilterCursor] *)

Module FilterCursor.
Record t (T S D : Type) := mk { cursor : Cursor.t T S D; filter_node : S → bool }.
Arguments mk {T S D}.
Arguments cursor {T S D}.
Arguments filter_node {T S D}.

Section filter_cursor.
Context {T S D : Type} `{Summary S, Item T S, Dimension D S}.
Implicit Types self : t T S D.

Definition new (tree : SumTree T S) (filter_node : S → bool) : t T S D :=
  mk (Cursor.new tree) filter_node.

Definition start self : D := Cursor.start (cursor self).
Definition end_ self : option D := Cursor.end_ (cursor self).
Definition item self : option (option T) := Cursor.item (cursor self).
Definition item_summary self : option (option S) := Cursor.item_summary (cursor self).

Definition next self : option (t T S D) :=
  cursor ← Cursor.search_forward (filter_node self) (cursor self);
  Some (mk cursor (filter_node self)).

Definition prev self : option (t T S D) :=
  cursor ← Cursor.search_backward (filter_node self) (cursor self);
  Some (mk cursor (filter_node self)).

(** [impl Iterator for FilterCursor] *)
Definition iter_next self : option (option T * t T S D) :=
  self ← (if Cursor.did_seek (cursor self) then Some self else next self);
  item ← item self;
  match item with
  | Some item => self ← next self; Some (Some item, self)
  | None => Some (None, self)
  end.
End filter_cursor.
End FilterCursor.

(** ** [Iter] *)

Module Iter.
Record t (T S : Type) := mk { tree : SumTree T S; stack : list (StackEntry T S unit) }.
Arguments mk {T S}.
Arguments tree {T S}.
Arguments stack {T S}.

Section iter.
Context {T S : Type}.
Implicit Types self : t T S.

Definition new (tree : SumTree T S) : t T S := mk tree [].

Fixpoint next_loop (fuel : nat) (descend : bool) (stack : list (StackEntry T S unit)) :
    option (option T * list (StackEntry T S unit)) :=
  match stack with
  | [] => Some (None, [])
  | entry :: parents =>
      match fuel with
      | 0 => None
      | Datatypes.S fuel =>
          let index := if descend then StackEntry.index entry else StackEntry.index entry + 1 in
          let entry := StackEntry.mk (StackEntry.tree entry) index tt in
          match StackEntry.tree entry with
          | Internal _ _ _ child_trees =>
              match child_trees !! index with
              | Some subtree =>
                  stack ← stack_push (StackEntry.mk subtree 0 tt) (entry :: parents);
                  next_loop fuel true stack
              | None => next_loop fuel false parents
              end
          | Leaf _ items _ =>
              match items !! index with
              | Some next_item => Some (Some next_item, entry :: parents)
              | None => next_loop fuel false parents
              end
          end
      end
  end.

Definition next self : option (option T * t T S) :=
  '(stack, descend) ←
    match stack self with
    | [] => stack ← stack_push (StackEntry.mk (tree self) 0 tt) []; Some (stack, true)
    | stack => Some (stack, false)
    end;
  '(item, stack) ← next_loop (walk_fuel stack) descend stack;
  Some (item, mk (tree self) stack).

Definition last self : option (option T) :=
  leaf ← SumTree.rightmost_leaf (tree self); items ← Node.items leaf; Some (list.last items).
End iter.
End Iter.
