(* ===== verification/CursorFacts.v ===== *)
(** * Cursors point into the item sequence

    The abstract state of a cursor is a split of the tree's items into those
    before it and those from it on.  Seeking, slicing and iterating are shown
    to move the split as the scans of [Seek] do, without a panic, for trees
    whose height fits the 16 entries of the path. *)

From S2P Require Import Prelude SumTree SumTreeFacts TreeHeights Seek Cursor.

Lemma lookup_map {A B} (f : A → B) l i : map f l !! i = f <$> l !! i.
Proof. apply list_lookup_fmap. Qed.

(** ** Parts of a node *)

Section parts.
Context {T S : Type}.
Implicit Types t : SumTree T S.

Definition items_take (i : nat) t : list T :=
  match t with
  | Internal _ _ _ child_trees => concat (map to_list (take i child_trees))
  | Leaf _ items _ => take i items
  end.

Definition items_drop (i : nat) t : list T :=
  match t with
  | Internal _ _ _ child_trees => concat (map to_list (drop i child_trees))
  | Leaf _ items _ => drop i items
  end.

Definition width t : nat :=
  match t with Internal _ _ _ child_trees => length child_trees | Leaf _ items _ => length items end.

Lemma items_take_drop i t : items_take i t ++ items_drop i t = to_list t.
Proof. destruct t; simpl; [by rewrite <-concat_app, <-map_app, take_drop|apply take_drop]. Qed.

Lemma items_take_0 t : items_take 0 t = [].
Proof. by destruct t. Qed.

Lemma items_drop_0 t : items_drop 0 t = to_list t.
Proof. by destruct t. Qed.

Lemma items_drop_width t i : width t <= i → items_drop i t = [].
Proof. destruct t; simpl; intros Hi; by rewrite drop_ge. Qed.

Lemma items_take_width t i : width t <= i → items_take i t = to_list t.
Proof. destruct t; simpl; intros Hi; by rewrite take_ge. Qed.

(** The cost of the part of a node still to be walked. *)
Definition cost_from (i : nat) t : nat :=
  match t with
  | Internal _ _ _ child_trees => 1 + foldr (λ c n, 1 + walk_cost c + n) 0 (drop i child_trees)
  | Leaf _ _ item_summaries => 1 + length (drop i item_summaries)
  end.

Definition cost_to (i : nat) t : nat :=
  match t with
  | Internal _ _ _ child_trees => 1 + foldr (λ c n, 1 + walk_cost c + n) 0 (take i child_trees)
  | Leaf _ _ item_summaries => 1 + length (take i item_summaries)
  end.

Lemma walk_cost_from t : walk_cost t = cost_from 0 t.
Proof. by destruct t. Qed.

Lemma foldr_cost n (l : list (SumTree T S)) :
  foldr (λ c n, Datatypes.S (walk_cost c + n)) n l = foldr (λ c n, Datatypes.S (walk_cost c + n)) 0 l + n.
Proof. induction l as [|c l IH]; simpl in *; lia. Qed.

Lemma cost_from_le i t : cost_from i t <= walk_cost t.
Proof.
  destruct t as [h s css cts|]; simpl; [|rewrite length_drop; lia].
  rewrite <-(take_drop i cts) at 2. rewrite foldr_app, (foldr_cost (foldr _ _ _)). lia.
Qed.

Lemma cost_to_le i t : cost_to i t <= walk_cost t.
Proof.
  destruct t as [h s css cts|]; simpl; [|rewrite length_take; lia].
  rewrite <-(take_drop i cts) at 2. rewrite foldr_app, (foldr_cost (foldr _ _ _)). lia.
Qed.

Lemma cost_from_pos i t : 0 < cost_from i t.
Proof. destruct t; simpl; lia. Qed.

Lemma cost_to_pos i t : 0 < cost_to i t.
Proof. destruct t; simpl; lia. Qed.

Lemma foldr_cost_length (l : list (SumTree T S)) : length l <= foldr (λ c n, Datatypes.S (walk_cost c + n)) 0 l.
Proof. induction l as [|c l IH]; simpl; lia. Qed.

Lemma cost_from_child h s css (cts : list (SumTree T S)) i j c :
  cts !! j = Some c → i <= j →
  (j - i) + 1 + walk_cost c + cost_from (Datatypes.S j) (Internal h s css cts) <= cost_from i (Internal h s css cts).
Proof.
  simpl. intros Hj Hij. apply lookup_lt_Some in Hj as Hlt.
  assert (length (take (j - i) (drop i cts)) = j - i) as Hl by (rewrite length_take, length_drop; lia).
  pose proof (foldr_cost_length (take (j - i) (drop i cts))) as Hc. rewrite Hl in Hc.
  rewrite <-(take_drop (j - i) (drop i cts)), drop_drop, foldr_app.
  replace (i + (j - i)) with j by lia. rewrite (drop_S cts c j) by done.
  simpl. rewrite (foldr_cost (Datatypes.S _)). lia.
Qed.

Lemma cost_from_length h s css (cts : list (SumTree T S)) i :
  length (drop i cts) < cost_from i (Internal h s css cts).
Proof. simpl. pose proof (foldr_cost_length (drop i cts)). lia. Qed.

Lemma cost_to_child h s css (cts : list (SumTree T S)) i j c :
  cts !! j = Some c → j < i →
  1 + walk_cost c + cost_to j (Internal h s css cts) <= cost_to i (Internal h s css cts).
Proof.
  simpl. intros Hj Hij.
  assert (Htake : take i cts = take j cts ++ c :: drop (Datatypes.S j) (take i cts)).
  { rewrite <-(take_drop j (take i cts)) at 1. rewrite take_take, Nat.min_l by lia. f_equal.
    apply drop_S. by rewrite lookup_take_lt. }
  rewrite Htake, foldr_app. simpl. rewrite (foldr_cost (Datatypes.S _)). lia.
Qed.
End parts.

(** ** The path as a split of the items *)

Section path.
Context {T S D : Type} `{SummaryLaws S, !Item T S, !Dimension D S, !DimensionLaws D S}.
Implicit Types (t : SumTree T S) (e p : StackEntry T S D) (st ps : list (StackEntry T S D)).

Fixpoint before st : list T :=
  match st with
  | [] => []
  | e :: ps => before ps ++ items_take (StackEntry.index e) (StackEntry.tree e)
  end.

(** The items after the subtree the path's head points to. *)
Fixpoint after st : list T :=
  match st with
  | [] => []
  | e :: ps => items_drop (Datatypes.S (StackEntry.index e)) (StackEntry.tree e) ++ after ps
  end.

Definition rest st : list T :=
  match st with
  | [] => []
  | e :: ps => items_drop (StackEntry.index e) (StackEntry.tree e) ++ after ps
  end.

(** [ancestors root h t ps]: [ps] is the path from [root] to its node [t] of
    height [h], and each entry holds the position of the child it points to. *)
Inductive ancestors root : nat → SumTree T S → list (StackEntry T S D) → Prop :=
  | ancestors_root h : wf h root → ancestors root h root []
  | ancestors_child h p ps t height s css cts :
      ancestors root (Datatypes.S h) (StackEntry.tree p) ps →
      StackEntry.tree p = Internal height s css cts →
      cts !! StackEntry.index p = Some t →
      StackEntry.position p = pos_after dim_zero (before (p :: ps)) →
      ancestors root h t (p :: ps).

Lemma ancestors_wf root h t ps : ancestors root h t ps → wf h t.
Proof.
  intros Ha. induction Ha as [|h p ps t height s css cts Ha IH Heq Hc Hpos]; [done|].
  rewrite Heq in IH. simpl in IH. destruct IH as (_ & _ & _ & _ & Hall).
  by eapply Forall_lookup in Hc.
Qed.

Lemma ancestors_split root h t ps :
  ancestors root h t ps → to_list root = before ps ++ to_list t ++ after ps.
Proof.
  intros Ha. induction Ha as [|h p ps t height s css cts Ha IH Heq Hc Hpos]; [by rewrite app_nil_r|].
  rewrite IH. simpl. rewrite Heq. simpl. rewrite <-!app_assoc. f_equal.
  rewrite <-(take_drop_middle cts _ _ Hc) at 1. rewrite map_app, concat_app; simpl.
  by rewrite <-!app_assoc.
Qed.

Lemma ancestors_height root h t ps : ancestors root h t ps → Node.height root = length ps + h.
Proof.
  intros Ha. induction Ha; simpl in *; [by apply wf_height|]. lia.
Qed.

Lemma stack_push_ok root h t ps e :
  ancestors root h t ps → Node.height root < STACK_CAPACITY → stack_push e ps = Some (e :: ps).
Proof.
  intros Ha%ancestors_height Hroot. unfold stack_push.
  destruct (Nat.ltb_spec (length ps) STACK_CAPACITY); [done|lia].
Qed.

(** A path that ends at an item. *)
Definition leaf_path root st : Prop :=
  match st with
  | [] => False
  | e :: ps => ancestors root 0 (StackEntry.tree e) ps ∧ StackEntry.index e < width (StackEntry.tree e)
  end.

Lemma rest_leaf root e ps :
  ancestors root 0 (StackEntry.tree e) ps → StackEntry.index e < width (StackEntry.tree e) →
  ∃ s items x, StackEntry.tree e = Leaf s items (map item_summary items) ∧
    items !! StackEntry.index e = Some x ∧ rest (e :: ps) = x :: after (e :: ps).
Proof.
  intros Ha Hi. apply ancestors_wf in Ha as Hwf. apply wf_0_inv in Hwf as (items & Heq & _).
  simpl. rewrite Heq in *. simpl in *.
  apply lookup_lt_is_Some in Hi as [x Hx]. eexists _, _, x. split_and!; try done.
  by rewrite (drop_S _ x).
Qed.

(** The fuel a walk needs at a node whose subtrees from [i] on remain. *)
Fixpoint cost_after st : nat :=
  match st with
  | [] => 0
  | e :: ps => cost_from (Datatypes.S (StackEntry.index e)) (StackEntry.tree e) + cost_after ps
  end.

Fixpoint cost_before st : nat :=
  match st with
  | [] => 0
  | e :: ps => cost_to (StackEntry.index e) (StackEntry.tree e) + cost_before ps
  end.

Lemma cost_after_fuel st : cost_after st <= walk_fuel st.
Proof.
  induction st as [|e ps IH]; simpl; [done|].
  pose proof (cost_from_le (Datatypes.S (StackEntry.index e)) (StackEntry.tree e)). lia.
Qed.

Lemma cost_before_fuel st : cost_before st <= walk_fuel st.
Proof.
  induction st as [|e ps IH]; simpl; [done|].
  pose proof (cost_to_le (StackEntry.index e) (StackEntry.tree e)). lia.
Qed.
End path.

(** ** Seeking *)

(** What an aggregate promises to the seek loop: [at_node n a X] when the items
    [X] have been handed over in [n] parts at most, [in_leaf n a X Y] while the
    items [Y] of a leaf are being collected; the trees handed over are at most
    [limit] high. *)
Class AggregateLaws {A T S} `{Summary S, !Item T S} (aggregate : SeekAggregate A T S) (limit : nat)
    (at_node : nat → A → list T → Prop) (in_leaf : nat → A → list T → list T → Prop) : Prop := {
  agg_begin_leaf n a X : at_node n a X → in_leaf n (begin_leaf aggregate a) X [];
  agg_push_item n a X Y x : in_leaf n a X Y → length Y < CAPACITY →
    ∃ a', push_item aggregate a x (item_summary x) = Some a' ∧ in_leaf n a' X (Y ++ [x]);
  agg_end_leaf n a X Y : in_leaf n a X Y → length Y <= CAPACITY →
    ∃ a', end_leaf aggregate a = Some a' ∧ at_node (Datatypes.S n) a' (X ++ Y);
  agg_push_tree n a X h t : at_node n a X → wf h t → h <= limit →
    ∃ a', push_tree aggregate a t (Node.summary t) = Some a' ∧ at_node (Datatypes.S n) a' (X ++ to_list t);
  agg_more n m a X : at_node n a X → n <= m → at_node m a X;
}.

(** A target the cached summaries serve: a node's summary gives the position
    behind its items, or, for a dimension that is exact only on single items, a
    position at which the target stops, so that the node is entered.  The nodes
    are those of a tree: their items are among its items. *)
Class Seekable {T S D} `{Summary S, !Item T S, !Dimension D S} (root : SumTree T S) (target : SeekTarget D) (bias : Bias)
    (exact : bool) : Prop :=
  seekable_dim (d : D) (h : nat) (t : SumTree T S) : wf h t → to_list t ⊆ to_list root →
    dim_add d (Node.summary t) = pos_after d (to_list t) ∨
    (exact = false ∧ stops target bias (dim_add d (Node.summary t)) = true).
#[global] Hint Mode Seekable + + + - - - + + + - : typeclass_instances.

#[export] Instance seekable_exact {T S D} `{SummaryLaws S, !Item T S, !Dimension D S, !DimensionLaws D S}
  (root : SumTree T S) (target : SeekTarget D) bias : Seekable root target bias true.
Proof. intros d h t Ht _. left. by apply (dim_add_wf d h). Qed.

Section seek_loop.
Context {A T S D : Type} `{SummaryLaws S, !Item T S, !Dimension D S}.
Context (root : SumTree T S) (Hroot : Node.height root < STACK_CAPACITY).
Context (aggregate : SeekAggregate A T S) (at_node : nat → A → list T → Prop)
  (in_leaf : nat → A → list T → list T → Prop) {agg_laws : AggregateLaws aggregate (Nat.pred (Node.height root)) at_node in_leaf}.
Context (target : SeekTarget D) (bias : Bias) {exact : bool} {Htarget : Seekable root target bias exact}.
Implicit Types (e : StackEntry T S D) (ps st : list (StackEntry T S D)).

Lemma target_passes_stops d : Cursor.target_passes bias (target d) = negb (stops target bias d).
Proof. unfold Cursor.target_passes, stops. by destruct (target d), bias. Qed.

Lemma lin_seek_app_stop d (l k : list T) b p r :
  lin_seek target bias d l = (b, p, r) → r ≠ [] → lin_seek target bias d (l ++ k) = (b, p, r ++ k).
Proof.
  revert d b. induction l as [|x l IH]; intros d b; simpl; [intros; by simplify_eq|].
  destruct (stops _ _ _); [intros; by simplify_eq|].
  destruct (lin_seek _ _ _ l) as [[b' p'] r'] eqn:Hl. intros ? Hr. simplify_eq.
  by rewrite (IH _ _ Hl).
Qed.

Lemma lin_seek_app_pass d (l k : list T) b p :
  lin_seek target bias d l = (b, p, []) →
  b = l ∧ p = pos_after d l ∧
  lin_seek target bias d (l ++ k) =
    let '(b', p', r') := lin_seek target bias (pos_after d l) k in (l ++ b', p', r').
Proof.
  revert d b. induction l as [|x l IH]; intros d b; simpl.
  { intros; simplify_eq. split_and!; [done..|]. by destruct (lin_seek _ _ _ k) as [[]]. }
  destruct (stops _ _ _); [done|].
  destruct (lin_seek _ _ _ l) as [[b' p'] r'] eqn:Hl. intros. simplify_eq.
  destruct (IH _ _ Hl) as (-> & -> & ->). split_and!; [done..|].
  by destruct (lin_seek _ _ _ k) as [[]].
Qed.

Lemma seek_items_lin n (l : list T) e pos acc X Y b p r :
  in_leaf n acc X Y → length Y + length l <= CAPACITY →
  lin_seek target bias pos l = (b, p, r) →
  ∃ acc', in_leaf n acc' X (Y ++ b) ∧
    Cursor.seek_items aggregate target bias pos e acc (zip l (map item_summary l)) =
      Some (p, StackEntry.mk (StackEntry.tree e) (StackEntry.index e + length b) (StackEntry.position e),
            acc', negb (length r =? 0)).
Proof.
  revert e pos acc Y b. induction l as [|x l IH]; intros e pos acc Y b Hacc Hlen; simpl.
  { intros; simplify_eq. exists acc. rewrite app_nil_r, Nat.add_0_r. split; [done|]. by destruct e. }
  rewrite target_passes_stops. destruct (stops _ _ _); simpl.
  { intros; simplify_eq. exists acc. rewrite app_nil_r, Nat.add_0_r. split; [done|]. by destruct e. }
  destruct (lin_seek _ _ _ l) as [[b' p'] r'] eqn:Hl. intros. simplify_eq.
  destruct (agg_push_item n acc X Y x) as (acc' & -> & Hacc'); [done|simpl in *; lia|]. simpl.
  eapply IH in Hacc' as (acc'' & Hacc'' & ->);
    [|rewrite length_app; simpl in *; lia|exact Hl].
  exists acc''. rewrite <-app_assoc in Hacc''. split; [done|]. simpl. by rewrite <-Nat.add_assoc.
Qed.

(** The child a seek enters. *)
Definition enters pos (c : option (SumTree T S)) : Prop :=
  match c with Some c => exact = true → stops target bias (pos_after pos (to_list c)) = true | None => True end.

Lemma seek_children_lin n h (l : list (SumTree T S)) e pos acc X :
  Forall (wf h) l → h <= Nat.pred (Node.height root) → concat (map to_list l) ⊆ to_list root →
  monotone target pos (concat (map to_list l)) → at_node n acc X → StackEntry.position e = pos →
  ∃ m acc', let M := concat (map to_list (take m l)) in
    m <= length l ∧ at_node (n + m) acc' (X ++ M) ∧
    Cursor.seek_children aggregate target bias pos e acc (zip l (map Node.summary l)) =
      Some (pos_after pos M,
            StackEntry.mk (StackEntry.tree e) (StackEntry.index e + m) (pos_after pos M), acc', l !! m) ∧
    enters (pos_after pos M) (l !! m) ∧
    ∀ k, lin_seek target bias pos (concat (map to_list l) ++ k) =
      let '(b, p, r) := lin_seek target bias (pos_after pos M) (concat (map to_list (drop m l)) ++ k) in
      (M ++ b, p, r).
Proof.
  intros Hl Hh. revert n e pos acc X. induction Hl as [|c l Hc Hl IH]; intros n e pos acc X Hsub Hm Hacc Hpos.
  { exists 0, acc. simpl. rewrite app_nil_r, !Nat.add_0_r. split_and!; [done..| |done|].
    - destruct e; simpl in *; by subst.
    - intros k. by destruct (lin_seek _ _ _ k) as [[]]. }
  simpl. rewrite target_passes_stops.
  assert (Hne : to_list c ≠ []) by by eapply wf_nonempty.
  apply list_subseteq_app_iff_l in Hsub as [Hsubc Hsub].
  destruct (stops target bias (dim_add pos (Node.summary c))) eqn:Hs; simpl.
  { exists 0, acc. simpl. rewrite app_nil_r, !Nat.add_0_r. split_and!; [lia|done| | |].
    - destruct e; simpl in *; by subst.
    - intros ->. by destruct (seekable_dim (exact:=true) (bias:=bias) (target:=target) pos h c Hc Hsubc) as [<-|[? _]].
    - intros k. by destruct (lin_seek _ _ _ _) as [[]]. }
  destruct (seekable_dim (exact:=exact) (bias:=bias) (target:=target) pos h c Hc Hsubc) as [Hpass|[_ ?]]; [|congruence]. rewrite Hpass in *.
  destruct (agg_push_tree n acc X h c) as (acc1 & -> & Hacc1); [done..|]. simpl in *.
  destruct (IH (Datatypes.S n) (StackEntry.mk (StackEntry.tree e) (StackEntry.index e + 1) (pos_after pos (to_list c)))
    (pos_after pos (to_list c)) acc1 (X ++ to_list c)) as (m & acc' & Hle & Hacc' & Hrun & Henter & Hlin);
    [done|by eapply monotone_app_r|done..|].
  exists (Datatypes.S m), acc'. simpl. rewrite Hrun, pos_after_app. simpl.
  split_and!; [lia|rewrite <-app_assoc in Hacc'; by rewrite Nat.add_succ_r| |done|].
  - by rewrite <-Nat.add_assoc.
  - intros k. rewrite <-app_assoc, lin_seek_skip, Hlin by (done || by eapply monotone_app_l).
    destruct (lin_seek _ _ _ _) as [[]]. by rewrite app_assoc.
Qed.

(** The outcome of a seek from the split [(B, L)] at [pos]. *)
Definition seek_outcome (n : nat) pos (B L X : list T) (res : option (D * list (StackEntry T S D) * A)) : Prop :=
  let '(b, p, r) := lin_seek target bias pos L in
  ∃ st acc, res = Some (p, st, acc) ∧ at_node n acc (X ++ b) ∧
    match r with
    | [] => st = []
    | _ => leaf_path root st ∧ before st = B ++ b ∧ rest st = r
    end.

Lemma seek_outcome_pass n pos B l k X res :
  lin_seek target bias pos (l ++ k) = (let '(b, p, r) := lin_seek target bias (pos_after pos l) k in (l ++ b, p, r)) →
  seek_outcome n (pos_after pos l) (B ++ l) k (X ++ l) res → seek_outcome n pos B (l ++ k) X res.
Proof.
  intros Hlin. unfold seek_outcome. rewrite Hlin.
  destruct (lin_seek _ _ _ k) as [[b' p'] r']. by rewrite <-!app_assoc.
Qed.

(** Where a visit of the top entry resumes. *)
Definition resume_at (ascending : bool) e : nat :=
  if ascending then Datatypes.S (StackEntry.index e) else StackEntry.index e.

(** How many parts a seek hands over from a node of height [h] on: at most the
    children of one node per level on the way up, and once more on the way down
    to the item it stops at. *)
Definition stops_in pos (l : list T) : bool := negb (length (lin_seek target bias pos l).2 =? 0).
Definition parts (h : nat) (inside : bool) : nat :=
  if inside then CAPACITY * h + 1 else CAPACITY * (Datatypes.S (Node.height root) - h) + CAPACITY * Node.height root + 1.
Definition budget pos h i e ps : nat :=
  if exact then parts h (stops_in pos (items_drop i (StackEntry.tree e)))
  else cost_from i (StackEntry.tree e) + cost_after ps.

Lemma parts_le h inside : h <= Node.height root → parts h inside <= parts h false.
Proof. clear Hroot. intros. destruct inside; simpl; [|done]. trans (CAPACITY * Node.height root + 1); [|lia]. apply Nat.add_le_mono_r, Nat.mul_le_mono_l. lia. Qed.

Lemma parts_up h m : Datatypes.S h <= Node.height root → m <= CAPACITY → m + parts (Datatypes.S h) false <= parts h false.
Proof. clear Hroot. intros. simpl. replace (Datatypes.S (Node.height root) - h) with (Datatypes.S (Node.height root - h)) by lia. lia. Qed.

Lemma parts_down h m inside : Datatypes.S h <= Node.height root → m <= CAPACITY → m + parts h true <= parts (Datatypes.S h) inside.
Proof. clear Hroot. intros. trans (parts (Datatypes.S h) true); [simpl; lia|]. destruct inside; [done|by apply (parts_le (Datatypes.S h) true)]. Qed.

Lemma seek_loop_lin N n fuel ascending pos h e ps acc X :
  let i := resume_at ascending e in
  let B := before ps ++ items_take i (StackEntry.tree e) in
  let L := items_drop i (StackEntry.tree e) ++ after ps in
  ancestors root h (StackEntry.tree e) ps →
  i <= width (StackEntry.tree e) →
  (if ascending then h ≠ 0 else h = 0 ∨ StackEntry.position e = pos) →
  pos = pos_after dim_zero B → monotone target pos L → at_node n acc X →
  n + budget pos h i e ps <= N →
  cost_from i (StackEntry.tree e) + cost_after ps <= fuel →
  seek_outcome N pos B L X (Cursor.seek_loop aggregate target bias fuel ascending pos (e :: ps) acc).
Proof.
  revert n ascending pos h e ps acc X.
  induction fuel as [|fuel IH]; intros n ascending pos h e ps acc X i B L Ha Hi Hvisit Hpos Hm Hacc HN Hfuel.
  { pose proof (cost_from_pos i (StackEntry.tree e)). lia. }
  (* leaving a node whose items are all passed *)
  assert (Hpop : ∀ n' acc' X' B', at_node n' acc' X' → B' = before ps ++ to_list (StackEntry.tree e) →
    monotone target (pos_after dim_zero B') (after ps) →
    n' + (if exact then match ps with [] => 0 | _ => parts (Datatypes.S h) false end else cost_after ps) <= N →
    seek_outcome N (pos_after dim_zero B') B' (after ps) X'
      (Cursor.seek_loop aggregate target bias fuel true (pos_after dim_zero B') ps acc')).
  { intros n' acc' X' B' Hacc' -> Hm' HN'. inversion Ha as [h' Hwf|h' p ps' t hh s css cts Ha' Heq Hc Hp]; subst.
    - unfold seek_outcome. simpl. eexists _, _. rewrite app_nil_r. destruct fuel; split_and!; try done; (eapply agg_more; [done|lia]).
    - replace (before (p :: ps') ++ to_list (StackEntry.tree e)) with
        (before ps' ++ items_take (resume_at true p) (StackEntry.tree p)) in *.
      2:{ simpl. rewrite Heq. simpl. rewrite <-app_assoc. f_equal.
          by rewrite (take_S_r _ _ _ Hc), concat_map_app; simpl; rewrite app_nil_r. }
      eapply (IH n' true _ (Datatypes.S h)); try done.
      + simpl. rewrite Heq. simpl. apply lookup_lt_Some in Hc. lia.
      + unfold budget. destruct exact; [|by simpl in *]. etrans; [|exact HN']. apply Nat.add_le_mono_l, parts_le.
        apply ancestors_height in Ha'. lia.
      + pose proof (cost_from_pos i (StackEntry.tree e)). simpl in *. lia. }
  destruct h as [|h].
  - destruct ascending; [done|]. apply ancestors_wf in Ha as Hwf. apply wf_0_inv in Hwf as (items & Heq & Hlen).
    simpl. subst L. unfold budget in HN. rewrite Heq in *. simpl in *.
    unfold slice_from. apply Nat.leb_le in Hi as Hi'. rewrite length_map. fold i.
    rewrite Hi'. simpl. rewrite skipn_map.
    destruct (lin_seek target bias pos (drop i items)) as [[b p] r] eqn:Hlin.
    destruct (seek_items_lin n (drop i items) e pos (begin_leaf aggregate acc) X [] b p r)
      as (acc1 & Hacc1 & ->); [by apply agg_begin_leaf|rewrite length_drop; simpl; lia|done|].
    apply lin_seek_split in Hlin as Hsplit. destruct Hsplit as (Hitems & Hp & _).
    simpl. destruct (agg_end_leaf n acc1 X b) as (acc2 & -> & Hacc2); [done| |].
    { trans (length (drop i items)); [rewrite Hitems, length_app; lia|rewrite length_drop; lia]. }
    simpl. destruct r as [|x r]; simpl.
    + rewrite app_nil_r in Hitems.
      destruct (lin_seek_app_pass _ _ (after ps) _ _ Hlin) as (Hb & Hp' & Hrest).
      subst b p. apply seek_outcome_pass; [done|]. rewrite Hpos, <-pos_after_app.
      eapply (Hpop (Datatypes.S n)); [done| | |].
      * subst B. rewrite Heq. simpl. by rewrite <-app_assoc, take_drop.
      * rewrite pos_after_app, <-Hpos. by eapply monotone_app_r.
      * destruct exact; [|lia]. unfold stops_in in HN. rewrite Hlin in HN. cbn [snd length Nat.eqb negb] in HN.
        destruct ps as [|p ps]; [unfold parts in HN; lia|]. apply ancestors_height in Ha. simpl in Ha.
        pose proof (parts_up 0 1 ltac:(lia) ltac:(cap_lia)). change (Datatypes.S n + parts 1 false <= N). lia.
    + unfold seek_outcome. rewrite (lin_seek_app_stop _ _ (after ps) _ _ _ Hlin) by done. simpl.
      eexists _, _. split; [done|]. split.
      { eapply agg_more; [exact Hacc2|]. destruct exact; [|lia]. unfold stops_in in HN. rewrite Hlin in HN. simpl in HN. lia. }
      simpl. fold i. rewrite Heq. simpl.
      assert (Hdrop : drop (i + length b) items = x :: r).
      { rewrite <-drop_drop, Hitems. by rewrite drop_app_length. }
      assert (Htake : take (i + length b) items = take i items ++ b).
      { rewrite <-take_take_drop, Hitems. by rewrite take_app_length. }
      split_and!; [done| | |].
      * simpl. apply Nat.nle_gt. intros Hge. by rewrite drop_ge in Hdrop.
      * subst B. by rewrite Htake, Heq, app_assoc.
      * by rewrite Hdrop.
  - apply ancestors_wf in Ha as Hwf. apply wf_S_inv in Hwf as (cts & Heq & Hcts & Hlen).
    pose proof (ancestors_height _ _ _ _ Ha) as Hheight.
    simpl. subst L. unfold budget in HN. rewrite Heq in *. cbn [items_drop items_take width StackEntry.tree] in *.
    set (e' := if ascending then _ else e).
    assert (He' : StackEntry.tree e' = StackEntry.tree e ∧ StackEntry.index e' = i ∧ StackEntry.position e' = pos).
    { subst e' i. destruct ascending; simpl; [split_and!; [done|lia|done]|]. by destruct Hvisit. }
    destruct He' as (Htree & Hindex & Hposition).
    unfold slice_from. apply Nat.leb_le in Hi as Hi'. rewrite length_map, Hindex, Hi'. simpl. rewrite skipn_map.
    destruct (seek_children_lin n h (drop i cts) e' pos acc X) as (m & acc' & Hml & Hacc' & -> & Henter & Hlin);
      [by apply Forall_drop|lia| |by eapply monotone_app_l|done..|].
    { rewrite (ancestors_split _ _ _ _ Ha). cbn [to_list]. rewrite <-(take_drop i cts) at 2.
      rewrite map_app, concat_app. set_solver. }
    simpl. rewrite lookup_drop, Htree, Heq, Hindex.
    assert (Hsplit : concat (map to_list (drop i cts)) =
      concat (map to_list (take m (drop i cts))) ++ concat (map to_list (drop m (drop i cts)))).
    { by rewrite <-concat_map_app, take_drop. }
    set (M := concat (map to_list (take m (drop i cts)))) in *.
    assert (HB : before ps ++ concat (map to_list (take (i + m) cts)) = B ++ M).
    { subst B M. rewrite Heq. simpl. by rewrite <-take_take_drop, concat_map_app, app_assoc. }
    pose proof (cost_from_length (Datatypes.S h) (items_sum (concat (map to_list cts))) (map Node.summary cts) cts i) as Hcl.
    assert (m <= CAPACITY) as HmC by (rewrite length_drop in Hml; lia).
    set (inside := stops_in pos (concat (map to_list (drop i cts)))) in *.
    assert (Hinside : cts !! (i + m) = None → inside = false).
    { intros Hc%lookup_ge_None. subst inside. unfold stops_in. specialize (Hlin []). rewrite !app_nil_r in Hlin.
      rewrite Hlin, drop_drop, drop_ge by done. done. }
    specialize (Hlin (after ps)). clearbody inside.
    rewrite Hsplit, <-app_assoc in *. rewrite drop_drop in *. rewrite lookup_drop in Henter.
    apply seek_outcome_pass; [exact Hlin|].
    assert (HposM : pos_after pos M = pos_after dim_zero (B ++ M)) by by rewrite pos_after_app, Hpos.
    apply monotone_app_r in Hm as Hm'.
    destruct (cts !! (i + m)) as [c|] eqn:Hc.
    + set (top := StackEntry.mk _ (i + m) _).
      assert (Hchild : ancestors root h c (top :: ps)).
      { econstructor; simpl; [done|done|done|]. simpl. by rewrite HB, HposM. }
      rewrite (stack_push_ok root h c) by done. simpl.
      rewrite (drop_S _ c) by done. simpl. rewrite <-app_assoc.
      pose proof (cost_from_child (Datatypes.S h) (items_sum (concat (map to_list cts)))
          (map Node.summary cts) cts i (i + m) c Hc ltac:(lia)) as Hcost.
      pose proof (IH (n + m) false (pos_after pos M) h (StackEntry.mk c 0 (pos_after pos M)) (top :: ps) acc' (X ++ M)) as IH'.
      simpl in IH'. rewrite items_take_0, items_drop_0, app_nil_r in IH'. simpl in IH'. rewrite HB in IH'.
      apply IH'; clear IH'; [done|lia|by right|done| |done| |].
      * rewrite (drop_S _ c) in Hm' by done. simpl in Hm'. by rewrite <-app_assoc in Hm'.
      * unfold budget. cbn [StackEntry.tree]. destruct exact eqn:Hex.
        -- simpl in Henter. specialize (Henter Hex). rewrite items_drop_0.
           apply ancestors_wf in Hchild. pose proof (wf_nonempty _ _ Hchild) as Hne.
           unfold stops_in. destruct (lin_seek_enter target bias (pos_after pos M) (to_list c) [] Hne Henter) as (b0 & p0 & r0 & -> & Hr0 & _).
           cbn [snd]. destruct r0 as [|? r0]; [done|]. cbn [length Nat.eqb negb].
           pose proof (parts_down h m inside ltac:(lia) HmC). lia.
        -- rewrite <-walk_cost_from. simpl in *. lia.
      * rewrite <-walk_cost_from. simpl in *. lia.
    + apply lookup_ge_None in Hc as Hge. rewrite drop_ge in * by done. simpl in *.
      rewrite HposM. eapply (Hpop (n + m)); [done| |by rewrite <-HposM|].
      * rewrite <-HB. by rewrite take_ge.
      * rewrite (Hinside eq_refl) in HN. destruct exact; [|lia].
        destruct ps as [|p ps]; simpl in Hheight.
        -- enough (m <= parts (Datatypes.S h) false) by lia. unfold parts.
           replace (Datatypes.S (Node.height root) - Datatypes.S h) with 1 by lia. lia.
        -- pose proof (parts_up (Datatypes.S h) m ltac:(lia) HmC). simpl in *. lia.
Qed.
End seek_loop.

(** *** The aggregates of the code *)

Section aggregates.
Context {T S : Type} `{SummaryLaws S, !Item T S}.

Definition unit_at_node : nat → unit → list T → Prop := λ _ _ _, True.
Definition unit_in_leaf : nat → unit → list T → list T → Prop := λ _ _ _ _, True.

#[export] Instance unit_aggregate_laws limit : AggregateLaws unit_aggregate limit unit_at_node unit_in_leaf.
Proof. split; intros; simpl; eauto; by eexists. Qed.

Definition summary_at_node {D} `{Dimension D S} : nat → D → list T → Prop := λ _ a X, a = pos_after dim_zero X.
Definition summary_in_leaf {D} `{Dimension D S} : nat → D → list T → list T → Prop :=
  λ _ a X Y, a = pos_after dim_zero (X ++ Y).

#[export] Instance summary_aggregate_laws {D} `{Dimension D S, !DimensionLaws D S} limit :
  AggregateLaws summary_aggregate limit summary_at_node summary_in_leaf.
Proof.
  split; unfold summary_at_node, summary_in_leaf; intros; subst; simpl.
  - by rewrite app_nil_r.
  - eexists. split; [done|]. by rewrite app_assoc, (pos_after_app _ (_ ++ _)).
  - by eexists.
  - eexists. split; [done|]. by rewrite (dim_add_wf _ h), pos_after_app.
  - done.
Qed.

(** The tree of a slice is made by one append per part. *)
Definition slice_in_leaf (limit n : nat) (a : SliceSeekAggregate.t T S) (X Y : list T) : Prop :=
  low limit n (SliceSeekAggregate.tree a) ∧ to_list (SliceSeekAggregate.tree a) = X ∧
  SliceSeekAggregate.leaf_items a = Y ∧
  SliceSeekAggregate.leaf_item_summaries a = map item_summary Y ∧
  SliceSeekAggregate.leaf_summary a = items_sum Y.
Definition slice_at_node (limit n : nat) (a : SliceSeekAggregate.t T S) (X : list T) : Prop := slice_in_leaf limit n a X [].

Lemma append_part limit n (a b : SumTree T S) : low limit n a → tree_ok b → Node.height b <= limit →
  ∃ t, SumTree.append a b = Some t ∧ to_list t = to_list a ++ to_list b ∧ low limit (Datatypes.S n) t.
Proof.
  intros Ha Hb Hh. destruct (append_spec a b (low_tree_ok _ _ _ Ha) Hb) as (t & Happ & _ & Hl & _).
  exists t. split_and!; [done..|]. by eapply append_low.
Qed.

#[export] Instance slice_aggregate_laws limit :
  AggregateLaws SliceSeekAggregate.slice_aggregate limit (slice_at_node limit) (slice_in_leaf limit).
Proof.
  split; unfold slice_at_node, slice_in_leaf; intros; destruct_and?; simpl in *.
  - done.
  - match goal with H : _ = Y |- _ => rewrite H end.
    match goal with H : _ = map _ Y |- _ => rewrite H end.
    rewrite !array_push_Some by (rewrite ?length_map; done). simpl. eexists. split; [done|]. simpl.
    split_and!; [done..|by rewrite map_app|].
    unfold items_sum in *. rewrite map_app. unfold sum. rewrite foldl_app. simpl. by f_equal.
  - destruct a as [t items sums s]; simpl in *; subst.
    destruct (append_part limit n t (Leaf (items_sum Y) Y (map item_summary Y))) as (t' & -> & Hlist & Hlow); [done| |simpl; lia|].
    { destruct Y as [|y Y]; [by left|]. right. exists 0. apply wf_leaf; [simpl in *; lia|done]. }
    simpl. eexists. split; [done|]. by split_and!.
  - destruct a as [t' items sums s]; simpl in *; subst.
    destruct (append_part limit n t' t) as (t'' & -> & Hlist & Hlow);
      [done|right; eauto|match goal with H : wf _ t |- _ => by rewrite (wf_height _ _ H) end|].
    simpl. eexists. split; [done|]. by split_and!.
  - split_and!; [by eapply low_more|done..].
Qed.
End aggregates.

(** ** The cursor as a split *)

Section split.
Context {T S D : Type} `{SummaryLaws S, !Item T S, !Dimension D S}.
Implicit Types (t : SumTree T S) (c : Cursor.t T S D) (B R : list T).

(** The trees a cursor can walk: the height fits the path. *)
Definition searchable t : Prop := tree_ok t ∧ Node.height t < STACK_CAPACITY.

(** The cursor stands between the items [B] and [R] of the tree [t]. *)
Definition split_at t c B R : Prop :=
  Cursor.tree c = t ∧ to_list t = B ++ R ∧ Cursor.position c = pos_after dim_zero B ∧
  Cursor.did_seek c = true ∧
  match R with
  | [] => Cursor.stack c = [] ∧ Cursor.at_end c = true
  | _ => leaf_path t (Cursor.stack c) ∧ before (Cursor.stack c) = B ∧ rest (Cursor.stack c) = R ∧
         Cursor.at_end c = false
  end.

(** The same, or a cursor that has not been moved yet. *)
Definition ready t c B R : Prop :=
  (c = Cursor.new t ∧ B = [] ∧ R = to_list t) ∨ split_at t c B R.

Lemma ready_new t : ready t (Cursor.new t) [] (to_list t).
Proof. by left. Qed.

Lemma ready_split t c B R : split_at t c B R → ready t c B R.
Proof. by right. Qed.

Lemma ready_app t c B R : ready t c B R → to_list t = B ++ R.
Proof. intros [(_ & -> & ->)|(_ & ? & _)]; done. Qed.

Lemma ready_position t c B R : ready t c B R → Cursor.position c = pos_after dim_zero B.
Proof. intros [(-> & -> & ->)|(_ & _ & ? & _)]; done. Qed.

Lemma ready_tree t c B R : ready t c B R → Cursor.tree c = t.
Proof. intros [(-> & _)|(? & _)]; done. Qed.

Lemma split_at_item t c B R : split_at t c B R → Cursor.item c = Some (head R).
Proof.
  intros (Htree & Hlist & Hpos & Hseek & Hst). unfold Cursor.item, Cursor.assert_did_seek. rewrite Hseek.
  simpl. destruct R as [|x R]; [by destruct Hst as [-> _]|].
  destruct Hst as (Hpath & HB & HR & _). destruct (Cursor.stack c) as [|e ps]; [done|].
  destruct Hpath as [Ha Hi]. destruct (rest_leaf _ _ _ Ha Hi) as (s & items & y & Heq & Hy & Hrest).
  rewrite Heq. rewrite HR in Hrest. simplify_eq.
  apply lookup_lt_Some in Hy as Hlt. destruct (Nat.eqb_spec (StackEntry.index e) (length items)); [lia|].
  by rewrite Hy.
Qed.

Lemma split_at_item_summary t c B R :
  split_at t c B R → Cursor.item_summary c = Some (item_summary <$> head R).
Proof.
  intros (Htree & Hlist & Hpos & Hseek & Hst). unfold Cursor.item_summary, Cursor.assert_did_seek. rewrite Hseek.
  simpl. destruct R as [|x R]; [by destruct Hst as [-> _]|].
  destruct Hst as (Hpath & HB & HR & _). destruct (Cursor.stack c) as [|e ps]; [done|].
  destruct Hpath as [Ha Hi]. destruct (rest_leaf _ _ _ Ha Hi) as (s & items & y & Heq & Hy & Hrest).
  rewrite Heq, length_map. rewrite HR in Hrest. simplify_eq.
  apply lookup_lt_Some in Hy as Hlt. destruct (Nat.eqb_spec (StackEntry.index e) (length items)); [lia|].
  rewrite lookup_map, Hy. done.
Qed.

Lemma split_at_start t c B R : split_at t c B R → Cursor.start c = pos_after dim_zero B.
Proof. by intros (_ & _ & ? & _). Qed.

Lemma split_at_end t c B R :
  split_at t c B R → Cursor.end_ c = Some (pos_after dim_zero (B ++ option_list (head R))).
Proof.
  intros Hc. unfold Cursor.end_. rewrite (split_at_item_summary _ _ _ _ Hc). simpl.
  rewrite (split_at_start _ _ _ _ Hc). destruct R; simpl; [by rewrite app_nil_r|]. by rewrite pos_after_app.
Qed.

(** [seek_internal] is the linear scan, from any cursor. *)
Section seek.
Context {A : Type} (t : SumTree T S) (aggregate : SeekAggregate A T S) (at_node : nat → A → list T → Prop)
  (in_leaf : nat → A → list T → list T → Prop) {agg_laws : AggregateLaws aggregate (Nat.pred (Node.height t)) at_node in_leaf}.
Context (target : SeekTarget D) (bias : Bias) {exact : bool} {Htarget : Seekable t target bias exact}.

(** The target compared with the position, or with the end of the item for
    [Bias::Left]. *)
Definition found_at (p : D) (r : list T) : bool :=
  is_eq (target (match bias, r with Left, x :: _ => dim_add p (item_summary x) | _, _ => p end)).

(** The parts a seek in [t] hands over, at most. *)
Definition seek_parts : nat := 2 * (CAPACITY * Node.height t) + CAPACITY + 1.

Lemma seek_budget pos h i e ps (st : list (StackEntry T S D)) : h <= Node.height t →
  cost_from i (StackEntry.tree e) + cost_after ps <= walk_fuel st →
  budget t target bias (exact:=exact) pos h i e ps <= if exact then seek_parts else 1 + walk_fuel st.
Proof.
  intros Hh Hcost. unfold budget. destruct exact; [|lia].
  etrans; [exact (parts_le t h _ Hh)|]. unfold parts, seek_parts. trans (CAPACITY * Datatypes.S (Node.height t) + CAPACITY * Node.height t + 1); [|lia].
  apply Nat.add_le_mono_r, Nat.add_le_mono_r, Nat.mul_le_mono_l. lia.
Qed.

Lemma seek_loop_ready c B R stack acc X :
  searchable t → ready t c B R → monotone target (Cursor.position c) R → at_node 0 acc X →
  (if Cursor.did_seek c then Some (Cursor.stack c)
   else stack_push (StackEntry.mk (Cursor.tree c) 0 dim_zero) (Cursor.stack c)) = Some stack →
  seek_outcome t at_node target bias (if exact then seek_parts else 1 + walk_fuel stack) (Cursor.position c) B R X
    (Cursor.seek_loop aggregate target bias (walk_fuel stack) false (Cursor.position c) stack acc).
Proof.
  intros [Hok Hheight] Hready Hm Hacc.
  assert (Hdone : ∀ N pos fuel, seek_outcome t at_node target bias N pos B [] X
      (Cursor.seek_loop aggregate target bias fuel false pos [] acc)).
  { intros N pos fuel. unfold seek_outcome. simpl. exists [], acc. rewrite app_nil_r.
    destruct fuel; (split; [done|split; [eapply agg_more; [exact Hacc|lia]|done]]). }
  destruct Hready as [(-> & -> & ->)|(Htree & Hlist & Hpos & Hseek & Hst)]; cbn [Cursor.did_seek Cursor.new Cursor.tree Cursor.stack Cursor.position].
  - unfold stack_push. cbn [length Nat.ltb Nat.leb]. intros Hstack. injection Hstack as <-. destruct Hok as [->|[h Hwf]].
    + destruct (agg_end_leaf 0 (begin_leaf aggregate acc) X []) as (acc' & Hend & Hacc');
        [by apply agg_begin_leaf|simpl; lia|].
      unfold seek_outcome. simpl. unfold slice_from. simpl. rewrite Hend. simpl.
      eexists _, _. split; [done|]. split; [|done]. eapply agg_more; [exact Hacc'|]. unfold seek_parts. destruct exact; lia.
    + pose proof (seek_loop_lin t Hheight aggregate at_node in_leaf target bias (if exact then seek_parts else 1 + walk_fuel [StackEntry.mk t 0 dim_zero]) 0
        (walk_fuel [StackEntry.mk t 0 dim_zero]) false dim_zero h (StackEntry.mk t 0 dim_zero) [] acc X) as Hloop.
      cbn [resume_at StackEntry.index StackEntry.tree before after cost_after app] in Hloop. rewrite items_take_0, items_drop_0, app_nil_r, Nat.add_0_r, <-walk_cost_from in Hloop.
      apply Hloop; [by constructor|lia|by right|done|done|done| |simpl; lia].
      apply (seek_budget dim_zero h 0 (StackEntry.mk t 0 dim_zero) []); [by rewrite (wf_height _ _ Hwf)|]. rewrite <-walk_cost_from. simpl. lia.
  - rewrite Hseek. intros Hstack. injection Hstack as <-. destruct R as [|x R]; [destruct Hst as [-> _]; apply Hdone|].
    destruct Hst as (Hpath & HB & HR & _). destruct (Cursor.stack c) as [|e ps] eqn:Hstack; [done|].
    destruct Hpath as [Ha Hi].
    assert (cost_from (StackEntry.index e) (StackEntry.tree e) + cost_after ps <= walk_fuel (e :: ps)) as Hcost.
    { simpl. pose proof (cost_from_le (StackEntry.index e) (StackEntry.tree e)). pose proof (cost_after_fuel ps). lia. }
    pose proof (seek_loop_lin t Hheight aggregate at_node in_leaf target bias (if exact then seek_parts else 1 + walk_fuel (e :: ps)) 0
      (walk_fuel (e :: ps)) false (Cursor.position c) 0 e ps acc X) as Hloop.
    cbn [resume_at before rest] in Hloop, HB, HR. rewrite HB, HR in Hloop. apply Hloop; [done|lia|by left|done|done|done| |done].
    by apply (seek_budget (Cursor.position c) 0 (StackEntry.index e) e ps (e :: ps)); [lia|].
Qed.

Lemma seek_internal_backward c acc :
  target (Cursor.position c) = Lt → Cursor.seek_internal aggregate target bias c acc = None.
Proof. intros Hlt. unfold Cursor.seek_internal. by rewrite Hlt. Qed.

Lemma seek_internal_lin c B R acc X :
  searchable t → ready t c B R → monotone target (Cursor.position c) R → at_node 0 acc X →
  target (Cursor.position c) ≠ Lt →
  let '(b, p, r) := lin_seek target bias (Cursor.position c) R in
  ∃ c' acc', Cursor.seek_internal aggregate target bias c acc = Some (found_at p r, c', acc') ∧
    split_at t c' (B ++ b) r ∧ ∃ n, (exact = true → n = seek_parts) ∧ at_node n acc' (X ++ b).
Proof.
  intros Hok Hready Hm Hacc Hge. unfold Cursor.seek_internal.
  assert (is_ge (target (Cursor.position c)) = true) as -> by by destruct (target _).
  cbn [rassert mbind option_bind].
  destruct (if Cursor.did_seek c then _ else _) as [stack|] eqn:Hstack.
  2:{ destruct Hready as [(-> & _)|(_ & _ & _ & Hseek & _)]; [done|by rewrite Hseek in Hstack]. }
  cbn [mbind option_bind].
  pose proof (seek_loop_ready c B R stack acc X Hok Hready Hm Hacc Hstack) as Hout.
  unfold seek_outcome in Hout.
  destruct (lin_seek target bias _ R) as [[b p] r] eqn:Hlin.
  destruct Hout as (st & acc' & -> & Hacc' & Hst). cbn [mbind option_bind].
  apply lin_seek_split in Hlin as (HR & Hp & _).
  set (c' := Cursor.mk (Cursor.tree c) st p true _).
  assert (Hsplit : split_at t c' (B ++ b) r).
  { unfold split_at. subst c'. simpl. rewrite (ready_tree _ _ _ _ Hready), (ready_app _ _ _ _ Hready).
    rewrite Hp, (ready_position _ _ _ _ Hready), HR, app_assoc, pos_after_app. split_and!; [done..|].
    destruct r as [|x r]; [by subst|]. destruct Hst as (Hpath & ? & ?). by destruct st. }
  assert (Hleaf : Cursor.is_leaf_or_none st = true).
  { destruct r as [|x r]; [by subst|]. destruct Hst as (Hpath & _). destruct st as [|e ps]; [done|].
    destruct Hpath as [Ha Hi]. simpl. apply ancestors_wf, wf_0_inv in Ha as (items & -> & _). done. }
  rewrite Hleaf. cbn [rassert mbind option_bind].
  rewrite (split_at_item_summary _ _ _ _ Hsplit). cbn [mbind option_bind].
  eexists _, _. split; [unfold found_at; by destruct bias, r|]. split; [done|].
  eexists. split; [|exact Hacc']. by intros ->.
Qed.
End seek.

Section operations.
Context (t : SumTree T S) (target : SeekTarget D) (bias : Bias) {exact : bool} {Htarget : Seekable t target bias exact}.

Lemma seek_forward_spec c B R :
  searchable t → ready t c B R → monotone target (pos_after dim_zero B) R →
  target (pos_after dim_zero B) ≠ Lt →
  let '(b, p, r) := lin_seek target bias (pos_after dim_zero B) R in
  ∃ c', Cursor.seek_forward target bias c = Some (found_at target bias p r, c') ∧
    split_at t c' (B ++ b) r.
Proof.
  intros Hok Hready Hm Hge. rewrite <-(ready_position _ _ _ _ Hready) in *.
  pose proof (seek_internal_lin t unit_aggregate unit_at_node unit_in_leaf target bias c B R tt [] Hok Hready Hm I Hge) as Hseek.
  destruct (lin_seek _ _ _ _) as [[b p] r]. destruct Hseek as (c' & acc' & Hrun & Hsplit & _).
  exists c'. split; [|done]. unfold Cursor.seek_forward. by rewrite Hrun.
Qed.

Lemma seek_spec c :
  searchable t → Cursor.tree c = t → monotone target dim_zero (to_list t) → target dim_zero ≠ Lt →
  let '(b, p, r) := lin_seek target bias dim_zero (to_list t) in
  ∃ c', Cursor.seek target bias c = Some (found_at target bias p r, c') ∧ split_at t c' b r.
Proof.
  intros Hok Htree Hm Hge. unfold Cursor.seek.
  replace (Cursor.reset c) with (Cursor.new t : Cursor.t T S D) by by subst t.
  apply (seek_forward_spec (Cursor.new t) [] (to_list t)); [done|by left|done..].
Qed.

Lemma slice_parts_spec c B R :
  searchable t → ready t c B R → monotone target (pos_after dim_zero B) R →
  target (pos_after dim_zero B) ≠ Lt →
  let '(b, p, r) := lin_seek target bias (pos_after dim_zero B) R in
  ∃ t' c', Cursor.slice target bias c = Some (t', c') ∧ tree_ok t' ∧ to_list t' = b ∧
    split_at t c' (B ++ b) r ∧ (exact = true → low (Nat.pred (Node.height t)) (seek_parts t) t').
Proof.
  intros Hok Hready Hm Hge. rewrite <-(ready_position _ _ _ _ Hready) in *.
  pose proof (seek_internal_lin t SliceSeekAggregate.slice_aggregate _ _ target bias c B R
    (SliceSeekAggregate.mk SumTree.new [] [] zero) [] Hok Hready Hm) as Hseek.
  specialize (Hseek ltac:(split_and!; (done || by left)) Hge).
  destruct (lin_seek _ _ _ _) as [[b p] r]. destruct Hseek as (c' & acc' & Hrun & Hsplit & n & Hn & Hlow & Hlist & _).
  exists (SliceSeekAggregate.tree acc'), c'. split; [unfold Cursor.slice; by rewrite Hrun|].
  split; [by eapply low_tree_ok|]. split; [done|]. split; [done|]. intros Hex. by rewrite <-(Hn Hex).
Qed.

Lemma slice_spec c B R :
  searchable t → ready t c B R → monotone target (pos_after dim_zero B) R →
  target (pos_after dim_zero B) ≠ Lt →
  let '(b, p, r) := lin_seek target bias (pos_after dim_zero B) R in
  ∃ t' c', Cursor.slice target bias c = Some (t', c') ∧ tree_ok t' ∧ to_list t' = b ∧
    split_at t c' (B ++ b) r.
Proof.
  intros Hok Hready Hm Hge. pose proof (slice_parts_spec c B R Hok Hready Hm Hge) as Hslice.
  destruct (lin_seek _ _ _ _) as [[b p] r]. destruct Hslice as (t' & c' & ? & ? & ? & ? & _). eauto 10.
Qed.

Lemma summary_spec {Output} `{Dimension Output S, !DimensionLaws Output S} c B R :
  searchable t → ready t c B R → monotone target (pos_after dim_zero B) R →
  target (pos_after dim_zero B) ≠ Lt →
  let '(b, p, r) := lin_seek target bias (pos_after dim_zero B) R in
  ∃ c', Cursor.summary target bias c = Some (pos_after (dim_zero : Output) b, c') ∧
    split_at t c' (B ++ b) r.
Proof.
  intros Hok Hready Hm Hge. rewrite <-(ready_position _ _ _ _ Hready) in *.
  pose proof (seek_internal_lin t summary_aggregate _ _ target bias c B R
    (dim_zero : Output) [] Hok Hready Hm eq_refl Hge) as Hseek.
  destruct (lin_seek _ _ _ _) as [[b p] r]. destruct Hseek as (c' & acc' & Hrun & Hsplit & n & _ & Hacc).
  exists c'. split; [|done]. unfold Cursor.summary. rewrite Hrun. simpl. by rewrite Hacc.
Qed.
End operations.

(** A slice is at most two levels higher than the tree it is cut from. *)
Lemma seek_parts_height t t' : Node.height t < STACK_CAPACITY → low (Nat.pred (Node.height t)) (seek_parts t) t' →
  Node.height t' <= Node.height t + 2.
Proof.
  intros Hh Hlow. destruct (decide (Node.height t' <= Nat.pred (Node.height t))) as [|Hhigh]; [lia|].
  apply low_height in Hlow; [|lia]. set (d := Node.height t' - _) in *. unfold seek_parts in Hlow. rewrite CAPACITY_eq, TREE_BASE_eq in Hlow.
  unfold STACK_CAPACITY in Hh. destruct (Node.height t) as [|k] eqn:Hk.
  - destruct (decide (2 <= d)) as [Hd|]; [|simpl in d; lia]. pose proof (Nat.pow_le_mono_r 6 2 d ltac:(lia) Hd). simpl in *. lia.
  - destruct (decide (3 <= d)) as [Hd|]; [|simpl in d; lia]. pose proof (Nat.pow_le_mono_r 6 3 d ltac:(lia) Hd) as Hp.
    change (6 ^ 3) with 216 in Hp. lia.
Qed.

Lemma slice_height_spec `{!DimensionLaws D S} t target bias c B R :
  searchable t → ready t c B R → monotone target (pos_after dim_zero B) R →
  target (pos_after dim_zero B) ≠ Lt →
  let '(b, p, r) := lin_seek target bias (pos_after dim_zero B) R in
  ∃ t' c', Cursor.slice target bias c = Some (t', c') ∧ tree_ok t' ∧ to_list t' = b ∧
    split_at t c' (B ++ b) r ∧ Node.height t' <= Node.height t + 2.
Proof.
  intros Hok Hready Hm Hge. pose proof (slice_parts_spec t target bias c B R Hok Hready Hm Hge) as Hslice.
  destruct (lin_seek _ _ _ _) as [[b p] r]. destruct Hslice as (t' & c' & ? & ? & ? & ? & Hlow).
  exists t', c'. split_and!; [done..|]. apply seek_parts_height; [apply Hok|by apply Hlow].
Qed.

Lemma lin_seek_End d R : lin_seek End Right d R = (R, pos_after d R, []).
Proof. revert d. induction R as [|x R IH]; intros d; [done|]. simpl. by rewrite IH. Qed.

Lemma monotone_End d R : monotone End d R.
Proof. intros l1 l2 l3 _. done. Qed.

Lemma suffix_height_spec `{!DimensionLaws D S} t c B R :
  searchable t → ready t c B R →
  ∃ t' c', Cursor.suffix c = Some (t', c') ∧ tree_ok t' ∧ to_list t' = R ∧ split_at t c' (B ++ R) [] ∧
    Node.height t' <= Node.height t + 2.
Proof.
  intros Hok Hready.
  pose proof (slice_height_spec t End Right c B R Hok Hready (monotone_End _ _) ltac:(done)) as Hslice.
  by rewrite lin_seek_End in Hslice.
Qed.

Lemma suffix_spec `{!DimensionLaws D S} t c B R :
  searchable t → ready t c B R →
  ∃ t' c', Cursor.suffix c = Some (t', c') ∧ tree_ok t' ∧ to_list t' = R ∧ split_at t c' (B ++ R) [].
Proof.
  intros Hok Hready. destruct (suffix_height_spec t c B R Hok Hready) as (t' & c' & ? & ? & ? & ? & _). eauto 10.
Qed.
End split.

(** ** Properties *)

(** C19. [slice] and [suffix] partition the rest of the sequence.  From a cursor
    anywhere between the items [B] and [R], for a monotone target not before
    the cursor, [slice] and [summary] stop where the linear scan of [R] stops:
    [slice] returns a well-formed tree of the items passed, [summary] their
    extent in any dimension, [suffix] then returns the items that remain, and
    no assertion, capacity check or fuel bound fails. *)
Theorem slice_suffix_partition {T S D} `{SummaryLaws S, !Item T S, !Dimension D S, !DimensionLaws D S}
    {Output} `{!Dimension Output S, !DimensionLaws Output S}
    (t : SumTree T S) (target : SeekTarget D) (bias : Bias) (c : Cursor.t T S D) (B R : list T)
    (Ht : searchable t) (Hc : ready t c B R) (Hm : monotone target (pos_after dim_zero B) R)
    (Hge : target (pos_after dim_zero B) ≠ Lt) :
  let '(b, p, r) := lin_seek target bias (pos_after dim_zero B) R in
  R = b ++ r ∧
  (∃ t1 c1 t2 c2, Cursor.slice target bias c = Some (t1, c1) ∧ tree_ok t1 ∧ to_list t1 = b ∧
    Cursor.start c1 = p ∧ Cursor.item c1 = Some (head r) ∧
    Cursor.suffix c1 = Some (t2, c2) ∧ tree_ok t2 ∧ to_list t2 = r) ∧
  (∃ c1, Cursor.summary target bias c = Some (pos_after (dim_zero : Output) b, c1)).
Proof.
  pose proof (slice_spec t target bias c B R Ht Hc Hm Hge) as Hslice.
  pose proof (summary_spec t target bias (Output:=Output) c B R Ht Hc Hm Hge) as Hsummary.
  destruct (lin_seek _ _ _ _) as [[b p] r] eqn:Hlin. apply lin_seek_split in Hlin as (HR & -> & _).
  destruct Hslice as (t1 & c1 & Hrun & Hok1 & Hl1 & Hc1).
  destruct (suffix_spec t c1 _ _ Ht (ready_split _ _ _ _ Hc1)) as (t2 & c2 & Hsuffix & Hok2 & Hl2 & _).
  split; [done|]. split; [|destruct Hsummary as (c3 & ? & _); eauto].
  exists t1, c1, t2, c2. split_and!; try done; [|by eapply split_at_item].
  by rewrite (split_at_start _ _ _ _ Hc1), pos_after_app.
Qed.

(** Seeking forward is total except backwards: it panics exactly when the
    target lies before the cursor, and otherwise reports whether the target is
    the position reached (for [Bias::Left], the end of the item reached). *)
Theorem seek_forward_total {T S D} `{SummaryLaws S, !Item T S, !Dimension D S, !DimensionLaws D S}
    (t : SumTree T S) (target : SeekTarget D) (bias : Bias) (c : Cursor.t T S D) (B R : list T)
    (Ht : searchable t) (Hc : ready t c B R) (Hm : monotone target (pos_after dim_zero B) R) :
  (Cursor.seek_forward target bias c = None ↔ target (Cursor.position c) = Lt) ∧
  ∀ found c', Cursor.seek_forward target bias c = Some (found, c') →
    let '(b, p, r) := lin_seek target bias (pos_after dim_zero B) R in
    split_at t c' (B ++ b) r ∧
    (found = true ↔ target (match bias, r with Left, x :: _ => dim_add p (item_summary x) | _, _ => p end) = Eq).
Proof.
  pose proof (ready_position _ _ _ _ Hc) as Hpos.
  destruct (decide (target (pos_after dim_zero B) = Lt)) as [Hlt|Hge].
  - assert (Cursor.seek_forward target bias c = None) as ->; [|split; [by rewrite Hpos|done]].
    unfold Cursor.seek_forward. rewrite (seek_internal_backward unit_aggregate target bias c tt); [done|]. by rewrite Hpos.
  - pose proof (seek_forward_spec t target bias c B R Ht Hc Hm Hge) as Hseek.
    destruct (lin_seek _ _ _ _) as [[b p] r]. destruct Hseek as (c' & -> & Hc'). split.
    + split; [done|]. rewrite Hpos. done.
    + intros found c'' [= <- <-]. split; [done|]. apply is_eq_true.
Qed.

Import NatItems.

Lemma nat_monotone k d (l : list nat) : monotone (seek_ord k) (d : nat) l.
Proof.
  intros l1 l2 l3 _. rewrite pos_after_app. set (d' := pos_after _ l1). clearbody d'.
  assert (Hle : d' <= pos_after d' l2).
  { revert d'. induction l2 as [|x l2 IH]; intros d'; simpl; [done|]. etrans; [|apply IH]. simpl. lia. }
  unfold seek_ord, cmp, nat_ord.
  destruct (Nat.compare_spec k d'), (Nat.compare_spec k (pos_after d' l2)); simpl; lia.
Qed.

Lemma tree_13_searchable : searchable (tree 13).
Proof. split; [apply tree_13_ok|]. vm_compute. lia. Qed.

Lemma slice_suffix_partition_witness :
  seq 1 13 = [1; 2; 3; 4; 5] ++ seq 6 8 ∧
  (∃ t1 c1 t2 c2, Cursor.slice (seek_ord 18) Left (Cursor.new (tree 13) : Cursor.t nat nat nat) = Some (t1, c1) ∧
    tree_ok t1 ∧ to_list t1 = [1; 2; 3; 4; 5] ∧ Cursor.start c1 = 15 ∧ Cursor.item c1 = Some (Some 6) ∧
    Cursor.suffix c1 = Some (t2, c2) ∧ tree_ok t2 ∧ to_list t2 = seq 6 8) ∧
  (∃ c1, Cursor.summary (seek_ord 18) Left (Cursor.new (tree 13) : Cursor.t nat nat nat) = Some (15, c1)).
Proof.
  exact (slice_suffix_partition (Output:=nat) (tree 13) (seek_ord 18) Left (Cursor.new (tree 13)) [] (seq 1 13)
    tree_13_searchable (ready_new _) (nat_monotone 18 0 (seq 1 13)) ltac:(discriminate)).
Defined.

Lemma seek_forward_total_witness :
  (Cursor.seek_forward (seek_ord 21) Left (Cursor.new (tree 13) : Cursor.t nat nat nat) = None ↔ (21 ?= 0) = Lt) ∧
  ∀ found c', Cursor.seek_forward (seek_ord 21) Left (Cursor.new (tree 13)) = Some (found, c') →
    split_at (tree 13) c' [1; 2; 3; 4; 5] (seq 6 8) ∧ (found = true ↔ (21 ?= 21) = Eq).
Proof.
  exact (seek_forward_total (tree 13) (seek_ord 21) Left (Cursor.new (tree 13)) [] (seq 1 13)
    tree_13_searchable (ready_new _) (nat_monotone 21 0 (seq 1 13))).
Defined.
