(* ===== verification/CursorWalk.v ===== *)
(** * Walking a tree item by item

    [next], [prev], [search_forward] and [search_backward] of [Cursor], the
    [FilterCursor] and the two iterators: each step moves the split of
    [CursorFacts] to the neighbouring item (that passes the filter), and
    iterating to the end yields the (filtered) item list.

    [suffix] walks to the end of the tree whatever the position says.  For a
    dimension that does not add up over whole nodes the walk is compared with the
    same walk without a dimension. *)

From S2P Require Import Prelude SumTree SumTreeFacts Seek Cursor CursorFacts TreeHeights.

(** A filter behind whose rejected nodes the position is exact: any filter when
    the dimension adds up, and the filter that rejects nothing. *)
Class Skippable {T S D} `{Summary S, !Item T S, !Dimension D S} (filter_node : S → bool) : Prop :=
  skip_dim (d : D) (h : nat) (t : SumTree T S) : wf h t → filter_node (Node.summary t) = false →
    dim_add d (Node.summary t) = pos_after d (to_list t).
#[global] Hint Mode Skippable + + + - - - + : typeclass_instances.

#[export] Instance skippable_exact {T S D} `{SummaryLaws S, !Item T S, !Dimension D S, !DimensionLaws D S} (filter_node : S → bool) :
  Skippable (T:=T) (D:=D) filter_node.
Proof. intros d h t Ht _. by apply (dim_add_wf d h). Qed.

#[export] Instance skippable_true {T S D} `{Summary S, !Item T S, !Dimension D S} : Skippable (T:=T) (D:=D) (λ _ : S, true).
Proof. done. Qed.

Section filter.
Context {T S D : Type} `{SummaryLaws S, !Item T S, !Dimension D S}.
Context (filter_node : S → bool).
Implicit Types (l k : list T) (d : D).

Definition accepts (x : T) : bool := filter_node (item_summary x).

(** A node's summary is accepted when one of its items' is. *)
Definition filter_sound : Prop :=
  ∀ l x, x ∈ l → accepts x = true → filter_node (items_sum l) = true.

(** The items before the first accepted one, the position there, the rest. *)
Fixpoint lin_filter d l : list T * D * list T :=
  match l with
  | [] => ([], d, [])
  | x :: l' =>
      if accepts x then ([], d, l)
      else let '(b, p, r) := lin_filter (dim_add d (item_summary x)) l' in (x :: b, p, r)
  end.

Lemma lin_filter_reject d l k :
  (∀ x, x ∈ l → accepts x = false) →
  lin_filter d (l ++ k) = let '(b, p, r) := lin_filter (pos_after d l) k in (l ++ b, p, r).
Proof.
  revert d. induction l as [|x l IH]; intros d Hl; simpl; [by destruct (lin_filter d k) as [[]]|].
  rewrite (Hl x), IH by set_solver. by destruct (lin_filter _ k) as [[]].
Qed.

Lemma lin_filter_split d l b p r :
  lin_filter d l = (b, p, r) → l = b ++ r ∧ p = pos_after d b ∧ (∀ x, x ∈ b → accepts x = false) ∧
    match r with x :: _ => accepts x = true | [] => True end.
Proof.
  revert d b. induction l as [|x l IH]; intros d b; simpl.
  { intros; simplify_eq. split_and!; (done || set_solver). }
  destruct (accepts x) eqn:Hx; [intros; simplify_eq; split_and!; (done || set_solver)|].
  destruct (lin_filter _ l) as [[b' p'] r'] eqn:Hl. intros. simplify_eq.
  apply IH in Hl as (-> & -> & Hb & Hr). split_and!; [done..| |done].
  intros y [->|Hy]%elem_of_cons; [done|by apply Hb].
Qed.

(** The length of the leading run of rejected summaries. *)
Fixpoint rejected (summaries : list S) : nat :=
  match summaries with
  | [] => 0
  | s :: summaries => if filter_node s then 0 else Datatypes.S (rejected summaries)
  end.

Lemma skip_rejected_eq i d1 d2 (summaries : list S) :
  Cursor.skip_rejected filter_node i d1 d2 summaries =
    (i + rejected summaries, foldl dim_add d1 (take (rejected summaries) summaries),
     foldl dim_add d2 (take (rejected summaries) summaries)).
Proof.
  revert i d1 d2. induction summaries as [|s l IH]; intros i d1 d2; simpl.
  - by rewrite Nat.add_0_r.
  - destruct (filter_node s); simpl; [by rewrite Nat.add_0_r|].
    by rewrite IH, <-Nat.add_assoc.
Qed.

Lemma foldl_dim_add_items d l : foldl dim_add d (map item_summary l) = pos_after d l.
Proof. unfold pos_after. revert d. induction l as [|x l IH]; intros d; simpl; [done|apply IH]. Qed.

Lemma foldl_dim_add_nodes `{!DimensionLaws D S} h d (cts : list (SumTree T S)) :
  Forall (wf h) cts → foldl dim_add d (map Node.summary cts) = pos_after d (concat (map to_list cts)).
Proof.
  intros Hcts. revert d. induction Hcts as [|c cts Hc Hcts IH]; intros d; [done|]. simpl.
  by rewrite pos_after_app, (dim_add_wf d h), IH.
Qed.

Lemma rejected_take (summaries : list S) s :
  s ∈ take (rejected summaries) summaries → filter_node s = false.
Proof.
  induction summaries as [|s' l IH]; simpl; [by intros ?%not_elem_of_nil|].
  destruct (filter_node s') eqn:Hs; simpl; [by intros ?%not_elem_of_nil|].
  intros [->|Hin]%elem_of_cons; [done|by apply IH].
Qed.

Lemma foldl_dim_add_rejected `{!Skippable (T:=T) (D:=D) filter_node} h d (cts : list (SumTree T S)) :
  Forall (wf h) cts →
  foldl dim_add d (map Node.summary (take (rejected (map Node.summary cts)) cts)) =
    pos_after d (concat (map to_list (take (rejected (map Node.summary cts)) cts))).
Proof.
  intros Hcts. revert d. induction Hcts as [|c cts Hc Hcts IH]; intros d; [done|]. simpl.
  destruct (filter_node (Node.summary c)) eqn:Hrej; [done|]. simpl. by rewrite pos_after_app, (skip_dim (filter_node:=filter_node) d h), IH by done.
Qed.

Lemma rejected_lookup (summaries : list S) s :
  summaries !! rejected summaries = Some s → filter_node s = true.
Proof.
  induction summaries as [|s' l IH]; simpl; [done|]. destruct (filter_node s') eqn:Hs; [|done].
  simpl. intros. by simplify_eq.
Qed.

Lemma rejected_items l x : x ∈ take (rejected (map item_summary l)) l → accepts x = false.
Proof.
  intros Hx. apply (rejected_take (map item_summary l)). rewrite firstn_map.
  apply list_elem_of_fmap. eauto.
Qed.

Lemma rejected_nodes h (cts : list (SumTree T S)) x :
  filter_sound → Forall (wf h) cts →
  x ∈ concat (map to_list (take (rejected (map Node.summary cts)) cts)) → accepts x = false.
Proof.
  intros Hf Hcts Hx. apply list_elem_of_In, in_concat in Hx as (l & Hl & Hx).
  apply in_map_iff in Hl as (c & <- & Hc). apply list_elem_of_In in Hx, Hc.
  assert (Hwf : wf h c).
  { eapply Forall_forall; [exact Hcts|]. by eapply elem_of_take in Hc as (i & ? & _); eapply list_elem_of_lookup_2. }
  destruct (accepts x) eqn:Hacc; [|done]. eapply Hf in Hacc; [|done].
  rewrite <-(wf_summary h) in Hacc by done.
  assert (Hrej : filter_node (Node.summary c) = false); [|congruence].
  apply (rejected_take (map Node.summary cts)). rewrite firstn_map. apply list_elem_of_fmap. eauto.
Qed.
End filter.

(** ** Forward *)

Section forward.
Context {T S D : Type} `{SummaryLaws S, !Item T S, !Dimension D S}.
Context (filter_node : S → bool) (Hfilter : filter_sound (T:=T) filter_node) {Hskip : Skippable (T:=T) (D:=D) filter_node}.
Context (root : SumTree T S) (Hroot : Node.height root < STACK_CAPACITY).
Implicit Types (e : StackEntry T S D) (ps st : list (StackEntry T S D)).

Definition forward_outcome (B L : list T) (res : option (D * list (StackEntry T S D) * bool)) : Prop :=
  let '(b, p, r) := lin_filter filter_node (pos_after dim_zero B) L in
  match r with
  | [] => res = Some (p, [], false)
  | _ => ∃ st, res = Some (p, st, true) ∧ leaf_path root st ∧ before st = B ++ b ∧ rest st = r
  end.

Lemma forward_outcome_pass B l k res :
  (∀ x, x ∈ l → accepts filter_node x = false) →
  forward_outcome (B ++ l) k res → forward_outcome B (l ++ k) res.
Proof.
  intros Hl. unfold forward_outcome. rewrite lin_filter_reject, pos_after_app by done.
  destruct (lin_filter _ _ k) as [[b p] r]. by rewrite <-app_assoc.
Qed.

Lemma forward_outcome_stop B x L res :
  accepts filter_node x = true →
  (∃ st, res = Some (pos_after dim_zero B, st, true) ∧ leaf_path root st ∧ before st = B ∧ rest st = x :: L) →
  forward_outcome B (x :: L) res.
Proof. intros Hx Hst. unfold forward_outcome. simpl. rewrite Hx. by rewrite app_nil_r. Qed.

(** The position at which a visit finds the cursor: at a leaf it has not
    passed the current item yet. *)
Definition forward_pos (descend : bool) h e ps : D :=
  pos_after dim_zero
    (before ps ++ items_take
      (if (h =? 0) then StackEntry.index e else resume_at (negb descend) e) (StackEntry.tree e)).

Lemma search_forward_loop_lin fuel descend h e ps :
  let i := resume_at (negb descend) e in
  let B := before ps ++ items_take i (StackEntry.tree e) in
  let L := items_drop i (StackEntry.tree e) ++ after ps in
  ancestors root h (StackEntry.tree e) ps →
  i <= width (StackEntry.tree e) →
  (if descend then h = 0 ∨ StackEntry.position e = pos_after dim_zero B else True) →
  cost_from i (StackEntry.tree e) + cost_after ps <= fuel →
  forward_outcome B L
    (Cursor.search_forward_loop filter_node fuel descend (forward_pos descend h e ps) (e :: ps)).
Proof.
  revert descend h e ps. induction fuel as [|fuel IH]; intros descend h e ps i B L Ha Hi Hvisit Hfuel.
  { pose proof (cost_from_pos i (StackEntry.tree e)). lia. }
  assert (Hpop : ∀ B', B' = before ps ++ to_list (StackEntry.tree e) →
    forward_outcome B' (after ps)
      (Cursor.search_forward_loop filter_node fuel false (pos_after dim_zero B') ps)).
  { intros B' ->. inversion Ha as [h' Hwf|h' p ps' t hh s css cts Ha' Heq Hc Hp]; subst.
    - unfold forward_outcome. simpl. by destruct fuel.
    - replace (before (p :: ps') ++ to_list (StackEntry.tree e)) with
        (before ps' ++ items_take (resume_at true p) (StackEntry.tree p)) in *.
      2:{ simpl. rewrite Heq. simpl. rewrite <-app_assoc. f_equal.
          by rewrite (take_S_r _ _ _ Hc), concat_map_app; simpl; rewrite app_nil_r. }
      apply (IH false (Datatypes.S h)); [done| |done|].
      + simpl. rewrite Heq. simpl. apply lookup_lt_Some in Hc. lia.
      + pose proof (cost_from_pos i (StackEntry.tree e)). simpl in *. lia. }
  apply ancestors_wf in Ha as Hwf. destruct h as [|h].
  - apply wf_0_inv in Hwf as (items & Heq & Hlen). subst L.
    unfold forward_pos. simpl. rewrite Heq in *. simpl in *.
    set (start := if descend then _ else _).
    assert (Hstart : ∃ ep, start = Some (i, ep, pos_after dim_zero B)).
    { subst start B i. unfold resume_at. rewrite Heq. destruct descend; simpl in *; [eauto|].
      apply lookup_lt_is_Some in Hi as [x Hx]. rewrite lookup_map, Hx. simpl. rewrite Nat.add_1_r.
      rewrite (take_S_r _ _ _ Hx), app_assoc, (pos_after_app _ (_ ++ _)). simpl. eauto. }
    destruct Hstart as [ep ->]. simpl.
    rewrite skip_rejected_eq. simpl. rewrite skipn_map, firstn_map, foldl_dim_add_items.
    set (m := rejected _ _). set (M := take m (drop i items)).
    assert (HB : before ps ++ take (i + m) items = B ++ M).
    { subst B M. rewrite Heq. simpl. by rewrite <-take_take_drop, app_assoc. }
    rewrite <-(take_drop m (drop i items)), <-app_assoc.
    apply forward_outcome_pass; [intros x; apply rejected_items|].
    rewrite drop_drop, lookup_map. fold M. rewrite <-pos_after_app.
    destruct (items !! (i + m)) as [x|] eqn:Hx; simpl.
    + rewrite (drop_S _ x) by done. simpl. apply forward_outcome_stop.
      * unfold accepts. apply (rejected_lookup filter_node (map item_summary (drop i items))).
        fold m. by rewrite lookup_map, lookup_drop, Hx.
      * eexists. split; [done|]. unfold leaf_path. simpl. split_and!; [done| |done|].
        -- by apply lookup_lt_Some in Hx.
        -- by rewrite (drop_S _ x) by done.
    + apply lookup_ge_None in Hx. rewrite drop_ge in * by done. apply Hpop. rewrite <-HB. by rewrite take_ge.
  - apply wf_S_inv in Hwf as (cts & Heq & Hcts & Hlen). subst L.
    unfold forward_pos. simpl. fold i. fold B. rewrite Heq in *. simpl in *.
    set (idx := if descend then _ else _). assert (idx = i) as -> by (subst i idx; destruct descend; simpl; lia).
    set (ep := if descend then _ else _).
    assert (ep = pos_after dim_zero B) as ->.
    { subst ep. destruct descend; [by destruct Hvisit|done]. }
    rewrite skip_rejected_eq. simpl. rewrite skipn_map, firstn_map.
    rewrite (foldl_dim_add_rejected filter_node h) by by apply Forall_drop.
    set (m := rejected _ _).
    set (M := concat (map to_list (take m (drop i cts)))).
    assert (HB : before ps ++ concat (map to_list (take (i + m) cts)) = B ++ M).
    { subst B M. rewrite Heq. simpl. by rewrite <-take_take_drop, concat_map_app, app_assoc. }
    rewrite <-(take_drop m (drop i cts)), concat_map_app, <-app_assoc.
    apply forward_outcome_pass; [intros x; eapply rejected_nodes; [done|by apply Forall_drop]|].
    rewrite drop_drop. fold M. rewrite <-pos_after_app.
    destruct (cts !! (i + m)) as [c|] eqn:Hc.
    + set (top := StackEntry.mk _ (i + m) _).
      assert (Hchild : ancestors root h c (top :: ps)).
      { econstructor; simpl; [done|done|done|]. simpl. by rewrite HB. }
      rewrite (stack_push_ok root h c) by done. simpl.
      rewrite (drop_S _ c) by done. simpl. rewrite <-app_assoc.
      pose proof (IH true h (StackEntry.mk c 0 (pos_after dim_zero (B ++ M))) (top :: ps)) as IH'.
      unfold forward_pos in IH'. simpl in IH'.
      replace (if h =? 0 then 0 else 0) with 0 in IH' by by destruct (h =? 0).
      rewrite items_take_0, items_drop_0, app_nil_r in IH'. simpl in IH'. rewrite HB in IH'.
      apply IH'; clear IH'; [done|lia|by right|].
      pose proof (cost_from_child (Datatypes.S h) (items_sum (concat (map to_list cts)))
        (map Node.summary cts) cts i (i + m) c Hc) as Hcost.
      simpl in Hcost. rewrite <-walk_cost_from. simpl. lia.
    + apply lookup_ge_None in Hc. rewrite drop_ge in * by done. simpl in *. apply Hpop.
      rewrite <-HB. by rewrite take_ge.
Qed.

End forward.

(** ** Backward *)

Section backward.
Context {T S D : Type} `{SummaryLaws S, !Item T S, !Dimension D S, !DimensionLaws D S}.
Context (filter_node : S → bool) (Hfilter : filter_sound (T:=T) filter_node).
Context (root : SumTree T S) (Hroot : Node.height root < STACK_CAPACITY).
Implicit Types (e : StackEntry T S D) (ps st : list (StackEntry T S D)).

Definition backward_outcome (B R : list T) (res : option (D * list (StackEntry T S D))) : Prop :=
  (∃ B1 x B2 st, B = B1 ++ x :: B2 ∧ accepts filter_node x = true ∧
    (∀ y, y ∈ B2 → accepts filter_node y = false) ∧
    res = Some (pos_after dim_zero B1, st) ∧ leaf_path root st ∧ before st = B1 ∧ rest st = x :: B2 ++ R) ∨
  ((∀ y, y ∈ B → accepts filter_node y = false) ∧ res = Some (dim_zero, [])).

Lemma backward_outcome_pass B l R res :
  (∀ x, x ∈ l → accepts filter_node x = false) →
  backward_outcome B (l ++ R) res → backward_outcome (B ++ l) R res.
Proof.
  intros Hl [(B1 & x & B2 & st & -> & Hx & HB2 & Hres & Hpath & HB1 & Hrest)|(HB & Hres)].
  - left. exists B1, x, (B2 ++ l), st. rewrite <-!app_assoc. split_and!; try done.
    intros y [Hy|Hy]%elem_of_app; auto.
  - right. split; [|done]. intros y [Hy|Hy]%elem_of_app; auto.
Qed.

Lemma parent_position h t ps :
  ancestors root h t ps →
  match ps with parent :: _ => StackEntry.position parent | [] => dim_zero end = pos_after dim_zero (before ps).
Proof. intros Ha. by destruct Ha. Qed.

Lemma search_backward_loop_lin fuel descending pos h e ps :
  let j := resume_at descending e in
  let B := before ps ++ items_take j (StackEntry.tree e) in
  let R := items_drop j (StackEntry.tree e) ++ after ps in
  ancestors root h (StackEntry.tree e) ps →
  j <= width (StackEntry.tree e) →
  cost_to j (StackEntry.tree e) + cost_before ps <= fuel →
  backward_outcome B R (Cursor.search_backward_loop filter_node fuel descending pos (e :: ps)).
Proof.
  revert descending pos h e ps. induction fuel as [|fuel IH]; intros descending pos h e ps j B R Ha Hj Hfuel.
  { pose proof (cost_to_pos j (StackEntry.tree e)). lia. }
  simpl. rewrite (parent_position h _ _ Ha).
  destruct (negb descending && (StackEntry.index e =? 0)) eqn:Hzero.
  { apply andb_true_iff in Hzero as [Hd Hidx%Nat.eqb_eq]. destruct descending; [done|].
    subst B R j. simpl. rewrite Hidx, items_take_0, items_drop_0, app_nil_r.
    inversion Ha as [h' Hwf|h' p ps' t hh s css cts Ha' Heq Hc Hp]; subst.
    - right. split; [set_solver|]. by destruct fuel.
    - assert (HR : to_list (StackEntry.tree e) ++ after (p :: ps') =
        items_drop (resume_at false p) (StackEntry.tree p) ++ after ps').
      { simpl. rewrite Heq. simpl. rewrite (drop_S _ _ _ Hc). simpl. by rewrite app_assoc. }
      rewrite HR. apply (IH false _ (Datatypes.S h)); [done| |].
      + simpl. rewrite Heq. simpl. apply lookup_lt_Some in Hc. lia.
      + pose proof (cost_to_pos 0 (StackEntry.tree e)). simpl in *. rewrite Hidx in Hfuel. lia. }
  set (i := if descending then _ else _).
  assert (Hji : j = Datatypes.S i).
  { subst i j. destruct descending; simpl in *; [done|]. apply Nat.eqb_neq in Hzero. lia. }
  assert (Hlast : ∀ l e', items_take j (StackEntry.tree e) = items_take i (StackEntry.tree e) ++ l →
    items_drop i (StackEntry.tree e) = l ++ items_drop j (StackEntry.tree e) →
    StackEntry.tree e' = StackEntry.tree e → StackEntry.index e' = i →
    (∀ x, x ∈ l → accepts filter_node x = false) →
    cost_to i (StackEntry.tree e) < cost_to j (StackEntry.tree e) →
    ∀ pos, backward_outcome B R (Cursor.search_backward_loop filter_node fuel false pos (e' :: ps))).
  { intros l e' Htake Hdrop He' Hi' Hl Hcost pos'. subst B R. rewrite Htake, app_assoc.
    apply backward_outcome_pass; [done|]. rewrite app_assoc, <-Hdrop.
    pose proof (IH false pos' h e' ps) as IH'. simpl in IH'. rewrite He', Hi' in IH'. apply IH'; [done|lia|lia]. }
  clearbody i j. subst j. apply ancestors_wf in Ha as Hwf. unfold slice_to. destruct h as [|h].
  - apply wf_0_inv in Hwf as (items & Heq & Hlen). clear IH. subst B R. simpl. rewrite Heq in *. simpl in *.
    rewrite length_map. destruct (Nat.leb_spec i (length items)); [|lia]. simpl.
    destruct (items !! i) as [x|] eqn:Hx; [|apply lookup_ge_None in Hx; lia].
    rewrite lookup_map, Hx. simpl. rewrite firstn_map, foldl_dim_add_items, <-pos_after_app.
    destruct (filter_node (item_summary x)) eqn:Hacc.
    + left. rewrite (take_S_r _ _ _ Hx), app_assoc. eexists _, x, [], _. split_and!; [done|done|set_solver|done|..].
      * simpl. split; [done|]. simpl. lia.
      * done.
      * simpl. by rewrite (drop_S _ _ _ Hx).
    + rewrite <-Heq. apply (Hlast [x]); try done; simpl.
      * by apply take_S_r.
      * by apply drop_S.
      * by intros y ->%list_elem_of_singleton.
      * rewrite !length_take, !length_map. lia.
  - apply wf_S_inv in Hwf as (cts & Heq & Hcts & Hlen). subst B R. simpl. rewrite Heq in *. simpl in Hj, Hlast, Hfuel |- *.
    rewrite length_map. destruct (Nat.leb_spec i (length cts)); [|lia]. simpl.
    destruct (cts !! i) as [c|] eqn:Hc; [|apply lookup_ge_None in Hc; lia].
    rewrite lookup_map, Hc. simpl. rewrite firstn_map.
    rewrite (foldl_dim_add_nodes h) by by apply Forall_take. rewrite <-pos_after_app.
    assert (Hwfc : wf h c) by by eapply Forall_lookup_1.
    pose proof (cost_to_child (Datatypes.S h) (items_sum (concat (map to_list cts)))
        (map Node.summary cts) cts (Datatypes.S i) i c Hc ltac:(lia)) as Hcost.
    simpl in Hcost.
    destruct (filter_node (Node.summary c)) eqn:Hacc.
    + set (top := StackEntry.mk _ i _).
      assert (Hchild : ancestors root h c (top :: ps)) by by econstructor.
      assert (Hwidth : length (Node.child_summaries c) = width c ∧ 0 < width c).
      { destruct h as [|h]; [apply wf_0_inv in Hwfc as (? & -> & ?)|apply wf_S_inv in Hwfc as (? & -> & _ & ?)];
          simpl; rewrite length_map; lia. }
      destruct Hwidth as [Hwidth Hpos]. unfold checked_sub_nat. rewrite Hwidth.
      destruct (Nat.leb_spec 1 (width c)); [|lia]. simpl.
      rewrite (stack_push_ok root h c) by done. simpl.
      pose proof (IH true (pos_after dim_zero (before ps ++ concat (map to_list (take i cts)))) h
        (StackEntry.mk c (width c - 1) dim_zero) (top :: ps)) as IH'.
      cbn [resume_at StackEntry.tree StackEntry.index] in IH'.
      replace (Datatypes.S (width c - 1)) with (width c) in IH' by lia.
      rewrite items_take_width, items_drop_width in IH' by done. simpl in IH'.
      replace ((before ps ++ concat (map to_list (take i cts))) ++ to_list c) with
        (before ps ++ concat (map to_list (take (Datatypes.S i) cts))) in IH'.
      2:{ rewrite (take_S_r _ _ _ Hc), concat_map_app. simpl. by rewrite app_nil_r, app_assoc. }
      apply IH'; clear IH'; [done|done|]. pose proof (cost_to_le (width c) c). lia.
    + apply (Hlast (to_list c)); try done; simpl.
      * rewrite (take_S_r _ _ _ Hc), concat_map_app. simpl. by rewrite app_nil_r.
      * by rewrite (drop_S _ _ _ Hc).
      * intros x Hx. destruct (accepts filter_node x) eqn:Hax; [|done].
        eapply Hfilter in Hax; [|done]. rewrite <-(wf_summary h) in Hax by done. congruence.
      * lia.
Qed.
End backward.

(** ** The moves of a cursor *)

Section moves.
Context {T S D : Type} `{SummaryLaws S, !Item T S, !Dimension D S}.
Context (t : SumTree T S) (Ht : searchable t).
Implicit Types (c : Cursor.t T S D) (B R : list T).

(** A cursor moved back past the first item. *)
Definition before_start c : Prop :=
  c = Cursor.mk t [] dim_zero true false ∧ SumTree.is_empty t = false.

Section search.
Context (filter_node : S → bool) (Hfilter : filter_sound (T:=T) filter_node) {Hskip : Skippable (T:=T) (D:=D) filter_node}.

Lemma forward_outcome_split B L res (ret : D * list (StackEntry T S D) * bool → option (Cursor.t T S D)) :
  to_list t = B ++ L →
  (∀ p, ret (p, [], false) = Some (Cursor.mk t [] p true true)) →
  (∀ p st, ret (p, st, true) = Some (Cursor.mk t st p true false)) →
  forward_outcome filter_node t B L res →
  let '(b, p, r) := lin_filter filter_node (pos_after dim_zero B) L in
  ∃ c', (res ≫= ret) = Some c' ∧ split_at t c' (B ++ b) r.
Proof.
  intros Hlist Hret1 Hret2. unfold forward_outcome.
  destruct (lin_filter _ _ _) as [[b p] r] eqn:Hlin.
  apply lin_filter_split in Hlin as (-> & -> & _ & _). rewrite <-pos_after_app. destruct r as [|x r].
  - intros ->. simpl. rewrite Hret1. eexists. split; [done|]. unfold split_at. simpl.
    by rewrite Hlist, app_assoc.
  - intros (st & -> & Hpath & HB & HR). simpl. rewrite Hret2. eexists. split; [done|]. unfold split_at. simpl.
    by rewrite Hlist, <-app_assoc.
Qed.

Lemma search_forward_next c B x R :
  split_at t c B (x :: R) →
  let '(b, p, r) := lin_filter filter_node (pos_after dim_zero (B ++ [x])) R in
  ∃ c', Cursor.search_forward filter_node c = Some c' ∧ split_at t c' ((B ++ [x]) ++ b) r.
Proof.
  destruct Ht as [Hok Hheight].
  intros (Htree & Hlist & Hpos & Hseek & Hpath & HB & HR & Hend).
  destruct (Cursor.stack c) as [|e ps] eqn:Hstack; [done|]. destruct Hpath as [Ha Hi].
  unfold Cursor.search_forward. rewrite Hstack, Htree, Hseek, Hend. cbn [mbind option_bind]. clear Htree.
  destruct (rest_leaf _ _ _ Ha Hi) as (s & items & y & Heq & Hy & Hrest). rewrite HR in Hrest.
  simplify_eq. apply forward_outcome_split; [by rewrite <-app_assoc|done..|].
  pose proof (search_forward_loop_lin filter_node Hfilter t Hheight
    (walk_fuel (e :: ps)) false 0 e ps) as Hloop.
  cbn [resume_at negb] in Hloop. unfold forward_pos in Hloop. cbn [Nat.eqb] in Hloop.
  change (before ps ++ items_take (StackEntry.index e) (StackEntry.tree e)) with (before (e :: ps)) in Hloop.
  replace (before ps ++ items_take (Datatypes.S (StackEntry.index e)) (StackEntry.tree e))
    with (before (e :: ps) ++ [y]) in Hloop.
  2:{ simpl. rewrite Heq. simpl. by rewrite (take_S_r _ _ _ Hy), app_assoc. }
  rewrite Hpos. apply Hloop; [done|lia|done|].
  simpl. pose proof (cost_from_le (Datatypes.S (StackEntry.index e)) (StackEntry.tree e)).
  pose proof (cost_after_fuel ps). lia.
Qed.

Lemma search_forward_end c B :
  split_at t c B [] → Cursor.search_forward filter_node c = Some c.
Proof.
  intros (Htree & Hlist & Hpos & Hseek & Hstack & Hend).
  unfold Cursor.search_forward. rewrite Hstack, Hend. simpl. destruct c; simpl in *. by subst.
Qed.

Lemma search_forward_first c :
  c = Cursor.new t ∨ before_start c →
  let '(b, p, r) := lin_filter filter_node dim_zero (to_list t) in
  ∃ c', Cursor.search_forward filter_node c = Some c' ∧ split_at t c' b r.
Proof.
  destruct Ht as [Hok Hheight]. intros Hc.
  assert (c = Cursor.mk t [] dim_zero true false ∧ SumTree.is_empty t = false ∨
          c = Cursor.mk t [] dim_zero false (SumTree.is_empty t)) as Hc'.
  { destruct Hc as [->|[-> ?]]; [by right|by left]. }
  destruct Hok as [Hnew|[h Hwf]].
  { rewrite Hnew in *. destruct Hc' as [[_ ?]| ->]; [done|]. simpl. eexists. split; [done|].
    by split_and!. }
  assert (Cursor.search_forward filter_node c =
    ('(position, stack, returned) ← Cursor.search_forward_loop filter_node
       (walk_fuel [StackEntry.mk t 0 dim_zero]) true dim_zero [StackEntry.mk t 0 dim_zero];
     if (returned : bool) then Some (Cursor.mk t stack position true false)
     else _ ← rassert (Cursor.is_leaf_or_none stack);
       Some (Cursor.mk t stack position true (match stack with [] => true | _ => false end)))) as ->.
  { destruct Hc' as [[-> Hne]| ->]; unfold Cursor.search_forward; simpl; [done|].
    by rewrite (wf_not_empty h). }
  apply (forward_outcome_split []); [done..|].
  pose proof (search_forward_loop_lin filter_node Hfilter t Hheight
    (walk_fuel [StackEntry.mk t 0 dim_zero]) true h (StackEntry.mk t 0 dim_zero) []) as Hloop.
  unfold forward_pos in Hloop. simpl in Hloop.
  replace (if h =? 0 then 0 else 0) with 0 in Hloop by by destruct (h =? 0).
  rewrite items_take_0, items_drop_0, app_nil_r in Hloop. simpl in Hloop.
  apply Hloop; [by constructor|lia|by right|]. rewrite walk_cost_from. simpl. lia.
Qed.

(** *** Backward *)

Context `{!DimensionLaws D S}.

(** The three outcomes of a move back over [B]. *)
Definition moved_back B R c' : Prop :=
  (∃ B1 x B2, B = B1 ++ x :: B2 ∧ accepts filter_node x = true ∧
    (∀ y, y ∈ B2 → accepts filter_node y = false) ∧ split_at t c' B1 (x :: B2 ++ R)) ∨
  ((∀ y, y ∈ B → accepts filter_node y = false) ∧ to_list t ≠ [] ∧ before_start c') ∨
  (to_list t = [] ∧ split_at t c' [] []).

Lemma backward_outcome_moved B R res :
  to_list t = B ++ R → SumTree.is_empty t = false → backward_outcome filter_node t B R res →
  ∃ c', ('(position, stack) ← res; Some (Cursor.mk t stack position true false)) = Some c' ∧
    moved_back B R c'.
Proof.
  destruct Ht as [Hok Hheight].
  intros Hlist Hne [(B1 & x & B2 & st & -> & Hx & HB2 & -> & Hpath & HB1 & HR)|(HB & ->)]; simpl;
    eexists; (split; [done|]).
  - left. exists B1, x, B2. split_and!; try done. unfold split_at. simpl. by rewrite Hlist, <-app_assoc.
  - right; left. split_and!; [done| |done]. intros Hnil%tree_ok_empty; [congruence|done].
Qed.

Lemma search_backward_end c :
  c = Cursor.new t ∨ split_at t c (to_list t) [] →
  ∃ c', Cursor.search_backward filter_node c = Some c' ∧ moved_back (to_list t) [] c'.
Proof.
  destruct Ht as [Hok Hheight]. intros Hc. unfold Cursor.search_backward.
  assert ((if Cursor.did_seek c then Cursor.at_end c else true) = true ∧ Cursor.stack c = [] ∧ Cursor.tree c = t)
    as (-> & -> & ->).
  { destruct Hc as [->|(? & _ & _ & -> & ? & ?)]; done. }
  destruct Hok as [Hnew|[h Hwf]].
  { rewrite Hnew. simpl. eexists. split; [done|]. right; right. by rewrite Hnew. }
  rewrite (wf_not_empty h) by done. simpl.
  edestruct (backward_outcome_moved (to_list t) []) as (c' & -> & Hc'); [by rewrite app_nil_r|by eapply wf_not_empty| |by exists c'].
  assert (Hwidth : length (Node.child_summaries t) = width t).
  { destruct h as [|h]; [apply wf_0_inv in Hwf as (? & -> & ?)|apply wf_S_inv in Hwf as (? & -> & _ & ?)];
      simpl; by rewrite length_map. }
  set (e := StackEntry.mk t (length (Node.child_summaries t)) _).
  pose proof (search_backward_loop_lin filter_node Hfilter t Hheight (walk_fuel [e]) false dim_zero h e []) as Hloop.
  simpl in Hloop. rewrite Hwidth, items_take_width, items_drop_width, app_nil_r in Hloop by done.
  apply Hloop; [by constructor|done|]. pose proof (cost_to_le (width t) t). lia.
Qed.

Lemma search_backward_prev c B R :
  split_at t c B R → ∃ c', Cursor.search_backward filter_node c = Some c' ∧ moved_back B R c'.
Proof.
  intros Hc. destruct R as [|y R].
  { assert (B = to_list t) as -> by (destruct Hc as (_ & -> & _); by rewrite app_nil_r).
    apply search_backward_end. by right. }
  destruct Ht as [Hok Hheight].
  destruct Hc as (Htree & Hlist & Hpos & Hseek & Hpath & HB & HR & Hend).
  destruct (Cursor.stack c) as [|e ps] eqn:Hstack; [done|]. destruct Hpath as [Ha Hi].
  unfold Cursor.search_backward. rewrite Hseek, Hend, Htree. simpl. rewrite Hstack.
  edestruct (backward_outcome_moved B (y :: R)) as (c' & -> & Hc'); [done| | |by exists c'].
  { destruct (SumTree.is_empty t) eqn:He; [|done]. apply tree_ok_empty in He; [|done].
    rewrite He in Hlist. by destruct B. }
  rewrite <-HR, <-HB. subst t. apply (search_backward_loop_lin filter_node Hfilter _ Hheight _ false _ 0); [done|simpl; lia|].
  simpl. pose proof (cost_to_le (StackEntry.index e) (StackEntry.tree e)).
  pose proof (cost_before_fuel ps). lia.
Qed.

Lemma search_backward_before_start c :
  before_start c → Cursor.search_backward filter_node c = Some c.
Proof. by intros [-> _]. Qed.
End search.

Lemma filter_sound_true : filter_sound (T:=T) (λ _ : S, true).
Proof. done. Qed.

Lemma lin_filter_true d (l : list T) : lin_filter (λ _, true) d l = ([], d, l).
Proof. by destruct l. Qed.

Lemma next_spec c B x R :
  split_at t c B (x :: R) → ∃ c', Cursor.next c = Some c' ∧ split_at t c' (B ++ [x]) R.
Proof.
  intros Hc. pose proof (search_forward_next _ filter_sound_true c B x R Hc) as Hnext.
  rewrite lin_filter_true, app_nil_r in Hnext. exact Hnext.
Qed.

Lemma next_first c :
  c = Cursor.new t ∨ before_start c → ∃ c', Cursor.next c = Some c' ∧ split_at t c' [] (to_list t).
Proof.
  intros Hc. pose proof (search_forward_first _ filter_sound_true c Hc) as Hnext.
  by rewrite lin_filter_true in Hnext.
Qed.

Context `{!DimensionLaws D S}.

Lemma prev_spec c B x R :
  split_at t c (B ++ [x]) R → ∃ c', Cursor.prev c = Some c' ∧ split_at t c' B (x :: R).
Proof.
  intros Hc. destruct (search_backward_prev _ filter_sound_true c (B ++ [x]) R Hc) as (c' & Hrun & Hmoved).
  exists c'. split; [done|].
  destruct Hmoved as [(B1 & y & B2 & Heq & _ & HB2 & Hsplit)|[(Hall & _)|(Hnil & _)]].
  - destruct B2 as [|z B2]; [|specialize (HB2 z ltac:(set_solver)); done].
    apply app_inj_tail in Heq as [-> ->]. done.
  - specialize (Hall x ltac:(set_solver)). done.
  - destruct Hc as (_ & Hlist & _). rewrite Hnil in Hlist. by destruct B.
Qed.

Lemma prev_first c R :
  split_at t c [] R → R ≠ [] → ∃ c', Cursor.prev c = Some c' ∧ before_start c'.
Proof.
  intros Hc HR. destruct (search_backward_prev _ filter_sound_true c [] R Hc) as (c' & Hrun & Hmoved).
  exists c'. split; [done|].
  destruct Hmoved as [(B1 & y & B2 & Heq & _)|[(_ & _ & ?)|(Hnil & _)]]; [by destruct B1|done|].
  destruct Hc as (_ & Hlist & _). rewrite Hnil in Hlist. by destruct R.
Qed.

Lemma before_start_item c : before_start c → Cursor.item c = Some None.
Proof. by intros [-> _]. Qed.

Lemma next_leaf_spec h u ps :
  ancestors (D:=D) t h u ps →
  (after ps = [] ∧ Cursor.next_leaf ps = Some None) ∨
  ∃ leaf items x l, Cursor.next_leaf ps = Some (Some leaf) ∧ Node.items leaf = Some (x :: items) ∧
    after ps = x :: l.
Proof.
  intros Ha. induction Ha as [|h p ps u hh s css cts Ha IH Heq Hc Hp]; [by left|].
  simpl. rewrite Heq. simpl. apply ancestors_wf in Ha as Hwf. rewrite Heq in Hwf.
  apply wf_S_inv in Hwf as (cts' & Heq' & Hcts & Hlen). simplify_eq.
  unfold checked_sub_nat. destruct (Nat.leb_spec 1 (length cts')); [|lia]. simpl.
  apply lookup_lt_Some in Hc as Hlt.
  destruct (Nat.ltb_spec (StackEntry.index p) (length cts' - 1)).
  - right. rewrite Nat.add_1_r.
    destruct (cts' !! Datatypes.S (StackEntry.index p)) as [c|] eqn:Hc'; [|apply lookup_ge_None in Hc'; lia].
    simpl. rewrite (drop_S _ _ _ Hc'). simpl.
    destruct (leftmost_leaf_spec h c) as (items & l & Hl & Hne & ->); [by eapply Forall_lookup_1|].
    simpl. destruct items as [|x items]; [done|]. eexists _, items, x, _. split_and!; [done|done|].
    by rewrite Hl.
  - rewrite drop_ge by lia. apply IH.
Qed.

Lemma next_item_spec c B x R : split_at t c B (x :: R) → Cursor.next_item c = Some (head R).
Proof.
  intros (_ & Hlist & Hpos & Hseek & Hpath & HB & HR & Hend).
  unfold Cursor.next_item, Cursor.assert_did_seek. rewrite Hseek. simpl.
  destruct (Cursor.stack c) as [|e ps]; [done|]. destruct Hpath as [Ha Hi].
  destruct (rest_leaf _ _ _ Ha Hi) as (s & items & y & Heq & Hy & Hrest). rewrite HR in Hrest.
  simpl in Hrest. rewrite Heq in *. simpl in *. simplify_eq.
  unfold checked_sub_nat. destruct (Nat.leb_spec 1 (length items)); [|lia]. simpl.
  destruct (Nat.eqb_spec (StackEntry.index e) (length items - 1)).
  - rewrite drop_ge by lia. simpl.
    destruct (next_leaf_spec _ _ _ Ha) as [[-> ->]|(leaf & its & z & l & -> & Hits & ->)]; [done|].
    simpl. by rewrite Hits.
  - destruct (items !! Datatypes.S (StackEntry.index e)) as [z|] eqn:Hz; [|apply lookup_ge_None in Hz; lia].
    rewrite Nat.add_1_r, Hz, (drop_S _ _ _ Hz). done.
Qed.

Lemma prev_leaf_spec h u ps :
  ancestors (D:=D) t h u ps →
  (before ps = [] ∧ Cursor.prev_leaf ps = Some None) ∨
  ∃ leaf items x l, Cursor.prev_leaf ps = Some (Some leaf) ∧ Node.items leaf = Some (items ++ [x]) ∧
    before ps = l ++ [x].
Proof.
  intros Ha. induction Ha as [|h p ps u hh s css cts Ha IH Heq Hc Hp]; [by left|].
  simpl. destruct (Nat.eqb_spec (StackEntry.index p) 0) as [Hz|Hz]; simpl.
  { rewrite Hz, items_take_0, app_nil_r. apply IH. }
  right. rewrite Heq. simpl. apply ancestors_wf in Ha as Hwf. rewrite Heq in Hwf.
  apply wf_S_inv in Hwf as (cts' & Heq' & Hcts & Hlen). simplify_eq.
  apply lookup_lt_Some in Hc as Hlt.
  destruct (StackEntry.index p) as [|i]; [done|]. simpl. rewrite Nat.sub_0_r.
  destruct (cts' !! i) as [c|] eqn:Hc'; [|apply lookup_ge_None in Hc'; lia]. simpl.
  rewrite (take_S_r _ _ _ Hc'), concat_map_app. simpl. rewrite app_nil_r.
  destruct (rightmost_leaf_spec h c) as (l & items & Hl & Hne & ->); [by eapply Forall_lookup_1|].
  simpl. destruct items as [|x items _] using rev_ind; [done|].
  eexists _, items, x, _. split_and!; [done|done|]. by rewrite Hl, !app_assoc.
Qed.

Lemma prev_item_spec c B R : split_at t c B R → Cursor.prev_item c = Some (last B).
Proof.
  destruct Ht as [Hok _].
  intros (Htree & Hlist & Hpos & Hseek & Hst).
  unfold Cursor.prev_item, Cursor.assert_did_seek. rewrite Hseek. simpl.
  destruct R as [|x R].
  { destruct Hst as [-> ->]. rewrite Htree, last_spec, Hlist by done. by rewrite app_nil_r. }
  destruct Hst as (Hpath & HB & HR & Hend).
  destruct (Cursor.stack c) as [|e ps]; [done|]. destruct Hpath as [Ha Hi].
  destruct (rest_leaf _ _ _ Ha Hi) as (s & items & y & Heq & Hy & _). simpl in HB. rewrite Heq in *. simpl in *.
  subst B. destruct (Nat.eqb_spec (StackEntry.index e) 0) as [Hz|Hz].
  - rewrite Hz, take_0, app_nil_r.
    destruct (prev_leaf_spec _ _ _ Ha) as [[-> ->]|(leaf & its & z & l & -> & Hits & ->)]; [done|].
    simpl. rewrite Hits. simpl. by rewrite !last_snoc.
  - destruct (StackEntry.index e) as [|i]; [done|]. simpl. rewrite Nat.sub_0_r.
    destruct (items !! i) as [z|] eqn:Hz'; [|apply lookup_ge_None in Hz'; lia]. simpl.
    by rewrite (take_S_r _ _ _ Hz'), app_assoc, last_snoc.
Qed.
End moves.

(** ** Iterating to the end *)

(** The items a [for] loop over an iterator sees within [fuel] calls. *)
Fixpoint drain {C T} (next : C → option (option T * C)) (fuel : nat) (c : C) : option (list T) :=
  match fuel with
  | 0 => None
  | Datatypes.S fuel =>
      '(item, c) ← next c;
      match item with
      | Some item => items ← drain next fuel c; Some (item :: items)
      | None => Some []
      end
  end.

Section iterators.
Context {T S D : Type} `{SummaryLaws S, !Item T S, !Dimension D S, !DimensionLaws D S}.
Context (t : SumTree T S) (Ht : searchable t).

Lemma cursor_iter_next (c : Cursor.t T S D) B x R :
  split_at t c B (x :: R) → ∃ c', Cursor.iter_next c = Some (Some x, c') ∧ split_at t c' (B ++ [x]) R.
Proof.
  intros Hc. destruct (next_spec t Ht c B x R Hc) as (c' & Hnext & Hc'). exists c'. split; [|done].
  unfold Cursor.iter_next. destruct (Hc) as (_ & _ & _ & -> & _). simpl.
  rewrite (split_at_item _ _ _ _ Hc). simpl. by rewrite Hnext.
Qed.

Lemma cursor_iter_next_end (c : Cursor.t T S D) B :
  split_at t c B [] → Cursor.iter_next c = Some (None, c).
Proof.
  intros Hc. unfold Cursor.iter_next. destruct (Hc) as (_ & _ & _ & -> & _). simpl.
  by rewrite (split_at_item _ _ _ _ Hc).
Qed.

Lemma cursor_drain_split fuel (c : Cursor.t T S D) B R :
  split_at t c B R → length R < fuel → drain Cursor.iter_next fuel c = Some R.
Proof.
  revert c B R. induction fuel as [|fuel IH]; intros c B R Hc Hlen; [lia|]. simpl.
  destruct R as [|x R]; [by rewrite (cursor_iter_next_end _ _ Hc)|].
  destruct (cursor_iter_next _ _ _ _ Hc) as (c' & -> & Hc'). simpl in *.
  by rewrite (IH c' _ R Hc') by lia.
Qed.

Lemma cursor_drain fuel :
  length (to_list t) < fuel → drain Cursor.iter_next fuel (Cursor.new t : Cursor.t T S D) = Some (to_list t).
Proof.
  intros Hlen. destruct (next_first t Ht (D:=D) (Cursor.new t)) as (c & Hnext & Hc); [by left|].
  rewrite <-(cursor_drain_split fuel c [] (to_list t) Hc Hlen).
  destruct fuel as [|fuel]; [done|]. simpl.
  replace (Cursor.iter_next (Cursor.new t)) with (Cursor.iter_next c); [done|].
  unfold Cursor.iter_next. simpl. rewrite Hnext. simpl. by destruct (Hc) as (_ & _ & _ & -> & _).
Qed.

Section filtered.
Context (filter_node : S → bool) (Hfilter : filter_sound (T:=T) filter_node).

Lemma lin_filter_filter d (l b r : list T) p :
  lin_filter filter_node d l = (b, p, r) → filter (accepts filter_node) l = filter (accepts filter_node) r.
Proof.
  intros (-> & _ & Hb & _)%lin_filter_split. rewrite filter_app.
  replace (filter (accepts filter_node) b) with (@nil T); [done|].
  induction b as [|x b IH]; [done|]. rewrite filter_cons_False; [apply IH; set_solver|].
  rewrite (Hb x) by set_solver. tauto.
Qed.

Lemma filter_iter_next (c : Cursor.t T S D) B x R b p r :
  split_at t c B (x :: R) → lin_filter filter_node (pos_after dim_zero (B ++ [x])) R = (b, p, r) →
  ∃ c', FilterCursor.iter_next (FilterCursor.mk c filter_node) = Some (Some x, FilterCursor.mk c' filter_node) ∧
    split_at t c' ((B ++ [x]) ++ b) r.
Proof.
  intros Hc Hlin.
  pose proof (search_forward_next t Ht filter_node Hfilter c B x R Hc) as Hnext. rewrite Hlin in Hnext.
  destruct Hnext as (c' & Hnext & Hc'). exists c'. split; [|done].
  unfold FilterCursor.iter_next. simpl. destruct (Hc) as (_ & _ & _ & -> & _). simpl.
  unfold FilterCursor.item. simpl. rewrite (split_at_item _ _ _ _ Hc). simpl.
  unfold FilterCursor.next. simpl. by rewrite Hnext.
Qed.

Lemma filter_iter_next_end (c : Cursor.t T S D) B :
  split_at t c B [] →
  FilterCursor.iter_next (FilterCursor.mk c filter_node) = Some (None, FilterCursor.mk c filter_node).
Proof.
  intros Hc. unfold FilterCursor.iter_next. simpl. destruct (Hc) as (_ & _ & _ & -> & _). simpl.
  unfold FilterCursor.item. simpl. by rewrite (split_at_item _ _ _ _ Hc).
Qed.

Lemma filter_drain_split fuel (c : Cursor.t T S D) B R :
  split_at t c B R → match R with x :: _ => accepts filter_node x = true | [] => True end →
  length R < fuel →
  drain FilterCursor.iter_next fuel (FilterCursor.mk c filter_node) = Some (filter (accepts filter_node) R).
Proof.
  revert c B R. induction fuel as [|fuel IH]; intros c B R Hc Hhead Hlen; [lia|]. simpl.
  destruct R as [|x R]; [by rewrite (filter_iter_next_end _ _ Hc)|].
  destruct (lin_filter filter_node (pos_after dim_zero (B ++ [x])) R) as [[b p] r] eqn:Hlin.
  destruct (filter_iter_next _ _ _ _ _ _ _ Hc Hlin) as (c' & -> & Hc'). simpl.
  apply lin_filter_split in Hlin as Hsplit. destruct Hsplit as (HR & _ & _ & Hr).
  rewrite (IH c' _ r Hc' Hr); [|rewrite HR in Hlen; simpl in *; rewrite length_app in *; lia]. simpl.
  rewrite filter_cons_True by by rewrite Hhead. by rewrite (lin_filter_filter _ _ _ _ _ Hlin).
Qed.

Lemma filter_cursor_drain fuel :
  length (to_list t) < fuel →
  drain FilterCursor.iter_next fuel (FilterCursor.new t filter_node : FilterCursor.t T S D) =
    Some (filter (accepts filter_node) (to_list t)).
Proof.
  intros Hlen.
  pose proof (search_forward_first t Ht (D:=D) filter_node Hfilter (Cursor.new t) ltac:(by left)) as Hnext.
  destruct (lin_filter _ _ _) as [[b p] r] eqn:Hlin. destruct Hnext as (c & Hnext & Hc).
  apply lin_filter_split in Hlin as Hsplit. destruct Hsplit as (HR & _ & _ & Hr).
  rewrite (lin_filter_filter _ _ _ _ _ Hlin).
  rewrite <-(filter_drain_split fuel c b r Hc Hr) by (rewrite HR, length_app in Hlen; lia).
  destruct fuel as [|fuel]; [done|]. simpl.
  replace (FilterCursor.iter_next (FilterCursor.new t filter_node))
    with (FilterCursor.iter_next (FilterCursor.mk c filter_node)); [done|].
  assert (FilterCursor.next (FilterCursor.new t filter_node) = Some (FilterCursor.mk c filter_node)) as Hfirst.
  { unfold FilterCursor.next. simpl. by rewrite Hnext. }
  unfold FilterCursor.iter_next. rewrite Hfirst. simpl. by destruct (Hc) as (_ & _ & _ & -> & _).
Qed.
End filtered.
End iterators.

Section iter.
Context {T S : Type} `{SummaryLaws S, !Item T S}.
Context (root : SumTree T S) (Hroot : Node.height root < STACK_CAPACITY).
Implicit Types (e : StackEntry T S unit) (ps st : list (StackEntry T S unit)).

Definition iter_outcome (B L : list T) (res : option (option T * list (StackEntry T S unit))) : Prop :=
  match L with
  | [] => res = Some (None, [])
  | x :: _ => ∃ st, res = Some (Some x, st) ∧ leaf_path root st ∧ before st = B ∧ rest st = L
  end.

Lemma iter_next_loop_lin fuel (descend : bool) h e ps :
  let i := if descend then StackEntry.index e else StackEntry.index e + 1 in
  ancestors root h (StackEntry.tree e) ps →
  i <= width (StackEntry.tree e) →
  cost_from i (StackEntry.tree e) + cost_after ps <= fuel →
  iter_outcome (before ps ++ items_take i (StackEntry.tree e)) (items_drop i (StackEntry.tree e) ++ after ps)
    (Iter.next_loop fuel descend (e :: ps)).
Proof.
  revert descend h e ps. induction fuel as [|fuel IH]; intros descend h e ps i Ha Hi Hfuel.
  { pose proof (cost_from_pos i (StackEntry.tree e)). lia. }
  simpl. fold i.
  assert (Hpop : width (StackEntry.tree e) <= i →
    iter_outcome (before ps ++ items_take i (StackEntry.tree e)) (items_drop i (StackEntry.tree e) ++ after ps)
      (Iter.next_loop fuel false ps)).
  { intros Hwidth. rewrite items_take_width, items_drop_width by done. simpl.
    inversion Ha as [h' Hwf|h' p ps' t hh s css cts Ha' Heq Hc Hp]; subst; [by destruct fuel|].
    pose proof (IH false (Datatypes.S h) p ps' Ha') as IH'. simpl in IH'. rewrite Nat.add_1_r in IH'.
    simpl. rewrite <-app_assoc.
    replace (items_take (StackEntry.index p) (StackEntry.tree p) ++ to_list (StackEntry.tree e))
      with (items_take (Datatypes.S (StackEntry.index p)) (StackEntry.tree p)).
    2:{ rewrite Heq. simpl. by rewrite (take_S_r _ _ _ Hc), concat_map_app; simpl; rewrite app_nil_r. }
    apply IH'.
    - rewrite Heq. simpl. by apply lookup_lt_Some in Hc.
    - pose proof (cost_from_pos i (StackEntry.tree e)). simpl in Hfuel. lia. }
  apply ancestors_wf in Ha as Hwf. destruct h as [|h].
  - apply wf_0_inv in Hwf as (items & Heq & Hlen). rewrite Heq in *. simpl in *.
    destruct (items !! i) as [x|] eqn:Hx; [|by apply Hpop, lookup_ge_None].
    rewrite (drop_S _ _ _ Hx). simpl. eexists. split; [done|]. simpl. split_and!; [done| |done|].
    + by apply lookup_lt_Some in Hx.
    + by rewrite (drop_S _ _ _ Hx).
  - apply wf_S_inv in Hwf as (cts & Heq & Hcts & Hlen). rewrite Heq in *. simpl in *.
    destruct (cts !! i) as [c|] eqn:Hc; [|by apply Hpop, lookup_ge_None].
    set (top := StackEntry.mk _ i tt).
    assert (Hchild : ancestors root h c (top :: ps)) by (econstructor; [done..|]; by destruct (pos_after _ _)).
    rewrite (stack_push_ok root h c) by done. simpl.
    rewrite (drop_S _ _ _ Hc). simpl. rewrite <-app_assoc.
    pose proof (IH true h (StackEntry.mk c 0 tt) (top :: ps)) as IH'. simpl in IH'.
    rewrite items_take_0, items_drop_0, app_nil_r in IH'. apply IH'; [done|lia|].
    pose proof (cost_from_child (Datatypes.S h) (items_sum (concat (map to_list cts)))
      (map Node.summary cts) cts i i c Hc ltac:(lia)) as Hcost.
    simpl in Hcost. rewrite <-walk_cost_from. lia.
Qed.

(** The iterator has yielded [B], the last of them just now. *)
Definition iter_at (it : Iter.t T S) (B R : list T) : Prop :=
  Iter.tree it = root ∧ to_list root = B ++ R ∧
  match B with
  | [] => it = Iter.new root
  | _ => leaf_path root (Iter.stack it) ∧ ∃ B' x, B = B' ++ [x] ∧ before (Iter.stack it) = B' ∧ rest (Iter.stack it) = x :: R
  end.

Lemma iter_outcome_next B R res :
  iter_outcome B R res → to_list root = B ++ R →
  ∃ it', ('(item, stack) ← res; Some (item, Iter.mk root stack)) = Some (head R, it') ∧
    match R with x :: R => iter_at it' (B ++ [x]) R | [] => True end.
Proof.
  intros Hout Hlist. destruct R as [|x R]; simpl in *; [subst; eauto|].
  destruct Hout as (st & -> & Hpath & HB & HR). simpl. eexists. split; [done|].
  unfold iter_at. simpl. rewrite Hlist, <-app_assoc. split_and!; [done..|].
  destruct (B ++ [x]) eqn:HBx; [by destruct B|]. split; [done|]. by exists B, x.
Qed.

Lemma iter_next_spec it B R :
  tree_ok root → iter_at it B R →
  ∃ it', Iter.next it = Some (head R, it') ∧
    match R with x :: R => iter_at it' (B ++ [x]) R | [] => True end.
Proof.
  intros Hok (Htree & Hlist & Hst). unfold Iter.next. destruct B as [|y B].
  - subst it. simpl in *. apply (iter_outcome_next []); [|done]. destruct Hok as [->|[h Hwf]].
    { simpl in Hlist. by subst R. }
    pose proof (iter_next_loop_lin (walk_fuel [StackEntry.mk root 0 tt]) true h (StackEntry.mk root 0 tt) []) as Hloop.
    simpl in Hloop. rewrite items_take_0, items_drop_0, app_nil_r, Hlist in Hloop.
    apply Hloop; [by constructor|lia|]. rewrite walk_cost_from. simpl. lia.
  - destruct Hst as (Hpath & B' & x & HBx & HB & HR). rewrite HBx in *. clear HBx y B.
    destruct (Iter.stack it) as [|e ps]; [done|]. destruct Hpath as [Ha Hi].
    cbn [mbind option_bind]. rewrite Htree. apply iter_outcome_next; [|done].
    destruct (rest_leaf _ _ _ Ha Hi) as (s & items & z & Heq & Hz & Hrest). rewrite HR in Hrest.
    injection Hrest as <- HR'.
    pose proof (iter_next_loop_lin (walk_fuel (e :: ps)) false 0 e ps Ha) as Hloop. cbn zeta in Hloop.
    rewrite Nat.add_1_r in Hloop. simpl in HB, HR'. rewrite <-HR' in Hloop.
    replace (before ps ++ items_take (Datatypes.S (StackEntry.index e)) (StackEntry.tree e)) with (B' ++ [x]) in Hloop.
    2:{ rewrite <-HB, Heq. simpl. by rewrite (take_S_r _ _ _ Hz), app_assoc. }
    apply Hloop; [lia|]. simpl.
    pose proof (cost_from_le (Datatypes.S (StackEntry.index e)) (StackEntry.tree e)).
    pose proof (cost_after_fuel ps). lia.
Qed.

Lemma iter_drain_at fuel it B R :
  tree_ok root → iter_at it B R → length R < fuel → drain Iter.next fuel it = Some R.
Proof.
  intros Hok. revert it B R. induction fuel as [|fuel IH]; intros it B R Hit Hlen; [lia|]. simpl.
  destruct (iter_next_spec it B R Hok Hit) as (it' & -> & Hit'). simpl.
  destruct R as [|x R]; [done|]. simpl in *. by rewrite (IH it' _ R Hit') by lia.
Qed.

Lemma iter_drain fuel :
  tree_ok root → length (to_list root) < fuel → drain Iter.next fuel (Iter.new root) = Some (to_list root).
Proof. intros Hok Hlen. by apply (iter_drain_at _ _ []). Qed.
End iter.

(** ** Properties *)

(** A cursor walks the sequence in both directions: between the items
    [B ++ [x]] and [y :: R] its item is [y], [prev_item] is [x], [next_item] is
    the head of [R], [next] moves it behind [y] and [prev] back before [x]. *)
Theorem cursor_walk {T S D} `{SummaryLaws S, !Item T S, !Dimension D S, !DimensionLaws D S}
    (t : SumTree T S) (c : Cursor.t T S D) (B R : list T) (x y : T)
    (Ht : searchable t) (Hc : split_at t c (B ++ [x]) (y :: R)) :
  Cursor.item c = Some (Some y) ∧ Cursor.prev_item c = Some (Some x) ∧ Cursor.next_item c = Some (head R) ∧
  Cursor.start c = pos_after dim_zero (B ++ [x]) ∧ Cursor.end_ c = Some (pos_after dim_zero (B ++ [x; y])) ∧
  (∃ c', Cursor.next c = Some c' ∧ split_at t c' (B ++ [x; y]) R) ∧
  (∃ c', Cursor.prev c = Some c' ∧ split_at t c' B (x :: y :: R)).
Proof.
  rewrite (split_at_item _ _ _ _ Hc), (split_at_start _ _ _ _ Hc), (split_at_end _ _ _ _ Hc),
    (prev_item_spec t Ht _ _ _ Hc), (next_item_spec t _ _ _ _ Hc), last_snoc. simpl.
  destruct (next_spec t Ht _ _ _ _ Hc) as (c1 & Hnext & Hc1).
  destruct (prev_spec t Ht _ _ _ _ Hc) as (c2 & Hprev & Hc2).
  rewrite <-app_assoc in *. split_and!; eauto.
Qed.

(** [FilterCursor] yields the items that pass its filter, in order, and
    ends; the filter is evaluated on the summaries of whole subtrees, so it
    must accept a subtree that holds an accepted item. *)
Theorem filter_cursor_filters {T S D} `{SummaryLaws S, !Item T S, !Dimension D S, !DimensionLaws D S}
    (t : SumTree T S) (filter_node : S → bool) (fuel : nat)
    (Ht : searchable t) (Hf : filter_sound (T:=T) filter_node) (Hfuel : length (to_list t) < fuel) :
  drain FilterCursor.iter_next fuel (FilterCursor.new t filter_node : FilterCursor.t T S D) =
    Some (filter (λ x, filter_node (item_summary x)) (to_list t)).
Proof. by apply filter_cursor_drain. Qed.

(** Both iterators, [Iter] and the one over a [Cursor], yield exactly the
    items of the tree in order and then end. *)
Theorem iterators_yield_items {T S D} `{SummaryLaws S, !Item T S, !Dimension D S, !DimensionLaws D S}
    (t : SumTree T S) (fuel : nat) (Ht : searchable t) (Hfuel : length (to_list t) < fuel) :
  drain Iter.next fuel (Iter.new t) = Some (to_list t) ∧
  drain Cursor.iter_next fuel (Cursor.new t : Cursor.t T S D) = Some (to_list t).
Proof. split; [by destruct Ht; apply iter_drain|by apply cursor_drain]. Qed.

Import NatItems.

Lemma cursor_walk_witness :
  ∃ c : Cursor.t nat nat nat, split_at (tree 13) c [1; 2] (seq 3 11) ∧
    Cursor.item c = Some (Some 3) ∧ Cursor.prev_item c = Some (Some 2) ∧ Cursor.next_item c = Some (Some 4) ∧
    Cursor.start c = 3 ∧ Cursor.end_ c = Some 6 ∧
    (∃ c', Cursor.next c = Some c' ∧ split_at (tree 13) c' [1; 2; 3] (seq 4 10)) ∧
    (∃ c', Cursor.prev c = Some c' ∧ split_at (tree 13) c' [1] (seq 2 12)).
Proof.
  destruct (seek_spec (tree 13) (seek_ord 4) Left (Cursor.new (tree 13)) tree_13_searchable eq_refl
    (nat_monotone 4 0 (to_list (tree 13))) ltac:(discriminate)) as (c & _ & Hc).
  exists c. split; [exact Hc|]. exact (cursor_walk (tree 13) c [1] (seq 4 10) 2 3 tree_13_searchable Hc).
Defined.

(** Items of at least 10. *)
Lemma filter_cursor_filters_witness :
  drain FilterCursor.iter_next 14 (FilterCursor.new (tree 13) (Nat.leb 10) : FilterCursor.t nat nat unit) =
    Some [10; 11; 12; 13].
Proof.
  rewrite (filter_cursor_filters (D:=unit) (tree 13) (Nat.leb 10) 14 tree_13_searchable).
  - vm_compute. reflexivity.
  - intros l x Hin Hx. apply Nat.leb_le in Hx. apply Nat.leb_le. change (10 <= x) in Hx.
    unfold items_sum, sum. rewrite map_id. etrans; [exact Hx|]. clear Hx. simpl.
    assert (Hmono : ∀ l a, a <= foldl Nat.add a l).
    { clear. induction l as [|y l IH]; intros a; simpl; [done|]. etrans; [|apply IH]. lia. }
    generalize 0 at 1. induction l as [|y l IH]; intros a; [set_solver|]. simpl.
    apply elem_of_cons in Hin as [->|Hin]; [|by apply IH]. etrans; [|apply Hmono]. lia.
  - vm_compute. lia.
Defined.

Lemma iterators_yield_items_witness :
  drain Iter.next 14 (Iter.new (tree 13)) = Some (seq 1 13) ∧
  drain Cursor.iter_next 14 (Cursor.new (tree 13) : Cursor.t nat nat nat) = Some (seq 1 13).
Proof. apply (iterators_yield_items (tree 13) 14 tree_13_searchable). vm_compute. lia. Defined.

Section paths.
Context {T S D D' A : Type} `{Summary S, !Item T S, !Dimension D S, !Dimension D' S}.
Context (aggregate : SeekAggregate A T S).
Implicit Types (acc : A).

(** The same path, but for the positions. *)
Definition same_entry (e : StackEntry T S D) (e' : StackEntry T S D') : Prop := StackEntry.tree e = StackEntry.tree e' ∧ StackEntry.index e = StackEntry.index e'.
Definition same_path (st : list (StackEntry T S D)) (st' : list (StackEntry T S D')) : Prop := Forall2 same_entry st st'.

(** What a scan of a node, and a walk, come back with. *)
Definition same_scan {C} (r : D * StackEntry T S D * A * C) (r' : D' * StackEntry T S D' * A * C) : Prop :=
  same_entry r.1.1.2 r'.1.1.2 ∧ r.1.2 = r'.1.2 ∧ r.2 = r'.2.
Definition same_walk (r : D * list (StackEntry T S D) * A) (r' : D' * list (StackEntry T S D') * A) : Prop :=
  same_path r.1.2 r'.1.2 ∧ r.2 = r'.2.

Lemma seek_children_same (d : D) (d' : D') e e' acc children : same_entry e e' →
  option_Forall2 same_scan (Cursor.seek_children aggregate End Right d e acc children)
    (Cursor.seek_children aggregate End Right d' e' acc children).
Proof.
  revert d d' e e' acc. induction children as [|[c s] children IH]; intros d d' e e' acc [Ht Hi]; simpl; [by constructor|].
  destruct (push_tree aggregate acc c s); simpl; [|constructor]. apply IH. split; [done|]. simpl. by rewrite Hi.
Qed.

Lemma seek_items_same (d : D) (d' : D') e e' acc items : same_entry e e' →
  option_Forall2 same_scan (Cursor.seek_items aggregate End Right d e acc items)
    (Cursor.seek_items aggregate End Right d' e' acc items).
Proof.
  revert d d' e e' acc. induction items as [|[x s] items IH]; intros d d' e e' acc [Ht Hi]; simpl; [by constructor|].
  destruct (push_item aggregate acc x s); simpl; [|constructor]. apply IH. split; [done|]. simpl. by rewrite Hi.
Qed.

Lemma stack_push_same e e' st st' : same_entry e e' → same_path st st' →
  option_Forall2 same_path (stack_push e st) (stack_push e' st').
Proof.
  intros He Hst. unfold stack_push. rewrite (Forall2_length _ _ _ Hst). destruct (rassert _); simpl; constructor.
  by constructor.
Qed.

Lemma seek_loop_same fuel ascending (d : D) (d' : D') st st' acc : same_path st st' →
  option_Forall2 same_walk (Cursor.seek_loop aggregate End Right fuel ascending d st acc)
    (Cursor.seek_loop aggregate End Right fuel ascending d' st' acc).
Proof.
  revert ascending d d' st st' acc. induction fuel as [|fuel IH]; intros ascending d d' st st' acc Hst;
    (destruct Hst as [|e e' st st' [Ht Hi] Hst]; [by repeat constructor|]); [constructor|].
  cbn [Cursor.seek_loop]. rewrite Ht. destruct (StackEntry.tree e') as [h s css cts|s items sums] eqn:Htree.
  - set (f := if ascending then _ else e). set (f' := if ascending then _ else e').
    assert (same_entry f f') as [Hf Hfi] by (subst f f'; destruct ascending; split; simpl; congruence).
    rewrite Hfi. destruct (slice_from cts _) as [trees|]; [|constructor]. cbn [mbind option_bind].
    destruct (slice_from css _) as [summaries|]; [|constructor]. cbn [mbind option_bind].
    destruct (seek_children_same d d' f f' acc (zip trees summaries) (conj Hf Hfi)) as [[[[d1 e1] acc1] c1] [[[d2 e2] acc2] c2] (He & Hacc & Hc)|];
      [|constructor]. simpl in He, Hacc, Hc. subst acc2 c2. cbn [mbind option_bind].
    destruct c1 as [c|]; [|by apply IH].
    destruct (stack_push_same (StackEntry.mk c 0 d1) (StackEntry.mk c 0 d2) (e1 :: st) (e2 :: st')) as [? ? Hpush|];
      [done|by constructor| |constructor]. cbn [mbind option_bind]. by apply IH.
  - rewrite Hi. destruct (slice_from items _) as [its|]; [|constructor]. cbn [mbind option_bind].
    destruct (slice_from sums _) as [summaries|]; [|constructor]. cbn [mbind option_bind].
    destruct (seek_items_same d d' e e' (begin_leaf aggregate acc) (zip its summaries) (conj (eq_trans Ht (eq_sym Htree)) Hi))
      as [[[[d1 e1] acc1] c1] [[[d2 e2] acc2] c2] (He & Hacc & Hc)|]; [|constructor].
    simpl in He, Hacc, Hc. subst acc2 c2. cbn [mbind option_bind].
    destruct (end_leaf aggregate acc1); [|constructor]. cbn [mbind option_bind].
    destruct c1; [|by apply IH]. constructor. split; [by constructor|done].
Qed.
End paths.

(** ** The cursor without its dimension *)

Section suffix.
Context {T S D : Type} `{SummaryLaws S, !Item T S, !Dimension D S}.
Implicit Types (t : SumTree T S) (c : Cursor.t T S D) (st : list (StackEntry T S D)).

Definition bare_entry (e : StackEntry T S D) : StackEntry T S unit := StackEntry.mk (StackEntry.tree e) (StackEntry.index e) tt.
Definition bare c : Cursor.t T S unit :=
  Cursor.mk (Cursor.tree c) (map bare_entry (Cursor.stack c)) tt (Cursor.did_seek c) (Cursor.at_end c).

Lemma bare_before st : before (map bare_entry st) = before st.
Proof. induction st as [|e st IH]; simpl; [done|by rewrite IH]. Qed.

Lemma bare_after st : after (map bare_entry st) = after st.
Proof. induction st as [|e st IH]; simpl; [done|by rewrite IH]. Qed.

Lemma bare_rest st : rest (map bare_entry st) = rest st.
Proof. destruct st as [|e st]; simpl; [done|by rewrite bare_after]. Qed.

Lemma unit_eq (x y : unit) : x = y.
Proof. by destruct x, y. Qed.

Lemma bare_ancestors root h t st : ancestors root h t st → ancestors root h t (map bare_entry st).
Proof. induction 1; simpl; [by constructor|]. econstructor; [done..|]. apply unit_eq. Qed.

Lemma bare_split t c B R : split_at t c B R → split_at t (bare c) B R.
Proof.
  intros (Htree & Hlist & Hpos & Hseek & Hst). split_and!; [done|done|apply unit_eq|done|].
  destruct R as [|x R]; [by destruct Hst as [Hst ?]; simpl; rewrite Hst|]. destruct Hst as (Hpath & HB & HR & Hend). simpl.
  rewrite bare_before, bare_rest. split_and!; [|done..]. destruct (Cursor.stack c) as [|e st]; [done|].
  destruct Hpath. split; [by apply bare_ancestors|done].
Qed.

Lemma bare_fuel st : walk_fuel (map bare_entry st) = walk_fuel st.
Proof. induction st as [|e st IH]; [done|]. unfold walk_fuel in *. simpl. by rewrite IH. Qed.

Lemma bare_same st : same_path st (map bare_entry st).
Proof. induction st; simpl; constructor; [by split|done]. Qed.

(** [suffix] makes a tree of all the items that are left. *)
Lemma suffix_any t c B R : searchable t → split_at t c B R →
  ∃ t' c', Cursor.suffix c = Some (t', c') ∧ tree_ok t' ∧ to_list t' = R.
Proof.
  intros Ht Hc. pose proof (bare_split _ _ _ _ Hc) as Hbare. pose proof Hc as (_ & _ & _ & Hseek & _).
  set (init := SliceSeekAggregate.mk SumTree.new [] [] zero : SliceSeekAggregate.t T S).
  pose proof (seek_loop_ready t SliceSeekAggregate.slice_aggregate _ _ End Right (exact:=true) (bare c) B R
    (Cursor.stack (bare c)) init [] Ht (ready_split _ _ _ _ Hbare) (monotone_End _ _)) as Hout.
  specialize (Hout ltac:(split_and!; (done || by left)) ltac:(cbn [bare Cursor.did_seek]; by rewrite Hseek)).
  unfold seek_outcome in Hout. rewrite lin_seek_End in Hout. destruct Hout as (st' & acc & Hrun & (Hlow & Hlist & _) & ->).
  cbn [bare Cursor.stack] in Hrun. rewrite bare_fuel in Hrun.
  pose proof (seek_loop_same SliceSeekAggregate.slice_aggregate (walk_fuel (Cursor.stack c)) false (Cursor.position c)
    (Cursor.position (bare c)) _ _ init (bare_same (Cursor.stack c))) as Hsame.
  rewrite Hrun in Hsame. inversion Hsame as [[[d st] acc'] ? [Hst Hacc] Hwalk|]; subst. simpl in Hst, Hacc. inversion Hst; subst.
  unfold Cursor.suffix, Cursor.slice, Cursor.seek_internal. fold init. cbn [is_ge End rassert mbind option_bind].
  rewrite Hseek. cbn [mbind option_bind]. rewrite <-Hwalk. cbn [mbind option_bind Cursor.is_leaf_or_none rassert].
  eexists _, _. split; [done|]. split; [by eapply low_tree_ok|done].
Qed.
End suffix.
