(* ===== verification/Keyed.v ===== *)
(** * Trees ordered by a key ([impl<T: KeyedItem> SumTree<T>])

    A tree whose items carry a strictly increasing key is an ordered map.  The
    operations go through a cursor: the items below the key are sliced off, the
    edit is made, the suffix is appended.  Their specification is on sorted
    lists. *)

From S2P Require Import Prelude SumTree SumTreeFacts Seek Cursor CursorFacts CursorWalk.

(** [trait KeyedItem] *)
Class KeyedItem (T K : Type) := key : T → K.

(** [enum Edit] *)
Inductive Edit (T K : Type) : Type :=
  | Insert (item : T)
  | Remove (k : K).
Arguments Insert {T K}.
Arguments Remove {T K}.

(** ** Operations *)

Module Keyed.
Section keyed.
Context {T S K : Type} `{Summary S, Item T S, Dimension K S, Ord K, KeyedItem T K}.
Implicit Types self : SumTree T S.

Definition insert_or_replace self (item : T) : option (option T * SumTree T S) :=
  let cursor : Cursor.t T S K := Cursor.new self in
  '(new_tree, cursor) ← Cursor.slice (seek_ord (key item)) Left cursor;
  cursor_item ← Cursor.item cursor;
  '(replaced, cursor) ←
    match cursor_item with
    | Some cursor_item =>
        if is_eq (cmp (key cursor_item) (key item))
        then cursor ← Cursor.next cursor; Some (Some cursor_item, cursor)
        else Some (None, cursor)
    | None => Some (None, cursor)
    end;
  new_tree ← SumTree.push new_tree item;
  '(suffix, _) ← Cursor.suffix cursor;
  new_tree ← SumTree.append new_tree suffix;
  Some (replaced, new_tree).

Definition remove self (k : K) : option (option T * SumTree T S) :=
  let cursor : Cursor.t T S K := Cursor.new self in
  '(new_tree, cursor) ← Cursor.slice (seek_ord k) Left cursor;
  cursor_item ← Cursor.item cursor;
  '(removed, cursor) ←
    match cursor_item with
    | Some item =>
        if is_eq (cmp (key item) k)
        then cursor ← Cursor.next cursor; Some (Some item, cursor)
        else Some (None, cursor)
    | None => Some (None, cursor)
    end;
  '(suffix, _) ← Cursor.suffix cursor;
  new_tree ← SumTree.append new_tree suffix;
  Some (removed, new_tree).

(** [Edit::key] *)
Definition edit_key (e : Edit T K) : K :=
  match e with Insert item => key item | Remove k => k end.

(** [edits.sort_unstable_by_key]: edits with equal keys may come in any
    order; this is one of them. *)
Fixpoint sort_insert (e : Edit T K) (l : list (Edit T K)) : list (Edit T K) :=
  match l with
  | [] => [e]
  | e' :: l' => if is_le (cmp (edit_key e) (edit_key e')) then e :: l else e' :: sort_insert e l'
  end.
Definition sort_by_key (edits : list (Edit T K)) : list (Edit T K) := foldr sort_insert [] edits.

(** The variables of [edit]: the cursor, the new tree, the buffered items and
    the removed ones. *)
Definition edit_state : Type := Cursor.t T S K * SumTree T S * list T * list T.

(** The body of the loop over the edits. *)
Definition edit_step (st : edit_state) (edit : Edit T K) : option edit_state :=
  let '(cursor, new_tree, buffered_items, removed) := st in
  let new_key := edit_key edit in
  old_item ← Cursor.item cursor;
  '(cursor, new_tree, buffered_items, old_item) ←
    (if match old_item with Some old_item => is_lt (cmp (key old_item) new_key) | None => false end then
       new_tree ← SumTree.extend new_tree buffered_items;
       '(slice, cursor) ← Cursor.slice (seek_ord new_key) Left cursor;
       new_tree ← SumTree.append new_tree slice;
       old_item ← Cursor.item cursor;
       Some (cursor, new_tree, [], old_item)
     else Some (cursor, new_tree, buffered_items, old_item));
  '(cursor, removed) ←
    match old_item with
    | Some old_item =>
        if is_eq (cmp (key old_item) new_key)
        then cursor ← Cursor.next cursor; Some (cursor, removed ++ [old_item])
        else Some (cursor, removed)
    | None => Some (cursor, removed)
    end;
  let buffered_items :=
    match edit with Insert item => buffered_items ++ [item] | Remove _ => buffered_items end in
  Some (cursor, new_tree, buffered_items, removed).

Definition edit_loop (st : edit_state) (edits : list (Edit T K)) : option edit_state :=
  foldl (λ st edit, st ← st; edit_step st edit) (Some st) edits.

(** [edit] on edits already sorted. *)
Definition edit_sorted self (edits : list (Edit T K)) : option (list T * SumTree T S) :=
  '(_, cursor) ← Cursor.seek (seek_ord dim_zero) Left (Cursor.new self : Cursor.t T S K);
  '(cursor, new_tree, buffered_items, removed) ← edit_loop (cursor, SumTree.new, [], []) edits;
  new_tree ← SumTree.extend new_tree buffered_items;
  '(suffix, _) ← Cursor.suffix cursor;
  new_tree ← SumTree.append new_tree suffix;
  Some (removed, new_tree).

(** Returns the removed items and the new tree. *)
Definition edit self (edits : list (Edit T K)) : option (list T * SumTree T S) :=
  match edits with
  | [] => Some ([], self)
  | _ => edit_sorted self (sort_by_key edits)
  end.

Definition get self (k : K) : option T := (SumTree.find_exact self (seek_ord k) Left).2.
End keyed.
End Keyed.

(** ** Sorted lists *)

(** What a key dimension promises: adding an item with a greater key yields
    its key, and every key is at least [zero]. *)
Class KeyedItemLaws (T S K : Type)
    `{Summary S, Item T S, Dimension K S, Ord K, KeyedItem T K} : Prop := {
  keyed_ord :: OrdLaws K;
  keyed_dim :: DimensionLaws K S;
  key_zero (x : T) : is_le (cmp dim_zero (key x));
  key_add (d : K) (x : T) : is_le (cmp d (key x)) → dim_add d (item_summary x) = key x;
}.

Section sorted.
Context {T K : Type} `{Ord K, !OrdLaws K, KeyedItem T K}.
Implicit Types (l : list T) (k : K).

Definition key_lt (x y : T) : Prop := cmp (key x) (key y) = Lt.
Definition sorted l : Prop := StronglySorted key_lt l.

(** The entry of a key. *)
Fixpoint list_get k l : option T :=
  match l with
  | [] => None
  | x :: l => if is_eq (cmp (key x) k) then Some x else list_get k l
  end.

Definition below k l : list T := filter (λ x, is_lt (cmp (key x) k)) l.
Definition above k l : list T := filter (λ x, is_lt (cmp k (key x))) l.

(** An edit of the map. *)
Definition apply_edit l (e : Edit T K) : list T :=
  let k := Keyed.edit_key e in
  below k l ++ (match e with Insert item => [item] | Remove _ => [] end) ++ above k l.

Lemma sorted_cons x l : sorted (x :: l) ↔ sorted l ∧ Forall (key_lt x) l.
Proof. unfold sorted. split; [by inversion 1|intros [??]; by constructor]. Qed.

Lemma sorted_app l1 l2 : sorted (l1 ++ l2) ↔ sorted l1 ∧ sorted l2 ∧ ∀ x y, x ∈ l1 → y ∈ l2 → key_lt x y.
Proof.
  induction l1 as [|x l1 IH]; simpl.
  - split; [intros ?; split_and!; [constructor|done|set_solver]|naive_solver].
  - rewrite !sorted_cons, IH, Forall_app, !Forall_forall. set_solver.
Qed.

Lemma sorted_filter (g : T → bool) l : sorted l → sorted (filter g l).
Proof.
  induction l as [|x l IH]; [done|]. intros [Hl Hx]%sorted_cons. rewrite filter_cons.
  destruct (decide _); [|by apply IH]. apply sorted_cons. split; [by apply IH|].
  rewrite Forall_forall in *. intros y [_ Hy]%list_elem_of_filter. by apply Hx.
Qed.

(** The three parts of a sorted list around a key. *)
Lemma sorted_split k l :
  sorted l → l = below k l ++ option_list (list_get k l) ++ above k l.
Proof.
  induction l as [|x l IH]; [done|]. intros [Hl Hx]%sorted_cons. simpl.
  unfold below, above. rewrite !filter_cons. rewrite (cmp_opp (key x) k).
  destruct (cmp (key x) k) eqn:Hc; simpl.
  - apply cmp_eq in Hc as <-.
    assert (Hlt : ∀ y, y ∈ l → cmp (key x) (key y) = Lt) by by apply Forall_forall.
    replace (filter _ l) with (@nil T).
    2:{ clear IH Hl Hx. induction l as [|y l IH]; [done|]. rewrite filter_cons_False; [apply IH; set_solver|].
        rewrite (cmp_opp (key x)), (Hlt y) by set_solver. simpl. tauto. }
    simpl. f_equal. clear IH Hl Hx. induction l as [|y l IH]; [done|].
    rewrite filter_cons_True; [f_equal; apply IH; set_solver|]. by rewrite Hlt by set_solver.
  - f_equal. by apply IH.
  - assert (Hlt : ∀ y, y ∈ l → cmp k (key y) = Lt).
    { intros y Hy. apply cmp_gt_lt in Hc. eapply cmp_lt_trans; [done|]. by eapply Forall_forall in Hx. }
    rewrite (IH Hl) at 1.
    assert (filter (λ x, is_lt (cmp (key x) k)) l = [] ∧ list_get k l = None) as [Hb Hg].
    { clear IH Hl Hx. induction l as [|y l IH]; [done|]. rewrite filter_cons_False.
      - destruct IH as [-> Hg]; [set_solver|]. simpl. rewrite (cmp_opp k), (Hlt y) by set_solver. done.
      - rewrite (cmp_opp k), (Hlt y) by set_solver. simpl. tauto. }
    unfold below. rewrite Hb, Hg. done.
Qed.

Lemma elem_of_below k l x : x ∈ below k l ↔ cmp (key x) k = Lt ∧ x ∈ l.
Proof. unfold below. rewrite list_elem_of_filter. destruct (cmp (key x) k); naive_solver. Qed.

Lemma elem_of_above k l x : x ∈ above k l ↔ cmp k (key x) = Lt ∧ x ∈ l.
Proof. unfold above. rewrite list_elem_of_filter. destruct (cmp k (key x)); naive_solver. Qed.

Lemma list_get_Some k l x : list_get k l = Some x → x ∈ l ∧ key x = k.
Proof.
  induction l as [|y l IH]; simpl; [done|]. destruct (cmp (key y) k) eqn:Hc; simpl; intros Hx.
  - simplify_eq. apply cmp_eq in Hc. set_solver.
  - apply IH in Hx. set_solver.
  - apply IH in Hx. set_solver.
Qed.

Lemma list_get_app k l1 l2 :
  list_get k (l1 ++ l2) = match list_get k l1 with Some x => Some x | None => list_get k l2 end.
Proof. induction l1 as [|x l1 IH]; [done|]. simpl. by destruct (is_eq _). Qed.

Lemma list_get_None k l : (∀ x, x ∈ l → key x ≠ k) → list_get k l = None.
Proof.
  intros Hl. destruct (list_get k l) as [x|] eqn:Hx; [|done].
  apply list_get_Some in Hx as [Hin Hk]. by apply Hl in Hin.
Qed.

Lemma list_get_sorted k l x : sorted l → x ∈ l → key x = k → list_get k l = Some x.
Proof.
  intros Hl Hin <-. induction l as [|y l IH]; [set_solver|].
  apply sorted_cons in Hl as [Hl Hy]. simpl. apply elem_of_cons in Hin as [->|Hin].
  - by rewrite (cmp_refl (key y)).
  - eapply Forall_forall in Hy; [|done]. unfold key_lt in Hy. rewrite Hy. simpl. by apply IH.
Qed.

Lemma list_get_filter (g : T → bool) k l :
  sorted l →
  list_get k (filter g l) = match list_get k l with Some x => if g x then Some x else None | None => None end.
Proof.
  intros Hs. destruct (list_get k l) as [x|] eqn:Hx.
  - apply list_get_Some in Hx as [Hin Hk]. destruct (g x) eqn:Hg.
    + apply list_get_sorted; [by apply sorted_filter| |done]. apply list_elem_of_filter. by rewrite Hg.
    + apply list_get_None. intros y [Hy Hyin]%list_elem_of_filter Hkey.
      assert (Some y = Some x) as [= ->]; [|by rewrite Hg in Hy].
      by rewrite <-(list_get_sorted k l y Hs Hyin Hkey), <-(list_get_sorted k l x Hs Hin Hk).
  - apply list_get_None. intros y [_ Hyin]%list_elem_of_filter Hkey.
    by rewrite (list_get_sorted _ _ _ Hs Hyin Hkey) in Hx.
Qed.

Lemma list_get_below k k' l :
  sorted l → list_get k' (below k l) = if is_lt (cmp k' k) then list_get k' l else None.
Proof.
  intros Hl. destruct (cmp k' k) eqn:Hc; simpl.
  - apply list_get_None. intros x [Hx _]%elem_of_below <-. congruence.
  - destruct (list_get k' l) as [x|] eqn:Hx.
    + apply list_get_Some in Hx as [Hin <-]. apply list_get_sorted; [|by apply elem_of_below|done].
      rewrite (sorted_split k l) in Hl by done. by apply sorted_app in Hl as [? _].
    + apply list_get_None. intros x [_ Hin]%elem_of_below <-.
      by rewrite (list_get_sorted (key x) l x) in Hx.
  - apply list_get_None. intros x [Hx _]%elem_of_below <-. congruence.
Qed.

Lemma list_get_above k k' l :
  sorted l → list_get k' (above k l) = if is_lt (cmp k k') then list_get k' l else None.
Proof.
  intros Hl. destruct (cmp k k') eqn:Hc; simpl.
  - apply list_get_None. intros x [Hx _]%elem_of_above <-. congruence.
  - destruct (list_get k' l) as [x|] eqn:Hx.
    + apply list_get_Some in Hx as [Hin <-]. apply list_get_sorted; [|by apply elem_of_above|done].
      rewrite (sorted_split k l) in Hl by done. by apply sorted_app in Hl as (_ & [_ [? _]]%sorted_app & _).
    + apply list_get_None. intros x [_ Hin]%elem_of_above <-.
      by rewrite (list_get_sorted (key x) l x) in Hx.
  - apply list_get_None. intros x [Hx _]%elem_of_above <-. congruence.
Qed.

(** What an edit means for the map. *)
Definition edited (e : Edit T K) (k : K) (old : option T) : option T :=
  if is_eq (cmp (Keyed.edit_key e) k)
  then match e with Insert item => Some item | Remove _ => None end
  else old.

Lemma apply_edit_get l e k : sorted l → list_get k (apply_edit l e) = edited e k (list_get k l).
Proof.
  intros Hl. unfold apply_edit, edited. rewrite !list_get_app, list_get_below, list_get_above by done.
  rewrite (cmp_opp (Keyed.edit_key e) k). destruct (cmp (Keyed.edit_key e) k) eqn:Hc; simpl.
  - apply cmp_eq in Hc as <-. destruct e as [x|k']; simpl; [by rewrite (cmp_refl (key x))|done].
  - destruct e as [x|k']; simpl in *; [by rewrite Hc|done].
  - destruct (list_get k l) as [|]; [done|]. destruct e as [x|k']; simpl in *; [by rewrite Hc|done].
Qed.

Lemma apply_edit_sorted l e : sorted l → sorted (apply_edit l e).
Proof.
  intros Hl. unfold apply_edit. rewrite (sorted_split (Keyed.edit_key e) l) in Hl by done.
  apply sorted_app in Hl as (Hb & [_ [Ha _]]%sorted_app & Hba).
  apply sorted_app. split; [done|]. split.
  - apply sorted_app. split; [|split; [done|]].
    + destruct e; [|constructor]. apply sorted_cons. split; [constructor|done].
    + intros x y Hx [Hy _]%elem_of_above. destruct e; set_solver.
  - intros x y Hx [Hy|Hy]%elem_of_app.
    + apply elem_of_below in Hx as [Hx _]. destruct e; set_solver.
    + apply Hba; [done|]. apply elem_of_app. by right.
Qed.
End sorted.
