(* ===== verification/KeyedFacts.v ===== *)
(** * Keyed trees are ordered maps

    [insert_or_replace], [remove], [edit] and [get] of [Keyed] act on the item
    list of a sorted tree as the edits of a sorted list do, and so as updates
    of a finite map from keys to items. *)

From S2P Require Import Prelude SumTree SumTreeFacts Seek Cursor CursorFacts CursorWalk Keyed.

Section trees.
Context {T S : Type} `{SummaryLaws S, !Item T S}.

Lemma from_iter_ok (iter : list T) :
  ∃ t, SumTree.from_iter iter = Some t ∧ tree_ok t ∧ to_list t = iter.
Proof.
  destruct (from_iter_spec (N.of_nat (length iter)) iter) as (t & ? & ? & ? & _); [|eauto].
  rewrite N.add_1_r. etrans; [|apply N.pow_le_mono_r; [done|apply N.le_succ_diag_r]].
  apply N.lt_le_incl, N.pow_gt_lin_r. done.
Qed.

Lemma extend_ok (t : SumTree T S) (iter : list T) :
  tree_ok t → ∃ t', SumTree.extend t iter = Some t' ∧ tree_ok t' ∧ to_list t' = to_list t ++ iter.
Proof.
  intros Ht. unfold SumTree.extend. destruct (from_iter_ok iter) as (t1 & -> & H1 & <-). simpl.
  destruct (append_spec t t1) as (t2 & -> & ? & ? & _); eauto.
Qed.

Lemma append_ok (t1 t2 : SumTree T S) :
  tree_ok t1 → tree_ok t2 →
  ∃ t, SumTree.append t1 t2 = Some t ∧ tree_ok t ∧ to_list t = to_list t1 ++ to_list t2.
Proof. intros H1 H2. destruct (append_spec t1 t2) as (t & ? & ? & ? & _); eauto. Qed.

Lemma push_ok (t : SumTree T S) x :
  tree_ok t → ∃ t', SumTree.push t x = Some t' ∧ tree_ok t' ∧ to_list t' = to_list t ++ [x].
Proof. intros Ht. destruct (push_spec t x) as (t' & ? & ? & ? & _); eauto. Qed.
End trees.

Section keyed_seek.
Context {T S K : Type} `{SummaryLaws S, !Item T S, !Dimension K S, !Ord K, !KeyedItem T K, !KeyedItemLaws T S K}.
Implicit Types (l B R : list T) (k d : K).

(** The position is at most the keys that follow. *)
Definition leads d l : Prop := ∀ x, x ∈ l → is_le (cmp d (key x)).

Lemma leads_zero l : leads dim_zero l.
Proof. intros x _. apply key_zero. Qed.

Lemma leads_cons d x l : leads d (x :: l) → sorted (x :: l) → dim_add d (item_summary x) = key x ∧ leads (key x) l.
Proof.
  intros Hd [_ Hx]%sorted_cons. split; [apply key_add, Hd; set_solver|].
  intros y Hy. eapply Forall_forall in Hx; [|done]. unfold key_lt in Hx. by rewrite Hx.
Qed.

Lemma leads_pos_after d B R : leads d (B ++ R) → sorted (B ++ R) → leads (pos_after d B) R.
Proof.
  revert d. induction B as [|x B IH]; intros d Hd Hs; [done|]. simpl in *.
  apply leads_cons in Hd as [-> Hd]; [|done]. apply sorted_cons in Hs as [Hs _]. by apply IH.
Qed.

Lemma pos_after_le d l : leads d l → sorted l → is_le (cmp d (pos_after d l)).
Proof.
  revert d. induction l as [|x l IH]; intros d Hd Hs; simpl; [by rewrite cmp_refl|].
  assert (Hx : is_le (cmp d (key x))) by (apply Hd; set_solver).
  apply leads_cons in Hd as [-> Hd]; [|done]. apply sorted_cons in Hs as [Hs _].
  eapply cmp_le_trans; [done|by apply IH].
Qed.

Lemma keyed_monotone k d l : leads d l → sorted l → monotone (seek_ord k) d l.
Proof.
  intros Hd Hs l1 l2 l3 ->. apply rank_cmp_le. rewrite pos_after_app.
  rewrite app_assoc in Hd, Hs. 
  assert (Hs' := Hs). apply sorted_app in Hs' as [Hs' _]. 
  apply pos_after_le.
  - apply leads_pos_after; [|done]. intros x Hx. apply Hd, elem_of_app. by left.
  - by apply sorted_app in Hs' as (_ & ? & _).
Qed.

Lemma lin_seek_left k d l :
  leads d l → sorted l →
  lin_seek (seek_ord k) Left d l =
    (below k l, pos_after d (below k l), option_list (list_get k l) ++ above k l).
Proof.
  revert d. induction l as [|x l IH]; intros d Hd Hs; [done|].
  pose proof (sorted_split k _ Hs) as Hsplit. simpl.
  apply leads_cons in Hd as [Hadd Hd]; [|done]. pose proof Hs as [Hs' Hx]%sorted_cons.
  unfold stops, SumTree.target_in_child. rewrite Hadd. change (seek_ord k (key x)) with (cmp k (key x)).
  assert (Hstop : cmp (key x) k ≠ Lt → below k (x :: l) = []).
  { intros Hge. destruct (below k (x :: l)) as [|y b] eqn:Hb; [done|].
    assert (Hy : y ∈ below k (x :: l)) by (rewrite Hb; set_solver).
    apply elem_of_below in Hy as [Hy [->|Hin]%elem_of_cons]; [done|].
    eapply Forall_forall in Hx; [|done]. destruct Hge. by eapply cmp_lt_trans. }
  rewrite (cmp_opp (key x) k). destruct (cmp (key x) k) eqn:Hc; simpl.
  - rewrite Hstop in * by done. simpl in *. rewrite Hc in Hsplit. simpl in Hsplit. by rewrite <-Hsplit.
  - rewrite IH by done. unfold below, above. rewrite !filter_cons. rewrite (cmp_opp (key x) k), Hc. simpl. by rewrite Hadd.
  - rewrite Hstop in * by done. simpl in *. rewrite Hc in Hsplit. simpl in Hsplit. by rewrite <-Hsplit.
Qed.

Lemma lin_seek_right k d l :
  leads d l → sorted l →
  lin_seek (seek_ord k) Right d l =
    (below k l ++ option_list (list_get k l),
     pos_after d (below k l ++ option_list (list_get k l)), above k l).
Proof.
  revert d. induction l as [|x l IH]; intros d Hd Hs; [done|].
  pose proof (sorted_split k _ Hs) as Hsplit. simpl.
  apply leads_cons in Hd as [Hadd Hd]; [|done]. pose proof Hs as [Hs' Hx]%sorted_cons.
  unfold stops, SumTree.target_in_child. rewrite Hadd. change (seek_ord k (key x)) with (cmp k (key x)).
  rewrite (cmp_opp (key x) k). destruct (cmp (key x) k) eqn:Hc; simpl.
  - rewrite IH by done. unfold below, above. rewrite !filter_cons, (cmp_opp (key x) k), Hc. simpl.
    apply cmp_eq in Hc as <-.
    fold (below (key x) l). fold (above (key x) l).
    assert (below (key x) l = [] ∧ list_get (key x) l = None) as [-> ->].
    { split.
      - destruct (below (key x) l) as [|y b] eqn:Hb; [done|].
        assert (Hy : y ∈ below (key x) l) by (rewrite Hb; set_solver).
        apply elem_of_below in Hy as [Hy Hin]. eapply Forall_forall in Hx; [|done].
        unfold key_lt in Hx. rewrite (cmp_opp (key x)), Hx in Hy. done.
      - apply list_get_None. intros y Hin Heq. eapply Forall_forall in Hx; [|done].
        unfold key_lt in Hx. by rewrite Heq, cmp_refl in Hx. }
    simpl. by rewrite Hadd.
  - rewrite IH by done. unfold below, above. rewrite !filter_cons, (cmp_opp (key x) k), Hc. simpl.
    by rewrite Hadd.
  - assert (Hb : below k (x :: l) = [] ∧ list_get k l = None).
    { split.
      - destruct (below k (x :: l)) as [|y b] eqn:Hb; [done|].
        assert (Hy : y ∈ below k (x :: l)) by (rewrite Hb; set_solver).
        apply elem_of_below in Hy as [Hy [->|Hin]%elem_of_cons]; [congruence|].
        eapply Forall_forall in Hx; [|done]. 
        assert (cmp (key x) k = Lt); [by eapply cmp_lt_trans|congruence].
      - apply list_get_None. intros y Hin <-. eapply Forall_forall in Hx; [|done].
        unfold key_lt in Hx. congruence. }
    destruct Hb as [-> ->]. simpl. simpl in Hsplit. rewrite Hc in Hsplit. simpl in Hsplit.
    f_equal. revert Hsplit. unfold below. rewrite !filter_cons, Hc. simpl.
    replace (filter (λ x0, is_lt (cmp (key x0) k)) l) with (@nil T).
    2:{ symmetry. destruct (filter _ l) as [|y b] eqn:Hb; [done|].
        assert (Hy : y ∈ below k l) by (unfold below; rewrite Hb; set_solver).
        apply elem_of_below in Hy as [Hy Hin]. eapply Forall_forall in Hx; [|done].
        assert (cmp (key x) k = Lt); [by eapply cmp_lt_trans|congruence]. }
    assert (list_get k l = None) as ->; [|done].
    apply list_get_None. intros y Hin <-. eapply Forall_forall in Hx; [|done].
    unfold key_lt in Hx. congruence.
Qed.
End keyed_seek.

(** ** The operations *)

Section operations.
Context {T S K : Type} `{SummaryLaws S, !Item T S, !Dimension K S, !Ord K, !KeyedItem T K, !KeyedItemLaws T S K}.
Context (t : SumTree T S) (Ht : searchable t) (Hsorted : sorted (K:=K) (to_list t)).
Implicit Types (c : Cursor.t T S K) (k : K) (B R : list T).

Lemma cursor_leads c B R : ready t c B R → leads (pos_after dim_zero B) R ∧ sorted R.
Proof.
  intros Hc%ready_app. rewrite Hc in Hsorted. split.
  - apply leads_pos_after; [apply leads_zero|done].
  - by apply sorted_app in Hsorted as (_ & ? & _).
Qed.

(** Slicing up to a key. *)
Lemma slice_key c B R k :
  ready t c B R → cmp k (pos_after dim_zero B) ≠ Lt →
  ∃ t' c', Cursor.slice (seek_ord k) Left c = Some (t', c') ∧ tree_ok t' ∧ to_list t' = below k R ∧
    split_at t c' (B ++ below k R) (option_list (list_get k R) ++ above k R).
Proof.
  intros Hc Hge. destruct (cursor_leads _ _ _ Hc) as [Hd Hs].
  pose proof (slice_spec t (seek_ord k) Left c B R Ht Hc (keyed_monotone k _ _ Hd Hs) Hge) as Hslice.
  by rewrite lin_seek_left in Hslice.
Qed.

Lemma slice_key_new k :
  is_le (cmp dim_zero k) →
  ∃ t' c', Cursor.slice (seek_ord k) Left (Cursor.new t : Cursor.t T S K) = Some (t', c') ∧ tree_ok t' ∧
    to_list t' = below k (to_list t) ∧
    split_at t c' (below k (to_list t)) (option_list (list_get k (to_list t)) ++ above k (to_list t)).
Proof.
  intros Hk. apply (slice_key (Cursor.new t) [] (to_list t) k); [by left|]. simpl.
  rewrite (cmp_opp dim_zero k). by destruct (cmp dim_zero k).
Qed.

(** What follows the items below a key. *)
Lemma from_key k R : sorted R → R = below k R ++ option_list (list_get k R) ++ above k R ∧
  ∀ x, x ∈ option_list (list_get k R) ++ above k R → cmp (key x) k ≠ Lt.
Proof.
  intros Hs. split; [by apply sorted_split|]. intros x [Hx|[Hx _]%elem_of_above]%elem_of_app.
  - destruct (list_get k R) as [y|] eqn:Hy; [|by apply not_elem_of_nil in Hx].
    apply list_elem_of_singleton in Hx as ->. apply list_get_Some in Hy as [_ <-]. by rewrite cmp_refl.
  - by rewrite (cmp_opp k), Hx.
Qed.

(** Seeking a key. *)
Lemma seek_forward_key c B R k : ready t c B R → cmp k (pos_after dim_zero B) ≠ Lt →
  ∃ found c' R', Cursor.seek_forward (seek_ord k) Left c = Some (found, c') ∧ R = below k R ++ R' ∧
    split_at t c' (B ++ below k R) R' ∧ ∀ x, x ∈ R' → cmp (key x) k ≠ Lt.
Proof.
  intros Hc Hge. destruct (cursor_leads _ _ _ Hc) as [Hd Hs]. destruct (from_key k R Hs) as [Hsplit Hfrom].
  pose proof (seek_forward_spec t (seek_ord k) Left c B R Ht Hc (keyed_monotone k _ _ Hd Hs) Hge) as Hseek.
  rewrite lin_seek_left in Hseek by done. destruct Hseek as (c' & -> & Hc'). by eexists _, c', _.
Qed.

Lemma seek_key k : cmp k (dim_zero : K) ≠ Lt →
  ∃ found c' R', Cursor.seek (seek_ord k) Left (Cursor.new t : Cursor.t T S K) = Some (found, c') ∧
    to_list t = below k (to_list t) ++ R' ∧ split_at t c' (below k (to_list t)) R' ∧ ∀ x, x ∈ R' → cmp (key x) k ≠ Lt.
Proof.
  intros Hge. destruct (from_key k _ Hsorted) as [Hsplit Hfrom].
  pose proof (seek_spec t (seek_ord k) Left (Cursor.new t) Ht eq_refl (keyed_monotone _ _ _ (leads_zero _) Hsorted) Hge) as Hseek.
  rewrite lin_seek_left in Hseek by (done || apply leads_zero). destruct Hseek as (c' & -> & Hc'). by eexists _, c', _.
Qed.

Lemma head_above_not_eq k R x : head (above k R) = Some x → is_eq (cmp (key x) k) = false.
Proof.
  intros Hx. assert (Hin : x ∈ above k R) by by (destruct (above k R); simplify_eq/=; set_solver).
  apply elem_of_above in Hin as [Hlt _]. by rewrite (cmp_opp k), Hlt.
Qed.

Lemma head_get_eq k R x : list_get k R = Some x → is_eq (cmp (key x) k) = true.
Proof. intros [_ <-]%list_get_Some. by rewrite cmp_refl. Qed.

(** Skipping the entry of the key, the step [insert_or_replace], [remove] and
    [edit] share. *)
Lemma skip_key c B R k :
  split_at t c B (option_list (list_get k R) ++ above k R) →
  Cursor.item c = Some (head (option_list (list_get k R) ++ above k R)) ∧
  ∃ c', match head (option_list (list_get k R) ++ above k R) with
        | Some x => if is_eq (cmp (key x) k) then Cursor.next c else Some c
        | None => Some c
        end = Some c' ∧ split_at t c' (B ++ option_list (list_get k R)) (above k R).
Proof.
  intros Hc. split; [by eapply split_at_item|]. destruct (list_get k R) as [x|] eqn:Hx; simpl in *.
  - rewrite (head_get_eq _ _ _ Hx). by apply next_spec.
  - rewrite app_nil_r. destruct (head (above k R)) as [x|] eqn:Hh; [|eauto].
    rewrite (head_above_not_eq _ _ _ Hh). eauto.
Qed.

Lemma insert_or_replace_spec item :
  ∃ t', Keyed.insert_or_replace (K:=K) t item = Some (list_get (key item) (to_list t), t') ∧
    tree_ok t' ∧ to_list t' = apply_edit (to_list t) (Insert item : Edit T K).
Proof.
  unfold Keyed.insert_or_replace. cbn zeta.
  destruct (slice_key_new (key item)) as (t1 & c1 & -> & H1 & Hl1 & Hc1); [apply key_zero|].
  cbn [mbind option_bind]. set (k := key item) in *.
  destruct (skip_key _ _ _ _ Hc1) as [-> (c2 & Hskip & Hc2)]. cbn [mbind option_bind].
  destruct (push_ok t1 item H1) as (t2 & Hpush & H2 & Hl2).
  destruct (suffix_spec t c2 _ _ Ht (ready_split _ _ _ _ Hc2)) as (t3 & c3 & Hsuffix & H3 & Hl3 & _).
  destruct (append_ok t2 t3 H2 H3) as (t4 & Happ & H4 & Hl4).
  assert (Hfinish : ∀ r,
    (new_tree ← SumTree.push t1 item; '(suffix, _) ← Cursor.suffix c2;
     new_tree ← SumTree.append new_tree suffix; Some (r : option T, new_tree)) = Some (r, t4)).
  { intros r. rewrite Hpush. simpl. rewrite Hsuffix. simpl. by rewrite Happ. }
  exists t4. split; [|split; [done|]].
  - destruct (list_get k (to_list t)) as [x|] eqn:Hx; simpl in *.
    + rewrite (head_get_eq _ _ _ Hx) in *. rewrite Hskip. apply Hfinish.
    + destruct (head (above k (to_list t))) as [x|] eqn:Hh; simpl in *;
        [rewrite (head_above_not_eq _ _ _ Hh) in *|]; simplify_eq; apply Hfinish.
  - rewrite Hl4, Hl2, Hl1, Hl3. unfold apply_edit. simpl. by rewrite <-app_assoc.
Qed.

Lemma remove_spec k :
  is_le (cmp dim_zero k) →
  ∃ t', Keyed.remove t k = Some (list_get k (to_list t), t') ∧
    tree_ok t' ∧ to_list t' = apply_edit (to_list t) (Remove k).
Proof.
  intros Hk. unfold Keyed.remove. cbn zeta.
  destruct (slice_key_new k Hk) as (t1 & c1 & -> & H1 & Hl1 & Hc1).
  cbn [mbind option_bind].
  destruct (skip_key _ _ _ _ Hc1) as [-> (c2 & Hskip & Hc2)]. cbn [mbind option_bind].
  destruct (suffix_spec t c2 _ _ Ht (ready_split _ _ _ _ Hc2)) as (t3 & c3 & Hsuffix & H3 & Hl3 & _).
  destruct (append_ok t1 t3 H1 H3) as (t4 & Happ & H4 & Hl4).
  assert (Hfinish : ∀ r,
    ('(suffix, _) ← Cursor.suffix c2;
     new_tree ← SumTree.append t1 suffix; Some (r : option T, new_tree)) = Some (r, t4)).
  { intros r. rewrite Hsuffix. simpl. by rewrite Happ. }
  exists t4. split; [|split; [done|]].
  - destruct (list_get k (to_list t)) as [x|] eqn:Hx; simpl in *.
    + rewrite (head_get_eq _ _ _ Hx) in *. rewrite Hskip. apply Hfinish.
    + destruct (head (above k (to_list t))) as [x|] eqn:Hh; simpl in *;
        [rewrite (head_above_not_eq _ _ _ Hh) in *|]; simplify_eq; apply Hfinish.
  - rewrite Hl4, Hl1, Hl3. unfold apply_edit. done.
Qed.

Lemma get_spec k : is_le (cmp dim_zero k) → Keyed.get t k = list_get k (to_list t).
Proof.
  intros Hk. unfold Keyed.get. destruct Ht as [[Hnew|[h Hwf]] _].
  { rewrite Hnew. unfold SumTree.find_exact, SumTree.find_from. simpl. by repeat case_match. }
  rewrite (find_exact_spec (seek_ord k) h) by (done || by apply keyed_monotone; [apply leads_zero|]).
  pose proof (leads_zero (K:=K) (to_list t)) as Hd. rewrite lin_seek_left by done.
  assert (Hpos : ∀ x r, to_list t = below k (to_list t) ++ x :: r →
    dim_add (pos_after dim_zero (below k (to_list t))) (item_summary x) = key x).
  { intros x r Heq. apply key_add. rewrite Heq in Hd, Hsorted.
    eapply leads_pos_after; [done..|set_solver]. }
  pose proof (sorted_split k _ Hsorted) as Hsplit.
  destruct (list_get k (to_list t)) as [x|] eqn:Hx; simpl in *.
  - rewrite (Hpos _ _ Hsplit). unfold seek_ord. apply list_get_Some in Hx as [_ <-]. by rewrite cmp_refl.
  - destruct (head (above k (to_list t))) as [x|] eqn:Hh; [|done]. simpl.
    destruct (above k (to_list t)) as [|y r] eqn:Ha; [done|]. simpl in Hh. simplify_eq.
    rewrite (Hpos _ _ Hsplit). unfold seek_ord.
    assert (Hin : x ∈ above k (to_list t)) by (rewrite Ha; set_solver).
    apply elem_of_above in Hin as [Hlt _]. by rewrite Hlt.
Qed.

(** *** [edit] *)

Definition edit_before (k : K) (e : Edit T K) : Prop := cmp k (Keyed.edit_key e) = Lt.

(** The invariant of the loop, when [done] has been applied and [todo] is
    still to come. *)
Definition edit_inv (done_ todo : list (Edit T K)) (st : Keyed.edit_state) : Prop :=
  let '(c, new_tree, buffered, removed) := st in
  ∃ B R, split_at t c B R ∧ tree_ok new_tree ∧
    (to_list new_tree ++ buffered) ++ R = foldl apply_edit (to_list t) done_ ∧
    (∀ x e, x ∈ to_list new_tree ++ buffered → e ∈ todo → edit_before (key x) e) ∧
    removed = omap (λ e, list_get (Keyed.edit_key e) (to_list t)) done_.

Lemma foldl_apply_edit_sorted (l : list T) es : sorted l → sorted (foldl apply_edit l es : list T).
Proof. revert l. induction es as [|e es IH]; intros l Hl; [done|]. simpl. by apply IH, apply_edit_sorted. Qed.

Lemma foldl_apply_edit_other (l : list T) es k :
  sorted l → (∀ e, e ∈ es → Keyed.edit_key e ≠ k) →
  list_get k (foldl apply_edit l es) = list_get k l.
Proof.
  revert l. induction es as [|e es IH]; intros l Hl Hes; [done|]. simpl.
  rewrite IH by (try apply apply_edit_sorted; done || set_solver).
  rewrite apply_edit_get by done. unfold edited.
  destruct (cmp (Keyed.edit_key e) k) eqn:Hc; [|done..].
  apply cmp_eq in Hc. exfalso. eapply Hes; [|done]. set_solver.
Qed.

Lemma apply_edit_app (A R : list T) e :
  (∀ x, x ∈ A → edit_before (key x) e) →
  apply_edit (A ++ R) e = A ++ apply_edit R e.
Proof.
  intros HA. unfold apply_edit, below, above. rewrite !filter_app.
  rewrite (filter_all (λ x, is_lt (cmp (key x) (Keyed.edit_key e))) A).
  2:{ apply Forall_forall. intros x Hx. by rewrite (HA x Hx). }
  rewrite (filter_none (λ x, is_lt (cmp (Keyed.edit_key e) (key x))) A).
  2:{ apply Forall_forall. intros x Hx. rewrite (cmp_opp (key x)), (HA x Hx). simpl. tauto. }
  by rewrite <-!app_assoc.
Qed.

Lemma list_get_app_before (A R : list T) e :
  (∀ x, x ∈ A → edit_before (key x) e) →
  list_get (Keyed.edit_key e) (A ++ R) = list_get (Keyed.edit_key e) R.
Proof.
  intros HA. rewrite list_get_app, list_get_None; [done|]. intros x Hx Heq.
  specialize (HA x Hx). unfold edit_before in HA. by rewrite Heq, cmp_refl in HA.
Qed.

(** The part of the loop body before the entry of the key is dropped: the
    items below the key move to the new tree. *)
Lemma edit_advance c new_tree buffered B R k :
  split_at t c B R → tree_ok new_tree →
  ∃ c' new_tree' buffered' B',
    (old_item ← Cursor.item c;
     if match old_item with Some old_item => is_lt (cmp (key old_item) k) | None => false end then
       new_tree ← SumTree.extend new_tree buffered;
       '(slice, cursor) ← Cursor.slice (seek_ord k) Left c;
       new_tree ← SumTree.append new_tree slice;
       old_item ← Cursor.item cursor;
       Some (cursor, new_tree, [], old_item)
     else Some (c, new_tree, buffered, old_item)) =
      Some (c', new_tree', buffered', head (option_list (list_get k R) ++ above k R)) ∧
    split_at t c' B' (option_list (list_get k R) ++ above k R) ∧ tree_ok new_tree' ∧
    to_list new_tree' ++ buffered' = (to_list new_tree ++ buffered) ++ below k R.
Proof.
  intros Hc Hn. rewrite (split_at_item _ _ _ _ Hc). cbn [mbind option_bind].
  destruct (cursor_leads _ _ _ (ready_split _ _ _ _ Hc)) as [Hd Hs].
  pose proof (sorted_split k R Hs) as Hsplit.
  destruct (match head R with Some x => is_lt (cmp (key x) k) | None => false end) eqn:Hlt.
  - destruct (extend_ok new_tree buffered Hn) as (t1 & -> & H1 & Hl1). cbn [mbind option_bind].
    destruct (slice_key c B R k (ready_split _ _ _ _ Hc)) as (t2 & c' & -> & H2 & Hl2 & Hc').
    { destruct R as [|x R]; [done|]. simpl in Hlt.
      assert (Hx : is_le (cmp (pos_after dim_zero B) (key x))) by (apply Hd; set_solver).
      destruct (cmp (key x) k) eqn:Hxk; try done.
      pose proof (cmp_le_lt_trans _ _ _ Hx Hxk) as Hlt'. by rewrite (cmp_opp (pos_after dim_zero B)), Hlt'. }
    cbn [mbind option_bind].
    destruct (append_ok t1 t2 H1 H2) as (t3 & -> & H3 & Hl3). cbn [mbind option_bind].
    rewrite (split_at_item _ _ _ _ Hc'). cbn [mbind option_bind].
    eexists _, _, _, _. split; [done|]. split; [done|]. split; [done|]. by rewrite Hl3, Hl1, Hl2, app_nil_r.
  - assert (Hb : below k R = []).
    { destruct R as [|x R]; [done|]. simpl in Hlt.
      destruct (below k (x :: R)) as [|y b] eqn:Hb; [done|]. simpl in Hsplit. injection Hsplit as <- _.
      assert (Hy : x ∈ below k (x :: R)) by (rewrite Hb; set_solver).
      apply elem_of_below in Hy as [Hy _]. by rewrite Hy in Hlt. }
    rewrite Hb in *. simpl in Hsplit. rewrite <-Hsplit, app_nil_r.
    eexists _, _, _, _. by split_and!.
Qed.

Lemma edit_step_spec done_ e todo st :
  edit_inv done_ (e :: todo) st →
  (∀ e', e' ∈ done_ → Keyed.edit_key e' ≠ Keyed.edit_key e) →
  (∀ e', e' ∈ todo → edit_before (Keyed.edit_key e) e') →
  ∃ st', Keyed.edit_step st e = Some st' ∧ edit_inv (done_ ++ [e]) todo st'.
Proof.
  destruct st as [[[c new_tree] buffered] removed].
  intros (B & R & Hc & Hn & Hlist & Hbefore & Hrem) Hdone Htodo.
  set (k := Keyed.edit_key e) in *.
  destruct (edit_advance c new_tree buffered B R k Hc Hn) as (c1 & t1 & buf1 & B1 & Hrun & Hc1 & H1 & Hl1).
  destruct (skip_key c1 B1 R k Hc1) as [_ (c2 & Hskip & Hc2)].
  set (buf2 := match e with Insert item => buf1 ++ [item] | Remove _ => buf1 end).
  assert (Hbefore_e : ∀ x, x ∈ to_list new_tree ++ buffered → edit_before (key x) e).
  { intros x Hx. apply Hbefore; set_solver. }
  assert (Hget : list_get k R = list_get k (to_list t)).
  { etrans; [symmetry; by apply (list_get_app_before (to_list new_tree ++ buffered) R e)|].
    rewrite Hlist. by apply foldl_apply_edit_other. }
  exists (c2, t1, buf2, removed ++ option_list (list_get k R)). split.
  - unfold Keyed.edit_step. fold k. revert Hrun. rewrite (split_at_item _ _ _ _ Hc). cbn [mbind option_bind].
    intros ->. cbn [mbind option_bind].
    destruct (list_get k R) as [x|] eqn:Hx; simpl in *.
    + rewrite (head_get_eq _ _ _ Hx) in *. by rewrite Hskip.
    + rewrite app_nil_r. destruct (head (above k R)) as [x|] eqn:Hh; simpl in *;
        [rewrite (head_above_not_eq _ _ _ Hh) in *|]; by simplify_eq.
  - exists (B1 ++ option_list (list_get k R)), (above k R). split; [done|]. split; [done|].
    assert (Hl2 : to_list t1 ++ buf2 = ((to_list new_tree ++ buffered) ++ below k R) ++
      match e with Insert item => [item] | Remove _ => [] end).
    { rewrite <-Hl1. subst buf2. destruct e; by rewrite ?app_nil_r, <-?app_assoc. }
    split; [|split].
    + rewrite foldl_app. simpl. rewrite <-Hlist, apply_edit_app by done. rewrite Hl2.
      unfold apply_edit. fold k. by rewrite <-!app_assoc.
    + intros x e' Hx He'. specialize (Htodo e' He'). rewrite Hl2 in Hx.
      unfold edit_before in *. apply elem_of_app in Hx as [[Hx|Hx]%elem_of_app|Hx].
      * eapply Hbefore; [done|set_solver].
      * apply elem_of_below in Hx as [Hx _]. by eapply cmp_lt_trans.
      * destruct e; [|set_solver]. by apply list_elem_of_singleton in Hx as ->.
    + rewrite omap_app, Hrem. simpl. fold k. rewrite Hget. by destruct (list_get k (to_list t)).
Qed.

(** Strictly increasing keys. *)
Definition edits_sorted (es : list (Edit T K)) : Prop :=
  StronglySorted (λ e e', edit_before (Keyed.edit_key e) e') es.

Lemma edit_loop_spec done_ todo st :
  edit_inv done_ todo st → edits_sorted todo →
  (∀ e e', e ∈ done_ → e' ∈ todo → Keyed.edit_key e ≠ Keyed.edit_key e') →
  ∃ st', Keyed.edit_loop st todo = Some st' ∧
    edit_inv (done_ ++ todo) [] st'.
Proof.
  revert done_ st. induction todo as [|e todo IH]; intros done_ st Hinv Htodo Hdone.
  { exists st. by rewrite app_nil_r. }
  apply StronglySorted_inv in Htodo as [Htodo He]. rewrite Forall_forall in He.
  destruct (edit_step_spec done_ e todo st Hinv) as (st' & Hst' & Hinv'); [set_solver|done|].
  unfold Keyed.edit_loop in *. simpl. rewrite Hst'. destruct (IH (done_ ++ [e]) st' Hinv' Htodo) as (st'' & -> & Hinv'').
  { intros e1 e2 [He1|He1%list_elem_of_singleton]%elem_of_app He2; [set_solver|]. subst e1.
    intros Heq. specialize (He e2 He2). unfold edit_before in He. by rewrite Heq, cmp_refl in He. }
  exists st''. by rewrite <-app_assoc in Hinv''.
Qed.

Lemma edit_sorted_spec es :
  edits_sorted es →
  ∃ t', Keyed.edit_sorted t es =
      Some (omap (λ e, list_get (Keyed.edit_key e) (to_list t)) es, t') ∧
    tree_ok t' ∧ to_list t' = foldl apply_edit (to_list t) es.
Proof.
  intros Hes. unfold Keyed.edit_sorted.
  pose proof (seek_spec t (seek_ord (dim_zero : K)) Left (Cursor.new t) Ht eq_refl
    (keyed_monotone _ _ _ (leads_zero _) Hsorted)) as Hseek.
  rewrite lin_seek_left in Hseek by (done || apply leads_zero).
  destruct Hseek as (c & -> & Hc); [unfold seek_ord; by rewrite cmp_refl|]. cbn [mbind option_bind].
  assert (Hb : below (dim_zero : K) (to_list t) = []).
  { destruct (below dim_zero (to_list t)) as [|x b] eqn:Hb; [done|].
    assert (Hx : x ∈ below (dim_zero : K) (to_list t)) by (rewrite Hb; set_solver).
    apply elem_of_below in Hx as [Hx _]. pose proof (key_zero (K:=K) x) as Hz.
    by rewrite (cmp_opp (key x)), Hx in Hz. }
  pose proof (sorted_split (dim_zero : K) _ Hsorted) as Hsplit. rewrite Hb in *. simpl in Hsplit.
  rewrite <-Hsplit in Hc.
  destruct (edit_loop_spec [] es (c, SumTree.new, [], [])) as ([[[c' t1] buf] rem] & -> & Hinv); [|done|set_solver|].
  { exists [], (to_list t). split; [done|]. split; [by left|]. split; [done|]. split; [set_solver|done]. }
  cbn [mbind option_bind]. destruct Hinv as (B & R & Hc' & H1 & Hlist & _ & ->).
  destruct (extend_ok t1 buf H1) as (t2 & -> & H2 & Hl2). cbn [mbind option_bind].
  destruct (suffix_spec t c' _ _ Ht (ready_split _ _ _ _ Hc')) as (t3 & c3 & -> & H3 & Hl3 & _).
  cbn [mbind option_bind].
  destruct (append_ok t2 t3 H2 H3) as (t4 & -> & H4 & Hl4). exists t4. split; [done|]. split; [done|].
  by rewrite Hl4, Hl2, Hl3.
Qed.
End operations.

(** ** Sorting the edits *)

Section sort.
Context {T K : Type} `{Ord K, !OrdLaws K, KeyedItem T K}.
Implicit Types es : list (Edit T K).

Lemma sort_insert_perm e es : Keyed.sort_insert e es ≡ₚ e :: es.
Proof.
  induction es as [|e' es IH]; [done|]. simpl. destruct (is_le _); [done|].
  rewrite IH. apply perm_swap.
Qed.

Lemma sort_by_key_perm es : Keyed.sort_by_key es ≡ₚ es.
Proof. induction es as [|e es IH]; [done|]. simpl. by rewrite sort_insert_perm, IH. Qed.

Lemma sort_insert_sorted e es :
  edits_sorted es → (∀ e', e' ∈ es → Keyed.edit_key e' ≠ Keyed.edit_key e) →
  edits_sorted (Keyed.sort_insert e es).
Proof.
  unfold edits_sorted. induction es as [|e' es IH]; intros Hes Hne; simpl; [by repeat constructor|].
  apply StronglySorted_inv in Hes as [Hes He'].
  destruct (cmp (Keyed.edit_key e) (Keyed.edit_key e')) eqn:Hc; simpl.
  - apply cmp_eq in Hc. destruct (Hne e'); [set_solver|done].
  - constructor; [by constructor|]. constructor; [done|].
    eapply Forall_impl; [done|]. intros e2 He2. by eapply cmp_lt_trans.
  - constructor; [apply IH; [done|set_solver]|].
    rewrite sort_insert_perm. constructor; [|done]. by apply cmp_gt_lt in Hc.
Qed.

Lemma sort_by_key_sorted es : NoDup (map Keyed.edit_key es) → edits_sorted (Keyed.sort_by_key es).
Proof.
  induction es as [|e es IH]; simpl; [constructor|]. intros [He Hes]%NoDup_cons.
  apply sort_insert_sorted; [by apply IH|]. intros e'. rewrite sort_by_key_perm. intros He' Heq.
  apply He. apply list_elem_of_fmap. eauto.
Qed.

(** The net effect of edits with distinct keys, in any order. *)
Fixpoint edited_all es (k : K) (old : option T) : option T :=
  match es with
  | [] => old
  | e :: es =>
      if is_eq (cmp (Keyed.edit_key e) k)
      then match e with Insert item => Some item | Remove _ => None end
      else edited_all es k old
  end.

Lemma edited_all_perm es es' k old :
  es ≡ₚ es' → NoDup (map Keyed.edit_key es) → edited_all es k old = edited_all es' k old.
Proof.
  intros Hperm. induction Hperm as [|e es es' _ IH|e1 e2 es|es1 es2 es3 H1 IH1 H2 IH2]; intros Hnd.
  - done.
  - simpl in *. apply NoDup_cons in Hnd as [_ Hnd]. by rewrite IH.
  - simpl in *. apply NoDup_cons in Hnd as [Hne _].
    destruct (cmp (Keyed.edit_key e1) k) eqn:H1, (cmp (Keyed.edit_key e2) k) eqn:H2; simpl; try done.
    apply cmp_eq in H1, H2. destruct Hne. rewrite H1, H2. set_solver.
  - rewrite IH1 by done. apply IH2. by rewrite <-H1.
Qed.

Lemma edited_all_notin es k old : (∀ e, e ∈ es → Keyed.edit_key e ≠ k) → edited_all es k old = old.
Proof.
  induction es as [|e es IH]; intros Hes; [done|]. simpl.
  destruct (cmp (Keyed.edit_key e) k) eqn:Hc; simpl; [|apply IH; set_solver..].
  apply cmp_eq in Hc. destruct (Hes e); [set_solver|done].
Qed.

Lemma edited_all_in es e old :
  NoDup (map Keyed.edit_key es) → e ∈ es →
  edited_all es (Keyed.edit_key e) old = match e with Insert item => Some item | Remove _ => None end.
Proof.
  induction es as [|e' es IH]; simpl; [set_solver|]. intros [He' Hnd]%NoDup_cons [->|He]%elem_of_cons.
  - by rewrite cmp_refl.
  - destruct (cmp (Keyed.edit_key e') (Keyed.edit_key e)) eqn:Hc; simpl; [|by apply IH..].
    apply cmp_eq in Hc. destruct He'. rewrite Hc. apply list_elem_of_fmap. eauto.
Qed.

Lemma foldl_apply_edit_get (l : list T) es k :
  sorted l → NoDup (map Keyed.edit_key es) →
  list_get k (foldl apply_edit l es) = edited_all es k (list_get k l).
Proof.
  revert l. induction es as [|e es IH]; intros l Hl Hnd; [done|]. simpl in *.
  apply NoDup_cons in Hnd as [He Hnd]. rewrite IH, apply_edit_get by (done || by apply apply_edit_sorted).
  unfold edited. destruct (cmp (Keyed.edit_key e) k) eqn:Hc; simpl; try done.
  apply cmp_eq in Hc as <-. clear IH Hnd.
  induction es as [|e' es IH]; [done|]. simpl in *.
  destruct (cmp (Keyed.edit_key e') (Keyed.edit_key e)) eqn:Hc; simpl; [|apply IH; set_solver..].
  apply cmp_eq in Hc. destruct He. rewrite Hc. set_solver.
Qed.
End sort.

(** The update of the map, for the clients of [edit]. *)
Lemma edit_ok {T S K} `{SummaryLaws S, !Item T S, !Dimension K S, !Ord K, !KeyedItem T K, !KeyedItemLaws T S K}
    (t : SumTree T S) (es : list (Edit T K)) :
  searchable t → sorted (K:=K) (to_list t) → NoDup (map Keyed.edit_key es) →
  ∃ removed t', Keyed.edit t es = Some (removed, t') ∧ tree_ok t' ∧ sorted (K:=K) (to_list t') ∧
    ∀ k, list_get k (to_list t') = edited_all es k (list_get k (to_list t)).
Proof.
  intros Ht Hs Hnd. destruct es as [|e es]; [destruct Ht; by exists [], t|].
  destruct (edit_sorted_spec t Ht Hs (Keyed.sort_by_key (e :: es))) as (t' & Hrun & Hok & Hl).
  { by apply sort_by_key_sorted. }
  eexists _, t'. split; [exact Hrun|]. split; [done|]. rewrite Hl. split; [by apply foldl_apply_edit_sorted|].
  intros k. rewrite foldl_apply_edit_get by (done || by rewrite sort_by_key_perm).
  symmetry. apply edited_all_perm; [by rewrite sort_by_key_perm|done].
Qed.

(** ** Properties *)

(** C28. A batch of edits with distinct keys, given in any order, is applied as
    a batch of updates of a finite map: [edit] returns a well-formed tree whose
    keys are strictly increasing, in which an edited key has what its edit
    says and every other key its old item; and it reports the items replaced
    or removed. *)
Theorem edit_updates_map {T S K} `{SummaryLaws S, !Item T S, !Dimension K S, !Ord K, !KeyedItem T K, !KeyedItemLaws T S K}
    (t : SumTree T S) (es : list (Edit T K))
    (Ht : searchable t) (Hs : sorted (K:=K) (to_list t)) (Hnd : NoDup (map Keyed.edit_key es)) :
  ∃ removed t', Keyed.edit t es = Some (removed, t') ∧ tree_ok t' ∧ sorted (K:=K) (to_list t') ∧
    (∀ k, list_get k (to_list t') = edited_all es k (list_get k (to_list t))) ∧
    removed ≡ₚ omap (λ e, list_get (Keyed.edit_key e) (to_list t)) es.
Proof.
  destruct es as [|e es]; [destruct Ht; by exists [], t|].
  destruct (edit_sorted_spec t Ht Hs (Keyed.sort_by_key (e :: es))) as (t' & Hrun & Hok & Hl).
  { by apply sort_by_key_sorted. }
  eexists _, t'. split; [exact Hrun|]. split; [done|]. rewrite Hl. split; [by apply foldl_apply_edit_sorted|]. split.
  - intros k. rewrite foldl_apply_edit_get by (done || by rewrite sort_by_key_perm).
    symmetry. apply edited_all_perm; [by rewrite sort_by_key_perm|done].
  - by rewrite sort_by_key_perm.
Qed.

(** Inserting, removing and looking up one key: the previous item is
    returned, and the items below and above the key stay as they are. *)
Theorem keyed_insert_remove {T S K} `{SummaryLaws S, !Item T S, !Dimension K S, !Ord K, !KeyedItem T K, !KeyedItemLaws T S K}
    (t : SumTree T S) (item : T) (Ht : searchable t) (Hs : sorted (K:=K) (to_list t)) :
  let k : K := key item in
  let l := to_list t in
  Keyed.get t k = list_get k l ∧
  (∃ t', Keyed.insert_or_replace (K:=K) t item = Some (list_get k l, t') ∧ tree_ok t' ∧ sorted (K:=K) (to_list t') ∧
    to_list t' = below k l ++ [item] ++ above k l) ∧
  (∃ t', Keyed.remove t k = Some (list_get k l, t') ∧ tree_ok t' ∧ sorted (K:=K) (to_list t') ∧
    to_list t' = below k l ++ above k l).
Proof.
  assert (Hk : is_le (cmp dim_zero (key item : K))) by apply key_zero. cbn zeta. split; [by apply get_spec|]. split.
  - destruct (insert_or_replace_spec (K:=K) t Ht Hs item) as (t' & Hrun & Hok & Hl). exists t'.
    split; [done|]. split; [done|]. split; [|done]. rewrite Hl. by apply apply_edit_sorted.
  - destruct (remove_spec t Ht Hs (key item : K) Hk) as (t' & Hrun & Hok & Hl). exists t'.
    split; [done|]. split; [done|]. split; [|done]. rewrite Hl. by apply apply_edit_sorted.
Qed.

(** Numbers keyed by themselves, summarised by the greatest, for the witnesses. *)
Module MaxItems.
#[export] Instance max_summary : Summary nat := {| zero := 0; add_summary := Nat.max |}.
#[export] Instance max_summary_laws : SummaryLaws nat.
Proof. split; simpl; lia. Qed.
#[export] Instance max_item : Item nat nat := λ x, x.
#[export] Instance max_keyed : KeyedItem nat nat := λ x, x.
#[export] Instance max_keyed_laws : KeyedItemLaws nat nat nat.
Proof.
  split; [apply _|apply _|..]; unfold cmp, nat_ord, key, max_keyed.
  - intros [|x]; done.
  - intros d x. simpl. unfold item_summary, max_item. destruct (Nat.compare_spec d x); simpl; intros []; lia.
Qed.

Definition tree (n : nat) : SumTree nat nat := default SumTree.new (SumTree.from_iter (seq 1 n)).
Lemma max_tree_13_searchable : searchable (tree 13).
Proof.
  split; [|vm_compute; lia]. right. exists 1. vm_compute. split_and!; try lia; try done. repeat constructor; lia.
Qed.
Lemma tree_13_sorted : sorted (K:=nat) (to_list (tree 13)).
Proof. vm_compute. repeat constructor. Qed.
End MaxItems.
Import MaxItems.

Lemma edit_updates_map_witness :
  ∃ removed t', Keyed.edit (K:=nat) (tree 13) [Remove 4; Insert 20; Insert 2] = Some (removed, t') ∧ tree_ok t' ∧
    sorted (K:=nat) (to_list t') ∧
    (∀ k, list_get (K:=nat) k (to_list t') = edited_all (K:=nat) [Remove 4; Insert 20; Insert 2] k (list_get (K:=nat) k (to_list (tree 13)))) ∧
    removed ≡ₚ [4; 2].
Proof.
  exact (edit_updates_map (K:=nat) (tree 13) [Remove 4; Insert 20; Insert 2] max_tree_13_searchable tree_13_sorted
    ltac:(repeat constructor; set_solver)).
Defined.

Lemma keyed_insert_remove_witness :
  Keyed.get (K:=nat) (tree 13) 5 = Some 5 ∧
  (∃ t', Keyed.insert_or_replace (K:=nat) (tree 13) 5 = Some (Some 5, t') ∧ tree_ok t' ∧ sorted (K:=nat) (to_list t') ∧
    to_list t' = seq 1 13) ∧
  (∃ t', Keyed.remove (K:=nat) (tree 13) 5 = Some (Some 5, t') ∧ tree_ok t' ∧ sorted (K:=nat) (to_list t') ∧
    to_list t' = seq 1 4 ++ seq 6 8).
Proof. exact (keyed_insert_remove (K:=nat) (tree 13) 5 max_tree_13_searchable tree_13_sorted). Defined.
