(* ===== verification/TreeMap.v ===== *)
(** * Ordered maps and sets ([crates/sum_tree/src/tree_map.rs])

    [TreeMap] is a keyed tree whose summary is its greatest key. *)

From S2P Require Import Prelude SumTree SumTreeFacts Seek Cursor CursorFacts CursorWalk Keyed KeyedFacts.

(** [struct MapEntry] *)
Record MapEntry (K V : Type) := mkMapEntry { entry_key : K; entry_value : V }.
Arguments mkMapEntry {K V}.
Arguments entry_key {K V}.
Arguments entry_value {K V}.

(** [struct MapKey], and [struct MapKeyRef], which holds a reference to a key
    where the former holds the key. *)
Definition MapKey (K : Type) : Type := option K.
#[global] Instance MapKey_ord {K} `{Ord K} : Ord (MapKey K) := option_ord.
#[global] Instance MapKey_ord_laws {K} `{OrdLaws K} : OrdLaws (MapKey K) := option_ord_laws.

(** [impl ContextLessSummary for MapKey] and [impl Dimension for MapKeyRef] *)
#[global] Instance MapKey_summary {K} : Summary (MapKey K) :=
  {| zero := None; add_summary := λ _ summary, summary |}.

(** [impl Item for MapEntry], [impl KeyedItem for MapEntry] *)
#[global] Instance MapEntry_item {K V} : Item (MapEntry K V) (MapKey K) := λ self, Some (entry_key self).
#[global] Instance MapEntry_keyed {K V} : KeyedItem (MapEntry K V) (MapKey K) := λ self, Some (entry_key self).

(** [trait MapSeekTarget] and [struct MapSeekTargetAdaptor] *)
Definition MapSeekTarget (K : Type) : Type := K → comparison.
Definition MapSeekTarget_adaptor {K} (target : MapSeekTarget K) : SeekTarget (MapKey K) :=
  λ cursor_location, match cursor_location with Some key => target key | None => Gt end.
(** [impl MapSeekTarget for K] *)
Definition key_target {K} `{Ord K} (key : K) : MapSeekTarget K := λ cursor_location, cmp key cursor_location.

Module TreeMap.
Section tree_map.
Context {K V : Type} `{Ord K}.

(** [struct TreeMap] *)
Definition t : Type := SumTree (MapEntry K V) (MapKey K).
Implicit Types self : t.

Definition from_ordered_entries (entries : list (K * V)) : option t :=
  SumTree.from_iter (map (λ '(key, value), mkMapEntry key value) entries).

(** [Default], [clear] *)
Definition default : t := SumTree.new.
Definition clear (self : t) : t := default.

Definition is_empty self : bool := SumTree.is_empty self.

Definition get self (k : K) : option V :=
  let '(_, _, item) := SumTree.find self (seek_ord (Some k : MapKey K)) Left in
  match item with
  | Some item => if is_eq (cmp (Some k : MapKey K) (key item)) then Some (entry_value item) else None
  | None => None
  end.

Definition contains_key self (k : K) : bool := match get self k with Some _ => true | None => false end.

Definition insert_or_replace self (k : K) (value : V) : option (option V * t) :=
  '(replaced, self) ← Keyed.insert_or_replace (K:=MapKey K) self (mkMapEntry k value);
  Some (option_map entry_value replaced, self).

Definition insert self (k : K) (value : V) : option t :=
  '(_, self) ← Keyed.insert_or_replace (K:=MapKey K) self (mkMapEntry k value); Some self.

Definition extend self (iter : list (K * V)) : option t :=
  let edits := map (λ '(key, value), Insert (mkMapEntry key value)) iter in
  '(_, self) ← Keyed.edit (K:=MapKey K) self edits; Some self.

Definition remove self (k : K) : option (option V * t) :=
  let cursor : Cursor.t _ _ (MapKey K) := Cursor.new self in
  let k : MapKey K := Some k in
  '(new_tree, cursor) ← Cursor.slice (seek_ord k) Left cursor;
  end_ ← Cursor.end_ cursor;
  '(removed, cursor) ←
    (if is_eq (cmp k end_) then
       item ← Cursor.item cursor;
       item ← item;
       cursor ← Cursor.next cursor;
       Some (Some (entry_value item), cursor)
     else Some (None, cursor));
  '(suffix, _) ← Cursor.suffix cursor;
  new_tree ← SumTree.append new_tree suffix;
  Some (removed, new_tree).

Definition remove_range self (start end_ : MapSeekTarget K) : option t :=
  let cursor : Cursor.t _ _ (MapKey K) := Cursor.new self in
  '(new_tree, cursor) ← Cursor.slice (MapSeekTarget_adaptor start) Left cursor;
  '(_, cursor) ← Cursor.seek (MapSeekTarget_adaptor end_) Left cursor;
  '(suffix, _) ← Cursor.suffix cursor;
  SumTree.append new_tree suffix.

Definition closest self (k : K) : option (option (K * V)) :=
  let cursor : Cursor.t _ _ (MapKey K) := Cursor.new self in
  '(_, cursor) ← Cursor.seek (seek_ord (Some k : MapKey K)) Right cursor;
  cursor ← Cursor.prev cursor;
  item ← Cursor.item cursor;
  Some (option_map (λ item, (entry_key item, entry_value item)) item).

(** The cursor that [iter_from] maps over. *)
Definition iter_from self (from : K) : option (Cursor.t (MapEntry K V) (MapKey K) (MapKey K)) :=
  '(_, cursor) ← Cursor.seek (seek_ord (Some from : MapKey K)) Left (Cursor.new self);
  Some cursor.

(** [f] returns the new value (a [&mut] argument of the code) and a result. *)
Definition update {R} self (k : K) (f : V → V * R) : option (option R * t) :=
  let cursor : Cursor.t _ _ (MapKey K) := Cursor.new self in
  let k : MapKey K := Some k in
  '(new_tree, cursor) ← Cursor.slice (seek_ord k) Left cursor;
  end_ ← Cursor.end_ cursor;
  '(result, new_tree, cursor) ←
    (if is_eq (cmp k end_) then
       item ← Cursor.item cursor;
       updated ← item;
       let '(value, result) := f (entry_value updated) in
       new_tree ← SumTree.push new_tree (mkMapEntry (entry_key updated) value);
       cursor ← Cursor.next cursor;
       Some (Some result, new_tree, cursor)
     else Some (None, new_tree, cursor));
  '(suffix, _) ← Cursor.suffix cursor;
  new_tree ← SumTree.append new_tree suffix;
  Some (result, new_tree).

(** The loop of [retain]. *)
Fixpoint retain_loop (predicate : K → V → bool) (fuel : nat) (new_map : t)
    (cursor : Cursor.t (MapEntry K V) (MapKey K) (MapKey K)) : option t :=
  item ← Cursor.item cursor;
  match item with
  | None => Some new_map
  | Some item =>
      match fuel with
      | 0 => None
      | S fuel =>
          new_map ← (if predicate (entry_key item) (entry_value item)
                     then SumTree.push new_map item else Some new_map);
          cursor ← Cursor.next cursor;
          retain_loop predicate fuel new_map cursor
      end
  end.

(** One iteration per entry. *)
Definition retain self (predicate : K → V → bool) : option t :=
  cursor ← Cursor.next (Cursor.new self);
  retain_loop predicate (length (to_list self)) default cursor.

(** [iter] and [values] map over the tree's iterator. *)
Definition iter self : Iter.t (MapEntry K V) (MapKey K) := Iter.new self.

Definition first self : option (option (K * V)) :=
  entry ← SumTree.first self; Some (option_map (λ entry, (entry_key entry, entry_value entry)) entry).

Definition last self : option (option (K * V)) :=
  entry ← SumTree.last self; Some (option_map (λ entry, (entry_key entry, entry_value entry)) entry).

Definition insert_tree self (other : t) : option t :=
  entries ← drain Iter.next (S (length (to_list other))) (iter other);
  let edits := map (λ entry, Insert (mkMapEntry (entry_key entry) (entry_value entry))) entries in
  '(_, self) ← Keyed.edit (K:=MapKey K) self edits; Some self.
End tree_map.
End TreeMap.

(** [struct TreeSet] *)
Module TreeSet.
Section tree_set.
Context {K : Type} `{Ord K}.

Definition t : Type := @TreeMap.t K unit.
Implicit Types self : t.

Definition from_ordered_entries (entries : list K) : option t :=
  TreeMap.from_ordered_entries (map (λ key, (key, tt)) entries).
Definition is_empty self : bool := TreeMap.is_empty self.
Definition insert self (k : K) : option t := TreeMap.insert self k tt.
Definition remove self (k : K) : option (bool * t) :=
  '(removed, self) ← TreeMap.remove self k;
  Some (match removed with Some _ => true | None => false end, self).
Definition extend self (iter : list K) : option t := TreeMap.extend self (map (λ key, (key, tt)) iter).
Definition contains self (k : K) : bool := match TreeMap.get self k with Some _ => true | None => false end.
Definition iter_from self (k : K) := TreeMap.iter_from self k.
End tree_set.
End TreeSet.
