(* ===== verification/TreeMapFacts.v ===== *)
(** * [TreeMap] implements a finite map

    The abstract state of a map is the partial function from keys to values of
    its entries; every operation is shown to return, to keep the entries
    strictly sorted, and to act as its counterpart on that function. *)

From S2P Require Import Prelude SumTree SumTreeFacts Seek Cursor CursorFacts CursorWalk Keyed KeyedFacts TreeMap.

Section laws.
Context {K V : Type} `{OrdLaws K}.

#[export] Instance MapKey_summary_laws : SummaryLaws (MapKey K).
Proof. done. Qed.

#[export] Instance MapEntry_keyed_laws : KeyedItemLaws (MapEntry K V) (MapKey K) (MapKey K).
Proof. split; [apply _|apply _|done|done]. Qed.

Definition keys_sorted (l : list (MapEntry K V)) : Prop := sorted (K:=MapKey K) l.

(** The value a list of entries holds for a key. *)
Definition lookup_entry (k : K) (l : list (MapEntry K V)) : option V :=
  option_map entry_value (list_get (Some k : MapKey K) l).

(** [m] holds the map [f]. *)
Definition represents (m : @TreeMap.t K V) (f : K → option V) : Prop :=
  tree_ok m ∧ keys_sorted (to_list m) ∧ ∀ k, lookup_entry k (to_list m) = f k.

Definition seekable (m : @TreeMap.t K V) : Prop := Node.height m < STACK_CAPACITY.

Lemma represents_searchable m f : represents m f → seekable m → searchable m.
Proof. by intros (? & _) ?. Qed.

Lemma list_get_entry (k : K) (l : list (MapEntry K V)) x :
  list_get (Some k : MapKey K) l = Some x → x ∈ l ∧ entry_key x = k.
Proof. intros [Hin Hk]%list_get_Some. split; [done|]. by inversion Hk. Qed.

Lemma pos_after_snoc (d : MapKey K) (l : list (MapEntry K V)) x : pos_after d (l ++ [x]) = Some (entry_key x).
Proof. by rewrite pos_after_app. Qed.

Lemma lookup_entry_insert (l : list (MapEntry K V)) k v k' :
  keys_sorted l →
  lookup_entry k' (apply_edit l (Insert (mkMapEntry k v) : Edit _ (MapKey K))) =
    if is_eq (cmp k k') then Some v else lookup_entry k' l.
Proof.
  intros Hl. unfold lookup_entry. rewrite apply_edit_get by done. unfold edited. simpl.
  change (cmp (key (mkMapEntry k v)) (Some k')) with (cmp k k'). by destruct (is_eq _).
Qed.

Lemma lookup_entry_remove (l : list (MapEntry K V)) k k' :
  keys_sorted l →
  lookup_entry k' (apply_edit l (Remove (Some k : MapKey K))) =
    if is_eq (cmp k k') then None else lookup_entry k' l.
Proof.
  intros Hl. unfold lookup_entry. rewrite apply_edit_get by done. unfold edited. simpl.
  change (cmp (Some k) (Some k')) with (cmp k k'). by destruct (is_eq _).
Qed.

Lemma represents_insert m f (m' : @TreeMap.t K V) k v :
  represents m f → tree_ok m' →
  to_list m' = apply_edit (to_list m) (Insert (mkMapEntry k v) : Edit _ (MapKey K)) →
  represents m' (λ k', if is_eq (cmp k k') then Some v else f k').
Proof.
  intros (Hok & Hs & Hf) Hok' Hl. split; [done|]. rewrite Hl. split; [by apply apply_edit_sorted|].
  intros k'. by rewrite lookup_entry_insert, Hf.
Qed.

Lemma represents_remove m f (m' : @TreeMap.t K V) k :
  represents m f → tree_ok m' → to_list m' = apply_edit (to_list m) (Remove (Some k : MapKey K)) →
  represents m' (λ k', if is_eq (cmp k k') then None else f k').
Proof.
  intros (Hok & Hs & Hf) Hok' Hl. split; [done|]. rewrite Hl. split; [by apply apply_edit_sorted|].
  intros k'. by rewrite lookup_entry_remove, Hf.
Qed.

Lemma from_ordered_entries_spec (entries : list (K * V)) :
  StronglySorted (λ x y, cmp x.1 y.1 = Lt) entries →
  ∃ m, TreeMap.from_ordered_entries entries = Some m ∧ tree_ok m ∧ keys_sorted (to_list m) ∧
    to_list m = map (λ '(k, v), mkMapEntry k v) entries.
Proof.
  intros Hs. unfold TreeMap.from_ordered_entries.
  destruct (from_iter_ok (map (λ '(key, value), mkMapEntry key value) entries)) as (m & -> & Hok & Hl).
  exists m. split; [done|]. split; [done|]. split; [|done]. rewrite Hl.
  induction Hs as [|[k v] entries Hs IH Hx]; [constructor|]. simpl. constructor.
  - clear -Hs H0. induction Hs as [|[k v] entries Hs IH Hx]; [constructor|]. simpl. constructor; [done|].
    apply Forall_map. eapply Forall_impl; [done|]. by intros [].
  - apply Forall_map. eapply Forall_impl; [done|]. by intros [].
Qed.

Lemma get_represents m f k : represents m f → TreeMap.get m k = f k.
Proof.
  intros (Hok & Hs & Hf). unfold TreeMap.get. rewrite <-Hf. destruct Hok as [->|[h Hwf]].
  { unfold SumTree.find, SumTree.find_from. simpl. by repeat case_match. }
  rewrite (find_spec (seek_ord (Some k : MapKey K)) Left h)
    by (done || by apply keyed_monotone; [apply leads_zero|]).
  rewrite lin_seek_left by (done || apply leads_zero). unfold lookup_entry.
  destruct (list_get (Some k : MapKey K) (to_list m)) as [x|] eqn:Hx; simpl.
  - apply list_get_entry in Hx as [_ <-]. change (key x) with (Some (entry_key x)). by rewrite (cmp_refl (Some _)).
  - destruct (above (Some k : MapKey K) (to_list m)) as [|x r] eqn:Ha; [done|].
    assert (Hin : x ∈ above (Some k : MapKey K) (to_list m)) by (rewrite Ha; set_solver).
    apply elem_of_above in Hin as [Hlt _]. by rewrite Hlt.
Qed.

Lemma insert_or_replace_represents m f k v :
  represents m f → seekable m →
  ∃ m', TreeMap.insert_or_replace m k v = Some (f k, m') ∧
    represents m' (λ k', if is_eq (cmp k k') then Some v else f k').
Proof.
  intros Hm Hh. unfold TreeMap.insert_or_replace.
  destruct (insert_or_replace_spec (K:=MapKey K) m (represents_searchable _ _ Hm Hh) (proj1 (proj2 Hm))
    (mkMapEntry k v)) as (m' & -> & Hok' & Hl). simpl.
  exists m'. split; [|by eapply represents_insert]. destruct Hm as (_ & _ & <-). done.
Qed.

(** [cursor.end()] after slicing up to a key equals the key exactly when the
    key is present. *)
Lemma end_key (k : K) (l : list (MapEntry K V)) :
  is_eq (cmp (Some k : MapKey K) (pos_after (dim_zero : MapKey K)
    (below (Some k : MapKey K) l ++
     option_list (head (option_list (list_get (Some k : MapKey K) l) ++ above (Some k : MapKey K) l))))) =
    match list_get (Some k : MapKey K) l with Some _ => true | None => false end.
Proof.
  destruct (list_get _ l) as [x|] eqn:Hx; simpl.
  - apply list_get_entry in Hx as [_ <-]. rewrite pos_after_snoc. by rewrite (cmp_refl (Some _)).
  - destruct (above (Some k : MapKey K) l) as [|x r] eqn:Ha; simpl.
    + rewrite app_nil_r. remember (below (Some k : MapKey K) l) as b eqn:Hb.
      destruct b as [|x b _] using rev_ind; [done|]. rewrite pos_after_snoc.
      assert (Hin : x ∈ below (Some k : MapKey K) l) by (rewrite <-Hb; set_solver).
      apply elem_of_below in Hin as [Hlt _]. change (key x) with (Some (entry_key x)) in Hlt.
      by rewrite (cmp_opp (A:=MapKey K) (Some (entry_key x))), Hlt.
    + rewrite pos_after_snoc.
      assert (Hin : x ∈ above (Some k : MapKey K) l) by (rewrite Ha; set_solver).
      apply elem_of_above in Hin as [Hlt _]. change (key x) with (Some (entry_key x)) in Hlt. by rewrite Hlt.
Qed.

Section cursor_ops.
Context (m : @TreeMap.t K V) (f : K → option V) (Hm : represents m f) (Hh : seekable m).

(** The common beginning of [remove] and [update]. *)
Lemma slice_entry (k : K) :
  ∃ new_tree (cursor : Cursor.t (MapEntry K V) (MapKey K) (MapKey K)) end_,
    Cursor.slice (seek_ord (Some k : MapKey K)) Left (Cursor.new m) = Some (new_tree, cursor) ∧
    Cursor.end_ cursor = Some end_ ∧ tree_ok new_tree ∧
    to_list new_tree = below (Some k : MapKey K) (to_list m) ∧
    match list_get (Some k : MapKey K) (to_list m) with
    | Some x =>
        is_eq (cmp (Some k : MapKey K) end_) = true ∧ Cursor.item cursor = Some (Some x) ∧ entry_key x = k ∧
        f k = Some (entry_value x) ∧
        ∃ cursor' suffix rest_, Cursor.next cursor = Some cursor' ∧
          Cursor.suffix cursor' = Some (suffix, rest_) ∧ tree_ok suffix ∧
          to_list suffix = above (Some k : MapKey K) (to_list m)
    | None =>
        is_eq (cmp (Some k : MapKey K) end_) = false ∧ f k = None ∧
        ∃ suffix rest_, Cursor.suffix cursor = Some (suffix, rest_) ∧ tree_ok suffix ∧
          to_list suffix = above (Some k : MapKey K) (to_list m)
    end.
Proof.
  pose proof (represents_searchable _ _ Hm Hh) as Ht. destruct Hm as (Hok & Hs & Hf).
  destruct (slice_key_new m Ht Hs (Some k : MapKey K)) as (t1 & c1 & Hrun & H1 & Hl1 & Hc1); [done|].
  eexists t1, c1, _. split; [done|]. split; [by apply (split_at_end m)|]. split; [done|]. split; [done|].
  rewrite end_key. specialize (Hf k). unfold lookup_entry in Hf.
  destruct (list_get (Some k : MapKey K) (to_list m)) as [x|] eqn:Hx; simpl in *.
  - apply list_get_entry in Hx as [_ Hk].
    destruct (next_spec m Ht c1 _ _ _ Hc1) as (c2 & Hnext & Hc2).
    destruct (suffix_spec m c2 _ _ Ht (ready_split _ _ _ _ Hc2)) as (t3 & c3 & Hsuffix & H3 & Hl3 & _).
    split; [done|]. split; [by rewrite (split_at_item _ _ _ _ Hc1)|]. split; [done|]. split; [done|].
    exists c2, t3, c3. by split_and!.
  - destruct (suffix_spec m c1 _ _ Ht (ready_split _ _ _ _ Hc1)) as (t3 & c3 & Hsuffix & H3 & Hl3 & _).
    split; [done|]. split; [done|]. exists t3, c3. by split_and!.
Qed.

Lemma remove_represents k :
  ∃ m', TreeMap.remove m k = Some (f k, m') ∧
    represents m' (λ k', if is_eq (cmp k k') then None else f k').
Proof.
  destruct (slice_entry k) as (t1 & c1 & e & Hrun & Hend & H1 & Hl1 & Hrest).
  unfold TreeMap.remove. rewrite Hrun. cbn [mbind option_bind]. rewrite Hend. cbn [mbind option_bind].
  assert (Hfin : ∀ t3, tree_ok t3 → to_list t3 = above (Some k : MapKey K) (to_list m) →
    ∃ m', SumTree.append t1 t3 = Some m' ∧ represents m' (λ k', if is_eq (cmp k k') then None else f k')).
  { intros t3 H3 Hl3. destruct (append_ok t1 t3 H1 H3) as (m' & Happ & Hok' & Hl').
    exists m'. split; [done|]. eapply represents_remove; [done|done|]. by rewrite Hl', Hl1, Hl3. }
  destruct (list_get (Some k : MapKey K) (to_list m)) as [x|].
  - destruct Hrest as (-> & Hitem & Hk & -> & c2 & t3 & c3 & Hnext & Hsuffix & H3 & Hl3).
    rewrite Hitem. cbn [mbind option_bind]. rewrite Hnext. cbn [mbind option_bind]. rewrite Hsuffix.
    cbn [mbind option_bind]. destruct (Hfin t3 H3 Hl3) as (m' & -> & Hm'). by exists m'.
  - destruct Hrest as (-> & -> & t3 & c3 & Hsuffix & H3 & Hl3).
    cbn [mbind option_bind]. rewrite Hsuffix. cbn [mbind option_bind].
    destruct (Hfin t3 H3 Hl3) as (m' & -> & Hm'). by exists m'.
Qed.

Lemma update_represents {R} k (g : V → V * R) :
  ∃ m', TreeMap.update m k g = Some (option_map (λ v, (g v).2) (f k), m') ∧
    represents m' (λ k', if is_eq (cmp k k') then option_map (λ v, (g v).1) (f k) else f k').
Proof.
  destruct (slice_entry k) as (t1 & c1 & e & Hrun & Hend & H1 & Hl1 & Hrest).
  unfold TreeMap.update. rewrite Hrun. cbn [mbind option_bind]. rewrite Hend. cbn [mbind option_bind].
  destruct (list_get (Some k : MapKey K) (to_list m)) as [x|] eqn:Hx.
  - destruct Hrest as (-> & Hitem & Hk & -> & c2 & t3 & c3 & Hnext & Hsuffix & H3 & Hl3).
    rewrite Hitem. cbn [mbind option_bind]. destruct (g (entry_value x)) as [v r] eqn:Hg.
    destruct (push_ok t1 (mkMapEntry (entry_key x) v) H1) as (t2 & -> & H2 & Hl2). cbn [mbind option_bind].
    rewrite Hnext. cbn [mbind option_bind]. rewrite Hsuffix. cbn [mbind option_bind].
    destruct (append_ok t2 t3 H2 H3) as (m' & -> & Hok' & Hl'). exists m'. simpl. rewrite Hg. split; [done|].
    rewrite Hk in *. eapply represents_insert; [done|done|].
    rewrite Hl', Hl2, Hl1, Hl3, <-app_assoc. done.
  - destruct Hrest as (-> & Hfk & t3 & c3 & Hsuffix & H3 & Hl3). rewrite Hfk.
    cbn [mbind option_bind]. rewrite Hsuffix. cbn [mbind option_bind].
    destruct (append_ok t1 t3 H1 H3) as (m' & -> & Hok' & Hl'). exists m'. split; [done|].
    eapply represents_remove; [done|done|]. by rewrite Hl', Hl1, Hl3.
Qed.
End cursor_ops.

(** *** Batches *)

Definition insertions (l : list (K * V)) : list (Edit (MapEntry K V) (MapKey K)) :=
  map (λ '(k, v), Insert (mkMapEntry k v)) l.

Lemma insertions_keys l : map Keyed.edit_key (insertions l) = map (λ p, Some p.1) l.
Proof. unfold insertions. rewrite map_map. apply map_ext. by intros []. Qed.

(** The last value a list of pairs gives a key, or the old one. *)
Fixpoint extended (l : list (K * V)) (k : K) (old : option V) : option V :=
  match l with
  | [] => old
  | (k', v) :: l => if is_eq (cmp k' k) then Some v else extended l k old
  end.

Lemma edited_all_insertions l k old :
  option_map entry_value (edited_all (insertions l) (Some k : MapKey K) old) =
    extended l k (option_map entry_value old).
Proof.
  induction l as [|[k' v] l IH]; [done|]. simpl.
  change (cmp (key (mkMapEntry k' v)) (Some k)) with (cmp k' k). by destruct (is_eq _).
Qed.

Lemma edit_insertions_represents m f (l : list (K * V)) :
  represents m f → seekable m → NoDup (map fst l) →
  ∃ removed m', Keyed.edit (K:=MapKey K) m (insertions l) = Some (removed, m') ∧
    represents m' (λ k, extended l k (f k)).
Proof.
  intros Hm Hh Hnd. pose proof (represents_searchable _ _ Hm Hh) as Ht.
  destruct l as [|p l]; [by exists [], m|].
  assert (Hnd' : NoDup (map Keyed.edit_key (insertions (p :: l)))).
  { rewrite insertions_keys, <-(map_map fst Some). apply NoDup_fmap; [|done]. by intros ?? [=]. }
  destruct Hm as (Hok & Hs & Hf).
  destruct (edit_sorted_spec m Ht Hs (Keyed.sort_by_key (insertions (p :: l)))) as (m' & Hrun & Hok' & Hl).
  { by apply sort_by_key_sorted. }
  eexists _, m'. split; [unfold Keyed.edit; destruct p; exact Hrun|]. split; [done|]. rewrite Hl.
  split; [by apply foldl_apply_edit_sorted|]. intros k. unfold lookup_entry.
  rewrite foldl_apply_edit_get by (done || by rewrite sort_by_key_perm).
  rewrite <-(edited_all_perm (insertions (p :: l))) by (by rewrite ?sort_by_key_perm).
  rewrite edited_all_insertions. by rewrite <-Hf.
Qed.

Lemma extend_represents m f (l : list (K * V)) :
  represents m f → seekable m → NoDup (map fst l) →
  ∃ m', TreeMap.extend m l = Some m' ∧ represents m' (λ k, extended l k (f k)).
Proof.
  intros Hm Hh Hnd. destruct (edit_insertions_represents m f l Hm Hh Hnd) as (rem & m' & Hrun & Hm').
  exists m'. split; [|done]. unfold TreeMap.extend. fold (insertions l). by rewrite Hrun.
Qed.

Lemma keys_sorted_NoDup (l : list (MapEntry K V)) : keys_sorted l → NoDup (map entry_key l).
Proof.
  induction l as [|x l IH]; [constructor|]. intros [Hl Hx]%sorted_cons. simpl. constructor; [|by apply IH].
  intros (y & Heq & Hy)%list_elem_of_fmap. eapply Forall_forall in Hx; [|done].
  unfold key_lt in Hx. change (cmp (entry_key x) (entry_key y) = Lt) in Hx. by rewrite Heq, cmp_refl in Hx.
Qed.

Definition entry_pairs (l : list (MapEntry K V)) : list (K * V) :=
  map (λ x, (entry_key x, entry_value x)) l.

Lemma insert_tree_represents m f (other : @TreeMap.t K V) g :
  represents m f → seekable m → represents other g → seekable other →
  ∃ m', TreeMap.insert_tree m other = Some m' ∧
    represents m' (λ k, match g k with Some v => Some v | None => f k end).
Proof.
  intros Hm Hh (Hok' & Hs' & Hg) Hh'. unfold TreeMap.insert_tree, TreeMap.iter.
  rewrite iter_drain by (done || lia). cbn [mbind option_bind].
  assert (map (λ entry, Insert (mkMapEntry (entry_key entry) (entry_value entry))) (to_list other) =
    insertions (entry_pairs (to_list other))) as ->.
  { unfold insertions, entry_pairs. by rewrite map_map. }
  destruct (edit_insertions_represents m f (entry_pairs (to_list other)) Hm Hh) as (rem & m' & -> & Hok & Hs & Hm').
  { unfold entry_pairs. rewrite map_map. simpl. by apply keys_sorted_NoDup. }
  exists m'. split; [done|]. split; [done|]. split; [done|]. intros k. rewrite Hm', <-Hg.
  unfold lookup_entry. clear. induction (to_list other) as [|x l IH]; [done|]. simpl.
  change (cmp (key x) (Some k)) with (cmp (entry_key x) k).
  by destruct (is_eq _).
Qed.

(** *** Ranges and neighbours *)

(** A target in the order of the keys. *)
Definition target_monotone (target : MapSeekTarget K) : Prop :=
  ∀ k1 k2, cmp k1 k2 = Lt → rank (target k2) <= rank (target k1).

Definition passed (target : MapSeekTarget K) (x : MapEntry K V) : bool :=
  match target (entry_key x) with Gt => true | _ => false end.

Lemma lin_seek_adaptor target d (l : list (MapEntry K V)) :
  target_monotone target → keys_sorted l →
  lin_seek (MapSeekTarget_adaptor target) Left d l =
    (filter (passed target) l, pos_after d (filter (passed target) l), filter (λ x, negb (passed target x)) l).
Proof.
  intros Hm. revert d. induction l as [|x l IH]; intros d Hs; [done|].
  pose proof Hs as [Hs' Hx]%sorted_cons.
  assert (Hstop : stops (MapSeekTarget_adaptor target) Left (dim_add d (item_summary x)) = negb (passed target x)).
  { unfold stops, SumTree.target_in_child, passed. simpl. by destruct (target (entry_key x)). }
  assert (Hrest : passed target x = false → ∀ y, y ∈ l → passed target y = false).
  { intros Hne y Hy. eapply Forall_forall in Hx; [|done]. apply Hm in Hx.
    unfold passed in *. destruct (target (entry_key x)), (target (entry_key y)); simpl in Hx; try done; lia. }
  cbn [lin_seek]. rewrite Hstop, !filter_cons. destruct (passed target x) eqn:Hp; simpl.
  - by rewrite IH.
  - rewrite filter_none, filter_all; [done|..]; apply Forall_forall; intros y Hy; rewrite Hrest by done; simpl; tauto.
Qed.

Lemma adaptor_monotone target d (l : list (MapEntry K V)) :
  target_monotone target → keys_sorted l → leads d l → monotone (MapSeekTarget_adaptor target) d l.
Proof.
  intros Hm Hs Hd l1 l2 l3 ->. rewrite pos_after_app.
  destruct l2 as [|x l2 _] using rev_ind; [done|]. rewrite pos_after_snoc. simpl.
  assert (Hle : is_le (cmp (pos_after d l1) (Some (entry_key x) : MapKey K))).
  { rewrite <-app_assoc in Hs, Hd. pose proof (leads_pos_after _ _ _ Hd Hs) as Hl. apply Hl. set_solver. }
  destruct (pos_after d l1) as [k|]; simpl; [|destruct (target _); simpl; lia].
  change (Is_true (is_le (cmp k (entry_key x)))) in Hle.
  destruct (cmp k (entry_key x)) eqn:Hc; [apply cmp_eq in Hc as ->; done|by apply Hm|done].
Qed.

Lemma remove_range_represents m f start end_ :
  represents m f → seekable m → target_monotone start → target_monotone end_ →
  (∀ k, start k = Gt → end_ k = Gt) →
  ∃ m', TreeMap.remove_range m start end_ = Some m' ∧
    represents m' (λ k, match start k, end_ k with Gt, _ => f k | _, Gt => None | _, _ => f k end).
Proof.
  intros Hm Hh Hstart Hend Hle. pose proof (represents_searchable _ _ Hm Hh) as Ht. destruct Hm as (Hok & Hs & Hf).
  unfold TreeMap.remove_range.
  pose proof (slice_spec m (MapSeekTarget_adaptor start) Left (Cursor.new m) [] (to_list m) Ht
    (ready_new m) (adaptor_monotone _ _ _ Hstart Hs (leads_zero _)) ltac:(done)) as Hslice.
  rewrite lin_seek_adaptor in Hslice by done. destruct Hslice as (t1 & c1 & -> & H1 & Hl1 & Hc1).
  cbn [mbind option_bind].
  pose proof (seek_spec m (MapSeekTarget_adaptor end_) Left c1 Ht (ready_tree _ _ _ _ (ready_split _ _ _ _ Hc1))
    (adaptor_monotone _ _ _ Hend Hs (leads_zero _)) ltac:(done)) as Hseek.
  rewrite lin_seek_adaptor in Hseek by done. destruct Hseek as (c2 & -> & Hc2). cbn [mbind option_bind].
  destruct (suffix_spec m c2 _ _ Ht (ready_split _ _ _ _ Hc2)) as (t3 & c3 & -> & H3 & Hl3 & _).
  cbn [mbind option_bind].
  destruct (append_ok t1 t3 H1 H3) as (m' & -> & Hok' & Hl'). exists m'. split; [done|]. split; [done|].
  rewrite Hl', Hl1, Hl3. split.
  - unfold keys_sorted in *. apply sorted_app. split_and!.
    + by apply sorted_filter.
    + by apply sorted_filter.
    + intros x y [Hx Hxin]%list_elem_of_filter [Hy Hyin]%list_elem_of_filter. unfold passed in *.
      unfold key_lt. change (cmp (entry_key x) (entry_key y) = Lt).
      destruct (start (entry_key x)) eqn:Hsx; try done.
      destruct (cmp (entry_key x) (entry_key y)) eqn:Hc; [|done|].
      * apply cmp_eq in Hc. rewrite <-Hc, (Hle _ Hsx) in Hy. done.
      * apply cmp_gt_lt in Hc. apply Hend in Hc. rewrite (Hle _ Hsx) in Hc.
        destruct (end_ (entry_key y)); simpl in *; try done; lia.
  - intros k. rewrite <-Hf. unfold lookup_entry. rewrite list_get_app. clear Hf.
    rewrite !list_get_filter by done. destruct (list_get (Some k : MapKey K) (to_list m)) as [x|] eqn:Hx; [|by repeat case_match].
    apply list_get_entry in Hx as [_ <-]. unfold passed.
    destruct (start (entry_key x)), (end_ (entry_key x)); done.
Qed.

(** The entries up to a key, and those from it on. *)
Definition entries_le (k : K) (l : list (MapEntry K V)) : list (MapEntry K V) :=
  filter (λ x, is_le (cmp (entry_key x) k)) l.
Definition entries_ge (k : K) (l : list (MapEntry K V)) : list (MapEntry K V) :=
  filter (λ x, is_ge (cmp (entry_key x) k)) l.

Lemma entries_split (k : K) (l : list (MapEntry K V)) :
  keys_sorted l →
  entries_le k l = below (Some k : MapKey K) l ++ option_list (list_get (Some k : MapKey K) l) ∧
  entries_ge k l = option_list (list_get (Some k : MapKey K) l) ++ above (Some k : MapKey K) l.
Proof.
  intros Hs. set (b := below _ l). set (g := option_list _). set (a := above _ l).
  assert (Hb : Forall (λ x, cmp (entry_key x) k = Lt) b).
  { apply Forall_forall. by intros x [Hx _]%elem_of_below. }
  assert (Hg : Forall (λ x, entry_key x = k) g).
  { subst g. destruct (list_get _ l) as [x|] eqn:Hx; simpl; [|done].
    apply list_get_entry in Hx as [_ ?]. by repeat constructor. }
  assert (Ha : Forall (λ x, cmp (entry_key x) k = Gt) a).
  { apply Forall_forall. intros x [Hx _]%elem_of_above. by apply cmp_gt_lt. }
  assert (Hl : l = b ++ g ++ a) by by apply sorted_split.
  unfold entries_le, entries_ge. rewrite Hl, !filter_app. clearbody b g a. clear Hs Hl.
  split; [f_equal|].
  - apply filter_all. eapply Forall_impl; [done|]. by intros x ->.
  - rewrite filter_all, filter_none, app_nil_r; [done|..]; (eapply Forall_impl; [done|]).
    + intros x ->. simpl. tauto.
    + intros x ->. by rewrite cmp_refl.
  - rewrite filter_none; [|eapply Forall_impl; [done|]; intros x ->; simpl; tauto]. simpl. f_equal.
    + apply filter_all. eapply Forall_impl; [done|]. intros x ->. by rewrite cmp_refl.
    + apply filter_all. eapply Forall_impl; [done|]. by intros x ->.
Qed.

Lemma closest_represents m f k :
  represents m f → seekable m →
  TreeMap.closest m k =
    Some (option_map (λ x, (entry_key x, entry_value x)) (last (entries_le k (to_list m)))).
Proof.
  intros Hm Hh. pose proof (represents_searchable _ _ Hm Hh) as Ht. destruct Hm as (Hok & Hs & Hf).
  destruct (entries_split k _ Hs) as [-> _]. unfold TreeMap.closest.
  assert (Hz : seek_ord (Some k : MapKey K) (dim_zero : MapKey K) ≠ Lt) by done.
  pose proof (seek_spec m (seek_ord (Some k : MapKey K)) Right (Cursor.new m) Ht eq_refl
    (keyed_monotone _ _ _ (leads_zero _) Hs) Hz) as Hseek.
  rewrite lin_seek_right in Hseek by (done || apply leads_zero).
  destruct Hseek as (c & -> & Hc). cbn [mbind option_bind].
  set (B := below _ _ ++ _) in *. clearbody B. set (R := above _ _) in *. clearbody R.
  destruct B as [|x B _] using rev_ind.
  - destruct R as [|y R].
    + destruct (search_backward_prev m Ht _ filter_sound_true c [] [] Hc) as (c' & Hrun & Hmoved).
      unfold Cursor.prev. rewrite Hrun. cbn [mbind option_bind].
      destruct Hmoved as [(B1 & ? & ? & Heq & _)|[(_ & Hne & Hst)|(_ & Hst)]]; [by destruct B1| |].
      * by rewrite (before_start_item m c' Hst).
      * by rewrite (split_at_item _ _ _ _ Hst).
    + destruct (prev_first m Ht c (y :: R) Hc) as (c' & -> & Hst); [done|]. cbn [mbind option_bind].
      by rewrite (before_start_item m c' Hst).
  - destruct (prev_spec m Ht c B x R Hc) as (c' & -> & Hc'). cbn [mbind option_bind].
    rewrite (split_at_item _ _ _ _ Hc'). simpl. by rewrite last_snoc.
Qed.

Lemma iter_from_drain m f k fuel :
  represents m f → seekable m → length (to_list m) < fuel →
  ∃ cursor, TreeMap.iter_from m k = Some cursor ∧
    drain Cursor.iter_next fuel cursor = Some (entries_ge k (to_list m)).
Proof.
  intros Hm Hh Hlen. pose proof (represents_searchable _ _ Hm Hh) as Ht. destruct Hm as (Hok & Hs & Hf).
  destruct (entries_split k _ Hs) as [_ ->]. unfold TreeMap.iter_from.
  assert (Hz : seek_ord (Some k : MapKey K) (dim_zero : MapKey K) ≠ Lt) by done.
  pose proof (seek_spec m (seek_ord (Some k : MapKey K)) Left (Cursor.new m) Ht eq_refl
    (keyed_monotone _ _ _ (leads_zero _) Hs) Hz) as Hseek.
  rewrite lin_seek_left in Hseek by (done || apply leads_zero).
  destruct Hseek as (c & -> & Hc). cbn [mbind option_bind]. exists c. split; [done|].
  apply (cursor_drain_split m Ht _ _ _ _ Hc).
  destruct Hc as (_ & Hlist & _). rewrite Hlist, length_app in Hlen. lia.
Qed.

Lemma retain_loop_spec m (pred : K → V → bool) fuel new_map c B R :
  searchable m → split_at m c B R → tree_ok new_map → length R <= fuel →
  ∃ m', TreeMap.retain_loop pred fuel new_map c = Some m' ∧ tree_ok m' ∧
    to_list m' = to_list new_map ++ filter (λ x, pred (entry_key x) (entry_value x)) R.
Proof.
  intros Ht. revert new_map c B R. induction fuel as [|fuel IH]; intros new_map c B R Hc Hok Hlen;
    simpl; rewrite (split_at_item _ _ _ _ Hc); (destruct R as [|x R];
    [exists new_map; by rewrite app_nil_r|]); simpl in *; [lia|].
  destruct (next_spec m Ht c _ _ _ Hc) as (c' & -> & Hc'). rewrite filter_cons.
  destruct (pred (entry_key x) (entry_value x)); simpl.
  - destruct (push_ok new_map x Hok) as (t1 & -> & H1 & Hl1). simpl.
    destruct (IH t1 c' _ _ Hc' H1) as (m' & -> & Hm' & Hl'); [lia|]. exists m'.
    split_and!; [done..|]. by rewrite Hl', Hl1, <-app_assoc.
  - destruct (IH new_map c' _ _ Hc' Hok) as (m' & -> & Hm' & Hl'); [lia|]. by exists m'.
Qed.

Lemma retain_represents m f (pred : K → V → bool) :
  represents m f → seekable m →
  ∃ m', TreeMap.retain m pred = Some m' ∧
    represents m' (λ k, match f k with Some v => if pred k v then Some v else None | None => None end).
Proof.
  intros Hm Hh. pose proof (represents_searchable _ _ Hm Hh) as Ht. destruct Hm as (Hok & Hs & Hf).
  unfold TreeMap.retain.
  destruct (next_first m Ht (Cursor.new m : Cursor.t _ _ (MapKey K))) as (c & -> & Hc); [by left|].
  cbn [mbind option_bind].
  destruct (retain_loop_spec m pred (length (to_list m)) TreeMap.default c [] (to_list m) Ht Hc)
    as (m' & -> & Hok' & Hl); [by left|done|].
  exists m'. split; [done|]. split; [done|]. rewrite Hl. split; [by apply sorted_filter|].
  intros k. rewrite <-Hf. unfold lookup_entry. simpl.
  rewrite (list_get_filter (λ x, pred (entry_key x) (entry_value x))) by done.
  destruct (list_get _ _) as [x|] eqn:Hx; [|done]. apply list_get_entry in Hx as [_ <-]. simpl.
  by destruct (pred _ _).
Qed.
End laws.

(** ** Properties *)

(** [TreeMap] as a finite map, one key at a time: [get] reads it,
    [insert_or_replace] and [remove] return the old value and update it at the
    key only, [update] applies a function to the value if there is one. *)
Theorem tree_map_point_operations {K V R} `{OrdLaws K} (m : @TreeMap.t K V) (f : K → option V) (k : K) (v : V)
    (g : V → V * R) (Hm : represents m f) (Hh : seekable m) :
  TreeMap.get m k = f k ∧
  (∃ m', TreeMap.insert_or_replace m k v = Some (f k, m') ∧
    represents m' (λ k', if is_eq (cmp k k') then Some v else f k')) ∧
  (∃ m', TreeMap.remove m k = Some (f k, m') ∧
    represents m' (λ k', if is_eq (cmp k k') then None else f k')) ∧
  (∃ m', TreeMap.update m k g = Some (option_map (λ v, (g v).2) (f k), m') ∧
    represents m' (λ k', if is_eq (cmp k k') then option_map (λ v, (g v).1) (f k) else f k')).
Proof.
  split; [by apply get_represents|]. split; [by apply insert_or_replace_represents|].
  split; [by apply remove_represents|by apply update_represents].
Qed.

(** Batches: [extend] with pairs of distinct keys overwrites exactly those
    keys, [insert_tree] is the union that prefers the other map. *)
Theorem tree_map_batches {K V} `{OrdLaws K} (m other : @TreeMap.t K V) (f g : K → option V) (l : list (K * V))
    (Hm : represents m f) (Hh : seekable m) (Ho : represents other g) (Hho : seekable other)
    (Hnd : NoDup (map fst l)) :
  (∃ m', TreeMap.extend m l = Some m' ∧ represents m' (λ k, extended l k (f k))) ∧
  (∃ m', TreeMap.insert_tree m other = Some m' ∧
    represents m' (λ k, match g k with Some v => Some v | None => f k end)).
Proof. split; [by apply extend_represents|by apply insert_tree_represents]. Qed.

(** [remove_range] removes exactly the keys from the start target up to the
    end target, for targets in the order of the keys with the start first;
    [retain] keeps exactly the entries its predicate accepts. *)
Theorem tree_map_restrict {K V} `{OrdLaws K} (m : @TreeMap.t K V) (f : K → option V) (start end_ : MapSeekTarget K)
    (pred : K → V → bool) (Hm : represents m f) (Hh : seekable m)
    (Hstart : target_monotone start) (Hend : target_monotone end_) (Hle : ∀ k, start k = Gt → end_ k = Gt) :
  (∃ m', TreeMap.remove_range m start end_ = Some m' ∧
    represents m' (λ k, match start k, end_ k with Gt, _ => f k | _, Gt => None | _, _ => f k end)) ∧
  (∃ m', TreeMap.retain m pred = Some m' ∧
    represents m' (λ k, match f k with Some v => if pred k v then Some v else None | None => None end)).
Proof. split; [by apply remove_range_represents|by apply retain_represents]. Qed.

(** [closest] returns the entry with the greatest key at most the given
    one, [iter_from] yields the entries from the given key on, in order. *)
Theorem tree_map_neighbours {K V} `{OrdLaws K} (m : @TreeMap.t K V) (f : K → option V) (k : K) (fuel : nat)
    (Hm : represents m f) (Hh : seekable m) (Hfuel : length (to_list m) < fuel) :
  TreeMap.closest m k =
    Some (option_map (λ x, (entry_key x, entry_value x))
      (last (filter (λ x, is_le (cmp (entry_key x) k)) (to_list m)))) ∧
  ∃ cursor, TreeMap.iter_from m k = Some cursor ∧
    drain Cursor.iter_next fuel cursor = Some (filter (λ x, is_ge (cmp (entry_key x) k)) (to_list m)).
Proof. split; [by eapply closest_represents|by eapply iter_from_drain]. Qed.

(** A map from 1..13 to the squares, for the witnesses. *)
Definition squares : @TreeMap.t nat nat :=
  default SumTree.new (TreeMap.from_ordered_entries (map (λ n, (n, n * n)) (seq 1 13))).

Definition square_of (k : nat) : option nat := if (1 <=? k) && (k <=? 13) then Some (k * k) else None.

Lemma squares_represent : represents squares square_of.
Proof.
  split; [right; exists 1; vm_compute; split_and!; try lia; try done; repeat constructor; lia|].
  split; [vm_compute; repeat constructor|]. intros k.
  do 14 (destruct k as [|k]; [done|]). done.
Qed.

Lemma squares_seekable : seekable squares.
Proof. vm_compute. lia. Qed.

Lemma tree_map_point_operations_witness :
  TreeMap.get squares 5 = Some 25 ∧
  (∃ m', TreeMap.insert_or_replace squares 5 7 = Some (Some 25, m') ∧
    represents m' (λ k', if is_eq (cmp 5 k') then Some 7 else square_of k')) ∧
  (∃ m', TreeMap.remove squares 5 = Some (Some 25, m') ∧
    represents m' (λ k', if is_eq (cmp 5 k') then None else square_of k')) ∧
  (∃ m', TreeMap.update squares 5 (λ v, (v + 1, v)) = Some (Some 25, m') ∧
    represents m' (λ k', if is_eq (cmp 5 k') then Some 26 else square_of k')).
Proof. exact (tree_map_point_operations squares square_of 5 7 (λ v, (v + 1, v)) squares_represent squares_seekable). Defined.

Lemma tree_map_batches_witness :
  (∃ m', TreeMap.extend squares [(20, 1); (3, 2)] = Some m' ∧
    represents m' (λ k, extended [(20, 1); (3, 2)] k (square_of k))) ∧
  (∃ m', TreeMap.insert_tree squares squares = Some m' ∧
    represents m' (λ k, match square_of k with Some v => Some v | None => square_of k end)).
Proof.
  exact (tree_map_batches squares squares square_of square_of [(20, 1); (3, 2)] squares_represent squares_seekable
    squares_represent squares_seekable ltac:(repeat constructor; set_solver)).
Defined.

Lemma key_target_monotone (k : nat) : target_monotone (key_target k).
Proof.
  intros k1 k2. unfold key_target, cmp, nat_ord. rewrite Nat.compare_lt_iff. intros Hlt.
  destruct (Nat.compare_spec k k1), (Nat.compare_spec k k2); simpl; lia.
Qed.

Lemma tree_map_restrict_witness :
  (∃ m', TreeMap.remove_range squares (key_target 4) (key_target 9) = Some m' ∧
    represents m' (λ k, match key_target 4 k, key_target 9 k with
                        | Gt, _ => square_of k | _, Gt => None | _, _ => square_of k end)) ∧
  (∃ m', TreeMap.retain squares (λ k _, Nat.even k) = Some m' ∧
    represents m' (λ k, match square_of k with Some v => if Nat.even k then Some v else None | None => None end)).
Proof.
  apply (tree_map_restrict squares square_of (key_target 4) (key_target 9) (λ k _, Nat.even k) squares_represent
    squares_seekable (key_target_monotone 4) (key_target_monotone 9)).
  intros k. unfold key_target, cmp, nat_ord. rewrite !Nat.compare_gt_iff. lia.
Defined.

Lemma tree_map_neighbours_witness :
  TreeMap.closest squares 20 = Some (Some (13, 169)) ∧
  ∃ cursor, TreeMap.iter_from squares 12 = Some cursor ∧
    drain Cursor.iter_next 14 cursor = Some [mkMapEntry 12 144; mkMapEntry 13 169].
Proof.
  destruct (tree_map_neighbours squares square_of 20 14 squares_represent squares_seekable) as [Hc _];
    [vm_compute; lia|].
  destruct (tree_map_neighbours squares square_of 12 14 squares_represent squares_seekable) as [_ Hi];
    [vm_compute; lia|].
  split; [rewrite Hc; vm_compute; reflexivity|exact Hi].
Defined.

(** [extend] with a repeated key leaves two entries for it: the map then no
    longer has strictly increasing keys. *)
Example extend_repeated_key :
  (m ← TreeMap.extend (TreeMap.default : @TreeMap.t nat nat) [(1, 10); (1, 20)]; Some (to_list m)) =
    Some [mkMapEntry 1 10; mkMapEntry 1 20].
Proof. vm_compute. reflexivity. Qed.
