(* ===== verification/UndoMap.v ===== *)
(** * The undo map ([crates/text/src/undo_map.rs])

    For every edit, how often each undo operation has undone or redone it.  An
    edit is undone when the greatest count is odd.  Replicas apply the same undo
    operations in different orders and must agree. *)

From S2P Require Import Prelude Clock SumTree SumTreeFacts Seek Cursor CursorFacts CursorWalk Keyed KeyedFacts.

(** [struct UndoMapKey], with the derived order *)
Record UndoMapKey := mkUndoMapKey { edit_id : Lamport; undo_id : Lamport }.
#[global] Instance UndoMapKey_eq_dec : EqDecision UndoMapKey.
Proof. solve_decision. Defined.
#[global] Instance UndoMapKey_ord : Ord UndoMapKey := λ self other,
  then_with (cmp (edit_id self) (edit_id other)) (cmp (undo_id self) (undo_id other)).

(** [struct UndoMapEntry] *)
Record UndoMapEntry := mkUndoMapEntry { entry_key : UndoMapKey; undo_count_of : N }.

(** [struct UndoOperation] of [text.rs] *)
Record UndoOperation := mkUndoOperation {
  timestamp : Lamport;
  version : Global;
  counts : gmap Lamport N;
}.

(** [impl ContextLessSummary for UndoMapKey] *)
#[global] Instance UndoMapKey_summary : Summary UndoMapKey :=
  {| zero := mkUndoMapKey Lamport.MIN Lamport.MIN; add_summary := cmp_max |}.

(** [impl Item for UndoMapEntry], [impl KeyedItem for UndoMapEntry] *)
#[global] Instance UndoMapEntry_item : Item UndoMapEntry UndoMapKey := entry_key.
#[global] Instance UndoMapEntry_keyed : KeyedItem UndoMapEntry UndoMapKey := entry_key.

Module UndoMap.
(** [struct UndoMap] *)
Definition t : Type := SumTree UndoMapEntry UndoMapKey.
Definition default : t := SumTree.new.

(** The hash map's iteration order is that of [map_to_list]; [edit] sorts. *)
Definition insert (self : t) (undo : UndoOperation) : option t :=
  let edits := map (λ '(edit_id, count),
    Insert (mkUndoMapEntry (mkUndoMapKey edit_id (timestamp undo)) count)) (map_to_list (counts undo)) in
  '(_, self) ← Keyed.edit (K:=UndoMapKey) self edits; Some self.

(** The cursor both lookups start from. *)
Definition entries_from (self : t) (id : Lamport) : option (Cursor.t UndoMapEntry UndoMapKey UndoMapKey) :=
  '(_, cursor) ← Cursor.seek (seek_ord (mkUndoMapKey id Lamport.MIN)) Left (Cursor.new self);
  Some cursor.

(** The loop over the cursor: the greatest count of the entries of [id] that
    [counted] accepts.  Each iteration consumes an entry. *)
Fixpoint max_count (id : Lamport) (counted : UndoMapEntry → bool) (fuel : nat) (undo_count : N)
    (cursor : Cursor.t UndoMapEntry UndoMapKey UndoMapKey) : option N :=
  '(entry, cursor) ← Cursor.iter_next cursor;
  match entry with
  | None => Some undo_count
  | Some entry =>
      if negb (bool_decide (edit_id (entry_key entry) = id)) then Some undo_count
      else
        match fuel with
        | 0 => None
        | S fuel =>
            let undo_count := if counted entry then N.max undo_count (undo_count_of entry) else undo_count in
            max_count id counted fuel undo_count cursor
        end
  end.

Definition undo_count (self : t) (id : Lamport) : option N :=
  cursor ← entries_from self id;
  max_count id (λ _, true) (length (to_list self)) 0 cursor.

Definition is_undone (self : t) (id : Lamport) : option bool :=
  undo_count ← undo_count self id; Some (undo_count mod 2 =? 1)%N.

Definition was_undone (self : t) (id : Lamport) (version : Global) : option bool :=
  cursor ← entries_from self id;
  undo_count ← max_count id (λ entry, Global.observed version (undo_id (entry_key entry)))
    (length (to_list self)) 0 cursor;
  Some (undo_count mod 2 =? 1)%N.
End UndoMap.

(** ** Laws *)

#[global] Instance UndoMapKey_ord_laws : OrdLaws UndoMapKey.
Proof.
  split.
  - intros x. exact (cmp_refl (edit_id x, undo_id x)).
  - intros [e u] [e' u'] E. pose proof (cmp_eq (e, u) (e', u') E). by simplify_eq.
  - intros x y. exact (cmp_opp (edit_id x, undo_id x) (edit_id y, undo_id y)).
  - intros x y z.
    exact (cmp_lt_trans (edit_id x, undo_id x) (edit_id y, undo_id y) (edit_id z, undo_id z)).
Qed.

Lemma Lamport_MIN_le (t : Lamport) : is_le (cmp Lamport.MIN t).
Proof. destruct t as [[|v] r]; [by destruct r|done]. Qed.

Lemma UndoMapKey_zero_le (k : UndoMapKey) : is_le (cmp (zero : UndoMapKey) k).
Proof.
  destruct k as [e u]. unfold cmp, UndoMapKey_ord. simpl.
  pose proof (Lamport_MIN_le e). pose proof (Lamport_MIN_le u). by destruct (cmp Lamport.MIN e).
Qed.

#[global] Instance UndoMapKey_summary_laws : SummaryLaws UndoMapKey.
Proof.
  split; simpl.
  - apply cmp_max_assoc.
  - intros a. unfold cmp_max. pose proof (UndoMapKey_zero_le a) as Hle. simpl in Hle.
    by destruct (is_le (cmp _ a)).
Qed.

#[global] Instance UndoMapEntry_keyed_laws : KeyedItemLaws UndoMapEntry UndoMapKey UndoMapKey.
Proof.
  split; [apply _|apply _|intros x; apply UndoMapKey_zero_le|].
  intros d x Hle. simpl. unfold cmp_max, item_summary, UndoMapEntry_item. unfold key, UndoMapEntry_keyed in *.
  by destruct (is_le (cmp d (entry_key x))).
Qed.

(** ** The greatest count *)

Definition max_list (l : list N) : N := foldr N.max 0%N l.

Lemma max_list_le l c : c ∈ l → (c <= max_list l)%N.
Proof. induction l as [|x l IH]; simpl; [set_solver|]. intros [->|Hc]%elem_of_cons; [lia|]. apply IH in Hc. lia. Qed.

Lemma max_list_in l : max_list l = 0%N ∨ max_list l ∈ l.
Proof.
  induction l as [|x l IH]; simpl; [by left|].
  destruct (N.max_spec x (max_list l)) as [[_ ->]|[_ ->]]; set_solver.
Qed.

(** The greatest element depends on the set of elements only. *)
Lemma max_list_ext l k : (∀ c, c ∈ l ↔ c ∈ k) → max_list l = max_list k.
Proof.
  intros Hlk. apply N.le_antisymm.
  - destruct (max_list_in l) as [->|Hin]; [lia|]. by apply max_list_le, Hlk.
  - destruct (max_list_in k) as [->|Hin]; [lia|]. by apply max_list_le, Hlk.
Qed.

Lemma UndoMapKey_cmp (k k' : UndoMapKey) :
  cmp k k' = then_with (cmp (edit_id k) (edit_id k')) (cmp (undo_id k) (undo_id k')).
Proof. done. Qed.

Lemma key_lt_edit (x y : UndoMapEntry) :
  key_lt (K:=UndoMapKey) x y → is_le (cmp (edit_id (entry_key x)) (edit_id (entry_key y))).
Proof.
  unfold key_lt. change (key x) with (entry_key x). change (key y) with (entry_key y). rewrite UndoMapKey_cmp.
  by destruct (cmp (edit_id _) _).
Qed.

(** ** The lookups *)

Section lookups.
Context (u : UndoMap.t) (Hu : searchable u) (Hs : sorted (K:=UndoMapKey) (to_list u)).

Definition entries_of (id : Lamport) (l : list UndoMapEntry) : list UndoMapEntry :=
  filter (λ x, edit_id (entry_key x) = id) l.

Lemma max_count_spec id counted fuel n c B R :
  split_at u c B R → length R <= fuel → sorted (K:=UndoMapKey) R →
  (∀ x, x ∈ R → is_le (cmp id (edit_id (entry_key x)))) →
  UndoMap.max_count id counted fuel n c =
    Some (N.max n (max_list (map undo_count_of (filter counted (entries_of id R))))).
Proof.
  revert n c B R. induction fuel as [|fuel IH]; intros n c B R Hc Hlen Hsorted Hge; simpl.
  - destruct R; simpl in Hlen; [|lia]. rewrite (cursor_iter_next_end u c _ Hc). simpl. f_equal. lia.
  - destruct R as [|x R]; [rewrite (cursor_iter_next_end u c _ Hc); simpl; f_equal; lia|].
    destruct (cursor_iter_next u Hu c _ _ _ Hc) as (c' & -> & Hc'). simpl.
    apply sorted_cons in Hsorted as [Hsorted Hx]. unfold entries_of. rewrite filter_cons.
    case_bool_decide as Hid; simpl.
    + rewrite decide_True by done. rewrite (IH _ _ _ _ Hc') by (simpl in Hlen; lia || done || set_solver).
      rewrite filter_cons. destruct (counted x); simpl; f_equal; unfold entries_of; lia.
    + rewrite decide_False by done. rewrite (filter_none (λ x, edit_id (entry_key x) = id) R); [f_equal; simpl; lia|].
      apply Forall_forall. intros y Hy. eapply Forall_forall in Hx; [|done]. intros Hidy.
      assert (Hle : is_le (cmp id (edit_id (entry_key x)))) by (apply Hge; set_solver).
      apply key_lt_edit in Hx. rewrite Hidy in Hx.
      destruct (cmp id (edit_id (entry_key x))) eqn:Hc0; [by apply cmp_eq in Hc0|..|done].
      by rewrite (cmp_opp id), Hc0 in Hx.
Qed.

Lemma key_MIN_le id (k : UndoMapKey) :
  cmp k (mkUndoMapKey id Lamport.MIN) = Lt ↔ cmp (edit_id k) id = Lt.
Proof.
  rewrite UndoMapKey_cmp. simpl. destruct (cmp (edit_id k) id) eqn:Hc; simpl; try done.
  pose proof (Lamport_MIN_le (undo_id k)) as Hle. rewrite (cmp_opp Lamport.MIN).
  by destruct (cmp Lamport.MIN (undo_id k)).
Qed.

Lemma entries_from_spec id counted :
  ∃ c, UndoMap.entries_from u id = Some c ∧
    UndoMap.max_count id counted (length (to_list u)) 0 c =
      Some (max_list (map undo_count_of (filter counted (entries_of id (to_list u))))).
Proof.
  unfold UndoMap.entries_from. set (k := mkUndoMapKey id Lamport.MIN).
  assert (Hz : seek_ord k (dim_zero : UndoMapKey) ≠ Lt).
  { unfold seek_ord. pose proof (UndoMapKey_zero_le k) as Hle. rewrite (cmp_opp (dim_zero : UndoMapKey)).
    change (dim_zero : UndoMapKey) with (zero : UndoMapKey). by destruct (cmp zero k). }
  pose proof (seek_spec u (seek_ord k) Left (Cursor.new u) Hu eq_refl
    (keyed_monotone _ _ _ (leads_zero _) Hs) Hz) as Hseek.
  rewrite lin_seek_left in Hseek by (done || apply leads_zero).
  destruct Hseek as (c & -> & Hc). simpl. exists c. split; [done|].
  pose proof (sorted_split k _ Hs) as Hsplit.
  set (R := option_list (list_get k (to_list u)) ++ above k (to_list u)) in *.
  assert (Hge : ∀ x, x ∈ R → is_le (cmp id (edit_id (entry_key x)))).
  { intros x Hx. assert (Hk : cmp (entry_key x) k ≠ Lt).
    { subst R. apply elem_of_app in Hx as [Hx|[Hx _]%elem_of_above].
      - destruct (list_get k (to_list u)) as [y|] eqn:Hy; [|set_solver].
        apply list_elem_of_singleton in Hx as ->. apply list_get_Some in Hy as [_ Hy].
        change (key y) with (entry_key y) in Hy. by rewrite Hy, cmp_refl.
      - change (key x) with (entry_key x) in Hx. by rewrite (cmp_opp k), Hx. }
    unfold k in Hk. rewrite key_MIN_le in Hk. rewrite (cmp_opp (edit_id (entry_key x))).
    by destruct (cmp (edit_id (entry_key x)) id). }
  assert (HsR : sorted (K:=UndoMapKey) R).
  { rewrite Hsplit in Hs. by apply sorted_app in Hs as (_ & ? & _). }
  rewrite (max_count_spec id counted _ _ _ _ _ Hc); [|rewrite Hsplit, length_app; lia|done..].
  rewrite N.max_0_l. rewrite Hsplit at 1. unfold entries_of. rewrite filter_app.
  rewrite (filter_none _ (below k (to_list u))); [done|].
  apply Forall_forall. intros x [Hx _]%elem_of_below Hid. change (key x) with (entry_key x) in Hx.
  unfold k in Hx. by rewrite key_MIN_le, Hid, cmp_refl in Hx.
Qed.

Lemma undo_count_spec id :
  UndoMap.undo_count u id = Some (max_list (map undo_count_of (entries_of id (to_list u)))).
Proof.
  unfold UndoMap.undo_count. destruct (entries_from_spec id (λ _, true)) as (c & -> & Hmax). simpl.
  rewrite Hmax. by rewrite filter_all by by apply Forall_forall.
Qed.

Lemma was_undone_spec id v :
  UndoMap.was_undone u id v = Some (max_list (map undo_count_of
    (filter (λ x, Global.observed v (undo_id (entry_key x))) (entries_of id (to_list u)))) mod 2 =? 1)%N.
Proof.
  unfold UndoMap.was_undone.
  destruct (entries_from_spec id (λ x, Global.observed v (undo_id (entry_key x)))) as (c & -> & Hmax). simpl.
  by rewrite Hmax.
Qed.
End lookups.

(** ** Histories *)

(** The undo maps a replica reaches, with the operations applied, in order. *)
Inductive undo_history : UndoMap.t → list UndoOperation → Prop :=
  | undo_history_nil : undo_history UndoMap.default []
  | undo_history_snoc u ops op u' :
      undo_history u ops → Node.height u < STACK_CAPACITY → UndoMap.insert u op = Some u' →
      undo_history u' (ops ++ [op]).

(** The entries an operation contributes. *)
Definition op_entry (op : UndoOperation) (x : UndoMapEntry) : Prop :=
  undo_id (entry_key x) = timestamp op ∧ counts op !! edit_id (entry_key x) = Some (undo_count_of x).

Lemma insert_spec u op :
  searchable u → sorted (K:=UndoMapKey) (to_list u) →
  (∀ x, x ∈ to_list u → undo_id (entry_key x) ≠ timestamp op) →
  ∃ u', UndoMap.insert u op = Some u' ∧ tree_ok u' ∧ sorted (K:=UndoMapKey) (to_list u') ∧
    ∀ x, x ∈ to_list u' ↔ x ∈ to_list u ∨ op_entry op x.
Proof.
  intros Hu Hs Hfresh. unfold UndoMap.insert. set (es := map _ (map_to_list (counts op))).
  assert (Hkeys : map Keyed.edit_key es = map (λ p, mkUndoMapKey p.1 (timestamp op)) (map_to_list (counts op))).
  { subst es. rewrite map_map. apply map_ext. by intros []. }
  assert (Hnd : NoDup (map Keyed.edit_key es)).
  { rewrite Hkeys, <-(map_map fst (λ e, mkUndoMapKey e (timestamp op))).
    apply NoDup_fmap; [by intros ?? [=]|]. apply NoDup_fst_map_to_list. }
  destruct (edit_ok u es Hu Hs Hnd) as (removed & u' & -> & Hok & Hs' & Hget). simpl. exists u'.
  split; [done|]. split; [done|]. split; [done|]. intros x.
  assert (Hin : ∀ l, sorted (K:=UndoMapKey) l → x ∈ l ↔ list_get (entry_key x) l = Some x).
  { intros l Hl. split; [intros; by apply list_get_sorted|by intros [? _]%list_get_Some]. }
  rewrite (Hin (to_list u')), Hget by done.
  destruct (decide (entry_key x ∈ map Keyed.edit_key es)) as [Hk|Hk].
  - apply list_elem_of_fmap in Hk as (e & Hek & He). rewrite Hek, edited_all_in by done.
    apply list_elem_of_fmap in He as ([eid n] & -> & Hc). simpl in *. apply elem_of_map_to_list in Hc.
    unfold op_entry. rewrite Hek. unfold key, UndoMapEntry_keyed. simpl. rewrite Hc. split.
    + intros [= <-]. by right.
    + intros [Hx|[_ [= ->]]].
      * apply Hfresh in Hx. rewrite Hek in Hx. done.
      * destruct x as [kx cx]. simpl in *. subst kx. done.
  - rewrite edited_all_notin by (intros e He Heq; apply Hk; rewrite <-Heq; apply list_elem_of_fmap; eauto).
    rewrite <-Hin by done. split; [by left|]. intros [?|[Hts Hc]]; [done|]. destruct Hk. rewrite Hkeys.
    apply list_elem_of_fmap. exists (edit_id (entry_key x), undo_count_of x). split; [|by apply elem_of_map_to_list].
    destruct x as [[e i] n]. simpl in *. by subst.
Qed.

Lemma undo_history_entries u ops :
  undo_history u ops → NoDup (map timestamp ops) →
  tree_ok u ∧ sorted (K:=UndoMapKey) (to_list u) ∧ ∀ x, x ∈ to_list u ↔ ∃ op, op ∈ ops ∧ op_entry op x.
Proof.
  induction 1 as [|u ops op u' Hhist IH Hh Hins]; intros Hnd.
  { split; [by left|]. split; [constructor|]. set_solver. }
  rewrite map_app in Hnd. apply NoDup_app in Hnd as (Hnd & Hfresh & _). simpl in Hfresh.
  destruct (IH Hnd) as (Hok & Hs & Hin).
  destruct (insert_spec u op) as (u'' & Hins' & Hok' & Hs' & Hin'); [by split|done| |].
  { intros x (op' & Hop' & [-> _])%Hin Heq. apply (Hfresh (timestamp op')); [|set_solver].
    apply list_elem_of_fmap. eauto. }
  rewrite Hins in Hins'. simplify_eq. split; [done|]. split; [done|]. intros x. rewrite Hin', Hin. set_solver.
Qed.

(** The counts the operations give an edit. *)
Definition op_counts (id : Lamport) (ops : list UndoOperation) : list N :=
  omap (λ op, counts op !! id) ops.

Lemma history_counts u ops id (P : Lamport → bool) :
  undo_history u ops → NoDup (map timestamp ops) →
  max_list (map undo_count_of (filter (λ x, P (undo_id (entry_key x))) (entries_of id (to_list u)))) =
    max_list (op_counts id (filter (λ op, P (timestamp op)) ops)).
Proof.
  intros Hhist Hnd. destruct (undo_history_entries u ops Hhist Hnd) as (_ & _ & Hin).
  apply max_list_ext. intros c. unfold op_counts, entries_of. rewrite list_elem_of_omap, list_elem_of_fmap.
  setoid_rewrite list_elem_of_filter. setoid_rewrite list_elem_of_filter. setoid_rewrite Hin. split.
  - intros (x & -> & HP & <- & op & Hop & Hts & Hc). exists op. by rewrite <-Hts.
  - intros (op & [HP Hop] & Hc). exists (mkUndoMapEntry (mkUndoMapKey id (timestamp op)) c).
    split; [done|]. split; [done|]. split; [done|]. by exists op.
Qed.

(** ** Properties *)

(** C39. The undo state is a function of the set of undo operations applied: an
    edit's count is the greatest count any of them gives it, whatever the order
    in which they arrived, and [was_undone] at a version is the same over the
    operations that version has observed.  Applying one more operation never
    panics. *)
Theorem undo_count_is_max u ops id v op
    (Hu : undo_history u ops) (Hh : Node.height u < STACK_CAPACITY) (Hnd : NoDup (map timestamp (op :: ops))) :
  UndoMap.undo_count u id = Some (max_list (op_counts id ops)) ∧
  UndoMap.is_undone u id = Some (N.odd (max_list (op_counts id ops))) ∧
  UndoMap.was_undone u id v =
    Some (N.odd (max_list (op_counts id (filter (λ op, Global.observed v (timestamp op)) ops)))) ∧
  ∃ u', UndoMap.insert u op = Some u'.
Proof.
  simpl in Hnd. apply NoDup_cons in Hnd as [Hfresh Hnd].
  destruct (undo_history_entries u ops Hu Hnd) as (Hok & Hs & Hin).
  assert (Hsearch : searchable u) by by split.
  assert (Hodd : ∀ n, (n mod 2 =? 1)%N = N.odd n) by (intros n; by rewrite <-N.bit0_odd, N.bit0_eqb).
  assert (Hcount : UndoMap.undo_count u id = Some (max_list (op_counts id ops))).
  { rewrite (undo_count_spec u Hsearch Hs). f_equal.
    pose proof (history_counts u ops id (λ _, true) Hu Hnd) as Hc.
    by rewrite !filter_all in Hc by by apply Forall_forall. }
  split; [done|]. split; [|split].
  - unfold UndoMap.is_undone. rewrite Hcount. simpl. by rewrite Hodd.
  - rewrite (was_undone_spec u Hsearch Hs), Hodd.
    by rewrite (history_counts u ops id (λ t, Global.observed v t) Hu Hnd).
  - destruct (insert_spec u op Hsearch Hs) as (u' & Hins & _); [|by exists u'].
    intros x (op' & Hop' & [Hts _])%Hin Heq. apply Hfresh. rewrite <-Heq, Hts. apply list_elem_of_fmap. eauto.
Qed.

(** Edit (1, 2) undone by (2, 2) and redone by (3, 2), which arrived first. *)
Definition example_edit : Lamport := mkLamport 1 2.
Definition example_undo : UndoOperation := mkUndoOperation (mkLamport 2 2) Global.new {[ example_edit := 1%N ]}.
Definition example_redo : UndoOperation := mkUndoOperation (mkLamport 3 2) Global.new {[ example_edit := 2%N ]}.

Lemma undo_count_is_max_witness :
  ∃ u, UndoMap.undo_count u example_edit = Some 2%N ∧ UndoMap.is_undone u example_edit = Some false ∧
    UndoMap.was_undone u example_edit (mkGlobal [0; 0; 2]%N) = Some true ∧
    ∃ u', UndoMap.insert u (mkUndoOperation (mkLamport 4 2) Global.new {[ example_edit := 3%N ]}) = Some u'.
Proof.
  pose (u1 := default UndoMap.default (UndoMap.insert UndoMap.default example_redo)).
  pose (u2 := default UndoMap.default (UndoMap.insert u1 example_undo)).
  exists u2. apply (undo_count_is_max u2 [example_redo; example_undo] example_edit (mkGlobal [0; 0; 2]%N)
    (mkUndoOperation (mkLamport 4 2) Global.new {[ example_edit := 3%N ]})).
  - apply (undo_history_snoc u1 [example_redo]); [|vm_compute; lia|vm_compute; reflexivity].
    apply (undo_history_snoc UndoMap.default []); [constructor|vm_compute; lia|vm_compute; reflexivity].
  - vm_compute. lia.
  - apply (bool_decide_unpack _). vm_compute. exact I.
Defined.
