(* ===== verification/Patch.v ===== *)
(** * Patches ([crates/text/src/patch.rs])

    A patch is the difference between two versions of a text, as a list of
    replaced ranges.  Composing the patches of consecutive edits is how a
    subscriber learns what changed since it last looked.  Positions are [usize];
    a subtraction that would underflow panics. *)

From S2P Require Import Prelude.

Module Range.
(** [std::ops::Range<usize>] *)
Record t := mk { start : nat; end_ : nat }.
#[global] Instance t_eq_dec : EqDecision t.
Proof. solve_decision. Defined.
End Range.
Abbreviation Range := Range.t (only parsing).

(** [a - b] on [usize] *)
Definition checked_sub (a b : nat) : option nat := _ ← rassert (b <=? a); Some (a - b).

Module Edit.
(** [struct Edit] of [text.rs] *)
Record t := mk { old : Range; new : Range }.
#[global] Instance t_eq_dec : EqDecision t.
Proof. solve_decision. Defined.

Definition is_empty (self : t) : bool :=
  (Range.start (old self) =? Range.end_ (old self)) && (Range.start (new self) =? Range.end_ (new self)).
Definition old_len (self : t) : option nat := checked_sub (Range.end_ (old self)) (Range.start (old self)).
Definition new_len (self : t) : option nat := checked_sub (Range.end_ (new self)) (Range.start (new self)).

(** [edit.old.start = n], [edit.new.start = n] *)
Definition set_old_start (self : t) (n : nat) : t := mk (Range.mk n (Range.end_ (old self))) (new self).
Definition set_new_start (self : t) (n : nat) : t := mk (old self) (Range.mk n (Range.end_ (new self))).
End Edit.
Abbreviation Edit := Edit.t (only parsing).

Module Patch.
(** [struct Patch(Vec<Edit>)] *)
Definition t : Type := list Edit.
Implicit Types self : t.

Definition empty : t := [].

(** The loop of assertions of [new], run with debug assertions. *)
Fixpoint new_asserts (last_edit : option Edit) (edits : list Edit) : option unit :=
  match edits with
  | [] => Some tt
  | edit :: edits =>
      _ ← match last_edit with
          | Some last_edit =>
              _ ← rassert (Range.end_ (Edit.old last_edit) <? Range.start (Edit.old edit));
              rassert (Range.end_ (Edit.new last_edit) <? Range.start (Edit.new edit))
          | None => Some tt
          end;
      new_asserts (Some edit) edits
  end.

Definition new (edits : list Edit) : option t := _ ← new_asserts None edits; Some edits.

Definition invert self : t := map (λ edit, Edit.mk (Edit.new edit) (Edit.old edit)) self.

Definition clear self : t := [].

Definition is_empty self : bool := match self with [] => true | _ => false end.

Fixpoint push_maybe_empty self (edit : Edit) : t :=
  match self with
  | [] => [edit]
  | [last] =>
      if Range.start (Edit.old edit) <=? Range.end_ (Edit.old last)
      then [Edit.mk (Range.mk (Range.start (Edit.old last)) (Range.end_ (Edit.old edit)))
                    (Range.mk (Range.start (Edit.new last)) (Range.end_ (Edit.new edit)))]
      else [last; edit]
  | e :: self => e :: push_maybe_empty self edit
  end.

Definition push self (edit : Edit) : t :=
  if Edit.is_empty edit then self else push_maybe_empty self edit.

(** *** [compose] *)

(** The variables of the loop: the rest of the two iterators (their heads are
    changed in place through [peek_mut]), the composed patch and the two
    positions. *)
Record compose_state := mkCompose {
  old_edits : list Edit;
  new_edits : list Edit;
  composed : t;
  old_start : nat;
  new_start : nat;
}.

(** The old edit ends before the new edit starts: it is pushed. *)
Definition push_old (st : compose_state) (old_edit : Edit) (old_edits : list Edit) : option compose_state :=
  catchup ← checked_sub (Range.start (Edit.old old_edit)) (old_start st);
  let old_start := old_start st + catchup in
  let new_start := new_start st + catchup in
  old_len ← Edit.old_len old_edit;
  new_len ← Edit.new_len old_edit;
  let old_end := old_start + old_len in
  let new_end := new_start + new_len in
  let composed := push (composed st) (Edit.mk (Range.mk old_start old_end) (Range.mk new_start new_end)) in
  Some (mkCompose old_edits (new_edits st) composed old_end new_end).

(** The new edit ends before the old edit starts: it is pushed. *)
Definition push_new (st : compose_state) (new_edit : Edit) (new_edits : list Edit) : option compose_state :=
  catchup ← checked_sub (Range.start (Edit.new new_edit)) (new_start st);
  let old_start := old_start st + catchup in
  let new_start := new_start st + catchup in
  old_len ← Edit.old_len new_edit;
  new_len ← Edit.new_len new_edit;
  let old_end := old_start + old_len in
  let new_end := new_start + new_len in
  let composed := push (composed st) (Edit.mk (Range.mk old_start old_end) (Range.mk new_start new_end)) in
  Some (mkCompose (old_edits st) new_edits composed old_end new_end).

(** The first half of the intersecting case: the two edits are aligned. *)
Definition align (st : compose_state) (old_edit new_edit : Edit) :
    option (Edit * Edit * t * nat * nat) :=
  if Range.start (Edit.new old_edit) <? Range.start (Edit.old new_edit) then
    catchup ← checked_sub (Range.start (Edit.old old_edit)) (old_start st);
    let old_start := old_start st + catchup in
    let new_start := new_start st + catchup in
    overshoot ← checked_sub (Range.start (Edit.old new_edit)) (Range.start (Edit.new old_edit));
    let old_end := Nat.min (old_start + overshoot) (Range.end_ (Edit.old old_edit)) in
    let new_end := new_start + overshoot in
    let composed := push (composed st) (Edit.mk (Range.mk old_start old_end) (Range.mk new_start new_end)) in
    let old_edit := Edit.set_old_start old_edit old_end in
    let old_edit := Edit.set_new_start old_edit (Range.start (Edit.new old_edit) + overshoot) in
    Some (old_edit, new_edit, composed, old_end, new_end)
  else
    catchup ← checked_sub (Range.start (Edit.new new_edit)) (new_start st);
    let old_start := old_start st + catchup in
    let new_start := new_start st + catchup in
    overshoot ← checked_sub (Range.start (Edit.new old_edit)) (Range.start (Edit.old new_edit));
    let old_end := old_start + overshoot in
    let new_end := Nat.min (new_start + overshoot) (Range.end_ (Edit.new new_edit)) in
    let composed := push (composed st) (Edit.mk (Range.mk old_start old_end) (Range.mk new_start new_end)) in
    let new_edit := Edit.set_old_start new_edit (Range.start (Edit.old new_edit) + overshoot) in
    let new_edit := Edit.set_new_start new_edit new_end in
    Some (old_edit, new_edit, composed, old_end, new_end).

(** The second half: the part the two edits share is pushed and the one that
    ends first is consumed. *)
Definition consume (old_edits new_edits : list Edit) (st : Edit * Edit * t * nat * nat) :
    option compose_state :=
  let '(old_edit, new_edit, composed, old_start, new_start) := st in
  old_len ← Edit.old_len old_edit;
  new_len ← Edit.new_len new_edit;
  if Range.end_ (Edit.old new_edit) <? Range.end_ (Edit.new old_edit) then
    new_edit_old_len ← Edit.old_len new_edit;
    let old_end := old_start + Nat.min old_len new_edit_old_len in
    let new_end := new_start + new_len in
    let composed := push composed (Edit.mk (Range.mk old_start old_end) (Range.mk new_start new_end)) in
    let old_edit := Edit.set_old_start old_edit old_end in
    let old_edit := Edit.set_new_start old_edit (Range.end_ (Edit.old new_edit)) in
    Some (mkCompose (old_edit :: old_edits) new_edits composed old_end new_end)
  else
    old_edit_new_len ← Edit.new_len old_edit;
    let old_end := old_start + old_len in
    let new_end := new_start + Nat.min old_edit_new_len new_len in
    let composed := push composed (Edit.mk (Range.mk old_start old_end) (Range.mk new_start new_end)) in
    let new_edit := Edit.set_old_start new_edit (Range.end_ (Edit.new old_edit)) in
    let new_edit := Edit.set_new_start new_edit new_end in
    Some (mkCompose old_edits (new_edit :: new_edits) composed old_end new_end).

(** One iteration; [None] inside is [break]. *)
Definition compose_step (st : compose_state) : option (option compose_state) :=
  match old_edits st, new_edits st with
  | [], [] => Some None
  | old_edit :: old_edits, [] => st ← push_old st old_edit old_edits; Some (Some st)
  | [], new_edit :: new_edits => st ← push_new st new_edit new_edits; Some (Some st)
  | old_edit :: old_edits, new_edit :: new_edits =>
      if Range.end_ (Edit.new old_edit) <? Range.start (Edit.old new_edit) then
        st ← push_old st old_edit old_edits; Some (Some st)
      else if Range.end_ (Edit.old new_edit) <? Range.start (Edit.new old_edit) then
        st ← push_new st new_edit new_edits; Some (Some st)
      else
        aligned ← align st old_edit new_edit;
        st ← consume old_edits new_edits aligned; Some (Some st)
  end.

(** Every iteration consumes an edit. *)
Fixpoint compose_loop (fuel : nat) (st : compose_state) : option t :=
  st' ← compose_step st;
  match st' with
  | None => Some (composed st)
  | Some st' =>
      match fuel with
      | 0 => None
      | S fuel => compose_loop fuel st'
      end
  end.

Definition compose self (new_edits_iter : list Edit) : option t :=
  compose_loop (length self + length new_edits_iter) (mkCompose self new_edits_iter [] 0 0).

(** *** Mapping positions *)

(** [slice::binary_search_by] on the starts: [inl ix] when an edit starts at
    [old], [inr ix] with the number of edits that start before it. *)
Fixpoint binary_search (edits : list Edit) (old : nat) : nat + nat :=
  match edits with
  | [] => inr 0
  | probe :: edits =>
      match Range.start (Edit.old probe) ?= old with
      | Eq => inl 0
      | Gt => inr 0
      | Lt => match binary_search edits old with inl ix => inl (S ix) | inr ix => inr (S ix) end
      end
  end.

(** The edit both lookups inspect: [None] when no edit starts at or before. *)
Definition search_index self (old : nat) : option nat :=
  match binary_search self old with
  | inl ix => Some ix
  | inr 0 => None
  | inr (S ix) => Some ix
  end.

Definition old_to_new self (old : nat) : option nat :=
  match search_index self old with
  | None => Some old
  | Some ix =>
      match self !! ix with
      | Some edit =>
          if Range.end_ (Edit.old edit) <=? old then
            delta ← checked_sub old (Range.end_ (Edit.old edit)); Some (Range.end_ (Edit.new edit) + delta)
          else Some (Range.start (Edit.new edit))
      | None => Some old
      end
  end.

Definition edit_for_old_position self (old : nat) : option Edit :=
  match search_index self old with
  | None => Some (Edit.mk (Range.mk old old) (Range.mk old old))
  | Some ix =>
      match self !! ix with
      | Some edit =>
          if Range.end_ (Edit.old edit) <? old then
            delta ← checked_sub old (Range.end_ (Edit.old edit));
            let translated := Range.end_ (Edit.new edit) + delta in
            Some (Edit.mk (Range.mk old old) (Range.mk translated translated))
          else Some edit
      | None => Some (Edit.mk (Range.mk old old) (Range.mk old old))
      end
  end.

(** [retain_mut]: [f] returns the changed edit and whether to keep it. *)
Definition retain_mut (f : Edit → Edit * bool) self : t :=
  omap (λ e, let '(e, keep) := f e in if (keep : bool) then Some e else None) self.
End Patch.
