(* ===== verification/PatchFacts.v ===== *)
(** * Composition of patches is sequential application

    [relates P a b]: the patch [P] describes how the text [a] became the text
    [b].  Composing patches composes these relations, without underflow and
    within the fuel; inverting swaps them; [old_to_new] maps positions of
    unchanged text to the same text. *)

From S2P Require Import Prelude Patch.

Section relates.
Context {A : Type}.
Implicit Types (a b c g x y : list A) (P Q : list Edit).

(** [relates_from o n P a b]: seen from the positions [o] and [n], the patch
    turns the rest [a] of the old text into the rest [b] of the new one. *)
Fixpoint relates_from (o n : nat) P a b : Prop :=
  match P with
  | [] => a = b
  | e :: P => ∃ g x y a' b',
      a = g ++ x ++ a' ∧ b = g ++ y ++ b' ∧
      Edit.old e = Range.mk (o + length g) (o + length g + length x) ∧
      Edit.new e = Range.mk (n + length g) (n + length g + length y) ∧
      relates_from (o + length g + length x) (n + length g + length y) P a' b'
  end.

Definition relates P a b : Prop := relates_from 0 0 P a b.

Lemma relates_from_cons o n e P a b :
  relates_from o n (e :: P) a b ↔ ∃ g x y a' b',
    a = g ++ x ++ a' ∧ b = g ++ y ++ b' ∧
    Edit.old e = Range.mk (o + length g) (o + length g + length x) ∧
    Edit.new e = Range.mk (n + length g) (n + length g + length y) ∧
    relates_from (o + length g + length x) (n + length g + length y) P a' b'.
Proof. done. Qed.

(** Text that ends before the first edit starts is on both sides. *)
Lemma relates_from_advance_old o n P x a b :
  relates_from o n P (x ++ a) b →
  (match P with e :: _ => o + length x <= Range.start (Edit.old e) | [] => True end) →
  ∃ b', b = x ++ b' ∧ relates_from (o + length x) (n + length x) P a b'.
Proof.
  destruct P as [|e P]; [intros <- _; by exists a|].
  intros (g & u & v & a' & b' & Ha & Hb & Ho & Hn & Hrest). rewrite Ho. simpl. intros Hle.
  assert (Hg : g = x ++ drop (length x) g).
  { rewrite <-(take_drop (length x) g) at 1. f_equal.
    apply (f_equal (take (length x))) in Ha. rewrite take_app_length in Ha.
    rewrite take_app_le in Ha by lia. done. }
  set (g' := drop (length x) g) in *. clearbody g'. subst g. rewrite length_app in *. rewrite <-app_assoc in *.
  apply app_inv_head in Ha. exists (g' ++ v ++ b'). split; [done|].
  apply relates_from_cons. exists g', u, v, a', b'. rewrite !Nat.add_assoc in *. done.
Qed.

Lemma relates_from_advance_new o n P x a b :
  relates_from o n P a (x ++ b) →
  (match P with e :: _ => n + length x <= Range.start (Edit.new e) | [] => True end) →
  ∃ a', a = x ++ a' ∧ relates_from (o + length x) (n + length x) P a' b.
Proof.
  destruct P as [|e P]; [intros -> _; by exists b|].
  intros (g & u & v & a' & b' & Ha & Hb & Ho & Hn & Hrest). rewrite Hn. simpl. intros Hle.
  assert (Hg : g = x ++ drop (length x) g).
  { rewrite <-(take_drop (length x) g) at 1. f_equal.
    apply (f_equal (take (length x))) in Hb. rewrite take_app_length in Hb.
    rewrite take_app_le in Hb by lia. done. }
  set (g' := drop (length x) g) in *. clearbody g'. subst g. rewrite length_app in *. rewrite <-app_assoc in *.
  apply app_inv_head in Hb. exists (g' ++ u ++ a'). split; [done|].
  apply relates_from_cons. exists g', u, v, a', b'. rewrite !Nat.add_assoc in *. done.
Qed.

(** *** Growing a patch at its end *)

Lemma relates_from_snoc_gap o n P a b g :
  relates_from o n P a b → relates_from o n P (a ++ g) (b ++ g).
Proof.
  revert o n a b. induction P as [|e P IH]; intros o n a b; [by intros ->|].
  intros (g' & x & y & a' & b' & -> & -> & Ho & Hn & Hrest).
  apply relates_from_cons. exists g', x, y, (a' ++ g), (b' ++ g). rewrite <-!app_assoc. split_and!; [done..|by apply IH].
Qed.

(** The edit that replaces [x] at the end of [a] by [y] at the end of [b]. *)
Definition tail_edit (o n : nat) a b x y : Edit :=
  Edit.mk (Range.mk (o + length a) (o + length a + length x)) (Range.mk (n + length b) (n + length b + length y)).

Lemma relates_from_push_maybe_empty o n P a b x y :
  relates_from o n P a b →
  relates_from o n (Patch.push_maybe_empty P (tail_edit o n a b x y)) (a ++ x) (b ++ y).
Proof.
  revert o n a b. induction P as [|e P IH]; intros o n a b.
  - intros ->. simpl. exists b, x, y, [], []. by rewrite !app_nil_r.
  - intros (g & u & v & a' & b' & -> & -> & Ho & Hn & Hrest).
    destruct P as [|e' P].
    + simpl in Hrest. subst b'. unfold tail_edit. cbn [Patch.push_maybe_empty Edit.old Edit.new Range.start Range.end_].
      rewrite Ho, Hn. cbn [Range.start Range.end_]. rewrite !length_app.
      destruct (Nat.leb_spec (o + (length g + (length u + length a'))) (o + length g + length u)).
      * assert (a' = []) as -> by (apply nil_length_inv; lia). rewrite !app_nil_r. simpl.
        exists g, (u ++ x), (v ++ y), [], []. rewrite !app_nil_r, !length_app, <-!app_assoc. simpl.
        split_and!; try done; f_equal; lia.
      * apply relates_from_cons. exists g, u, v, (a' ++ x), (a' ++ y). rewrite <-!app_assoc.
        split_and!; try done. simpl. exists a', x, y, [], []. rewrite !app_nil_r.
        split_and!; try done; simpl; f_equal; lia.
    + specialize (IH _ _ _ _ Hrest). change (Patch.push_maybe_empty (e :: e' :: P) ?t) with
        (e :: Patch.push_maybe_empty (e' :: P) t).
      apply relates_from_cons. exists g, u, v, (a' ++ x), (b' ++ y). rewrite <-!app_assoc.
      split_and!; try done. 
      replace (tail_edit o n (g ++ u ++ a') (g ++ v ++ b') x y) with
        (tail_edit (o + length g + length u) (n + length g + length v) a' b' x y); [done|].
      unfold tail_edit. rewrite !length_app. f_equal; f_equal; lia.
Qed.

Lemma relates_from_push o n P a b x y :
  relates_from o n P a b →
  relates_from o n (Patch.push P (tail_edit o n a b x y)) (a ++ x) (b ++ y).
Proof.
  intros Hr. unfold Patch.push, Edit.is_empty. simpl.
  destruct (Nat.eqb_spec (o + length a) (o + length a + length x)); simpl;
    [|by apply relates_from_push_maybe_empty].
  destruct (Nat.eqb_spec (n + length b) (n + length b + length y)); simpl;
    [|by apply relates_from_push_maybe_empty].
  assert (x = []) as -> by (apply nil_length_inv; lia).
  assert (y = []) as -> by (apply nil_length_inv; lia). by rewrite !app_nil_r.
Qed.
End relates.

Lemma checked_sub_add a b : checked_sub (a + b) a = Some b.
Proof. unfold checked_sub. destruct (Nat.leb_spec a (a + b)); [|lia]. simpl. f_equal. lia. Qed.

Section compose.
Context {A : Type} (ta tc : list A).
Implicit Types (a b c g x y : list A) (P Q : list Edit).

(** The invariant of the loop: the composed patch relates the parts already
    passed, and the two iterators relate the rests through a middle text. *)
Definition compose_inv (st : Patch.compose_state) : Prop :=
  ∃ pb a1 a2 b2 c1 c2, ta = a1 ++ a2 ∧ tc = c1 ++ c2 ∧
    length a1 = Patch.old_start st ∧ length c1 = Patch.new_start st ∧
    relates (Patch.composed st) a1 c1 ∧
    relates_from (Patch.old_start st) pb (Patch.old_edits st) a2 b2 ∧
    relates_from pb (Patch.new_start st) (Patch.new_edits st) b2 c2.

(** Pushing an edit after a common gap. *)
Lemma relates_push_gap P a1 c1 g x y os ns :
  relates P a1 c1 → length a1 = os → length c1 = ns →
  relates (Patch.push P (Edit.mk (Range.mk (os + length g) (os + length g + length x))
                                (Range.mk (ns + length g) (ns + length g + length y))))
    (a1 ++ g ++ x) (c1 ++ g ++ y).
Proof.
  intros Hr <- <-. apply (relates_from_snoc_gap _ _ _ _ _ g) in Hr.
  apply (relates_from_push _ _ _ _ _ x y) in Hr. unfold tail_edit in Hr. rewrite !length_app in Hr.
  simpl in Hr. by rewrite !app_assoc.
Qed.

Lemma push_old_spec st e P :
  compose_inv st → Patch.old_edits st = e :: P →
  (match Patch.new_edits st with f :: _ => Range.end_ (Edit.new e) <= Range.start (Edit.old f) | [] => True end) →
  ∃ st', Patch.push_old st e P = Some st' ∧ compose_inv st' ∧
    Patch.old_edits st' = P ∧ Patch.new_edits st' = Patch.new_edits st.
Proof.
  destruct st as [olds news comp os ns]. unfold compose_inv. simpl.
  intros (pb & a1 & a2 & b2 & c1 & c2 & Ha & Hc & Hla & Hlc & Hcomp & Hold & Hnew) -> Hhead.
  destruct Hold as (g & x & y & a' & b' & -> & -> & Ho & Hn & Hrest).
  unfold Patch.push_old, Edit.old_len, Edit.new_len. simpl. rewrite Ho, Hn. simpl.
  rewrite !checked_sub_add. simpl. eexists. split; [done|]. simpl. split; [|done].
  rewrite app_assoc in Hnew. apply relates_from_advance_old in Hnew as (c' & -> & Hnew).
  2:{ destruct news as [|f news]; [done|]. rewrite Hn in Hhead. simpl in Hhead. rewrite length_app. lia. }
  exists (pb + length g + length y), (a1 ++ g ++ x), a', b', (c1 ++ g ++ y), c'.
  rewrite !length_app, <-!app_assoc in *. simpl in *. split_and!; try done; try lia.
  - apply relates_push_gap; done.
  - by rewrite <-!Nat.add_assoc in *.
Qed.

Lemma push_new_spec st f Q :
  compose_inv st → Patch.new_edits st = f :: Q →
  (match Patch.old_edits st with e :: _ => Range.end_ (Edit.old f) <= Range.start (Edit.new e) | [] => True end) →
  ∃ st', Patch.push_new st f Q = Some st' ∧ compose_inv st' ∧
    Patch.new_edits st' = Q ∧ Patch.old_edits st' = Patch.old_edits st.
Proof.
  destruct st as [olds news comp os ns]. unfold compose_inv. simpl.
  intros (pb & a1 & a2 & b2 & c1 & c2 & Ha & Hc & Hla & Hlc & Hcomp & Hold & Hnew) -> Hhead.
  destruct Hnew as (g & x & y & b' & c' & -> & -> & Ho & Hn & Hrest).
  unfold Patch.push_new, Edit.old_len, Edit.new_len. simpl. rewrite Ho, Hn. simpl.
  rewrite !checked_sub_add. simpl. eexists. split; [done|]. simpl. split; [|done].
  rewrite app_assoc in Hold. apply relates_from_advance_new in Hold as (a' & -> & Hold).
  2:{ destruct olds as [|e olds]; [done|]. rewrite Ho in Hhead. simpl in Hhead. rewrite length_app. lia. }
  exists (pb + length g + length x), (a1 ++ g ++ x), a', b', (c1 ++ g ++ y), c'.
  rewrite !length_app, <-!app_assoc in *. simpl in *. split_and!; try done; try lia.
  - apply relates_push_gap; done.
  - by rewrite <-!Nat.add_assoc in *.
Qed.

(** The invariant after the two heads are aligned: both start at the current
    positions. *)
Definition aligned_inv P Q (r : Edit * Edit * Patch.t * nat * nat) : Prop :=
  let '(e, f, comp, os, ns) := r in
  ∃ pb a1 x y a2 b1 u v b2 c2 c1,
    ta = a1 ++ x ++ a2 ∧ tc = c1 ++ v ++ c2 ∧ length a1 = os ∧ length c1 = ns ∧ relates comp a1 c1 ∧
    y ++ b1 = u ++ b2 ∧
    e = Edit.mk (Range.mk os (os + length x)) (Range.mk pb (pb + length y)) ∧
    f = Edit.mk (Range.mk pb (pb + length u)) (Range.mk ns (ns + length v)) ∧
    relates_from (os + length x) (pb + length y) P a2 b1 ∧
    relates_from (pb + length u) (ns + length v) Q b2 c2.

(** Cutting a list at an offset clipped to its length. *)
Lemma split_min x n : ∃ x1 x2, x = x1 ++ x2 ∧ length x1 = Nat.min n (length x).
Proof. exists (take n x), (drop n x). by rewrite take_drop, length_take. Qed.

Lemma split_le x n : n <= length x → ∃ x1 x2, x = x1 ++ x2 ∧ length x1 = n.
Proof. intros Hn. destruct (split_min x n) as (x1 & x2 & ? & ?). exists x1, x2. split; [done|lia]. Qed.

Lemma align_spec st e P f Q :
  compose_inv st → Patch.old_edits st = e :: P → Patch.new_edits st = f :: Q →
  Range.start (Edit.old f) <= Range.end_ (Edit.new e) →
  Range.start (Edit.new e) <= Range.end_ (Edit.old f) →
  ∃ r, Patch.align st e f = Some r ∧ aligned_inv P Q r.
Proof.
  destruct st as [olds news comp os ns]. unfold compose_inv. simpl.
  intros (pb & a1 & a2 & b2 & c1 & c2 & Ha & Hc & Hla & Hlc & Hcomp & Hold & Hnew) -> -> Hfe Hef.
  unfold Patch.align. simpl.
  destruct (Nat.ltb_spec (Range.start (Edit.new e)) (Range.start (Edit.old f))) as [Hlt|Hge].
  - destruct Hold as (g & x & y & a' & b' & -> & -> & Ho & Hn & Hrest).
    rewrite Hn in Hfe, Hef, Hlt. rewrite Ho, Hn. simpl in *. rewrite checked_sub_add. simpl.
    destruct (split_le y (Range.start (Edit.old f) - (pb + length g))) as (y1 & y2 & -> & Hy1); [lia|].
    rewrite length_app in *.
    assert (Hf : Range.start (Edit.old f) = pb + length g + length y1) by lia. rewrite Hf.
    rewrite checked_sub_add. simpl. eexists. split; [done|].
    rewrite <-app_assoc, (app_assoc g) in Hnew.
    apply (relates_from_advance_old pb ns (f :: Q)) in Hnew as (c' & -> & Hnew); [|rewrite length_app; lia].
    destruct Hnew as (g' & u & v & b'' & c'' & Hb & -> & Ho' & Hn' & Hrest').
    assert (g' = []) as -> by (apply nil_length_inv; rewrite Ho' in Hf; simpl in Hf; rewrite length_app in Hf; lia).
    simpl in *. rewrite !Nat.add_0_r, !length_app in *.
    destruct (split_min x (length y1)) as (x1 & x2 & -> & Hx1). rewrite length_app in *.
    exists (pb + length g + length y1), (a1 ++ g ++ x1), x2, y2, a', b', u, v, b'', c'', (c1 ++ g ++ y1).
    rewrite !length_app, <-!app_assoc in *.
    split_and!; try done; try lia.
    + replace (Nat.min (os + length g + length y1) (os + length g + (length x1 + length x2)))
        with (os + length g + length x1) by lia. by apply relates_push_gap.
    + destruct e as [eo en]. simpl in *. subst eo en. unfold Edit.set_new_start, Edit.set_old_start. simpl.
      f_equal; f_equal; lia.
    + destruct f as [fo fn]. simpl in *. subst fo fn. f_equal; f_equal; lia.
    + replace (Nat.min _ _ + length x2) with (os + length g + (length x1 + length x2)) by lia.
      replace (pb + length g + length y1 + length y2) with (pb + length g + (length y1 + length y2)) by lia.
      exact Hrest.
    + replace (pb + length g + length y1 + length u) with (pb + (length g + length y1) + length u) by lia.
      replace (ns + length g + length y1 + length v) with (ns + (length g + length y1) + length v) by lia.
      exact Hrest'.
  - destruct Hnew as (g & u & v & b' & c' & -> & -> & Ho & Hn & Hrest).
    rewrite Ho in Hfe, Hef, Hge. rewrite Ho, Hn. simpl in *. rewrite checked_sub_add. simpl.
    destruct (split_le u (Range.start (Edit.new e) - (pb + length g))) as (u1 & u2 & -> & Hu1); [lia|].
    rewrite length_app in *.
    assert (He : Range.start (Edit.new e) = pb + length g + length u1) by lia. rewrite He.
    rewrite checked_sub_add. simpl. eexists. split; [done|].
    rewrite <-app_assoc, (app_assoc g) in Hold.
    apply (relates_from_advance_new os pb (e :: P)) in Hold as (a' & -> & Hold); [|rewrite length_app; lia].
    destruct Hold as (g' & x & y & a'' & b'' & -> & Hb & Ho' & Hn' & Hrest').
    assert (g' = []) as -> by (apply nil_length_inv; rewrite Hn' in He; simpl in He; rewrite length_app in He; lia).
    simpl in *. rewrite !Nat.add_0_r, !length_app in *.
    destruct (split_min v (length u1)) as (v1 & v2 & -> & Hv1). rewrite length_app in *.
    exists (pb + length g + length u1), (a1 ++ g ++ u1), x, y, a'', b'', u2, v2, b', c', (c1 ++ g ++ v1).
    rewrite !length_app, <-!app_assoc in *.
    split_and!; try done; try lia.
    + replace (Nat.min (ns + length g + length u1) (ns + length g + (length v1 + length v2)))
        with (ns + length g + length v1) by lia. by apply relates_push_gap.
    + destruct e as [eo en]. simpl in *. subst eo en. f_equal; f_equal; lia.
    + destruct f as [fo fn]. simpl in *. subst fo fn. unfold Edit.set_new_start, Edit.set_old_start. simpl.
      f_equal; f_equal; lia.
    + replace (os + length g + length u1 + length x) with (os + (length g + length u1) + length x) by lia.
      replace (pb + length g + length u1 + length y) with (pb + (length g + length u1) + length y) by lia.
      exact Hrest'.
    + replace (Nat.min _ _ + length v2) with (ns + length g + (length v1 + length v2)) by lia.
      replace (pb + length g + length u1 + length u2) with (pb + length g + (length u1 + length u2)) by lia.
      exact Hrest.
Qed.

Lemma app_eq_shorter y b1 u b2 :
  y ++ b1 = u ++ b2 → length u <= length y → ∃ y2, y = u ++ y2 ∧ b2 = y2 ++ b1.
Proof.
  intros Heq Hle. exists (drop (length u) y).
  assert (Hu : u = take (length u) y).
  { apply (f_equal (take (length u))) in Heq. rewrite take_app_length, take_app_le in Heq by done. done. }
  split; [rewrite Hu at 1; by rewrite take_drop|].
  apply (f_equal (drop (length u))) in Heq. by rewrite drop_app_length, drop_app_le in Heq by done.
Qed.

Lemma consume_spec P Q r :
  aligned_inv P Q r →
  ∃ st', Patch.consume P Q r = Some st' ∧ compose_inv st' ∧
    length (Patch.old_edits st') + length (Patch.new_edits st') = S (length P + length Q).
Proof.
  destruct r as [[[[e f] comp] os] ns]. simpl.
  intros (pb & a1 & x & y & a2 & b1 & u & v & b2 & c2 & c1 & Ha & Hc & Hla & Hlc & Hcomp & Hb & -> & -> & Hold & Hnew).
  unfold Edit.old_len, Edit.new_len. simpl. rewrite !checked_sub_add. simpl.
  destruct (Nat.ltb_spec (pb + length u) (pb + length y)) as [Hlt|Hge].
  - eexists. split; [done|]. simpl. split; [|lia].
    destruct (app_eq_shorter y b1 u b2 Hb) as (y2 & -> & ->); [lia|].
    destruct (split_min x (length u)) as (x1 & x2 & -> & Hx1). rewrite !length_app in *.
    exists (pb + length u), (a1 ++ x1), (x2 ++ a2), (y2 ++ b1), (c1 ++ v), c2. simpl.
    rewrite ?length_app, <-?app_assoc in *. split_and!; try done; try lia.
    + rewrite Nat.min_comm, <-Hx1.
      pose proof (relates_push_gap comp a1 c1 [] x1 v os ns Hcomp Hla Hlc) as Hp. simpl in Hp.
      by rewrite !Nat.add_0_r in Hp.
    + exists [], x2, y2, a2, b1. simpl. rewrite Nat.min_comm, <-Hx1, !Nat.add_0_r, <-!Nat.add_assoc. 
      split_and!; try done.
  - eexists. split; [done|]. simpl. split; [|lia].
    destruct (app_eq_shorter u b2 y b1 (eq_sym Hb)) as (u2 & -> & ->); [lia|].
    destruct (split_min v (length y)) as (v1 & v2 & -> & Hv1). rewrite !length_app in *.
    exists (pb + length y), (a1 ++ x), a2, (u2 ++ b2), (c1 ++ v1), (v2 ++ c2). simpl.
    rewrite ?length_app, <-?app_assoc in *. split_and!; try done; try lia.
    + rewrite <-Hv1.
      pose proof (relates_push_gap comp a1 c1 [] x v1 os ns Hcomp Hla Hlc) as Hp. simpl in Hp.
      by rewrite !Nat.add_0_r in Hp.
    + exists [], u2, v2, b2, c2. simpl. rewrite <-Hv1, !Nat.add_0_r, <-!Nat.add_assoc.
      split_and!; try done.
Qed.

Lemma compose_step_spec st :
  compose_inv st →
  (Patch.old_edits st = [] ∧ Patch.new_edits st = [] ∧ Patch.compose_step st = Some None) ∨
  ∃ st', Patch.compose_step st = Some (Some st') ∧ compose_inv st' ∧
    S (length (Patch.old_edits st') + length (Patch.new_edits st')) =
      length (Patch.old_edits st) + length (Patch.new_edits st).
Proof.
  intros Hinv. unfold Patch.compose_step.
  destruct (Patch.old_edits st) as [|e P] eqn:HP, (Patch.new_edits st) as [|f Q] eqn:HQ.
  - by left.
  - right. destruct (push_new_spec st f Q Hinv HQ) as (st' & -> & Hinv' & HQ' & HP'); [by rewrite HP|].
    simpl. exists st'. split; [done|]. split; [done|]. rewrite HP', HQ', HP. done.
  - right. destruct (push_old_spec st e P Hinv HP) as (st' & -> & Hinv' & HP' & HQ'); [by rewrite HQ|].
    simpl. exists st'. split; [done|]. split; [done|]. rewrite HP', HQ', HQ. simpl. lia.
  - right. destruct (Nat.ltb_spec (Range.end_ (Edit.new e)) (Range.start (Edit.old f))).
    { destruct (push_old_spec st e P Hinv HP) as (st' & -> & Hinv' & HP' & HQ'); [rewrite HQ; lia|].
      simpl. exists st'. split; [done|]. split; [done|]. rewrite HP', HQ', HQ. simpl. lia. }
    destruct (Nat.ltb_spec (Range.end_ (Edit.old f)) (Range.start (Edit.new e))).
    { destruct (push_new_spec st f Q Hinv HQ) as (st' & -> & Hinv' & HQ' & HP'); [rewrite HP; lia|].
      simpl. exists st'. split; [done|]. split; [done|]. rewrite HP', HQ', HP. simpl. lia. }
    destruct (align_spec st e P f Q Hinv HP HQ) as (r & -> & Hr); [done..|]. simpl.
    destruct (consume_spec P Q r Hr) as (st' & -> & Hinv' & Hlen). simpl.
    exists st'. split; [done|]. split; [done|]. lia.
Qed.

Lemma compose_loop_spec fuel st :
  compose_inv st → length (Patch.old_edits st) + length (Patch.new_edits st) <= fuel →
  ∃ P, Patch.compose_loop fuel st = Some P ∧ relates P ta tc.
Proof.
  revert st. induction fuel as [|fuel IH]; intros st Hinv Hlen; simpl;
    destruct (compose_step_spec st Hinv) as [(HP & HQ & ->)|(st' & -> & Hinv' & Hdec)]; simpl; try lia.
  1,2: destruct Hinv as (pb & a1 & a2 & b2 & c1 & c2 & -> & -> & Hla & Hlc & Hcomp & Hold & Hnew);
    rewrite HP in Hold; rewrite HQ in Hnew; simpl in Hold, Hnew; subst; eexists; split; [done|];
    by apply relates_from_snoc_gap.
  apply IH; [done|lia].
Qed.
End compose.

(** ** Separated patches *)

(** Edits separated by unchanged text, as [Patch::new] asserts. *)
Fixpoint separated (P : list Edit) : Prop :=
  match P with
  | [] => True
  | e1 :: P =>
      match P with e2 :: _ => Range.end_ (Edit.old e1) < Range.start (Edit.old e2) | [] => True end ∧ separated P
  end.

Lemma separated_cons e P :
  separated (e :: P) ↔
    match P with e2 :: _ => Range.end_ (Edit.old e) < Range.start (Edit.old e2) | [] => True end ∧ separated P.
Proof. done. Qed.

Lemma separated_push_maybe_empty P e : separated P → separated (Patch.push_maybe_empty P e).
Proof.
  induction P as [|e1 P IH]; [done|]. intros [Hlt Hs]%separated_cons. destruct P as [|e2 P].
  - simpl. destruct (Nat.leb_spec (Range.start (Edit.old e)) (Range.end_ (Edit.old e1))); [done|]. simpl. lia.
  - change (Patch.push_maybe_empty (e1 :: e2 :: P) e) with (e1 :: Patch.push_maybe_empty (e2 :: P) e).
    apply separated_cons. split; [|by apply IH]. simpl. destruct P; simpl; [|done].
    by destruct (Range.start (Edit.old e) <=? _).
Qed.

Lemma separated_push P e : separated P → separated (Patch.push P e).
Proof. intros. unfold Patch.push. destruct (Edit.is_empty e); [done|by apply separated_push_maybe_empty]. Qed.

(** The loop only pushes. *)
Lemma compose_step_separated st st' :
  Patch.compose_step st = Some (Some st') → separated (Patch.composed st) → separated (Patch.composed st').
Proof.
  assert (Hold : ∀ st e P st', Patch.push_old st e P = Some st' → separated (Patch.composed st) → separated (Patch.composed st')).
  { intros s e P s'. unfold Patch.push_old.
    destruct (checked_sub _ _), (Edit.old_len e), (Edit.new_len e); simpl; try done.
    intros [= <-]. apply separated_push. }
  assert (Hnew : ∀ st e P st', Patch.push_new st e P = Some st' → separated (Patch.composed st) → separated (Patch.composed st')).
  { intros s e P s'. unfold Patch.push_new.
    destruct (checked_sub _ _), (Edit.old_len e), (Edit.new_len e); simpl; try done.
    intros [= <-]. apply separated_push. }
  unfold Patch.compose_step. destruct (Patch.old_edits st) as [|e P], (Patch.new_edits st) as [|f Q]; [done|..].
  - destruct (Patch.push_new _ _ _) eqn:Hp; simpl; [|done]. intros [= <-]. by eapply Hnew.
  - destruct (Patch.push_old _ _ _) eqn:Hp; simpl; [|done]. intros [= <-]. by eapply Hold.
  - destruct (_ <? _); [destruct (Patch.push_old _ _ _) eqn:Hp; simpl; [|done]; intros [= <-]; by eapply Hold|].
    destruct (_ <? _); [destruct (Patch.push_new _ _ _) eqn:Hp; simpl; [|done]; intros [= <-]; by eapply Hnew|].
    destruct (Patch.align st e f) as [[[[[e' f'] comp] os] ns]|] eqn:Halign; simpl; [|done].
    intros Hc Hs. assert (separated comp) as Hs'.
    { revert Halign. unfold Patch.align. destruct (Range.start (Edit.new e) <? Range.start (Edit.old f)).
      - destruct (checked_sub _ _); simpl; destruct (checked_sub _ _); simpl; try done.
        intros [= <- <- <- <- <-]. by apply separated_push.
      - destruct (checked_sub _ _); simpl; destruct (checked_sub _ _); simpl; try done.
        intros [= <- <- <- <- <-]. by apply separated_push. }
    revert Hc. unfold Patch.consume.
    destruct (Edit.old_len e'), (Edit.new_len f'); simpl; try done.
    destruct (Range.end_ (Edit.old f') <? Range.end_ (Edit.new e')).
    + destruct (Edit.old_len f'); simpl; [|done]. intros [= <-]. by apply separated_push.
    + destruct (Edit.new_len e'); simpl; [|done]. intros [= <-]. by apply separated_push.
Qed.

Lemma compose_loop_separated fuel st P :
  Patch.compose_loop fuel st = Some P → separated (Patch.composed st) → separated P.
Proof.
  revert st. induction fuel as [|fuel IH]; intros st; simpl;
    destruct (Patch.compose_step st) as [[st'|]|] eqn:Hst; simpl; try done; try (by intros [= <-]).
  intros Hrun Hs. apply IH in Hrun; [done|]. by eapply compose_step_separated.
Qed.

Lemma relates_from_new_asserts {A} o n P (a b : list A) e :
  relates_from o n P a b → separated P →
  match e, P with
  | Some e, f :: _ => Range.end_ (Edit.old e) < Range.start (Edit.old f) ∧ Range.end_ (Edit.old e) = o ∧ Range.end_ (Edit.new e) = n
  | _, _ => True
  end →
  Patch.new_asserts e P = Some tt.
Proof.
  revert o n a b e. induction P as [|f P IH]; intros o n a b e; [done|].
  intros (g & x & y & a' & b' & -> & -> & Ho & Hn & Hrest) [Hlt Hs]%separated_cons He. simpl.
  assert (match e with
   | Some last_edit => _ ← rassert (Range.end_ (Edit.old last_edit) <? Range.start (Edit.old f));
       rassert (Range.end_ (Edit.new last_edit) <? Range.start (Edit.new f))
   | None => Some tt end = Some tt) as ->.
  { destruct e as [e|]; [|done]. destruct He as (Hlt' & Ho' & Hn'). rewrite Ho, Hn, Ho', Hn' in *. simpl in *.
    destruct (Nat.ltb_spec o (o + length g)); [|lia]. simpl. destruct (Nat.ltb_spec n (n + length g)); [done|lia]. }
  simpl. eapply IH; [done..|]. destruct P as [|f' P]; [done|]. split; [done|]. rewrite Ho, Hn. done.
Qed.

Lemma relates_new {A} P (a b : list A) : relates P a b → separated P → Patch.new P = Some P.
Proof.
  intros Hr Hs. unfold Patch.new. by rewrite (relates_from_new_asserts 0 0 P a b None Hr Hs).
Qed.

Lemma compose_relates {A} P Q (a b c : list A) :
  relates P a b → relates Q b c →
  ∃ R, Patch.compose P Q = Some R ∧ relates R a c ∧ separated R.
Proof.
  intros HP HQ. unfold Patch.compose.
  destruct (compose_loop_spec a c (length P + length Q) (Patch.mkCompose P Q [] 0 0)) as (R & Hrun & HR).
  - exists 0, [], a, b, [], c. by split_and!.
  - done.
  - exists R. split; [done|]. split; [done|]. by eapply compose_loop_separated.
Qed.

Lemma relates_from_invert {A} o n P (a b : list A) :
  relates_from o n P a b → relates_from n o (Patch.invert P) b a.
Proof.
  revert o n a b. induction P as [|e P IH]; intros o n a b; [by intros ->|].
  intros (g & x & y & a' & b' & -> & -> & Ho & Hn & Hrest). exists g, y, x, b', a'. simpl. split_and!; try done.
  by apply IH.
Qed.

Lemma invert_relates {A} P (a b : list A) : relates P a b → relates (Patch.invert P) b a.
Proof. apply relates_from_invert. Qed.

(** ** Positions *)

(** The reference for [old_to_new]. *)
Fixpoint map_pos (o n : nat) (P : list Edit) (p : nat) : nat :=
  match P with
  | [] => n + (p - o)
  | e :: P =>
      if p <? Range.start (Edit.old e) then n + (p - o)
      else if p <? Range.end_ (Edit.old e) then Range.start (Edit.new e)
      else map_pos (Range.end_ (Edit.old e)) (Range.end_ (Edit.new e)) P p
  end.

(** An edit whose old range holds the position. *)
Definition covers (p : nat) (e : Edit) : Prop := Range.start (Edit.old e) <= p < Range.end_ (Edit.old e).

Lemma map_pos_relates {A} o n P (a b : list A) i :
  relates_from o n P a b → i <= length a →
  n <= map_pos o n P (o + i) <= n + length b ∧
  ((∀ e, e ∈ P → ¬ covers (o + i) e) → a !! i = b !! (map_pos o n P (o + i) - n)) ∧
  (∀ j, i <= j → map_pos o n P (o + i) <= map_pos o n P (o + j)).
Proof.
  revert o n a b i. induction P as [|e P IH]; intros o n a b i.
  { intros <- Hi. simpl. split; [lia|]. split; [|lia]. intros _. f_equal. lia. }
  intros (g & x & y & a' & b' & -> & -> & Ho & Hn & Hrest) Hi. simpl. rewrite Ho, Hn. simpl.
  rewrite !length_app in *.
  set (o' := o + length g + length x) in *. set (n' := n + length g + length y) in *.
  assert (Hge : ∀ j, o' <= o + j → n' <= map_pos o' n' P (o + j)).
  { intros j Hj. destruct (IH o' n' a' b' 0 Hrest) as (Hb & _ & Hmono); [lia|].
    specialize (Hmono (o + j - o')). rewrite Nat.add_0_r in *. replace (o' + (o + j - o')) with (o + j) in Hmono by lia.
    specialize (Hmono ltac:(lia)). lia. }
  destruct (Nat.ltb_spec (o + i) (o + length g)) as [Hlt|Hge1].
  { split; [lia|]. split.
    - intros _. replace (n + (o + i - o) - n) with i by lia. rewrite !lookup_app_l by lia. done.
    - intros j Hj. destruct (Nat.ltb_spec (o + j) (o + length g)); [lia|].
      destruct (Nat.ltb_spec (o + j) o'); [lia|]. specialize (Hge j). lia. }
  destruct (Nat.ltb_spec (o + i) o') as [Hlt2|Hge2].
  { split; [lia|]. split.
    - intros Hc. destruct (Hc e); [set_solver|]. unfold covers. rewrite Ho. simpl. lia.
    - intros j Hj. destruct (Nat.ltb_spec (o + j) (o + length g)); [lia|].
      destruct (Nat.ltb_spec (o + j) o'); [lia|]. specialize (Hge j). lia. }
  destruct (IH o' n' a' b' (o + i - o') Hrest) as (Hb & Hl & Hmono); [lia|].
  replace (o' + (o + i - o')) with (o + i) in * by lia. split; [lia|]. split.
  - intros Hc. rewrite !app_assoc. rewrite !lookup_app_r by (rewrite length_app; lia).
    rewrite !length_app. replace (i - (length g + length x)) with (o + i - o') by lia.
    rewrite Hl by (intros e' He'; apply Hc; set_solver). f_equal. lia.
  - intros j Hj. destruct (Nat.ltb_spec (o + j) (o + length g)); [lia|].
    destruct (Nat.ltb_spec (o + j) o'); [lia|].
    specialize (Hmono (o + j - o')). replace (o' + (o + j - o')) with (o + j) in Hmono by lia. apply Hmono. lia.
Qed.

(** The edit the binary search finds: the last that starts at or before. *)
Lemma search_index_spec {A} o n P (a b : list A) p :
  relates_from o n P a b → separated P →
  match Patch.search_index P p with
  | None => ∀ e, e ∈ P → p < Range.start (Edit.old e)
  | Some ix => ∃ P1 e P2, P = P1 ++ e :: P2 ∧ ix = length P1 ∧ Range.start (Edit.old e) <= p ∧
      (∀ e', e' ∈ P2 → p < Range.start (Edit.old e')) ∧ (∀ e', e' ∈ P1 → Range.end_ (Edit.old e') < p)
  end.
Proof.
  unfold Patch.search_index. revert o n a b. induction P as [|e P IH]; intros o n a b; [set_solver|].
  intros (g & x & y & a' & b' & -> & -> & Ho & Hn & Hrest) [Hlt Hs]%separated_cons. simpl.
  assert (Hafter : ∀ o n (a b : list A) P, relates_from o n P a b → ∀ e', e' ∈ P → o <= Range.start (Edit.old e')).
  { clear. intros o n a b P. revert o n a b. induction P as [|e P IH]; intros o n a b; [set_solver|].
    intros (g & x & y & a' & b' & -> & -> & Ho & Hn & Hrest) e' [->|He']%elem_of_cons; [rewrite Ho; simpl; lia|].
    specialize (IH _ _ _ _ Hrest e' He'). lia. }
  assert (Hgap : ∀ e', e' ∈ P → Range.end_ (Edit.old e) < Range.start (Edit.old e')).
  { destruct P as [|e2 P]; [set_solver|]. intros e' [->|He']%elem_of_cons; [done|].
    destruct Hrest as (g2 & x2 & y2 & a2 & b2 & _ & _ & Ho2 & _ & Hrest2).
    specialize (Hafter _ _ _ _ _ Hrest2 e' He'). rewrite Ho2 in Hlt. simpl in Hlt. lia. }
  destruct (Nat.compare_spec (Range.start (Edit.old e)) p) as [Heq|Hlt'|Hgt].
  - exists [], e, P. split_and!; try done; [lia| |set_solver].
    intros e' He'. specialize (Hgap e' He'). rewrite Ho in *. simpl in *. lia.
  - specialize (IH _ _ _ _ Hrest Hs).
    destruct (Patch.binary_search P p) as [ix|[|ix]].
    + destruct IH as (P1 & e' & P2 & -> & -> & ? & ? & ?). exists (e :: P1), e', P2. split_and!; try done.
      intros e'' [->|?]%elem_of_cons; [|auto]. specialize (Hgap e' ltac:(set_solver)). lia.
    + exists [], e, P. split_and!; try done; [lia|set_solver].
    + destruct IH as (P1 & e' & P2 & -> & -> & ? & ? & ?). exists (e :: P1), e', P2. split_and!; try done.
      intros e'' [->|?]%elem_of_cons; [|auto]. specialize (Hgap e' ltac:(set_solver)). lia.
  - intros e' [->|He']%elem_of_cons; [done|]. specialize (Hgap e' He'). rewrite Ho in *. simpl in *. lia.
Qed.

Lemma map_pos_before o n P p : (∀ e, e ∈ P → p < Range.start (Edit.old e)) → map_pos o n P p = n + (p - o).
Proof.
  intros HP. destruct P as [|e P]; [done|]. simpl. specialize (HP e ltac:(set_solver)).
  by destruct (Nat.ltb_spec p (Range.start (Edit.old e))); [|lia].
Qed.

Lemma map_pos_skip o n P1 e P2 p :
  (∀ e', e' ∈ P1 → Range.start (Edit.old e') <= Range.end_ (Edit.old e') < p) →
  Range.start (Edit.old e) <= p → (∀ e', e' ∈ P2 → p < Range.start (Edit.old e')) →
  map_pos o n (P1 ++ e :: P2) p =
    if p <? Range.end_ (Edit.old e) then Range.start (Edit.new e)
    else Range.end_ (Edit.new e) + (p - Range.end_ (Edit.old e)).
Proof.
  revert o n. induction P1 as [|e1 P1 IH]; intros o n H1 He H2; simpl.
  - destruct (Nat.ltb_spec p (Range.start (Edit.old e))); [lia|]. destruct (p <? _); [done|].
    by apply map_pos_before.
  - pose proof (H1 e1 (list_elem_of_here _ _)) as Hlt.
    destruct (Nat.ltb_spec p (Range.start (Edit.old e1))); [lia|].
    destruct (Nat.ltb_spec p (Range.end_ (Edit.old e1))); [lia|].
    apply IH; [|done..]. intros e' He'. apply H1. by apply list_elem_of_further.
Qed.

Lemma relates_from_ranges {A} o n P (a b : list A) :
  relates_from o n P a b → ∀ e, e ∈ P → Range.start (Edit.old e) <= Range.end_ (Edit.old e).
Proof.
  revert o n a b. induction P as [|e P IH]; intros o n a b; [set_solver|].
  intros (g & x & y & a' & b' & -> & -> & Ho & Hn & Hrest) e' [->|He']%elem_of_cons; [rewrite Ho; simpl; lia|].
  by eapply IH.
Qed.

Lemma old_to_new_map_pos {A} P (a b : list A) p :
  relates P a b → separated P → Patch.old_to_new P p = Some (map_pos 0 0 P p).
Proof.
  intros Hr Hs. unfold Patch.old_to_new. pose proof (search_index_spec 0 0 P a b p Hr Hs) as Hix.
  destruct (Patch.search_index P p) as [ix|].
  - destruct Hix as (P1 & e & P2 & -> & -> & He & H2 & H1).
    change Patch.t with (list Edit). rewrite list_lookup_middle by done.
    rewrite map_pos_skip; [|intros e' He'; split; [|by apply H1]; eapply (relates_from_ranges 0 0); [done|set_solver]|done..].
    destruct (Nat.leb_spec (Range.end_ (Edit.old e)) p), (Nat.ltb_spec p (Range.end_ (Edit.old e))); try lia; [|done].
    unfold checked_sub. destruct (Nat.leb_spec (Range.end_ (Edit.old e)) p); [done|lia].
  - rewrite map_pos_before by done. f_equal. lia.
Qed.

(** ** Properties *)

(** C27. Composing patches composes edits: if one patch describes the change
    from [a] to [b] and the other the change from [b] to [c], [compose]
    terminates without underflow and describes the change from [a] to [c], with
    the edits separated as [Patch::new] asserts. *)
Theorem compose_composes {A} P Q (a b c : list A) (HP : relates P a b) (HQ : relates Q b c) :
  ∃ R, Patch.compose P Q = Some R ∧ relates R a c ∧ Patch.new R = Some R.
Proof.
  destruct (compose_relates P Q a b c HP HQ) as (R & Hrun & HR & Hs). exists R.
  split; [done|]. split; [done|]. by apply (relates_new R a c).
Qed.

(** [invert] describes the reverse change, and undoing a patch by composing
    it with its inverse relates the old text to itself. *)
Theorem invert_reverses {A} P (a b : list A) (HP : relates P a b) :
  relates (Patch.invert P) b a ∧ Patch.invert (Patch.invert P) = P ∧
  ∃ R, Patch.compose P (Patch.invert P) = Some R ∧ relates R a a.
Proof.
  split; [by apply invert_relates|]. split.
  - unfold Patch.invert. rewrite map_map. rewrite (map_ext _ (λ e, e)); [apply map_id|]. by intros [].
  - destruct (compose_relates P (Patch.invert P) a b a HP (invert_relates P a b HP)) as (R & ? & ? & _). eauto.
Qed.

(** [old_to_new] maps a position of the old text to the new one: a position
    inside a replaced range goes to the start of its replacement, any other to
    the position of the same element; the map is monotone and stays within the
    new text.  [edit_for_old_position] returns the edit that touches the
    position, or else an empty edit at it and its image. *)
Theorem old_to_new_spec {A} P (a b : list A) (p : nat)
    (HP : relates P a b) (Hs : separated P) (Hp : p <= length a) :
  ∃ q, Patch.old_to_new P p = Some q ∧ q <= length b ∧
    (∀ e, e ∈ P → covers p e → q = Range.start (Edit.new e)) ∧
    ((∀ e, e ∈ P → ¬ covers p e) → a !! p = b !! q) ∧
    (∀ p' q', p <= p' → Patch.old_to_new P p' = Some q' → q <= q') ∧
    (∃ e, Patch.edit_for_old_position P p = Some e ∧
      ((e ∈ P ∧ Range.start (Edit.old e) <= p <= Range.end_ (Edit.old e)) ∨
       ((∀ e', e' ∈ P → ¬ (Range.start (Edit.old e') <= p <= Range.end_ (Edit.old e'))) ∧
        e = Edit.mk (Range.mk p p) (Range.mk q q)))).
Proof.
  exists (map_pos 0 0 P p). rewrite (old_to_new_map_pos P a b p HP Hs).
  destruct (map_pos_relates 0 0 P a b p HP Hp) as (Hb & Hl & Hmono). simpl in *. rewrite Nat.sub_0_r in Hl.
  split; [done|]. split; [lia|].
  pose proof (search_index_spec 0 0 P a b p HP Hs) as Hix.
  pose proof (relates_from_ranges 0 0 P a b HP) as Hranges.
  split; [|split; [done|split]].
  - intros e He [Hc1 Hc2]. destruct (Patch.search_index P p) as [ix|]; [|specialize (Hix e He); lia].
    destruct Hix as (P1 & e' & P2 & -> & _ & He' & H2 & H1).
    apply elem_of_app in He as [He|[->|He]%elem_of_cons]; [specialize (H1 e He); lia| |specialize (H2 e He); lia].
    rewrite map_pos_skip; [|intros e'' He''; split; [apply Hranges; set_solver|by apply H1]|done..].
    destruct (Nat.ltb_spec p (Range.end_ (Edit.old e'))); [done|lia].
  - intros p' q' Hle. rewrite (old_to_new_map_pos P a b p' HP Hs). intros [= <-]. by apply Hmono.
  - unfold Patch.edit_for_old_position. destruct (Patch.search_index P p) as [ix|].
    + destruct Hix as (P1 & e & P2 & HPeq & -> & He & H2 & H1). rewrite HPeq in *.
      change Patch.t with (list Edit). rewrite list_lookup_middle by done.
      rewrite map_pos_skip; [|intros e'' He''; split; [apply Hranges; set_solver|by apply H1]|done..].
      destruct (Nat.ltb_spec (Range.end_ (Edit.old e)) p) as [Hlt|Hge].
      * unfold checked_sub. destruct (Nat.leb_spec (Range.end_ (Edit.old e)) p); [|lia]. simpl.
        eexists. split; [done|]. right. destruct (Nat.ltb_spec p (Range.end_ (Edit.old e))); [lia|]. split; [|done].
        intros e' [He'|[->|He']%elem_of_cons]%elem_of_app; [specialize (H1 e' He'); lia|lia|specialize (H2 e' He'); lia].
      * eexists. split; [done|]. left. split; [set_solver|lia].
    + eexists. split; [done|]. right. rewrite map_pos_before by done.
      split; [intros e' He'; specialize (Hix e' He'); lia|]. do 2 f_equal; lia.
Qed.

(** The text 0..9 with [2..4) replaced by three elements, and then the element
    at 3 of the result removed. *)
Definition example_P : list Edit := [Edit.mk (Range.mk 2 4) (Range.mk 2 5)].
Definition example_Q : list Edit := [Edit.mk (Range.mk 3 4) (Range.mk 3 3)].
Definition example_a : list nat := [0; 1; 2; 3; 4; 5].
Definition example_b : list nat := [0; 1; 20; 21; 22; 4; 5].
Definition example_c : list nat := [0; 1; 20; 22; 4; 5].

Lemma example_P_relates : relates example_P example_a example_b.
Proof. by exists [0; 1], [2; 3], [20; 21; 22], [4; 5], [4; 5]. Qed.
Lemma example_Q_relates : relates example_Q example_b example_c.
Proof. by exists [0; 1; 20], [21], [], [22; 4; 5], [22; 4; 5]. Qed.

Lemma compose_composes_witness :
  ∃ R, Patch.compose example_P example_Q = Some R ∧ relates R example_a example_c ∧ Patch.new R = Some R.
Proof. exact (compose_composes example_P example_Q example_a example_b example_c example_P_relates example_Q_relates). Defined.

Lemma invert_reverses_witness :
  relates [Edit.mk (Range.mk 2 5) (Range.mk 2 4)] example_b example_a ∧
  Patch.invert (Patch.invert example_P) = example_P ∧
  ∃ R, Patch.compose example_P (Patch.invert example_P) = Some R ∧ relates R example_a example_a.
Proof. exact (invert_reverses example_P example_a example_b example_P_relates). Defined.

Lemma old_to_new_spec_witness :
  ∃ q, Patch.old_to_new example_P 4 = Some q ∧ q <= 7 ∧
    (∀ e, e ∈ example_P → covers 4 e → q = Range.start (Edit.new e)) ∧
    ((∀ e, e ∈ example_P → ¬ covers 4 e) → Some 4 = example_b !! q) ∧
    (∀ p' q', 4 <= p' → Patch.old_to_new example_P p' = Some q' → q <= q') ∧
    (∃ e, Patch.edit_for_old_position example_P 4 = Some e ∧
      ((e ∈ example_P ∧ Range.start (Edit.old e) <= 4 <= Range.end_ (Edit.old e)) ∨
       ((∀ e', e' ∈ example_P → ¬ (Range.start (Edit.old e') <= 4 <= Range.end_ (Edit.old e'))) ∧
        e = Edit.mk (Range.mk 4 4) (Range.mk q q)))).
Proof.
  exact (old_to_new_spec example_P example_a example_b 4 example_P_relates (conj I I) ltac:(vm_compute; lia)).
Defined.
