(* ===== verification/Subscription.v ===== *)
(** * Subscriptions to edits ([crates/text/src/subscription.rs])

    A topic holds weak references to the patches its subscribers share with it;
    publishing composes the published edits onto each patch that is still
    alive, consuming takes the patch.  The shared patches are cells of a heap: a
    cell is there as long as its subscription (the one strong reference) is. *)

From stdpp Require Import fin_maps.
From S2P Require Import Prelude Patch PatchFacts.

(** The cells of the [Arc<Mutex<Patch>>]s, and the next free address. *)
Record Heap := mkHeap { cells : gmap nat Patch.t; next_free : nat }.

Module Heap.
Definition alloc (h : Heap) (patch : Patch.t) : Heap * nat :=
  (mkHeap (<[next_free h := patch]> (cells h)) (S (next_free h)), next_free h).
Definition write (h : Heap) (l : nat) (patch : Patch.t) : Heap :=
  mkHeap (<[l := patch]> (cells h)) (next_free h).
End Heap.

(** [struct Topic(Mutex<Vec<Weak<..>>>)]: the weak references. *)
Abbreviation Topic := (list nat) (only parsing).

Module Topic.
(** Returns the address the new [Subscription] owns. *)
Definition subscribe (self : Topic) (h : Heap) : Topic * Heap * nat :=
  let '(h, subscription) := Heap.alloc h Patch.empty in
  (self ++ [subscription], h, subscription).

(** The free function [publish]: the retained references and the heap. *)
Fixpoint publish (subscriptions : Topic) (h : Heap) (edits : list Edit) : option (Topic * Heap) :=
  match subscriptions with
  | [] => Some ([], h)
  | subscription :: subscriptions =>
      match cells h !! subscription with
      | Some patch =>
          patch ← Patch.compose patch edits;
          '(subscriptions, h) ← publish subscriptions (Heap.write h subscription patch) edits;
          Some (subscription :: subscriptions, h)
      | None => publish subscriptions h edits
      end
  end.
End Topic.

Module Subscription.
(** Takes the patch and leaves the default. *)
Definition consume (self : nat) (h : Heap) : option (Heap * Patch.t) :=
  patch ← cells h !! self;
  Some (Heap.write h self Patch.empty, patch).

(** [Drop]: the strong count reaches zero. *)
Definition drop (self : nat) (h : Heap) : Heap := mkHeap (delete self (cells h)) (next_free h).
End Subscription.

(** ** The protocol *)

Section protocol.
Context {A : Type}.
Implicit Types (text : list A).

(** The publisher's text, the topic and its heap; and what no one stores: for
    each subscription the text it last knew. *)
Record State := mkState {
  current : list A;
  topic : Topic;
  heap : Heap;
  known : gmap nat (list A);
}.

Inductive step : State → State → Prop :=
  | step_subscribe s t h l :
      Topic.subscribe (topic s) (heap s) = (t, h, l) →
      step s (mkState (current s) t h (<[l := current s]> (known s)))
  | step_publish s edits text t h :
      relates edits (current s) text →
      Topic.publish (topic s) (heap s) edits = Some (t, h) →
      step s (mkState text t h (known s))
  | step_consume s l h patch :
      Subscription.consume l (heap s) = Some (h, patch) →
      step s (mkState (current s) (topic s) h (<[l := current s]> (known s)))
  | step_drop s l :
      step s (mkState (current s) (topic s) (Subscription.drop l (heap s)) (delete l (known s))).

Definition init text : State := mkState text [] (mkHeap ∅ 0) ∅.

(** The pending patch of a live subscription relates what it knew to the
    current text. *)
Record invariant (s : State) : Prop := {
  inv_nodup : NoDup (topic s);
  inv_live l : l ∈ dom (cells (heap s)) → l ∈ topic s;
  inv_fresh l : l ∈ topic s → l < next_free (heap s);
  inv_pending l patch : cells (heap s) !! l = Some patch →
    ∃ text, known s !! l = Some text ∧ relates patch text (current s);
}.

(** Publishing composes every live patch once, and keeps the live references. *)
Lemma publish_spec (edits : list Edit) (subs : Topic) (h : Heap) :
  NoDup subs →
  (∀ l patch, l ∈ subs → cells h !! l = Some patch → ∃ patch', Patch.compose patch edits = Some patch') →
  ∃ subs' h', Topic.publish subs h edits = Some (subs', h') ∧
    subs' = filter (λ l, is_Some (cells h !! l)) subs ∧ next_free h' = next_free h ∧
    ∀ l, cells h' !! l =
      if decide (l ∈ subs) then cells h !! l ≫= λ patch, Patch.compose patch edits else cells h !! l.
Proof.
  revert h. induction subs as [|l subs IH]; intros h Hnd Hok; simpl.
  { exists [], h. split_and!; done. }
  apply NoDup_cons in Hnd as [Hl Hnd]. destruct (cells h !! l) as [patch|] eqn:Hcell; simpl.
  - destruct (Hok l patch ltac:(set_solver) Hcell) as [patch' Hc]. rewrite Hc. simpl.
    destruct (IH (Heap.write h l patch') Hnd) as (subs' & h' & Hp & Hsubs & Hnext & Hcells).
    { intros l' p Hin. simpl. rewrite lookup_insert_ne by set_solver. apply Hok. set_solver. }
    rewrite Hp. simpl. eexists _, h'. split; [done|]. split_and!; [|done|].
    + rewrite filter_cons_True by (rewrite Hcell; eauto). rewrite Hsubs. f_equal.
      apply list_filter_iff. intros l'. simpl. destruct (decide (l' = l)) as [->|Hne].
      * rewrite lookup_insert_eq, Hcell. naive_solver.
      * by rewrite lookup_insert_ne by done.
    + intros l'. rewrite Hcells. simpl. destruct (decide (l' = l)) as [->|Hne].
      * rewrite decide_False by done. rewrite decide_True by set_solver.
        rewrite lookup_insert_eq, Hcell. simpl. done.
      * rewrite !lookup_insert_ne by done. destruct (decide (l' ∈ subs)).
        -- by rewrite decide_True by set_solver.
        -- by rewrite decide_False by set_solver.
  - destruct (IH h Hnd) as (subs' & h' & Hp & Hsubs & Hnext & Hcells); [set_solver|].
    exists subs', h'. split_and!; try done.
    + rewrite filter_cons_False by (rewrite Hcell; inversion 1; done). done.
    + intros l'. rewrite Hcells. destruct (decide (l' = l)) as [->|Hne].
      * rewrite decide_False by done. rewrite decide_True by set_solver. by rewrite Hcell.
      * destruct (decide (l' ∈ subs)); [by rewrite decide_True by set_solver|by rewrite decide_False by set_solver].
Qed.

Lemma invariant_init text : invariant (init text).
Proof. split; simpl; [constructor|set_solver..]. Qed.

Lemma step_invariant s s' : step s s' → invariant s → invariant s'.
Proof.
  intros Hstep [Hnd Hlive Hfresh Hpend]. destruct Hstep as [s t h l Hsub|s edits text t h Hr Hpub|s l h patch Hc|s l].
  - unfold Topic.subscribe, Heap.alloc in Hsub. injection Hsub as <- <- <-. split; simpl.
    + apply NoDup_app. split_and!; [done| |apply NoDup_singleton].
      intros l Hl Heq%list_elem_of_singleton. subst l. specialize (Hfresh _ Hl). lia.
    + set_solver.
    + intros l [Hl|Heq%list_elem_of_singleton]%elem_of_app; [specialize (Hfresh _ Hl); lia|lia].
    + intros l patch. destruct (decide (l = next_free (heap s))) as [->|Hne].
      * rewrite !lookup_insert_eq. intros [= <-]. exists (current s). by split.
      * rewrite !lookup_insert_ne by done. apply Hpend.
  - destruct (publish_spec edits (topic s) (heap s) Hnd) as (t' & h' & Hp & Ht & Hnext & Hcells).
    { intros l patch _ Hcell. destruct (Hpend l patch Hcell) as (text0 & _ & Hr0).
      destruct (compose_relates patch edits text0 (current s) text Hr0 Hr) as (R & ? & _). eauto. }
    rewrite Hp in Hpub. injection Hpub as <- <-.
    assert (Hdom : ∀ l, is_Some (cells h' !! l) → is_Some (cells (heap s) !! l)).
    { intros l. rewrite Hcells. destruct (decide _); [|done]. destruct (cells (heap s) !! l); [eauto|done]. }
    split; simpl.
    + rewrite Ht. by apply NoDup_filter.
    + intros l Hl%elem_of_dom%Hdom. rewrite Ht. apply list_elem_of_filter. split; [done|].
      apply Hlive. by apply elem_of_dom.
    + rewrite Hnext, Ht. intros l [_ Hl]%list_elem_of_filter. by apply Hfresh.
    + intros l patch. rewrite Hcells. destruct (decide (l ∈ topic s)) as [Hin|Hnin].
      * destruct (cells (heap s) !! l) as [p|] eqn:Hcell; simpl; [|done]. intros Hcomp.
        destruct (Hpend l p Hcell) as (text0 & Hk & Hr0). exists text0. split; [done|].
        destruct (compose_relates p edits text0 (current s) text Hr0 Hr) as (R & HR & ? & _).
        by simplify_eq.
      * intros Hcell. destruct Hnin. apply Hlive. apply elem_of_dom. eauto.
  - unfold Subscription.consume in Hc. destruct (cells (heap s) !! l) as [p|] eqn:Hcell; simpl in Hc; [|done].
    injection Hc as <- <-. split; simpl; try done.
    + intros l'. rewrite dom_insert_lookup_L by eauto. apply Hlive.
    + intros l' patch. destruct (decide (l' = l)) as [->|Hne].
      * rewrite !lookup_insert_eq. intros [= <-]. exists (current s). by split.
      * rewrite !lookup_insert_ne by done. apply Hpend.
  - split; simpl; try done; [set_solver|].
    intros l' patch. destruct (decide (l' = l)) as [->|Hne].
    + by rewrite lookup_delete_eq.
    + rewrite !lookup_delete_ne by done. apply Hpend.
Qed.

Lemma reachable_invariant text s : rtc step (init text) s → invariant s.
Proof.
  intros Hr. pose proof (invariant_init text) as Hi. induction Hr as [|s s' s'' Hstep _ IH]; [done|].
  apply IH. by eapply step_invariant.
Qed.

(** Publishing a patch of the current text succeeds. *)
Lemma publish_some s edits text' : invariant s → relates edits (current s) text' →
  ∃ t h, Topic.publish (topic s) (heap s) edits = Some (t, h).
Proof.
  intros [Hnd Hlive Hfresh Hpend] Hr. destruct (publish_spec edits (topic s) (heap s) Hnd) as (t & h & Hp & _); [|eauto].
  intros l patch _ Hcell. destruct (Hpend l patch Hcell) as (text0 & _ & Hr0).
  destruct (compose_relates patch edits text0 (current s) text' Hr0 Hr) as (R & ? & _). eauto.
Qed.

(** C38. A subscriber never misses or repeats an edit: in every state reached
    by subscribing, publishing, consuming and dropping in any order,
    publishing a patch of the current text succeeds, and what a live
    subscription consumes is a patch from the text it last knew (when it
    subscribed or last consumed) to the current text. *)
Theorem subscribers_stay_current text s (Hreach : rtc step (init text) s) :
  (∀ edits text', relates edits (current s) text' →
    ∃ t h, Topic.publish (topic s) (heap s) edits = Some (t, h)) ∧
  (∀ l h patch, Subscription.consume l (heap s) = Some (h, patch) →
    ∃ text0, known s !! l = Some text0 ∧ relates patch text0 (current s) ∧ cells h !! l = Some Patch.empty).
Proof.
  pose proof (reachable_invariant text s Hreach) as Hinv. split; [intros; by eapply publish_some|].
  intros l h patch Hc. unfold Subscription.consume in Hc.
  destruct (cells (heap s) !! l) as [p|] eqn:Hcell; simpl in Hc; [|done]. injection Hc as <- <-.
  destruct (inv_pending _ Hinv l p Hcell) as (text0 & ? & ?). exists text0. split_and!; try done.
  simpl. by rewrite lookup_insert_eq.
Qed.
End protocol.

(** Subscribe, replace two elements by three, remove one of them, look. *)
Lemma subscribers_stay_current_witness :
  ∃ s : State, rtc step (init example_a) s ∧ current s = example_c ∧
    ∃ h patch, Subscription.consume 0 (heap s) = Some (h, patch) ∧
      ∃ text0, known s !! 0 = Some text0 ∧ relates patch text0 (current s) ∧ cells h !! 0 = Some Patch.empty.
Proof.
  pose (s1 := mkState example_a [0] (mkHeap {[0 := []]} 1) {[0 := example_a]}).
  pose (s2 := mkState example_b [0] (mkHeap {[0 := example_P]} 1) {[0 := example_a]}).
  pose (s3 := mkState example_c [0] (mkHeap {[0 := [Edit.mk (Range.mk 2 4) (Range.mk 2 4)]]} 1) {[0 := example_a]}).
  assert (rtc step (init example_a) s3) as Hreach.
  { apply (rtc_l _ _ s1); [by apply (step_subscribe (init example_a) [0] _ 0)|].
    apply (rtc_l _ _ s2); [by apply (step_publish s1 example_P example_b), eq_refl; apply example_P_relates|].
    apply (rtc_l _ _ s3); [by apply (step_publish s2 example_Q example_c), eq_refl; apply example_Q_relates|done]. }
  exists s3. split; [done|]. split; [done|]. eexists _, _. split; [done|].
  by apply (subscribers_stay_current example_a s3 Hreach).
Defined.
