(* ===== verification/Selection.v ===== *)
(** * Selections ([crates/text/src/selection.rs])

    A selection is an ordered range and the end its cursor is at: [head] moves,
    [tail] stays.  The editing operations keep the range ordered whichever way
    the two are moved across each other; [swap_head_tail] does not. *)

From S2P Require Import Prelude Patch.

(** [f64] and [f32] by their bit patterns: the code only copies them. *)
Abbreviation f64 := N (only parsing).
Abbreviation f32 := N (only parsing).

Inductive SelectionGoal :=
  | NoGoal
  | HorizontalPosition (position : f64)
  | HorizontalRange (start end_ : f64)
  | WrappedHorizontalPosition (position : N * f32).

Module Selection.
(** [struct Selection<T>] *)
Record t (T : Type) := mk { id : nat; start : T; end_ : T; reversed : bool; goal : SelectionGoal }.
#[global] Arguments mk {T}.
#[global] Arguments id {T}.
#[global] Arguments start {T}.
#[global] Arguments end_ {T}.
#[global] Arguments reversed {T}.
#[global] Arguments goal {T}.

Section ops.
Context {T : Type}.
Implicit Types self : t T.

Definition head self : T := if reversed self then start self else end_ self.
Definition tail self : T := if reversed self then end_ self else start self.

Definition map {S} self (f : T → S) : t S :=
  mk (id self) (f (start self)) (f (end_ self)) (reversed self) (goal self).

Definition collapse_to self (point : T) (new_goal : SelectionGoal) : t T :=
  mk (id self) point point false new_goal.

Context `{Ord T}.

Definition is_empty self : bool := is_eq (cmp (start self) (end_ self)).

Definition set_head self (head : T) (new_goal : SelectionGoal) : t T :=
  if is_lt (cmp head (tail self)) then
    let '(end_, reversed) :=
      if negb (reversed self) then (start self, true) else (end_ self, reversed self) in
    mk (id self) head end_ reversed new_goal
  else
    let '(start, reversed) :=
      if reversed self then (end_ self, false) else (start self, reversed self) in
    mk (id self) start head reversed new_goal.

Definition set_tail self (tail : T) (new_goal : SelectionGoal) : t T :=
  if is_le (cmp tail (head self)) then
    let '(end_, reversed) :=
      if reversed self then (start self, false) else (end_ self, reversed self) in
    mk (id self) tail end_ reversed new_goal
  else
    let '(start, reversed) :=
      if negb (reversed self) then (end_ self, true) else (start self, reversed self) in
    mk (id self) start tail reversed new_goal.

Definition set_head_tail self (head tail : T) (new_goal : SelectionGoal) : t T :=
  if is_lt (cmp head tail)
  then mk (id self) head tail true new_goal
  else mk (id self) tail head false new_goal.

Definition swap_head_tail self : t T :=
  if reversed self
  then mk (id self) (start self) (end_ self) false (goal self)
  else mk (id self) (end_ self) (start self) (reversed self) (goal self).

Definition range self : T * T := (start self, end_ self).

Definition equals self (offset_range : T * T) : bool :=
  is_eq (cmp (start self) offset_range.1) && is_eq (cmp (end_ self) offset_range.2).
End ops.

(** [Selection<usize>::len] *)
Definition len (self : t nat) : option nat := checked_sub (end_ self) (start self).

Definition from_offset {T} (offset : T) : t T := mk 0 offset offset false NoGoal.
End Selection.
Abbreviation Selection := Selection.t (only parsing).

Section facts.
Context {T : Type} `{OrdLaws T}.
Implicit Types s : Selection T.

(** The range is ordered. *)
Definition ordered s : Prop := is_le (cmp (Selection.start s) (Selection.end_ s)).

(** What the operations that place a head and a tail promise: the two ends
    are where they were put, the range is ordered, the direction is that of
    the ends, and the identity is kept. *)
Definition placed s (id : nat) (head tail : T) (goal : SelectionGoal) : Prop :=
  Selection.head s = head ∧ Selection.tail s = tail ∧ ordered s ∧
  Selection.reversed s = is_lt (cmp head tail) ∧ Selection.id s = id ∧ Selection.goal s = goal.

Lemma is_le_not_lt (x y : T) : is_lt (cmp x y) = false → is_le (cmp y x).
Proof. rewrite (cmp_opp x y). by destruct (cmp x y). Qed.

Lemma is_lt_le (x y : T) : is_lt (cmp x y) = true → is_le (cmp x y).
Proof. by destruct (cmp x y). Qed.

Lemma is_lt_flip (x y : T) : is_le (cmp y x) = negb (is_lt (cmp x y)).
Proof. rewrite (cmp_opp x y). by destruct (cmp x y). Qed.

Lemma placed_mk id head tail goal :
  placed (if is_lt (cmp head tail) then Selection.mk id head tail true goal
          else Selection.mk id tail head false goal) id head tail goal.
Proof.
  unfold placed, ordered. destruct (is_lt (cmp head tail)) eqn:Hlt; simpl; split_and!; try done.
  - by apply is_lt_le.
  - by apply is_le_not_lt.
Qed.

(** Moving either end is placing both. *)
Lemma set_head_place s head goal :
  Selection.set_head s head goal = Selection.set_head_tail s head (Selection.tail s) goal.
Proof.
  destruct s as [id start end_ reversed goal']. unfold Selection.set_head, Selection.set_head_tail, Selection.tail.
  simpl. destruct reversed; simpl; by destruct (is_lt _).
Qed.

Lemma set_tail_place s tail goal :
  Selection.set_tail s tail goal = Selection.set_head_tail s (Selection.head s) tail goal.
Proof.
  destruct s as [id start end_ reversed goal']. unfold Selection.set_tail, Selection.set_head_tail, Selection.head.
  simpl. destruct reversed; simpl; rewrite is_lt_flip; by destruct (is_lt _).
Qed.

(** Moving the head of a selection keeps its tail and moving the tail
    keeps its head, also when one is moved across the other: the range stays
    ordered and the direction follows the ends.  Placing both and collapsing
    do the same. *)
Theorem selection_ends_placed s (x y : T) (goal : SelectionGoal) :
  placed (Selection.set_head s x goal) (Selection.id s) x (Selection.tail s) goal ∧
  placed (Selection.set_tail s x goal) (Selection.id s) (Selection.head s) x goal ∧
  placed (Selection.set_head_tail s x y goal) (Selection.id s) x y goal ∧
  placed (Selection.collapse_to s x goal) (Selection.id s) x x goal ∧
  Selection.is_empty (Selection.collapse_to s x goal) = true.
Proof.
  rewrite set_head_place, set_tail_place. unfold Selection.set_head_tail.
  split; [apply placed_mk|]. split; [apply placed_mk|]. split; [apply placed_mk|].
  unfold placed, ordered, Selection.is_empty. simpl. by rewrite cmp_refl.
Qed.

(** [swap_head_tail] exchanges the two ends of every selection, but it
    leaves the range ordered only when the selection was reversed or empty: a
    forward selection comes out with its start after its end. *)
Theorem swap_head_tail_order s (Hs : ordered s) :
  Selection.head (Selection.swap_head_tail s) = Selection.tail s ∧
  Selection.tail (Selection.swap_head_tail s) = Selection.head s ∧
  (ordered (Selection.swap_head_tail s) ↔
    Selection.reversed s = true ∨ Selection.is_empty s = true).
Proof.
  revert Hs. destruct s as [id start end_ reversed goal].
  unfold Selection.swap_head_tail, Selection.head, Selection.tail, Selection.is_empty, ordered. simpl.
  destruct reversed; simpl; intros Hs; split_and!; try done; [naive_solver|].
  rewrite (cmp_opp start end_). destruct (cmp start end_); simpl in *; naive_solver.
Qed.
End facts.

Lemma swap_head_tail_order_witness :
  let s := Selection.mk 7 3 5 false NoGoal in
  ordered s ∧
  Selection.head (Selection.swap_head_tail s) = 3 ∧ Selection.tail (Selection.swap_head_tail s) = 5 ∧
  (ordered (Selection.swap_head_tail s) ↔ false = true ∨ false = true).
Proof. split; [done|]. exact (swap_head_tail_order (Selection.mk 7 3 5 false NoGoal) I). Defined.

Lemma selection_ends_placed_witness :
  let s := Selection.mk 7 3 5 false NoGoal in
  placed (Selection.set_head s 1 NoGoal) 7 1 3 NoGoal ∧ placed (Selection.set_tail s 9 NoGoal) 7 5 9 NoGoal.
Proof.
  pose proof (selection_ends_placed (Selection.mk 7 3 5 false NoGoal) 1 2 NoGoal) as (Hh & _).
  pose proof (selection_ends_placed (Selection.mk 7 3 5 false NoGoal) 9 2 NoGoal) as (_ & Ht & _).
  split; [exact Hh|exact Ht].
Defined.
