(* ===== verification/Utf8.v ===== *)
(** * Strings ([std::str], [util::is_utf8_char_boundary])

    A [str] is UTF-8 by construction, so it is modelled by its [char]s; lengths
    and indices are those of its bytes, and an operation that cuts at an index
    inside a character panics.  Also the bits of a text: bit [i] of
    [bits_of p bytes] says whether [p] holds of byte [i]. *)

From S2P Require Import Prelude.

(** ** Characters *)

(** [char]: a Unicode scalar value *)
Abbreviation char := N (only parsing).

Definition char_ok (c : char) : Prop := (c < 0xD800 ∨ 0xE000 <= c < 0x110000)%N.

Definition NEWLINE : char := 10.
Definition TAB : char := 9.

(** [char::encode_utf8] *)
Definition encode_utf8 (c : char) : list N :=
  if (c <? 0x80)%N then [c]
  else if (c <? 0x800)%N then [0xC0 + c / 2 ^ 6; 0x80 + c mod 2 ^ 6]%N
  else if (c <? 0x10000)%N then [0xE0 + c / 2 ^ 12; 0x80 + (c / 2 ^ 6) mod 2 ^ 6; 0x80 + c mod 2 ^ 6]%N
  else [0xF0 + c / 2 ^ 18; 0x80 + (c / 2 ^ 12) mod 2 ^ 6; 0x80 + (c / 2 ^ 6) mod 2 ^ 6; 0x80 + c mod 2 ^ 6]%N.

Definition len_utf8 (c : char) : nat := length (encode_utf8 c).
Definition len_utf16 (c : char) : nat := if (c <? 0x10000)%N then 1 else 2.

(** [util::is_utf8_char_boundary]: [(u8 as i8) >= -0x40] *)
Definition is_utf8_char_boundary (b : N) : bool :=
  let i8 := if (b <? 128)%N then Z.of_N b else (Z.of_N b - 256)%Z in (-0x40 <=? i8)%Z.

(** ** [str] *)

Module Str.
Abbreviation t := (list char) (only parsing).
Implicit Types s : t.

Definition as_bytes s : list N := concat (map encode_utf8 s).
Definition len s : nat := length (as_bytes s).
(** In UTF-16 code units. *)
Definition len_utf16 s : nat := sum_list (map len_utf16 s).

Definition is_char_boundary s (index : nat) : bool :=
  if index =? 0 then true
  else match as_bytes s !! index with
       | Some b => is_utf8_char_boundary b
       | None => index =? len s
       end.

(** Panics inside a character and beyond the end. *)
Fixpoint split_at s (mid : nat) : option (t * t) :=
  match mid, s with
  | 0, _ => Some ([], s)
  | S _, [] => None
  | S _, c :: s =>
      _ ← rassert (len_utf8 c <=? mid);
      '(l, r) ← split_at s (mid - len_utf8 c);
      Some (c :: l, r)
  end.

(** [&s[start..end]] *)
Definition slice s (start end_ : nat) : option t :=
  _ ← rassert (start <=? end_);
  '(l, _) ← split_at s end_;
  '(_, middle) ← split_at l start;
  Some middle.

(** The greatest boundary up to the index. *)
Fixpoint floor_char_boundary s (index : nat) : nat :=
  match s with
  | [] => 0
  | c :: s => if len_utf8 c <=? index then len_utf8 c + floor_char_boundary s (index - len_utf8 c) else 0
  end.

(** The least boundary from the index, at most the length. *)
Fixpoint ceil_char_boundary s (index : nat) : nat :=
  match index, s with
  | 0, _ => 0
  | S _, [] => 0
  | S _, c :: s => len_utf8 c + ceil_char_boundary s (index - len_utf8 c)
  end.

(** [split('\n')] *)
Fixpoint split_newline s : list t :=
  match s with
  | [] => [[]]
  | c :: s =>
      if (c =? NEWLINE)%N then [] :: split_newline s
      else match split_newline s with
           | line :: lines => (c :: line) :: lines
           | [] => [[c]]
           end
  end.
End Str.
Abbreviation str := (list char) (only parsing).

Definition str_ok (s : str) : Prop := Forall char_ok s.

(** ** Encoding facts *)

(** Decides equations between byte tests. *)
Ltac byte_tests :=
  repeat match goal with
    | |- context [(?x =? ?y)%N] => destruct (N.eqb_spec x y)
    | |- context [(?x <=? ?y)%N] => destruct (N.leb_spec x y)
    end; first [done | lia].

(** The bytes of a character: what each of the byte tests of the code says. *)
Lemma encode_utf8_head c :
  char_ok c → ∃ b bs, encode_utf8 c = b :: bs ∧
    is_utf8_char_boundary b = true ∧ (b < 256)%N ∧
    (240 <=? b)%N = (len_utf16 c =? 2) ∧ (b =? 10)%N = (c =? NEWLINE)%N ∧ (b =? 9)%N = (c =? TAB)%N ∧
    Forall (λ b, is_utf8_char_boundary b = false ∧ (128 <= b < 192)%N) bs ∧ length bs < 4 ∧
    (len_utf16 c = 2 → length bs = 3) ∧ (bs ≠ [] → c ≠ NEWLINE).
Proof.
  intros Hok. assert (c < 0x110000)%N as Hc by (unfold char_ok in Hok; lia). clear Hok.
  assert (Hcont : ∀ x, is_utf8_char_boundary (0x80 + x mod 2 ^ 6) = false ∧ (128 <= 0x80 + x mod 2 ^ 6 < 192)%N).
  { intros x. pose proof (N.mod_lt x (2 ^ 6) ltac:(done)) as Hm. revert Hm. generalize (x mod 2 ^ 6)%N.
    change (2 ^ 6)%N with 64%N. intros m Hm.
    unfold is_utf8_char_boundary. destruct (N.ltb_spec (0x80 + m) 128); [lia|].
    split; [|lia]. apply Z.leb_gt. lia. }
  assert (Hlead : ∀ b, (192 <= b < 256)%N → is_utf8_char_boundary b = true).
  { intros b Hb. unfold is_utf8_char_boundary. destruct (N.ltb_spec b 128); [lia|]. apply Z.leb_le. lia. }
  unfold encode_utf8, len_utf16, NEWLINE, TAB.
  destruct (N.ltb_spec c 0x80).
  { exists c, []. destruct (N.ltb_spec c 0x10000); [|lia]. split_and!; try done; simpl; try lia; try byte_tests.
    unfold is_utf8_char_boundary. destruct (N.ltb_spec c 128); [|lia]. apply Z.leb_le. lia. }
  destruct (N.ltb_spec c 0x800).
  { assert (2 <= c / 2 ^ 6 < 32)%N as Hd.
    { split; [apply N.div_le_lower_bound; [done|]|apply N.Div0.div_lt_upper_bound]; change (2 ^ 6)%N with 64%N; lia. }
    revert Hd. generalize (c / 2 ^ 6)%N. intros d Hd. eexists _, _. split; [done|]. destruct (N.ltb_spec c 0x10000); [|lia].
    split_and!; try done; simpl; try lia; try byte_tests; [apply Hlead; lia|].
    repeat constructor; apply Hcont. }
  destruct (N.ltb_spec c 0x10000).
  { assert (c / 2 ^ 12 < 16)%N as Hd.
    { apply N.Div0.div_lt_upper_bound; change (2 ^ 12)%N with 4096%N; lia. }
    revert Hd. generalize (c / 2 ^ 12)%N. intros d Hd. eexists _, _. split; [done|]. split_and!; try done; simpl; try lia; try byte_tests; [apply Hlead; lia|].
    repeat constructor; apply Hcont. }
  assert (c / 2 ^ 18 < 5)%N as Hd.
  { apply N.Div0.div_lt_upper_bound; change (2 ^ 18)%N with 262144%N; lia. }
  revert Hd. generalize (c / 2 ^ 18)%N. intros d Hd. eexists _, _. split; [done|]. split_and!; try done; simpl; try lia; try byte_tests; [apply Hlead; lia|].
  repeat constructor; apply Hcont.
Qed.

Lemma len_utf8_pos c : 0 < len_utf8 c.
Proof. unfold len_utf8, encode_utf8. repeat case_match; simpl; lia. Qed.

Lemma Str_as_bytes_cons c s : Str.as_bytes (c :: s) = encode_utf8 c ++ Str.as_bytes s.
Proof. done. Qed.

Lemma Str_as_bytes_app a b : Str.as_bytes (a ++ b) = Str.as_bytes a ++ Str.as_bytes b.
Proof. unfold Str.as_bytes. by rewrite map_app, concat_app. Qed.

Lemma Str_len_cons c s : Str.len (c :: s) = len_utf8 c + Str.len s.
Proof. unfold Str.len. by rewrite Str_as_bytes_cons, length_app. Qed.

Lemma Str_len_app a b : Str.len (a ++ b) = Str.len a + Str.len b.
Proof. unfold Str.len. by rewrite Str_as_bytes_app, length_app. Qed.

Lemma Str_len_zero s : Str.len s = 0 → s = [].
Proof. destruct s as [|c s]; [done|]. rewrite Str_len_cons. pose proof (len_utf8_pos c). lia. Qed.

(** *** Cutting *)

(** Two cuts of a text, the first one not after the second. *)
Lemma str_cut (a b p t : list char) : a ++ b = p ++ t → Str.len p <= Str.len a → ∃ x, a = p ++ x ∧ t = x ++ b.
Proof.
  intros Heq Hle. apply app_eq_inv in Heq as [(k & -> & ->)|(k & -> & ->)]; [by exists k|].
  rewrite Str_len_app in Hle. assert (k = []) as -> by (apply Str_len_zero; lia). exists []. by rewrite !app_nil_r.
Qed.

(** The common front of two cuts. *)
Lemma common_prefix (y r m v : list char) : y ++ r = m ++ v → ∃ z y' m', y = z ++ y' ∧ m = z ++ m' ∧ (y' = [] ∨ m' = []).
Proof.
  intros [(k & -> & _)|(k & -> & _)]%app_eq_inv.
  - exists m, k, []. rewrite app_nil_r. auto.
  - exists y, [], k. rewrite app_nil_r. auto.
Qed.

Lemma Str_split_at_app a b : Str.split_at (a ++ b) (Str.len a) = Some (a, b).
Proof.
  induction a as [|c a IH]; [by destruct b|]. rewrite Str_len_cons.
  pose proof (len_utf8_pos c). destruct (len_utf8 c + Str.len a) as [|n] eqn:Hn; [lia|]. rewrite <-Hn.
  simpl. rewrite Hn, <-Hn. unfold rassert. destruct (Nat.leb_spec (len_utf8 c) (len_utf8 c + Str.len a)); [|lia].
  simpl. replace (len_utf8 c + Str.len a - len_utf8 c) with (Str.len a) by lia. by rewrite IH.
Qed.

Lemma Str_split_at_inv s mid a b : Str.split_at s mid = Some (a, b) → s = a ++ b ∧ Str.len a = mid.
Proof.
  revert mid a. induction s as [|c s IH]; intros [|mid] a; simpl; [by intros [= <- <-]|done|by intros [= <- <-]|].
  unfold rassert. destruct (Nat.leb_spec (len_utf8 c) (S mid)); simpl; [|done].
  destruct (Str.split_at s _) as [[l r]|] eqn:Hs; simpl; [|done]. intros [= <- <-].
  apply IH in Hs as [-> Hlen]. split; [done|]. rewrite Str_len_cons. lia.
Qed.

Lemma Str_slice_app a b c : Str.slice (a ++ b ++ c) (Str.len a) (Str.len a + Str.len b) = Some b.
Proof.
  unfold Str.slice, rassert. destruct (Nat.leb_spec (Str.len a) (Str.len a + Str.len b)); [|lia]. simpl.
  rewrite <-Str_len_app, app_assoc, Str_split_at_app. simpl. by rewrite Str_split_at_app.
Qed.

Lemma Str_is_char_boundary_app a b : str_ok b → Str.is_char_boundary (a ++ b) (Str.len a) = true.
Proof.
  intros Hok. unfold Str.is_char_boundary. destruct (Nat.eqb_spec (Str.len a) 0); [done|].
  rewrite Str_as_bytes_app, lookup_app_r by done. unfold Str.len at 1. rewrite Nat.sub_diag.
  destruct b as [|c b].
  - simpl. apply Nat.eqb_eq. by rewrite app_nil_r.
  - rewrite Str_as_bytes_cons. inversion Hok as [|? ? Hc]; subst.
    destruct (encode_utf8_head c Hc) as (x & bs & -> & Hb & _). done.
Qed.

(** Where the boundaries are. *)
Lemma Str_is_char_boundary_iff s i :
  str_ok s → Str.is_char_boundary s i = true ↔ ∃ a b, s = a ++ b ∧ i = Str.len a.
Proof.
  intros Hok. split.
  - revert i. induction Hok as [|c s Hc Hok IH]; intros i.
    + intros Hb. exists [], []. split; [done|]. unfold Str.is_char_boundary in Hb. simpl in Hb.
      destruct (Nat.eqb_spec i 0); [done|]. by apply Nat.eqb_eq in Hb.
    + intros Hb. destruct (decide (i = 0)) as [->|Hi0]; [by exists [], (c :: s)|].
      destruct (encode_utf8_head c Hc) as (x & bs & Henc & _ & _ & _ & _ & _ & Hbs & _).
      unfold Str.is_char_boundary in Hb. rewrite Str_as_bytes_cons in Hb.
      destruct (Nat.eqb_spec i 0); [done|].
      destruct (decide (i < len_utf8 c)) as [Hlt|Hge].
      * exfalso. rewrite lookup_app_l in Hb by done. rewrite Henc in Hb. destruct i as [|i]; [done|].
        simpl in Hb. destruct (bs !! i) as [y|] eqn:Hy.
        -- rewrite Forall_lookup in Hbs. destruct (Hbs i y Hy) as [Hb' _]. congruence.
        -- apply lookup_ge_None in Hy. unfold len_utf8 in Hlt. rewrite Henc in Hlt. simpl in Hlt. lia.
      * destruct (IH (i - len_utf8 c)) as (a & b & -> & Ha).
        { unfold Str.is_char_boundary. rewrite lookup_app_r in Hb by (unfold len_utf8 in Hge; lia).
          destruct (Nat.eqb_spec (i - len_utf8 c) 0); [done|]. fold (len_utf8 c) in Hb.
          destruct (Str.as_bytes s !! _); [done|]. rewrite Str_len_cons in Hb.
          apply Nat.eqb_eq in Hb. apply Nat.eqb_eq. lia. }
        exists (c :: a), b. split; [done|]. rewrite Str_len_cons. lia.
  - intros (a & b & -> & ->). apply Str_is_char_boundary_app. apply Forall_app in Hok. apply Hok.
Qed.

Lemma Str_is_char_boundary_le s i : Str.is_char_boundary s i = true → i <= Str.len s.
Proof.
  unfold Str.is_char_boundary. destruct (Nat.eqb_spec i 0); [lia|].
  destruct (_ !! i) eqn:Hi; [|intros ->%Nat.eqb_eq; done].
  intros _. apply lookup_lt_Some in Hi. unfold Str.len. lia.
Qed.

Lemma Str_is_char_boundary_len s : Str.is_char_boundary s (Str.len s) = true.
Proof.
  unfold Str.is_char_boundary. destruct (Nat.eqb_spec (Str.len s) 0); [done|].
  rewrite lookup_ge_None_2 by (unfold Str.len; lia). apply Nat.eqb_refl.
Qed.

(** ** Bits *)

(** Bit [i] is that of element [i]. *)
Fixpoint bits_of {A} (p : A → bool) (l : list A) : N :=
  match l with
  | [] => 0
  | x :: l => N.b2n (p x) + 2 * bits_of p l
  end%N.

Lemma testbit_bits_of {A} (p : A → bool) l i :
  N.testbit (bits_of p l) (N.of_nat i) = match l !! i with Some x => p x | None => false end.
Proof.
  revert i. induction l as [|x l IH]; intros i; simpl bits_of; [by rewrite N.bits_0|].
  destruct i as [|i].
  - change (N.of_nat 0) with 0%N. by rewrite N.add_comm, N.testbit_0_r.
  - rewrite Nat2N.inj_succ, N.add_comm, N.testbit_succ_r. apply IH.
Qed.
