(* ===== verification/Points.v ===== *)
(** * Positions in a text ([point.rs], [point_utf16.rs], [offset_utf16.rs] and
    [unclipped.rs] of [crates/rope/src])

    A [Point] is a row and a column of bytes, a [PointUtf16] one of UTF-16 code
    units.  Adding positions concatenates texts: the sum of the extents of two
    texts is the extent of their concatenation. *)

From S2P Require Import Prelude Utf8.

(** [x as u32] *)
Definition as_u32 (x : nat) : N := N.of_nat x mod 2 ^ 32.

(** [a - b] on an unsigned integer *)
Definition checked_subN (a b : N) : option N := _ ← rassert (b <=? a)%N; Some (a - b)%N.

Module Point.
(** [struct Point] *)
Record t := mk { row : N; column : N }.
#[global] Instance t_eq_dec : EqDecision t.
Proof. solve_decision. Defined.

Definition MAX : t := mk u32_max u32_max.
Definition new (row column : N) : t := mk row column.

(** A range, as the pair of its ends. *)
Definition row_range (start end_ : N) : t * t := (mk start 0, mk end_ 0).
Definition zero : t := new 0 0.
Definition is_zero (self : t) : bool := (row self =? 0)%N && (column self =? 0)%N.

(** [impl Ord], on a target with 64-bit pointers: both fields in one [usize] *)
Definition cmp (self other : t) : comparison :=
  let a := N.lor (N.shiftl (row self) 32) (column self) in
  let b := N.lor (N.shiftl (row other) 32) (column other) in
  N.compare a b.
Definition ltb (self other : t) : bool := is_lt (cmp self other).
Definition leb (self other : t) : bool := is_le (cmp self other).

(** [impl Add] *)
Definition add (self other : t) : option t :=
  if (row other =? 0)%N then
    column ← checked_add u32_max (column self) (column other); Some (new (row self) column)
  else
    row ← checked_add u32_max (row self) (row other); Some (new row (column other)).

(** [impl Sub] *)
Definition sub (self other : t) : option t :=
  _ ← rassert (leb other self);
  if (row self =? row other)%N then
    column ← checked_subN (column self) (column other); Some (new 0 column)
  else
    row ← checked_subN (row self) (row other); Some (new row (column self)).

(** [impl AddAssign] *)
Definition add_assign (self other : t) : option t :=
  if (row other =? 0)%N then
    column ← checked_add u32_max (column self) (column other); Some (mk (row self) column)
  else
    row ← checked_add u32_max (row self) (row other); Some (mk row (column other)).

Definition saturating_sub (self other : t) : option t :=
  if ltb self other then Some zero else sub self other.

(** The loop over the enumerated lines of [parse_str]. *)
Fixpoint parse_lines (point : t) (ix : nat) (lines : list str) : t :=
  match lines with
  | [] => point
  | line :: lines => parse_lines (mk (as_u32 ix) (as_u32 (Str.len line))) (S ix) lines
  end.

Definition parse_str (s : str) : t := parse_lines zero 0 (Str.split_newline s).
End Point.
Abbreviation Point := Point.t (only parsing).

Module PointUtf16.
(** [struct PointUtf16] *)
Record t := mk { row : N; column : N }.
#[global] Instance t_eq_dec : EqDecision t.
Proof. solve_decision. Defined.

Definition MAX : t := mk u32_max u32_max.
Definition new (row column : N) : t := mk row column.
Definition zero : t := new 0 0.
Definition is_zero (self : t) : bool := (row self =? 0)%N && (column self =? 0)%N.

(** [impl Ord], on a target with 64-bit pointers: both fields in one [usize] *)
Definition cmp (self other : t) : comparison :=
  let a := N.lor (N.shiftl (row self) 32) (column self) in
  let b := N.lor (N.shiftl (row other) 32) (column other) in
  N.compare a b.
Definition ltb (self other : t) : bool := is_lt (cmp self other).
Definition leb (self other : t) : bool := is_le (cmp self other).

(** [impl Add] *)
Definition add (self other : t) : option t :=
  if (row other =? 0)%N then
    column ← checked_add u32_max (column self) (column other); Some (new (row self) column)
  else
    row ← checked_add u32_max (row self) (row other); Some (new row (column other)).

(** [impl Sub] *)
Definition sub (self other : t) : option t :=
  _ ← rassert (leb other self);
  if (row self =? row other)%N then
    column ← checked_subN (column self) (column other); Some (new 0 column)
  else
    row ← checked_subN (row self) (row other); Some (new row (column self)).

(** [impl AddAssign] *)
Definition add_assign (self other : t) : option t :=
  if (row other =? 0)%N then
    column ← checked_add u32_max (column self) (column other); Some (mk (row self) column)
  else
    row ← checked_add u32_max (row self) (row other); Some (mk row (column other)).

Definition saturating_sub (self other : t) : option t :=
  if ltb self other then Some zero else sub self other.
End PointUtf16.
Abbreviation PointUtf16 := PointUtf16.t (only parsing).

Module OffsetUtf16.
(** [struct OffsetUtf16(usize)] *)
Record t := mk { offset : nat }.
#[global] Instance t_eq_dec : EqDecision t.
Proof. solve_decision. Defined.
#[global] Instance t_ord : Ord t := λ self other, Nat.compare (offset self) (offset other).

(** [impl Add], [impl AddAssign] *)
Definition add (self other : t) : t := mk (offset self + offset other).

(** [impl Sub]; on values it does not assert, but the subtraction panics. *)
Definition sub (self other : t) : option t :=
  _ ← rassert (offset other <=? offset self); Some (mk (offset self - offset other)).
End OffsetUtf16.
Abbreviation OffsetUtf16 := OffsetUtf16.t (only parsing).

Module Unclipped.
(** [struct Unclipped<T>(T)]: a position that need not be in the text. *)
Record t (T : Type) := mk { inner : T }.
#[global] Arguments mk {T}.
#[global] Arguments inner {T}.

(** [impl From<T>]; the arithmetic is that of the inner type. *)
Definition from {T} (value : T) : t T := mk value.
Definition add {T} (inner_add : T → T → option T) (self rhs : t T) : option (t T) :=
  r ← inner_add (inner self) (inner rhs); Some (mk r).
Definition sub {T} (inner_sub : T → T → option T) (self rhs : t T) : option (t T) :=
  r ← inner_sub (inner self) (inner rhs); Some (mk r).
End Unclipped.
Abbreviation Unclipped := Unclipped.t (only parsing).

(** ** Order and arithmetic of points *)

Lemma as_u32_small x : (N.of_nat x <= u32_max)%N → as_u32 x = N.of_nat x.
Proof. intros Hx. unfold as_u32. apply N.mod_small. unfold u32_max in Hx. change (2 ^ 32)%N with 4294967296%N. lia. Qed.

Lemma checked_subN_Some a b : (b <= a)%N → checked_subN a b = Some (a - b)%N.
Proof. intros Hle. unfold checked_subN. apply N.leb_le in Hle. by rewrite Hle. Qed.

Lemma pack_compare (r c r' c' : N) : (c <= u32_max)%N → (c' <= u32_max)%N →
  N.compare (N.lor (N.shiftl r 32) c) (N.lor (N.shiftl r' 32) c') = then_with (N.compare r r') (N.compare c c').
Proof.
  unfold u32_max. intros. rewrite !N_lor_shiftl_add by (change (2 ^ 32)%N with 4294967296%N; lia).
  change (2 ^ 32)%N with 4294967296%N.
  destruct (N.compare_spec r r') as [->| |]; simpl; [destruct (N.compare_spec c c') as [->| |]|..].
  all: first [apply N.compare_refl | apply N.compare_lt_iff; lia | apply N.compare_gt_iff; lia].
Qed.

Definition Point_ok (p : Point) : Prop := (Point.row p <= u32_max ∧ Point.column p <= u32_max)%N.

(** The packed comparison is the lexicographic one. *)
Lemma Point_cmp_lex (a b : Point) : Point_ok a → Point_ok b →
  Point.cmp a b = then_with (N.compare (Point.row a) (Point.row b)) (N.compare (Point.column a) (Point.column b)).
Proof. intros [_ Ha] [_ Hb]. by apply pack_compare. Qed.

Lemma Point_leb_lex (a b : Point) : Point_ok a → Point_ok b →
  Point.leb a b = true ↔
    (Point.row a < Point.row b ∨ Point.row a = Point.row b ∧ Point.column a <= Point.column b)%N.
Proof.
  intros Ha Hb. unfold Point.leb. rewrite Point_cmp_lex by done.
  destruct (N.compare_spec (Point.row a) (Point.row b)); simpl; [|naive_solver lia..].
  destruct (N.compare_spec (Point.column a) (Point.column b)); simpl; naive_solver lia.
Qed.

(** Subtraction undoes addition on the left. *)
Lemma Point_sub_add (a b : Point) : Point_ok a → Point_ok b → Point.leb a b = true →
  ∃ d, Point.sub b a = Some d ∧ Point.add a d = Some b ∧ Point_ok d.
Proof.
  intros Ha Hb Hle. unfold Point.sub. rewrite Hle. simpl. apply Point_leb_lex in Hle; [|done..].
  destruct a as [r c], b as [r' c'], Ha as [??], Hb as [??]. unfold Point.add, Point_ok in *. simpl in *.
  destruct (N.eqb_spec r' r) as [->|Hne].
  - rewrite checked_subN_Some by lia. eexists. split; [done|]. simpl. split; [|unfold u32_max in *; lia].
    rewrite checked_add_Some by lia. simpl. unfold Point.new. do 2 f_equal. lia.
  - rewrite checked_subN_Some by lia. eexists. split; [done|]. simpl. split; [|lia].
    destruct (N.eqb_spec (r' - r) 0)%N; [lia|]. rewrite checked_add_Some by lia.
    simpl. unfold Point.new. do 2 f_equal. lia.
Qed.

Lemma Point_add_sub (a d b : Point) : Point_ok a → Point_ok d → Point.add a d = Some b →
  Point_ok b ∧ Point.leb a b = true ∧ Point.sub b a = Some d.
Proof.
  intros Ha Hd Hadd. assert (Point_ok b ∧ Point.leb a b = true) as [Hb Hle].
  { revert Hadd. unfold Point.add. destruct (N.eqb_spec (Point.row d) 0).
    - destruct (checked_add _ _ _) as [c|] eqn:Hc; simpl; [|done]. intros [= <-].
      apply checked_add_inv in Hc as [-> ?]. assert (Point_ok (Point.new (Point.row a) (Point.column a + Point.column d))) as Hb.
      { split; [apply Ha|done]. }
      split; [done|]. apply Point_leb_lex; [done..|]. simpl. lia.
    - destruct (checked_add _ _ _) as [c|] eqn:Hc; simpl; [|done]. intros [= <-].
      apply checked_add_inv in Hc as [-> ?]. assert (Point_ok (Point.new (Point.row a + Point.row d) (Point.column d))) as Hb.
      { split; [done|apply Hd]. }
      split; [done|]. apply Point_leb_lex; [done..|]. simpl. lia. }
  split; [done|]. split; [done|]. destruct (Point_sub_add a b Ha Hb Hle) as ([r c] & Hs & Hadd' & _). rewrite Hs.
  destruct d as [r' c']. revert Hadd Hadd'. unfold Point.add. simpl.
  unfold checked_add. destruct (N.eqb_spec r' 0), (N.eqb_spec r 0); simpl;
    do 2 (case_match; simpl; try done); intros Hx Hy; simplify_eq; f_equal; f_equal; lia.
Qed.

Lemma Point_add_assign_add (a b : Point) : Point.add_assign a b = Point.add a b.
Proof. done. Qed.

Lemma Point_add_zero (a : Point) : Point_ok a → Point.add a Point.zero = Some a ∧ Point.add Point.zero a = Some a.
Proof.
  intros [Hr Hc]. destruct a as [r c]. unfold Point.add, Point.zero, Point.new. simpl in *. split.
  - by rewrite checked_add_Some, N.add_0_r by lia.
  - destruct (N.eqb_spec r 0) as [->|]; rewrite checked_add_Some, N.add_0_l by lia; done.
Qed.

Definition PointUtf16_ok (p : PointUtf16) : Prop := (PointUtf16.row p <= u32_max ∧ PointUtf16.column p <= u32_max)%N.

(** The packed comparison is the lexicographic one. *)
Lemma PointUtf16_cmp_lex (a b : PointUtf16) : PointUtf16_ok a → PointUtf16_ok b →
  PointUtf16.cmp a b = then_with (N.compare (PointUtf16.row a) (PointUtf16.row b)) (N.compare (PointUtf16.column a) (PointUtf16.column b)).
Proof. intros [_ Ha] [_ Hb]. by apply pack_compare. Qed.

Lemma PointUtf16_leb_lex (a b : PointUtf16) : PointUtf16_ok a → PointUtf16_ok b →
  PointUtf16.leb a b = true ↔
    (PointUtf16.row a < PointUtf16.row b ∨ PointUtf16.row a = PointUtf16.row b ∧ PointUtf16.column a <= PointUtf16.column b)%N.
Proof.
  intros Ha Hb. unfold PointUtf16.leb. rewrite PointUtf16_cmp_lex by done.
  destruct (N.compare_spec (PointUtf16.row a) (PointUtf16.row b)); simpl; [|naive_solver lia..].
  destruct (N.compare_spec (PointUtf16.column a) (PointUtf16.column b)); simpl; naive_solver lia.
Qed.

(** Subtraction undoes addition on the left. *)
Lemma PointUtf16_sub_add (a b : PointUtf16) : PointUtf16_ok a → PointUtf16_ok b → PointUtf16.leb a b = true →
  ∃ d, PointUtf16.sub b a = Some d ∧ PointUtf16.add a d = Some b ∧ PointUtf16_ok d.
Proof.
  intros Ha Hb Hle. unfold PointUtf16.sub. rewrite Hle. simpl. apply PointUtf16_leb_lex in Hle; [|done..].
  destruct a as [r c], b as [r' c'], Ha as [??], Hb as [??]. unfold PointUtf16.add, PointUtf16_ok in *. simpl in *.
  destruct (N.eqb_spec r' r) as [->|Hne].
  - rewrite checked_subN_Some by lia. eexists. split; [done|]. simpl. split; [|unfold u32_max in *; lia].
    rewrite checked_add_Some by lia. simpl. unfold PointUtf16.new. do 2 f_equal. lia.
  - rewrite checked_subN_Some by lia. eexists. split; [done|]. simpl. split; [|lia].
    destruct (N.eqb_spec (r' - r) 0)%N; [lia|]. rewrite checked_add_Some by lia.
    simpl. unfold PointUtf16.new. do 2 f_equal. lia.
Qed.

Lemma PointUtf16_add_sub (a d b : PointUtf16) : PointUtf16_ok a → PointUtf16_ok d → PointUtf16.add a d = Some b →
  PointUtf16_ok b ∧ PointUtf16.leb a b = true ∧ PointUtf16.sub b a = Some d.
Proof.
  intros Ha Hd Hadd. assert (PointUtf16_ok b ∧ PointUtf16.leb a b = true) as [Hb Hle].
  { revert Hadd. unfold PointUtf16.add. destruct (N.eqb_spec (PointUtf16.row d) 0).
    - destruct (checked_add _ _ _) as [c|] eqn:Hc; simpl; [|done]. intros [= <-].
      apply checked_add_inv in Hc as [-> ?]. assert (PointUtf16_ok (PointUtf16.new (PointUtf16.row a) (PointUtf16.column a + PointUtf16.column d))) as Hb.
      { split; [apply Ha|done]. }
      split; [done|]. apply PointUtf16_leb_lex; [done..|]. simpl. lia.
    - destruct (checked_add _ _ _) as [c|] eqn:Hc; simpl; [|done]. intros [= <-].
      apply checked_add_inv in Hc as [-> ?]. assert (PointUtf16_ok (PointUtf16.new (PointUtf16.row a + PointUtf16.row d) (PointUtf16.column d))) as Hb.
      { split; [done|apply Hd]. }
      split; [done|]. apply PointUtf16_leb_lex; [done..|]. simpl. lia. }
  split; [done|]. split; [done|]. destruct (PointUtf16_sub_add a b Ha Hb Hle) as ([r c] & Hs & Hadd' & _). rewrite Hs.
  destruct d as [r' c']. revert Hadd Hadd'. unfold PointUtf16.add. simpl.
  unfold checked_add. destruct (N.eqb_spec r' 0), (N.eqb_spec r 0); simpl;
    do 2 (case_match; simpl; try done); intros Hx Hy; simplify_eq; f_equal; f_equal; lia.
Qed.

Lemma PointUtf16_add_assign_add (a b : PointUtf16) : PointUtf16.add_assign a b = PointUtf16.add a b.
Proof. done. Qed.

(** Positions form an ordered group action: the order is lexicographic,
    subtracting a position at or before another gives the extent that added back
    yields it, subtraction undoes addition, and zero is neutral; in both units.
    None of these operations overflows on values a subtraction produced. *)
Theorem point_arithmetic (a b : Point) (u v : PointUtf16)
    (Ha : Point_ok a) (Hb : Point_ok b) (Hu : PointUtf16_ok u) (Hv : PointUtf16_ok v) :
  (Point.cmp a b = then_with (N.compare (Point.row a) (Point.row b)) (N.compare (Point.column a) (Point.column b)) ∧
   PointUtf16.cmp u v =
     then_with (N.compare (PointUtf16.row u) (PointUtf16.row v)) (N.compare (PointUtf16.column u) (PointUtf16.column v))) ∧
  (Point.leb a b = true → ∃ d, Point.sub b a = Some d ∧ Point.add a d = Some b ∧ Point_ok d) ∧
  (PointUtf16.leb u v = true → ∃ d, PointUtf16.sub v u = Some d ∧ PointUtf16.add u d = Some v ∧ PointUtf16_ok d) ∧
  (∀ c, Point.add a b = Some c → Point.leb a c = true ∧ Point.sub c a = Some b ∧ Point.saturating_sub c a = Some b) ∧
  (∀ w, PointUtf16.add u v = Some w →
     PointUtf16.leb u w = true ∧ PointUtf16.sub w u = Some v ∧ PointUtf16.saturating_sub w u = Some v) ∧
  Point.add a Point.zero = Some a ∧ Point.add Point.zero a = Some a ∧
  (Point.ltb a b = true → Point.saturating_sub a b = Some Point.zero ∧ Point.sub a b = None) ∧
  (PointUtf16.ltb u v = true → PointUtf16.saturating_sub u v = Some PointUtf16.zero ∧ PointUtf16.sub u v = None).
Proof.
  assert (Hsat : ∀ c, Point_ok c → Point.leb a c = true → Point.ltb c a = false).
  { intros c Hc. unfold Point.leb, Point.ltb. rewrite !Point_cmp_lex by done.
    rewrite (N.compare_antisym (Point.row a)), (N.compare_antisym (Point.column a)).
    destruct (Point.row a ?= _)%N, (Point.column a ?= _)%N; done. }
  assert (Hsat' : ∀ c, PointUtf16_ok c → PointUtf16.leb u c = true → PointUtf16.ltb c u = false).
  { intros c Hc. unfold PointUtf16.leb, PointUtf16.ltb. rewrite !PointUtf16_cmp_lex by done.
    rewrite (N.compare_antisym (PointUtf16.row u)), (N.compare_antisym (PointUtf16.column u)).
    destruct (PointUtf16.row u ?= _)%N, (PointUtf16.column u ?= _)%N; done. }
  split; [split; [by apply Point_cmp_lex|by apply PointUtf16_cmp_lex]|].
  split; [by apply Point_sub_add|]. split; [by apply PointUtf16_sub_add|]. split; [|split; [|split; [|split; [|split]]]].
  - intros c Hadd. destruct (Point_add_sub a b c Ha Hb Hadd) as (Hc & Hle & Hs). split_and!; [done..|].
    unfold Point.saturating_sub. by rewrite Hsat.
  - intros w Hadd. destruct (PointUtf16_add_sub u v w Hu Hv Hadd) as (Hc & Hle & Hs). split_and!; [done..|].
    unfold PointUtf16.saturating_sub. by rewrite Hsat'.
  - by apply Point_add_zero.
  - by apply Point_add_zero.
  - intros Hlt. unfold Point.saturating_sub. rewrite Hlt. split; [done|].
    unfold Point.sub. destruct (Point.leb b a) eqn:Hle; [|done]. simpl. exfalso. revert Hlt Hle.
    unfold Point.ltb, Point.leb, Point.cmp. rewrite (N.compare_antisym (N.lor (N.shiftl (Point.row a) 32) _)).
    by destruct (_ ?= _)%N.
  - intros Hlt. unfold PointUtf16.saturating_sub. rewrite Hlt. split; [done|].
    unfold PointUtf16.sub. destruct (PointUtf16.leb v u) eqn:Hle; [|done]. simpl. exfalso. revert Hlt Hle.
    unfold PointUtf16.ltb, PointUtf16.leb, PointUtf16.cmp.
    rewrite (N.compare_antisym (N.lor (N.shiftl (PointUtf16.row u) 32) _)). by destruct (_ ?= _)%N.
Qed.

Lemma point_arithmetic_witness :
  let a := Point.mk 2 5 in let b := Point.mk 4 1 in let u := PointUtf16.mk 1 1 in let v := PointUtf16.mk 1 7 in
  Point_ok a ∧ Point_ok b ∧ PointUtf16_ok u ∧ PointUtf16_ok v ∧
  (Point.leb a b = true → ∃ d, Point.sub b a = Some d ∧ Point.add a d = Some b ∧ Point_ok d).
Proof.
  assert (Point_ok (Point.mk 2 5)) as Ha by (split; vm_compute; discriminate).
  assert (Point_ok (Point.mk 4 1)) as Hb by (split; vm_compute; discriminate).
  assert (PointUtf16_ok (PointUtf16.mk 1 1)) as Hu by (split; vm_compute; discriminate).
  assert (PointUtf16_ok (PointUtf16.mk 1 7)) as Hv by (split; vm_compute; discriminate).
  do 4 (split; [assumption|]).
  exact (proj1 (proj2 (point_arithmetic _ _ _ _ Ha Hb Hu Hv))).
Defined.
