(* ===== verification/Lines.v ===== *)
(** * Lines of a text

    What the summaries and the positions of a rope are measured by: the number
    of newlines, the first and the last line, the longest line, and how each of
    them comes out for a concatenation. *)

From S2P Require Import Prelude Utf8 Points.

Implicit Types s a b : str.

Definition newlines s : nat := length (filter (λ c, c = NEWLINE) s).

(** Up to the first newline, and from the last one on. *)
Fixpoint first_line s : str :=
  match s with
  | [] => []
  | c :: s => if (c =? NEWLINE)%N then [] else c :: first_line s
  end.
Definition last_line s : str := reverse (first_line (reverse s)).

(** The position after the text. *)
Definition extent s : Point := Point.mk (N.of_nat (newlines s)) (N.of_nat (Str.len (last_line s))).

(** The index of the first greatest number, and that number. *)
Fixpoint longest (lens : list nat) : nat * nat :=
  match lens with
  | [] => (0, 0)
  | n :: lens => let '(row, m) := longest lens in if n <? m then (S row, m) else (0, n)
  end.

Definition line_lens s : list nat := map length (Str.split_newline s).

(** ** Newlines *)

Lemma newlines_app a b : newlines (a ++ b) = newlines a + newlines b.
Proof. unfold newlines. by rewrite filter_app, length_app. Qed.

Lemma newlines_cons c s : newlines (c :: s) = (if (c =? NEWLINE)%N then 1 else 0) + newlines s.
Proof. unfold newlines. rewrite filter_cons. destruct (decide _), (N.eqb_spec c NEWLINE); done. Qed.

Lemma newlines_snoc s c : newlines (s ++ [c]) = newlines s + (if (c =? NEWLINE)%N then 1 else 0).
Proof. rewrite newlines_app, newlines_cons. change (newlines []) with 0. lia. Qed.

Lemma newlines_reverse s : newlines (reverse s) = newlines s.
Proof. induction s as [|c s IH]; [done|]. rewrite reverse_cons, newlines_snoc, IH, newlines_cons. lia. Qed.

Lemma newlines_first_line s : newlines (first_line s) = 0.
Proof.
  induction s as [|c s IH]; [done|]. simpl. destruct (c =? NEWLINE)%N eqn:Hc; [done|].
  by rewrite newlines_cons, Hc, IH.
Qed.

Lemma newlines_last_line s : newlines (last_line s) = 0.
Proof. unfold last_line. rewrite newlines_reverse. apply newlines_first_line. Qed.

(** ** The first and the last line *)

Lemma first_line_app_none a b : newlines a = 0 → first_line (a ++ b) = a ++ first_line b.
Proof.
  induction a as [|c a IH]; [done|]. rewrite newlines_cons. simpl.
  destruct (c =? NEWLINE)%N; [done|]. intros. by rewrite IH.
Qed.

Lemma first_line_app_some a b : newlines a ≠ 0 → first_line (a ++ b) = first_line a.
Proof.
  induction a as [|c a IH]; [done|]. rewrite newlines_cons. simpl.
  destruct (c =? NEWLINE)%N; [done|]. intros. by rewrite IH.
Qed.

Lemma first_line_none s : newlines s = 0 → first_line s = s.
Proof. intros Hs. rewrite <-(app_nil_r s) at 1. rewrite first_line_app_none by done. simpl. apply app_nil_r. Qed.

Lemma first_line_app a b :
  first_line (a ++ b) = if newlines a =? 0 then first_line a ++ first_line b else first_line a.
Proof.
  destruct (Nat.eqb_spec (newlines a) 0).
  - rewrite first_line_app_none, (first_line_none a); done.
  - by apply first_line_app_some.
Qed.

Lemma last_line_app a b :
  last_line (a ++ b) = if newlines b =? 0 then last_line a ++ last_line b else last_line b.
Proof.
  unfold last_line. rewrite reverse_app, first_line_app, newlines_reverse.
  destruct (newlines b =? 0); [by rewrite reverse_app|done].
Qed.

Lemma last_line_none s : newlines s = 0 → last_line s = s.
Proof. intros Hs. unfold last_line. rewrite first_line_none by (by rewrite newlines_reverse). apply reverse_involutive. Qed.

Lemma last_line_snoc s c :
  last_line (s ++ [c]) = if (c =? NEWLINE)%N then [] else last_line s ++ [c].
Proof. unfold last_line. rewrite reverse_snoc. simpl. destruct (c =? NEWLINE)%N; [done|]. by rewrite reverse_cons. Qed.

(** The text before the last line ends in a newline. *)
Lemma last_line_split s : ∃ p, s = p ++ last_line s ∧ newlines p = newlines s ∧
  (p = [] ∨ ∃ p', p = p' ++ [NEWLINE]).
Proof.
  induction s as [|c s IH] using rev_ind; [by exists []; auto|].
  rewrite last_line_snoc, newlines_snoc. destruct (N.eqb_spec c NEWLINE) as [->|Hc].
  - exists (s ++ [NEWLINE]). rewrite app_nil_r, newlines_snoc. split_and!; eauto.
  - destruct IH as (p & Hs & Hn & Hp). exists p. rewrite app_assoc, <-Hs. split_and!; [done|lia|done].
Qed.

(** The text from the first newline on. *)
Lemma first_line_split s : ∃ r, s = first_line s ++ r ∧ (r = [] ∨ ∃ r', r = NEWLINE :: r').
Proof.
  induction s as [|c s (r & Hs & Hr)]; [by exists []; auto|]. simpl.
  destruct (N.eqb_spec c NEWLINE) as [->|].
  - exists (NEWLINE :: s). eauto.
  - exists r. simpl. by rewrite <-Hs.
Qed.

Lemma last_line_le s : length (last_line s) <= length s ∧ Str.len (last_line s) <= Str.len s.
Proof.
  destruct (last_line_split s) as (p & Hs & _). rewrite Hs at 2 4. rewrite length_app, Str_len_app. lia.
Qed.

(** ** [split('\n')] *)

Lemma split_newline_nonempty s : Str.split_newline s ≠ [].
Proof. destruct s as [|c s]; [done|]. simpl. destruct (c =? NEWLINE)%N; [done|]. by destruct (Str.split_newline s). Qed.

Lemma split_newline_cons c s : (c =? NEWLINE)%N = false → ∃ line lines,
  Str.split_newline s = line :: lines ∧ Str.split_newline (c :: s) = (c :: line) :: lines.
Proof.
  intros Hc. simpl. rewrite Hc. pose proof (split_newline_nonempty s).
  destruct (Str.split_newline s) as [|line lines]; [done|]. eauto.
Qed.

(** The last line of the first text and the first of the second are joined. *)
Lemma split_newline_app a b : ∃ front l m back,
  Str.split_newline a = front ++ [l] ∧ Str.split_newline b = m :: back ∧
  Str.split_newline (a ++ b) = front ++ (l ++ m) :: back ∧
  l = last_line a ∧ m = first_line b ∧ length front = newlines a ∧ length back = newlines b.
Proof.
  assert (Hb : ∃ back, Str.split_newline b = first_line b :: back ∧ length back = newlines b).
  { clear a. induction b as [|c b (back & IH & Hlen)]; [by exists []|].
    rewrite newlines_cons. simpl. destruct (c =? NEWLINE)%N eqn:Hc.
    - exists (Str.split_newline b). rewrite IH. simpl. split; [done|lia].
    - exists back. by rewrite IH. }
  destruct Hb as (back & Hb & Hlen).
  assert (Ha : ∃ front, Str.split_newline a = front ++ [last_line a] ∧ length front = newlines a ∧
    Str.split_newline (a ++ b) = front ++ (last_line a ++ first_line b) :: back).
  { clear Hlen. induction a as [|c a (front & IH & Hlen & Happ)].
    - exists []. simpl. by rewrite Hb.
    - rewrite newlines_cons. change (c :: a) with ([c] ++ a) at 2 4. rewrite last_line_app.
      destruct (c =? NEWLINE)%N eqn:Hc.
      + exists ([] :: front). apply N.eqb_eq in Hc as ->. simpl. rewrite IH, Happ, Hlen.
        destruct (Nat.eqb_spec (newlines a) 0); done.
      + simpl. rewrite Hc, IH, Happ. assert (last_line [c] = [c]) as -> by (by apply last_line_none; rewrite newlines_cons, Hc).
        destruct front as [|f front]; simpl in *.
        * exists []. rewrite <-Hlen. done.
        * exists ((c :: f) :: front). rewrite <-Hlen. done. }
  destruct Ha as (front & Ha & Hfront & Happ). exists front, (last_line a), (first_line b), back. done.
Qed.

Lemma line_lens_app a b : ∃ front back,
  line_lens a = front ++ [length (last_line a)] ∧ line_lens b = length (first_line b) :: back ∧
  line_lens (a ++ b) = front ++ (length (last_line a) + length (first_line b)) :: back ∧
  length front = newlines a ∧ length back = newlines b.
Proof.
  destruct (split_newline_app a b) as (front & l & m & back & Ha & Hb & Hab & -> & -> & Hf & Hbk).
  exists (map length front), (map length back). unfold line_lens.
  rewrite Ha, Hb, Hab, !map_app. simpl. by rewrite length_app, !length_map.
Qed.

Lemma length_line_lens s : length (line_lens s) = S (newlines s).
Proof.
  destruct (line_lens_app s []) as (front & back & -> & _ & _ & Hf & _). rewrite length_app. simpl. lia.
Qed.

(** ** The longest line *)

Lemma longest_row_zero lens : (longest lens).2 = 0 → (longest lens).1 = 0.
Proof.
  destruct lens as [|n lens]; [done|]. simpl. destruct (longest lens) as [row m].
  destruct (Nat.ltb_spec n m); simpl; lia.
Qed.

Lemma longest_app l k :
  longest (l ++ k) =
    let '(r1, m1) := longest l in let '(r2, m2) := longest k in
    if m1 <? m2 then (length l + r2, m2) else (r1, m1).
Proof.
  induction l as [|n l IH]; simpl.
  - pose proof (longest_row_zero k) as Hz. destruct (longest k) as [r2 m2]. simpl in *.
    destruct (Nat.ltb_spec 0 m2); [done|]. assert (m2 = 0) as -> by lia. by rewrite Hz.
  - rewrite IH. destruct (longest l) as [r1 m1], (longest k) as [r2 m2].
    destruct (Nat.ltb_spec m1 m2), (Nat.ltb_spec n m1); try (destruct (Nat.ltb_spec n m2); try lia; done).
    all: repeat match goal with |- context [?x <? ?y] => destruct (Nat.ltb_spec x y) end; done || lia.
Qed.

Lemma longest_le lens n : n ∈ lens → n <= (longest lens).2.
Proof.
  induction lens as [|m lens IH]; [set_solver|]. simpl. destruct (longest lens) as [r k]. simpl in *.
  intros [->|Hn]%elem_of_cons; destruct (Nat.ltb_spec m k); simpl; lia || (specialize (IH Hn); lia).
Qed.

Lemma longest_row_lt lens : lens ≠ [] → (longest lens).1 < length lens.
Proof.
  induction lens as [|m lens IH]; [done|]. intros _. simpl. destruct lens as [|m' lens]; [simpl; by destruct (m <? 0); simpl; lia|].
  specialize (IH ltac:(done)). destruct (longest (m' :: lens)) as [r k]. simpl in *.
  destruct (m <? k); simpl in *; lia.
Qed.

(** ** [Point::parse_str] *)

Lemma parse_lines_last point ix lines line :
  Point.parse_lines point ix (lines ++ [line]) = Point.mk (as_u32 (ix + length lines)) (as_u32 (Str.len line)).
Proof.
  revert point ix. induction lines as [|l lines IH]; intros point ix; simpl.
  - by rewrite Nat.add_0_r.
  - rewrite IH. do 2 f_equal. lia.
Qed.

Lemma newlines_le_len s : newlines s + Str.len (last_line s) <= Str.len s.
Proof.
  destruct (last_line_split s) as (p & Hs & Hn & _). rewrite Hs at 3. rewrite Str_len_app, <-Hn.
  assert (newlines p <= Str.len p); [|lia]. clear. induction p as [|c p IH]; [done|].
  rewrite newlines_cons, Str_len_cons. pose proof (len_utf8_pos c). destruct (_ =? _)%N; lia.
Qed.

Lemma parse_str_extent s : (N.of_nat (Str.len s) <= u32_max)%N → Point.parse_str s = extent s.
Proof.
  intros Hs. unfold Point.parse_str. destruct (split_newline_app s []) as (front & l & m & back & -> & _ & _ & -> & _ & Hf & _).
  rewrite parse_lines_last. unfold extent. rewrite Hf. pose proof (newlines_le_len s).
  by rewrite !as_u32_small by lia.
Qed.

Lemma extent_app a b : (N.of_nat (Str.len (a ++ b)) <= u32_max)%N →
  Point.add (extent a) (extent b) = Some (extent (a ++ b)).
Proof.
  intros Hlen. pose proof (newlines_le_len a). pose proof (newlines_le_len b). rewrite Str_len_app in Hlen.
  unfold Point.add, extent. simpl. rewrite newlines_app, last_line_app.
  destruct (Nat.eqb_spec (newlines b) 0) as [->|Hb]; simpl.
  - rewrite checked_add_Some by lia. simpl. unfold Point.new. rewrite Str_len_app. do 2 f_equal; lia.
  - destruct (N.eqb_spec (N.of_nat (newlines b)) 0); [lia|]. rewrite checked_add_Some by lia. simpl.
    unfold Point.new. do 2 f_equal; lia.
Qed.

Lemma extent_ok s : (N.of_nat (Str.len s) <= u32_max)%N → Point_ok (extent s).
Proof. intros. pose proof (newlines_le_len s). split; simpl; lia. Qed.

(** The extent of a text, as [Point::parse_str] computes it, is additive:
    the extent of a concatenation is the sum of the extents, without overflow
    when the text is shorter than 4 GiB, and the extent of the rest of a text
    is the difference of the extents. *)
Theorem parse_str_additive a b (Hlen : (N.of_nat (Str.len (a ++ b)) <= u32_max)%N) :
  Point.add (Point.parse_str a) (Point.parse_str b) = Some (Point.parse_str (a ++ b)) ∧
  Point.sub (Point.parse_str (a ++ b)) (Point.parse_str a) = Some (Point.parse_str b) ∧
  Point.leb (Point.parse_str a) (Point.parse_str (a ++ b)) = true.
Proof.
  pose proof Hlen as Hlen'. rewrite Str_len_app in Hlen'.
  assert (Point.add (Point.parse_str a) (Point.parse_str b) = Some (Point.parse_str (a ++ b))) as Hadd.
  { rewrite !parse_str_extent by lia. by apply extent_app. }
  split; [done|]. rewrite !parse_str_extent in * by lia.
  destruct (Point_add_sub (extent a) (extent b) (extent (a ++ b))) as (_ & ? & ?);
    [apply extent_ok; lia..|done|done].
Qed.

(** "ab⏎c" followed by "d⏎é". *)
Lemma parse_str_additive_witness :
  let a := [97; 98; 10; 99]%N in let b := [100; 10; 233]%N in
  (N.of_nat (Str.len (a ++ b)) <= u32_max)%N ∧
  Point.add (Point.parse_str a) (Point.parse_str b) = Some (Point.mk 2 2).
Proof.
  split; [by vm_compute|]. exact (proj1 (parse_str_additive [97; 98; 10; 99]%N [100; 10; 233]%N ltac:(by vm_compute))).
Defined.
