(* ===== verification/TextSummary.v ===== *)
(** * Text summaries ([crates/rope/src/rope.rs], [TextSummary])

    What a rope knows of a text without reading it: its length in bytes, in
    characters and in UTF-16 code units, its extent, the lengths of its first and
    last line and its longest row.  The summary of a concatenation is computed
    from the summaries of its parts. *)

From S2P Require Import Prelude Utf8 Points Lines.

#[local] Arguments Nat.ltb : simpl never.
#[local] Arguments Nat.eqb : simpl never.

(** [struct TextSummary] *)
Record TextSummary := mkTextSummary {
  len : nat;
  chars : nat;
  len_utf16 : OffsetUtf16;
  lines : Point;
  first_line_chars : N;
  last_line_chars : N;
  last_line_len_utf16 : N;
  longest_row : N;
  longest_row_chars : N;
}.
#[global] Instance TextSummary_eq_dec : EqDecision TextSummary.
Proof. solve_decision. Defined.

(** [struct ChunkSummary] *)
Record ChunkSummary := mkChunkSummary { text : TextSummary }.

Module TextSummary.
(** [#[derive(Default)]], [impl ContextLessSummary::zero] *)
Definition zero : TextSummary := mkTextSummary 0 0 (OffsetUtf16.mk 0) Point.zero 0 0 0 0 0.

Definition lines_utf16 (self : TextSummary) : PointUtf16 :=
  PointUtf16.mk (Point.row (lines self)) (last_line_len_utf16 self).

Definition newline : TextSummary := mkTextSummary 1 1 (OffsetUtf16.mk 1) (Point.new 1 0) 0 0 0 0 0.

Definition add_newline (self : TextSummary) : option TextSummary :=
  lines ← Point.add_assign (lines self) (Point.new 1 0);
  Some (mkTextSummary (len self + 1) (chars self)
    (OffsetUtf16.add (len_utf16 self) (OffsetUtf16.mk (OffsetUtf16.offset (len_utf16 self) + 1)))
    lines (first_line_chars self) 0 0 (longest_row self) (longest_row_chars self)).

(** The loop body of [From<&str>], on the variables it changes ([len] is set
    at the end). *)
Definition push_char (st : TextSummary) (c : char) : option TextSummary :=
  let chars := chars st + 1 in
  let len_utf16 := OffsetUtf16.mk (OffsetUtf16.offset (len_utf16 st) + Utf8.len_utf16 c) in
  '(lines, last_line_len_utf16, last_line_chars) ←
    (if (c =? NEWLINE)%N then
       lines ← Point.add_assign (lines st) (Point.new 1 0);
       Some (lines, 0%N, 0%N)
     else
       column ← checked_add u32_max (Point.column (lines st)) (as_u32 (len_utf8 c));
       last_line_len_utf16 ← checked_add u32_max (last_line_len_utf16 st) (as_u32 (Utf8.len_utf16 c));
       last_line_chars ← checked_add u32_max (last_line_chars st) 1;
       Some (Point.mk (Point.row (lines st)) column, last_line_len_utf16, last_line_chars));
  let first_line_chars := if (Point.row lines =? 0)%N then last_line_chars else first_line_chars st in
  let '(longest_row, longest_row_chars) :=
    if (longest_row_chars st <? last_line_chars)%N then (Point.row lines, last_line_chars)
    else (longest_row st, longest_row_chars st) in
  Some (mkTextSummary (len st) chars len_utf16 lines first_line_chars last_line_chars
          last_line_len_utf16 longest_row longest_row_chars).

Fixpoint push_chars (st : TextSummary) (text : list char) : option TextSummary :=
  match text with
  | [] => Some st
  | c :: text => st ← push_char st c; push_chars st text
  end.

(** [impl From<&str>] *)
Definition from_str (text : str) : option TextSummary :=
  st ← push_chars zero text;
  Some (mkTextSummary (Str.len text) (chars st) (len_utf16 st) (lines st) (first_line_chars st)
          (last_line_chars st) (last_line_len_utf16 st) (longest_row st) (longest_row_chars st)).

(** [impl AddAssign<&Self>] *)
Definition add_assign (self other : TextSummary) : option TextSummary :=
  joined_chars ← checked_add u32_max (last_line_chars self) (first_line_chars other);
  let '(longest_row_, longest_row_chars_) :=
    if (longest_row_chars self <? joined_chars)%N then (Point.row (lines self), joined_chars)
    else (longest_row self, longest_row_chars self) in
  '(longest_row_, longest_row_chars_) ←
    (if (longest_row_chars_ <? longest_row_chars other)%N then
       row ← checked_add u32_max (Point.row (lines self)) (longest_row other);
       Some (row, longest_row_chars other)
     else Some (longest_row_, longest_row_chars_));
  first_line_chars_ ←
    (if (Point.row (lines self) =? 0)%N
     then checked_add u32_max (first_line_chars self) (first_line_chars other)
     else Some (first_line_chars self));
  '(last_line_chars_, last_line_len_utf16_) ←
    (if (Point.row (lines other) =? 0)%N then
       last_line_chars_ ← checked_add u32_max (last_line_chars self) (first_line_chars other);
       last_line_len_utf16_ ← checked_add u32_max (last_line_len_utf16 self) (last_line_len_utf16 other);
       Some (last_line_chars_, last_line_len_utf16_)
     else Some (last_line_chars other, last_line_len_utf16 other));
  lines_ ← Point.add_assign (lines self) (lines other);
  Some (mkTextSummary (len self + len other) (chars self + chars other)
          (OffsetUtf16.add (len_utf16 self) (len_utf16 other)) lines_
          first_line_chars_ last_line_chars_ last_line_len_utf16_ longest_row_ longest_row_chars_).

(** [impl Add] *)
Definition add (self rhs : TextSummary) : option TextSummary := add_assign self rhs.
End TextSummary.

Module ChunkSummary.
(** [impl ContextLessSummary] *)
Definition zero : ChunkSummary := mkChunkSummary TextSummary.zero.
Definition add_summary (self summary : ChunkSummary) : option ChunkSummary :=
  text ← TextSummary.add_assign (text self) (text summary); Some (mkChunkSummary text).
End ChunkSummary.

(** ** The summary of a text *)

Definition summary_of (s : str) : TextSummary :=
  mkTextSummary (Str.len s) (length s) (OffsetUtf16.mk (Str.len_utf16 s)) (extent s)
    (N.of_nat (length (first_line s))) (N.of_nat (length (last_line s)))
    (N.of_nat (Str.len_utf16 (last_line s)))
    (N.of_nat (longest (line_lens s)).1) (N.of_nat (longest (line_lens s)).2).

Lemma N_ltb_of_nat (m n : nat) : (N.of_nat m <? N.of_nat n)%N = (m <? n).
Proof. destruct (N.ltb_spec (N.of_nat m) (N.of_nat n)), (Nat.ltb_spec m n); lia. Qed.
Lemma N_eqb_of_nat (m : nat) : (N.of_nat m =? 0)%N = (m =? 0).
Proof. destruct (N.eqb_spec (N.of_nat m) 0), (Nat.eqb_spec m 0); lia. Qed.

Lemma if_same {A} (b : bool) (x : A) : (if b then x else x) = x.
Proof. by destruct b. Qed.

Lemma len_utf16_le_utf8 c : 1 <= Utf8.len_utf16 c <= len_utf8 c.
Proof.
  unfold Utf8.len_utf16, len_utf8, encode_utf8.
  destruct (N.ltb_spec c 0x80), (N.ltb_spec c 0x800), (N.ltb_spec c 0x10000); simpl; lia.
Qed.

Lemma Str_len_utf16_cons c s : Str.len_utf16 (c :: s) = Utf8.len_utf16 c + Str.len_utf16 s.
Proof. done. Qed.

Lemma Str_len_utf16_app a b : Str.len_utf16 (a ++ b) = Str.len_utf16 a + Str.len_utf16 b.
Proof. induction a as [|c a IH]; [done|]. simpl. rewrite !Str_len_utf16_cons, IH. lia. Qed.

Lemma Str_lengths s : length s <= Str.len_utf16 s <= Str.len s.
Proof.
  induction s as [|c s IH]; [done|]. rewrite Str_len_utf16_cons, Str_len_cons. simpl.
  pose proof (len_utf16_le_utf8 c). lia.
Qed.

Lemma longest_snoc lens n :
  longest (lens ++ [n]) =
    let '(row, m) := longest lens in if m <? n then (length lens, n) else (row, m).
Proof.
  rewrite longest_app. destruct (longest lens) as [row m]. simpl.
  destruct (Nat.ltb_spec n 0); [lia|]. destruct (m <? n); [|done]. f_equal. lia.
Qed.

(** Every length is at most that of the text in bytes. *)
Lemma line_bounds s :
  newlines s + Str.len (last_line s) <= Str.len s ∧
  length (last_line s) <= Str.len_utf16 (last_line s) <= Str.len (last_line s) ∧
  length (first_line s) <= Str.len s ∧ (longest (line_lens s)).1 <= newlines s ∧
  (longest (line_lens s)).2 <= Str.len s.
Proof.
  split; [apply newlines_le_len|]. split; [apply Str_lengths|]. split_and!.
  - destruct (first_line_split s) as (r & Hs & _). rewrite Hs at 2. rewrite Str_len_app.
    pose proof (Str_lengths (first_line s)). lia.
  - pose proof (longest_row_lt (line_lens s)) as Hl. rewrite length_line_lens in Hl.
    destruct (line_lens s); [simpl; lia|]. specialize (Hl ltac:(done)). lia.
  - etrans; [|apply Str_lengths]. etrans; [|apply Str_lengths].
    assert (∀ n, n ∈ line_lens s → n <= length s) as Hle.
    { induction s as [|c s IH]; [set_solver|]. intros n. unfold line_lens in *.
      destruct (c =? NEWLINE)%N eqn:Hc.
      - simpl. rewrite Hc. simpl. intros [->|Hn]%elem_of_cons; [lia|]. specialize (IH n Hn). lia.
      - destruct (split_newline_cons c s Hc) as (line & lines & Hs & ->). rewrite Hs in IH. simpl in *.
        intros [->|Hn]%elem_of_cons.
        + specialize (IH (length line) ltac:(set_solver)). lia.
        + specialize (IH n ltac:(set_solver)). lia. }
    destruct (line_lens s) as [|n lens] eqn:Hl; [simpl; lia|]. apply Hle. rewrite <-Hl. clear Hle.
    assert (∀ lens, lens ≠ [] → (longest lens).2 ∈ lens) as Hin; [|apply Hin; by rewrite Hl].
    clear. induction lens as [|n lens IH]; [done|]. intros _. simpl. destruct lens as [|m lens].
    + simpl. destruct (Nat.ltb_spec n 0); [lia|]. set_solver.
    + specialize (IH ltac:(done)). destruct (longest (m :: lens)). destruct (n <? _); set_solver.
Qed.

(** *** [From<&str>] *)

(** The loop's state after a prefix. *)
Definition loop_state (s : str) : TextSummary :=
  mkTextSummary 0 (chars (summary_of s)) (len_utf16 (summary_of s)) (lines (summary_of s))
    (first_line_chars (summary_of s)) (last_line_chars (summary_of s)) (last_line_len_utf16 (summary_of s))
    (longest_row (summary_of s)) (longest_row_chars (summary_of s)).

Lemma longest_line_lens_snoc s c :
  longest (line_lens (s ++ [c])) =
    let '(r, m) := longest (line_lens s) in
    if (c =? NEWLINE)%N then (r, m)
    else if m <? S (length (last_line s)) then (newlines s, S (length (last_line s))) else (r, m).
Proof.
  destruct (line_lens_app s [c]) as (front & back & -> & Hc & -> & <- & _). revert Hc.
  unfold line_lens. simpl. destruct (c =? NEWLINE)%N; intros [= <-]; simpl length; rewrite ?Nat.add_0_r.
  - rewrite (cons_middle _ front), app_assoc, longest_snoc. by destruct (longest _).
  - rewrite Nat.add_1_r, !longest_snoc. destruct (longest front) as [r m].
    destruct (Nat.ltb_spec m (length (last_line s))), (Nat.ltb_spec m (S (length (last_line s)))); try lia.
    + destruct (Nat.ltb_spec (length (last_line s)) (S (length (last_line s)))); [done|lia].
    + by destruct (Nat.ltb_spec m (S (length (last_line s)))); [|lia].
    + by destruct (Nat.ltb_spec m (S (length (last_line s)))); [lia|].
Qed.

Lemma push_char_spec s c : (N.of_nat (Str.len (s ++ [c])) <= u32_max)%N →
  TextSummary.push_char (loop_state s) c = Some (loop_state (s ++ [c])).
Proof.
  rewrite Str_len_app, Str_len_cons. change (Str.len []) with 0. intros Hlen.
  pose proof (line_bounds s) as (Hb1 & Hb2 & Hb3 & Hb4 & Hb5). pose proof (len_utf16_le_utf8 c) as Hc16.
  unfold TextSummary.push_char, loop_state, summary_of. rewrite longest_line_lens_snoc.
  destruct (longest (line_lens s)) as [r m]. unfold extent.
  rewrite newlines_snoc, last_line_snoc, first_line_app, Str_len_utf16_app, length_app, Str_len_utf16_cons.
  destruct (c =? NEWLINE)%N eqn:Hnl.
  - cbn. unfold Point.add_assign. cbn. rewrite checked_add_Some by lia. cbn. rewrite Hnl, app_nil_r, if_same.
    destruct (N.ltb_spec (N.of_nat m) 0), (N.eqb_spec (N.of_nat (newlines s) + 1) 0); try lia.
    do 2 f_equal; try lia; f_equal; lia.
  - destruct (m <? S (length (last_line s))) eqn:Hm.
    all: cbn; rewrite !as_u32_small, !checked_add_Some by lia; cbn; rewrite Hnl, Nat.add_0_r.
    all: rewrite !length_app, Str_len_app, Str_len_utf16_app, Str_len_cons, Str_len_utf16_cons.
    all: change (Str.len []) with 0; change (Str.len_utf16 []) with 0; simpl length.
    all: change 1%N with (N.of_nat 1); rewrite <-!Nat2N.inj_add, N_ltb_of_nat, N_eqb_of_nat.
    all: rewrite !(Nat.add_1_r (length (last_line s))), Hm.
    all: destruct (Nat.eqb_spec (newlines s) 0) as [H0|H0].
    all: rewrite ?(last_line_none s H0), ?(first_line_none s H0), ?length_app.
    all: do 2 f_equal; simpl; try lia; f_equal; lia.
Qed.

Lemma push_chars_spec s t : (N.of_nat (Str.len (s ++ t)) <= u32_max)%N →
  TextSummary.push_chars (loop_state s) t = Some (loop_state (s ++ t)).
Proof.
  revert s. induction t as [|c t IH]; intros s Hlen; simpl; [by rewrite app_nil_r|].
  change (c :: t) with ([c] ++ t) in *. rewrite app_assoc in *.
  rewrite push_char_spec by (rewrite Str_len_app in Hlen; lia). simpl. by apply IH.
Qed.

Lemma from_str_spec s : (N.of_nat (Str.len s) <= u32_max)%N → TextSummary.from_str s = Some (summary_of s).
Proof.
  intros Hlen. unfold TextSummary.from_str. change TextSummary.zero with (loop_state []).
  by rewrite push_chars_spec.
Qed.

(** *** Sums *)

Lemma longest_line_lens_app a b :
  longest (line_lens (a ++ b)) =
    let '(r1, m1) := longest (line_lens a) in
    let '(r2, m2) := longest (line_lens b) in
    let joined := length (last_line a) + length (first_line b) in
    let '(r, m) := if m1 <? joined then (newlines a, joined) else (r1, m1) in
    if m <? m2 then (newlines a + r2, m2) else (r, m).
Proof.
  destruct (line_lens_app a b) as (front & back & -> & -> & -> & <- & _).
  set (l := length (last_line a)). set (f := length (first_line b)).
  rewrite longest_snoc, longest_app. simpl. destruct (longest front) as [r m], (longest back) as [r2 m2].
  repeat match goal with |- context [?x <? ?y] => destruct (Nat.ltb_spec x y) end; try lia; try done; f_equal; lia.
Qed.

Lemma add_assign_spec a b : (N.of_nat (Str.len (a ++ b)) <= u32_max)%N →
  TextSummary.add_assign (summary_of a) (summary_of b) = Some (summary_of (a ++ b)).
Proof.
  intros Hlen. pose proof (line_bounds a) as (Ha1 & Ha2 & Ha3 & Ha4 & Ha5).
  pose proof (line_bounds b) as (Hb1 & Hb2 & Hb3 & Hb4 & Hb5).
  pose proof (extent_app a b Hlen) as Hext. rewrite Str_len_app in Hlen.
  unfold TextSummary.add_assign, summary_of. rewrite longest_line_lens_app.
  destruct (longest (line_lens a)) as [r1 m1], (longest (line_lens b)) as [r2 m2]. cbn in *.
  rewrite Point_add_assign_add, Hext, !checked_add_Some by lia. cbn.
  rewrite <-!Nat2N.inj_add, !N_ltb_of_nat, !N_eqb_of_nat.
  rewrite first_line_app, last_line_app, Str_len_app, length_app, Str_len_utf16_app.
  assert (newlines b = 0 → first_line b = last_line b) as Hfl.
  { intros Hb. by rewrite first_line_none, last_line_none. }
  destruct (m1 <? length (last_line a) + length (first_line b)); rewrite N_ltb_of_nat.
  all: destruct (_ <? m2); cbn; destruct (newlines a =? 0); cbn; rewrite ?checked_add_Some by lia; cbn.
  all: destruct (Nat.eqb_spec (newlines b) 0) as [Hb|]; cbn; rewrite ?checked_add_Some by lia; cbn.
  all: rewrite ?length_app, ?Str_len_utf16_app, ?Hfl by done.
  all: do 2 f_equal; lia.
Qed.

(** C32. The summary of a text, as [From<&str>] computes it in one pass over its
    characters, holds the lengths in bytes, characters and UTF-16 units, the
    extent, the first and the last line and the first longest row; and adding
    the summaries of two texts gives the summary of their concatenation.
    Nothing overflows for a text shorter than 4 GiB. *)
Theorem text_summary_additive a b (Hlen : (N.of_nat (Str.len (a ++ b)) <= u32_max)%N) :
  TextSummary.from_str a = Some (summary_of a) ∧ TextSummary.from_str b = Some (summary_of b) ∧
  TextSummary.from_str (a ++ b) = Some (summary_of (a ++ b)) ∧
  TextSummary.add (summary_of a) (summary_of b) = Some (summary_of (a ++ b)) ∧
  TextSummary.add TextSummary.zero (summary_of a) = Some (summary_of a) ∧
  TextSummary.add (summary_of a) TextSummary.zero = Some (summary_of a).
Proof.
  pose proof Hlen as Hlen'. rewrite Str_len_app in Hlen'.
  rewrite !from_str_spec by (done || lia). unfold TextSummary.add. rewrite add_assign_spec by done.
  split_and!; try done; change TextSummary.zero with (summary_of []).
  - apply (add_assign_spec [] a). simpl. lia.
  - rewrite (add_assign_spec a []); rewrite app_nil_r; [done|lia].
Qed.

(** "ab⏎c" followed by "d⏎🍐". *)
Lemma text_summary_additive_witness :
  let a := [97; 98; 10; 99]%N in let b := [100; 10; 0x1F350]%N in
  (N.of_nat (Str.len (a ++ b)) <= u32_max)%N ∧
  TextSummary.add (summary_of a) (summary_of b) =
    Some (mkTextSummary 10 7 (OffsetUtf16.mk 8) (Point.mk 2 4) 2 1 2 0 2).
Proof.
  split; [by vm_compute|].
  destruct (text_summary_additive [97; 98; 10; 99]%N [100; 10; 0x1F350]%N ltac:(by vm_compute)) as (_ & _ & _ & H & _).
  exact H.
Defined.

(** [add_newline] is not the sum with [newline]: it does not count the
    character and adds the old UTF-16 length a second time. *)
Lemma add_newline_differs :
  TextSummary.add (summary_of [97; 98]%N) TextSummary.newline = TextSummary.from_str [97; 98; 10]%N ∧
  TextSummary.from_str [97; 98; 10]%N = Some (mkTextSummary 3 3 (OffsetUtf16.mk 3) (Point.mk 1 0) 2 0 0 0 2) ∧
  TextSummary.add_newline (summary_of [97; 98]%N) =
    Some (mkTextSummary 3 2 (OffsetUtf16.mk 5) (Point.mk 1 0) 2 0 0 0 2).
Proof. split_and!; vm_compute; reflexivity. Qed.
