(* ===== verification/BitSelect.v ===== *)
(** * Selecting a set bit ([nth_set_bit] and [nth_set_bit_u64] of
    [crates/rope/src/chunk.rs])

    The position of the n-th set bit of a word, without branches: the bits are
    counted in parallel in fields of two, four, eight and sixteen bits, and the
    counts guide a binary search from the most significant end of the reversed
    word. *)

From S2P Require Import Prelude Utf8 Points.

(** ** Machine words *)

(** [u64::MAX / d] *)
Definition u64_div (d : N) : N := u64_max / d.
(** [u64::wrapping_sub] *)
Definition wrapping_sub64 (a b : N) : N := (a + 2 ^ 64 - b) mod 2 ^ 64.
(** [a >> k] on [u64]: panics when the width is exceeded *)
Definition shr64 (a k : N) : option N := _ ← rassert (k <? 64)%N; Some (N.shiftr a k).
(** The bits of a word of the given width, the least significant first. *)
Definition to_bits (width : nat) (v : N) : list bool := map (λ i, N.testbit v (N.of_nat i)) (seq 0 width).
#[global] Arguments to_bits : simpl never.
(** [u64::reverse_bits] *)
Definition reverse_bits64 (v : N) : N := bits_of id (reverse (to_bits 64 v)).
(** [count_ones], of a type with at most 128 bits *)
Fixpoint count_ones_pos (p : positive) : nat :=
  match p with xH => 1 | xO p => count_ones_pos p | xI p => S (count_ones_pos p) end.
Definition count_ones (v : N) : nat := match v with N0 => 0 | Npos p => count_ones_pos p end.

(** ** The code *)

(** One stage of the select: [s -= (t.wrapping_sub(n) & 256) >> shift] and
    [n -= t & (t.wrapping_sub(n) >> 8)]. *)
Definition narrow (shift t s n : N) : option (N * N) :=
  s ← checked_subN s (N.shiftr (N.land (wrapping_sub64 t n) 256) shift);
  n ← checked_subN n (N.land t (N.shiftr (wrapping_sub64 t n) 8));
  Some (s, n).

(** [(x >> (s - width)) & mask] *)
Definition field (x s width mask : N) : option N :=
  k ← checked_subN s width; x ← shr64 x k; Some (N.land x mask).

Definition nth_set_bit_u64 (v n : N) : option N :=
  let v := reverse_bits64 v in
  let s := 64%N in
  a ← checked_subN v (N.land (N.shiftr v 1) (u64_div 3));
  b ← checked_add u64_max (N.land a (u64_div 5)) (N.land (N.shiftr a 2) (u64_div 5));
  c ← checked_add u64_max b (N.shiftr b 4);
  let c := N.land c (u64_div 0x11) in
  d ← checked_add u64_max c (N.shiftr c 8);
  let d := N.land d (u64_div 0x101) in
  t ← checked_add u64_max (N.shiftr d 32) (N.shiftr d 48);
  '(s, n) ← narrow 3 t s n;
  t ← field d s 16 0xff;
  '(s, n) ← narrow 4 t s n;
  t ← field c s 8 0xf;
  '(s, n) ← narrow 5 t s n;
  t ← field b s 4 0x7;
  '(s, n) ← narrow 6 t s n;
  t ← field a s 2 0x3;
  '(s, n) ← narrow 7 t s n;
  t ← field v s 1 0x1;
  s ← checked_subN s (N.shiftr (N.land (wrapping_sub64 t n) 256) 8);
  r ← checked_subN 65 s;
  checked_subN r 1.

Definition nth_set_bit (v : N) (n : nat) : option nat :=
  let low := (v mod 2 ^ 64)%N in
  let high := (N.shiftr v 64 mod 2 ^ 64)%N in
  let low_count := count_ones low in
  if low_count <? n then
    r ← nth_set_bit_u64 high (N.of_nat (n - low_count)); Some (64 + N.to_nat r)
  else
    r ← nth_set_bit_u64 low (N.of_nat n); Some (N.to_nat r).

Example nth_set_bit_ex : map (nth_set_bit (2 ^ 3 + 2 ^ 17 + 2 ^ 64 + 2 ^ 127)) [1; 2; 3; 4] = map Some [3; 17; 64; 127].
Proof. vm_compute. reflexivity. Qed.

(** ** Digits

    A word as a list of fields of [k] bits, the least significant first. *)

Open Scope N_scope.

Fixpoint nums (k : N) (l : list N) : N :=
  match l with [] => 0 | x :: l => x + 2 ^ k * nums k l end.

Lemma pow2_pos k : 0 < 2 ^ k.
Proof. apply N.neq_0_lt_0. by apply N.pow_nonzero. Qed.

Lemma testbit_split k x X i : x < 2 ^ k →
  N.testbit (x + 2 ^ k * X) i = if i <? k then N.testbit x i else N.testbit X (i - k).
Proof.
  intros Hx. replace (x + 2 ^ k * X) with (N.lor (N.shiftl X k) x)
    by (rewrite N_lor_shiftl_add by done; lia).
  rewrite N.lor_spec. destruct (N.ltb_spec i k) as [Hi|Hi].
  - by rewrite N.shiftl_spec_low.
  - rewrite N.shiftl_spec_high' by done. destruct (decide (x = 0)) as [->|Hx0]; [by rewrite N.bits_0, orb_false_r|].
    rewrite (N.bits_above_log2 x), orb_false_r; [done|]. apply N.log2_lt_pow2 in Hx; lia.
Qed.

Lemma land_split k x X y Y : x < 2 ^ k → y < 2 ^ k →
  N.land (x + 2 ^ k * X) (y + 2 ^ k * Y) = N.land x y + 2 ^ k * N.land X Y.
Proof.
  intros Hx Hy. apply N.bits_inj. intros i.
  rewrite N.land_spec, !testbit_split, N.land_spec, N.land_spec; [by destruct (i <? k)|..|done|done].
  destruct (decide (x = 0)) as [->|]; [by rewrite N.land_0_l|].
  destruct (decide (N.land x y = 0)) as [->|]; [apply pow2_pos|].
  apply N.log2_lt_pow2; [lia|]. eapply N.le_lt_trans; [apply N.log2_land|].
  apply N.log2_lt_pow2 in Hx; lia.
Qed.

Lemma shiftr_split k x X : x < 2 ^ k → N.shiftr (x + 2 ^ k * X) k = X.
Proof.
  intros Hx. rewrite N.shiftr_div_pow2, N.mul_comm, N.div_add by (by apply N.pow_nonzero).
  by rewrite N.div_small.
Qed.

Definition digits (k : N) (l : list N) : Prop := Forall (λ x, x < 2 ^ k) l.

Lemma nums_bound k l : digits k l → nums k l < 2 ^ (k * N.of_nat (length l)).
Proof.
  induction 1 as [|x l Hx _ IH]; simpl length; [apply pow2_pos|].
  rewrite Nat2N.inj_succ, N.mul_succ_r, N.pow_add_r. simpl. nia.
Qed.

Lemma nums_land k l m : digits k l → digits k m → length l = length m →
  N.land (nums k l) (nums k m) = nums k (zip_with N.land l m).
Proof.
  intros Hl. revert m. induction Hl as [|x l Hx Hl IH]; intros m Hm Hlen; [done|].
  destruct m as [|y m]; [done|]. inversion Hm; subst. simpl.
  rewrite land_split by done. f_equal. f_equal. apply IH; [done|]. simpl in Hlen. lia.
Qed.

Lemma nums_add k (f g : N * N → N) (L : list (N * N)) :
  nums k (map f L) + nums k (map g L) = nums k (map (λ p, f p + g p) L).
Proof. induction L as [|p L IH]; simpl; [done|]. rewrite <-IH. lia. Qed.

Lemma nums_mask k m l n : digits k l → m <= k → n = length l →
  N.land (nums k l) (nums k (repeat (N.ones m) n)) = nums k (map (λ x, x mod 2 ^ m) l).
Proof.
  intros Hl Hm ->. rewrite nums_land; [|done| |by rewrite repeat_length].
  - f_equal. clear. induction l as [|x l IH]; simpl; [done|]. by rewrite IH, N.land_ones.
  - apply Forall_forall. intros y Hy%list_elem_of_In%repeat_spec. subst y. rewrite N.ones_equiv.
    pose proof (pow2_pos m). pose proof (N.pow_le_mono_r 2 m k ltac:(done) Hm). lia.
Qed.

(** A field of the word. *)
Lemma nums_field k m l j x : digits k l → m <= k → l !! N.to_nat j = Some x → x < 2 ^ m →
  N.land (N.shiftr (nums k l) (k * j)) (N.ones m) = x.
Proof.
  intros Hl Hm Hx Hxm. rewrite <-(N2Nat.id j) at 1. remember (N.to_nat j) as i eqn:Hi. clear j Hi.
  revert i Hx. induction Hl as [|y l Hy Hl IH]; intros i Hx; [done|]. destruct i as [|i].
  - injection Hx as ->. rewrite N.mul_0_r, N.shiftr_0_r, N.land_ones. simpl.
    replace (2 ^ k) with (2 ^ (k - m) * 2 ^ m) by (rewrite <-N.pow_add_r; f_equal; lia).
    rewrite <-N.mul_assoc, (N.mul_comm (2 ^ m)), N.mul_assoc, N.Div0.mod_add. by apply N.mod_small.
  - rewrite Nat2N.inj_succ, N.mul_succ_r, N.add_comm, <-N.shiftr_shiftr. simpl.
    rewrite shiftr_split by done. by apply IH.
Qed.

(** *** Halving the number of fields *)

Fixpoint pair_up (l : list N) : list (N * N) :=
  match l with x :: y :: l => (x, y) :: pair_up l | _ => [] end.

Definition merge (h : N) (p : N * N) : N := p.1 + 2 ^ h * p.2.
Definition sum2 (l : list N) : list N := map (λ p, p.1 + p.2) (pair_up l).

(** The fields of the word shifted down by half a field. *)
Fixpoint shifted (h : N) (L : list (N * N)) : list N :=
  match L with
  | [] => []
  | (lo, hi) :: L => hi + 2 ^ h * match L with (lo', _) :: _ => lo' | [] => 0 end :: shifted h L
  end.

Definition halves (h : N) (L : list (N * N)) : Prop := Forall (λ p, p.1 < 2 ^ h ∧ p.2 < 2 ^ h) L.

Lemma pair_ind (P : list N → Prop) :
  P [] → (∀ x, P [x]) → (∀ x y l, P l → P (x :: y :: l)) → ∀ l, P l.
Proof.
  intros H0 H1 H2. fix IH 1. intros [|x [|y l]]; [done|apply H1|]. apply H2. apply IH.
Qed.

Lemma pair_up_length l : (length (pair_up l) = length l / 2)%nat.
Proof.
  induction l as [|x|x y l IH] using pair_ind; [done..|]. simpl pair_up. simpl length. rewrite IH.
  change (S (S (length l))) with (2 + length l)%nat. by rewrite (Nat.div_add_l 1 2).
Qed.

Lemma pair_up_halves h l : digits h l → halves h (pair_up l).
Proof.
  induction l as [|x|x y l IH] using pair_ind; [constructor..|]. intros Hd.
  inversion Hd as [|? ? Hx Hd']; subst. inversion Hd'; subst. constructor; [done|]. by apply IH.
Qed.

Lemma nums_merge h l : Nat.Even (length l) → nums h l = nums (2 * h) (map (merge h) (pair_up l)).
Proof.
  induction l as [|x|x y l IH] using pair_ind; [done|intros [n Hn]; simpl in Hn; lia|].
  intros [n Hn]. simpl in Hn. simpl nums. rewrite IH by (exists (n - 1)%nat; lia).
  replace (2 * h) with (h + h) by lia. rewrite N.pow_add_r. unfold merge at 2. simpl. lia.
Qed.

Lemma merge_digits h L : halves h L → digits (2 * h) (map (merge h) L).
Proof.
  induction 1 as [|p L [H1 H2] _ IH]; simpl; constructor; [|done]. unfold merge.
  replace (2 * h) with (h + h) by lia. rewrite N.pow_add_r. nia.
Qed.

Lemma shifted_digits h L : halves h L → digits (2 * h) (shifted h L).
Proof.
  induction 1 as [|[lo hi] L [H1 H2] HL IH]; simpl; [constructor|]. constructor; [|done].
  replace (2 * h) with (h + h) by lia. rewrite N.pow_add_r. pose proof (pow2_pos h).
  destruct HL as [|[lo' hi'] L [H3 H4] _]; simpl in *; nia.
Qed.

Lemma shiftr_shifted h L : halves h L →
  N.shiftr (nums (2 * h) (map (merge h) L)) h = nums (2 * h) (shifted h L).
Proof.
  induction 1 as [|[lo hi] L [H1 H2] HL IH]; [apply N.shiftr_0_l|]. simpl in *.
  unfold merge at 1. simpl. set (R := nums (2 * h) (map (merge h) L)) in *.
  assert (lo + 2 ^ h * hi + 2 ^ (2 * h) * R = lo + 2 ^ h * (hi + 2 ^ h * R)) as ->.
  { replace (2 * h) with (h + h) by lia. rewrite N.pow_add_r. lia. }
  rewrite shiftr_split, <-IH by done.
  set (lo' := match L with (lo', _) :: _ => lo' | [] => 0 end).
  assert (R = lo' + 2 ^ h * N.shiftr R h) as HR.
  { subst R lo'. destruct HL as [|[lo' hi'] L [H3 H4] _]; [simpl; by rewrite N.shiftr_0_l, N.mul_0_r|].
    simpl in *. unfold merge at 1 3. simpl.
    set (Q := nums (2 * h) (map (merge h) L)).
    assert (lo' + 2 ^ h * hi' + 2 ^ (2 * h) * Q = lo' + 2 ^ h * (hi' + 2 ^ h * Q)) as ->.
    { replace (2 * h) with (h + h) by lia. rewrite N.pow_add_r. lia. }
    by rewrite shiftr_split. }
  rewrite HR at 1. replace (2 * h) with (h + h) by lia. rewrite N.pow_add_r. lia.
Qed.

Lemma merge_mod h p : p.1 < 2 ^ h → merge h p mod 2 ^ h = p.1.
Proof. intros Hp. unfold merge. rewrite N.mul_comm, N.Div0.mod_add. by apply N.mod_small. Qed.

Lemma map_merge_mod h L : halves h L → map (λ x, x mod 2 ^ h) (map (merge h) L) = map fst L.
Proof. induction 1 as [|p L [H1 H2] _ IH]; simpl; [done|]. by rewrite IH, merge_mod. Qed.

Lemma map_shifted_mod h L : halves h L → map (λ x, x mod 2 ^ h) (shifted h L) = map snd L.
Proof.
  induction 1 as [|[lo hi] L [H1 H2] _ IH]; simpl; [done|]. rewrite IH. f_equal.
  rewrite N.mul_comm, N.Div0.mod_add. by apply N.mod_small.
Qed.

(** The three ways the code adds neighbouring fields. *)
Section level.
Context (h : N) (l : list N) (mask : N).
Context (Hd : digits h l) (Heven : Nat.Even (length l)).
Context (Hmask : mask = nums (2 * h) (repeat (N.ones h) (length l / 2))).

Lemma low_halves : N.land (nums h l) mask = nums (2 * h) (map fst (pair_up l)).
Proof.
  rewrite Hmask, nums_merge by done. pose proof (pair_up_halves h l Hd) as Hh.
  rewrite nums_mask; [|by apply merge_digits|lia|by rewrite length_map, pair_up_length]. by rewrite map_merge_mod.
Qed.

Lemma length_shifted L : length (shifted h L) = length L.
Proof. induction L as [|[??] L IH]; simpl; congruence. Qed.

Lemma high_halves : N.land (N.shiftr (nums h l) h) mask = nums (2 * h) (map snd (pair_up l)).
Proof.
  rewrite Hmask, nums_merge by done. pose proof (pair_up_halves h l Hd) as Hh. rewrite shiftr_shifted by done.
  rewrite nums_mask; [|by apply shifted_digits|lia|by rewrite length_shifted, pair_up_length]. by rewrite map_shifted_mod.
Qed.

Lemma add_halves :
  N.land (nums h l) mask + N.land (N.shiftr (nums h l) h) mask = nums (2 * h) (sum2 l).
Proof. rewrite low_halves, high_halves. apply nums_add. Qed.

(** Adding first and masking after, when the sums fit half a field. *)
Lemma add_then_mask m : Forall (λ x, x <= m) l → 2 * m < 2 ^ h →
  N.land (nums h l + N.shiftr (nums h l) h) mask = nums (2 * h) (sum2 l) ∧
  nums h l + N.shiftr (nums h l) h < 2 ^ (2 * h * N.of_nat (length l / 2)).
Proof.
  intros Hm Hfit. rewrite nums_merge by done. pose proof (pair_up_halves h l Hd) as Hh.
  rewrite shiftr_shifted by done.
  assert (Forall (λ p, p.1 <= m ∧ p.2 <= m) (pair_up l)) as HL.
  { clear -Hm. induction l as [|x|x y l' IH] using pair_ind; [constructor..|].
    inversion Hm as [|? ? Hx Hm']; subst. inversion Hm'; subst. constructor; [done|]. by apply IH. }
  pose proof (pair_up_length l) as Hlen. unfold sum2. rewrite Hmask, <-Hlen. clear Hmask Hlen Hm Hd Heven.
  set (L := pair_up l) in *. clearbody L.
  assert (Hsum : ∃ D, nums (2 * h) (map (merge h) L) + nums (2 * h) (shifted h L) = nums (2 * h) D ∧
    digits (2 * h) D ∧ length D = length L ∧ map (λ x, x mod 2 ^ h) D = map (λ p, p.1 + p.2) L).
  { clear mask. induction HL as [|[lo hi] L [H1 H2] HL IH]; [exists []; split_and!; [done|constructor|done..]|].
    inversion Hh as [|? ? Hp Hh']; subst. destruct (IH Hh') as (D & HD & HdD & HlenD & HmodD).
    set (lo' := match L with (lo', _) :: _ => lo' | [] => 0 end).
    assert (lo' <= m) by (subst lo'; destruct HL as [|[] ? []]; simpl in *; lia). simpl in *.
    exists ((lo + hi) + 2 ^ h * (hi + lo') :: D). split_and!.
    - simpl. rewrite <-HD. unfold merge at 1. simpl. fold lo'. lia.
    - constructor; [|done]. replace (2 * h) with (h + h) by lia. rewrite N.pow_add_r. nia.
    - simpl. by rewrite HlenD.
    - simpl. rewrite HmodD. f_equal. rewrite N.mul_comm, N.Div0.mod_add. apply N.mod_small. lia. }
  destruct Hsum as (D & -> & HdD & HlenD & HmodD). split.
  - rewrite nums_mask; [by rewrite HmodD|done|lia|done].
  - rewrite <-HlenD. by apply nums_bound.
Qed.
End level.

(** ** Sums of segments *)

Definition nsum (l : list N) : N := foldr N.add 0 l.
Definition seg (l : list N) (lo len : nat) : N := nsum (take len (drop lo l)).

Lemma nsum_app l k : nsum (l ++ k) = nsum l + nsum k.
Proof. induction l as [|x l IH]; simpl; [done|]. rewrite IH. lia. Qed.

Lemma seg_split l lo a b : seg l lo (a + b) = seg l lo a + seg l (lo + a) b.
Proof. unfold seg. rewrite <-nsum_app, <-drop_drop. f_equal. symmetry. apply take_take_drop. Qed.

Lemma seg_drop l lo len : seg l lo len + nsum (drop (lo + len) l) = nsum (drop lo l).
Proof. unfold seg. by rewrite <-drop_drop, <-nsum_app, take_drop. Qed.

Lemma seg_one l i x : l !! i = Some x → seg l i 1 = x.
Proof. intros Hx. unfold seg. rewrite (drop_S l x i) by done. simpl. lia. Qed.

Lemma nsum_le l m : Forall (λ x, x <= m) l → nsum l <= m * N.of_nat (length l).
Proof. induction 1 as [|x l Hx _ IH]; simpl length; simpl; lia. Qed.

Lemma seg_le l lo len m : Forall (λ x, x <= m) l → seg l lo len <= m * N.of_nat len.
Proof.
  intros Hl. unfold seg. etrans; [apply nsum_le; by apply Forall_take, Forall_drop|].
  rewrite length_take. apply N.mul_le_mono_l. lia.
Qed.

Lemma nsum_sum2 l : Nat.Even (length l) → nsum (sum2 l) = nsum l.
Proof.
  induction l as [|x|x y l IH] using pair_ind; [done|intros [n Hn]; simpl in Hn; lia|].
  intros [n Hn]. simpl in Hn. unfold sum2. simpl. fold (sum2 l). rewrite IH by (exists (n - 1)%nat; lia). lia.
Qed.

Lemma drop_sum2 l j : drop j (sum2 l) = sum2 (drop (2 * j) l).
Proof.
  revert l. induction j as [|j IH]; intros l; [done|].
  replace (2 * S j)%nat with (S (S (2 * j))) by lia. destruct l as [|x [|y l]]; [done..|]. apply IH.
Qed.

Lemma take_sum2 l j : take j (sum2 l) = sum2 (take (2 * j) l).
Proof.
  revert l. induction j as [|j IH]; intros l; [done|].
  replace (2 * S j)%nat with (S (S (2 * j))) by lia. destruct l as [|x [|y l]]; [done..|].
  unfold sum2 in *. simpl. f_equal. apply IH.
Qed.

Lemma length_sum2 l : length (sum2 l) = (length l / 2)%nat.
Proof. unfold sum2. by rewrite length_map, pair_up_length. Qed.

Lemma seg_sum2 l lo len : (2 * (lo + len) <= length l)%nat →
  seg (sum2 l) lo len = seg l (2 * lo) (2 * len).
Proof.
  intros Hlen. unfold seg. rewrite drop_sum2, take_sum2. apply nsum_sum2. exists len.
  rewrite length_take, length_drop. lia.
Qed.

Lemma sum2_le l m : Forall (λ x, x <= m) l → Forall (λ x, x <= 2 * m) (sum2 l).
Proof.
  induction l as [|x|x y l IH] using pair_ind; [constructor..|]. intros Hl.
  inversion Hl as [|? ? Hx Hl']; subst. inversion Hl'; subst. constructor; [simpl; lia|]. by apply IH.
Qed.

Lemma le_digits l m k : Forall (λ x, x <= m) l → m < 2 ^ k → digits k l.
Proof. intros Hl Hm. eapply Forall_impl; [exact Hl|]. simpl. intros. lia. Qed.

(** ** The stages *)

Definition narrow_check (f t n : N) : bool :=
  let w := t + 65536 * f in
  (N.land (wrapping_sub64 w n) 256 =? if t <? n then 256 else 0) &&
  (N.land w (N.shiftr (wrapping_sub64 w n) 8) =? if t <? n then t else 0).

Lemma narrow_checked : forallb (λ f, forallb (λ t, forallb (narrow_check f t)
  (map N.of_nat (seq 0 65))) (map N.of_nat (seq 0 65))) (map N.of_nat (seq 0 17)) = true.
Proof. vm_compute. reflexivity. Qed.

Lemma narrow_spec f t s n shift : f <= 16 → t <= 64 → n <= 64 → (t < n → N.shiftr 256 shift <= s) →
  narrow shift (t + 65536 * f) s n =
    Some (if t <? n then (s - N.shiftr 256 shift, n - t) else (s, n)).
Proof.
  intros Hf Ht Hn Hs.
  assert (Hin : ∀ x (k : nat), x < N.of_nat k → In x (map N.of_nat (seq 0 k))).
  { intros x k Hx. apply in_map_iff. exists (N.to_nat x). rewrite in_seq. lia. }
  pose proof narrow_checked as Hc. rewrite forallb_forall in Hc. specialize (Hc f (Hin f 17%nat ltac:(lia))).
  rewrite forallb_forall in Hc. specialize (Hc t (Hin t 65%nat ltac:(lia))).
  rewrite forallb_forall in Hc. specialize (Hc n (Hin n 65%nat ltac:(lia))).
  apply andb_true_iff in Hc as [H1%N.eqb_eq H2%N.eqb_eq]. unfold narrow. rewrite H1, H2.
  destruct (N.ltb_spec t n) as [Hlt|Hge].
  - specialize (Hs Hlt). by rewrite !checked_subN_Some by lia.
  - rewrite N.shiftr_0_l, !checked_subN_Some by lia. simpl. by rewrite !N.sub_0_r.
Qed.

(** The bit is among the [W] bits below [W * q]: [n] of the [n0] bits remain. *)
Definition located (B : list N) (n0 : N) (W q : nat) (n : N) : Prop :=
  (1 <= q)%nat ∧ (W * q <= 64)%nat ∧ nsum (drop (W * q) B) + n = n0 ∧ 1 <= n <= seg B (W * (q - 1)) W.

Lemma stage B n0 V q n f t shift :
  Forall (λ x, x <= 1) B → located B n0 (2 * V) q n → t = seg B (V * (2 * q - 1)) V →
  f <= 16 → N.shiftr 256 shift = N.of_nat V →
  ∃ q' n', narrow shift (t + 65536 * f) (N.of_nat (2 * V * q)) n = Some (N.of_nat (V * q'), n') ∧
    located B n0 V q' n'.
Proof.
  intros HB (Hq & Hs & Hsum & Hn) Ht Hf Hshift.
  assert (t <= N.of_nat V) by (rewrite Ht; pose proof (seg_le B (V * (2 * q - 1)) V 1 HB); lia).
  assert (n <= N.of_nat (2 * V)) by (pose proof (seg_le B (2 * V * (q - 1)) (2 * V) 1 HB); lia).
  rewrite narrow_spec; [|done|nia|nia|rewrite Hshift; nia]. rewrite Hshift.
  replace (2 * V * (q - 1))%nat with (V * (2 * q - 2))%nat in Hn by lia.
  replace (2 * V)%nat with (V + V)%nat in Hn by lia. rewrite seg_split in Hn.
  replace (V * (2 * q - 2) + V)%nat with (V * (2 * q - 1))%nat in Hn by nia. rewrite <-Ht in Hn.
  destruct (N.ltb_spec t n) as [Hlt|Hge].
  - exists (2 * q - 1)%nat, (n - t). split; [do 2 f_equal; nia|]. split_and!; [lia|nia| |lia|].
    + pose proof (seg_drop B (V * (2 * q - 1)) V) as Hd. rewrite <-Ht in Hd.
      replace (V * (2 * q - 1) + V)%nat with (2 * V * q)%nat in Hd by nia. lia.
    + replace (2 * q - 1 - 1)%nat with (2 * q - 2)%nat by lia. lia.
  - exists (2 * q)%nat, n. split; [do 2 f_equal; lia|]. unfold located. replace (V * (2 * q))%nat with (2 * V * q)%nat by lia.
    split_and!; [lia|lia|exact Hsum|lia|by rewrite <-Ht].
Qed.

(** The count the code reads for a stage. *)
Lemma field_spec k m (l : list N) (W q : nat) x :
  k = N.of_nat W → (1 <= W)%nat → (1 <= q)%nat → (W * q <= 64)%nat → digits k l → m <= k →
  l !! (q - 1)%nat = Some x → x < 2 ^ m →
  field (nums k l) (N.of_nat (W * q)) k (N.ones m) = Some x.
Proof.
  intros -> HW Hq Hs Hl Hm Hx Hxm. unfold field. rewrite checked_subN_Some by nia. simpl.
  unfold shr64, rassert. destruct (N.ltb_spec (N.of_nat (W * q) - N.of_nat W) 64); [|nia]. simpl. f_equal.
  replace (N.of_nat (W * q) - N.of_nat W) with (N.of_nat W * N.of_nat (q - 1)) by nia.
  apply nums_field; [done..| |done]. by rewrite Nat2N.id.
Qed.

(** ** The select *)

Lemma bits_of_nums l : bits_of id l = nums 1 (map N.b2n l).
Proof. induction l as [|b l IH]; [done|]. cbn [bits_of map nums]. by rewrite IH. Qed.

(** The counts in fields of two bits: [v - ((v >> 1) & 0x5555...)]. *)
Lemma count_pairs B : digits 1 B → length B = 64%nat →
  checked_subN (nums 1 B) (N.land (N.shiftr (nums 1 B) 1) (u64_div 3)) = Some (nums 2 (sum2 B)).
Proof.
  intros HB Hlen. assert (Nat.Even (length B)) as He by (rewrite Hlen; by exists 32%nat).
  rewrite (high_halves 1 B (u64_div 3)) by (done || (by rewrite Hlen)).
  assert (nums 1 B = nums 2 (sum2 B) + nums 2 (map snd (pair_up B))) as Heq.
  { rewrite nums_merge by done. change (2 * 1) with 2. unfold sum2. rewrite nums_add. f_equal.
    apply map_ext. intros [lo hi]. unfold merge. simpl. lia. }
  change (2 * 1) with 2. rewrite Heq, checked_subN_Some by lia. f_equal. lia.
Qed.

Lemma narrow_fst shift t s n s' n' : narrow shift t s n = Some (s', n') →
  checked_subN s (N.shiftr (N.land (wrapping_sub64 t n) 256) shift) = Some s'.
Proof. unfold narrow. destruct (checked_subN s _); simpl; [|done]. by destruct (checked_subN n _); simpl; intros [= ->]. Qed.

Section select.
Context (B : list N) (HB : Forall (λ x, x <= 1) B) (Hlen : length B = 64%nat).

Let A := sum2 B.
Let B4 := sum2 A.
Let C := sum2 B4.
Let D := sum2 C.

Lemma lengths : length A = 32%nat ∧ length B4 = 16%nat ∧ length C = 8%nat ∧ length D = 4%nat.
Proof. unfold D, C, B4, A. by rewrite !length_sum2, Hlen. Qed.

Lemma sizes : Forall (λ x, x <= 2) A ∧ Forall (λ x, x <= 4) B4 ∧ Forall (λ x, x <= 8) C ∧ Forall (λ x, x <= 16) D.
Proof.
  pose proof (sum2_le B 1 HB) as HA. pose proof (sum2_le _ _ HA) as HB4.
  pose proof (sum2_le _ _ HB4) as HC. pose proof (sum2_le _ _ HC) as HD. done.
Qed.

Lemma count_nibbles :
  checked_add u64_max (N.land (nums 2 A) (u64_div 5)) (N.land (N.shiftr (nums 2 A) 2) (u64_div 5)) =
    Some (nums 4 B4).
Proof.
  destruct lengths as (HlA & HlB & _), sizes as (HsA & HsB & _).
  assert (N.land (nums 2 A) (u64_div 5) + N.land (N.shiftr (nums 2 A) 2) (u64_div 5) = nums 4 B4) as Heq.
  { apply (add_halves 2 A); [by eapply le_digits|rewrite HlA; by exists 16%nat|by rewrite HlA]. }
  rewrite checked_add_Some; [by rewrite Heq|]. rewrite Heq. pose proof (nums_bound 4 B4) as Hb.
  rewrite HlB in Hb. apply N.lt_succ_r. apply Hb. by eapply le_digits.
Qed.

Lemma count_bytes : ∃ c, checked_add u64_max (nums 4 B4) (N.shiftr (nums 4 B4) 4) = Some c ∧
  N.land c (u64_div 0x11) = nums 8 C.
Proof.
  destruct lengths as (_ & HlB & _), sizes as (_ & HsB & _).
  destruct (add_then_mask 4 B4 (u64_div 0x11)) with (m := 4) as [Hm Hb];
    [by eapply le_digits|rewrite HlB; by exists 8%nat|by rewrite HlB|done|done|].
  rewrite HlB in Hb. eexists. split; [apply checked_add_Some; by apply N.lt_succ_r|done].
Qed.

Lemma count_words : ∃ d, checked_add u64_max (nums 8 C) (N.shiftr (nums 8 C) 8) = Some d ∧
  N.land d (u64_div 0x101) = nums 16 D.
Proof.
  destruct lengths as (_ & _ & HlC & _), sizes as (_ & _ & HsC & _).
  destruct (add_then_mask 8 C (u64_div 0x101)) with (m := 8) as [Hm Hb];
    [by eapply le_digits|rewrite HlC; by exists 4%nat|by rewrite HlC|done|done|].
  rewrite HlC in Hb. eexists. split; [apply checked_add_Some; by apply N.lt_succ_r|done].
Qed.

(** The upper half, with the count of the top field also sixteen bits up. *)
Lemma count_top : ∃ f, f <= 16 ∧
  checked_add u64_max (N.shiftr (nums 16 D) 32) (N.shiftr (nums 16 D) 48) = Some (seg D 2 2 + 65536 * f).
Proof.
  destruct lengths as (_ & _ & _ & HlD), sizes as (_ & _ & _ & HsD).
  destruct D as [|f0 [|f1 [|f2 [|f3 [|]]]]]; try done. clear HlD.
  assert (f0 <= 16 ∧ f1 <= 16 ∧ f2 <= 16 ∧ f3 <= 16) as (H0 & H1 & H2 & H3)
    by (rewrite !Forall_cons in HsD; naive_solver).
  exists f3. split; [done|]. cbn [nums]. change (2 ^ 16) with 65536.
  assert (N.shiftr (f0 + 65536 * (f1 + 65536 * (f2 + 65536 * (f3 + 65536 * 0)))) 32 = f2 + 65536 * f3) as ->.
  { replace (f0 + _) with ((f0 + 65536 * f1) + 2 ^ 32 * (f2 + 65536 * f3)) by (change (2 ^ 32) with 4294967296; lia).
    apply shiftr_split. change (2 ^ 32) with 4294967296. lia. }
  assert (N.shiftr (f0 + 65536 * (f1 + 65536 * (f2 + 65536 * (f3 + 65536 * 0)))) 48 = f3) as ->.
  { replace (f0 + _) with ((f0 + 65536 * f1 + 4294967296 * f2) + 2 ^ 48 * f3)
      by (change (2 ^ 48) with 281474976710656; lia).
    apply shiftr_split. change (2 ^ 48) with 281474976710656. lia. }
  rewrite checked_add_Some by (unfold u64_max; lia). f_equal. unfold seg. simpl. lia.
Qed.

(** A stage whose count is a field of the word of counts [l]. *)
Lemma stage_field k m mask (l : list N) (V q : nat) n0 n shift :
  mask = N.ones m → located B n0 (2 * V) q n → (1 <= V)%nat → k = N.of_nat V → digits k l → m <= k → Forall (λ x, x < 2 ^ m) l →
  (length l * V = 64)%nat → (∀ i, (i < length l)%nat → seg l i 1 = seg B (V * i) V) →
  N.shiftr 256 shift = k →
  ∃ t q' n', field (nums k l) (N.of_nat (2 * V * q)) k mask = Some t ∧
    narrow shift t (N.of_nat (2 * V * q)) n = Some (N.of_nat (V * q'), n') ∧ located B n0 V q' n'.
Proof.
  intros -> Hloc HV Hk Hl Hm Hlm Hlen' Hseg Hshift. pose proof Hloc as (Hq & Hs & _).
  assert (2 * q - 1 < length l)%nat as Hi by nia.
  destruct (lookup_lt_is_Some_2 l (2 * q - 1) Hi) as [x Hx].
  destruct (stage B n0 V q n 0 x shift) as (q' & n' & Hn & Hl'); [done|done| |done|by rewrite Hshift|].
  { rewrite <-Hseg by done. symmetry. by apply seg_one. }
  rewrite N.mul_0_r, N.add_0_r in Hn. exists x, q', n'. split; [|done].
  replace (2 * V * q)%nat with (V * (2 * q))%nat by lia.
  apply field_spec; [done|done|lia|lia|done|done|done|by eapply Forall_lookup_1 in Hlm].
Qed.

Lemma seg_levels :
  (∀ i, (i < 4)%nat → seg D i 1 = seg B (16 * i) 16) ∧ (∀ i, (i < 8)%nat → seg C i 1 = seg B (8 * i) 8) ∧
  (∀ i, (i < 16)%nat → seg B4 i 1 = seg B (4 * i) 4) ∧ (∀ i, (i < 32)%nat → seg A i 1 = seg B (2 * i) 2) ∧
  seg D 2 2 = seg B 32 32.
Proof.
  destruct lengths as (HlA & HlB & HlC & HlD). unfold D, C, B4, A in *. split_and!; intros; rewrite !seg_sum2 by lia.
  all: f_equal; lia.
Qed.

Lemma select_spec n : 1 <= n <= nsum B → ∃ q : nat,
  (1 <= q <= 64)%nat ∧ B !! (q - 1)%nat = Some 1 ∧ nsum (drop q B) + 1 = n ∧
  (t ← checked_add u64_max (N.shiftr (nums 16 D) 32) (N.shiftr (nums 16 D) 48);
   '(s, n) ← narrow 3 t 64 n;
   t ← field (nums 16 D) s 16 0xff;
   '(s, n) ← narrow 4 t s n;
   t ← field (nums 8 C) s 8 0xf;
   '(s, n) ← narrow 5 t s n;
   t ← field (nums 4 B4) s 4 0x7;
   '(s, n) ← narrow 6 t s n;
   t ← field (nums 2 A) s 2 0x3;
   '(s, n) ← narrow 7 t s n;
   t ← field (nums 1 B) s 1 0x1;
   s ← checked_subN s (N.shiftr (N.land (wrapping_sub64 t n) 256) 8);
   r ← checked_subN 65 s;
   checked_subN r 1) = Some (N.of_nat (64 - q)).
Proof.
  intros Hn. destruct lengths as (HlA & HlB & HlC & HlD), sizes as (HsA & HsB & HsC & HsD).
  destruct seg_levels as (SD & SC & SB & SA & STop).
  destruct count_top as (f & Hf & ->). cbn [mbind option_bind].
  destruct (stage B n 32 1 n f (seg D 2 2) 3) as (q1 & n1 & Hn1 & L1); [done| |done|done|done|].
  { split_and!; [lia|lia| |lia|].
    - rewrite drop_ge by (simpl; lia). done.
    - change (2 * 32)%nat with 64%nat. change (64 * (1 - 1))%nat with 0%nat. unfold seg.
      rewrite drop_0, take_ge by lia. apply Hn. }
  change (N.of_nat (2 * 32 * 1)) with 64 in Hn1. rewrite Hn1. cbn [mbind option_bind].
  destruct (stage_field 16 8 0xff D 16 q1 n n1 4) as (t2 & q2 & n2 & Hf2 & Hn2 & L2);
    [done|done|lia|done|by eapply le_digits|done|by eapply le_digits|lia|by rewrite HlD|done|].
  change (2 * 16)%nat with 32%nat in *.
  rewrite Hf2. cbn [mbind option_bind]. rewrite Hn2. cbn [mbind option_bind].
  destruct (stage_field 8 4 0xf C 8 q2 n n2 5) as (t3 & q3 & n3 & Hf3 & Hn3 & L3);
    [done|done|lia|done|by eapply le_digits|done|by eapply le_digits|lia|by rewrite HlC|done|].
  change (2 * 8)%nat with 16%nat in *.
  rewrite Hf3. cbn [mbind option_bind]. rewrite Hn3. cbn [mbind option_bind].
  destruct (stage_field 4 3 0x7 B4 4 q3 n n3 6) as (t4 & q4 & n4 & Hf4 & Hn4 & L4);
    [done|done|lia|done|by eapply le_digits|done|by eapply le_digits|lia|by rewrite HlB|done|].
  change (2 * 4)%nat with 8%nat in *.
  rewrite Hf4. cbn [mbind option_bind]. rewrite Hn4. cbn [mbind option_bind].
  destruct (stage_field 2 2 0x3 A 2 q4 n n4 7) as (t5 & q5 & n5 & Hf5 & Hn5 & L5);
    [done|done|lia|done|by eapply le_digits|done|by eapply le_digits|lia|by rewrite HlA|done|].
  change (2 * 2)%nat with 4%nat in *.
  rewrite Hf5. cbn [mbind option_bind]. rewrite Hn5. cbn [mbind option_bind].
  destruct (stage_field 1 1 0x1 B 1 q5 n n5 8) as (t6 & q6 & n6 & Hf6 & Hn6 & L6);
    [done|done|lia|done|by eapply le_digits|done|by eapply le_digits|lia| |done|].
  { intros i _. f_equal. lia. }
  change (2 * 1)%nat with 2%nat in *.
  rewrite Hf6. cbn [mbind option_bind].
  (* one bit is left, and it is the one *)
  destruct L6 as (Hq & Hs & Hsum & Hn'). rewrite !Nat.mul_1_l in *.
  assert (Hlt : (q6 - 1 < length B)%nat) by lia. destruct (lookup_lt_is_Some_2 B _ Hlt) as [x Hx].
  rewrite (seg_one B _ x Hx) in Hn'. pose proof HB as HB'. rewrite Forall_lookup in HB'. specialize (HB' _ _ Hx).
  simpl in HB'. assert (x = 1) as -> by lia. assert (n6 = 1) as -> by lia.
  exists q6. split; [lia|]. split; [done|]. split; [done|].
  rewrite (narrow_fst _ _ _ _ _ _ Hn6). cbn [mbind option_bind].
  rewrite checked_subN_Some by lia. cbn [mbind option_bind]. rewrite checked_subN_Some by lia. f_equal. lia.
Qed.
End select.

(** ** Counting and selecting in lists of bits *)

Close Scope N_scope.

Definition count_true (l : list bool) : nat := sum_list (map Nat.b2n l).

Lemma count_true_app l k : count_true (l ++ k) = count_true l + count_true k.
Proof. unfold count_true. rewrite map_app. induction l as [|b l IH]; simpl; lia. Qed.

Lemma count_true_reverse l : count_true (reverse l) = count_true l.
Proof. induction l as [|b l IH]; [done|]. rewrite reverse_cons, count_true_app, IH. unfold count_true. simpl. lia. Qed.

Lemma nsum_count_true l : nsum (map N.b2n l) = N.of_nat (count_true l).
Proof.
  induction l as [|b l IH]; [done|]. simpl. rewrite IH. unfold count_true. simpl. destruct b; simpl; lia.
Qed.

Lemma length_to_bits width v : length (to_bits width v) = width.
Proof. unfold to_bits. by rewrite length_map, length_seq. Qed.

Lemma lookup_to_bits width v i : i < width → to_bits width v !! i = Some (N.testbit v (N.of_nat i)).
Proof. intros Hi. unfold to_bits. rewrite list_lookup_fmap. by rewrite lookup_seq_lt. Qed.

Lemma to_bits_S width v : to_bits (S width) v = N.odd v :: to_bits width (N.div2 v).
Proof.
  unfold to_bits. simpl. rewrite N.bit0_odd. f_equal. rewrite <-seq_shift, map_map. apply map_ext.
  intros i. rewrite Nat2N.inj_succ. by rewrite N.testbit_div2.
Qed.

Lemma count_ones_bits width v : (v < 2 ^ N.of_nat width)%N → count_ones v = count_true (to_bits width v).
Proof.
  revert v. induction width as [|width IH]; intros v Hv; [by replace v with 0%N by (simpl in Hv; lia)|].
  rewrite to_bits_S. unfold count_true. simpl. fold (count_true (to_bits width (N.div2 v))). rewrite <-IH.
  - by destruct v as [|[p|p|]].
  - rewrite Nat2N.inj_succ, N.pow_succ_r' in Hv. pose proof (N.div2_odd v). destruct (N.odd v); simpl in *; lia.
Qed.

(** [select l n i]: the [n]-th true bit, counting from one, is bit [i]. *)
Definition select (l : list bool) (n i : nat) : Prop :=
  l !! i = Some true ∧ S (count_true (take i l)) = n.

Lemma nth_set_bit_u64_spec v n : (v < 2 ^ 64)%N → 1 <= n <= count_ones v →
  ∃ i, nth_set_bit_u64 v (N.of_nat n) = Some (N.of_nat i) ∧ i < 64 ∧ select (to_bits 64 v) n i.
Proof.
  intros Hv Hn. rewrite (count_ones_bits 64) in Hn by done. set (V := to_bits 64 v) in *.
  set (B := map N.b2n (reverse V)). assert (length V = 64) as HlenV by apply length_to_bits.
  assert (length B = 64) as HlenB by (unfold B; by rewrite length_map, length_reverse).
  assert (Forall (λ x, (x <= 1)%N) B) as HB.
  { unfold B. apply Forall_forall. intros x Hx. apply list_elem_of_fmap in Hx as ([] & -> & _); done. }
  unfold nth_set_bit_u64, reverse_bits64. fold V. rewrite bits_of_nums. fold B. cbv zeta.
  rewrite count_pairs by (done || by eapply le_digits). cbn [mbind option_bind].
  rewrite count_nibbles by done. cbn [mbind option_bind].
  destruct (count_bytes B HB HlenB) as (c & -> & Hc). cbn [mbind option_bind]. rewrite Hc.
  destruct (count_words B HB HlenB) as (d & -> & Hd). cbn [mbind option_bind]. rewrite Hd.
  destruct (select_spec B HB HlenB (N.of_nat n)) as (q & Hq & Hbit & Hsum & Hrun).
  { unfold B. rewrite nsum_count_true, count_true_reverse. lia. }
  rewrite Hrun. exists (64 - q). split; [done|]. split; [lia|]. split.
  - unfold B in Hbit. rewrite list_lookup_fmap in Hbit.
    destruct (reverse V !! (q - 1)) as [b|] eqn:Hb; [|done]. rewrite reverse_lookup in Hb by lia.
    replace (length V - S (q - 1)) with (64 - q) in Hb by lia. rewrite Hb. by destruct b.
  - unfold B in Hsum. rewrite skipn_map, nsum_count_true in Hsum.
    rewrite <-(take_drop (64 - q) V) in Hsum at 1. rewrite reverse_app in Hsum.
    rewrite drop_app_length' in Hsum by (rewrite length_reverse, length_drop; lia).
    rewrite count_true_reverse in Hsum. lia.
Qed.

(** A shorter list of bits: the rest of the word is clear. *)
Lemma to_bits_bits_of width l : length l <= width →
  to_bits width (bits_of id l) = l ++ replicate (width - length l) false.
Proof.
  intros Hlen. apply list_eq. intros i. destruct (decide (i < width)) as [Hi|Hi].
  - rewrite lookup_to_bits, testbit_bits_of by done. destruct (l !! i) as [b|] eqn:Hb.
    + rewrite lookup_app_l by (by eapply lookup_lt_Some). done.
    + apply lookup_ge_None in Hb. rewrite lookup_app_r, lookup_replicate_2 by lia. done.
  - rewrite !lookup_ge_None_2; [done|rewrite length_app, length_replicate; lia|rewrite length_to_bits; lia].
Qed.

Lemma bits_of_lt l : (bits_of id l < 2 ^ N.of_nat (length l))%N.
Proof.
  induction l as [|b l IH]; [done|]. cbn [bits_of length]. rewrite Nat2N.inj_succ, N.pow_succ_r'.
  destruct b; cbn [id N.b2n]; lia.
Qed.

Lemma count_true_false n : count_true (replicate n false) = 0.
Proof. by induction n. Qed.

Lemma count_ones_bits_of l : count_ones (bits_of id l) = count_true l.
Proof.
  rewrite (count_ones_bits (length l)) by apply bits_of_lt.
  by rewrite to_bits_bits_of, Nat.sub_diag, app_nil_r by done.
Qed.

Lemma to_bits_app v : (v < 2 ^ 128)%N →
  to_bits 128 v = to_bits 64 (v mod 2 ^ 64)%N ++ to_bits 64 (N.shiftr v 64 mod 2 ^ 64)%N.
Proof.
  intros Hv. apply list_eq. intros i. destruct (decide (i < 128)) as [Hi|Hi].
  - rewrite lookup_to_bits by done. destruct (decide (i < 64)) as [Hi'|Hi'].
    + rewrite lookup_app_l, lookup_to_bits by (rewrite ?length_to_bits; done).
      rewrite N.mod_pow2_bits_low by lia. done.
    + rewrite lookup_app_r, lookup_to_bits by (rewrite length_to_bits; lia).
      rewrite length_to_bits, N.mod_pow2_bits_low, N.shiftr_spec' by lia. do 2 f_equal. lia.
  - rewrite !lookup_ge_None_2; [done|rewrite length_app, !length_to_bits; lia|rewrite length_to_bits; lia].
Qed.

Lemma select_app_l l k n i : select l n i → select (l ++ k) n i.
Proof.
  intros [Hi Hn]. apply lookup_lt_Some in Hi as Hlt. split; [by rewrite lookup_app_l|].
  by rewrite take_app_le by lia.
Qed.

Lemma select_app_r l k n i : select k n i → select (l ++ k) (count_true l + n) (length l + i).
Proof.
  intros [Hi Hn]. split; [rewrite lookup_app_r by lia; by rewrite Nat.add_comm, Nat.add_sub|].
  rewrite take_app_ge, count_true_app by lia. replace (length l + i - length l) with i by lia. lia.
Qed.

(** The selected bit is the only one. *)
Lemma select_unique l n i j : select l n i → select l n j → i = j.
Proof.
  assert (Hlt : ∀ i j, l !! i = Some true → i < j → count_true (take i l) < count_true (take j l)).
  { clear. intros i j Hi Hij. replace j with (i + S (j - S i)) by lia. rewrite <-take_take_drop, count_true_app.
    rewrite (drop_S l true i) by done. unfold count_true at 3. simpl. lia. }
  intros [Hi Hni] [Hj Hnj]. destruct (Nat.lt_trichotomy i j) as [H|[H|H]]; [|done|].
  - specialize (Hlt i j Hi H). lia.
  - specialize (Hlt j i Hj H). lia.
Qed.

Lemma nth_set_bit_select v n : (v < 2 ^ 128)%N → 1 <= n <= count_ones v →
  ∃ i, nth_set_bit v n = Some i ∧ i < 128 ∧ select (to_bits 128 v) n i.
Proof.
  intros Hv Hn. rewrite (count_ones_bits 128), to_bits_app, count_true_app in Hn by done.
  unfold nth_set_bit. rewrite to_bits_app by done.
  set (low := (v mod 2 ^ 64)%N) in *. set (high := (N.shiftr v 64 mod 2 ^ 64)%N) in *.
  assert (low < 2 ^ 64 ∧ high < 2 ^ 64)%N as [Hlow Hhigh] by (split; by apply N.mod_lt).
  rewrite <-!(count_ones_bits 64) in Hn by done.
  destruct (Nat.ltb_spec (count_ones low) n).
  - destruct (nth_set_bit_u64_spec high (n - count_ones low)) as (i & Hi & Hi64 & Hsel); [done|lia|].
    rewrite Hi. cbn [mbind option_bind]. rewrite Nat2N.id. exists (64 + i). split; [done|]. split; [lia|].
    apply (select_app_r (to_bits 64 low)) in Hsel. rewrite length_to_bits, <-count_ones_bits in Hsel by done.
    by replace (count_ones low + (n - count_ones low)) with n in Hsel by lia.
  - destruct (nth_set_bit_u64_spec low n) as (i & Hi & Hi64 & Hsel); [done|lia|].
    rewrite Hi. cbn [mbind option_bind]. rewrite Nat2N.id. exists i. split; [done|]. split; [lia|]. by apply select_app_l.
Qed.

(** ** Property *)

(** C29. The branch-free select is correct: for every 128-bit word and every [n]
    from one to the number of its set bits, [nth_set_bit] returns the position
    of the [n]-th set bit, and no subtraction of the parallel count or the
    binary search underflows. *)
Theorem nth_set_bit_selects (v : N) (n : nat) (Hv : (v < 2 ^ 128)%N) (Hn : 1 <= n <= count_ones v) :
  ∃ i, nth_set_bit v n = Some i ∧ N.testbit v (N.of_nat i) = true ∧
    count_ones (v mod 2 ^ N.of_nat i) = n - 1.
Proof.
  destruct (nth_set_bit_select v n Hv Hn) as (i & Hi & Hi128 & Hbit & Hcount). exists i. split; [done|].
  rewrite lookup_to_bits in Hbit by done. injection Hbit as Hbit. split; [done|].
  rewrite (count_ones_bits i) by (by apply N.mod_lt, N.pow_nonzero).
  rewrite <-Hcount. simpl. rewrite Nat.sub_0_r. f_equal. apply list_eq. intros j.
  destruct (decide (j < i)) as [Hj|Hj].
  - rewrite lookup_to_bits, N.mod_pow2_bits_low by (done || lia).
    rewrite lookup_take_lt, lookup_to_bits by lia. done.
  - rewrite !lookup_ge_None_2; [done|rewrite length_take; lia|rewrite length_to_bits; lia].
Qed.

Lemma nth_set_bit_selects_witness :
  let v := (2 ^ 3 + 2 ^ 17 + 2 ^ 64 + 2 ^ 127)%N in
  (v < 2 ^ 128)%N ∧ 1 <= 3 <= count_ones v ∧
  ∃ i, nth_set_bit v 3 = Some i ∧ N.testbit v (N.of_nat i) = true ∧ count_ones (v mod 2 ^ N.of_nat i) = 3 - 1.
Proof.
  split; [by vm_compute|]. split; [vm_compute; lia|].
  apply (nth_set_bit_selects (2 ^ 3 + 2 ^ 17 + 2 ^ 64 + 2 ^ 127) 3); [by vm_compute|vm_compute; lia].
Defined.
