(* ===== verification/Chunk.v ===== *)
(** * Chunks ([crates/rope/src/chunk.rs])

    The leaves of a rope: at most 128 bytes of text and four bitmaps that mark,
    for each byte, whether a character starts there, how many UTF-16 units it
    takes, and the newlines and tabs.  All positions are computed from the
    bitmaps, without reading the text. *)

From S2P Require Import Prelude Utf8 Points Lines TextSummary BitSelect SumTree.

(** ** Bitmaps: [u128] *)

Definition BITS : nat := 128.
Definition MAX_BASE : nat := 128.
Definition BITMAP_MAX : N := N.ones 128.
#[global] Arguments BITS : simpl never.
#[global] Arguments MAX_BASE : simpl never.
#[global] Arguments BITMAP_MAX : simpl never.

(** [u128::unbounded_shl], [unbounded_shr] *)
Definition unbounded_shl (v : N) (offset : N) : N :=
  if (offset <? 128)%N then (N.shiftl v offset mod 2 ^ 128)%N else 0%N.
Definition unbounded_shr (v : N) (offset : N) : N := if (offset <? 128)%N then N.shiftr v offset else 0%N.
(** [<<] and [>>]: panic when the width is reached *)
Definition shl (v : N) (offset : nat) : option N :=
  _ ← rassert (offset <? 128); Some (N.shiftl v (N.of_nat offset) mod 2 ^ 128)%N.
Definition shr (v : N) (offset : nat) : option N :=
  _ ← rassert (offset <? 128); Some (N.shiftr v (N.of_nat offset)).
(** [u128::wrapping_sub], [!] *)
Definition wrapping_sub (a b : N) : N := ((a + 2 ^ 128 - b) mod 2 ^ 128)%N.
Definition bitmap_not (v : N) : N := N.lnot v 128.
Definition leading_zeros (v : N) : nat := BITS - N.to_nat (N.size v).
Fixpoint trailing_zeros_pos (p : positive) : nat :=
  match p with xO p => S (trailing_zeros_pos p) | _ => 0 end.
Definition trailing_zeros (v : N) : nat := match v with N0 => BITS | Npos p => trailing_zeros_pos p end.
(** [u128::from_le_bytes] *)
Definition from_le_bytes (bytes : list N) : N := nums 8 bytes.

Definition saturating_shl_mask (offset : N) : N := wrapping_sub (unbounded_shl 1 offset) 1.
Definition saturating_shr_mask (offset : N) : N := bitmap_not (unbounded_shr BITMAP_MAX offset).

(** [struct ChunkSlice], and [struct Chunk] with an owned text *)
Record ChunkSlice := mkChunkSlice {
  chars : N;
  chars_utf16 : N;
  newlines : N;
  tabs : N;
  text : str;
}.
Record Chunk := mkChunk {
  chunk_chars : N;
  chunk_chars_utf16 : N;
  chunk_newlines : N;
  chunk_tabs : N;
  chunk_text : str;
}.

(** [ArrayString<128>::push_str(..).unwrap()] *)
Definition array_push_str (buf text : str) : option str :=
  _ ← rassert (Str.len buf + Str.len text <=? MAX_BASE); Some (buf ++ text).

(** [a.leading_zeros()] as the argument of a shift *)
Definition lz (v : N) : N := N.of_nat (leading_zeros v).
Definition tz (v : N) : N := N.of_nat (trailing_zeros v).

(** [debug_panic!]: panics with debug assertions. *)
Definition debug_panic {A} (_ : A) : option A := None.

Module ChunkSlice.
Implicit Types self : ChunkSlice.

Definition empty : ChunkSlice := mkChunkSlice 0 0 0 0 [].

Definition is_empty self : bool := match text self with [] => true | _ => false end.

Definition len self : nat := Str.len (text self).

Definition is_char_boundary self (offset : nat) : bool :=
  negb (N.land (unbounded_shl 1 (as_u32 offset)) (chars self) =? 0)%N || (offset =? Str.len (text self)).

(** [Into<Chunk>] *)
Definition into self : option Chunk :=
  _ ← rassert (Str.len (text self) <=? MAX_BASE);
  Some (mkChunk (chars self) (chars_utf16 self) (newlines self) (tabs self) (text self)).

Definition split_at self (mid : nat) : option (ChunkSlice * ChunkSlice) :=
  if mid =? MAX_BASE then Some (self, empty)
  else
    bit ← shl 1 mid;
    mask ← checked_subN bit 1;
    '(left_text, right_text) ← Str.split_at (text self) mid;
    right_chars ← shr (chars self) mid;
    right_chars_utf16 ← shr (chars_utf16 self) mid;
    right_newlines ← shr (newlines self) mid;
    right_tabs ← shr (tabs self) mid;
    Some (mkChunkSlice (N.land (chars self) mask) (N.land (chars_utf16 self) mask)
            (N.land (newlines self) mask) (N.land (tabs self) mask) left_text,
          mkChunkSlice right_chars right_chars_utf16 right_newlines right_tabs right_text).

(** The bounds of [slice], moved to character boundaries. *)
Definition slice_bounds self (start end_ : nat) : nat * nat :=
  let start := if is_char_boundary self start then start else Str.ceil_char_boundary (text self) start in
  let end_ :=
    if is_char_boundary self end_ then end_
    else if end_ <? start then start else Str.floor_char_boundary (text self) end_ in
  (start, end_).

Definition slice self (start end_ : nat) : option ChunkSlice :=
  if start =? MAX_BASE then Some empty
  else
    let '(start, end_) := slice_bounds self start end_ in
    let mask := wrapping_sub (unbounded_shl 1 (as_u32 end_)) 1 in
    chars ← shr (N.land (chars self) mask) start;
    chars_utf16 ← shr (N.land (chars_utf16 self) mask) start;
    newlines ← shr (N.land (newlines self) mask) start;
    tabs ← shr (N.land (tabs self) mask) start;
    text ← Str.slice (text self) start end_;
    Some (mkChunkSlice chars chars_utf16 newlines tabs text).

Definition len_utf16 self : OffsetUtf16 := OffsetUtf16.mk (count_ones (chars_utf16 self)).

Definition lines self : option Point :=
  let row := N.of_nat (count_ones (newlines self)) in
  unused ← checked_subN (N.of_nat BITS) (as_u32 (Str.len (text self)));
  column ← checked_subN (lz (newlines self)) unused;
  Some (Point.new row column).

Definition first_line_chars self : N :=
  N.of_nat (count_ones (N.land (chars self) (saturating_shl_mask (tz (newlines self))))).
Definition last_line_chars self : N :=
  N.of_nat (count_ones (N.land (chars self) (saturating_shr_mask (lz (newlines self))))).
Definition last_line_len_utf16 self : N :=
  N.of_nat (count_ones (N.land (chars_utf16 self) (saturating_shr_mask (lz (newlines self))))).

(** The loop of [longest_row], and the statements after it.  Every iteration
    removes a newline.  Returns the total and the longest row; [u8] counts. *)
Fixpoint longest_row_loop (fuel : nat) (chars newlines : N) (total_chars : nat)
    (row longest_row longest_row_chars : N) : option (nat * (N * N)) :=
  if (0 <? newlines)%N then
    match fuel with
    | 0 => None
    | S fuel =>
        let newline_ix := trailing_zeros newlines in
        bit ← shl 1 newline_ix;
        mask ← checked_subN bit 1;
        let row_chars := (N.of_nat (count_ones (N.land chars mask)) mod 256)%N in
        let total_chars := total_chars + N.to_nat row_chars in
        let '(longest_row, longest_row_chars) :=
          if (longest_row_chars <? row_chars)%N then (row, row_chars) else (longest_row, longest_row_chars) in
        newlines ← shr newlines newline_ix;
        newlines ← shr newlines 1;
        chars ← shr chars newline_ix;
        chars ← shr chars 1;
        row ← checked_add u32_max row 1;
        longest_row_loop fuel chars newlines (total_chars + 1) row longest_row longest_row_chars
    end
  else
    let row_chars := (N.of_nat (count_ones chars) mod 256)%N in
    let total_chars := total_chars + N.to_nat row_chars in
    Some (total_chars, if (longest_row_chars <? row_chars)%N then (row, row_chars) else (longest_row, longest_row_chars)).

Definition longest_row self : option (nat * (N * N)) :=
  longest_row_loop (Str.len (text self)) (chars self) (newlines self) 0 0 0 0.

Definition text_summary self : option TextSummary :=
  '(chars, (longest_row, longest_row_chars)) ← longest_row self;
  lines ← lines self;
  Some (mkTextSummary (len self) chars (len_utf16 self) lines (first_line_chars self)
          (last_line_chars self) (last_line_len_utf16 self) longest_row longest_row_chars).

Definition offset_to_point self (offset : nat) : option Point :=
  let mask := wrapping_sub (unbounded_shl 1 (as_u32 offset)) 1 in
  let row := N.of_nat (count_ones (N.land (newlines self) mask)) in
  newline_ix ← checked_subN (N.of_nat BITS) (lz (N.land (newlines self) mask));
  column ← checked_subN (N.of_nat offset) newline_ix;
  Some (Point.new row (as_u32 (N.to_nat column))).

Definition offset_range_for_row self (row : N) : option (nat * nat) :=
  row_start ←
    (if (0 <? row)%N then ix ← nth_set_bit (newlines self) (N.to_nat row); Some (ix + 1) else Some 0);
  row_len ←
    (if row_start =? MAX_BASE then Some 0%N
     else
       rest ← shr (newlines self) row_start;
       left ← checked_subN (N.of_nat (Str.len (text self))) (N.of_nat row_start);
       Some (N.min (tz rest) (as_u32 (N.to_nat left))));
  Some (row_start, row_start + N.to_nat row_len).

Definition point_to_offset self (point : Point) : option nat :=
  lines ← lines self;
  if (Point.row lines <? Point.row point)%N then debug_panic (len self)
  else
    '(start, end_) ← offset_range_for_row self (Point.row point);
    if (as_u32 (end_ - start) <? Point.column point)%N then debug_panic end_
    else Some (start + N.to_nat (Point.column point)).

(** [assert_char_boundary::<PANIC>]: logs unless it panics. *)
Definition assert_char_boundary (panic : bool) self (offset : nat) : option bool :=
  if is_char_boundary self offset then Some true else if panic then None else Some false.

Definition floor_char_boundary self (index : nat) : nat := Str.floor_char_boundary (text self) index.

Definition offset_to_offset_utf16 self (offset : nat) : OffsetUtf16 :=
  let mask := wrapping_sub (unbounded_shl 1 (as_u32 offset)) 1 in
  OffsetUtf16.mk (count_ones (N.land (chars_utf16 self) mask)).

Definition point_to_offset_utf16 self (point : Point) : option OffsetUtf16 :=
  lines ← lines self;
  if (Point.row lines <? Point.row point)%N then debug_panic (len_utf16 self)
  else
    offset ← point_to_offset self point;
    Some (offset_to_offset_utf16 self offset).

Definition offset_utf16_to_offset self (target : OffsetUtf16) : option nat :=
  if OffsetUtf16.offset target =? 0 then Some 0
  else
    ix ← nth_set_bit (chars_utf16 self) (OffsetUtf16.offset target);
    let ix := ix + 1 in
    if ix =? MAX_BASE then Some MAX_BASE
    else
      rest ← shr (chars_utf16 self) ix;
      left ← checked_subN (N.of_nat (Str.len (text self))) (N.of_nat ix);
      Some (ix + Nat.min (trailing_zeros rest) (N.to_nat left)).

Definition offset_to_point_utf16 self (offset : nat) : option PointUtf16 :=
  let mask := saturating_shl_mask (as_u32 offset) in
  let row := N.of_nat (count_ones (N.land (newlines self) (saturating_shl_mask (as_u32 offset)))) in
  newline_ix ← checked_subN (N.of_nat BITS) (lz (N.land (newlines self) mask));
  column ←
    (if (N.to_nat newline_ix =? MAX_BASE) then Some 0
     else bits ← shr (N.land (chars_utf16 self) mask) (N.to_nat newline_ix); Some (count_ones bits));
  Some (PointUtf16.new row (N.of_nat column)).

Definition point_to_point_utf16 self (point : Point) : option PointUtf16 :=
  offset ← point_to_offset self point; offset_to_point_utf16 self offset.

(** [while !text.is_char_boundary(offset) { offset -= 1; }]: bounded by the
    offset. *)
Fixpoint retreat (text : str) (offset : nat) : option nat :=
  if Str.is_char_boundary text offset then Some offset
  else match offset with 0 => None | S offset => retreat text offset end.

(** [while !text.is_char_boundary(offset) { offset += 1; }] *)
Fixpoint advance (fuel : nat) (text : str) (offset : nat) : option nat :=
  if Str.is_char_boundary text offset then Some offset
  else match fuel with 0 => None | S fuel => advance fuel text (offset + 1) end.

Definition point_utf16_to_offset self (point : PointUtf16) (clip : bool) : option nat :=
  lines ← lines self;
  if (Point.row lines <? PointUtf16.row point)%N then
    (if clip then Some (len self) else debug_panic (len self))
  else
    '(start, end_) ← offset_range_for_row self (PointUtf16.row point);
    line ← slice self start end_;
    if (last_line_len_utf16 line <? PointUtf16.column point)%N then
      (if clip then Some end_ else debug_panic end_)
    else if (0 <? PointUtf16.column point)%N then
      column ← offset_utf16_to_offset line (OffsetUtf16.mk (N.to_nat (PointUtf16.column point)));
      let offset := start + column in
      if Str.is_char_boundary (text self) offset then Some offset
      else
        offset ← (match offset with 0 => None | S offset => retreat (text self) offset end);
        if clip then Some offset else debug_panic offset
    else Some start.

Definition unclipped_point_utf16_to_point self (point : Unclipped PointUtf16) : option Point :=
  let point := Unclipped.inner point in
  max_point ← lines self;
  if (Point.row max_point <? PointUtf16.row point)%N then Some max_point
  else
    '(start, end_) ← offset_range_for_row self (PointUtf16.row point);
    line ← slice self start end_;
    if (PointUtf16.column point =? 0)%N then Some (Point.new (PointUtf16.row point) 0)
    else if (as_u32 (OffsetUtf16.offset (len_utf16 line)) <=? PointUtf16.column point)%N then
      Some (Point.new (PointUtf16.row point) (as_u32 (len line)))
    else
      column ← offset_utf16_to_offset line (OffsetUtf16.mk (N.to_nat (PointUtf16.column point)));
      column ← retreat (text line) column;
      Some (Point.new (PointUtf16.row point) (as_u32 column)).

Definition clip_offset_utf16 self (target : OffsetUtf16) (bias : Bias) : option OffsetUtf16 :=
  if OffsetUtf16.offset target =? 0 then Some (OffsetUtf16.mk 0)
  else if OffsetUtf16.offset (len_utf16 self) <=? OffsetUtf16.offset target then Some (len_utf16 self)
  else
    offset ← offset_utf16_to_offset self target;
    offset ← (match bias with Left => retreat (text self) offset | Right => advance (len self) (text self) offset end);
    Some (offset_to_offset_utf16 self offset).

Definition clip_point_utf16 self (point : Unclipped PointUtf16) (bias : Bias) : option PointUtf16 :=
  let point := Unclipped.inner point in
  max_point ← lines self;
  if (Point.row max_point <? PointUtf16.row point)%N then
    Some (PointUtf16.new (Point.row max_point) (last_line_len_utf16 self))
  else
    '(start, end_) ← offset_range_for_row self (PointUtf16.row point);
    line ← slice self start end_;
    column ← clip_offset_utf16 line (OffsetUtf16.mk (N.to_nat (PointUtf16.column point))) bias;
    Some (PointUtf16.new (PointUtf16.row point) (as_u32 (OffsetUtf16.offset column))).

(** *** [clip_point]

    [is_grapheme_boundary text offset] stands for a [GraphemeCursor] at that
    offset of the text ([unicode_segmentation]); an error is [false]. *)
Section clip_point.
Context (is_grapheme_boundary : str → nat → bool).

Fixpoint clip_loop (fuel : nat) (line : ChunkSlice) (bias : Bias) (column : nat) : option nat :=
  if is_char_boundary line column && is_grapheme_boundary (text line) column then Some column
  else
    column ← (match bias with
              | Left => match column with 0 => None | S column => Some column end
              | Right => Some (column + 1)
              end);
    match fuel with 0 => None | S fuel => clip_loop fuel line bias column end.

Definition clip_point self (point : Point) (bias : Bias) : option Point :=
  max_point ← lines self;
  if (Point.row max_point <? Point.row point)%N then Some max_point
  else
    '(start, end_) ← offset_range_for_row self (Point.row point);
    line ← slice self start end_;
    if (Point.column point =? 0)%N then Some point
    else if (as_u32 (len line) <=? Point.column point)%N then Some (Point.new (Point.row point) (as_u32 (len line)))
    else
      let column := N.to_nat (Point.column point) in
      let bytes := Str.as_bytes (text line) in
      before ← bytes !! (column - 1);
      after ← bytes !! column;
      if (before <? 128)%N && (after <? 128)%N then Some (Point.new (Point.row point) (as_u32 column))
      else
        column ← clip_loop (len line) line bias column;
        Some (Point.new (Point.row point) (as_u32 column)).
End clip_point.
End ChunkSlice.

Module Chunk.
Implicit Types self : Chunk.

(** The inner loop of [new] for one bitmap: [bits |= (test(b) as u8) << ix]. *)
Fixpoint byte_bits (test : N → bool) (ix : nat) (chunk : list N) (bits : N) : N :=
  match chunk with
  | [] => bits
  | b :: chunk =>
      byte_bits test (S ix) chunk (N.lor bits (N.shiftl (N.b2n (test b)) (N.of_nat ix) mod 256))
  end.

(** The outer loop of [new] for one bitmap: fills the bytes of the bitmap
    eight characters at a time.  Writing past the array panics. *)
Fixpoint fill (test : N → bool) (fuel : nat) (bitmap_bytes : list N) (chunk_ix : nat) (bytes : list N) :
    option (list N) :=
  match bytes with
  | [] => Some bitmap_bytes
  | _ :: _ =>
      match fuel with
      | 0 => None
      | S fuel =>
          let chunk := take 8 bytes in
          let rest := drop 8 bytes in
          _ ← rassert (chunk_ix <? length bitmap_bytes);
          fill test fuel (<[chunk_ix := byte_bits test 0 chunk 0]> bitmap_bytes) (chunk_ix + 1) rest
      end
  end.

Definition bitmap_bytes (test : N → bool) (bytes : list N) : option (list N) :=
  fill test (length bytes) (replicate (MAX_BASE / 8) 0%N) 0 bytes.

Definition new (text : str) : option Chunk :=
  text ← array_push_str [] text;
  let bytes := Str.as_bytes text in
  chars_bytes ← bitmap_bytes is_utf8_char_boundary bytes;
  newlines_bytes ← bitmap_bytes (λ b, (b =? 10)%N) bytes;
  tabs_bytes ← bitmap_bytes (λ b, (b =? 9)%N) bytes;
  chars_utf16_bytes ← bitmap_bytes (λ b, (240 <=? b)%N) bytes;
  let chars := from_le_bytes chars_bytes in
  chars_utf16 ← shl (from_le_bytes chars_utf16_bytes) 1;
  Some (mkChunk chars (N.lor chars_utf16 chars) (from_le_bytes newlines_bytes) (from_le_bytes tabs_bytes) text).

Definition as_slice self : ChunkSlice :=
  mkChunkSlice (chunk_chars self) (chunk_chars_utf16 self) (chunk_newlines self) (chunk_tabs self) (chunk_text self).

Definition append self (slice : ChunkSlice) : option Chunk :=
  if ChunkSlice.is_empty slice then Some self
  else
    let base_ix := Str.len (chunk_text self) in
    chars ← shl (chars slice) base_ix;
    chars_utf16 ← shl (chars_utf16 slice) base_ix;
    newlines ← shl (newlines slice) base_ix;
    tabs ← shl (tabs slice) base_ix;
    text ← array_push_str (chunk_text self) (text slice);
    Some (mkChunk (N.lor (chunk_chars self) chars) (N.lor (chunk_chars_utf16 self) chars_utf16)
            (N.lor (chunk_newlines self) newlines) (N.lor (chunk_tabs self) tabs) text).

Definition prepend self (slice : ChunkSlice) : option Chunk :=
  if ChunkSlice.is_empty slice then Some self
  else if ChunkSlice.is_empty (as_slice self) then new (text slice)
  else
    let shift := Str.len (text slice) in
    chars' ← shl (chunk_chars self) shift;
    chars_utf16' ← shl (chunk_chars_utf16 self) shift;
    newlines' ← shl (chunk_newlines self) shift;
    tabs' ← shl (chunk_tabs self) shift;
    new_text ← array_push_str [] (text slice);
    new_text ← array_push_str new_text (chunk_text self);
    Some (mkChunk (N.lor (chars slice) chars') (N.lor (chars_utf16 slice) chars_utf16')
            (N.lor (newlines slice) newlines') (N.lor (tabs slice) tabs') new_text).

Definition push_str self (text : str) : option Chunk :=
  chunk ← new text; append self (as_slice chunk).

Definition prepend_str self (text : str) : option Chunk :=
  chunk ← new text; prepend self (as_slice chunk).

Definition slice self (start end_ : nat) : option ChunkSlice := ChunkSlice.slice (as_slice self) start end_.

Definition is_char_boundary self (offset : nat) : bool :=
  negb (N.land (unbounded_shl 1 (as_u32 offset)) (chunk_chars self) =? 0)%N || (offset =? Str.len (chunk_text self)).

(** The loop of [floor_char_boundary], from [i] down. *)
Fixpoint floor_loop (bytes : list N) (i : nat) : option nat :=
  match i with
  | 0 => Some 0
  | S i' =>
      b ← bytes !! i;
      if is_utf8_char_boundary b then Some i else floor_loop bytes i'
  end.

Definition floor_char_boundary self (index : nat) : option nat :=
  if Str.len (chunk_text self) <=? index then Some (Str.len (chunk_text self))
  else floor_loop (Str.as_bytes (chunk_text self)) index.

(** With debug assertions it panics whatever the const parameter. *)
Definition assert_char_boundary (panic : bool) self (offset : nat) : option bool :=
  if is_char_boundary self offset then Some true else None.
End Chunk.

(** [struct TabPosition] *)
Record TabPosition := mkTabPosition { byte_offset : nat; char_offset : nat }.

Module Tabs.
(** [struct Tabs] *)
Record t := mk { tabs : N; chars : N }.

(** [ChunkSlice::tabs] *)
Definition of_slice (self : ChunkSlice) : t := let 'mkChunkSlice chars _ _ tabs _ := self in mk tabs chars.

(** [impl Iterator] *)
Definition next (self : t) : option (option TabPosition * t) :=
  if (tabs self =? 0)%N then Some (None, self)
  else
    let tab_offset := trailing_zeros (tabs self) in
    bit ← shl 1 tab_offset;
    chars_mask ← checked_subN bit 1;
    let char_offset := count_ones (N.land (chars self) chars_mask) in
    bit ← shl 1 tab_offset;
    Some (Some (mkTabPosition tab_offset char_offset), mk (N.lxor (tabs self) bit) (chars self)).
End Tabs.
