(* ===== verification/ChunkBits.v ===== *)
(** * Bitmaps of a text

    The four bitmaps of a chunk are lists of marks, one per byte; shifting and
    masking a bitmap is dropping and taking marks, and the counts and the first
    and last set bit measure characters and lines. *)

From S2P Require Import Prelude Utf8 Points Lines TextSummary BitSelect SumTree Chunk.

Definition bits (l : list bool) : N := bits_of id l.

Lemma testbit_bits l i : N.testbit (bits l) (N.of_nat i) = default false (l !! i).
Proof. unfold bits. rewrite testbit_bits_of. by destruct (l !! i). Qed.

(** Equality of bitmaps, bit by bit. *)
Lemma bitmap_ext a b : (∀ i : nat, N.testbit a (N.of_nat i) = N.testbit b (N.of_nat i)) → a = b.
Proof. intros H. apply N.bits_inj. intros i. specialize (H (N.to_nat i)). by rewrite N2Nat.id in H. Qed.

Lemma bits_lt l n : length l <= n → (bits l < 2 ^ N.of_nat n)%N.
Proof. intros Hl. eapply N.lt_le_trans; [apply bits_of_lt|]. apply N.pow_le_mono_r; [done|lia]. Qed.

Lemma bits_lt_128 l : length l <= 128 → (bits l < 2 ^ 128)%N.
Proof. apply (bits_lt l 128). Qed.

Lemma bits_take l n : N.land (bits l) (N.ones (N.of_nat n)) = bits (take n l).
Proof.
  apply bitmap_ext. intros i. rewrite N.land_spec, !testbit_bits.
  destruct (decide (i < n)).
  - rewrite N.ones_spec_low, lookup_take_lt by lia. apply andb_true_r.
  - rewrite N.ones_spec_high, (lookup_ge_None_2 (take n l)) by (rewrite ?length_take; lia). apply andb_false_r.
Qed.

Lemma bits_drop l n : N.shiftr (bits l) (N.of_nat n) = bits (drop n l).
Proof.
  apply bitmap_ext. intros i. rewrite N.shiftr_spec', <-Nat2N.inj_add, !testbit_bits, lookup_drop.
  by rewrite Nat.add_comm.
Qed.

Lemma bits_app l k : bits (l ++ k) = N.lor (bits l) (N.shiftl (bits k) (N.of_nat (length l))).
Proof.
  apply bitmap_ext. intros i. rewrite N.lor_spec, !testbit_bits. destruct (decide (i < length l)).
  - rewrite lookup_app_l, N.shiftl_spec_low by lia. by rewrite orb_false_r.
  - rewrite lookup_app_r, (lookup_ge_None_2 l) by lia. rewrite N.shiftl_spec_high' by lia.
    rewrite <-Nat2N.inj_sub, testbit_bits. done.
Qed.

(** *** Masks and shifts *)

Lemma shl_mask o : wrapping_sub (unbounded_shl 1 o) 1 = N.ones (N.min o 128).
Proof.
  unfold wrapping_sub, unbounded_shl. rewrite N.ones_equiv. destruct (N.ltb_spec o 128) as [Ho|Ho].
  - rewrite N.min_l by lia. rewrite N.shiftl_1_l. pose proof (N.pow_lt_mono_r 2 o 128 ltac:(lia) Ho).
    pose proof (pow2_pos o). rewrite (N.mod_small (2 ^ o)) by done.
    replace (2 ^ o + 2 ^ 128 - 1)%N with (2 ^ o - 1 + 1 * 2 ^ 128)%N by lia.
    rewrite N.Div0.mod_add, N.mod_small by lia. lia.
  - rewrite N.min_r by lia. done.
Qed.

Lemma mask_land l (o : nat) : length l <= 128 →
  N.land (bits l) (wrapping_sub (unbounded_shl 1 (N.of_nat o)) 1) = bits (take o l).
Proof.
  intros Hl. rewrite shl_mask. replace (N.min (N.of_nat o) 128) with (N.of_nat (o `min` 128)) by lia.
  rewrite bits_take. f_equal. destruct (decide (o <= 128)).
  - by rewrite Nat.min_l by lia.
  - by rewrite !take_ge by lia.
Qed.

Lemma shr_bits l o : o < 128 → shr (bits l) o = Some (bits (drop o l)).
Proof. intros Ho. unfold shr, rassert. destruct (Nat.ltb_spec o 128); [|lia]. simpl. by rewrite bits_drop. Qed.

Lemma shl_one o : o < 128 → shl 1 o = Some (2 ^ N.of_nat o)%N.
Proof.
  intros Ho. unfold shl, rassert. destruct (Nat.ltb_spec o 128); [|lia]. simpl. f_equal.
  rewrite N.shiftl_1_l. apply N.mod_small. apply N.pow_lt_mono_r; lia.
Qed.

(** [(1 << o) - 1] *)
Lemma ones_mask o : o < 128 → (bit ← shl 1 o; checked_subN bit 1) = Some (N.ones (N.of_nat o)).
Proof.
  intros Ho. rewrite shl_one by done. simpl. rewrite checked_subN_Some by (pose proof (pow2_pos (N.of_nat o)); lia).
  f_equal. rewrite N.ones_equiv. lia.
Qed.

Lemma shl_bits l o : o < 128 → length l + o <= 128 → shl (bits l) o = Some (bits (replicate o false ++ l)).
Proof.
  intros Ho Hl. unfold shl, rassert. destruct (Nat.ltb_spec o 128); [|lia]. simpl. f_equal.
  assert (bits (replicate o false ++ l) = N.shiftl (bits l) (N.of_nat o)) as Heq.
  { rewrite bits_app, length_replicate. replace (bits (replicate o false)) with 0%N; [done|].
    clear. induction o as [|o IH]; [done|]. unfold bits in *. cbn [replicate bits_of]. rewrite <-IH. done. }
  rewrite <-Heq. apply N.mod_small. apply bits_lt_128. rewrite length_app, length_replicate. lia.
Qed.

Lemma lor_bits l k : N.lor (bits l) (bits (replicate (length l) false ++ k)) = bits (l ++ k).
Proof.
  apply bitmap_ext. intros i. rewrite N.lor_spec, !testbit_bits. destruct (decide (i < length l)).
  - rewrite !lookup_app_l, lookup_replicate_2 by (rewrite ?length_replicate; lia). apply orb_false_r.
  - rewrite !lookup_app_r by (rewrite ?length_replicate; lia). rewrite (lookup_ge_None_2 l) by lia.
    by rewrite length_replicate.
Qed.

Lemma count_bits l : count_ones (bits l) = count_true l.
Proof. apply count_ones_bits_of. Qed.

(** *** First and last set bit *)

(** The index of the first mark, the length if there is none. *)
Fixpoint first_true (l : list bool) : nat :=
  match l with [] => 0 | b :: l => if b then 0 else S (first_true l) end.

(** One more than the index of the last mark, zero if there is none. *)
Fixpoint last_true (l : list bool) : nat :=
  match l with [] => 0 | b :: l => if last_true l =? 0 then Nat.b2n b else S (last_true l) end.

Lemma count_true_cons b l : count_true (b :: l) = Nat.b2n b + count_true l.
Proof. done. Qed.

Lemma last_true_le l : last_true l <= length l.
Proof.
  induction l as [|b l IH]; [done|]. cbn [last_true length]. destruct (last_true l =? 0); [destruct b; simpl|]; lia.
Qed.

Lemma last_true_zero l : last_true l = 0 ↔ bits l = 0%N.
Proof.
  unfold bits. induction l as [|b l IH]; [done|]. cbn [last_true bits_of].
  destruct (Nat.eqb_spec (last_true l) 0) as [H0|H0].
  - rewrite (proj1 IH H0). by destruct b.
  - split; [done|]. intros Hz. destruct H0. apply IH. lia.
Qed.

Lemma size_bits l : N.to_nat (N.size (bits l)) = last_true l.
Proof.
  induction l as [|b l IH]; [done|]. cbn [last_true]. pose proof (last_true_zero l) as Hz.
  unfold bits in *. cbn [bits_of]. destruct (Nat.eqb_spec (last_true l) 0) as [H0|H0].
  - rewrite (proj1 Hz H0). by destruct b.
  - destruct (bits_of id l) as [|p]; [naive_solver|]. change (2 * N.pos p)%N with (N.pos p~0). rewrite <-IH.
    destruct b; simpl; lia.
Qed.

Lemma leading_zeros_bits l : leading_zeros (bits l) = 128 - last_true l.
Proof. unfold leading_zeros. by rewrite size_bits. Qed.

Lemma count_ones_zero v : count_ones v = 0 → v = 0%N.
Proof. destruct v as [|p]; [done|]. simpl. induction p; simpl; [lia|naive_solver|lia]. Qed.

Lemma trailing_zeros_bits l :
  trailing_zeros (bits l) = if count_true l =? 0 then 128 else first_true l.
Proof.
  induction l as [|b l IH]; [done|]. rewrite count_true_cons. pose proof (count_ones_bits_of l) as Hc.
  unfold bits in *. cbn [bits_of first_true]. destruct b; simpl.
  - by destruct (bits_of id l) as [|[]].
  - destruct (Nat.eqb_spec (count_true l) 0) as [H0|H0].
    + by rewrite (count_ones_zero (bits_of id l)) by lia.
    + destruct (bits_of id l) as [|p]; [by rewrite <-Hc in H0|]. change (2 * N.pos p)%N with (N.pos p~0).
      simpl in *. by rewrite IH.
Qed.

(** The marks from the last set bit of another bitmap on. *)
Lemma high_land l m : length l <= 128 → last_true m <= length l →
  count_ones (N.land (bits l) (saturating_shr_mask (lz (bits m)))) = count_true (drop (last_true m) l).
Proof.
  intros Hl Hm. unfold lz. rewrite leading_zeros_bits. set (k := last_true m) in *.
  assert (saturating_shr_mask (N.of_nat (128 - k)) = N.lnot (N.ones (N.of_nat k)) 128) as ->.
  { unfold saturating_shr_mask, bitmap_not, unbounded_shr, BITMAP_MAX. f_equal.
    destruct (N.ltb_spec (N.of_nat (128 - k)) 128) as [Hk|Hk].
    - rewrite N.shiftr_div_pow2, N.ones_div_pow2 by lia. f_equal. lia.
    - replace k with 0 by lia. done. }
  assert (N.land (bits l) (N.lnot (N.ones (N.of_nat k)) 128) = bits (replicate k false ++ drop k l)) as ->.
  { apply bitmap_ext. intros i. rewrite N.land_spec, !testbit_bits.
    destruct (decide (i < k)) as [Hi|Hi].
    - rewrite lookup_app_l, lookup_replicate_2 by (rewrite ?length_replicate; lia).
      rewrite N.lnot_spec_low, N.ones_spec_low by lia. apply andb_false_r.
    - rewrite lookup_app_r, length_replicate, lookup_drop by (rewrite ?length_replicate; lia).
      replace (k + (i - k)) with i by lia. destruct (decide (i < length l)).
      + rewrite N.lnot_spec_low, N.ones_spec_high by lia. apply andb_true_r.
      + rewrite lookup_ge_None_2 by lia. done. }
  by rewrite count_bits, count_true_app, count_true_false.
Qed.

(** ** Marks *)

Definition char_mark (c : char) : list bool := true :: replicate (len_utf8 c - 1) false.
Definition newline_mark (c : char) : list bool := (c =? NEWLINE)%N :: replicate (len_utf8 c - 1) false.
Definition tab_mark (c : char) : list bool := (c =? TAB)%N :: replicate (len_utf8 c - 1) false.
Definition unit_mark (c : char) : list bool :=
  if Utf8.len_utf16 c =? 2 then [true; true; false; false] else char_mark c.

Definition marks (f : char → list bool) (text : str) : list bool := concat (map f text).

(** The slice and the chunk of a text. *)
Definition slice_of (text : str) : ChunkSlice :=
  mkChunkSlice (bits (marks char_mark text)) (bits (marks unit_mark text))
    (bits (marks newline_mark text)) (bits (marks tab_mark text)) text.
Definition chunk_of (text : str) : Chunk :=
  mkChunk (bits (marks char_mark text)) (bits (marks unit_mark text))
    (bits (marks newline_mark text)) (bits (marks tab_mark text)) text.

Class Marker (f : char → list bool) : Prop := marker_length c : length (f c) = len_utf8 c.

#[global] Instance char_marker : Marker char_mark.
Proof. intros c. unfold char_mark. simpl. rewrite length_replicate. pose proof (len_utf8_pos c). lia. Qed.
#[global] Instance newline_marker : Marker newline_mark.
Proof. intros c. unfold newline_mark. simpl. rewrite length_replicate. pose proof (len_utf8_pos c). lia. Qed.
#[global] Instance tab_marker : Marker tab_mark.
Proof. intros c. unfold tab_mark. simpl. rewrite length_replicate. pose proof (len_utf8_pos c). lia. Qed.

Lemma len_utf16_two c : Utf8.len_utf16 c = 2 → len_utf8 c = 4.
Proof.
  unfold Utf8.len_utf16, len_utf8, encode_utf8.
  destruct (N.ltb_spec c 0x10000); [done|]. destruct (N.ltb_spec c 0x80); [lia|]. destruct (N.ltb_spec c 0x800); [lia|done].
Qed.

#[global] Instance unit_marker : Marker unit_mark.
Proof.
  intros c. unfold unit_mark. destruct (Nat.eqb_spec (Utf8.len_utf16 c) 2) as [H|_]; [|apply marker_length].
  by rewrite len_utf16_two.
Qed.

Section marks.
Context (f : char → list bool) `{!Marker f}.

Lemma marks_app a b : marks f (a ++ b) = marks f a ++ marks f b.
Proof. unfold marks. by rewrite map_app, concat_app. Qed.

Lemma marks_cons c s : marks f (c :: s) = f c ++ marks f s.
Proof. done. Qed.

Lemma length_marks s : length (marks f s) = Str.len s.
Proof. induction s as [|c s IH]; [done|]. by rewrite marks_cons, length_app, IH, marker_length, Str_len_cons. Qed.

Lemma take_marks a b : take (Str.len a) (marks f (a ++ b)) = marks f a.
Proof. rewrite marks_app. by rewrite take_app_length' by (by rewrite length_marks). Qed.

Lemma drop_marks a b : drop (Str.len a) (marks f (a ++ b)) = marks f b.
Proof. rewrite marks_app. by rewrite drop_app_length' by (by rewrite length_marks). Qed.

Lemma count_marks (m : char → nat) s : (∀ c, count_true (f c) = m c) →
  count_true (marks f s) = sum_list (map m s).
Proof. intros Hf. induction s as [|c s IH]; [done|]. rewrite marks_cons, count_true_app, IH, Hf. done. Qed.
End marks.

Lemma count_char_marks s : count_true (marks char_mark s) = length s.
Proof.
  rewrite (count_marks char_mark (λ _, 1)).
  - induction s; simpl; lia.
  - intros c. unfold char_mark. by rewrite count_true_cons, count_true_false.
Qed.

Lemma count_newline_marks s : count_true (marks newline_mark s) = Lines.newlines s.
Proof.
  induction s as [|c s IH]; [done|]. rewrite marks_cons, count_true_app, IH, newlines_cons.
  unfold newline_mark. rewrite count_true_cons, count_true_false. destruct (_ =? _)%N; simpl; lia.
Qed.

Lemma count_unit_marks s : count_true (marks unit_mark s) = Str.len_utf16 s.
Proof.
  apply (count_marks unit_mark Utf8.len_utf16). intros c. unfold unit_mark, char_mark, Utf8.len_utf16.
  destruct (_ <? _)%N; simpl; [|done]. by rewrite count_true_cons, count_true_false.
Qed.

(** *** Newlines *)

Lemma first_true_app l k : first_true (l ++ k) = if count_true l =? 0 then length l + first_true k else first_true l.
Proof.
  induction l as [|[] l IH]; simpl; [done..|]. rewrite IH. rewrite count_true_cons. simpl.
  by destruct (count_true l =? 0).
Qed.

Lemma len_utf8_newline : len_utf8 NEWLINE = 1.
Proof. done. Qed.

Lemma newline_mark_eq c : newline_mark c = (c =? NEWLINE)%N :: replicate (len_utf8 c - 1) false.
Proof. done. Qed.

Lemma first_true_newlines s : first_true (marks newline_mark s) = Str.len (first_line s).
Proof.
  induction s as [|c s IH]; [done|]. rewrite marks_cons, first_true_app, newline_mark_eq.
  rewrite count_true_cons, count_true_false. cbn [first_line first_true length]. pose proof (len_utf8_pos c).
  destruct (c =? NEWLINE)%N; simpl; [done|]. rewrite IH, length_replicate, Str_len_cons. lia.
Qed.

Lemma last_true_app l k : last_true (l ++ k) = if last_true k =? 0 then last_true l else length l + last_true k.
Proof.
  induction l as [|b l IH].
  - cbn [app length]. by destruct (Nat.eqb_spec (last_true k) 0).
  - cbn [app last_true length]. rewrite IH. destruct (Nat.eqb_spec (last_true k) 0) as [_|]; [done|].
    by destruct (Nat.eqb_spec (length l + last_true k) 0); [lia|].
Qed.

Lemma last_true_false n : last_true (replicate n false) = 0.
Proof. induction n as [|n IH]; [done|]. simpl. by rewrite IH. Qed.

Lemma last_true_newlines s : last_true (marks newline_mark s) + Str.len (last_line s) = Str.len s.
Proof.
  induction s as [|c s IH] using rev_ind; [done|]. rewrite marks_app, last_true_app, last_line_snoc, Str_len_app.
  assert (marks newline_mark [c] = newline_mark c) as -> by apply app_nil_r.
  rewrite newline_mark_eq, Str_len_cons. cbn [last_true]. rewrite last_true_false. change (Str.len []) with 0.
  destruct (N.eqb_spec c NEWLINE) as [->|]; simpl.
  - rewrite length_marks by apply _. rewrite ?len_utf8_newline. change (Str.len []) with 0. lia.
  - rewrite Str_len_app, Str_len_cons. change (Str.len []) with 0. lia.
Qed.
