(* ===== verification/ChunkFacts.v ===== *)
(** * Chunks hold their text

    Every operation that builds, joins or cuts chunks gives exactly the bitmaps
    of the resulting text. *)

From S2P Require Import Prelude Utf8 Points Lines TextSummary BitSelect SumTree Chunk ChunkBits.

Implicit Types s : str.

(** ** The loops of [new] *)

Lemma byte_bits_spec test ix chunk l : length l = ix → ix + length chunk <= 8 →
  Chunk.byte_bits test ix chunk (bits l) = bits (l ++ map test chunk).
Proof.
  revert ix l. induction chunk as [|b chunk IH]; intros ix l Hl Hlen; simpl in *; [by rewrite app_nil_r|].
  assert (N.lor (bits l) (N.shiftl (N.b2n (test b)) (N.of_nat ix) mod 256) = bits (l ++ [test b])) as ->.
  { rewrite bits_app, Hl. f_equal. assert (bits [test b] = N.b2n (test b)) as -> by (by destruct (test b)).
    apply N.mod_small. rewrite N.shiftl_mul_pow2. eapply N.le_lt_trans; [apply (N.mul_le_mono_r _ 1); by destruct (test b)|].
    rewrite N.mul_1_l. change 256%N with (2 ^ 8)%N. apply N.pow_lt_mono_r; lia. }
  rewrite IH by (rewrite ?length_app; simpl; lia). by rewrite <-app_assoc.
Qed.

Lemma byte_bits_bits test chunk : length chunk <= 8 → Chunk.byte_bits test 0 chunk 0 = bits (map test chunk).
Proof. intros Hlen. by apply (byte_bits_spec test 0 chunk []). Qed.

Lemma nums_app k l m : nums k (l ++ m) = (nums k l + 2 ^ (k * N.of_nat (length l)) * nums k m)%N.
Proof.
  induction l as [|x l IH]; [by rewrite N.mul_0_r, N.mul_1_l|]. cbn [app nums length]. rewrite IH, Nat2N.inj_succ.
  rewrite N.mul_succ_r, N.pow_add_r. lia.
Qed.

Lemma nums_zeros k n : nums k (replicate n 0%N) = 0%N.
Proof. induction n as [|n IH]; simpl; [done|]. rewrite IH. lia. Qed.

(** The bytes filled so far are followed by zeros. *)
Lemma fill_spec test fuel done rest bytes :
  length bytes <= fuel → length bytes <= 8 * rest →
  ∃ filled, Chunk.fill test fuel (done ++ replicate rest 0%N) (length done) bytes = Some filled ∧
    nums 8 filled = (nums 8 done + 2 ^ (8 * N.of_nat (length done)) * bits (map test bytes))%N.
Proof.
  revert done rest bytes. induction fuel as [|fuel IH]; intros done rest bytes Hfuel Hrest.
  { destruct bytes; [|simpl in *; lia]. eexists. split; [done|]. rewrite nums_app, nums_zeros. done. }
  destruct bytes as [|b bytes]; [eexists; split; [done|]; by rewrite nums_app, nums_zeros|].
  cbn [Chunk.fill]. set (all := b :: bytes) in *. assert (1 <= length all) as Hne by (subst all; simpl; lia).
  destruct rest as [|rest]; [lia|].
  unfold rassert. rewrite length_app, length_replicate.
  destruct (Nat.ltb_spec (length done) (length done + S rest)); [|lia]. cbn [mbind option_bind].
  rewrite byte_bits_bits by (rewrite length_take; lia).
  rewrite insert_app_r_alt, Nat.sub_diag by lia. cbn [replicate].
  change (<[0 := ?x]> (0%N :: ?l)) with (x :: l).
  set (x := bits (map test (take 8 all))).
  destruct (IH (done ++ [x]) rest (drop 8 all)) as (filled & Hfill & Hnums).
  { rewrite length_drop. lia. }
  { rewrite length_drop. lia. }
  rewrite length_app in Hfill, Hnums. simpl length in Hfill, Hnums. rewrite <-app_assoc in Hfill. simpl in Hfill.
  exists filled. split; [done|]. rewrite Hnums, nums_app. cbn [nums].
  assert (bits (map test all) = x + 2 ^ 8 * bits (map test (drop 8 all)))%N as ->.
  { subst x. rewrite <-(take_drop 8 all) at 1. rewrite map_app, bits_app, length_map.
    destruct (decide (8 <= length all)) as [Hge|Hlt].
    - rewrite length_take, Nat.min_l by done. rewrite N.lor_comm, N_lor_shiftl_add; [change (N.of_nat 8) with 8%N; lia|].
      apply bits_lt. rewrite length_map, length_take. lia.
    - rewrite (drop_ge all) by lia. change (bits (map test [])) with 0%N. rewrite N.shiftl_0_l, N.lor_0_r. lia. }
  rewrite Nat2N.inj_add, (N.mul_add_distr_l 8), N.pow_add_r. change (2 ^ (8 * N.of_nat 1))%N with 256%N.
  change (2 ^ 8)%N with 256%N. lia.
Qed.

Lemma bitmap_bytes_spec test bytes : length bytes <= 128 →
  ∃ filled, Chunk.bitmap_bytes test bytes = Some filled ∧ from_le_bytes filled = bits (map test bytes).
Proof.
  intros Hlen. destruct (fill_spec test (length bytes) [] 16 bytes) as (filled & Hf & Hn); [lia|lia|].
  exists filled. split; [exact Hf|]. unfold from_le_bytes. rewrite Hn. simpl. lia.
Qed.

(** ** The tests of the bytes are the marks *)

Lemma map_test_marks (test : N → bool) f s : str_ok s →
  (∀ c, char_ok c → map test (encode_utf8 c) = f c) → map test (Str.as_bytes s) = marks f s.
Proof.
  intros Hs Hf. induction Hs as [|c s Hc _ IH]; [done|].
  by rewrite Str_as_bytes_cons, marks_cons, map_app, IH, Hf.
Qed.

(** A test that is false on continuation bytes marks the first byte only. *)
Lemma map_test_encode (test : N → bool) c : char_ok c →
  (∀ b : N, (128 <= b < 192)%N → is_utf8_char_boundary b = false → test b = false) →
  map test (encode_utf8 c) = match encode_utf8 c with b :: _ => test b | [] => false end :: replicate (len_utf8 c - 1) false.
Proof.
  intros Hc Htest. destruct (encode_utf8_head c Hc) as (b & bs & Henc & _ & _ & _ & _ & _ & Hbs & _).
  unfold len_utf8. rewrite Henc. simpl. f_equal. rewrite Nat.sub_0_r. clear Henc.
  induction Hbs as [|x bs [Hx1 Hx2] _ IH]; [done|]. simpl. by rewrite Htest, IH.
Qed.

Definition lead_mark (c : char) : list bool := (Utf8.len_utf16 c =? 2) :: replicate (len_utf8 c - 1) false.

#[global] Instance lead_marker : Marker lead_mark.
Proof. intros c. unfold lead_mark. simpl. rewrite length_replicate. pose proof (len_utf8_pos c). lia. Qed.

Lemma byte_tests s : str_ok s →
  map is_utf8_char_boundary (Str.as_bytes s) = marks char_mark s ∧
  map (λ b, (b =? 10)%N) (Str.as_bytes s) = marks newline_mark s ∧
  map (λ b, (b =? 9)%N) (Str.as_bytes s) = marks tab_mark s ∧
  map (λ b, (240 <=? b)%N) (Str.as_bytes s) = marks lead_mark s.
Proof.
  intros Hs. split_and!; apply map_test_marks; try done; intros c Hc; rewrite map_test_encode; try done.
  all: try (intros b Hb Hnb; try done; first [apply N.eqb_neq; lia|apply N.leb_gt; lia]).
  all: destruct (encode_utf8_head c Hc) as (b & bs & Henc & Hb & _ & H16 & Hnl & Htab & _); rewrite Henc.
  - by rewrite Hb.
  - by rewrite Hnl.
  - by rewrite Htab.
  - by rewrite H16.
Qed.

(** The marks of UTF-16 units: a character, or the byte after the lead of a
    pair. *)
Lemma unit_marks_zip s : zip_with orb (marks char_mark s) (false :: marks lead_mark s) = marks unit_mark s.
Proof.
  induction s as [|c s IH]; [done|]. rewrite !marks_cons. unfold unit_mark at 1.
  destruct (Nat.eqb_spec (Utf8.len_utf16 c) 2) as [H2|H2].
  - unfold char_mark at 1, lead_mark at 1. rewrite (len_utf16_two c H2), H2. simpl. by rewrite IH.
  - unfold lead_mark at 1. destruct (Nat.eqb_spec (Utf8.len_utf16 c) 2) as [|_]; [done|].
    unfold char_mark at 1 3. cbn [app zip_with]. f_equal. rewrite <-IH. generalize (len_utf8 c - 1) as n. clear.
    intros n. change (false :: replicate n false ++ marks lead_mark s) with (replicate (S n) false ++ marks lead_mark s).
    replace (S n) with (n + 1) by lia. rewrite replicate_add, <-app_assoc. simpl.
    rewrite zip_with_app by done. f_equal. induction n as [|n IH]; simpl; [done|]. by f_equal.
Qed.

(** A pair takes four bytes, so it does not start at the last one. *)
Lemma lead_last s : 0 < Str.len s → marks lead_mark s !! (Str.len s - 1) = Some false.
Proof.
  destruct s as [|c s _] using rev_ind; [by intros ?%Nat.lt_irrefl|]. intros _.
  rewrite marks_app, Str_len_app, Str_len_cons. change (Str.len []) with 0.
  rewrite lookup_app_r; rewrite length_marks by apply _; pose proof (len_utf8_pos c); [|lia].
  replace (Str.len s + (len_utf8 c + 0) - 1 - Str.len s) with (len_utf8 c - 1) by lia.
  change (marks lead_mark [c]) with (lead_mark c ++ []). rewrite app_nil_r. unfold lead_mark.
  destruct (len_utf8 c - 1) as [|n] eqn:Hn.
  - destruct (Nat.eqb_spec (Utf8.len_utf16 c) 2) as [H2|_]; [|done]. apply len_utf16_two in H2. lia.
  - change (replicate (S n) false !! n = Some false). apply lookup_replicate_2. lia.
Qed.

Lemma unit_bits s : Str.len s <= 128 → ∃ shifted, shl (bits (marks lead_mark s)) 1 = Some shifted ∧
  N.lor shifted (bits (marks char_mark s)) = bits (marks unit_mark s).
Proof.
  intros Hlen. eexists. split; [done|]. apply bitmap_ext. intros i.
  assert (length (marks char_mark s) = Str.len s) as Hlc by (apply length_marks; apply _).
  assert (length (marks unit_mark s) = Str.len s) as Hlu by (apply length_marks; apply _).
  assert (length (marks lead_mark s) = Str.len s) as Hll.
  { apply length_marks. apply _. }
  rewrite N.lor_spec, !testbit_bits. destruct (decide (i < Str.len s)) as [Hi|Hi].
  - rewrite N.mod_pow2_bits_low by lia. rewrite <-unit_marks_zip, lookup_zip_with.
    destruct (lookup_lt_is_Some_2 (marks char_mark s) i) as [x Hx]; [lia|]. rewrite Hx. simpl.
    destruct i as [|i].
    + rewrite N.shiftl_spec_low by lia. simpl. by rewrite orb_false_r.
    + rewrite N.shiftl_spec_high' by lia. replace (N.of_nat (S i) - N.of_nat 1)%N with (N.of_nat i) by lia.
      rewrite testbit_bits. simpl. destruct (lookup_lt_is_Some_2 (marks lead_mark s) i) as [y Hy]; [lia|].
      rewrite Hy. simpl. apply orb_comm.
  - rewrite !(lookup_ge_None_2 _ i) by lia. simpl. rewrite orb_false_r.
    destruct (decide (i < 128)) as [Hi'|Hi']; [|by rewrite N.mod_pow2_bits_high by lia].
    rewrite N.mod_pow2_bits_low by lia. destruct i as [|i]; [by rewrite N.shiftl_spec_low by lia|].
    rewrite N.shiftl_spec_high' by lia. replace (N.of_nat (S i) - N.of_nat 1)%N with (N.of_nat i) by lia.
    rewrite testbit_bits. destruct (decide (i < Str.len s)) as [Hlt|Hge]; [|by rewrite lookup_ge_None_2 by lia].
    assert (i = Str.len s - 1) as -> by lia. rewrite lead_last by lia. done.
Qed.

(** ** Building *)

Lemma array_push_str_spec s t :
  array_push_str s t = if Str.len (s ++ t) <=? 128 then Some (s ++ t) else None.
Proof. unfold array_push_str, rassert, MAX_BASE. rewrite Str_len_app. by destruct (_ <=? _). Qed.

Lemma chunk_new_spec s : str_ok s → Chunk.new s = if Str.len s <=? 128 then Some (chunk_of s) else None.
Proof.
  intros Hs. unfold Chunk.new. rewrite array_push_str_spec. cbn [app].
  destruct (Nat.leb_spec (Str.len s) 128) as [Hlen|_]; [|done]. cbn [mbind option_bind].
  destruct (byte_tests s Hs) as (Hc & Hn & Ht & Hl).
  destruct (bitmap_bytes_spec is_utf8_char_boundary (Str.as_bytes s) Hlen) as (? & -> & Hc').
  destruct (bitmap_bytes_spec (λ b, (b =? 10)%N) (Str.as_bytes s) Hlen) as (? & -> & Hn').
  destruct (bitmap_bytes_spec (λ b, (b =? 9)%N) (Str.as_bytes s) Hlen) as (? & -> & Ht').
  destruct (bitmap_bytes_spec (λ b, (240 <=? b)%N) (Str.as_bytes s) Hlen) as (? & -> & Hl').
  cbn [mbind option_bind]. rewrite Hc', Hn', Ht', Hl', Hc, Hn, Ht, Hl.
  destruct (unit_bits s Hlen) as (shifted & -> & Hu). cbn [mbind option_bind]. by rewrite Hu.
Qed.

(** One bitmap of a joined chunk. *)
Lemma join_bits f `{!Marker f} s t : Str.len (s ++ t) <= 128 → t ≠ [] → ∃ shifted,
  shl (bits (marks f t)) (Str.len s) = Some shifted ∧ N.lor (bits (marks f s)) shifted = bits (marks f (s ++ t)).
Proof.
  rewrite Str_len_app. intros Hlen Ht.
  assert (0 < Str.len t) by (destruct t as [|c t]; [done|]; rewrite Str_len_cons; pose proof (len_utf8_pos c); lia).
  rewrite shl_bits by (rewrite ?length_marks by apply _; lia). eexists. split; [done|].
  rewrite <-(length_marks f s), lor_bits, marks_app. done.
Qed.

Ltac open_chunks :=
  unfold chunk_of, slice_of, Chunk.as_slice;
  cbn [chunk_text chunk_chars chunk_chars_utf16 chunk_newlines chunk_tabs text chars chars_utf16 newlines tabs].

(** A chain of shifts that ends in a panic. *)
Ltac fails :=
  repeat match goal with
    | |- (shl ?v ?o ≫= _) = None => destruct (shl v o); cbn [mbind option_bind]; [|reflexivity]
    | |- (shr ?v ?o ≫= _) = None => destruct (shr v o); cbn [mbind option_bind]; [|reflexivity]
    end.

Lemma chunk_append_spec s t :
  Str.len s <= 128 → Chunk.append (chunk_of s) (slice_of t) = if Str.len (s ++ t) <=? 128 then Some (chunk_of (s ++ t)) else None.
Proof.
  intros Hs. unfold Chunk.append. destruct (ChunkSlice.is_empty (slice_of t)) eqn:Ht.
  { destruct t; [|done]. rewrite app_nil_r. by destruct (Nat.leb_spec (Str.len s) 128); [|lia]. }
  assert (t ≠ []) as Hne by (by intros ->). open_chunks. rewrite array_push_str_spec.
  destruct (Nat.leb_spec (Str.len (s ++ t)) 128) as [Hlen|_].
  - destruct (join_bits char_mark s t Hlen Hne) as (? & -> & Hc), (join_bits unit_mark s t Hlen Hne) as (? & -> & Hu),
      (join_bits newline_mark s t Hlen Hne) as (? & -> & Hn), (join_bits tab_mark s t Hlen Hne) as (? & -> & Htab).
    cbn [mbind option_bind]. by rewrite Hc, Hu, Hn, Htab.
  - by fails.
Qed.

Lemma as_slice_chunk_of s : Chunk.as_slice (chunk_of s) = slice_of s.
Proof. done. Qed.

Lemma chunk_prepend_spec s t : str_ok t →
  Str.len s <= 128 → Str.len t <= 128 →
  Chunk.prepend (chunk_of s) (slice_of t) = if Str.len (t ++ s) <=? 128 then Some (chunk_of (t ++ s)) else None.
Proof.
  intros Htok Hs Ht'. unfold Chunk.prepend. rewrite as_slice_chunk_of. destruct (ChunkSlice.is_empty (slice_of t)) eqn:Ht.
  { destruct t; [|done]. cbn [app]. by destruct (Nat.leb_spec (Str.len s) 128); [|lia]. }
  destruct (ChunkSlice.is_empty (slice_of s)) eqn:Hse.
  { destruct s; [|done]. rewrite app_nil_r. by apply chunk_new_spec. }
  assert (s ≠ []) as Hne by (by intros ->). open_chunks. rewrite array_push_str_spec.
  cbn [app]. destruct (Nat.leb_spec (Str.len t) 128); [|lia].
  destruct (Nat.leb_spec (Str.len (t ++ s)) 128) as [Hlen|Hlen].
  - destruct (join_bits char_mark t s Hlen Hne) as (? & -> & Hc), (join_bits unit_mark t s Hlen Hne) as (? & -> & Hu),
      (join_bits newline_mark t s Hlen Hne) as (? & -> & Hn), (join_bits tab_mark t s Hlen Hne) as (? & -> & Htab).
    cbn [mbind option_bind]. rewrite array_push_str_spec.
    destruct (Nat.leb_spec (Str.len (t ++ s)) 128); [|lia]. cbn [mbind option_bind]. by rewrite Hc, Hu, Hn, Htab.
  - fails. rewrite array_push_str_spec. by destruct (Nat.leb_spec (Str.len (t ++ s)) 128); [lia|].
Qed.

(** C33. A chunk holds its text: [new], [push_str], [prepend_str], [append] and
    [prepend] give exactly the text that results and the four bitmaps of that
    text, as long as it fits into 128 bytes, and panic when it does not. *)
Theorem chunk_building s t (Hs : str_ok s) (Ht : str_ok t) (Hlen : Str.len s <= 128) :
  Chunk.new s = Some (chunk_of s) ∧
  Chunk.new t = (if Str.len t <=? 128 then Some (chunk_of t) else None) ∧
  Chunk.push_str (chunk_of s) t = (if Str.len (s ++ t) <=? 128 then Some (chunk_of (s ++ t)) else None) ∧
  Chunk.prepend_str (chunk_of s) t = (if Str.len (t ++ s) <=? 128 then Some (chunk_of (t ++ s)) else None) ∧
  Chunk.append (chunk_of s) (slice_of t) = (if Str.len (s ++ t) <=? 128 then Some (chunk_of (s ++ t)) else None) ∧
  (Str.len t <= 128 →
   Chunk.prepend (chunk_of s) (slice_of t) = if Str.len (t ++ s) <=? 128 then Some (chunk_of (t ++ s)) else None) ∧
  ChunkSlice.into (Chunk.as_slice (chunk_of s)) = Some (chunk_of s).
Proof.
  rewrite !chunk_new_spec by done. destruct (Nat.leb_spec (Str.len s) 128) as [_|]; [|lia].
  unfold Chunk.push_str, Chunk.prepend_str. rewrite chunk_new_spec by done.
  assert (∀ A (x : option A), 128 < Str.len t → (if Str.len (s ++ t) <=? 128 then x else None) = None ∧
    (if Str.len (t ++ s) <=? 128 then x else None) = None) as Hbig.
  { intros A x Hbig. rewrite !Str_len_app.
    destruct (Nat.leb_spec (Str.len s + Str.len t) 128), (Nat.leb_spec (Str.len t + Str.len s) 128); split; lia || done. }
  split_and!; [done|done|..].
  - destruct (Nat.leb_spec (Str.len t) 128) as [_|Hgt]; [by apply chunk_append_spec|]. by rewrite (proj1 (Hbig _ _ Hgt)).
  - destruct (Nat.leb_spec (Str.len t) 128) as [Hle|Hgt]; [by apply chunk_prepend_spec|]. by rewrite (proj2 (Hbig _ _ Hgt)).
  - by apply chunk_append_spec.
  - intros. by apply chunk_prepend_spec.
  - unfold ChunkSlice.into. cbn [text Chunk.as_slice chunk_of chunk_text].
    by rewrite rassert_true by (by apply Nat.leb_le).
Qed.

Lemma chunk_building_witness :
  let s := [97; 10; 0x1F350]%N in let t := [9; 233]%N in
  str_ok s ∧ str_ok t ∧ Str.len s <= 128 ∧
  Chunk.push_str (chunk_of s) t = Some (mkChunk 199 207 2 64 [97; 10; 0x1F350; 9; 233]%N).
Proof.
  assert (str_ok [97; 10; 0x1F350]%N) as Hs by (repeat constructor; unfold char_ok; lia).
  assert (str_ok [9; 233]%N) as Ht by (repeat constructor; unfold char_ok; lia).
  assert (Str.len [97; 10; 0x1F350]%N <= 128) as Hlen by (apply Nat.leb_le; reflexivity).
  do 3 (split; [assumption|]).
  destruct (chunk_building _ _ Hs Ht Hlen) as (_ & _ & H & _). exact H.
Defined.

(** ** Cutting *)

(** Cutting at a boundary. *)
Lemma split_at_app s t : Str.len s < 128 →
  ChunkSlice.split_at (slice_of (s ++ t)) (Str.len s) = Some (slice_of s, slice_of t).
Proof.
  intros Hs. unfold ChunkSlice.split_at, MAX_BASE. destruct (Nat.eqb_spec (Str.len s) 128); [lia|].
  pose proof (ones_mask _ Hs) as Hm. rewrite shl_one in * by done. cbn [mbind option_bind] in *. rewrite Hm.
  cbn [mbind option_bind]. open_chunks. rewrite Str_split_at_app. cbn [mbind option_bind].
  rewrite !shr_bits by done. cbn [mbind option_bind]. rewrite !bits_take.
  by rewrite !take_marks, !drop_marks by apply _.
Qed.

Lemma chunk_split_at_spec s mid : Str.len s <= 128 →
  ChunkSlice.split_at (slice_of s) mid =
    if mid =? 128 then Some (slice_of s, slice_of [])
    else '(a, b) ← Str.split_at s mid; Some (slice_of a, slice_of b).
Proof.
  intros Hlen. destruct (Nat.eqb_spec mid 128) as [->|Hmid]; [done|].
  destruct (Str.split_at s mid) as [[a b]|] eqn:Hs; cbn [mbind option_bind].
  - apply Str_split_at_inv in Hs as [-> <-]. rewrite Str_len_app in Hlen. apply split_at_app. lia.
  - unfold ChunkSlice.split_at, MAX_BASE. destruct (Nat.eqb_spec mid 128); [done|].
    destruct (shl 1 mid); [|done]. cbn [mbind option_bind]. destruct (checked_subN _ 1); [|done].
    cbn [mbind option_bind]. open_chunks. by rewrite Hs.
Qed.

(** [&s[start..end]] is a middle part. *)
Lemma Str_slice_inv s start end_ m : Str.slice s start end_ = Some m →
  ∃ a b, s = a ++ m ++ b ∧ start = Str.len a ∧ end_ = Str.len a + Str.len m.
Proof.
  unfold Str.slice, rassert. destruct (start <=? end_); [|done]. cbn [mbind option_bind].
  destruct (Str.split_at s end_) as [[l b]|] eqn:Hs; [|done]. cbn [mbind option_bind].
  destruct (Str.split_at l start) as [[a m']|] eqn:Hl; [|done]. intros [= ->].
  apply Str_split_at_inv in Hs as [-> <-], Hl as [-> <-]. exists a, b. by rewrite Str_len_app, <-app_assoc.
Qed.

(** The bit of an offset in the bitmap of characters. *)
Lemma land_bit v o : (o < 128)%N → negb (N.land (unbounded_shl 1 o) v =? 0)%N = N.testbit v o.
Proof.
  intros Ho. unfold unbounded_shl. destruct (N.ltb_spec o 128); [|lia]. rewrite N.shiftl_1_l, N.mod_small by (by apply N.pow_lt_mono_r).
  destruct (N.testbit v o) eqn:Hb; destruct (N.eqb_spec (N.land (2 ^ o) v) 0) as [H0|H0]; try done.
  - apply (f_equal (λ x, N.testbit x o)) in H0. by rewrite N.land_spec, N.pow2_bits_true, Hb, N.bits_0 in H0.
  - destruct H0. apply N.bits_inj_0. intros i. rewrite N.land_spec. destruct (decide (i = o)) as [->|].
    + by rewrite Hb, andb_false_r.
    + by rewrite N.pow2_bits_false by congruence.
Qed.

Lemma is_char_boundary_spec s offset : str_ok s → Str.len s <= 128 → (N.of_nat offset <= u32_max)%N →
  ChunkSlice.is_char_boundary (slice_of s) offset = Str.is_char_boundary s offset.
Proof.
  intros Hs Hlen Ho. unfold ChunkSlice.is_char_boundary, Str.is_char_boundary. rewrite as_u32_small by done. open_chunks.
  destruct (byte_tests s Hs) as (Hc & _). destruct (decide (offset < 128)) as [Hlt|Hge].
  - rewrite land_bit, testbit_bits, <-Hc, list_lookup_fmap by lia.
    destruct (Str.as_bytes s !! offset) as [b|] eqn:Hb.
    + apply lookup_lt_Some in Hb as Hb'. fold (Str.len s) in Hb'. cbn.
      destruct (Nat.eqb_spec offset (Str.len s)); [lia|]. rewrite orb_false_r.
      destruct (Nat.eqb_spec offset 0) as [->|]; [|done].
      destruct Hs as [|c s Hcok _]; [done|]. destruct (encode_utf8_head c Hcok) as (x & bs & Henc & Hx & _).
      rewrite Str_as_bytes_cons, Henc in Hb. by injection Hb as <-.
    + apply lookup_ge_None in Hb. fold (Str.len s) in Hb. cbn. destruct (Nat.eqb_spec offset 0) as [->|]; [|done].
      apply Nat.eqb_eq. lia.
  - destruct (Nat.eqb_spec offset 0); [lia|]. rewrite lookup_ge_None_2 by (fold (Str.len s); lia).
    unfold unbounded_shl. by destruct (N.ltb_spec (N.of_nat offset) 128); [lia|].
Qed.

(** *** The boundaries next to an offset *)

Lemma floor_spec s o : ∃ a b, s = a ++ b ∧ Str.floor_char_boundary s o = Str.len a ∧ Str.len a <= o ∧
  ∀ a' b', s = a' ++ b' → Str.len a' <= o → Str.len a' <= Str.len a.
Proof.
  revert o. induction s as [|c s IH]; intros o.
  { exists [], []. split_and!; [done|done|unfold Str.len; simpl; lia|]. by intros [] b'. }
  cbn [Str.floor_char_boundary]. destruct (Nat.leb_spec (len_utf8 c) o) as [Hc|Hc].
  - destruct (IH (o - len_utf8 c)) as (a & b & -> & -> & Hle & Hmax). exists (c :: a), b. rewrite Str_len_cons.
    split_and!; [done|done|lia|]. intros [|c' a'] b' Heq Hle'; [unfold Str.len; simpl; lia|].
    injection Heq as <- Heq. rewrite Str_len_cons in Hle' |- *. specialize (Hmax a' b' Heq). lia.
  - exists [], (c :: s). split_and!; [done|done|unfold Str.len; simpl; lia|].
    intros [|c' a'] b' Heq Hle'; [done|]. injection Heq as <- _. rewrite Str_len_cons in Hle'. lia.
Qed.

Lemma ceil_spec s o : ∃ a b, s = a ++ b ∧ Str.ceil_char_boundary s o = Str.len a ∧ (o <= Str.len a ∨ b = []) ∧
  ∀ a' b', s = a' ++ b' → o <= Str.len a' → Str.len a <= Str.len a'.
Proof.
  revert o. induction s as [|c s IH]; intros o.
  { exists [], []. split_and!; [done|by destruct o|by right|]. intros. unfold Str.len; simpl; lia. }
  destruct o as [|o]; [exists [], (c :: s); split_and!; [done|done|left; lia|]; unfold Str.len; simpl; lia|].
  cbn [Str.ceil_char_boundary].
  destruct (IH (S o - len_utf8 c)) as (a & b & -> & -> & Hle & Hmin). exists (c :: a), b. rewrite Str_len_cons.
  split_and!; [done|done|destruct Hle; [left; lia|by right]|]. intros [|c' a'] b' Heq Hle'; [by apply Nat.nle_succ_0 in Hle'|].
  injection Heq as <- Heq. rewrite Str_len_cons in Hle' |- *. specialize (Hmin a' b' Heq). lia.
Qed.

Lemma floor_boundary s o : str_ok s → Str.is_char_boundary s o = true → Str.floor_char_boundary s o = o.
Proof.
  intros Hs (a & b & Heq & ->)%Str_is_char_boundary_iff; [|done].
  destruct (floor_spec s (Str.len a)) as (a' & b' & _ & -> & Hle & Hmax). specialize (Hmax a b Heq). lia.
Qed.

Lemma ceil_boundary s o : str_ok s → Str.is_char_boundary s o = true → Str.ceil_char_boundary s o = o.
Proof.
  intros Hs (a & b & Heq & ->)%Str_is_char_boundary_iff; [|done].
  destruct (ceil_spec s (Str.len a)) as (a' & b' & Heq' & -> & Hle & Hmin). specialize (Hmin a b Heq ltac:(lia)).
  destruct Hle as [| ->]; [lia|]. assert (Str.len a <= Str.len s) by (rewrite Heq, Str_len_app; lia).
  rewrite Heq', app_nil_r in *. lia.
Qed.

(** The bounds a slice is moved to. *)
Definition snapped s (start end_ : nat) : nat * nat :=
  let start := Str.ceil_char_boundary s start in
  (start, if Str.is_char_boundary s end_ then end_ else if end_ <? start then start else Str.floor_char_boundary s end_).

Lemma slice_bounds_spec s start end_ : str_ok s → Str.len s <= 128 →
  (N.of_nat start <= u32_max)%N → (N.of_nat end_ <= u32_max)%N →
  ChunkSlice.slice_bounds (slice_of s) start end_ = snapped s start end_.
Proof.
  intros Hs Hlen Hb He. unfold ChunkSlice.slice_bounds, snapped. rewrite !is_char_boundary_spec by done. open_chunks.
  destruct (Str.is_char_boundary s start) eqn:Hstart; [|done]. by rewrite ceil_boundary.
Qed.

(** One bitmap of a slice. *)
Lemma cut_bits f `{!Marker f} a m b : Str.len (a ++ m ++ b) <= 128 → Str.len a < 128 →
  shr (N.land (bits (marks f (a ++ m ++ b)))
    (wrapping_sub (unbounded_shl 1 (as_u32 (Str.len a + Str.len m))) 1)) (Str.len a) = Some (bits (marks f m)).
Proof.
  rewrite !Str_len_app. intros Hlen Ha. rewrite as_u32_small by (unfold u32_max; lia).
  rewrite mask_land by (rewrite length_marks by apply _; rewrite !Str_len_app; lia).
  rewrite shr_bits, <-Str_len_app, app_assoc by done. by rewrite take_marks, drop_marks by apply _.
Qed.

Lemma chunk_slice_app a m b : Str.len (a ++ m ++ b) <= 128 → str_ok (a ++ m ++ b) →
  ChunkSlice.slice (slice_of (a ++ m ++ b)) (Str.len a) (Str.len a + Str.len m) = Some (slice_of m).
Proof.
  intros Hlen Hs. pose proof Hlen as Hlen'. rewrite !Str_len_app in Hlen'.
  unfold ChunkSlice.slice, MAX_BASE. destruct (Nat.eqb_spec (Str.len a) 128) as [Ha|Ha].
  { assert (m = []) as -> by (apply Str_len_zero; lia). done. }
  rewrite slice_bounds_spec by (done || unfold u32_max; lia). unfold snapped.
  pose proof Hs as [_ Hmb]%Forall_app. pose proof Hmb as [_ Hb]%Forall_app.
  rewrite ceil_boundary by (done || by apply Str_is_char_boundary_app).
  assert (Str.is_char_boundary (a ++ m ++ b) (Str.len a + Str.len m) = true) as ->.
  { rewrite <-Str_len_app, app_assoc. by apply Str_is_char_boundary_app. }
  open_chunks. rewrite !cut_bits by (apply _ || lia). cbn [mbind option_bind]. by rewrite Str_slice_app.
Qed.

Lemma chunk_slice_spec s start end_ : str_ok s → Str.len s <= 128 →
  (N.of_nat start <= u32_max)%N → (N.of_nat end_ <= u32_max)%N →
  ChunkSlice.slice (slice_of s) start end_ =
    if start =? 128 then Some (slice_of [])
    else
      let '(b, e) := snapped s start end_ in
      _ ← rassert (b <? 128); m ← Str.slice s b e; Some (slice_of m).
Proof.
  intros Hs Hlen Hb He. unfold ChunkSlice.slice, MAX_BASE. destruct (Nat.eqb_spec start 128) as [|Hne]; [done|].
  rewrite slice_bounds_spec by done. destruct (snapped s start end_) as [b e]. cbn zeta. unfold rassert.
  destruct (Nat.ltb_spec b 128) as [Hlt|Hge]; cbn [mbind option_bind].
  - destruct (Str.slice s b e) as [m|] eqn:Hm; cbn [mbind option_bind].
    + apply Str_slice_inv in Hm as (a & c & -> & -> & ->). open_chunks.
      rewrite !cut_bits by (apply _ || done). cbn [mbind option_bind]. by rewrite Str_slice_app.
    + fails. open_chunks. by rewrite Hm.
  - unfold shr, rassert. by destruct (Nat.ltb_spec b 128); [lia|].
Qed.

(** [Chunk::floor_char_boundary] walks back over the bytes. *)
Lemma floor_loop_spec s i : str_ok s → i < Str.len s →
  Chunk.floor_loop (Str.as_bytes s) i = Some (Str.floor_char_boundary s i).
Proof.
  intros Hs. induction i as [|i IH]; intros Hi.
  { destruct s as [|c s]; [done|]. simpl. by destruct (Nat.leb_spec (len_utf8 c) 0); [pose proof (len_utf8_pos c); lia|]. }
  cbn [Chunk.floor_loop]. destruct (lookup_lt_is_Some_2 (Str.as_bytes s) (S i) Hi) as [x Hx]. rewrite Hx.
  cbn [mbind option_bind]. assert (Str.is_char_boundary s (S i) = is_utf8_char_boundary x) as Hbd.
  { unfold Str.is_char_boundary. by rewrite Hx. }
  destruct (is_utf8_char_boundary x); [by rewrite floor_boundary|]. rewrite IH by lia. f_equal.
  destruct (floor_spec s (S i)) as (a & b & Hab & -> & Hle & Hmax), (floor_spec s i) as (a' & b' & Hab' & -> & Hle' & Hmax').
  assert (Str.len a ≠ S i) as Hne.
  { intros Heq. assert (Str.is_char_boundary s (S i) = true); [|congruence].
    apply Str_is_char_boundary_iff; [done|]. by exists a, b. }
  specialize (Hmax a' b' Hab' ltac:(lia)). specialize (Hmax' a b Hab ltac:(lia)). lia.
Qed.

Lemma floor_char_boundary_ge s o : Str.len s <= o → Str.floor_char_boundary s o = Str.len s.
Proof.
  intros Ho. destruct (floor_spec s o) as (a & b & Hab & -> & Hle & Hmax).
  specialize (Hmax s [] (eq_sym (app_nil_r s)) Ho). rewrite Hab, Str_len_app in *. lia.
Qed.

(** Cutting a chunk cuts its text: the bitmap of characters tells the
    boundaries, [floor_char_boundary] finds the one below an offset, [split_at]
    and [slice] at boundaries give the bitmaps of the parts, and panic where the
    string operation does.  [slice] moves a start inside a character up and an
    end down; when that moves the start to 128 it panics. *)
Theorem chunk_cutting s (Hs : str_ok s) (Hlen : Str.len s <= 128) :
  (∀ o, (N.of_nat o <= u32_max)%N →
     ChunkSlice.is_char_boundary (slice_of s) o = Str.is_char_boundary s o ∧
     Chunk.is_char_boundary (chunk_of s) o = Str.is_char_boundary s o) ∧
  (∀ o, Chunk.floor_char_boundary (chunk_of s) o = Some (ChunkSlice.floor_char_boundary (slice_of s) o)) ∧
  (∀ mid, ChunkSlice.split_at (slice_of s) mid =
     if mid =? 128 then Some (slice_of s, slice_of [])
     else '(a, b) ← Str.split_at s mid; Some (slice_of a, slice_of b)) ∧
  (∀ a m b, s = a ++ m ++ b → Chunk.slice (chunk_of s) (Str.len a) (Str.len a + Str.len m) = Some (slice_of m)) ∧
  (∀ start end_, (N.of_nat start <= u32_max)%N → (N.of_nat end_ <= u32_max)%N →
     Chunk.slice (chunk_of s) start end_ =
       if start =? 128 then Some (slice_of [])
       else
         let '(b, e) := snapped s start end_ in
         _ ← rassert (b <? 128); m ← Str.slice s b e; Some (slice_of m)).
Proof.
  unfold Chunk.slice. rewrite as_slice_chunk_of. split_and!.
  - intros o Ho. split; [by apply is_char_boundary_spec|]. by rewrite <-(is_char_boundary_spec s o).
  - intros o. unfold Chunk.floor_char_boundary, ChunkSlice.floor_char_boundary. open_chunks.
    destruct (Nat.leb_spec (Str.len s) o) as [Hge|Hlt]; [by rewrite floor_char_boundary_ge|]. by apply floor_loop_spec.
  - intros mid. by apply chunk_split_at_spec.
  - intros a m b ->. by apply chunk_slice_app.
  - intros start end_ Hb He. by apply chunk_slice_spec.
Qed.

Lemma chunk_cutting_witness :
  let s := [97; 0x1F350; 10; 98]%N in
  str_ok s ∧ Str.len s <= 128 ∧
  Chunk.slice (chunk_of s) 2 6 = Some (slice_of [10]%N) ∧ ChunkSlice.split_at (slice_of s) 2 = None.
Proof.
  assert (str_ok [97; 0x1F350; 10; 98]%N) as Hs by (repeat constructor; unfold char_ok; lia).
  assert (Str.len [97; 0x1F350; 10; 98]%N <= 128) as Hlen by (apply Nat.leb_le; reflexivity).
  do 2 (split; [assumption|]).
  destruct (chunk_cutting _ Hs Hlen) as (_ & _ & Hsplit & _ & Hslice).
  split; [rewrite Hslice by (by vm_compute); reflexivity|rewrite Hsplit; reflexivity].
Defined.

(** A start inside the last character of a full chunk is moved to 128, and the
    bitmaps are then shifted by their width; in a shorter chunk the slice is
    empty. *)
Lemma slice_inside_last_char :
  Chunk.slice (chunk_of (replicate 126 97%N ++ [233%N])) 127 128 = None ∧
  Chunk.slice (chunk_of (replicate 125 97%N ++ [233%N])) 126 127 = Some (slice_of []).
Proof. split; vm_compute; reflexivity. Qed.
