(* ===== verification/ChunkPositions.v ===== *)
(** * Positions in a chunk

    Every position a chunk computes from its bitmaps is the one its text gives:
    the summary, the conversions between offsets, points and their UTF-16
    variants, the clipped positions and the tabs. *)

From S2P Require Import Prelude Utf8 Points Lines TextSummary BitSelect SumTree Chunk ChunkBits ChunkFacts.

Implicit Types s : str.

#[local] Arguments N.ltb : simpl never.
#[local] Arguments N.leb : simpl never.

(** ** The summary *)

Lemma mask_take l (o : nat) : length l <= 128 →
  count_ones (N.land (bits l) (saturating_shl_mask (N.of_nat o))) = count_true (take o l).
Proof. intros Hl. unfold saturating_shl_mask. by rewrite mask_land, count_bits. Qed.

Lemma lines_spec s : Str.len s <= 128 → ChunkSlice.lines (slice_of s) = Some (extent s).
Proof.
  intros Hlen. unfold ChunkSlice.lines, lz. open_chunks. rewrite leading_zeros_bits, count_bits, count_newline_marks.
  rewrite as_u32_small by (unfold u32_max; lia). pose proof (last_true_newlines s) as Hlast. unfold BITS.
  rewrite checked_subN_Some by lia. cbn [mbind option_bind]. rewrite checked_subN_Some by lia.
  cbn [mbind option_bind]. unfold extent, Point.new. do 2 f_equal. lia.
Qed.

(** The first line, in bytes, is everything before the first newline. *)
Lemma take_first_line f `{!Marker f} s : take (Str.len (first_line s)) (marks f s) = marks f (first_line s).
Proof. destruct (first_line_split s) as (r & Hs & _). rewrite Hs at 2. by apply take_marks. Qed.

Lemma drop_last_line f `{!Marker f} s : drop (last_true (marks newline_mark s)) (marks f s) = marks f (last_line s).
Proof.
  pose proof (last_true_newlines s) as Hlast. destruct (last_line_split s) as (p & Hs & _).
  assert (Str.len s = Str.len p + Str.len (last_line s)) as Hlen by (rewrite Hs at 1; apply Str_len_app).
  replace (last_true (marks newline_mark s)) with (Str.len p) by lia. rewrite Hs at 1. by apply drop_marks.
Qed.

Lemma first_line_chars_spec s : Str.len s <= 128 →
  ChunkSlice.first_line_chars (slice_of s) = N.of_nat (length (first_line s)).
Proof.
  intros Hlen. unfold ChunkSlice.first_line_chars, tz. open_chunks. f_equal.
  rewrite mask_take by (by rewrite length_marks by apply _). rewrite trailing_zeros_bits, count_newline_marks.
  destruct (Nat.eqb_spec (Lines.newlines s) 0) as [H0|H0].
  - rewrite take_ge by (by rewrite length_marks by apply _). rewrite first_line_none by done. apply count_char_marks.
  - rewrite first_true_newlines, take_first_line by apply _. apply count_char_marks.
Qed.

Lemma last_line_counts s : Str.len s <= 128 →
  ChunkSlice.last_line_chars (slice_of s) = N.of_nat (length (last_line s)) ∧
  ChunkSlice.last_line_len_utf16 (slice_of s) = N.of_nat (Str.len_utf16 (last_line s)).
Proof.
  intros Hlen. unfold ChunkSlice.last_line_chars, ChunkSlice.last_line_len_utf16. open_chunks.
  assert (last_true (marks newline_mark s) <= Str.len s) as Hlast.
  { rewrite <-(length_marks newline_mark s). apply last_true_le. }
  rewrite !high_land, !drop_last_line by (apply _ || rewrite ?length_marks by apply _; lia).
  by rewrite count_char_marks, count_unit_marks.
Qed.

(** *** The longest row *)

(** The text up to the first newline, and after it. *)
Lemma newline_split s : Lines.newlines s ≠ 0 → ∃ r, s = first_line s ++ NEWLINE :: r ∧
  Lines.newlines s = S (Lines.newlines r) ∧ line_lens s = length (first_line s) :: line_lens r.
Proof.
  intros Hn. destruct (first_line_split s) as (r & Hs & [->|(r' & ->)]).
  - rewrite app_nil_r in Hs. rewrite Hs, newlines_first_line in Hn. done.
  - exists r'. split; [done|]. pose proof (newlines_first_line s) as H0. split.
    + rewrite Hs at 1. rewrite newlines_app, H0, newlines_cons. done.
    + destruct (line_lens_app (first_line s) (NEWLINE :: r')) as (front & back & _ & Hr & Happ & Hf & _).
      rewrite <-Hs in Happ. rewrite H0 in Hf. destruct front; [|done]. rewrite Happ. simpl.
      rewrite last_line_none by done. f_equal; [simpl; lia|].
      unfold line_lens in Hr at 1. simpl in Hr. by injection Hr as <-.
Qed.

(** The longest row seen so far, against the longest of the next ones. *)
Definition longest_from (row best_row best : nat) (lens : list nat) : nat * nat :=
  let '(r, m) := longest lens in if best <? m then (row + r, m) else (best_row, best).

Lemma longest_from_cons row best_row best n lens :
  longest_from row best_row best (n :: lens) =
    let '(best_row, best) := if best <? n then (row, n) else (best_row, best) in
    longest_from (S row) best_row best lens.
Proof.
  unfold longest_from. simpl. destruct (longest lens) as [r m].
  repeat match goal with |- context [?x <? ?y] => destruct (Nat.ltb_spec x y) end; try lia; try done; f_equal; lia.
Qed.

Definition to_row (p : nat * nat) : N * N := (N.of_nat p.1, N.of_nat p.2).

Lemma row_chars_small l : length l <= 128 → (N.of_nat (count_true l) mod 256)%N = N.of_nat (count_true l).
Proof.
  intros Hl. apply N.mod_small. assert (count_true l <= length l); [|lia].
  clear. unfold count_true. induction l as [|[] l IH]; simpl; lia.
Qed.

Lemma longest_row_loop_last fuel s total row best_row best : Lines.newlines s = 0 → Str.len s <= 128 →
  ChunkSlice.longest_row_loop fuel (bits (marks char_mark s)) (bits (marks newline_mark s)) total
    (N.of_nat row) (N.of_nat best_row) (N.of_nat best) =
  Some (total + length s, to_row (longest_from row best_row best (line_lens s))).
Proof.
  intros H0 Hlen. assert (bits (marks newline_mark s) = 0%N) as ->.
  { apply count_ones_zero. by rewrite count_bits, count_newline_marks. }
  assert (line_lens s = [length s]) as ->.
  { destruct (line_lens_app [] s) as (front & back & Hf & Hs & Happ & _ & Hb). rewrite H0 in Hb.
    destruct back; [|done]. simpl in Happ. rewrite Hs, first_line_none by done. done. }
  rewrite longest_from_cons. unfold ChunkSlice.longest_row_loop.
  destruct fuel; simpl; rewrite count_bits, row_chars_small, count_char_marks by (by rewrite length_marks by apply _).
  all: rewrite Nat2N.id, N_ltb_of_nat; unfold longest_from; simpl.
  all: destruct (Nat.ltb_spec best (length s)); simpl; by destruct (Nat.ltb_spec (length s) 0).
Qed.

Lemma longest_row_loop_spec fuel s total row best_row best :
  Lines.newlines s <= fuel → Str.len s <= 128 → (N.of_nat (row + Lines.newlines s) <= u32_max)%N →
  ChunkSlice.longest_row_loop fuel (bits (marks char_mark s)) (bits (marks newline_mark s)) total
    (N.of_nat row) (N.of_nat best_row) (N.of_nat best) =
  Some (total + length s, to_row (longest_from row best_row best (line_lens s))).
Proof.
  revert s total row best_row best. induction fuel as [|fuel IH]; intros s total row best_row best Hfuel Hlen Hrow.
  all: destruct (decide (Lines.newlines s = 0)) as [H0|H0]; [|try lia].
  1, 2: by apply longest_row_loop_last.
  destruct (newline_split s H0) as (r & Hs & Hn & Hlens). set (f := first_line s) in *.
  rewrite Hs, Str_len_app, Str_len_cons, len_utf8_newline in Hlen.
  assert (trailing_zeros (bits (marks newline_mark s)) = Str.len f) as Htz.
  { rewrite trailing_zeros_bits, count_newline_marks, first_true_newlines. by destruct (Nat.eqb_spec (Lines.newlines s) 0). }
  cbn [ChunkSlice.longest_row_loop]. destruct (N.ltb_spec 0 (bits (marks newline_mark s))) as [_|Hz].
  2: { destruct H0. rewrite <-count_newline_marks, <-count_bits. by replace (bits (marks newline_mark s)) with 0%N by lia. }
  rewrite Htz. pose proof (ones_mask (Str.len f) ltac:(lia)) as Hm. rewrite shl_one in * by lia.
  cbn [mbind option_bind] in *. rewrite Hm. cbn [mbind option_bind].
  rewrite bits_take, count_bits, row_chars_small by (rewrite length_take; lia).
  unfold f at 1 2 3. rewrite take_first_line, count_char_marks by apply _. fold f.
  rewrite !shr_bits by lia. cbn [mbind option_bind]. rewrite !shr_bits by lia. cbn [mbind option_bind].
  assert (∀ g, Marker g → drop 1 (drop (Str.len f) (marks g s)) = marks g r) as Hdrop.
  { intros g Hg. rewrite drop_drop. rewrite Hs, (cons_middle _ f), app_assoc.
    replace (Str.len f + 1) with (Str.len (f ++ [NEWLINE])) by (rewrite Str_len_app; done). by apply drop_marks. }
  rewrite !Hdrop by apply _. rewrite checked_add_Some by lia. cbn [mbind option_bind].
  replace (N.of_nat row + 1)%N with (N.of_nat (S row)) by lia.
  assert (total + N.to_nat (N.of_nat (length f)) + 1 + length r = total + length s) as <-.
  { rewrite Hs, length_app. simpl. lia. }
  rewrite Hlens, longest_from_cons, N_ltb_of_nat. destruct (best <? length f); apply IH; lia.
Qed.

Lemma text_summary_spec s : Str.len s <= 128 → ChunkSlice.text_summary (slice_of s) = Some (summary_of s).
Proof.
  intros Hlen. unfold ChunkSlice.text_summary, ChunkSlice.longest_row. open_chunks.
  pose proof (line_bounds s). change 0%N with (N.of_nat 0).
  rewrite longest_row_loop_spec by (unfold u32_max; lia). cbn [mbind option_bind].
  fold (slice_of s). rewrite lines_spec, first_line_chars_spec by done.
  destruct (last_line_counts s Hlen) as [-> ->]. unfold ChunkSlice.len, ChunkSlice.len_utf16. open_chunks.
  cbn [mbind option_bind]. rewrite count_bits, count_unit_marks. unfold longest_from, summary_of, to_row.
  destruct (longest (line_lens s)) as [r m] eqn:Hl. pose proof (longest_row_zero (line_lens s)) as H0.
  rewrite Hl in H0. simpl in H0. destruct (Nat.ltb_spec 0 m); simpl; [done|].
  rewrite H0 by lia. by replace m with 0 by lia.
Qed.

(** C34. The summary of a chunk, computed from the bitmaps alone, is the summary
    of its text: lengths, extent, first and last line and longest row are those
    [From<&str>] computes by reading every character. *)
Theorem chunk_text_summary s (Hs : str_ok s) (Hlen : Str.len s <= 128) :
  (chunk ← Chunk.new s; ChunkSlice.text_summary (Chunk.as_slice chunk)) = TextSummary.from_str s ∧
  ChunkSlice.text_summary (slice_of s) = Some (summary_of s).
Proof.
  pose proof (text_summary_spec s Hlen) as Hsum.
  split; [|done]. rewrite chunk_new_spec by done. destruct (Nat.leb_spec (Str.len s) 128); [|lia]. cbn [mbind option_bind].
  rewrite as_slice_chunk_of, Hsum, from_str_spec by (unfold u32_max; lia). done.
Qed.

(** "ab⏎c🍐⏎d" *)
Lemma chunk_text_summary_witness :
  let s := [97; 98; 10; 99; 0x1F350; 99; 10; 100]%N in
  str_ok s ∧ Str.len s <= 128 ∧
  ChunkSlice.text_summary (slice_of s) =
    Some (mkTextSummary 11 8 (OffsetUtf16.mk 9) (Point.mk 2 1) 2 1 1 1 3).
Proof.
  assert (str_ok [97; 98; 10; 99; 0x1F350; 99; 10; 100]%N) as Hs by (repeat constructor; unfold char_ok; lia).
  assert (Str.len [97; 98; 10; 99; 0x1F350; 99; 10; 100]%N <= 128) as Hlen by (apply Nat.leb_le; reflexivity).
  do 2 (split; [assumption|]).
  rewrite (proj2 (chunk_text_summary _ Hs Hlen)). reflexivity.
Defined.

(** ** Rows *)

(** Row [k] of [s] is [line], after [p] and before [r]. *)
Record row_at s (k : nat) (p line r : str) : Prop := mk_row_at {
  row_text : s = p ++ line ++ r;
  row_start : Lines.newlines p = k ∧ (p = [] ∨ ∃ p', p = p' ++ [NEWLINE]);
  row_line : Lines.newlines line = 0;
  row_end : r = [] ∨ ∃ r', r = NEWLINE :: r';
}.

(** The row a prefix ends in. *)
Lemma row_of_prefix a b : ∃ p r, a = p ++ last_line a ∧ b = first_line b ++ r ∧
  row_at (a ++ b) (Lines.newlines a) p (last_line a ++ first_line b) r.
Proof.
  destruct (last_line_split a) as (p & Ha & Hp & Hnl), (first_line_split b) as (r & Hb & Hr).
  exists p, r. split; [done|]. split; [done|]. split; [|done| |done].
  - rewrite Ha, Hb at 1. by rewrite <-!app_assoc.
  - by rewrite newlines_app, newlines_last_line, newlines_first_line.
Qed.

(** A prefix with a given number of newlines, up to the number of the text. *)
Lemma prefix_with_newlines s k : k <= Lines.newlines s → ∃ a b, s = a ++ b ∧ Lines.newlines a = k.
Proof.
  induction s as [|c s IH] using rev_ind; [intros ?; exists [], []; split; [done|change (Lines.newlines []) with 0 in *; simpl; lia]|].
  intros Hk. destruct (decide (k = Lines.newlines (s ++ [c]))) as [->|Hne]; [exists (s ++ [c]), []; by rewrite app_nil_r|].
  rewrite newlines_snoc in Hk, Hne. destruct IH as (a & b & -> & Ha); [destruct (c =? NEWLINE)%N; lia|].
  exists a, (b ++ [c]). by rewrite app_assoc.
Qed.

Lemma row_exists s k : k <= Lines.newlines s → ∃ p line r, row_at s k p line r.
Proof.
  intros Hk. destruct (prefix_with_newlines s k Hk) as (a & b & -> & <-).
  destruct (row_of_prefix a b) as (p & r & _ & _ & Hrow). by eauto.
Qed.

(** A row is determined by its number. *)
Lemma row_line_eq s k p line r : row_at s k p line r → first_line (line ++ r) = line.
Proof.
  intros [_ _ Hl Hr]. rewrite first_line_app_none by done.
  destruct Hr as [->|(r' & ->)]; simpl; by rewrite app_nil_r.
Qed.

Lemma nth_set_bit_marks l x y n : length l <= 128 → l = x ++ true :: y → S (count_true x) = n →
  nth_set_bit (bits l) n = Some (length x).
Proof.
  intros Hlen Hl Hn.
  assert (count_true l = n + count_true y) as Hcount by (rewrite Hl, count_true_app, count_true_cons; simpl; lia).
  destruct (nth_set_bit_select (bits l) n) as (i & -> & Hi & Hsel).
  { by apply bits_lt_128. }
  { rewrite count_bits. lia. }
  f_equal. eapply select_unique; [exact Hsel|]. unfold bits. rewrite to_bits_bits_of by done. apply select_app_l.
  rewrite Hl. split.
  - rewrite lookup_app_r, Nat.sub_diag by lia. done.
  - by rewrite take_app_length.
Qed.

Lemma nl_mark_one : marks newline_mark [NEWLINE] = [true].
Proof. done. Qed.

Lemma offset_range_for_row_spec s k p line r : Str.len s <= 128 → row_at s k p line r →
  ChunkSlice.offset_range_for_row (slice_of s) (N.of_nat k) = Some (Str.len p, Str.len p + Str.len line).
Proof.
  intros Hlen Hrow. pose proof (row_line_eq _ _ _ _ _ Hrow) as Hfirst. destruct Hrow as [Hs [Hk Hp] Hl Hr].
  assert (Str.len s = Str.len p + Str.len (line ++ r)) as Hs' by (by rewrite Hs, Str_len_app).
  pose proof (Str_len_app line r) as Hlr.
  unfold ChunkSlice.offset_range_for_row. open_chunks.
  assert ((if (0 <? N.of_nat k)%N
    then ix ← nth_set_bit (bits (marks newline_mark s)) (N.to_nat (N.of_nat k)); Some (ix + 1) else Some 0) = Some (Str.len p)) as ->.
  { rewrite Nat2N.id. destruct Hp as [->|(p' & ->)].
    - change (Lines.newlines []) with 0 in Hk. by subst k.
    - rewrite newlines_snoc in Hk. simpl in Hk. destruct (N.ltb_spec 0 (N.of_nat k)); [|lia].
      rewrite (nth_set_bit_marks _ (marks newline_mark p') (marks newline_mark (line ++ r))).
      + cbn [mbind option_bind]. rewrite length_marks by apply _. by rewrite Str_len_app.
      + by rewrite length_marks by apply _.
      + rewrite Hs, !marks_app, nl_mark_one, <-app_assoc. done.
      + rewrite count_newline_marks. lia. }
  cbn [mbind option_bind]. unfold MAX_BASE. destruct (Nat.eqb_spec (Str.len p) 128) as [H128|Hne].
  { cbn [mbind option_bind]. do 2 f_equal. simpl. lia. }
  rewrite shr_bits by lia. cbn [mbind option_bind]. rewrite checked_subN_Some by lia. cbn [mbind option_bind].
  rewrite as_u32_small by (unfold u32_max; lia). rewrite Hs'.
  rewrite Hs, drop_marks by apply _. unfold tz. rewrite trailing_zeros_bits, first_true_newlines, Hfirst, count_newline_marks.
  do 2 f_equal.
  destruct (Nat.eqb_spec (Lines.newlines (line ++ r)) 0) as [H0|H0]; [|lia].
  rewrite first_line_none in Hfirst by done. rewrite Hfirst. lia.
Qed.

(** ** Offsets and points *)

(** The character an offset falls into: [a] is the text before it. *)
Definition inside (a b : str) (o : nat) : Prop :=
  Str.len a <= o ∧ (b = [] ∨ ∃ c b', b = c :: b' ∧ o < Str.len a + len_utf8 c).

Lemma inside_exists s o : ∃ a b, s = a ++ b ∧ Str.floor_char_boundary s o = Str.len a ∧ inside a b o.
Proof.
  destruct (floor_spec s o) as (a & b & Hs & Hf & Hle & Hmax). exists a, b. split_and!; [done..|].
  split; [done|]. destruct b as [|c b]; [by left|right]. exists c, b. split; [done|].
  destruct (decide (Str.len a + len_utf8 c <= o)) as [Hge|]; [|lia].
  rewrite (cons_middle c), app_assoc in Hs. specialize (Hmax (a ++ [c]) b Hs).
  rewrite Str_len_app, Str_len_cons in Hmax. change (Str.len []) with 0 in Hmax. pose proof (len_utf8_pos c). lia.
Qed.

Lemma inside_boundary a b : inside a b (Str.len a).
Proof.
  split; [done|]. destruct b as [|c b]; [by left|right]. exists c, b. split; [done|]. pose proof (len_utf8_pos c). lia.
Qed.

(** There is no newline between an offset and the boundary below it. *)
Lemma take_newline_marks a b o : inside a b o → ∃ n,
  take o (marks newline_mark (a ++ b)) = marks newline_mark a ++ replicate n false.
Proof.
  intros [Hle Hb]. rewrite marks_app, take_app, length_marks by apply _.
  rewrite take_ge by (by rewrite length_marks by apply _).
  destruct Hb as [->|(c & b' & -> & Hlt)]; [exists 0; change (marks newline_mark []) with (@nil bool); by rewrite take_nil|].
  rewrite marks_cons, take_app_le by (rewrite marker_length; lia). exists (o - Str.len a). f_equal.
  destruct (o - Str.len a) as [|n] eqn:Hn; [done|].
  unfold newline_mark. simpl. rewrite take_replicate, Nat.min_l by lia. f_equal.
  destruct (N.eqb_spec c NEWLINE) as [->|]; [|done]. rewrite len_utf8_newline in Hlt. lia.
Qed.

Lemma offset_to_point_inside a b o : Str.len (a ++ b) <= 128 → (N.of_nat o <= u32_max)%N → inside a b o →
  ChunkSlice.offset_to_point (slice_of (a ++ b)) o =
    Some (Point.mk (N.of_nat (Lines.newlines a)) (N.of_nat (Str.len (last_line a) + (o - Str.len a)))).
Proof.
  intros Hlen Ho Hin. unfold ChunkSlice.offset_to_point, lz. open_chunks. rewrite as_u32_small by done.
  rewrite mask_land by (by rewrite length_marks by apply _). rewrite count_bits, leading_zeros_bits.
  destruct (take_newline_marks a b o Hin) as (n & ->). rewrite count_true_app, count_true_false, count_newline_marks.
  rewrite last_true_app, last_true_false. cbn [Nat.eqb]. pose proof (last_true_newlines a). destruct Hin as [Hle _].
  rewrite Str_len_app in Hlen. unfold BITS. rewrite checked_subN_Some by lia. cbn [mbind option_bind].
  rewrite checked_subN_Some by lia. cbn [mbind option_bind]. rewrite as_u32_small by lia.
  unfold Point.new. do 2 f_equal; lia.
Qed.

Lemma offset_to_point_app a b : Str.len (a ++ b) <= 128 →
  ChunkSlice.offset_to_point (slice_of (a ++ b)) (Str.len a) = Some (extent a).
Proof.
  intros Hlen. pose proof Hlen as Hlen'. rewrite Str_len_app in Hlen'.
  rewrite offset_to_point_inside by (done || apply inside_boundary || unfold u32_max; lia).
  unfold extent. do 2 f_equal. lia.
Qed.

Lemma point_to_offset_spec s k p line r column : Str.len s <= 128 → row_at s k p line r →
  ChunkSlice.point_to_offset (slice_of s) (Point.mk (N.of_nat k) column) =
    if (column <=? N.of_nat (Str.len line))%N then Some (Str.len p + N.to_nat column) else None.
Proof.
  intros Hlen Hrow. unfold ChunkSlice.point_to_offset. rewrite lines_spec by done. cbn [mbind option_bind Point.row].
  pose proof (offset_range_for_row_spec s k p line r Hlen Hrow) as ->. destruct Hrow as [Hs [Hk _] _ _].
  assert (k <= Lines.newlines s) by (rewrite Hs, newlines_app; lia). rewrite Hs, !Str_len_app in Hlen.
  unfold extent. cbn [Point.row]. destruct (N.ltb_spec (N.of_nat (Lines.newlines s)) (N.of_nat k)); [lia|].
  cbn [mbind option_bind Point.column]. rewrite as_u32_small by (unfold u32_max; lia).
  replace (Str.len p + Str.len line - Str.len p) with (Str.len line) by lia.
  by destruct (N.ltb_spec (N.of_nat (Str.len line)) column), (N.leb_spec column (N.of_nat (Str.len line))); try lia.
Qed.

Lemma point_to_offset_inside a b o : Str.len (a ++ b) <= 128 → inside a b o → o <= Str.len (a ++ b) →
  ChunkSlice.point_to_offset (slice_of (a ++ b))
    (Point.mk (N.of_nat (Lines.newlines a)) (N.of_nat (Str.len (last_line a) + (o - Str.len a)))) = Some o.
Proof.
  intros Hlen Hin Hle. destruct (row_of_prefix a b) as (p & r & Ha & Hb & Hrow).
  rewrite (point_to_offset_spec _ _ _ _ _ _ Hlen Hrow), Str_len_app.
  assert (Str.len a = Str.len p + Str.len (last_line a)) as Hla by (rewrite Ha at 1; apply Str_len_app).
  assert (o - Str.len a <= Str.len (first_line b)) as Hcol.
  { destruct Hin as [Hge [->|(c & b' & -> & Hlt)]]; [rewrite app_nil_r in Hle; lia|].
    destruct (decide (o = Str.len a)); [lia|]. simpl. destruct (N.eqb_spec c NEWLINE) as [->|].
    - rewrite len_utf8_newline in Hlt. lia.
    - rewrite Str_len_cons. lia. }
  destruct (N.leb_spec (N.of_nat (Str.len (last_line a) + (o - Str.len a)))
    (N.of_nat (Str.len (last_line a) + Str.len (first_line b)))); [|lia].
  f_equal. destruct Hin. lia.
Qed.

(** ** UTF-16 offsets *)

Lemma offset_to_offset_utf16_app a b : Str.len (a ++ b) <= 128 →
  ChunkSlice.offset_to_offset_utf16 (slice_of (a ++ b)) (Str.len a) = OffsetUtf16.mk (Str.len_utf16 a).
Proof.
  intros Hlen. unfold ChunkSlice.offset_to_offset_utf16. open_chunks.
  rewrite as_u32_small by (rewrite Str_len_app in Hlen; unfold u32_max; lia).
  rewrite mask_land by (by rewrite length_marks by apply _). by rewrite take_marks, count_bits, count_unit_marks by apply _.
Qed.

(** A count of UTF-16 units ends between two characters or inside a pair. *)
Lemma utf16_cases s n : n <= Str.len_utf16 s →
  (∃ a b, s = a ++ b ∧ Str.len_utf16 a = n) ∨
  (∃ a c b, s = a ++ c :: b ∧ Utf8.len_utf16 c = 2 ∧ Str.len_utf16 a + 1 = n).
Proof.
  revert n. induction s as [|c s IH]; intros n Hn.
  { left. exists [], []. split; [done|]. change (Str.len_utf16 []) with 0 in *. lia. }
  destruct n as [|n]; [left; by exists [], (c :: s)|].
  rewrite Str_len_utf16_cons in Hn. pose proof (len_utf16_le_utf8 c).
  assert (Utf8.len_utf16 c = 1 ∨ Utf8.len_utf16 c = 2) as [Hc|Hc] by (unfold Utf8.len_utf16; destruct (_ <? _)%N; auto).
  - destruct (IH n) as [(a & b & -> & Ha)|(a & d & b & -> & Hd & Ha)]; [lia|..].
    + left. exists (c :: a), b. rewrite Str_len_utf16_cons. split; [done|lia].
    + right. exists (c :: a), d, b. rewrite Str_len_utf16_cons. split_and!; [done..|lia].
  - destruct n as [|n]; [right; by exists [], c, s|].
    destruct (IH n) as [(a & b & -> & Ha)|(a & d & b & -> & Hd & Ha)]; [lia|..].
    + left. exists (c :: a), b. rewrite Str_len_utf16_cons. split; [done|lia].
    + right. exists (c :: a), d, b. rewrite Str_len_utf16_cons. split_and!; [done..|lia].
Qed.

(** After the last unit of a text the next mark is the next character. *)
Lemma first_unit_mark b : b ≠ [] → first_true (marks unit_mark b) = 0.
Proof.
  destruct b as [|c b]; [done|]. intros _. rewrite marks_cons. unfold unit_mark, char_mark. by destruct (_ =? 2).
Qed.

(** The steps after the select, for a mark that ends [x]. *)
Lemma after_unit s (x y : list bool) n m : Str.len s <= 128 → marks unit_mark s = x ++ true :: replicate m false ++ y →
  n = S (count_true x) → first_true y = 0 →
  ChunkSlice.offset_utf16_to_offset (slice_of s) (OffsetUtf16.mk n) = Some (length x + 1 + m).
Proof.
  intros Hlen Hs Hn Hy. unfold ChunkSlice.offset_utf16_to_offset. cbn [OffsetUtf16.offset]. subst n. cbn [Nat.eqb]. open_chunks.
  assert (length (marks unit_mark s) = Str.len s) as Hls by (by apply length_marks; apply _).
  assert (Str.len s = length x + 1 + m + length y) as Hlx.
  { rewrite <-Hls, Hs, !length_app. simpl. rewrite length_app, length_replicate. lia. }
  rewrite (nth_set_bit_marks _ x (replicate m false ++ y)) by (done || lia). cbn [mbind option_bind]. unfold MAX_BASE.
  destruct (Nat.eqb_spec (length x + 1) 128); [f_equal; lia|].
  rewrite shr_bits by lia. cbn [mbind option_bind]. rewrite checked_subN_Some by lia. cbn [mbind option_bind].
  assert (drop (length x + 1) (marks unit_mark s) = replicate m false ++ y) as ->.
  { rewrite Hs, (cons_middle true), app_assoc. by rewrite drop_app_length' by (rewrite length_app; simpl; lia). }
  rewrite trailing_zeros_bits, count_true_app, count_true_false, first_true_app, count_true_false, length_replicate, Hy.
  cbn [Nat.eqb]. f_equal. destruct (Nat.eqb_spec (0 + count_true y) 0) as [H0|H0]; [|lia].
  destruct y as [|[] y]; [cbn [length] in Hlx; lia|rewrite count_true_cons in H0; simpl in H0; lia|done].
Qed.

Lemma marks_one f c : marks f [c] = f c.
Proof. apply app_nil_r. Qed.

Lemma offset_utf16_to_offset_app a b : Str.len (a ++ b) <= 128 →
  ChunkSlice.offset_utf16_to_offset (slice_of (a ++ b)) (OffsetUtf16.mk (Str.len_utf16 a)) = Some (Str.len a).
Proof.
  intros Hlen. destruct a as [|c a _] using rev_ind; [done|].
  assert (first_true (marks unit_mark b) = 0) as Hb by (destruct b; [done|by apply first_unit_mark]).
  rewrite Str_len_utf16_app, Str_len_utf16_cons, Str_len_app, Str_len_cons. change (Str.len []) with 0.
  change (Str.len_utf16 []) with 0. pose proof (len_utf8_pos c). destruct (decide (Utf8.len_utf16 c = 2)) as [Hc|Hc].
  - rewrite (after_unit _ (marks unit_mark a ++ [true]) (marks unit_mark b) _ 2).
    + rewrite length_app, length_marks, len_utf16_two by (apply _ || done). simpl. f_equal. lia.
    + done.
    + rewrite !marks_app, marks_one. unfold unit_mark at 2. rewrite Hc. by rewrite <-!app_assoc.
    + rewrite count_true_app, count_unit_marks, Hc. unfold count_true. simpl. lia.
    + done.
  - assert (Utf8.len_utf16 c = 1) as Hc1 by (unfold Utf8.len_utf16 in *; by destruct (_ <? _)%N).
    rewrite (after_unit _ (marks unit_mark a) (marks unit_mark b) _ (len_utf8 c - 1)).
    + rewrite length_marks by apply _. f_equal. lia.
    + done.
    + rewrite !marks_app, marks_one. unfold unit_mark at 2, char_mark. rewrite Hc1. by rewrite <-!app_assoc.
    + rewrite count_unit_marks, Hc1. lia.
    + done.
Qed.

(** A count that ends inside a pair gives the byte after the lead. *)
Lemma offset_utf16_to_offset_inside a c b : Str.len (a ++ c :: b) <= 128 → Utf8.len_utf16 c = 2 →
  ChunkSlice.offset_utf16_to_offset (slice_of (a ++ c :: b)) (OffsetUtf16.mk (Str.len_utf16 a + 1)) = Some (Str.len a + 1).
Proof.
  intros Hlen Hc. rewrite (after_unit _ (marks unit_mark a) (true :: false :: false :: marks unit_mark b) _ 0).
  - rewrite length_marks by apply _. f_equal. lia.
  - done.
  - rewrite marks_app, marks_cons. unfold unit_mark at 2. by rewrite Hc.
  - rewrite count_unit_marks. lia.
  - done.
Qed.

(** *** Walking to a boundary *)

Lemma retreat_spec s o : str_ok s → ChunkSlice.retreat s o = Some (Str.floor_char_boundary s o).
Proof.
  intros Hs. induction o as [|o IH]; simpl.
  - by rewrite floor_boundary.
  - destruct (Str.is_char_boundary s (S o)) eqn:Hb; [by rewrite floor_boundary|]. rewrite IH. f_equal.
    destruct (floor_spec s (S o)) as (a & b & Hab & -> & Hle & Hmax), (floor_spec s o) as (a' & b' & Hab' & -> & Hle' & Hmax').
    assert (Str.len a ≠ S o) as Hne.
    { intros Heq. assert (Str.is_char_boundary s (S o) = true); [|congruence].
      apply Str_is_char_boundary_iff; [done|]. by exists a, b. }
    specialize (Hmax a' b' Hab' ltac:(lia)). specialize (Hmax' a b Hab ltac:(lia)). lia.
Qed.

Lemma advance_spec s o fuel : str_ok s → o <= Str.len s → Str.len s - o <= fuel →
  ChunkSlice.advance fuel s o = Some (Str.ceil_char_boundary s o).
Proof.
  intros Hs. revert o. induction fuel as [|fuel IH]; intros o Ho Hfuel; cbn [ChunkSlice.advance].
  all: destruct (Str.is_char_boundary s o) eqn:Hb; [by rewrite ceil_boundary|].
  - replace o with (Str.len s) in Hb by lia. by rewrite Str_is_char_boundary_len in Hb.
  - assert (o ≠ Str.len s) by (intros ->; by rewrite Str_is_char_boundary_len in Hb).
    rewrite IH by lia. f_equal.
    destruct (ceil_spec s o) as (a & b & Hab & -> & Hle & Hmin), (ceil_spec s (o + 1)) as (a' & b' & Hab' & -> & Hle' & Hmin').
    assert (Str.len a ≠ o) as Hne.
    { intros Heq. assert (Str.is_char_boundary s o = true); [|congruence].
      apply Str_is_char_boundary_iff; [done|]. by exists a, b. }
    assert (o <= Str.len a).
    { destruct Hle as [|Hb0]; [done|]. subst b. rewrite app_nil_r in Hab. subst. lia. }
    assert (o + 1 <= Str.len a').
    { destruct Hle' as [|Hb0]; [done|]. subst b'. rewrite app_nil_r in Hab'. subst. lia. }
    specialize (Hmin a' b' Hab' ltac:(lia)). specialize (Hmin' a b Hab ltac:(lia)). lia.
Qed.

(** The boundaries around the second byte of a character. *)
Lemma around_inside a c b : Utf8.len_utf16 c = 2 →
  Str.floor_char_boundary (a ++ c :: b) (Str.len a + 1) = Str.len a ∧
  Str.ceil_char_boundary (a ++ c :: b) (Str.len a + 1) = Str.len a + 4.
Proof.
  intros Hc. induction a as [|d a [IH1 IH2]].
  - cbn [app Str.floor_char_boundary Str.ceil_char_boundary]. rewrite len_utf16_two by done.
    change (Str.len [] + 1) with 1. cbn [Nat.leb Nat.sub]. by destruct b.
  - rewrite Str_len_cons. cbn [app]. pose proof (len_utf8_pos d).
    destruct (len_utf8 d + Str.len a + 1) as [|n] eqn:Hn; [lia|].
    cbn [Str.floor_char_boundary Str.ceil_char_boundary]. rewrite <-Hn.
    replace (len_utf8 d + Str.len a + 1 - len_utf8 d) with (Str.len a + 1) by lia. rewrite IH1, IH2.
    destruct (Nat.leb_spec (len_utf8 d) (len_utf8 d + Str.len a + 1)); lia.
Qed.

Lemma not_boundary_inside a c b : str_ok (a ++ c :: b) → Utf8.len_utf16 c = 2 →
  Str.is_char_boundary (a ++ c :: b) (Str.len a + 1) = false.
Proof.
  intros Hs Hc. destruct (Str.is_char_boundary _ _) eqn:Hb; [|done]. apply floor_boundary in Hb; [|done].
  rewrite (proj1 (around_inside a c b Hc)) in Hb. lia.
Qed.

(** *** [clip_offset_utf16] *)

Lemma len_utf16_spec s : ChunkSlice.len_utf16 (slice_of s) = OffsetUtf16.mk (Str.len_utf16 s).
Proof. unfold ChunkSlice.len_utf16. open_chunks. by rewrite count_bits, count_unit_marks. Qed.

Lemma clip_offset_utf16_ge s t bias : Str.len_utf16 s <= t →
  ChunkSlice.clip_offset_utf16 (slice_of s) (OffsetUtf16.mk t) bias = Some (OffsetUtf16.mk (Str.len_utf16 s)).
Proof.
  intros Ht. unfold ChunkSlice.clip_offset_utf16. rewrite len_utf16_spec. cbn [OffsetUtf16.offset].
  destruct (Nat.eqb_spec t 0) as [->|]; [do 2 f_equal; lia|]. by destruct (Nat.leb_spec (Str.len_utf16 s) t); [|lia].
Qed.

Lemma clip_offset_utf16_app a b bias : str_ok (a ++ b) → Str.len (a ++ b) <= 128 →
  ChunkSlice.clip_offset_utf16 (slice_of (a ++ b)) (OffsetUtf16.mk (Str.len_utf16 a)) bias = Some (OffsetUtf16.mk (Str.len_utf16 a)).
Proof.
  intros Hs Hlen. unfold ChunkSlice.clip_offset_utf16. rewrite len_utf16_spec. cbn [OffsetUtf16.offset].
  destruct (Nat.eqb_spec (Str.len_utf16 a) 0) as [->|]; [done|].
  destruct (Nat.leb_spec (Str.len_utf16 (a ++ b)) (Str.len_utf16 a)) as [Hle|_].
  { rewrite Str_len_utf16_app in *. do 2 f_equal. lia. }
  rewrite offset_utf16_to_offset_app by done. cbn [mbind option_bind]. open_chunks.
  pose proof Hs as [_ Hb]%Forall_app. pose proof (Str_is_char_boundary_app a b Hb) as Hbd.
  assert (Str.len a <= Str.len (a ++ b)) by (rewrite Str_len_app; lia).
  destruct bias; [rewrite retreat_spec, floor_boundary by done|rewrite advance_spec, ceil_boundary by (done || unfold ChunkSlice.len; simpl; lia)].
  all: cbn [mbind option_bind]; fold (slice_of (a ++ b)); by rewrite offset_to_offset_utf16_app.
Qed.

Lemma clip_offset_utf16_inside a c b bias : str_ok (a ++ c :: b) → Str.len (a ++ c :: b) <= 128 → Utf8.len_utf16 c = 2 →
  ChunkSlice.clip_offset_utf16 (slice_of (a ++ c :: b)) (OffsetUtf16.mk (Str.len_utf16 a + 1)) bias =
    Some (OffsetUtf16.mk (match bias with Left => Str.len_utf16 a | Right => Str.len_utf16 a + 2 end)).
Proof.
  intros Hs Hlen Hc. unfold ChunkSlice.clip_offset_utf16. rewrite len_utf16_spec. cbn [OffsetUtf16.offset].
  destruct (Nat.eqb_spec (Str.len_utf16 a + 1) 0); [lia|].
  destruct (Nat.leb_spec (Str.len_utf16 (a ++ c :: b)) (Str.len_utf16 a + 1)) as [Hle|_].
  { rewrite Str_len_utf16_app, Str_len_utf16_cons in Hle. lia. }
  rewrite offset_utf16_to_offset_inside by done. cbn [mbind option_bind]. open_chunks.
  destruct (around_inside a c b Hc) as [Hfloor Hceil]. destruct bias.
  - rewrite retreat_spec, Hfloor by done. cbn [mbind option_bind]. fold (slice_of (a ++ c :: b)).
    by rewrite offset_to_offset_utf16_app.
  - assert (Str.len a + 1 <= Str.len (a ++ c :: b)).
    { rewrite Str_len_app, Str_len_cons, len_utf16_two by done. lia. }
    rewrite advance_spec, Hceil by (done || unfold ChunkSlice.len; simpl; lia). cbn [mbind option_bind].
    fold (slice_of (a ++ c :: b)). rewrite (cons_middle c), app_assoc.
    replace (Str.len a + 4) with (Str.len (a ++ [c])) by (rewrite Str_len_app, Str_len_cons, len_utf16_two by done; done).
    rewrite offset_to_offset_utf16_app by (by rewrite <-app_assoc). by rewrite Str_len_utf16_app, Str_len_utf16_cons, Hc.
Qed.

(** ** UTF-16 points *)

Lemma str_ok_r a b : str_ok (a ++ b) → str_ok b.
Proof. by intros [_ Hb]%Forall_app. Qed.

Definition extent_utf16 s : PointUtf16 :=
  PointUtf16.mk (N.of_nat (Lines.newlines s)) (N.of_nat (Str.len_utf16 (last_line s))).

Lemma offset_to_point_utf16_app a b : Str.len (a ++ b) <= 128 →
  ChunkSlice.offset_to_point_utf16 (slice_of (a ++ b)) (Str.len a) = Some (extent_utf16 a).
Proof.
  intros Hlen. pose proof Hlen as Hlen'. rewrite Str_len_app in Hlen'.
  unfold ChunkSlice.offset_to_point_utf16, lz, saturating_shl_mask. open_chunks. rewrite as_u32_small by (unfold u32_max; lia).
  rewrite !mask_land, !take_marks, count_bits, count_newline_marks, leading_zeros_bits by (apply _ || by rewrite length_marks by apply _).
  pose proof (last_true_newlines a). unfold BITS. rewrite checked_subN_Some by lia. cbn [mbind option_bind].
  replace (N.to_nat (N.of_nat 128 - N.of_nat (128 - last_true (marks newline_mark a)))%N) with (last_true (marks newline_mark a)) by lia.
  unfold MAX_BASE. destruct (Nat.eqb_spec (last_true (marks newline_mark a)) 128) as [H128|Hne]; cbn [mbind option_bind].
  - assert (last_line a = []) as Hl by (apply Str_len_zero; lia). unfold extent_utf16. by rewrite Hl.
  - rewrite shr_bits by lia. cbn [mbind option_bind]. by rewrite drop_last_line, count_bits, count_unit_marks by apply _.
Qed.

(** The line of a row, as the functions on UTF-16 points slice it. *)
Lemma row_slice s k p line r : str_ok s → Str.len s <= 128 → row_at s k p line r →
  ChunkSlice.slice (slice_of s) (Str.len p) (Str.len p + Str.len line) = Some (slice_of line).
Proof. intros Hs Hlen [-> _ _ _]. by apply chunk_slice_app. Qed.

Lemma row_bounds s k p line r : str_ok s → Str.len s <= 128 → row_at s k p line r →
  str_ok line ∧ Str.len line <= 128 ∧ Str.len p + Str.len line <= Str.len s ∧ k <= Lines.newlines s ∧
  ChunkSlice.last_line_len_utf16 (slice_of line) = N.of_nat (Str.len_utf16 line).
Proof.
  intros Hs Hlen [-> [Hk _] Hl _]. apply Forall_app in Hs as [_ [Hs _]%Forall_app].
  rewrite !Str_len_app in Hlen |- *. rewrite newlines_app, (proj2 (last_line_counts line ltac:(lia))), last_line_none by done.
  split_and!; [done|lia..|done].
Qed.

(** Opens a function on a row of the text. *)
Ltac open_row Hs Hlen Hrow :=
  destruct (row_bounds _ _ _ _ _ Hs Hlen Hrow) as (Hsl & Hll & Hpl & Hk & H16);
  rewrite lines_spec by done; cbn [mbind option_bind PointUtf16.row PointUtf16.column Point.row extent];
  match goal with |- context [(N.of_nat (Lines.newlines ?s) <? N.of_nat ?k)%N] =>
    destruct (N.ltb_spec (N.of_nat (Lines.newlines s)) (N.of_nat k)); [lia|] end;
  rewrite (offset_range_for_row_spec _ _ _ _ _ Hlen Hrow); cbn [mbind option_bind];
  rewrite (row_slice _ _ _ _ _ Hs Hlen Hrow); cbn [mbind option_bind].

Lemma point_utf16_to_offset_app s k p a b r clip : str_ok s → Str.len s <= 128 → row_at s k p (a ++ b) r →
  ChunkSlice.point_utf16_to_offset (slice_of s) (PointUtf16.mk (N.of_nat k) (N.of_nat (Str.len_utf16 a))) clip =
    Some (Str.len p + Str.len a).
Proof.
  intros Hs Hlen Hrow. unfold ChunkSlice.point_utf16_to_offset. open_row Hs Hlen Hrow.
  rewrite H16, Nat2N.id, Str_len_utf16_app.
  destruct (N.ltb_spec (N.of_nat (Str.len_utf16 a + Str.len_utf16 b)) (N.of_nat (Str.len_utf16 a))); [lia|].
  destruct (N.ltb_spec 0 (N.of_nat (Str.len_utf16 a))) as [Ha|Ha].
  - rewrite offset_utf16_to_offset_app by done. cbn [mbind option_bind]. open_chunks.
    assert (Str.is_char_boundary s (Str.len p + Str.len a) = true) as ->; [|done].
    apply Str_is_char_boundary_iff; [done|]. destruct Hrow as [-> _ _ _]. exists (p ++ a), (b ++ r).
    by rewrite Str_len_app, <-!app_assoc.
  - pose proof (Str_lengths a). destruct a as [|c a]; [by rewrite Nat.add_0_r|]. simpl in *. lia.
Qed.

Lemma point_utf16_to_offset_inside s k p a c b r clip : str_ok s → Str.len s <= 128 → row_at s k p (a ++ c :: b) r →
  Utf8.len_utf16 c = 2 →
  ChunkSlice.point_utf16_to_offset (slice_of s) (PointUtf16.mk (N.of_nat k) (N.of_nat (Str.len_utf16 a + 1))) clip =
    if clip then Some (Str.len p + Str.len a) else None.
Proof.
  intros Hs Hlen Hrow Hc. unfold ChunkSlice.point_utf16_to_offset. open_row Hs Hlen Hrow.
  rewrite H16, Nat2N.id, Str_len_utf16_app, Str_len_utf16_cons, Hc.
  destruct (N.ltb_spec (N.of_nat (Str.len_utf16 a + (2 + Str.len_utf16 b))) (N.of_nat (Str.len_utf16 a + 1))); [lia|].
  destruct (N.ltb_spec 0 (N.of_nat (Str.len_utf16 a + 1))); [|lia].
  rewrite offset_utf16_to_offset_inside by done. cbn [mbind option_bind]. open_chunks.
  destruct Hrow as [-> _ _ _]. rewrite <-app_assoc in *. cbn [app] in *. rewrite app_assoc in *.
  rewrite (Nat.add_assoc _ _ 1), <-Str_len_app, not_boundary_inside by done.
  rewrite Nat.add_1_r. rewrite retreat_spec by done. cbn [mbind option_bind].
  rewrite floor_boundary by (done || by apply Str_is_char_boundary_app; eapply str_ok_r). done.
Qed.

Lemma point_utf16_to_offset_beyond s k p line r column clip : str_ok s → Str.len s <= 128 → row_at s k p line r →
  (N.of_nat (Str.len_utf16 line) < column)%N →
  ChunkSlice.point_utf16_to_offset (slice_of s) (PointUtf16.mk (N.of_nat k) column) clip =
    if clip then Some (Str.len p + Str.len line) else None.
Proof.
  intros Hs Hlen Hrow Hcol. unfold ChunkSlice.point_utf16_to_offset. open_row Hs Hlen Hrow. rewrite H16.
  by destruct (N.ltb_spec (N.of_nat (Str.len_utf16 line)) column); [|lia].
Qed.

Lemma unclipped_app s k p a b r : str_ok s → Str.len s <= 128 → row_at s k p (a ++ b) r →
  ChunkSlice.unclipped_point_utf16_to_point (slice_of s) (Unclipped.mk (PointUtf16.mk (N.of_nat k) (N.of_nat (Str.len_utf16 a)))) =
    Some (Point.mk (N.of_nat k) (N.of_nat (Str.len a))).
Proof.
  intros Hs Hlen Hrow. unfold ChunkSlice.unclipped_point_utf16_to_point. cbn [Unclipped.inner]. open_row Hs Hlen Hrow.
  pose proof (Str_lengths a) as Ha. pose proof (Str_lengths b) as Hb. pose proof Hll as Hll'. rewrite Str_len_app in Hll'.
  destruct (N.eqb_spec (N.of_nat (Str.len_utf16 a)) 0) as [H0|H0].
  { destruct a as [|c a]; [done|]. simpl in *. lia. }
  rewrite len_utf16_spec, Str_len_utf16_app. cbn [OffsetUtf16.offset]. rewrite as_u32_small by (unfold u32_max; lia).
  destruct (N.leb_spec (N.of_nat (Str.len_utf16 a + Str.len_utf16 b)) (N.of_nat (Str.len_utf16 a))) as [Hle|Hgt].
  - assert (b = []) as -> by (destruct b; [done|simpl in *; lia]). unfold ChunkSlice.len. open_chunks.
    rewrite app_nil_r, as_u32_small by (unfold u32_max; lia). done.
  - rewrite Nat2N.id, offset_utf16_to_offset_app by done. cbn [mbind option_bind]. open_chunks.
    rewrite retreat_spec, floor_boundary by (done || by apply Str_is_char_boundary_app; eapply str_ok_r).
    cbn [mbind option_bind]. by rewrite as_u32_small by (unfold u32_max; lia).
Qed.

Lemma unclipped_inside s k p a c b r : str_ok s → Str.len s <= 128 → row_at s k p (a ++ c :: b) r → Utf8.len_utf16 c = 2 →
  ChunkSlice.unclipped_point_utf16_to_point (slice_of s) (Unclipped.mk (PointUtf16.mk (N.of_nat k) (N.of_nat (Str.len_utf16 a + 1)))) =
    Some (Point.mk (N.of_nat k) (N.of_nat (Str.len a))).
Proof.
  intros Hs Hlen Hrow Hc. unfold ChunkSlice.unclipped_point_utf16_to_point. cbn [Unclipped.inner]. open_row Hs Hlen Hrow.
  pose proof (Str_lengths (a ++ c :: b)) as Ha.
  destruct (N.eqb_spec (N.of_nat (Str.len_utf16 a + 1)) 0) as [H0|H0]; [lia|].
  rewrite len_utf16_spec. cbn [OffsetUtf16.offset]. rewrite as_u32_small by (unfold u32_max; lia).
  rewrite Str_len_utf16_app, Str_len_utf16_cons, Hc.
  destruct (N.leb_spec (N.of_nat (Str.len_utf16 a + (2 + Str.len_utf16 b))) (N.of_nat (Str.len_utf16 a + 1))); [lia|].
  rewrite Nat2N.id, offset_utf16_to_offset_inside by done. cbn [mbind option_bind]. open_chunks.
  rewrite retreat_spec, (proj1 (around_inside a c b Hc)) by done. cbn [mbind option_bind].
  rewrite Str_len_app in Hll. by rewrite as_u32_small by (unfold u32_max; lia).
Qed.

Lemma unclipped_beyond s k p line r column : str_ok s → Str.len s <= 128 → row_at s k p line r →
  (N.of_nat (Str.len_utf16 line) < column)%N →
  ChunkSlice.unclipped_point_utf16_to_point (slice_of s) (Unclipped.mk (PointUtf16.mk (N.of_nat k) column)) =
    Some (Point.mk (N.of_nat k) (N.of_nat (Str.len line))).
Proof.
  intros Hs Hlen Hrow Hcol. unfold ChunkSlice.unclipped_point_utf16_to_point. cbn [Unclipped.inner]. open_row Hs Hlen Hrow.
  pose proof (Str_lengths line) as Ha. destruct (N.eqb_spec column 0); [lia|].
  rewrite len_utf16_spec. cbn [OffsetUtf16.offset]. rewrite as_u32_small by (unfold u32_max; lia).
  destruct (N.leb_spec (N.of_nat (Str.len_utf16 line)) column); [|lia]. unfold ChunkSlice.len. open_chunks.
  by rewrite as_u32_small by (unfold u32_max; lia).
Qed.

(** A row is clipped like an offset in its line. *)
Lemma clip_point_utf16_row s k p line r column bias : str_ok s → Str.len s <= 128 → row_at s k p line r →
  ChunkSlice.clip_point_utf16 (slice_of s) (Unclipped.mk (PointUtf16.mk (N.of_nat k) column)) bias =
    (c ← ChunkSlice.clip_offset_utf16 (slice_of line) (OffsetUtf16.mk (N.to_nat column)) bias;
     Some (PointUtf16.mk (N.of_nat k) (as_u32 (OffsetUtf16.offset c)))).
Proof.
  intros Hs Hlen Hrow. unfold ChunkSlice.clip_point_utf16. cbn [Unclipped.inner]. by open_row Hs Hlen Hrow.
Qed.

(** ** Properties *)

Lemma prefix_row a b : row_at (a ++ b) (Lines.newlines a) (take (length a - length (last_line a)) a) (last_line a ++ first_line b)
  (drop (length (first_line b)) b) ∧ a = take (length a - length (last_line a)) a ++ last_line a.
Proof.
  destruct (row_of_prefix a b) as (p & r & Ha & Hb & Hrow).
  assert (take (length a - length (last_line a)) a = p) as ->.
  { rewrite Ha at 1 3. rewrite length_app. by rewrite take_app_length' by lia. }
  assert (drop (length (first_line b)) b = r) as ->; [|done]. rewrite Hb at 2. by rewrite drop_app_length.
Qed.

Lemma point_to_offset_app a b : Str.len (a ++ b) <= 128 →
  ChunkSlice.point_to_offset (slice_of (a ++ b)) (extent a) = Some (Str.len a).
Proof.
  intros Hlen. pose proof (point_to_offset_inside a b (Str.len a) Hlen (inside_boundary a b)) as H.
  rewrite Nat.sub_diag, Nat.add_0_r in H. apply H. rewrite Str_len_app. lia.
Qed.

(** At every character boundary of a chunk, its conversions give the row and
    column, in bytes and in UTF-16 units, and the number of UTF-16 units of the
    text before the boundary. *)
Theorem chunk_positions a b (Hlen : Str.len (a ++ b) <= 128) :
  let s := slice_of (a ++ b) in
  ChunkSlice.offset_to_point s (Str.len a) = Some (extent a) ∧
  ChunkSlice.offset_to_point_utf16 s (Str.len a) = Some (extent_utf16 a) ∧
  ChunkSlice.offset_to_offset_utf16 s (Str.len a) = OffsetUtf16.mk (Str.len_utf16 a) ∧
  ChunkSlice.point_to_point_utf16 s (extent a) = Some (extent_utf16 a) ∧
  ChunkSlice.point_to_offset_utf16 s (extent a) = Some (OffsetUtf16.mk (Str.len_utf16 a)).
Proof.
  intros s. split_and!.
  - by apply offset_to_point_app.
  - by apply offset_to_point_utf16_app.
  - by apply offset_to_offset_utf16_app.
  - unfold ChunkSlice.point_to_point_utf16. unfold s. rewrite point_to_offset_app by done. cbn [mbind option_bind].
    by apply offset_to_point_utf16_app.
  - unfold ChunkSlice.point_to_offset_utf16. unfold s. rewrite lines_spec by done. cbn [mbind option_bind extent Point.row].
    rewrite newlines_app. destruct (N.ltb_spec (N.of_nat (Lines.newlines a + Lines.newlines b)) (N.of_nat (Lines.newlines a))); [lia|].
    fold (extent a). rewrite point_to_offset_app by done. cbn [mbind option_bind]. by rewrite offset_to_offset_utf16_app.
Qed.

(** Up to and including the pear in "a⏎b🍐⏎". *)
Lemma chunk_positions_witness :
  let a := [97; 10; 98; 0x1F350]%N in let b := [10]%N in
  Str.len (a ++ b) <= 128 ∧ ChunkSlice.offset_to_point_utf16 (slice_of (a ++ b)) 7 = Some (PointUtf16.mk 1 3).
Proof.
  assert (Str.len ([97; 10; 98; 0x1F350] ++ [10])%N <= 128) as Hlen by (apply Nat.leb_le; reflexivity).
  split; [assumption|]. destruct (chunk_positions [97; 10; 98; 0x1F350]%N [10]%N Hlen) as (_ & H & _). exact H.
Defined.

(** Conversions within a chunk are inverse to each other: every offset, at a
    boundary or inside a character, comes back from its point; and offsets, points
    and their UTF-16 variants at a boundary come back from each other. *)
Theorem chunk_positions_roundtrip a b (Hs : str_ok (a ++ b)) (Hlen : Str.len (a ++ b) <= 128) :
  let s := slice_of (a ++ b) in
  (∀ o, o <= Str.len (a ++ b) →
     ∃ point, ChunkSlice.offset_to_point s o = Some point ∧ ChunkSlice.point_to_offset s point = Some o) ∧
  (point ← ChunkSlice.offset_to_point_utf16 s (Str.len a); ChunkSlice.point_utf16_to_offset s point false) = Some (Str.len a) ∧
  ChunkSlice.offset_utf16_to_offset s (ChunkSlice.offset_to_offset_utf16 s (Str.len a)) = Some (Str.len a) ∧
  (offset ← ChunkSlice.offset_utf16_to_offset s (OffsetUtf16.mk (Str.len_utf16 a));
   Some (ChunkSlice.offset_to_offset_utf16 s offset)) = Some (OffsetUtf16.mk (Str.len_utf16 a)) ∧
  (point ← ChunkSlice.point_to_point_utf16 s (extent a);
   ChunkSlice.unclipped_point_utf16_to_point s (Unclipped.mk point)) = Some (extent a).
Proof.
  intros s. destruct (prefix_row a b) as [Hrow Ha]. set (p := take (length a - length (last_line a)) a) in *.
  assert (Str.len a = Str.len p + Str.len (last_line a)) as Hla by (rewrite Ha at 1; apply Str_len_app).
  unfold s. split_and!.
  - intros o Ho. destruct (inside_exists (a ++ b) o) as (a' & b' & Hab & _ & Hin). rewrite Hab in *.
    eexists. split; [apply offset_to_point_inside; [done|unfold u32_max; lia|exact Hin]|]. by apply point_to_offset_inside.
  - rewrite offset_to_point_utf16_app by done. cbn [mbind option_bind]. unfold extent_utf16.
    rewrite (point_utf16_to_offset_app _ _ p _ (first_line b) _ _ Hs Hlen Hrow). f_equal. lia.
  - by rewrite offset_to_offset_utf16_app, offset_utf16_to_offset_app.
  - rewrite offset_utf16_to_offset_app by done. cbn [mbind option_bind]. by rewrite offset_to_offset_utf16_app.
  - unfold ChunkSlice.point_to_point_utf16. rewrite point_to_offset_app by done. cbn [mbind option_bind].
    rewrite offset_to_point_utf16_app by done. cbn [mbind option_bind]. unfold extent_utf16.
    by rewrite (unclipped_app _ _ p _ (first_line b) _ Hs Hlen Hrow).
Qed.

Lemma chunk_positions_roundtrip_witness :
  let a := [97; 10; 98; 0x1F350]%N in let b := [10]%N in
  str_ok (a ++ b) ∧ Str.len (a ++ b) <= 128 ∧
  ∃ point, ChunkSlice.offset_to_point (slice_of (a ++ b)) 5 = Some point ∧
    ChunkSlice.point_to_offset (slice_of (a ++ b)) point = Some 5.
Proof.
  assert (str_ok ([97; 10; 98; 0x1F350] ++ [10])%N) as Hs by (repeat constructor; unfold char_ok; lia).
  assert (Str.len ([97; 10; 98; 0x1F350] ++ [10])%N <= 128) as Hlen by (apply Nat.leb_le; reflexivity).
  do 2 (split; [assumption|]).
  exact (proj1 (chunk_positions_roundtrip _ _ Hs Hlen) 5 ltac:(apply Nat.leb_le; reflexivity)).
Defined.

(** *** Positions that are not in the text *)

Lemma row_beyond_ltb s row : (N.of_nat (Lines.newlines s) < row)%N → (N.of_nat (Lines.newlines s) <? row)%N = true.
Proof. apply N.ltb_lt. Qed.

(** Positions outside of a chunk: without clipping a row beyond the last, a
    column beyond the end of its row and a column inside a surrogate pair panic;
    with clipping they become the end of the text, the end of the row and the
    start of the pair. *)
Theorem chunk_positions_invalid s k p line r (Hs : str_ok s) (Hlen : Str.len s <= 128) (Hrow : row_at s k p line r) :
  (∀ row column, (N.of_nat (Lines.newlines s) < row)%N →
     ChunkSlice.point_to_offset (slice_of s) (Point.mk row column) = None ∧
     ChunkSlice.point_to_offset_utf16 (slice_of s) (Point.mk row column) = None ∧
     (∀ clip, ChunkSlice.point_utf16_to_offset (slice_of s) (PointUtf16.mk row column) clip =
        if clip then Some (Str.len s) else None) ∧
     ChunkSlice.unclipped_point_utf16_to_point (slice_of s) (Unclipped.mk (PointUtf16.mk row column)) = Some (extent s) ∧
     (∀ bias, ChunkSlice.clip_point_utf16 (slice_of s) (Unclipped.mk (PointUtf16.mk row column)) bias = Some (extent_utf16 s))) ∧
  (∀ column, (N.of_nat (Str.len line) < column)%N →
     ChunkSlice.point_to_offset (slice_of s) (Point.mk (N.of_nat k) column) = None) ∧
  (∀ column, (N.of_nat (Str.len_utf16 line) < column)%N →
     (∀ clip, ChunkSlice.point_utf16_to_offset (slice_of s) (PointUtf16.mk (N.of_nat k) column) clip =
        if clip then Some (Str.len p + Str.len line) else None) ∧
     ChunkSlice.unclipped_point_utf16_to_point (slice_of s) (Unclipped.mk (PointUtf16.mk (N.of_nat k) column)) =
       Some (Point.mk (N.of_nat k) (N.of_nat (Str.len line)))) ∧
  (∀ a c b, line = a ++ c :: b → Utf8.len_utf16 c = 2 →
     let column := N.of_nat (Str.len_utf16 a + 1) in
     (∀ clip, ChunkSlice.point_utf16_to_offset (slice_of s) (PointUtf16.mk (N.of_nat k) column) clip =
        if clip then Some (Str.len p + Str.len a) else None) ∧
     ChunkSlice.unclipped_point_utf16_to_point (slice_of s) (Unclipped.mk (PointUtf16.mk (N.of_nat k) column)) =
       Some (Point.mk (N.of_nat k) (N.of_nat (Str.len a)))).
Proof.
  split; [|split; [|split]].
  - intros row column Hbeyond. apply row_beyond_ltb in Hbeyond.
    unfold ChunkSlice.point_to_offset, ChunkSlice.point_to_offset_utf16, ChunkSlice.point_utf16_to_offset,
      ChunkSlice.unclipped_point_utf16_to_point, ChunkSlice.clip_point_utf16. cbn [Unclipped.inner].
    rewrite lines_spec by done. cbn [mbind option_bind Point.row PointUtf16.row extent]. rewrite Hbeyond.
    split_and!; try done. intros bias. by rewrite (proj2 (last_line_counts s Hlen)).
  - intros column Hcol. rewrite (point_to_offset_spec _ _ _ _ _ _ Hlen Hrow).
    by destruct (N.leb_spec column (N.of_nat (Str.len line))); [lia|].
  - intros column Hcol. split; [intros clip; by apply (point_utf16_to_offset_beyond _ _ _ _ r)|].
    by apply (unclipped_beyond _ _ p _ r).
  - intros a c b -> Hc. split; [intros clip; by apply (point_utf16_to_offset_inside _ _ _ _ c b r)|].
    by apply (unclipped_inside _ _ p _ c b r).
Qed.

Lemma chunk_positions_invalid_witness :
  let s := [97; 10; 98; 0x1F350; 10]%N in
  str_ok s ∧ Str.len s <= 128 ∧ row_at s 1 [97; 10]%N [98; 0x1F350]%N [10]%N ∧
  ChunkSlice.point_utf16_to_offset (slice_of s) (PointUtf16.mk 1 2) true = Some 3 ∧
  ChunkSlice.point_utf16_to_offset (slice_of s) (PointUtf16.mk 1 2) false = None.
Proof.
  assert (str_ok [97; 10; 98; 0x1F350; 10]%N) as Hs by (repeat constructor; unfold char_ok; lia).
  assert (Str.len [97; 10; 98; 0x1F350; 10]%N <= 128) as Hlen by (apply Nat.leb_le; reflexivity).
  assert (row_at [97; 10; 98; 0x1F350; 10]%N 1 [97; 10]%N [98; 0x1F350]%N [10]%N) as Hrow.
  { split; [reflexivity|split; [reflexivity|right; exists [97%N]; reflexivity]|reflexivity|right; exists []; reflexivity]. }
  do 3 (split; [assumption|]).
  destruct (chunk_positions_invalid _ _ _ _ _ Hs Hlen Hrow) as (_ & _ & _ & H).
  destruct (H [98%N] 0x1F350%N [] eq_refl eq_refl) as [Hclip _]. split; [exact (Hclip true)|exact (Hclip false)].
Defined.

(** *** Clipping *)

Definition utf16_boundary s (n : nat) : Prop := ∃ a b, s = a ++ b ∧ n = Str.len_utf16 a.

Lemma inside_not_boundary a c b n : Utf8.len_utf16 c = 2 → utf16_boundary (a ++ c :: b) n →
  n <= Str.len_utf16 a ∨ Str.len_utf16 a + 2 <= n.
Proof.
  intros Hc (a' & b' & Heq & ->). revert a' Heq. induction a as [|d a IH]; intros [|d' a'] Heq.
  - by left.
  - injection Heq as <- _. right. rewrite Str_len_utf16_cons. change (Str.len_utf16 []) with 0. lia.
  - left. change (Str.len_utf16 []) with 0. lia.
  - injection Heq as <- Heq. rewrite !Str_len_utf16_cons. destruct (IH a' Heq); [left|right]; lia.
Qed.

(** The boundary a UTF-16 offset is clipped to. *)
Definition nearest s (bias : Bias) (t r : nat) : Prop :=
  utf16_boundary s r ∧
  match bias with
  | Left => r <= t ∧ ∀ n, utf16_boundary s n → n <= t → n <= r
  | Right => (t <= r ∨ r = Str.len_utf16 s) ∧ ∀ n, utf16_boundary s n → t <= n → r <= n
  end.

Lemma utf16_boundary_le s n : utf16_boundary s n → n <= Str.len_utf16 s.
Proof. intros (a & b & -> & ->). rewrite Str_len_utf16_app. lia. Qed.

Lemma utf16_boundary_len s : utf16_boundary s (Str.len_utf16 s).
Proof. exists s, []. by rewrite app_nil_r. Qed.

Lemma clip_offset_utf16_spec s t bias : str_ok s → Str.len s <= 128 →
  ∃ r, ChunkSlice.clip_offset_utf16 (slice_of s) (OffsetUtf16.mk t) bias = Some (OffsetUtf16.mk r) ∧ nearest s bias t r.
Proof.
  intros Hs Hlen. destruct (decide (Str.len_utf16 s <= t)) as [Hge|Hlt].
  { exists (Str.len_utf16 s). split; [by apply clip_offset_utf16_ge|]. split; [apply utf16_boundary_len|].
    destruct bias; split; try lia; intros n Hn; apply utf16_boundary_le in Hn; lia. }
  destruct (utf16_cases s t ltac:(lia)) as [(a & b & -> & <-)|(a & c & b & -> & Hc & <-)].
  - exists (Str.len_utf16 a). split; [by apply clip_offset_utf16_app|]. split; [by exists a, b|].
    destruct bias; split; lia || auto.
  - eexists. split; [by apply clip_offset_utf16_inside|]. split.
    + destruct bias; [by exists a, (c :: b)|]. exists (a ++ [c]), b.
      rewrite Str_len_utf16_app, Str_len_utf16_cons, Hc, <-app_assoc. done.
    + destruct bias; split; try lia; intros n Hn; destruct (inside_not_boundary a c b n Hc Hn); lia.
Qed.

(** Clipping in UTF-16 units gives the nearest position that is in the text:
    the greatest one before a position inside a surrogate pair for the left
    bias, the least one after it for the right bias, the end of the row for a
    column beyond it; what is in the text stays. *)
Theorem clip_utf16_nearest s k p line r (Hs : str_ok s) (Hlen : Str.len s <= 128) (Hrow : row_at s k p line r) :
  (∀ t bias, ∃ t', ChunkSlice.clip_offset_utf16 (slice_of s) (OffsetUtf16.mk t) bias = Some (OffsetUtf16.mk t') ∧
     nearest s bias t t' ∧ (utf16_boundary s t → t' = t)) ∧
  (∀ column bias, ∃ column', 
     ChunkSlice.clip_point_utf16 (slice_of s) (Unclipped.mk (PointUtf16.mk (N.of_nat k) column)) bias =
       Some (PointUtf16.mk (N.of_nat k) (N.of_nat column')) ∧
     nearest line bias (N.to_nat column) column' ∧
     ∃ a b, line = a ++ b ∧ column' = Str.len_utf16 a ∧
       ChunkSlice.point_utf16_to_offset (slice_of s) (PointUtf16.mk (N.of_nat k) (N.of_nat column')) false =
         Some (Str.len p + Str.len a)).
Proof.
  assert (Hfix : ∀ bias t t', nearest s bias t t' → utf16_boundary s t → t' = t).
  { intros bias t t' [Hb Hn] Ht. destruct bias, Hn as [Hle Hmax]; specialize (Hmax t Ht (le_n t)); [lia|].
    destruct Hle as [|Hle]; [lia|]. apply utf16_boundary_le in Ht. lia. }
  split.
  - intros t bias. destruct (clip_offset_utf16_spec s t bias Hs Hlen) as (t' & Hclip & Hn). eauto.
  - intros column bias. destruct (row_bounds _ _ _ _ _ Hs Hlen Hrow) as (Hsl & Hll & _ & _ & _).
    rewrite (clip_point_utf16_row _ _ _ _ _ _ _ Hs Hlen Hrow).
    destruct (clip_offset_utf16_spec line (N.to_nat column) bias Hsl Hll) as (c & -> & Hn). cbn [mbind option_bind OffsetUtf16.offset].
    pose proof Hn as [(a & b & Hab & Hc) _]. exists c. pose proof (Str_lengths line). rewrite Hab, Str_len_utf16_app in *.
    rewrite as_u32_small by (unfold u32_max; lia). split; [done|]. split; [done|]. exists a, b. split; [done|]. split; [done|].
    rewrite Hc. by apply (point_utf16_to_offset_app _ _ _ _ b r).
Qed.

Lemma clip_utf16_nearest_witness :
  let s := [97; 10; 98; 0x1F350; 10]%N in
  str_ok s ∧ Str.len s <= 128 ∧ row_at s 1 [97; 10]%N [98; 0x1F350]%N [10]%N ∧
  ∃ t', ChunkSlice.clip_offset_utf16 (slice_of s) (OffsetUtf16.mk 4) Right = Some (OffsetUtf16.mk t') ∧ nearest s Right 4 t'.
Proof.
  assert (str_ok [97; 10; 98; 0x1F350; 10]%N) as Hs by (repeat constructor; unfold char_ok; lia).
  assert (Str.len [97; 10; 98; 0x1F350; 10]%N <= 128) as Hlen by (apply Nat.leb_le; reflexivity).
  assert (row_at [97; 10; 98; 0x1F350; 10]%N 1 [97; 10]%N [98; 0x1F350]%N [10]%N) as Hrow.
  { split; [reflexivity|split; [reflexivity|right; exists [97%N]; reflexivity]|reflexivity|right; exists []; reflexivity]. }
  do 3 (split; [assumption|]).
  destruct (proj1 (clip_utf16_nearest _ _ _ _ _ Hs Hlen Hrow) 4 Right) as (t' & H & Hn & _). exists t'. split; assumption.
Defined.

(** *** [clip_point] *)

Section grapheme.
Context (is_grapheme_boundary : str → nat → bool).
(** A [GraphemeCursor] reports a boundary at both ends of its text. *)
Context (grapheme_start : ∀ s, is_grapheme_boundary s 0 = true).
Context (grapheme_end : ∀ s, is_grapheme_boundary s (Str.len s) = true).

(** Where [clip_point] may put a column. *)
Definition grapheme_at s (n : nat) : bool := Str.is_char_boundary s n && is_grapheme_boundary s n.

Lemma clip_loop_left s fuel column : str_ok s → Str.len s <= 128 → column <= Str.len s → column <= fuel →
  ∃ c, ChunkSlice.clip_loop is_grapheme_boundary fuel (slice_of s) Left column = Some c ∧
    grapheme_at s c = true ∧ c <= column ∧ ∀ n, grapheme_at s n = true → n <= column → n <= c.
Proof.
  intros Hs Hlen. revert column. induction fuel as [|fuel IH]; intros column Hc Hfuel; cbn [ChunkSlice.clip_loop].
  all: rewrite is_char_boundary_spec by (done || unfold u32_max; lia); open_chunks; fold (grapheme_at s column).
  all: destruct (grapheme_at s column) eqn:Hg; [by exists column|].
  all: assert (column ≠ 0) as Hne by (intros ->; unfold grapheme_at in Hg; by rewrite grapheme_start in Hg).
  - lia.
  - destruct column as [|column]; [lia|]. cbn [mbind option_bind]. fold (slice_of s).
    destruct (IH column) as (c & Hloop & Hgc & Hle & Hmax); [lia|lia|]. exists c. split_and!; [done|done|lia|].
    intros n Hn Hn'. apply Hmax; [done|]. destruct (decide (n = S column)) as [->|]; [congruence|lia].
Qed.

Lemma clip_loop_right s fuel column : str_ok s → Str.len s <= 128 → column <= Str.len s → Str.len s - column <= fuel →
  ∃ c, ChunkSlice.clip_loop is_grapheme_boundary fuel (slice_of s) Right column = Some c ∧
    grapheme_at s c = true ∧ column <= c ∧ c <= Str.len s ∧ ∀ n, grapheme_at s n = true → column <= n → c <= n.
Proof.
  intros Hs Hlen. revert column. induction fuel as [|fuel IH]; intros column Hc Hfuel; cbn [ChunkSlice.clip_loop].
  all: rewrite is_char_boundary_spec by (done || unfold u32_max; lia); open_chunks; fold (grapheme_at s column).
  all: destruct (grapheme_at s column) eqn:Hg; [by exists column|].
  all: assert (column ≠ Str.len s) as Hne
    by (intros ->; unfold grapheme_at in Hg; by rewrite grapheme_end, Str_is_char_boundary_len in Hg).
  - lia.
  - cbn [mbind option_bind]. fold (slice_of s).
    destruct (IH (column + 1)) as (c & Hloop & Hgc & Hle & Hle' & Hmin); [lia|lia|]. exists c. split_and!; [done|done|lia|lia|].
    intros n Hn Hn'. apply Hmin; [done|]. destruct (decide (n = column)) as [->|]; [congruence|lia].
Qed.

(** The column a column of a line is clipped to: in the line, at a character
    boundary, on the side of the bias and next to it among the grapheme
    boundaries. *)
Definition clipped line (bias : Bias) (column c : nat) : Prop :=
  c <= Str.len line ∧ Str.is_char_boundary line c = true ∧
  (c = column ∨ grapheme_at line c = true) ∧
  match bias with
  | Left => c <= column ∧ ∀ n, grapheme_at line n = true → n <= column → n <= c
  | Right => (column <= c ∨ c = Str.len line) ∧ ∀ n, grapheme_at line n = true → column <= n → c <= n
  end.

Lemma grapheme_at_le s n : grapheme_at s n = true → n <= Str.len s.
Proof. intros [Hn _]%andb_prop. by apply Str_is_char_boundary_le. Qed.

Lemma grapheme_at_len s : grapheme_at s (Str.len s) = true.
Proof. unfold grapheme_at. by rewrite Str_is_char_boundary_len, grapheme_end. Qed.

(** The clipped column of a row. *)
Lemma clip_point_row s k p line r column bias : str_ok s → Str.len s <= 128 → row_at s k p line r →
  ∃ c, ChunkSlice.clip_point is_grapheme_boundary (slice_of s) (Point.mk (N.of_nat k) (N.of_nat column)) bias =
    Some (Point.mk (N.of_nat k) (N.of_nat c)) ∧ clipped line bias column c.
Proof.
  intros Hs Hlen Hrow.
  unfold ChunkSlice.clip_point. open_row Hs Hlen Hrow. cbn [Point.column].
  destruct (N.eqb_spec (N.of_nat column) 0) as [H0|H0].
  { exists 0. assert (column = 0) as -> by lia. split; [done|]. split; [lia|]. split; [done|]. split; [by left|].
    destruct bias; split; auto with lia. }
  unfold ChunkSlice.len. open_chunks. rewrite as_u32_small by (unfold u32_max; lia).
  destruct (N.leb_spec (N.of_nat (Str.len line)) (N.of_nat column)) as [Hge|Hlt].
  { exists (Str.len line). split; [done|]. split; [done|]. split; [apply Str_is_char_boundary_len|].
    split; [right; apply grapheme_at_len|]. destruct bias; split; try lia; intros n Hn ?; apply grapheme_at_le in Hn; lia. }
  rewrite Nat2N.id.
  destruct (lookup_lt_is_Some_2 (Str.as_bytes line) (column - 1)) as [x Hx]; [fold (Str.len line); lia|].
  destruct (lookup_lt_is_Some_2 (Str.as_bytes line) column) as [y Hy]; [fold (Str.len line); lia|].
  rewrite Hx, Hy. cbn [mbind option_bind]. rewrite as_u32_small by (unfold u32_max; lia).
  destruct ((x <? 128)%N && (y <? 128)%N) eqn:Hascii.
  { exists column. split; [done|]. split; [lia|]. split; [|split; [by left|destruct bias; auto with lia]].
    apply andb_prop in Hascii as [_ Hy']. unfold Str.is_char_boundary. destruct (Nat.eqb_spec column 0); [lia|]. rewrite Hy.
    unfold is_utf8_char_boundary. rewrite Hy'. apply Z.leb_le. lia. }
  fold (slice_of line). destruct bias.
  - destruct (clip_loop_left line (Str.len line) column) as (c & -> & Hg & Hle & Hmax); [done|done|lia|lia|].
    cbn [mbind option_bind]. exists c. rewrite as_u32_small by (unfold u32_max; lia). split; [done|].
    split; [lia|]. split; [by apply andb_prop in Hg as [? _]|]. auto.
  - destruct (clip_loop_right line (Str.len line) column) as (c & -> & Hg & Hle & Hle' & Hmin); [done|done|lia|lia|].
    cbn [mbind option_bind]. exists c. rewrite as_u32_small by (unfold u32_max; lia). split; [done|].
    split; [lia|]. split; [by apply andb_prop in Hg as [? _]|]. auto.
Qed.

(** Clipping a point always ends: the result is in the text, at a character
    boundary, not past the point on the wrong side of the bias and as near to it
    as the grapheme boundaries allow; a row beyond the last gives the end of the
    text.  A column between two ASCII characters is kept. *)
Theorem clip_point_nearest s k p line r (Hs : str_ok s) (Hlen : Str.len s <= 128) (Hrow : row_at s k p line r) :
  (∀ column bias, ∃ c,
     ChunkSlice.clip_point is_grapheme_boundary (slice_of s) (Point.mk (N.of_nat k) (N.of_nat column)) bias =
       Some (Point.mk (N.of_nat k) (N.of_nat c)) ∧
     clipped line bias column c ∧
     ChunkSlice.point_to_offset (slice_of s) (Point.mk (N.of_nat k) (N.of_nat c)) = Some (Str.len p + c)) ∧
  (∀ row column bias, (N.of_nat (Lines.newlines s) < row)%N →
     ChunkSlice.clip_point is_grapheme_boundary (slice_of s) (Point.mk row column) bias = Some (extent s)).
Proof.
  split.
  2: { intros row column bias Hrow'. apply row_beyond_ltb in Hrow'. unfold ChunkSlice.clip_point. rewrite lines_spec by done.
    cbn [mbind option_bind Point.row extent]. by rewrite Hrow'. }
  intros column bias.
  destruct (clip_point_row s k p line r column bias Hs Hlen Hrow) as (c & Hc & Hcl).
  exists c. split; [done|]. split; [done|]. rewrite (point_to_offset_spec _ _ _ _ _ _ Hlen Hrow).
  destruct Hcl as [Hle _]. destruct (N.leb_spec (N.of_nat c) (N.of_nat (Str.len line))); [|lia]. by rewrite Nat2N.id.
Qed.
End grapheme.

(** Clusters in which U+0301 follows a letter. *)
Lemma clip_point_nearest_witness :
  let is_grapheme_boundary (s : str) (n : nat) : bool :=
    match Str.split_at s n with Some (_, 0x301%N :: _) => n =? 0 | _ => true end in
  let s := [97; 10; 233; 0x301; 98]%N in
  (∀ s, is_grapheme_boundary s 0 = true) ∧ (∀ s, is_grapheme_boundary s (Str.len s) = true) ∧
  str_ok s ∧ Str.len s <= 128 ∧ row_at s 1 [97; 10]%N [233; 0x301; 98]%N [] ∧
  ∃ c, ChunkSlice.clip_point is_grapheme_boundary (slice_of s) (Point.mk 1 2) Left = Some (Point.mk 1 (N.of_nat c)) ∧
    clipped is_grapheme_boundary [233; 0x301; 98]%N Left 2 c.
Proof.
  intros is_grapheme_boundary s.
  assert (∀ s, is_grapheme_boundary s 0 = true) as H1.
  { intros [|c s']; [reflexivity|]. cbn. repeat case_match; reflexivity. }
  assert (∀ s, is_grapheme_boundary s (Str.len s) = true) as H2.
  { intros s'. unfold is_grapheme_boundary. rewrite <-(app_nil_r s') at 1. rewrite Str_split_at_app. reflexivity. }
  assert (str_ok s) as Hs by (repeat constructor; unfold char_ok; lia).
  assert (Str.len s <= 128) as Hlen by (apply Nat.leb_le; reflexivity).
  assert (row_at s 1 [97; 10]%N [233; 0x301; 98]%N []) as Hrow.
  { split; [reflexivity|split; [reflexivity|right; exists [97%N]; reflexivity]|reflexivity|left; reflexivity]. }
  do 5 (split; [assumption|]).
  destruct (proj1 (clip_point_nearest is_grapheme_boundary H1 H2 _ _ _ _ _ Hs Hlen Hrow) 2 Left) as (c & Hc & Hcl & _).
  exists c. split; assumption.
Defined.

(** ** Tabs *)

(** The tabs of a text, with their byte and character offsets. *)
Fixpoint tab_positions (bytes chars : nat) (s : str) : list TabPosition :=
  match s with
  | [] => []
  | c :: s =>
      let rest := tab_positions (bytes + len_utf8 c) (chars + 1) s in
      if (c =? TAB)%N then mkTabPosition bytes chars :: rest else rest
  end.

(** A loop over the iterator. *)
Fixpoint collect_tabs (fuel : nat) (it : Tabs.t) : option (list TabPosition) :=
  match fuel with
  | 0 => None
  | S fuel =>
      '(item, it) ← Tabs.next it;
      match item with
      | None => Some []
      | Some tab => rest ← collect_tabs fuel it; Some (tab :: rest)
      end
  end.

Lemma collect_tabs_S fuel it :
  collect_tabs (S fuel) it =
    '(item, it) ← Tabs.next it;
    match item with
    | None => Some []
    | Some tab => rest ← collect_tabs fuel it; Some (tab :: rest)
    end.
Proof. done. Qed.

Definition num_tabs s : nat := count_true (marks tab_mark s).

Lemma num_tabs_cons c s : num_tabs (c :: s) = (if (c =? TAB)%N then 1 else 0) + num_tabs s.
Proof.
  unfold num_tabs. rewrite marks_cons, count_true_app. unfold tab_mark at 1. rewrite count_true_cons, count_true_false.
  destruct (_ =? _)%N; simpl; lia.
Qed.

Lemma first_tab s : num_tabs s ≠ 0 → ∃ x y, s = x ++ TAB :: y ∧ num_tabs x = 0.
Proof.
  induction s as [|c s IH]; [done|]. rewrite num_tabs_cons. destruct (N.eqb_spec c TAB) as [->|Hc]; [by exists [], s|].
  intros Hn. destruct IH as (x & y & -> & Hx); [done|]. exists (c :: x), y. split; [done|]. rewrite num_tabs_cons.
  by destruct (N.eqb_spec c TAB).
Qed.

Lemma num_tabs_app x y : num_tabs (x ++ y) = num_tabs x + num_tabs y.
Proof. unfold num_tabs. by rewrite marks_app, count_true_app. Qed.

Lemma tab_positions_app bytes chars x y :
  tab_positions bytes chars (x ++ y) = tab_positions bytes chars x ++ tab_positions (bytes + Str.len x) (chars + length x) y.
Proof.
  revert bytes chars. induction x as [|c x IH]; intros bytes chars.
  - change (Str.len []) with 0. simpl. by rewrite !Nat.add_0_r.
  - rewrite Str_len_cons. cbn [app tab_positions length]. rewrite IH.
    replace (bytes + len_utf8 c + Str.len x) with (bytes + (len_utf8 c + Str.len x)) by lia.
    replace (chars + 1 + length x) with (chars + S (length x)) by lia. by destruct (c =? TAB)%N.
Qed.

Lemma tab_positions_none bytes chars s : num_tabs s = 0 → tab_positions bytes chars s = [].
Proof.
  revert bytes chars. induction s as [|c s IH]; intros bytes chars; [done|]. rewrite num_tabs_cons. simpl.
  destruct (c =? TAB)%N; [done|]. apply IH.
Qed.

(** The iterator when the tabs of [a] are behind it. *)
Definition tabs_after (a b : str) : Tabs.t :=
  Tabs.mk (bits (replicate (Str.len a) false ++ marks tab_mark b)) (bits (marks char_mark (a ++ b))).

Lemma bits_zero l : count_true l = 0 → bits l = 0%N.
Proof. intros H. apply count_ones_zero. by rewrite count_bits. Qed.

Lemma no_tabs_marks s : num_tabs s = 0 → marks tab_mark s = replicate (Str.len s) false.
Proof.
  induction s as [|c s IH]; [done|]. rewrite num_tabs_cons, marks_cons, Str_len_cons. unfold tab_mark at 1.
  destruct (c =? TAB)%N; [done|]. intros Hs. rewrite IH by done. rewrite replicate_add. pose proof (len_utf8_pos c).
  by replace (len_utf8 c) with (S (len_utf8 c - 1)) at 2 by lia.
Qed.

Lemma next_tab a x y : Str.len (a ++ x ++ TAB :: y) <= 128 → num_tabs x = 0 →
  Tabs.next (tabs_after a (x ++ TAB :: y)) =
    Some (Some (mkTabPosition (Str.len (a ++ x)) (length (a ++ x))), tabs_after (a ++ x ++ [TAB]) y).
Proof.
  intros Hlen Hx. unfold Tabs.next, tabs_after. cbn [Tabs.tabs Tabs.chars].
  rewrite marks_app, marks_cons, no_tabs_marks, (app_assoc (replicate _ _)), <-replicate_add, <-Str_len_app by done.
  change (tab_mark TAB ++ marks tab_mark y) with (true :: marks tab_mark y).
  rewrite !app_assoc in Hlen. rewrite (app_assoc a x (TAB :: y)), (app_assoc a x [TAB]).
  set (ax := a ++ x) in *. rewrite !Str_len_app, Str_len_cons in Hlen |- *. change (len_utf8 TAB) with 1 in *.
  change (1 + Str.len []) with 1.
  destruct (N.eqb_spec (bits (replicate (Str.len ax) false ++ true :: marks tab_mark y)) 0) as [H0|_].
  { apply (f_equal count_ones) in H0. rewrite count_bits, count_true_app, count_true_cons in H0. simpl in H0. lia. }
  rewrite trailing_zeros_bits, count_true_app, count_true_false, count_true_cons, first_true_app, count_true_false.
  cbn [Nat.b2n Nat.add Nat.eqb]. rewrite length_replicate. cbn [first_true]. rewrite Nat.add_0_r.
  pose proof (ones_mask (Str.len ax) ltac:(lia)) as Hm. rewrite shl_one in * by lia. cbn [mbind option_bind] in *.
  rewrite Hm. cbn [mbind option_bind]. rewrite bits_take, take_marks, count_bits, count_char_marks by apply _.
  do 3 f_equal.
  - apply bitmap_ext. intros i. rewrite N.lxor_spec, !testbit_bits.
    destruct (decide (i = Str.len ax)) as [->|Hi].
    + rewrite N.pow2_bits_true, lookup_app_r, length_replicate, Nat.sub_diag by (by rewrite length_replicate).
      rewrite lookup_app_l, lookup_replicate_2 by (rewrite ?length_replicate; lia). done.
    + rewrite N.pow2_bits_false, xorb_false_r by lia. destruct (decide (i < Str.len ax)).
      * rewrite !lookup_app_l, !lookup_replicate_2 by (rewrite ?length_replicate; lia). done.
      * rewrite !lookup_app_r, !length_replicate by (rewrite ?length_replicate; lia).
        replace (i - Str.len ax) with (S (i - (Str.len ax + 1))) by lia. done.
  - by rewrite <-app_assoc.
Qed.

(** Iterating over the tabs of a chunk yields every tab of its text once, in
    order, with its byte and its character offset, and then ends. *)
Theorem tabs_iterate s (Hlen : Str.len s <= 128) :
  collect_tabs (S (num_tabs s)) (Tabs.of_slice (slice_of s)) = Some (tab_positions 0 0 s) ∧
  length (tab_positions 0 0 s) = num_tabs s ∧
  (∀ a b, s = a ++ TAB :: b → mkTabPosition (Str.len a) (length a) ∈ tab_positions 0 0 s).
Proof.
  split; [|split].
  - assert (∀ n a b, Str.len (a ++ b) <= 128 → num_tabs b = n →
      collect_tabs (S n) (tabs_after a b) = Some (tab_positions (Str.len a) (length a) b)) as Hloop.
    { clear. induction n as [|n IH]; intros a b Hlen Hn.
      - cbn [collect_tabs]. unfold Tabs.next, tabs_after. cbn [Tabs.tabs].
        rewrite bits_zero by (rewrite count_true_app, count_true_false; done). cbn. by rewrite tab_positions_none.
      - destruct (first_tab b) as (x & y & -> & Hx); [lia|].
        assert (num_tabs y = n) as Hy by (rewrite num_tabs_app, num_tabs_cons in Hn; simpl in Hn; lia).
        assert (Str.len ((a ++ x ++ [TAB]) ++ y) <= 128) as Hlen' by (rewrite <-!app_assoc; exact Hlen).
        rewrite collect_tabs_S, next_tab by done. cbn [mbind option_bind]. rewrite (IH _ _ Hlen' Hy).
        cbn [mbind option_bind]. rewrite tab_positions_app. rewrite (tab_positions_none _ _ x) by done. cbn [app tab_positions].
        change (TAB =? TAB)%N with true. cbn iota. rewrite !Str_len_app, !length_app. change (Str.len [TAB]) with 1.
        change (len_utf8 TAB) with 1. simpl length. by rewrite !Nat.add_assoc. }
    exact (Hloop _ [] s Hlen eq_refl).
  - enough (∀ n m, length (tab_positions n m s) = num_tabs s) as H by apply H. clear. induction s as [|c s IH]; intros n m; [done|]. rewrite num_tabs_cons. simpl.
    destruct (c =? TAB)%N; simpl; by rewrite IH.
  - intros a b ->. rewrite tab_positions_app. apply elem_of_app. right. simpl. apply elem_of_cons. by left.
Qed.

Lemma tabs_iterate_witness :
  let s := [9; 233; 9; 9; 97]%N in
  Str.len s <= 128 ∧
  collect_tabs (S (num_tabs s)) (Tabs.of_slice (slice_of s)) = Some [mkTabPosition 0 0; mkTabPosition 3 2; mkTabPosition 4 3].
Proof.
  assert (Str.len [9; 233; 9; 9; 97]%N <= 128) as Hlen by (apply Nat.leb_le; reflexivity).
  split; [assumption|]. exact (proj1 (tabs_iterate _ Hlen)).
Defined.
