(* ===== verification/RopeTree.v ===== *)
(** * Summaries and dimensions of a rope ([crates/rope/src/rope.rs], the traits)

    A rope is a tree of chunks whose summary is the summary of its text.  The
    tree asks for a total, associative sum.  The sum of summaries is associative
    on those a text can have, so the tree's summary type is that of the
    consistent ones; and it is total, as numbers are added without the check for
    overflow.  The checked sum of [TextSummary.v] gives the same value when it
    gives one, and for a text shorter than 4 GiB it does. *)

From S2P Require Import Prelude SumTree SumTreeFacts Seek Utf8 Points Lines BitSelect Chunk ChunkBits ChunkFacts ChunkPositions TextSummary.

Implicit Types s : str.

(** ** Sums without the check for overflow *)

Module Unchecked.
Definition point_add (self other : Point) : Point :=
  if (Point.row other =? 0)%N then Point.new (Point.row self) (Point.column self + Point.column other)
  else Point.new (Point.row self + Point.row other) (Point.column other).

Definition point_utf16_add (self other : PointUtf16) : PointUtf16 :=
  if (PointUtf16.row other =? 0)%N
  then PointUtf16.new (PointUtf16.row self) (PointUtf16.column self + PointUtf16.column other)
  else PointUtf16.new (PointUtf16.row self + PointUtf16.row other) (PointUtf16.column other).

(** [impl AddAssign<&Self> for TextSummary] *)
Definition add (self other : TextSummary) : TextSummary :=
  let joined_chars := (last_line_chars self + first_line_chars other)%N in
  let '(longest_row_, longest_row_chars_) :=
    if (longest_row_chars self <? joined_chars)%N then (Point.row (lines self), joined_chars)
    else (longest_row self, longest_row_chars self) in
  let '(longest_row_, longest_row_chars_) :=
    if (longest_row_chars_ <? longest_row_chars other)%N
    then ((Point.row (lines self) + longest_row other)%N, longest_row_chars other)
    else (longest_row_, longest_row_chars_) in
  let first_line_chars_ :=
    if (Point.row (lines self) =? 0)%N then (first_line_chars self + first_line_chars other)%N
    else first_line_chars self in
  let '(last_line_chars_, last_line_len_utf16_) :=
    if (Point.row (lines other) =? 0)%N
    then ((last_line_chars self + first_line_chars other)%N, (last_line_len_utf16 self + last_line_len_utf16 other)%N)
    else (last_line_chars other, last_line_len_utf16 other) in
  mkTextSummary (len self + len other) (chars self + chars other)
    (OffsetUtf16.add (len_utf16 self) (len_utf16 other)) (point_add (lines self) (lines other))
    first_line_chars_ last_line_chars_ last_line_len_utf16_ longest_row_ longest_row_chars_.
End Unchecked.

(** What the summary of a text satisfies. *)
Definition consistent (self : TextSummary) : bool :=
  (if (Point.row (lines self) =? 0)%N
   then (first_line_chars self =? last_line_chars self)%N && (longest_row_chars self =? first_line_chars self)%N
   else true) &&
  (first_line_chars self <=? longest_row_chars self)%N && (last_line_chars self <=? longest_row_chars self)%N &&
  (if (longest_row_chars self =? first_line_chars self)%N then (longest_row self =? 0)%N else true).

(** [struct ChunkSummary], as the tree uses it *)
Record RopeSummary := mkRopeSummary { summary_text : TextSummary; summary_consistent : consistent summary_text = true }.

Lemma RopeSummary_eq (a b : RopeSummary) : summary_text a = summary_text b → a = b.
Proof.
  destruct a as [a Ha], b as [b Hb]. simpl. intros <-. f_equal. apply proof_irrel.
Qed.

(** Destructs the numeric tests of a goal, the innermost first. *)
Ltac atomic x := lazymatch x with context [match _ with _ => _ end] => fail | _ => idtac end.
Ltac num_tests :=
  repeat (match goal with
    | |- context [(?x =? ?y)%N] => atomic x; atomic y; destruct (N.eqb_spec x y)
    | |- context [(?x <=? ?y)%N] => atomic x; atomic y; destruct (N.leb_spec x y)
    | |- context [(?x <? ?y)%N] => atomic x; atomic y; destruct (N.ltb_spec x y)
    end; simpl; try lia).

Lemma consistent_iff t : consistent t = true ↔
  (Point.row (lines t) = 0%N → first_line_chars t = last_line_chars t ∧ longest_row_chars t = first_line_chars t) ∧
  (first_line_chars t <= longest_row_chars t)%N ∧ (last_line_chars t <= longest_row_chars t)%N ∧
  (longest_row_chars t = first_line_chars t → longest_row t = 0%N).
Proof. unfold consistent. num_tests; naive_solver lia. Qed.

Lemma point_add_row a b : Point.row (Unchecked.point_add a b) = (Point.row a + Point.row b)%N.
Proof. unfold Unchecked.point_add. destruct (N.eqb_spec (Point.row b) 0); simpl; lia. Qed.

Lemma add_consistent a b : consistent a = true → consistent b = true → consistent (Unchecked.add a b) = true.
Proof.
  rewrite !consistent_iff. destruct a as [la ca ua [ra oa] fa ea xa Ra Ma], b as [lb cb ub [rb ob] fb eb xb Rb Mb].
  unfold Unchecked.add. simpl. intros (Ha1 & Ha2 & Ha3 & Ha4) (Hb1 & Hb2 & Hb3 & Hb4).
  num_tests; rewrite ?point_add_row; simpl; split_and!; intros; lia.
Qed.

Lemma point_add_assoc a b c :
  Unchecked.point_add (Unchecked.point_add a b) c = Unchecked.point_add a (Unchecked.point_add b c).
Proof.
  destruct a as [ra ca], b as [rb cb], c as [rc cc]. unfold Unchecked.point_add, Point.new. simpl.
  num_tests; f_equal; lia.
Qed.

Lemma point_utf16_add_assoc a b c :
  Unchecked.point_utf16_add (Unchecked.point_utf16_add a b) c = Unchecked.point_utf16_add a (Unchecked.point_utf16_add b c).
Proof.
  destruct a as [ra ca], b as [rb cb], c as [rc cc]. unfold Unchecked.point_utf16_add, PointUtf16.new. simpl.
  num_tests; f_equal; lia.
Qed.

(** *** The fields of a sum *)

(** The first greatest of two rows. *)
Definition best (p q : N * N) : N * N := if (p.2 <? q.2)%N then q else p.

Lemma best_assoc p q r : best (best p q) r = best p (best q r).
Proof. unfold best. destruct p as [pr p], q as [qr q], r as [rr r]. simpl. num_tests; done. Qed.

Lemma best_same r x y : best (r, x) (r, y) = (r, N.max x y).
Proof. unfold best. simpl. num_tests; f_equal; lia. Qed.

Definition shift_row (k : N) (p : N * N) : N * N := ((k + p.1)%N, p.2).

Lemma shift_best k p q : shift_row k (best p q) = best (shift_row k p) (shift_row k q).
Proof. unfold best, shift_row. simpl. by destruct (_ <? _)%N. Qed.

Lemma shift_shift k l p : shift_row k (shift_row l p) = shift_row (k + l) p.
Proof. unfold shift_row. simpl. f_equal. lia. Qed.

Definition longest_of (self : TextSummary) : N * N := (longest_row self, longest_row_chars self).

Lemma add_fields a b : let c := Unchecked.add a b in
  len c = len a + len b ∧ chars c = chars a + chars b ∧ len_utf16 c = OffsetUtf16.add (len_utf16 a) (len_utf16 b) ∧
  lines c = Unchecked.point_add (lines a) (lines b) ∧
  first_line_chars c =
    (if Point.row (lines a) =? 0 then first_line_chars a + first_line_chars b else first_line_chars a)%N ∧
  last_line_chars c =
    (if Point.row (lines b) =? 0 then last_line_chars a + first_line_chars b else last_line_chars b)%N ∧
  last_line_len_utf16 c =
    (if Point.row (lines b) =? 0 then last_line_len_utf16 a + last_line_len_utf16 b else last_line_len_utf16 b)%N ∧
  longest_of c =
    best (best (longest_of a) (Point.row (lines a), (last_line_chars a + first_line_chars b)%N))
      (shift_row (Point.row (lines a)) (longest_of b)).
Proof.
  intros c. unfold c, Unchecked.add, longest_of, best, shift_row. simpl.
  destruct (longest_row_chars a <? last_line_chars a + first_line_chars b)%N; simpl;
    destruct (_ <? longest_row_chars b)%N, (Point.row (lines b) =? 0)%N; simpl; by split_and!.
Qed.

Lemma TextSummary_eq_fields a b :
  len a = len b → chars a = chars b → len_utf16 a = len_utf16 b → lines a = lines b →
  first_line_chars a = first_line_chars b → last_line_chars a = last_line_chars b →
  last_line_len_utf16 a = last_line_len_utf16 b → longest_of a = longest_of b → a = b.
Proof. destruct a, b. unfold longest_of. simpl. intros. simplify_eq. done. Qed.

(** The candidates of one row collapse to the last. *)
Lemma best_joined p r (x y z : N) q : (y <= x)%N → 
  best (best (best (best p (r, x)) (r, y)) (r, x + z)%N) q = best (best p (r, x + z)%N) (best (best (r, y) (r, y + z)%N) q).
Proof.
  intros Hxy. rewrite (best_assoc (best p (r, x))), (best_assoc p (r, x)), !best_assoc. f_equal.
  rewrite <-!best_assoc. f_equal. rewrite !best_same. f_equal. lia.
Qed.

(** The sum does not depend on the grouping if the middle is consistent. *)
Lemma unchecked_add_assoc a b c : consistent b = true →
  Unchecked.add (Unchecked.add a b) c = Unchecked.add a (Unchecked.add b c).
Proof.
  rewrite consistent_iff. intros (Hb & _ & _ & HR).
  destruct (add_fields a b) as (L1 & C1 & U1 & P1 & F1 & E1 & X1 & M1), (add_fields b c) as (L2 & C2 & U2 & P2 & F2 & E2 & X2 & M2).
  destruct (add_fields (Unchecked.add a b) c) as (L3 & C3 & U3 & P3 & F3 & E3 & X3 & M3),
    (add_fields a (Unchecked.add b c)) as (L4 & C4 & U4 & P4 & F4 & E4 & X4 & M4).
  apply TextSummary_eq_fields.
  - rewrite L3, L4, L1, L2. lia.
  - rewrite C3, C4, C1, C2. lia.
  - rewrite U3, U4, U1, U2. unfold OffsetUtf16.add. simpl. f_equal. lia.
  - by rewrite P3, P4, P1, P2, point_add_assoc.
  - rewrite F3, F4, F1, F2, P1, point_add_row. num_tests.
  - rewrite E3, E4, E1, F2, E2, P2, point_add_row. num_tests.
  - rewrite X3, X4, X1, X2, P2, point_add_row. num_tests.
  - rewrite M3, M4, M1, M2, P1, point_add_row, F2, E1, !shift_best, shift_shift.
    destruct (N.eqb_spec (Point.row (lines b)) 0) as [H0|H0].
    + destruct (Hb H0) as [Hfl Hmf]. unfold longest_of, shift_row. simpl. rewrite (HR Hmf), Hmf, H0, <-Hfl, !N.add_0_r, N.add_assoc.
      apply best_joined. lia.
    + by rewrite !best_assoc.
Qed.

(** ** The tree's summary *)

(** [impl ContextLessSummary for ChunkSummary] *)
#[global] Instance RopeSummary_summary : Summary RopeSummary := {|
  zero := mkRopeSummary TextSummary.zero eq_refl;
  add_summary := λ self summary,
    mkRopeSummary (Unchecked.add (summary_text self) (summary_text summary))
      (add_consistent _ _ (summary_consistent self) (summary_consistent summary));
|}.

Lemma unchecked_add_zero_l a : consistent a = true → Unchecked.add TextSummary.zero a = a.
Proof.
  rewrite consistent_iff. intros (Ha1 & Ha2 & Ha3 & Ha4).
  destruct (add_fields TextSummary.zero a) as (L & C & U & P & F & E & X & M). apply TextSummary_eq_fields.
  - by rewrite L.
  - by rewrite C.
  - rewrite U. by destruct (len_utf16 a).
  - rewrite P. destruct (lines a) as [r c]. unfold Unchecked.point_add. simpl. by destruct (N.eqb_spec r 0) as [->|].
  - by rewrite F.
  - rewrite E. destruct (N.eqb_spec (Point.row (lines a)) 0) as [H0|H0]; [|done]. destruct (Ha1 H0). simpl. lia.
  - rewrite X. by destruct (N.eqb_spec (Point.row (lines a)) 0) as [H0|H0].
  - rewrite M. unfold best, longest_of, shift_row. simpl. num_tests; f_equal; lia.
Qed.

#[global] Instance RopeSummary_laws : SummaryLaws RopeSummary.
Proof.
  split; intros; apply RopeSummary_eq.
  - apply unchecked_add_assoc, summary_consistent.
  - apply unchecked_add_zero_l, summary_consistent.
Qed.

Definition check_summary (text : TextSummary) : option RopeSummary :=
  match Sumbool.sumbool_of_bool (consistent text) with
  | left Hok => Some (mkRopeSummary text Hok)
  | right _ => None
  end.

(** [impl Item for Chunk].  The summary of a chunk that holds its text always
    passes the check. *)
#[global] Instance Chunk_item : Item Chunk RopeSummary := λ self,
  default zero (text ← ChunkSlice.text_summary (Chunk.as_slice self); check_summary text).

(** ** Dimensions *)

#[global] Instance TextSummary_dimension : Dimension TextSummary RopeSummary :=
  {| dim_zero := TextSummary.zero; dim_add := λ self summary, Unchecked.add self (summary_text summary) |}.
#[global] Instance usize_dimension : Dimension nat RopeSummary :=
  {| dim_zero := 0; dim_add := λ self summary, self + len (summary_text summary) |}.
#[global] Instance OffsetUtf16_dimension : Dimension OffsetUtf16 RopeSummary :=
  {| dim_zero := OffsetUtf16.mk 0; dim_add := λ self summary, OffsetUtf16.add self (len_utf16 (summary_text summary)) |}.
#[global] Instance Point_dimension : Dimension Point RopeSummary :=
  {| dim_zero := Point.zero; dim_add := λ self summary, Unchecked.point_add self (lines (summary_text summary)) |}.
#[global] Instance PointUtf16_dimension : Dimension PointUtf16 RopeSummary :=
  {| dim_zero := PointUtf16.zero;
     dim_add := λ self summary, Unchecked.point_utf16_add self (TextSummary.lines_utf16 (summary_text summary)) |}.

#[global] Instance TextSummary_dimension_laws : DimensionLaws TextSummary RopeSummary.
Proof. split. intros. apply unchecked_add_assoc, summary_consistent. Qed.
#[global] Instance usize_dimension_laws : DimensionLaws nat RopeSummary.
Proof. split. intros d a b. simpl. rewrite (proj1 (add_fields _ _)). lia. Qed.
#[global] Instance OffsetUtf16_dimension_laws : DimensionLaws OffsetUtf16 RopeSummary.
Proof.
  split. intros d a b. simpl. destruct (add_fields (summary_text a) (summary_text b)) as (_ & _ & -> & _).
  unfold OffsetUtf16.add. simpl. f_equal. lia.
Qed.
#[global] Instance Point_dimension_laws : DimensionLaws Point RopeSummary.
Proof.
  split. intros d a b. simpl. destruct (add_fields (summary_text a) (summary_text b)) as (_ & _ & _ & -> & _).
  apply point_add_assoc.
Qed.
#[global] Instance PointUtf16_dimension_laws : DimensionLaws PointUtf16 RopeSummary.
Proof.
  split. intros d a b. simpl. rewrite point_utf16_add_assoc. f_equal.
  destruct (add_fields (summary_text a) (summary_text b)) as (_ & _ & _ & P & _ & _ & X & _).
  unfold TextSummary.lines_utf16, Unchecked.point_utf16_add, PointUtf16.new. rewrite P, X, point_add_row.
  simpl. by destruct (N.eqb_spec (Point.row (lines (summary_text b))) 0) as [->|]; rewrite ?N.add_0_r.
Qed.

(** [impl Ord] of the positions *)
#[global] Instance Point_ord : Ord Point := Point.cmp.
#[global] Instance PointUtf16_ord : Ord PointUtf16 := PointUtf16.cmp.

(** [trait TextDimension] *)
Class TextDimension (D : Type) := {
  from_text_summary : TextSummary → D;
  from_chunk : ChunkSlice → option D;
  td_add_assign : D → D → option D;
}.
#[global] Hint Mode TextDimension ! : typeclass_instances.

#[global] Instance TextSummary_text_dimension : TextDimension TextSummary :=
  {| from_text_summary := λ summary, summary; from_chunk := ChunkSlice.text_summary; td_add_assign := TextSummary.add_assign |}.
#[global] Instance usize_text_dimension : TextDimension nat :=
  {| from_text_summary := len; from_chunk := λ chunk, Some (ChunkSlice.len chunk); td_add_assign := λ self other, Some (self + other) |}.
#[global] Instance OffsetUtf16_text_dimension : TextDimension OffsetUtf16 :=
  {| from_text_summary := len_utf16; from_chunk := λ chunk, Some (ChunkSlice.len_utf16 chunk);
     td_add_assign := λ self other, Some (OffsetUtf16.add self other) |}.
#[global] Instance Point_text_dimension : TextDimension Point :=
  {| from_text_summary := lines; from_chunk := ChunkSlice.lines; td_add_assign := Point.add_assign |}.
#[global] Instance PointUtf16_text_dimension : TextDimension PointUtf16 :=
  {| from_text_summary := TextSummary.lines_utf16;
     from_chunk := λ chunk,
       lines ← ChunkSlice.lines chunk;
       Some (PointUtf16.mk (Point.row lines) (ChunkSlice.last_line_len_utf16 chunk));
     td_add_assign := PointUtf16.add_assign |}.
(** [impl TextDimension for Dimensions<D1, D2, ()>] *)
#[global] Instance pair_text_dimension {D1 D2} `{TextDimension D1, TextDimension D2} : TextDimension (D1 * D2) :=
  {| from_text_summary := λ summary, (from_text_summary summary, from_text_summary summary);
     from_chunk := λ chunk, d1 ← from_chunk chunk; d2 ← from_chunk chunk; Some (d1, d2);
     td_add_assign := λ self other,
       d1 ← td_add_assign self.1 other.1; d2 ← td_add_assign self.2 other.2; Some (d1, d2) |}.

Module DimensionPair.
(** [struct DimensionPair] *)
Record t (K V : Type) := mk { key : K; value : option V }.
#[global] Arguments mk {K V}.
#[global] Arguments key {K V}.
#[global] Arguments value {K V}.

(** [impl Ord], [impl PartialOrd], [impl PartialEq] *)
#[global] Instance t_ord {K V} `{Ord K} : Ord (t K V) := λ self other, cmp (key self) (key other).

(** [impl Sub] *)
Definition sub {K V R R2} (key_sub : K → K → option R) (value_sub : V → V → option R2) (self rhs : t K V) : option (t R R2) :=
  key' ← key_sub (key self) (key rhs);
  value' ← match value self, value rhs with
           | Some a, Some b => v ← value_sub a b; Some (Some v)
           | _, _ => Some None
           end;
  Some (mk key' value').

(** [impl AddAssign<DimensionPair<R, R2>>] *)
Definition add_assign {K V R R2} (key_add : K → R → option K) (value_add : V → R2 → option V) (self : t K V) (rhs : t R R2) :
    option (t K V) :=
  key' ← key_add (key self) (key rhs);
  value' ← match value self with
           | Some v =>
               match value rhs with
               | Some other_value => v ← value_add v other_value; Some (Some v)
               | None => Some None
               end
           | None => Some None
           end;
  Some (mk key' value').

(** [impl AddAssign<DimensionPair<Point, D>> for Point] *)
Definition point_add_assign {D} (self : Point) (rhs : t Point D) : option Point := Point.add_assign self (key rhs).

(** [impl Dimension] *)
#[global] Instance t_dimension {S K V} `{Dimension K S, Dimension V S} : Dimension (t K V) S :=
  {| dim_zero := mk dim_zero (Some dim_zero);
     dim_add := λ self summary, mk (dim_add (key self) summary) ((λ v, dim_add v summary) <$> value self) |}.

(** [impl TextDimension] *)
#[global] Instance t_text_dimension {K V} `{TextDimension K, TextDimension V} : TextDimension (t K V) :=
  {| from_text_summary := λ summary, mk (from_text_summary summary) (Some (from_text_summary summary));
     from_chunk := λ chunk, k ← from_chunk chunk; v ← from_chunk chunk; Some (mk k (Some v));
     td_add_assign := add_assign td_add_assign td_add_assign |}.
End DimensionPair.
Abbreviation DimensionPair := DimensionPair.t (only parsing).

(** ** Measures of texts *)

(** What a dimension says of a text. *)
Definition measure {D} `{TextDimension D} (s : str) : D := from_text_summary (summary_of s).

(** A dimension measures texts: from chunks, through the summaries of the tree,
    and by its own sum. *)
Class TextDimensionLaws (D : Type) `{Dimension D RopeSummary, TextDimension D} : Prop := {
  td_zero : dim_zero = (measure [] : D);
  td_add a b (summary : RopeSummary) : summary_text summary = summary_of b → dim_add (measure a : D) summary = measure (a ++ b);
  td_from_chunk s : Str.len s <= 128 → from_chunk (slice_of s) = Some (measure s : D);
  td_assign a b : (N.of_nat (Str.len (a ++ b)) <= u32_max)%N → td_add_assign (measure a : D) (measure b) = Some (measure (a ++ b));
}.

Lemma point_add_checked a b c : Point.add a b = Some c → c = Unchecked.point_add a b.
Proof.
  unfold Point.add, Unchecked.point_add. destruct (Point.row b =? 0)%N; unfold checked_add; case_match; simpl; congruence.
Qed.

(** The extent of a text, in both units, is additive. *)
Lemma point_add_extent a b : Unchecked.point_add (extent a) (extent b) = extent (a ++ b).
Proof.
  unfold Unchecked.point_add, extent, Point.new. simpl. rewrite newlines_app, last_line_app, N_eqb_of_nat.
  destruct (Nat.eqb_spec (Lines.newlines b) 0) as [->|]; rewrite ?Str_len_app; f_equal; lia.
Qed.

Lemma point_utf16_add_extent a b : Unchecked.point_utf16_add (extent_utf16 a) (extent_utf16 b) = extent_utf16 (a ++ b).
Proof.
  unfold Unchecked.point_utf16_add, extent_utf16, PointUtf16.new. simpl. rewrite newlines_app, last_line_app, N_eqb_of_nat.
  destruct (Nat.eqb_spec (Lines.newlines b) 0) as [->|]; rewrite ?Str_len_utf16_app; f_equal; lia.
Qed.

Lemma unchecked_add_summary_of a b : Unchecked.add (summary_of a) (summary_of b) = summary_of (a ++ b).
Proof.
  destruct (add_fields (summary_of a) (summary_of b)) as (L & C & U & P & F & E & X & M). apply TextSummary_eq_fields.
  - rewrite L. simpl. by rewrite Str_len_app.
  - rewrite C. simpl. by rewrite length_app.
  - rewrite U. simpl. unfold OffsetUtf16.add. simpl. by rewrite Str_len_utf16_app.
  - rewrite P. apply point_add_extent.
  - rewrite F. simpl. rewrite first_line_app, N_eqb_of_nat.
    destruct (Nat.eqb_spec (Lines.newlines a) 0) as [H0|H0]; [|done]. rewrite length_app. lia.
  - rewrite E. simpl. rewrite last_line_app, N_eqb_of_nat.
    destruct (Nat.eqb_spec (Lines.newlines b) 0) as [H0|H0]; [|done].
    rewrite (first_line_none b), (last_line_none b), length_app by done. lia.
  - rewrite X. simpl. rewrite last_line_app, N_eqb_of_nat.
    destruct (Nat.eqb_spec (Lines.newlines b) 0) as [H0|H0]; [|done]. rewrite Str_len_utf16_app. lia.
  - rewrite M. unfold longest_of, shift_row, best. simpl. rewrite longest_line_lens_app.
    destruct (longest (line_lens a)) as [r1 m1], (longest (line_lens b)) as [r2 m2]. simpl.
    rewrite <-!Nat2N.inj_add, !N_ltb_of_nat. destruct (m1 <? _); simpl; rewrite N_ltb_of_nat; by destruct (_ <? m2).
Qed.

Lemma line_lens_first s : ∃ lens, line_lens s = length (first_line s) :: lens ∧ (Lines.newlines s = 0 → lens = []).
Proof.
  destruct (line_lens_app [] s) as (front & back & _ & Hs & _ & _ & Hb). exists back. split; [done|].
  rewrite <-Hb. by destruct back.
Qed.

Lemma consistent_summary_of s : consistent (summary_of s) = true.
Proof.
  rewrite consistent_iff. simpl. destruct (line_lens_first s) as (lens & Hl & H0).
  assert (length (first_line s) <= (longest (line_lens s)).2) by (apply longest_le; rewrite Hl; set_solver).
  assert (length (last_line s) <= (longest (line_lens s)).2).
  { apply longest_le. destruct (line_lens_app s []) as (front & back & Hs & _ & _ & _). rewrite Hs. set_solver. }
  split_and!; [intros Hn|lia|lia|].
  - assert (Lines.newlines s = 0) as Hn0 by lia. rewrite first_line_none, last_line_none by done. split; [done|].
    rewrite Hl, (H0 Hn0), (first_line_none s Hn0). simpl. by destruct (Nat.ltb_spec (length s) 0); [lia|].
  - intros Heq. rewrite Hl in Heq |- *. simpl in *. destruct (longest lens) as [r m].
    destruct (Nat.ltb_spec (length (first_line s)) m); simpl in *; [lia|done].
Qed.

(** The summary the tree keeps for a text. *)
Definition rope_summary (s : str) : RopeSummary := mkRopeSummary (summary_of s) (consistent_summary_of s).

Lemma rope_summary_nil : zero = rope_summary [].
Proof. by apply RopeSummary_eq. Qed.

Lemma rope_summary_app a b : add_summary (rope_summary a) (rope_summary b) = rope_summary (a ++ b).
Proof. apply RopeSummary_eq, unchecked_add_summary_of. Qed.

(** The check of [Chunk_item] passes. *)
Lemma chunk_of_summary s : Str.len s <= 128 → item_summary (chunk_of s) = rope_summary s.
Proof.
  intros Hlen. unfold item_summary, Chunk_item. rewrite as_slice_chunk_of, text_summary_spec by done. cbn [mbind option_bind].
  unfold check_summary. destruct (Sumbool.sumbool_of_bool _) as [Hok|Hno]; [by apply RopeSummary_eq|].
  by rewrite consistent_summary_of in Hno.
Qed.

#[global] Instance TextSummary_text_dimension_laws : TextDimensionLaws TextSummary.
Proof.
  split.
  - done.
  - intros a b summary Hs. simpl. rewrite Hs. apply unchecked_add_summary_of.
  - intros s Hlen. by apply text_summary_spec.
  - intros a b Hlen. by apply add_assign_spec.
Qed.
#[global] Instance usize_text_dimension_laws : TextDimensionLaws nat.
Proof.
  split.
  - done.
  - intros a b summary Hs. simpl. rewrite Hs. symmetry. apply Str_len_app.
  - done.
  - intros a b _. simpl. f_equal. symmetry. apply Str_len_app.
Qed.
#[global] Instance OffsetUtf16_text_dimension_laws : TextDimensionLaws OffsetUtf16.
Proof.
  split.
  - done.
  - intros a b summary Hs. simpl. rewrite Hs. unfold measure. simpl. by rewrite Str_len_utf16_app.
  - intros s _. simpl. by rewrite len_utf16_spec.
  - intros a b _. unfold measure. simpl. by rewrite Str_len_utf16_app.
Qed.
#[global] Instance Point_text_dimension_laws : TextDimensionLaws Point.
Proof.
  split.
  - done.
  - intros a b summary Hs. simpl. rewrite Hs. apply point_add_extent.
  - intros s Hlen. by apply lines_spec.
  - intros a b Hlen. simpl. rewrite Point_add_assign_add. by apply extent_app.
Qed.
#[global] Instance PointUtf16_text_dimension_laws : TextDimensionLaws PointUtf16.
Proof.
  split.
  - done.
  - intros a b summary Hs. simpl. rewrite Hs. apply point_utf16_add_extent.
  - intros s Hlen. simpl. rewrite lines_spec, (proj2 (last_line_counts s Hlen)) by done. done.
  - intros a b Hlen. simpl. rewrite PointUtf16_add_assign_add.
    enough (PointUtf16.add (extent_utf16 a) (extent_utf16 b) = Some (extent_utf16 (a ++ b))) as H by exact H.
    rewrite <-point_utf16_add_extent.
    pose proof (line_bounds (a ++ b)). pose proof (line_bounds a). pose proof (line_bounds b).
    rewrite newlines_app, Str_len_app in *.
    unfold PointUtf16.add, Unchecked.point_utf16_add, extent_utf16. simpl.
    destruct (N.of_nat (Lines.newlines b) =? 0)%N; rewrite checked_add_Some by lia; done.
Qed.
#[global] Instance pair_text_dimension_laws {D1 D2} `{TextDimensionLaws D1, TextDimensionLaws D2} : TextDimensionLaws (D1 * D2).
Proof.
  split.
  - unfold measure. simpl. by rewrite (td_zero (D:=D1)), (td_zero (D:=D2)).
  - intros a b summary Hs. unfold measure. simpl. f_equal; by apply td_add.
  - intros s Hlen. simpl. by rewrite (td_from_chunk (D:=D1)), (td_from_chunk (D:=D2)).
  - intros a b Hlen. unfold measure. simpl.
    pose proof (td_assign (D:=D1) a b Hlen) as Ha1. pose proof (td_assign (D:=D2) a b Hlen) as Ha2. unfold measure in Ha1, Ha2.
    rewrite Ha1. cbn [mbind option_bind]. by rewrite Ha2.
Qed.
