(* ===== verification/Rope.v ===== *)
(** * Ropes ([crates/rope/src/rope.rs])

    The text of a buffer: a tree of chunks.  A closure handed to [update_last]
    or [update_first] runs once, on the last or first chunk; it may panic and
    change the variables it captures, so it is modelled as a function of the
    chunk whose result is stored in the tree. *)

From S2P Require Import Prelude SumTree SumTreeFacts Seek Cursor Utf8 Points Lines BitSelect Chunk ChunkBits ChunkFacts ChunkPositions TextSummary RopeTree.

Definition MIN_BASE : nat := MAX_BASE / 2.
Definition NUM_CHUNKS : nat := 4.
Definition PARALLEL_THRESHOLD : nat := 84 * (2 * TREE_BASE).
#[global] Arguments MIN_BASE : simpl never.
#[global] Arguments PARALLEL_THRESHOLD : simpl never.

Abbreviation ChunkTree := (SumTree Chunk RopeSummary) (only parsing).

(** [update_last] with a closure that returns the value [R] it leaves behind *)
Definition update_last_with {R} (f : Chunk → option (Chunk * R)) (tree : ChunkTree) : option (ChunkTree * option R) :=
  last ← SumTree.last tree;
  match last with
  | Some last_chunk =>
      '(last_chunk, r) ← f last_chunk;
      tree ← SumTree.update_last (λ _, last_chunk) tree; Some (tree, Some r)
  | None => tree ← SumTree.update_last id tree; Some (tree, None)
  end.

Definition update_first_with (f : Chunk → option Chunk) (tree : ChunkTree) : option ChunkTree :=
  first ← SumTree.first tree;
  match first with
  | Some first_chunk => first_chunk ← f first_chunk; SumTree.update_first (λ _, first_chunk) tree
  | None => SumTree.update_first id tree
  end.

(** [struct Rope] *)
Record Rope := mkRope { chunks : ChunkTree }.

Module Rope.
Implicit Types self rope : Rope.

Definition new : Rope := mkRope SumTree.new.

Definition summary self : TextSummary := summary_text (SumTree.summary (chunks self)).
Definition len self : nat := SumTree.extent (chunks self).
Definition is_empty self : bool := len self =? 0.
Definition max_point self : Point := SumTree.extent (chunks self).
Definition max_point_utf16 self : PointUtf16 := SumTree.extent (chunks self).

(** ** Boundaries *)

Definition is_char_boundary self (offset : nat) : option bool :=
  if SumTree.is_empty (chunks self) then Some (offset =? 0)
  else
    let '(start, _, item) := SumTree.find (D:=nat) (chunks self) (seek_ord offset) Left in
    chunk_offset ← checked_sub_nat offset start;
    Some (match item with Some chunk => Chunk.is_char_boundary chunk chunk_offset | None => false end).

Definition assert_char_boundary (panic : bool) self (offset : nat) : option bool :=
  if SumTree.is_empty (chunks self) && (offset =? 0) then Some true
  else
    let '(start, _, item) := SumTree.find (D:=nat) (chunks self) (seek_ord offset) Left in
    match item with
    | Some chunk =>
        chunk_offset ← checked_sub_nat offset start;
        Chunk.assert_char_boundary panic chunk chunk_offset
    | None => if panic then None else Some false
    end.

Definition floor_char_boundary self (index : nat) : option nat :=
  if len self <=? index then Some (len self)
  else
    let '(start, _, item) := SumTree.find (D:=nat) (chunks self) (seek_ord index) Left in
    chunk_offset ← checked_sub_nat index start;
    Some (match item with
          | Some chunk => start + Str.floor_char_boundary (chunk_text chunk) chunk_offset
          | None => len self
          end).

Definition ceil_char_boundary self (index : nat) : option nat :=
  if len self <? index then Some (len self)
  else
    let '(start, _, item) := SumTree.find (D:=nat) (chunks self) (seek_ord index) Left in
    chunk_offset ← checked_sub_nat index start;
    Some (match item with
          | Some chunk => start + Str.ceil_char_boundary (chunk_text chunk) chunk_offset
          | None => len self
          end).

(** ** Building *)

(** [while !chunk.is_char_boundary(split_ix) { split_ix += 1; }] *)
Fixpoint advance_chunk (fuel : nat) (chunk : ChunkSlice) (split_ix : nat) : option nat :=
  if ChunkSlice.is_char_boundary chunk split_ix then Some split_ix
  else match fuel with 0 => None | S fuel => advance_chunk fuel chunk (split_ix + 1) end.

(** The closure of [push_chunk]; it returns the rest of the chunk. *)
Definition fill_last_chunk (chunk : ChunkSlice) (last_chunk : Chunk) : option (Chunk * ChunkSlice) :=
  let last_len := Str.len (chunk_text last_chunk) in
  split_ix ←
    (if last_len + ChunkSlice.len chunk <=? MAX_BASE then Some (ChunkSlice.len chunk)
     else advance_chunk (ChunkSlice.len chunk) chunk (Nat.min (MIN_BASE - last_len) (ChunkSlice.len chunk)));
  '(suffix, remainder) ← ChunkSlice.split_at chunk split_ix;
  last_chunk ← Chunk.append last_chunk suffix;
  Some (last_chunk, remainder).

Definition push_chunk self (chunk : ChunkSlice) : option Rope :=
  '(tree, rest) ← update_last_with (fill_last_chunk chunk) (chunks self);
  let chunk := default chunk rest in
  if negb (ChunkSlice.is_empty chunk) then
    chunk ← ChunkSlice.into chunk;
    tree ← SumTree.push tree chunk; Some (mkRope tree)
  else Some (mkRope tree).

Definition append self rope : option Rope :=
  first ← SumTree.first (chunks rope);
  last ← SumTree.last (chunks self);
  match first with
  | Some chunk =>
      if match last with Some c => Str.len (chunk_text c) <? MIN_BASE | None => false end
         || (Str.len (chunk_text chunk) <? MIN_BASE)
      then
        self ← push_chunk self (Chunk.as_slice chunk);
        let cursor : Cursor.t Chunk RopeSummary unit := Cursor.new (chunks rope) in
        cursor ← Cursor.next cursor;
        cursor ← Cursor.next cursor;
        '(suffix, _) ← Cursor.suffix cursor;
        tree ← SumTree.append (chunks self) suffix; Some (mkRope tree)
      else tree ← SumTree.append (chunks self) (chunks rope); Some (mkRope tree)
  | None => tree ← SumTree.append (chunks self) (chunks rope); Some (mkRope tree)
  end.

(** The closure of [push]; it returns the rest of the text. *)
Definition fill_last_str (text : str) (last_chunk : Chunk) : option (Chunk * str) :=
  let last_len := Str.len (chunk_text last_chunk) in
  split_ix ←
    (if last_len + Str.len text <=? MAX_BASE then Some (Str.len text)
     else ChunkSlice.advance (Str.len text) text (Nat.min (MIN_BASE - last_len) (Str.len text)));
  '(suffix, remainder) ← Str.split_at text split_ix;
  last_chunk ← Chunk.push_str last_chunk suffix;
  Some (last_chunk, remainder).

(** The loop that cuts a text into chunks, in [push] and [push_large]. *)
Fixpoint split_chunks (push : list str → str → option (list str)) (fuel : nat) (text : str) (new_chunks : list str) :
    option (list str) :=
  match text with
  | [] => Some new_chunks
  | _ :: _ =>
      match fuel with
      | 0 => None
      | S fuel =>
          split_ix ← ChunkSlice.retreat text (Nat.min MAX_BASE (Str.len text));
          '(chunk, remainder) ← Str.split_at text split_ix;
          new_chunks ← push new_chunks chunk;
          split_chunks push fuel remainder new_chunks
      end
  end.

(** [heapless::Vec::push(..).unwrap()] *)
Definition array_vec_push (new_chunks : list str) (chunk : str) : option (list str) :=
  _ ← rassert (length new_chunks <? NUM_CHUNKS); Some (new_chunks ++ [chunk]).

Definition push_large self (text : str) : option Rope :=
  new_chunks ← split_chunks (λ new_chunks chunk, Some (new_chunks ++ [chunk])) (length text) text [];
  new_chunks' ← mapM Chunk.new new_chunks;
  tree ←
    (if PARALLEL_THRESHOLD <=? length new_chunks then SumTree.par_extend (chunks self) new_chunks'
     else SumTree.extend (chunks self) new_chunks');
  Some (mkRope tree).

Definition push self (text : str) : option Rope :=
  '(tree, rest) ← update_last_with (fill_last_str text) (chunks self);
  let text := default text rest in
  match text with
  | [] => Some (mkRope tree)
  | _ :: _ =>
      if NUM_CHUNKS * MAX_BASE - NUM_CHUNKS * 4 <? Str.len text then push_large (mkRope tree) text
      else
        new_chunks ← split_chunks array_vec_push (length text) text [];
        new_chunks ← mapM Chunk.new new_chunks;
        tree ← SumTree.extend tree new_chunks; Some (mkRope tree)
  end.

(** [impl From<&str>], [impl FromIterator<&str>] *)
Definition from_str (text : str) : option Rope := push new text.

Fixpoint push_all self (iter : list str) : option Rope :=
  match iter with
  | [] => Some self
  | chunk :: iter => rope ← push self chunk; push_all rope iter
  end.
Definition from_iter (iter : list str) : option Rope := push_all new iter.

Definition push_front self (text : str) : option Rope :=
  if (match text with [] => true | _ => false end) then Some self
  else if is_empty self then push self text
  else
    first ← SumTree.first (chunks self);
    if match first with Some c => Str.len (chunk_text c) + Str.len text <=? MAX_BASE | None => false end then
      tree ← update_first_with (λ first_chunk, Chunk.prepend_str first_chunk text) (chunks self); Some (mkRope tree)
    else
      rope ← from_str text; append rope self.

(** ** [struct Cursor] *)

Module RopeCursor.
Record t := mk { rope : Rope; chunk_cursor : Cursor.t Chunk RopeSummary nat; offset : nat }.
Definition new (rope : Rope) (offset : nat) : option t :=
  '(_, chunks) ← Cursor.seek (seek_ord offset) Right (Cursor.new (chunks rope));
  Some (mk rope chunks offset).

Definition seek_forward (self : t) (end_offset : nat) : option t :=
  _ ← rassert (offset self <=? end_offset);
  _ ← rassert (end_offset <=? Rope.len (rope self));
  '(_, chunks) ← Cursor.seek_forward (seek_ord end_offset) Right (chunk_cursor self);
  Some (mk (rope self) chunks end_offset).

Definition slice (self : t) (end_offset : nat) : option (Rope * t) :=
  _ ← rassert (offset self <=? end_offset);
  _ ← rassert (end_offset <=? Rope.len (rope self));
  let slice := Rope.new in
  start_chunk ← Cursor.item (chunk_cursor self);
  chunks_end ← Cursor.end_ (chunk_cursor self);
  slice ←
    match start_chunk with
    | Some start_chunk =>
        start_ix ← checked_sub_nat (offset self) (Cursor.start (chunk_cursor self));
        end_ix ← checked_sub_nat (Nat.min end_offset chunks_end) (Cursor.start (chunk_cursor self));
        start_slice ← Chunk.slice start_chunk start_ix end_ix;
        Rope.push_chunk slice start_slice
    | None => Some slice
    end;
  '(slice, chunks) ←
    (if chunks_end <? end_offset then
       chunks ← Cursor.next (chunk_cursor self);
       '(tree, chunks) ← Cursor.slice (seek_ord end_offset) Right chunks;
       slice ← Rope.append slice (mkRope tree);
       end_chunk ← Cursor.item chunks;
       match end_chunk with
       | Some end_chunk =>
           end_ix ← checked_sub_nat end_offset (Cursor.start chunks);
           end_slice ← Chunk.slice end_chunk 0 end_ix;
           slice ← Rope.push_chunk slice end_slice; Some (slice, chunks)
       | None => Some (slice, chunks)
       end
     else Some (slice, chunk_cursor self));
  Some (slice, mk (rope self) chunks end_offset).

Definition summary {D} `{Dimension D RopeSummary, TextDimension D} (self : t) (end_offset : nat) : option (D * t) :=
  _ ← rassert (offset self <=? end_offset);
  _ ← rassert (end_offset <=? Rope.len (rope self));
  let summary : D := dim_zero in
  start_chunk ← Cursor.item (chunk_cursor self);
  chunks_end ← Cursor.end_ (chunk_cursor self);
  summary ←
    match start_chunk with
    | Some start_chunk =>
        start_ix ← checked_sub_nat (offset self) (Cursor.start (chunk_cursor self));
        end_ix ← checked_sub_nat (Nat.min end_offset chunks_end) (Cursor.start (chunk_cursor self));
        start_slice ← Chunk.slice start_chunk start_ix end_ix;
        d ← from_chunk start_slice; td_add_assign summary d
    | None => Some summary
    end;
  '(summary, chunks) ←
    (if chunks_end <? end_offset then
       chunks ← Cursor.next (chunk_cursor self);
       '(d, chunks) ← Cursor.summary (seek_ord end_offset) Right chunks;
       summary ← td_add_assign summary d;
       end_chunk ← Cursor.item chunks;
       match end_chunk with
       | Some end_chunk =>
           end_ix ← checked_sub_nat end_offset (Cursor.start chunks);
           end_slice ← Chunk.slice end_chunk 0 end_ix;
           d ← from_chunk end_slice;
           summary ← td_add_assign summary d; Some (summary, chunks)
       | None => Some (summary, chunks)
       end
     else Some (summary, chunk_cursor self));
  Some (summary, mk (rope self) chunks end_offset).

Definition suffix (self : t) : option Rope :=
  '(slice, _) ← slice self (SumTree.extent (chunks (rope self))); Some slice.
End RopeCursor.

Definition cursor self (offset : nat) : option RopeCursor.t := RopeCursor.new self offset.

(** ** Cutting *)

Definition replace self (start end_ : nat) (text : str) : option Rope :=
  let new_rope := new in
  cursor ← cursor self 0;
  '(slice, cursor) ← RopeCursor.slice cursor start;
  new_rope ← append new_rope slice;
  cursor ← RopeCursor.seek_forward cursor end_;
  new_rope ← push new_rope text;
  suffix ← RopeCursor.suffix cursor;
  append new_rope suffix.

Definition slice self (start end_ : nat) : option Rope :=
  cursor ← cursor self 0;
  cursor ← RopeCursor.seek_forward cursor start;
  '(slice, _) ← RopeCursor.slice cursor end_; Some slice.

(** ** Positions *)

Definition offset_to_offset_utf16 self (offset : nat) : option OffsetUtf16 :=
  if TextSummary.len (summary self) <=? offset then Some (len_utf16 (summary self))
  else
    let '(start, _, item) := SumTree.find (D:=nat * OffsetUtf16) (chunks self) (seek_fst (seek_ord offset)) Left in
    overshoot ← checked_sub_nat offset start.1;
    Some (OffsetUtf16.add start.2
      (match item with
       | Some chunk => ChunkSlice.offset_to_offset_utf16 (Chunk.as_slice chunk) overshoot
       | None => OffsetUtf16.mk 0
       end)).

Definition offset_utf16_to_offset self (offset : OffsetUtf16) : option nat :=
  if is_ge (cmp offset (len_utf16 (summary self))) then Some (TextSummary.len (summary self))
  else
    let '(start, _, item) := SumTree.find (D:=OffsetUtf16 * nat) (chunks self) (seek_fst (seek_ord offset)) Left in
    overshoot ← OffsetUtf16.sub offset start.1;
    chunk_offset ← match item with
                   | Some chunk => ChunkSlice.offset_utf16_to_offset (Chunk.as_slice chunk) overshoot
                   | None => Some 0
                   end;
    Some (start.2 + chunk_offset).

Definition offset_to_point self (offset : nat) : option Point :=
  if TextSummary.len (summary self) <=? offset then Some (lines (summary self))
  else
    let '(start, _, item) := SumTree.find (D:=nat * Point) (chunks self) (seek_fst (seek_ord offset)) Left in
    overshoot ← checked_sub_nat offset start.1;
    point ← match item with
            | Some chunk => ChunkSlice.offset_to_point (Chunk.as_slice chunk) overshoot
            | None => Some Point.zero
            end;
    Point.add start.2 point.

Definition offset_to_point_utf16 self (offset : nat) : option PointUtf16 :=
  if TextSummary.len (summary self) <=? offset then Some (TextSummary.lines_utf16 (summary self))
  else
    let '(start, _, item) := SumTree.find (D:=nat * PointUtf16) (chunks self) (seek_fst (seek_ord offset)) Left in
    overshoot ← checked_sub_nat offset start.1;
    point ← match item with
            | Some chunk => ChunkSlice.offset_to_point_utf16 (Chunk.as_slice chunk) overshoot
            | None => Some PointUtf16.zero
            end;
    PointUtf16.add start.2 point.

Definition point_to_point_utf16 self (point : Point) : option PointUtf16 :=
  if is_ge (cmp point (lines (summary self))) then Some (TextSummary.lines_utf16 (summary self))
  else
    let '(start, _, item) := SumTree.find (D:=Point * PointUtf16) (chunks self) (seek_fst (seek_ord point)) Left in
    overshoot ← Point.sub point start.1;
    point ← match item with
            | Some chunk => ChunkSlice.point_to_point_utf16 (Chunk.as_slice chunk) overshoot
            | None => Some PointUtf16.zero
            end;
    PointUtf16.add start.2 point.

Definition point_utf16_to_point self (point : PointUtf16) : option Point :=
  if is_ge (cmp point (TextSummary.lines_utf16 (summary self))) then Some (lines (summary self))
  else
    let cursor : Cursor.t Chunk RopeSummary (PointUtf16 * Point) := Cursor.new (chunks self) in
    '(_, cursor) ← Cursor.seek (seek_fst (seek_ord point)) Left cursor;
    overshoot ← PointUtf16.sub point (Cursor.start cursor).1;
    item ← Cursor.item cursor;
    point ← match item with
            | Some chunk =>
                offset ← ChunkSlice.point_utf16_to_offset (Chunk.as_slice chunk) overshoot false;
                ChunkSlice.offset_to_point (Chunk.as_slice chunk) offset
            | None => Some Point.zero
            end;
    Point.add (Cursor.start cursor).2 point.

Definition point_to_offset self (point : Point) : option nat :=
  if is_ge (cmp point (lines (summary self))) then Some (TextSummary.len (summary self))
  else
    let '(start, _, item) := SumTree.find (D:=Point * nat) (chunks self) (seek_fst (seek_ord point)) Left in
    overshoot ← Point.sub point start.1;
    offset ← match item with
             | Some chunk => ChunkSlice.point_to_offset (Chunk.as_slice chunk) overshoot
             | None => Some 0
             end;
    Some (start.2 + offset).

Definition point_to_offset_utf16 self (point : Point) : option OffsetUtf16 :=
  if is_ge (cmp point (lines (summary self))) then Some (len_utf16 (summary self))
  else
    let cursor : Cursor.t Chunk RopeSummary (Point * OffsetUtf16) := Cursor.new (chunks self) in
    '(_, cursor) ← Cursor.seek (seek_fst (seek_ord point)) Left cursor;
    overshoot ← Point.sub point (Cursor.start cursor).1;
    item ← Cursor.item cursor;
    offset ← match item with
             | Some chunk => ChunkSlice.point_to_offset_utf16 (Chunk.as_slice chunk) overshoot
             | None => Some (OffsetUtf16.mk 0)
             end;
    Some (OffsetUtf16.add (Cursor.start cursor).2 offset).

Definition point_utf16_to_offset_impl self (point : PointUtf16) (clip : bool) : option nat :=
  if is_ge (cmp point (TextSummary.lines_utf16 (summary self))) then Some (TextSummary.len (summary self))
  else
    let '(start, _, item) := SumTree.find (D:=PointUtf16 * nat) (chunks self) (seek_fst (seek_ord point)) Left in
    overshoot ← PointUtf16.sub point start.1;
    offset ← match item with
             | Some chunk => ChunkSlice.point_utf16_to_offset (Chunk.as_slice chunk) overshoot clip
             | None => Some 0
             end;
    Some (start.2 + offset).

Definition point_utf16_to_offset_utf16_impl self (point : PointUtf16) (clip : bool) : option OffsetUtf16 :=
  if is_ge (cmp point (TextSummary.lines_utf16 (summary self))) then Some (len_utf16 (summary self))
  else
    let cursor : Cursor.t Chunk RopeSummary (PointUtf16 * OffsetUtf16) := Cursor.new (chunks self) in
    '(_, cursor) ← Cursor.seek (seek_fst (seek_ord point)) Left cursor;
    overshoot ← PointUtf16.sub point (Cursor.start cursor).1;
    item ← Cursor.item cursor;
    offset ← match item with
             | Some chunk =>
                 offset ← ChunkSlice.point_utf16_to_offset (Chunk.as_slice chunk) overshoot clip;
                 Some (ChunkSlice.offset_to_offset_utf16 (Chunk.as_slice chunk) offset)
             | None => Some (OffsetUtf16.mk 0)
             end;
    Some (OffsetUtf16.add (Cursor.start cursor).2 offset).

Definition point_utf16_to_offset self (point : PointUtf16) : option nat := point_utf16_to_offset_impl self point false.
Definition point_utf16_to_offset_utf16 self (point : PointUtf16) : option OffsetUtf16 :=
  point_utf16_to_offset_utf16_impl self point false.
Definition unclipped_point_utf16_to_offset self (point : Unclipped PointUtf16) : option nat :=
  point_utf16_to_offset_impl self (Unclipped.inner point) true.

Definition unclipped_point_utf16_to_point self (point : Unclipped PointUtf16) : option Point :=
  if is_ge (cmp (Unclipped.inner point) (TextSummary.lines_utf16 (summary self))) then Some (lines (summary self))
  else
    let '(start, _, item) :=
      SumTree.find (D:=PointUtf16 * Point) (chunks self) (seek_fst (seek_ord (Unclipped.inner point))) Left in
    overshoot ← PointUtf16.sub (Unclipped.inner point) start.1;
    point ← match item with
            | Some chunk => ChunkSlice.unclipped_point_utf16_to_point (Chunk.as_slice chunk) (Unclipped.mk overshoot)
            | None => Some Point.zero
            end;
    Point.add start.2 point.

Definition slice_rows self (start end_ : N) : option Rope :=
  start ← point_to_offset self (Point.new start 0);
  end_ ← point_to_offset self (Point.new end_ 0);
  slice self start end_.

(** ** Clipping *)

Definition clip_offset self (offset : nat) (bias : Bias) : option nat :=
  match bias with
  | Left => floor_char_boundary self offset
  | Right => ceil_char_boundary self offset
  end.

Definition clip_offset_utf16 self (offset : OffsetUtf16) (bias : Bias) : option OffsetUtf16 :=
  let '(start, _, item) := SumTree.find (D:=OffsetUtf16) (chunks self) (seek_ord offset) Right in
  match item with
  | Some chunk =>
      overshoot ← OffsetUtf16.sub offset start;
      clipped ← ChunkSlice.clip_offset_utf16 (Chunk.as_slice chunk) overshoot bias;
      Some (OffsetUtf16.add start clipped)
  | None => Some (len_utf16 (summary self))
  end.

Definition clip_point_utf16 self (point : Unclipped PointUtf16) (bias : Bias) : option PointUtf16 :=
  let '(start, _, item) := SumTree.find (D:=PointUtf16) (chunks self) (seek_ord (Unclipped.inner point)) Right in
  match item with
  | Some chunk =>
      overshoot ← PointUtf16.sub (Unclipped.inner point) start;
      clipped ← ChunkSlice.clip_point_utf16 (Chunk.as_slice chunk) (Unclipped.mk overshoot) bias;
      PointUtf16.add start clipped
  | None => Some (TextSummary.lines_utf16 (summary self))
  end.

Section clip_point.
Context (is_grapheme_boundary : str → nat → bool).

Definition clip_point self (point : Point) (bias : Bias) : option Point :=
  let '(start, _, item) := SumTree.find (D:=Point) (chunks self) (seek_ord point) Right in
  match item with
  | Some chunk =>
      overshoot ← Point.sub point start;
      clipped ← ChunkSlice.clip_point is_grapheme_boundary (Chunk.as_slice chunk) overshoot bias;
      Point.add start clipped
  | None => Some (lines (summary self))
  end.

Definition line_len self (row : N) : option N :=
  point ← clip_point self (Point.new row u32_max) Left; Some (Point.column point).
End clip_point.
End Rope.
