(* ===== verification/RopeFacts.v ===== *)
(** * Ropes hold their text

    A rope represents a text as a list of chunk texts.  Every operation that
    builds, joins or cuts ropes is the string operation on the text. *)

From S2P Require Import Prelude SumTree SumTreeFacts Seek Cursor CursorFacts CursorWalk Utf8 Points Lines BitSelect Chunk ChunkBits ChunkFacts ChunkPositions TextSummary RopeTree Rope.

Implicit Types (s t : str) (texts : list str) (r : Rope).

(** ** The represented text *)

Definition chunk_text_ok t : Prop := str_ok t ∧ t ≠ [] ∧ Str.len t <= 128.

Definition tree_holds (tree : ChunkTree) texts : Prop :=
  tree_ok tree ∧ to_list tree = map chunk_of texts ∧ Forall chunk_text_ok texts.

Definition holds r s : Prop := ∃ texts, tree_holds (chunks r) texts ∧ s = concat texts.

(** A rope whose tree a cursor can walk. *)
Definition walkable r : Prop := Node.height (chunks r) < STACK_CAPACITY.

Lemma texts_str_ok texts : Forall chunk_text_ok texts → str_ok (concat texts).
Proof. induction 1 as [|t texts [Ht _] _ IH]; simpl; [constructor|]. by apply Forall_app. Qed.

Lemma holds_str_ok r s : holds r s → str_ok s.
Proof. intros (texts & (_ & _ & Hok) & ->). by apply texts_str_ok. Qed.

Lemma items_sum_texts texts : Forall chunk_text_ok texts →
  items_sum (S:=RopeSummary) (map chunk_of texts) = rope_summary (concat texts).
Proof.
  induction texts as [|t texts IH] using rev_ind; [intros _; exact rope_summary_nil|].
  intros [Htexts [(_ & _ & Hlen) _]%Forall_cons]%Forall_app. rewrite map_app, items_sum_app, IH by done.
  assert (items_sum (S:=RopeSummary) (map chunk_of [t]) = rope_summary t) as ->.
  { unfold items_sum. cbn [map]. by rewrite sum_singleton, chunk_of_summary. }
  by rewrite rope_summary_app, concat_app; cbn [concat]; rewrite app_nil_r.
Qed.

Lemma tree_holds_summary tree texts : tree_holds tree texts → Node.summary tree = rope_summary (concat texts).
Proof. intros (Hok & Hl & Htexts). rewrite tree_ok_summary, Hl by done. by apply items_sum_texts. Qed.

Lemma tree_holds_empty tree texts : tree_holds tree texts → SumTree.is_empty tree = true ↔ texts = [].
Proof. intros (Hok & Hl & Htexts). rewrite tree_ok_empty, Hl by done. by destruct texts. Qed.

Section extent.
Context {D} `{TextDimensionLaws D}.
Lemma tree_holds_extent tree texts : tree_holds tree texts → SumTree.extent tree = (measure (concat texts) : D).
Proof.
  intros Hh. unfold SumTree.extent. rewrite (tree_holds_summary _ _ Hh), td_zero. by apply (td_add [] (concat texts)).
Qed.
End extent.

Lemma holds_summary r s : holds r s → Rope.summary r = summary_of s.
Proof. intros (texts & Hh & ->). unfold Rope.summary, SumTree.summary. by rewrite (tree_holds_summary _ _ Hh). Qed.

Lemma holds_len r s : holds r s → Rope.len r = Str.len s.
Proof. intros (texts & Hh & ->). unfold Rope.len. by rewrite (tree_holds_extent _ _ Hh). Qed.

Lemma holds_new : holds Rope.new [].
Proof. exists []. split; [|done]. split; [by left|]. by split. Qed.

Lemma tree_holds_append a b ta tb : tree_holds a ta → tree_holds b tb →
  ∃ tree, SumTree.append a b = Some tree ∧ tree_holds tree (ta ++ tb) ∧
    Node.height tree <= S (Node.height a `max` Node.height b).
Proof.
  intros (Ha & Hla & Hta) (Hb & Hlb & Htb). destruct (append_spec a b Ha Hb) as (tree & Happ & Hok & Hl & Hh).
  exists tree. split; [done|]. split; [|done]. split; [done|]. split; [by rewrite Hl, Hla, Hlb, map_app|].
  by apply Forall_app.
Qed.

Lemma tree_holds_push a ta t : tree_holds a ta → chunk_text_ok t →
  ∃ tree, SumTree.push a (chunk_of t) = Some tree ∧ tree_holds tree (ta ++ [t]) ∧
    Node.height tree <= S (Node.height a).
Proof.
  intros (Ha & Hla & Hta) Ht. destruct (push_spec a (chunk_of t) Ha) as (tree & Hpush & Hok & Hl & Hh).
  exists tree. split; [done|]. split; [|done]. split; [done|]. split; [by rewrite Hl, Hla, map_app|].
  apply Forall_app. by split; [|constructor].
Qed.

(** Updating the last chunk with a closure. *)
Lemma update_last_with_spec {R} (f : Chunk → option (Chunk * R)) tree texts t t' (x : R) :
  tree_holds tree (texts ++ [t]) → f (chunk_of t) = Some (chunk_of t', x) → chunk_text_ok t' →
  ∃ tree', update_last_with f tree = Some (tree', Some x) ∧ tree_holds tree' (texts ++ [t']) ∧
    Node.height tree' = Node.height tree.
Proof.
  intros (Hok & Hl & Htexts) Hf Ht'. unfold update_last_with. rewrite last_spec, Hl, map_app by done. simpl.
  rewrite last_snoc, Hf. cbn [mbind option_bind].
  destruct (update_last_spec (λ _, chunk_of t') tree Hok) as (tree' & -> & Hok' & Hh & Hlast).
  rewrite Hl, map_app in Hlast. simpl in Hlast. rewrite last_snoc in Hlast. destruct Hlast as (l & Heq & Hl').
  apply app_inj_tail in Heq as [<- _]. exists tree'. split; [done|]. split; [|done]. split; [done|].
  split; [by rewrite Hl', map_app|]. apply Forall_app in Htexts as [Htexts _]. apply Forall_app. by split; [|constructor].
Qed.

Lemma update_last_with_empty {R} (f : Chunk → option (Chunk * R)) tree :
  tree_holds tree [] → ∃ tree', update_last_with f tree = Some (tree', None) ∧ tree_holds tree' [] ∧
    Node.height tree' = Node.height tree.
Proof.
  intros (Hok & Hl & Htexts). unfold update_last_with. rewrite last_spec, Hl by done. simpl.
  destruct (update_last_spec (T:=Chunk) (S:=RopeSummary) id tree Hok) as (tree' & -> & Hok' & Hh & Hlast).
  rewrite Hl in Hlast. simpl in Hlast. subst tree'. simpl. exists tree. by split_and!.
Qed.

(** ** Sums with checks

    The tree adds summaries without the check for overflow.  In a rope of a text
    of at most [u32::MAX] bytes the checked sums succeed at every node. *)

Definition text_fits s : Prop := (N.of_nat (Str.len s) <= u32_max)%N.

Lemma text_fits_comm a b : text_fits (a ++ b) → text_fits (b ++ a).
Proof. unfold text_fits. rewrite !Str_len_app. lia. Qed.

(** [TextSummary::add_assign] over the summaries of a node, checked. *)
Definition checked_sum (summaries : list RopeSummary) : option TextSummary :=
  foldl (λ sum summary, self ← sum; TextSummary.add_assign self (summary_text summary)) (Some TextSummary.zero) summaries.

Fixpoint sums_checked (tree : ChunkTree) : bool :=
  match tree with
  | Internal _ summary child_summaries child_trees =>
      bool_decide (checked_sum child_summaries = Some (summary_text summary)) && forallb sums_checked child_trees
  | Leaf summary _ item_summaries => bool_decide (checked_sum item_summaries = Some (summary_text summary))
  end.

(** The rope holds the text, and no sum in its tree overflows. *)
Definition built r s : Prop := holds r s ∧ sums_checked (chunks r) = true.

Lemma checked_sum_texts texts : text_fits (concat texts) → checked_sum (map rope_summary texts) = Some (summary_of (concat texts)).
Proof.
  induction texts as [|t texts IH] using rev_ind; [done|]. rewrite concat_app. cbn [concat]. rewrite app_nil_r. intros Hfits.
  unfold checked_sum. rewrite map_app, foldl_app. fold (checked_sum (map rope_summary texts)). rewrite IH.
  - cbn [map foldl mbind option_bind]. by apply add_assign_spec.
  - unfold text_fits in *. rewrite Str_len_app in Hfits. lia.
Qed.

Lemma leaf_summaries texts : Forall chunk_text_ok texts → map item_summary (map chunk_of texts) = map rope_summary texts.
Proof. induction 1 as [|t texts (_ & _ & Ht) _ IH]; [done|]. cbn [map]. by rewrite IH, chunk_of_summary. Qed.

(** The chunks of a node are shared out among its children. *)
Lemma concat_map_split {A B C} (f : A → list C) (g : B → C) (l : list A) (k : list B) : concat (map f l) = map g k →
  ∃ ks, k = concat ks ∧ Forall2 (λ a k, f a = map g k) l ks.
Proof.
  revert k. induction l as [|a l IH]; intros k; simpl.
  - intros Hk. symmetry in Hk. apply map_eq_nil in Hk as ->. by exists [].
  - intros Hk. symmetry in Hk. apply map_eq_app in Hk as (k1 & k2 & -> & H1 & H2).
    destruct (IH k2) as (ks & -> & Hks); [done|]. exists (k1 :: ks). by split; [|constructor].
Qed.

Lemma sum_texts texts : sum (map rope_summary texts) = rope_summary (concat texts).
Proof.
  induction texts as [|t texts IH] using rev_ind; [exact rope_summary_nil|]. unfold sum in *.
  rewrite map_app, foldl_app, IH, concat_app. cbn [map foldl concat]. by rewrite app_nil_r, rope_summary_app.
Qed.

Lemma concat_concat {A} (ls : list (list (list A))) : concat (concat ls) = concat (map (@concat A) ls).
Proof. induction ls as [|l ls IH]; [done|]. simpl. by rewrite concat_app, IH. Qed.

Lemma wf_sums_checked h tree texts : wf h tree → to_list tree = map chunk_of texts → Forall chunk_text_ok texts →
  text_fits (concat texts) → sums_checked tree = true.
Proof.
  revert tree texts. induction h as [|h IH]; intros [height summary sums cts|summary items sums] texts; simpl; try done.
  { intros (-> & -> & _) -> Htexts Hfits. apply bool_decide_eq_true. rewrite leaf_summaries by done.
    rewrite checked_sum_texts by done. f_equal. change (summary_of (concat texts)) with (summary_text (rope_summary (concat texts))).
    rewrite <-items_sum_texts, <-leaf_summaries by done. done. }
  intros (_ & -> & -> & _ & Hwf) Hl Htexts Hfits. destruct (concat_map_split _ _ _ _ Hl) as (textss & -> & Hsplit). clear Hl.
  assert (map Node.summary cts = map rope_summary (map (@concat char) textss)) as Hsums.
  { clear Hfits IH. revert Hwf Htexts. induction Hsplit as [|c texts cts textss Hc _ IHl]; intros Hwf Htexts; [done|].
    apply Forall_cons in Hwf as [Hwfc Hwf]. simpl in Htexts. apply Forall_app in Htexts as [Hok Htexts]. cbn [map]. rewrite IHl by done.
    f_equal. apply tree_holds_summary. split; [right; by exists h|done]. }
  apply andb_true_iff. split.
  - apply bool_decide_eq_true. rewrite Hsums, checked_sum_texts.
    + by rewrite sum_texts.
    + by rewrite concat_concat in Hfits.
  - apply forallb_forall. intros c Hc. apply list_elem_of_In, list_elem_of_lookup in Hc as [i Hi].
    destruct (Forall2_lookup_l _ _ _ _ _ Hsplit Hi) as (texts & Htexts_i & Heq).
    pose proof (list_elem_of_lookup_2 _ _ _ Htexts_i) as Hin. apply list_elem_of_split in Hin as (l1 & l2 & ->).
    rewrite !concat_app in *. cbn [concat] in *. apply Forall_app in Htexts as [_ [Hok _]%Forall_app].
    apply (IH c texts); [|done|done|].
    + rewrite Forall_forall in Hwf. apply Hwf. by eapply list_elem_of_lookup_2.
    + unfold text_fits in *. rewrite !concat_app, !Str_len_app in Hfits. lia.
Qed.

Lemma holds_sums_checked r s : holds r s → text_fits s → sums_checked (chunks r) = true.
Proof.
  intros (texts & ([Hnew|[h Hwf]] & Hl & Hok) & ->) Hfits; [by rewrite Hnew|by eapply wf_sums_checked].
Qed.

Lemma holds_built r s : holds r s → text_fits s → built r s.
Proof. intros Hr Hs. split; [done|by eapply holds_sums_checked]. Qed.

(** ** Pushing *)

Lemma len_utf8_le c : len_utf8 c <= 4.
Proof. unfold len_utf8, encode_utf8. repeat case_match; simpl; lia. Qed.

Lemma ceil_close s o : Str.ceil_char_boundary s o <= o + 3.
Proof.
  revert o. induction s as [|c s IH]; intros [|o]; simpl; [lia..|]. pose proof (len_utf8_le c).
  destruct (decide (S o <= len_utf8 c)) as [Hle|Hgt].
  - replace (S o - len_utf8 c) with 0 by lia. destruct s; simpl; lia.
  - specialize (IH (S o - len_utf8 c)). lia.
Qed.

Lemma floor_close s o : o <= Str.len s → o <= Str.floor_char_boundary s o + 3.
Proof.
  revert o. induction s as [|c s IH]; intros o Ho; simpl; [unfold Str.len in Ho; simpl in Ho; lia|].
  rewrite Str_len_cons in Ho. pose proof (len_utf8_le c). destruct (Nat.leb_spec (len_utf8 c) o) as [Hle|Hgt]; [|lia].
  specialize (IH (o - len_utf8 c) ltac:(lia)). lia.
Qed.

(** Where a text is cut that fills up a chunk of [n] bytes: the whole fits, or
    the chunk gets a bit more than half full. *)
Lemma fill_split s n : n <= 128 → 
  ∃ a b, s = a ++ b ∧ n + Str.len a <= 128 ∧
    (if n + Str.len s <=? 128 then Str.len s else Str.ceil_char_boundary s (Nat.min (64 - n) (Str.len s))) = Str.len a.
Proof.
  intros Hn. destruct (Nat.leb_spec (n + Str.len s) 128) as [Hle|Hgt]; [exists s, []; by rewrite app_nil_r|].
  pose proof (ceil_close s (Nat.min (64 - n) (Str.len s))) as Hclose.
  destruct (ceil_spec s (Nat.min (64 - n) (Str.len s))) as (a & b & -> & Ha & Hcase & Hmin). rewrite Ha in *.
  exists a, b. split; [done|]. split; [|done].
  destruct (decide (n <= 64)); [lia|]. specialize (Hmin [] (a ++ b) eq_refl). change (Str.len []) with 0 in Hmin. lia.
Qed.

Lemma chunk_text_ok_app t a : chunk_text_ok t → str_ok a → Str.len t + Str.len a <= 128 → chunk_text_ok (t ++ a).
Proof.
  intros (Hok & Hne & _) Ha Hlen. split; [by apply Forall_app|]. rewrite Str_len_app. split; [|done]. by destruct t.
Qed.

Lemma fill_last_str_spec s t : str_ok s → chunk_text_ok t →
  ∃ a b, s = a ++ b ∧ Rope.fill_last_str s (chunk_of t) = Some (chunk_of (t ++ a), b) ∧ chunk_text_ok (t ++ a).
Proof.
  intros Hs Ht. pose proof Ht as (Htok & _ & Htlen). unfold Rope.fill_last_str. cbn [chunk_of chunk_text].
  change MAX_BASE with 128. change MIN_BASE with 64.
  destruct (fill_split s (Str.len t) Htlen) as (a & b & Hab & Hlen & Hix). exists a, b. split; [done|].
  pose proof Hs as Hs'. rewrite Hab in Hs'. apply Forall_app in Hs' as [Ha _].
  assert ((if Str.len t + Str.len s <=? 128 then Some (Str.len s)
    else ChunkSlice.advance (Str.len s) s (Nat.min (64 - Str.len t) (Str.len s))) = Some (Str.len a)) as ->.
  { rewrite <-Hix. destruct (_ <=? 128); [done|]. by rewrite advance_spec by (done || lia). }
  cbn [mbind option_bind]. rewrite Hab, Str_split_at_app. cbn [mbind option_bind].
  unfold Chunk.push_str. rewrite chunk_new_spec by done. destruct (Nat.leb_spec (Str.len a) 128); [|lia].
  cbn [mbind option_bind]. rewrite as_slice_chunk_of. fold (chunk_of t). rewrite chunk_append_spec by done.
  rewrite Str_len_app. destruct (Nat.leb_spec (Str.len t + Str.len a) 128); [|lia].
  split; [done|]. by apply chunk_text_ok_app.
Qed.

Lemma advance_chunk_spec s o fuel : str_ok s → Str.len s <= 128 → o <= Str.len s → Str.len s - o <= fuel →
  Rope.advance_chunk fuel (slice_of s) o = Some (Str.ceil_char_boundary s o).
Proof.
  intros Hs Hlen Ho Hfuel. rewrite <-(advance_spec s o fuel) by done. revert o Ho Hfuel.
  induction fuel as [|fuel IH]; intros o Ho Hfuel; cbn [Rope.advance_chunk ChunkSlice.advance].
  all: rewrite is_char_boundary_spec by (done || unfold u32_max; lia); destruct (Str.is_char_boundary s o) eqn:Hb; try done.
  apply IH; [|lia]. destruct (decide (o = Str.len s)) as [->|]; [|lia]. by rewrite Str_is_char_boundary_len in Hb.
Qed.

Lemma fill_last_chunk_spec s t : str_ok s → Str.len s <= 128 → chunk_text_ok t →
  ∃ a b, s = a ++ b ∧ Rope.fill_last_chunk (slice_of s) (chunk_of t) = Some (chunk_of (t ++ a), slice_of b) ∧
    chunk_text_ok (t ++ a).
Proof.
  intros Hs Hslen Ht. pose proof Ht as (Htok & _ & Htlen). unfold Rope.fill_last_chunk.
  change (ChunkSlice.len (slice_of s)) with (Str.len s). change (chunk_text (chunk_of t)) with t.
  change MAX_BASE with 128. change MIN_BASE with 64.
  destruct (fill_split s (Str.len t) Htlen) as (a & b & Hab & Hlen & Hix). exists a, b. split; [done|].
  pose proof Hs as Hs'. rewrite Hab in Hs'. apply Forall_app in Hs' as [Ha _].
  assert ((if Str.len t + Str.len s <=? 128 then Some (Str.len s)
    else Rope.advance_chunk (Str.len s) (slice_of s) (Nat.min (64 - Str.len t) (Str.len s))) = Some (Str.len a)) as ->.
  { rewrite <-Hix. destruct (_ <=? 128); [done|]. by rewrite advance_chunk_spec by (done || lia). }
  cbn [mbind option_bind]. rewrite chunk_split_at_spec by done.
  assert ((if Str.len a =? 128 then Some (slice_of s, slice_of [])
    else '(a, b) ← Str.split_at s (Str.len a); Some (slice_of a, slice_of b)) = Some (slice_of a, slice_of b)) as ->.
  { rewrite Hab, Str_split_at_app. cbn [mbind option_bind]. destruct (Nat.eqb_spec (Str.len a) 128) as [H128|]; [|done].
    rewrite Hab, Str_len_app in Hslen. assert (b = []) as -> by (apply Str_len_zero; lia). by rewrite app_nil_r. }
  cbn [mbind option_bind]. rewrite chunk_append_spec by done. rewrite Str_len_app.
  destruct (Nat.leb_spec (Str.len t + Str.len a) 128); [|lia]. split; [done|]. by apply chunk_text_ok_app.
Qed.

Lemma into_slice_of t : Str.len t <= 128 → ChunkSlice.into (slice_of t) = Some (chunk_of t).
Proof. intros Hlen. unfold ChunkSlice.into. rewrite rassert_true by (by apply Nat.leb_le). done. Qed.

Lemma is_empty_slice_of t : ChunkSlice.is_empty (slice_of t) = match t with [] => true | _ => false end.
Proof. done. Qed.

(** A chunk can be added to the represented texts. *)
Definition chunk_pushed r s t (res : option Rope) : Prop :=
  ∃ r', res = Some r' ∧ holds r' (s ++ t) ∧ Node.height (chunks r') <= S (Node.height (chunks r)).

Lemma push_chunk_spec r s t : holds r s → str_ok t → Str.len t <= 128 →
  chunk_pushed r s t (Rope.push_chunk r (slice_of t)).
Proof.
  intros (texts & Hh & ->) Ht Hlen. unfold Rope.push_chunk.
  destruct texts as [|u texts _] using rev_ind.
  - destruct (update_last_with_empty (Rope.fill_last_chunk (slice_of t)) _ Hh) as (tree & -> & Htree & Hheight).
    cbn [mbind option_bind default from_option id]. rewrite is_empty_slice_of. destruct t as [|c t]; cbn [negb].
    + eexists. split; [done|]. split; [by exists []|]. simpl. lia.
    + rewrite into_slice_of by done. cbn [mbind option_bind].
      destruct (tree_holds_push tree [] (c :: t) Htree) as (tree' & -> & Htree' & Hheight'); [by split_and!|].
      cbn [mbind option_bind]. eexists. split; [done|]. split; [exists [c :: t]; split; [done|by simpl; rewrite app_nil_r]|]. simpl. lia.
  - assert (chunk_text_ok u) as Hu by (destruct Hh as (_ & _ & Hok); by apply Forall_snoc_inv in Hok as [_ ?]).
    destruct (fill_last_chunk_spec t u Ht Hlen Hu) as (a & b & -> & Hfill & Hua).
    destruct (update_last_with_spec (Rope.fill_last_chunk (slice_of (a ++ b))) _ _ _ _ _ Hh Hfill Hua)
      as (tree & -> & Htree & Hheight).
    cbn [mbind option_bind default from_option id]. apply Forall_app in Ht as [_ Hb]. rewrite Str_len_app in Hlen.
    rewrite is_empty_slice_of. destruct b as [|c b]; cbn [negb].
    + eexists. split; [done|]. split; [|simpl; lia]. exists (texts ++ [u ++ a]). split; [done|].
      rewrite !concat_app. simpl. by rewrite !app_nil_r, <-app_assoc.
    + rewrite into_slice_of by lia. cbn [mbind option_bind].
      destruct (tree_holds_push tree _ (c :: b) Htree) as (tree' & -> & Htree' & Hheight'); [split_and!; done || lia|].
      cbn [mbind option_bind]. eexists. split; [done|]. split; [|simpl; lia]. exists ((texts ++ [u ++ a]) ++ [c :: b]).
      split; [done|]. rewrite !concat_app. simpl. by rewrite !app_nil_r, <-!app_assoc.
Qed.

(** *** Cutting a text into chunks *)

Lemma retreat_cut s : str_ok s → s ≠ [] →
  ∃ a b, s = a ++ b ∧ ChunkSlice.retreat s (Nat.min 128 (Str.len s)) = Some (Str.len a) ∧
    chunk_text_ok a ∧ (b = [] ∨ 125 <= Str.len a).
Proof.
  intros Hs Hne. rewrite retreat_spec by done. pose proof (floor_close s (Nat.min 128 (Str.len s)) ltac:(lia)) as Hclose.
  destruct (floor_spec s (Nat.min 128 (Str.len s))) as (a & b & Hab & Hf & Hle & Hmax). rewrite Hf in *.
  exists a, b. split; [done|]. split; [done|]. assert (0 < Str.len s) as Hpos.
  { destruct s as [|c s']; [done|]. rewrite Str_len_cons. pose proof (len_utf8_pos c). lia. }
  assert (Str.len s <= 4 → Str.len a = Str.len s) as Hsmall.
  { intros Hsm. specialize (Hmax s [] (eq_sym (app_nil_r s)) ltac:(lia)). lia. }
  split.
  - split; [rewrite Hab in Hs; by apply Forall_app in Hs as [? _]|]. split; [|lia].
    intros ->. change (Str.len []) with 0 in *. lia.
  - destruct (decide (128 <= Str.len s)); [right; lia|left]. specialize (Hmax s [] (eq_sym (app_nil_r s)) ltac:(lia)).
    rewrite Hab, Str_len_app in *. apply Str_len_zero. lia.
Qed.

Lemma split_chunks_spec push limit fuel s acc : 
  (∀ acc c, length acc < limit → push acc c = Some (acc ++ [c])) →
  str_ok s → length s <= fuel → Str.len s <= 125 * (limit - length acc) →
  ∃ texts, Rope.split_chunks push fuel s acc = Some (acc ++ texts) ∧ Forall chunk_text_ok texts ∧ concat texts = s ∧
    125 * length texts < Str.len s + 125.
Proof.
  intros Hpush. revert s acc. induction fuel as [|fuel IH]; intros s acc Hs Hfuel Hlen.
  { destruct s; [|simpl in Hfuel; lia]. exists []. rewrite app_nil_r. split_and!; [done|constructor|done|simpl; lia]. }
  destruct s as [|c s]; [exists []; rewrite app_nil_r; split_and!; [done|constructor|done|simpl; lia]|].
  cbn [Rope.split_chunks]. change MAX_BASE with 128.
  destruct (retreat_cut (c :: s) Hs ltac:(done)) as (a & b & Hab & -> & Ha & Hb).
  cbn [mbind option_bind]. rewrite Hab, Str_split_at_app. cbn [mbind option_bind]. rewrite Hab in Hs, Hfuel, Hlen.
  assert (0 < Str.len a) as Hpos.
  { destruct a as [|d a]; [by destruct Ha as (_ & ? & _)|]. rewrite Str_len_cons. pose proof (len_utf8_pos d). lia. }
  rewrite Str_len_app in *. rewrite Hpush by lia. cbn [mbind option_bind]. apply Forall_app in Hs as [_ Hsb].
  rewrite length_app in Hfuel.
  assert (0 < length a) by (destruct a; [by destruct Ha as (_ & ? & _)|simpl; lia]).
  destruct (IH b (acc ++ [a]) Hsb) as (texts & -> & Htexts & Hcat & Hnum); [lia| |].
  { rewrite length_app. simpl. destruct Hb as [->|]; [change (Str.len []) with 0; lia|lia]. }
  exists (a :: texts). rewrite <-app_assoc. split; [done|]. split; [by constructor|]. simpl. split; [by rewrite Hcat|].
  destruct Hb as [->|]; [|lia]. change (Str.len []) with 0 in *. destruct texts; simpl in *; lia.
Qed.

Lemma mapM_new texts : Forall chunk_text_ok texts → mapM Chunk.new texts = Some (map chunk_of texts).
Proof.
  induction 1 as [|t texts (Hok & _ & Hlen) _ IH]; [done|]. cbn [mapM]. rewrite chunk_new_spec by done.
  destruct (Nat.leb_spec (Str.len t) 128); [|lia]. cbn [mbind option_bind]. by rewrite IH.
Qed.

Lemma tree_holds_extend tree texts new k : tree_holds tree texts → Forall chunk_text_ok new →
  (N.of_nat (length new) <= 12 ^ (k + 1))%N →
  ∃ tree', SumTree.extend tree (map chunk_of new) = Some tree' ∧ SumTree.par_extend tree (map chunk_of new) = Some tree' ∧
    tree_holds tree' (texts ++ new) ∧ Node.height tree' <= S (Node.height tree `max` N.to_nat k).
Proof.
  intros Htree Hnew Hk. unfold SumTree.extend, SumTree.par_extend. rewrite from_par_iter_eq.
  destruct (from_iter_spec (S:=RopeSummary) k (map chunk_of new)) as (other & -> & Hok & Hl & Hh); [by rewrite length_map|].
  cbn [mbind option_bind].
  destruct (tree_holds_append tree other texts new Htree) as (tree' & -> & Htree' & Hheight); [done|].
  exists tree'. split_and!; [done..|lia].
Qed.

(** A number of levels for a text. *)
Definition levels_for (s : str) (k : N) : Prop := (N.of_nat (Str.len s) < 125 * 12 ^ (k + 1))%N.

Lemma levels_for_exists s : ∃ k, levels_for s k.
Proof.
  exists (N.of_nat (Str.len s)). unfold levels_for. pose proof (N.pow_gt_lin_r 12 (N.of_nat (Str.len s) + 1) ltac:(lia)). lia.
Qed.

(** A text shorter than 4 GiB needs at most eight levels. *)
Lemma levels_for_u32 s : (N.of_nat (Str.len s) <= u32_max)%N → levels_for s 6.
Proof. intros Hs. unfold levels_for. eapply N.le_lt_trans; [exact Hs|]. by vm_compute. Qed.

Lemma levels_for_le a b k : Str.len a <= Str.len b → levels_for b k → levels_for a k.
Proof. unfold levels_for. lia. Qed.

Definition pushed r s t k (res : option Rope) : Prop :=
  ∃ r', res = Some r' ∧ holds r' (s ++ t) ∧ Node.height (chunks r') <= S (Node.height (chunks r) `max` N.to_nat k).

Lemma push_large_spec r s t k : holds r s → str_ok t → levels_for t k → pushed r s t k (Rope.push_large r t).
Proof.
  intros (texts & Htree & ->) Ht Hk. unfold Rope.push_large.
  destruct (split_chunks_spec (λ new_chunks chunk, Some (new_chunks ++ [chunk])) (Str.len t) (length t) t [])
    as (new & -> & Hnew & Hcat & Hnum); [done|done|lia|simpl; lia|].
  cbn [mbind option_bind app]. rewrite mapM_new by done. cbn [mbind option_bind].
  destruct (tree_holds_extend (chunks r) texts new k Htree Hnew) as (tree' & -> & -> & Htree' & Hh); [unfold levels_for in Hk; lia|].
  rewrite if_same. cbn [mbind option_bind]. eexists. split; [done|]. split; [|exact Hh].
  exists (texts ++ new). split; [done|]. by rewrite concat_app, Hcat.
Qed.

(** The end of [push], on what is left after the last chunk is filled up. *)
Lemma push_rest_spec tree texts t k : tree_holds tree texts → str_ok t → levels_for t k →
  pushed (mkRope tree) (concat texts) t k
    (match t with
     | [] => Some (mkRope tree)
     | _ :: _ =>
         if NUM_CHUNKS * MAX_BASE - NUM_CHUNKS * 4 <? Str.len t then Rope.push_large (mkRope tree) t
         else
           new_chunks ← Rope.split_chunks Rope.array_vec_push (length t) t [];
           new_chunks ← mapM Chunk.new new_chunks;
           tree ← SumTree.extend tree new_chunks; Some (mkRope tree)
     end).
Proof.
  intros Htree Ht Hk. destruct t as [|c t]; [eexists; split; [done|]; split; [exists texts; by rewrite app_nil_r|simpl; lia]|].
  change (NUM_CHUNKS * MAX_BASE - NUM_CHUNKS * 4) with 496. destruct (Nat.ltb_spec 496 (Str.len (c :: t))) as [Hlt|Hge].
  - apply push_large_spec; [by exists texts|done..].
  - destruct (split_chunks_spec Rope.array_vec_push 4 (length (c :: t)) (c :: t) []) as (new & -> & Hnew & Hcat & Hnum);
      [|done|done|simpl length; lia|].
    { intros acc d Hacc. unfold Rope.array_vec_push. rewrite rassert_true by (by apply Nat.ltb_lt). done. }
    cbn [mbind option_bind app]. rewrite mapM_new by done. cbn [mbind option_bind].
    destruct (tree_holds_extend tree texts new k Htree Hnew) as (tree' & -> & _ & Htree' & Hh); [unfold levels_for in Hk; lia|].
    cbn [mbind option_bind]. eexists. split; [done|]. split; [|exact Hh].
    exists (texts ++ new). split; [done|]. by rewrite concat_app, Hcat.
Qed.

Lemma rope_push_spec r s t k : holds r s → str_ok t → levels_for t k → pushed r s t k (Rope.push r t).
Proof.
  intros (texts & Htree & ->) Ht Hk. unfold Rope.push. destruct texts as [|u texts _] using rev_ind.
  - destruct (update_last_with_empty (Rope.fill_last_str t) _ Htree) as (tree & -> & Htree' & Hheight).
    cbn [mbind option_bind default from_option id].
    destruct (push_rest_spec tree [] t k Htree' Ht Hk) as (r' & Hr' & Hh & Hle). exists r'.
    split; [exact Hr'|]. split; [exact Hh|]. simpl in Hle. lia.
  - assert (chunk_text_ok u) as Hu by (destruct Htree as (_ & _ & Hok); by apply Forall_snoc_inv in Hok as [_ ?]).
    destruct (fill_last_str_spec t u Ht Hu) as (a & b & Hab & Hfill & Hua).
    destruct (update_last_with_spec _ _ _ _ _ _ Htree Hfill Hua) as (tree & -> & Htree' & Hheight).
    cbn [mbind option_bind default from_option id]. rewrite Hab in Ht, Hk. apply Forall_app in Ht as [_ Hb].
    apply (levels_for_le b) in Hk; [|rewrite Str_len_app; lia].
    destruct (push_rest_spec tree _ b k Htree' Hb Hk) as (r' & Hr' & Hh & Hle). exists r'.
    split; [exact Hr'|]. simpl in Hle. split; [|lia]. rewrite Hab. rewrite !concat_app in *. simpl in *.
    by rewrite !app_nil_r, <-?app_assoc in *.
Qed.

(** ** Building *)

(** The number of chunks. *)
Definition num_chunks r : nat := length (to_list (chunks r)).

Lemma tree_holds_first tree texts : tree_holds tree texts → SumTree.first tree = Some (chunk_of <$> head texts).
Proof. intros (Hok & Hl & _). rewrite first_spec, Hl by done. by destruct texts. Qed.

Lemma tree_holds_last tree texts : tree_holds tree texts → SumTree.last tree = Some (chunk_of <$> last texts).
Proof. intros (Hok & Hl & _). rewrite last_spec, Hl by done. by rewrite <-fmap_last. Qed.

(** The chunks after the first, as [append] takes them. *)
Lemma rest_of_chunks tree t texts : tree_holds tree (t :: texts) → Node.height tree < STACK_CAPACITY →
  ∃ suffix, (cursor ← Cursor.next (Cursor.new tree : Cursor.t Chunk RopeSummary unit);
     cursor ← Cursor.next cursor; '(suffix, _) ← Cursor.suffix cursor; Some suffix) = Some suffix ∧
    tree_holds suffix texts ∧ Node.height suffix <= Node.height tree + 2.
Proof.
  intros (Hok & Hl & Htexts) Hheight. assert (searchable tree) as Ht by done.
  destruct (next_first tree Ht (D:=unit) (Cursor.new tree)) as (c & -> & Hc); [by left|]. cbn [mbind option_bind].
  rewrite Hl in Hc. destruct (next_spec tree Ht c [] _ _ Hc) as (c' & -> & Hc'). cbn [mbind option_bind].
  destruct (suffix_height_spec tree c' _ _ Ht (ready_split _ _ _ _ Hc')) as (suffix & c'' & -> & Hoks & Hls & _ & Hh).
  cbn [mbind option_bind]. exists suffix. split; [done|]. fold (map chunk_of texts) in Hls.
  split; [|done]. split; [done|]. split; [done|]. by apply Forall_cons in Htexts as [_ ?].
Qed.

Lemma rope_append_spec a b s t : holds a s → holds b t → walkable b →
  ∃ r, Rope.append a b = Some r ∧ holds r (s ++ t) ∧
    Node.height (chunks r) <= S (S (Node.height (chunks a)) `max` (Node.height (chunks b) + 2)).
Proof.
  intros (ta & Ha & ->) (tb & Hb & ->) Hwalk. unfold Rope.append.
  rewrite (tree_holds_first _ _ Hb), (tree_holds_last _ _ Ha). cbn [mbind option_bind].
  assert (∃ r, (tree ← SumTree.append (chunks a) (chunks b); Some (mkRope tree)) = Some r ∧
    holds r (concat ta ++ concat tb) ∧
    Node.height (chunks r) <= S (S (Node.height (chunks a)) `max` (Node.height (chunks b) + 2))) as Hplain.
  { destruct (tree_holds_append _ _ _ _ Ha Hb) as (tree & -> & Htree & Hh). cbn [mbind option_bind].
    eexists. split; [done|]. split; [|simpl; lia]. exists (ta ++ tb). by rewrite concat_app. }
  destruct tb as [|t tb]; [exact Hplain|]. cbn [head fmap option_fmap option_map].
  destruct (_ || _); [clear Hplain|exact Hplain].
  assert (chunk_text_ok t) as (Ht & _ & Hlen) by (destruct Hb as (_ & _ & Hok); by apply Forall_cons in Hok as [? _]).
  destruct (push_chunk_spec a (concat ta) t) as (a' & Hpush & (ta' & Ha' & Hcat) & Hh); [by exists ta|done..|].
  rewrite as_slice_chunk_of, Hpush. cbn [mbind option_bind].
  destruct (rest_of_chunks _ _ _ Hb Hwalk) as (suffix & Hrun & Hsuffix & Hhs).
  destruct (Cursor.next _) as [c|]; [|done]. cbn [mbind option_bind] in Hrun |- *.
  destruct (Cursor.next c) as [c'|]; [|done]. cbn [mbind option_bind] in Hrun |- *.
  destruct (Cursor.suffix c') as [[suffix' c'']|]; [|done]. cbn [mbind option_bind] in Hrun |- *. injection Hrun as ->.
  destruct (tree_holds_append _ _ _ _ Ha' Hsuffix) as (tree & -> & Htree & Hheight). cbn [mbind option_bind].
  eexists. split; [done|]. split; [|simpl; lia]. exists (ta' ++ tb). split; [done|].
  rewrite concat_app, <-Hcat. simpl. by rewrite app_assoc.
Qed.

(** A text built into a rope at once gives a tree a cursor can walk. *)
Lemma rope_from_str_spec s : str_ok s → (N.of_nat (Str.len s) <= u32_max)%N →
  ∃ r, Rope.from_str s = Some r ∧ holds r s ∧ Node.height (chunks r) <= 7.
Proof. intros Hs Hlen. exact (rope_push_spec Rope.new [] s 6 holds_new Hs (levels_for_u32 s Hlen)). Qed.

Lemma push_all_spec r s iter : holds r s → Forall str_ok iter →
  ∃ r', Rope.push_all r iter = Some r' ∧ holds r' (s ++ concat iter).
Proof.
  intros Hr Hiter. revert r s Hr. induction Hiter as [|t iter Ht Hiter IH]; intros r s Hr; simpl.
  { exists r. by rewrite app_nil_r. }
  destruct (levels_for_exists t) as [k Hk]. destruct (rope_push_spec r s t k Hr Ht Hk) as (r' & -> & Hr' & _).
  cbn [mbind option_bind]. destruct (IH r' (s ++ t) Hr') as (r'' & -> & Hr''). exists r''. by rewrite app_assoc.
Qed.

Lemma update_first_with_spec f tree t texts t' :
  tree_holds tree (t :: texts) → f (chunk_of t) = Some (chunk_of t') → chunk_text_ok t' →
  ∃ tree', update_first_with f tree = Some tree' ∧ tree_holds tree' (t' :: texts).
Proof.
  intros Htree Hf Ht'. pose proof Htree as (Hok & Hl & Htexts). unfold update_first_with.
  rewrite (tree_holds_first _ _ Htree). cbn [mbind option_bind head fmap option_fmap option_map]. rewrite Hf.
  cbn [mbind option_bind]. destruct (update_first_spec (λ _, chunk_of t') tree Hok) as (tree' & -> & Hok' & _ & Hl').
  rewrite Hl in Hl'. exists tree'. split; [done|]. split; [done|]. split; [done|].
  apply Forall_cons in Htexts as [_ ?]. by constructor.
Qed.

Lemma push_front_spec r s t : holds r s → walkable r → str_ok t →
  ∃ r', Rope.push_front r t = Some r' ∧ holds r' (t ++ s).
Proof.
  intros Hr Hwalk Ht. unfold Rope.push_front. destruct t as [|c t]; [by exists r|]. cbn [app].
  unfold Rope.is_empty. rewrite (holds_len r s Hr). destruct (levels_for_exists (c :: t)) as [k Hk].
  destruct (Nat.eqb_spec (Str.len s) 0) as [H0|H0].
  { apply Str_len_zero in H0 as ->. destruct (rope_push_spec r [] (c :: t) k Hr Ht Hk) as (r' & ? & ? & _).
    exists r'. by rewrite app_nil_r. }
  pose proof Hr as (texts & Htree & Hs). rewrite (tree_holds_first _ _ Htree). cbn [mbind option_bind].
  assert (∃ r', (rope ← Rope.from_str (c :: t); Rope.append rope r) = Some r' ∧ holds r' (c :: t ++ s)) as Hjoin.
  { destruct (rope_push_spec Rope.new [] (c :: t) k holds_new Ht Hk) as (r1 & Hr1 & Hh1 & _).
    unfold Rope.from_str. rewrite Hr1. cbn [mbind option_bind].
    destruct (rope_append_spec r1 r (c :: t) s Hh1 Hr Hwalk) as (r' & ? & ? & _). eauto. }
  destruct texts as [|u texts]; [exact Hjoin|]. cbn [head fmap option_fmap option_map chunk_of chunk_text].
  destruct (Nat.leb_spec (Str.len u + Str.len (c :: t)) MAX_BASE) as [Hle|_]; [clear Hjoin|exact Hjoin].
  change MAX_BASE with 128 in Hle.
  assert (chunk_text_ok u) as (Hu & _ & Hlen) by (destruct Htree as (_ & _ & Hok); by apply Forall_cons in Hok as [? _]).
  destruct (update_first_with_spec (λ first_chunk, Chunk.prepend_str first_chunk (c :: t)) (chunks r) u texts ((c :: t) ++ u))
    as (tree & -> & Htree').
  - done.
  - unfold Chunk.prepend_str. rewrite chunk_new_spec by done. destruct (Nat.leb_spec (Str.len (c :: t)) 128); [|lia].
    cbn [mbind option_bind]. rewrite as_slice_chunk_of, chunk_prepend_spec by (done || lia).
    rewrite Str_len_app. by destruct (Nat.leb_spec (Str.len (c :: t) + Str.len u) 128); [|lia].
  - split; [by apply Forall_app|]. split; [done|]. rewrite Str_len_app. lia.
  - cbn [mbind option_bind]. eexists. split; [done|]. eexists. split; [exact Htree'|]. rewrite Hs. cbn [concat app].
    by rewrite app_assoc.
Qed.

(** ** Properties *)

(** A text of two chunks with characters of several lengths. *)
Module RopeExample.
Definition text : str := [97; 233; 10]%N ++ replicate 100 98%N ++ [0x20AC; 10; 0x1F600]%N ++ replicate 60 99%N.
Definition rope : Rope := default Rope.new (Rope.from_str text).

Lemma text_ok : str_ok text.
Proof. unfold str_ok, char_ok. apply (bool_decide_unpack _). by vm_compute. Qed.

Lemma rope_holds : holds rope text.
Proof.
  destruct (rope_from_str_spec text text_ok) as (r & Hr & Hh & _); [by vm_compute|]. unfold rope. by rewrite Hr.
Qed.

Lemma rope_walkable : walkable rope.
Proof. unfold walkable. change STACK_CAPACITY with 16. vm_compute. lia. Qed.
End RopeExample.

(** C20. A rope holds its text: for texts below 4 GiB, [push], [push_front],
    [append] and collecting an iterator of texts never panic and give a rope of
    exactly the concatenated text, however the chunks are filled, split and
    joined, in whose tree every sum of summaries, with checks for overflow,
    succeeds and is the one stored there; and the length, emptiness and summary
    of a rope are those of its text. *)
Theorem rope_building r s t iter (Hr : holds r s) (Hwalk : walkable r) (Ht : str_ok t) (Hiter : Forall str_ok iter)
    (Hlen : text_fits (s ++ t)) (Hall : text_fits (concat iter)) :
  Rope.len r = Str.len s ∧ Rope.summary r = summary_of s ∧ (Rope.is_empty r = true ↔ s = []) ∧
  (∃ r', Rope.push r t = Some r' ∧ built r' (s ++ t)) ∧
  (∃ r', Rope.push_front r t = Some r' ∧ built r' (t ++ s)) ∧
  (∀ front u, holds front u → text_fits (u ++ s) → ∃ r', Rope.append front r = Some r' ∧ built r' (u ++ s)) ∧
  (∃ r', Rope.from_iter iter = Some r' ∧ built r' (concat iter)).
Proof.
  split; [by apply holds_len|]. split; [by apply holds_summary|]. split.
  { unfold Rope.is_empty. rewrite (holds_len r s Hr), Nat.eqb_eq. split; [apply Str_len_zero|by intros ->]. }
  split; [destruct (levels_for_exists t) as [k Hk]; destruct (rope_push_spec r s t k Hr Ht Hk) as (r' & ? & ? & _); eauto using holds_built|].
  split; [destruct (push_front_spec r s t Hr Hwalk Ht) as (r' & ? & ?); eauto using holds_built, text_fits_comm|].
  split; [|destruct (push_all_spec Rope.new [] iter holds_new Hiter) as (r' & ? & ?); eauto using holds_built].
  intros front u Hfront Hfits. destruct (rope_append_spec front r u s Hfront Hr Hwalk) as (r' & ? & ? & _). eauto using holds_built.
Qed.

Lemma rope_building_witness :
  let r := RopeExample.rope in let t := [10; 233]%N in
  Rope.len r = 172 ∧ num_chunks r = 2 ∧
  ∃ r', Rope.push_front r t = Some r' ∧ built r' (t ++ RopeExample.text).
Proof.
  destruct (rope_building RopeExample.rope RopeExample.text [10; 233]%N [] RopeExample.rope_holds RopeExample.rope_walkable)
    as (_ & _ & _ & _ & Hfront & _); [repeat constructor; unfold char_ok; lia|constructor|by vm_compute..|].
  split; [by vm_compute|]. split; [by vm_compute|]. exact Hfront.
Defined.

(** C36. Building a rope from a text of at most [u32::MAX] bytes succeeds with
    every sum of summaries in range, and its tree of chunks is at most seven
    levels high, so that a cursor's path of 16 entries reaches its leaves. *)
Theorem from_str_bounded s (Hs : str_ok s) (Hlen : text_fits s) :
  ∃ r, Rope.from_str s = Some r ∧ built r s ∧ Node.height (chunks r) <= 7 ∧ walkable r.
Proof.
  destruct (rope_from_str_spec s Hs Hlen) as (r & ? & Hr & Hh). exists r. split; [done|]. split; [by apply holds_built|].
  split; [done|]. unfold walkable. change STACK_CAPACITY with 16. lia.
Qed.

Lemma from_str_bounded_witness :
  let s := RopeExample.text in
  text_fits s ∧ ∃ r, Rope.from_str s = Some r ∧ built r s ∧ Node.height (chunks r) <= 7 ∧ walkable r.
Proof.
  intros s. assert (text_fits s) as Hlen by by vm_compute. split; [exact Hlen|].
  exact (from_str_bounded s RopeExample.text_ok Hlen).
Defined.
