(* ===== verification/RopeSeek.v ===== *)
(** * Seeking in a rope

    A position of a text is given by a dimension.  Seeking a position in the
    chunks of a rope stops at the chunk that holds it, so that the text is split
    into the chunks passed and those that follow. *)

From S2P Require Import Prelude SumTree SumTreeFacts Seek Cursor CursorFacts CursorWalk Utf8 Points Lines BitSelect Chunk ChunkBits ChunkFacts ChunkPositions TextSummary RopeTree Rope RopeFacts.

Implicit Types (s t : str) (texts ps qs : list str).

(** ** Positions as numbers *)

(** Positions are compared as numbers, and a longer text ends later. *)
Class PositionKey (D : Type) `{Ord D, TextDimension D} (key : D → N) : Prop := {
  key_cmp x y : cmp x y = N.compare (key x) (key y);
  key_grows a b : b ≠ [] → (N.of_nat (Str.len (a ++ b)) <= u32_max)%N → (key (measure a) < key (measure (a ++ b)))%N;
}.

#[export] Instance usize_key : PositionKey nat N.of_nat.
Proof.
  split.
  - intros x y. unfold cmp, nat_ord. by rewrite Nat2N.inj_compare.
  - intros a [|c b] Hb _; [done|]. unfold measure. simpl. rewrite Str_len_app, Str_len_cons.
    pose proof (len_utf8_pos c). lia.
Qed.

Definition pack (row column : N) : N := N.lor (N.shiftl row 32) column.

Lemma pack_lt (r c r' c' : N) : (c <= u32_max)%N → (c' <= u32_max)%N → (r < r' ∨ r = r' ∧ c < c')%N → (pack r c < pack r' c')%N.
Proof.
  intros Hc Hc' Hlt. unfold N.lt, pack. rewrite pack_compare by done.
  destruct Hlt as [Hlt|[-> Hlt]]; [by apply N.compare_lt_iff in Hlt as ->|]. rewrite N.compare_refl.
  done.
Qed.

(** A text that does not end its last line, or adds to it. *)
Lemma extent_grows (a b : str) : b ≠ [] →
  Lines.newlines a < Lines.newlines (a ++ b) ∨
  Lines.newlines a = Lines.newlines (a ++ b) ∧ Str.len (last_line a) < Str.len (last_line (a ++ b)) ∧
  Str.len_utf16 (last_line a) < Str.len_utf16 (last_line (a ++ b)).
Proof.
  intros Hb. rewrite newlines_app, last_line_app. destruct (Nat.eqb_spec (Lines.newlines b) 0) as [H0|]; [right|left; lia].
  rewrite (last_line_none b), Str_len_app, Str_len_utf16_app by done. split; [lia|].
  destruct b as [|c b]; [done|]. rewrite Str_len_cons, Str_len_utf16_cons. pose proof (len_utf8_pos c).
  assert (0 < Utf8.len_utf16 c) by (unfold Utf8.len_utf16; destruct (_ <? _)%N; lia). lia.
Qed.

#[export] Instance Point_key : PositionKey Point (λ p, pack (Point.row p) (Point.column p)).
Proof.
  split; [done|]. intros a b Hb Hlen. unfold measure. simpl. rewrite Str_len_app in Hlen.
  pose proof (last_line_le a). pose proof (last_line_le (a ++ b)) as [_ Hle]. rewrite Str_len_app in Hle.
  apply pack_lt; [lia..|]. destruct (extent_grows a b Hb) as [|(? & ? & _)]; lia.
Qed.

#[export] Instance PointUtf16_key : PositionKey PointUtf16 (λ p, pack (PointUtf16.row p) (PointUtf16.column p)).
Proof.
  split; [done|]. intros a b Hb Hlen. unfold measure. simpl. rewrite Str_len_app in Hlen.
  pose proof (line_bounds a). pose proof (line_bounds (a ++ b)) as Hle. rewrite Str_len_app in Hle.
  apply pack_lt; [lia..|]. destruct (extent_grows a b Hb) as [|(? & _ & ?)]; lia.
Qed.

#[export] Instance OffsetUtf16_key : PositionKey OffsetUtf16 (λ o, N.of_nat (OffsetUtf16.offset o)).
Proof.
  split.
  - intros x y. unfold cmp, OffsetUtf16.t_ord. by rewrite Nat2N.inj_compare.
  - intros a [|c b] Hb _; [done|]. unfold measure. simpl. rewrite Str_len_utf16_app, Str_len_utf16_cons.
    assert (0 < Utf8.len_utf16 c) by (unfold Utf8.len_utf16; destruct (_ <? _)%N; lia). lia.
Qed.

(** ** Splits of the chunk texts *)

Section texts.
Context {D} `{TextDimensionLaws D}.

Lemma pos_after_texts (s : str) texts : Forall chunk_text_ok texts →
  pos_after (S:=RopeSummary) (measure s : D) (map chunk_of texts) = measure (s ++ concat texts).
Proof.
  intros Htexts. revert s. induction Htexts as [|t texts (_ & _ & Hlen) _ IH]; intros s; simpl; [by rewrite app_nil_r|].
  unfold pos_after. simpl. rewrite chunk_of_summary by done. rewrite (td_add s t (rope_summary t)) by done.
  fold (pos_after (T:=Chunk) (S:=RopeSummary) (measure (s ++ t) : D) (map chunk_of texts)). by rewrite IH, app_assoc.
Qed.

Lemma pos_after_zero texts : Forall chunk_text_ok texts →
  pos_after (S:=RopeSummary) (dim_zero : D) (map chunk_of texts) = measure (concat texts).
Proof. intros Htexts. rewrite td_zero. by rewrite (pos_after_texts []) by done. Qed.
End texts.

(** The last item a scan passes ends before the target. *)
Lemma lin_seek_passed {T S D} `{Summary S, Item T S, Dimension D S} (target : SeekTarget D) bias d (l b : list T) p r :
  lin_seek target bias d l = (b, p, r) → b ≠ [] → stops target bias p = false.
Proof.
  revert d b. induction l as [|x l IH]; intros d b; simpl; [intros; by simplify_eq|].
  destruct (stops _ _ (dim_add d _)) eqn:Hs; [intros; by simplify_eq|].
  destruct (lin_seek _ _ _ l) as [[b' p'] r'] eqn:Hl. intros Heq _. simplify_eq.
  destruct b' as [|y b']; [|by eapply IH]. apply lin_seek_split in Hl as (_ & -> & _). exact Hs.
Qed.

(** The outcome of a seek from the chunks [base] on: it passes [ps] and stops in
    front of [qs]. *)
Definition seek_stops {D} `{TextDimension D} (target : SeekTarget D) (bias : Bias) (base : str) ps qs : Prop :=
  (ps ≠ [] → stops target bias (measure (base ++ concat ps)) = false) ∧
  (match qs with q :: _ => stops target bias (measure (base ++ concat ps ++ q)) = true | [] => True end).

Lemma texts_seek {D} `{TextDimensionLaws D} (target : SeekTarget D) bias base texts b p r : Forall chunk_text_ok texts →
  lin_seek (S:=RopeSummary) target bias (measure base) (map chunk_of texts) = (b, p, r) →
  ∃ ps qs, texts = ps ++ qs ∧ b = map chunk_of ps ∧ r = map chunk_of qs ∧ p = measure (base ++ concat ps) ∧
    seek_stops target bias base ps qs.
Proof.
  intros Htexts Hlin. pose proof (lin_seek_passed _ _ _ _ _ _ _ Hlin) as Hpassed.
  apply lin_seek_split in Hlin as (Hsplit & Hp & Hstop).
  apply map_eq_app in Hsplit as (ps & qs & -> & <- & <-). apply Forall_app in Htexts as [Hps Hqs].
  rewrite pos_after_texts in Hp by done. exists ps, qs. split_and!; [done..|]. split.
  - intros Hne. rewrite <-Hp. apply Hpassed. by destruct ps.
  - destruct qs as [|q qs]; [done|]. simpl in Hstop. apply Forall_cons in Hqs as [(_ & _ & Hlen) _].
    rewrite chunk_of_summary, Hp in Hstop by done. by rewrite (td_add _ q (rope_summary q)), <-app_assoc in Hstop.
Qed.

Lemma compare_rank (k x y : N) : (x <= y)%N → rank (k ?= y)%N <= rank (k ?= x)%N.
Proof. intros Hxy. destruct (N.compare_spec k x), (N.compare_spec k y); simpl; lia. Qed.

Section keys.
Context {D} `{TextDimensionLaws D, !Ord D} (key : D → N) {Hkey : PositionKey D key}.

Lemma key_le (a b : str) : (N.of_nat (Str.len (a ++ b)) <= u32_max)%N → (key (measure a) <= key (measure (a ++ b)))%N.
Proof. intros Hlen. destruct (decide (b = [])) as [->|Hb]; [by rewrite app_nil_r|]. apply N.lt_le_incl. by apply key_grows. Qed.

(** A target that looks at the position [k]. *)
Context {D'} `{Dimension D' RopeSummary, !DimensionLaws D' RopeSummary, !TextDimension D', !TextDimensionLaws D'}.
Context (k : D) (target : SeekTarget D') (Htarget : ∀ s, target (measure s) = cmp k (measure s)).

Lemma texts_monotone base texts : Forall chunk_text_ok texts → (N.of_nat (Str.len (base ++ concat texts)) <= u32_max)%N →
  monotone (S:=RopeSummary) target (measure base) (map chunk_of texts).
Proof.
  intros Htexts Hlen l1 l2 l3 Hsplit. apply map_eq_app in Hsplit as (t1 & t' & -> & <- & Ht').
  apply map_eq_app in Ht' as (t2 & t3 & -> & <- & <-). apply Forall_app in Htexts as [Ht1 [Ht2 Ht3]%Forall_app].
  rewrite <-map_app, !pos_after_texts by (done || by apply Forall_app).
  rewrite !Htarget, !key_cmp. apply compare_rank. rewrite concat_app, app_assoc. apply key_le.
  rewrite !concat_app, !Str_len_app in *. lia.
Qed.

Lemma target_stops bias s : stops target bias (measure s) = match bias with
  | Left => (key k <=? key (measure s))%N | Right => (key k <? key (measure s))%N end.
Proof.
  unfold stops. rewrite Htarget, key_cmp. unfold SumTree.target_in_child, N.leb, N.ltb.
  by destruct bias, (_ ?= _)%N.
Qed.

(** Where a seek finds a position of the text. *)
Lemma seek_finds bias base x b ps qs : k = measure (base ++ x) → concat (ps ++ qs) = x ++ b →
  (N.of_nat (Str.len (base ++ x ++ b)) <= u32_max)%N → seek_stops target bias base ps qs →
  match qs with
  | q :: qs' => ∃ x' b', q = x' ++ b' ∧ x = concat ps ++ x' ∧ b = b' ++ concat qs' ∧
      match bias with Left => ps = [] ∨ x' ≠ [] | Right => b' ≠ [] end
  | [] => x = concat ps ∧ b = [] ∧ (bias = Left → ps = [])
  end.
Proof.
  intros Hk Hcat Hlen [Hpass Hstop]. rewrite concat_app in Hcat.
  assert (∀ u v w : str, u ++ v = x ++ b → x = u ++ w → key (measure (base ++ u)) <= key (measure (base ++ x)))%N as Hle.
  { intros u v w _ ->. rewrite app_assoc. apply key_le. rewrite !Str_len_app in *. lia. }
  assert (∀ u w : str, u = x ++ w → Str.len u <= Str.len (x ++ b) → w ≠ [] →
    (key (measure (base ++ x)) < key (measure (base ++ u)))%N) as Hlt.
  { intros u w -> Hu Hw. rewrite app_assoc. apply key_grows; [done|]. rewrite !Str_len_app in *. lia. }
  assert (∃ x', x = concat ps ++ x' ∧ concat qs = x' ++ b ∧ (bias = Left → ps = [] ∨ x' ≠ [])) as (x' & Hx & Hqs & Hx').
  { destruct (decide (ps = [])) as [->|Hne]; [exists x; simpl in *; by auto|]. specialize (Hpass Hne).
    rewrite target_stops, Hk in Hpass. apply app_eq_inv in Hcat as [(w & Hps & Hb)|(w & Hx & Hqs)].
    - destruct (decide (w = [])) as [->|Hw].
      + rewrite app_nil_r in Hps. exists []. rewrite app_nil_r. split_and!; [done|done|]. intros ->.
        rewrite Hps in Hpass. apply N.leb_gt in Hpass. lia.
      + specialize (Hlt (concat ps) w Hps). rewrite Hb, Hps, !Str_len_app in Hlt. specialize (Hlt ltac:(lia) Hw).
        rewrite <-Hps in Hlt. destruct bias; [apply N.leb_gt in Hpass|apply N.ltb_ge in Hpass]; lia.
    - exists w. split_and!; [done|done|]. intros ->. right. intros ->. rewrite app_nil_r in Hx. rewrite Hx in Hpass.
      apply N.leb_gt in Hpass. lia. }
  destruct qs as [|q qs]; simpl in *.
  { symmetry in Hqs. apply app_eq_nil in Hqs as [-> ->]. rewrite app_nil_r in Hx. split_and!; [done..|].
    intros Hb. destruct (Hx' Hb); done. }
  rewrite target_stops, Hk in Hstop. apply app_eq_inv in Hqs as [(w & Hq & Hb)|(w & Hxw & Hqs)].
  - exists x', w. split_and!; [done..|]. destruct bias; [by auto|]. intros ->. rewrite app_nil_r in Hq.
    rewrite Hq, <-Hx in Hstop. apply N.ltb_lt in Hstop. lia.
  - destruct (decide (w = [])) as [->|Hw].
    + rewrite app_nil_r in Hxw. exists q, []. rewrite app_nil_r, <-Hxw. split_and!; [done..|].
      destruct bias; [by auto|]. rewrite <-Hxw, <-Hx in Hstop. apply N.ltb_lt in Hstop. lia.
    + exfalso. assert (key (measure (base ++ concat ps ++ q)) < key (measure (base ++ x)))%N.
      { rewrite Hx, Hxw, (app_assoc (concat ps)), (app_assoc base (concat ps ++ q) w). apply key_grows; [done|].
        rewrite Hx, Hxw, !Str_len_app in Hlen. rewrite !Str_len_app. lia. }
      destruct bias; [apply N.leb_le in Hstop|apply N.ltb_lt in Hstop]; lia.
Qed.

(** *** [find] *)

Lemma rope_find bias tree texts : tree_holds tree texts → (N.of_nat (Str.len (concat texts)) <= u32_max)%N →
  ∃ ps qs e, texts = ps ++ qs ∧ seek_stops target bias [] ps qs ∧
    SumTree.find tree target bias = (measure (concat ps), e, chunk_of <$> head qs).
Proof.
  intros (Hok & Hl & Htexts) Hlen. destruct Hok as [->|[h Hwf]].
  - destruct texts; [|done]. exists [], []. unfold SumTree.find, SumTree.find_from.
    assert (dim_add dim_zero (SumTree.summary (SumTree.new : ChunkTree)) = (measure [] : D')) as ->
      by (rewrite td_zero; by apply (td_add [] [])).
    cbn [SumTree.find_iterate SumTree.new SumTree.find_leaf]. rewrite td_zero.
    destruct (match target _ with Gt => true | Eq => _ | Lt => false end); eexists; by split_and!.
  - pose proof (texts_monotone [] texts Htexts Hlen) as Hm. rewrite <-td_zero, <-Hl in Hm.
    rewrite (find_spec target bias h tree Hwf Hm).
    destruct (lin_seek _ _ _ _) as [[b p] r] eqn:Hlin. rewrite Hl, td_zero in Hlin.
    destruct (texts_seek target bias [] texts _ _ _ Htexts Hlin) as (ps & qs & -> & -> & -> & -> & Hstops).
    exists ps, qs. destruct qs as [|q qs]; eexists; by split_and!.
Qed.

(** [find] at a position before the end of the text, with [Bias::Left]. *)
Lemma find_position tree texts a b : tree_holds tree texts → (N.of_nat (Str.len (a ++ b)) <= u32_max)%N →
  k = measure a → concat texts = a ++ b → b ≠ [] →
  ∃ p x y z e, a = p ++ x ∧ b = y ++ z ∧ chunk_text_ok (x ++ y) ∧
    SumTree.find tree target Left = (measure p, e, Some (chunk_of (x ++ y))).
Proof.
  intros Htree Hlen Hk Hcat Hb. destruct (rope_find Left tree texts Htree) as (ps & qs & e & -> & Hstops & ->).
  { by rewrite Hcat. }
  pose proof (seek_finds Left [] a b ps qs Hk Hcat Hlen Hstops) as Hat. destruct qs as [|q qs]; [by destruct Hat as (_ & ? & _)|].
  destruct Hat as (x & y & -> & -> & -> & _). destruct Htree as (_ & _ & Htexts).
  apply Forall_app in Htexts as [_ [? _]%Forall_cons]. by exists (concat ps), x, y, (concat qs), e.
Qed.

(** Two texts compare as their positions do. *)
Lemma cmp_prefix (a b : str) : (N.of_nat (Str.len (a ++ b)) <= u32_max)%N →
  cmp (measure a : D) (measure (a ++ b)) = (match b with [] => Eq | _ => Lt end : comparison) ∧
  cmp (measure (a ++ b) : D) (measure a) = (match b with [] => Eq | _ => Gt end : comparison).
Proof.
  intros Hlen. rewrite !key_cmp. destruct b as [|c b]; [by rewrite app_nil_r, N.compare_refl|].
  pose proof (key_grows a (c :: b) ltac:(done) Hlen). split; [by apply N.compare_lt_iff|by apply N.compare_gt_iff].
Qed.
End keys.
