(* ===== verification/RopeCut.v ===== *)
(** * Cutting ropes

    The cursor of a rope stands between two parts of its text.  Slicing from it
    gives a rope of the text in between, and its summary in any dimension. *)

From S2P Require Import Prelude SumTree SumTreeFacts Seek Cursor CursorFacts CursorWalk Utf8 Points Lines BitSelect Chunk ChunkBits ChunkFacts ChunkPositions TextSummary RopeTree Rope RopeFacts RopeSeek.

Implicit Types (s t : str) (texts ps qs : list str).

Import Rope.

(** The cursor [c] of the rope [r] stands between the texts [a] and [b]: it is in
    front of the chunks [qs], the first of which begins with [x]. *)
Definition cursor_in (r : Rope) (c : RopeCursor.t) (a b : str) ps qs (x : str) : Prop :=
  tree_holds (chunks r) (ps ++ qs) ∧ RopeCursor.rope c = r ∧ RopeCursor.offset c = Str.len a ∧
  split_at (chunks r) (RopeCursor.chunk_cursor c) (map chunk_of ps) (map chunk_of qs) ∧ a = concat ps ++ x ∧
  match qs with q :: qs' => ∃ y, q = x ++ y ∧ b = y ++ concat qs' | [] => x = [] ∧ b = [] end.

Definition cursor_between (r : Rope) (c : RopeCursor.t) (a b : str) : Prop := ∃ ps qs x, cursor_in r c a b ps qs x.

Lemma cursor_in_text r c a b ps qs x : cursor_in r c a b ps qs x → concat (ps ++ qs) = a ++ b.
Proof.
  intros (_ & _ & _ & _ & -> & Hqs). rewrite concat_app, <-app_assoc. f_equal.
  destruct qs as [|q qs]; [by destruct Hqs as [-> ->]|]. destruct Hqs as (y & -> & ->). simpl. by rewrite <-app_assoc.
Qed.

Lemma cursor_between_holds r c a b : cursor_between r c a b → holds r (a ++ b).
Proof.
  intros (ps & qs & x & Hc). exists (ps ++ qs). split; [by destruct Hc as (? & _)|]. by rewrite (cursor_in_text _ _ _ _ _ _ _ Hc).
Qed.

(** Where a seek to the right leaves the cursor. *)
Definition lands ps qs (m b : str) : Prop :=
  match qs with
  | q :: qs' => ∃ x y, q = x ++ y ∧ m = concat ps ++ x ∧ b = y ++ concat qs'
  | [] => m = concat ps ∧ b = []
  end.

Lemma lands_in r c (base m b : str) us ps qs n : tree_holds (chunks r) (us ++ ps ++ qs) → base = concat us →
  split_at (chunks r) c (map chunk_of (us ++ ps)) (map chunk_of qs) → n = Str.len (base ++ m) → lands ps qs m b →
  cursor_between r (RopeCursor.mk r c n) (base ++ m) b.
Proof.
  intros Htree -> Hsplit -> Hlands. rewrite app_assoc in Htree. destruct qs as [|q qs].
  - destruct Hlands as [-> ->]. exists (us ++ ps), [], []. by rewrite <-concat_app, <-(app_nil_r (concat _)).
  - destruct Hlands as (x & y & -> & -> & ->). exists (us ++ ps), ((x ++ y) :: qs), x. split_and!; [done..| |by exists y].
    by rewrite concat_app, app_assoc.
Qed.

Lemma scan_lands (base m b : str) texts bs p (rs : list Chunk) : Forall chunk_text_ok texts →
  (N.of_nat (Str.len (base ++ m ++ b)) <= u32_max)%N → concat texts = m ++ b →
  lin_seek (S:=RopeSummary) (seek_ord (Str.len (base ++ m))) Right (measure base : nat) (map chunk_of texts) = (bs, p, rs) →
  ∃ ps qs, texts = ps ++ qs ∧ bs = map chunk_of ps ∧ rs = map chunk_of qs ∧ lands ps qs m b.
Proof.
  intros Htexts Hlen Hcat Hlin. destruct (texts_seek _ _ _ _ _ _ _ Htexts Hlin) as (ps & qs & -> & -> & -> & _ & Hstops).
  exists ps, qs. split_and!; [done..|].
  pose proof (seek_finds N.of_nat (Str.len (base ++ m)) (seek_ord (Str.len (base ++ m))) (λ _, eq_refl) Right base m b ps qs
    eq_refl Hcat Hlen Hstops) as Hat.
  destruct qs as [|q qs]; [by destruct Hat as (? & ? & _)|]. destruct Hat as (x & y & ? & ? & ? & _). by exists x, y.
Qed.

(** [pos_after] for offsets. *)
Lemma offset_after texts : Forall chunk_text_ok texts →
  pos_after (S:=RopeSummary) (dim_zero : nat) (map chunk_of texts) = Str.len (concat texts).
Proof. intros Htexts. by rewrite pos_after_zero. Qed.

Lemma offsets_monotone k texts ps : Forall chunk_text_ok texts → Forall chunk_text_ok ps →
  (N.of_nat (Str.len (concat (ps ++ texts))) <= u32_max)%N →
  monotone (S:=RopeSummary) (seek_ord k) (pos_after (dim_zero : nat) (map chunk_of ps)) (map chunk_of texts).
Proof.
  intros Htexts Hps Hlen. rewrite pos_after_zero by done.
  apply (texts_monotone N.of_nat k (seek_ord k) (λ _, eq_refl)); [done|]. by rewrite <-concat_app.
Qed.

Lemma rope_cursor_new r a b : holds r (a ++ b) → walkable r → (N.of_nat (Str.len (a ++ b)) <= u32_max)%N →
  ∃ c, RopeCursor.new r (Str.len a) = Some c ∧ cursor_between r c a b.
Proof.
  intros (texts & Htree & Hcat) Hwalk Hlen. pose proof Htree as (Hok & Hl & Htexts). unfold RopeCursor.new.
  pose proof (offsets_monotone (Str.len a) texts [] Htexts (Forall_nil_2 _)) as Hm. rewrite <-Hl in Hm.
  pose proof (seek_spec (D:=nat) (chunks r) (seek_ord (Str.len a)) Right (Cursor.new (chunks r)) (conj Hok Hwalk) eq_refl) as Hseek.
  destruct (lin_seek _ _ _ _) as [[bs p] rs] eqn:Hlin. rewrite Hl in Hlin.
  destruct Hseek as (c & -> & Hc); [apply Hm; simpl; by rewrite <-Hcat|by destruct (Str.len a)|].
  cbn [mbind option_bind]. eexists. split; [done|].
  destruct (scan_lands [] a b texts bs p rs Htexts Hlen (eq_sym Hcat) Hlin) as (ps & qs & -> & -> & -> & Hlands).
  by apply (lands_in r c [] a b [] ps qs).
Qed.

Lemma rope_seek_forward r c a m b : cursor_between r c a (m ++ b) → walkable r →
  (N.of_nat (Str.len (a ++ m ++ b)) <= u32_max)%N →
  ∃ c', RopeCursor.seek_forward c (Str.len (a ++ m)) = Some c' ∧ cursor_between r c' (a ++ m) b.
Proof.
  intros Hc Hwalk Hlen. pose proof (cursor_between_holds _ _ _ _ Hc) as Hh. destruct Hc as (ps & qs & x & Hc).
  pose proof (cursor_in_text _ _ _ _ _ _ _ Hc) as Hcat.
  destruct Hc as (Htree & Hr & Hoff & Hsplit & Ha & Hqs). pose proof Htree as (Hok & Hl & Htexts).
  apply Forall_app in Htexts as [Hps Hqok]. unfold RopeCursor.seek_forward.
  rewrite Hr, Hoff, (holds_len _ _ Hh), !rassert_true by (apply Nat.leb_le; rewrite !Str_len_app; lia).
  cbn [mbind option_bind].
  pose proof (seek_forward_spec (chunks r) (seek_ord (Str.len (a ++ m))) Right _ _ _ (conj Hok Hwalk)
    (ready_split _ _ _ _ Hsplit)) as Hseek.
  specialize (Hseek (offsets_monotone _ qs ps Hqok Hps ltac:(by rewrite Hcat))).
  rewrite (offset_after ps Hps) in Hseek. destruct (lin_seek _ _ _ _) as [[bs p] rs] eqn:Hlin.
  destruct Hseek as (c' & -> & Hc').
  { unfold seek_ord, cmp, nat_ord. rewrite Ha, !Str_len_app. intros Hlt%Nat.compare_lt_iff. lia. }
  cbn [mbind option_bind]. eexists. split; [done|].
  assert (concat qs = (x ++ m) ++ b) as Hcq.
  { rewrite concat_app, Ha, <-!app_assoc in Hcat. apply app_inv_head in Hcat. by rewrite Hcat, app_assoc. }
  rewrite Ha, <-app_assoc in Hlin.
  destruct (scan_lands (concat ps) (x ++ m) b qs bs p rs Hqok) as (ps' & qs' & -> & -> & -> & Hlands).
  { rewrite Ha in Hlen. by rewrite <-!app_assoc in *. }
  { done. }
  { exact Hlin. }
  rewrite Ha, <-app_assoc. rewrite <-map_app in Hc'. by apply (lands_in r c' (concat ps) (x ++ m) b ps ps' qs').
Qed.

(** *** Slicing *)

(** The trees a cursor cuts out of the rope are at most two levels higher than the
    rope's, and stay below the capacity of a path. *)
Definition cuttable (r : Rope) : Prop := Node.height (chunks r) + 2 < STACK_CAPACITY.

Lemma cut_walkable r : cuttable r → walkable r.
Proof. unfold cuttable, walkable. lia. Qed.

Lemma chunk_slice_mid (x m y : str) : str_ok (x ++ m ++ y) → Str.len (x ++ m ++ y) <= 128 →
  Chunk.slice (chunk_of (x ++ m ++ y)) (Str.len x) (Str.len x + Str.len m) = Some (slice_of m).
Proof. intros Hok Hlen. unfold Chunk.slice. rewrite as_slice_chunk_of. by apply chunk_slice_app. Qed.

(** The first part of a slice: what is left of the cursor's chunk. *)
Lemma slice_start r c a m b ps q qs x : cursor_in r c a (m ++ b) ps (q :: qs) x →
  (N.of_nat (Str.len (a ++ m ++ b)) <= u32_max)%N →
  ∃ y, q = x ++ y ∧ Cursor.item (RopeCursor.chunk_cursor c) = Some (Some (chunk_of q)) ∧
    Cursor.start (RopeCursor.chunk_cursor c) = Str.len (concat ps) ∧
    Cursor.end_ (RopeCursor.chunk_cursor c) = Some (Str.len (a ++ y)) ∧
    ((∃ z, y = m ++ z) ∨ (∃ n, m = y ++ n ∧ n ≠ [])).
Proof.
  intros (Htree & Hr & Hoff & Hsplit & Ha & y & -> & Hb) Hlen. exists y. split; [done|].
  pose proof Htree as (_ & _ & [Hps [Hq _]%Forall_cons]%Forall_app).
  rewrite (split_at_item _ _ _ _ Hsplit), (split_at_start _ _ _ _ Hsplit), (split_at_end _ _ _ _ Hsplit).
  rewrite offset_after by done.
  replace (map chunk_of ps ++ option_list (head (map chunk_of ((x ++ y) :: qs)))) with (map chunk_of (ps ++ [x ++ y]))
    by (by rewrite map_app).
  rewrite offset_after by (apply Forall_app; by split; [|constructor]).
  rewrite concat_app, Ha. cbn [concat]. rewrite app_nil_r, <-app_assoc. split_and!; [done..|].
  apply app_eq_inv in Hb as [(k & -> & Hk)|(k & -> & Hk)].
  - destruct (decide (k = [])) as [->|Hne]; [left; exists []; by rewrite !app_nil_r|]. right. by exists k.
  - left. by exists k.
Qed.

(** Moving on to the chunk a slice ends in. *)
Lemma slice_moves r c a y n b ps qs x : cursor_in r c a ((y ++ n) ++ b) ps ((x ++ y) :: qs) x → walkable r →
  (N.of_nat (Str.len (a ++ (y ++ n) ++ b)) <= u32_max)%N →
  let k := Str.len (a ++ y ++ n) in
  ∃ c1 ps' qs' p, Cursor.next (RopeCursor.chunk_cursor c) = Some c1 ∧ qs = ps' ++ qs' ∧ lands ps' qs' n b ∧
    let us := ps ++ [x ++ y] in
    split_at (chunks r) c1 (map chunk_of us) (map chunk_of qs) ∧
    monotone (seek_ord k) (pos_after dim_zero (map chunk_of us)) (map chunk_of qs) ∧
    cmp k (pos_after dim_zero (map chunk_of us)) ≠ Lt ∧
    lin_seek (seek_ord k) Right (pos_after dim_zero (map chunk_of us)) (map chunk_of qs) = (map chunk_of ps', p, map chunk_of qs').
Proof.
  intros Hc Hwalk Hlen k. pose proof (cursor_in_text _ _ _ _ _ _ _ Hc) as Hcat.
  destruct Hc as (Htree & Hr & Hoff & Hsplit & Ha & y' & Hy & Hb). apply app_inv_head in Hy as <-.
  rewrite <-app_assoc in Hb. apply app_inv_head in Hb. pose proof Htree as (Hok & Hl & Htexts).
  destruct (next_spec (chunks r) (conj Hok Hwalk) _ _ _ _ Hsplit) as (c1 & Hnext & Hc1). exists c1.
  change (map chunk_of ps ++ [chunk_of (x ++ y)]) with (map chunk_of ps ++ map chunk_of [x ++ y]) in Hc1. rewrite <-map_app in Hc1.
  rewrite cons_middle, app_assoc in Htexts, Hcat. pose proof Htexts as [Hus Hqs]%Forall_app.
  assert (a ++ y = concat (ps ++ [x ++ y])) as Hus'.
  { rewrite concat_app, Ha. simpl. by rewrite app_nil_r, app_assoc. }
  assert (monotone (seek_ord k) (pos_after dim_zero (map chunk_of (ps ++ [x ++ y]))) (map chunk_of qs)) as Hm.
  { apply offsets_monotone; [done..|]. by rewrite Hcat. }
  destruct (lin_seek (S:=RopeSummary) (seek_ord k) Right (pos_after (S:=RopeSummary) (dim_zero : nat) (map chunk_of (ps ++ [x ++ y])))
    (map chunk_of qs)) as [[bs p] rs] eqn:Hlin.
  rewrite pos_after_zero in Hlin by done. rewrite <-Hus' in Hlin.
  unfold k in Hlin. rewrite app_assoc in Hlin.
  destruct (scan_lands (a ++ y) n b qs bs p rs Hqs) as (ps' & qs' & -> & -> & -> & Hlands); [by rewrite <-!app_assoc in *|done|done|].
  exists ps', qs', p. cbv zeta. split_and!; [done..| |].
  - rewrite offset_after, <-Hus' by done. unfold k, cmp, nat_ord. rewrite app_assoc, (Str_len_app (a ++ y)).
    intros Hlt%Nat.compare_lt_iff. lia.
  - rewrite pos_after_zero, <-Hus' by done. unfold k. rewrite app_assoc. exact Hlin.
Qed.

(** The asserts at the head of the cursor's operations. *)
Lemma cursor_asserts {A} r c a m b (k : option A) : cursor_between r c a (m ++ b) →
  (_ ← rassert (RopeCursor.offset c <=? Str.len (a ++ m));
   _ ← rassert (Str.len (a ++ m) <=? Rope.len (RopeCursor.rope c)); k) = k.
Proof.
  intros Hc. pose proof (cursor_between_holds _ _ _ _ Hc) as Hh. destruct Hc as (ps & qs & x & _ & Hr & Hoff & _).
  rewrite Hr, Hoff, (holds_len _ _ Hh), !rassert_true by (apply Nat.leb_le; rewrite !Str_len_app; lia). done.
Qed.

(** What is left of the chunk, up to the end of the slice. *)
Definition slice_head (a m y : str) : str := if Str.len (a ++ y) <? Str.len (a ++ m) then y else m.

Lemma cursor_head r c a m b ps q qs x y : cursor_in r c a (m ++ b) ps (q :: qs) x → q = x ++ y →
  (∃ z, y = m ++ z) ∨ (∃ n, m = y ++ n ∧ n ≠ []) →
  checked_sub_nat (Str.len a) (Str.len (concat ps)) = Some (Str.len x) ∧
  checked_sub_nat (Nat.min (Str.len (a ++ m)) (Str.len (a ++ y))) (Str.len (concat ps)) =
    Some (Str.len x + Str.len (slice_head a m y)) ∧
  Chunk.slice (chunk_of q) (Str.len x) (Str.len x + Str.len (slice_head a m y)) = Some (slice_of (slice_head a m y)) ∧
  str_ok (slice_head a m y) ∧ Str.len (slice_head a m y) <= 128 ∧
  (if Str.len (a ++ y) <? Str.len (a ++ m) then ∃ n, m = y ++ n else ∃ z, y = m ++ z).
Proof.
  intros (Htree & _ & _ & _ & Ha & _) -> Hcase. unfold slice_head, checked_sub_nat.
  destruct Htree as (_ & _ & [_ [(Hok & _ & Hlen) _]%Forall_cons]%Forall_app).
  rewrite Ha. rewrite !Str_len_app in *. rewrite rassert_true by (apply Nat.leb_le; lia). cbn [mbind option_bind].
  rewrite rassert_true by (apply Nat.leb_le; lia). cbn [mbind option_bind].
  destruct Hcase as [(z & ->)|(n & -> & Hn)]; rewrite ?Str_len_app in *.
  - destruct (Nat.ltb_spec (Str.len (concat ps) + Str.len x + (Str.len m + Str.len z)) (Str.len (concat ps) + Str.len x + Str.len m)); [lia|].
    split_and!; [f_equal; lia|f_equal; lia|apply chunk_slice_mid; rewrite ?Str_len_app; (done || lia)| |lia|by exists z].
    by apply Forall_app in Hok as [_ [? _]%Forall_app].
  - assert (Str.len n ≠ 0) by (intros ?%Str_len_zero; done).
    destruct (Nat.ltb_spec (Str.len (concat ps) + Str.len x + Str.len y) (Str.len (concat ps) + Str.len x + (Str.len y + Str.len n))); [|lia].
    split_and!; [f_equal; lia|f_equal; lia| | |lia|by exists n].
    + pose proof (chunk_slice_mid x y []) as Hs. rewrite app_nil_r in Hs. apply Hs; [done|]. rewrite Str_len_app. lia.
    + by apply Forall_app in Hok as [_ ?].
Qed.

(** The part of the last chunk of a slice. *)
Lemma slice_end r c1 us ps q qs (n b : str) : tree_holds (chunks r) (us ++ ps ++ q :: qs) → lands ps (q :: qs) n b →
  split_at (chunks r) c1 (map chunk_of (us ++ ps)) (map chunk_of (q :: qs)) →
  ∃ x, n = concat ps ++ x ∧ str_ok x ∧ Str.len x <= 128 ∧
    Cursor.item c1 = Some (Some (chunk_of q)) ∧
    checked_sub_nat (Str.len (concat us ++ n)) (Cursor.start c1) = Some (Str.len x) ∧
    Chunk.slice (chunk_of q) 0 (Str.len x) = Some (slice_of x).
Proof.
  intros (_ & _ & Htexts) (x & y & -> & -> & _) Hsplit. exists x. rewrite app_assoc in Htexts.
  apply Forall_app in Htexts as [Hus [(Hok & _ & Hlen) _]%Forall_cons].
  rewrite (split_at_item _ _ _ _ Hsplit), (split_at_start _ _ _ _ Hsplit), offset_after by done.
  pose proof Hlen as Hlen'. rewrite Str_len_app in Hlen'.
  split_and!; [done|by apply Forall_app in Hok as [? _]|lia|done| |by apply (chunk_slice_mid [] x y)].
  unfold checked_sub_nat. rewrite app_assoc, concat_app, (Str_len_app (_ ++ _) x).
  rewrite rassert_true by (apply Nat.leb_le; lia). cbn [mbind option_bind]. f_equal. lia.
Qed.

(** The rope a cursor cuts out is this high at most. *)
Definition slice_height (r : Rope) : nat := 6 + Node.height (chunks r).

(** The slice of the chunks that are inside as a whole, and of the last one. *)
Lemma slice_tail r c1 us ps q1 c2 tree slice (h n b : str) qs : cuttable r →
  tree_holds (chunks r) (us ++ ps ++ qs) → Node.height tree <= Node.height (chunks r) + 2 →
  tree_holds tree ps → lands ps qs n b → split_at (chunks r) c2 (map chunk_of (us ++ ps)) (map chunk_of qs) →
  q1 = Str.len (concat us ++ n) → holds slice h → Node.height (chunks slice) <= 1 → RopeCursor.rope c1 = r →
  ∃ r', (slice ← Rope.append slice (mkRope tree);
     end_chunk ← Cursor.item c2;
     match end_chunk with
     | Some end_chunk =>
         end_ix ← checked_sub_nat q1 (Cursor.start c2);
         end_slice ← Chunk.slice end_chunk 0 end_ix;
         slice ← Rope.push_chunk slice end_slice; Some (slice, c2)
     | None => Some (slice, c2)
     end) = Some (r', c2) ∧ holds r' (h ++ n) ∧ Node.height (chunks r') <= slice_height r.
Proof.
  intros Hcut Htree Hheight Hps Hlands Hsplit -> Hslice Hh1 Hr.
  destruct (rope_append_spec slice (mkRope tree) h (concat ps) Hslice) as (s1 & -> & Hs1 & Hhs1); [by exists ps|unfold walkable, cuttable in *; simpl; lia|].
  cbn [mbind option_bind]. simpl in Hhs1.
  unfold slice_height. destruct qs as [|q qs].
  - destruct Hlands as [-> ->]. rewrite (split_at_item _ _ _ _ Hsplit). cbn [mbind option_bind map head].
    eexists. split; [done|]. split; [done|]. lia.
  - destruct (slice_end r c2 us ps q qs n b Htree Hlands Hsplit) as (x & -> & Hx & Hlen & -> & -> & Hcs).
    cbn [mbind option_bind]. rewrite Hcs. cbn [mbind option_bind].
    destruct (push_chunk_spec s1 _ x Hs1 Hx Hlen) as (s2 & -> & Hs2 & Hhs2). cbn [mbind option_bind].
    eexists. split; [done|]. rewrite app_assoc. split; [done|]. lia.
Qed.

Lemma rope_cursor_slice r c a m b : cursor_between r c a (m ++ b) → cuttable r →
  (N.of_nat (Str.len (a ++ m ++ b)) <= u32_max)%N →
  ∃ r' c', RopeCursor.slice c (Str.len (a ++ m)) = Some (r', c') ∧ holds r' m ∧ cursor_between r c' (a ++ m) b ∧
    Node.height (chunks r') <= slice_height r.
Proof.
  intros Hbetween Hcut Hlen. unfold RopeCursor.slice. rewrite (cursor_asserts r c a m b _ Hbetween).
  destruct Hbetween as (ps & qs & x & Hc). pose proof Hc as (Htree & Hr & Hoff & Hsplit & Ha & Hqs).
  destruct qs as [|q qs].
  { destruct Hqs as [-> Hnil]. apply app_eq_nil in Hnil as [-> ->]. rewrite app_nil_r in *.
    rewrite (split_at_item _ _ _ _ Hsplit), (split_at_end _ _ _ _ Hsplit). cbn [map head option_list mbind option_bind].
    rewrite app_nil_r, offset_after, <-Ha by (by destruct Htree as (_ & _ & ?)).
    rewrite Nat.ltb_irrefl. cbn [mbind option_bind]. eexists _, _. split; [done|]. split; [apply holds_new|]. split; [|unfold slice_height; simpl; lia].
    exists ps, [], []. split_and!; rewrite ?app_nil_r; done. }
  destruct (slice_start r c a m b ps q qs x Hc Hlen) as (y & -> & -> & Hst & -> & Hcase). cbn [mbind option_bind].
  destruct (cursor_head r c a m b ps _ qs x y Hc eq_refl Hcase) as (Hsub1 & Hsub2 & Hcs & Hok & Hle & Hpart).
  rewrite Hst, Hoff, Hsub1. cbn [mbind option_bind]. rewrite Hsub2. cbn [mbind option_bind]. rewrite Hcs.
  cbn [mbind option_bind]. clear Hcase Hsub1 Hsub2 Hcs.
  destruct (push_chunk_spec Rope.new [] (slice_head a m y) holds_new Hok Hle) as (s1 & -> & Hs1 & Hhs1).
  cbn [mbind option_bind]. unfold slice_head in Hs1. simpl in Hhs1. destruct (_ <? _).
  - destruct Hpart as (n & ->).
    destruct (slice_moves r c a y n b ps qs x Hc (cut_walkable r Hcut) Hlen) as (c1 & ps' & qs' & p & -> & -> & Hlands & Hc1 & Hm & Hge & Hlin).
    cbn [mbind option_bind]. cbv zeta in *.
    pose proof (slice_height_spec (chunks r) _ Right c1 _ _ (conj (proj1 Htree) (cut_walkable r Hcut)) (ready_split _ _ _ _ Hc1) Hm Hge) as Hslice.
    rewrite Hlin in Hslice. destruct Hslice as (tree & c2 & Hrun & Htok & Htl & Hc2 & Hth). rewrite Hrun. cbn [mbind option_bind].
    rewrite <-map_app in Hc2.
    assert (concat (ps ++ [x ++ y]) = a ++ y) as Hus by (rewrite concat_app, Ha; simpl; by rewrite app_nil_r, app_assoc).
    assert (tree_holds (chunks r) ((ps ++ [x ++ y]) ++ ps' ++ qs')) as Htree' by by rewrite <-app_assoc.
    destruct (slice_tail r c (ps ++ [x ++ y]) ps' (Str.len (a ++ y ++ n)) c2 tree s1 y n b qs' Hcut Htree')
      as (r' & Htail & Hr' & Hhr'); try done.
    { split; [done|]. split; [done|]. by destruct Htree' as (_ & _ & [_ [? _]%Forall_app]%Forall_app). }
    { by rewrite Hus, app_assoc. }
    rewrite Htail. cbn [mbind option_bind]. eexists _, _. split; [done|]. split; [done|]. split; [|done].
    rewrite Hr, app_assoc. apply (lands_in r c2 (a ++ y) n b (ps ++ [x ++ y]) ps' qs'); done.
  - destruct Hpart as (z & ->). eexists _, _. split; [done|]. split; [done|]. split; [|unfold slice_height; lia].
    exists ps, ((x ++ m ++ z) :: qs), (x ++ m). split_and!; [done..|by rewrite Ha, app_assoc|].
    exists z. rewrite app_assoc. split; [done|]. destruct Hqs as (y' & Hy & Hb). apply app_inv_head in Hy as <-.
    rewrite <-app_assoc in Hb. by apply app_inv_head in Hb.
Qed.

(** *** Summaries *)

Section summary.
Context {D} `{Dimension D RopeSummary, !DimensionLaws D RopeSummary, !TextDimension D, !TextDimensionLaws D}.

Lemma assign_measure (a b : str) : (N.of_nat (Str.len (a ++ b)) <= u32_max)%N →
  td_add_assign (measure a : D) (measure b) = Some (measure (a ++ b)).
Proof. apply td_assign. Qed.

Lemma rope_cursor_summary r c a m b : cursor_between r c a (m ++ b) → walkable r →
  (N.of_nat (Str.len (a ++ m ++ b)) <= u32_max)%N →
  ∃ c', RopeCursor.summary c (Str.len (a ++ m)) = Some (measure m : D, c') ∧ cursor_between r c' (a ++ m) b.
Proof.
  intros Hbetween Hwalk Hlen. unfold RopeCursor.summary. rewrite (cursor_asserts r c a m b _ Hbetween), td_zero.
  destruct Hbetween as (ps & qs & x & Hc). pose proof Hc as (Htree & Hr & Hoff & Hsplit & Ha & Hqs).
  destruct qs as [|q qs].
  { destruct Hqs as [-> Hnil]. apply app_eq_nil in Hnil as [-> ->]. rewrite app_nil_r in *.
    rewrite (split_at_item _ _ _ _ Hsplit), (split_at_end _ _ _ _ Hsplit). cbn [map head option_list mbind option_bind].
    rewrite app_nil_r, offset_after, <-Ha by (by destruct Htree as (_ & _ & ?)).
    rewrite Nat.ltb_irrefl. cbn [mbind option_bind]. eexists. split; [done|].
    exists ps, [], []. split_and!; rewrite ?app_nil_r; done. }
  destruct (slice_start r c a m b ps q qs x Hc Hlen) as (y & -> & -> & Hst & -> & Hcase). cbn [mbind option_bind].
  destruct (cursor_head r c a m b ps _ qs x y Hc eq_refl Hcase) as (Hsub1 & Hsub2 & Hcs & Hok & Hle & Hpart).
  rewrite Hst, Hoff, Hsub1. cbn [mbind option_bind]. rewrite Hsub2. cbn [mbind option_bind]. rewrite Hcs.
  cbn [mbind option_bind]. clear Hcase Hsub1 Hsub2 Hcs.
  rewrite td_from_chunk by done. cbn [mbind option_bind].
  rewrite (assign_measure [] (slice_head a m y)) by (unfold u32_max; simpl; lia).
  cbn [mbind option_bind app]. unfold slice_head. destruct (_ <? _).
  - destruct Hpart as (n & ->).
    destruct (slice_moves r c a y n b ps qs x Hc Hwalk Hlen) as (c1 & ps' & qs' & p & -> & -> & Hlands & Hc1 & Hm & Hge & Hlin).
    cbn [mbind option_bind]. cbv zeta in *.
    pose proof (summary_spec (chunks r) _ Right (Output:=D) c1 _ _ (conj (proj1 Htree) Hwalk) (ready_split _ _ _ _ Hc1) Hm Hge) as Hsum.
    rewrite Hlin in Hsum. destruct Hsum as (c2 & -> & Hc2). cbn [mbind option_bind].
    rewrite <-map_app in Hc2.
    assert (tree_holds (chunks r) ((ps ++ [x ++ y]) ++ ps' ++ qs')) as Htree' by by rewrite <-app_assoc.
    rewrite pos_after_zero by (by destruct Htree' as (_ & _ & [_ [? _]%Forall_app]%Forall_app)).
    assert (concat (ps ++ [x ++ y]) = a ++ y) as Hus by (rewrite concat_app, Ha; simpl; by rewrite app_nil_r, app_assoc).
    rewrite !Str_len_app in Hlen.
    destruct qs' as [|q' qs'].
    + destruct Hlands as [-> ->]. rewrite assign_measure by (rewrite Str_len_app; lia). cbn [mbind option_bind].
      rewrite (split_at_item _ _ _ _ Hc2). cbn [map head mbind option_bind]. eexists. split; [done|].
      rewrite Hr, app_assoc. apply (lands_in r c2 (a ++ y) (concat ps') [] (ps ++ [x ++ y]) ps' []); done.
    + destruct (slice_end r c2 (ps ++ [x ++ y]) ps' q' qs' n b Htree' Hlands Hc2) as (x' & Hn & Hx & Hlen' & -> & Hsub & Hcs).
      rewrite Hn, !Str_len_app in Hlen.
      rewrite assign_measure by (rewrite Str_len_app; lia). cbn [mbind option_bind].
      rewrite app_assoc, <-Hus, Hsub. cbn [mbind option_bind]. rewrite Hcs. cbn [mbind option_bind].
      rewrite td_from_chunk by done. cbn [mbind option_bind].
      rewrite assign_measure by (rewrite !Str_len_app; lia). cbn [mbind option_bind]. rewrite <-app_assoc, <-Hn.
      eexists. split; [done|]. rewrite Hr.
      apply (lands_in r c2 (concat (ps ++ [x ++ y])) n b (ps ++ [x ++ y]) ps' (q' :: qs')); done.
  - destruct Hpart as (z & ->). eexists. split; [done|].
    exists ps, ((x ++ m ++ z) :: qs), (x ++ m). split_and!; [done..|by rewrite Ha, app_assoc|].
    exists z. rewrite app_assoc. split; [done|]. destruct Hqs as (y' & Hy & Hb). apply app_inv_head in Hy as <-.
    rewrite <-app_assoc in Hb. by apply app_inv_head in Hb.
Qed.
End summary.

(** ** Slices and replacements *)

(** What [replace] asks for: the slices can be walked. *)
Definition replaceable (r : Rope) : Prop := slice_height r < STACK_CAPACITY.

Lemma rep_cuttable r : replaceable r → cuttable r.
Proof. unfold replaceable, slice_height, cuttable. lia. Qed.

Lemma rep_walkable r r' : replaceable r → Node.height (chunks r') <= slice_height r → walkable r'.
Proof. unfold replaceable, walkable. lia. Qed.

(** A text of less than 4 GiB that is built into a rope at once can be replaced in. *)
Lemma built_replaceable s : str_ok s → (N.of_nat (Str.len s) <= u32_max)%N →
  ∃ r, Rope.from_str s = Some r ∧ holds r s ∧ replaceable r.
Proof.
  intros Hs Hlen. destruct (rope_from_str_spec s Hs Hlen) as (r & Hr & Hh & Hheight). exists r. split_and!; [done..|].
  unfold replaceable, slice_height. change STACK_CAPACITY with 16. lia.
Qed.

Lemma rope_slice_spec r a m b : holds r (a ++ m ++ b) → cuttable r → (N.of_nat (Str.len (a ++ m ++ b)) <= u32_max)%N →
  ∃ r', Rope.slice r (Str.len a) (Str.len (a ++ m)) = Some r' ∧ holds r' m.
Proof.
  intros Hr Hcut Hlen. unfold Rope.slice, cursor.
  destruct (rope_cursor_new r [] (a ++ m ++ b) Hr (cut_walkable r Hcut) Hlen) as (c & Hnew & Hc).
  change (Str.len []) with 0 in Hnew. rewrite Hnew. cbn [mbind option_bind].
  destruct (rope_seek_forward r c [] a (m ++ b) Hc (cut_walkable r Hcut) Hlen) as (c1 & Hseek & Hc1).
  simpl in Hseek, Hc1. rewrite Hseek. cbn [mbind option_bind].
  destruct (rope_cursor_slice r c1 a m b Hc1 Hcut Hlen) as (r' & c2 & -> & Hr' & _). cbn [mbind option_bind]. eauto.
Qed.

Lemma rope_suffix_spec r c a b : cursor_between r c a b → cuttable r → (N.of_nat (Str.len (a ++ b)) <= u32_max)%N →
  ∃ r', RopeCursor.suffix c = Some r' ∧ holds r' b ∧ Node.height (chunks r') <= slice_height r.
Proof.
  intros Hc Hcut Hlen. pose proof (cursor_between_holds _ _ _ _ Hc) as Hh. pose proof Hc as (ps & qs & x & _ & Hrope & _).
  rewrite <-(app_nil_r b) in Hc, Hlen. destruct (rope_cursor_slice r c a b [] Hc Hcut Hlen) as (r' & c' & Hrun & Hr' & _ & Hheight).
  exists r'. split_and!; [|done..]. unfold RopeCursor.suffix.
  change (SumTree.extent (chunks (RopeCursor.rope c)) : nat) with (Rope.len (RopeCursor.rope c)).
  by rewrite Hrope, (holds_len _ _ Hh), Hrun.
Qed.

Lemma rope_replace_spec r a m b t : holds r (a ++ m ++ b) → replaceable r → str_ok t →
  (N.of_nat (Str.len (a ++ m ++ b)) <= u32_max)%N →
  ∃ r', Rope.replace r (Str.len a) (Str.len (a ++ m)) t = Some r' ∧ holds r' (a ++ t ++ b).
Proof.
  intros Hr Hrep Ht Hlen. pose proof (rep_cuttable r Hrep) as Hcut. unfold Rope.replace, cursor.
  destruct (rope_cursor_new r [] (a ++ m ++ b) Hr (cut_walkable r Hcut) Hlen) as (c & Hnew & Hc).
  change (Str.len []) with 0 in Hnew. rewrite Hnew. cbn [mbind option_bind].
  destruct (rope_cursor_slice r c [] a (m ++ b) Hc Hcut Hlen) as (r1 & c1 & Hrun & Hr1 & Hc1 & Hwalk1).
  apply (rep_walkable r r1 Hrep) in Hwalk1. simpl in Hrun, Hc1. rewrite Hrun. cbn [mbind option_bind].
  destruct (rope_append_spec Rope.new r1 [] a holds_new Hr1 Hwalk1) as (n1 & -> & Hn1 & _). cbn [mbind option_bind].
  destruct (rope_seek_forward r c1 a m b Hc1 (cut_walkable r Hcut) Hlen) as (c2 & -> & Hc2). cbn [mbind option_bind].
  destruct (levels_for_exists t) as [k Hk].
  destruct (rope_push_spec n1 _ t k Hn1 Ht Hk) as (n2 & -> & Hn2 & _). cbn [mbind option_bind].
  destruct (rope_suffix_spec r c2 (a ++ m) b Hc2 Hcut) as (r2 & -> & Hr2 & Hwalk2); [by rewrite <-app_assoc|].
  cbn [mbind option_bind]. apply (rep_walkable r r2 Hrep) in Hwalk2.
  destruct (rope_append_spec n2 r2 _ b Hn2 Hr2 Hwalk2) as (r' & -> & Hr' & _). exists r'.
  by rewrite app_assoc.
Qed.

(** ** Properties *)

(** C22. Cutting a rope cuts its text: for a text [a ++ m ++ b] the slice between
    the offsets of [m] is a rope of [m]; a cursor set to the start of [m] sums
    [m] up to the measure of [m] in every dimension (the summary, an offset, a
    point, a pair of them), and the suffix from there is a rope of [b]. *)
Theorem rope_slicing {D} `{Dimension D RopeSummary, !DimensionLaws D RopeSummary, !TextDimension D, !TextDimensionLaws D}
    r a m b (Hr : holds r (a ++ m ++ b)) (Hcut : cuttable r) (Hlen : (N.of_nat (Str.len (a ++ m ++ b)) <= u32_max)%N) :
  (∃ r', Rope.slice r (Str.len a) (Str.len (a ++ m)) = Some r' ∧ holds r' m) ∧
  (∃ c c' r', Rope.cursor r (Str.len a) = Some c ∧
    RopeCursor.summary c (Str.len (a ++ m)) = Some (measure m : D, c') ∧
    RopeCursor.suffix c' = Some r' ∧ holds r' b).
Proof.
  split; [by apply rope_slice_spec with b|].
  destruct (rope_cursor_new r a (m ++ b) Hr (cut_walkable r Hcut) Hlen) as (c & Hnew & Hc).
  destruct (rope_cursor_summary (D:=D) r c a m b Hc (cut_walkable r Hcut) Hlen) as (c' & Hsum & Hc').
  destruct (rope_suffix_spec r c' (a ++ m) b Hc' Hcut) as (r' & Hsuf & Hr' & _); [by rewrite <-app_assoc|]. eauto 10.
Qed.

Lemma example_len : (N.of_nat (Str.len RopeExample.text) <= u32_max)%N.
Proof. by vm_compute. Qed.

Lemma example_replaceable : replaceable RopeExample.rope.
Proof. unfold replaceable. change STACK_CAPACITY with 16. vm_compute. lia. Qed.

Lemma rope_slicing_witness :
  let a := [97; 233]%N in let m := ([10]%N ++ replicate 100 98%N ++ [0x20AC; 10; 0x1F600]%N) in
  RopeExample.text = a ++ m ++ replicate 60 99%N ∧
  ∃ c c' r', Rope.cursor RopeExample.rope 3 = Some c ∧
    RopeCursor.summary c 112 = Some (Point.mk 2 4, c') ∧ RopeCursor.suffix c' = Some r' ∧ holds r' (replicate 60 99%N).
Proof.
  intros a m. split; [done|].
  exact (proj2 (rope_slicing (D:=Point) RopeExample.rope a m (replicate 60 99%N) RopeExample.rope_holds
    (rep_cuttable _ example_replaceable) example_len)).
Defined.

(** C30. Replacing a range of a rope replaces it in the text: [replace] does not
    panic when the text before and after have at most [u32::MAX] bytes, and no
    sum of summaries in the new tree overflows. *)
Theorem rope_replacing r a m b t (Hr : holds r (a ++ m ++ b)) (Hrep : replaceable r) (Ht : str_ok t)
    (Hlen : text_fits (a ++ m ++ b)) (Hresult : text_fits (a ++ t ++ b)) :
  ∃ r', Rope.replace r (Str.len a) (Str.len (a ++ m)) t = Some r' ∧ built r' (a ++ t ++ b).
Proof. destruct (rope_replace_spec r a m b t) as (r' & ? & ?); eauto using holds_built. Qed.

Lemma rope_replacing_witness :
  let a := [97; 233]%N in let m := ([10]%N ++ replicate 100 98%N ++ [0x20AC; 10; 0x1F600]%N) in
  ∃ r', Rope.replace RopeExample.rope 3 112 [120; 10]%N = Some r' ∧
    built r' (a ++ [120; 10]%N ++ replicate 60 99%N).
Proof.
  intros a m. apply (rope_replacing RopeExample.rope a m (replicate 60 99%N) [120; 10]%N RopeExample.rope_holds
    example_replaceable); [repeat constructor; unfold char_ok; lia|exact example_len|by vm_compute].
Defined.
