(* ===== verification/RopePositions.v ===== *)
(** * Positions in a rope

    Every position of a rope is that of its text: a conversion finds the chunk
    that holds the position, converts within the chunk and adds the position of
    the chunk's start. *)

From S2P Require Import Prelude SumTree SumTreeFacts Seek Cursor CursorFacts CursorWalk Utf8 Points Lines BitSelect Chunk ChunkBits ChunkFacts ChunkPositions TextSummary RopeTree Rope RopeFacts RopeSeek RopeCut.

Implicit Types (s t a b : str) (r : Rope).

(** ** Within a chunk *)

Section prefix.
Context a b (Hs : str_ok (a ++ b)) (Hlen : Str.len (a ++ b) <= 128).

Lemma point_to_point_utf16_prefix : ChunkSlice.point_to_point_utf16 (slice_of (a ++ b)) (extent a) = Some (extent_utf16 a).
Proof using Hlen.
  unfold ChunkSlice.point_to_point_utf16. rewrite point_to_offset_app by done. cbn [mbind option_bind].
  by apply offset_to_point_utf16_app.
Qed.

Lemma point_to_offset_utf16_prefix :
  ChunkSlice.point_to_offset_utf16 (slice_of (a ++ b)) (extent a) = Some (OffsetUtf16.mk (Str.len_utf16 a)).
Proof using Hlen.
  unfold ChunkSlice.point_to_offset_utf16. rewrite lines_spec by done. cbn [mbind option_bind extent Point.row].
  rewrite newlines_app. destruct (N.ltb_spec (N.of_nat (Lines.newlines a + Lines.newlines b)) (N.of_nat (Lines.newlines a))); [lia|].
  fold (extent a). rewrite point_to_offset_app by done. cbn [mbind option_bind]. by rewrite offset_to_offset_utf16_app.
Qed.

Lemma point_utf16_to_offset_prefix clip :
  ChunkSlice.point_utf16_to_offset (slice_of (a ++ b)) (extent_utf16 a) clip = Some (Str.len a).
Proof using Hs Hlen.
  destruct (prefix_row a b) as [Hrow Ha]. set (p := take (length a - length (last_line a)) a) in *.
  unfold extent_utf16. rewrite (point_utf16_to_offset_app _ _ p _ (first_line b) _ _ Hs Hlen Hrow). f_equal.
  rewrite <-Str_len_app. by rewrite <-Ha.
Qed.

Lemma unclipped_prefix :
  ChunkSlice.unclipped_point_utf16_to_point (slice_of (a ++ b)) (Unclipped.mk (extent_utf16 a)) = Some (extent a).
Proof using Hs Hlen.
  destruct (prefix_row a b) as [Hrow Ha]. unfold extent_utf16.
  by rewrite (unclipped_app _ _ _ _ (first_line b) _ Hs Hlen Hrow).
Qed.
End prefix.

(** ** The chunk that holds a position *)

Section find.
Context {D D2} `{TextDimensionLaws D, TextDimensionLaws D2, !DimensionLaws D RopeSummary, !DimensionLaws D2 RopeSummary, !Ord D}.
Context (key : D → N) {Hkey : PositionKey D key}.
Context r a b (Hr : holds r (a ++ b)) (Hlen : (N.of_nat (Str.len (a ++ b)) <= u32_max)%N) (Hb : b ≠ []).

Lemma fst_target s : seek_fst (D2:=D2) (seek_ord (measure a : D)) (measure s) = cmp (measure a) (measure s : D).
Proof using Type. done. Qed.

Lemma find_pair : ∃ p x y e, a = p ++ x ∧ str_ok (x ++ y) ∧ Str.len (x ++ y) <= 128 ∧
  SumTree.find (D:=D * D2) (chunks r) (seek_fst (seek_ord (measure a : D))) Left =
    ((measure p, measure p), e, Some (chunk_of (x ++ y))).
Proof using All.
  destruct Hr as (texts & Htree & Hcat).
  destruct (find_position (D:=D) key (D':=D * D2) (measure a) (seek_fst (D2:=D2) (seek_ord (measure a : D))) fst_target
    (chunks r) texts a b Htree Hlen eq_refl (eq_sym Hcat) Hb) as (p & x & y & z & e & -> & -> & (Hok & _ & Hl) & Hfind).
  exists p, x, y, e. by split_and!.
Qed.

(** The same with a cursor. *)
Lemma seek_pair : walkable r → ∃ p x y found c, a = p ++ x ∧ str_ok (x ++ y) ∧ Str.len (x ++ y) <= 128 ∧
  Cursor.seek (D:=D * D2) (seek_fst (seek_ord (measure a : D))) Left (Cursor.new (chunks r)) = Some (found, c) ∧
  Cursor.start c = (measure p, measure p) ∧ Cursor.item c = Some (Some (chunk_of (x ++ y))).
Proof using All.
  intros Hwalk. destruct Hr as (texts & Htree & Hcat). pose proof Htree as (Hok & Hl & Htexts).
  pose proof (texts_monotone (D:=D) key (D':=D * D2) (measure a) (seek_fst (D2:=D2) (seek_ord (measure a : D))) fst_target [] texts Htexts) as Hm.
  rewrite <-td_zero, <-Hl in Hm. change ([] ++ concat texts) with (concat texts) in Hm. rewrite <-Hcat in Hm.
  pose proof (seek_spec (chunks r) (seek_fst (D2:=D2) (seek_ord (measure a : D))) Left (Cursor.new (chunks r)) (conj Hok Hwalk) eq_refl
    (Hm Hlen)) as Hseek.
  destruct (lin_seek _ _ _ _) as [[bs p] rs] eqn:Hlin. rewrite Hl, td_zero in Hlin.
  destruct (texts_seek _ _ [] _ _ _ _ Htexts Hlin) as (ps & qs & -> & -> & -> & -> & Hstops).
  destruct Hseek as (c & Hrun & Hc).
  { unfold seek_fst, seek_ord. rewrite td_zero. change (fst (measure [] : D * D2)) with (measure [] : D).
    pose proof (cmp_prefix key [] a) as [_ Hcmp]; [rewrite Str_len_app in Hlen; simpl; lia|]. simpl in Hcmp. rewrite Hcmp.
    by destruct a. }
  pose proof (seek_finds (D:=D) key (D':=D * D2) (measure a) (seek_fst (D2:=D2) (seek_ord (measure a : D))) fst_target Left [] a b ps qs
    eq_refl (eq_sym Hcat) Hlen Hstops) as Hat.
  destruct qs as [|q qs]; [by destruct Hat as (_ & ? & _)|]. destruct Hat as (x & y & -> & -> & -> & _).
  apply Forall_app in Htexts as [Hps [(Hokq & _ & Hq) _]%Forall_cons].
  exists (concat ps), x, y, (found_at (seek_fst (seek_ord (measure (concat ps ++ x) : D))) Left (measure ([] ++ concat ps) : D * D2) (map chunk_of ((x ++ y) :: qs))), c.
  split_and!; [done..| |].
  - by rewrite (split_at_start _ _ _ _ Hc), pos_after_zero.
  - by rewrite (split_at_item _ _ _ _ Hc).
Qed.
End find.

(** *** The four positions *)

Lemma measure_offset s : measure (D:=nat) s = Str.len s.
Proof. done. Qed.
Lemma measure_offset_utf16 s : measure (D:=OffsetUtf16) s = OffsetUtf16.mk (Str.len_utf16 s).
Proof. done. Qed.
Lemma measure_point s : measure (D:=Point) s = extent s.
Proof. done. Qed.
Lemma measure_point_utf16 s : measure (D:=PointUtf16) s = extent_utf16 s.
Proof. done. Qed.

(** *** Differences and sums of positions *)

Lemma offset_overshoot p x : checked_sub_nat (Str.len (p ++ x)) (Str.len p) = Some (Str.len x).
Proof.
  unfold checked_sub_nat. rewrite Str_len_app, rassert_true by (apply Nat.leb_le; lia). cbn [mbind option_bind]. f_equal. lia.
Qed.

Lemma offset_utf16_overshoot p x :
  OffsetUtf16.sub (OffsetUtf16.mk (Str.len_utf16 (p ++ x))) (OffsetUtf16.mk (Str.len_utf16 p)) = Some (OffsetUtf16.mk (Str.len_utf16 x)).
Proof.
  unfold OffsetUtf16.sub. simpl. rewrite Str_len_utf16_app. rewrite ?rassert_true by (apply Nat.leb_le; lia). cbn [mbind option_bind].
  do 2 f_equal. lia.
Qed.

Lemma extent_utf16_ok s : (N.of_nat (Str.len s) <= u32_max)%N → PointUtf16_ok (extent_utf16 s).
Proof. intros Hs. pose proof (line_bounds s). split; simpl; lia. Qed.

Lemma point_sums p x : (N.of_nat (Str.len (p ++ x)) <= u32_max)%N →
  Point.sub (extent (p ++ x)) (extent p) = Some (extent x) ∧ Point.add (extent p) (extent x) = Some (extent (p ++ x)).
Proof.
  intros Hlen. pose proof (extent_app p x Hlen) as Hadd. split; [|done]. rewrite Str_len_app in Hlen.
  destruct (Point_add_sub (extent p) (extent x) (extent (p ++ x))) as (_ & _ & ?); [apply extent_ok; lia..|done|done].
Qed.

Lemma point_utf16_sums p x : (N.of_nat (Str.len (p ++ x)) <= u32_max)%N →
  PointUtf16.sub (extent_utf16 (p ++ x)) (extent_utf16 p) = Some (extent_utf16 x) ∧
  PointUtf16.add (extent_utf16 p) (extent_utf16 x) = Some (extent_utf16 (p ++ x)).
Proof.
  intros Hlen. assert (PointUtf16.add (extent_utf16 p) (extent_utf16 x) = Some (extent_utf16 (p ++ x))) as Hadd.
  { rewrite <-PointUtf16_add_assign_add. exact (td_assign (D:=PointUtf16) p x Hlen). }
  split; [|done]. rewrite Str_len_app in Hlen.
  destruct (PointUtf16_add_sub (extent_utf16 p) (extent_utf16 x) (extent_utf16 (p ++ x))) as (_ & _ & ?);
    [apply extent_utf16_ok; lia..|done|done].
Qed.

Lemma offset_utf16_sum p x :
  OffsetUtf16.add (OffsetUtf16.mk (Str.len_utf16 p)) (OffsetUtf16.mk (Str.len_utf16 x)) = OffsetUtf16.mk (Str.len_utf16 (p ++ x)).
Proof. unfold OffsetUtf16.add. simpl. by rewrite Str_len_utf16_app. Qed.

(** ** The conversions at a character boundary *)

Section boundary.
Context r a b (Hr : holds r (a ++ b)) (Hlen : (N.of_nat (Str.len (a ++ b)) <= u32_max)%N).

Lemma prefix_le p x : a = p ++ x → (N.of_nat (Str.len (p ++ x)) <= u32_max)%N.
Proof. intros <-. rewrite Str_len_app in Hlen. lia. Qed.

(** The guards of the conversions: the end of the text. *)
Lemma offset_guard : (TextSummary.len (Rope.summary r) <=? Str.len a) = match b with [] => true | _ => false end.
Proof.
  rewrite (holds_summary _ _ Hr). simpl. rewrite Str_len_app. destruct b as [|c b'].
  - apply Nat.leb_le. change (Str.len []) with 0. lia.
  - apply Nat.leb_gt. rewrite Str_len_cons. pose proof (len_utf8_pos c). lia.
Qed.

Lemma measure_guard {D} `{TextDimensionLaws D, !Ord D} (key : D → N) {Hkey : PositionKey D key} :
  is_ge (cmp (measure a : D) (measure (a ++ b))) = match b with [] => true | _ => false end.
Proof. destruct (cmp_prefix key a b Hlen) as [-> _]. by destruct b. Qed.

(** What the end of the text gives. *)
Lemma at_end : b = [] → Rope.summary r = summary_of a.
Proof. intros ->. by rewrite (holds_summary _ _ Hr), app_nil_r. Qed.

(** Opens a conversion at the chunk that holds the boundary; [m1] and [m2] name
    the measures of the position and of the result. *)
Ltac at_end_of_text := destruct (decide (b = [])) as [Hb|Hb]; [rewrite (at_end Hb); rewrite Hb; done|];
  replace (match b with [] => true | _ => false end) with false by (by destruct b).
Ltac at_chunk m1 m2 p Ha Hfind := rewrite (m1 a) in Hfind; rewrite Hfind; rewrite Ha; cbn [fst snd];
  rewrite (m1 p), (m2 p), as_slice_chunk_of.

Lemma offset_to_point_at : Rope.offset_to_point r (Str.len a) = Some (extent a).
Proof.
  unfold Rope.offset_to_point. rewrite offset_guard. at_end_of_text.
  destruct (find_pair (D:=nat) (D2:=Point) N.of_nat r a b Hr Hlen Hb) as (p & x & y & e & Ha & Hok & Hl & Hfind).
  at_chunk measure_offset measure_point p Ha Hfind. rewrite offset_overshoot. cbn [mbind option_bind].
  rewrite offset_to_point_app by done. cbn [mbind option_bind]. by apply point_sums, prefix_le.
Qed.

Lemma offset_to_point_utf16_at : Rope.offset_to_point_utf16 r (Str.len a) = Some (extent_utf16 a).
Proof.
  unfold Rope.offset_to_point_utf16. rewrite offset_guard. at_end_of_text.
  destruct (find_pair (D:=nat) (D2:=PointUtf16) N.of_nat r a b Hr Hlen Hb) as (p & x & y & e & Ha & Hok & Hl & Hfind).
  at_chunk measure_offset measure_point_utf16 p Ha Hfind. rewrite offset_overshoot. cbn [mbind option_bind].
  rewrite offset_to_point_utf16_app by done. cbn [mbind option_bind]. by apply point_utf16_sums, prefix_le.
Qed.

Lemma offset_to_offset_utf16_at : Rope.offset_to_offset_utf16 r (Str.len a) = Some (OffsetUtf16.mk (Str.len_utf16 a)).
Proof.
  unfold Rope.offset_to_offset_utf16. rewrite offset_guard. at_end_of_text.
  destruct (find_pair (D:=nat) (D2:=OffsetUtf16) N.of_nat r a b Hr Hlen Hb) as (p & x & y & e & Ha & Hok & Hl & Hfind).
  at_chunk measure_offset measure_offset_utf16 p Ha Hfind. rewrite offset_overshoot. cbn [mbind option_bind].
  by rewrite offset_to_offset_utf16_app, offset_utf16_sum.
Qed.

Lemma guard_of {D} `{TextDimensionLaws D, !Ord D} (key : D → N) {Hkey : PositionKey D key} (d : D) :
  d = measure (a ++ b) → is_ge (cmp (measure a) d) = match b with [] => true | _ => false end.
Proof. intros ->. by apply measure_guard with key. Qed.

Lemma whole_lines : lines (Rope.summary r) = measure (D:=Point) (a ++ b).
Proof. by rewrite (holds_summary _ _ Hr). Qed.
Lemma whole_lines_utf16 : TextSummary.lines_utf16 (Rope.summary r) = measure (D:=PointUtf16) (a ++ b).
Proof. by rewrite (holds_summary _ _ Hr). Qed.
Lemma whole_len_utf16 : len_utf16 (Rope.summary r) = measure (D:=OffsetUtf16) (a ++ b).
Proof. by rewrite (holds_summary _ _ Hr). Qed.

Lemma offset_utf16_to_offset_at : Rope.offset_utf16_to_offset r (OffsetUtf16.mk (Str.len_utf16 a)) = Some (Str.len a).
Proof.
  unfold Rope.offset_utf16_to_offset. rewrite <-(measure_offset_utf16 a), (guard_of _ _ whole_len_utf16). at_end_of_text.
  destruct (find_pair (D:=OffsetUtf16) (D2:=nat) _ r a b Hr Hlen Hb) as (p & x & y & e & Ha & Hok & Hl & Hfind).
  rewrite (measure_offset_utf16 a). at_chunk measure_offset_utf16 measure_offset p Ha Hfind.
  rewrite offset_utf16_overshoot. cbn [mbind option_bind].
  rewrite offset_utf16_to_offset_app by done. cbn [mbind option_bind]. by rewrite Str_len_app.
Qed.

Lemma point_to_offset_at : Rope.point_to_offset r (extent a) = Some (Str.len a).
Proof.
  unfold Rope.point_to_offset. rewrite <-(measure_point a), (guard_of _ _ whole_lines). at_end_of_text.
  destruct (find_pair (D:=Point) (D2:=nat) _ r a b Hr Hlen Hb) as (p & x & y & e & Ha & Hok & Hl & Hfind).
  rewrite (measure_point a). at_chunk measure_point measure_offset p Ha Hfind.
  rewrite (proj1 (point_sums p x (prefix_le p x Ha))). cbn [mbind option_bind].
  rewrite point_to_offset_app by done. cbn [mbind option_bind]. by rewrite Str_len_app.
Qed.

Lemma point_to_point_utf16_at : Rope.point_to_point_utf16 r (extent a) = Some (extent_utf16 a).
Proof.
  unfold Rope.point_to_point_utf16. rewrite <-(measure_point a), (guard_of _ _ whole_lines). at_end_of_text.
  destruct (find_pair (D:=Point) (D2:=PointUtf16) _ r a b Hr Hlen Hb) as (p & x & y & e & Ha & Hok & Hl & Hfind).
  rewrite (measure_point a). at_chunk measure_point measure_point_utf16 p Ha Hfind.
  rewrite (proj1 (point_sums p x (prefix_le p x Ha))). cbn [mbind option_bind].
  rewrite point_to_point_utf16_prefix by done. cbn [mbind option_bind]. by apply point_utf16_sums, prefix_le.
Qed.

Lemma point_utf16_to_offset_at clip : Rope.point_utf16_to_offset_impl r (extent_utf16 a) clip = Some (Str.len a).
Proof.
  unfold Rope.point_utf16_to_offset_impl. rewrite <-(measure_point_utf16 a), (guard_of _ _ whole_lines_utf16). at_end_of_text.
  destruct (find_pair (D:=PointUtf16) (D2:=nat) _ r a b Hr Hlen Hb) as (p & x & y & e & Ha & Hok & Hl & Hfind).
  rewrite (measure_point_utf16 a). at_chunk measure_point_utf16 measure_offset p Ha Hfind.
  rewrite (proj1 (point_utf16_sums p x (prefix_le p x Ha))). cbn [mbind option_bind].
  rewrite point_utf16_to_offset_prefix by done. cbn [mbind option_bind]. by rewrite Str_len_app.
Qed.

Lemma unclipped_to_point_at : Rope.unclipped_point_utf16_to_point r (Unclipped.mk (extent_utf16 a)) = Some (extent a).
Proof.
  unfold Rope.unclipped_point_utf16_to_point. cbn [Unclipped.inner].
  rewrite <-(measure_point_utf16 a), (guard_of _ _ whole_lines_utf16). at_end_of_text.
  destruct (find_pair (D:=PointUtf16) (D2:=Point) _ r a b Hr Hlen Hb) as (p & x & y & e & Ha & Hok & Hl & Hfind).
  rewrite (measure_point_utf16 a). at_chunk measure_point_utf16 measure_point p Ha Hfind.
  rewrite (proj1 (point_utf16_sums p x (prefix_le p x Ha))). cbn [mbind option_bind].
  rewrite unclipped_prefix by done. cbn [mbind option_bind]. by apply point_sums, prefix_le.
Qed.

(** With a cursor. *)
Ltac at_cursor m1 m2 p Ha Hseek Hstart Hitem := rewrite (m1 a) in Hseek; rewrite Hseek; cbn [mbind option_bind];
  rewrite Hstart; cbn [fst snd]; rewrite (m1 p), (m2 p); rewrite Ha.

Lemma point_to_offset_utf16_at : walkable r → Rope.point_to_offset_utf16 r (extent a) = Some (OffsetUtf16.mk (Str.len_utf16 a)).
Proof.
  intros Hwalk. unfold Rope.point_to_offset_utf16. rewrite <-(measure_point a), (guard_of _ _ whole_lines). at_end_of_text.
  destruct (seek_pair (D:=Point) (D2:=OffsetUtf16) _ r a b Hr Hlen Hb Hwalk)
    as (p & x & y & found & c & Ha & Hok & Hl & Hseek & Hstart & Hitem).
  rewrite (measure_point a). at_cursor measure_point measure_offset_utf16 p Ha Hseek Hstart Hitem.
  rewrite (proj1 (point_sums p x (prefix_le p x Ha))). cbn [mbind option_bind]. rewrite Hitem. cbn [mbind option_bind].
  rewrite as_slice_chunk_of, point_to_offset_utf16_prefix by done. cbn [mbind option_bind]. by rewrite offset_utf16_sum.
Qed.

Lemma point_utf16_to_point_at : walkable r → Rope.point_utf16_to_point r (extent_utf16 a) = Some (extent a).
Proof.
  intros Hwalk. unfold Rope.point_utf16_to_point.
  rewrite <-(measure_point_utf16 a), (guard_of _ _ whole_lines_utf16). at_end_of_text.
  destruct (seek_pair (D:=PointUtf16) (D2:=Point) _ r a b Hr Hlen Hb Hwalk)
    as (p & x & y & found & c & Ha & Hok & Hl & Hseek & Hstart & Hitem).
  rewrite (measure_point_utf16 a). at_cursor measure_point_utf16 measure_point p Ha Hseek Hstart Hitem.
  rewrite (proj1 (point_utf16_sums p x (prefix_le p x Ha))). cbn [mbind option_bind]. rewrite Hitem. cbn [mbind option_bind].
  rewrite as_slice_chunk_of, point_utf16_to_offset_prefix by done. cbn [mbind option_bind].
  rewrite offset_to_point_app by done. cbn [mbind option_bind]. by apply point_sums, prefix_le.
Qed.

Lemma point_utf16_to_offset_utf16_at clip : walkable r →
  Rope.point_utf16_to_offset_utf16_impl r (extent_utf16 a) clip = Some (OffsetUtf16.mk (Str.len_utf16 a)).
Proof.
  intros Hwalk. unfold Rope.point_utf16_to_offset_utf16_impl.
  rewrite <-(measure_point_utf16 a), (guard_of _ _ whole_lines_utf16). at_end_of_text.
  destruct (seek_pair (D:=PointUtf16) (D2:=OffsetUtf16) _ r a b Hr Hlen Hb Hwalk)
    as (p & x & y & found & c & Ha & Hok & Hl & Hseek & Hstart & Hitem).
  rewrite (measure_point_utf16 a). at_cursor measure_point_utf16 measure_offset_utf16 p Ha Hseek Hstart Hitem.
  rewrite (proj1 (point_utf16_sums p x (prefix_le p x Ha))). cbn [mbind option_bind]. rewrite Hitem. cbn [mbind option_bind].
  rewrite as_slice_chunk_of, point_utf16_to_offset_prefix by done. cbn [mbind option_bind].
  by rewrite offset_to_offset_utf16_app, offset_utf16_sum.
Qed.
End boundary.

(** ** Boundaries *)

Section inside.
Context (p q z : str) (o : nat) (Hlow : Str.len p <= o) (Hhigh : o <= Str.len (p ++ q)).

Lemma is_char_boundary_inside : str_ok (p ++ q ++ z) →
  Str.is_char_boundary (p ++ q ++ z) o = Str.is_char_boundary q (o - Str.len p).
Proof.
  intros Hok. pose proof Hok as [_ [Hq _]%Forall_app]%Forall_app. apply Bool.eq_true_iff_eq.
  rewrite !Str_is_char_boundary_iff by done. split.
  - intros (a & b & Hab & ->). symmetry in Hab; apply str_cut in Hab as (x & -> & Hx); [|done].
    symmetry in Hx. rewrite !Str_len_app in Hhigh. apply app_eq_inv in Hx as [(k & Hx & Hz)|(k & Hq' & Hb)].
    + rewrite Hx, Str_len_app in Hhigh. assert (k = []) as -> by (apply Str_len_zero; lia). rewrite app_nil_r in Hx.
      exists x, []. rewrite app_nil_r, Str_len_app. split; [done|lia].
    + exists x, k. rewrite Str_len_app. split; [done|lia].
  - intros (x & y & -> & Hx). exists (p ++ x), (y ++ z). rewrite <-!app_assoc, Str_len_app. split; [done|lia].
Qed.

Lemma floor_inside : Str.floor_char_boundary (p ++ q ++ z) o = Str.len p + Str.floor_char_boundary q (o - Str.len p).
Proof.
  rewrite Str_len_app in Hhigh. revert o Hlow Hhigh. induction p as [|c p' IH]; intros o Hlow Hhigh.
  - change (Str.len []) with 0 in *. rewrite Nat.sub_0_r. cbn [app Nat.add] in *. clear Hlow. revert o Hhigh.
    induction q as [|d q' IHq]; intros o Hhigh; cbn [app].
    + change (Str.len []) with 0 in Hhigh. assert (o = 0) as -> by lia. destruct z as [|d z']; [done|]. simpl.
      pose proof (len_utf8_pos d). by destruct (Nat.leb_spec (len_utf8 d) 0); [lia|].
    + rewrite Str_len_cons in Hhigh. cbn [Str.floor_char_boundary]. destruct (Nat.leb_spec (len_utf8 d) o); [|done].
      by rewrite IHq by lia.
  - rewrite Str_len_cons in *. cbn [app Str.floor_char_boundary]. destruct (Nat.leb_spec (len_utf8 c) o); [|lia].
    rewrite IH by lia. replace (o - len_utf8 c - Str.len p') with (o - (len_utf8 c + Str.len p')) by lia. lia.
Qed.

Lemma ceil_inside : Str.ceil_char_boundary (p ++ q ++ z) o = Str.len p + Str.ceil_char_boundary q (o - Str.len p).
Proof.
  rewrite Str_len_app in Hhigh. revert o Hlow Hhigh. induction p as [|c p' IH]; intros o Hlow Hhigh.
  - change (Str.len []) with 0 in *. rewrite Nat.sub_0_r. cbn [app Nat.add] in *. clear Hlow. revert o Hhigh.
    induction q as [|d q' IHq]; intros [|o] Hhigh; cbn [app]; try (by destruct z).
    + change (Str.len []) with 0 in Hhigh. lia.
    + rewrite Str_len_cons in Hhigh. cbn [Str.ceil_char_boundary]. pose proof (len_utf8_pos d). by rewrite IHq by lia.
  - rewrite Str_len_cons in *. pose proof (len_utf8_pos c). destruct o as [|o]; [lia|]. cbn [app Str.ceil_char_boundary].
    rewrite IH by lia. replace (S o - len_utf8 c - Str.len p') with (S o - (len_utf8 c + Str.len p')) by lia. lia.
Qed.
End inside.

Lemma ceil_beyond s o : Str.len s <= o → Str.ceil_char_boundary s o = Str.len s.
Proof.
  revert o. induction s as [|c s IH]; intros [|o]; [done|done| |].
  - rewrite Str_len_cons. pose proof (len_utf8_pos c). lia.
  - rewrite Str_len_cons. intros Hle. cbn [Str.ceil_char_boundary]. by rewrite IH by lia.
Qed.

Section offsets.
Context r s (Hr : holds r s) (Hlen : (N.of_nat (Str.len s) <= u32_max)%N).

(** The chunk a byte offset falls into. *)
Lemma find_offset o :
  (Str.len s < o ∨ s = [] ∧ o = 0) ∧ (∃ e, SumTree.find (D:=nat) (chunks r) (seek_ord o) Left = (Str.len s, e, None)) ∨
  ∃ p q z e, s = p ++ q ++ z ∧ chunk_text_ok q ∧ Str.len p <= o <= Str.len (p ++ q) ∧
    SumTree.find (D:=nat) (chunks r) (seek_ord o) Left = (Str.len p, e, Some (chunk_of q)).
Proof.
  destruct Hr as (texts & Htree & Hs). rewrite Hs in Hlen |- *.
  destruct (rope_find (D:=nat) N.of_nat o (seek_ord o) (λ _, eq_refl) Left (chunks r) texts Htree Hlen)
    as (ps & qs & e & -> & [Hpass Hstop] & Hfind).
  rewrite (measure_offset (concat ps)) in Hfind. rewrite Hfind. clear Hfind.
  rewrite (target_stops N.of_nat o (seek_ord o) (λ _, eq_refl)) in Hpass.
  change (ps ≠ [] → (N.of_nat o <=? N.of_nat (Str.len (concat ps)))%N = false) in Hpass.
  destruct qs as [|q qs].
  - left. rewrite app_nil_r in *. split; [|by exists e]. destruct (decide (ps = [])) as [->|Hne].
    + destruct o; [by right|left; change (Str.len (concat [])) with 0; lia].
    + left. specialize (Hpass Hne). apply N.leb_gt in Hpass. lia.
  - right. rewrite (target_stops N.of_nat o (seek_ord o) (λ _, eq_refl)) in Hstop.
    change ((N.of_nat o <=? N.of_nat (Str.len (concat ps ++ q)))%N = true) in Hstop. apply N.leb_le in Hstop.
    exists (concat ps), q, (concat qs), e. rewrite concat_app. destruct Htree as (_ & _ & [_ [? _]%Forall_cons]%Forall_app).
    split_and!; [done..| |lia|done]. destruct (decide (ps = [])) as [->|Hne]; [change (Str.len (concat [])) with 0; lia|].
    specialize (Hpass Hne). apply N.leb_gt in Hpass. lia.
Qed.

Lemma offset_sub p o : Str.len p <= o → checked_sub_nat o (Str.len p) = Some (o - Str.len p).
Proof. intros Hle. unfold checked_sub_nat. by rewrite rassert_true by (by apply Nat.leb_le). Qed.

Lemma not_boundary_beyond o : Str.len s < o → Str.is_char_boundary s o = false.
Proof.
  intros Hlt. destruct (Str.is_char_boundary s o) eqn:Hb; [|done]. apply Str_is_char_boundary_le in Hb. lia.
Qed.

Lemma tree_empty : SumTree.is_empty (chunks r) = match s with [] => true | _ => false end.
Proof.
  destruct Hr as (texts & Htree & Hs). pose proof (tree_holds_empty _ _ Htree) as He.
  destruct texts as [|t texts]; [rewrite Hs; simpl; by apply He|].
  destruct (SumTree.is_empty (chunks r)); [by pose proof (proj1 He eq_refl)|]. rewrite Hs.
  destruct Htree as (_ & _ & [(_ & Hne & _) _]%Forall_cons). by destruct t.
Qed.

Lemma chunk_offset_small p q o : Str.len q <= 128 → o <= Str.len (p ++ q) → (N.of_nat (o - Str.len p) <= u32_max)%N.
Proof. rewrite Str_len_app. unfold u32_max. lia. Qed.

Lemma chunk_boundary q o : chunk_text_ok q → (N.of_nat o <= u32_max)%N →
  Chunk.is_char_boundary (chunk_of q) o = Str.is_char_boundary q o.
Proof. intros (Hok & _ & Hl) Ho. exact (is_char_boundary_spec q o Hok Hl Ho). Qed.

Lemma rope_is_char_boundary o : Rope.is_char_boundary r o = Some (Str.is_char_boundary s o).
Proof.
  unfold Rope.is_char_boundary. rewrite tree_empty. destruct (decide (s = [])) as [Hs|Hs].
  { rewrite Hs. f_equal. by destruct o. }
  replace (match s with [] => true | _ => false end) with false by (by destruct s).
  destruct (find_offset o) as [([Ho|[? _]] & e & ->)|(p & q & z & e & Hpq & Hq & [Hlow Hhigh] & ->)]; [|done|].
  - rewrite offset_sub by lia. cbn [mbind option_bind]. by rewrite not_boundary_beyond.
  - rewrite offset_sub by done. cbn [mbind option_bind].
    rewrite chunk_boundary by (done || (apply (chunk_offset_small p q); [apply Hq|done])).
    pose proof (holds_str_ok r s Hr) as Hok. rewrite Hpq in Hok. by rewrite Hpq, (is_char_boundary_inside p q z o).
Qed.

Lemma rope_assert_char_boundary panic o :
  Rope.assert_char_boundary panic r o =
    if Str.is_char_boundary s o then Some true else if o <=? Str.len s then None else if panic then None else Some false.
Proof.
  unfold Rope.assert_char_boundary. rewrite tree_empty. destruct (decide (s = [] ∧ o = 0)) as [[Hs ->]|Hne].
  { by rewrite Hs. }
  replace ((match s with [] => true | _ => false end) && (o =? 0)) with false
    by (destruct s; [destruct o; [by destruct Hne|done]|done]).
  destruct (find_offset o) as [([Ho|?] & e & ->)|(p & q & z & e & Hpq & Hq & [Hlow Hhigh] & ->)]; [|done|].
  - rewrite not_boundary_beyond by done. by destruct (Nat.leb_spec o (Str.len s)); [lia|].
  - rewrite offset_sub by done. cbn [mbind option_bind]. unfold Chunk.assert_char_boundary.
    rewrite chunk_boundary by (done || (apply (chunk_offset_small p q); [apply Hq|done])).
    pose proof (holds_str_ok r s Hr) as Hok. rewrite Hpq in Hok |- *. rewrite (is_char_boundary_inside p q z o) by done.
    rewrite !Str_len_app in *. by destruct (Nat.leb_spec o (Str.len p + (Str.len q + Str.len z))); [|lia].
Qed.

Lemma rope_floor_char_boundary o : Rope.floor_char_boundary r o = Some (Str.floor_char_boundary s o).
Proof.
  unfold Rope.floor_char_boundary. rewrite (holds_len r s Hr).
  destruct (Nat.leb_spec (Str.len s) o) as [Hle|Hlt]; [by rewrite floor_char_boundary_ge|].
  destruct (find_offset o) as [([Ho|[-> ->]] & e & ->)|(p & q & z & e & Hpq & Hq & [Hlow Hhigh] & ->)]; [lia|by vm_compute in Hlt; lia|].
  rewrite offset_sub by done. cbn [mbind option_bind chunk_of chunk_text]. by rewrite Hpq, (floor_inside p q z o).
Qed.

Lemma rope_ceil_char_boundary o : Rope.ceil_char_boundary r o = Some (Str.ceil_char_boundary s o).
Proof.
  unfold Rope.ceil_char_boundary. rewrite (holds_len r s Hr).
  destruct (Nat.ltb_spec (Str.len s) o) as [Hlt|Hle]; [by rewrite ceil_beyond by lia|].
  destruct (find_offset o) as [([Ho|[Hs ->]] & e & ->)|(p & q & z & e & Hpq & Hq & [Hlow Hhigh] & ->)]; [lia| |].
  - rewrite Hs. done.
  - rewrite offset_sub by done. cbn [mbind option_bind chunk_of chunk_text]. by rewrite Hpq, (ceil_inside p q z o).
Qed.
End offsets.

(** ** Properties *)

Lemma row_start_extent s k p line rest : row_at s k p line rest → extent p = Point.new (N.of_nat k) 0.
Proof.
  intros [_ [<- Hp] _ _]. unfold extent, Point.new. f_equal.
  destruct Hp as [->|(x & ->)]; [done|]. by rewrite last_line_snoc.
Qed.

(** C21. At every character boundary of a text the rope's conversions between byte
    offsets, UTF-16 offsets, points and UTF-16 points agree with the text before
    the boundary, whatever chunk it lies in; slicing whole rows gives the text
    between their starts. *)
Theorem rope_positions r a b (Hr : holds r (a ++ b)) (Hlen : (N.of_nat (Str.len (a ++ b)) <= u32_max)%N) :
  Rope.offset_to_point r (Str.len a) = Some (extent a) ∧
  Rope.offset_to_point_utf16 r (Str.len a) = Some (extent_utf16 a) ∧
  Rope.offset_to_offset_utf16 r (Str.len a) = Some (OffsetUtf16.mk (Str.len_utf16 a)) ∧
  Rope.point_to_point_utf16 r (extent a) = Some (extent_utf16 a) ∧
  Rope.unclipped_point_utf16_to_point r (Unclipped.mk (extent_utf16 a)) = Some (extent a) ∧
  (walkable r → Rope.point_to_offset_utf16 r (extent a) = Some (OffsetUtf16.mk (Str.len_utf16 a)) ∧
     Rope.point_utf16_to_offset_utf16 r (extent_utf16 a) = Some (OffsetUtf16.mk (Str.len_utf16 a)) ∧
     Rope.point_to_offset r (extent a) = Some (Str.len a) ∧ Rope.point_utf16_to_offset r (extent_utf16 a) = Some (Str.len a) ∧
     Rope.point_utf16_to_point r (extent_utf16 a) = Some (extent a) ∧
     Rope.offset_utf16_to_offset r (OffsetUtf16.mk (Str.len_utf16 a)) = Some (Str.len a)) ∧
  (∀ k k' p m line rest line' rest', row_at (a ++ b) k p line rest → row_at (a ++ b) k' (p ++ m) line' rest' → cuttable r →
     ∃ r', Rope.slice_rows r (N.of_nat k) (N.of_nat k') = Some r' ∧ holds r' m).
Proof.
  split; [by apply offset_to_point_at with b|]. split; [by apply offset_to_point_utf16_at with b|].
  split; [by apply offset_to_offset_utf16_at with b|]. split; [by apply point_to_point_utf16_at with b|].
  split; [by apply unclipped_to_point_at with b|]. split.
  { intros Hwalk. split; [by apply point_to_offset_utf16_at with b|]. split; [by apply point_utf16_to_offset_utf16_at with b|].
    unfold Rope.point_utf16_to_offset. by rewrite (point_to_offset_at r a b), (point_utf16_to_offset_at r a b),
      (point_utf16_to_point_at r a b), (offset_utf16_to_offset_at r a b) by done. }
  intros k k' p m line rest line' rest' Hrow Hrow' Hcut. unfold Rope.slice_rows.
  rewrite <-(row_start_extent _ _ _ _ _ Hrow), <-(row_start_extent _ _ _ _ _ Hrow').
  destruct Hrow as [Htext _ _ _], Hrow' as [Htext' _ _ _]. rewrite Htext in Hr, Hlen.
  rewrite (point_to_offset_at r p (line ++ rest)) by done. rewrite <-Htext, Htext' in Hr, Hlen. cbn [mbind option_bind].
  rewrite (point_to_offset_at r (p ++ m) (line' ++ rest')) by done. cbn [mbind option_bind].
  rewrite <-app_assoc in Hr, Hlen. by apply rope_slice_spec with (line' ++ rest').
Qed.

Lemma rope_positions_witness :
  let a := ([97; 233; 10]%N ++ replicate 100 98%N ++ [0x20AC; 10; 0x1F600]%N) in
  RopeExample.text = a ++ replicate 60 99%N ∧
  Rope.offset_to_point_utf16 RopeExample.rope 112 = Some (PointUtf16.mk 2 2).
Proof.
  intros a. split; [done|].
  exact (proj1 (proj2 (rope_positions RopeExample.rope a (replicate 60 99%N) RopeExample.rope_holds example_len))).
Defined.

(** The conversions of a rope are inverse to each other at every character
    boundary: byte offset and point, byte offset and UTF-16 offset, byte offset
    and UTF-16 point, point and UTF-16 point. *)
Theorem rope_positions_roundtrip r a b (Hr : holds r (a ++ b)) (Hlen : (N.of_nat (Str.len (a ++ b)) <= u32_max)%N)
    (Hwalk : walkable r) :
  (point ← Rope.offset_to_point r (Str.len a); Rope.point_to_offset r point) = Some (Str.len a) ∧
  (offset ← Rope.offset_to_offset_utf16 r (Str.len a); Rope.offset_utf16_to_offset r offset) = Some (Str.len a) ∧
  (point ← Rope.offset_to_point_utf16 r (Str.len a); Rope.point_utf16_to_offset r point) = Some (Str.len a) ∧
  (point ← Rope.point_to_point_utf16 r (extent a); Rope.point_utf16_to_point r point) = Some (extent a) ∧
  (offset ← Rope.offset_utf16_to_offset r (OffsetUtf16.mk (Str.len_utf16 a)); Rope.offset_to_offset_utf16 r offset) =
    Some (OffsetUtf16.mk (Str.len_utf16 a)) ∧
  (point ← Rope.point_utf16_to_point r (extent_utf16 a); Rope.point_to_point_utf16 r point) = Some (extent_utf16 a).
Proof.
  rewrite (offset_to_point_at r a b), (offset_to_offset_utf16_at r a b), (offset_to_point_utf16_at r a b),
    (point_to_point_utf16_at r a b), (offset_utf16_to_offset_at r a b), (point_utf16_to_point_at r a b) by done.
  cbn [mbind option_bind]. unfold Rope.point_utf16_to_offset.
  rewrite (point_to_offset_at r a b), (offset_utf16_to_offset_at r a b), (point_utf16_to_offset_at r a b),
    (point_utf16_to_point_at r a b), (offset_to_offset_utf16_at r a b), (point_to_point_utf16_at r a b) by done. done.
Qed.

Lemma rope_positions_roundtrip_witness :
  let a := ([97; 233; 10]%N ++ replicate 100 98%N ++ [0x20AC; 10; 0x1F600]%N) in
  RopeExample.text = a ++ replicate 60 99%N ∧
  (point ← Rope.offset_to_point RopeExample.rope 112; Rope.point_to_offset RopeExample.rope point) = Some 112.
Proof.
  intros a. split; [done|].
  exact (proj1 (rope_positions_roundtrip RopeExample.rope a (replicate 60 99%N) RopeExample.rope_holds example_len
    RopeExample.rope_walkable)).
Defined.

(** C35. A rope knows the character boundaries of its text: testing, rounding down
    and rounding up any byte offset give what the text gives, also for offsets
    beyond the end; asserting a boundary panics inside a character, and beyond
    the end only if it is asked to. *)
Theorem rope_boundaries r s (o : nat) (panic : bool) (Hr : holds r s) (Hlen : (N.of_nat (Str.len s) <= u32_max)%N) :
  Rope.is_char_boundary r o = Some (Str.is_char_boundary s o) ∧
  Rope.floor_char_boundary r o = Some (Str.floor_char_boundary s o) ∧
  Rope.ceil_char_boundary r o = Some (Str.ceil_char_boundary s o) ∧
  Rope.clip_offset r o Left = Some (Str.floor_char_boundary s o) ∧
  Rope.clip_offset r o Right = Some (Str.ceil_char_boundary s o) ∧
  Rope.assert_char_boundary panic r o =
    (if Str.is_char_boundary s o then Some true else if o <=? Str.len s then None else if panic then None else Some false).
Proof.
  unfold Rope.clip_offset. rewrite (rope_is_char_boundary r s), (rope_floor_char_boundary r s), (rope_ceil_char_boundary r s),
    (rope_assert_char_boundary r s) by done. done.
Qed.

Lemma rope_boundaries_witness :
  Rope.is_char_boundary RopeExample.rope 105 = Some false ∧ Rope.floor_char_boundary RopeExample.rope 105 = Some 104 ∧
  Rope.ceil_char_boundary RopeExample.rope 105 = Some 107.
Proof.
  destruct (rope_boundaries RopeExample.rope RopeExample.text 105 true RopeExample.rope_holds example_len)
    as (H1 & H2 & H3 & _). split; [exact H1|]. split; [exact H2|exact H3].
Defined.
