(* ===== verification/RopeClip.v ===== *)
(** * Clipping in a rope

    A position that is not in the text is moved into it.  The rope clips within
    the chunk the position falls into; the row the chunk sees is the part of the
    row of the text that lies in the chunk. *)

From S2P Require Import Prelude SumTree SumTreeFacts Seek Cursor CursorFacts CursorWalk Utf8 Points Lines BitSelect Chunk ChunkBits ChunkFacts ChunkPositions TextSummary RopeTree Rope RopeFacts RopeSeek RopeCut RopePositions.

Implicit Types (s t a b : str).

(** ** Rows *)

(** The row number and the text determine a row. *)
Lemma row_at_unique s k p line r p' line' r' : row_at s k p line r → row_at s k p' line' r' → p = p' ∧ line = line' ∧ r = r'.
Proof.
  assert (∀ k p w : str, (p ++ w = [] ∨ ∃ x, p ++ w = x ++ [NEWLINE]) → Lines.newlines w = 0 → w = []) as Hends.
  { intros _ q w [Hnil|(x & Hx)] Hw; [by apply app_eq_nil in Hnil as [_ ?]|].
    destruct w as [|c w _] using rev_ind; [done|]. rewrite app_assoc in Hx. apply app_inj_tail in Hx as [_ ->].
    rewrite newlines_snoc in Hw. unfold NEWLINE in Hw. simpl in Hw. lia. }
  assert (∀ w r0 r1 : str, (r0 = [] ∨ ∃ x, r0 = NEWLINE :: x) → r0 = w ++ r1 → Lines.newlines w = 0 → w = []) as Hstarts.
  { intros [|c w] r0 r1 [->|(x & ->)] Heq Hw; try done. injection Heq as <- _. rewrite newlines_cons in Hw. simpl in Hw. lia. }
  intros [Hs [Hk Hp] Hl Hr] [Hs' [Hk' Hp'] Hl' Hr'].
  assert (p = p' ∧ line ++ r = line' ++ r') as [-> Hrest].
  { rewrite Hs in Hs'. apply app_eq_inv in Hs' as [(w & -> & Hw)|(w & -> & Hw)]; rewrite newlines_app in *.
    - assert (w = []) as -> by (apply (Hends [] p'); [done|lia]). by rewrite !app_nil_r.
    - assert (w = []) as -> by (apply (Hends [] p); [done|lia]). by rewrite !app_nil_r. }
  split; [done|]. apply app_eq_inv in Hrest as [(w & -> & Hw)|(w & -> & Hw)]; rewrite newlines_app in *.
  - assert (w = []) as -> by (apply (Hstarts w r' r); [done..|lia]). by rewrite !app_nil_r.
  - assert (w = []) as -> by (apply (Hstarts w r r'); [done..|lia]). by rewrite !app_nil_r.
Qed.

(** Row [j] of the middle of a text, completed at both ends. *)
Definition row_before (p : str) (j : nat) : str := if j =? 0 then last_line p else [].
Definition row_after (r z : str) : str := match r with [] => first_line z | _ => [] end.

Lemma row_completed (p q z : str) j P l R : row_at q j P l R →
  ∃ P' R', row_at (p ++ q ++ z) (Lines.newlines p + j) P' (row_before p j ++ l ++ row_after R z) R'.
Proof.
  intros [-> [Hj HP] Hl HR].
  assert (∃ P', p ++ P = P' ++ row_before p j ∧ Lines.newlines P' = Lines.newlines p + j ∧
    (P' = [] ∨ ∃ x, P' = x ++ [NEWLINE])) as (P' & HpP & HP' & Hstart).
  { unfold row_before. destruct (Nat.eqb_spec j 0) as [->|Hne].
    - assert (P = []) as ->.
      { destruct HP as [|(x & ->)]; [done|]. rewrite newlines_snoc in Hj. simpl in Hj. lia. }
      destruct (last_line_split p) as (p0 & Hp & Hn & Hnl). exists p0. rewrite app_nil_r. split; [done|]. split; [lia|done].
    - exists (p ++ P). rewrite app_nil_r, newlines_app. split; [done|]. split; [lia|].
      destruct HP as [->|(x & ->)]; [change (Lines.newlines []) with 0 in Hj; lia|]. right. exists (p ++ x). by rewrite app_assoc. }
  assert (∃ R', R ++ z = row_after R z ++ R' ∧ Lines.newlines (row_after R z) = 0 ∧ (R' = [] ∨ ∃ x, R' = NEWLINE :: x)) as (R' & HRz & Hnl & Hend).
  { unfold row_after. destruct HR as [->|(x & ->)]; [|exists ((NEWLINE :: x) ++ z); split; [done|]; split; [done|right; by exists (x ++ z)]].
    destruct (first_line_split z) as (R' & Hz & HR'). exists R'. split; [done|]. split; [apply newlines_first_line|done]. }
  exists P', R'. split; [|by split| |done].
  - rewrite <-!app_assoc, HRz. rewrite (app_assoc p P), HpP. by rewrite <-!app_assoc.
  - rewrite !newlines_app, Hl, Hnl. unfold row_before. destruct (j =? 0); [|done]. by rewrite newlines_last_line.
Qed.

(** ** Points *)

Lemma pack_ltb (r c r' c' : N) : (c <= u32_max)%N → (c' <= u32_max)%N →
  (pack r c <? pack r' c')%N = true ↔ (r < r' ∨ r = r' ∧ c < c')%N.
Proof.
  intros Hc Hc'. unfold N.ltb, pack. rewrite pack_compare by done.
  destruct (N.compare_spec r r') as [->| |]; simpl; [destruct (N.compare_spec c c') as [->| |]|..]; split; try done; lia.
Qed.

Section points.
Context (p : str) (k : nat) (column : N) (Hrow : Lines.newlines p <= k) (Hk : (N.of_nat k <= u32_max)%N).
Context (Hp : (N.of_nat (Str.len p) <= u32_max)%N) (Hcolumn : (column <= u32_max)%N).

(** The point relative to the start of the chunk, and back. *)
Lemma point_relative : (k = Lines.newlines p → (N.of_nat (Str.len (last_line p)) <= column)%N) →
  Point.sub (Point.mk (N.of_nat k) column) (extent p) =
    Some (Point.mk (N.of_nat (k - Lines.newlines p)) (column - N.of_nat (Str.len (row_before p (k - Lines.newlines p))))) .
Proof.
  intros Hcol. pose proof (line_bounds p). unfold Point.sub. 
  assert (Point.leb (extent p) (Point.mk (N.of_nat k) column) = true) as ->.
  { apply Point_leb_lex; [split; simpl; lia|split; simpl; lia|]. simpl. lia. }
  cbn [rassert mbind option_bind Point.row Point.column extent]. unfold row_before.
  destruct (N.eqb_spec (N.of_nat k) (N.of_nat (Lines.newlines p))) as [Heq|Hne].
  - rewrite checked_subN_Some by (apply Hcol; lia). cbn [mbind option_bind].
    replace (k - Lines.newlines p) with 0 by lia. done.
  - rewrite checked_subN_Some by lia. cbn [mbind option_bind]. destruct (Nat.eqb_spec (k - Lines.newlines p) 0); [lia|].
    change (Str.len []) with 0. unfold Point.new. do 2 f_equal; lia.
Qed.

Lemma point_absolute (c : nat) : (N.of_nat (Str.len (row_before p (k - Lines.newlines p)) + c) <= u32_max)%N →
  Point.add (extent p) (Point.mk (N.of_nat (k - Lines.newlines p)) (N.of_nat c)) =
    Some (Point.mk (N.of_nat k) (N.of_nat (Str.len (row_before p (k - Lines.newlines p)) + c))).
Proof.
  clear Hcolumn column Hp. unfold Point.add, row_before. cbn [Point.row Point.column extent]. rewrite N_eqb_of_nat.
  destruct (Nat.eqb_spec (k - Lines.newlines p) 0) as [H0|H0]; intros Hc.
  - rewrite checked_add_Some by lia. cbn [mbind option_bind]. unfold Point.new. do 2 f_equal; lia.
  - change (Str.len []) with 0. rewrite checked_add_Some by lia. cbn [mbind option_bind]. unfold Point.new. do 2 f_equal; lia.
Qed.

Lemma point_utf16_relative : (k = Lines.newlines p → (N.of_nat (Str.len_utf16 (last_line p)) <= column)%N) →
  PointUtf16.sub (PointUtf16.mk (N.of_nat k) column) (extent_utf16 p) =
    Some (PointUtf16.mk (N.of_nat (k - Lines.newlines p)) (column - N.of_nat (Str.len_utf16 (row_before p (k - Lines.newlines p))))) .
Proof.
  intros Hcol. pose proof (line_bounds p). unfold PointUtf16.sub. 
  assert (PointUtf16.leb (extent_utf16 p) (PointUtf16.mk (N.of_nat k) column) = true) as ->.
  { apply PointUtf16_leb_lex; [split; simpl; lia|split; simpl; lia|]. simpl. lia. }
  cbn [rassert mbind option_bind PointUtf16.row PointUtf16.column extent_utf16]. unfold row_before.
  destruct (N.eqb_spec (N.of_nat k) (N.of_nat (Lines.newlines p))) as [Heq|Hne].
  - rewrite checked_subN_Some by (apply Hcol; lia). cbn [mbind option_bind].
    replace (k - Lines.newlines p) with 0 by lia. done.
  - rewrite checked_subN_Some by lia. cbn [mbind option_bind]. destruct (Nat.eqb_spec (k - Lines.newlines p) 0); [lia|].
    change (Str.len_utf16 []) with 0. unfold PointUtf16.new. do 2 f_equal; lia.
Qed.

Lemma point_utf16_absolute (c : nat) : (N.of_nat (Str.len_utf16 (row_before p (k - Lines.newlines p)) + c) <= u32_max)%N →
  PointUtf16.add (extent_utf16 p) (PointUtf16.mk (N.of_nat (k - Lines.newlines p)) (N.of_nat c)) =
    Some (PointUtf16.mk (N.of_nat k) (N.of_nat (Str.len_utf16 (row_before p (k - Lines.newlines p)) + c))).
Proof.
  clear Hcolumn column Hp. unfold PointUtf16.add, row_before. cbn [PointUtf16.row PointUtf16.column extent_utf16]. rewrite N_eqb_of_nat.
  destruct (Nat.eqb_spec (k - Lines.newlines p) 0) as [H0|H0]; intros Hc.
  - rewrite checked_add_Some by lia. cbn [mbind option_bind]. unfold PointUtf16.new. do 2 f_equal; lia.
  - change (Str.len_utf16 []) with 0. rewrite checked_add_Some by lia. cbn [mbind option_bind]. unfold PointUtf16.new. do 2 f_equal; lia.
Qed.
End points.

(** The last row. *)
Lemma last_row s : ∃ p, row_at s (Lines.newlines s) p (last_line s) [].
Proof.
  destruct (last_line_split s) as (p & Hs & Hn & Hnl). exists p. split; [by rewrite app_nil_r|by split|apply newlines_last_line|by left].
Qed.

Lemma row_number s k p line r : row_at s k p line r → k <= Lines.newlines s.
Proof. intros [-> [<- _] _ _]. rewrite newlines_app. lia. Qed.

Lemma row_len s k p line r : row_at s k p line r → Str.len line <= Str.len s.
Proof. intros [-> _ _ _]. rewrite !Str_len_app. lia. Qed.

(** The row of a chunk [q] that a point of the text falls into: the row [line] of
    the text, cut off at the ends of the chunk; unless the chunk holds the end of
    the row, the point is in front of the cut. *)
Record row_in_chunk (p q z : str) (k : nat) (line l : str) : Prop := {
  chunk_row : ∃ P R, row_at q (k - Lines.newlines p) P l R;
  whole_row : ∃ v, line = row_before p (k - Lines.newlines p) ++ l ++ v ∧
    (v ≠ [] → k = Lines.newlines (p ++ q) ∧ last_line (p ++ q) = row_before p (k - Lines.newlines p) ++ l);
}.

Lemma row_falls_in_chunk (p q z : str) k P line R : row_at (p ++ q ++ z) k P line R →
  Lines.newlines p <= k <= Lines.newlines (p ++ q) → ∃ l, row_in_chunk p q z k line l.
Proof.
  intros Hrow [Hlow Hhigh]. rewrite newlines_app in Hhigh.
  destruct (row_exists q (k - Lines.newlines p)) as (P' & l & R' & Hl); [lia|]. exists l. split; [eauto|].
  destruct (row_completed p q z _ _ _ _ Hl) as (P0 & R0 & Hwhole).
  replace (Lines.newlines p + (k - Lines.newlines p)) with k in Hwhole by lia.
  destruct (row_at_unique _ _ _ _ _ _ _ _ Hrow Hwhole) as (_ & -> & _). eexists. split; [done|]. intros Hv.
  assert (R' = []) as -> by (unfold row_after in Hv; by destruct R').
  assert (k = Lines.newlines (p ++ q)) as Hk.
  { rewrite newlines_app. destruct Hl as [-> [Hj _] H0 _]. rewrite !newlines_app, H0, Hj. change (Lines.newlines []) with 0. lia. }
  split; [done|].
  destruct (row_completed p q [] _ _ _ _ Hl) as (P1 & R1 & Hcut). replace (Lines.newlines p + (k - Lines.newlines p)) with k in Hcut by lia.
  destruct (last_row (p ++ q)) as (P2 & Hlast). rewrite <-Hk in Hlast. rewrite app_nil_r in Hcut.
  destruct (row_at_unique _ _ _ _ _ _ _ _ Hlast Hcut) as (_ & -> & _). by rewrite app_nil_r.
Qed.

(** ** UTF-16 *)

(** The nearest position in the middle of a text is the nearest one in the text. *)
Lemma nearest_completed (u l v : str) bias (t c : nat) : Str.len_utf16 u <= t → t < Str.len_utf16 (u ++ l) ∨ v = [] →
  nearest l bias (t - Str.len_utf16 u) c → nearest (u ++ l ++ v) bias t (Str.len_utf16 u + c).
Proof.
  intros Hlow Hhigh [(x & y & Hl & Hc) Hn]. split.
  { exists (u ++ x), (y ++ v). rewrite Str_len_utf16_app, Hc, Hl, <-!app_assoc. done. }
  assert (c <= Str.len_utf16 l) as Hcl by (rewrite Hl, Str_len_utf16_app; lia).
  assert (∀ n, utf16_boundary (u ++ l ++ v) n → Str.len_utf16 u <= n → n <= Str.len_utf16 (u ++ l) →
    utf16_boundary l (n - Str.len_utf16 u)) as Hin.
  { intros n (a & b & Hab & ->) Hu Hul. apply app_eq_inv in Hab as [(k & Hu' & Hk)|(k & -> & Hk)].
    - rewrite Hu', Str_len_utf16_app in *. exists [], l. split; [done|]. change (Str.len_utf16 []) with 0. lia.
    - symmetry in Hk. rewrite !Str_len_utf16_app in *. apply app_eq_inv in Hk as [(w & -> & Hw)|(w & -> & Hw)].
      + rewrite Str_len_utf16_app in *. exists l, []. rewrite app_nil_r. split; [done|]. lia.
      + exists k, w. split; [done|]. lia. }
  rewrite !Str_len_utf16_app in *. destruct bias.
  - destruct Hn as [Hle Hmax]. split; [lia|]. intros n Hn Hnt. 
    destruct (decide (n <= Str.len_utf16 u)); [lia|]. apply utf16_boundary_le in Hn as Hnl. rewrite !Str_len_utf16_app in Hnl.
    assert (n <= Str.len_utf16 u + Str.len_utf16 l) as Hul by (destruct Hhigh as [| ->]; [lia|change (Str.len_utf16 []) with 0 in *; lia]).
    specialize (Hmax _ (Hin n Hn ltac:(lia) Hul)). lia.
  - destruct Hn as [Hge Hmin]. split.
    { destruct Hge as [|Hge]; [left; lia|]. destruct Hhigh as [| ->]; [left; lia|right]. change (Str.len_utf16 []) with 0. lia. }
    intros n Hn Htn. destruct (decide (n <= Str.len_utf16 u + Str.len_utf16 l)) as [Hle|]; [|lia].
    specialize (Hmin _ (Hin n Hn ltac:(lia) Hle)). lia.
Qed.

(** Beyond the end of the text the end is the nearest. *)
Lemma nearest_end s bias (t : nat) : Str.len_utf16 s <= t → nearest s bias t (Str.len_utf16 s).
Proof.
  intros Ht. split; [apply utf16_boundary_len|]. destruct bias; split; try lia.
  intros n Hn _. by apply utf16_boundary_le.
Qed.

Section clip.
Context (r : Rope) s (Hr : holds r s) (Hlen : (N.of_nat (Str.len s) <= u32_max)%N).

(** What a seek to the right finds for a position of any kind. *)
Lemma find_right {D} `{TextDimensionLaws D, !DimensionLaws D RopeSummary, !Ord D} (key : D → N) {Hkey : PositionKey D key} (k : D) :
  (∃ e, SumTree.find (D:=D) (chunks r) (seek_ord k) Right = (measure s, e, None) ∧
     (s ≠ [] → (key (measure s) <= key k)%N)) ∨
  ∃ p q z e, s = p ++ q ++ z ∧ chunk_text_ok q ∧ (p ≠ [] → (key (measure p) <= key k)%N) ∧ (key k < key (measure (p ++ q)))%N ∧
    SumTree.find (D:=D) (chunks r) (seek_ord k) Right = (measure p, e, Some (chunk_of q)).
Proof.
  destruct Hr as (texts & Htree & Hs). rewrite Hs in Hlen |- *.
  destruct (rope_find (D:=D) key k (seek_ord k) (λ _, eq_refl) Right (chunks r) texts Htree Hlen)
    as (ps & qs & e & -> & [Hpass Hstop] & ->).
  rewrite (target_stops key k (seek_ord k) (λ _, eq_refl)) in Hpass.
  assert (concat ps ≠ [] → (key (measure (concat ps)) <= key k)%N) as Hpass'.
  { intros Hne. apply N.ltb_ge, Hpass. by intros ->. }
  destruct qs as [|q qs].
  - left. rewrite app_nil_r. by exists e.
  - right. rewrite (target_stops key k (seek_ord k) (λ _, eq_refl)) in Hstop. apply N.ltb_lt in Hstop.
    exists (concat ps), q, (concat qs), e. rewrite concat_app. destruct Htree as (_ & _ & [_ [? _]%Forall_cons]%Forall_app).
    by split_and!.
Qed.

Lemma rope_clip_offset_utf16 (t : nat) bias :
  ∃ c, Rope.clip_offset_utf16 r (OffsetUtf16.mk t) bias = Some (OffsetUtf16.mk c) ∧ nearest s bias t c.
Proof.
  unfold Rope.clip_offset_utf16.
  destruct (find_right (D:=OffsetUtf16) _ (OffsetUtf16.mk t)) as [(e & -> & Hs)|(p & q & z & e & Hpq & (Hok & _ & Hl) & Hp & Hq & ->)].
  - rewrite (holds_summary r s Hr). exists (Str.len_utf16 s). split; [done|]. apply nearest_end.
    destruct s as [|c s']; [change (Str.len_utf16 []) with 0; lia|]. specialize (Hs ltac:(done)). simpl in Hs. lia.
  - rewrite (measure_offset_utf16 p). rewrite (measure_offset_utf16 p) in Hp. rewrite (measure_offset_utf16 (p ++ q)) in Hq.
    simpl in Hp, Hq.
    assert (Str.len_utf16 p <= t) as Hle by (destruct p as [|c p']; [change (Str.len_utf16 []) with 0; lia|specialize (Hp ltac:(done)); lia]).
    unfold OffsetUtf16.sub. cbn [OffsetUtf16.offset]. rewrite ?rassert_true by (by apply Nat.leb_le). cbn [mbind option_bind].
    destruct (clip_offset_utf16_spec q (t - Str.len_utf16 p) bias Hok Hl) as (c & Hc & Hn).
    rewrite as_slice_chunk_of, Hc. cbn [mbind option_bind]. exists (Str.len_utf16 p + c). split; [done|].
    rewrite Hpq. apply nearest_completed; [done|left; lia|done].
Qed.

(** What comparing a point with the ends of a chunk says; the column is the
    length of the last row in bytes or in UTF-16 units. *)
Section columns.
Context (f : str → nat) (Hf : ∀ s, f (last_line s) <= Str.len s).

Lemma between_points (k : nat) column (p q : str) : (N.of_nat k <= u32_max)%N → (column <= u32_max)%N →
  (N.of_nat (Str.len (p ++ q)) <= u32_max)%N →
  (p ≠ [] → pack (N.of_nat (Lines.newlines p)) (N.of_nat (f (last_line p))) <= pack (N.of_nat k) column)%N →
  (pack (N.of_nat k) column < pack (N.of_nat (Lines.newlines (p ++ q))) (N.of_nat (f (last_line (p ++ q)))))%N →
  Lines.newlines p <= k <= Lines.newlines (p ++ q) ∧
  (k = Lines.newlines p → (N.of_nat (f (last_line p)) <= column)%N) ∧
  (k = Lines.newlines (p ++ q) → (column < N.of_nat (f (last_line (p ++ q))))%N).
Proof.
  intros Hk Hcol Hl Hlow Hhigh. pose proof (newlines_le_len (p ++ q)). pose proof (newlines_le_len p).
  pose proof (Hf (p ++ q)). pose proof (Hf p). rewrite Str_len_app in *.
  rewrite <-N.ltb_lt, pack_ltb in Hhigh by lia.
  assert (Lines.newlines p < k ∨ k = Lines.newlines p ∧ (N.of_nat (f (last_line p)) <= column)%N) as Hlow'.
  { destruct p as [|d p']; [change (Lines.newlines []) with 0; specialize (Hf []); change (Str.len []) with 0 in Hf; lia|].
    specialize (Hlow ltac:(done)). apply N.nlt_ge in Hlow. rewrite <-N.ltb_lt, pack_ltb in Hlow by lia. lia. }
  split_and!; lia.
Qed.

(** A point behind the end of the text. *)
Lemma beyond_points (k : nat) column P line R : row_at s k P line R → (column <= u32_max)%N →
  (s ≠ [] → pack (N.of_nat (Lines.newlines s)) (N.of_nat (f (last_line s))) <= pack (N.of_nat k) column)%N →
  k = Lines.newlines s ∧ line = last_line s ∧ (N.of_nat (f (last_line s)) <= column)%N.
Proof.
  intros Hrow Hcol Hs. pose proof (row_number _ _ _ _ _ Hrow) as Hkn. pose proof (Hf s).
  assert (k = Lines.newlines s ∧ (N.of_nat (f (last_line s)) <= column)%N) as [-> Hcc].
  { destruct (decide (s = [])) as [Hnil|Hne].
    - rewrite Hnil in *. change (Lines.newlines []) with 0 in *. change (Str.len []) with 0 in *. split; lia.
    - specialize (Hs Hne). apply N.nlt_ge in Hs. rewrite <-N.ltb_lt, pack_ltb in Hs by lia. lia. }
  split; [done|]. split; [|done]. destruct (last_row s) as (P' & Hlast).
  by destruct (row_at_unique _ _ _ _ _ _ _ _ Hrow Hlast) as (_ & ? & _).
Qed.
End columns.

Lemma bytes_of_last s' : Str.len (last_line s') <= Str.len s'.
Proof. apply last_line_le. Qed.
Lemma units_of_last s' : Str.len_utf16 (last_line s') <= Str.len s'.
Proof. pose proof (Str_lengths (last_line s')). pose proof (bytes_of_last s'). lia. Qed.

Lemma rope_clip_point_utf16 k P line R column bias : row_at s k P line R → (column <= u32_max)%N →
  ∃ c, Rope.clip_point_utf16 r (Unclipped.mk (PointUtf16.mk (N.of_nat k) column)) bias =
      Some (PointUtf16.mk (N.of_nat k) (N.of_nat c)) ∧ nearest line bias (N.to_nat column) c.
Proof.
  intros Hrow Hcol. pose proof (row_number _ _ _ _ _ Hrow) as Hkn. pose proof (line_bounds s) as Hsb.
  unfold Rope.clip_point_utf16. cbn [Unclipped.inner].
  destruct (find_right (D:=PointUtf16) _ (PointUtf16.mk (N.of_nat k) column)) as [(e & -> & Hs)|(p & q & z & e & Hpq & (Hok & _ & Hl) & Hp & Hq & ->)].
  - destruct (beyond_points Str.len_utf16 units_of_last k column P line R Hrow Hcol Hs) as (-> & -> & Hc).
    rewrite (holds_summary r s Hr). exists (Str.len_utf16 (last_line s)). split; [done|]. apply nearest_end. lia.
  - rewrite (measure_point_utf16 p). rewrite (measure_point_utf16 p) in Hp. rewrite (measure_point_utf16 (p ++ q)) in Hq.
    cbn [PointUtf16.row PointUtf16.column extent_utf16] in Hp, Hq.
    assert (N.of_nat (Str.len (p ++ q)) <= u32_max)%N as Hpql by (rewrite Hpq, app_assoc, Str_len_app in Hlen; lia).
    assert (N.of_nat k <= u32_max)%N as Hk by lia.
    destruct (between_points Str.len_utf16 units_of_last k column p q Hk Hcol Hpql Hp Hq) as (Hkk & Hlow & Hhigh).
    rewrite Hpq in Hrow. destruct (row_falls_in_chunk p q z k P line R Hrow Hkk) as (l & [(P' & R' & Hl') (v & Hline & Hv)]).
    rewrite point_utf16_relative by (done || lia || (rewrite Str_len_app in Hpql; lia)). cbn [mbind option_bind].
    rewrite as_slice_chunk_of, (clip_point_utf16_row _ _ _ _ _ _ _ Hok Hl Hl').
    destruct (row_bounds _ _ _ _ _ Hok Hl Hl') as (Hsl & Hll & _).
    set (u := row_before p (k - Lines.newlines p)) in *.
    destruct (clip_offset_utf16_spec l (N.to_nat (column - N.of_nat (Str.len_utf16 u))) bias Hsl Hll) as (c & -> & Hn).
    cbn [mbind option_bind OffsetUtf16.offset].
    assert (c <= Str.len_utf16 l) as Hcl by (destruct Hn as [Hb _]; by apply utf16_boundary_le).
    pose proof (Str_lengths l) as Hll16. rewrite as_u32_small by (unfold u32_max; lia).
    assert (Str.len_utf16 (u ++ l) <= Str.len s) as Hul.
    { pose proof (row_len _ _ _ _ _ Hrow) as Hlen'. rewrite <-Hpq, Hline in Hlen'. pose proof (Str_lengths (u ++ l)).
      rewrite !Str_len_app in *. lia. }
    rewrite Str_len_utf16_app in Hul.
    rewrite point_utf16_absolute by (done || (fold u; lia)). fold u. exists (Str.len_utf16 u + c). split; [done|].
    rewrite Hline. apply nearest_completed.
    + unfold u, row_before. destruct (Nat.eqb_spec (k - Lines.newlines p) 0); [|change (Str.len_utf16 []) with 0; lia].
      assert (k = Lines.newlines p) as Hk0 by lia. specialize (Hlow Hk0). lia.
    + destruct (decide (v = [])) as [|Hvne]; [by right|left]. destruct (Hv Hvne) as [Hkv Hlast]. specialize (Hhigh Hkv).
      rewrite Hlast in Hhigh. lia.
    + replace (N.to_nat column - Str.len_utf16 u) with (N.to_nat (column - N.of_nat (Str.len_utf16 u))) by lia. done.
Qed.

(** *** Grapheme clusters *)

Section grapheme.
Context (is_grapheme_boundary : str → nat → bool).
Context (grapheme_start : ∀ s, is_grapheme_boundary s 0 = true).
Context (grapheme_end : ∀ s, is_grapheme_boundary s (Str.len s) = true).

(** The column is clipped in the part [l] of the row that its chunk holds. *)
Definition clipped_in (line : str) bias (column c : nat) : Prop := ∃ u l v c', line = u ++ l ++ v ∧ c = Str.len u + c' ∧
  Str.len u <= column ∧ (column < Str.len (u ++ l) ∨ v = []) ∧ clipped is_grapheme_boundary l bias (column - Str.len u) c'.

Lemma rope_clip_point k P line R column bias : row_at s k P line R → (N.of_nat column <= u32_max)%N →
  ∃ c, Rope.clip_point is_grapheme_boundary r (Point.mk (N.of_nat k) (N.of_nat column)) bias =
      Some (Point.mk (N.of_nat k) (N.of_nat c)) ∧ clipped_in line bias column c.
Proof.
  intros Hrow Hcol. pose proof (row_number _ _ _ _ _ Hrow) as Hkn. pose proof (newlines_le_len s) as Hsb.
  unfold Rope.clip_point.
  destruct (find_right (D:=Point) _ (Point.mk (N.of_nat k) (N.of_nat column))) as [(e & -> & Hs)|(p & q & z & e & Hpq & (Hok & _ & Hl) & Hp & Hq & ->)].
  - destruct (beyond_points Str.len bytes_of_last k _ P line R Hrow Hcol Hs) as (-> & -> & Hc).
    rewrite (holds_summary r s Hr). exists (Str.len (last_line s)). split; [done|].
    exists [], (last_line s), [], (Str.len (last_line s)). change (Str.len []) with 0. rewrite app_nil_r, Nat.sub_0_r. split_and!; [done|done|lia|by right|].
    split; [done|]. split; [apply Str_is_char_boundary_len|]. split; [right; by apply grapheme_at_len|].
    destruct bias; split; try lia; intros n Hn ?; apply grapheme_at_le in Hn; lia.
  - rewrite (measure_point p). rewrite (measure_point p) in Hp. rewrite (measure_point (p ++ q)) in Hq.
    cbn [Point.row Point.column extent] in Hp, Hq.
    assert (N.of_nat (Str.len (p ++ q)) <= u32_max)%N as Hpql by (rewrite Hpq, app_assoc, Str_len_app in Hlen; lia).
    assert (N.of_nat k <= u32_max)%N as Hk by lia.
    destruct (between_points Str.len bytes_of_last k _ p q Hk Hcol Hpql Hp Hq) as (Hkk & Hlow & Hhigh).
    rewrite Hpq in Hrow. destruct (row_falls_in_chunk p q z k P line R Hrow Hkk) as (l & [(P' & R' & Hl') (v & Hline & Hv)]).
    rewrite point_relative by (done || lia || (rewrite Str_len_app in Hpql; lia)). cbn [mbind option_bind].
    rewrite as_slice_chunk_of.
    set (u := row_before p (k - Lines.newlines p)) in *. rewrite <-Nat2N.inj_sub.
    destruct (clip_point_row is_grapheme_boundary grapheme_start grapheme_end _ _ _ _ _ (column - Str.len u) bias Hok Hl Hl') as (c & -> & Hn).
    cbn [mbind option_bind].
    assert (Str.len (u ++ l) <= Str.len s) as Hul.
    { pose proof (row_len _ _ _ _ _ Hrow) as Hlen'. rewrite <-Hpq, Hline in Hlen'. rewrite !Str_len_app in *. lia. }
    rewrite Str_len_app in Hul. assert (c <= Str.len l) by apply Hn.
    rewrite point_absolute by (done || (fold u; lia)). fold u. exists (Str.len u + c). split; [done|].
    exists u, l, v, c. split_and!; [done|done| | |done].
    + unfold u, row_before. destruct (Nat.eqb_spec (k - Lines.newlines p) 0); [|change (Str.len []) with 0; lia].
      assert (k = Lines.newlines p) as Hk0 by lia. specialize (Hlow Hk0). lia.
    + destruct (decide (v = [])) as [|Hvne]; [by right|left]. destruct (Hv Hvne) as [Hkv Hlast]. specialize (Hhigh Hkv).
      rewrite Hlast in Hhigh. lia.
Qed.

(** The end of the row is where a column beyond it goes. *)
Lemma clipped_in_beyond line column c : clipped_in line Left column c → Str.len line <= column → c = Str.len line.
Proof.
  intros (u & l & v & c' & -> & -> & Hu & Hcol & (Hcl & _ & _ & _ & Hmax)) Hle. rewrite !Str_len_app in *.
  assert (v = []) as ->.
  { destruct Hcol as [Hcol|]; [|done]. rewrite ?Str_len_app in Hcol. lia. }
  change (Str.len []) with 0 in *. specialize (Hmax (Str.len l)). rewrite grapheme_at_len in Hmax by done. specialize (Hmax eq_refl). lia.
Qed.

Lemma rope_line_len k P line R : row_at s k P line R → Rope.line_len is_grapheme_boundary r (N.of_nat k) = Some (N.of_nat (Str.len line)).
Proof.
  intros Hrow. unfold Rope.line_len, Point.new.
  destruct (rope_clip_point k P line R (N.to_nat u32_max) Left Hrow) as (c & Hc & Hin); [lia|].
  rewrite N2Nat.id in Hc. rewrite Hc. cbn [mbind option_bind Point.column]. do 2 f_equal.
  apply (clipped_in_beyond _ _ _ Hin). pose proof (row_len _ _ _ _ _ Hrow). lia.
Qed.

(** What a clipped column promises. *)
Lemma clipped_in_valid line bias column c : str_ok line → clipped_in line bias column c →
  Str.is_char_boundary line c = true ∧ match bias with Left => c <= column | Right => column <= c ∨ c = Str.len line end.
Proof.
  clear Hr Hlen s r. intros Hok (u & l & v & c' & -> & -> & Hu & Hcol & (Hcl & Hb & _ & Hn)).
  pose proof Hok as [_ [Hl _]%Forall_app]%Forall_app. split.
  - apply (Str_is_char_boundary_iff _ _ Hl) in Hb as (x & y & -> & ->). apply (Str_is_char_boundary_iff _ _ Hok).
    exists (u ++ x), (y ++ v). rewrite <-!app_assoc, Str_len_app. done.
  - destruct bias; [destruct Hn as [? _]; lia|]. destruct Hn as [[Hn|Hn] _]; [left; lia|].
    rewrite !Str_len_app in *. destruct Hcol as [Hcol|Hv]; [left; rewrite ?Str_len_app in Hcol; lia|right]. rewrite Hv. change (Str.len []) with 0. lia.
Qed.
End grapheme.
End clip.

(** ** Properties *)

(** C31. UTF-16 positions clip to the nearest position in the text, on the side of
    the bias: for an offset in the whole text, for a point in its row (the row
    may run through many chunks); a position beyond the end of the text or of the
    row goes to that end. *)
Theorem rope_clip_utf16 r s (Hr : holds r s) (Hlen : (N.of_nat (Str.len s) <= u32_max)%N) :
  (∀ (t : nat) bias, ∃ c, Rope.clip_offset_utf16 r (OffsetUtf16.mk t) bias = Some (OffsetUtf16.mk c) ∧ nearest s bias t c) ∧
  (∀ k p line rest column bias, row_at s k p line rest → (column <= u32_max)%N → ∃ c,
     Rope.clip_point_utf16 r (Unclipped.mk (PointUtf16.mk (N.of_nat k) column)) bias =
       Some (PointUtf16.mk (N.of_nat k) (N.of_nat c)) ∧ nearest line bias (N.to_nat column) c).
Proof.
  split; [intros; by apply (rope_clip_offset_utf16 r s)|]. intros k p line rest column bias Hrow Hcol.
  by apply (rope_clip_point_utf16 r s Hr Hlen k p line rest).
Qed.

Lemma rope_clip_utf16_witness :
  ∃ c, Rope.clip_offset_utf16 RopeExample.rope (OffsetUtf16.mk 106) Right = Some (OffsetUtf16.mk c) ∧
    nearest RopeExample.text Right 106 c.
Proof. exact (proj1 (rope_clip_utf16 RopeExample.rope RopeExample.text RopeExample.rope_holds example_len) 106 Right). Defined.

(** Clipping a point of a row ends in that row, at a character boundary, and
    on the side of the bias unless the row ends first; within the part of the row
    that the chunk holds it is as near as the grapheme boundaries allow.  The
    length of a row is that of its text. *)
Theorem rope_clip_point_valid (is_grapheme_boundary : str → nat → bool) r s k p line rest
    (Hstart : ∀ s, is_grapheme_boundary s 0 = true) (Hend : ∀ s, is_grapheme_boundary s (Str.len s) = true)
    (Hr : holds r s) (Hlen : (N.of_nat (Str.len s) <= u32_max)%N) (Hrow : row_at s k p line rest) :
  (∀ column bias, (N.of_nat column <= u32_max)%N → ∃ c,
     Rope.clip_point is_grapheme_boundary r (Point.mk (N.of_nat k) (N.of_nat column)) bias =
       Some (Point.mk (N.of_nat k) (N.of_nat c)) ∧
     clipped_in is_grapheme_boundary line bias column c ∧
     Str.is_char_boundary line c = true ∧ match bias with Left => c <= column | Right => column <= c ∨ c = Str.len line end) ∧
  Rope.line_len is_grapheme_boundary r (N.of_nat k) = Some (N.of_nat (Str.len line)).
Proof.
  split; [|by apply (rope_line_len r s Hr Hlen is_grapheme_boundary Hstart Hend k p line rest)].
  intros column bias Hcol.
  destruct (rope_clip_point r s Hr Hlen is_grapheme_boundary Hstart Hend k p line rest column bias Hrow Hcol) as (c & Hc & Hin).
  exists c. split; [done|]. split; [done|]. apply clipped_in_valid in Hin; [done|].
  pose proof (holds_str_ok r s Hr) as Hok. destruct Hrow as [-> _ _ _]. by apply Forall_app in Hok as [_ [? _]%Forall_app].
Qed.

Lemma rope_clip_point_valid_witness :
  let line := (replicate 100 98%N ++ [0x20AC]%N) in
  row_at RopeExample.text 1 [97; 233; 10]%N line ([10; 0x1F600]%N ++ replicate 60 99%N) ∧
  Rope.line_len (λ _ _, true) RopeExample.rope 1 = Some 103%N.
Proof.
  intros line. assert (row_at RopeExample.text 1 [97; 233; 10]%N line ([10; 0x1F600]%N ++ replicate 60 99%N)) as Hrow.
  { split; [done|split; [done|right; by exists [97; 233]%N]|done|right; by exists ([0x1F600]%N ++ replicate 60 99%N)]. }
  split; [exact Hrow|].
  exact (proj2 (rope_clip_point_valid (λ _ _, true) RopeExample.rope RopeExample.text 1 _ line _ (λ _, eq_refl) (λ _, eq_refl)
    RopeExample.rope_holds example_len Hrow)).
Defined.
