(* ===== verification/RopeIter.v ===== *)
(** * Iterating over ropes ([crates/rope/src/rope.rs], the iterators)

    The pieces, bytes and lines of a range of a rope, in both directions.  A
    [for] loop over an iterator is a function of the fuel computed from the range:
    a piece is never empty. *)

From S2P Require Import Prelude SumTree SumTreeFacts Seek Cursor CursorWalk Utf8 Points Lines BitSelect Chunk TextSummary RopeTree Rope.

(** ** [str] *)

(** What the iterators use of [str] beyond [Utf8.v]. *)
Module StrSearch.
Implicit Types s : str.

(** [find('\n')] and [rfind('\n')] *)
Fixpoint find_newline s : option nat :=
  match s with
  | [] => None
  | c :: s => if (c =? NEWLINE)%N then Some 0 else n ← find_newline s; Some (len_utf8 c + n)
  end.

Fixpoint rfind_newline s : option nat :=
  match s with
  | [] => None
  | c :: s =>
      match rfind_newline s with
      | Some n => Some (len_utf8 c + n)
      | None => if (c =? NEWLINE)%N then Some 0 else None
      end
  end.

Definition starts_with s (pattern : str) : bool := bool_decide (pattern `prefix_of` s).
Definition ends_with s (pattern : str) : bool := bool_decide (pattern `suffix_of` s).
End StrSearch.

(** [&bytes[start..end]] *)
Definition byte_slice (bytes : list N) (start end_ : nat) : option (list N) :=
  _ ← rassert (start <=? end_);
  _ ← rassert (end_ <=? length bytes);
  Some (take (end_ - start) (drop start bytes)).

(** [clamp]: panics if the bounds are out of order. *)
Definition clamp (x min max : nat) : option nat :=
  _ ← rassert (min <=? max); Some (if x <? min then min else if max <? x then max else x).

(** ** [struct Chunks] *)

(** [struct ChunkBitmaps] *)
Module ChunkBitmaps.
Record t := mk { text : str; chars : N; tabs : N; newlines : N }.
End ChunkBitmaps.

Module Chunks.
Record t := mk { cursor : Cursor.t Chunk RopeSummary nat; range : nat * nat; offset : nat; reversed : bool }.
Implicit Types self : t.

Definition new (rope : Rope) (range : nat * nat) (reversed : bool) : option t :=
  let cursor : Cursor.t Chunk RopeSummary nat := Cursor.new (chunks rope) in
  '(cursor, offset) ←
    (if reversed then '(_, cursor) ← Cursor.seek (seek_ord range.2) Left cursor; Some (cursor, range.2)
     else '(_, cursor) ← Cursor.seek (seek_ord range.1) Right cursor; Some (cursor, range.1));
  chunk_offset ← checked_sub_nat offset (Cursor.start cursor);
  item ← Cursor.item cursor;
  _ ← match item with Some chunk => Chunk.assert_char_boundary true chunk chunk_offset | None => Some true end;
  Some (mk cursor range offset reversed).

Definition offset_is_valid self : bool :=
  if reversed self then negb ((offset self <=? (range self).1) || ((range self).2 <? offset self))
  else negb ((offset self <? (range self).1) || ((range self).2 <=? offset self)).

Definition seek self (offset : nat) : option t :=
  offset ← clamp offset (range self).1 (range self).2;
  chunks_end ← Cursor.end_ (cursor self);
  cursor ←
    (if reversed self then
       if chunks_end <? offset then '(_, cursor) ← Cursor.seek_forward (seek_ord offset) Left (cursor self); Some cursor
       else if offset <=? Cursor.start (cursor self) then
         '(_, cursor) ← Cursor.seek (seek_ord offset) Left (cursor self); Some cursor
       else Some (cursor self)
     else
       if chunks_end <=? offset then '(_, cursor) ← Cursor.seek_forward (seek_ord offset) Right (cursor self); Some cursor
       else if offset <? Cursor.start (cursor self) then
         '(_, cursor) ← Cursor.seek (seek_ord offset) Right (cursor self); Some cursor
       else Some (cursor self));
  Some (mk cursor (range self) offset (reversed self)).

Definition set_range self (range : nat * nat) : option t :=
  seek (mk (cursor self) range (offset self) (reversed self)) range.1.

(** The window of the cursor's chunk that is in the range. *)
Definition slice_range self : option (nat * nat) :=
  let chunk_start := Cursor.start (cursor self) in
  if reversed self then
    slice_start ← checked_sub_nat (Nat.max chunk_start (range self).1) chunk_start;
    slice_end ← checked_sub_nat (offset self) chunk_start;
    Some (slice_start, slice_end)
  else
    slice_start ← checked_sub_nat (offset self) chunk_start;
    chunks_end ← Cursor.end_ (cursor self);
    slice_end ← checked_sub_nat (Nat.min chunks_end (range self).2) chunk_start;
    Some (slice_start, slice_end).

(** The outer option is the panic. *)
Definition peek self : option (option str) :=
  if negb (offset_is_valid self) then Some None
  else
    item ← Cursor.item (cursor self);
    match item with
    | None => Some None
    | Some chunk =>
        '(slice_start, slice_end) ← slice_range self;
        text ← Str.slice (chunk_text chunk) slice_start slice_end; Some (Some text)
    end.

Definition peek_with_bitmaps self : option (option ChunkBitmaps.t) :=
  if negb (offset_is_valid self) then Some None
  else
    item ← Cursor.item (cursor self);
    match item with
    | None => Some None
    | Some chunk =>
        '(slice_start, slice_end) ← slice_range self;
        slice_text ← Str.slice (chunk_text chunk) slice_start slice_end;
        shifted_tabs ← shr (chunk_tabs chunk) slice_start;
        shifted_chars ← shr (chunk_chars chunk) slice_start;
        shifted_newlines ← shr (chunk_newlines chunk) slice_start;
        Some (Some (ChunkBitmaps.mk slice_text shifted_chars shifted_tabs shifted_newlines))
    end.

(** Behind a piece of this length. *)
Definition advance self (piece_len : nat) : option t :=
  if reversed self then
    offset ← checked_sub_nat (offset self) piece_len;
    cursor ← (if offset <=? Cursor.start (cursor self) then Cursor.prev (cursor self) else Some (cursor self));
    Some (mk cursor (range self) offset (reversed self))
  else
    let offset := offset self + piece_len in
    chunks_end ← Cursor.end_ (cursor self);
    cursor ← (if chunks_end <=? offset then Cursor.next (cursor self) else Some (cursor self));
    Some (mk cursor (range self) offset (reversed self)).

(** [impl Iterator for Chunks] *)
Definition next self : option (option str * t) :=
  chunk ← peek self;
  match chunk with
  | None => Some (None, self)
  | Some chunk => self ← advance self (Str.len chunk); Some (Some chunk, self)
  end.

(** [impl Iterator for ChunkWithBitmaps] *)
Definition next_with_bitmaps self : option (option ChunkBitmaps.t * t) :=
  chunk_bitmaps ← peek_with_bitmaps self;
  match chunk_bitmaps with
  | None => Some (None, self)
  | Some chunk_bitmaps => self ← advance self (Str.len (ChunkBitmaps.text chunk_bitmaps)); Some (Some chunk_bitmaps, self)
  end.

(** *** Stepping over lines *)

Definition has_newline (summary : RopeSummary) : bool := (0 <? Point.row (lines (summary_text summary)))%N.

Definition with_offset self (offset : nat) : t := mk (cursor self) (range self) offset (reversed self).
Definition with_cursor self (cursor : Cursor.t Chunk RopeSummary nat) : t := mk cursor (range self) (offset self) (reversed self).

(** [if self.offset == self.chunks.end() { self.next(); }] *)
Definition leave_chunk self : option t :=
  chunks_end ← Cursor.end_ (cursor self);
  if offset self =? chunks_end then '(_, self) ← next self; Some self else Some self.

(** [if self.offset > self.range.end { .. }] *)
Definition back_to_range self : option t :=
  if (range self).2 <? offset self then
    let self := with_offset self (Nat.min (offset self) (range self).2) in
    '(_, cursor) ← Cursor.seek (seek_ord (offset self)) Right (cursor self); Some (with_cursor self cursor)
  else Some self.

(** The branch of [next_line] without a newline in the piece. *)
Definition next_line_beyond self : option (bool * t) :=
  cursor ← Cursor.search_forward has_newline (cursor self);
  let self := with_offset (with_cursor self cursor) (Cursor.start cursor) in
  chunk ← peek self;
  match chunk ≫= StrSearch.find_newline with
  | Some newline_ix =>
      let self := with_offset self (offset self + (newline_ix + 1)) in
      Some (offset self <=? (range self).2, self)
  | None => chunks_end ← Cursor.end_ cursor; Some (false, with_offset self chunks_end)
  end.

Definition next_line self : option (bool * t) :=
  _ ← rassert (negb (reversed self));
  chunk ← peek self;
  match chunk with
  | None => self ← back_to_range self; Some (false, self)
  | Some chunk =>
      '(found, self) ←
        match StrSearch.find_newline chunk with
        | Some newline_ix =>
            let self := with_offset self (offset self + (newline_ix + 1)) in
            Some (offset self <=? (range self).2, self)
        | None => next_line_beyond self
        end;
      self ← leave_chunk self;
      self ← back_to_range self; Some (found, self)
  end.

(** The search for a newline in the cursor's chunk, before the offset. *)
Definition newline_in_chunk self : option (option nat) :=
  item ← Cursor.item (cursor self);
  match item with
  | None => Some None
  | Some chunk =>
      end_ix ← checked_sub_nat (offset self) (Cursor.start (cursor self));
      last_ix ← checked_sub_nat end_ix 1;
      b ← Str.as_bytes (chunk_text chunk) !! last_ix;
      let end_ix := if (b =? 10)%N then last_ix else end_ix in
      before ← Str.slice (chunk_text chunk) 0 end_ix; Some (StrSearch.rfind_newline before)
  end.

(** The end of [prev_line], when no line start was found in the range. *)
Definition reset_line self (cursor : Cursor.t Chunk RopeSummary nat) (item : option Chunk) (initial_offset : nat) : option (bool * t) :=
  self ←
    (if negb (offset_is_valid self) || match item with None => true | Some _ => false end then
       let self := with_offset self (range self).1 in
       '(_, cursor) ← Cursor.seek (seek_ord (offset self)) Right cursor; Some (with_cursor self cursor)
     else Some self);
  Some ((offset self <? initial_offset) && (offset self =? 0), self).

(** The statements of [prev_line] from [search_backward] on. *)
Definition prev_line_chunk self (initial_offset : nat) : option (bool * t) :=
  cursor ← Cursor.search_backward has_newline (cursor self);
  let self := with_offset (with_cursor self cursor) (Cursor.start cursor) in
  item ← Cursor.item cursor;
  let '(found, self) :=
    match (chunk ← item; StrSearch.rfind_newline (chunk_text chunk)) with
    | Some newline_ix =>
        let self := with_offset self (offset self + (newline_ix + 1)) in (offset_is_valid self, self)
    | None => (false, self)
    end in
  if (found : bool) then
    chunks_end ← Cursor.end_ cursor;
    cursor ← (if offset self =? chunks_end then Cursor.next cursor else Some cursor);
    Some (true, with_cursor self cursor)
  else reset_line self cursor item initial_offset.

Definition prev_line self : option (bool * t) :=
  _ ← rassert (negb (reversed self));
  let initial_offset := offset self in
  cursor ← (if offset self =? Cursor.start (cursor self) then Cursor.prev (cursor self) else Some (cursor self));
  let self := with_cursor self cursor in
  newline_ix ← newline_in_chunk self;
  match newline_ix with
  | Some newline_ix =>
      let self := with_offset self (Cursor.start cursor + newline_ix + 1) in
      if offset_is_valid self then Some (true, self) else prev_line_chunk self initial_offset
  | None => prev_line_chunk self initial_offset
  end.

(** *** Comparing *)

(** More calls of [next] than the range has pieces. *)
Definition fuel self : nat := S ((range self).2 - (range self).1).

(** The loops of [equals_str]. *)
Fixpoint equals_loop (fuel : nat) (chunk : t) (other : str) (offset : nat) : option bool :=
  match fuel with
  | 0 => None
  | S fuel =>
      '(piece, chunk) ← next chunk;
      match piece with
      | None => Some (offset =? Str.len other)
      | Some piece =>
          if Str.len other <=? offset then Some false
          else
            '(_, rest) ← Str.split_at other offset;
            if StrSearch.starts_with rest piece then equals_loop fuel chunk other (offset + Str.len piece) else Some false
      end
  end.

Fixpoint equals_loop_reversed (fuel : nat) (chunk : t) (other : str) (offset : nat) : option bool :=
  match fuel with
  | 0 => None
  | S fuel =>
      '(piece, chunk) ← next chunk;
      match piece with
      | None => Some (offset =? 0)
      | Some piece =>
          rest ← Str.slice other 0 offset;
          if StrSearch.ends_with rest piece then
            offset ← checked_sub_nat offset (Str.len piece); equals_loop_reversed fuel chunk other offset
          else Some false
      end
  end.

Definition equals_str self (other : str) : option bool :=
  if reversed self then equals_loop_reversed (fuel self) self other (Str.len other)
  else equals_loop (fuel self) self other 0.
End Chunks.

(** ** [struct Bytes] *)

Module Bytes.
Record t := mk { cursor : Cursor.t Chunk RopeSummary nat; range : nat * nat; reversed : bool }.
Implicit Types self : t.

Definition new (rope : Rope) (range : nat * nat) (reversed : bool) : option t :=
  let cursor : Cursor.t Chunk RopeSummary nat := Cursor.new (chunks rope) in
  '(_, cursor) ← (if reversed then Cursor.seek (seek_ord range.2) Left cursor else Cursor.seek (seek_ord range.1) Right cursor);
  Some (mk cursor range reversed).

Definition peek self : option (option (list N)) :=
  item ← Cursor.item (cursor self);
  match item with
  | None => Some None
  | Some chunk =>
      chunks_end ← Cursor.end_ (cursor self);
      let chunk_start := Cursor.start (cursor self) in
      if (reversed self && (chunks_end <=? (range self).1)) || ((range self).2 <=? chunk_start) then Some None
      else
        let start := (range self).1 - chunk_start in
        end_ ← checked_sub_nat (range self).2 chunk_start;
        bytes ← byte_slice (Str.as_bytes (chunk_text chunk)) start (Nat.min (Str.len (chunk_text chunk)) end_);
        Some (Some bytes)
  end.

(** To the chunk after, or before, the cursor's. *)
Definition step self : option t :=
  cursor ← (if reversed self then Cursor.prev (cursor self) else Cursor.next (cursor self));
  Some (mk cursor (range self) (reversed self)).

(** [impl Iterator] *)
Definition next self : option (option (list N) * t) :=
  result ← peek self;
  match result with
  | Some _ => self ← step self; Some (result, self)
  | None => Some (None, self)
  end.

(** [impl io::Read]: the count, the buffer and the reader afterwards. *)
Definition read self (buf : list N) : option (nat * list N * t) :=
  chunk ← peek self;
  match chunk with
  | None => Some (0, buf, self)
  | Some chunk =>
      let len := Nat.min (length buf) (length chunk) in
      '(front, self) ←
        (if reversed self then
           from ← checked_sub_nat (length chunk) len;
           end_ ← checked_sub_nat (range self).2 len;
           Some (reverse (drop from chunk), mk (cursor self) ((range self).1, end_) (reversed self))
         else Some (take len chunk, mk (cursor self) ((range self).1 + len, (range self).2) (reversed self)));
      self ← (if len =? length chunk then step self else Some self);
      Some (len, front ++ drop len buf, self)
  end.
End Bytes.

(** ** [struct Lines] *)

Module LineIter.
Record t := mk { chunks : Chunks.t; current_line : str; done : bool; reversed : bool }.
Implicit Types self : t.

(** [Chunks::lines] *)
Definition of_chunks (chunks : Chunks.t) : t := mk chunks [] false (Chunks.reversed chunks).

(** The [while let] loop of [next]. *)
Fixpoint next_loop (fuel : nat) (reversed : bool) (chunks : Chunks.t) (current_line : str) : option (option str * t) :=
  match fuel with
  | 0 => None
  | S fuel =>
      chunk ← Chunks.peek chunks;
      match chunk with
      | None => Some (Some current_line, mk chunks current_line true reversed)
      | Some chunk =>
          let chunk_lines := if reversed then rev (Str.split_newline chunk) else Str.split_newline chunk in
          match chunk_lines with
          | [] => '(_, chunks) ← Chunks.next chunks; next_loop fuel reversed chunks current_line
          | [chunk_line] =>
              let current_line := if reversed then chunk_line ++ current_line else current_line ++ chunk_line in
              '(_, chunks) ← Chunks.next chunks; next_loop fuel reversed chunks current_line
          | chunk_line :: _ :: _ =>
              offset ←
                (if reversed then
                   offset ← checked_sub_nat (Chunks.offset chunks) (Str.len chunk_line); checked_sub_nat offset 1
                 else Some (Chunks.offset chunks + Str.len chunk_line + 1));
              chunks ← Chunks.seek chunks offset;
              match current_line with
              | [] => Some (Some chunk_line, mk chunks current_line false reversed)
              | _ :: _ =>
                  let current_line := if reversed then chunk_line ++ current_line else current_line ++ chunk_line in
                  Some (Some current_line, mk chunks current_line false reversed)
              end
          end
      end
  end.

Definition next self : option (option str * t) :=
  if done self then Some (None, self)
  else next_loop (Chunks.fuel (chunks self)) (reversed self) (chunks self) [].

Definition seek self (offset : nat) : option t :=
  chunks ← Chunks.seek (chunks self) offset; Some (mk chunks [] false (reversed self)).

Definition offset self : nat := Chunks.offset (chunks self).
End LineIter.

(** ** The iterators of a rope *)

Module RopeIter.
Implicit Types self : Rope.

Definition chunks_in_range self (range : nat * nat) : option Chunks.t := Chunks.new self range false.
Definition reversed_chunks_in_range self (range : nat * nat) : option Chunks.t := Chunks.new self range true.
Definition chunks self : option Chunks.t := chunks_in_range self (0, Rope.len self).
Definition bytes_in_range self (range : nat * nat) : option Bytes.t := Bytes.new self range false.
Definition reversed_bytes_in_range self (range : nat * nat) : option Bytes.t := Bytes.new self range true.

(** The characters an iterator over [char]s gives. *)
Definition chars_at self (start : nat) : option (list char) :=
  chunks ← chunks_in_range self (start, Rope.len self);
  pieces ← drain Chunks.next (Chunks.fuel chunks) chunks; Some (concat pieces).
Definition chars self : option (list char) := chars_at self 0.
Definition reversed_chars_at self (start : nat) : option (list char) :=
  chunks ← reversed_chunks_in_range self (0, start);
  pieces ← drain Chunks.next (Chunks.fuel chunks) chunks; Some (concat (map (λ chunk : str, rev chunk) pieces)).

(** [impl Display]: what is written *)
Definition display self : option str :=
  chunks ← chunks self;
  pieces ← drain Chunks.next (Chunks.fuel chunks) chunks; Some (concat pieces).

Fixpoint starts_with_loop (fuel : nat) (chunks : Chunks.t) (remaining : str) : option bool :=
  match fuel with
  | 0 => None
  | S fuel =>
      '(chunk, chunks) ← Chunks.next chunks;
      match chunk with
      | None => Some (match remaining with [] => true | _ => false end)
      | Some chunk =>
          match Str.slice chunk 0 (Nat.min (Str.len remaining) (Str.len chunk)) with
          | None => Some false
          | Some chunk =>
              if StrSearch.starts_with remaining chunk then
                '(_, remaining) ← Str.split_at remaining (Str.len chunk);
                match remaining with [] => Some true | _ => starts_with_loop fuel chunks remaining end
              else Some false
          end
      end
  end.

Definition starts_with self (pattern : str) : option bool :=
  if Rope.len self <? Str.len pattern then Some false
  else chunks ← chunks_in_range self (0, Rope.len self); starts_with_loop (Chunks.fuel chunks) chunks pattern.

Fixpoint ends_with_loop (fuel : nat) (chunks : Chunks.t) (remaining : str) : option bool :=
  match fuel with
  | 0 => None
  | S fuel =>
      '(chunk, chunks) ← Chunks.next chunks;
      match chunk with
      | None => Some (match remaining with [] => true | _ => false end)
      | Some chunk =>
          from ← checked_sub_nat (Str.len chunk) (Nat.min (Str.len remaining) (Str.len chunk));
          match Str.slice chunk from (Str.len chunk) with
          | None => Some false
          | Some chunk =>
              if StrSearch.ends_with remaining chunk then
                rest ← checked_sub_nat (Str.len remaining) (Str.len chunk);
                remaining ← Str.slice remaining 0 rest;
                match remaining with [] => Some true | _ => ends_with_loop fuel chunks remaining end
              else Some false
          end
      end
  end.

Definition ends_with self (pattern : str) : option bool :=
  if Rope.len self <? Str.len pattern then Some false
  else chunks ← reversed_chunks_in_range self (0, Rope.len self); ends_with_loop (Chunks.fuel chunks) chunks pattern.
End RopeIter.
