(* ===== verification/RopeIterFacts.v ===== *)
(** * The pieces of a rope

    An iterator over the pieces of a range, forwards or backwards, yields texts
    that join to the text of the range.  What the lines, the bytes and the
    comparisons with strings need to know of the cursor is here, too. *)

From S2P Require Import Prelude SumTree SumTreeFacts Seek Cursor CursorFacts CursorWalk Utf8 Points Lines BitSelect Chunk ChunkBits ChunkFacts ChunkPositions TextSummary RopeTree Rope RopeFacts RopeSeek RopeCut RopeIter.

Implicit Types (s t u v a b : str) (texts ps qs : list str).

(** ** Cutting texts *)

(** The common back of two cuts. *)
Lemma common_suffix (p x u m : str) : p ++ x = u ++ m → ∃ z x' m', x = x' ++ z ∧ m = m' ++ z ∧ (x' = [] ∨ m' = []).
Proof.
  intros [(k & -> & ->)|(k & -> & ->)]%app_eq_inv.
  - exists x, [], k. auto.
  - exists m, k, []. auto.
Qed.

Lemma Str_slice_mid a b c i j : i = Str.len a → j = Str.len (a ++ b) → Str.slice (a ++ b ++ c) i j = Some b.
Proof. intros -> ->. rewrite Str_len_app. apply Str_slice_app. Qed.

Lemma checked_sub_nat_Some i j : j <= i → checked_sub_nat i j = Some (i - j).
Proof. intros H. unfold checked_sub_nat. rewrite rassert_true by (by apply Nat.leb_le). done. Qed.

Lemma checked_sub_str a b : checked_sub_nat (Str.len (a ++ b)) (Str.len a) = Some (Str.len b).
Proof. rewrite checked_sub_nat_Some by (rewrite Str_len_app; lia). f_equal. rewrite Str_len_app. lia. Qed.

(** A rope holds one text only. *)
Lemma tree_holds_unique tree ps qs : tree_holds tree ps → tree_holds tree qs → ps = qs.
Proof.
  intros (_ & Hp & _) (_ & Hq & _). rewrite Hp in Hq. clear Hp. revert qs Hq. induction ps as [|p ps IH]; intros [|q qs] Hq; [done..|].
  injection Hq as _ _ _ _ -> Hq. f_equal. by apply IH.
Qed.

(** ** Where a cursor stands *)

Section cursors.
Context (r : Rope).
Implicit Types c : Cursor.t Chunk RopeSummary nat.

(** In front of the chunk [x ++ y], which follows [ps]; the position of interest
    is between [x] and [y]. *)
Record on_chunk c ps (x y : str) qs : Prop := {
  oc_tree : tree_holds (chunks r) (ps ++ (x ++ y) :: qs);
  oc_split : split_at (chunks r) c (map chunk_of ps) (map chunk_of ((x ++ y) :: qs));
}.

(** Behind the last chunk. *)
Record past_end c texts : Prop := {
  pe_tree : tree_holds (chunks r) texts;
  pe_split : split_at (chunks r) c (map chunk_of texts) [];
}.

Lemma oc_same c ps x y x' y' qs : on_chunk c ps x y qs → x ++ y = x' ++ y' → on_chunk c ps x' y' qs.
Proof. intros [Htree Hsplit] Heq. split; by rewrite <-Heq. Qed.

Section on.
Context {c ps x y qs} (Hc : on_chunk c ps x y qs).

Lemma oc_texts : Forall chunk_text_ok ps ∧ chunk_text_ok (x ++ y) ∧ Forall chunk_text_ok qs.
Proof. destruct Hc as [(_ & _ & [? [? ?]%Forall_cons]%Forall_app) _]. done. Qed.

Lemma oc_item : Cursor.item c = Some (Some (chunk_of (x ++ y))).
Proof. by rewrite (split_at_item _ _ _ _ (oc_split _ _ _ _ _ Hc)). Qed.

Lemma oc_start : Cursor.start c = Str.len (concat ps).
Proof. rewrite (split_at_start _ _ _ _ (oc_split _ _ _ _ _ Hc)). apply offset_after, oc_texts. Qed.

Lemma oc_end : Cursor.end_ c = Some (Str.len (concat ps ++ x ++ y)).
Proof.
  rewrite (split_at_end _ _ _ _ (oc_split _ _ _ _ _ Hc)). f_equal. destruct oc_texts as (Hps & Hq & _).
  change (map chunk_of ps ++ option_list (head (map chunk_of ((x ++ y) :: qs)))) with (map chunk_of ps ++ map chunk_of [x ++ y]).
  rewrite <-map_app, offset_after by (apply Forall_app; by split; [|constructor]).
  rewrite concat_app. cbn [concat]. by rewrite app_nil_r.
Qed.

Lemma oc_holds : holds r (concat ps ++ (x ++ y) ++ concat qs).
Proof. exists (ps ++ (x ++ y) :: qs). split; [apply Hc|]. by rewrite concat_app. Qed.

(** One chunk further. *)
Lemma oc_next : walkable r → ∃ c', Cursor.next c = Some c' ∧
  ((∃ q qs', qs = q :: qs' ∧ on_chunk c' (ps ++ [x ++ y]) [] q qs') ∨ (qs = [] ∧ past_end c' (ps ++ [x ++ y]))).
Proof.
  intros Hwalk. destruct Hc as [Htree Hsplit]. pose proof Htree as (Hok & _ & _).
  destruct (next_spec (chunks r) (conj Hok Hwalk) _ _ _ _ Hsplit) as (c' & -> & Hc'). exists c'. split; [done|].
  change (map chunk_of ps ++ [chunk_of (x ++ y)]) with (map chunk_of ps ++ map chunk_of [x ++ y]) in Hc'.
  rewrite <-map_app in Hc'. rewrite cons_middle, app_assoc in Htree.
  destruct qs as [|q qs']; [right|left; exists q, qs']; (split; [done|]); split; try done. by rewrite app_nil_r in Htree.
Qed.

(** One chunk back. *)
Lemma oc_prev : walkable r → ∃ c', Cursor.prev c = Some c' ∧
  ((∃ ps' p, ps = ps' ++ [p] ∧ on_chunk c' ps' p [] ((x ++ y) :: qs)) ∨ (ps = [] ∧ before_start (chunks r) c')).
Proof.
  intros Hwalk. destruct Hc as [Htree Hsplit]. pose proof Htree as (Hok & _ & _).
  destruct ps as [|p ps' _] using rev_ind.
  - destruct (prev_first (chunks r) (conj Hok Hwalk) _ _ Hsplit) as (c' & -> & Hc'); [done|]. eauto.
  - rewrite map_app in Hsplit. destruct (prev_spec (chunks r) (conj Hok Hwalk) _ _ _ _ Hsplit) as (c' & -> & Hc').
    exists c'. split; [done|]. left. exists ps', p. split; [done|]. split; rewrite app_nil_r; [|done].
    by rewrite <-app_assoc in Htree.
Qed.
End on.

Section past.
Context {c texts} (Hc : past_end c texts).

Lemma pe_item : Cursor.item c = Some None.
Proof. by rewrite (split_at_item _ _ _ _ (pe_split _ _ Hc)). Qed.

Lemma pe_start : Cursor.start c = Str.len (concat texts).
Proof. rewrite (split_at_start _ _ _ _ (pe_split _ _ Hc)). apply offset_after, Hc. Qed.

Lemma pe_end : Cursor.end_ c = Some (Str.len (concat texts)).
Proof. rewrite (split_at_end _ _ _ _ (pe_split _ _ Hc)). simpl. rewrite app_nil_r. f_equal. apply offset_after, Hc. Qed.

Lemma pe_holds : holds r (concat texts).
Proof. exists texts. split; [apply Hc|done]. Qed.
End past.

(** *** Seeking *)

(** The cursor is in the chunk that holds the position between [a] and [b]; the
    position is not at the chunk's end for [Right], and not at its start for
    [Left], unless the seek began there. *)
Definition sought bias (begun : bool) c a b : Prop :=
  (∃ ps x y qs, on_chunk c ps x y qs ∧ a = concat ps ++ x ∧ b = y ++ concat qs ∧
     match bias with Left => begun = true ∨ x ≠ [] | Right => y ≠ [] end) ∨
  (∃ texts, past_end c texts ∧ a = concat texts ∧ b = [] ∧ (bias = Left → begun = true)).

Lemma sought_lands bias c us texts x0 b bs p rs : tree_holds (chunks r) (us ++ texts) → concat texts = x0 ++ b →
  (N.of_nat (Str.len (concat us ++ x0 ++ b)) <= u32_max)%N →
  lin_seek (S:=RopeSummary) (seek_ord (Str.len (concat us ++ x0))) bias (measure (concat us) : nat) (map chunk_of texts) = (bs, p, rs) →
  split_at (chunks r) c (map chunk_of us ++ bs) rs → sought bias (bool_decide (x0 = [])) c (concat us ++ x0) b.
Proof.
  intros Htree Hcat Hlen Hlin Hsplit. pose proof Htree as (_ & _ & [_ Htexts]%Forall_app).
  destruct (texts_seek _ _ _ _ _ _ _ Htexts Hlin) as (ps & qs & -> & -> & -> & _ & Hstops).
  pose proof (seek_finds N.of_nat (Str.len (concat us ++ x0)) (seek_ord (Str.len (concat us ++ x0))) (λ _, eq_refl) bias
    (concat us) x0 b ps qs eq_refl Hcat Hlen Hstops) as Hat.
  rewrite <-map_app in Hsplit. rewrite app_assoc in Htree. destruct qs as [|q qs].
  - destruct Hat as (-> & -> & Hps). right. exists (us ++ ps). rewrite app_nil_r in Htree. split_and!; [by split|by rewrite concat_app|done|].
    intros Hb. by rewrite (Hps Hb).
  - destruct Hat as (x & y & -> & -> & -> & Hbias). left. exists (us ++ ps), x, y, qs.
    split_and!; [by split|by rewrite concat_app, app_assoc|done|].
    destruct bias; [|done]. destruct Hbias as [->|Hx]; [|by right]. simpl. destruct x; [by left|by right].
Qed.

Context (s : str) (Hr : holds r s) (Hwalk : walkable r) (Hlen : (N.of_nat (Str.len s) <= u32_max)%N).

Lemma seek_sought bias c a b : Cursor.tree c = chunks r → s = a ++ b →
  ∃ f c', Cursor.seek (seek_ord (Str.len a)) bias c = Some (f, c') ∧ sought bias (bool_decide (a = [])) c' a b.
Proof.
  intros Htree ->. destruct Hr as (texts & Hth & Hcat). pose proof Hth as (Hok & Hl & Htexts).
  pose proof (seek_spec (D:=nat) (chunks r) (seek_ord (Str.len a)) bias c (conj Hok Hwalk) Htree) as Hseek.
  pose proof (offsets_monotone (Str.len a) texts [] Htexts (Forall_nil_2 _)) as Hm. rewrite <-Hl in Hm.
  destruct (lin_seek _ _ _ _) as [[bs p] rs] eqn:Hlin. rewrite Hl in Hlin.
  destruct Hseek as (c' & -> & Hc'); [apply Hm; simpl; by rewrite <-Hcat|by destruct (Str.len a)|].
  eexists _, _. split; [done|]. exact (sought_lands bias c' [] texts a b bs p rs Hth (eq_sym Hcat) Hlen Hlin Hc').
Qed.

(** Seeking forward from behind the chunks [us]. *)
Lemma seek_forward_sought bias c us texts x0 b : tree_holds (chunks r) (us ++ texts) →
  split_at (chunks r) c (map chunk_of us) (map chunk_of texts) → s = (concat us ++ x0) ++ b →
  ∃ f c', Cursor.seek_forward (seek_ord (Str.len (concat us ++ x0))) bias c = Some (f, c') ∧
    sought bias (bool_decide (x0 = [])) c' (concat us ++ x0) b.
Proof.
  intros Htree Hsplit Hs. pose proof Htree as (Hok & Hl & Htexts).
  assert (concat texts = x0 ++ b) as Hcat.
  { destruct Hr as (all & Hall & Hs'). rewrite <-(tree_holds_unique _ _ _ Htree Hall) in Hs'.
    rewrite Hs, concat_app, <-app_assoc in Hs'. by apply app_inv_head in Hs'. }
  apply Forall_app in Htexts as [Hus Hts].
  pose proof (seek_forward_spec (chunks r) (seek_ord (Str.len (concat us ++ x0))) bias _ _ _ (conj Hok Hwalk) (ready_split _ _ _ _ Hsplit)) as Hseek.
  specialize (Hseek (offsets_monotone _ texts us Hts Hus ltac:(by rewrite concat_app, Hcat, app_assoc, <-Hs))).
  rewrite (offset_after us Hus) in Hseek. destruct (lin_seek _ _ _ _) as [[bs p] rs] eqn:Hlin.
  destruct Hseek as (c' & -> & Hc').
  { unfold seek_ord, cmp, nat_ord. rewrite Str_len_app. intros Hlt%Nat.compare_lt_iff. lia. }
  eexists _, _. split; [done|]. apply (sought_lands bias c' us texts x0 b bs p rs); [done..| |exact Hlin|done].
  by rewrite app_assoc, <-Hs.
Qed.
End cursors.

#[global] Arguments oc_tree {r c ps x y qs} _.
#[global] Arguments oc_split {r c ps x y qs} _.
#[global] Arguments oc_same {r c ps x y x' y' qs} _ _.
#[global] Arguments oc_texts {r c ps x y qs} _.
#[global] Arguments oc_item {r c ps x y qs} _.
#[global] Arguments oc_start {r c ps x y qs} _.
#[global] Arguments oc_end {r c ps x y qs} _.
#[global] Arguments oc_holds {r c ps x y qs} _.
#[global] Arguments oc_next {r c ps x y qs} _ _.
#[global] Arguments oc_prev {r c ps x y qs} _ _.
#[global] Arguments pe_tree {r c texts} _.
#[global] Arguments pe_split {r c texts} _.
#[global] Arguments pe_item {r c texts} _.
#[global] Arguments pe_start {r c texts} _.
#[global] Arguments pe_end {r c texts} _.
#[global] Arguments pe_holds {r c texts} _.

(** ** Pieces *)

(** What the iterators yield. *)
Definition piece_ok (z : str) : Prop := z ≠ [] ∧ Str.len z <= 128.

(** The piece [z] of [m] leaves [m'], from the front or from the back. *)
Definition takes (rev : bool) (m z m' : str) : Prop := if rev then m = m' ++ z else m = z ++ m'.

Definition joined (rev : bool) (pieces : list str) : str := concat (if rev then reverse pieces else pieces).

Lemma joined_cons rev z pieces m m' : joined rev pieces = m' → takes rev m z m' → joined rev (z :: pieces) = m.
Proof.
  destruct rev; simpl; unfold joined; intros <- ->; [|done].
  rewrite reverse_cons, concat_app. cbn [concat]. by rewrite app_nil_r.
Qed.

Lemma takes_len rev m z m' : takes rev m z m' → Str.len m = Str.len z + Str.len m'.
Proof. destruct rev; simpl; intros ->; rewrite Str_len_app; lia. Qed.

Section pieces.
Context (r : Rope) (s : str) (Hr : holds r s) (Hwalk : walkable r) (Hlen : (N.of_nat (Str.len s) <= u32_max)%N).
Implicit Types c : Chunks.t.

(** The position of the iterator [c] over the range [m1 ++ m2] behind [u]: it has
    yielded [m1], or, in reverse, [m2]. *)
Record window (c : Chunks.t) (rev : bool) (u m1 m2 : str) : Prop := {
  win_range : Chunks.range c = (Str.len u, Str.len (u ++ m1 ++ m2));
  win_offset : Chunks.offset c = Str.len (u ++ m1);
  win_reversed : Chunks.reversed c = rev;
}.

Definition fwd (c : Chunks.t) (u m1 m2 v : str) : Prop :=
  window c false u m1 m2 ∧ s = (u ++ m1) ++ m2 ++ v ∧
  ((∃ ps x y qs, on_chunk r (Chunks.cursor c) ps x y qs ∧ u ++ m1 = concat ps ++ x ∧ m2 ++ v = y ++ concat qs ∧
      (m2 = [] ∨ y ≠ [])) ∨
   (∃ texts, past_end r (Chunks.cursor c) texts ∧ u ++ m1 = concat texts ∧ m2 = [] ∧ v = [])).

Definition bwd (c : Chunks.t) (u m1 m2 v : str) : Prop :=
  window c true u m1 m2 ∧ s = (u ++ m1) ++ m2 ++ v ∧
  (m1 = [] ∨ ∃ ps x y qs, on_chunk r (Chunks.cursor c) ps x y qs ∧ u ++ m1 = concat ps ++ x ∧ m2 ++ v = y ++ concat qs ∧ x ≠ []).

Lemma valid_fwd c u m1 m2 : window c false u m1 m2 → Chunks.offset_is_valid c = negb (bool_decide (m2 = [])).
Proof.
  intros [Hrange Hoff Hrev]. unfold Chunks.offset_is_valid. rewrite Hrange, Hoff, Hrev. simpl. rewrite !Str_len_app.
  destruct (Nat.ltb_spec (Str.len u + Str.len m1) (Str.len u)); [lia|]. simpl.
  case_bool_decide as Hm; [subst; change (Str.len []) with 0; f_equal; apply Nat.leb_le; lia|].
  f_equal. apply Nat.leb_gt. assert (Str.len m2 ≠ 0) by (by intros ?%Str_len_zero). lia.
Qed.

Lemma valid_bwd c u m1 m2 : window c true u m1 m2 → Chunks.offset_is_valid c = negb (bool_decide (m1 = [])).
Proof.
  intros [Hrange Hoff Hrev]. unfold Chunks.offset_is_valid. rewrite Hrange, Hoff, Hrev. simpl. rewrite !Str_len_app.
  destruct (Nat.ltb_spec (Str.len u + (Str.len m1 + Str.len m2)) (Str.len u + Str.len m1)); [lia|]. rewrite orb_false_r.
  case_bool_decide as Hm; [subst; change (Str.len []) with 0; f_equal; apply Nat.leb_le; lia|].
  f_equal. apply Nat.leb_gt. assert (Str.len m1 ≠ 0) by (by intros ?%Str_len_zero). lia.
Qed.

(** The window of the chunk [x ++ z ++ y] is [z]. *)
Definition shows (c : Chunks.t) (z tail : str) : Prop :=
  Chunks.peek c = Some (Some z) ∧
  Chunks.peek_with_bitmaps c = Some (Some (ChunkBitmaps.mk z (bits (marks char_mark (z ++ tail)))
    (bits (marks tab_mark (z ++ tail))) (bits (marks newline_mark (z ++ tail))))).

Lemma chunk_shows c ps x z y qs : on_chunk r (Chunks.cursor c) ps (x ++ z) y qs ∨ on_chunk r (Chunks.cursor c) ps x (z ++ y) qs →
  Chunks.offset_is_valid c = true → Chunks.slice_range c = Some (Str.len x, Str.len (x ++ z)) → Str.len x < 128 → shows c z y.
Proof.
  intros Hoc Hvalid Hslice Hx.
  assert (on_chunk r (Chunks.cursor c) ps x (z ++ y) qs) as Hc.
  { destruct Hoc as [Hoc|Hoc]; [|done]. apply (oc_same Hoc). by rewrite app_assoc. }
  destruct (oc_texts Hc) as (_ & (Hok & _ & Hlen') & _).
  unfold shows, Chunks.peek, Chunks.peek_with_bitmaps. rewrite Hvalid, (oc_item Hc), Hslice. cbn [negb mbind option_bind].
  unfold chunk_of. cbn [chunk_text chunk_chars chunk_tabs chunk_newlines].
  rewrite (Str_slice_mid x z y) by done. cbn [mbind option_bind]. split; [done|].
  rewrite !shr_bits by done. cbn [mbind option_bind]. by rewrite !drop_marks by apply _.
Qed.

(** *** Forwards *)

(** What [sought] says of a forward iterator. *)
Lemma fwd_sought cursor off u m1 m2 v : sought r Right off cursor (u ++ m1) (m2 ++ v) → s = (u ++ m1) ++ m2 ++ v →
  fwd (Chunks.mk cursor (Str.len u, Str.len (u ++ m1 ++ m2)) (Str.len (u ++ m1)) false) u m1 m2 v.
Proof.
  intros Hsought Hs. split; [done|]. split; [done|].
  destruct Hsought as [(ps & x & y & qs & Hc & Ha & Hb & Hy)|(texts & Hc & Ha & Hb & _)].
  - left. exists ps, x, y, qs. auto.
  - right. apply app_eq_nil in Hb as [-> ->]. by exists texts.
Qed.

Lemma fwd_peek_end c u m1 v : fwd c u m1 [] v → Chunks.next c = Some (None, c) ∧ Chunks.peek c = Some None ∧
  Chunks.next_with_bitmaps c = Some (None, c).
Proof.
  intros (Hwin & _). unfold Chunks.next, Chunks.next_with_bitmaps, Chunks.peek, Chunks.peek_with_bitmaps.
  by rewrite (valid_fwd _ _ _ _ Hwin).
Qed.

(** In front of a piece [z]: the cursor's chunk has it, or what the range has of
    it, and it is shown. *)
Lemma chunk_piece c ps x y0 qs u m1 m2 v : window c false u m1 m2 → on_chunk r (Chunks.cursor c) ps x y0 qs →
  u ++ m1 = concat ps ++ x → m2 ++ v = y0 ++ concat qs → y0 ≠ [] → m2 ≠ [] → ∃ z y m', y0 = z ++ y ∧
  m2 = z ++ m' ∧ m' ++ v = y ++ concat qs ∧ (y = [] ∨ m' = []) ∧ piece_ok z ∧ shows c z y.
Proof.
  intros Hwin Hc Ha Hb Hy Hne. pose proof Hwin as [Hrange Hoff Hrev].
  destruct (common_prefix y0 (concat qs) m2 v (eq_sym Hb)) as (z & y & m' & -> & -> & Hor). exists z, y, m'.
  destruct (oc_texts Hc) as (_ & (_ & _ & Hlen') & _). rewrite !Str_len_app in Hlen'.
  assert (z ≠ []) as Hz by (intros ->; destruct Hor; done).
  assert (Str.len z ≠ 0) as Hz0 by (by intros ?%Str_len_zero).
  pose proof (f_equal Str.len Ha) as Hla. rewrite !Str_len_app in Hla.
  rewrite <-!app_assoc in Hb. apply app_inv_head in Hb. split_and!; [done..|split; [done|lia]|].
  apply (chunk_shows c ps x z y qs); [by right|by rewrite (valid_fwd _ _ _ _ Hwin), bool_decide_false| |lia].
  unfold Chunks.slice_range. rewrite Hrange, Hoff, Hrev, (oc_start Hc), (oc_end Hc), Ha, checked_sub_str. cbn [mbind option_bind fst snd].
  rewrite checked_sub_nat_Some by (rewrite !Str_len_app; lia). cbn [mbind option_bind].
  do 2 f_equal. rewrite !Str_len_app. destruct Hor as [->| ->]; change (Str.len []) with 0; lia.
Qed.

Lemma fwd_at c u m1 m2 v : fwd c u m1 m2 v → m2 ≠ [] → ∃ ps x z y qs m', on_chunk r (Chunks.cursor c) ps x (z ++ y) qs ∧
  u ++ m1 = concat ps ++ x ∧ m2 = z ++ m' ∧ m' ++ v = y ++ concat qs ∧ (y = [] ∨ m' = []) ∧ piece_ok z ∧ shows c z y.
Proof.
  intros (Hwin & Hs & [(ps & x & y0 & qs & Hc & Ha & Hb & [->|Hy])|(? & _ & _ & -> & _)]) Hne; [done| |done].
  destruct (chunk_piece c ps x y0 qs u m1 m2 v Hwin Hc Ha Hb Hy Hne) as (z & y & m' & -> & -> & ? & ? & ? & ?).
  exists ps, x, z, y, qs, m'. done.
Qed.

(** [advance] moves behind the piece. *)
Lemma fwd_piece c u m1 m2 v : fwd c u m1 m2 v → m2 ≠ [] → ∃ z m' tail, m2 = z ++ m' ∧ piece_ok z ∧ shows c z tail ∧
  ∃ c', Chunks.advance c (Str.len z) = Some c' ∧ fwd c' u (m1 ++ z) m' v.
Proof.
  intros Hfwd Hne. destruct (fwd_at c u m1 m2 v Hfwd Hne) as (ps & x & z & y & qs & m' & Hc & Ha & -> & Hb & Hor & Hz & Hshows).
  exists z, m', y. split; [done|]. split; [done|]. split; [done|]. destruct Hfwd as ([Hrange Hoff Hrev] & Hs & _).
  unfold Chunks.advance. rewrite Hrange, Hoff, Hrev, (oc_end Hc). cbn [mbind option_bind].
  assert (Str.len (u ++ m1) + Str.len z = Str.len (u ++ m1 ++ z)) as -> by (rewrite !Str_len_app; lia).
  assert (s = (u ++ m1 ++ z) ++ m' ++ v) as Hs' by (rewrite Hs, <-!app_assoc; done).
  assert (u ++ m1 ++ z = concat ps ++ x ++ z) as Ha' by (by rewrite app_assoc, Ha, <-app_assoc).
  assert ((Str.len (concat ps ++ x ++ z ++ y) <=? Str.len (u ++ m1 ++ z)) = bool_decide (y = [])) as ->.
  { rewrite Ha', !Str_len_app. case_bool_decide as Hy0; [subst; change (Str.len []) with 0; apply Nat.leb_le; lia|].
    apply Nat.leb_gt. assert (Str.len y ≠ 0) by (by intros ?%Str_len_zero). lia. }
  case_bool_decide as Hy0.
  - subst y. rewrite app_nil_r in Hc. simpl in Hb. destruct (oc_next Hc Hwalk) as (cur & -> & Hnext). cbn [mbind option_bind].
    eexists. split; [done|]. split; [split; [simpl; by rewrite <-(app_assoc m1)|done|done]|]. split; [done|]. cbn [Chunks.cursor].
    destruct Hnext as [(q & qs' & -> & Hcur)|[-> Hcur]].
    + left. exists (ps ++ [x ++ z]), [], q, qs'. split_and!; [done| |done|right; apply (oc_texts Hcur)].
      rewrite concat_app. cbn [concat]. by rewrite !app_nil_r.
    + right. exists (ps ++ [x ++ z]). apply app_eq_nil in Hb as [-> ->]. split_and!; [done| |done..].
      rewrite concat_app. cbn [concat]. by rewrite !app_nil_r.
  - destruct Hor as [->| ->]; [done|]. eexists. split; [done|]. split; [split; [simpl; by rewrite <-(app_assoc m1)|done|done]|].
    split; [done|]. cbn [Chunks.cursor].
    left. exists ps, (x ++ z), y, qs. split_and!; [apply (oc_same Hc); by rewrite app_assoc|done|done|by left].
Qed.

(** *** Backwards *)

Lemma bwd_sought cursor u m1 m2 v : sought r Left (bool_decide (u ++ m1 = [])) cursor (u ++ m1) (m2 ++ v) → s = (u ++ m1) ++ m2 ++ v →
  bwd (Chunks.mk cursor (Str.len u, Str.len (u ++ m1 ++ m2)) (Str.len (u ++ m1)) true) u m1 m2 v.
Proof.
  intros Hsought Hs. split; [done|]. split; [done|]. destruct (decide (m1 = [])) as [|Hm]; [by left|right].
  rewrite bool_decide_false in Hsought by (by intros [_ ?]%app_eq_nil).
  destruct Hsought as [(ps & x & y & qs & Hc & Ha & Hb & [?|Hx])|(texts & _ & _ & _ & Hl)]; [done| |by specialize (Hl eq_refl)].
  exists ps, x, y, qs. auto.
Qed.

Lemma bwd_peek_end c u m2 v : bwd c u [] m2 v → Chunks.next c = Some (None, c) ∧ Chunks.peek c = Some None ∧
  Chunks.next_with_bitmaps c = Some (None, c).
Proof.
  intros (Hwin & _). unfold Chunks.next, Chunks.next_with_bitmaps, Chunks.peek, Chunks.peek_with_bitmaps.
  by rewrite (valid_bwd _ _ _ _ Hwin).
Qed.

Lemma bwd_piece c u m1 m2 v : bwd c u m1 m2 v → m1 ≠ [] → ∃ z m' tail, m1 = m' ++ z ∧ piece_ok z ∧ shows c z tail ∧
  ∃ c', Chunks.advance c (Str.len z) = Some c' ∧ bwd c' u m' (z ++ m2) v.
Proof.
  intros (Hwin & Hs & [->|(ps & x & y & qs & Hc & Ha & Hb & Hx)]) Hne; [done|]. pose proof Hwin as [Hrange Hoff Hrev].
  destruct (common_suffix (concat ps) x u m1 (eq_sym Ha)) as (z & x' & m' & -> & -> & Hor). exists z, m', y.
  destruct (oc_texts Hc) as (_ & (_ & _ & Hlen') & _). rewrite !Str_len_app in Hlen'.
  assert (z ≠ []) as Hz by (intros ->; destruct Hor as [->| ->]; done).
  assert (Str.len z ≠ 0) as Hz0 by (by intros ?%Str_len_zero).
  pose proof (f_equal Str.len Ha) as Hla. rewrite !Str_len_app in Hla.
  split; [done|]. split; [split; [done|lia]|]. split.
  { apply (chunk_shows c ps x' z y qs); [by left|by rewrite (valid_bwd _ _ _ _ Hwin), bool_decide_false| |lia].
    unfold Chunks.slice_range. rewrite Hrange, Hoff, Hrev, (oc_start Hc). cbn [fst snd].
    rewrite (checked_sub_nat_Some (_ `max` _)) by lia. cbn [mbind option_bind].
    rewrite checked_sub_nat_Some by (rewrite !Str_len_app; lia). cbn [mbind option_bind].
    do 2 f_equal; rewrite ?Str_len_app; destruct Hor as [->| ->]; change (Str.len []) with 0 in *; lia. }
  unfold Chunks.advance. rewrite Hrange, Hoff, Hrev, (oc_start Hc).
  rewrite checked_sub_nat_Some by (rewrite !Str_len_app; lia). cbn [mbind option_bind].
  assert (Str.len (u ++ m' ++ z) - Str.len z = Str.len (u ++ m')) as -> by (rewrite !Str_len_app; lia).
  rewrite !app_assoc in Ha. apply app_inv_tail in Ha.
  assert (s = (u ++ m') ++ (z ++ m2) ++ v) as Hs' by (rewrite Hs, <-!app_assoc; done).
  assert ((Str.len (u ++ m') <=? Str.len (concat ps)) = bool_decide (x' = [])) as ->.
  { rewrite Ha, Str_len_app. case_bool_decide as Hx0; [subst; change (Str.len []) with 0; apply Nat.leb_le; lia|].
    apply Nat.leb_gt. assert (Str.len x' ≠ 0) by (by intros ?%Str_len_zero). lia. }
  assert (Str.len (u ++ (m' ++ z) ++ m2) = Str.len (u ++ m' ++ z ++ m2)) as -> by (by rewrite <-app_assoc).
  case_bool_decide as Hx0.
  - subst x'. rewrite app_nil_r in Ha. destruct (oc_prev Hc Hwalk) as (cur & -> & Hprev). cbn [mbind option_bind].
    eexists. split; [done|]. split; [done|]. split; [done|]. cbn [Chunks.cursor].
    destruct Hprev as [(ps' & p & -> & Hcur)|[-> _]]; [right|left; by apply app_eq_nil in Ha as [_ ?]].
    exists ps', p, [], (((z ++ y) :: qs)). split_and!; [done| | |].
    + rewrite Ha, concat_app. cbn [concat]. by rewrite app_nil_r.
    + cbn [concat app]. by rewrite <-!app_assoc, Hb.
    + destruct (oc_texts Hcur) as (_ & (_ & ? & _) & _). by rewrite app_nil_r in *.
  - destruct Hor as [->| ->]; [done|]. eexists. split; [done|]. split; [done|]. split; [done|]. by left.
Qed.

(** The cursor is at a chunk or behind the last one, not in front of the first. *)
Definition standing (cursor : Cursor.t Chunk RopeSummary nat) : Prop :=
  (∃ ps q qs, on_chunk r cursor ps [] q qs) ∨ (∃ texts, past_end r cursor texts).

Lemma on_chunk_standing cursor ps x y qs : on_chunk r cursor ps x y qs → standing cursor.
Proof. intros Hc. left. exists ps, (x ++ y), qs. by apply (oc_same Hc). Qed.

Lemma standing_tree cursor : standing cursor → Cursor.tree cursor = chunks r.
Proof. intros [(ps & q & qs & Hc)|(texts & Hc)]; [destruct (oc_split Hc)|destruct (pe_split Hc)]; done. Qed.

Lemma sought_standing bias off cursor a b : sought r bias off cursor a b → standing cursor.
Proof.
  intros [(ps & x & y & qs & Hc & _)|(texts & Hc & _)]; [by eapply on_chunk_standing|right; eauto].
Qed.

(** *** A new iterator *)

Lemma boundary_in_chunk cursor ps x y qs : on_chunk r cursor ps x y qs →
  Chunk.assert_char_boundary true (chunk_of (x ++ y)) (Str.len x) = Some true.
Proof.
  intros Hc. destruct (oc_texts Hc) as (_ & (Hok & _ & Hlen') & _). unfold Chunk.assert_char_boundary.
  enough (Chunk.is_char_boundary (chunk_of (x ++ y)) (Str.len x) = true) as -> by done.
  change (ChunkSlice.is_char_boundary (slice_of (x ++ y)) (Str.len x) = true).
  rewrite is_char_boundary_spec; [|done|done|rewrite Str_len_app in Hlen'; unfold u32_max; lia].
  apply Str_is_char_boundary_app. by apply Forall_app in Hok as [_ ?].
Qed.

Lemma chunks_new bias off cursor a b range rev : sought r bias off cursor a b →
  (chunk_offset ← checked_sub_nat (Str.len a) (Cursor.start cursor);
   item ← Cursor.item cursor;
   _ ← match item with Some chunk => Chunk.assert_char_boundary true chunk chunk_offset | None => Some true end;
   Some (Chunks.mk cursor range (Str.len a) rev)) = Some (Chunks.mk cursor range (Str.len a) rev).
Proof.
  intros [(ps & x & y & qs & Hc & -> & _ & _)|(texts & Hc & -> & _)].
  - rewrite (oc_start Hc), (oc_item Hc), checked_sub_str. cbn [mbind option_bind]. by rewrite (boundary_in_chunk _ _ _ _ _ Hc).
  - rewrite (pe_start Hc), (pe_item Hc), checked_sub_nat_Some by done. done.
Qed.

Lemma fwd_new u m v : s = u ++ m ++ v →
  ∃ c, Chunks.new r (Str.len u, Str.len (u ++ m)) false = Some c ∧ fwd c u [] m v ∧ standing (Chunks.cursor c).
Proof.
  intros Hs. unfold Chunks.new. cbn [fst snd].
  destruct (seek_sought r s Hr Hwalk Hlen Right (Cursor.new (chunks r)) u (m ++ v) eq_refl Hs) as (f & cur & -> & Hcur).
  cbn [mbind option_bind]. eexists. split; [exact (chunks_new _ _ _ _ _ _ _ Hcur)|].
  split; [|by eapply sought_standing].
  pose proof (fwd_sought cur (bool_decide (u = [])) u [] m v) as Hfwd. rewrite app_nil_r in Hfwd. exact (Hfwd Hcur Hs).
Qed.

Lemma bwd_new u m v : s = u ++ m ++ v →
  ∃ c, Chunks.new r (Str.len u, Str.len (u ++ m)) true = Some c ∧ bwd c u m [] v ∧ standing (Chunks.cursor c).
Proof.
  intros Hs. unfold Chunks.new. cbn [fst snd]. rewrite app_assoc in Hs.
  destruct (seek_sought r s Hr Hwalk Hlen Left (Cursor.new (chunks r)) (u ++ m) v eq_refl Hs) as (f & cur & -> & Hcur).
  cbn [mbind option_bind]. eexists. split; [exact (chunks_new _ _ _ _ _ _ _ Hcur)|].
  split; [|by eapply sought_standing].
  pose proof (bwd_sought cur u m [] v Hcur Hs) as Hbwd. by rewrite app_nil_r in Hbwd.
Qed.

(** *** Both directions *)

(** The iterator has [m] left of its range. *)
Definition yields (rev : bool) c (m : str) : Prop :=
  if rev then ∃ u m2 v, bwd c u m m2 v else ∃ u m1 v, fwd c u m1 m v.

Lemma yields_end rev c : yields rev c [] → Chunks.next c = Some (None, c) ∧ Chunks.peek c = Some None ∧
  Chunks.next_with_bitmaps c = Some (None, c).
Proof. destruct rev; intros (? & ? & ? & ?); [by eapply bwd_peek_end|by eapply fwd_peek_end]. Qed.

Lemma yields_piece rev c m : yields rev c m → m ≠ [] → ∃ z m' tail c', takes rev m z m' ∧ piece_ok z ∧ shows c z tail ∧
  Chunks.advance c (Str.len z) = Some c' ∧ yields rev c' m'.
Proof.
  destruct rev; intros (u & m1 & v & Hc) Hm.
  - destruct (bwd_piece _ _ _ _ _ Hc Hm) as (z & m' & tail & -> & Hz & Hs & c' & Ha & Hc'). exists z, m', tail, c'.
    split_and!; [done..|]. by exists u, (z ++ m1), v.
  - destruct (fwd_piece _ _ _ _ _ Hc Hm) as (z & m' & tail & -> & Hz & Hs & c' & Ha & Hc'). exists z, m', tail, c'.
    split_and!; [done..|]. by exists u, (m1 ++ z), v.
Qed.

Lemma shows_next c z tail c' : shows c z tail → Chunks.advance c (Str.len z) = Some c' →
  Chunks.next c = Some (Some z, c') ∧
  Chunks.next_with_bitmaps c = Some (Some (ChunkBitmaps.mk z (bits (marks char_mark (z ++ tail)))
    (bits (marks tab_mark (z ++ tail))) (bits (marks newline_mark (z ++ tail)))), c').
Proof.
  intros [Hpeek Hbits] Ha. unfold Chunks.next, Chunks.next_with_bitmaps. rewrite Hpeek, Hbits. cbn [mbind option_bind ChunkBitmaps.text].
  by rewrite Ha.
Qed.

Lemma yields_next rev c m : yields rev c m → m ≠ [] → ∃ z m' c', takes rev m z m' ∧ piece_ok z ∧
  Chunks.peek c = Some (Some z) ∧ Chunks.next c = Some (Some z, c') ∧ yields rev c' m'.
Proof.
  intros Hc Hm. destruct (yields_piece rev c m Hc Hm) as (z & m' & tail & c' & Htakes & Hz & Hs & Ha & Hc').
  exists z, m', c'. destruct (shows_next _ _ _ _ Hs Ha) as [Hnext _]. split_and!; try done. apply Hs.
Qed.

Lemma yields_new rev u m v : s = u ++ m ++ v → ∃ c, Chunks.new r (Str.len u, Str.len (u ++ m)) rev = Some c ∧
  yields rev c m ∧ Chunks.fuel c = S (Str.len m) ∧ Chunks.reversed c = rev ∧
  Chunks.range c = (Str.len u, Str.len (u ++ m)) ∧ standing (Chunks.cursor c).
Proof.
  intros Hs. assert (S (Str.len (u ++ m) - Str.len u) = S (Str.len m)) as Hfuel by (rewrite Str_len_app; lia).
  unfold Chunks.fuel. destruct rev.
  - destruct (bwd_new u m v Hs) as (c & Hnew & Hc & Hst). exists c. split; [done|]. pose proof Hc as ([Hrange _ Hrev] & _).
    split; [by exists u, [], v|]. by rewrite Hrange, app_nil_r.
  - destruct (fwd_new u m v Hs) as (c & Hnew & Hc & Hst). exists c. split; [done|]. pose proof Hc as ([Hrange _ Hrev] & _).
    split; [by exists u, [], v|]. by rewrite Hrange.
Qed.

(** *** Collecting *)

Lemma drain_pieces rev fuel c m : yields rev c m → Str.len m < fuel →
  ∃ pieces, drain Chunks.next fuel c = Some pieces ∧ joined rev pieces = m ∧ Forall piece_ok pieces.
Proof.
  revert c m. induction fuel as [|fuel IH]; intros c m Hc Hfuel; [lia|]. simpl. destruct (decide (m = [])) as [->|Hm].
  - destruct (yields_end rev c Hc) as [-> _]. exists []. by destruct rev.
  - destruct (yields_next rev c m Hc Hm) as (z & m' & c' & Htakes & Hz & _ & -> & Hc'). cbn [mbind option_bind].
    pose proof (takes_len _ _ _ _ Htakes). assert (Str.len z ≠ 0) by (intros ?%Str_len_zero; by destruct Hz).
    destruct (IH c' m' Hc') as (pieces & -> & Hj & Hok); [lia|]. exists (z :: pieces). split_and!; [done|by eapply joined_cons|by constructor].
Qed.

(** The bitmaps of a piece: the bits of its bytes are right. *)
Definition bitmaps_ok (b : ChunkBitmaps.t) : Prop :=
  let mask := N.ones (N.of_nat (Str.len (ChunkBitmaps.text b))) in
  N.land (ChunkBitmaps.chars b) mask = bits (marks char_mark (ChunkBitmaps.text b)) ∧
  N.land (ChunkBitmaps.tabs b) mask = bits (marks tab_mark (ChunkBitmaps.text b)) ∧
  N.land (ChunkBitmaps.newlines b) mask = bits (marks newline_mark (ChunkBitmaps.text b)).

Lemma drain_bitmaps rev fuel c m : yields rev c m → Str.len m < fuel →
  ∃ l, drain Chunks.next_with_bitmaps fuel c = Some l ∧ joined rev (map ChunkBitmaps.text l) = m ∧ Forall bitmaps_ok l.
Proof.
  revert c m. induction fuel as [|fuel IH]; intros c m Hc Hfuel; [lia|]. simpl. destruct (decide (m = [])) as [->|Hm].
  - destruct (yields_end rev c Hc) as (_ & _ & ->). exists []. by destruct rev.
  - destruct (yields_piece rev c m Hc Hm) as (z & m' & tail & c' & Htakes & Hz & Hshows & Ha & Hc').
    destruct (shows_next _ _ _ _ Hshows Ha) as [_ ->]. cbn [mbind option_bind].
    pose proof (takes_len _ _ _ _ Htakes). assert (Str.len z ≠ 0) by (intros ?%Str_len_zero; by destruct Hz).
    destruct (IH c' m' Hc') as (l & -> & Hj & Hok); [lia|]. eexists. split_and!; [done|by eapply joined_cons|constructor; [|done]].
    unfold bitmaps_ok. simpl. by rewrite !bits_take, !take_marks by apply _.
Qed.

(** *** Seeking *)

Lemma window_clamp c u m1 m2 : Chunks.range c = (Str.len u, Str.len (u ++ m1 ++ m2)) →
  clamp (Str.len (u ++ m1)) (Chunks.range c).1 (Chunks.range c).2 = Some (Str.len (u ++ m1)).
Proof.
  intros ->. unfold clamp. simpl. rewrite rassert_true by (apply Nat.leb_le; rewrite !Str_len_app; lia). cbn [mbind option_bind].
  rewrite !Str_len_app. destruct (Nat.ltb_spec (Str.len u + Str.len m1) (Str.len u)); [lia|].
  destruct (Nat.ltb_spec (Str.len u + (Str.len m1 + Str.len m2)) (Str.len u + Str.len m1)); [lia|done].
Qed.

(** The chunk after the texts of [ps] holds the position. *)
Lemma cut_chunk ps q qs a b : s = a ++ b → holds r (concat ps ++ q ++ concat qs) →
  Str.len (concat ps) <= Str.len a → Str.len a <= Str.len (concat ps ++ q) →
  ∃ x y, q = x ++ y ∧ a = concat ps ++ x ∧ b = y ++ concat qs.
Proof.
  intros Hs Hh Hlo Hhi. assert (a ++ b = concat ps ++ q ++ concat qs) as Heq.
  { rewrite <-Hs. destruct Hh as (t1 & Ht1 & ->), Hr as (t2 & Ht2 & ->). by rewrite (tree_holds_unique _ _ _ Ht1 Ht2). }
  destruct (str_cut a b (concat ps) _ Heq Hlo) as (x & -> & Hx). rewrite !Str_len_app in Hhi.
  destruct (str_cut q (concat qs) x b Hx) as (y & -> & ->); [lia|]. by exists x, y.
Qed.

(** Seeking forward from where the cursor stands. *)
Lemma seek_forward_standing bias cursor start a b : standing cursor → Cursor.start cursor = start → start <= Str.len a → s = a ++ b →
  ∃ f cur, Cursor.seek_forward (seek_ord (Str.len a)) bias cursor = Some (f, cur) ∧
    sought r bias (bool_decide (start = Str.len a)) cur a b.
Proof.
  intros Hst <- Hstart Hs.
  assert (∃ us texts, tree_holds (chunks r) (us ++ texts) ∧ split_at (chunks r) cursor (map chunk_of us) (map chunk_of texts) ∧
    Cursor.start cursor = Str.len (concat us)) as (us & texts & Htree & Hsplit & Heq).
  { destruct Hst as [(ps & q & qs & Hc)|(texts & Hc)].
    - exists ps, (q :: qs). split_and!; [apply (oc_tree Hc)|apply (oc_split Hc)|apply (oc_start Hc)].
    - exists texts, []. rewrite app_nil_r. split_and!; [apply (pe_tree Hc)|apply (pe_split Hc)|apply (pe_start Hc)]. }
  rewrite Heq in *. assert (concat us ++ concat texts = a ++ b) as Hcat.
  { rewrite <-concat_app, <-Hs. destruct Hr as (t2 & Ht2 & ->). by rewrite (tree_holds_unique _ _ _ Htree Ht2). }
  destruct (str_cut a b _ _ (eq_sym Hcat) Hstart) as (x0 & -> & _).
  destruct (seek_forward_sought r s Hr Hwalk Hlen bias cursor us texts x0 b Htree Hsplit Hs) as (f & cur & Hseek & Hc').
  exists f, cur. split; [done|]. enough (bool_decide (Str.len (concat us) = Str.len (concat us ++ x0)) = bool_decide (x0 = [])) as -> by done.
  apply bool_decide_ext. rewrite Str_len_app. split; [intros ?; apply Str_len_zero; lia|intros ->; change (Str.len []) with 0; lia].
Qed.

Lemma fwd_reseek c u m1 m2 v : standing (Chunks.cursor c) → Chunks.reversed c = false →
  Chunks.range c = (Str.len u, Str.len (u ++ m1 ++ m2)) → s = (u ++ m1) ++ m2 ++ v →
  ∃ c', Chunks.seek c (Str.len (u ++ m1)) = Some c' ∧ fwd c' u m1 m2 v.
Proof.
  intros Hst Hrev Hrange Hs. unfold Chunks.seek. rewrite (window_clamp _ _ _ _ Hrange), Hrev, Hrange. cbn [mbind option_bind].
  assert (∃ e, Cursor.end_ (Chunks.cursor c) = Some e ∧ Cursor.start (Chunks.cursor c) <= e) as (e & Hend & Hle).
  { destruct Hst as [(ps & q & qs & Hc)|(texts & Hc)]; [rewrite (oc_end Hc), (oc_start Hc)|rewrite (pe_end Hc), (pe_start Hc)];
      eexists; (split; [done|]); rewrite ?Str_len_app; lia. }
  rewrite Hend. cbn [mbind option_bind]. destruct (Nat.leb_spec e (Str.len (u ++ m1))) as [He|He].
  - destruct (seek_forward_standing Right _ _ _ _ Hst eq_refl (Nat.le_trans _ _ _ Hle He) Hs) as (f & cur & -> & Hc'). cbn [mbind option_bind].
    eexists. split; [done|]. by apply (fwd_sought _ _ _ _ _ _ Hc').
  - destruct (Nat.ltb_spec (Str.len (u ++ m1)) (Cursor.start (Chunks.cursor c))) as [Hlt|Hge].
    + destruct (seek_sought r s Hr Hwalk Hlen Right _ _ _ (standing_tree _ Hst) Hs) as (f & cur & -> & Hc'). cbn [mbind option_bind].
      eexists. split; [done|]. by apply (fwd_sought _ _ _ _ _ _ Hc').
    + eexists. split; [done|]. apply (fwd_sought _ false _ _ _ _); [|done]. left.
      destruct Hst as [(ps & q & qs & Hc)|(texts & Hc)]; [|rewrite (pe_end Hc) in Hend; injection Hend as <-; rewrite (pe_start Hc) in *; lia].
      rewrite (oc_end Hc) in Hend. rewrite (oc_start Hc) in Hge. injection Hend as <-. simpl in He.
      destruct (cut_chunk ps q qs _ _ Hs (oc_holds Hc) Hge) as (x & y & -> & Hx & Hy); [lia|].
      exists ps, x, y, qs. split_and!; [by apply (oc_same Hc)|done|done|]. intros ->. rewrite Hx, app_nil_r in He. lia.
Qed.

Lemma bwd_reseek c u m1 m2 v : standing (Chunks.cursor c) → Chunks.reversed c = true →
  Chunks.range c = (Str.len u, Str.len (u ++ m1 ++ m2)) → s = (u ++ m1) ++ m2 ++ v →
  ∃ c', Chunks.seek c (Str.len (u ++ m1)) = Some c' ∧ bwd c' u m1 m2 v.
Proof.
  intros Hst Hrev Hrange Hs. unfold Chunks.seek. rewrite (window_clamp _ _ _ _ Hrange), Hrev, Hrange. cbn [mbind option_bind].
  assert (∃ e, Cursor.end_ (Chunks.cursor c) = Some e ∧ Cursor.start (Chunks.cursor c) <= e) as (e & Hend & Hle).
  { destruct Hst as [(ps & q & qs & Hc)|(texts & Hc)]; [rewrite (oc_end Hc), (oc_start Hc)|rewrite (pe_end Hc), (pe_start Hc)];
      eexists; (split; [done|]); rewrite ?Str_len_app; lia. }
  rewrite Hend. cbn [mbind option_bind]. destruct (Nat.ltb_spec e (Str.len (u ++ m1))) as [He|He].
  - destruct (seek_forward_standing Left _ _ _ _ Hst eq_refl (Nat.le_trans _ _ _ Hle (Nat.lt_le_incl _ _ He)) Hs) as (f & cur & -> & Hc'). cbn [mbind option_bind].
    eexists. split; [done|]. rewrite bool_decide_false in Hc' by lia. split; [done|]. split; [done|]. cbn [Chunks.cursor].
    destruct Hc' as [(ps & x & y & qs & Hc & Ha & Hb & [?|Hx])|(texts & _ & _ & _ & Hl)]; [done| |by specialize (Hl eq_refl)].
    right. by exists ps, x, y, qs.
  - destruct (Nat.leb_spec (Str.len (u ++ m1)) (Cursor.start (Chunks.cursor c))) as [Hle'|Hgt].
    + destruct (seek_sought r s Hr Hwalk Hlen Left _ _ _ (standing_tree _ Hst) Hs) as (f & cur & -> & Hc'). cbn [mbind option_bind].
      eexists. split; [done|]. by apply bwd_sought.
    + eexists. split; [done|]. split; [done|]. split; [done|]. right. cbn [Chunks.cursor].
      destruct Hst as [(ps & q & qs & Hc)|(texts & Hc)]; [|rewrite (pe_end Hc) in Hend; injection Hend as <-; rewrite (pe_start Hc) in *; lia].
      rewrite (oc_end Hc) in Hend. rewrite (oc_start Hc) in Hgt. injection Hend as <-. simpl in He.
      destruct (cut_chunk ps q qs _ _ Hs (oc_holds Hc)) as (x & y & -> & Hx & Hy); [lia..|].
      exists ps, x, y, qs. split_and!; [by apply (oc_same Hc)|done|done|]. intros ->. rewrite Hx, app_nil_r in Hgt. lia.
Qed.

(** An iterator in front of a piece is at a chunk. *)
Lemma fwd_standing c u m1 m2 v : fwd c u m1 m2 v → standing (Chunks.cursor c).
Proof.
  intros (_ & _ & [(ps & x & y & qs & Hc & _)|(texts & Hc & _)]); [by eapply on_chunk_standing|right; eauto].
Qed.

Lemma bwd_standing c u m1 m2 v : bwd c u m1 m2 v → m1 ≠ [] → standing (Chunks.cursor c).
Proof. intros (_ & _ & [->|(ps & x & y & qs & Hc & _)]) Hm; [done|by eapply on_chunk_standing]. Qed.
End pieces.
