(* ===== verification/RopePieces.v ===== *)
(** * Pieces, characters and comparisons of a rope

    The iterators over pieces, with and without bitmaps, and what is computed by
    them: the characters, the written text, and comparisons with a string. *)

From S2P Require Import Prelude SumTree SumTreeFacts Seek Cursor CursorFacts CursorWalk Utf8 Points Lines BitSelect Chunk ChunkBits ChunkFacts ChunkPositions TextSummary RopeTree Rope RopeFacts RopeSeek RopeCut RopeIter RopeIterFacts.

Implicit Types (s t u v a b : str) (texts ps qs : list str).

(** ** Slices as prefixes and suffixes *)

Lemma str_slice_prefix z n : n <= Str.len z → Str.slice z 0 n = None ∧ (∀ a b, z = a ++ b → Str.len a ≠ n) ∨
  ∃ a b, z = a ++ b ∧ Str.len a = n ∧ Str.slice z 0 n = Some a.
Proof.
  intros Hn. destruct (Str.slice z 0 n) as [a|] eqn:Hs.
  - right. destruct (Str_slice_inv _ _ _ _ Hs) as (p & b & -> & Hp & Ha).
    symmetry in Hp. apply Str_len_zero in Hp as ->. exists a, b. done.
  - left. split; [done|]. intros a b -> <-. by rewrite (Str_slice_mid [] a b) in Hs.
Qed.

Lemma str_slice_suffix z n : n <= Str.len z → Str.slice z n (Str.len z) = None ∧ (∀ a b, z = a ++ b → Str.len a ≠ n) ∨
  ∃ a b, z = a ++ b ∧ Str.len a = n ∧ Str.slice z n (Str.len z) = Some b.
Proof.
  intros Hn. destruct (Str.slice z n (Str.len z)) as [b|] eqn:Hs.
  - right. destruct (Str_slice_inv _ _ _ _ Hs) as (a & t & -> & -> & Hb). rewrite !Str_len_app in Hb.
    assert (t = []) as -> by (apply Str_len_zero; lia). exists a, b. by rewrite app_nil_r.
  - left. split; [done|]. intros a b -> <-. pose proof (Str_slice_mid a b []) as Hslice. rewrite app_nil_r in Hslice. by rewrite Hslice in Hs.
Qed.

(** Two prefixes of the same length are equal. *)
Lemma app_same_len a b x y : a ++ b = x ++ y → Str.len a = Str.len x → a = x ∧ b = y.
Proof.
  intros Heq Hl. destruct (str_cut a b x y Heq) as (k & -> & ->); [lia|]. rewrite Str_len_app in Hl.
  assert (k = []) as -> by (apply Str_len_zero; lia). by rewrite app_nil_r.
Qed.

Section compare.
Context (r : Rope) (s : str) (Hr : holds r s) (Hwalk : walkable r) (Hlen : (N.of_nat (Str.len s) <= u32_max)%N).
Implicit Types c : Chunks.t.

Let yields := yields r s.

Lemma piece_progress rev m z m' fuel : takes rev m z m' → piece_ok z → Str.len m < S fuel → Str.len m' < fuel.
Proof.
  intros Htakes [Hz _] Hfuel. pose proof (takes_len _ _ _ _ Htakes).
  assert (Str.len z ≠ 0) by (by intros ?%Str_len_zero). lia.
Qed.

Lemma equals_loop_spec fuel c m x y : yields false c m → Str.len m < fuel →
  Chunks.equals_loop fuel c (x ++ y) (Str.len x) = Some (bool_decide (m = y)).
Proof.
  revert c m x y. induction fuel as [|fuel IH]; intros c m x y Hc Hfuel; [lia|]. simpl. rewrite Str_len_app.
  destruct (decide (m = [])) as [->|Hm].
  - destruct (yields_end r s Hlen false c Hc) as [-> _]. cbn [mbind option_bind]. f_equal.
    case_bool_decide as Hy; [subst; change (Str.len []) with 0; apply Nat.eqb_eq; lia|].
    apply Nat.eqb_neq. assert (Str.len y ≠ 0) by (intros ?%Str_len_zero; by subst). lia.
  - destruct (yields_next r s Hr Hwalk Hlen false c m Hc Hm) as (z & m' & c' & Htakes & Hz & _ & -> & Hc').
    cbn [mbind option_bind]. pose proof (piece_progress _ _ _ _ _ Htakes Hz Hfuel) as Hfuel'. simpl in Htakes. subst m.
    destruct (Nat.leb_spec (Str.len x + Str.len y) (Str.len x)) as [Hle|_].
    + assert (y = []) as -> by (apply Str_len_zero; lia). by rewrite bool_decide_false.
    + rewrite Str_split_at_app. cbn [mbind option_bind]. unfold StrSearch.starts_with.
      case_bool_decide as Hp; [destruct Hp as [y' ->]|rewrite bool_decide_false; [done|intros <-; apply Hp; by exists m']].
      rewrite app_assoc, <-Str_len_app, (IH _ _ _ _ Hc' Hfuel'). f_equal. apply bool_decide_ext.
      split; [by intros ->|by intros ?%app_inv_head].
Qed.

Lemma equals_loop_reversed_spec fuel c m x y : yields true c m → Str.len m < fuel →
  Chunks.equals_loop_reversed fuel c (x ++ y) (Str.len x) = Some (bool_decide (m = x)).
Proof.
  revert c m x y. induction fuel as [|fuel IH]; intros c m x y Hc Hfuel; [lia|]. simpl.
  destruct (decide (m = [])) as [->|Hm].
  - destruct (yields_end r s Hlen true c Hc) as [-> _]. cbn [mbind option_bind]. f_equal.
    case_bool_decide as Hy; [by subst|]. apply Nat.eqb_neq. intros ?%Str_len_zero. by subst.
  - destruct (yields_next r s Hr Hwalk Hlen true c m Hc Hm) as (z & m' & c' & Htakes & Hz & _ & -> & Hc').
    cbn [mbind option_bind]. pose proof (piece_progress _ _ _ _ _ Htakes Hz Hfuel) as Hfuel'. simpl in Htakes. subst m.
    rewrite (Str_slice_mid [] x y) by done. cbn [mbind option_bind]. unfold StrSearch.ends_with.
    case_bool_decide as Hp; [destruct Hp as [x' ->]|rewrite bool_decide_false; [done|intros <-; apply Hp; by exists m']].
    rewrite checked_sub_nat_Some by (rewrite Str_len_app; lia). cbn [mbind option_bind].
    replace (Str.len (x' ++ z) - Str.len z) with (Str.len x') by (rewrite Str_len_app; lia).
    rewrite <-app_assoc, (IH _ _ _ _ Hc' Hfuel'). f_equal. apply bool_decide_ext.
    split; [by intros ->|by intros ?%app_inv_tail].
Qed.

Lemma nil_bool (t : str) : match t with [] => true | _ => false end = bool_decide (t = []).
Proof. by destruct t. Qed.

Lemma starts_with_loop_spec fuel c m p : yields false c m → Str.len m < fuel →
  RopeIter.starts_with_loop fuel c p = Some (bool_decide (p `prefix_of` m)).
Proof.
  revert c m p. induction fuel as [|fuel IH]; intros c m p Hc Hfuel; [lia|]. simpl.
  destruct (decide (m = [])) as [->|Hm].
  - destruct (yields_end r s Hlen false c Hc) as [-> _]. cbn [mbind option_bind]. rewrite nil_bool. f_equal.
    apply bool_decide_ext. split; [by intros ->|by intros ?%prefix_nil_inv].
  - destruct (yields_next r s Hr Hwalk Hlen false c m Hc Hm) as (z & m' & c' & Htakes & Hz & _ & -> & Hc').
    cbn [mbind option_bind]. pose proof (piece_progress _ _ _ _ _ Htakes Hz Hfuel) as Hfuel'. simpl in Htakes. subst m.
    destruct (str_slice_prefix z (Str.len p `min` Str.len z)) as [[-> Hnone]|(q & q' & -> & Hq & ->)]; [lia| |].
    + rewrite bool_decide_false; [done|]. intros [k Hk]. destruct (decide (Str.len z <= Str.len p)).
      * apply (Hnone z []); [by rewrite app_nil_r|lia].
      * destruct (str_cut z m' p k Hk) as (w & -> & _); [lia|]. apply (Hnone p w); [done|rewrite Str_len_app; lia].
    + unfold StrSearch.starts_with. case_bool_decide as Hp.
      * destruct Hp as [p' ->]. rewrite Str_split_at_app. cbn [mbind option_bind]. rewrite <-app_assoc.
        destruct p' as [|c0 p']; [rewrite app_nil_r, bool_decide_true; [done|by exists (q' ++ m')]|].
        rewrite !Str_len_app, Str_len_cons in Hq. pose proof (len_utf8_pos c0).
        assert (q' = []) as -> by (apply Str_len_zero; lia).
        rewrite (IH _ _ _ Hc' Hfuel'). f_equal. apply bool_decide_ext. simpl. split; [by apply prefix_app|by apply prefix_app_inv].
      * rewrite bool_decide_false; [done|]. intros [k Hk]. apply Hp. rewrite <-app_assoc in Hk. rewrite Str_len_app in Hq.
        destruct (str_cut p k q (q' ++ m') (eq_sym Hk)) as (w & -> & _); [lia|by exists w].
Qed.

Lemma ends_with_loop_spec fuel c m p : yields true c m → Str.len m < fuel →
  RopeIter.ends_with_loop fuel c p = Some (bool_decide (p `suffix_of` m)).
Proof.
  revert c m p. induction fuel as [|fuel IH]; intros c m p Hc Hfuel; [lia|]. simpl.
  destruct (decide (m = [])) as [->|Hm].
  - destruct (yields_end r s Hlen true c Hc) as [-> _]. cbn [mbind option_bind]. rewrite nil_bool. f_equal.
    apply bool_decide_ext. split; [by intros ->|by intros ?%suffix_nil_inv].
  - destruct (yields_next r s Hr Hwalk Hlen true c m Hc Hm) as (z & m' & c' & Htakes & Hz & _ & -> & Hc').
    cbn [mbind option_bind]. pose proof (piece_progress _ _ _ _ _ Htakes Hz Hfuel) as Hfuel'. simpl in Htakes. subst m.
    rewrite checked_sub_nat_Some by lia. cbn [mbind option_bind].
    destruct (str_slice_suffix z (Str.len z - Str.len p `min` Str.len z)) as [[-> Hnone]|(q' & q & -> & Hq & ->)]; [lia| |].
    + rewrite bool_decide_false; [done|]. intros [k Hk]. destruct (decide (Str.len z <= Str.len p)).
      * apply (Hnone [] z); [done|change (Str.len []) with 0; lia].
      * pose proof (f_equal Str.len Hk) as Hl. rewrite !Str_len_app in Hl.
        destruct (str_cut k p m' z (eq_sym Hk)) as (w & -> & ->); [lia|]. apply (Hnone w p); [done|rewrite Str_len_app in *; lia].
    + rewrite Str_len_app in Hq. unfold StrSearch.ends_with. case_bool_decide as Hp.
      * destruct Hp as [p' ->]. rewrite checked_sub_nat_Some by (rewrite Str_len_app; lia). cbn [mbind option_bind].
        rewrite (Str_slice_mid [] p' q) by (done || simpl; rewrite Str_len_app; lia). cbn [mbind option_bind].
        rewrite app_assoc.
        destruct p' as [|c0 p']; [rewrite bool_decide_true; [done|by exists (m' ++ q')]|].
        rewrite Str_len_app, Str_len_cons in Hq. pose proof (len_utf8_pos c0).
        assert (q' = []) as -> by (apply Str_len_zero; lia). rewrite app_nil_r.
        rewrite (IH _ _ _ Hc' Hfuel'). f_equal. apply bool_decide_ext. split.
        -- intros [k ->]. exists k. by rewrite app_assoc.
        -- intros [k Hk]. exists k. rewrite app_assoc in Hk. by apply app_inv_tail in Hk.
      * rewrite bool_decide_false; [done|]. intros [k Hk]. apply Hp. pose proof (f_equal Str.len Hk) as Hl.
        rewrite app_assoc in Hk. rewrite !Str_len_app in Hl.
        destruct (str_cut (m' ++ q') q k p Hk) as (w & _ & ->); [rewrite Str_len_app; lia|by exists w].
Qed.
End compare.

(** ** New iterators *)

Section new.
Context (r : Rope) (s : str) (Hr : holds r s) (Hwalk : walkable r) (Hlen : (N.of_nat (Str.len s) <= u32_max)%N).

Lemma yields_drain rev c m : yields r s rev c m → Chunks.fuel c = S (Str.len m) →
  ∃ pieces, drain Chunks.next (Chunks.fuel c) c = Some pieces ∧ joined rev pieces = m ∧ Forall piece_ok pieces.
Proof. intros Hc ->. apply (drain_pieces r s Hr Hwalk Hlen); [done|lia]. Qed.

Lemma rev_joined (pieces : list str) : concat (map (λ p : str, rev p) pieces) = rev (joined true pieces).
Proof.
  unfold joined. induction pieces as [|p pieces IH]; [done|]. simpl. rewrite IH, reverse_cons, concat_app, rev_app_distr.
  cbn [concat]. by rewrite app_nil_r.
Qed.

Lemma rope_chars_at u v : s = u ++ v → RopeIter.chars_at r (Str.len u) = Some v.
Proof.
  intros Hs. unfold RopeIter.chars_at, RopeIter.chunks_in_range. rewrite (holds_len r s Hr).
  destruct (yields_new r s Hr Hwalk Hlen false u v []) as (c & Hnew & Hc & Hfuel & _); [by rewrite app_nil_r|].
  rewrite <-Hs in Hnew. rewrite Hnew. cbn [mbind option_bind].
  destruct (yields_drain _ _ _ Hc Hfuel) as (pieces & -> & <- & _). done.
Qed.

Lemma rope_reversed_chars_at u v : s = u ++ v → RopeIter.reversed_chars_at r (Str.len u) = Some (rev u).
Proof.
  intros Hs. unfold RopeIter.reversed_chars_at, RopeIter.reversed_chunks_in_range.
  destruct (yields_new r s Hr Hwalk Hlen true [] u v Hs) as (c & Hnew & Hc & Hfuel & _). simpl in Hnew. change (Str.len []) with 0 in Hnew. rewrite Hnew.
  cbn [mbind option_bind]. destruct (yields_drain _ _ _ Hc Hfuel) as (pieces & -> & <- & _). cbn [mbind option_bind].
  by rewrite rev_joined.
Qed.

Lemma rope_iter rev : ∃ c, Chunks.new r (0, Rope.len r) rev = Some c ∧ yields r s rev c s ∧ Chunks.fuel c = S (Str.len s) ∧ Chunks.reversed c = rev.
Proof.
  rewrite (holds_len r s Hr). destruct (yields_new r s Hr Hwalk Hlen rev [] s []) as (c & Hnew & Hc & Hfuel & Hrev & _); [by rewrite app_nil_r|].
  exists c. by change (Str.len []) with 0 in Hnew.
Qed.

Lemma rope_starts_with p : RopeIter.starts_with r p = Some (bool_decide (p `prefix_of` s)).
Proof.
  unfold RopeIter.starts_with, RopeIter.chunks_in_range. destruct (rope_iter false) as (c & -> & Hc & Hfuel & _).
  rewrite (holds_len r s Hr). destruct (Nat.ltb_spec (Str.len s) (Str.len p)) as [Hlt|_].
  - rewrite bool_decide_false; [done|]. intros [k Hk]. rewrite Hk, Str_len_app in Hlt. lia.
  - cbn [mbind option_bind]. rewrite Hfuel. apply (starts_with_loop_spec r s Hr Hwalk Hlen); [done|lia].
Qed.

Lemma rope_ends_with p : RopeIter.ends_with r p = Some (bool_decide (p `suffix_of` s)).
Proof.
  unfold RopeIter.ends_with, RopeIter.reversed_chunks_in_range. destruct (rope_iter true) as (c & -> & Hc & Hfuel & _).
  rewrite (holds_len r s Hr). destruct (Nat.ltb_spec (Str.len s) (Str.len p)) as [Hlt|_].
  - rewrite bool_decide_false; [done|]. intros [k Hk]. rewrite Hk, Str_len_app in Hlt. lia.
  - cbn [mbind option_bind]. rewrite Hfuel. apply (ends_with_loop_spec r s Hr Hwalk Hlen); [done|lia].
Qed.

Lemma equals_str_spec rev u m v other : s = u ++ m ++ v →
  (c ← Chunks.new r (Str.len u, Str.len (u ++ m)) rev; Chunks.equals_str c other) = Some (bool_decide (m = other)).
Proof.
  intros Hs. destruct (yields_new r s Hr Hwalk Hlen rev u m v Hs) as (c & -> & Hc & Hfuel & Hrev & _). cbn [mbind option_bind].
  unfold Chunks.equals_str. rewrite Hrev, Hfuel. destruct rev.
  - rewrite <-(app_nil_r other) at 1. apply (equals_loop_reversed_spec r s Hr Hwalk Hlen); [done|lia].
  - apply (equals_loop_spec r s Hr Hwalk Hlen _ _ _ [] other); [done|lia].
Qed.
End new.

(** ** Properties *)

(** C23. An iterator over the pieces of a range ends and yields the text of the
    range: the pieces, none of them empty or longer than a chunk, join to it in
    order, or from the back in reverse; the bitmaps handed out with a piece mark
    its characters, tabs and newlines; and after seeking into the range it yields
    what is left from there. *)
Theorem chunks_iterate r u m1 m2 v rev (Hr : holds r (u ++ (m1 ++ m2) ++ v)) (Hwalk : walkable r)
    (Hlen : (N.of_nat (Str.len (u ++ (m1 ++ m2) ++ v)) <= u32_max)%N) :
  ∃ c, Chunks.new r (Str.len u, Str.len (u ++ m1 ++ m2)) rev = Some c ∧
    (∃ pieces, drain Chunks.next (Chunks.fuel c) c = Some pieces ∧ joined rev pieces = m1 ++ m2 ∧ Forall piece_ok pieces) ∧
    (∃ l, drain Chunks.next_with_bitmaps (Chunks.fuel c) c = Some l ∧ joined rev (map ChunkBitmaps.text l) = m1 ++ m2 ∧
       Forall bitmaps_ok l) ∧
    (∃ c' pieces, Chunks.seek c (Str.len (u ++ m1)) = Some c' ∧ drain Chunks.next (Chunks.fuel c') c' = Some pieces ∧
       joined rev pieces = if rev then m1 else m2).
Proof.
  destruct (yields_new r _ Hr Hwalk Hlen rev u (m1 ++ m2) v eq_refl) as (c & Hnew & Hc & Hfuel & Hrev & Hrange & Hst).
  exists c. split; [done|]. split; [by apply (yields_drain r _ Hr Hwalk Hlen)|].
  split; [rewrite Hfuel; apply (drain_bitmaps r _ Hr Hwalk Hlen); [done|lia]|].
  assert (∃ c', Chunks.seek c (Str.len (u ++ m1)) = Some c' ∧ Chunks.range c' = Chunks.range c ∧
    yields r (u ++ (m1 ++ m2) ++ v) rev c' (if rev then m1 else m2)) as (c' & -> & Hrange' & Hc').
  { assert (u ++ (m1 ++ m2) ++ v = (u ++ m1) ++ m2 ++ v) as Hs by (by rewrite <-!app_assoc). destruct rev.
    - destruct (bwd_reseek r _ Hr Hwalk Hlen c u m1 m2 v Hst Hrev Hrange Hs) as (c' & ? & Hc').
      exists c'. split; [done|]. split; [|by exists u, m2, v]. destruct Hc' as ([-> _ _] & _). done.
    - destruct (fwd_reseek r _ Hr Hwalk Hlen c u m1 m2 v Hst Hrev Hrange Hs) as (c' & ? & Hc').
      exists c'. split; [done|]. split; [|by exists u, m1, v]. destruct Hc' as ([-> _ _] & _). done. }
  destruct (drain_pieces r _ Hr Hwalk Hlen rev (Chunks.fuel c') c' _ Hc') as (pieces & ? & ? & _); [|by eauto].
  unfold Chunks.fuel in *. rewrite Hrange', Hfuel. rewrite Str_len_app. destruct rev; lia.
Qed.

Lemma chunks_iterate_witness :
  ∃ c pieces, Chunks.new RopeExample.rope (3, 112) true = Some c ∧ drain Chunks.next (Chunks.fuel c) c = Some pieces ∧
    joined true pieces = [10]%N ++ replicate 100 98%N ++ [0x20AC; 10; 0x1F600]%N.
Proof.
  destruct (chunks_iterate RopeExample.rope [97; 233]%N [10]%N (replicate 100 98%N ++ [0x20AC; 10; 0x1F600]%N) (replicate 60 99%N) true
    RopeExample.rope_holds RopeExample.rope_walkable example_len) as (c & Hnew & (pieces & Hd & Hj & _) & _).
  exists c, pieces. split; [exact Hnew|]. split; [exact Hd|exact Hj].
Defined.

(** What is computed piece by piece is what the whole text gives: comparing a
    range with a string in either direction, the tests for a prefix and a suffix,
    the characters from a position on, those before it in reverse, and the text
    that is written. *)
Theorem rope_comparing r u m v p rev (Hr : holds r (u ++ m ++ v)) (Hwalk : walkable r)
    (Hlen : (N.of_nat (Str.len (u ++ m ++ v)) <= u32_max)%N) :
  (c ← Chunks.new r (Str.len u, Str.len (u ++ m)) rev; Chunks.equals_str c p) = Some (bool_decide (m = p)) ∧
  RopeIter.starts_with r p = Some (bool_decide (p `prefix_of` u ++ m ++ v)) ∧
  RopeIter.ends_with r p = Some (bool_decide (p `suffix_of` u ++ m ++ v)) ∧
  RopeIter.chars_at r (Str.len u) = Some (m ++ v) ∧
  RopeIter.reversed_chars_at r (Str.len u) = Some (List.rev u) ∧
  RopeIter.chars r = Some (u ++ m ++ v) ∧ RopeIter.display r = Some (u ++ m ++ v).
Proof.
  split; [by apply (equals_str_spec r _ Hr Hwalk Hlen rev u m v)|].
  split; [by apply (rope_starts_with r _ Hr Hwalk Hlen)|]. split; [by apply (rope_ends_with r _ Hr Hwalk Hlen)|].
  split; [by apply (rope_chars_at r _ Hr Hwalk Hlen)|]. split; [by apply (rope_reversed_chars_at r _ Hr Hwalk Hlen u (m ++ v))|].
  assert (RopeIter.chars r = Some (u ++ m ++ v)) as Hchars by (by apply (rope_chars_at r _ Hr Hwalk Hlen [])).
  split; [done|]. exact Hchars.
Qed.

Lemma rope_comparing_witness :
  RopeIter.starts_with RopeExample.rope [97; 233; 10]%N = Some true ∧
  RopeIter.reversed_chars_at RopeExample.rope 3 = Some [233; 97]%N.
Proof.
  destruct (rope_comparing RopeExample.rope [97; 233]%N [] (drop 2 RopeExample.text) [97; 233; 10]%N false
    RopeExample.rope_holds RopeExample.rope_walkable example_len) as (_ & Hs & _ & _ & Hc & _).
  split; [exact Hs|exact Hc].
Defined.

(** After a reversed iterator has yielded the first piece of the rope, its cursor
    is in front of the first chunk and no longer moves: seeking forward shows
    nothing, although the range has text there. *)
Example exhausted_reversed_seek :
  (c ← RopeIter.reversed_chunks_in_range RopeExample.rope (0, 172);
   c ← Chunks.seek c 50; '(piece, c) ← Chunks.next c; c ← Chunks.seek c 50; shown ← Chunks.peek c;
   Some (option_map Str.len piece, shown : option str, Chunks.offset_is_valid c)) = Some (Some 50, None, true).
Proof. by vm_compute. Qed.
