(* ===== verification/RopeLines.v ===== *)
(** * Lines of a rope

    The iterator over the lines of a range, in both directions, and stepping from
    line to line. *)

From S2P Require Import Prelude SumTree SumTreeFacts Seek Cursor CursorFacts CursorWalk Utf8 Points Lines BitSelect Chunk ChunkBits ChunkFacts ChunkPositions TextSummary RopeTree Rope RopeFacts RopeSeek RopeCut RopeIter RopeIterFacts.

Implicit Types (s t u v a b : str) (texts ps qs : list str).

(** ** Splitting at newlines *)

Lemma split_newline_one s : Lines.newlines s = 0 → Str.split_newline s = [s].
Proof.
  intros H. destruct (split_newline_app s []) as (front & l & m & back & Hs & _ & _ & -> & _ & Hf & _).
  rewrite Hs, (last_line_none s H). rewrite H in Hf. by destruct front.
Qed.

Lemma split_newline_front l t : Lines.newlines l = 0 → Str.split_newline (l ++ NEWLINE :: t) = l :: Str.split_newline t.
Proof.
  intros H. destruct (split_newline_app l (NEWLINE :: t)) as (front & k & m & back & _ & Hb & -> & -> & _ & Hf & _).
  rewrite H in Hf. destruct front; [|done]. simpl in Hb. injection Hb as <- <-. by rewrite (last_line_none l H), app_nil_r.
Qed.

Lemma split_newline_back t l : Lines.newlines l = 0 → Str.split_newline (t ++ NEWLINE :: l) = Str.split_newline t ++ [l].
Proof.
  intros H. destruct (split_newline_app t (NEWLINE :: l)) as (front & k & m & back & Ht & Hb & -> & _).
  simpl in Hb. rewrite split_newline_one in Hb by done. injection Hb as <- <-. by rewrite Ht, <-app_assoc, app_nil_r.
Qed.

(** A text with a newline begins with a line, and ends with one. *)
Lemma first_newline s : Lines.newlines s ≠ 0 → ∃ l t, s = l ++ NEWLINE :: t ∧ Lines.newlines l = 0 ∧ l = first_line s.
Proof.
  intros H. destruct (first_line_split s) as (t & Hs & [->|(t' & ->)]).
  - rewrite app_nil_r in Hs. rewrite Hs, newlines_first_line in H. done.
  - exists (first_line s), t'. split_and!; [done|apply newlines_first_line|done].
Qed.

Lemma last_newline s : Lines.newlines s ≠ 0 → ∃ t l, s = t ++ NEWLINE :: l ∧ Lines.newlines l = 0 ∧ l = last_line s.
Proof.
  intros H. destruct (first_newline (reverse s)) as (l & t & Hs & Hl & Heq); [by rewrite newlines_reverse|].
  exists (reverse t), (reverse l). apply (f_equal reverse) in Hs. rewrite reverse_involutive, reverse_app, reverse_cons, <-app_assoc in Hs.
  split_and!; [done|by rewrite newlines_reverse|by rewrite Heq].
Qed.

Lemma split_newline_cases s : (Lines.newlines s = 0 ∧ Str.split_newline s = [s] ∧ List.rev (Str.split_newline s) = [s]) ∨
  (Lines.newlines s ≠ 0 ∧ (∃ k l, Str.split_newline s = first_line s :: k :: l) ∧
   (∃ k l, List.rev (Str.split_newline s) = last_line s :: k :: l)).
Proof.
  destruct (decide (Lines.newlines s = 0)) as [H|H]; [left; by rewrite split_newline_one|right]. split; [done|]. split.
  - destruct (first_newline s H) as (l & t & Hs & Hl & Heq). rewrite <-Heq, Hs, (split_newline_front l t Hl).
    pose proof (split_newline_nonempty t). destruct (Str.split_newline t) as [|k ks]; [done|]. eauto.
  - destruct (last_newline s H) as (t & l & Hs & Hl & Heq). rewrite <-Heq, Hs, (split_newline_back t l Hl), rev_app_distr.
    pose proof (split_newline_nonempty t). destruct (Str.split_newline t) as [|k ks _] using rev_ind; [done|].
    rewrite rev_app_distr. simpl. eauto.
Qed.

Lemma last_line_app_some a b : Lines.newlines b ≠ 0 → last_line (a ++ b) = last_line b.
Proof. intros H. rewrite last_line_app. destruct (Nat.eqb_spec (Lines.newlines b) 0); [lia|done]. Qed.

Lemma last_line_app_none a b : Lines.newlines b = 0 → last_line (a ++ b) = last_line a ++ b.
Proof. intros H. rewrite last_line_app, H. simpl. by rewrite (last_line_none b H). Qed.

(** ** The iterator over lines *)

Section lines.
Context (r : Rope) (s : str) (Hr : holds r s) (Hwalk : walkable r) (Hlen : (N.of_nat (Str.len s) <= u32_max)%N).
Implicit Types (c : Chunks.t) (it : LineIter.t).

(** Reading the first line of what is left, behind [cur]. *)
Lemma next_loop_forward fuel c u m1 m2 v cur : fwd r s c u m1 m2 v → Str.len m2 < fuel →
  ∃ it, LineIter.next_loop fuel false c cur = Some (Some (cur ++ first_line m2), it) ∧ LineIter.reversed it = false ∧
    ((Lines.newlines m2 = 0 ∧ LineIter.done it = true) ∨
     ∃ m1' m2', m2 = first_line m2 ++ NEWLINE :: m2' ∧ LineIter.done it = false ∧ fwd r s (LineIter.chunks it) u m1' m2' v ∧ m1' ++ m2' = m1 ++ m2).
Proof.
  revert c m1 m2 cur. induction fuel as [|fuel IH]; intros c m1 m2 cur Hc Hfuel; [lia|]. simpl.
  destruct (decide (m2 = [])) as [->|Hm].
  { destruct (fwd_peek_end r s Hlen c u m1 v Hc) as (_ & -> & _). cbn [mbind option_bind].
    eexists. rewrite app_nil_r. split; [done|]. split; [done|]. by left. }
  destruct (fwd_piece r s Hr Hwalk Hlen c u m1 m2 v Hc Hm) as (z & m' & tail & -> & Hz & Hshows & c' & Ha & Hc').
  rewrite (proj1 Hshows). cbn [mbind option_bind].
  destruct (split_newline_cases z) as [(H0 & -> & _)|(H0 & (k & l & ->) & _)].
  - rewrite (proj1 (shows_next _ _ _ _ Hshows Ha)). cbn [mbind option_bind].
    destruct (IH c' (m1 ++ z) m' (cur ++ z) Hc') as (it & Hit & Hrev & Hcase).
    { rewrite Str_len_app in Hfuel. assert (Str.len z ≠ 0) by (intros ?%Str_len_zero; by destruct Hz). lia. }
    exists it. rewrite (first_line_app_none z m' H0), app_assoc. split; [done|]. split; [done|].
    rewrite newlines_app, H0. destruct Hcase as [?|(m1' & m2' & Hm2 & ? & ? & Heq)]; [by left|right].
    exists m1', m2'. split_and!; [by rewrite <-app_assoc, <-Hm2|done|done|by rewrite Heq, <-app_assoc].
  - destruct (first_newline z H0) as (fl & z' & Hzs & Hfl & Hfeq). rewrite <-Hfeq.
    assert (first_line (z ++ m') = fl) as -> by (by rewrite (first_line_app_some z m' H0)).
    pose proof Hc as ([Hrange Hoff Hrev] & Hs & _).
    assert (m1 ++ z ++ m' = (m1 ++ fl ++ [NEWLINE]) ++ z' ++ m') as Hsplit by (rewrite Hzs, <-!app_assoc; done).
    assert (Chunks.offset c + Str.len fl + 1 = Str.len (u ++ m1 ++ fl ++ [NEWLINE])) as ->.
    { rewrite Hoff, !Str_len_app. change (Str.len [NEWLINE]) with 1. lia. }
    destruct (fwd_reseek r s Hr Hwalk Hlen c u (m1 ++ fl ++ [NEWLINE]) (z' ++ m') v) as (c2 & -> & Hc2).
    { exact (fwd_standing r s c u m1 _ v Hc). }
    { done. }
    { by rewrite Hrange, Hsplit. }
    { rewrite Hs. rewrite <-!app_assoc, Hzs, <-!app_assoc. done. }
    cbn [mbind option_bind].
    destruct cur as [|c0 cur]; (eexists; split; [done|]; split; [done|]; right; exists (m1 ++ fl ++ [NEWLINE]), (z' ++ m');
      split_and!; [by rewrite Hzs, <-app_assoc|done|done|done]).
Qed.

(** Reading the last line of what is left, in front of [cur]. *)
Lemma next_loop_backward fuel c u m1 m2 v cur : bwd r s c u m1 m2 v → Str.len m1 < fuel →
  ∃ it, LineIter.next_loop fuel true c cur = Some (Some (last_line m1 ++ cur), it) ∧ LineIter.reversed it = true ∧
    ((Lines.newlines m1 = 0 ∧ LineIter.done it = true) ∨
     ∃ m1' m2', m1 = m1' ++ NEWLINE :: last_line m1 ∧ LineIter.done it = false ∧ bwd r s (LineIter.chunks it) u m1' m2' v ∧ m1' ++ m2' = m1 ++ m2).
Proof.
  revert c m1 m2 cur. induction fuel as [|fuel IH]; intros c m1 m2 cur Hc Hfuel; [lia|]. simpl.
  destruct (decide (m1 = [])) as [->|Hm].
  { destruct (bwd_peek_end r s Hlen c u m2 v Hc) as (_ & -> & _). cbn [mbind option_bind].
    eexists. split; [done|]. split; [done|]. by left. }
  destruct (bwd_piece r s Hr Hwalk Hlen c u m1 m2 v Hc Hm) as (z & m' & tail & -> & Hz & Hshows & c' & Ha & Hc').
  rewrite (proj1 Hshows). cbn [mbind option_bind].
  destruct (split_newline_cases z) as [(H0 & _ & ->)|(H0 & _ & (k & l & ->))].
  - rewrite (proj1 (shows_next _ _ _ _ Hshows Ha)). cbn [mbind option_bind].
    destruct (IH c' m' (z ++ m2) (z ++ cur) Hc') as (it & Hit & Hrev & Hcase).
    { rewrite Str_len_app in Hfuel. assert (Str.len z ≠ 0) by (intros ?%Str_len_zero; by destruct Hz). lia. }
    exists it. rewrite (last_line_app_none m' z H0), <-app_assoc. split; [done|]. split; [done|].
    rewrite newlines_app, H0, Nat.add_0_r. destruct Hcase as [?|(m1' & m2' & Hm1 & ? & ? & Heq)]; [by left|right].
    exists m1', m2'. split_and!; [rewrite Hm1 at 1; by rewrite <-app_assoc|done|done|by rewrite Heq, <-app_assoc].
  - destruct (last_newline z H0) as (z' & ll & Hzs & Hll & Hleq). rewrite <-Hleq.
    assert (last_line (m' ++ z) = ll) as -> by (by rewrite (last_line_app_some m' z H0)).
    pose proof Hc as ([Hrange Hoff Hrev] & Hs & _).
    assert ((m' ++ z) ++ m2 = (m' ++ z') ++ (NEWLINE :: ll) ++ m2) as Hsplit by (rewrite Hzs, <-!app_assoc; done).
    assert (Str.len (NEWLINE :: ll) = 1 + Str.len ll) as Hnl by (rewrite Str_len_cons; by rewrite len_utf8_newline).
    assert ((offset ← checked_sub_nat (Chunks.offset c) (Str.len ll); checked_sub_nat offset 1) = Some (Str.len (u ++ m' ++ z'))) as ->.
    { rewrite Hoff, Hzs, !Str_len_app, Hnl. rewrite checked_sub_nat_Some by lia. cbn [mbind option_bind].
      rewrite checked_sub_nat_Some by lia. f_equal. lia. }
    cbn [mbind option_bind].
    destruct (bwd_reseek r s Hr Hwalk Hlen c u (m' ++ z') ((NEWLINE :: ll) ++ m2) v) as (c2 & -> & Hc2).
    { exact (bwd_standing r s c u _ m2 v Hc Hm). }
    { done. }
    { by rewrite Hrange, Hsplit. }
    { rewrite Hs. rewrite <-!app_assoc, Hzs, <-!app_assoc. done. }
    cbn [mbind option_bind].
    destruct cur as [|c0 cur]; (eexists; split; [rewrite ?app_nil_r; done|]; split; [done|]; right; exists (m' ++ z'), ((NEWLINE :: ll) ++ m2);
      split_and!; [by rewrite Hzs, app_assoc|done|done|done]).
Qed.

(** The iterator has the lines of [m] left. *)
Definition has_lines (rev : bool) it (m : str) : Prop :=
  LineIter.done it = false ∧ LineIter.reversed it = rev ∧
  if rev then ∃ u m2 v, bwd r s (LineIter.chunks it) u m m2 v else ∃ u m1 v, fwd r s (LineIter.chunks it) u m1 m v.

Definition lines_in (rev : bool) (m : str) : list str := if rev then List.rev (Str.split_newline m) else Str.split_newline m.

Lemma next_line_of rev it m : has_lines rev it m → ∃ line lines it', lines_in rev m = line :: lines ∧
  LineIter.next it = Some (Some line, it') ∧
  ((lines = [] ∧ LineIter.next it' = Some (None, it')) ∨ ∃ m', lines = lines_in rev m' ∧ has_lines rev it' m' ∧ Str.len m' < Str.len m).
Proof.
  intros (Hdone & Hrev & Hc). unfold LineIter.next. rewrite Hdone, Hrev. destruct rev; destruct Hc as (u & k & v & Hc).
  - pose proof Hc as ([Hrange _ _] & _).
    destruct (next_loop_backward (Chunks.fuel (LineIter.chunks it)) _ u m k v [] Hc) as (it' & -> & Hrev' & Hcase).
    { unfold Chunks.fuel. rewrite Hrange. simpl. rewrite !Str_len_app. lia. }
    rewrite app_nil_r. destruct Hcase as [[H0 Hd]|(m1' & m2' & Heq & Hd & Hc' & _)].
    + exists (last_line m), [], it'. simpl. rewrite (split_newline_one m H0), (last_line_none m H0), Hd. split_and!; [done..|by left].
    + exists (last_line m), (List.rev (Str.split_newline m1')), it'. split.
      { simpl. rewrite Heq at 1. rewrite split_newline_back, rev_app_distr by apply newlines_last_line. done. }
      split; [done|]. right. exists m1'. split; [done|]. split; [split; [done|split; [done|by exists u, m2', v]]|].
      rewrite Heq, Str_len_app, Str_len_cons, len_utf8_newline. lia.
  - pose proof Hc as ([Hrange _ _] & _).
    destruct (next_loop_forward (Chunks.fuel (LineIter.chunks it)) _ u k m v [] Hc) as (it' & -> & Hrev' & Hcase).
    { unfold Chunks.fuel. rewrite Hrange. simpl. rewrite !Str_len_app. lia. }
    simpl app. destruct Hcase as [[H0 Hd]|(m1' & m2' & Heq & Hd & Hc' & _)].
    + exists (first_line m), [], it'. simpl. rewrite (split_newline_one m H0), (first_line_none m H0), Hd. split_and!; [done..|by left].
    + exists (first_line m), (Str.split_newline m2'), it'. split.
      { simpl. rewrite Heq at 1. rewrite split_newline_front by apply newlines_first_line. done. }
      split; [done|]. right. exists m2'. split; [done|]. split; [split; [done|split; [done|by exists u, m1', v]]|].
      rewrite Heq, Str_len_app, Str_len_cons, len_utf8_newline. lia.
Qed.

Lemma drain_lines rev fuel it m : has_lines rev it m → length (lines_in rev m) < fuel →
  drain LineIter.next fuel it = Some (lines_in rev m).
Proof.
  revert it m. induction fuel as [|fuel IH]; intros it m Hit Hfuel; [lia|]. simpl.
  destruct (next_line_of rev it m Hit) as (line & lines & it' & Hl & -> & Hcase). rewrite Hl in *. cbn [mbind option_bind]. simpl in Hfuel.
  destruct Hcase as [[-> Hend]|(m' & -> & Hit' & _)].
  - destruct fuel as [|fuel]; [simpl in Hfuel; lia|]. simpl. rewrite Hend. done.
  - rewrite (IH it' m' Hit'); [done|lia].
Qed.
End lines.

(** ** Properties *)

(** C25. The iterator over the lines of a range yields exactly the lines of its
    text, in order or from the last to the first, and then ends; after seeking
    into the range it yields the lines of what is left from there. *)
Theorem lines_iterate r u m1 m2 v (rev : bool) (Hr : holds r (u ++ (m1 ++ m2) ++ v)) (Hwalk : walkable r)
    (Hlen : (N.of_nat (Str.len (u ++ (m1 ++ m2) ++ v)) <= u32_max)%N) :
  let lines (m : str) := if rev then List.rev (Str.split_newline m) else Str.split_newline m in
  let fuel := 2 + Lines.newlines (m1 ++ m2) in
  ∃ c it, Chunks.new r (Str.len u, Str.len (u ++ m1 ++ m2)) rev = Some c ∧
    drain LineIter.next fuel (LineIter.of_chunks c) = Some (lines (m1 ++ m2)) ∧
    LineIter.seek (LineIter.of_chunks c) (Str.len (u ++ m1)) = Some it ∧
    drain LineIter.next fuel it = Some (lines (if rev then m1 else m2)).
Proof.
  intros lines fuel.
  destruct (yields_new r _ Hr Hwalk Hlen rev u (m1 ++ m2) v eq_refl) as (c & Hnew & Hc & _ & Hrev & Hrange & Hst).
  assert (∀ m, length (lines_in rev m) = S (Lines.newlines m)) as Hcount.
  { intros m. unfold lines_in. rewrite <-length_line_lens. unfold line_lens. rewrite length_map. destruct rev; [apply length_rev|done]. }
  assert (∃ c', Chunks.seek c (Str.len (u ++ m1)) = Some c' ∧ Chunks.reversed c' = rev ∧
    has_lines r (u ++ (m1 ++ m2) ++ v) rev (LineIter.of_chunks c') (if rev then m1 else m2)) as (c' & Hseek & Hrev' & Hit').
  { assert (u ++ (m1 ++ m2) ++ v = (u ++ m1) ++ m2 ++ v) as Hs by (by rewrite <-!app_assoc). destruct rev.
    - destruct (bwd_reseek r _ Hr Hwalk Hlen c u m1 m2 v Hst Hrev Hrange Hs) as (c' & ? & Hc'). exists c'. split; [done|].
      pose proof Hc' as ([_ _ ?] & _). split; [done|]. split; [done|]. split; [done|]. by exists u, m2, v.
    - destruct (fwd_reseek r _ Hr Hwalk Hlen c u m1 m2 v Hst Hrev Hrange Hs) as (c' & ? & Hc'). exists c'. split; [done|].
      pose proof Hc' as ([_ _ ?] & _). split; [done|]. split; [done|]. split; [done|]. by exists u, m1, v. }
  exists c, (LineIter.of_chunks c'). split; [done|]. split.
  { apply (drain_lines r _ Hr Hwalk Hlen); [by split|]. rewrite Hcount. unfold fuel. lia. }
  split; [unfold LineIter.seek, LineIter.of_chunks; simpl; rewrite Hseek; cbn [mbind option_bind]; by rewrite Hrev, Hrev'|].
  apply (drain_lines r _ Hr Hwalk Hlen); [done|]. rewrite Hcount. unfold fuel. rewrite newlines_app. destruct rev; lia.
Qed.

Lemma lines_iterate_witness :
  ∃ c, Chunks.new RopeExample.rope (0, 172) true = Some c ∧
    drain LineIter.next 4 (LineIter.of_chunks c) = Some [[0x1F600]%N ++ replicate 60 99%N; replicate 100 98%N ++ [0x20AC]%N; [97; 233]%N].
Proof.
  destruct (lines_iterate RopeExample.rope [] RopeExample.text [] [] true) as (c & it & Hnew & Hd & _);
    [rewrite !app_nil_r; exact RopeExample.rope_holds|exact RopeExample.rope_walkable|rewrite !app_nil_r; exact example_len|].
  exists c. split; [exact Hnew|exact Hd].
Defined.
