(* ===== verification/RopeSteps.v ===== *)
(** * Stepping over the lines of a rope

    [next_line] and [prev_line] of a forward iterator, which look for newlines
    with the summaries of the tree. *)

From S2P Require Import Prelude SumTree SumTreeFacts Seek Cursor CursorFacts CursorWalk Utf8 Points Lines BitSelect Chunk ChunkBits ChunkFacts ChunkPositions TextSummary RopeTree Rope RopeFacts RopeSeek RopeCut RopeIter RopeIterFacts RopePieces RopeLines.

Implicit Types (s t u v a b : str) (texts ps qs : list str).

(** ** Finding newlines *)

Lemma find_newline_none t : Lines.newlines t = 0 → StrSearch.find_newline t = None.
Proof.
  induction t as [|c t IH]; [done|]. rewrite newlines_cons. simpl. destruct (c =? NEWLINE)%N; [done|]. intros H. by rewrite IH.
Qed.

Lemma find_newline_some l t : Lines.newlines l = 0 → StrSearch.find_newline (l ++ NEWLINE :: t) = Some (Str.len l).
Proof.
  induction l as [|c l IH]; [done|]. rewrite newlines_cons. simpl. destruct (c =? NEWLINE)%N; [done|]. intros H.
  rewrite IH by done. simpl. by rewrite Str_len_cons.
Qed.

Lemma rfind_newline_none t : Lines.newlines t = 0 → StrSearch.rfind_newline t = None.
Proof.
  induction t as [|c t IH]; [done|]. rewrite newlines_cons. simpl. destruct (c =? NEWLINE)%N; [done|]. intros H. by rewrite IH.
Qed.

Lemma rfind_newline_some t l : Lines.newlines l = 0 → StrSearch.rfind_newline (t ++ NEWLINE :: l) = Some (Str.len t).
Proof.
  intros H. induction t as [|c t IH]; simpl; [by rewrite rfind_newline_none|]. by rewrite IH, Str_len_cons.
Qed.

Lemma str_len_newline l : Str.len (l ++ [NEWLINE]) = Str.len l + 1.
Proof. rewrite Str_len_app. f_equal. Qed.

(** The last byte before the offset tells a newline. *)
Lemma last_byte (x0 : str) (c : char) (y : str) : char_ok c → ∃ b0 : N, Str.as_bytes ((x0 ++ [c]) ++ y) !! (Str.len (x0 ++ [c]) - 1) = Some b0 ∧ (b0 =? 10)%N = (c =? NEWLINE)%N.
Proof.
  intros Hok. rewrite Str_as_bytes_app, lookup_app_l.
  2:{ fold (Str.len (x0 ++ [c])). rewrite Str_len_app, Str_len_cons. pose proof (len_utf8_pos c). lia. }
  rewrite Str_as_bytes_app, Str_len_app. change (Str.as_bytes [c]) with (encode_utf8 c ++ []). rewrite app_nil_r.
  assert (Str.len [c] = length (encode_utf8 c)) as -> by (rewrite Str_len_cons; unfold len_utf8; change (Str.len []) with 0; lia).
  destruct (encode_utf8_head c Hok) as (b & bs & -> & _ & _ & _ & Hnl & _ & Hbs & _ & _ & Hne).
  rewrite lookup_app_r by (fold (Str.len x0); simpl; lia). fold (Str.len x0). simpl length.
  replace (Str.len x0 + S (length bs) - 1 - Str.len x0) with (length bs) by lia.
  destruct bs as [|b' bs _] using rev_ind; [exists b; by split|]. rewrite length_app. simpl. rewrite Nat.add_1_r. simpl.
  rewrite lookup_app_r, Nat.sub_diag by lia. exists b'. split; [done|].
  apply Forall_app in Hbs as [_ [[_ Hb'] _]%Forall_cons]. specialize (Hne ltac:(by destruct bs)).
  rewrite (proj2 (N.eqb_neq _ _)) by lia. symmetry. by apply N.eqb_neq.
Qed.

(** The start of the last line of a text. *)
Definition ends_line (p : str) : Prop := p = [] ∨ ∃ p0, p = p0 ++ [NEWLINE].

Lemma line_start_unique p l p' l' : p ++ l = p' ++ l' → Lines.newlines l = 0 → Lines.newlines l' = 0 → ends_line p → ends_line p' → p = p'.
Proof.
  assert (∀ (k q t : str), Lines.newlines (k ++ t) = 0 → ends_line (q ++ k) → k = []) as Hnil.
  { intros k q t H0 He. destruct k as [|c k _] using rev_ind; [done|]. destruct He as [He|(p0 & He)].
    - by apply app_eq_nil in He as [_ ?].
    - rewrite app_assoc in He. apply app_inj_tail in He as [_ ->]. rewrite newlines_app, newlines_snoc in H0. simpl in H0. lia. }
  intros Heq Hl Hl' Hp Hp'. apply app_eq_inv in Heq as [(k & -> & ->)|(k & -> & ->)].
  - rewrite (Hnil k p' l); [by rewrite app_nil_r|done|done].
  - rewrite (Hnil k p l'); [by rewrite app_nil_r|done|done].
Qed.

Lemma line_start_exists a : ∃ p l, a = p ++ l ∧ Lines.newlines l = 0 ∧ ends_line p.
Proof.
  destruct (last_line_split a) as (p & Ha & _ & Hp). exists p, (last_line a). split; [done|]. split; [apply newlines_last_line|exact Hp].
Qed.

(** The line start [p] at which [prev_line] looks from behind [a]: the start of
    the line [a] ends in, or of the line before if [a] ends with a newline. *)
Definition line_before (a p : str) : Prop :=
  ends_line p ∧ ∃ l t, a = p ++ l ++ t ∧ Lines.newlines l = 0 ∧ (t = [NEWLINE] ∨ t = [] ∧ (l ≠ [] ∨ p = [])).

(** ** The summary filter *)

Lemma newline_accepts (t : str) : Str.len t <= 128 → accepts Chunks.has_newline (chunk_of t) = (0 <? Lines.newlines t).
Proof.
  intros Hlen. unfold accepts, Chunks.has_newline. rewrite chunk_of_summary by done. simpl.
  destruct (Nat.ltb_spec 0 (Lines.newlines t)); [apply N.ltb_lt|apply N.ltb_ge]; lia.
Qed.

Lemma newline_filter_sound : filter_sound (T:=Chunk) Chunks.has_newline.
Proof.
  intros l x Hx. unfold accepts, Chunks.has_newline. rewrite !N.ltb_lt.
  enough (Point.row (lines (summary_text (item_summary x))) <= Point.row (lines (summary_text (items_sum (S:=RopeSummary) l))))%N by lia.
  induction l as [|y l IH]; [by apply not_elem_of_nil in Hx|]. destruct (decide (l = [])) as [->|Hl].
  - apply list_elem_of_singleton in Hx as ->. unfold items_sum. cbn [map]. by rewrite sum_singleton.
  - change (y :: l) with ([y] ++ l). rewrite items_sum_app by done.
    assert (items_sum (S:=RopeSummary) [y] = item_summary y) as -> by (unfold items_sum; cbn [map]; by rewrite sum_singleton).
    simpl. destruct (add_fields (summary_text (item_summary y)) (summary_text (items_sum l))) as (_ & _ & _ & -> & _).
    rewrite point_add_row. apply elem_of_cons in Hx as [->|Hx]; [lia|]. specialize (IH Hx). lia.
Qed.

(** The chunks up to the first one with a newline. *)
Lemma lin_filter_texts d texts (b0 : list Chunk) p (rs : list Chunk) : Forall chunk_text_ok texts →
  lin_filter (S:=RopeSummary) (D:=nat) Chunks.has_newline d (map chunk_of texts) = (b0, p, rs) →
  ∃ bs qs, texts = bs ++ qs ∧ b0 = map chunk_of bs ∧ rs = map chunk_of qs ∧ Lines.newlines (concat bs) = 0 ∧
    match qs with q :: _ => Lines.newlines q ≠ 0 | [] => True end.
Proof.
  intros Htexts Hlin. apply lin_filter_split in Hlin as (Hsplit & _ & Hb & Hr).
  apply map_eq_app in Hsplit as (bs & qs & -> & <- & <-). exists bs, qs. apply Forall_app in Htexts as [Hbs Hqs].
  split_and!; [done..| |].
  - clear Hr Hqs. induction Hbs as [|t bs (_ & _ & Hlen) Hbs IH]; [done|]. simpl. rewrite newlines_app, IH by set_solver.
    specialize (Hb (chunk_of t) ltac:(set_solver)). rewrite newline_accepts in Hb by done. apply Nat.ltb_ge in Hb. lia.
  - destruct qs as [|q qs]; [done|]. apply Forall_cons in Hqs as [(_ & _ & Hlen) _]. simpl in Hr.
    rewrite newline_accepts in Hr by done. apply Nat.ltb_lt in Hr. lia.
Qed.

Section steps.
Context (r : Rope) (s : str) (Hr : holds r s) (Hwalk : walkable r) (Hlen : (N.of_nat (Str.len s) <= u32_max)%N).
Implicit Types c : Chunks.t.

(** *** Forwards *)

Lemma leave_chunk_spec c ps x y qs u m1 m2 v : window c false u m1 m2 → on_chunk r (Chunks.cursor c) ps x y qs →
  u ++ m1 = concat ps ++ x → m2 ++ v = y ++ concat qs → s = (u ++ m1) ++ m2 ++ v →
  ∃ c', Chunks.leave_chunk c = Some c' ∧ fwd r s c' u m1 m2 v.
Proof.
  intros Hwin Hc Ha Hb Hs. pose proof Hwin as [Hrange Hoff Hrev]. unfold Chunks.leave_chunk. rewrite (oc_end Hc), Hoff, Ha. cbn [mbind option_bind].
  assert ((Str.len (concat ps ++ x) =? Str.len (concat ps ++ x ++ y)) = bool_decide (y = [])) as ->.
  { rewrite !Str_len_app. case_bool_decide as Hy; [subst; change (Str.len []) with 0; apply Nat.eqb_eq; lia|].
    apply Nat.eqb_neq. assert (Str.len y ≠ 0) by (by intros ?%Str_len_zero). lia. }
  case_bool_decide as Hy.
  2:{ exists c. split; [done|]. split; [done|]. split; [done|]. left. exists ps, x, y, qs. auto. }
  subst y. destruct (decide (m2 = [])) as [->|Hm].
  { unfold Chunks.next, Chunks.peek. rewrite (valid_fwd s Hlen _ _ _ _ Hwin). cbn [negb bool_decide mbind option_bind].
    rewrite bool_decide_true by done. exists c. split; [done|]. split; [done|]. split; [done|]. left. exists ps, x, [], qs. auto. }
  assert (Chunks.peek c = Some (Some [])) as Hpeek.
  { unfold Chunks.peek. rewrite (valid_fwd s Hlen _ _ _ _ Hwin), bool_decide_false by done. cbn [negb].
    rewrite (oc_item Hc). cbn [mbind option_bind]. unfold Chunks.slice_range. rewrite Hrev, Hrange, Hoff, (oc_start Hc), (oc_end Hc), Ha, checked_sub_str.
    cbn [mbind option_bind fst snd]. rewrite (app_assoc u m1 m2), Ha, !app_nil_r.
    rewrite (Nat.min_l _ (Str.len ((concat ps ++ x) ++ m2))) by (rewrite !Str_len_app; lia). rewrite checked_sub_str. cbn [mbind option_bind chunk_of chunk_text].
    pose proof (Str_slice_mid x [] [] (Str.len x) (Str.len x) eq_refl) as Hsl. rewrite !app_nil_r in Hsl. by rewrite Hsl. }
  unfold Chunks.next. rewrite Hpeek. cbn [mbind option_bind]. unfold Chunks.advance. rewrite Hrev, (oc_end Hc), Hoff, Ha. cbn [mbind option_bind].
  change (Str.len []) with 0. rewrite Nat.add_0_r, app_nil_r, Nat.leb_refl. simpl in Hb.
  destruct (oc_next Hc Hwalk) as (cur & -> & Hnext). cbn [mbind option_bind]. eexists. split; [done|].
  split; [split; [done|by simpl; rewrite Ha|done]|]. split; [done|]. cbn [Chunks.cursor].
  assert (u ++ m1 = concat (ps ++ [x ++ []])) as Ha' by (rewrite concat_app; cbn [concat]; by rewrite !app_nil_r).
  destruct Hnext as [(q & qs' & -> & Hcur)|[-> Hcur]].
  - left. exists (ps ++ [x ++ []]), [], q, qs'. split_and!; [done|by rewrite app_nil_r|done|right; apply (oc_texts Hcur)].
  - by apply app_eq_nil in Hb as [? _].
Qed.

(** A newline in the piece that is shown. *)
Lemma found_in_piece c ps x z y qs u m1 m' v : window c false u m1 (z ++ m') → s = (u ++ m1) ++ (z ++ m') ++ v →
  on_chunk r (Chunks.cursor c) ps x (z ++ y) qs → u ++ m1 = concat ps ++ x → m' ++ v = y ++ concat qs → Lines.newlines z ≠ 0 →
  ∃ ix rest c', StrSearch.find_newline z = Some ix ∧ z = first_line z ++ NEWLINE :: rest ∧
    let c1 := Chunks.with_offset c (Chunks.offset c + (ix + 1)) in
    Chunks.offset c1 <= (Chunks.range c1).2 ∧ Chunks.leave_chunk c1 = Some c' ∧ fwd r s c' u (m1 ++ first_line z ++ [NEWLINE]) (rest ++ m') v.
Proof.
  intros [Hrange Hoff Hrev] Hs Hc Ha Hb Hz. destruct (first_newline z Hz) as (l & rest & Hzs & Hl & Heq).
  exists (Str.len l), rest. rewrite <-Heq. pose proof (find_newline_some l rest Hl) as Hfind. rewrite <-Hzs in Hfind.
  assert (Str.len (u ++ m1) + (Str.len l + 1) = Str.len (u ++ m1 ++ l ++ [NEWLINE])) as Hlen1.
  { rewrite !Str_len_app. change (Str.len [NEWLINE]) with 1. lia. }
  assert (m1 ++ z ++ m' = (m1 ++ l ++ [NEWLINE]) ++ rest ++ m') as Hsplit by (rewrite Hzs, <-!app_assoc; done).
  destruct (leave_chunk_spec (Chunks.with_offset c (Chunks.offset c + (Str.len l + 1))) ps (x ++ l ++ [NEWLINE]) (rest ++ y) qs u
    (m1 ++ l ++ [NEWLINE]) (rest ++ m') v) as (c' & Hset & Hc').
  - split; [simpl; by rewrite Hrange, Hsplit|simpl; by rewrite Hoff, Hlen1|done].
  - apply (oc_same Hc). rewrite Hzs, <-!app_assoc. done.
  - rewrite app_assoc, Ha, <-!app_assoc. done.
  - by rewrite <-!app_assoc, Hb.
  - rewrite Hs. rewrite Hzs, <-!app_assoc. done.
  - exists c'. split; [done|]. split; [done|]. cbv zeta. split; [|done]. simpl. rewrite Hrange, Hoff. simpl. rewrite !Str_len_app, Hzs, Str_len_app, Str_len_cons, len_utf8_newline.
    lia.
Qed.

(** No newline in the rest of the range: the iterator goes to its end. *)
Lemma no_newline_left c u m v e : Chunks.range c = (Str.len u, Str.len (u ++ m)) → Chunks.reversed c = false →
  Chunks.offset c = e → Cursor.end_ (Chunks.cursor c) = Some e → s = u ++ m ++ v → Cursor.tree (Chunks.cursor c) = chunks r →
  Str.len (u ++ m) < e ∨ Str.len (u ++ m) = e ∧ (∃ texts, past_end r (Chunks.cursor c) texts) →
  ∃ c1 c', Chunks.leave_chunk c = Some c1 ∧ Chunks.back_to_range c1 = Some c' ∧ fwd r s c' u m [] v.
Proof.
  intros Hrange Hrev Hoff Hend Hs Htree He. exists c. unfold Chunks.leave_chunk. rewrite Hend, Hoff. cbn [mbind option_bind]. rewrite Nat.eqb_refl.
  assert (Chunks.offset_is_valid c = false) as Hvalid.
  { unfold Chunks.offset_is_valid. rewrite Hrev, Hrange, Hoff. simpl. rewrite (proj2 (Nat.leb_le (Str.len (u ++ m)) e)) by lia. by rewrite orb_true_r. }
  assert (Chunks.next c = Some (None, c)) as -> by (unfold Chunks.next, Chunks.peek; by rewrite Hvalid).
  assert (s = (u ++ m) ++ [] ++ v) as Hs' by (by rewrite <-app_assoc).
  unfold Chunks.back_to_range. rewrite Hrange, Hoff. cbn [snd]. destruct He as [Hlt|[<- (texts & Hc)]].
  - rewrite (proj2 (Nat.ltb_lt _ _) Hlt). cbn [Chunks.offset Chunks.with_offset Chunks.cursor]. rewrite Nat.min_r by lia.
    destruct (seek_sought r s Hr Hwalk Hlen Right _ _ _ Htree Hs') as (f & cur & -> & Hcur). cbn [mbind option_bind].
    eexists. split; [done|]. split; [done|].
    pose proof (fwd_sought r s cur _ u m [] v Hcur Hs') as Hfwd. rewrite app_nil_r in Hfwd.
    unfold Chunks.with_cursor. simpl. rewrite Hrange, Hrev. exact Hfwd.
  - rewrite Nat.ltb_irrefl. eexists. split; [done|]. split; [done|]. split; [split; [by rewrite app_nil_r|done|done]|]. split; [done|].
    right. exists texts. split; [done|]. pose proof (pe_end Hc) as Hend'. rewrite Hend in Hend'. injection Hend' as Hl.
    destruct Hr as (t2 & Ht2 & Hs2). rewrite (tree_holds_unique _ _ _ Ht2 (pe_tree Hc)) in Hs2. rewrite Hs', app_assoc in Hs2.
    simpl in Hs2. rewrite app_nil_r in Hs2. rewrite <-(app_nil_r (concat texts)) in Hs2.
    destruct (app_same_len _ _ _ _ Hs2 Hl) as [? ?]. done.
Qed.

(** From a chunk to the next one with a newline. *)
Lemma search_newline cur ps x y qs : on_chunk r cur ps x y qs → ∃ cur' bs, Cursor.search_forward Chunks.has_newline cur = Some cur' ∧
  Lines.newlines (concat bs) = 0 ∧
  ((∃ q qs', qs = bs ++ q :: qs' ∧ Lines.newlines q ≠ 0 ∧ on_chunk r cur' (ps ++ (x ++ y) :: bs) [] q qs') ∨
   (qs = bs ∧ past_end r cur' (ps ++ (x ++ y) :: bs))).
Proof.
  intros Hc. destruct (oc_texts Hc) as (_ & _ & Hqs). destruct Hc as [Htree Hsplit]. pose proof Htree as (Hok & _ & _).
  pose proof (search_forward_next (chunks r) (conj Hok Hwalk) Chunks.has_newline newline_filter_sound _ _ _ _ Hsplit) as Hsearch.
  destruct (lin_filter _ _ _) as [[b0 p] rs] eqn:Hlin. destruct Hsearch as (cur' & Hrun & Hcur').
  destruct (lin_filter_texts _ _ _ _ _ Hqs Hlin) as (bs & qs' & -> & -> & -> & H0 & Hq). exists cur', bs. split; [done|]. split; [done|].
  change (map chunk_of ps ++ [chunk_of (x ++ y)]) with (map chunk_of ps ++ map chunk_of [x ++ y]) in Hcur'.
  rewrite <-!map_app, <-app_assoc in Hcur'. destruct qs' as [|q qs'].
  - right. rewrite app_nil_r in *. split; [done|]. by split.
  - left. exists q, qs'. split; [done|]. split; [done|]. split; [|done]. simpl. by rewrite <-app_assoc.
Qed.

(** Beyond the range nothing is shown. *)
Lemma peek_beyond c : Chunks.reversed c = false → (Chunks.range c).2 <= Chunks.offset c → Chunks.peek c = Some None.
Proof.
  intros Hrev Hle. unfold Chunks.peek, Chunks.offset_is_valid. rewrite Hrev, (proj2 (Nat.leb_le _ _) Hle), orb_true_r. done.
Qed.

Lemma back_to_range_in c u m1 m2 v : fwd r s c u m1 m2 v → Chunks.back_to_range c = Some c.
Proof.
  intros ([Hrange Hoff _] & _). unfold Chunks.back_to_range. rewrite Hrange, Hoff. simpl.
  destruct (Nat.ltb_spec (Str.len (u ++ m1 ++ m2)) (Str.len (u ++ m1))) as [Hlt|_]; [|done]. rewrite !Str_len_app in Hlt. lia.
Qed.

(** What [next_line] gives for the rest [m2] of the range. *)
Definition line_step c u m1 m2 v (found : bool) : Prop :=
  (found = false ∧ Lines.newlines m2 = 0 ∧ fwd r s c u (m1 ++ m2) [] v) ∨
  ∃ l rest, found = true ∧ Lines.newlines l = 0 ∧ m2 = l ++ NEWLINE :: rest ∧ fwd r s c u (m1 ++ l ++ [NEWLINE]) rest v.

Definition stepped (res : option (bool * Chunks.t)) u m1 m2 v : Prop :=
  ∃ found c', ('(found, c) ← res; c ← Chunks.leave_chunk c; c ← Chunks.back_to_range c; Some ((found : bool), c)) = Some (found, c') ∧
    line_step c' u m1 m2 v found.

(** A newline in the piece that is shown, behind [b0]. *)
Lemma stepped_found c ps x z y qs u m1 b0 m' v ix : window c false u (m1 ++ b0) (z ++ m') → s = (u ++ m1 ++ b0) ++ (z ++ m') ++ v →
  on_chunk r (Chunks.cursor c) ps x (z ++ y) qs → u ++ m1 ++ b0 = concat ps ++ x → m' ++ v = y ++ concat qs →
  Lines.newlines b0 = 0 → StrSearch.find_newline z = Some ix →
  let c1 := Chunks.with_offset c (Chunks.offset c + (ix + 1)) in
  stepped (Some (Chunks.offset c1 <=? (Chunks.range c1).2, c1)) u m1 (b0 ++ z ++ m') v.
Proof.
  intros Hwin Hs Hc Ha Hb Hb0 Hix c1. assert (Lines.newlines z ≠ 0) as H0 by (intros H0; by rewrite find_newline_none in Hix).
  destruct (found_in_piece c ps x z y qs u (m1 ++ b0) m' v Hwin Hs Hc Ha Hb H0) as (ix' & rest & c' & Hix' & Hzs & Hle & Hleave & Hc').
  rewrite Hix in Hix'. injection Hix' as <-. apply Nat.leb_le in Hle. exists true, c'. unfold c1. rewrite Hle. cbn [mbind option_bind].
  rewrite Hleave. cbn [mbind option_bind]. rewrite (back_to_range_in _ _ _ _ _ Hc'). split; [done|]. right.
  exists (b0 ++ first_line z), (rest ++ m'). rewrite newlines_app, Hb0, newlines_first_line. split_and!; [done..| |].
  - rewrite Hzs at 1. by rewrite <-!app_assoc.
  - by rewrite <-!app_assoc in *.
Qed.

(** No newline in the rest of the range. *)
Lemma stepped_missing c u m1 m2 v cur e : Chunks.range c = (Str.len u, Str.len (u ++ m1 ++ m2)) → Chunks.reversed c = false →
  s = u ++ (m1 ++ m2) ++ v → Cursor.tree cur = chunks r → Cursor.end_ cur = Some e → Lines.newlines m2 = 0 →
  Str.len (u ++ m1 ++ m2) < e ∨ Str.len (u ++ m1 ++ m2) = e ∧ (∃ texts, past_end r cur texts) →
  Chunks.cursor c = cur → stepped (Some (false, Chunks.with_offset c e)) u m1 m2 v.
Proof.
  intros Hrange Hrev Hs Htree Hend H0 He Hcur.
  destruct (no_newline_left (Chunks.with_offset c e) u (m1 ++ m2) v e) as (c2 & c3 & Hleave & Hback & Hfwd);
    [done..|by simpl; rewrite Hcur|done|by simpl; rewrite Hcur|by simpl; rewrite Hcur|].
  exists false, c3. cbn [mbind option_bind]. rewrite Hleave. cbn [mbind option_bind]. rewrite Hback. split; [done|]. by left.
Qed.

(** The search leads out of the range. *)
Lemma stepped_beyond c cur u m1 m2 v e : Chunks.range c = (Str.len u, Str.len (u ++ m1 ++ m2)) → Chunks.reversed c = false →
  s = u ++ (m1 ++ m2) ++ v → Cursor.end_ cur = Some e → Cursor.tree cur = chunks r → Lines.newlines m2 = 0 →
  Str.len (u ++ m1 ++ m2) <= Cursor.start cur →
  Str.len (u ++ m1 ++ m2) < e ∨ Str.len (u ++ m1 ++ m2) = e ∧ (∃ texts, past_end r cur texts) →
  let c1 := Chunks.with_offset (Chunks.with_cursor c cur) (Cursor.start cur) in
  stepped (chunk ← Chunks.peek c1;
    match chunk ≫= StrSearch.find_newline with
    | Some newline_ix =>
        let c2 := Chunks.with_offset c1 (Chunks.offset c1 + (newline_ix + 1)) in
        Some (Chunks.offset c2 <=? (Chunks.range c2).2, c2)
    | None => chunks_end ← Cursor.end_ cur; Some (false, Chunks.with_offset c1 chunks_end)
    end) u m1 m2 v.
Proof.
  intros Hrange Hrev Hs Hend Htree H0 Hstart He c1.
  rewrite (peek_beyond c1) by (done || by unfold c1; simpl; rewrite Hrange). cbn [mbind option_bind].
  rewrite Hend. cbn [mbind option_bind]. by apply (stepped_missing c1 _ _ _ _ cur e).
Qed.

Lemma next_line_beyond_spec c ps x z y qs u m1 m' v : window c false u m1 (z ++ m') → s = (u ++ m1) ++ (z ++ m') ++ v →
  on_chunk r (Chunks.cursor c) ps x (z ++ y) qs → u ++ m1 = concat ps ++ x → m' ++ v = y ++ concat qs → y = [] ∨ m' = [] →
  Lines.newlines z = 0 → stepped (Chunks.next_line_beyond c) u m1 (z ++ m') v.
Proof.
  intros [Hrange Hoff Hrev] Hs Hc Ha Hb Hor H0. unfold Chunks.next_line_beyond.
  destruct (search_newline _ _ _ _ _ Hc) as (cur & bs & -> & Hbs & Hcase). cbn [mbind option_bind].
  set (c1 := Chunks.with_offset (Chunks.with_cursor c cur) (Cursor.start cur)).
  assert (s = u ++ (m1 ++ z ++ m') ++ v) as Hs' by (rewrite Hs, <-!app_assoc; done).
  pose proof (f_equal Str.len Ha) as Hla. pose proof (f_equal Str.len Hb) as Hlb. rewrite !Str_len_app in Hla, Hlb.
  pose proof (λ e, stepped_beyond c cur u m1 (z ++ m') v e Hrange Hrev Hs') as Hout. cbv zeta in Hout. fold c1 in Hout.
  rewrite newlines_app, H0 in Hout. simpl Nat.add in Hout.
  destruct Hcase as [(q & qs' & -> & Hq & Hcur)|[-> Hcur]].
  2:{ pose proof (pe_end Hcur) as Hend. pose proof (pe_start Hcur) as Hstart. rewrite concat_app in Hend, Hstart. simpl in Hend, Hstart.
      apply (Hout _ Hend); [by destruct (pe_split Hcur)| |rewrite Hstart; rewrite !Str_len_app; lia|].
      - destruct Hor as [->| ->]; [|done]. simpl in Hb. apply (f_equal Lines.newlines) in Hb. rewrite newlines_app in Hb. lia.
      - destruct (decide (v = [])) as [->|Hv].
        + right. split; [|by eexists]. rewrite app_nil_r in *. rewrite !Str_len_app. change (Str.len []) with 0 in *. lia.
        + left. assert (Str.len v ≠ 0) by (by intros ?%Str_len_zero). rewrite !Str_len_app. lia. }
  assert (Str.len q ≠ 0) as Hql by (intros ->%Str_len_zero; done).
  pose proof (oc_end Hcur) as Hend. pose proof (oc_start Hcur) as Hstart. rewrite concat_app in Hend, Hstart. simpl in Hend, Hstart.
  assert (Cursor.tree cur = chunks r) as Htree by (by destruct (oc_split Hcur)).
  rewrite concat_app in Hb, Hlb. simpl in Hb, Hlb. rewrite !Str_len_app in Hlb.
  destruct Hor as [->| ->].
  2:{ apply (Hout _ Hend Htree); [done|rewrite Hstart; rewrite !Str_len_app; change (Str.len []) with 0; lia|].
      left. rewrite !Str_len_app. change (Str.len []) with 0. lia. }
  simpl in Hb. apply app_eq_inv in Hb as [(k & -> & Hk)|(k & Hk & _)].
  2:{ apply (f_equal Lines.newlines) in Hk as Hk'. rewrite newlines_app in Hk'. apply (f_equal Str.len) in Hk. rewrite Str_len_app in Hk.
    apply (Hout _ Hend Htree); [lia|rewrite Hstart; rewrite !Str_len_app; change (Str.len []) with 0; lia|].
    left. rewrite !Str_len_app. change (Str.len []) with 0. lia. }
  rewrite !Str_len_app in Hlb.
  destruct (decide (k = [])) as [->|Hk0].
  { change (Str.len []) with 0 in *. apply (Hout _ Hend Htree); [by rewrite app_nil_r|rewrite Hstart; rewrite !Str_len_app; change (Str.len []) with 0; lia|].
    left. rewrite !Str_len_app. change (Str.len []) with 0. lia. }
  set (us := ps ++ (x ++ z ++ []) :: bs) in *.
  assert (u ++ m1 ++ z ++ concat bs = concat us ++ []) as Ha2.
  { unfold us. rewrite concat_app. simpl. rewrite !app_nil_r, app_assoc, Ha, <-!app_assoc. done. }
  assert (window c1 false u (m1 ++ z ++ concat bs) k) as Hwin1.
  { split; [unfold c1; simpl; rewrite Hrange, <-!app_assoc; done| |done].
    unfold c1. simpl. rewrite Hstart, Ha2. unfold us. rewrite (app_nil_r (concat _)), concat_app. done. }
  destruct (chunk_piece r s Hlen c1 us [] q qs' u (m1 ++ z ++ concat bs) k v) as (z2 & y2 & m3 & -> & -> & Hb2 & Hor2 & _ & [Hpeek _]);
    [done..|by rewrite Hk|by intros ->|done|].
  rewrite Hpeek. cbn [mbind option_bind]. destruct (StrSearch.find_newline z2) as [ix|] eqn:Hfind.
  - assert (z ++ concat bs ++ z2 ++ m3 = (z ++ concat bs) ++ z2 ++ m3) as -> by (by rewrite <-app_assoc).
    apply (stepped_found c1 us [] z2 y2 qs'); [done|rewrite Hs, <-!app_assoc; done|done|done|done|rewrite newlines_app; lia|done].
  - assert (Lines.newlines z2 = 0) as Hz2.
    { destruct (decide (Lines.newlines z2 = 0)) as [|Hne]; [done|]. destruct (first_newline z2 Hne) as (l & t & Heq & Hl & _).
      by rewrite Heq, find_newline_some in Hfind. }
    rewrite newlines_app, Hz2 in Hq. destruct Hor2 as [->| ->]; [done|]. rewrite Hend. cbn [mbind option_bind].
    apply (stepped_missing c1 _ _ _ _ cur _); try done; [rewrite !newlines_app; change (Lines.newlines []) with 0; lia|].
    left. assert (Str.len y2 ≠ 0) by (intros ->%Str_len_zero; done).
    rewrite !Str_len_app. change (Str.len []) with 0. lia.
Qed.

Lemma next_line_spec c u m1 m2 v : fwd r s c u m1 m2 v →
  ∃ found c', Chunks.next_line c = Some (found, c') ∧ line_step c' u m1 m2 v found.
Proof.
  intros Hfwd. pose proof Hfwd as (Hwin & Hs & _). pose proof Hwin as [Hrange Hoff Hrev].
  unfold Chunks.next_line. rewrite Hrev. cbn [negb rassert mbind option_bind].
  destruct (decide (m2 = [])) as [->|Hm].
  { destruct (fwd_peek_end r s Hlen c u m1 v Hfwd) as (_ & -> & _). cbn [mbind option_bind].
    rewrite (back_to_range_in _ _ _ _ _ Hfwd). exists false, c. split; [done|]. left. by rewrite app_nil_r. }
  destruct (fwd_at r s Hlen c u m1 m2 v Hfwd Hm) as (ps & x & z & y & qs & m' & Hc & Ha & -> & Hb & Hor & Hz & [Hpeek _]).
  rewrite Hpeek. cbn [mbind option_bind]. destruct (StrSearch.find_newline z) as [ix|] eqn:Hfind.
  - apply (stepped_found c ps x z y qs u m1 [] m' v ix); rewrite ?app_nil_r; done.
  - apply (next_line_beyond_spec c ps x z y qs); try done.
    destruct (decide (Lines.newlines z = 0)) as [|Hne]; [done|]. destruct (first_newline z Hne) as (l & t & Heq & Hl & _).
    by rewrite Heq, find_newline_some in Hfind.
Qed.

(** *** Backwards *)

(** What [search_backward] leaves behind when there is no chunk to find. *)
Record nowhere cur : Prop := {
  nw_item : Cursor.item cur = Some None;
  nw_start : Cursor.start cur = 0;
  nw_tree : Cursor.tree cur = chunks r;
}.

Lemma before_start_nowhere cur : before_start (chunks r) cur → nowhere cur.
Proof. intros [-> _]. done. Qed.

Lemma empty_nowhere cur : split_at (chunks r) cur [] [] → nowhere cur.
Proof. intros Hc. split; [by rewrite (split_at_item _ _ _ _ Hc)|by rewrite (split_at_start _ _ _ _ Hc)|by destruct Hc]. Qed.

Lemma search_newline_back cur ps x y qs : on_chunk r cur ps x y qs → ∃ cur', Cursor.search_backward Chunks.has_newline cur = Some cur' ∧
  ((∃ ps1 q ps2, ps = ps1 ++ q :: ps2 ∧ Lines.newlines q ≠ 0 ∧ Lines.newlines (concat ps2) = 0 ∧ on_chunk r cur' ps1 q [] (ps2 ++ (x ++ y) :: qs)) ∨
   (Lines.newlines (concat ps) = 0 ∧ nowhere cur')).
Proof.
  intros Hc. destruct (oc_texts Hc) as (Hps & _ & _). destruct Hc as [Htree Hsplit]. pose proof Htree as (Hok & Hl & _).
  assert (∀ texts, Forall chunk_text_ok texts → (∀ k, k ∈ map chunk_of texts → accepts Chunks.has_newline k = false) → Lines.newlines (concat texts) = 0) as Hnone.
  { intros texts Htexts Hall. induction Htexts as [|t texts (_ & _ & Ht) _ IH]; [done|]. simpl. rewrite newlines_app, IH by set_solver.
    specialize (Hall (chunk_of t) ltac:(set_solver)). rewrite newline_accepts in Hall by done. apply Nat.ltb_ge in Hall. lia. }
  destruct (search_backward_prev (chunks r) (conj Hok Hwalk) Chunks.has_newline newline_filter_sound _ _ _ Hsplit) as (cur' & Hrun & Hmoved).
  exists cur'. split; [done|]. destruct Hmoved as [(B1 & k & B2 & HB & Hk & HB2 & Hcur)|[(Hall & _ & Hcur)|(Hnil & _)]].
  - left. apply map_eq_app in HB as (ps1 & ps' & -> & <- & HB). apply map_eq_cons in HB as (q & ps2 & -> & <- & <-).
    apply Forall_app in Hps as [_ [(_ & _ & Hq) Hps2]%Forall_cons]. exists ps1, q, ps2. split; [done|].
    rewrite newline_accepts in Hk by done. apply Nat.ltb_lt in Hk. split; [lia|]. split; [by apply Hnone|].
    split; rewrite app_nil_r; [by rewrite <-app_assoc in Htree|]. by rewrite <-map_app in Hcur.
  - right. split; [by apply Hnone|]. by apply before_start_nowhere.
  - rewrite Hl in Hnil. by destruct ps.
Qed.

(** Stepping back goes to the start [p] of a line in the range, or to the start of
    the range. *)
Definition back_step c u m v (initial : nat) (p : str) (found : bool) : Prop :=
  (p ≠ [] ∧ Str.len u <= Str.len p ∧ found = true ∧ ∃ m1 m2, p = u ++ m1 ∧ m = m1 ++ m2 ∧ fwd r s c u m1 m2 v) ∨
  ((p = [] ∨ Str.len p < Str.len u) ∧ found = (Str.len u <? initial) && (Str.len u =? 0) ∧ fwd r s c u [] m v).

Lemma reset_line_spec c cur item u m v initial p : Cursor.tree cur = chunks r → s = u ++ m ++ v →
  Chunks.range c = (Str.len u, Str.len (u ++ m)) → Chunks.reversed c = false →
  Chunks.offset c < Str.len u ∨ item = None → p = [] ∨ Str.len p < Str.len u →
  ∃ found c', Chunks.reset_line c cur item initial = Some (found, c') ∧ back_step c' u m v initial p found.
Proof.
  intros Htree Hs Hrange Hrev Hor Hp. unfold Chunks.reset_line.
  assert (negb (Chunks.offset_is_valid c) || match item with None => true | Some _ => false end = true) as ->.
  { destruct Hor as [Hlt| ->]; [|apply orb_true_r]. unfold Chunks.offset_is_valid. rewrite Hrev, Hrange. simpl.
    by rewrite (proj2 (Nat.ltb_lt _ _) Hlt). }
  destruct (seek_sought r s Hr Hwalk Hlen Right cur u (m ++ v) Htree Hs) as (f & cur' & Hseek & Hcur).
  rewrite Hrange. cbn [fst Chunks.offset Chunks.with_offset]. rewrite Hseek. cbn [mbind option_bind].
  eexists _, _. split; [done|]. right. split; [done|]. split; [done|].
  pose proof (fwd_sought r s cur' (bool_decide (u = [])) u [] m v) as Hfwd. rewrite app_nil_r in Hfwd.
  unfold Chunks.with_cursor, Chunks.with_offset. simpl. rewrite Hrange, Hrev. exact (Hfwd Hcur Hs).
Qed.

(** A position in the range, given by the text before it. *)
Lemma in_range u m v p q : s = u ++ m ++ v → s = p ++ q → Str.len u <= Str.len p → Str.len p <= Str.len (u ++ m) →
  ∃ m1 m2, p = u ++ m1 ∧ m = m1 ++ m2 ∧ q = m2 ++ v.
Proof.
  intros Hs Hs' Hlo Hhi. rewrite Hs' in Hs. destruct (str_cut p q u _ Hs Hlo) as (m1 & -> & Hm1).
  rewrite !Str_len_app in Hhi. destruct (str_cut m v m1 q Hm1) as (m2 & -> & ->); [lia|]. by exists m1, m2.
Qed.

Lemma back_valid c u m p : Chunks.range c = (Str.len u, Str.len (u ++ m)) → Chunks.reversed c = false →
  Str.len p < Str.len (u ++ m) → Chunks.offset c = Str.len p → Chunks.offset_is_valid c = (Str.len u <=? Str.len p).
Proof.
  intros Hrange Hrev Hlt Hoff. unfold Chunks.offset_is_valid. rewrite Hrev, Hrange, Hoff. simpl.
  rewrite (proj2 (Nat.leb_gt _ _) Hlt), orb_false_r. by rewrite Nat.ltb_antisym, negb_involutive.
Qed.

Lemma oc_text cur ps x y qs : on_chunk r cur ps x y qs → s = concat ps ++ (x ++ y) ++ concat qs.
Proof.
  intros Hc. destruct (oc_holds Hc) as (t1 & Ht1 & ->), Hr as (t2 & Ht2 & ->). by rewrite (tree_holds_unique _ _ _ Ht1 Ht2).
Qed.

(** At the start of a line. *)
Lemma line_found c cur ps x y qs u m v p initial : Chunks.range c = (Str.len u, Str.len (u ++ m)) → Chunks.reversed c = false → s = u ++ m ++ v → on_chunk r cur ps x y qs →
  p = concat ps ++ x → p ≠ [] → Str.len u <= Str.len p → Str.len p <= Str.len (u ++ m) → y ≠ [] →
  back_step (Chunks.with_cursor (Chunks.with_offset c (Str.len p)) cur) u m v initial p true.
Proof.
  intros Hrange Hrev Hs Hc Hp Hne Hlo Hhi Hy.
  assert (s = p ++ y ++ concat qs) as Hsp by (rewrite (oc_text _ _ _ _ _ Hc), Hp, <-!app_assoc; done).
  destruct (in_range u m v p (y ++ concat qs) Hs Hsp Hlo Hhi) as (m1 & m2 & Hpu & Hm & Hq).
  left. split; [done|]. split; [done|]. split; [done|]. exists m1, m2. split; [done|]. split; [done|].
  split; [split; [simpl; by rewrite Hrange, Hm|simpl; by rewrite Hpu|done]|]. split; [rewrite Hsp, Hpu, Hq; done|]. left.
  exists ps, x, y, qs. rewrite <-Hpu, <-Hq. auto.
Qed.

(** In the chunk [k ++ l] behind [ps1], at the start of its last line. *)
Lemma at_line c ps1 k l qs u m v p initial : Chunks.range c = (Str.len u, Str.len (u ++ m)) → Chunks.reversed c = false → s = u ++ m ++ v → on_chunk r (Chunks.cursor c) ps1 k l qs →
  p = concat ps1 ++ k → p ≠ [] → Str.len u <= Str.len p → Str.len p <= Str.len (u ++ m) → qs ≠ [] →
  ∃ cur, (chunks_end ← Cursor.end_ (Chunks.cursor c); if Str.len p =? chunks_end then Cursor.next (Chunks.cursor c) else Some (Chunks.cursor c)) = Some cur ∧
    back_step (Chunks.with_cursor (Chunks.with_offset c (Str.len p)) cur) u m v initial p true.
Proof.
  intros Hrange Hrev Hs Hc Hp Hne Hlo Hhi Hqs. rewrite (oc_end Hc). cbn [mbind option_bind]. destruct (decide (l = [])) as [->|Hl].
  - rewrite app_nil_r, <-Hp, Nat.eqb_refl.
    destruct (oc_next Hc Hwalk) as (cur & -> & [(q & qs' & -> & Hcur)|[-> _]]); [|done]. exists cur. split; [done|].
    apply (line_found c cur (ps1 ++ [k ++ []]) [] q qs'); try done; [|by destruct (oc_texts Hcur) as (_ & (_ & ? & _) & _)].
    rewrite concat_app. cbn [concat]. by rewrite !app_nil_r.
  - assert (Str.len l ≠ 0) by (by intros ?%Str_len_zero).
    rewrite (proj2 (Nat.eqb_neq _ _)) by (rewrite Hp, !Str_len_app; lia). eexists. split; [done|].
    by apply (line_found c _ ps1 k l qs).
Qed.

Lemma prev_line_chunk_spec c ps x y qs u m v initial p l : Chunks.range c = (Str.len u, Str.len (u ++ m)) → Chunks.reversed c = false →
  s = u ++ m ++ v → on_chunk r (Chunks.cursor c) ps x y qs → Str.len (concat ps) < Str.len (u ++ m) →
  concat ps = p ++ l → Lines.newlines l = 0 → ends_line p →
  ∃ found c', Chunks.prev_line_chunk c initial = Some (found, c') ∧ back_step c' u m v initial p found.
Proof.
  intros Hrange Hrev Hs Hc Hlt Hp Hl Hpnl. unfold Chunks.prev_line_chunk.
  destruct (search_newline_back _ _ _ _ _ Hc) as (cur & -> & Hcase). cbn [mbind option_bind].
  destruct Hcase as [(ps1 & q & ps2 & -> & Hq & Hps2 & Hcur)|[Hps [-> -> Htree]]]; cbn [mbind option_bind].
  2:{ assert (p = []) as ->.
      { destruct Hpnl as [|(p0 & ->)]; [done|]. rewrite Hp, newlines_app, newlines_snoc in Hps. simpl in Hps. lia. }
      by apply (reset_line_spec _ cur None u m v initial []); [| | | |right|left]. }
  rewrite (oc_item Hcur), (oc_start Hcur). cbn [mbind option_bind chunk_of chunk_text]. rewrite app_nil_r.
  destruct (last_newline q Hq) as (k & l0 & -> & Hl0 & _). rewrite (rfind_newline_some k l0 Hl0).
  assert (p = concat ps1 ++ k ++ [NEWLINE]) as Hpe.
  { apply (line_start_unique p l _ (l0 ++ concat ps2)); [|done|by rewrite newlines_app, Hl0|done|right; exists (concat ps1 ++ k); by rewrite app_assoc].
    rewrite <-Hp, concat_app. simpl. by rewrite <-!app_assoc. }
  assert (Str.len p <= Str.len (concat (ps1 ++ (k ++ NEWLINE :: l0) :: ps2))) as Hple by (rewrite Hp, Str_len_app; lia).
  set (c1 := Chunks.with_offset (Chunks.with_cursor c cur) (Str.len (concat ps1))).
  assert (Chunks.offset c1 + (Str.len k + 1) = Str.len p) as Hoff1.
  { unfold c1. simpl. rewrite Hpe, !Str_len_app. change (Str.len [NEWLINE]) with 1. lia. }
  rewrite Hoff1, (back_valid _ u m p) by (done || lia).
  destruct (Nat.leb_spec (Str.len u) (Str.len p)) as [Hlo|Hlo].
  - destruct (at_line c1 ps1 (k ++ [NEWLINE]) l0 (ps2 ++ (x ++ y) :: qs) u m v p initial) as (cur2 & Hcur2 & Hback);
      [done|done|done| |by rewrite Hpe|intros ->; by destruct (concat ps1), k|done|lia|by destruct ps2|].
    { apply (oc_same Hcur). by rewrite app_nil_r, <-app_assoc. }
    simpl in Hcur2. destruct (Cursor.end_ cur) as [e|]; [|done]. cbn [mbind option_bind] in Hcur2 |- *. simpl. rewrite Hcur2. cbn [mbind option_bind].
    eexists _, _. split; [done|]. exact Hback.
  - apply (reset_line_spec _ cur _ u m v initial p); [by destruct (oc_split Hcur)|done|done|done|by left|by right].
Qed.

(** A cursor with no chunk before it. *)
Definition lost (cur : Cursor.t Chunk RopeSummary nat) : Prop := before_start (chunks r) cur ∨ (to_list (chunks r) = [] ∧ split_at (D:=nat) (chunks r) cur [] []).

Lemma lost_nowhere cur : lost cur → nowhere cur.
Proof. intros [H|[_ H]]; [by apply before_start_nowhere|by apply empty_nowhere]. Qed.

Lemma lost_search filter_node (cur : Cursor.t Chunk RopeSummary nat) : filter_sound (T:=Chunk) filter_node → lost cur → ∃ cur', Cursor.search_backward filter_node cur = Some cur' ∧ lost cur'.
Proof.
  intros Hf [H|[Hnil H]]; [exists cur; split; [by apply (search_backward_before_start (chunks r))|by left]|].
  destruct Hr as (texts & (Hok & _ & _) & _).
  destruct (search_backward_prev (chunks r) (conj Hok Hwalk) filter_node Hf _ _ _ H) as (cur' & Hrun & Hmoved). exists cur'. split; [done|].
  destruct Hmoved as [(B1 & k & B2 & HB & _)|[(_ & Hne & _)|H']]; [by destruct B1|done|by right].
Qed.

(** Back over the start of the chunk. *)
Lemma step_back c u m1 m2 v : fwd r s c u m1 m2 v → ∃ cur,
  (if Chunks.offset c =? Cursor.start (Chunks.cursor c) then Cursor.prev (Chunks.cursor c) else Some (Chunks.cursor c)) = Some cur ∧
  ((u ++ m1 = [] ∧ lost cur) ∨ ∃ ps x y qs, on_chunk r cur ps x y qs ∧ u ++ m1 = concat ps ++ x ∧ x ≠ []).
Proof.
  intros ([_ Hoff _] & Hs & [(ps & x & y & qs & Hc & Ha & _)|(texts & Hc & Ha & _)]).
  - rewrite Hoff, Ha, (oc_start Hc). destruct (decide (x = [])) as [->|Hx].
    + rewrite app_nil_r, Nat.eqb_refl. destruct (oc_prev Hc Hwalk) as (cur & -> & [(ps' & q & -> & Hcur)|[-> Hcur]]); exists cur; (split; [done|]).
      * right. exists ps', q, [], (([] ++ y) :: qs). split; [done|]. rewrite concat_app. cbn [concat]. rewrite app_nil_r. split; [done|].
        destruct (oc_texts Hcur) as (_ & (_ & ? & _) & _). by rewrite app_nil_r in *.
      * left. split; [done|]. by left.
    + assert (Str.len x ≠ 0) by (by intros ?%Str_len_zero). rewrite (proj2 (Nat.eqb_neq _ _)) by (rewrite Str_len_app; lia).
      eexists. split; [done|]. right. exists ps, x, y, qs. done.
  - rewrite Hoff, Ha, (pe_start Hc), Nat.eqb_refl. destruct Hc as [Htree Hsplit]. pose proof Htree as (Hok & Hl & Htexts).
    destruct texts as [|q ts _] using rev_ind.
    + destruct (lost_search (λ _, true) (Chunks.cursor c) filter_sound_true (or_intror (conj Hl Hsplit))) as (cur & Hrun & Hcur).
      exists cur. split; [exact Hrun|]. by left.
    + rewrite map_app in Hsplit. destruct (prev_spec (chunks r) (conj Hok Hwalk) _ _ _ _ Hsplit) as (cur & -> & Hcur).
      exists cur. split; [done|]. right. exists ts, q, [], []. rewrite concat_app. cbn [concat]. rewrite app_nil_r.
      apply Forall_app in Htexts as [_ [(_ & ? & _) _]%Forall_cons]. split; [|done]. split; rewrite app_nil_r; done.
Qed.

Lemma newline_in_chunk_spec c cur ps w t y qs : on_chunk r cur ps (w ++ t) y qs → Chunks.offset c = Str.len (concat ps ++ w ++ t) →
  w ++ t ≠ [] → t = [NEWLINE] ∨ t = [] ∧ (∀ w0, w ≠ w0 ++ [NEWLINE]) →
  Chunks.newline_in_chunk (Chunks.with_cursor c cur) = Some (StrSearch.rfind_newline w).
Proof.
  intros Hc Hoff Hne Ht. unfold Chunks.newline_in_chunk. cbn [Chunks.cursor Chunks.offset Chunks.with_cursor].
  rewrite (oc_item Hc), (oc_start Hc), Hoff, checked_sub_str. cbn [mbind option_bind chunk_of chunk_text].
  destruct (oc_texts Hc) as (_ & (Hok & _ & _) & _). apply Forall_app in Hok as [Hok _].
  destruct (w ++ t) as [|k x0 _] eqn:Hx using rev_ind; [done|]. apply Forall_app in Hok as [_ [Hk _]%Forall_cons].
  destruct (last_byte x0 k y Hk) as (b & Hb & Hnl).
  rewrite checked_sub_nat_Some by (rewrite Str_len_app, Str_len_cons; pose proof (len_utf8_pos k); lia). cbn [mbind option_bind].
  rewrite Hb. cbn [mbind option_bind]. rewrite Hnl.
  assert (∀ i, i = Str.len w → Str.slice ((x0 ++ [k]) ++ y) 0 i = Some w) as Hslice.
  { intros i ->. rewrite <-Hx, <-app_assoc. by apply (Str_slice_mid [] w (t ++ y)). }
  destruct Ht as [->|[-> Hw]].
  - apply app_inj_tail in Hx as [-> <-]. simpl. rewrite Hslice; [done|]. rewrite str_len_newline. lia.
  - rewrite app_nil_r in Hx. destruct (N.eqb_spec k NEWLINE) as [->|_]; [by specialize (Hw x0)|]. by rewrite Hslice by (by rewrite Hx).
Qed.

(** The last line start in a chunk's front [w] is that of all before it, or the
    front is in the last line. *)
Lemma line_start_split ps (w p l : str) : concat ps ++ w = p ++ l → Lines.newlines l = 0 → ends_line p →
  (Lines.newlines w = 0 ∧ ∃ l', concat ps = p ++ l' ∧ Lines.newlines l' = 0) ∨
  (∃ k l0, w = k ++ NEWLINE :: l0 ∧ Lines.newlines l0 = 0 ∧ p = concat ps ++ k ++ [NEWLINE]).
Proof.
  intros Heq Hl Hp. destruct (decide (Lines.newlines w = 0)) as [H0|H0].
  - left. split; [done|]. destruct (line_start_exists (concat ps)) as (p' & l' & Hps & Hl' & Hp'). rewrite Hps in *.
    exists l'. rewrite (line_start_unique p' (l' ++ w) p l); [done|by rewrite app_assoc|rewrite newlines_app; lia|done..].
  - right. destruct (last_newline w H0) as (k & l0 & -> & Hl0 & _). exists k, l0. split; [done|]. split; [done|].
    symmetry. apply (line_start_unique _ l0 _ l); [by rewrite <-Heq, <-!app_assoc|done|done| |done].
    right. exists (concat ps ++ k). by rewrite app_assoc.
Qed.

(** A later line start that is before the range will do. *)
Lemma back_step_weaken c u m v initial p p' found : back_step c u m v initial p' found → Str.len p' <= Str.len p → Str.len p < Str.len u →
  back_step c u m v initial p found.
Proof. intros [(_ & ? & _)|(_ & ? & ?)] Hle Hlt; [lia|]. right. auto. Qed.

Lemma prev_line_spec c u m1 m2 v p : fwd r s c u m1 m2 v → line_before (u ++ m1) p →
  ∃ found c', Chunks.prev_line c = Some (found, c') ∧ back_step c' u (m1 ++ m2) v (Str.len (u ++ m1)) p found.
Proof.
  intros Hfwd (Hp & l & t & Ha & Hl & Ht). pose proof Hfwd as ([Hrange Hoff Hrev] & Hs & _).
  assert (s = u ++ (m1 ++ m2) ++ v) as Hs' by (rewrite Hs, <-!app_assoc; done).
  unfold Chunks.prev_line. rewrite Hrev. cbn [negb rassert mbind option_bind].
  destruct (step_back c u m1 m2 v Hfwd) as (cur & -> & Hcase). cbn [mbind option_bind].
  destruct Hcase as [[Hnil Hcur]|(ps & x & y & qs & Hc & Hax & Hx)].
  { assert (p = []) as -> by (rewrite Hnil in Ha; by destruct p).
    unfold Chunks.newline_in_chunk. cbn [Chunks.cursor Chunks.with_cursor]. rewrite (nw_item _ (lost_nowhere _ Hcur)). cbn [mbind option_bind].
    unfold Chunks.prev_line_chunk. cbn [Chunks.cursor Chunks.with_cursor].
    destruct (lost_search _ _ newline_filter_sound Hcur) as (cur' & -> & [Hitem Hstart Htree]%lost_nowhere). cbn [mbind option_bind].
    rewrite Hitem, Hstart. cbn [mbind option_bind].
    rewrite Hoff. apply (reset_line_spec _ cur' None u _ v _ []); [done|done|done|done|by right|by left]. }
  (* the text before the offset, without a newline at its end *)
  assert (∃ w, x = w ++ t ∧ concat ps ++ w = p ++ l ∧ (t = [NEWLINE] ∨ t = [] ∧ ∀ w0, w ≠ w0 ++ [NEWLINE]) ∧ Str.len p < Str.len (u ++ m1)) as (w & -> & Hw & Hwt & Hplt).
  { destruct Ht as [->|[-> Hor]].
    - destruct x as [|k x0 _] using rev_ind; [done|]. rewrite Ha, !app_assoc in Hax. apply app_inj_tail in Hax as [Hax ->].
      exists x0. split; [done|]. split; [done|]. split; [by left|]. rewrite Ha, !Str_len_app. change (Str.len [NEWLINE]) with 1. lia.
    - exists x. rewrite app_nil_r. split; [done|]. rewrite <-Hax, Ha, app_nil_r. split; [done|].
      assert (l ≠ []) as Hlne.
      { destruct Hor as [|Hpn]; [done|]. intros Hln. rewrite Hpn, Hln in Ha. rewrite Ha in Hax. symmetry in Hax. by apply app_eq_nil in Hax as [_ ?]. }
      assert (Str.len l ≠ 0) by (by intros ?%Str_len_zero). split; [right; split; [done|]|rewrite ?app_nil_r, !Str_len_app; lia].
      intros w0 ->. rewrite app_assoc in Hax. destruct l as [|k l0 _] using rev_ind; [done|].
      rewrite Ha, app_nil_r, app_assoc in Hax. apply app_inj_tail in Hax as [_ ->]. rewrite newlines_snoc in Hl. simpl in Hl. lia. }
  rewrite (newline_in_chunk_spec c cur ps w t y qs Hc) by (done || by rewrite Hoff, Hax). cbn [mbind option_bind].
  assert (Str.len (concat ps) < Str.len (u ++ m1 ++ m2)) as Hpslt.
  { pose proof (f_equal Str.len Hax) as Hlen'. rewrite !Str_len_app in *. assert (Str.len (w ++ t) ≠ 0) as H by (by intros ?%Str_len_zero).
    rewrite Str_len_app in H. lia. }
  assert (∀ p' l', concat ps = p' ++ l' → Lines.newlines l' = 0 → ends_line p' → ∃ found c',
    Chunks.prev_line_chunk (Chunks.with_cursor c cur) (Chunks.offset c) = Some (found, c') ∧
    back_step c' u (m1 ++ m2) v (Str.len (u ++ m1)) p' found) as Hback.
  { intros p' l' Hp' Hl' He. rewrite Hoff. apply (prev_line_chunk_spec (Chunks.with_cursor c cur) ps (w ++ t) y qs u (m1 ++ m2) v _ p' l'); done. }
  destruct (line_start_split ps w p l Hw Hl Hp) as [(H0 & l' & Hp' & Hl')|(k & l0 & -> & Hl0 & Hpe)].
  { rewrite rfind_newline_none by done. by apply (Hback p l'). }
  rewrite rfind_newline_some, (oc_start Hc) by done.
  assert (Str.len (concat ps) + Str.len k + 1 = Str.len p) as -> by (rewrite Hpe, !Str_len_app; change (Str.len [NEWLINE]) with 1; lia).
  rewrite (back_valid _ u (m1 ++ m2) p) by (done || rewrite !Str_len_app in *; lia).
  destruct (Nat.leb_spec (Str.len u) (Str.len p)) as [Hlo|Hlo].
  - eexists _, _. split; [done|].
    apply (line_found c cur ps (k ++ [NEWLINE]) (l0 ++ t ++ y) qs); try done.
    + apply (oc_same Hc). by rewrite <-!app_assoc.
    + rewrite Hpe. by destruct (concat ps), k.
    + rewrite !Str_len_app in *. lia.
    + intros [-> [-> ->]%app_eq_nil]%app_eq_nil. destruct Hwt as [|[_ Hwt]]; [done|]. by apply (Hwt k).
  - destruct (line_start_exists (concat ps)) as (p' & l' & Hp' & Hl' & He).
    destruct (Hback p' l' Hp' Hl' He) as (found & c' & Hrun & Hc'). exists found, c'. split; [done|].
    apply (back_step_weaken _ _ _ _ _ p p'); [done| |done]. apply (f_equal Str.len) in Hp'. rewrite Hpe, !Str_len_app in *. lia.
Qed.
End steps.

(** ** Properties *)

(** C24. A forward iterator steps from line to line: [next_line] moves behind the
    next newline of the range, or to the end of the range if there is none, and
    says which; [prev_line] moves to the start of the line it is in, or of the one
    before if it is at a line's start, when that is in the range, and otherwise to
    the start of the range, where it says whether it moved to the start of the
    text.  The chunks in between are skipped by the rows in their summaries. *)
Theorem line_stepping r s c u m1 m2 v (Hr : holds r s) (Hwalk : walkable r) (Hlen : (N.of_nat (Str.len s) <= u32_max)%N)
    (Hc : fwd r s c u m1 m2 v) :
  (∃ found c', Chunks.next_line c = Some (found, c') ∧
     ((found = false ∧ Lines.newlines m2 = 0 ∧ fwd r s c' u (m1 ++ m2) [] v) ∨
      ∃ l rest, found = true ∧ Lines.newlines l = 0 ∧ m2 = l ++ NEWLINE :: rest ∧ fwd r s c' u (m1 ++ l ++ [NEWLINE]) rest v)) ∧
  (∀ p, line_before (u ++ m1) p → ∃ found c', Chunks.prev_line c = Some (found, c') ∧
     ((p ≠ [] ∧ Str.len u <= Str.len p ∧ found = true ∧ ∃ m1' m2', p = u ++ m1' ∧ m1 ++ m2 = m1' ++ m2' ∧ fwd r s c' u m1' m2' v) ∨
      ((p = [] ∨ Str.len p < Str.len u) ∧ found = (Str.len u <? Str.len (u ++ m1)) && (Str.len u =? 0) ∧ fwd r s c' u [] (m1 ++ m2) v))).
Proof. split; [by apply next_line_spec|]. intros p Hp. by apply prev_line_spec. Qed.

Lemma line_stepping_witness :
  ∃ c found c', Chunks.new RopeExample.rope (0, 172) false = Some c ∧ Chunks.next_line c = Some (found, c') ∧
    ∃ l rest, Lines.newlines l = 0 ∧ RopeExample.text = l ++ NEWLINE :: rest ∧ Chunks.offset c' = Str.len (l ++ [NEWLINE]).
Proof.
  destruct (fwd_new RopeExample.rope RopeExample.text RopeExample.rope_holds RopeExample.rope_walkable example_len [] RopeExample.text [])
    as (c & Hnew & Hc & _); [by rewrite app_nil_r|].
  destruct (line_stepping _ _ c _ _ _ _ RopeExample.rope_holds RopeExample.rope_walkable example_len Hc) as [(found & c' & Hrun & Hstep) _].
  exists c, found, c'. split; [exact Hnew|]. split; [exact Hrun|].
  destruct Hstep as [(_ & H0 & _)|(l & rest & _ & Hl & Heq & ([_ Hoff _] & _))]; [by vm_compute in H0|]. exists l, rest.
  split; [exact Hl|]. split; [exact Heq|exact Hoff].
Defined.
