(* ===== verification/RopeBytes.v ===== *)
(** * Bytes of a rope

    The iterator over the bytes of a range, which need not begin or end at a
    character, and its use as a reader. *)

From S2P Require Import Prelude SumTree SumTreeFacts Seek Cursor CursorFacts CursorWalk Utf8 Points Lines BitSelect Chunk ChunkBits ChunkFacts ChunkPositions TextSummary RopeTree Rope RopeFacts RopeSeek RopeCut RopeIter RopeIterFacts RopePieces.

Implicit Types (s t : str) (texts ps qs : list str).

(** ** Ranges of a list *)

Section between.
Context {A : Type}.
Implicit Types l k m : list A.

Definition between l (i j : nat) : list A := take (j - i) (drop i l).

Lemma between_nil l i j : j <= i → between l i j = [].
Proof. intros H. unfold between. by replace (j - i) with 0 by lia. Qed.

Lemma length_between l i j : j <= length l → length (between l i j) = j - i.
Proof. intros H. unfold between. rewrite length_take, length_drop. lia. Qed.

Lemma between_app l i j n : i <= j → j <= n → between l i j ++ between l j n = between l i n.
Proof.
  intros H1 H2. unfold between. replace (n - i) with ((j - i) + (n - j)) by lia.
  rewrite <-take_take_drop, drop_drop. by replace (i + (j - i)) with j by lia.
Qed.

Lemma drop_between l i j n : n <= j - i → drop n (between l i j) = between l (i + n) j.
Proof. intros H. unfold between. rewrite skipn_firstn_comm, drop_drop. f_equal. lia. Qed.

Lemma between_mid k l m i j : j <= length l → between (k ++ l ++ m) (length k + i) (length k + j) = between l i j.
Proof.
  intros H. unfold between. rewrite drop_app_add, drop_app. replace (length k + j - (length k + i)) with (j - i) by lia.
  destruct (decide (i <= j)); [|by replace (j - i) with 0 by lia].
  rewrite take_app_le; [done|]. rewrite length_drop. lia.
Qed.
End between.

Lemma byte_slice_Some l i j : i <= j → j <= length l → byte_slice l i j = Some (between l i j).
Proof. intros H1 H2. unfold byte_slice. rewrite !rassert_true by (by apply Nat.leb_le). done. Qed.

Section bytes.
Context (r : Rope) (s : str) (Hr : holds r s) (Hwalk : walkable r) (Hlen : (N.of_nat (Str.len s) <= u32_max)%N).
Implicit Types it : Bytes.t.
Let B : list N := Str.as_bytes s.

(** The reader has the bytes [rest] left. *)
Definition bytes_at it (rest : list N) : Prop := ∃ lo hi, Bytes.range it = (lo, hi) ∧ lo <= hi ∧ hi <= Str.len s ∧
  ((∃ ps q qs, on_chunk r (Bytes.cursor it) ps [] q qs ∧
      if Bytes.reversed it
      then (Str.len (concat ps) < hi ∨ hi <= lo) ∧ rest = between B lo (hi `min` Str.len (concat ps ++ q))
      else lo < Str.len (concat ps ++ q) ∧ rest = between B (lo `max` Str.len (concat ps)) hi) ∨
   (Cursor.item (Bytes.cursor it) = Some None ∧ rest = [])).

(** The bytes of a chunk's window. *)
Lemma chunk_bytes cur ps q qs i j : on_chunk r cur ps [] q qs → i <= j → j <= Str.len q →
  byte_slice (Str.as_bytes q) i j = Some (between B (Str.len (concat ps) + i) (Str.len (concat ps) + j)).
Proof.
  intros Hc Hij Hj. rewrite byte_slice_Some by done. f_equal.
  assert (s = concat ps ++ q ++ concat qs) as Hs.
  { destruct (oc_holds Hc) as (t1 & Ht1 & Heq). destruct Hr as (t2 & Ht2 & ->). by rewrite <-(tree_holds_unique _ _ _ Ht1 Ht2). }
  unfold B. rewrite Hs, !Str_as_bytes_app. symmetry. by apply between_mid.
Qed.

(** [peek] shows the part [P] of what is left that is in the chunk. *)
Lemma peek_bytes it rest : bytes_at it rest → (Bytes.peek it = Some None ∧ rest = []) ∨
  ∃ lo hi ps q qs, Bytes.range it = (lo, hi) ∧ on_chunk r (Bytes.cursor it) ps [] q qs ∧
    lo <= hi ∧ hi <= Str.len s ∧ lo < Str.len (concat ps ++ q) ∧ Str.len (concat ps) < hi ∧
    let P := between B (lo `max` Str.len (concat ps)) (Str.len (concat ps ++ q) `min` hi) in
    Bytes.peek it = Some (Some P) ∧
    rest = if Bytes.reversed it then between B lo (lo `max` Str.len (concat ps)) ++ P
           else P ++ between B (Str.len (concat ps ++ q) `min` hi) hi.
Proof.
  intros (lo & hi & Hrange & Hle & Hhi & [(ps & q & qs & Hc & Hrest)|[Hitem ->]]); [|left; unfold Bytes.peek; by rewrite Hitem].
  unfold Bytes.peek. rewrite (oc_item Hc), (oc_start Hc), (oc_end Hc), Hrange. cbn [mbind option_bind fst snd app].
  destruct (Bytes.reversed it) eqn:Hrev; cbn [andb].
  - destruct Hrest as [Hcs ->]. destruct (Nat.leb_spec (Str.len (concat ps ++ q)) lo) as [Hout|Hin]; cbn [orb].
    { left. by rewrite between_nil by lia. }
    destruct (Nat.leb_spec hi (Str.len (concat ps))) as [Hout|Hin'].
    { left. by rewrite between_nil by lia. }
    right. exists lo, hi, ps, q, qs. do 6 (split; [done|]). cbv zeta. rewrite checked_sub_nat_Some by lia. cbn [mbind option_bind chunk_of chunk_text].
    pose proof (Str_len_app (concat ps) q) as Hl. rewrite (chunk_bytes _ _ _ _ _ _ Hc) by lia. cbn [mbind option_bind]. split.
    + do 3 f_equal; lia.
    + rewrite between_app by lia. f_equal. lia.
  - destruct Hrest as [Hcs ->]. cbn [orb]. destruct (Nat.leb_spec hi (Str.len (concat ps))) as [Hout|Hin'].
    { left. by rewrite between_nil by lia. }
    right. exists lo, hi, ps, q, qs. do 6 (split; [done|]). cbv zeta. rewrite checked_sub_nat_Some by lia. cbn [mbind option_bind chunk_of chunk_text].
    pose proof (Str_len_app (concat ps) q) as Hl. rewrite (chunk_bytes _ _ _ _ _ _ Hc) by lia. cbn [mbind option_bind]. split.
    + do 3 f_equal; lia.
    + by rewrite between_app by lia.
Qed.

(** To the next chunk in the direction of the reader. *)
Lemma step_bytes it lo hi ps q qs lo' hi' : on_chunk r (Bytes.cursor it) ps [] q qs → Bytes.range it = (lo', hi') → lo' <= hi' → hi' <= Str.len s →
  (if Bytes.reversed it then lo' = lo ∧ lo `max` Str.len (concat ps) <= hi' else hi' = hi ∧ lo' <= Str.len (concat ps ++ q)) →
  ∃ it', Bytes.step it = Some it' ∧ Bytes.range it' = (lo', hi') ∧ Bytes.reversed it' = Bytes.reversed it ∧
    bytes_at it' (if Bytes.reversed it then between B lo (lo `max` Str.len (concat ps)) else between B (Str.len (concat ps ++ q) `min` hi) hi) ∧
    (lo' = hi' → Bytes.peek it' = Some None) ∧
    (if Bytes.reversed it then Cursor.end_ (Bytes.cursor it') = Some (Str.len (concat ps)) ∨ ps = []
     else Cursor.start (Bytes.cursor it') = Str.len (concat ps ++ q)).
Proof.
  intros Hc Hrange Hle Hhi Hcond. unfold Bytes.step. rewrite Hrange. destruct (Bytes.reversed it) eqn:Hrev.
  - destruct Hcond as [-> Hcs]. destruct (oc_prev Hc Hwalk) as (cur & -> & [(ps' & p & -> & Hcur)|[-> Hcur]]); cbn [mbind option_bind].
    + assert (concat (ps' ++ [p]) = concat ps' ++ p) as Hcat by (rewrite concat_app; cbn [concat]; by rewrite app_nil_r).
      rewrite Hcat in *. pose proof (Str_len_app (concat ps') p) as Hl. pose proof (oc_end Hcur) as Hend. rewrite app_nil_r in Hend.
      destruct (oc_texts Hcur) as (_ & (_ & Hp & _) & _). rewrite app_nil_r in Hp. assert (Str.len p ≠ 0) by (by intros ?%Str_len_zero).
      eexists. split; [done|]. split; [done|]. split; [done|]. split; [|split; [|by left]].
      * exists lo, hi'. split_and!; [done..|]. left. exists ps', p, (q :: qs). cbn [Bytes.cursor Bytes.reversed].
        split; [apply (oc_same Hcur); by rewrite app_nil_r|]. split; [lia|].
        destruct (decide (Str.len (concat ps' ++ p) <= lo)); [by rewrite !between_nil by lia|f_equal; lia].
      * intros ->. unfold Bytes.peek. cbn [Bytes.cursor Bytes.range Bytes.reversed fst snd]. rewrite (oc_item Hcur), Hend. cbn [mbind option_bind andb].
        rewrite (proj2 (Nat.leb_le _ _)) by lia. done.
    + eexists. split; [done|]. split; [done|]. split; [done|]. pose proof (before_start_item _ _ Hcur) as Hitem.
      split; [|split; [|by right]].
      * exists lo, hi'. split_and!; [done..|]. right. split; [done|]. change (Str.len (concat [])) with 0. by rewrite between_nil by lia.
      * intros _. unfold Bytes.peek. cbn [Bytes.cursor]. by rewrite Hitem.
  - destruct Hcond as [-> Hlo]. destruct (oc_next Hc Hwalk) as (cur & -> & [(q' & qs' & -> & Hcur)|[-> Hcur]]); cbn [mbind option_bind];
      simpl app in Hcur; (assert (concat (ps ++ [q]) = concat ps ++ q) as Hcat by (rewrite concat_app; cbn [concat]; by rewrite app_nil_r)).
    + destruct (oc_texts Hcur) as (_ & (_ & Hq & _) & _). assert (Str.len q' ≠ 0) by (by intros ?%Str_len_zero).
      pose proof (oc_start Hcur) as Hstart. rewrite Hcat in Hstart.
      eexists. split; [done|]. split; [done|]. split; [done|]. split; [|split; [|done]].
      * exists lo', hi. split_and!; [done..|]. left. exists (ps ++ [q]), q', qs'. cbn [Bytes.cursor Bytes.reversed]. split; [done|].
        rewrite Hcat, (Str_len_app (concat ps ++ q)). split; [lia|].
        destruct (decide (hi <= Str.len (concat ps ++ q))); [by rewrite !between_nil by lia|f_equal; lia].
      * intros ->. unfold Bytes.peek. cbn [Bytes.cursor Bytes.range Bytes.reversed fst snd]. rewrite (oc_item Hcur), Hstart, (oc_end Hcur). cbn [mbind option_bind andb orb].
        rewrite (proj2 (Nat.leb_le _ _)) by lia. done.
    + pose proof (pe_start Hcur) as Hstart. rewrite Hcat in Hstart. pose proof (pe_item Hcur) as Hitem.
      assert (Str.len s = Str.len (concat ps ++ q)) as Hls.
      { destruct Hr as (t2 & Ht2 & ->). by rewrite (tree_holds_unique _ _ _ Ht2 (pe_tree Hcur)), Hcat. }
      eexists. split; [done|]. split; [done|]. split; [done|]. split; [|split; [|done]].
      * exists lo', hi. split_and!; [done..|]. right. split; [done|]. by rewrite between_nil by lia.
      * intros _. unfold Bytes.peek. cbn [Bytes.cursor]. by rewrite Hitem.
Qed.

(** *** [next] *)

Lemma bytes_next_eq it : Bytes.next it =
  (result ← Bytes.peek it; match result with Some _ => it ← Bytes.step it; Some (result, it) | None => Some (None, it) end).
Proof. done. Qed.

Lemma drain_bytes fuel it rest : bytes_at it rest → length rest + 2 <= fuel → ∃ pieces, drain Bytes.next fuel it = Some pieces ∧
  concat (if Bytes.reversed it then reverse pieces else pieces) = rest.
Proof.
  revert it rest. induction fuel as [|fuel IH]; intros it rest Hit Hfuel; [lia|]. simpl. rewrite bytes_next_eq.
  destruct (peek_bytes it rest Hit) as [[-> ->]|(lo & hi & ps & q & qs & Hrange & Hc & Hle & Hhi & Hlo & Hcs & -> & Hrest)]; cbn [mbind option_bind].
  { exists []. split; [done|]. by destruct (Bytes.reversed it). }
  set (P := between B (lo `max` Str.len (concat ps)) (Str.len (concat ps ++ q) `min` hi)) in *.
  destruct (step_bytes it lo hi ps q qs lo hi Hc Hrange Hle Hhi) as (it' & -> & Hrange' & Hrev' & Hit' & Hpeek' & _).
  { destruct (Bytes.reversed it); lia. }
  cbn [mbind option_bind]. match type of Hit' with bytes_at _ ?x => set (rest' := x) in * end.
  assert (length rest = length P + length rest') as Hlrest.
  { rewrite Hrest. subst rest'. destruct (Bytes.reversed it); rewrite length_app; lia. }
  destruct (decide (length P = 0)) as [HP|HP].
  - assert (lo = hi) as Heq.
    { unfold P in HP. rewrite length_between in HP by (change (length B) with (Str.len s); lia).
      pose proof (Str_len_app (concat ps) q). destruct (oc_texts Hc) as (_ & (_ & Hq & _) & _). assert (Str.len q ≠ 0) by (by intros ?%Str_len_zero). lia. }
    destruct fuel as [|fuel]; [lia|]. simpl. rewrite bytes_next_eq. rewrite (Hpeek' Heq). cbn [mbind option_bind].
    exists [P]. split; [done|]. apply length_zero_iff_nil in HP. rewrite HP.
    rewrite Hrest, HP, app_nil_r. subst lo. destruct (Bytes.reversed it); rewrite between_nil by lia; done.
  - destruct (IH it' rest' Hit') as (pieces & -> & Hpieces); [lia|]. cbn [mbind option_bind]. exists (P :: pieces). split; [done|].
    rewrite Hrev' in Hpieces. rewrite Hrest. unfold rest' in Hpieces. destruct (Bytes.reversed it).
    + rewrite reverse_cons, concat_app, Hpieces. cbn [concat]. by rewrite app_nil_r.
    + simpl. by rewrite Hpieces.
Qed.

(** *** [new] *)

Lemma bytes_new lo hi rev : lo <= hi → hi <= Str.len s → ∃ it, Bytes.new r (lo, hi) rev = Some it ∧ Bytes.reversed it = rev ∧
  Bytes.range it = (lo, hi) ∧ bytes_at it (between B lo hi) ∧
  (if rev then (∀ e, Cursor.end_ (Bytes.cursor it) = Some e → hi <= e) else Cursor.start (Bytes.cursor it) <= lo).
Proof.
  intros Hle Hhi. destruct Hr as (texts & Hth & Hcat). pose proof Hth as (Hok & Hl & Htexts). unfold Bytes.new. cbn [fst snd].
  set (k := if rev then hi else lo). set (bias := if rev then Left else Right).
  pose proof (seek_spec (D:=nat) (chunks r) (seek_ord k) bias (Cursor.new (chunks r)) (conj Hok Hwalk) eq_refl) as Hseek.
  pose proof (offsets_monotone k texts [] Htexts (Forall_nil_2 _)) as Hm. rewrite <-Hl in Hm.
  destruct (lin_seek _ _ _ _) as [[bs p] rs] eqn:Hlin. rewrite Hl in Hlin.
  destruct Hseek as (cur & Hrun & Hcur); [apply Hm; simpl; by rewrite <-Hcat|by destruct k|].
  rewrite (td_zero (D:=nat)) in Hlin.
  destruct (texts_seek (D:=nat) (seek_ord k) bias [] texts bs p rs Htexts Hlin) as (ps & qs & -> & -> & -> & _ & [Hpass Hstop]).
  assert ((if rev then Cursor.seek (seek_ord hi) Left (Cursor.new (chunks r)) else Cursor.seek (seek_ord lo) Right (Cursor.new (chunks r))) =
    Some (found_at (seek_ord k) bias p (map chunk_of qs), cur)) as -> by (rewrite <-Hrun; by destruct rev).
  cbn [mbind option_bind]. eexists. split; [done|]. split; [done|]. split; [done|].
  rewrite (target_stops N.of_nat k (seek_ord k) (λ _, eq_refl)) in Hpass. cbn [Bytes.cursor].
  destruct qs as [|q qs].
  - assert (past_end r cur ps) as Hc by (rewrite app_nil_r in *; by split).
    assert (Str.len s = Str.len (concat ps)) as Hls by (by rewrite Hcat, app_nil_r).
    assert (lo = hi ∨ rev = false) as Hor.
    { destruct rev; [left|by right]. destruct (decide (ps = [])) as [->|Hps]; [change (Str.len (concat [])) with 0 in *; lia|].
      specialize (Hpass Hps). unfold bias in Hpass. apply N.leb_gt in Hpass. unfold measure in Hpass. simpl in Hpass. unfold k in Hpass. lia. }
    split; [|destruct rev; [intros e; rewrite (pe_end Hc); intros [= <-]; lia|]].
    + exists lo, hi. split_and!; [done..|]. right. split; [exact (pe_item Hc)|].
      destruct (decide (lo = hi)) as [->|Hne]; [by rewrite between_nil|]. destruct Hor as [?| ->]; [done|].
      destruct (decide (ps = [])) as [->|Hps]; [change (Str.len (concat [])) with 0 in *; lia|].
      specialize (Hpass Hps). unfold bias in Hpass. apply N.ltb_ge in Hpass. unfold measure in Hpass. simpl in Hpass. unfold k in Hpass.
      rewrite between_nil; [done|]. lia.
    + rewrite (pe_start Hc). destruct (decide (ps = [])) as [->|Hps]; [change (Str.len (concat [])) with 0; lia|].
      specialize (Hpass Hps). unfold bias in Hpass. apply N.ltb_ge in Hpass. unfold measure in Hpass. simpl in Hpass. unfold k in Hpass. lia.
  - assert (on_chunk r cur ps [] q qs) as Hc by (by split).
    rewrite (target_stops N.of_nat k (seek_ord k) (λ _, eq_refl)) in Hstop. unfold measure in Hpass, Hstop. simpl in Hpass, Hstop.
    unfold bias, k in *. destruct rev.
    + apply N.leb_le in Hstop.
      assert (Str.len (concat ps) < hi ∨ hi <= lo) as Hlow.
      { destruct (decide (ps = [])) as [->|Hps]; [change (Str.len (concat [])) with 0; lia|].
        specialize (Hpass Hps). apply N.leb_gt in Hpass. lia. }
      split; [|intros e; rewrite (oc_end Hc); simpl; intros [= <-]; lia].
      exists lo, hi. split_and!; [done..|]. left. exists ps, q, qs. split; [done|]. split; [done|]. f_equal. lia.
    + apply N.ltb_lt in Hstop.
      assert (Str.len (concat ps) <= lo) as Hlow.
      { destruct (decide (ps = [])) as [->|Hps]; [change (Str.len (concat [])) with 0; lia|].
        specialize (Hpass Hps). apply N.ltb_ge in Hpass. lia. }
      split; [|by rewrite (oc_start Hc)].
      exists lo, hi. split_and!; [done..|]. left. exists ps, q, qs. split; [done|]. split; [lia|]. f_equal. lia.
Qed.

(** *** [read] *)

(** The range is that of the bytes left, as long as the reader is only read from. *)
Definition reads it (rest : list N) : Prop := bytes_at it rest ∧
  (rest = [] ∨ if Bytes.reversed it then ∀ e, Cursor.end_ (Bytes.cursor it) = Some e → (Bytes.range it).2 <= e
               else Cursor.start (Bytes.cursor it) <= (Bytes.range it).1).

Definition in_order (rev : bool) (l : list N) : list N := if rev then reverse l else l.

Lemma length_B : length B = Str.len s.
Proof. done. Qed.

(** What reading [n] bytes [out] leaves. *)
Definition read_step it rest (buf : list N) (res : option (nat * list N * Bytes.t)) : Prop :=
  ∃ n out it' rest', res = Some (n, out ++ drop n buf, it') ∧ length out = n ∧
    n <= length buf ∧ Bytes.reversed it' = Bytes.reversed it ∧ in_order (Bytes.reversed it) rest = out ++ in_order (Bytes.reversed it) rest' ∧
    reads it' rest' ∧ (n = 0 → buf = [] ∨ rest = []).

(** The window of the cursor's chunk, as [peek_bytes] gives it. *)
Record shown it (rest : list N) (lo hi : nat) (ps : list str) (q : str) (qs : list str) (P : list N) : Prop := {
  sh_range : Bytes.range it = (lo, hi);
  sh_chunk : on_chunk r (Bytes.cursor it) ps [] q qs;
  sh_hi : hi <= Str.len s;
  sh_lo : lo <= hi ∧ lo < Str.len (concat ps ++ q) ∧ Str.len (concat ps) < hi;
  sh_piece : P = between B (lo `max` Str.len (concat ps)) (Str.len (concat ps ++ q) `min` hi);
  sh_length : length P = (Str.len (concat ps ++ q) `min` hi) - (lo `max` Str.len (concat ps));
  sh_chunk_length : Str.len (concat ps) < Str.len (concat ps ++ q);
}.

Lemma read_forward it rest buf lo hi ps q qs P : Bytes.reversed it = false → shown it rest lo hi ps q qs P →
  rest = P ++ between B (Str.len (concat ps ++ q) `min` hi) hi → reads it rest →
  read_step it rest buf (let n := length buf `min` length P in
    self ← (if n =? length P then Bytes.step (Bytes.mk (Bytes.cursor it) (lo + n, hi) false) else Some (Bytes.mk (Bytes.cursor it) (lo + n, hi) false));
    Some (n, take n P ++ drop n buf, self)).
Proof.
  intros Hrev [Hrange Hc Hhi (Hle & Hlo & Hcs) HP HlP Hlq] Hrest [_ Hsync]. rewrite Hrev, Hrange, (oc_start Hc) in Hsync. simpl in Hsync.
  set (n := length buf `min` length P). assert (length (take n P) = n) as Hn by (rewrite length_take; lia).
  assert (n = 0 → buf = [] ∨ rest = []) as Hzero.
  { intros Hn0. destruct buf as [|b0 buf]; [by left|right]. assert (length P = 0) as HP0 by (unfold n in Hn0; cbn [length] in Hn0; lia).
    rewrite Hrest, (proj1 (length_zero_iff_nil P) HP0), between_nil by lia. done. }
  assert (rest = [] → length P = 0) as HP0 by (intros ->; symmetry in Hrest; by apply app_eq_nil in Hrest as [-> _]).
  unfold read_step. rewrite Hrev. destruct (Nat.eqb_spec n (length P)) as [Hfull|Hpart].
  - destruct (step_bytes (Bytes.mk (Bytes.cursor it) (lo + n, hi) false) lo hi ps q qs (lo + n) hi Hc eq_refl) as (it' & Hstep & Hr' & Hrev' & Hit' & _ & Hstart);
      [destruct Hsync as [?%HP0|]; lia|done|simpl; split; [done|destruct Hsync as [?%HP0|]; lia]|].
    rewrite Hstep. cbn [mbind option_bind]. eexists n, _, it', _. split; [done|]. split; [done|]. split; [lia|]. split; [done|].
    simpl in Hit', Hstart. simpl. split; [rewrite Hrest, take_ge by lia; done|]. split; [|done]. split; [done|].
    rewrite Hrev', Hr', Hstart. simpl. destruct (decide (hi <= Str.len (concat ps ++ q))); [left; by rewrite between_nil by lia|right].
    destruct Hsync as [Hr0|]; [|lia]. rewrite Hr0 in Hrest. symmetry in Hrest. apply app_eq_nil in Hrest as [_ Hb].
    apply (f_equal length) in Hb. rewrite length_between in Hb by (rewrite length_B; lia). simpl in Hb. lia.
  - assert (Str.len (concat ps) <= lo) as Hcslo by (destruct Hsync as [?%HP0|]; lia).
    cbn [mbind option_bind]. exists n, (take n P), (Bytes.mk (Bytes.cursor it) (lo + n, hi) false), (drop n rest). split; [done|]. split; [done|]. split; [lia|].
    split; [done|]. simpl. split; [rewrite Hrest, drop_app_le, app_assoc, take_drop by lia; done|]. split; [|done].
    split; [|right; simpl; rewrite (oc_start Hc); lia].
    exists (lo + n), hi. cbn [Bytes.range Bytes.cursor Bytes.reversed]. split_and!; [done|lia|done|]. left. exists ps, q, qs. split; [done|]. split; [lia|].
    rewrite Hrest, HP, between_app, drop_between by lia. f_equal. lia.
Qed.

Lemma read_backward it rest buf lo hi ps q qs P : Bytes.reversed it = true → shown it rest lo hi ps q qs P →
  rest = between B lo (lo `max` Str.len (concat ps)) ++ P → reads it rest →
  read_step it rest buf (let n := length buf `min` length P in
    self ← (if n =? length P then Bytes.step (Bytes.mk (Bytes.cursor it) (lo, hi - n) true) else Some (Bytes.mk (Bytes.cursor it) (lo, hi - n) true));
    Some (n, reverse (drop (length P - n) P) ++ drop n buf, self)).
Proof.
  intros Hrev [Hrange Hc Hhi (Hle & Hlo & Hcs) HP HlP Hlq] Hrest [_ Hsync]. rewrite Hrev, Hrange, (oc_end Hc) in Hsync. simpl in Hsync.
  set (n := length buf `min` length P). set (out := reverse (drop (length P - n) P)).
  assert (length out = n) as Hn by (unfold out; rewrite length_reverse, length_drop; lia).
  assert (n = 0 → buf = [] ∨ rest = []) as Hzero.
  { intros Hn0. destruct buf as [|b0 buf]; [by left|right]. assert (length P = 0) as HP0 by (unfold n in Hn0; cbn [length] in Hn0; lia).
    rewrite Hrest, (proj1 (length_zero_iff_nil P) HP0), between_nil by lia. done. }
  assert (rest = [] → length P = 0) as HP0 by (intros ->; symmetry in Hrest; by apply app_eq_nil in Hrest as [_ ->]).
  assert (rest = [] ∨ hi <= Str.len (concat ps ++ q)) as Hsync' by (destruct Hsync as [|Hs]; [by left|right; by apply Hs]). clear Hsync.
  unfold read_step. rewrite Hrev. destruct (Nat.eqb_spec n (length P)) as [Hfull|Hpart].
  - destruct (step_bytes (Bytes.mk (Bytes.cursor it) (lo, hi - n) true) lo hi ps q qs lo (hi - n) Hc eq_refl) as (it' & Hstep & Hr' & Hrev' & Hit' & _ & Hend);
      [destruct Hsync' as [?%HP0|]; lia|lia|simpl; split; [done|destruct Hsync' as [?%HP0|]; lia]|].
    rewrite Hstep. cbn [mbind option_bind]. eexists n, out, it', _. split; [done|]. split; [done|]. split; [lia|]. split; [done|].
    simpl in Hit', Hend. simpl. split.
    { rewrite Hrest, reverse_app. f_equal. unfold out. by replace (length P - n) with 0 by lia. }
    split; [|done]. split; [exact Hit'|]. rewrite Hrev', Hr'. simpl.
    destruct (decide (Str.len (concat ps) <= lo)); [left; by rewrite between_nil by lia|].
    destruct Hsync' as [Hr0|]; [left; rewrite Hr0 in Hrest; symmetry in Hrest; by apply app_eq_nil in Hrest as [? _]|].
    destruct Hend as [Hend| ->]; [right; rewrite Hend; intros e [= <-]; lia|change (Str.len (concat [])) with 0 in *; lia].
  - assert (hi <= Str.len (concat ps ++ q)) as Hhi' by (destruct Hsync' as [?%HP0|]; lia).
    cbn [mbind option_bind]. exists n, out, (Bytes.mk (Bytes.cursor it) (lo, hi - n) true), (between B lo (hi - n)). split; [done|]. split; [done|]. split; [lia|].
    split; [done|]. simpl. split.
    { rewrite Hrest, HP, between_app by lia. rewrite <-(between_app B lo (hi - n)), reverse_app by lia. f_equal. unfold out. f_equal.
      rewrite HlP. rewrite HP, drop_between by lia. f_equal; lia. }
    split; [|done]. split; [|right; simpl; rewrite (oc_end Hc); intros e [= <-]; simpl; lia].
    exists lo, (hi - n). cbn [Bytes.range Bytes.cursor Bytes.reversed]. split_and!; [done|lia|lia|]. left. exists ps, q, qs. split; [done|]. split; [lia|].
    f_equal. lia.
Qed.

Lemma read_spec it rest buf : reads it rest → read_step it rest buf (Bytes.read it buf).
Proof.
  intros Hreads. pose proof Hreads as [Hit _]. unfold Bytes.read.
  destruct (peek_bytes it rest Hit) as [[-> ->]|(lo & hi & ps & q & qs & Hrange & Hc & Hle & Hhi & Hlo & Hcs & -> & Hrest)]; cbn [mbind option_bind].
  { exists 0, [], it, []. split_and!; [done|done|lia|done|by destruct (Bytes.reversed it)|done|by right]. }
  set (P := between B (lo `max` Str.len (concat ps)) (Str.len (concat ps ++ q) `min` hi)) in *.
  assert (shown it rest lo hi ps q qs P) as Hshown.
  { pose proof (Str_len_app (concat ps) q). destruct (oc_texts Hc) as (_ & (_ & Hq & _) & _). assert (Str.len q ≠ 0) by (by intros ?%Str_len_zero).
    split; [done..| |lia]. unfold P. rewrite length_between by (rewrite length_B; lia). done. }
  rewrite Hrange. cbn [fst snd]. destruct (Bytes.reversed it) eqn:Hrev.
  - pose proof (sh_length _ _ _ _ _ _ _ _ Hshown). rewrite !checked_sub_nat_Some by lia. cbn [mbind option_bind].
    by apply (read_backward it rest buf lo hi ps q qs P).
  - cbn [mbind option_bind]. by apply (read_forward it rest buf lo hi ps q qs P).
Qed.
End bytes.

(** Reading into one buffer after the other: what was read. *)
Fixpoint read_all (it : Bytes.t) (bufs : list (list N)) : option (list N) :=
  match bufs with
  | [] => Some []
  | buf :: bufs =>
      '(n, buf, it) ← Bytes.read it buf;
      out ← read_all it bufs; Some (take n buf ++ out)
  end.

Lemma read_all_spec r s (Hr : holds r s) (Hwalk : walkable r) (Hlen : (N.of_nat (Str.len s) <= u32_max)%N) it rest bufs : reads r s it rest →
  ∃ out left_, read_all it bufs = Some out ∧ in_order (Bytes.reversed it) rest = out ++ left_ ∧
    (Forall (λ buf, buf ≠ []) bufs → length rest <= length bufs → left_ = []).
Proof.
  revert it rest. induction bufs as [|buf bufs IH]; intros it rest Hit; simpl.
  { exists [], (in_order (Bytes.reversed it) rest). split; [done|]. split; [done|]. intros _ H0.
    assert (rest = []) as -> by (by apply length_zero_iff_nil; lia). by destruct (Bytes.reversed it). }
  destruct (read_spec r s Hr Hwalk Hlen it rest buf Hit) as (n & out & it' & rest' & -> & Hn & Hle & Hrev & Hout & Hit' & Hzero).
  cbn [mbind option_bind]. destruct (IH it' rest' Hit') as (outs & left_ & -> & Heq & Hdone). cbn [mbind option_bind].
  exists (out ++ outs), left_. rewrite take_app_length' by done. rewrite Hrev in Heq. split; [done|].
  split; [by rewrite Hout, Heq, app_assoc|]. intros [Hbuf Hbufs]%Forall_cons Hlength. apply Hdone; [done|].
  assert (length rest = length out + length rest') as Hl.
  { apply (f_equal length) in Hout. rewrite length_app in Hout. destruct (Bytes.reversed it); simpl in Hout; rewrite ?length_reverse in Hout; done. }
  destruct (decide (n = 0)) as [H0|]; [|lia]. destruct (Hzero H0) as [?| ->]; [done|]. simpl in Hl. lia.
Qed.

(** ** Properties *)

(** C26. The bytes of any range, also one that cuts characters, are those of the
    text: the iterator ends and its pieces join to them, in order or from the
    back; and reading gives them in order, or reversed, however large the buffers
    are, leaves the rest of a buffer alone, and reads on until all is read. *)
Theorem bytes_iterate r s lo hi (rev : bool) bufs (Hr : holds r s) (Hwalk : walkable r) (Hlen : (N.of_nat (Str.len s) <= u32_max)%N)
    (Hle : lo <= hi) (Hhi : hi <= Str.len s) :
  let bytes := take (hi - lo) (drop lo (Str.as_bytes s)) in
  ∃ it, Bytes.new r (lo, hi) rev = Some it ∧
    (∃ pieces, drain Bytes.next (2 + (hi - lo)) it = Some pieces ∧ concat (if rev then reverse pieces else pieces) = bytes) ∧
    (∃ out left_, read_all it bufs = Some out ∧ (if rev then reverse bytes else bytes) = out ++ left_ ∧
       (Forall (λ buf, buf ≠ []) bufs → hi - lo <= length bufs → left_ = [])) ∧
    (∀ buf, ∃ n out it', Bytes.read it buf = Some (n, out ++ drop n buf, it') ∧ length out = n ∧ n <= length buf).
Proof.
  intros bytes. destruct (bytes_new r s Hr Hwalk Hlen lo hi rev Hle Hhi) as (it & Hnew & Hrev & Hrange & Hit & Hsync).
  assert (length (between (Str.as_bytes s) lo hi) = hi - lo) as Hl by (by apply length_between).
  assert (reads r s it (between (Str.as_bytes s) lo hi)) as Hreads.
  { split; [done|]. right. rewrite Hrev, Hrange. exact Hsync. }
  exists it. split; [done|]. split; [|split].
  - rewrite <-Hrev. apply (drain_bytes r s Hr Hwalk Hlen _ it (between (Str.as_bytes s) lo hi)); [done|]. rewrite Hl. lia.
  - destruct (read_all_spec r s Hr Hwalk Hlen it _ bufs Hreads) as (out & left_ & ? & Heq & Hdone). exists out, left_.
    rewrite Hrev in Heq. rewrite Hl in Hdone. done.
  - intros buf. destruct (read_spec r s Hr Hwalk Hlen it _ buf Hreads) as (n & out & it' & rest' & ? & ? & ? & _). eauto 10.
Qed.

Lemma bytes_iterate_witness :
  ∃ it pieces, Bytes.new RopeExample.rope (2, 140) true = Some it ∧ drain Bytes.next 140 it = Some pieces ∧
    concat (reverse pieces) = take 138 (drop 2 (Str.as_bytes RopeExample.text)).
Proof.
  destruct (bytes_iterate RopeExample.rope RopeExample.text 2 140 true [] RopeExample.rope_holds RopeExample.rope_walkable example_len
    ltac:(lia) ltac:(vm_compute; lia)) as (it & Hnew & (pieces & Hd & Hp) & _).
  exists it, pieces. split; [exact Hnew|]. split; [exact Hd|exact Hp].
Defined.

(** Stepping with [next] does not change the range, so a reader that is stepped
    and read from gives the first byte of the new chunk again and again. *)
Example next_then_read :
  (it ← Bytes.new RopeExample.rope (0, 172) false; '(_, it) ← Bytes.next it;
   '(_, b1, it) ← Bytes.read it [0%N]; '(_, b2, it) ← Bytes.read it [0%N]; Some (b1, b2, Bytes.range it)) =
    Some ([99%N], [99%N], (2, 172)).
Proof. by vm_compute. Qed.
