(* ===== verification/Operation.v ===== *)
(** * Operations ([crates/text/src/text.rs])

    The operations replicas exchange: edits, which replace ranges of the text with
    the deleted parts ([FullOffset]s), and undos. *)

From S2P Require Import Prelude Clock UndoMap Patch Utf8.

(** [struct FullOffset(usize)]: an offset into the text with its deleted parts. *)
Abbreviation FullOffset := nat (only parsing).


Module EditOperation.
(** [struct EditOperation]; a [Range<FullOffset>] is a range of numbers. *)
Record t := mk {
  timestamp : Lamport;
  version : Global;
  ranges : list Range;
  new_text : list str;
}.
End EditOperation.
Abbreviation EditOperation := EditOperation.t (only parsing).

Module Operation.
(** [enum Operation] *)
Inductive t :=
  | Edit (edit : EditOperation)
  | Undo (undo : UndoOperation).

Definition timestamp (self : t) : Lamport :=
  match self with Edit edit => EditOperation.timestamp edit | Undo undo => UndoMap.timestamp undo end.

Definition replica_id (self : t) : ReplicaId := Clock.replica_id (timestamp self).

Definition as_edit (self : t) : option EditOperation :=
  match self with Edit edit => Some edit | _ => None end.

Definition is_edit (self : t) : bool := match self with Edit _ => true | _ => false end.

(** What an operation asks its receiver to have seen. *)
Definition version (self : t) : Global :=
  match self with Edit edit => EditOperation.version edit | Undo undo => UndoMap.version undo end.
End Operation.
Abbreviation Operation := Operation.t (only parsing).
