(* ===== verification/History.v ===== *)
(** * The undo history of a buffer ([crates/text/src/text.rs])

    [History] groups the edits of a buffer into transactions and keeps them on two
    stacks.  A transaction may be nested; only the outermost one counts.  What is
    done within a short time of what was done before joins its entry.  An
    [Instant] is a number of nanoseconds, and the difference of two saturates at
    zero, as the standard library documents. *)

From S2P Require Import Prelude Clock SumTree TreeMap UndoMap Operation Rope.

(** [Instant] and [Duration], in nanoseconds. *)
Abbreviation Instant := N (only parsing).
Abbreviation Duration := N (only parsing).

(** [type TransactionId = clock::Lamport] *)
Abbreviation TransactionId := Lamport (only parsing).

Module Transaction.
Record t := mk { id : TransactionId; edit_ids : list Lamport; start : Global }.

Definition merge_in (self other : t) : t := mk (id self) (edit_ids self ++ edit_ids other) (start self).

(** [edit_ids.push] *)
Definition push_edit_id (self : t) (edit_id : Lamport) : t :=
  mk (id self) (edit_ids self ++ [edit_id]) (start self).
End Transaction.
Abbreviation Transaction := Transaction.t (only parsing).

Module HistoryEntry.
Record t := mk {
  transaction : Transaction;
  first_edit_at : Instant;
  last_edit_at : Instant;
  suppress_grouping : bool;
}.

Definition transaction_id (self : t) : TransactionId := Transaction.id (transaction self).

Definition set_transaction (self : t) (transaction : Transaction) : t :=
  mk transaction (first_edit_at self) (last_edit_at self) (suppress_grouping self).
Definition set_last_edit_at (self : t) (now : Instant) : t :=
  mk (transaction self) (first_edit_at self) now (suppress_grouping self).
Definition set_suppress_grouping (self : t) (b : bool) : t :=
  mk (transaction self) (first_edit_at self) (last_edit_at self) b.
End HistoryEntry.
Abbreviation HistoryEntry := HistoryEntry.t (only parsing).

(** [Iterator::rposition]: the index of the last element accepted. *)
Fixpoint rposition {A} (f : A → bool) (l : list A) : option nat :=
  match l with
  | [] => None
  | x :: l => match rposition f l with Some ix => Some (S ix) | None => if f x then Some 0 else None end
  end.

(** [Iterator::rfind] *)
Definition rfind {A} (f : A → bool) (l : list A) : option A := ix ← rposition f l; l !! ix.

(** [Vec::remove] *)
Definition vec_remove {A} (l : list A) (ix : nat) : option (A * list A) :=
  x ← l !! ix; Some (x, take ix l ++ drop (S ix) l).

(** Changes the last element, as [last_mut] does; panics like an [unwrap] of it. *)
Definition last_mut {A} (f : A → A) (l : list A) : option (list A) :=
  x ← last l; Some (take (length l - 1) l ++ [f x]).

Module History.
Record t := mk {
  base_text : Rope;
  operations : @TreeMap.t Lamport Operation;
  undo_stack : list HistoryEntry;
  redo_stack : list HistoryEntry;
  transaction_depth : nat;
  group_interval : Duration;
}.
Implicit Types self : t.

Definition set_operations self operations : t :=
  mk (base_text self) operations (undo_stack self) (redo_stack self) (transaction_depth self) (group_interval self).
Definition set_stacks self undo_stack redo_stack : t :=
  mk (base_text self) (operations self) undo_stack redo_stack (transaction_depth self) (group_interval self).
Definition set_undo_stack self undo_stack : t := set_stacks self undo_stack (redo_stack self).
Definition set_depth self transaction_depth : t :=
  mk (base_text self) (operations self) (undo_stack self) (redo_stack self) transaction_depth (group_interval self).

(** Outside of tests entries are grouped within 300 milliseconds. *)
Definition new (base_text : Rope) : t := mk base_text TreeMap.default [] [] 0 300000000.

Definition push self (op : Operation) : option t :=
  operations ← TreeMap.insert (operations self) (Operation.timestamp op) op;
  Some (set_operations self operations).

(** Returns the clock as well. *)
Definition start_transaction self (start : Global) (now : Instant) (clock : Lamport) :
    option (t * Lamport * option TransactionId) :=
  let self := set_depth self (transaction_depth self + 1) in
  if transaction_depth self =? 1 then
    '(clock, id) ← Lamport.tick clock;
    let entry := HistoryEntry.mk (Transaction.mk id [] start) now now false in
    Some (set_undo_stack self (undo_stack self ++ [entry]), clock, Some id)
  else Some (self, clock, None).

Definition end_transaction self (now : Instant) : option (t * option HistoryEntry) :=
  _ ← rassert (negb (transaction_depth self =? 0));
  let self := set_depth self (transaction_depth self - 1) in
  if transaction_depth self =? 0 then
    entry ← last (undo_stack self);
    if bool_decide (Transaction.edit_ids (HistoryEntry.transaction entry) = []) then
      Some (set_undo_stack self (take (length (undo_stack self) - 1) (undo_stack self)), None)
    else
      let self := set_stacks self (undo_stack self) [] in
      undo_stack ← last_mut (λ entry, HistoryEntry.set_last_edit_at entry now) (undo_stack self);
      Some (set_undo_stack self undo_stack, last undo_stack)
  else Some (self, None).

Definition group_trailing self (n : nat) : option (t * option TransactionId) :=
  _ ← rassert (n <=? length (undo_stack self));
  let new_len := length (undo_stack self) - n in
  let entries_to_keep := take new_len (undo_stack self) in
  let entries_to_merge := drop new_len (undo_stack self) in
  let entries_to_keep :=
    default entries_to_keep (last_mut (λ last_entry,
      let last_entry :=
        foldl (λ last_entry entry,
          foldl (λ last_entry edit_id,
              HistoryEntry.set_transaction last_entry
                (Transaction.push_edit_id (HistoryEntry.transaction last_entry) edit_id))
            last_entry (Transaction.edit_ids (HistoryEntry.transaction entry)))
          last_entry entries_to_merge in
      match last entries_to_merge with
      | Some entry => HistoryEntry.set_last_edit_at last_entry (HistoryEntry.last_edit_at entry)
      | None => last_entry
      end) entries_to_keep) in
  Some (set_undo_stack self entries_to_keep, HistoryEntry.transaction_id <$> last entries_to_keep).

(** [Instant - Instant] saturates. *)
Definition joins self (prev_entry entry : HistoryEntry) : bool :=
  negb (HistoryEntry.suppress_grouping prev_entry) &&
  (HistoryEntry.first_edit_at entry - HistoryEntry.last_edit_at prev_entry <? group_interval self)%N.

(** The [while] of [group], over the entries before [entry], last first. *)
Fixpoint group_count self (entry : HistoryEntry) (entries : list HistoryEntry) : nat :=
  match entries with
  | [] => 0
  | prev_entry :: entries => if joins self prev_entry entry then S (group_count self prev_entry entries) else 0
  end.

Definition group self : option (t * option TransactionId) :=
  group_trailing self
    (match rev (undo_stack self) with [] => 0 | entry :: entries => group_count self entry entries end).

(** The [for] of [group_until]; [None] when it leaves without grouping. *)
Fixpoint until_count (transaction_id : TransactionId) (count : nat) (entries : list HistoryEntry) : option nat :=
  match entries with
  | [] => None
  | entry :: entries =>
      if bool_decide (HistoryEntry.transaction_id entry = transaction_id) then Some count
      else if HistoryEntry.suppress_grouping entry then None
      else until_count transaction_id (count + 1) entries
  end.

Definition group_until self (transaction_id : TransactionId) : option t :=
  match until_count transaction_id 0 (rev (undo_stack self)) with
  | Some count => '(self, _) ← group_trailing self count; Some self
  | None => Some self
  end.

Definition finalize_last_transaction self : t * option Transaction :=
  match last_mut (λ entry, HistoryEntry.set_suppress_grouping entry true) (undo_stack self) with
  | Some undo_stack => (set_undo_stack self undo_stack, HistoryEntry.transaction <$> last undo_stack)
  | None => (self, None)
  end.

Definition push_transaction self (transaction : Transaction) (now : Instant) : option t :=
  _ ← rassert (transaction_depth self =? 0);
  Some (set_undo_stack self (undo_stack self ++ [HistoryEntry.mk transaction now now false])).

Definition push_empty_transaction self (start : Global) (now : Instant) (clock : Lamport) :
    option (t * Lamport * TransactionId) :=
  _ ← rassert (transaction_depth self =? 0);
  '(clock, id) ← Lamport.tick clock;
  let entry := HistoryEntry.mk (Transaction.mk id [] start) now now false in
  Some (set_undo_stack self (undo_stack self ++ [entry]), clock, id).

Definition push_undo self (op_id : Lamport) : option t :=
  _ ← rassert (negb (transaction_depth self =? 0));
  match TreeMap.get (operations self) op_id with
  | Some (Operation.Edit _) =>
      undo_stack ← last_mut (λ last_transaction,
        HistoryEntry.set_transaction last_transaction
          (Transaction.push_edit_id (HistoryEntry.transaction last_transaction) op_id)) (undo_stack self);
      Some (set_undo_stack self undo_stack)
  | _ => Some self
  end.

Definition pop_undo self : option (t * option HistoryEntry) :=
  _ ← rassert (transaction_depth self =? 0);
  match last (undo_stack self) with
  | Some entry =>
      Some (set_stacks self (take (length (undo_stack self) - 1) (undo_stack self)) (redo_stack self ++ [entry]),
        Some entry)
  | None => Some (self, None)
  end.

Definition has_id (transaction_id : TransactionId) (entry : HistoryEntry) : bool :=
  bool_decide (HistoryEntry.transaction_id entry = transaction_id).

Definition remove_from_undo self (transaction_id : TransactionId) : option (t * option HistoryEntry) :=
  _ ← rassert (transaction_depth self =? 0);
  match rposition (has_id transaction_id) (undo_stack self) with
  | None => Some (self, None)
  | Some entry_ix =>
      '(entry, undo_stack) ← vec_remove (undo_stack self) entry_ix;
      Some (set_stacks self undo_stack (redo_stack self ++ [entry]), Some entry)
  end.

Definition remove_from_undo_until self (transaction_id : TransactionId) : option (t * list HistoryEntry) :=
  _ ← rassert (transaction_depth self =? 0);
  let redo_stack_start_len := length (redo_stack self) in
  let self :=
    match rposition (has_id transaction_id) (undo_stack self) with
    | Some entry_ix =>
        set_stacks self (take entry_ix (undo_stack self)) (redo_stack self ++ rev (drop entry_ix (undo_stack self)))
    | None => self
    end in
  Some (self, drop redo_stack_start_len (redo_stack self)).

Definition forget self (transaction_id : TransactionId) : option (t * option Transaction) :=
  _ ← rassert (transaction_depth self =? 0);
  match rposition (has_id transaction_id) (undo_stack self) with
  | Some entry_ix =>
      '(entry, undo_stack) ← vec_remove (undo_stack self) entry_ix;
      Some (set_undo_stack self undo_stack, Some (HistoryEntry.transaction entry))
  | None =>
      match rposition (has_id transaction_id) (redo_stack self) with
      | Some entry_ix =>
          '(entry, redo_stack) ← vec_remove (redo_stack self) entry_ix;
          Some (set_stacks self (undo_stack self) redo_stack, Some (HistoryEntry.transaction entry))
      | None => Some (self, None)
      end
  end.

Definition transaction self (transaction_id : TransactionId) : option Transaction :=
  entry ← match rfind (has_id transaction_id) (undo_stack self) with
          | Some entry => Some entry
          | None => rfind (has_id transaction_id) (redo_stack self)
          end;
  Some (HistoryEntry.transaction entry).

(** [transaction_mut], with what the caller does to the transaction. *)
Definition transaction_mut self (transaction_id : TransactionId) (f : Transaction → Transaction) : t :=
  let change := λ entry, HistoryEntry.set_transaction entry (f (HistoryEntry.transaction entry)) in
  match rposition (has_id transaction_id) (undo_stack self) with
  | Some ix => set_undo_stack self (alter change ix (undo_stack self))
  | None =>
      match rposition (has_id transaction_id) (redo_stack self) with
      | Some ix => set_stacks self (undo_stack self) (alter change ix (redo_stack self))
      | None => self
      end
  end.

Definition merge_transactions self (transaction destination : TransactionId) : option t :=
  '(self, transaction) ← forget self transaction;
  match transaction with
  | Some transaction => Some (transaction_mut self destination (λ destination, Transaction.merge_in destination transaction))
  | None => Some self
  end.

Definition pop_redo self : option (t * option HistoryEntry) :=
  _ ← rassert (transaction_depth self =? 0);
  match last (redo_stack self) with
  | Some entry =>
      Some (set_stacks self (undo_stack self ++ [entry]) (take (length (redo_stack self) - 1) (redo_stack self)),
        Some entry)
  | None => Some (self, None)
  end.

Definition remove_from_redo self (transaction_id : TransactionId) : option (t * list HistoryEntry) :=
  _ ← rassert (transaction_depth self =? 0);
  let undo_stack_start_len := length (undo_stack self) in
  let self :=
    match rposition (has_id transaction_id) (redo_stack self) with
    | Some entry_ix =>
        set_stacks self (undo_stack self ++ rev (drop entry_ix (redo_stack self))) (take entry_ix (redo_stack self))
    | None => self
    end in
  Some (self, drop undo_stack_start_len (undo_stack self)).
End History.
Abbreviation History := History.t (only parsing).
