(* ===== verification/HistoryFacts.v ===== *)
(** * What the undo history does

    Transactions bracket edits, nesting is invisible, grouping merges the longest
    run of close entries, undoing and redoing move entries between the stacks
    without losing any, and no unwrap of the code can fail. *)

From S2P Require Import Prelude Clock SumTree SumTreeFacts Seek Cursor CursorFacts CursorWalk Keyed KeyedFacts TreeMap TreeMapFacts UndoMap Operation Rope History.

Import History.
Implicit Types (h : History) (e : HistoryEntry) (run : list HistoryEntry).

Abbreviation entry_id := HistoryEntry.transaction_id.
Abbreviation entry_edits e := (Transaction.edit_ids (HistoryEntry.transaction e)).

(** ** Lists *)

Lemma last_mut_snoc {A} (f : A → A) (l : list A) x : last_mut f (l ++ [x]) = Some (l ++ [f x]).
Proof.
  unfold last_mut. rewrite last_snoc. cbn [mbind option_bind]. rewrite length_app. simpl.
  by rewrite Nat.add_sub, take_app_length.
Qed.

Lemma take_all_but_last {A} (l : list A) x : take (length (l ++ [x]) - 1) (l ++ [x]) = l.
Proof. rewrite length_app. simpl. by rewrite Nat.add_sub, take_app_length. Qed.

Lemma snoc_cases {A} (l : list A) : l = [] ∨ ∃ pre x, l = pre ++ [x].
Proof. destruct l as [|x l _] using rev_ind; eauto. Qed.

Lemma rposition_spec {A} (f : A → bool) (l : list A) :
  match rposition f l with
  | Some ix => ∃ pre x post, l = pre ++ x :: post ∧ length pre = ix ∧ f x = true ∧ Forall (λ y, f y = false) post
  | None => Forall (λ y, f y = false) l
  end.
Proof.
  induction l as [|x l IH]; simpl; [done|]. destruct (rposition f l) as [ix|].
  - destruct IH as (pre & y & post & -> & <- & ? & ?). by exists (x :: pre), y, post.
  - destruct (f x) eqn:Hx; [|by constructor]. by exists [], x, l.
Qed.

Lemma rposition_at {A} (f : A → bool) pre x (post : list A) :
  f x = true → Forall (λ y, f y = false) post → rposition f (pre ++ x :: post) = Some (length pre).
Proof.
  intros Hx Hpost. induction pre as [|y pre IH]; simpl; [|by rewrite IH].
  assert (rposition f post = None) as ->; [|by rewrite Hx].
  induction Hpost as [|y post Hy _ IH]; [done|]. simpl. by rewrite IH, Hy.
Qed.

Lemma vec_remove_at {A} (pre post : list A) x : vec_remove (pre ++ x :: post) (length pre) = Some (x, pre ++ post).
Proof.
  unfold vec_remove. rewrite list_lookup_middle by done. cbn [mbind option_bind].
  rewrite take_app_length, cons_middle, app_assoc. f_equal. f_equal.
  replace (S (length pre)) with (length (pre ++ [x])) by (rewrite length_app; simpl; lia).
  by rewrite drop_app_length.
Qed.

Lemma has_id_true tid e : has_id tid e = true ↔ entry_id e = tid.
Proof. apply bool_decide_eq_true. Qed.

Lemma has_id_false tid e : has_id tid e = false ↔ entry_id e ≠ tid.
Proof. apply bool_decide_eq_false. Qed.

(** An entry among others with different ids is found. *)
Lemma rposition_id pre e post : NoDup (map entry_id (pre ++ e :: post)) →
  rposition (has_id (entry_id e)) (pre ++ e :: post) = Some (length pre).
Proof.
  intros Hnd. apply rposition_at; [by apply has_id_true|]. rewrite map_app in Hnd.
  apply NoDup_app in Hnd as (_ & _ & [Hnot _]%NoDup_cons). apply Forall_forall. intros x Hx. apply has_id_false.
  intros Heq. apply Hnot. rewrite <-Heq. by apply (list_elem_of_fmap_2 entry_id).
Qed.

(** ** Transactions *)

(** What a client of the history does, one call after another. *)
Inductive event :=
  | Start (start : Global) (now : Instant)
  | Stop (now : Instant)
  | Did (op_id : Lamport).

Definition handle (st : History * Lamport) (ev : event) : option (History * Lamport) :=
  let '(h, clock) := st in
  match ev with
  | Start start now => '(h, clock, _) ← start_transaction h start now clock; Some (h, clock)
  | Stop now => '(h, _) ← end_transaction h now; Some (h, clock)
  | Did op_id => h ← push_undo h op_id; Some (h, clock)
  end.

Fixpoint run_events (st : History * Lamport) (evs : list event) : option (History * Lamport) :=
  match evs with [] => Some st | ev :: evs => st ← handle st ev; run_events st evs end.

Lemma run_events_app st evs1 evs2 :
  run_events st (evs1 ++ evs2) = (st ← run_events st evs1; run_events st evs2).
Proof. revert st. induction evs1 as [|ev evs1 IH]; intros st; simpl; [done|]. destruct (handle st ev); [apply IH|done]. Qed.

(** Balanced calls, and the edits among the operations they report. *)
Inductive body (ops : @TreeMap.t Lamport Operation) : list Lamport → list event → Prop :=
  | body_nil : body ops [] []
  | body_did op_id ids evs :
      body ops ids evs →
      body ops (match TreeMap.get ops op_id with Some (Operation.Edit _) => op_id :: ids | _ => ids end) (Did op_id :: evs)
  | body_nested start now evs1 ids1 now' evs2 ids2 :
      body ops ids1 evs1 → body ops ids2 evs2 →
      body ops (ids1 ++ ids2) (Start start now :: evs1 ++ Stop now' :: evs2).

Definition add_edits e (ids : list Lamport) : HistoryEntry :=
  HistoryEntry.set_transaction e
    (Transaction.mk (entry_id e) (entry_edits e ++ ids) (Transaction.start (HistoryEntry.transaction e))).

Lemma add_edits_nil e : add_edits e [] = e.
Proof. destruct e as [[]]. unfold add_edits. simpl. by rewrite app_nil_r. Qed.

Lemma add_edits_app e ids1 ids2 : add_edits (add_edits e ids1) ids2 = add_edits e (ids1 ++ ids2).
Proof. destruct e as [[]]. unfold add_edits. simpl. by rewrite app_assoc. Qed.

Lemma body_run ops ids evs : body ops ids evs → ∀ h clock pre e,
  operations h = ops → transaction_depth h ≠ 0 → undo_stack h = pre ++ [e] →
  run_events (h, clock) evs = Some (set_undo_stack h (pre ++ [add_edits e ids]), clock).
Proof.
  induction 1 as [|op_id ids evs _ IH|start now evs1 ids1 now' evs2 ids2 _ IH1 _ IH2]; intros h clock pre e Hops Hdepth Hstack.
  - rewrite add_edits_nil, <-Hstack. by destruct h.
  - cbn [run_events handle]. unfold push_undo.
    rewrite rassert_true by (by apply negb_true_iff, Nat.eqb_neq). cbn [mbind option_bind]. rewrite Hops.
    destruct (TreeMap.get ops op_id) as [[edit|undo]|]; cbn [mbind option_bind]; [|by apply IH..].
    rewrite Hstack, last_mut_snoc. cbn [mbind option_bind].
    rewrite (IH _ clock pre (add_edits e [op_id])) by done. by rewrite add_edits_app.
  - cbn [run_events handle]. unfold start_transaction. cbn [set_depth transaction_depth].
    destruct (Nat.eqb_spec (transaction_depth h + 1) 1) as [?|_]; [lia|]. cbn [mbind option_bind].
    rewrite run_events_app, (IH1 _ clock pre e) by (done || (simpl; lia)). cbn [mbind option_bind run_events handle].
    unfold end_transaction. cbn [set_undo_stack set_stacks set_depth transaction_depth].
    rewrite rassert_true by (by apply negb_true_iff, Nat.eqb_neq; lia). cbn [mbind option_bind]. rewrite Nat.add_sub.
    destruct (Nat.eqb_spec (transaction_depth h) 0) as [?|_]; [lia|]. cbn [mbind option_bind].
    rewrite (IH2 _ clock pre (add_edits e ids1)) by done. by rewrite add_edits_app.
Qed.

(** The entry a whole transaction leaves. *)
Definition transaction_entry (clock : Lamport) (start : Global) (now now' : Instant) (ids : list Lamport) : HistoryEntry :=
  HistoryEntry.mk (Transaction.mk clock ids start) now now' false.

Lemma tick_room clock : (value clock < u32_max)%N →
  Lamport.tick clock = Some (mkLamport (value clock + 1) (replica_id clock), clock).
Proof. intros Hroom. unfold Lamport.tick. by rewrite checked_add_Some by lia. Qed.

Lemma bracket_run h clock start now evs now' ids :
  transaction_depth h = 0 → body (operations h) ids evs → (value clock < u32_max)%N →
  run_events (h, clock) (Start start now :: evs ++ [Stop now']) =
    Some (match ids with
          | [] => h
          | _ => set_stacks h (undo_stack h ++ [transaction_entry clock start now now' ids]) []
          end, mkLamport (value clock + 1) (replica_id clock)).
Proof.
  intros Hdepth Hbody Hroom. cbn [run_events handle]. unfold start_transaction. cbn [set_depth transaction_depth].
  rewrite Hdepth. cbn [Nat.add Nat.eqb mbind option_bind]. rewrite tick_room by done. cbn [mbind option_bind].
  rewrite run_events_app, (body_run _ _ _ Hbody _ _ (undo_stack h) (transaction_entry clock start now now [])) by done.
  cbn [mbind option_bind run_events handle]. unfold end_transaction.
  cbn [set_undo_stack set_stacks set_depth transaction_depth undo_stack rassert Nat.eqb negb mbind option_bind Nat.sub].
  rewrite last_snoc. cbn [mbind option_bind]. unfold add_edits. cbn.
  destruct ids as [|id ids]; cbn [mbind option_bind].
  - rewrite take_all_but_last. by destruct h; simpl in *; subst.
  - rewrite last_mut_snoc. cbn [mbind option_bind]. by destruct h; simpl in *; subst.
Qed.

(** ** Grouping *)

(** An entry and the entries after it as one. *)
Definition merged e run : HistoryEntry :=
  let transaction := HistoryEntry.transaction e in
  HistoryEntry.mk
    (Transaction.mk (Transaction.id transaction) (concat (map (λ e, entry_edits e) (e :: run))) (Transaction.start transaction))
    (HistoryEntry.first_edit_at e) (HistoryEntry.last_edit_at (default e (last run))) (HistoryEntry.suppress_grouping e).

Lemma merged_nil e : merged e [] = e.
Proof. destruct e as [[]]. unfold merged. simpl. by rewrite app_nil_r. Qed.

Lemma merge_edits e (ids : list Lamport) :
  foldl (λ last_entry edit_id, HistoryEntry.set_transaction last_entry
    (Transaction.push_edit_id (HistoryEntry.transaction last_entry) edit_id)) e ids = add_edits e ids.
Proof.
  revert e. induction ids as [|id ids IH]; intros e; simpl; [by rewrite add_edits_nil|]. rewrite IH.
  exact (add_edits_app e [id] ids).
Qed.

Lemma merge_entries e run :
  foldl (λ last_entry entry, foldl (λ last_entry edit_id, HistoryEntry.set_transaction last_entry
    (Transaction.push_edit_id (HistoryEntry.transaction last_entry) edit_id)) last_entry (entry_edits entry)) e run =
    add_edits e (concat (map (λ e, entry_edits e) run)).
Proof.
  revert e. induction run as [|x run IH]; intros e; simpl; [by rewrite add_edits_nil|].
  by rewrite merge_edits, IH, add_edits_app.
Qed.

Lemma group_trailing_spec h pre e run : undo_stack h = pre ++ e :: run →
  group_trailing h (length run) = Some (set_undo_stack h (pre ++ [merged e run]), Some (entry_id e)).
Proof.
  intros Hstack. unfold group_trailing. rewrite Hstack, cons_middle, app_assoc.
  rewrite rassert_true by (apply Nat.leb_le; rewrite length_app; lia). cbn [mbind option_bind].
  rewrite (length_app (_ ++ _)), Nat.add_sub, take_app_length, drop_app_length, last_mut_snoc, merge_entries.
  cbn [default from_option id]. rewrite last_snoc. cbn [fmap option_fmap option_map].
  unfold merged, add_edits. destruct e as [[] ? ? ?]. by destruct (last run).
Qed.

(** Each entry of the run joins the one before it. *)
Fixpoint chain h e run : Prop :=
  match run with [] => True | x :: run => joins h e x = true ∧ chain h x run end.

Lemma chain_snoc h e run x : chain h e (run ++ [x]) ↔ chain h e run ∧ joins h (default e (last run)) x = true.
Proof.
  revert e. induction run as [|y run IH]; intros e; [simpl; tauto|]. cbn [app chain]. rewrite IH, last_cons.
  destruct (last run); simpl; tauto.
Qed.

(** The longest run of entries that belong together at the end of the stack. *)
Lemma group_count_spec h e entries : ∃ pre first_entry run,
  rev entries ++ [e] = pre ++ first_entry :: run ∧ length run = group_count h e entries ∧ chain h first_entry run ∧
  (∀ prev, last pre = Some prev → joins h prev first_entry = false).
Proof.
  revert e. induction entries as [|prev entries IH]; intros e; simpl; [by exists [], e, []|].
  destruct (joins h prev e) eqn:Hjoins.
  - destruct (IH prev) as (pre & first_entry & run & Heq & Hlen & Hchain & Hpre).
    exists pre, first_entry, (run ++ [e]). split; [by rewrite Heq, <-app_assoc|].
    split; [rewrite length_app; simpl; lia|]. split; [|done]. apply chain_snoc. split; [done|].
    assert (default first_entry (last run) = prev) as ->; [|done].
    assert (last (rev entries ++ [prev]) = last (pre ++ first_entry :: run)) as Hlast by by rewrite Heq.
    rewrite last_snoc, last_app_cons in Hlast. rewrite last_cons in Hlast. by destruct (last run); simplify_eq.
  - exists (rev entries ++ [prev]), e, []. split_and!; [done..|]. intros y. rewrite last_snoc. by intros [= <-].
Qed.

Lemma group_spec h : undo_stack h ≠ [] → ∃ pre e run,
  undo_stack h = pre ++ e :: run ∧ chain h e run ∧ (∀ prev, last pre = Some prev → joins h prev e = false) ∧
  group h = Some (set_undo_stack h (pre ++ [merged e run]), Some (entry_id e)).
Proof.
  intros Hne. unfold group. destruct (snoc_cases (undo_stack h)) as [?|(stack & e & Hstack)]; [done|].
  rewrite Hstack, rev_app_distr. cbn [rev app].
  destruct (group_count_spec h e (rev stack)) as (pre & first_entry & run & Heq & Hlen & Hchain & Hpre).
  rewrite rev_involutive in Heq. exists pre, first_entry, run. split_and!; [done..|].
  rewrite <-Hlen. apply group_trailing_spec. by rewrite Hstack.
Qed.

(** Nothing joins a grouped stack any more. *)
Lemma group_again h pre e run : undo_stack h = pre ++ [merged e run] →
  (∀ prev, last pre = Some prev → joins h prev e = false) →
  group h = Some (h, Some (entry_id e)).
Proof.
  intros Hstack Hpre. unfold group. rewrite Hstack, rev_app_distr. cbn [rev app].
  assert (match rev pre with [] => True | prev :: _ => joins h prev e = false end) as Hhead.
  { destruct (snoc_cases pre) as [->|(pre' & prev & ->)]; [done|]. rewrite rev_app_distr. simpl.
    apply Hpre. apply last_snoc. }
  assert (group_count h (merged e run) (rev pre) = length (A:=HistoryEntry) []) as ->.
  { destruct (rev pre) as [|prev entries]; [done|]. simpl. unfold joins in *. simpl. by rewrite Hhead. }
  rewrite (group_trailing_spec h pre (merged e run) []) by done. rewrite merged_nil, <-Hstack. by destruct h.
Qed.

Lemma until_count_spec tid count entries :
  until_count tid count entries =
    (n ← until_count tid 0 entries; Some (count + n)).
Proof.
  revert count. induction entries as [|e entries IH]; intros count; simpl; [done|].
  case_bool_decide; [cbn; by rewrite Nat.add_0_r|]. destruct (HistoryEntry.suppress_grouping e); [done|].
  rewrite (IH (count + 1)), (IH 1). destruct (until_count tid 0 entries); [|done]. cbn [mbind option_bind]. f_equal. lia.
Qed.

Lemma group_until_found h pre e run : undo_stack h = pre ++ e :: run →
  Forall (λ x, entry_id x ≠ entry_id e ∧ HistoryEntry.suppress_grouping x = false) run →
  group_until h (entry_id e) = Some (set_undo_stack h (pre ++ [merged e run])).
Proof.
  intros Hstack Hrun. unfold group_until. rewrite Hstack.
  assert (until_count (entry_id e) 0 (rev (pre ++ e :: run)) = Some (length run)) as ->.
  { rewrite rev_app_distr. cbn [rev]. rewrite <-app_assoc, <-(length_rev run).
    apply Forall_rev in Hrun. cbn [app].
    induction Hrun as [|x run' [Hx Hs] _ IH]; simpl; [by case_bool_decide|]. case_bool_decide; [done|].
    rewrite Hs, until_count_spec, IH. cbn [mbind option_bind]. done. }
  rewrite (group_trailing_spec h pre e run) by done. done.
Qed.

Lemma group_until_blocked h tid pre e run : undo_stack h = pre ++ e :: run →
  entry_id e ≠ tid → HistoryEntry.suppress_grouping e = true → Forall (λ x, entry_id x ≠ tid) run →
  group_until h tid = Some h.
Proof.
  intros Hstack He Hs Hrun. unfold group_until. rewrite Hstack, rev_app_distr. cbn [rev]. rewrite <-app_assoc.
  assert (until_count tid 0 (rev run ++ [e] ++ rev pre) = None) as ->; [|done].
  apply Forall_rev in Hrun. cbn [app].
  induction Hrun as [|x run' Hx _ IH]; simpl; [case_bool_decide; [done|by rewrite Hs]|]. case_bool_decide; [done|].
  destruct (HistoryEntry.suppress_grouping x); [done|]. by rewrite until_count_spec, IH.
Qed.

(** ** Moving entries *)

Lemma pop_undo_snoc h pre e : transaction_depth h = 0 → undo_stack h = pre ++ [e] →
  pop_undo h = Some (set_stacks h pre (redo_stack h ++ [e]), Some e).
Proof.
  intros Hdepth Hstack. unfold pop_undo. rewrite Hdepth. cbn [Nat.eqb rassert mbind option_bind].
  by rewrite Hstack, last_snoc, take_all_but_last.
Qed.

Lemma pop_redo_snoc h pre e : transaction_depth h = 0 → redo_stack h = pre ++ [e] →
  pop_redo h = Some (set_stacks h (undo_stack h ++ [e]) pre, Some e).
Proof.
  intros Hdepth Hstack. unfold pop_redo. rewrite Hdepth. cbn [Nat.eqb rassert mbind option_bind].
  by rewrite Hstack, last_snoc, take_all_but_last.
Qed.

Lemma remove_until_at h pre e post : transaction_depth h = 0 → undo_stack h = pre ++ e :: post →
  NoDup (map entry_id (undo_stack h)) →
  remove_from_undo_until h (entry_id e) =
    Some (set_stacks h pre (redo_stack h ++ rev (e :: post)), rev (e :: post)).
Proof.
  intros Hdepth Hstack Hnd. unfold remove_from_undo_until. rewrite Hdepth. cbn [Nat.eqb rassert mbind option_bind].
  rewrite Hstack in Hnd |- *. rewrite rposition_id by done. cbn [set_stacks redo_stack].
  by rewrite take_app_length, !drop_app_length.
Qed.

Lemma remove_redo_at h pre e post : transaction_depth h = 0 → redo_stack h = pre ++ e :: post →
  NoDup (map entry_id (redo_stack h)) →
  remove_from_redo h (entry_id e) =
    Some (set_stacks h (undo_stack h ++ rev (e :: post)) pre, rev (e :: post)).
Proof.
  intros Hdepth Hstack Hnd. unfold remove_from_redo. rewrite Hdepth. cbn [Nat.eqb rassert mbind option_bind].
  rewrite Hstack in Hnd |- *. rewrite rposition_id by done. cbn [set_stacks undo_stack].
  by rewrite take_app_length, !drop_app_length.
Qed.

(** The entries on both stacks, and their ids. *)
Definition entries h : list HistoryEntry := undo_stack h ++ redo_stack h.
Definition ids h : list Lamport := map entry_id (entries h).

Lemma NoDup_map_sub {A B} (f : A → B) (l k : list A) : l ⊆+ k → NoDup (map f k) → NoDup (map f l).
Proof. intros [k' ->]%submseteq_Permutation Hnd. rewrite map_app in Hnd. by apply NoDup_app in Hnd as [? _]. Qed.

Lemma undo_redo_until h pre e post l : transaction_depth h = 0 → NoDup (ids h) → undo_stack h = pre ++ e :: post →
  last (e :: post) = Some l →
  ∃ h', remove_from_undo_until h (entry_id e) = Some (h', rev (e :: post)) ∧
    remove_from_redo h' (entry_id l) = Some (h, e :: post).
Proof.
  intros Hdepth Hnd Hstack Hlast.
  rewrite (remove_until_at h pre e post); [|done..|].
  2:{ revert Hnd. apply NoDup_map_sub. unfold entries. solve_submseteq. }
  eexists. split; [done|]. destruct (snoc_cases (e :: post)) as [?|(init & l' & Hsnoc)]; [done|].
  rewrite Hsnoc, last_snoc in Hlast. injection Hlast as ->.
  erewrite (remove_redo_at _ (redo_stack h) l (rev init)).
  - cbn [rev]. rewrite rev_involutive, <-Hsnoc. cbn. rewrite <-Hstack. by destruct h.
  - done.
  - cbn. change (rev post ++ [e]) with (rev (e :: post)). by rewrite Hsnoc, rev_app_distr.
  - cbn [set_stacks redo_stack]. revert Hnd. apply NoDup_map_sub. unfold entries.
    rewrite Hstack, <-Permutation_rev. solve_submseteq.
Qed.

(** ** Looking up, forgetting and merging *)

Lemma rfind_cons {A} (f : A → bool) y (l : list A) :
  rfind f (y :: l) = match rfind f l with Some z => Some z | None => if f y then Some y else None end.
Proof.
  unfold rfind. simpl. destruct (rposition f l) as [ix|] eqn:Hix; cbn [mbind option_bind]; [|by destruct (f y)].
  pose proof (rposition_spec f l) as Hspec. rewrite Hix in Hspec. destruct Hspec as (pre & z & post & -> & <- & _).
  simpl. by rewrite list_lookup_middle.
Qed.

Definition without (tid : Lamport) (l : list HistoryEntry) : list HistoryEntry := filter (λ e, entry_id e ≠ tid) l.

Lemma rfind_without tid tid' l :
  rfind (has_id tid') (without tid l) = if decide (tid' = tid) then None else rfind (has_id tid') l.
Proof.
  unfold without. induction l as [|e l IH]; [by case_decide|]. rewrite rfind_cons.
  destruct (decide (entry_id e ≠ tid)) as [Hne|Heq].
  - rewrite filter_cons_True, rfind_cons, IH by done. case_decide as Htid; [|done]. subst.
    by rewrite (proj2 (has_id_false _ _)).
  - apply dec_stable in Heq. rewrite filter_cons_False by naive_solver. rewrite IH. case_decide; [done|].
    rewrite (proj2 (has_id_false _ _)) by congruence. by destruct (rfind _ l).
Qed.

Definition updated (tid : Lamport) (f : Transaction → Transaction) e : HistoryEntry :=
  if has_id tid e then HistoryEntry.set_transaction e (f (HistoryEntry.transaction e)) else e.

Lemma rfind_updated tid f tid' l : (∀ t, Transaction.id (f t) = Transaction.id t) →
  rfind (has_id tid') (map (updated tid f) l) = updated tid f <$> rfind (has_id tid') l.
Proof.
  intros Hf. induction l as [|e l IH]; [done|]. cbn [map]. rewrite !rfind_cons, IH.
  assert (has_id tid' (updated tid f e) = has_id tid' e) as ->.
  { unfold updated. destruct (has_id tid e); [|done]. unfold has_id, HistoryEntry.transaction_id. simpl. by rewrite Hf. }
  destruct (rfind _ l); [done|]. by destruct (has_id tid' e).
Qed.

Lemma without_absent tid l : tid ∉ map entry_id l → without tid l = l.
Proof.
  unfold without. induction l as [|e l IH]; [done|]. cbn [map]. intros [He Hl]%not_elem_of_cons.
  rewrite filter_cons_True by congruence. by rewrite IH.
Qed.

Lemma updated_absent tid f l : tid ∉ map entry_id l → map (updated tid f) l = l.
Proof.
  induction l as [|e l IH]; [done|]. cbn [map]. intros [He Hl]%not_elem_of_cons. rewrite IH by done. f_equal.
  unfold updated. by rewrite (proj2 (has_id_false _ _)) by congruence.
Qed.

Lemma absent_iff tid l : Forall (λ e, has_id tid e = false) l ↔ tid ∉ map entry_id l.
Proof.
  induction l as [|e l IH]; [by split; [intros _; apply not_elem_of_nil|]|]. cbn [map].
  rewrite Forall_cons, not_elem_of_cons, IH, has_id_false. naive_solver.
Qed.

(** The last entry with an id, in a list where ids are distinct. *)
Lemma one_entry tid l : NoDup (map entry_id l) →
  match rposition (has_id tid) l with
  | Some ix => ∃ e, rfind (has_id tid) l = Some e ∧ vec_remove l ix = Some (e, without tid l) ∧ tid ∈ map entry_id l ∧
      ∀ f, alter (λ e, HistoryEntry.set_transaction e (f (HistoryEntry.transaction e))) ix l = map (updated tid f) l
  | None => rfind (has_id tid) l = None ∧ tid ∉ map entry_id l
  end.
Proof.
  intros Hnd. unfold rfind. pose proof (rposition_spec (has_id tid) l) as Hspec.
  destruct (rposition _ l) as [ix|]; [|split; [done|by apply absent_iff]].
  destruct Hspec as (pre & e & post & -> & <- & He & _). apply has_id_true in He as <-. exists e.
  rewrite map_app in Hnd. cbn [map] in Hnd. apply NoDup_app in Hnd as (_ & Hdisj & [Hpost _]%NoDup_cons).
  assert (entry_id e ∉ map entry_id pre) as Hpre by (intros ?; apply (Hdisj (entry_id e)); [done|left]).
  split_and!.
  - cbn [mbind option_bind]. by apply list_lookup_middle.
  - rewrite vec_remove_at. unfold without. rewrite filter_app, filter_cons_False by (intros Hx; by apply Hx).
    fold (without (entry_id e) pre) (without (entry_id e) post). by rewrite !without_absent.
  - rewrite map_app. apply elem_of_app. right. left.
  - intros f. rewrite map_app. cbn [map]. rewrite !updated_absent by done. rewrite list.alter_app_r_alt, Nat.sub_diag by done.
    cbn. unfold updated. by rewrite (proj2 (has_id_true _ _)).
Qed.

Lemma ids_split h : NoDup (ids h) →
  NoDup (map entry_id (undo_stack h)) ∧ NoDup (map entry_id (redo_stack h)) ∧
  ∀ tid, tid ∈ map entry_id (undo_stack h) → tid ∉ map entry_id (redo_stack h).
Proof. unfold ids, entries. rewrite map_app. intros (? & ? & ?)%NoDup_app. done. Qed.

Lemma forget_spec h tid : transaction_depth h = 0 → NoDup (ids h) →
  forget h tid = Some (set_stacks h (without tid (undo_stack h)) (without tid (redo_stack h)), transaction h tid).
Proof.
  intros Hdepth (Hundo & Hredo & Hdisj)%ids_split. unfold forget, transaction. rewrite Hdepth. cbn [Nat.eqb rassert mbind option_bind].
  pose proof (one_entry tid _ Hundo) as Hu. destruct (rposition _ (undo_stack h)) as [ix|].
  - destruct Hu as (e & -> & -> & Hin & _). cbn [mbind option_bind]. by rewrite (without_absent _ (redo_stack h)) by auto.
  - destruct Hu as (-> & Hnot). rewrite (without_absent _ (undo_stack h)) by done.
    pose proof (one_entry tid _ Hredo) as Hr. destruct (rposition _ (redo_stack h)) as [ix|].
    + by destruct Hr as (e & -> & -> & _ & _).
    + destruct Hr as (-> & Hnot'). rewrite without_absent by done. by destruct h.
Qed.

Lemma transaction_mut_spec h tid f : NoDup (ids h) →
  transaction_mut h tid f = set_stacks h (map (updated tid f) (undo_stack h)) (map (updated tid f) (redo_stack h)).
Proof.
  intros (Hundo & Hredo & Hdisj)%ids_split. unfold transaction_mut.
  pose proof (one_entry tid _ Hundo) as Hu. destruct (rposition _ (undo_stack h)) as [ix|].
  - destruct Hu as (e & _ & _ & Hin & ->). by rewrite (updated_absent _ _ (redo_stack h)) by auto.
  - destruct Hu as (_ & Hnot). rewrite (updated_absent _ _ (undo_stack h)) by done.
    pose proof (one_entry tid _ Hredo) as Hr. destruct (rposition _ (redo_stack h)) as [ix|].
    + by destruct Hr as (e & _ & _ & _ & ->).
    + rewrite updated_absent by apply Hr. by destruct h.
Qed.

Lemma transaction_without h tid tid' :
  transaction (set_stacks h (without tid (undo_stack h)) (without tid (redo_stack h))) tid' =
    if decide (tid' = tid) then None else transaction h tid'.
Proof. unfold transaction. cbn [set_stacks undo_stack redo_stack]. rewrite !rfind_without. by case_decide. Qed.

Lemma transaction_updated h tid f tid' : (∀ t, Transaction.id (f t) = Transaction.id t) →
  transaction (set_stacks h (map (updated tid f) (undo_stack h)) (map (updated tid f) (redo_stack h))) tid' =
    (if decide (tid' = tid) then f <$> transaction h tid' else transaction h tid').
Proof.
  intros Hf. unfold transaction. cbn [set_stacks undo_stack redo_stack]. rewrite !rfind_updated by done.
  assert (∀ l e, rfind (has_id tid') l = Some e → entry_id e = tid') as Hid.
  { intros l e Hl. induction l as [|e' l IH]; [done|]. rewrite rfind_cons in Hl. destruct (rfind _ l); [auto|].
    destruct (has_id tid' e') eqn:He; [|done]. injection Hl as <-. by apply has_id_true. }
  assert (∀ e, entry_id e = tid' → HistoryEntry.transaction (updated tid f e) =
    if decide (tid' = tid) then f (HistoryEntry.transaction e) else HistoryEntry.transaction e) as Hupd.
  { intros e <-. unfold updated, has_id. by do 2 case_decide || case_bool_decide. }
  destruct (rfind _ (undo_stack h)) as [e|] eqn:Hu; cbn [fmap option_fmap option_map mbind option_bind].
  - rewrite Hupd by eauto. by case_decide.
  - destruct (rfind _ (redo_stack h)) as [e|] eqn:Hr; cbn [fmap option_fmap option_map mbind option_bind]; [|by case_decide].
    rewrite Hupd by eauto. by case_decide.
Qed.

Lemma without_ids tid h : NoDup (ids h) →
  NoDup (ids (set_stacks h (without tid (undo_stack h)) (without tid (redo_stack h)))).
Proof.
  apply NoDup_map_sub. unfold entries. cbn [set_stacks undo_stack redo_stack]. unfold without. rewrite <-filter_app.
  apply sublist_submseteq, sublist_filter.
Qed.

Lemma merge_transactions_run h tid dest : transaction_depth h = 0 → NoDup (ids h) →
  ∃ h', merge_transactions h tid dest = Some h' ∧
    ∀ tid', transaction h' tid' =
      if decide (tid' = tid) then None
      else if decide (tid' = dest) then
        (λ t, match transaction h tid with Some other => Transaction.merge_in t other | None => t end) <$> transaction h dest
      else transaction h tid'.
Proof.
  intros Hdepth Hnd. unfold merge_transactions. rewrite forget_spec by done. cbn [mbind option_bind].
  destruct (transaction h tid) as [other|].
  - eexists. split; [done|]. intros tid'. rewrite transaction_mut_spec by by apply without_ids.
    rewrite transaction_updated, transaction_without by done. repeat case_decide; by subst.
  - eexists. split; [done|]. intros tid'. rewrite transaction_without. repeat case_decide; subst; [done| |done].
    by destruct (transaction h dest).
Qed.

(** ** Sessions *)

(** The calls a buffer makes to its history, and what else moves its clock.
    [push_transaction] takes any transaction; [pushable] says which ones a
    session pushes. *)
Inductive history_step (pushable : History → Lamport → Transaction → Prop) : History * Lamport → History * Lamport → Prop :=
  | step_push h clock op h' : push h op = Some h' → history_step pushable (h, clock) (h', clock)
  | step_start h clock start now h' clock' id :
      start_transaction h start now clock = Some (h', clock', id) → history_step pushable (h, clock) (h', clock')
  | step_end h clock now h' entry : end_transaction h now = Some (h', entry) → history_step pushable (h, clock) (h', clock)
  | step_did h clock op_id h' : push_undo h op_id = Some h' → history_step pushable (h, clock) (h', clock)
  | step_group h clock h' id : group h = Some (h', id) → history_step pushable (h, clock) (h', clock)
  | step_group_until h clock id h' : group_until h id = Some h' → history_step pushable (h, clock) (h', clock)
  | step_finalize h clock : history_step pushable (h, clock) ((finalize_last_transaction h).1, clock)
  | step_push_transaction h clock transaction now h' :
      pushable h clock transaction →
      push_transaction h transaction now = Some h' → history_step pushable (h, clock) (h', clock)
  | step_push_empty h clock start now h' clock' id :
      push_empty_transaction h start now clock = Some (h', clock', id) → history_step pushable (h, clock) (h', clock')
  | step_undo h clock h' entry : pop_undo h = Some (h', entry) → history_step pushable (h, clock) (h', clock)
  | step_remove h clock id h' entry : remove_from_undo h id = Some (h', entry) → history_step pushable (h, clock) (h', clock)
  | step_undo_until h clock id h' removed :
      remove_from_undo_until h id = Some (h', removed) → history_step pushable (h, clock) (h', clock)
  | step_forget h clock id h' transaction : forget h id = Some (h', transaction) → history_step pushable (h, clock) (h', clock)
  | step_merge h clock id dest h' : merge_transactions h id dest = Some h' → history_step pushable (h, clock) (h', clock)
  | step_redo h clock h' entry : pop_redo h = Some (h', entry) → history_step pushable (h, clock) (h', clock)
  | step_remove_redo h clock id h' removed :
      remove_from_redo h id = Some (h', removed) → history_step pushable (h, clock) (h', clock)
  | step_tick h clock clock' timestamp : Lamport.tick clock = Some (clock', timestamp) → history_step pushable (h, clock) (h, clock')
  | step_observe h clock timestamp clock' :
      Lamport.observe clock timestamp = Some clock' → history_step pushable (h, clock) (h, clock').

#[global] Arguments step_push {_}.
#[global] Arguments step_start {_}.

Definition older (clock id : Lamport) : Prop := (replica_id id = replica_id clock → value id < value clock)%N.

(** Any transaction, and one whose id is not that of an entry or a time to come. *)
Definition any_transaction (_ : History) (_ : Lamport) (_ : Transaction) : Prop := True.
Definition new_transaction h (clock : Lamport) (transaction : Transaction) : Prop :=
  (Transaction.id transaction ∉ ids h) ∧ older clock (Transaction.id transaction).

Record history_ok h (clock : Lamport) : Prop := {
  ok_ids : NoDup (ids h);
  ok_older : Forall (older clock) (ids h);
  ok_open : transaction_depth h ≠ 0 → undo_stack h ≠ [];
}.

(** Most calls drop or move entries. *)
Lemma history_ok_sub h h' clock : history_ok h clock → ids h' ⊆+ ids h →
  (transaction_depth h' ≠ 0 → undo_stack h' ≠ []) → history_ok h' clock.
Proof.
  intros [Hnd Hold _] Hsub Hopen. apply submseteq_Permutation in Hsub as [k Hk]. split; [| |done].
  - rewrite Hk in Hnd. by apply NoDup_app in Hnd as [? _].
  - rewrite Hk in Hold. by apply Forall_app in Hold as [? _].
Qed.

Lemma ids_sub_entries h h' : entries h' ⊆+ entries h → ids h' ⊆+ ids h.
Proof. apply fmap_submseteq. Qed.

(** A new entry takes the clock's time. *)
Lemma history_ok_tick h clock clock' entry : history_ok h clock → Lamport.tick clock = Some (clock', entry_id entry) →
  ∀ depth, history_ok (set_depth (set_undo_stack h (undo_stack h ++ [entry])) depth) clock'.
Proof.
  intros [Hnd Hold Hopen] Htick depth. unfold Lamport.tick in Htick.
  destruct (checked_add _ _ _) eqn:Hadd; [|done]. apply checked_add_inv in Hadd as [-> _]. cbn [mbind option_bind] in Htick.
  injection Htick as <- Hid.
  assert (ids (set_depth (set_undo_stack h (undo_stack h ++ [entry])) depth) ≡ₚ clock :: ids h) as Hperm.
  { rewrite Hid. unfold ids, entries. cbn. rewrite <-app_assoc, !map_app. cbn. by rewrite <-Permutation_middle. }
  split.
  - rewrite Hperm. constructor; [|done]. intros Hin. rewrite Forall_forall in Hold. specialize (Hold _ Hin eq_refl). lia.
  - rewrite Hperm. constructor; [intros _; simpl; lia|]. eapply Forall_impl; [exact Hold|].
    intros t Ht Heq. specialize (Ht Heq). simpl in *. lia.
  - intros _. simpl. by destruct (undo_stack h).
Qed.

Lemma history_ok_clock h clock clock' : history_ok h clock → replica_id clock' = replica_id clock →
  (value clock <= value clock')%N → history_ok h clock'.
Proof.
  intros [Hnd Hold Hopen] Hr Hle. split; [done| |done]. eapply Forall_impl; [exact Hold|].
  intros t Ht Heq. rewrite Hr in Heq. specialize (Ht Heq). lia.
Qed.

Lemma last_mut_ids (f : HistoryEntry → HistoryEntry) l l' :
  (∀ e, entry_id (f e) = entry_id e) → last_mut f l = Some l' → map entry_id l' = map entry_id l ∧ l' ≠ [].
Proof.
  intros Hf. destruct (snoc_cases l) as [->|(pre & e & ->)]; [done|]. rewrite last_mut_snoc. intros [= <-].
  split; [by rewrite !map_app; simpl; rewrite Hf|by destruct pre].
Qed.

Lemma until_count_lt tid l n : until_count tid 0 l = Some n → n < length l.
Proof.
  revert n. induction l as [|e l IH]; intros n; simpl; [done|]. case_bool_decide; [intros [= <-]; lia|].
  destruct (HistoryEntry.suppress_grouping e); [done|]. rewrite until_count_spec.
  destruct (until_count tid 0 l) as [m|]; [|done]. cbn [mbind option_bind]. intros [= <-]. specialize (IH m eq_refl). lia.
Qed.

(** Merging the entries at the end into the one before them. *)
Lemma trailing_split (l : list HistoryEntry) n : n < length l → ∃ pre e run, l = pre ++ e :: run ∧ n = length run.
Proof.
  intros Hn. destruct (drop (length l - S n) l) as [|e run] eqn:Hdrop.
  { apply (f_equal length) in Hdrop. rewrite length_drop in Hdrop. simpl in Hdrop. lia. }
  exists (take (length l - S n) l), e, run. split; [by rewrite <-Hdrop, take_drop|].
  apply (f_equal length) in Hdrop. rewrite length_drop in Hdrop. simpl in Hdrop. lia.
Qed.

Lemma group_trailing_ok h n h' id clock : history_ok h clock → n < length (undo_stack h) →
  group_trailing h n = Some (h', id) → history_ok h' clock.
Proof.
  intros Hok (pre & e & run & Hstack & ->)%trailing_split. rewrite (group_trailing_spec h pre e run) by done.
  intros [= <- <-]. apply (history_ok_sub h); [done| |].
  - unfold ids, entries. cbn. rewrite Hstack, !map_app. cbn [map]. solve_submseteq.
  - intros _. cbn. by destruct pre.
Qed.

Lemma take_last_entries l e : last l = Some e → l = take (length l - 1) l ++ [e].
Proof. destruct (snoc_cases l) as [->|(pre & e' & ->)]; [done|]. rewrite last_snoc, take_all_but_last. by intros [= ->]. Qed.

Lemma without_sub tid l : without tid l ⊆+ l.
Proof. apply sublist_submseteq, sublist_filter. Qed.

Lemma rassert_bind {A} b (k : option A) y : (_ ← rassert b; k) = Some y → b = true ∧ k = Some y.
Proof. by destruct b. Qed.

Lemma vec_remove_inv {A} (l l' : list A) ix y : vec_remove l ix = Some (y, l') → l ≡ₚ y :: l'.
Proof.
  unfold vec_remove. destruct (l !! ix) as [z|] eqn:Hix; [|done]. cbn [mbind option_bind]. intros [= <- <-].
  rewrite <-(take_drop_middle l ix z Hix) at 1. by rewrite <-Permutation_middle.
Qed.

(** Calls made when no transaction is open. *)
Lemma history_ok_moved h undo_stack redo_stack clock : history_ok h clock → transaction_depth h = 0 →
  undo_stack ++ redo_stack ⊆+ entries h → history_ok (set_stacks h undo_stack redo_stack) clock.
Proof. intros Hok Hdepth Hsub. apply (history_ok_sub h); [done|by apply ids_sub_entries|done]. Qed.

(** Calls that change the last entry and keep its id. *)
Lemma history_ok_last h f undo_stack' clock : history_ok h clock → (∀ e, entry_id (f e) = entry_id e) →
  last_mut f (undo_stack h) = Some undo_stack' → history_ok (set_undo_stack h undo_stack') clock.
Proof.
  intros Hok Hf Hlast. destruct (last_mut_ids _ _ _ Hf Hlast) as [Hids Hne]. apply (history_ok_sub h); [done| |done].
  unfold ids, entries. cbn. by rewrite !map_app, Hids.
Qed.

Lemma end_ok h clock now h' entry : history_ok h clock → end_transaction h now = Some (h', entry) → history_ok h' clock.
Proof.
  intros Hok. unfold end_transaction. intros [Hdepth Hend]%rassert_bind. cbn [set_depth transaction_depth] in Hend.
  apply negb_true_iff, Nat.eqb_neq in Hdepth. destruct (Nat.eqb_spec (transaction_depth h - 1) 0) as [H0|_].
  - cbn [set_depth undo_stack] in Hend. destruct (last (undo_stack h)) as [e|] eqn:Hlast; [|done]. cbn [mbind option_bind] in Hend.
    case_bool_decide.
    + injection Hend as <- _. apply (history_ok_sub h); [done| |simpl; lia].
      apply ids_sub_entries. unfold entries. cbn. apply submseteq_app; [apply sublist_submseteq, sublist_take|done].
    + cbn [set_stacks undo_stack] in Hend. destruct (last_mut _ _) as [l|] eqn:Hmut; [|done]. cbn [mbind option_bind] in Hend.
      injection Hend as <- _. apply last_mut_ids in Hmut as [Hids Hne]; [|done]. apply (history_ok_sub h); [done| |done].
      unfold ids, entries. cbn. rewrite !map_app, Hids. solve_submseteq.
  - injection Hend as <- _. apply (history_ok_sub h); [done..|]. intros _. by apply Hok.
Qed.

Lemma pop_ok h clock l e redo : history_ok h clock → transaction_depth h = 0 → last l = Some e →
  entries h ≡ₚ l ++ redo → history_ok (set_stacks h (take (length l - 1) l) (redo ++ [e])) clock ∧
    history_ok (set_stacks h (redo ++ [e]) (take (length l - 1) l)) clock.
Proof.
  intros Hok Hdepth Hlast Hperm. apply take_last_entries in Hlast. rewrite Hlast in Hperm.
  split; (apply history_ok_moved; [done..|]); rewrite Hperm; solve_submseteq.
Qed.

Lemma forget_ok h clock tid h' t : history_ok h clock → forget h tid = Some (h', t) → history_ok h' clock.
Proof.
  intros Hok Hrun. pose proof Hrun as Hdepth. unfold forget in Hdepth. apply rassert_bind in Hdepth as [Hdepth _].
  apply Nat.eqb_eq in Hdepth. rewrite forget_spec in Hrun by (done || apply Hok). injection Hrun as <- _.
  apply history_ok_moved; [done..|]. unfold entries. apply submseteq_app; apply without_sub.
Qed.

Lemma merge_ok h clock tid dest h' : history_ok h clock → merge_transactions h tid dest = Some h' → history_ok h' clock.
Proof.
  intros Hok. unfold merge_transactions. destruct (forget h tid) as [[h1 t]|] eqn:Hforget; [|done]. cbn [mbind option_bind].
  pose proof (forget_ok _ _ _ _ _ Hok Hforget) as Hok1. destruct t as [t|]; [|by intros [= <-]]. intros [= <-].
  rewrite transaction_mut_spec by apply Hok1.
  assert (∀ l, map entry_id (map (updated dest (λ d, Transaction.merge_in d t)) l) = map entry_id l) as Hids.
  { intros l. rewrite map_map. apply map_ext. intros e. unfold updated. by destruct (has_id dest e). }
  apply (history_ok_sub h1); [done| |].
  - unfold ids, entries. cbn. by rewrite !map_app, !Hids.
  - intros Hdepth. pose proof (ok_open _ _ Hok1 Hdepth). cbn. by destruct (undo_stack h1).
Qed.

Lemma start_ok h clock start now h' clock' id : history_ok h clock →
  start_transaction h start now clock = Some (h', clock', id) → history_ok h' clock'.
Proof.
  intros Hok. unfold start_transaction. cbn [set_depth transaction_depth].
  destruct (Nat.eqb_spec (transaction_depth h + 1) 1) as [H1|Hne].
  - destruct (Lamport.tick clock) as [[clock1 id1]|] eqn:Htick; [|done]. cbn [mbind option_bind]. intros [= <- <- _].
    by eapply (history_ok_tick h clock clock1 (HistoryEntry.mk (Transaction.mk id1 [] start) now now false)).
  - intros [= <- <- _]. apply (history_ok_sub h); [done..|]. intros _. apply Hok. lia.
Qed.

Lemma history_step_ok st st' : history_step new_transaction st st' → history_ok st.1 st.2 → history_ok st'.1 st'.2.
Proof.
  destruct 1 as [h clock op h' Hrun|h clock start now h' clock' id Hrun|h clock now h' entry Hrun|h clock op_id h' Hrun
    |h clock h' id Hrun|h clock id h' Hrun|h clock|h clock transaction now h' [Hfresh Hold] Hrun|h clock start now h' clock' id Hrun
    |h clock h' entry Hrun|h clock id h' entry Hrun|h clock id h' removed Hrun|h clock id h' t Hrun|h clock id dest h' Hrun
    |h clock h' entry Hrun|h clock id h' removed Hrun|h clock clock' t Hrun|h clock t clock' Hrun]; cbn [fst snd]; intros Hok.
  - unfold push in Hrun. destruct (TreeMap.insert _ _ _); [|done]. injection Hrun as <-. by destruct Hok.
  - by eapply start_ok.
  - by eapply end_ok.
  - unfold push_undo in Hrun. apply rassert_bind in Hrun as [_ Hrun].
    destruct (TreeMap.get _ _) as [[edit|undo]|]; [|by injection Hrun as <-|by injection Hrun as <-].
    destruct (last_mut _ _) as [l|] eqn:Hlast; [|done]. injection Hrun as <-. eapply (history_ok_last h); [done| |exact Hlast]. done.
  - destruct (decide (undo_stack h = [])) as [Hnil|Hne].
    + unfold group in Hrun. rewrite Hnil in Hrun. cbn [rev] in Hrun. unfold group_trailing in Hrun.
      rewrite Hnil in Hrun. injection Hrun as <- _. rewrite <-Hnil. by destruct h.
    + destruct (group_spec h Hne) as (pre & e & run & Hstack & _ & _ & Hgroup). rewrite Hgroup in Hrun.
      injection Hrun as <- _. apply (group_trailing_ok h (length run) _ (Some (entry_id e)) clock Hok).
      * rewrite Hstack, length_app. simpl. lia.
      * by apply group_trailing_spec.
  - unfold group_until in Hrun. destruct (until_count _ _ _) as [n|] eqn:Hcount; [|by injection Hrun as <-].
    destruct (group_trailing h n) as [[h1 t]|] eqn:Hgroup; [|done]. injection Hrun as <-.
    apply until_count_lt in Hcount. rewrite length_rev in Hcount. by eapply group_trailing_ok.
  - unfold finalize_last_transaction. destruct (last_mut _ _) as [l|] eqn:Hlast; [|done]. eapply (history_ok_last h); [done| |exact Hlast]. done.
  - unfold push_transaction in Hrun. apply rassert_bind in Hrun as [Hdepth Hrun]. apply Nat.eqb_eq in Hdepth.
    injection Hrun as <-.
    set (e := HistoryEntry.mk _ _ _ _). assert (ids (set_undo_stack h (undo_stack h ++ [e])) ≡ₚ Transaction.id transaction :: ids h) as Hperm.
    { unfold ids, entries. cbn. rewrite <-app_assoc, !map_app. cbn. by rewrite <-Permutation_middle. }
    destruct Hok as [Hnd Ho _]. split; [rewrite Hperm; by constructor|rewrite Hperm; by constructor|done].
  - unfold push_empty_transaction in Hrun. apply rassert_bind in Hrun as [Hdepth Hrun]. apply Nat.eqb_eq in Hdepth.
    destruct (Lamport.tick clock) as [[clock1 id1]|] eqn:Htick; [|done]. injection Hrun as <- <- _.
    eapply (history_ok_tick h clock clock1 (HistoryEntry.mk (Transaction.mk id1 [] start) now now false) Hok Htick (transaction_depth h)).
  - unfold pop_undo in Hrun. apply rassert_bind in Hrun as [Hdepth Hrun]. apply Nat.eqb_eq in Hdepth.
    destruct (last (undo_stack h)) as [e|] eqn:Hlast; [|by injection Hrun as <- _]. injection Hrun as <- _.
    by apply (pop_ok h clock (undo_stack h) e (redo_stack h)).
  - unfold remove_from_undo in Hrun. apply rassert_bind in Hrun as [Hdepth Hrun]. apply Nat.eqb_eq in Hdepth.
    destruct (rposition _ _) as [ix|]; [|by injection Hrun as <- _].
    destruct (vec_remove _ _) as [[e l]|] eqn:Hremove; [|done]. injection Hrun as <- _. apply vec_remove_inv in Hremove.
    apply history_ok_moved; [done..|]. unfold entries. rewrite Hremove. solve_submseteq.
  - unfold remove_from_undo_until in Hrun. apply rassert_bind in Hrun as [Hdepth Hrun]. apply Nat.eqb_eq in Hdepth.
    destruct (rposition _ _) as [ix|]; injection Hrun as <- _; [|done]. apply history_ok_moved; [done..|]. unfold entries.
    rewrite <-Permutation_rev. rewrite <-(take_drop ix (undo_stack h)) at 3. solve_submseteq.
  - by eapply forget_ok.
  - by eapply merge_ok.
  - unfold pop_redo in Hrun. apply rassert_bind in Hrun as [Hdepth Hrun]. apply Nat.eqb_eq in Hdepth.
    destruct (last (redo_stack h)) as [e|] eqn:Hlast; [|by injection Hrun as <- _]. injection Hrun as <- _.
    apply (pop_ok h clock (redo_stack h) e (undo_stack h)); [done..|]. apply Permutation_app_comm.
  - unfold remove_from_redo in Hrun. apply rassert_bind in Hrun as [Hdepth Hrun]. apply Nat.eqb_eq in Hdepth.
    destruct (rposition _ _) as [ix|]; injection Hrun as <- _; [|done]. apply history_ok_moved; [done..|]. unfold entries.
    rewrite <-Permutation_rev. rewrite <-(take_drop ix (redo_stack h)) at 3. solve_submseteq.
  - unfold Lamport.tick in Hrun. destruct (checked_add _ _ _) eqn:Hadd; [|done]. apply checked_add_inv in Hadd as [-> _].
    injection Hrun as <- _. apply (history_ok_clock h clock); [done..|simpl; lia].
  - unfold Lamport.observe in Hrun. destruct (checked_add _ _ _) eqn:Hadd; [|done]. apply checked_add_inv in Hadd as [-> _].
    injection Hrun as <-. apply (history_ok_clock h clock); [done..|simpl; lia].
Qed.

Lemma reachable_ok st st' : rtc (history_step new_transaction) st st' → history_ok st.1 st.2 → history_ok st'.1 st'.2.
Proof. induction 1 as [|st1 st2 st3 Hstep _ IH]; [done|]. intros Hok. apply IH. by eapply history_step_ok. Qed.

(** While a transaction is open there is an entry, whatever has been pushed. *)
Definition open_ok h : Prop := transaction_depth h ≠ 0 → undo_stack h ≠ [].

Lemma open_closed h : transaction_depth h = 0 → open_ok h.
Proof. by intros ? ?. Qed.

Lemma open_snoc h l e : undo_stack h = l ++ [e] → open_ok h.
Proof. intros Hl _. rewrite Hl. by destruct l. Qed.

Lemma open_last (f : HistoryEntry → HistoryEntry) h l : last_mut f (undo_stack h) = Some l → open_ok (set_undo_stack h l).
Proof. destruct (snoc_cases (undo_stack h)) as [->|(pre & e & ->)]; [done|]. rewrite last_mut_snoc. intros [= <-]. by eapply open_snoc. Qed.

(** Removing what a search found cannot fail. *)
Lemma vec_remove_found {A} (f : A → bool) l ix : rposition f l = Some ix → ∃ x l', vec_remove l ix = Some (x, l').
Proof.
  intros Hix. pose proof (rposition_spec f l) as Hspec. rewrite Hix in Hspec. destruct Hspec as (pre & x & post & -> & <- & _).
  exists x, (pre ++ post). apply vec_remove_at.
Qed.

Lemma forget_some h tid : transaction_depth h = 0 → is_Some (forget h tid).
Proof.
  intros Hdepth. unfold forget. rewrite Hdepth. cbn [Nat.eqb rassert mbind option_bind].
  destruct (rposition _ (undo_stack h)) as [ix|] eqn:Hix; [by destruct (vec_remove_found _ _ _ Hix) as (? & ? & ->)|].
  destruct (rposition _ (redo_stack h)) as [ix|] eqn:Hrx; [by destruct (vec_remove_found _ _ _ Hrx) as (? & ? & ->)|done].
Qed.

Lemma forget_closed h tid h' t : forget h tid = Some (h', t) → transaction_depth h' = 0.
Proof.
  unfold forget. intros [Hdepth%Nat.eqb_eq Hrun]%rassert_bind.
  destruct (rposition _ (undo_stack h)); [destruct (vec_remove _ _) as [[? ?]|]; [|done]; by injection Hrun as <- _|].
  destruct (rposition _ (redo_stack h)); [destruct (vec_remove _ _) as [[? ?]|]; [|done]; by injection Hrun as <- _|].
  by injection Hrun as <- _.
Qed.

Lemma transaction_mut_depth h tid f : transaction_depth (transaction_mut h tid f) = transaction_depth h.
Proof. unfold transaction_mut. by repeat case_match. Qed.

Lemma group_trailing_open h n h' id : n < length (undo_stack h) → group_trailing h n = Some (h', id) → open_ok h'.
Proof.
  intros (pre & e & run & Hstack & ->)%trailing_split. rewrite (group_trailing_spec h pre e run) by done.
  intros [= <- _]. by eapply open_snoc.
Qed.

Lemma end_open h now h' entry : end_transaction h now = Some (h', entry) → open_ok h → open_ok h'.
Proof.
  unfold end_transaction. intros [Hdepth Hend]%rassert_bind Hok. cbn [set_depth transaction_depth] in Hend.
  apply negb_true_iff, Nat.eqb_neq in Hdepth. destruct (Nat.eqb_spec (transaction_depth h - 1) 0) as [H0|_].
  - destruct (last _); [|done]. cbn [mbind option_bind] in Hend. case_bool_decide; [by injection Hend as <- _; apply open_closed|].
    destruct (last_mut _ _); [|done]. injection Hend as <- _. by apply open_closed.
  - injection Hend as <- _. intros _. by apply Hok.
Qed.

Lemma group_open h h' id : group h = Some (h', id) → open_ok h → open_ok h'.
Proof.
  intros Hrun Hok Hdepth. destruct (decide (undo_stack h = [])) as [Hnil|Hne].
  - unfold group in Hrun. rewrite Hnil in Hrun. cbn [rev] in Hrun. unfold group_trailing in Hrun. rewrite Hnil in Hrun.
    injection Hrun as <- _. destruct (Hok Hdepth). exact Hnil.
  - destruct (group_spec h Hne) as (pre & e & run & _ & _ & _ & Hgroup). rewrite Hgroup in Hrun. injection Hrun as <- _.
    by eapply open_snoc.
Qed.

(** Every other call asserts that no transaction is open. *)
Lemma history_step_open pushable st st' : history_step pushable st st' → open_ok st.1 → open_ok st'.1.
Proof.
  destruct 1 as [h clock op h' Hrun|h clock start now h' clock' id Hrun|h clock now h' entry Hrun|h clock op_id h' Hrun
    |h clock h' id Hrun|h clock id h' Hrun|h clock|h clock t now h' _ Hrun|h clock start now h' clock' id Hrun
    |h clock h' entry Hrun|h clock id h' entry Hrun|h clock id h' removed Hrun|h clock id h' t Hrun|h clock id dest h' Hrun
    |h clock h' entry Hrun|h clock id h' removed Hrun|h clock clock' t Hrun|h clock t clock' Hrun]; cbn [fst snd]; intros Hok; try done.
  - unfold push in Hrun. destruct (TreeMap.insert _ _ _); [|done]. by injection Hrun as <-.
  - unfold start_transaction in Hrun. destruct (_ =? 1) eqn:H1.
    + destruct (Lamport.tick clock) as [[? ?]|]; [|done]. injection Hrun as <- _ _. by eapply open_snoc.
    + injection Hrun as <- _ _. apply Nat.eqb_neq in H1. cbn in H1. intros _. apply Hok. lia.
  - by eapply end_open.
  - unfold push_undo in Hrun. apply rassert_bind in Hrun as [_ Hrun].
    destruct (TreeMap.get _ _) as [[edit|undo]|]; [|by injection Hrun as <-|by injection Hrun as <-].
    destruct (last_mut _ _) as [l|] eqn:Hlast; [|done]. injection Hrun as <-. by eapply open_last.
  - by eapply group_open.
  - unfold group_until in Hrun. destruct (until_count _ _ _) as [n|] eqn:Hcount; [|by injection Hrun as <-].
    destruct (group_trailing h n) as [[h1 t]|] eqn:Hgroup; [|done]. injection Hrun as <-.
    apply until_count_lt in Hcount. rewrite length_rev in Hcount. by eapply group_trailing_open.
  - unfold finalize_last_transaction. destruct (last_mut _ _) as [l|] eqn:Hlast; [by eapply open_last|done].
  - unfold push_transaction in Hrun. apply rassert_bind in Hrun as [_ Hrun]. injection Hrun as <-. by eapply open_snoc.
  - unfold push_empty_transaction in Hrun. apply rassert_bind in Hrun as [_ Hrun].
    destruct (Lamport.tick clock) as [[? ?]|]; [|done]. injection Hrun as <- _ _. by eapply open_snoc.
  - apply open_closed. unfold pop_undo in Hrun. apply rassert_bind in Hrun as [Hdepth%Nat.eqb_eq Hrun].
    by destruct (last _); injection Hrun as <- _.
  - apply open_closed. unfold remove_from_undo in Hrun. apply rassert_bind in Hrun as [Hdepth%Nat.eqb_eq Hrun].
    destruct (rposition _ _); [|by injection Hrun as <- _]. destruct (vec_remove _ _) as [[? ?]|]; [|done]. by injection Hrun as <- _.
  - apply open_closed. unfold remove_from_undo_until in Hrun. apply rassert_bind in Hrun as [Hdepth%Nat.eqb_eq Hrun].
    by destruct (rposition _ _); injection Hrun as <- _.
  - apply open_closed. by eapply forget_closed.
  - apply open_closed. unfold merge_transactions in Hrun. destruct (forget h id) as [[h1 t]|] eqn:Hforget; [|done].
    apply forget_closed in Hforget as Hdepth. cbn [mbind option_bind] in Hrun. destruct t; injection Hrun as <-; [|done].
    by rewrite transaction_mut_depth.
  - apply open_closed. unfold pop_redo in Hrun. apply rassert_bind in Hrun as [Hdepth%Nat.eqb_eq Hrun].
    by destruct (last _); injection Hrun as <- _.
  - apply open_closed. unfold remove_from_redo in Hrun. apply rassert_bind in Hrun as [Hdepth%Nat.eqb_eq Hrun].
    by destruct (rposition _ _); injection Hrun as <- _.
Qed.

Lemma reachable_open pushable st st' : rtc (history_step pushable) st st' → open_ok st.1 → open_ok st'.1.
Proof. induction 1 as [|st1 st2 st3 Hstep _ IH]; [done|]. intros Hok. apply IH. by eapply history_step_open. Qed.

Lemma initial_ok base replica : history_ok (new base) (Lamport.new replica).
Proof. split; [constructor|constructor|done]. Qed.

(** *** The edits in a history *)

Definition edits_of (l : list HistoryEntry) : list Lamport := concat (map (λ e, entry_edits e) l).
Definition edits h : list Lamport := edits_of (entries h).

Lemma edits_of_app l l' : edits_of (l ++ l') = edits_of l ++ edits_of l'.
Proof. unfold edits_of. by rewrite map_app, concat_app. Qed.

Lemma edits_sub l l' : l ⊆+ l' → edits_of l ⊆ edits_of l'.
Proof.
  intros Hl id (ids & Hids & Hid)%list_elem_of_In%in_concat. apply list_elem_of_In, list_elem_of_fmap in Hids as (e & -> & He).
  apply list_elem_of_In, in_concat. exists (entry_edits e). split; [|done]. apply list_elem_of_In, list_elem_of_fmap.
  exists e. split; [done|]. eapply elem_of_submseteq; [exact He|done].
Qed.

Lemma edits_moved h undo_stack redo_stack : undo_stack ++ redo_stack ⊆+ entries h → edits (set_stacks h undo_stack redo_stack) ⊆ edits h.
Proof. intros Hl. by apply edits_sub. Qed.

Lemma last_mut_edits (f : HistoryEntry → HistoryEntry) l l' :
  (∀ e, entry_edits (f e) = entry_edits e) → last_mut f l = Some l' → edits_of l' = edits_of l.
Proof.
  intros Hf. destruct (snoc_cases l) as [->|(pre & e & ->)]; [done|]. rewrite last_mut_snoc. intros [= <-].
  rewrite !edits_of_app. f_equal. unfold edits_of. simpl. by rewrite Hf.
Qed.

Lemma merged_edits e run : entry_edits (merged e run) = edits_of (e :: run).
Proof. done. Qed.

Lemma group_trailing_edits h n h' id : n < length (undo_stack h) → group_trailing h n = Some (h', id) → edits h' = edits h.
Proof.
  intros Hn. destruct (drop (length (undo_stack h) - S n) (undo_stack h)) as [|e run] eqn:Hdrop.
  { apply (f_equal length) in Hdrop. rewrite length_drop in Hdrop. simpl in Hdrop. lia. }
  pose proof (take_drop (length (undo_stack h) - S n) (undo_stack h)) as Hstack. rewrite Hdrop in Hstack.
  set (pre := take _ _) in Hstack.
  assert (n = length run) as -> by (apply (f_equal length) in Hdrop; rewrite length_drop in Hdrop; simpl in Hdrop; lia).
  rewrite (group_trailing_spec h pre e run) by done. intros [= <- _]. unfold edits, entries. cbn [set_undo_stack set_stacks undo_stack redo_stack].
  rewrite <-Hstack, !edits_of_app. do 2 f_equal. unfold edits_of. cbn [map concat]. by rewrite merged_edits, app_nil_r.
Qed.

Lemma end_edits h now h' entry : end_transaction h now = Some (h', entry) → edits h' ⊆ edits h.
Proof.
  unfold end_transaction. intros [_ Hend]%rassert_bind. destruct (_ =? 0); [|by injection Hend as <- _].
  cbn [set_depth undo_stack] in Hend. destruct (last (undo_stack h)) as [e|]; [|done]. cbn [mbind option_bind] in Hend.
  case_bool_decide.
  - injection Hend as <- _. apply edits_sub. unfold entries. cbn. apply submseteq_app; [apply sublist_submseteq, sublist_take|done].
  - cbn [set_stacks undo_stack] in Hend. destruct (last_mut _ _) as [l|] eqn:Hmut; [|done]. cbn [mbind option_bind] in Hend.
    injection Hend as <- _. apply last_mut_edits in Hmut; [|done]. unfold edits, entries.
    cbn [set_undo_stack set_stacks undo_stack redo_stack set_depth]. rewrite !edits_of_app, Hmut. set_solver.
Qed.

Lemma forget_edits h tid h' t : forget h tid = Some (h', t) →
  edits h' ⊆ edits h ∧ ∀ t', t = Some t' → Transaction.edit_ids t' ⊆ edits h.
Proof.
  unfold forget. intros [_ Hrun]%rassert_bind.
  assert (∀ l e l', l ≡ₚ e :: l' → l ⊆+ entries h → entry_edits e ⊆ edits h) as Hentry.
  { intros l e l' Hl Hsub. transitivity (edits_of [e]); [unfold edits_of; simpl; by rewrite app_nil_r|]. apply edits_sub.
    rewrite <-Hsub, Hl. solve_submseteq. }
  destruct (rposition _ (undo_stack h)) as [ix|]; [|destruct (rposition _ (redo_stack h)) as [ix|]; [|injection Hrun as <- <-; by split]];
    destruct (vec_remove _ ix) as [[e l]|] eqn:Hremove; try done; apply vec_remove_inv in Hremove; injection Hrun as <- <-.
  - split; [|intros t' [= <-]; eapply Hentry; [exact Hremove|]; unfold entries; solve_submseteq].
    apply edits_moved. unfold entries. rewrite Hremove. solve_submseteq.
  - split; [|intros t' [= <-]; eapply Hentry; [exact Hremove|]; unfold entries; solve_submseteq].
    apply edits_moved. unfold entries. rewrite Hremove. solve_submseteq.
Qed.

Lemma alter_edits f ix l new : (∀ t, Transaction.edit_ids (f t) ⊆ Transaction.edit_ids t ++ new) →
  edits_of (alter (λ e, HistoryEntry.set_transaction e (f (HistoryEntry.transaction e))) ix l) ⊆ edits_of l ++ new.
Proof.
  intros Hf. revert ix. induction l as [|e l IH]; intros [|ix]; cbn; unfold edits_of in *; cbn [map concat]; [set_solver..| |].
  - specialize (Hf (HistoryEntry.transaction e)). set_solver.
  - specialize (IH ix). set_solver.
Qed.

Lemma merge_edits_sub h tid dest h' : merge_transactions h tid dest = Some h' → edits h' ⊆ edits h.
Proof.
  unfold merge_transactions. destruct (forget h tid) as [[h1 t]|] eqn:Hforget; [|done]. cbn [mbind option_bind].
  apply forget_edits in Hforget as [Hsub Ht]. destruct t as [t|]; [|by intros [= <-]]. intros [= <-].
  specialize (Ht t eq_refl). unfold transaction_mut.
  assert (∀ ix l, edits_of (alter (λ e, HistoryEntry.set_transaction e (Transaction.merge_in (HistoryEntry.transaction e) t)) ix l) ⊆
    edits_of l ++ Transaction.edit_ids t) as Halter by (intros ix l; by apply (alter_edits (λ d, Transaction.merge_in d t))).
  destruct (rposition _ _) as [ix|]; [|destruct (rposition _ _) as [ix|]; [|done]]; unfold edits, entries in *; cbn [set_undo_stack set_stacks undo_stack redo_stack];
    rewrite !edits_of_app in *; specialize (Halter ix); set_solver.
Qed.

Lemma did_edits h op_id h' : push_undo h op_id = Some h' → edits h' ⊆ op_id :: edits h.
Proof.
  unfold push_undo. intros [_ Hrun]%rassert_bind. destruct (TreeMap.get _ _) as [[]|]; [|injection Hrun as <-; set_solver..].
  destruct (snoc_cases (undo_stack h)) as [Hnil|(pre & e & Hpre)]; [by rewrite Hnil in Hrun|].
  rewrite Hpre, last_mut_snoc in Hrun. injection Hrun as <-. unfold edits, entries.
  cbn [set_undo_stack set_stacks undo_stack redo_stack]. rewrite Hpre, !edits_of_app. unfold edits_of. simpl. set_solver.
Qed.

Lemma start_edits h start now clock h' clock' id : start_transaction h start now clock = Some (h', clock', id) → edits h' ⊆ edits h.
Proof.
  unfold start_transaction. destruct (_ =? 1).
  - destruct (Lamport.tick clock) as [[clock1 id1]|]; [|done]. intros [= <- _ _]. unfold edits, entries.
    cbn [set_undo_stack set_stacks set_depth undo_stack redo_stack]. rewrite !edits_of_app. unfold edits_of at 2. simpl. set_solver.
  - by intros [= <- _ _].
Qed.

Lemma group_edits h h' id : group h = Some (h', id) → edits h' = edits h.
Proof.
  intros Hrun. destruct (undo_stack h) as [|e0 l0] eqn:Hs.
  - unfold group in Hrun. rewrite Hs in Hrun. simpl in Hrun. unfold group_trailing in Hrun. rewrite Hs in Hrun. injection Hrun as <- _.
    unfold edits, entries. by rewrite Hs.
  - destruct (group_spec h) as (pre & e & run & Hstack & _ & _ & Hg); [by rewrite Hs|]. rewrite Hrun in Hg. injection Hg as -> _.
    unfold edits, entries. cbn [set_undo_stack set_stacks undo_stack redo_stack]. rewrite Hstack, !edits_of_app. do 2 f_equal.
    unfold edits_of. cbn [map concat]. by rewrite merged_edits, app_nil_r.
Qed.

Lemma push_edits h transaction now h' : push_transaction h transaction now = Some h' →
  edits h' ⊆ edits h ++ Transaction.edit_ids transaction.
Proof.
  unfold push_transaction. intros [_ Hrun]%rassert_bind. injection Hrun as <-. unfold edits, entries.
  cbn [set_undo_stack set_stacks undo_stack redo_stack]. rewrite !edits_of_app. unfold edits_of at 2. simpl. set_solver.
Qed.

Lemma push_empty_edits h start now clock h' clock' id : push_empty_transaction h start now clock = Some (h', clock', id) → edits h' ⊆ edits h.
Proof.
  unfold push_empty_transaction. intros [_ Hrun]%rassert_bind. destruct (Lamport.tick clock) as [[clock1 id1]|]; [|done].
  injection Hrun as <- _ _. unfold edits, entries. cbn [set_undo_stack set_stacks undo_stack redo_stack].
  rewrite !edits_of_app. unfold edits_of at 2. simpl. set_solver.
Qed.

(** What undoing and redoing move. *)
Lemma undone_edits h h' entry : pop_undo h = Some (h', entry) → edits h' ⊆ edits h ∧ ∀ e, entry = Some e → entry_edits e ⊆ edits h.
Proof.
  unfold pop_undo. intros [_ Hrun]%rassert_bind. destruct (last (undo_stack h)) as [e|] eqn:Hlast; [|injection Hrun as <- <-; by split].
  injection Hrun as <- <-. apply take_last_entries in Hlast.
  set (pre := take _ _) in *. clearbody pre. split; [|intros e' [= <-]].
  - apply edits_moved. unfold entries. rewrite Hlast. solve_submseteq.
  - unfold edits, entries. rewrite Hlast, !edits_of_app. unfold edits_of. simpl. set_solver.
Qed.

Lemma redone_edits h h' entry : pop_redo h = Some (h', entry) → edits h' ⊆ edits h ∧ ∀ e, entry = Some e → entry_edits e ⊆ edits h.
Proof.
  unfold pop_redo. intros [_ Hrun]%rassert_bind. destruct (last (redo_stack h)) as [e|] eqn:Hlast; [|injection Hrun as <- <-; by split].
  injection Hrun as <- <-. apply take_last_entries in Hlast.
  set (pre := take _ _) in *. clearbody pre. split; [|intros e' [= <-]].
  - apply edits_moved. unfold entries. rewrite Hlast. solve_submseteq.
  - unfold edits, entries. rewrite Hlast, !edits_of_app. unfold edits_of. simpl. set_solver.
Qed.

Lemma removed_edits h id h' entry : remove_from_undo h id = Some (h', entry) →
  edits h' ⊆ edits h ∧ ∀ e, entry = Some e → entry_edits e ⊆ edits h.
Proof.
  unfold remove_from_undo. intros [_ Hrun]%rassert_bind. destruct (rposition _ _) as [ix|]; [|injection Hrun as <- <-; by split].
  destruct (vec_remove _ _) as [[e l]|] eqn:Hremove; [|done]. apply vec_remove_inv in Hremove. injection Hrun as <- <-.
  split; [|intros e' [= <-]].
  - apply edits_moved. unfold entries. rewrite Hremove. solve_submseteq.
  - transitivity (edits_of [e]); [unfold edits_of; simpl; by rewrite app_nil_r|]. apply edits_sub. unfold entries. rewrite Hremove. solve_submseteq.
Qed.

Lemma until_edits h id h' removed : remove_from_undo_until h id = Some (h', removed) → edits h' ⊆ edits h ∧ edits_of removed ⊆ edits h.
Proof.
  unfold remove_from_undo_until. intros [_ Hrun]%rassert_bind. destruct (rposition _ _) as [ix|]; injection Hrun as <- <-.
  - cbn [set_stacks redo_stack]. rewrite drop_app_length. assert (undo_stack h ≡ₚ take ix (undo_stack h) ++ drop ix (undo_stack h)) as Hs by (by rewrite take_drop).
    split; apply edits_sub; unfold entries; cbn [set_stacks undo_stack redo_stack]; rewrite <-(Permutation_rev (drop ix (undo_stack h)));
      [rewrite Hs at 3|rewrite Hs at 2]; solve_submseteq.
  - rewrite drop_all. split; [done|]. intros x Hx. by apply not_elem_of_nil in Hx.
Qed.

Lemma redo_until_edits h id h' removed : remove_from_redo h id = Some (h', removed) → edits h' ⊆ edits h ∧ edits_of removed ⊆ edits h.
Proof.
  unfold remove_from_redo. intros [_ Hrun]%rassert_bind. destruct (rposition _ _) as [ix|]; injection Hrun as <- <-.
  - cbn [set_stacks undo_stack]. rewrite drop_app_length. assert (redo_stack h ≡ₚ take ix (redo_stack h) ++ drop ix (redo_stack h)) as Hs by (by rewrite take_drop).
    split; apply edits_sub; unfold entries; cbn [set_stacks undo_stack redo_stack]; rewrite <-(Permutation_rev (drop ix (redo_stack h)));
      [rewrite Hs at 3|rewrite Hs at 2]; solve_submseteq.
  - rewrite drop_all. split; [done|]. intros x Hx. by apply not_elem_of_nil in Hx.
Qed.

(** ** Properties *)

(** C14. A transaction brackets its edits.  From a history with no open
    transaction, an outermost start, any balanced calls in between (nested
    transactions, reports of operations) and the matching end leave one entry
    with exactly the edits among the reported operations, in order, and an empty
    redo stack, or nothing at all when there was no edit; nested transactions
    leave no trace.  A transaction that is pushed as a whole, empty or not,
    leaves the redo stack alone. *)
Theorem transaction_bracket h clock start now evs now' ids
    (Hdepth : transaction_depth h = 0) (Hbody : body (operations h) ids evs) (Hroom : (value clock < u32_max)%N) :
  run_events (h, clock) (Start start now :: evs ++ [Stop now']) =
    Some (match ids with
          | [] => h
          | _ => set_stacks h (undo_stack h ++ [transaction_entry clock start now now' ids]) []
          end, mkLamport (value clock + 1) (replica_id clock)) ∧
  (∀ transaction, push_transaction h transaction now =
    Some (set_stacks h (undo_stack h ++ [HistoryEntry.mk transaction now now false]) (redo_stack h))) ∧
  push_empty_transaction h start now clock =
    Some (set_stacks h (undo_stack h ++ [transaction_entry clock start now now []]) (redo_stack h),
      mkLamport (value clock + 1) (replica_id clock), clock).
Proof.
  split; [by apply bracket_run|]. unfold push_transaction, push_empty_transaction. rewrite Hdepth. split; [done|].
  cbn [Nat.eqb rassert mbind option_bind]. by rewrite tick_room.
Qed.

(** C15. Grouping merges the longest run of entries at the end of the undo stack
    that follow each other closely: the entries before it stay, the run becomes
    one entry with the id, the start and the first time of its first entry, all
    the edits in order, and the last time of its last entry.  Grouping again
    changes nothing.  [group_until] merges everything after the entry it is
    given, unless an entry in between is final. *)
Theorem grouping_merges h (Hne : undo_stack h ≠ []) : ∃ pre e run,
  undo_stack h = pre ++ e :: run ∧ chain h e run ∧ (∀ prev, last pre = Some prev → joins h prev e = false) ∧
  let h' := set_undo_stack h (pre ++ [merged e run]) in
  group h = Some (h', Some (entry_id e)) ∧ group h' = Some (h', Some (entry_id e)) ∧
  (∀ pre' e' run', undo_stack h = pre' ++ e' :: run' → Forall (λ x, entry_id x ≠ entry_id e') run' →
    group_until h (entry_id e') =
      Some (if forallb (λ x, negb (HistoryEntry.suppress_grouping x)) run'
            then set_undo_stack h (pre' ++ [merged e' run']) else h)).
Proof.
  destruct (group_spec h Hne) as (pre & e & run & Hstack & Hchain & Hpre & Hgroup). exists pre, e, run.
  split; [done|]. split; [done|]. split; [done|]. cbv zeta. split; [done|].
  split; [by apply (group_again _ pre e run)|]. intros pre' e' run' Hstack' Hids.
  destruct (forallb _ run') eqn:Hall.
  - apply group_until_found; [done|]. apply Forall_forall. intros x Hx. rewrite forallb_forall in Hall.
    rewrite Forall_forall in Hids. split; [by apply Hids|]. apply negb_true_iff. apply Hall. by apply list_elem_of_In.
  - assert (∃ l1 x l2, run' = l1 ++ x :: l2 ∧ HistoryEntry.suppress_grouping x = true) as (l1 & x & l2 & -> & Hx).
    { clear Hstack' Hids. induction run' as [|x run' IH]; [done|]. simpl in Hall. destruct (HistoryEntry.suppress_grouping x) eqn:Hs.
      - by exists [], x, run'.
      - destruct (IH Hall) as (l1 & y & l2 & -> & ?). by exists (x :: l1), y, l2. }
    apply Forall_app in Hids as [_ [Hne' Hids]%Forall_cons].
    apply (group_until_blocked h (entry_id e') (pre' ++ e' :: l1) x l2); [by rewrite <-app_assoc|done..].
Qed.

(** C13. Undoing and redoing are inverse to each other: with no transaction open
    and distinct ids, redoing after an undo, undoing after a redo, and redoing up
    to the newest of the entries that undoing up to an entry has removed restore
    the history exactly, and hand out the same entries. *)
Theorem undo_redo_roundtrip h (Hdepth : transaction_depth h = 0) (Hids : NoDup (ids h)) :
  (∀ pre e, undo_stack h = pre ++ [e] → ∃ h', pop_undo h = Some (h', Some e) ∧ pop_redo h' = Some (h, Some e)) ∧
  (∀ pre e, redo_stack h = pre ++ [e] → ∃ h', pop_redo h = Some (h', Some e) ∧ pop_undo h' = Some (h, Some e)) ∧
  (∀ pre e post l, undo_stack h = pre ++ e :: post → last (e :: post) = Some l →
    ∃ h', remove_from_undo_until h (entry_id e) = Some (h', rev (e :: post)) ∧
      remove_from_redo h' (entry_id l) = Some (h, e :: post)).
Proof.
  split; [|split].
  - intros pre e Hstack. rewrite (pop_undo_snoc h pre e) by done. eexists. split; [done|].
    rewrite (pop_redo_snoc _ (redo_stack h) e) by done. cbn. rewrite <-Hstack. by destruct h.
  - intros pre e Hstack. rewrite (pop_redo_snoc h pre e) by done. eexists. split; [done|].
    rewrite (pop_undo_snoc _ (undo_stack h) e) by done. cbn. rewrite <-Hstack. by destruct h.
  - intros pre e post l Hstack Hlast. by apply (undo_redo_until h pre).
Qed.

(** C12. No unwrap of the history can fail, whatever it is asked to do.  After any
    sequence of calls that a new history has answered, transactions of any origin
    pushed among them: while a transaction is open, reporting an operation and
    ending the transaction succeed, and an entry that was ended can be grouped;
    with none open, undo, redo, their variants, forgetting and merging all
    succeed.  And if every transaction pushed had an id that no entry had and that
    was older than the clock, then the ids of the entries are distinct and older
    than the clock. *)
Theorem history_safe base replica h clock (Hreach : rtc (history_step any_transaction) (new base, Lamport.new replica) (h, clock)) :
  (rtc (history_step new_transaction) (new base, Lamport.new replica) (h, clock) → NoDup (ids h) ∧ Forall (older clock) (ids h)) ∧
  (transaction_depth h ≠ 0 → ∀ op_id now,
    is_Some (push_undo h op_id) ∧
    ∃ h' entry, end_transaction h now = Some (h', entry) ∧
      (entry ≠ None → ∃ h'' id, group h' = Some (h'', Some id))) ∧
  (transaction_depth h = 0 → ∀ id dest,
    is_Some (pop_undo h) ∧ is_Some (pop_redo h) ∧ is_Some (remove_from_undo h id) ∧
    is_Some (remove_from_undo_until h id) ∧ is_Some (remove_from_redo h id) ∧
    is_Some (forget h id) ∧ is_Some (merge_transactions h id dest)).
Proof.
  assert (open_ok h) as Hopen by (exact (reachable_open _ _ _ Hreach (open_closed (new base) eq_refl))).
  split; [intros Hnew; by destruct (reachable_ok _ _ Hnew (initial_ok base replica))|]. split.
  - intros Hdepth op_id now. destruct (snoc_cases (undo_stack h)) as [Hnil|(pre & e & Hstack)]; [by destruct (Hopen Hdepth)|]. split.
    + unfold push_undo. rewrite rassert_true by (by apply negb_true_iff, Nat.eqb_neq). cbn [mbind option_bind].
      rewrite Hstack, last_mut_snoc. by destruct (TreeMap.get _ _) as [[]|]; eexists.
    + unfold end_transaction. rewrite rassert_true by (by apply negb_true_iff, Nat.eqb_neq). cbn [mbind option_bind].
      cbn [set_depth set_stacks undo_stack transaction_depth]. destruct (_ =? 0); [|by eexists _, None].
      rewrite Hstack, last_snoc. cbn [mbind option_bind]. case_bool_decide; [by eexists _, None|].
      rewrite last_mut_snoc. cbn [mbind option_bind]. eexists _, _. split; [done|]. intros _.
      edestruct group_spec as (? & ? & ? & _ & _ & _ & Hgroup); [|rewrite Hgroup; by eexists _, _]. cbn. by destruct pre.
  - intros Hdepth id dest. pose proof (forget_some h id Hdepth) as Hforget. pose proof Hforget as [[h1 t] Hrun].
    unfold pop_undo, pop_redo, remove_from_undo, remove_from_undo_until, remove_from_redo, merge_transactions.
    rewrite Hdepth, Hrun. cbn [Nat.eqb rassert mbind option_bind].
    split_and!; [by destruct (last (undo_stack h)); eexists|by destruct (last (redo_stack h)); eexists| |by eexists|by eexists|by eexists|by destruct t; eexists].
    destruct (rposition _ _) as [ix|] eqn:Hix; [|by eexists]. by destruct (vec_remove_found _ _ _ Hix) as (? & ? & ->).
Qed.

(** Merging moves the edits of a transaction to the end of another's and
    forgets it: afterwards its id is unknown, the destination has its edits, and
    every other transaction is as before.  When the destination is not known,
    the transaction is forgotten all the same. *)
Theorem merge_transactions_moves h tid dest (Hdepth : transaction_depth h = 0) (Hids : NoDup (ids h)) :
  ∃ h', merge_transactions h tid dest = Some h' ∧
    ∀ tid', transaction h' tid' =
      if decide (tid' = tid) then None
      else if decide (tid' = dest) then
        (λ t, match transaction h tid with Some other => Transaction.merge_in t other | None => t end) <$> transaction h dest
      else transaction h tid'.
Proof. by apply merge_transactions_run. Qed.

(** Three edits, one second and then a fifth of a second apart. *)
Module HistoryExample.
Definition edit_op (value : N) : Operation :=
  Operation.Edit (EditOperation.mk (mkLamport value 0) Global.new [] []).

Definition entry (value : N) (first_edit_at last_edit_at : Instant) : HistoryEntry :=
  HistoryEntry.mk (Transaction.mk (mkLamport value 0) [mkLamport (value + 1) 0] Global.new) first_edit_at last_edit_at false.

Definition operations : @TreeMap.t Lamport Operation :=
  default TreeMap.default (ops ← TreeMap.insert TreeMap.default (mkLamport 8 0) (edit_op 8);
    TreeMap.insert ops (mkLamport 10 0) (edit_op 10)).

Definition history : History :=
  mk Rope.new operations
    [entry 1 0 0; entry 3 1000000000 1000000100; entry 5 1200000000 1200000000] [entry 0 0 0] 0 300000000.

Lemma ids_distinct : NoDup (ids history).
Proof. apply (bool_decide_unpack _). by vm_compute. Qed.
End HistoryExample.
Import HistoryExample.

Lemma transaction_bracket_witness :
  let nested := [Did (mkLamport 8 0); Start Global.new 3; Did (mkLamport 9 0); Did (mkLamport 10 0); Stop 4] in
  run_events (history, mkLamport 7 0) (Start Global.new 2 :: nested ++ [Stop 5]) =
    Some (set_stacks history (undo_stack history ++
      [transaction_entry (mkLamport 7 0) Global.new 2 5 [mkLamport 8 0; mkLamport 10 0]]) [], mkLamport 8 0).
Proof.
  refine (proj1 (transaction_bracket history (mkLamport 7 0) Global.new 2 _ 5 [mkLamport 8 0; mkLamport 10 0] eq_refl _ _)).
  - refine (body_did (History.operations history) (mkLamport 8 0) [mkLamport 10 0] _ _).
    refine (body_nested _ _ _ [Did (mkLamport 9 0); Did (mkLamport 10 0)] [mkLamport 10 0] 4 [] [] _ (body_nil _)).
    refine (body_did (History.operations history) (mkLamport 9 0) [mkLamport 10 0] _ _).
    exact (body_did (History.operations history) (mkLamport 10 0) [] _ (body_nil _)).
  - by vm_compute.
Defined.

Lemma grouping_merges_witness :
  (∃ pre e run, undo_stack history = pre ++ e :: run ∧ chain history e run ∧
    group history = Some (set_undo_stack history (pre ++ [merged e run]), Some (entry_id e))) ∧
  option_map (λ r, map (λ e, entry_edits e) (undo_stack r.1)) (group history) =
    Some [[mkLamport 2 0]; [mkLamport 4 0; mkLamport 6 0]].
Proof.
  split; [|by vm_compute].
  destruct (grouping_merges history) as (pre & e & run & Hstack & Hchain & _ & Hgroup & _); [done|].
  exists pre, e, run. by split_and!.
Defined.

Lemma undo_redo_roundtrip_witness :
  ∃ h', remove_from_undo_until history (mkLamport 3 0) = Some (h', [entry 5 1200000000 1200000000; entry 3 1000000000 1000000100]) ∧
    remove_from_redo h' (mkLamport 5 0) = Some (history, [entry 3 1000000000 1000000100; entry 5 1200000000 1200000000]).
Proof.
  exact (proj2 (proj2 (undo_redo_roundtrip history eq_refl ids_distinct)) [entry 1 0 0] (entry 3 1000000000 1000000100)
    [entry 5 1200000000 1200000000] (entry 5 1200000000 1200000000) eq_refl eq_refl).
Defined.

Lemma history_safe_witness :
  let opened := set_depth (set_undo_stack (new Rope.new)
    [HistoryEntry.mk (Transaction.mk (mkLamport 1 0) [] Global.new) 7 7 false]) 1 in
  is_Some (push_undo opened (mkLamport 8 0)) ∧
  ∃ h' entry, end_transaction opened 9 = Some (h', entry) ∧
    (entry ≠ None → ∃ h'' id, group h' = Some (h'', Some id)).
Proof.
  intros opened.
  refine (proj1 (proj2 (history_safe Rope.new LOCAL opened (mkLamport 2 0) _)) _ (mkLamport 8 0) 9%N); [|done].
  refine (rtc_once _ _ _). exact (step_start (new Rope.new) (Lamport.new LOCAL) Global.new 7 opened (mkLamport 2 0) (Some (mkLamport 1 0)) eq_refl).
Defined.

(** The ids are distinct only as long as those pushed are: [push_transaction]
    does not check. *)
Example pushed_twice : let transaction := Transaction.mk (mkLamport 1 0) [] Global.new in
  (h ← push_transaction (new Rope.new) transaction 7%N; h ← push_transaction h transaction 8%N; Some (ids h)) =
    Some [mkLamport 1 0; mkLamport 1 0].
Proof. reflexivity. Qed.

Lemma merge_transactions_moves_witness :
  ∃ h', merge_transactions history (mkLamport 5 0) (mkLamport 1 0) = Some h' ∧
    transaction h' (mkLamport 5 0) = None ∧
    transaction h' (mkLamport 1 0) = Some (Transaction.mk (mkLamport 1 0) [mkLamport 2 0; mkLamport 6 0] Global.new).
Proof.
  destruct (merge_transactions_moves history (mkLamport 5 0) (mkLamport 1 0) eq_refl ids_distinct) as (h' & Hrun & Hlookup).
  exists h'. split; [exact Hrun|]. split; rewrite Hlookup; vm_compute; reflexivity.
Defined.
