(* ===== verification/LineEnding.v ===== *)
(** * Line endings and indents ([crates/text/src/text.rs])

    A buffer holds its text with line feeds only.  [LineEnding] detects what a text
    uses, normalises it and writes it back; [LineIndent] measures the white space
    a line begins with.  The regular expression the code searches with is a
    parameter. *)

From S2P Require Import Prelude SumTree SumTreeFacts Seek Cursor CursorWalk Utf8 RopeTree Rope RopeIter.

Implicit Types (s t : str).

Definition CARRIAGE_RETURN : char := 13.

(** [LINE_SEPARATORS_REGEX.replace_all(text, line feed)], of the [regex] crate; the
    expression is [\r\n|\r]. *)
Class LineSeparators := replace_all : str → str.

(** What the crate documents: a text without a match is left alone; otherwise the
    leftmost match is replaced, by preference the first alternative, and the
    search goes on behind it. *)
Class LineSeparatorsLaws `{LineSeparators} : Prop := {
  replace_none s : CARRIAGE_RETURN ∉ s → replace_all s = s;
  replace_crlf s t : CARRIAGE_RETURN ∉ s →
    replace_all (s ++ CARRIAGE_RETURN :: NEWLINE :: t) = s ++ NEWLINE :: replace_all t;
  replace_cr s t : CARRIAGE_RETURN ∉ s → head t ≠ Some NEWLINE →
    replace_all (s ++ CARRIAGE_RETURN :: t) = s ++ NEWLINE :: replace_all t;
}.

(** [str::replace] of a character *)
Definition str_replace (from : char) (to s : str) : str := concat (map (λ c, if (c =? from)%N then to else [c]) s).

(** [str::lines]: a line ends with a line feed, or a carriage return and a line
    feed; nothing follows a final line feed. *)
Definition strip_cr s : str :=
  match last s with
  | Some c => if (c =? CARRIAGE_RETURN)%N then take (length s - 1) s else s
  | None => s
  end.

Fixpoint lines_from (line s : str) : list str :=
  match s with
  | [] => match line with [] => [] | _ :: _ => [line] end
  | c :: s => if (c =? NEWLINE)%N then strip_cr line :: lines_from [] s else lines_from (line ++ [c]) s
  end.
Definition str_lines s : list str := lines_from [] s.

Module LineEnding.
(** [enum LineEnding] *)
Inductive t := Unix | Windows.
#[global] Instance t_eq_dec : EqDecision t.
Proof. solve_decision. Defined.
Implicit Types self : t.

(** On Unix. *)
Definition default : t := Unix.

Definition as_str self : str := match self with Unix => [NEWLINE] | Windows => [CARRIAGE_RETURN; NEWLINE] end.

(** LF and CRLF *)
Definition label self : str := match self with Unix => [76; 70]%N | Windows => [67; 82; 76; 70]%N end.

(** [while !text.is_char_boundary(max_ix) { max_ix -= 1; }] *)
Fixpoint to_boundary (fuel : nat) (text : str) (max_ix : nat) : option nat :=
  if Str.is_char_boundary text max_ix then Some max_ix
  else match fuel with
       | 0 => None
       | S fuel => max_ix ← checked_sub_nat max_ix 1; to_boundary fuel text max_ix
       end.

Definition detect (text : str) : option t :=
  let max_ix := Nat.min (Str.len text) 1000 in
  max_ix ← to_boundary max_ix text max_ix;
  head ← Str.slice text 0 max_ix;
  match StrSearch.find_newline head with
  | Some ix =>
      if 0 <? ix then
        b ← Str.as_bytes text !! (ix - 1); Some (if (b =? CARRIAGE_RETURN)%N then Windows else Unix)
      else Some Unix
  | None => Some default
  end.

(** [normalize], [normalize_arc] and [normalize_cow] differ in who owns the text. *)
Definition normalize `{LineSeparators} (text : str) : str := replace_all text.
Definition normalize_arc `{LineSeparators} (text : str) : str := replace_all text.
Definition normalize_cow `{LineSeparators} (text : str) : str := replace_all text.

Definition apply `{LineSeparators} self (text : str) : option str :=
  detected ← detect text;
  match detected, self with
  | Unix, Unix | Windows, Windows => Some text
  | Unix, Windows => Some (str_replace NEWLINE [CARRIAGE_RETURN; NEWLINE] text)
  | Windows, Unix => Some (normalize text)
  end.
End LineEnding.
Abbreviation LineEnding := LineEnding.t (only parsing).

(** The lines of a piece, a line ending before each but the first. *)
Fixpoint join_lines (line_ending : LineEnding) (newline : bool) (lines : list str) : list str :=
  match lines with
  | [] => []
  | line :: lines =>
      (if newline then [LineEnding.as_str line_ending] else []) ++ line :: join_lines line_ending true lines
  end.

Definition piece_with_line_ending (line_ending : LineEnding) (chunk : str) : list str :=
  join_lines line_ending false (str_lines chunk) ++
  (if StrSearch.ends_with chunk [NEWLINE] then [LineEnding.as_str line_ending] else []).

(** [chunks_with_line_ending] *)
Definition chunks_with_line_ending (rope : Rope) (line_ending : LineEnding) : option (list str) :=
  chunks ← RopeIter.chunks rope;
  pieces ← drain Chunks.next (Chunks.fuel chunks) chunks;
  Some (concat (map (piece_with_line_ending line_ending) pieces)).

(** ** Indents *)

Module LineIndent.
(** [struct LineIndent] *)
Record t := mk { tabs : N; spaces : N; line_blank : bool }.
Implicit Types self : t.

Definition SPACE : char := 32.

(** The loop over characters that [from_iter] and [from_chunks] share; the result
    says whether it was left early. *)
Fixpoint scan (chars : list char) self : option (t * bool) :=
  match chars with
  | [] => Some (self, false)
  | ch :: chars =>
      if (ch =? TAB)%N then tabs ← checked_add u32_max (tabs self) 1; scan chars (mk tabs (spaces self) (line_blank self))
      else if (ch =? SPACE)%N then
        spaces ← checked_add u32_max (spaces self) 1; scan chars (mk (tabs self) spaces (line_blank self))
      else Some (mk (tabs self) (spaces self) (if negb (ch =? NEWLINE)%N then false else line_blank self), true)
  end.

Definition from_iter (chars : list char) : option t := '(self, _) ← scan chars (mk 0 0 true); Some self.

(** [impl From<&str>] *)
Definition from_str (value : str) : option t := from_iter value.

Fixpoint from_chunks_loop (fuel : nat) (chunks : Chunks.t) self : option (t * Chunks.t) :=
  chunk ← Chunks.peek chunks;
  match chunk with
  | None => Some (self, chunks)
  | Some chunk =>
      '(self, done) ← scan chunk self;
      if (done : bool) then Some (self, chunks)
      else
        match fuel with
        | 0 => None
        | S fuel => '(_, chunks) ← Chunks.next chunks; from_chunks_loop fuel chunks self
        end
  end.

(** Also returns the iterator, which stays in front of the piece it stopped in. *)
Definition from_chunks (chunks : Chunks.t) : option (t * Chunks.t) :=
  from_chunks_loop (Chunks.fuel chunks) chunks (mk 0 0 true).

(** The constructors [spaces] and [tabs] *)
Definition of_spaces (spaces : N) : t := mk 0 spaces true.
Definition of_tabs (tabs : N) : t := mk tabs 0 true.

Definition is_line_empty self : bool := (tabs self =? 0)%N && (spaces self =? 0)%N && line_blank self.
Definition is_line_blank self : bool := line_blank self.
Definition raw_len self : option N := checked_add u32_max (tabs self) (spaces self).

(** [a * b] on a [u32] *)
Definition checked_mul (a b : N) : option N := if (a * b <=? u32_max)%N then Some (a * b)%N else None.
Definition len self (tab_size : N) : option N :=
  n ← checked_mul (tabs self) tab_size; checked_add u32_max n (spaces self).
End LineIndent.
