(* ===== verification/LineEndingFacts.v ===== *)
(** * Converting line endings and measuring indents *)

From S2P Require Import Prelude SumTree SumTreeFacts Seek Cursor CursorFacts CursorWalk Utf8 Points Lines BitSelect Chunk ChunkBits ChunkFacts ChunkPositions TextSummary RopeTree Rope RopeFacts RopeSeek RopeCut RopeIter RopeIterFacts RopePieces LineEnding.

Implicit Types (s t a b : str) (le : LineEnding).

Import LineEnding.

(** A text with the given line ending; the text itself has line feeds only. *)
Definition with_ending le s : str := str_replace NEWLINE (as_str le) s.

Definition plain s : Prop := CARRIAGE_RETURN ∉ s.

Lemma str_replace_app c t a b : str_replace c t (a ++ b) = str_replace c t a ++ str_replace c t b.
Proof. unfold str_replace. by rewrite map_app, concat_app. Qed.

Lemma str_replace_none c t s : c ∉ s → str_replace c t s = s.
Proof.
  unfold str_replace. induction s as [|d s IH]; [done|]. intros [Hd Hs]%not_elem_of_cons. simpl. rewrite IH by done.
  by destruct (N.eqb_spec d c) as [->|].
Qed.

Lemma with_ending_app le a b : with_ending le (a ++ b) = with_ending le a ++ with_ending le b.
Proof. apply str_replace_app. Qed.

Lemma with_ending_line le a b : NEWLINE ∉ a → with_ending le (a ++ NEWLINE :: b) = a ++ as_str le ++ with_ending le b.
Proof. intros Ha. rewrite with_ending_app. unfold with_ending at 1. by rewrite str_replace_none. Qed.

Lemma with_ending_Unix s : with_ending Unix s = s.
Proof.
  unfold with_ending, str_replace. induction s as [|c s IH]; [done|]. cbn [map concat]. rewrite IH.
  by destruct (N.eqb_spec c NEWLINE) as [->|].
Qed.

(** The first occurrence of a character. *)
Lemma first_occurrence (c : char) s : c ∉ s ∨ ∃ a b, s = a ++ c :: b ∧ c ∉ a.
Proof.
  induction s as [|d s [IH|(a & b & -> & Ha)]]; [by left; apply not_elem_of_nil| |].
  - destruct (decide (d = c)) as [->|]; [right; exists [], s; split; [done|apply not_elem_of_nil]|left].
    by apply not_elem_of_cons.
  - destruct (decide (d = c)) as [->|]; right; [exists [], (a ++ c :: b); split; [done|apply not_elem_of_nil]|].
    exists (d :: a), b. split; [done|]. by apply not_elem_of_cons.
Qed.

(** ** Pieces with line endings *)

Lemma strip_cr_plain s : plain s → strip_cr s = s.
Proof.
  intros Hs. unfold strip_cr. destruct (last s) as [c|] eqn:Hlast; [|done].
  destruct (N.eqb_spec c CARRIAGE_RETURN) as [->|]; [|done]. apply last_Some in Hlast as [k ->]. unfold plain in Hs. set_solver.
Qed.

Definition ends_line s : bool := match last s with Some c => (c =? NEWLINE)%N | None => false end.

Lemma ends_with_newline s : StrSearch.ends_with s [NEWLINE] = ends_line s.
Proof.
  unfold StrSearch.ends_with, ends_line. apply eq_bool_prop_intro. rewrite bool_decide_spec.
  destruct s as [|c k _] using rev_ind; [split; [intros [k Hk]; by destruct k|done]|].
  rewrite last_snoc. split.
  - intros [k' Hk]. apply app_inj_tail in Hk as [_ ->]. done.
  - destruct (N.eqb_spec c NEWLINE) as [->|]; [|done]. intros _. by exists k.
Qed.

Lemma join_lines_from le newline line s : plain (line ++ s) → NEWLINE ∉ line → line ++ s ≠ [] →
  concat (join_lines le newline (lines_from line s)) ++ (if ends_line (line ++ s) then as_str le else []) =
    (if newline then as_str le else []) ++ line ++ with_ending le s.
Proof.
  revert newline line. induction s as [|c s IH]; intros newline line Hplain Hline Hne.
  - rewrite app_nil_r in *. assert (ends_line line = false) as ->.
    { unfold ends_line. destruct (last line) as [c|] eqn:Hlast; [|done]. apply N.eqb_neq. intros ->.
      apply last_Some in Hlast as [k ->]. set_solver. }
    rewrite app_nil_r. unfold with_ending, str_replace. simpl. rewrite app_nil_r.
    destruct line as [|c line]; [done|]. by destruct newline; simpl; rewrite app_nil_r.
  - cbn [lines_from]. destruct (N.eqb_spec c NEWLINE) as [->|Hc].
    + assert (plain line) as Hpl by (unfold plain in *; set_solver). rewrite strip_cr_plain by done.
      cbn [join_lines]. unfold with_ending, str_replace. cbn [map concat]. rewrite N.eqb_refl.
      fold (str_replace NEWLINE (as_str le) s) (with_ending le s).
      destruct s as [|d s].
      * cbn. unfold ends_line. rewrite last_snoc. cbn. destruct newline; simpl; by rewrite ?app_nil_r, <-?app_assoc.
      * specialize (IH true [] ltac:(unfold plain in *; set_solver) ltac:(apply not_elem_of_nil) ltac:(done)).
        assert (ends_line (line ++ NEWLINE :: d :: s) = ends_line ([] ++ d :: s)) as ->.
        { unfold ends_line. by rewrite (cons_middle NEWLINE), app_assoc, last_app_cons. }
        destruct newline; cbn [app concat]; rewrite <-?app_assoc; cbn [app] in IH; by rewrite IH.
    + specialize (IH newline (line ++ [c])). rewrite <-app_assoc in IH. cbn [app] in IH. rewrite IH by (done || set_solver).
      f_equal. rewrite <-app_assoc. f_equal. unfold with_ending, str_replace. cbn [map concat].
      by destruct (N.eqb_spec c NEWLINE).
Qed.

Lemma piece_ending le s : plain s → s ≠ [] → concat (piece_with_line_ending le s) = with_ending le s.
Proof.
  intros Hs Hne. unfold piece_with_line_ending, str_lines. rewrite concat_app, ends_with_newline.
  pose proof (join_lines_from le false [] s Hs ltac:(apply not_elem_of_nil) Hne) as Hjoin. cbn [app] in Hjoin.
  rewrite <-Hjoin. by destruct (ends_line s); simpl; rewrite ?app_nil_r.
Qed.

Lemma pieces_ending le pieces : plain (concat pieces) → Forall piece_ok pieces →
  concat (concat (map (piece_with_line_ending le) pieces)) = with_ending le (concat pieces).
Proof.
  intros Hplain Hok. induction Hok as [|p pieces [Hne _] _ IH]; [done|]. cbn [map concat] in *.
  rewrite concat_app, piece_ending, IH, with_ending_app by (done || unfold plain in *; set_solver). done.
Qed.

Lemma chunks_ending r s le : holds r s → walkable r → (N.of_nat (Str.len s) <= u32_max)%N → plain s →
  ∃ out, chunks_with_line_ending r le = Some out ∧ concat out = with_ending le s.
Proof.
  intros Hr Hwalk Hlen Hplain. unfold chunks_with_line_ending, RopeIter.chunks, RopeIter.chunks_in_range.
  destruct (rope_iter r s Hr Hwalk Hlen false) as (c & -> & Hc & Hfuel & _). cbn [mbind option_bind].
  destruct (yields_drain r s Hr Hwalk Hlen false c s Hc Hfuel) as (pieces & -> & Hjoined & Hok). cbn [mbind option_bind].
  unfold joined in Hjoined. eexists. split; [done|]. rewrite <-Hjoined. apply pieces_ending; [by rewrite Hjoined|done].
Qed.

(** ** Normalising *)

Section normalize.
Context `{LineSeparatorsLaws}.


Lemma normalize_with_ending le s : plain s → normalize (with_ending le s) = s.
Proof.
  destruct le; [rewrite with_ending_Unix; by apply replace_none|]. unfold normalize.
  remember (length s) as n eqn:Hn. revert s Hn. induction n as [n IH] using lt_wf_ind. intros s -> Hs.
  destruct (first_occurrence NEWLINE s) as [Hnone|(a & b & -> & Ha)].
  - unfold with_ending. rewrite str_replace_none by done. by apply replace_none.
  - rewrite with_ending_line by done. cbn [as_str app]. rewrite replace_crlf by (unfold plain in Hs; set_solver).
    f_equal. f_equal. apply (IH (length b)); [rewrite length_app; simpl; lia|done|unfold plain in *; set_solver].
Qed.

Lemma normalize_cases s :
  (plain s ∧ normalize s = s) ∨
  ∃ a b, normalize s = a ++ NEWLINE :: normalize b ∧ plain a ∧ length b < length s ∧
    (s = a ++ CARRIAGE_RETURN :: NEWLINE :: b ∨ (s = a ++ CARRIAGE_RETURN :: b ∧ head b ≠ Some NEWLINE)).
Proof.
  destruct (first_occurrence CARRIAGE_RETURN s) as [Hnone|(a & t & -> & Ha)]; [left; split; [done|by apply replace_none]|].
  right. exists a. destruct (decide (head t = Some NEWLINE)) as [Ht|Ht].
  - destruct t as [|c t]; [done|]. injection Ht as ->. exists t. split; [by apply replace_crlf|]. split; [done|].
    split; [rewrite length_app; simpl; lia|by left].
  - exists t. split; [by apply replace_cr|]. split; [done|]. split; [rewrite length_app; simpl; lia|by right].
Qed.

Lemma normalize_plain s : plain (normalize s).
Proof.
  remember (length s) as n eqn:Hn. revert s Hn. induction n as [n IH] using lt_wf_ind. intros s ->.
  destruct (normalize_cases s) as [[Hs ->]|(a & b & -> & Ha & Hlt & _)]; [done|].
  specialize (IH _ Hlt b eq_refl). unfold plain in *. set_solver.
Qed.

(** Normalising keeps characters and does not lengthen the text. *)
Lemma normalize_ok s : str_ok s → str_ok (normalize s) ∧ Str.len (normalize s) <= Str.len s.
Proof.
  remember (length s) as n eqn:Hn. revert s Hn. induction n as [n IH] using lt_wf_ind. intros s -> Hok.
  destruct (normalize_cases s) as [[_ ->]|(a & b & -> & Ha & Hlt & Hs)]; [done|].
  assert (str_ok a ∧ str_ok b ∧ Str.len a + 1 + Str.len b <= Str.len s) as (Hoka & Hokb & Hle).
  { unfold str_ok in *. destruct Hs as [->|[-> _]]; rewrite Forall_app, ?Forall_cons in Hok; rewrite !Str_len_app, !Str_len_cons;
      change (len_utf8 CARRIAGE_RETURN) with 1; change (len_utf8 NEWLINE) with 1; split_and!; try apply Hok; lia. }
  destruct (IH _ Hlt b eq_refl Hokb) as [Hnb Hlb]. split.
  - apply Forall_app. split; [done|]. constructor; [by left|done].
  - rewrite Str_len_app, Str_len_cons. change (len_utf8 NEWLINE) with 1. lia.
Qed.
End normalize.

(** ** Detecting *)

Lemma to_boundary_spec fuel text max_ix : str_ok text → max_ix <= fuel → max_ix <= Str.len text →
  ∃ a b, text = a ++ b ∧ to_boundary fuel text max_ix = Some (Str.len a) ∧ Str.len a <= max_ix ∧
    ∀ x y, text = x ++ y → Str.len x <= max_ix → Str.len x <= Str.len a.
Proof.
  intros Hok. revert max_ix. induction fuel as [|fuel IH]; intros max_ix Hfuel Hmax; simpl.
  - assert (max_ix = 0) as -> by lia. exists [], text. split_and!; [done|done|done|]. intros x y _ Hx. done.
  - destruct (Str.is_char_boundary text max_ix) eqn:Hb.
    + apply Str_is_char_boundary_iff in Hb as (a & b & -> & ->); [|done]. by exists a, b.
    + assert (max_ix ≠ 0) as Hne by (intros ->; done). unfold checked_sub_nat.
      rewrite rassert_true by (apply Nat.leb_le; lia). cbn [mbind option_bind].
      destruct (IH (max_ix - 1)) as (a & b & Hab & -> & Hle & Hmost); [lia|lia|]. exists a, b. split_and!; [done|done|lia|].
      intros x y Hxy Hx. apply (Hmost x y); [done|].
      assert (Str.len x ≠ max_ix); [|lia]. intros <-.
      assert (Str.is_char_boundary text (Str.len x) = true) as Ht; [|congruence].
      apply Str_is_char_boundary_iff; [done|by exists x, y].
Qed.

Lemma find_newline_first a b : NEWLINE ∉ a → StrSearch.find_newline (a ++ NEWLINE :: b) = Some (Str.len a).
Proof.
  induction a as [|c a IH]; [done|]. intros [Hc Ha]%not_elem_of_cons. simpl.
  destruct (N.eqb_spec c NEWLINE) as [->|]; [done|]. rewrite IH by done. cbn [mbind option_bind]. by rewrite Str_len_cons.
Qed.

(** The byte 13 is a carriage return. *)
Lemma last_byte_cr c : char_ok c → last (encode_utf8 c) = Some CARRIAGE_RETURN ↔ c = CARRIAGE_RETURN.
Proof.
  intros Hc. split; [|by intros ->]. unfold encode_utf8, CARRIAGE_RETURN.
  destruct (N.ltb_spec c 0x80); [by intros [= ->]|].
  destruct (N.ltb_spec c 0x800); [|destruct (N.ltb_spec c 0x10000)]; cbn [last]; intros Heq%(inj Some); exfalso; revert Heq; generalize (c mod 2 ^ 6)%N; intros; lia.
Qed.

Lemma last_byte_at a c t : Str.as_bytes ((a ++ [c]) ++ t) !! (Str.len (a ++ [c]) - 1) = last (encode_utf8 c).
Proof.
  rewrite Str_as_bytes_app, lookup_app_l.
  2:{ fold (Str.len (a ++ [c])). rewrite Str_len_app, Str_len_cons. change (Str.len []) with 0. pose proof (len_utf8_pos c). lia. }
  rewrite Str_as_bytes_app, lookup_app_r.
  2:{ fold (Str.len a). rewrite Str_len_app, Str_len_cons. change (Str.len []) with 0. pose proof (len_utf8_pos c). lia. }
  fold (Str.len a). rewrite Str_len_app, Str_len_cons. cbn [Str.as_bytes map concat]. rewrite app_nil_r.
  change (Str.len []) with 0. rewrite last_lookup. f_equal. fold (len_utf8 c). pose proof (len_utf8_pos c). lia.
Qed.

(** The first line feed is within the thousand bytes that are looked at. *)
Definition newline_near s : Prop :=
  ∃ a b, s = a ++ NEWLINE :: b ∧ ¬ (NEWLINE ∈ a) ∧ Str.len a + 2 <= 1000.

Lemma detect_first a b : str_ok (a ++ NEWLINE :: b) → NEWLINE ∉ a → Str.len a + 1 <= 1000 →
  detect (a ++ NEWLINE :: b) =
    Some (match last a with Some c => if (c =? CARRIAGE_RETURN)%N then Windows else Unix | None => Unix end).
Proof.
  intros Hok Ha Hnear. unfold detect.
  destruct (to_boundary_spec (Nat.min (Str.len (a ++ NEWLINE :: b)) 1000) _ (Nat.min (Str.len (a ++ NEWLINE :: b)) 1000) Hok)
    as (x & y & Hxy & Hrun & Hle & Hmost); [lia|lia|].
  cbv zeta. rewrite Hrun. cbn [mbind option_bind].
  assert (Str.len (a ++ [NEWLINE]) <= Str.len x) as Hprefix.
  { apply (Hmost _ b); [by rewrite <-app_assoc|]. rewrite !Str_len_app, !Str_len_cons. change (len_utf8 NEWLINE) with 1. change (Str.len []) with 0. lia. }
  assert (∃ k, x = a ++ NEWLINE :: k) as [k ->].
  { rewrite cons_middle, app_assoc in Hxy. apply app_eq_inv in Hxy as [(k & Hk & _)|(k & Hk & _)].
    - apply (f_equal Str.len) in Hk as Hl. rewrite (Str_len_app x k) in Hl. assert (k = []) as -> by (apply Str_len_zero; lia).
      rewrite app_nil_r in Hk. exists []. by rewrite <-Hk.
    - exists k. by rewrite Hk, <-app_assoc. }
  rewrite Hxy. pose proof (Str_slice_app [] (a ++ NEWLINE :: k) y) as Hslice. cbn [app] in Hslice.
  change (Str.len []) with 0 in Hslice. rewrite Nat.add_0_l in Hslice. rewrite Hslice. cbn [mbind option_bind].
  rewrite find_newline_first by done. destruct a as [|c a' _] using rev_ind.
  { done. }
  rewrite last_snoc. destruct (Nat.ltb_spec 0 (Str.len (a' ++ [c]))) as [_|H0].
  2:{ rewrite Str_len_app, Str_len_cons in H0. pose proof (len_utf8_pos c). lia. }
  rewrite <-app_assoc, last_byte_at.
  assert (char_ok c) as Hc by (apply Forall_app in Hok as [[_ [? _]%Forall_cons]%Forall_app _]; done).
  destruct (last (encode_utf8 c)) as [d|] eqn:Hd; cbn [mbind option_bind].
  - do 2 f_equal. destruct (N.eqb_spec d CARRIAGE_RETURN) as [->|Hne], (N.eqb_spec c CARRIAGE_RETURN) as [->|Hne']; try done.
    + by apply last_byte_cr in Hd.
    + rewrite (proj2 (last_byte_cr _ Hc) eq_refl) in Hd. by injection Hd as <-.
  - apply last_None in Hd. pose proof (len_utf8_pos c) as Hpos. unfold len_utf8 in Hpos. rewrite Hd in Hpos. simpl in Hpos. lia.
Qed.

(** Detection never fails: what it looks at lies on character boundaries. *)
Lemma detect_total s : str_ok s → ∃ le, detect s = Some le.
Proof.
  intros Hok. unfold detect.
  destruct (to_boundary_spec (Nat.min (Str.len s) 1000) s (Nat.min (Str.len s) 1000) Hok) as (x & y & -> & Hrun & _); [lia|lia|].
  cbv zeta. rewrite Hrun. cbn [mbind option_bind].
  pose proof (Str_slice_app [] x y) as Hslice. cbn [app] in Hslice. change (Str.len []) with 0 in Hslice. rewrite Nat.add_0_l in Hslice.
  rewrite Hslice. cbn [mbind option_bind]. destruct (first_occurrence NEWLINE x) as [Hx|(a & b & -> & Ha)].
  - assert (StrSearch.find_newline x = None) as ->; [|by eexists]. clear -Hx. induction x as [|c x IH]; [done|]. cbn [StrSearch.find_newline].
    apply not_elem_of_cons in Hx as [Hc Hx]. rewrite (proj2 (N.eqb_neq _ _)) by done. by rewrite IH.
  - rewrite find_newline_first by done. destruct (Nat.ltb_spec 0 (Str.len a)) as [Hpos|_]; [|by eexists].
    destruct (lookup_lt_is_Some_2 (Str.as_bytes ((a ++ NEWLINE :: b) ++ y)) (Str.len a - 1)) as [c ->]; [|cbn [mbind option_bind]; by eexists].
    rewrite !Str_as_bytes_app, !length_app. change (length (Str.as_bytes a)) with (Str.len a). lia.
Qed.

Lemma with_ending_ok le s : str_ok s → str_ok (with_ending le s).
Proof.
  unfold with_ending, str_replace. induction 1 as [|c s Hc Hs IH]; [constructor|]. cbn [map concat].
  destruct (_ =? _)%N; apply Forall_app; (split; [|done]); [by destruct le; repeat constructor; left|by constructor].
Qed.

Lemma detect_with_ending le s : str_ok s → plain s → newline_near s → detect (with_ending le s) = Some le.
Proof.
  intros Hok Hplain (a & b & -> & Ha & Hnear). pose proof (with_ending_ok le _ Hok) as Hok'.
  rewrite with_ending_line in Hok' |- * by done. destruct le; cbn [as_str app] in *.
  - rewrite detect_first by (done || lia). destruct (last a) as [c|] eqn:Hc; [|done].
    destruct (N.eqb_spec c CARRIAGE_RETURN) as [->|]; [|done]. apply last_Some in Hc as [k ->]. unfold plain in Hplain. set_solver.
  - rewrite cons_middle, app_assoc in Hok' |- *. rewrite detect_first; [by rewrite last_snoc|done| |].
    + apply not_elem_of_app. split; [done|]. by apply not_elem_of_cons; split; [|apply not_elem_of_nil].
    + rewrite Str_len_app. rewrite Str_len_cons. change (len_utf8 CARRIAGE_RETURN) with 1. change (Str.len []) with 0. lia.
Qed.

Lemma str_replace_with_ending s : str_replace NEWLINE [CARRIAGE_RETURN; NEWLINE] s = with_ending Windows s.
Proof. done. Qed.

(** ** Indents *)

Lemma scan_app a b indent :
  LineIndent.scan (a ++ b) indent =
    ('(indent, done) ← LineIndent.scan a indent;
     if (done : bool) then Some (indent, true) else LineIndent.scan b indent).
Proof.
  revert indent. induction a as [|c a IH]; intros indent; [done|]. simpl.
  destruct (c =? TAB)%N; [destruct (checked_add _ _ _); [apply IH|done]|].
  destruct (c =? LineIndent.SPACE)%N; [destruct (checked_add _ _ _); [apply IH|done]|]. done.
Qed.

(** The white space a line begins with. *)
Definition blank (c : char) : Prop := c = TAB ∨ c = LineIndent.SPACE.
#[global] Instance blank_dec c : Decision (blank c).
Proof. unfold blank. apply _. Defined.

Definition indent_of (w rest : str) : LineIndent.t :=
  LineIndent.mk (N.of_nat (length (filter (λ c, c = TAB) w))) (N.of_nat (length (filter (λ c, c = LineIndent.SPACE) w)))
    (match head rest with Some c => (c =? NEWLINE)%N | None => true end).

Lemma scan_blank w (tb sp : N) : Forall blank w →
  (tb + N.of_nat (length (filter (λ c, c = TAB) w)) <= u32_max)%N →
  (sp + N.of_nat (length (filter (λ c, c = LineIndent.SPACE) w)) <= u32_max)%N →
  LineIndent.scan w (LineIndent.mk tb sp true) =
    Some (LineIndent.mk (tb + N.of_nat (length (filter (λ c, c = TAB) w)))
      (sp + N.of_nat (length (filter (λ c, c = LineIndent.SPACE) w))) true, false).
Proof.
  intros Hw. revert tb sp. induction Hw as [|c w Hc Hw IH]; intros tb sp Ht Hsp; simpl; [by rewrite !N.add_0_r|].
  destruct Hc as [->| ->].
  - rewrite filter_cons_True in Ht |- * by done. rewrite filter_cons_False in Hsp |- * by done. simpl in Ht |- *.
    rewrite checked_add_Some by lia. cbn [mbind option_bind]. rewrite IH by lia. do 3 f_equal. lia.
  - rewrite filter_cons_False in Ht |- * by done. rewrite filter_cons_True in Hsp |- * by done. simpl in Hsp |- *.
    rewrite checked_add_Some by lia. cbn [mbind option_bind]. rewrite IH by lia. do 3 f_equal. lia.
Qed.

Lemma scan_indent w rest : Forall blank w → (∀ c, head rest = Some c → ¬ blank c) →
  (N.of_nat (length w) <= u32_max)%N →
  LineIndent.scan (w ++ rest) (LineIndent.mk 0 0 true) =
    Some (indent_of w rest, match rest with [] => false | _ :: _ => true end).
Proof.
  intros Hw Hrest Hlen. pose proof (length_filter (λ c, c = TAB) w) as Ht.
  pose proof (length_filter (λ c, c = LineIndent.SPACE) w) as Hsp.
  rewrite scan_app, scan_blank by (done || lia). cbn [mbind option_bind]. rewrite !N.add_0_l. unfold indent_of.
  destruct rest as [|c rest]; [done|]. simpl. specialize (Hrest c eq_refl). unfold blank in Hrest.
  destruct (N.eqb_spec c TAB) as [->|]; [naive_solver|]. destruct (N.eqb_spec c LineIndent.SPACE) as [->|]; [naive_solver|].
  by destruct (c =? NEWLINE)%N.
Qed.

Section indent.
Context (r : Rope) (s : str) (Hr : holds r s) (Hwalk : walkable r) (Hlen : (N.of_nat (Str.len s) <= u32_max)%N).

(** Reading piece by piece stops where reading the text stops. *)
Lemma from_chunks_scan fuel c m indent indent' done : yields r s false c m → Str.len m < fuel →
  LineIndent.scan m indent = Some (indent', done) →
  ∃ c' m1 m2, LineIndent.from_chunks_loop fuel c indent = Some (indent', c') ∧ m = m1 ++ m2 ∧ yields r s false c' m2 ∧
    ∃ indent1, LineIndent.scan m1 indent = Some (indent1, false).
Proof.
  revert c m indent. induction fuel as [|fuel IH]; intros c m indent Hc Hfuel Hscan; [lia|]. cbn [LineIndent.from_chunks_loop].
  destruct (decide (m = [])) as [->|Hne].
  - destruct (yields_end r s Hlen false c Hc) as (_ & -> & _). cbn [mbind option_bind]. simpl in Hscan. injection Hscan as <- <-.
    exists c, [], []. split_and!; [done..|]. by exists indent.
  - destruct (yields_next r s Hr Hwalk Hlen false c m Hc Hne) as (z & m' & c1 & Htakes & Hz & -> & Hnext & Hc1). cbn [mbind option_bind].
    simpl in Htakes. subst m. rewrite scan_app in Hscan. destruct (LineIndent.scan z indent) as [[indent1 d]|] eqn:Hz'; [|done].
    cbn [mbind option_bind] in Hscan |- *. destruct d.
    + injection Hscan as <- <-. exists c, [], (z ++ m'). split_and!; [done..|]. by exists indent.
    + rewrite Hnext. cbn [mbind option_bind].
      destruct (IH c1 m' indent1 Hc1) as (c' & m1 & m2 & -> & -> & Hc' & indent2 & Hm1).
      { rewrite Str_len_app in Hfuel. destruct Hz as [Hz _]. assert (Str.len z ≠ 0) by (by intros ?%Str_len_zero). lia. }
      { done. }
      exists c', (z ++ m1), m2. split_and!; [done|by rewrite app_assoc|done|]. exists indent2. by rewrite scan_app, Hz'.
Qed.
End indent.

Lemma apply_with_ending `{LineSeparatorsLaws} le le' s : str_ok s → plain s → newline_near s →
  apply le' (with_ending le s) = Some (with_ending le' s).
Proof.
  intros Hok Hplain Hnear. unfold apply. rewrite detect_with_ending by done. cbn [mbind option_bind].
  destruct le, le'; [done| |f_equal; rewrite with_ending_Unix; by apply normalize_with_ending|done].
  by rewrite with_ending_Unix, str_replace_with_ending.
Qed.

(** ** Properties *)

(** C16. Line endings round-trip.  Normalising leaves no carriage return, keeps
    what has none, and doing it twice is doing it once; a normalised text
    written with either line ending (as [chunks_with_line_ending] writes a rope,
    piece by piece) normalises back to itself; when a line feed is near enough,
    the line ending is detected, and [apply] converts between the two. *)
Theorem line_ending_roundtrip `{LineSeparatorsLaws} r s t le le'
    (Hr : holds r s) (Hwalk : walkable r) (Hlen : (N.of_nat (Str.len s) <= u32_max)%N) (Hok : str_ok s) (Hplain : plain s) :
  plain (normalize t) ∧ normalize (normalize t) = normalize t ∧
  normalize (with_ending le s) = s ∧
  (∃ out, chunks_with_line_ending r le = Some out ∧ concat out = with_ending le s) ∧
  (newline_near s → detect (with_ending le s) = Some le ∧ apply le' (with_ending le s) = Some (with_ending le' s)).
Proof.
  split; [apply normalize_plain|]. split; [by apply replace_none, normalize_plain|].
  split; [by apply normalize_with_ending|]. split; [by apply chunks_ending|]. intros Hnear.
  split; [by apply detect_with_ending|by apply apply_with_ending].
Qed.

(** A search for the expression. *)
Module SeparatorsExample.
Fixpoint replace s : str :=
  match s with
  | [] => []
  | c :: s =>
      if (c =? CARRIAGE_RETURN)%N then
        NEWLINE :: match s with
                   | d :: s' => if (d =? NEWLINE)%N then replace s' else replace s
                   | [] => []
                   end
      else c :: replace s
  end.

#[export] Instance separators : LineSeparators := replace.

Lemma replace_prefix s t : CARRIAGE_RETURN ∉ s → replace (s ++ t) = s ++ replace t.
Proof.
  induction s as [|c s IH]; [done|]. intros [Hc Hs]%not_elem_of_cons. simpl.
  destruct (N.eqb_spec c CARRIAGE_RETURN) as [->|]; [done|]. by rewrite IH.
Qed.

#[export] Instance separators_laws : LineSeparatorsLaws.
Proof.
  split; unfold replace_all, separators.
  - intros s Hs. pose proof (replace_prefix s [] Hs) as Hp. by rewrite !app_nil_r in Hp.
  - intros s t Hs. by rewrite replace_prefix.
  - intros s t Hs Ht. rewrite replace_prefix by done. f_equal. simpl. f_equal. destruct t as [|d t]; [done|].
    destruct (N.eqb_spec d NEWLINE) as [->|]; [done|]. done.
Qed.
End SeparatorsExample.
Import SeparatorsExample.

Lemma line_ending_roundtrip_witness :
  let s := RopeExample.text in
  normalize (with_ending Windows s) = s ∧
  (∃ out, chunks_with_line_ending RopeExample.rope Windows = Some out ∧ concat out = with_ending Windows s) ∧
  apply Unix (with_ending Windows s) = Some (with_ending Unix s).
Proof.
  intros s. assert (plain s) as Hplain by (apply (bool_decide_unpack _); by vm_compute).
  destruct (line_ending_roundtrip RopeExample.rope s [] Windows Unix RopeExample.rope_holds RopeExample.rope_walkable
    example_len RopeExample.text_ok Hplain) as (_ & _ & Hnorm & Hchunks & Hnear).
  split; [exact Hnorm|]. split; [exact Hchunks|]. apply Hnear. exists [97; 233]%N, (replicate 100 98%N ++ [0x20AC; 10; 0x1F600]%N ++ replicate 60 99%N).
  split; [reflexivity|]. split; [apply (bool_decide_unpack _); by vm_compute|vm_compute; lia].
Defined.

(** The indent of a line is that of its text: for a range that begins with the
    white space [w], reading the rope piece by piece gives the numbers of tabs
    and spaces of [w] and whether nothing but a line feed follows, as collecting
    the characters does; the iterator stays in the range, behind nothing but
    white space of [w]. *)
Theorem line_indent_measures r u w rest v (Hr : holds r (u ++ (w ++ rest) ++ v)) (Hwalk : walkable r)
    (Hlen : (N.of_nat (Str.len (u ++ (w ++ rest) ++ v)) <= u32_max)%N) (Hw : Forall blank w)
    (Hrest : ∀ c, head rest = Some c → ¬ blank c) :
  LineIndent.from_iter (w ++ rest) = Some (indent_of w rest) ∧
  ∃ c c' pieces m1 m2, RopeIter.chunks_in_range r (Str.len u, Str.len (u ++ w ++ rest)) = Some c ∧
    LineIndent.from_chunks c = Some (indent_of w rest, c') ∧
    drain Chunks.next (Chunks.fuel c) c' = Some pieces ∧ concat pieces = m2 ∧ w ++ rest = m1 ++ m2 ∧ m1 `prefix_of` w.
Proof.
  assert (N.of_nat (length w) <= u32_max)%N as Hshort.
  { rewrite !Str_len_app in Hlen. assert (length w <= Str.len w) as ?; [|lia].
    clear. induction w as [|c w IH]; [done|]. rewrite Str_len_cons. simpl. pose proof (len_utf8_pos c). lia. }
  pose proof (scan_indent w rest Hw Hrest Hshort) as Hscan.
  split; [by unfold LineIndent.from_iter; rewrite Hscan|].
  destruct (yields_new r _ Hr Hwalk Hlen false u (w ++ rest) v eq_refl) as (c & Hc & Hyields & Hfuel & _).
  destruct (from_chunks_scan r _ Hr Hwalk Hlen (Chunks.fuel c) c (w ++ rest) _ _ _ Hyields ltac:(rewrite Hfuel; lia) Hscan)
    as (c' & m1 & m2 & Hrun & Hsplit & Hyields' & indent1 & Hm1).
  destruct (drain_pieces r _ Hr Hwalk Hlen false (Chunks.fuel c) c' m2 Hyields') as (pieces & Hdrain & Hjoined & _).
  { rewrite Hfuel, Hsplit, Str_len_app. lia. }
  exists c, c', pieces, m1, m2. split_and!; [exact Hc|exact Hrun|exact Hdrain|exact Hjoined|exact Hsplit|].
  apply app_eq_inv in Hsplit as [(k & -> & Hk)|(k & -> & Hk)]; [by exists k|].
  destruct k as [|c0 k]; [by rewrite app_nil_r|]. exfalso.
  rewrite Hk in Hscan. rewrite app_assoc, scan_app, Hm1 in Hscan. cbn [mbind option_bind app] in Hscan.
  rewrite scan_app, scan_blank in Hm1 by (done || (pose proof (length_filter (λ c, c = TAB) w); lia) ||
    (pose proof (length_filter (λ c, c = LineIndent.SPACE) w); lia)).
  cbn [mbind option_bind] in Hm1. specialize (Hrest c0). rewrite Hk in Hrest. specialize (Hrest eq_refl).
  unfold blank in Hrest. simpl in Hm1.
  destruct (N.eqb_spec c0 TAB) as [->|]; [naive_solver|]. by destruct (N.eqb_spec c0 LineIndent.SPACE) as [->|]; [naive_solver|].
Qed.

Lemma line_indent_measures_witness :
  ∃ c c', RopeIter.chunks_in_range RopeExample.rope (3, 112) = Some c ∧
    LineIndent.from_chunks c = Some (LineIndent.mk 0 0 true, c').
Proof.
  assert (str_ok RopeExample.text) as _ by exact RopeExample.text_ok.
  destruct (line_indent_measures RopeExample.rope [97; 233]%N [] ([10]%N ++ replicate 100 98%N ++ [0x20AC; 10; 0x1F600]%N)
    (replicate 60 99%N) RopeExample.rope_holds RopeExample.rope_walkable example_len) as (_ & c & c' & _ & _ & _ & Hc & Hrun & _).
  - constructor.
  - intros c [= <-]. unfold blank. by intros [?|?].
  - exists c, c'. split; [exact Hc|exact Hrun].
Defined.
