(* ===== verification/Fragment.v ===== *)
(** * Fragments ([crates/text/src/text.rs])

    A buffer keeps every piece of text that was ever inserted as a fragment, in
    the order of the text, deleted ones included.  The tree of fragments sums
    their lengths and versions; a second tree finds a fragment by the insertion it
    comes from. *)

From S2P Require Import Prelude Clock Locator SumTree Keyed UndoMap TreeMap.

(** [struct FragmentTextSummary] *)
Module FragmentTextSummary.
Record t := mk { visible : nat; deleted : nat }.

Definition zero : t := mk 0 0.
End FragmentTextSummary.
Abbreviation FragmentTextSummary := FragmentTextSummary.t (only parsing).

(** [struct FragmentSummary] *)
Module FragmentSummary.
Record t := mk {
  text : FragmentTextSummary;
  max_id : Locator;
  max_version : Global;
  min_insertion_version : Global;
  max_insertion_version : Global;
}.

(** [Default] *)
Definition default : t := mk FragmentTextSummary.zero Locator.min Global.new Global.new Global.new.

(** [impl sum_tree::Summary]; [assign] never fails ([assign_spec]). *)
Definition add_summary (self other : t) : t :=
  mk (FragmentTextSummary.mk
       (FragmentTextSummary.visible (text self) + FragmentTextSummary.visible (text other))
       (FragmentTextSummary.deleted (text self) + FragmentTextSummary.deleted (text other)))
    (stdpp.option.default (max_id self) (Locator.assign (max_id self) (max_id other)))
    (Global.join (max_version self) (max_version other))
    (Global.meet (min_insertion_version self) (min_insertion_version other))
    (Global.join (max_insertion_version self) (max_insertion_version other)).

(** No version ends with a zero: true of every version a replica holds
    ([Clock.reachable_canonical]), and what makes sums associative. *)
Definition canonical (self : t) : bool :=
  bool_decide (Clock.canonical (max_version self) ∧ Clock.canonical (min_insertion_version self) ∧
    Clock.canonical (max_insertion_version self)).
End FragmentSummary.

(** The summaries in the tree. *)
Record FragmentSummary := mkFragmentSummary {
  summary_data :> FragmentSummary.t;
  summary_canonical : FragmentSummary.canonical summary_data = true;
}.

Lemma FragmentSummary_default_canonical : FragmentSummary.canonical FragmentSummary.default = true.
Proof. by vm_compute. Qed.

Lemma FragmentSummary_add_canonical a b : FragmentSummary.canonical a = true → FragmentSummary.canonical b = true →
  FragmentSummary.canonical (FragmentSummary.add_summary a b) = true.
Proof.
  unfold FragmentSummary.canonical. rewrite !bool_decide_eq_true. intros (? & ? & ?) (? & ? & ?).
  split_and!; by (apply GlobalFacts.join_canonical || apply GlobalFacts.meet_canonical).
Qed.

#[global] Instance FragmentSummary_summary : Summary FragmentSummary := {|
  zero := mkFragmentSummary FragmentSummary.default FragmentSummary_default_canonical;
  add_summary a b := mkFragmentSummary (FragmentSummary.add_summary a b)
    (FragmentSummary_add_canonical a b (summary_canonical a) (summary_canonical b));
|}.

(** [struct Fragment] *)
Module Fragment.
Record t := mk {
  id : Locator;
  timestamp : Lamport;
  insertion_offset : N;
  len : N;
  visible : bool;
  deletions : list Lamport;
  max_undos : Global;
}.
Implicit Types self : t.

(** Assignments to fields *)
Definition set_id self (id : Locator) : t :=
  mk id (timestamp self) (insertion_offset self) (len self) (visible self) (deletions self) (max_undos self).
Definition set_range self (insertion_offset len : N) : t :=
  mk (id self) (timestamp self) insertion_offset len (visible self) (deletions self) (max_undos self).
Definition set_visible self (visible : bool) : t :=
  mk (id self) (timestamp self) (insertion_offset self) (len self) visible (deletions self) (max_undos self).
Definition set_deletions self (deletions : list Lamport) : t :=
  mk (id self) (timestamp self) (insertion_offset self) (len self) (visible self) deletions (max_undos self).
Definition set_max_undos self (max_undos : Global) : t :=
  mk (id self) (timestamp self) (insertion_offset self) (len self) (visible self) (deletions self) max_undos.

Fixpoint all_undone (undos : UndoMap.t) (deletions : list Lamport) : option bool :=
  match deletions with
  | [] => Some true
  | d :: deletions => undone ← UndoMap.is_undone undos d; if (undone : bool) then all_undone undos deletions else Some false
  end.

Definition is_visible self (undos : UndoMap.t) : option bool :=
  undone ← UndoMap.is_undone undos (timestamp self);
  if (undone : bool) then Some false else all_undone undos (deletions self).

Fixpoint all_were_undone (version : Global) (undos : UndoMap.t) (deletions : list Lamport) : option bool :=
  match deletions with
  | [] => Some true
  | d :: deletions =>
      ok ← (if Global.observed version d then UndoMap.was_undone undos d version else Some true);
      if (ok : bool) then all_were_undone version undos deletions else Some false
  end.

Definition was_visible self (version : Global) (undos : UndoMap.t) : option bool :=
  if Global.observed version (timestamp self) then
    undone ← UndoMap.was_undone undos (timestamp self) version;
    if (undone : bool) then Some false else all_were_undone version undos (deletions self)
  else Some false.

(** [impl sum_tree::Item] *)
Definition summary self : option FragmentSummary.t :=
  max_version ← Global.observe Global.new (timestamp self);
  max_version ← foldl (λ max_version deletion, max_version ← max_version; Global.observe max_version deletion)
    (Some max_version) (deletions self);
  let max_version := Global.join max_version (max_undos self) in
  min_insertion_version ← Global.observe Global.new (timestamp self);
  let max_insertion_version := min_insertion_version in
  let text := if visible self then FragmentTextSummary.mk (N.to_nat (len self)) 0
              else FragmentTextSummary.mk 0 (N.to_nat (len self)) in
  Some (FragmentSummary.mk text (id self) max_version min_insertion_version max_insertion_version).
End Fragment.
Abbreviation Fragment := Fragment.t (only parsing).

(** The tree asks for a total function: where [Fragment.summary] panics, which
    [fragment_ok] rules out, this is arbitrary. *)
#[global] Instance Fragment_item : Item Fragment FragmentSummary := λ self,
  match Fragment.summary self with
  | Some data =>
      match bool_dec (FragmentSummary.canonical data) true with
      | left H => mkFragmentSummary data H
      | right _ => zero
      end
  | None => zero
  end.

(** ** Dimensions *)

#[global] Instance FragmentTextSummary_dimension : Dimension FragmentTextSummary FragmentSummary := {|
  dim_zero := FragmentTextSummary.zero;
  dim_add self (summary : FragmentSummary) := FragmentTextSummary.mk
    (FragmentTextSummary.visible self + FragmentTextSummary.visible (FragmentSummary.text summary))
    (FragmentTextSummary.deleted self + FragmentTextSummary.deleted (FragmentSummary.text summary));
|}.

#[global] Instance fragment_usize_dimension : Dimension nat FragmentSummary := {|
  dim_zero := 0;
  dim_add self (summary : FragmentSummary) := self + FragmentTextSummary.visible (FragmentSummary.text summary);
|}.

(** [Option<&Locator>] *)
#[global] Instance fragment_locator_dimension : Dimension (option Locator) FragmentSummary := {|
  dim_zero := None;
  dim_add _ (summary : FragmentSummary) := Some (FragmentSummary.max_id summary);
|}.

(** [impl SeekTarget<FragmentSummary, FragmentTextSummary> for usize] *)
Definition visible_target (self : nat) : SeekTarget FragmentTextSummary :=
  λ cursor_location, cmp self (FragmentTextSummary.visible cursor_location).

(** ** Insertions *)

(** [struct InsertionFragmentKey], with the derived order *)
Module InsertionFragmentKey.
Record t := mk { timestamp : Lamport; split_offset : N }.
#[global] Instance t_eq_dec : EqDecision t.
Proof. solve_decision. Defined.
#[global] Instance t_ord : Ord t := λ self other,
  then_with (cmp (timestamp self) (timestamp other)) (cmp (split_offset self) (split_offset other)).
End InsertionFragmentKey.
Abbreviation InsertionFragmentKey := InsertionFragmentKey.t (only parsing).

#[global] Instance InsertionFragmentKey_summary : Summary InsertionFragmentKey := {|
  zero := InsertionFragmentKey.mk Lamport.MIN 0;
  add_summary _ summary := summary;
|}.

(** [struct InsertionFragment] *)
Module InsertionFragment.
Record t := mk { timestamp : Lamport; split_offset : N; fragment_id : Locator }.

Definition new (fragment : Fragment) : t :=
  mk (Fragment.timestamp fragment) (Fragment.insertion_offset fragment) (Fragment.id fragment).
Definition insert_new (fragment : Fragment) : Edit t InsertionFragmentKey := Insert (new fragment).
End InsertionFragment.
Abbreviation InsertionFragment := InsertionFragment.t (only parsing).

#[global] Instance InsertionFragment_item : Item InsertionFragment InsertionFragmentKey := λ self,
  InsertionFragmentKey.mk (InsertionFragment.timestamp self) (InsertionFragment.split_offset self).
#[global] Instance InsertionFragment_keyed : KeyedItem InsertionFragment InsertionFragmentKey := λ self,
  item_summary self.

(** [struct InsertionSlice] *)
Module InsertionSlice.
Record t := mk {
  edit_id_value : N;
  edit_id_replica_id : ReplicaId;
  insertion_id_value : N;
  insertion_id_replica_id : ReplicaId;
  range : N * N;
}.
#[global] Instance t_eq_dec : EqDecision t.
Proof. solve_decision. Defined.

#[global] Instance t_ord : Ord t := λ self other,
  then_with
    (cmp (mkLamport (edit_id_value self) (edit_id_replica_id self)) (mkLamport (edit_id_value other) (edit_id_replica_id other)))
    (then_with
      (cmp (mkLamport (insertion_id_value self) (insertion_id_replica_id self))
        (mkLamport (insertion_id_value other) (insertion_id_replica_id other)))
      (then_with (cmp (range self).1 (range other).1) (cmp (range self).2 (range other).2))).

Definition from_fragment (edit_id : Lamport) (fragment : Fragment) : option t :=
  end_ ← checked_add u32_max (Fragment.insertion_offset fragment) (Fragment.len fragment);
  Some (mk (value edit_id) (replica_id edit_id) (value (Fragment.timestamp fragment))
    (replica_id (Fragment.timestamp fragment)) (Fragment.insertion_offset fragment, end_)).
End InsertionSlice.
Abbreviation InsertionSlice := InsertionSlice.t (only parsing).
