(* ===== verification/FragmentFacts.v ===== *)
(** * The laws of fragments

    The summaries of fragments are a client of the generic tree, the insertion
    keys one of the keyed tree; here their laws are discharged. *)

From S2P Require Import Prelude Clock Locator SumTree SumTreeFacts Seek Cursor CursorFacts CursorWalk Keyed KeyedFacts UndoMap TreeMap TreeMapFacts Fragment.

(** ** Summaries *)

Lemma FragmentSummary_eq (a b : FragmentSummary) : summary_data a = summary_data b → a = b.
Proof. destruct a, b; simpl; intros <-. f_equal. apply proof_irrel. Qed.

Import GlobalFacts.

Lemma join_assoc_canonical a b c : canonical a → canonical b → canonical c →
  Global.join (Global.join a b) c = Global.join a (Global.join b c).
Proof.
  intros Ha Hb Hc. apply canonical_ext; [by auto using join_canonical..|]. intros r. rewrite !get_join. lia.
Qed.

Lemma meet_entry_assoc x y z : Global.meet_entry (Global.meet_entry x y) z = Global.meet_entry x (Global.meet_entry y z).
Proof. destruct x, y, z; unfold Global.meet_entry; simpl; try done; repeat case_match; lia. Qed.

Lemma meet_assoc_canonical a b c : canonical a → canonical b → canonical c →
  Global.meet (Global.meet a b) c = Global.meet a (Global.meet b c).
Proof.
  intros Ha Hb Hc. apply canonical_ext; [by auto using meet_canonical..|]. intros r. rewrite !get_meet. apply meet_entry_assoc.
Qed.

Lemma new_canonical : canonical Global.new.
Proof. done. Qed.

Lemma join_new_l a : canonical a → Global.join Global.new a = a.
Proof.
  intros Ha. apply canonical_ext; [by auto using join_canonical, new_canonical|done|]. intros r. rewrite get_join. by apply N.max_0_l.
Qed.

Lemma meet_new_l a : canonical a → Global.meet Global.new a = a.
Proof.
  intros Ha. apply canonical_ext; [by auto using meet_canonical, new_canonical|done|]. intros r. by rewrite get_meet.
Qed.

Lemma summary_vectors (s : FragmentSummary) :
  canonical (FragmentSummary.max_version s) ∧ canonical (FragmentSummary.min_insertion_version s) ∧
  canonical (FragmentSummary.max_insertion_version s).
Proof. exact (bool_decide_eq_true_1 _ (summary_canonical s)). Qed.

#[global] Instance FragmentSummary_laws : SummaryLaws FragmentSummary.
Proof.
  split.
  - intros a b c. apply FragmentSummary_eq. simpl. unfold FragmentSummary.add_summary. simpl.
    pose proof (summary_vectors a) as (? & ? & ?). pose proof (summary_vectors b) as (? & ? & ?). pose proof (summary_vectors c) as (? & ? & ?).
    rewrite !join_assoc_canonical, meet_assoc_canonical, !assign_spec by done. simpl. by rewrite !Nat.add_assoc.
  - intros a. apply FragmentSummary_eq. simpl. unfold FragmentSummary.add_summary. simpl.
    pose proof (summary_vectors a) as (? & ? & ?). rewrite !join_new_l, meet_new_l, assign_spec by done. simpl.
    by destruct a as [[[] ? ? ? ?] ?].
Qed.

#[global] Instance FragmentTextSummary_dimension_laws : DimensionLaws FragmentTextSummary FragmentSummary.
Proof. split. intros d a b. simpl. by rewrite !Nat.add_assoc. Qed.
#[global] Instance fragment_usize_dimension_laws : DimensionLaws nat FragmentSummary.
Proof. split. intros d a b. simpl. by rewrite Nat.add_assoc. Qed.
#[global] Instance fragment_locator_dimension_laws : DimensionLaws (option Locator) FragmentSummary.
Proof. split. intros d a b. simpl. by rewrite assign_spec. Qed.

(** ** Fragments *)

Abbreviation item_of f := (item_summary f : FragmentSummary) (only parsing).
Abbreviation total_of fs := (items_sum fs : FragmentSummary) (only parsing).

(** A timestamp a version vector can take up, and that a clock hands out. *)
Definition observable (t : Lamport) : Prop := replica_id t ≠ u16_max ∧ value t ≠ 0%N.

Lemma observe_observable g t : canonical g → observable t → ∃ g', Global.observe g t = Some g' ∧ canonical g'.
Proof.
  intros Hg [Ht _]. destruct (Global.observe g t) as [g'|] eqn:Hrun; [eauto using observe_canonical|exfalso].
  unfold Global.observe in Hrun. rewrite rassert_true in Hrun by (by apply negb_true_iff, N.eqb_neq). cbn [mbind option_bind] in Hrun.
  destruct (0 <? value t)%N; [|done].
  match type of Hrun with context [?l !! ?i] => destruct (l !! i) as [x|] eqn:Hx end; [done|].
  apply lookup_ge_None in Hx. case_decide; rewrite ?length_resize in Hx; lia.
Qed.

Definition fragment_ok (f : Fragment) : Prop :=
  observable (Fragment.timestamp f) ∧ Forall observable (Fragment.deletions f) ∧ canonical (Fragment.max_undos f).

Definition text_summary_of (f : Fragment) : FragmentTextSummary :=
  if Fragment.visible f then FragmentTextSummary.mk (N.to_nat (Fragment.len f)) 0
  else FragmentTextSummary.mk 0 (N.to_nat (Fragment.len f)).

Lemma observe_all_deletions g deletions : canonical g → Forall observable deletions →
  ∃ g', foldl (λ max_version deletion, max_version ← max_version; Global.observe max_version deletion) (Some g) deletions = Some g' ∧
    canonical g'.
Proof.
  intros Hg Hd. revert g Hg. induction Hd as [|d deletions Hd _ IH]; intros g Hg; simpl; [eauto|].
  destruct (observe_observable g d Hg Hd) as (g' & -> & Hg'). by apply IH.
Qed.

Lemma fragment_summary f : fragment_ok f →
  ∃ d, Fragment.summary f = Some d ∧ summary_data (item_of f) = d ∧
    FragmentSummary.text d = text_summary_of f ∧ FragmentSummary.max_id d = Fragment.id f.
Proof.
  intros (Hts & Hd & Hu). unfold item_summary, Fragment_item.
  destruct (observe_observable Global.new (Fragment.timestamp f) new_canonical Hts) as (g & Hg & Hcg).
  destruct (observe_all_deletions g (Fragment.deletions f) Hcg Hd) as (g' & Hg' & Hcg').
  assert (Fragment.summary f = Some (FragmentSummary.mk (text_summary_of f) (Fragment.id f)
    (Global.join g' (Fragment.max_undos f)) g g)) as ->.
  { unfold Fragment.summary. rewrite Hg. cbn [mbind option_bind]. by rewrite Hg'. }
  eexists. split; [done|]. destruct (bool_dec _ true) as [?|Hne]; [done|]. exfalso. apply Hne.
  unfold FragmentSummary.canonical. apply bool_decide_eq_true. simpl. by auto using join_canonical.
Qed.

Lemma item_text f : fragment_ok f → FragmentSummary.text (item_of f) = text_summary_of f.
Proof. intros Hf. by destruct (fragment_summary f Hf) as (d & _ & -> & -> & _). Qed.

Lemma item_id f : fragment_ok f → FragmentSummary.max_id (item_of f) = Fragment.id f.
Proof. intros Hf. by destruct (fragment_summary f Hf) as (d & _ & -> & _ & ->). Qed.

(** *** Sums *)

Implicit Types fs : list Fragment.

(** The visible, or deleted, length of fragments. *)
Definition visible_len fs : nat := sum_list (map (λ f, FragmentTextSummary.visible (text_summary_of f)) fs).
Definition deleted_len fs : nat := sum_list (map (λ f, FragmentTextSummary.deleted (text_summary_of f)) fs).

Lemma visible_len_app fs fs' : visible_len (fs ++ fs') = visible_len fs + visible_len fs'.
Proof. unfold visible_len. rewrite map_app. by rewrite sum_list_with_app. Qed.

Lemma text_after (d : FragmentTextSummary) fs : Forall fragment_ok fs →
  pos_after d fs = FragmentTextSummary.mk (FragmentTextSummary.visible d + visible_len fs)
    (FragmentTextSummary.deleted d + deleted_len fs).
Proof.
  intros Hfs. revert d. induction Hfs as [|f fs Hf _ IH]; intros [v e].
  - unfold visible_len, deleted_len. simpl. by rewrite !Nat.add_0_r.
  - change (f :: fs) with ([f] ++ fs). rewrite pos_after_app, IH. simpl.
    rewrite (item_text f) by done. unfold visible_len, deleted_len. simpl. f_equal; lia.
Qed.

Lemma usize_after (d : nat) fs : Forall fragment_ok fs → pos_after d fs = d + visible_len fs.
Proof.
  intros Hfs. revert d. induction Hfs as [|f fs Hf _ IH]; intros d.
  - unfold visible_len. simpl. by rewrite Nat.add_0_r.
  - change (f :: fs) with ([f] ++ fs). rewrite pos_after_app, IH. simpl.
    rewrite (item_text f) by done. unfold visible_len. simpl. lia.
Qed.

Lemma sum_text fs : Forall fragment_ok fs →
  FragmentSummary.text (total_of fs) = FragmentTextSummary.mk (visible_len fs) (deleted_len fs).
Proof.
  intros Hfs. destruct fs as [|f fs]; [done|].
  pose proof (dim_add_items_sum (FragmentTextSummary.zero) (f :: fs) ltac:(done)) as Hsum. rewrite text_after in Hsum by done.
  simpl in Hsum |- *. rewrite <-Hsum. by destruct (FragmentSummary.text _).
Qed.

(** The greatest id is that of the last fragment. *)
Definition last_id fs : Locator := match last fs with Some f => Fragment.id f | None => Locator.min end.

Lemma last_id_snoc fs f : last_id (fs ++ [f]) = Fragment.id f.
Proof. unfold last_id. by rewrite last_snoc. Qed.

Lemma sum_max_id fs : Forall fragment_ok fs → FragmentSummary.max_id (total_of fs) = last_id fs.
Proof.
  intros Hfs. destruct fs as [|f fs _] using rev_ind; [done|].
  pose proof (dim_add_items_sum (None : option Locator) (fs ++ [f]) ltac:(by destruct fs)) as Hsum.
  rewrite pos_after_app in Hsum. simpl in Hsum. injection Hsum as ->. apply Forall_app in Hfs as [_ [Hf _]%Forall_cons].
  by rewrite last_id_snoc, item_id.
Qed.

(** The summary a builder keeps. *)
Lemma sum_snoc fs f : add_summary (total_of fs) (item_summary f) = items_sum (fs ++ [f]).
Proof. rewrite items_sum_app by done. f_equal. symmetry. apply sum_singleton. Qed.

(** ** Insertions *)

#[global] Instance InsertionFragmentKey_ord_laws : OrdLaws InsertionFragmentKey.
Proof.
  assert (∀ a b : InsertionFragmentKey, cmp a b = cmp (InsertionFragmentKey.timestamp a, InsertionFragmentKey.split_offset a)
    (InsertionFragmentKey.timestamp b, InsertionFragmentKey.split_offset b)) as Hp by done.
  split.
  - intros a. by rewrite Hp, cmp_refl.
  - intros [] [] Heq. rewrite Hp in Heq. apply cmp_eq in Heq. naive_solver.
  - intros a b. rewrite !Hp. apply cmp_opp.
  - intros a b c. rewrite !Hp. apply cmp_lt_trans.
Qed.

#[global] Instance InsertionFragmentKey_summary_laws : SummaryLaws InsertionFragmentKey.
Proof. done. Qed.

#[global] Instance InsertionFragment_keyed_laws : KeyedItemLaws InsertionFragment InsertionFragmentKey InsertionFragmentKey.
Proof.
  split; try apply _; [|done]. intros x. unfold cmp, InsertionFragmentKey.t_ord. simpl.
  pose proof (Lamport_MIN_le (InsertionFragment.timestamp x)) as Hmin. destruct (cmp Lamport.MIN _); [|done|done].
  simpl. by destruct (InsertionFragment.split_offset x).
Qed.

Definition insertion_key (f : Fragment) : InsertionFragmentKey :=
  InsertionFragmentKey.mk (Fragment.timestamp f) (Fragment.insertion_offset f).

(** *** Slices *)

(** What the order of slices compares. *)
Definition slice_fields (s : InsertionSlice) : (Lamport * Lamport) * (N * N) :=
  (mkLamport (InsertionSlice.edit_id_value s) (InsertionSlice.edit_id_replica_id s),
   mkLamport (InsertionSlice.insertion_id_value s) (InsertionSlice.insertion_id_replica_id s), InsertionSlice.range s).

Lemma slice_cmp (a b : InsertionSlice) : cmp a b = cmp (slice_fields a) (slice_fields b).
Proof.
  destruct a as [? ? ? ? [? ?]], b as [? ? ? ? [? ?]]. unfold cmp, InsertionSlice.t_ord, slice_fields, prod_ord, cmp. simpl.
  by destruct (Lamport_ord _ _).
Qed.

#[global] Instance InsertionSlice_ord_laws : OrdLaws InsertionSlice.
Proof.
  split.
  - intros a. by rewrite slice_cmp, cmp_refl.
  - intros [] [] Heq. rewrite slice_cmp in Heq. apply cmp_eq in Heq. unfold slice_fields in Heq. simpl in Heq. naive_solver.
  - intros a b. rewrite !slice_cmp. apply cmp_opp.
  - intros a b c. rewrite !slice_cmp. apply cmp_lt_trans.
Qed.
