(* ===== verification/Snapshot.v ===== *)
(** * Snapshots of a buffer and local edits ([crates/text/src/text.rs])

    A snapshot holds the visible text, the deleted text and the tree of fragments
    that says how the two interleave.  [apply_edit_internal] walks the old
    fragments once and builds the new fragments, the new texts, the patch and the
    operation to send. *)

From S2P Require Import Prelude Clock Locator SumTree SumTreeFacts Cursor Keyed UndoMap TreeMap Patch Points Utf8 RopeTree Rope LineEnding Operation Fragment.

(** Outside of tests *)
Definition MAX_INSERTION_LEN : N := u32_max.
#[global] Arguments MAX_INSERTION_LEN : simpl never.

(** [enum FragmentChunk] *)
Inductive FragmentChunk :=
  | Tree (tree : SumTree Fragment FragmentSummary)
  | Loose (fragments : list Fragment).

Module FragmentBuilder.
Record t := mk { chunks : list FragmentChunk; summary : FragmentSummary }.
Implicit Types self : t.

Definition new (init : SumTree Fragment FragmentSummary) : t :=
  mk (if SumTree.is_empty init then [] else [Tree init]) (SumTree.summary init).

Definition append self (items : SumTree Fragment FragmentSummary) : t :=
  if SumTree.is_empty items then self
  else mk (chunks self ++ [Tree items]) (SumTree.add_summary (summary self) (SumTree.summary items)).

(** Panics when the summary of the fragment does. *)
Definition push self (fragment : Fragment) : option t :=
  _ ← Fragment.summary fragment;
  Some (mk (match last (chunks self) with
            | Some (Loose fragments) => take (length (chunks self) - 1) (chunks self) ++ [Loose (fragments ++ [fragment])]
            | _ => chunks self ++ [Loose [fragment]]
            end) (SumTree.add_summary (summary self) (item_summary fragment))).

Fixpoint append_chunks (tree : SumTree Fragment FragmentSummary) (chunks : list FragmentChunk) :
    option (SumTree Fragment FragmentSummary) :=
  match chunks with
  | [] => Some tree
  | Tree subtree :: chunks => tree ← SumTree.append tree subtree; append_chunks tree chunks
  | Loose fragments :: chunks =>
      subtree ← (if 1024 <? length fragments then SumTree.from_par_iter fragments else SumTree.from_iter fragments);
      tree ← SumTree.append tree subtree; append_chunks tree chunks
  end.

Definition to_sum_tree self : option (SumTree Fragment FragmentSummary) := append_chunks SumTree.new (chunks self).
End FragmentBuilder.
Abbreviation FragmentBuilder := FragmentBuilder.t (only parsing).

Module RopeBuilder.
Record t := mk {
  old_visible_cursor : Rope.RopeCursor.t;
  old_deleted_cursor : Rope.RopeCursor.t;
  new_visible : Rope;
  new_deleted : Rope;
}.
Implicit Types self : t.

Definition new (old_visible_cursor old_deleted_cursor : Rope.RopeCursor.t) : t :=
  mk old_visible_cursor old_deleted_cursor Rope.new Rope.new.

Definition push self (len : nat) (was_visible is_visible : bool) : option t :=
  '(text, self) ←
    (if was_visible then
       '(text, cursor) ← Rope.RopeCursor.slice (old_visible_cursor self) (Rope.RopeCursor.offset (old_visible_cursor self) + len);
       Some (text, mk cursor (old_deleted_cursor self) (new_visible self) (new_deleted self))
     else
       '(text, cursor) ← Rope.RopeCursor.slice (old_deleted_cursor self) (Rope.RopeCursor.offset (old_deleted_cursor self) + len);
       Some (text, mk (old_visible_cursor self) cursor (new_visible self) (new_deleted self)));
  if is_visible then
    new_visible ← Rope.append (new_visible self) text;
    Some (mk (old_visible_cursor self) (old_deleted_cursor self) new_visible (new_deleted self))
  else
    new_deleted ← Rope.append (new_deleted self) text;
    Some (mk (old_visible_cursor self) (old_deleted_cursor self) (new_visible self) new_deleted).

Definition append self (len : FragmentTextSummary) : option t :=
  self ← push self (FragmentTextSummary.visible len) true true;
  push self (FragmentTextSummary.deleted len) false false.

Definition push_fragment self (fragment : Fragment) (was_visible : bool) : option t :=
  _ ← rassert (0 <? Fragment.len fragment)%N;
  push self (N.to_nat (Fragment.len fragment)) was_visible (Fragment.visible fragment).

Definition push_str self (text : str) : option t :=
  new_visible ← Rope.push (new_visible self) text;
  Some (mk (old_visible_cursor self) (old_deleted_cursor self) new_visible (new_deleted self)).

Definition finish self : option (Rope * Rope) :=
  visible_suffix ← Rope.RopeCursor.suffix (old_visible_cursor self);
  new_visible ← Rope.append (new_visible self) visible_suffix;
  deleted_suffix ← Rope.RopeCursor.suffix (old_deleted_cursor self);
  new_deleted ← Rope.append (new_deleted self) deleted_suffix;
  Some (new_visible, new_deleted).
End RopeBuilder.
Abbreviation RopeBuilder := RopeBuilder.t (only parsing).

(** What an edit builds, apart from the old fragments it has yet to see. *)
Record Build := mkBuild {
  new_fragments : FragmentBuilder;
  new_ropes : RopeBuilder;
  new_insertions : list (Keyed.Edit InsertionFragment InsertionFragmentKey);
  insertion_slices : list InsertionSlice;
  insertion_offset : N;
  edits_patch : Patch.t;
}.

Module Build.
Implicit Types self : Build.

Definition max_id self : Locator := FragmentSummary.max_id (FragmentBuilder.summary (new_fragments self)).
Definition new_visible_len self : nat :=
  FragmentTextSummary.visible (FragmentSummary.text (FragmentBuilder.summary (new_fragments self))).

(** The three statements that every rewritten fragment goes through. *)
Definition push_fragment self (fragment : Fragment) (was_visible : bool) : option Build :=
  let new_insertions := new_insertions self ++ [InsertionFragment.insert_new fragment] in
  new_ropes ← RopeBuilder.push_fragment (new_ropes self) fragment was_visible;
  new_fragments ← FragmentBuilder.push (new_fragments self) fragment;
  Some (mkBuild new_fragments new_ropes new_insertions (insertion_slices self) (insertion_offset self) (edits_patch self)).

(** The two statements for a part of the old tree. *)
Definition append self (slice : SumTree Fragment FragmentSummary) : option Build :=
  new_ropes ← RopeBuilder.append (new_ropes self) (FragmentSummary.text (SumTree.summary slice));
  Some (mkBuild (FragmentBuilder.append (new_fragments self) slice) new_ropes (new_insertions self)
    (insertion_slices self) (insertion_offset self) (edits_patch self)).

Definition push_edit self (old new : Range) : Build :=
  mkBuild (new_fragments self) (new_ropes self) (new_insertions self) (insertion_slices self) (insertion_offset self)
    (Patch.push (edits_patch self) (Patch.Edit.mk old new)).

Definition push_slice self (edit_id : Lamport) (fragment : Fragment) : option Build :=
  slice ← InsertionSlice.from_fragment edit_id fragment;
  Some (mkBuild (new_fragments self) (new_ropes self) (new_insertions self) (insertion_slices self ++ [slice])
    (insertion_offset self) (edits_patch self)).

(** The loop of [push_fragments_for_insertion]: every iteration but one that
    breaks takes a part of the text. *)
Fixpoint insertion_loop (fuel : nat) (new_text : str) (timestamp : Lamport) (next_fragment_id : Locator)
    (edit_timestamp : Lamport) (text_offset : nat) self : option Build :=
  let len := Str.len new_text in
  if text_offset <? len then
    match fuel with
    | 0 => None
    | S fuel =>
        let target_end :=
          if (N.of_nat (len - text_offset) <=? MAX_INSERTION_LEN)%N then len
          else text_offset + N.to_nat MAX_INSERTION_LEN in
        let chunk_end := if target_end =? len then target_end else Str.floor_char_boundary new_text target_end in
        if chunk_end =? text_offset then Some self
        else
          chunk_len ← checked_sub_nat chunk_end text_offset;
          id ← Locator.between (max_id self) next_fragment_id;
          let fragment := Fragment.mk id timestamp (insertion_offset self) (as_u32 chunk_len) true [] Global.new in
          self ← push_slice self edit_timestamp fragment;
          let new_insertions := new_insertions self ++ [InsertionFragment.insert_new fragment] in
          new_fragments ← FragmentBuilder.push (new_fragments self) fragment;
          insertion_offset ← checked_add u32_max (insertion_offset self) (as_u32 chunk_len);
          insertion_loop fuel new_text timestamp next_fragment_id edit_timestamp chunk_end
            (mkBuild new_fragments (new_ropes self) new_insertions (insertion_slices self) insertion_offset (edits_patch self))
    end
  else Some self.

Definition push_fragments_for_insertion self (new_text : str) (timestamp : Lamport) (next_fragment_id : Locator)
    (edit_timestamp : Lamport) : option Build :=
  self ← insertion_loop (Str.len new_text) new_text timestamp next_fragment_id edit_timestamp 0 self;
  new_ropes ← RopeBuilder.push_str (new_ropes self) new_text;
  Some (mkBuild (new_fragments self) new_ropes (new_insertions self) (insertion_slices self) (insertion_offset self)
    (edits_patch self)).
End Build.

(** [struct BufferSnapshot] *)
Record BufferSnapshot := mkSnapshot {
  visible_text : Rope;
  deleted_text : Rope;
  fragments : SumTree Fragment FragmentSummary;
  insertions : SumTree InsertionFragment InsertionFragmentKey;
  snapshot_slices : @TreeSet.t InsertionSlice;
  undo_map : UndoMap.t;
  snapshot_version : Global;
  snapshot_remote_id : N;
  snapshot_replica_id : ReplicaId;
  snapshot_line_ending : LineEnding;
}.

Module BufferSnapshot.
Section edit.
Context `{LineSeparators} (timestamp : Lamport).
Implicit Types self : BufferSnapshot.

Abbreviation FragmentCursor := (Cursor.t Fragment FragmentSummary FragmentTextSummary) (only parsing).

(** The variables of the loop over the edits. *)
Record edit_state := mkEdit {
  old_fragments : FragmentCursor;
  fragment_start : nat;
  build : Build;
  ranges : list Range;
  new_texts : list str;
}.
Implicit Types st : edit_state.

Definition start_visible st : nat := FragmentTextSummary.visible (Cursor.start (old_fragments st)).
Definition end_visible st : option nat := end_ ← Cursor.end_ (old_fragments st); Some (FragmentTextSummary.visible end_).

(** [old_fragments.item().unwrap()] *)
Definition item st : option Fragment := item ← Cursor.item (old_fragments st); item.

(** [len] and [insertion_offset] of the part of a fragment between two offsets. *)
Definition part st (fragment : Fragment) (end_ : nat) : option Fragment :=
  len ← checked_sub_nat end_ (fragment_start st);
  skipped ← checked_sub_nat (fragment_start st) (start_visible st);
  offset ← checked_add u32_max (Fragment.insertion_offset fragment) (as_u32 skipped);
  Some (Fragment.set_range fragment offset (as_u32 len)).

Definition with_build st (build : Build) : edit_state :=
  mkEdit (old_fragments st) (fragment_start st) build (ranges st) (new_texts st).
Definition with_start st (fragment_start : nat) : edit_state :=
  mkEdit (old_fragments st) fragment_start (build st) (ranges st) (new_texts st).
Definition with_cursor st (old_fragments : FragmentCursor) : edit_state :=
  mkEdit old_fragments (fragment_start st) (build st) (ranges st) (new_texts st).

(** The rest of a fragment that has been consumed in part. *)
Definition finish_fragment st : option edit_state :=
  if start_visible st <? fragment_start st then
    fragment_end ← end_visible st;
    st ←
      (if fragment_start st <? fragment_end then
         suffix ← item st;
         suffix ← part st suffix fragment_end;
         build ← Build.push_fragment (build st) suffix (Fragment.visible suffix);
         Some (with_build st build)
       else Some st);
    old_fragments ← Cursor.next (old_fragments st);
    Some (with_cursor st old_fragments)
  else Some st.

(** To the fragment an edit starts in. *)
Definition seek_start st (start : nat) : option edit_state :=
  fragment_end ← end_visible st;
  if fragment_end <? start then
    st ← finish_fragment st;
    '(slice, old_fragments) ← Cursor.slice (visible_target start) Right (old_fragments st);
    build ← Build.append (build st) slice;
    let st := with_cursor (with_build st build) old_fragments in
    Some (with_start st (start_visible st))
  else Some st.

(** The part of the fragment in front of the edit. *)
Definition push_prefix st (start : nat) : option edit_state :=
  if fragment_start st <? start then
    prefix ← item st;
    prefix ← part st prefix start;
    id ← Locator.between (Build.max_id (build st)) (Fragment.id prefix);
    let prefix := Fragment.set_id prefix id in
    build ← Build.push_fragment (build st) prefix (Fragment.visible prefix);
    Some (with_start (with_build st build) start)
  else Some st.

Definition push_insertion st (new_text : str) : option edit_state :=
  match new_text with
  | [] => Some st
  | _ :: _ =>
      let new_start := Build.new_visible_len (build st) in
      old_fragment ← Cursor.item (old_fragments st);
      let next_fragment_id := match old_fragment with Some old_fragment => Fragment.id old_fragment | None => Locator.max end in
      build ← Build.push_fragments_for_insertion (build st) new_text timestamp next_fragment_id timestamp;
      let build := Build.push_edit build (Range.mk (fragment_start st) (fragment_start st))
                     (Range.mk new_start (new_start + Str.len new_text)) in
      Some (with_build st build)
  end.

(** The body of the loop that marks the intersecting fragments as deleted. *)
Definition delete_step st (end_ : nat) : option edit_state :=
  fragment ← item st;
  fragment_end ← end_visible st;
  let intersection_end := Nat.min end_ fragment_end in
  intersection ←
    (if Fragment.visible fragment then
       intersection ← part st fragment intersection_end;
       id ← Locator.between (Build.max_id (build st)) (Fragment.id intersection);
       let intersection := Fragment.set_id intersection id in
       let intersection := Fragment.set_deletions intersection (Fragment.deletions intersection ++ [timestamp]) in
       Some (Fragment.set_visible intersection false)
     else Some fragment);
  st ←
    (if (0 <? Fragment.len intersection)%N then
       build ←
         (if Fragment.visible fragment && negb (Fragment.visible intersection) then
            let new_start := Build.new_visible_len (build st) in
            Build.push_slice
              (Build.push_edit (build st) (Range.mk (fragment_start st) intersection_end) (Range.mk new_start new_start))
              timestamp intersection
          else Some (build st));
       build ← Build.push_fragment build intersection (Fragment.visible fragment);
       Some (with_start (with_build st build) intersection_end)
     else Some st);
  if fragment_end <=? end_ then
    old_fragments ← Cursor.next (old_fragments st); Some (with_cursor st old_fragments)
  else Some st.

Fixpoint delete_loop (fuel : nat) st (end_ : nat) : option edit_state :=
  if fragment_start st <? end_ then
    match fuel with 0 => None | S fuel => st ← delete_step st end_; delete_loop fuel st end_ end
  else Some st.

(** The body of the loop over the edits; every iteration of the loop inside
    leaves a fragment or is the last. *)
Definition edit_step self st (edit : Range * str) : option edit_state :=
  let '(range, new_text) := edit in
  let new_text := LineEnding.normalize_arc new_text in
  st ← seek_start st (Range.start range);
  let full_range_start := Range.start range + FragmentTextSummary.deleted (Cursor.start (old_fragments st)) in
  st ← push_prefix st (Range.start range);
  st ← push_insertion st new_text;
  st ← delete_loop (S (length (to_list (fragments self)))) st (Range.end_ range);
  let full_range_end := Range.end_ range + FragmentTextSummary.deleted (Cursor.start (old_fragments st)) in
  Some (mkEdit (old_fragments st) (fragment_start st) (build st)
    (ranges st ++ [Range.mk full_range_start full_range_end]) (new_texts st ++ [new_text])).

Fixpoint edit_loop self st (edits : list (Range * str)) : option edit_state :=
  match edits with [] => Some st | edit :: edits => st ← edit_step self st edit; edit_loop self st edits end.

(** What the loop starts from. *)
Definition edit_init self (start : nat) : option edit_state :=
  visible_cursor ← Rope.cursor (visible_text self) 0;
  deleted_cursor ← Rope.cursor (deleted_text self) 0;
  let new_ropes := RopeBuilder.new visible_cursor deleted_cursor in
  let old_fragments : FragmentCursor := Cursor.new (fragments self) in
  '(slice, old_fragments) ← Cursor.slice (visible_target start) Right old_fragments;
  let new_fragments := FragmentBuilder.new slice in
  new_ropes ← RopeBuilder.append new_ropes (FragmentSummary.text (FragmentBuilder.summary new_fragments));
  Some (mkEdit old_fragments (FragmentTextSummary.visible (Cursor.start old_fragments))
    (mkBuild new_fragments new_ropes [] [] 0 Patch.empty) [] []).

(** The fragments behind the last edit, and the new snapshot. *)
Definition edit_finish self st : option (BufferSnapshot * Patch.t) :=
  st ← finish_fragment st;
  '(suffix, _) ← Cursor.suffix (old_fragments st);
  build ← Build.append (build st) suffix;
  '(visible_text, deleted_text) ← RopeBuilder.finish (new_ropes build);
  fragments ← FragmentBuilder.to_sum_tree (new_fragments build);
  '(_, insertions) ← Keyed.edit (K:=InsertionFragmentKey) (insertions self) (new_insertions build);
  insertion_slices ← TreeSet.extend (snapshot_slices self) (insertion_slices build);
  Some (mkSnapshot visible_text deleted_text fragments insertions insertion_slices (undo_map self)
    (snapshot_version self) (snapshot_remote_id self) (snapshot_replica_id self) (snapshot_line_ending self),
    edits_patch build).

Definition apply_edit_internal self (edits : list (Range * str)) :
    option (BufferSnapshot * EditOperation * Patch.t) :=
  match edits with
  | [] => Some (self, EditOperation.mk timestamp (snapshot_version self) [] [], Patch.empty)
  | (range, _) :: _ =>
      st ← edit_init self (Range.start range);
      st ← edit_loop self st edits;
      '(self', edits_patch) ← edit_finish self st;
      Some (self', EditOperation.mk timestamp (snapshot_version self) (ranges st) (new_texts st), edits_patch)
  end.
End edit.
End BufferSnapshot.
