(* ===== verification/EditSpec.v ===== *)
(** * What a local edit means

    The specification of a buffer's snapshot: the sequence of all characters ever
    inserted, each with the insertion and the offset it comes from and with what
    became of it.  Fragments are runs of such atoms; how the atoms are cut into
    fragments, and the ids of the fragments, carry no meaning. *)

From S2P Require Import Prelude Clock Locator SumTree SumTreeFacts Seek Cursor CursorFacts CursorWalk Keyed KeyedFacts UndoMap TreeMap TreeMapFacts Patch PatchFacts Utf8 TextSummary RopeTree Rope RopeFacts RopeCut Fragment FragmentFacts Snapshot.

(** A character of the buffer. *)
Record Atom := mkAtom {
  atom_insertion : Lamport;
  atom_offset : N;
  atom_char : char;
  atom_visible : bool;
  atom_deletions : list Lamport;
  atom_undos : Global;
}.

Implicit Types (A : list Atom) (f : Fragment) (s t : str).

Definition visible_of A : str := map atom_char (filter (λ a, atom_visible a = true) A).
Definition deleted_of A : str := map atom_char (filter (λ a, atom_visible a = false) A).
Definition full_of A : str := map atom_char A.

(** The bytes an atom stands for: no byte of an insertion is there twice. *)
Definition atom_bytes (a : Atom) : list (Lamport * N) :=
  map (λ i, (atom_insertion a, atom_offset a + N.of_nat i)%N) (seq 0 (len_utf8 (atom_char a))).
Definition bytes_of A : list (Lamport * N) := concat (map atom_bytes A).

(** *** Pieces: fragments with their texts *)

Abbreviation piece := (Fragment * str)%type (only parsing).
Implicit Types (p : piece) (L B R : list piece).

Fixpoint atoms_from f (offset : N) s : list Atom :=
  match s with
  | [] => []
  | c :: s =>
      mkAtom (Fragment.timestamp f) offset c (Fragment.visible f) (Fragment.deletions f) (Fragment.max_undos f) ::
      atoms_from f (offset + N.of_nat (len_utf8 c)) s
  end.

Definition atoms_of p : list Atom := atoms_from p.1 (Fragment.insertion_offset p.1) p.2.
Definition atoms L : list Atom := concat (map atoms_of L).

Record whole p : Prop := {
  whole_fragment : fragment_ok p.1;
  whole_text : str_ok p.2;
  whole_len : Fragment.len p.1 = N.of_nat (Str.len p.2);
  whole_nonempty : p.2 ≠ [];
  whole_offset : (Fragment.insertion_offset p.1 + N.of_nat (Str.len p.2) <= u32_max)%N;
}.

(** *** Ids *)

Definition id_ok (id : Locator) : Prop :=
  digits_ok id ∧ proper id ∧ cmp Locator.min id = Lt ∧ cmp id Locator.max = Lt.

Definition ids_ok (ids : list Locator) : Prop := Forall id_ok ids ∧ StronglySorted (λ a b, cmp a b = Lt) ids.

Definition ids_of L : list Locator := map (λ p, Fragment.id p.1) L.

(** *** Slices *)

(** The base text of a buffer is inserted at this time, which cannot be undone. *)
Definition base_timestamp : Lamport := Lamport.new LOCAL.

(** The edits that made an atom what it is. *)
Definition names (id : Lamport) (a : Atom) : Prop :=
  id ≠ base_timestamp ∧ (id = atom_insertion a ∨ id ∈ atom_deletions a).

Definition slice_covers (slice : InsertionSlice) (id : Lamport) (a : Atom) : Prop :=
  mkLamport (InsertionSlice.edit_id_value slice) (InsertionSlice.edit_id_replica_id slice) = id ∧
  mkLamport (InsertionSlice.insertion_id_value slice) (InsertionSlice.insertion_id_replica_id slice) = atom_insertion a ∧
  ((InsertionSlice.range slice).1 <= atom_offset a)%N ∧
  (atom_offset a + N.of_nat (len_utf8 (atom_char a)) <= (InsertionSlice.range slice).2)%N.

(** The set of slices finds the atoms an edit inserted or deleted. *)
Definition covered (slices : @TreeSet.t InsertionSlice) A : Prop := ∀ a id, a ∈ A → names id a →
  ∃ slice, TreeSet.contains slices slice = true ∧ slice_covers slice id a.

(** Where a slice starts. *)
Definition slice_key (slice : InsertionSlice) : InsertionFragmentKey :=
  InsertionFragmentKey.mk (mkLamport (InsertionSlice.insertion_id_value slice) (InsertionSlice.insertion_id_replica_id slice))
    (InsertionSlice.range slice).1.

(** What the undo map says of an atom. *)
Definition shown (undos : UndoMap.t) (a : Atom) : option bool :=
  undone ← UndoMap.is_undone undos (atom_insertion a);
  if (undone : bool) then Some false else Fragment.all_undone undos (atom_deletions a).

(** ** Snapshots *)

(** The snapshot consists of the pieces. *)
Record snapshot_ok (self : BufferSnapshot) L : Prop := {
  ok_tree : tree_ok (fragments self);
  ok_list : to_list (fragments self) = map fst L;
  ok_whole : Forall whole L;
  ok_locators : ids_ok (ids_of L);
  ok_bytes : NoDup (bytes_of (atoms L));
  ok_visible : holds (visible_text self) (visible_of (atoms L));
  ok_deleted : holds (deleted_text self) (deleted_of (atoms L));
  ok_insertions : tree_ok (insertions self) ∧ sorted (K:=InsertionFragmentKey) (to_list (insertions self));
  ok_insertion x : x ∈ to_list (insertions self) ↔ x ∈ map (λ p, InsertionFragment.new p.1) L;
  ok_slices : tree_ok (snapshot_slices self) ∧ keys_sorted (to_list (snapshot_slices self));
  ok_covered : covered (snapshot_slices self) (atoms L);
  ok_starts slice : TreeSet.contains (snapshot_slices self) slice = true → slice_key slice ∈ map (λ p, insertion_key p.1) L;
  ok_undos : tree_ok (undo_map self) ∧ sorted (K:=UndoMapKey) (to_list (undo_map self));
  ok_shown a : a ∈ atoms L → shown (undo_map self) a = Some (atom_visible a);
}.

(** The trees are not higher than a cursor's path, and the texts below 4 GiB. *)
Record snapshot_fits (self : BufferSnapshot) : Prop := {
  fits_fragments : Node.height (fragments self) < STACK_CAPACITY;
  fits_visible : replaceable (visible_text self);
  fits_deleted : replaceable (deleted_text self);
  fits_insertions : Node.height (insertions self) < STACK_CAPACITY;
  fits_slices : Node.height (snapshot_slices self) < STACK_CAPACITY;
  fits_undos : Node.height (undo_map self) < STACK_CAPACITY;
  fits_visible_len : (N.of_nat (Rope.len (visible_text self)) <= u32_max)%N;
  fits_deleted_len : (N.of_nat (Rope.len (deleted_text self)) <= u32_max)%N;
}.

(** The texts of the atoms are short enough for their summaries. *)
Definition texts_fit A : Prop := text_fits (visible_of A) ∧ text_fits (deleted_of A).

(** No sum in the trees of the two texts overflows. *)
Definition texts_checked (self : BufferSnapshot) : Prop :=
  sums_checked (chunks (visible_text self)) = true ∧ sums_checked (chunks (deleted_text self)) = true.

Lemma snapshot_texts_checked self L : snapshot_ok self L → texts_fit (atoms L) → texts_checked self.
Proof.
  intros Hok [Hv Hd]. split; [exact (holds_sums_checked _ _ (ok_visible _ _ Hok) Hv)|exact (holds_sums_checked _ _ (ok_deleted _ _ Hok) Hd)].
Qed.

Lemma snapshot_texts_fit self L : snapshot_ok self L → snapshot_fits self → texts_fit (atoms L).
Proof.
  intros Hok Hfits. unfold texts_fit, text_fits. rewrite <-(holds_len _ _ (ok_visible _ _ Hok)), <-(holds_len _ _ (ok_deleted _ _ Hok)).
  split; apply Hfits.
Qed.

(** ** Edits *)

Section edits.
Context (timestamp : Lamport).

(** The atom, marked as deleted by the edit. *)
Definition struck (a : Atom) : Atom :=
  mkAtom (atom_insertion a) (atom_offset a) (atom_char a) false (atom_deletions a ++ [timestamp]) (atom_undos a).

(** A visible atom is deleted. *)
Definition kill (a : Atom) : Atom := if atom_visible a then struck a else a.

(** The atoms of the text an edit inserts, from an offset of its insertion. *)
Definition new_fragment : Fragment := Fragment.mk [] timestamp 0 0 true [] Global.new.
Definition inserted (offset : N) s : list Atom := atoms_from new_fragment offset s.

(** [edited pos full offset A edits A' ranges]: the edits, whose ranges are offsets
    in the visible text behind [pos], turn the atoms [A] into [A']; [ranges] are
    those of the text with the deleted parts, behind [full], and the inserted
    texts take up the insertion from [offset]. *)
Fixpoint edited (pos full : nat) (offset : N) A (edits : list (Range * str)) A' (ranges : list Range) : Prop :=
  match edits, ranges with
  | [], [] => A' = A
  | (range, text) :: edits, full_range :: ranges => ∃ gap replaced rest rest',
      A = gap ++ replaced ++ rest ∧ A' = gap ++ inserted offset text ++ map kill replaced ++ rest' ∧
      Range.start range = pos + Str.len (visible_of gap) ∧
      Range.end_ range = Range.start range + Str.len (visible_of replaced) ∧
      Range.start full_range = full + Str.len (full_of gap) ∧
      Range.end_ full_range = Range.start full_range + Str.len (full_of replaced) ∧
      edited (Range.end_ range) (Range.end_ full_range) (offset + N.of_nat (Str.len text)) rest edits rest' ranges
  | _, _ => False
  end.
End edits.

(** The same for a text: [s] becomes [s']. *)
Fixpoint replaced_by (pos : nat) s (edits : list (Range * str)) s' : Prop :=
  match edits with
  | [] => s' = s
  | (range, text) :: edits => ∃ gap old rest rest',
      s = gap ++ old ++ rest ∧ s' = gap ++ text ++ rest' ∧
      Range.start range = pos + Str.len gap ∧ Range.end_ range = Range.start range + Str.len old ∧
      replaced_by (Range.end_ range) rest edits rest'
  end.

(** Ranges in order, on character boundaries of the text. *)
Fixpoint edits_within (pos : nat) s (edits : list (Range * str)) : Prop :=
  match edits with
  | [] => True
  | (range, _) :: edits => ∃ gap old rest,
      s = gap ++ old ++ rest ∧
      Range.start range = pos + Str.len gap ∧ Range.end_ range = Range.start range + Str.len old ∧
      edits_within (Range.end_ range) rest edits
  end.

(** ** Facts *)

Lemma visible_of_app A A' : visible_of (A ++ A') = visible_of A ++ visible_of A'.
Proof. unfold visible_of. by rewrite filter_app, map_app. Qed.

Lemma deleted_of_app A A' : deleted_of (A ++ A') = deleted_of A ++ deleted_of A'.
Proof. unfold deleted_of. by rewrite filter_app, map_app. Qed.

Lemma full_of_app A A' : full_of (A ++ A') = full_of A ++ full_of A'.
Proof. apply map_app. Qed.

Lemma bytes_of_app A A' : bytes_of (A ++ A') = bytes_of A ++ bytes_of A'.
Proof. unfold bytes_of. by rewrite map_app, concat_app. Qed.

Lemma full_len A : Str.len (full_of A) = Str.len (visible_of A) + Str.len (deleted_of A).
Proof.
  unfold full_of, visible_of, deleted_of. induction A as [|a A IH]; [done|]. cbn [map]. rewrite Str_len_cons, IH.
  destruct (atom_visible a) eqn:Ha.
  - rewrite filter_cons_True, filter_cons_False by congruence. cbn [map]. rewrite Str_len_cons. lia.
  - rewrite filter_cons_False, filter_cons_True by congruence. cbn [map]. rewrite Str_len_cons. lia.
Qed.

Lemma atoms_app L L' : atoms (L ++ L') = atoms L ++ atoms L'.
Proof. unfold atoms. by rewrite map_app, concat_app. Qed.

Lemma atoms_cons p L : atoms (p :: L) = atoms_of p ++ atoms L.
Proof. done. Qed.

Lemma atoms_one p : atoms [p] = atoms_of p.
Proof. unfold atoms. simpl. apply app_nil_r. Qed.

Lemma atoms_from_app f offset s t :
  atoms_from f offset (s ++ t) = atoms_from f offset s ++ atoms_from f (offset + N.of_nat (Str.len s)) t.
Proof.
  revert offset. induction s as [|c s IH]; intros offset; simpl; [by rewrite N.add_0_r|]. rewrite IH. do 3 f_equal.
  rewrite Str_len_cons. lia.
Qed.

Lemma atoms_from_ext f f' offset s : Fragment.timestamp f = Fragment.timestamp f' → Fragment.visible f = Fragment.visible f' →
  Fragment.deletions f = Fragment.deletions f' → Fragment.max_undos f = Fragment.max_undos f' →
  atoms_from f offset s = atoms_from f' offset s.
Proof. intros H1 H2 H3 H4. revert offset. induction s as [|c s IH]; intros offset; simpl; [done|]. by rewrite H1, H2, H3, H4, IH. Qed.

Lemma visible_of_atoms_from f offset s : visible_of (atoms_from f offset s) = if Fragment.visible f then s else [].
Proof.
  unfold visible_of. revert offset. induction s as [|c s IH]; intros offset; simpl; [by destruct (Fragment.visible f)|].
  rewrite filter_cons. simpl. specialize (IH (offset + N.of_nat (len_utf8 c))%N). destruct (Fragment.visible f); simpl; by rewrite IH.
Qed.

Lemma deleted_of_atoms_from f offset s : deleted_of (atoms_from f offset s) = if Fragment.visible f then [] else s.
Proof.
  unfold deleted_of. revert offset. induction s as [|c s IH]; intros offset; simpl; [by destruct (Fragment.visible f)|].
  rewrite filter_cons. simpl. specialize (IH (offset + N.of_nat (len_utf8 c))%N). destruct (Fragment.visible f); simpl; by rewrite IH.
Qed.

Lemma visible_of_atoms_of p : visible_of (atoms_of p) = if Fragment.visible p.1 then p.2 else [].
Proof. apply visible_of_atoms_from. Qed.

Lemma deleted_of_atoms_of p : deleted_of (atoms_of p) = if Fragment.visible p.1 then [] else p.2.
Proof. apply deleted_of_atoms_from. Qed.

(** Lengths the tree of fragments sums up. *)
Lemma visible_len_pieces L : Forall whole L → visible_len (map fst L) = Str.len (visible_of (atoms L)).
Proof.
  unfold visible_len. induction 1 as [|p L Hp _ IH]; [done|]. simpl. rewrite IH, atoms_cons, visible_of_app, Str_len_app.
  f_equal. rewrite visible_of_atoms_of. unfold text_summary_of. rewrite (whole_len p Hp).
  destruct (Fragment.visible p.1); simpl; [lia|done].
Qed.

Lemma deleted_len_pieces L : Forall whole L → deleted_len (map fst L) = Str.len (deleted_of (atoms L)).
Proof.
  unfold deleted_len. induction 1 as [|p L Hp _ IH]; [done|]. simpl. rewrite IH, atoms_cons, deleted_of_app, Str_len_app.
  f_equal. rewrite deleted_of_atoms_of. unfold text_summary_of. rewrite (whole_len p Hp).
  destruct (Fragment.visible p.1); simpl; [done|lia].
Qed.

Lemma whole_fragments L : Forall whole L → Forall fragment_ok (map fst L).
Proof. intros HL. rewrite Forall_map. eapply Forall_impl; [exact HL|]. by intros p Hp; apply Hp. Qed.

(** *** Building up [edited] from the left *)

Section edited.
Context (timestamp : Lamport).

Let edited := edited timestamp.
Let inserted := inserted timestamp.
Let kill := kill timestamp.

(** The length of the inserted texts. *)
Definition inserted_len (edits : list (Range * str)) : nat := sum_list (map (λ e : Range * str, Str.len e.2) edits).

Lemma inserted_len_snoc edits e : inserted_len (edits ++ [e]) = inserted_len edits + Str.len e.2.
Proof. unfold inserted_len. rewrite map_app. rewrite sum_list_with_app. simpl. lia. Qed.

Lemma edited_gap pos full offset A edits A' ranges K :
  edited pos full offset A edits A' ranges → edited pos full offset (A ++ K) edits (A' ++ K) ranges.
Proof.
  revert pos full offset A A' ranges. induction edits as [|[range text] edits IH]; intros pos full offset A A' [|fr ranges]; simpl; try done.
  { by intros ->. }
  intros (gap & replaced & rest & rest' & -> & -> & ? & ? & ? & ? & Hrest). exists gap, replaced, (rest ++ K), (rest' ++ K).
  rewrite <-!app_assoc. split_and!; [done..|by apply IH].
Qed.

Lemma edited_snoc pos full offset A edits A' ranges M range text fr :
  edited pos full offset A edits A' ranges →
  Range.start range = pos + Str.len (visible_of A) → Range.end_ range = Range.start range + Str.len (visible_of M) →
  Range.start fr = full + Str.len (full_of A) → Range.end_ fr = Range.start fr + Str.len (full_of M) →
  edited pos full offset (A ++ M) (edits ++ [(range, text)])
    (A' ++ inserted (offset + N.of_nat (inserted_len edits)) text ++ map kill M) (ranges ++ [fr]).
Proof.
  revert pos full offset A A' ranges. induction edits as [|[range0 text0] edits IH]; intros pos full offset A A' [|fr0 ranges]; simpl; try done.
  - intros -> H1 H2 H3 H4. exists A, M, [], []. rewrite N.add_0_r, !app_nil_r. by split_and!.
  - intros (gap & replaced & rest & rest' & -> & -> & G1 & G2 & G3 & G4 & Hrest) H1 H2 H3 H4.
    exists gap, replaced, (rest ++ M), (rest' ++ inserted (offset + N.of_nat (inserted_len ((range0, text0) :: edits))) text ++ map kill M).
    rewrite <-!app_assoc. split_and!; [done..|].
    rewrite !visible_of_app, !Str_len_app in H1. rewrite !full_of_app, !Str_len_app in H3.
    pose proof (IH (Range.end_ range0) (Range.end_ fr0) (offset + N.of_nat (Str.len text0))%N rest rest' ranges Hrest) as Hs.
    unfold inserted_len in *. simpl in *.
    rewrite Nat2N.inj_add, N.add_assoc. apply Hs; lia.
Qed.

(** What an edit means for the visible text. *)
Lemma visible_of_struck A : visible_of (map (struck timestamp) A) = [].
Proof. unfold visible_of. induction A as [|a A IH]; [done|]. cbn [map]. by rewrite filter_cons_False. Qed.

Lemma visible_of_kill A : visible_of (map kill A) = [].
Proof.
  unfold visible_of. induction A as [|a A IH]; [done|]. cbn [map]. rewrite filter_cons_False; [done|].
  unfold kill, EditSpec.kill. by destruct (atom_visible a) eqn:Ha; simpl; rewrite ?Ha.
Qed.

Lemma full_of_kill A : full_of (map kill A) = full_of A.
Proof. unfold full_of. rewrite map_map. apply map_ext. intros a. unfold kill, EditSpec.kill. by destruct (atom_visible a). Qed.

Lemma edited_visible pos full offset A edits A' ranges :
  edited pos full offset A edits A' ranges → replaced_by pos (visible_of A) edits (visible_of A').
Proof.
  revert pos full offset A A' ranges. induction edits as [|[range text] edits IH]; intros pos full offset A A' [|fr ranges]; simpl; try done.
  { by intros ->. }
  intros (gap & replaced & rest & rest' & -> & -> & ? & ? & _ & _ & Hrest).
  exists (visible_of gap), (visible_of replaced), (visible_of rest), (visible_of rest').
  rewrite !visible_of_app, visible_of_kill. unfold inserted, EditSpec.inserted. rewrite visible_of_atoms_from. split_and!; [done..|].
  by eapply IH.
Qed.

(** *** Bytes *)

Lemma bytes_of_kill A : bytes_of (map kill A) = bytes_of A.
Proof.
  unfold bytes_of. induction A as [|a A IH]; [done|]. simpl. rewrite IH. f_equal. unfold kill, EditSpec.kill, atom_bytes.
  by destruct (atom_visible a).
Qed.

(** The bytes of a stretch of an insertion. *)
Definition stretch (insertion : Lamport) (offset : N) (len : nat) : list (Lamport * N) :=
  map (λ i, (insertion, offset + N.of_nat i)%N) (seq 0 len).

Lemma stretch_app insertion offset a b :
  stretch insertion offset (a + b) = stretch insertion offset a ++ stretch insertion (offset + N.of_nat a) b.
Proof.
  unfold stretch. rewrite seq_app, map_app. f_equal.
  assert (seq (0 + a) b = map (Nat.add a) (seq 0 b)) as ->.
  { pose proof (fmap_add_seq a 0 b) as Hseq. rewrite Nat.add_0_r in Hseq. exact (eq_sym Hseq). }
  rewrite map_map. apply map_ext. intros i. f_equal. lia.
Qed.

Lemma bytes_of_atoms_from f offset s : bytes_of (atoms_from f offset s) = stretch (Fragment.timestamp f) offset (Str.len s).
Proof.
  unfold bytes_of. revert offset. induction s as [|c s IH]; intros offset; [done|]. cbn [atoms_from map concat]. rewrite IH.
  rewrite Str_len_cons, stretch_app. done.
Qed.

Lemma stretch_NoDup insertion offset len : NoDup (stretch insertion offset len).
Proof. apply NoDup_fmap_2; [|apply NoDup_seq]. intros i j [= Hij]. lia. Qed.

Lemma elem_of_stretch insertion offset len x :
  x ∈ stretch insertion offset len ↔ x.1 = insertion ∧ (offset <= x.2 < offset + N.of_nat len)%N.
Proof.
  unfold stretch. rewrite list_elem_of_fmap. split.
  - intros (i & -> & Hi%elem_of_seq). simpl. split; [done|lia].
  - destruct x as [insertion' y]. simpl. intros [-> Hx]. exists (N.to_nat (y - offset)).
    split; [f_equal; lia|apply elem_of_seq; lia].
Qed.

Lemma edited_bytes pos full offset A edits A' ranges :
  edited pos full offset A edits A' ranges → bytes_of A' ≡ₚ bytes_of A ++ stretch timestamp offset (inserted_len edits).
Proof.
  revert pos full offset A A' ranges. induction edits as [|[range text] edits IH]; intros pos full offset A A' [|fr ranges]; simpl; try done.
  { intros ->. unfold inserted_len, stretch. simpl. by rewrite app_nil_r. }
  intros (gap & replaced & rest & rest' & -> & -> & _ & _ & _ & _ & Hrest). apply IH in Hrest.
  rewrite !bytes_of_app, bytes_of_kill, Hrest. unfold inserted, EditSpec.inserted. rewrite bytes_of_atoms_from.
  unfold inserted_len. cbn [map]. cbn [sum_list]. rewrite stretch_app. simpl. solve_Permutation.
Qed.
End edited.

(** *** How long the texts get *)

(** The length of the replaced ranges. *)
Definition removed_len (edits : list (Range * str)) : nat :=
  sum_list (map (λ e : Range * str, Range.end_ e.1 - Range.start e.1) edits).

(** The texts after the edits are short enough for their summaries. *)
Definition edits_fit A (edits : list (Range * str)) : Prop :=
  (N.of_nat (Str.len (visible_of A) + inserted_len edits - removed_len edits) <= u32_max)%N ∧
  (N.of_nat (Str.len (deleted_of A) + removed_len edits) <= u32_max)%N.

Lemma edited_text_lengths timestamp pos full offset A edits A' ranges : edited timestamp pos full offset A edits A' ranges →
  Str.len (visible_of A') + removed_len edits = Str.len (visible_of A) + inserted_len edits ∧
  Str.len (deleted_of A') = Str.len (deleted_of A) + removed_len edits.
Proof.
  revert pos full offset A A' ranges. induction edits as [|[range text] edits IH]; intros pos full offset A A' [|fr ranges]; simpl; try done.
  { intros ->. unfold removed_len, inserted_len. simpl. lia. }
  intros (gap & replaced & rest & rest' & -> & -> & _ & Hrange & _ & _ & Hrest). destruct (IH _ _ _ _ _ _ Hrest) as [Hv Hd].
  unfold removed_len, inserted_len in *. cbn [map sum_list_with fst snd]. rewrite !visible_of_app, !deleted_of_app, !Str_len_app.
  pose proof (full_len (map (kill timestamp) replaced)) as Hk. pose proof (full_len replaced) as Hf.
  rewrite visible_of_kill in *. change (Str.len []) with 0 in *. rewrite full_of_kill in Hk.
  unfold inserted. rewrite visible_of_atoms_from, deleted_of_atoms_from. cbn [Fragment.visible new_fragment].
  change (Str.len []) with 0. cbn in Hv, Hd |- *. lia.
Qed.

Lemma edited_texts_fit timestamp A edits A' ranges : edited timestamp 0 0 0 A edits A' ranges → edits_fit A edits → texts_fit A'.
Proof. intros [Hv Hd]%edited_text_lengths [Hfv Hfd]. unfold texts_fit, text_fits. split; lia. Qed.
