(* ===== verification/EditInv.v ===== *)
(** * The invariant of an edit

    The builders collect fragments and texts from left to right; the first part
    says what they hold after each of their operations.  While an edit walks the
    old fragments, the new fragments and texts grow to the right; the second part
    says what the builders hold of them, with a mark on each new piece that says
    whether it was kept, cut or made by the edit. *)

From S2P Require Import Prelude Clock Locator SumTree SumTreeFacts Seek Cursor CursorFacts CursorWalk Keyed KeyedFacts UndoMap TreeMap TreeMapFacts Patch PatchFacts Points Utf8 TextSummary RopeTree Rope RopeFacts RopeSeek RopeCut Fragment FragmentFacts Snapshot EditSpec.

(** ** Fragments *)

Definition chunk_items (chunk : FragmentChunk) : list Fragment :=
  match chunk with Tree tree => to_list tree | Loose fragments => fragments end.

Definition chunk_ok (chunk : FragmentChunk) : Prop := match chunk with Tree tree => tree_ok tree | Loose _ => True end.

(** The builder holds the fragments. *)
Record builder_ok (b : FragmentBuilder) (fs : list Fragment) : Prop := {
  builder_fragments : Forall fragment_ok fs;
  builder_items : concat (map chunk_items (FragmentBuilder.chunks b)) = fs;
  builder_chunks : Forall chunk_ok (FragmentBuilder.chunks b);
  builder_summary : FragmentBuilder.summary b = items_sum fs;
}.

Lemma tree_summary_sum (t : SumTree Fragment FragmentSummary) : tree_ok t → SumTree.summary t = items_sum (to_list t).
Proof. apply tree_ok_summary. Qed.

Lemma tree_is_empty (t : SumTree Fragment FragmentSummary) : tree_ok t → SumTree.is_empty t = bool_decide (to_list t = []).
Proof.
  intros Ht. pose proof (tree_ok_empty t Ht) as Hempty. case_bool_decide as Hnil; [by apply Hempty|].
  destruct (SumTree.is_empty t); [|done]. exfalso. by apply Hnil, Hempty.
Qed.

Lemma builder_new t : tree_ok t → Forall fragment_ok (to_list t) → builder_ok (FragmentBuilder.new t) (to_list t).
Proof.
  intros Ht Hok. unfold FragmentBuilder.new. rewrite tree_is_empty by done. case_bool_decide as Hnil; split; simpl.
  - done.
  - by rewrite Hnil.
  - constructor.
  - by apply tree_summary_sum.
  - done.
  - apply app_nil_r.
  - by constructor.
  - by apply tree_summary_sum.
Qed.

Lemma builder_append b fs t : builder_ok b fs → tree_ok t → Forall fragment_ok (to_list t) →
  builder_ok (FragmentBuilder.append b t) (fs ++ to_list t).
Proof.
  intros [Hfs Hitems Hchunks Hsum] Ht Hok. unfold FragmentBuilder.append. rewrite tree_is_empty by done.
  case_bool_decide as Hnil.
  - rewrite Hnil, app_nil_r. by split.
  - split; simpl.
    + by apply Forall_app.
    + rewrite map_app, concat_app, Hitems. simpl. by rewrite app_nil_r.
    + apply Forall_app. split; [done|]. by constructor.
    + by rewrite Hsum, tree_summary_sum, items_sum_app.
Qed.

Lemma builder_push b fs f : builder_ok b fs → fragment_ok f →
  ∃ b', FragmentBuilder.push b f = Some b' ∧ builder_ok b' (fs ++ [f]).
Proof.
  intros [Hfs Hitems Hchunks Hsum] Hf. unfold FragmentBuilder.push.
  destruct (fragment_summary f Hf) as (d & -> & _ & _). cbn [mbind option_bind]. eexists. split; [done|].
  assert (Forall fragment_ok (fs ++ [f])) as Hfs' by (apply Forall_app; split; [done|by constructor]).
  assert (SumTree.add_summary (FragmentBuilder.summary b) (item_summary f) = items_sum (fs ++ [f])) as Hsum'
    by (rewrite Hsum; apply sum_snoc).
  destruct (FragmentBuilder.chunks b) as [|chunk chunks _] using rev_ind.
  - simpl in *. subst fs. split; simpl; [done..|by repeat constructor|done].
  - rewrite last_snoc. rewrite map_app, concat_app in Hitems. apply Forall_app in Hchunks as [Hcs Hc].
    destruct chunk as [tree|fragments]; (split; [done| | |done]); simpl.
    + rewrite !map_app, !concat_app, Hitems. done.
    + apply Forall_app. split; [by apply Forall_app|]. by constructor.
    + rewrite length_app. simpl. rewrite Nat.add_sub, take_app_length, map_app, concat_app. simpl in *.
      rewrite app_nil_r in Hitems |- *. by rewrite app_assoc, Hitems.
    + rewrite length_app. simpl. rewrite Nat.add_sub, take_app_length. apply Forall_app. by repeat constructor.
Qed.

Lemma append_chunks_spec tree chunks : tree_ok tree → Forall chunk_ok chunks →
  ∃ t, FragmentBuilder.append_chunks tree chunks = Some t ∧ tree_ok t ∧
    to_list t = to_list tree ++ concat (map chunk_items chunks).
Proof.
  intros Htree Hchunks. revert tree Htree. induction Hchunks as [|chunk chunks Hchunk _ IH]; intros tree Htree; simpl.
  { exists tree. by rewrite app_nil_r. }
  destruct chunk as [subtree|fragments]; simpl.
  - destruct (append_spec tree subtree Htree Hchunk) as (t & -> & Ht & Hl & _). cbn [mbind option_bind].
    destruct (IH t Ht) as (t' & -> & Ht' & Hl'). exists t'. split_and!; [done..|]. by rewrite Hl', Hl, app_assoc.
  - rewrite from_par_iter_eq. destruct (from_iter_spec (N.of_nat (length fragments)) fragments) as (sub & Hsub & Hok & Hlist & _).
    { pose proof (N.pow_gt_lin_r 12 (N.of_nat (length fragments) + 1) ltac:(lia)). lia. }
    assert ((if 1024 <? length fragments then SumTree.from_iter fragments else SumTree.from_iter fragments) = Some sub) as ->
      by (by destruct (_ <? _)).
    cbn [mbind option_bind]. destruct (append_spec tree sub Htree Hok) as (t & -> & Ht & Hl & _). cbn [mbind option_bind].
    destruct (IH t Ht) as (t' & -> & Ht' & Hl'). exists t'. split_and!; [done..|]. by rewrite Hl', Hl, Hlist, app_assoc.
Qed.

Lemma builder_tree b fs : builder_ok b fs → ∃ t, FragmentBuilder.to_sum_tree b = Some t ∧ tree_ok t ∧ to_list t = fs.
Proof.
  intros [_ Hitems Hchunks _]. unfold FragmentBuilder.to_sum_tree.
  destruct (append_chunks_spec SumTree.new _ (or_introl eq_refl) Hchunks) as (t & -> & Ht & Hl). exists t.
  split_and!; [done..|]. by rewrite Hl.
Qed.

Lemma builder_text b fs : builder_ok b fs →
  FragmentSummary.text (FragmentBuilder.summary b) = FragmentTextSummary.mk (visible_len fs) (deleted_len fs).
Proof. intros [Hfs _ _ ->]. by apply sum_text. Qed.

Lemma builder_max_id b fs : builder_ok b fs → FragmentSummary.max_id (FragmentBuilder.summary b) = last_id fs.
Proof. intros [Hfs _ _ ->]. by apply sum_max_id. Qed.

(** ** Texts *)

Section ropes.
Context (visible deleted : Rope) (v d : str).
Context (Hvisible : replaceable visible) (Hdeleted : replaceable deleted).
Context (Hv : (N.of_nat (Str.len v) <= u32_max)%N) (Hd : (N.of_nat (Str.len d) <= u32_max)%N).

(** The cursors have the texts [rv] and [rd] left, and the new ropes hold [nv] and
    [nd]. *)
Record ropes_ok (b : RopeBuilder) (rv rd nv nd : str) : Prop := {
  ropes_visible : ∃ pv, v = pv ++ rv ∧ cursor_between visible (RopeBuilder.old_visible_cursor b) pv rv;
  ropes_deleted : ∃ pd, d = pd ++ rd ∧ cursor_between deleted (RopeBuilder.old_deleted_cursor b) pd rd;
  ropes_new_visible : holds (RopeBuilder.new_visible b) nv;
  ropes_new_deleted : holds (RopeBuilder.new_deleted b) nd;
}.

Lemma cursor_offset r c a b : cursor_between r c a b → Rope.RopeCursor.offset c = Str.len a.
Proof. by intros (ps & qs & x & _ & _ & Hoff & _). Qed.

(** Cutting the next text off a cursor. *)
Lemma cut_next r c a m b : cursor_between r c a (m ++ b) → replaceable r → (N.of_nat (Str.len (a ++ m ++ b)) <= u32_max)%N →
  ∃ text c', Rope.RopeCursor.slice c (Rope.RopeCursor.offset c + Str.len m) = Some (text, c') ∧ holds text m ∧
    cursor_between r c' (a ++ m) b ∧ walkable text.
Proof.
  intros Hc Hr Hlen. rewrite (cursor_offset _ _ _ _ Hc), <-Str_len_app.
  destruct (rope_cursor_slice r c a m b Hc (rep_cuttable r Hr) Hlen) as (text & c' & -> & Htext & Hc' & Hh).
  exists text, c'. split_and!; [done..|]. by apply (rep_walkable r).
Qed.

Lemma ropes_push b m rv rd nv nd (was_visible is_visible : bool) :
  ropes_ok b (if was_visible then m ++ rv else rv) (if was_visible then rd else m ++ rd) nv nd →
  ∃ b', RopeBuilder.push b (Str.len m) was_visible is_visible = Some b' ∧
    ropes_ok b' rv rd (if is_visible then nv ++ m else nv) (if is_visible then nd else nd ++ m).
Proof.
  intros [(pv & -> & Hcv) (pd & -> & Hcd) Hnv Hnd]. unfold RopeBuilder.push. destruct was_visible.
  - destruct (cut_next _ _ _ _ _ Hcv Hvisible Hv) as (text & c' & -> & Htext & Hc' & Hwalk). cbn [mbind option_bind].
    destruct is_visible; cbn [RopeBuilder.new_visible RopeBuilder.new_deleted].
    + destruct (rope_append_spec _ _ _ _ Hnv Htext Hwalk) as (r & -> & Hr & _). cbn [mbind option_bind].
      eexists. split; [done|]. split; simpl; [exists (pv ++ m); by rewrite <-app_assoc|by exists pd|done..].
    + destruct (rope_append_spec _ _ _ _ Hnd Htext Hwalk) as (r & -> & Hr & _). cbn [mbind option_bind].
      eexists. split; [done|]. split; simpl; [exists (pv ++ m); by rewrite <-app_assoc|by exists pd|done..].
  - destruct (cut_next _ _ _ _ _ Hcd Hdeleted Hd) as (text & c' & -> & Htext & Hc' & Hwalk). cbn [mbind option_bind].
    destruct is_visible; cbn [RopeBuilder.new_visible RopeBuilder.new_deleted].
    + destruct (rope_append_spec _ _ _ _ Hnv Htext Hwalk) as (r & -> & Hr & _). cbn [mbind option_bind].
      eexists. split; [done|]. split; simpl; [by exists pv|exists (pd ++ m); by rewrite <-app_assoc|done..].
    + destruct (rope_append_spec _ _ _ _ Hnd Htext Hwalk) as (r & -> & Hr & _). cbn [mbind option_bind].
      eexists. split; [done|]. split; simpl; [by exists pv|exists (pd ++ m); by rewrite <-app_assoc|done..].
Qed.

Lemma ropes_append b mv md rv rd nv nd : ropes_ok b (mv ++ rv) (md ++ rd) nv nd →
  ∃ b', RopeBuilder.append b (FragmentTextSummary.mk (Str.len mv) (Str.len md)) = Some b' ∧
    ropes_ok b' rv rd (nv ++ mv) (nd ++ md).
Proof.
  intros Hb. unfold RopeBuilder.append. cbn [FragmentTextSummary.visible FragmentTextSummary.deleted].
  destruct (ropes_push b mv rv (md ++ rd) nv nd true true Hb) as (b1 & -> & Hb1). cbn [mbind option_bind].
  exact (ropes_push b1 md rv rd (nv ++ mv) nd false false Hb1).
Qed.

Lemma ropes_push_fragment b f m rv rd nv nd (was_visible : bool) :
  Fragment.len f = N.of_nat (Str.len m) → m ≠ [] →
  ropes_ok b (if was_visible then m ++ rv else rv) (if was_visible then rd else m ++ rd) nv nd →
  ∃ b', RopeBuilder.push_fragment b f was_visible = Some b' ∧
    ropes_ok b' rv rd (if Fragment.visible f then nv ++ m else nv) (if Fragment.visible f then nd else nd ++ m).
Proof.
  intros Hlen Hm Hb. unfold RopeBuilder.push_fragment. rewrite Hlen, Nat2N.id.
  assert (Str.len m ≠ 0) by (by intros ?%Str_len_zero).
  rewrite rassert_true by (apply N.ltb_lt; lia). cbn [mbind option_bind]. by apply ropes_push.
Qed.

Lemma ropes_push_str b s rv rd nv nd : str_ok s → ropes_ok b rv rd nv nd →
  ∃ b', RopeBuilder.push_str b s = Some b' ∧ ropes_ok b' rv rd (nv ++ s) nd.
Proof.
  intros Hs [Hcv Hcd Hnv Hnd]. unfold RopeBuilder.push_str. destruct (levels_for_exists s) as [k Hk].
  destruct (rope_push_spec _ _ s k Hnv Hs Hk) as (r & -> & Hr & _). cbn [mbind option_bind]. eexists. split; [done|]. by split.
Qed.

Lemma ropes_finish b rv rd nv nd : ropes_ok b rv rd nv nd →
  ∃ r r', RopeBuilder.finish b = Some (r, r') ∧ holds r (nv ++ rv) ∧ holds r' (nd ++ rd).
Proof.
  intros [(pv & -> & Hcv) (pd & -> & Hcd) Hnv Hnd]. unfold RopeBuilder.finish.
  destruct (rope_suffix_spec _ _ _ _ Hcv (rep_cuttable _ Hvisible) Hv) as (sv & -> & Hsv & Hhv). cbn [mbind option_bind].
  destruct (rope_append_spec _ _ _ _ Hnv Hsv (rep_walkable _ _ Hvisible Hhv)) as (r & -> & Hr & _). cbn [mbind option_bind].
  destruct (rope_suffix_spec _ _ _ _ Hcd (rep_cuttable _ Hdeleted) Hd) as (sd & -> & Hsd & Hhd). cbn [mbind option_bind].
  destruct (rope_append_spec _ _ _ _ Hnd Hsd (rep_walkable _ _ Hdeleted Hhd)) as (r' & -> & Hr' & _). cbn [mbind option_bind].
  by exists r, r'.
Qed.

(** A new builder over two ropes. *)
Lemma ropes_new : holds visible v → holds deleted d →
  ∃ cv cd, Rope.cursor visible 0 = Some cv ∧ Rope.cursor deleted 0 = Some cd ∧
    ropes_ok (RopeBuilder.new cv cd) v d [] [].
Proof.
  intros Hhv Hhd.
  destruct (rope_cursor_new visible [] v Hhv (cut_walkable _ (rep_cuttable _ Hvisible)) Hv) as (cv & Hcv & Hbv).
  destruct (rope_cursor_new deleted [] d Hhd (cut_walkable _ (rep_cuttable _ Hdeleted)) Hd) as (cd & Hcd & Hbd).
  exists cv, cd. split; [done|]. split; [done|]. split; [by exists []|by exists []|apply holds_new..].
Qed.
End ropes.

(** ** New pieces *)

Inductive mark := Kept | Cut | Touched.

Abbreviation entry := (Fragment * str * mark)%type (only parsing).
Implicit Types (N : list entry) (L B R X : list piece) (p : piece) (f : Fragment) (slices : list InsertionSlice).

Definition pieces N : list piece := map fst N.
Definition rewritten N : list piece := omap (λ e, match e.2 with Kept => None | _ => Some e.1 end) N.
Definition touched N : list piece := omap (λ e, match e.2 with Touched => Some e.1 | _ => None end) N.
Definition kept L : list entry := map (λ p, (p, Kept)) L.

Lemma pieces_app N N' : pieces (N ++ N') = pieces N ++ pieces N'.
Proof. apply map_app. Qed.

Lemma pieces_kept L : pieces (kept L) = L.
Proof. unfold pieces, kept. rewrite map_map. apply map_id. Qed.

Lemma pieces_one p (μ : mark) : pieces [(p, μ)] = [p].
Proof. done. Qed.

Lemma rewritten_app N N' : rewritten (N ++ N') = rewritten N ++ rewritten N'.
Proof. apply omap_app. Qed.

Lemma touched_app N N' : touched (N ++ N') = touched N ++ touched N'.
Proof. apply omap_app. Qed.

Lemma rewritten_kept L : rewritten (kept L) = [].
Proof. by induction L. Qed.

Lemma touched_kept L : touched (kept L) = [].
Proof. by induction L. Qed.

Create Rewrite HintDb pieces.
#[export] Hint Rewrite pieces_app pieces_one pieces_kept rewritten_app touched_app rewritten_kept touched_kept atoms_app atoms_one visible_of_app deleted_of_app full_of_app
  using fail : pieces.

(** The slice of a fragment an edit touches. *)
Definition slice_for (timestamp : Lamport) f : InsertionSlice :=
  InsertionSlice.mk (value timestamp) (replica_id timestamp) (value (Fragment.timestamp f)) (replica_id (Fragment.timestamp f))
    (Fragment.insertion_offset f, Fragment.insertion_offset f + Fragment.len f)%N.

Lemma from_fragment_spec timestamp p : whole p → InsertionSlice.from_fragment timestamp p.1 = Some (slice_for timestamp p.1).
Proof.
  intros Hp. unfold InsertionSlice.from_fragment, slice_for.
  rewrite checked_add_Some; [done|]. rewrite (whole_len p Hp). apply Hp.
Qed.

(** ** The builders *)

Section build.
Context (visible deleted : Rope) (v d : str) (timestamp : Lamport).
Context (Hvisible : replaceable visible) (Hdeleted : replaceable deleted).
Context (Hv : (N.of_nat (Str.len v) <= u32_max)%N) (Hd : (N.of_nat (Str.len d) <= u32_max)%N).
Implicit Types (b : Build) (rv rd m text : str).

(** The new pieces [N] are built, and the texts [rv] and [rd] are left. *)
Record build_ok b N slices rv rd : Prop := {
  build_fragments : builder_ok (new_fragments b) (map fst (pieces N));
  build_whole : Forall whole (pieces N);
  build_ropes : ropes_ok visible deleted v d (new_ropes b) rv rd (visible_of (atoms (pieces N))) (deleted_of (atoms (pieces N)));
  build_insertions : new_insertions b = map (λ p, InsertionFragment.insert_new p.1) (rewritten N);
  build_slices : insertion_slices b = slices;
}.

Lemma build_max_id b N slices rv rd : build_ok b N slices rv rd → Build.max_id b = last_id (map fst (pieces N)).
Proof. intros [Hf _ _ _ _]. by apply builder_max_id. Qed.

Lemma build_visible_len b N slices rv rd : build_ok b N slices rv rd →
  Build.new_visible_len b = Str.len (visible_of (atoms (pieces N))).
Proof.
  intros [Hf Hw _ _ _]. unfold Build.new_visible_len. rewrite (builder_text _ _ Hf). by apply visible_len_pieces.
Qed.

(** A piece that is cut or made by the edit. *)
Lemma build_push b N slices rv rd f m mark (was_visible : bool) : whole (f, m) → mark ≠ Kept →
  build_ok b N slices (if was_visible then m ++ rv else rv) (if was_visible then rd else m ++ rd) →
  ∃ b', Build.push_fragment b f was_visible = Some b' ∧ build_ok b' (N ++ [(f, m, mark)]) slices rv rd ∧
    insertion_offset b' = insertion_offset b ∧ edits_patch b' = edits_patch b.
Proof.
  intros Hf Hmark [Hfs Hw Hr Hi Hs]. unfold Build.push_fragment.
  destruct (ropes_push_fragment _ _ _ _ Hvisible Hdeleted Hv Hd _ f m rv rd _ _ was_visible (whole_len _ Hf) (whole_nonempty _ Hf) Hr)
    as (ropes & -> & Hropes). cbn [mbind option_bind].
  destruct (builder_push _ _ f Hfs (whole_fragment _ Hf)) as (fs & -> & Hfs'). cbn [mbind option_bind].
  eexists. split; [done|]. split; [|done]. split; simpl; autorewrite with pieces.
  - by rewrite map_app.
  - apply Forall_snoc_2; [done|exact Hf].
  - simpl. rewrite visible_of_atoms_of, deleted_of_atoms_of. simpl in *. destruct (Fragment.visible f); by rewrite ?app_nil_r.
  - rewrite Hi, map_app. by destruct mark.
  - done.
Qed.

(** A part of the old tree. *)
Lemma build_append b N slices rv rd slice X : tree_ok slice → to_list slice = map fst X → Forall whole X →
  build_ok b N slices (visible_of (atoms X) ++ rv) (deleted_of (atoms X) ++ rd) →
  ∃ b', Build.append b slice = Some b' ∧ build_ok b' (N ++ kept X) slices rv rd ∧
    insertion_offset b' = insertion_offset b ∧ edits_patch b' = edits_patch b.
Proof.
  intros Hslice Hlist HX [Hfs Hw Hr Hi Hs]. unfold Build.append.
  assert (FragmentSummary.text (SumTree.summary slice) =
    FragmentTextSummary.mk (Str.len (visible_of (atoms X))) (Str.len (deleted_of (atoms X)))) as ->.
  { rewrite (tree_summary_sum slice Hslice), Hlist, sum_text by by apply whole_fragments.
    by rewrite visible_len_pieces, deleted_len_pieces. }
  destruct (ropes_append _ _ _ _ Hvisible Hdeleted Hv Hd _ _ _ _ _ _ _ Hr) as (ropes & -> & Hropes). cbn [mbind option_bind].
  eexists. split; [done|]. split; [|done]. split; simpl; autorewrite with pieces.
  - rewrite map_app, <-Hlist. apply builder_append; [done..|]. rewrite Hlist. by apply whole_fragments.
  - by apply Forall_app.
  - done.
  - by rewrite app_nil_r.
  - done.
Qed.

Lemma build_push_edit b N slices rv rd old new : build_ok b N slices rv rd → build_ok (Build.push_edit b old new) N slices rv rd.
Proof. by intros []. Qed.

Lemma build_push_slice b N slices rv rd p : whole p → build_ok b N slices rv rd →
  ∃ b', Build.push_slice b timestamp p.1 = Some b' ∧ build_ok b' N (slices ++ [slice_for timestamp p.1]) rv rd ∧
    insertion_offset b' = insertion_offset b ∧ edits_patch b' = edits_patch b.
Proof.
  intros Hp [Hfs Hw Hr Hi Hs]. unfold Build.push_slice. rewrite from_fragment_spec by done. cbn [mbind option_bind].
  eexists. split; [done|]. split; [|done]. split; simpl; [done..|by rewrite Hs].
Qed.

(** The fragment of an inserted text. *)
Definition inserted_fragment (id : Locator) (offset : N) text : Fragment :=
  Fragment.mk id timestamp offset (N.of_nat (Str.len text)) true [] Global.new.

Lemma inserted_whole id offset text : observable timestamp → str_ok text → text ≠ [] →
  (offset + N.of_nat (Str.len text) <= u32_max)%N → whole (inserted_fragment id offset text, text).
Proof. intros Hts Htext Hne Hlen. split; simpl; [by split_and!|done..]. Qed.

Lemma build_insertion b N slices rv rd text next id : build_ok b N slices rv rd → observable timestamp → str_ok text →
  text ≠ [] → (insertion_offset b + N.of_nat (Str.len text) <= u32_max)%N → Locator.between (Build.max_id b) next = Some id →
  let f := inserted_fragment id (insertion_offset b) text in
  ∃ b', Build.push_fragments_for_insertion b text timestamp next timestamp = Some b' ∧
    build_ok b' (N ++ [(f, text, Touched)]) (slices ++ [slice_for timestamp f]) rv rd ∧
    insertion_offset b' = (insertion_offset b + N.of_nat (Str.len text))%N ∧ edits_patch b' = edits_patch b.
Proof.
  intros Hb Hts Htext Hne Hlen Hid f. pose proof (inserted_whole id (insertion_offset b) text Hts Htext Hne Hlen) as Hf.
  assert (0 < Str.len text) as Hpos by (destruct (Str.len text) eqn:Hz; [by apply Str_len_zero in Hz|lia]).
  unfold Build.push_fragments_for_insertion. destruct (Str.len text) as [|n] eqn:Hn; [lia|]. rewrite <-Hn in Hlen.
  cbn [Build.insertion_loop]. rewrite Hn, Nat.sub_0_r, (proj2 (Nat.ltb_lt 0 (S n))) by lia. rewrite <-Hn in *.
  rewrite (proj2 (N.leb_le _ _)) by (unfold MAX_INSERTION_LEN; lia). rewrite Nat.eqb_refl.
  rewrite (proj2 (Nat.eqb_neq _ _)) by lia. rewrite Hid. unfold checked_sub_nat.
  rewrite rassert_true by (by apply Nat.leb_le; lia). cbn [mbind option_bind]. rewrite Nat.sub_0_r, as_u32_small by lia.
  fold (inserted_fragment id (insertion_offset b) text). fold f.
  destruct (build_push_slice b N slices rv rd (f, text) Hf Hb) as (b1 & Hpush & [Hfs Hw Hr Hi Hs] & Hoff & Hpatch).
  simpl in Hpush. rewrite Hpush. cbn [mbind option_bind].
  destruct (builder_push _ _ f Hfs (whole_fragment _ Hf)) as (fs & -> & Hfs'). cbn [mbind option_bind].
  rewrite Hoff, checked_add_Some by lia. cbn [mbind option_bind].
  assert (∀ k b0, Build.insertion_loop k text timestamp next timestamp (Str.len text) b0 = Some b0) as ->.
  { intros k b0. destruct k; simpl; by rewrite Nat.ltb_irrefl. }
  cbn [mbind option_bind new_ropes].
  destruct (ropes_push_str _ _ _ _ _ text rv rd _ _ Htext Hr) as (ropes & -> & Hropes). cbn [mbind option_bind].
  eexists. split; [done|]. split; [|done]. split; simpl; autorewrite with pieces.
  - by rewrite map_app.
  - apply Forall_snoc_2; [done|exact Hf].
  - simpl. rewrite visible_of_atoms_of, deleted_of_atoms_of. simpl in *. by rewrite app_nil_r.
  - rewrite Hi, map_app. done.
  - done.
Qed.
End build.
