(* ===== verification/EditState.v ===== *)
(** * The states of an edit

    Between two statements of an edit the cursor stands between the old pieces
    [B] and [R], the first of which has been consumed up to [c], and the new pieces
    [N] have been made.  Here is how each of the pieces an edit makes changes this. *)

From S2P Require Import Prelude Clock Locator SumTree SumTreeFacts Seek Cursor CursorFacts CursorWalk Keyed KeyedFacts UndoMap TreeMap TreeMapFacts Patch PatchFacts Points Utf8 TextSummary RopeTree Rope RopeFacts RopeSeek RopeCut Fragment FragmentFacts Snapshot EditSpec EditInv.

Implicit Types (N : list entry) (B R X Y : list piece) (p : piece) (f : Fragment) (c m r : str).

(** ** Ids *)

Lemma ids_cut ids id ids' : ids_ok (ids ++ id :: ids') → ids_ok (ids ++ ids').
Proof.
  intros [Hok Hs]. apply Forall_app in Hok as [Hok [_ Hok']%Forall_cons].
  apply StronglySorted_app in Hs as (Hlt & Hs & [Hs' _]%StronglySorted_inv). split; [by apply Forall_app|].
  apply StronglySorted_app. split_and!; [|done..]. intros x y Hx Hy. apply Hlt; [done|by right].
Qed.

Definition next_id R : Locator := match head R with Some p => Fragment.id p.1 | None => Locator.max end.

Lemma last_id_ids B : last_id (map fst B) = default Locator.min (last (ids_of B)).
Proof. destruct B as [|p B _] using rev_ind; [done|]. unfold ids_of. rewrite !map_app. simpl. by rewrite last_id_snoc, last_snoc. Qed.

Lemma next_id_ids R : next_id R = default Locator.max (head (ids_of R)).
Proof. by destruct R. Qed.

(** Between two neighbours there is room for an id. *)
Lemma between_ids B R : ids_ok (ids_of (B ++ R)) →
  ∃ id, Locator.between (last_id (map fst B)) (next_id R) = Some id ∧ ids_ok (ids_of B ++ id :: ids_of R).
Proof.
  unfold ids_of at 1. rewrite map_app. fold (ids_of B) (ids_of R). rewrite last_id_ids, next_id_ids.
  generalize (ids_of B) (ids_of R). intros ids ids' [Hok Hs].
  pose proof Hok as Hok0. apply Forall_app in Hok as [Hok Hok']. apply StronglySorted_app in Hs as (Hlt & Hs & Hs').
  assert (∀ x, x ∈ ids → is_le (cmp x (default Locator.min (last ids)))) as Hlast.
  { intros x Hx. destruct ids as [|y ids _] using rev_ind; [by apply not_elem_of_nil in Hx|]. rewrite last_snoc. simpl.
    apply StronglySorted_app in Hs as (Hle & _ & _). apply elem_of_app in Hx as [Hx|Hx%list_elem_of_singleton].
    - rewrite Hle; [done|done|by left].
    - subst. by rewrite cmp_refl. }
  assert (∀ x, x ∈ ids' → is_le (cmp (default Locator.max (head ids')) x)) as Hhead.
  { intros x Hx. destruct ids' as [|y ids']; [by apply not_elem_of_nil in Hx|]. simpl.
    apply StronglySorted_inv in Hs' as [_ Hle]. apply elem_of_cons in Hx as [->|Hx]; [by rewrite cmp_refl|].
    rewrite Forall_forall in Hle. by rewrite Hle. }
  assert (digits_ok (default Locator.min (last ids)) ∧ is_le (cmp Locator.min (default Locator.min (last ids))) ∧
    cmp (default Locator.min (last ids)) Locator.max = Lt) as (Hdl & Hminl & Hmaxl).
  { destruct ids as [|y ids _] using rev_ind; [split_and!; [by repeat constructor|done|done]|]. rewrite last_snoc. simpl.
    apply Forall_app in Hok as [_ [(? & ? & Hmin & ?) _]%Forall_cons]. split_and!; [done|by rewrite Hmin|done]. }
  assert (digits_ok (default Locator.max (head ids')) ∧ proper (default Locator.max (head ids')) ∧
    is_le (cmp (default Locator.max (head ids')) Locator.max)) as (Hdr & Hpr & Hmaxr).
  { destruct ids' as [|y ids']; [split_and!; [by repeat constructor|done|done]|]. simpl.
    apply Forall_cons in Hok' as [(? & ? & ? & Hmax) _]. split_and!; [done|done|by rewrite Hmax]. }
  assert (cmp (default Locator.min (last ids)) (default Locator.max (head ids')) = Lt) as Hbetween.
  { destruct ids' as [|y ids']; simpl; [done|]. destruct ids as [|x ids _] using rev_ind; simpl.
    - by apply Forall_cons in Hok' as [(? & ? & ? & ?) _].
    - rewrite last_snoc. apply Hlt; [apply elem_of_app; right|]; by left. }
  destruct (between_spec _ _ Hdl Hdr Hpr Hbetween) as (id & Hid & Hl & Hr & Hdigits & Hproper & _).
  exists id. split; [done|]. split.
  - apply Forall_app. split; [done|]. constructor; [|done]. split_and!; [done|done|by eapply cmp_le_lt_trans|by eapply cmp_lt_le_trans].
  - apply StronglySorted_app. split_and!; [|done|].
    + intros x y Hx [->|Hy]%elem_of_cons; [eapply cmp_le_lt_trans; [by apply Hlast|done]|by apply Hlt].
    + constructor; [done|]. apply Forall_forall. intros y Hy. eapply cmp_lt_le_trans; [done|by apply Hhead].
Qed.

Lemma ids_snoc N e R : ids_of (pieces (N ++ [e]) ++ R) = ids_of (pieces N) ++ Fragment.id e.1.1 :: ids_of R.
Proof. rewrite pieces_app, <-app_assoc. unfold ids_of. by rewrite !map_app. Qed.

(** ** A fragment that is consumed in part *)

Lemma str_nonempty m : m ≠ [] → 0 < Str.len m.
Proof. intros Hm. destruct (Str.len m) eqn:Hz; [by apply Str_len_zero in Hz|lia]. Qed.

Definition headed c R : Prop :=
  match R with [] => c = [] | p :: _ => ∃ r, p.2 = c ++ r end.

(** A local edit cuts visible fragments only. *)
Definition uncut c R : Prop :=
  match R with [] => True | p :: _ => Fragment.visible p.1 = false → c = [] end.

Definition head_part c R : list Atom :=
  match R with [] => [] | p :: _ => atoms_from p.1 (Fragment.insertion_offset p.1) c end.
Definition consumed B c R : list Atom := atoms B ++ head_part c R.

Definition rest_part p (offset : nat) r : list Atom := atoms_from p.1 (Fragment.insertion_offset p.1 + N.of_nat offset) r.
Definition remaining c R : list Atom :=
  match R with [] => [] | p :: R => rest_part p (Str.len c) (drop (length c) p.2) ++ atoms R end.

Lemma headed_nil R : headed [] R.
Proof. destruct R as [|p R]; [done|]. by exists p.2. Qed.

Lemma uncut_nil R : uncut [] R.
Proof. by destruct R. Qed.

Lemma consumed_nil B R : consumed B [] R = atoms B.
Proof. unfold consumed. by destruct R; simpl; rewrite app_nil_r. Qed.

Lemma remaining_nil R : remaining [] R = atoms R.
Proof. destruct R as [|p R]; [done|]. simpl. unfold rest_part. change (Str.len []) with 0. by rewrite N.add_0_r, drop_0. Qed.

Lemma remaining_cons c p R r : p.2 = c ++ r → remaining c (p :: R) = rest_part p (Str.len c) r ++ atoms R.
Proof. intros Hp. simpl. by rewrite Hp, drop_app_length. Qed.

Lemma rest_part_app p k r r' : rest_part p k (r ++ r') = rest_part p k r ++ rest_part p (k + Str.len r) r'.
Proof. unfold rest_part. rewrite atoms_from_app. do 2 f_equal. lia. Qed.

Lemma head_part_app c m p R : head_part (c ++ m) (p :: R) = head_part c (p :: R) ++ rest_part p (Str.len c) m.
Proof. apply atoms_from_app. Qed.

Lemma consumed_app B c m p R : consumed B (c ++ m) (p :: R) = consumed B c (p :: R) ++ rest_part p (Str.len c) m.
Proof. unfold consumed. by rewrite head_part_app, app_assoc. Qed.

Lemma consumed_all B c p R : p.2 = c → consumed B c (p :: R) = consumed (B ++ [p]) [] R.
Proof. intros <-. rewrite consumed_nil. unfold consumed. simpl. by rewrite atoms_app, atoms_one. Qed.

Lemma remaining_all c p R : p.2 = c → remaining c (p :: R) = remaining [] R.
Proof. intros Hp. rewrite (remaining_cons c p R []) by (by rewrite app_nil_r). by rewrite remaining_nil. Qed.

Lemma visible_rest p k r : visible_of (rest_part p k r) = if Fragment.visible p.1 then r else [].
Proof. apply visible_of_atoms_from. Qed.

Lemma deleted_rest p k r : deleted_of (rest_part p k r) = if Fragment.visible p.1 then [] else r.
Proof. apply deleted_of_atoms_from. Qed.

Lemma visible_consumed B c R : headed c R → uncut c R → visible_of (consumed B c R) = visible_of (atoms B) ++ c.
Proof.
  unfold consumed. rewrite visible_of_app. intros Hc Hv. f_equal. destruct R as [|p R]; simpl in *; [by subst|].
  rewrite visible_of_atoms_from. destruct (Fragment.visible p.1); [done|]. by rewrite Hv.
Qed.

Lemma deleted_consumed B c R : headed c R → uncut c R → deleted_of (consumed B c R) = deleted_of (atoms B).
Proof.
  unfold consumed. rewrite deleted_of_app. intros Hc Hv. destruct R as [|p R]; simpl in *; [by rewrite app_nil_r|].
  rewrite deleted_of_atoms_from. destruct (Fragment.visible p.1); [by rewrite app_nil_r|]. by rewrite Hv, app_nil_r.
Qed.

Lemma consumed_remaining B c R : headed c R → consumed B c R ++ remaining c R = atoms (B ++ R).
Proof.
  rewrite atoms_app. unfold consumed. intros Hc. rewrite <-app_assoc. f_equal.
  destruct R as [|p R]; [done|]. destruct Hc as [r Hr]. rewrite (remaining_cons c p R r Hr), app_assoc. simpl.
  rewrite atoms_cons. f_equal. unfold atoms_of, rest_part. by rewrite Hr, atoms_from_app.
Qed.

(** ** What has been made *)

Section made.
Context (self : BufferSnapshot) (L : list piece) (timestamp : Lamport).
Context (Hok : snapshot_ok self L) (Hfits : snapshot_fits self).
Implicit Types (b : Build).

Let built := build_ok (visible_text self) (deleted_text self) (visible_of (atoms L)) (deleted_of (atoms L)).

Record made b B c R N : Prop := {
  made_old : L = B ++ R;
  made_head : headed c R;
  made_build : built b N (map (λ p, slice_for timestamp p.1) (touched N)) (visible_of (remaining c R)) (deleted_of (remaining c R));
  made_patch : relates (edits_patch b) (Str.as_bytes (visible_of (consumed B c R))) (Str.as_bytes (visible_of (atoms (pieces N))));
  made_keys p : p ∈ B ∨ c ≠ [] ∧ head R = Some p → insertion_key p.1 ∈ map (λ q, insertion_key q.1) (pieces N);
  made_kept p : (p, Kept) ∈ N → p ∈ L;
  made_touched a : a ∈ atoms (pieces N) → a ∈ atoms L ∨ ∃ p, p ∈ touched N ∧ a ∈ atoms_of p;
}.

Lemma visible_fits : (N.of_nat (Str.len (visible_of (atoms L))) <= u32_max)%N.
Proof. rewrite <-(holds_len _ _ (ok_visible _ _ Hok)). apply Hfits. Qed.

Lemma deleted_fits : (N.of_nat (Str.len (deleted_of (atoms L))) <= u32_max)%N.
Proof. rewrite <-(holds_len _ _ (ok_deleted _ _ Hok)). apply Hfits. Qed.

Lemma made_whole b B c p R N : made b B c (p :: R) N → whole p.
Proof.
  intros Hm. pose proof (ok_whole _ _ Hok) as Hw. rewrite (made_old _ _ _ _ _ Hm) in Hw.
  by apply Forall_app in Hw as [_ [Hw _]%Forall_cons].
Qed.

(** There is room for an id between the new pieces and the old ones. *)
Lemma made_between b B c R N : made b B c R N → ids_ok (ids_of (pieces N ++ R)) →
  ∃ id, Locator.between (Build.max_id b) (next_id R) = Some id ∧ ids_ok (ids_of (pieces N) ++ id :: ids_of R).
Proof. intros Hm Hids. rewrite (build_max_id _ _ _ _ _ _ _ _ _ (made_build _ _ _ _ _ Hm)). by apply between_ids. Qed.

(** A fragment that has been consumed is left behind. *)
Lemma made_next b B c p R N : made b B c (p :: R) N → p.2 = c → made b (B ++ [p]) [] R N.
Proof.
  intros Hm Hc. pose proof (whole_nonempty _ (made_whole _ _ _ _ _ _ Hm)) as Hne.
  destruct Hm as [Hold Hhead Hb Hpatch Hkeys Hkept Htouched]. split; try done.
  - by rewrite <-app_assoc.
  - apply headed_nil.
  - by rewrite <-(remaining_all c p R).
  - by rewrite <-(consumed_all B c p R).
  - intros q [[Hq|Hq%list_elem_of_singleton]%elem_of_app|[? _]]; [by apply Hkeys; left| |done].
    subst q. apply Hkeys. right. simpl. split; [congruence|done].
Qed.

(** A part of the old tree. *)
Lemma made_append b B X Y N slice : made b B [] (X ++ Y) N → tree_ok slice → to_list slice = map fst X →
  ∃ b', Build.append b slice = Some b' ∧ made b' (B ++ X) [] Y (N ++ kept X) ∧ insertion_offset b' = insertion_offset b.
Proof.
  intros [Hold Hhead Hb Hpatch Hkeys Hkept Htouched] Hslice Hlist. rewrite remaining_nil in Hb.
  autorewrite with pieces in Hb.
  assert (Forall whole X) as HX.
  { pose proof (ok_whole _ _ Hok) as Hw. rewrite Hold in Hw. by apply Forall_app in Hw as [_ [Hw _]%Forall_app]. }
  destruct (build_append _ _ _ _ (fits_visible _ Hfits) (fits_deleted _ Hfits) visible_fits deleted_fits b N _ _ _ slice X Hslice Hlist HX Hb)
    as (b' & Hrun & Hb' & Hoff & Hp). exists b'. split; [done|]. split; [|done]. split.
  - by rewrite <-app_assoc.
  - apply headed_nil.
  - rewrite remaining_nil. autorewrite with pieces. by rewrite app_nil_r.
  - rewrite Hp. rewrite consumed_nil in Hpatch |- *. autorewrite with pieces. rewrite !Str_as_bytes_app. by apply relates_from_snoc_gap.
  - intros p [[Hp'|Hp']%elem_of_app|[? _]]; [..|done]; autorewrite with pieces; rewrite map_app; apply elem_of_app.
    + left. apply Hkeys. by left.
    + right. apply list_elem_of_fmap. by exists p.
  - intros p [Hp'|(q & [= ->] & Hq)%list_elem_of_fmap]%elem_of_app; [by apply Hkept|]. rewrite Hold.
    apply elem_of_app. right. apply elem_of_app. by left.
  - intros a. autorewrite with pieces. intros [Ha|Ha]%elem_of_app.
    + destruct (Htouched a Ha) as [?|(p & ? & ?)]; [by left|]. right. exists p. by rewrite app_nil_r.
    + left. rewrite Hold. autorewrite with pieces. apply elem_of_app. right. apply elem_of_app. by left.
Qed.

(** *** One more piece *)

(** What is true of the pieces after one more. *)
Lemma keys_snoc B c p R N e : (∀ q, q ∈ B ∨ c ≠ [] ∧ head (p :: R) = Some q →
    insertion_key q.1 ∈ map (λ q, insertion_key q.1) (pieces N)) →
  (c = [] → insertion_key p.1 = insertion_key e.1.1) → ∀ q, q ∈ B ∨ q = p →
  insertion_key q.1 ∈ map (λ q, insertion_key q.1) (pieces (N ++ [e])).
Proof.
  intros Hkeys Hp q Hq. rewrite pieces_app, map_app, elem_of_app. destruct Hq as [Hq| ->]; [left; apply Hkeys; by left|].
  destruct (decide (c = [])) as [->|Hc]; [right|left; apply Hkeys; by right]. rewrite Hp by done. by left.
Qed.

Lemma kept_snoc N p (μ : mark) : (∀ q, (q, Kept) ∈ N → q ∈ L) → μ ≠ Kept → ∀ q, (q, Kept) ∈ N ++ [(p, μ)] → q ∈ L.
Proof. intros HN Hμ q [Hq|Hq%list_elem_of_singleton]%elem_of_app; [by apply HN|]. by injection Hq as <- <-. Qed.

Lemma touched_snoc N p (μ : mark) : (∀ a, a ∈ atoms (pieces N) → a ∈ atoms L ∨ ∃ q, q ∈ touched N ∧ a ∈ atoms_of q) →
  μ = Touched ∨ (∀ a, a ∈ atoms_of p → a ∈ atoms L) →
  ∀ a, a ∈ atoms (pieces (N ++ [(p, μ)])) → a ∈ atoms L ∨ ∃ q, q ∈ touched (N ++ [(p, μ)]) ∧ a ∈ atoms_of q.
Proof.
  intros HN Hμ a. autorewrite with pieces. intros [Ha|Ha]%elem_of_app.
  - destruct (HN a Ha) as [?|(q & ? & ?)]; [by left|]. right. exists q. split; [apply elem_of_app; by left|done].
  - destruct Hμ as [->|Hμ]; [|left; by apply Hμ]. right. exists p. split; [apply elem_of_app; right; by left|done].
Qed.

(** The next part [m] of the first old fragment, as a fragment of its own. *)
Definition part_of p (offset : nat) m f : Prop :=
  Fragment.timestamp f = Fragment.timestamp p.1 ∧ Fragment.insertion_offset f = (Fragment.insertion_offset p.1 + N.of_nat offset)%N ∧
  Fragment.len f = N.of_nat (Str.len m) ∧ Fragment.max_undos f = Fragment.max_undos p.1.

Lemma part_of_range p k m : part_of p k m
  (Fragment.set_range p.1 (Fragment.insertion_offset p.1 + N.of_nat k) (N.of_nat (Str.len m))).
Proof. done. Qed.

Lemma part_whole p k x m y f : whole p → p.2 = x ++ m ++ y → k = Str.len x → part_of p k m f → m ≠ [] →
  Forall observable (Fragment.deletions f) → whole (f, m).
Proof.
  intros [(Hts & Hdel & Hu) Hs Hl Hne Ho] Hp -> (Ht & Hoff & Hlen & Hundos) Hm Hd. rewrite Hp in Hs, Ho. split; simpl.
  - split_and!; [by rewrite Ht|done|by rewrite Hundos].
  - by apply Forall_app in Hs as [_ [Hs _]%Forall_app].
  - done.
  - done.
  - rewrite Hoff. rewrite !Str_len_app in Ho. lia.
Qed.

Lemma part_key p m f : part_of p 0 m f → insertion_key p.1 = insertion_key f.
Proof. intros (Ht & Hoff & _). unfold insertion_key. rewrite Ht, Hoff. by rewrite N.add_0_r. Qed.

Lemma remaining_elem B c p R m r a : L = B ++ p :: R → p.2 = c ++ m ++ r → a ∈ rest_part p (Str.len c) m → a ∈ atoms L.
Proof.
  intros -> Hp Ha. autorewrite with pieces. apply elem_of_app. right. rewrite atoms_cons. apply elem_of_app. left.
  unfold atoms_of. rewrite Hp, !atoms_from_app. apply elem_of_app. right. apply elem_of_app. by left.
Qed.

(** The texts that are left, with the next part in front. *)
Lemma built_rest b N slices c p R m r : p.2 = c ++ m ++ r →
  built b N slices (visible_of (remaining c (p :: R))) (deleted_of (remaining c (p :: R))) →
  built b N slices
    (if Fragment.visible p.1 then m ++ visible_of (remaining (c ++ m) (p :: R)) else visible_of (remaining (c ++ m) (p :: R)))
    (if Fragment.visible p.1 then deleted_of (remaining (c ++ m) (p :: R)) else m ++ deleted_of (remaining (c ++ m) (p :: R))).
Proof.
  intros Hp. rewrite (remaining_cons c p R _ Hp), rest_part_app, (remaining_cons (c ++ m) p R r) by (by rewrite <-app_assoc).
  rewrite !visible_of_app, !deleted_of_app, !visible_rest, !deleted_rest. by destruct (Fragment.visible p.1); simpl; rewrite <-!app_assoc.
Qed.

(** *** The pieces an edit makes *)

Lemma part_atoms p k m f : part_of p k m f → Fragment.visible f = Fragment.visible p.1 → Fragment.deletions f = Fragment.deletions p.1 →
  atoms_of (f, m) = rest_part p k m.
Proof. intros (Ht & Hoff & _ & Hu) Hv Hd. unfold atoms_of, rest_part. simpl. rewrite Hoff. by apply atoms_from_ext. Qed.

(** A part that is deleted; whether it was visible does not matter. *)
Lemma part_struck p k m f : part_of p k m f → Fragment.visible f = false →
  Fragment.deletions f = Fragment.deletions p.1 ++ [timestamp] → atoms_of (f, m) = map (struck timestamp) (rest_part p k m).
Proof.
  intros (Ht & Hoff & _ & Hu) Hf Hd. unfold atoms_of, rest_part. simpl. rewrite Hoff.
  generalize (Fragment.insertion_offset p.1 + N.of_nat k)%N. induction m as [|x m IH]; intros o; [done|]. simpl.
  rewrite IH. f_equal. unfold struck. simpl. by rewrite Ht, Hf, Hd, Hu.
Qed.

Lemma part_killed p k m f : part_of p k m f → Fragment.visible p.1 = true → Fragment.visible f = false →
  Fragment.deletions f = Fragment.deletions p.1 ++ [timestamp] → atoms_of (f, m) = map (kill timestamp) (rest_part p k m).
Proof.
  intros Hpart Hv Hf Hd. rewrite (part_struck p k) by done. unfold rest_part.
  generalize (Fragment.insertion_offset p.1 + N.of_nat k)%N. clear Hpart.
  induction m as [|x m IH]; intros o; [done|]. simpl. rewrite IH. f_equal. unfold kill. simpl. by rewrite Hv.
Qed.

(** A part that stays as it is. *)
Lemma made_cut b B c p R N m r f : made b B c (p :: R) N → p.2 = c ++ m ++ r → m ≠ [] →
  part_of p (Str.len c) m f → Fragment.visible f = Fragment.visible p.1 → Fragment.deletions f = Fragment.deletions p.1 →
  ∃ b', Build.push_fragment b f (Fragment.visible p.1) = Some b' ∧ made b' B (c ++ m) (p :: R) (N ++ [(f, m, Cut)]) ∧
    insertion_offset b' = insertion_offset b.
Proof.
  intros Hm Hp Hne Hpart Hf Hdel. pose proof (made_whole _ _ _ _ _ _ Hm) as Hwp.
  assert (whole (f, m)) as Hwf.
  { eapply part_whole; [done..|]. rewrite Hdel. by destruct Hwp as [(_ & ? & _) _ _ _ _]. }
  destruct Hm as [Hold Hhead Hb Hpatch Hkeys Hkept Htouched].
  assert (p.2 = (c ++ m) ++ r) as Hp' by (by rewrite <-app_assoc).
  apply (built_rest _ _ _ _ _ _ m r Hp) in Hb.
  destruct (build_push _ _ _ _ (fits_visible _ Hfits) (fits_deleted _ Hfits) visible_fits deleted_fits b N _ _ _ f m Cut
    (Fragment.visible p.1) Hwf ltac:(done) Hb) as (b' & Hrun & Hb' & Hoff & Hpt).
  exists b'. split; [done|]. split; [|done].
  assert (atoms_of (f, m) = rest_part p (Str.len c) m) as Hatoms by (by apply part_atoms).
  split.
  - done.
  - by exists r.
  - autorewrite with pieces. by rewrite app_nil_r.
  - rewrite Hpt, consumed_app. autorewrite with pieces. rewrite Hatoms, !Str_as_bytes_app. by apply relates_from_snoc_gap.
  - intros q Hq. eapply (keys_snoc B c p R); [done| |]; [|destruct Hq as [?|[_ [= ->]]]; [by left|by right]].
    intros ->. by eapply part_key.
  - by apply kept_snoc.
  - apply touched_snoc; [done|]. right. intros a. rewrite Hatoms. by apply (remaining_elem B c p R m r).
Qed.

(** A fragment that is passed as a whole. *)
Lemma made_pass b B p R N : made b B [] (p :: R) N →
  ∃ b', Build.push_fragment b p.1 (Fragment.visible p.1) = Some b' ∧ made b' (B ++ [p]) [] R (N ++ [(p, Cut)]) ∧
    insertion_offset b' = insertion_offset b.
Proof.
  intros Hm. pose proof (whole_nonempty _ (made_whole _ _ _ _ _ _ Hm)) as Hne. pose proof (made_whole _ _ _ _ _ _ Hm) as Hwp.
  assert (part_of p (Str.len []) p.2 p.1) as Hpart.
  { split_and!; [done| |by apply whole_len|done]. change (Str.len []) with 0. by rewrite N.add_0_r. }
  destruct (made_cut b B [] p R N p.2 [] p.1 Hm) as (b' & Hrun & Hm' & Hoff); [by rewrite app_nil_r|done..|].
  exists b'. split; [done|]. split; [|done]. rewrite app_nil_l in Hm'. apply made_next in Hm'; [|done]. by destruct p.
Qed.

(** A part that the edit deletes; the patch says so if it was visible. *)
Definition push_struck b p start m : Build :=
  if Fragment.visible p.1 then
    Build.push_edit b (Range.mk start (start + Str.len m)) (Range.mk (Build.new_visible_len b) (Build.new_visible_len b))
  else b.

Lemma made_struck b B c p R N m r f start : made b B c (p :: R) N → p.2 = c ++ m ++ r → m ≠ [] →
  part_of p (Str.len c) m f → Fragment.visible f = false → Fragment.deletions f = Fragment.deletions p.1 ++ [timestamp] →
  observable timestamp → start = Str.len (visible_of (consumed B c (p :: R))) →
  ∃ b1 b', Build.push_slice b timestamp f = Some b1 ∧
    Build.push_fragment (push_struck b1 p start m) f (Fragment.visible p.1) = Some b' ∧
    made b' B (c ++ m) (p :: R) (N ++ [(f, m, Touched)]) ∧ insertion_offset b' = insertion_offset b.
Proof.
  intros Hm Hp Hne Hpart Hf Hdel Hts ->. pose proof (made_whole _ _ _ _ _ _ Hm) as Hwp.
  assert (whole (f, m)) as Hwf.
  { eapply part_whole; [done..| ]. rewrite Hdel. apply Forall_snoc_2; [by destruct Hwp as [(_ & ? & _) _ _ _ _]|done]. }
  destruct Hm as [Hold Hhead Hb Hpatch Hkeys Hkept Htouched].
  assert (p.2 = (c ++ m) ++ r) as Hp' by (by rewrite <-app_assoc).
  apply (built_rest _ _ _ _ _ _ m r Hp) in Hb.
  destruct (build_push_slice _ _ _ _ timestamp _ _ _ _ _ (f, m) Hwf Hb) as (b1 & Hrun1 & Hb1 & Hoff1 & Hpt1).
  set (start := Str.len (visible_of (consumed B c (p :: R)))).
  assert (built (push_struck b1 p start m) N (map (λ p, slice_for timestamp p.1) (touched N) ++ [slice_for timestamp f])
    (if Fragment.visible p.1 then m ++ visible_of (remaining (c ++ m) (p :: R)) else visible_of (remaining (c ++ m) (p :: R)))
    (if Fragment.visible p.1 then deleted_of (remaining (c ++ m) (p :: R)) else m ++ deleted_of (remaining (c ++ m) (p :: R)))) as Hb2.
  { unfold push_struck. destruct (Fragment.visible p.1); [by apply build_push_edit|done]. }
  destruct (build_push _ _ _ _ (fits_visible _ Hfits) (fits_deleted _ Hfits) visible_fits deleted_fits _ N _ _ _ f m Touched
    (Fragment.visible p.1) Hwf ltac:(done) Hb2) as (b' & Hrun & Hb' & Hoff & Hpt).
  exists b1, b'. split; [exact Hrun1|]. split; [done|]. split; [|rewrite Hoff, <-Hoff1; unfold push_struck; by destruct (Fragment.visible p.1)].
  assert (atoms_of (f, m) = map (struck timestamp) (rest_part p (Str.len c) m)) as Hatoms by (by apply part_struck).
  split.
  - done.
  - by exists r.
  - autorewrite with pieces. rewrite map_app. exact Hb'.
  - rewrite Hpt, consumed_app. autorewrite with pieces. rewrite Hatoms, visible_of_struck, visible_rest. unfold push_struck.
    destruct (Fragment.visible p.1); [|rewrite Hpt1; rewrite !app_nil_r; exact Hpatch].
    cbn [Build.push_edit edits_patch]. rewrite Hpt1, (build_visible_len _ _ _ _ _ _ _ _ _ Hb1), !Str_as_bytes_app. simpl.
    pose proof (relates_from_push 0 0 _ _ _ (Str.as_bytes m) [] Hpatch) as Hpush. unfold tail_edit in Hpush. simpl in Hpush.
    by rewrite Nat.add_0_r in Hpush.
  - intros q Hq. eapply (keys_snoc B c p R); [done| |]; [|destruct Hq as [?|[_ [= ->]]]; [by left|by right]].
    intros ->. by eapply part_key.
  - by apply kept_snoc.
  - apply touched_snoc; [done|by left].
Qed.

(** A visible part, as a local edit deletes it. *)
Lemma made_kill b B c p R N m r f start : made b B c (p :: R) N → Fragment.visible p.1 = true → p.2 = c ++ m ++ r → m ≠ [] →
  part_of p (Str.len c) m f → Fragment.visible f = false → Fragment.deletions f = Fragment.deletions p.1 ++ [timestamp] →
  observable timestamp → start = Str.len (visible_of (consumed B c (p :: R))) →
  ∃ b1 b', Build.push_slice (Build.push_edit b (Range.mk start (start + Str.len m))
      (Range.mk (Build.new_visible_len b) (Build.new_visible_len b))) timestamp f = Some b1 ∧
    Build.push_fragment b1 f true = Some b' ∧ made b' B (c ++ m) (p :: R) (N ++ [(f, m, Touched)]) ∧
    insertion_offset b' = insertion_offset b.
Proof.
  intros Hm Hvis Hp Hne Hpart Hf Hdel Hts Hstart.
  destruct (made_struck b B c p R N m r f start Hm Hp Hne Hpart Hf Hdel Hts Hstart) as (b1 & b' & Hslice & Hpush & Hm' & Hoff).
  rewrite Hvis in Hpush. unfold push_struck in Hpush. rewrite Hvis in Hpush.
  unfold Build.push_slice in *. destruct (InsertionSlice.from_fragment timestamp f) as [slice|]; [|done].
  cbn [mbind option_bind] in *. injection Hslice as <-. by eexists _, b'.
Qed.

(** A text that is inserted. *)
Lemma made_insert b B c R N text next id start : made b B c R N → observable timestamp → str_ok text → text ≠ [] →
  (insertion_offset b + N.of_nat (Str.len text) <= u32_max)%N → Locator.between (Build.max_id b) next = Some id →
  start = Str.len (visible_of (consumed B c R)) →
  ∃ b1, Build.push_fragments_for_insertion b text timestamp next timestamp = Some b1 ∧
    made (Build.push_edit b1 (Range.mk start start) (Range.mk (Build.new_visible_len b) (Build.new_visible_len b + Str.len text)))
      B c R (N ++ [(inserted_fragment timestamp id (insertion_offset b) text, text, Touched)]) ∧
    insertion_offset b1 = (insertion_offset b + N.of_nat (Str.len text))%N.
Proof.
  intros [Hold Hhead Hb Hpatch Hkeys Hkept Htouched] Hts Htext Hne Hlen Hid ->.
  rewrite (build_visible_len _ _ _ _ _ _ _ _ _ Hb).
  destruct (build_insertion _ _ _ _ timestamp visible_fits deleted_fits b N _ _ _ text next id Hb Hts Htext Hne Hlen Hid) as (b1 & Hrun & Hb1 & Hoff & Hpt).
  exists b1. split; [done|]. split; [|done]. split.
  - done.
  - done.
  - apply build_push_edit. autorewrite with pieces. rewrite map_app. exact Hb1.
  - cbn [Build.push_edit edits_patch]. rewrite Hpt. autorewrite with pieces. rewrite visible_of_atoms_of. simpl. rewrite Str_as_bytes_app.
    pose proof (relates_from_push 0 0 _ _ _ [] (Str.as_bytes text) Hpatch) as Hpush. unfold tail_edit in Hpush. simpl in Hpush.
    by rewrite !Nat.add_0_r, app_nil_r in Hpush.
  - intros q Hq. rewrite pieces_app, map_app. apply elem_of_app. left. by apply Hkeys.
  - by apply kept_snoc.
  - apply touched_snoc; [done|by left].
Qed.
End made.
