(* ===== verification/EditSteps.v ===== *)
(** * The statements of an edit

    Each statement of the loop over the edits takes one state of the edit to
    another: it consumes the next old atoms and makes the same atoms, or the
    inserted, or the deleted ones. *)

From S2P Require Import Prelude Clock Locator SumTree SumTreeFacts Seek Cursor CursorFacts CursorWalk Keyed KeyedFacts UndoMap TreeMap TreeMapFacts Patch PatchFacts Points Utf8 TextSummary RopeTree Rope RopeFacts RopeSeek RopeCut LineEnding Operation Fragment FragmentFacts Snapshot EditSpec EditInv EditState.

Import BufferSnapshot.

Implicit Types (N : list entry) (B R X Y : list piece) (p : piece) (f : Fragment) (c m r : str).

Lemma visible_monotone (k : nat) (d : FragmentTextSummary) (fs : list Fragment) : Forall fragment_ok fs →
  monotone (visible_target k) d fs.
Proof.
  intros Hfs l1 l2 l3 ->. apply Forall_app in Hfs as [H1 [H2 _]%Forall_app]. unfold visible_target.
  rewrite !text_after by (by rewrite ?Forall_app). simpl. rewrite visible_len_app.
  destruct d as [v e]. generalize (visible_len l1), (visible_len l2). intros x y. unfold cmp, nat_ord. simpl.
  destruct (Nat.compare_spec k (v + x)), (Nat.compare_spec k (v + (x + y))); simpl; lia.
Qed.

Lemma stops_right (start v e : nat) : stops (visible_target start) Right (FragmentTextSummary.mk v e) = (start <? v).
Proof.
  unfold stops, visible_target, cmp, nat_ord. simpl. unfold SumTree.target_in_child.
  destruct (Nat.compare_spec start v), (Nat.ltb_spec start v); (done || lia).
Qed.

Section steps.
Context (self : BufferSnapshot) (L : list piece) (timestamp : Lamport).
Context (Hok : snapshot_ok self L) (Hfits : snapshot_fits self).
Implicit Types (st : edit_state).

Let whole_all : Forall whole L := ok_whole _ _ Hok.

Lemma fragments_searchable : searchable (fragments self).
Proof. split; [apply Hok|apply Hfits]. Qed.

Record inv st B c R N : Prop := {
  inv_cursor : split_at (fragments self) (old_fragments st) (map fst B) (map fst R);
  inv_made : made self L timestamp (build st) B c R N;
  inv_ids : ids_ok (ids_of (pieces N ++ R));
  inv_uncut : uncut c R;
}.

Definition started st B c R : Prop := fragment_start st = Str.len (visible_of (consumed B c R)).

(** What the statements before [ranges.push] leave alone. *)
Definition frame st st' : Prop := ranges st' = ranges st ∧ new_texts st' = new_texts st ∧
  insertion_offset (build st') = insertion_offset (build st).

#[export] Instance frame_preorder : PreOrder frame.
Proof. split; [done|]. intros ? ? ? (? & ? & ?) (? & ? & ?). split_and!; congruence. Qed.

(** *** What a cursor says *)

Lemma old_whole B R : L = B ++ R → Forall whole B ∧ Forall whole R.
Proof. intros HL. rewrite HL in whole_all. by apply Forall_app. Qed.

Lemma start_after B R : L = B ++ R → pos_after (dim_zero : FragmentTextSummary) (map fst B) =
  FragmentTextSummary.mk (Str.len (visible_of (atoms B))) (Str.len (deleted_of (atoms B))).
Proof.
  intros [HB _]%old_whole. rewrite text_after by by apply whole_fragments. simpl.
  by rewrite visible_len_pieces, deleted_len_pieces.
Qed.

Lemma inv_start st B c R N : inv st B c R N → Cursor.start (old_fragments st) =
  FragmentTextSummary.mk (Str.len (visible_of (atoms B))) (Str.len (deleted_of (atoms B))).
Proof. intros [Hc Hm _ _]. rewrite (split_at_start _ _ _ _ Hc). eapply start_after, Hm. Qed.

Lemma inv_start_visible st B c R N : inv st B c R N → start_visible st = Str.len (visible_of (atoms B)).
Proof. intros Hst. unfold start_visible. by rewrite (inv_start _ _ _ _ _ Hst). Qed.

Lemma inv_end st B c R N : inv st B c R N → end_visible st = Some (Str.len (visible_of (atoms (B ++ option_list (head R))))).
Proof.
  intros [Hc Hm _ _]. unfold end_visible. rewrite (split_at_end _ _ _ _ Hc). cbn [mbind option_bind].
  assert (map fst B ++ option_list (head (map fst R)) = map fst (B ++ option_list (head R))) as ->.
  { rewrite map_app. by destruct R. }
  rewrite (start_after (B ++ option_list (head R)) (tail R)); [done|]. rewrite (made_old _ _ _ _ _ _ _ _ Hm).
  rewrite <-app_assoc. f_equal. by destruct R.
Qed.

Lemma inv_item st B c R N : inv st B c R N → Cursor.item (old_fragments st) = Some (fst <$> head R).
Proof. intros [Hc _ _ _]. rewrite (split_at_item _ _ _ _ Hc). by destruct R. Qed.

Lemma inv_some_item st B c p R N : inv st B c (p :: R) N → item st = Some p.1.
Proof. intros Hst. unfold item. by rewrite (inv_item _ _ _ _ _ Hst). Qed.

Lemma inv_next st B c p R N N' b : inv st B c (p :: R) N → made self L timestamp b (B ++ [p]) [] R N' →
  ids_ok (ids_of (pieces N' ++ R)) →
  ∃ cur, Cursor.next (old_fragments st) = Some cur ∧
    ∀ start, inv (mkEdit cur start b (ranges st) (new_texts st)) (B ++ [p]) [] R N'.
Proof.
  intros [Hc _ _ _] Hm Hids. destruct (next_spec _ fragments_searchable _ _ _ _ Hc) as (cur & Hnext & Hcur).
  exists cur. split; [done|]. intros start. split; simpl; [by rewrite map_app|done..|apply uncut_nil].
Qed.

Lemma inv_whole st B c p R N : inv st B c (p :: R) N → whole p.
Proof. intros [_ Hm _ _]. eapply made_whole; done. Qed.

Lemma started_len st B c R N : inv st B c R N → started st B c R → fragment_start st = Str.len (visible_of (atoms B)) + Str.len c.
Proof.
  intros Hst ->. rewrite (visible_consumed _ _ _ (made_head _ _ _ _ _ _ _ _ (inv_made _ _ _ _ _ Hst)) (inv_uncut _ _ _ _ _ Hst)). apply Str_len_app.
Qed.

(** The offsets of a part of the first fragment. *)
Lemma part_spec st B c p R N m r : inv st B c (p :: R) N → started st B c (p :: R) → p.2 = c ++ m ++ r →
  part st p.1 (fragment_start st + Str.len m) =
    Some (Fragment.set_range p.1 (Fragment.insertion_offset p.1 + N.of_nat (Str.len c)) (N.of_nat (Str.len m))).
Proof.
  intros Hst Hstart Hp. pose proof (whole_offset _ (inv_whole _ _ _ _ _ _ Hst)) as Hoff. rewrite Hp, !Str_len_app in Hoff.
  unfold part. rewrite (inv_start_visible _ _ _ _ _ Hst), !(started_len _ _ _ _ _ Hst Hstart).
  unfold checked_sub_nat. rewrite !rassert_true by (apply Nat.leb_le; lia). cbn [mbind option_bind].
  rewrite !Nat.add_sub', !as_u32_small, checked_add_Some by lia. done.
Qed.

Lemma inv_end_head st B c p R N : inv st B c (p :: R) N →
  end_visible st = Some (Str.len (visible_of (atoms B)) + if Fragment.visible p.1 then Str.len p.2 else 0).
Proof.
  intros Hst. rewrite (inv_end _ _ _ _ _ Hst). simpl. autorewrite with pieces. rewrite Str_len_app, visible_of_atoms_of.
  by destruct (Fragment.visible p.1).
Qed.

(** ** The end of a fragment *)

Lemma finish_fragment_spec st B c R N : inv st B c R N → started st B c R →
  ∃ st' B' R' N' G, finish_fragment st = Some st' ∧ inv st' B' [] R' N' ∧ frame st st' ∧
    atoms (pieces N') = atoms (pieces N) ++ G ∧ atoms B' = consumed B c R ++ G ∧
    (∀ e, end_visible st = Some e → Str.len (visible_of (atoms B')) <= e).
Proof.
  intros Hst Hstart. pose proof (started_len _ _ _ _ _ Hst Hstart) as Hlen. unfold finish_fragment.
  rewrite (inv_start_visible _ _ _ _ _ Hst), Hlen. destruct (decide (c = [])) as [->|Hc].
  { change (Str.len []) with 0. rewrite Nat.add_0_r, Nat.ltb_irrefl. exists st, B, R, N, [].
    rewrite consumed_nil, !app_nil_r. split_and!; [done..|]. rewrite (inv_end _ _ _ _ _ Hst). intros e [= <-].
    autorewrite with pieces. rewrite Str_len_app. lia. }
  pose proof (str_nonempty _ Hc) as Hpos. rewrite (proj2 (Nat.ltb_lt _ _)) by lia.
  pose proof (made_head _ _ _ _ _ _ _ _ (inv_made _ _ _ _ _ Hst)) as Hhead. pose proof (inv_uncut _ _ _ _ _ Hst) as Hv.
  destruct R as [|p R]; [by simpl in Hhead|]. destruct Hhead as [r Hr]. simpl in Hv.
  assert (Fragment.visible p.1 = true) as Hvis by (destruct (Fragment.visible p.1); [done|]; by rewrite Hv in Hc).
  rewrite (inv_end_head _ _ _ _ _ _ Hst), Hvis, Hr, Str_len_app. cbn [mbind option_bind].
  destruct (decide (r = [])) as [->|Hne].
  - change (Str.len []) with 0. rewrite Nat.add_0_r, Nat.ltb_irrefl. cbn [mbind option_bind]. rewrite app_nil_r in Hr.
    pose proof (made_next _ _ _ Hok _ _ _ _ _ _ (inv_made _ _ _ _ _ Hst) Hr) as Hm.
    destruct (inv_next _ _ _ _ _ _ _ _ Hst Hm) as (cur & -> & Hinv).
    { pose proof (inv_ids _ _ _ _ _ Hst) as Hids. unfold ids_of in *. rewrite map_app in Hids |- *. by eapply ids_cut. }
    cbn [mbind option_bind]. eexists _, (B ++ [p]), R, N, []. split; [done|]. split; [apply Hinv|]. split; [done|].
    rewrite !app_nil_r. split; [done|]. rewrite (consumed_all B c p R Hr), consumed_nil. split; [done|].
    intros e [= <-]. autorewrite with pieces. rewrite Str_len_app, visible_of_atoms_of, Hvis, Hr. lia.
  - pose proof (str_nonempty _ Hne) as Hpos'. rewrite (proj2 (Nat.ltb_lt _ _)) by lia.
    rewrite (inv_some_item _ _ _ _ _ _ Hst). cbn [mbind option_bind].
    assert (p.2 = c ++ r ++ []) as Hr' by (by rewrite app_nil_r).
    rewrite Nat.add_assoc, <-Hlen, (part_spec _ _ _ _ _ _ r [] Hst Hstart Hr'). cbn [mbind option_bind Fragment.visible Fragment.set_range].
    rewrite Hvis.
    destruct (made_cut _ _ _ Hok Hfits _ _ _ _ _ _ r [] _ (inv_made _ _ _ _ _ Hst) Hr' Hne (part_of_range p (Str.len c) r) eq_refl eq_refl)
      as (b & Hrun & Hm & Hoff); rewrite Hvis in Hrun; rewrite Hrun. cbn [mbind option_bind].
    apply made_next in Hm; [|done..].
    destruct (inv_next _ _ _ _ _ _ _ _ Hst Hm) as (cur & Hnext & Hinv).
    { pose proof (inv_ids _ _ _ _ _ Hst) as Hids. rewrite pieces_app, <-app_assoc. unfold ids_of in *.
      rewrite !map_app in Hids |- *. exact Hids. }
    cbn [with_build old_fragments]. rewrite Hnext. cbn [mbind option_bind].
    eexists _, (B ++ [p]), R, _, (rest_part p (Str.len c) r). split; [done|]. split; [apply Hinv|]. split; [done|].
    split_and!.
    + autorewrite with pieces. f_equal. by apply part_atoms.
    + by rewrite <-consumed_app, (consumed_all B (c ++ r) p R), consumed_nil.
    + intros e [= <-]. autorewrite with pieces. rewrite Str_len_app, visible_of_atoms_of, Hvis, Hr, Str_len_app. lia.
Qed.

(** ** Up to the start of an edit *)

(** The next part of the first fragment. *)
Definition within c m R : Prop :=
  m = [] ∨ ∃ p R' r, R = p :: R' ∧ Fragment.visible p.1 = true ∧ p.2 = c ++ m ++ r.

Lemma visible_of_remaining c p R r : p.2 = c ++ r →
  visible_of (remaining c (p :: R)) = (if Fragment.visible p.1 then r else []) ++ visible_of (atoms R).
Proof. intros Hp. rewrite (remaining_cons _ _ _ _ Hp), visible_of_app. by rewrite visible_rest. Qed.

(** Slicing up to an offset. *)
Lemma slice_to cur B R start : ready (fragments self) cur (map fst B) (map fst R) → L = B ++ R →
  Str.len (visible_of (atoms B)) <= start → 
  ∃ t cur' X Y, Cursor.slice (visible_target start) Right cur = Some (t, cur') ∧ tree_ok t ∧ to_list t = map fst X ∧
    split_at (fragments self) cur' (map fst (B ++ X)) (map fst Y) ∧ R = X ++ Y ∧
    Str.len (visible_of (atoms (B ++ X))) <= start ∧
    match Y with [] => True | p :: _ => start < Str.len (visible_of (atoms (B ++ X ++ [p]))) end.
Proof.
  intros Hcur HL Hle. pose proof (old_whole _ _ HL) as [HB HR].
  assert (Hmono := visible_monotone start (pos_after dim_zero (map fst B)) (map fst R) (whole_fragments _ HR)).
  assert (visible_target start (pos_after dim_zero (map fst B)) ≠ Lt) as Hge.
  { rewrite (start_after _ _ HL). unfold visible_target, cmp, nat_ord. simpl. destruct (Nat.compare_spec start
      (Str.len (visible_of (atoms B)))); [done|lia|done]. }
  pose proof (slice_spec (fragments self) (visible_target start) Right (exact:=true) cur _ _ fragments_searchable Hcur Hmono Hge) as Hslice.
  destruct (lin_seek _ _ _ _) as [[b pos] r] eqn:Hseek. destruct Hslice as (t & cur' & Hrun & Ht & Hlist & Hcur').
  pose proof (lin_seek_split _ _ _ _ _ _ _ Hseek) as (Hsplit & Hpos & Hstop).
  apply map_eq_app in Hsplit as (X & Y & -> & <- & <-).
  exists t, cur', X, Y. rewrite map_app. split_and!; [done..| |].
  - destruct (decide (X = [])) as [->|HX]; [by rewrite app_nil_r|].
    pose proof (lin_seek_passed _ _ _ _ _ _ _ Hseek ltac:(by destruct X)) as Hpassed.
    rewrite Hpos, <-pos_after_app, <-map_app, (start_after _ Y), stops_right in Hpassed by (by rewrite <-app_assoc).
    by apply Nat.ltb_ge in Hpassed.
  - destruct Y as [|p Y]; [done|].
    assert (stops (visible_target start) Right (pos_after dim_zero (map fst (B ++ X ++ [p]))) = true) as Hnext.
    { rewrite !map_app, !pos_after_app, <-Hpos. exact Hstop. }
    rewrite (start_after _ Y), stops_right in Hnext by (by rewrite HL, <-!app_assoc). by apply Nat.ltb_lt in Hnext.
Qed.

Lemma slice_lands B X Y g rest : visible_of (atoms (X ++ Y)) = g ++ rest →
  Str.len (visible_of (atoms (B ++ X))) <= Str.len (visible_of (atoms B)) + Str.len g →
  match Y with [] => True | p :: _ => Str.len (visible_of (atoms B)) + Str.len g < Str.len (visible_of (atoms (B ++ X ++ [p]))) end →
  ∃ m, g = visible_of (atoms X) ++ m ∧ visible_of (atoms Y) = m ++ rest ∧ within [] m Y.
Proof.
  autorewrite with pieces. rewrite Str_len_app. intros Hsplit Hle Hnext.
  destruct (str_cut _ _ _ _ (eq_sym Hsplit)) as (m & Hm & HY); [lia|]. exists m. split_and!; [done..|].
  destruct (decide (m = [])) as [->|Hne]; [by left|]. right.
  destruct Y as [|p Y]; [by destruct m|]. autorewrite with pieces in Hnext. rewrite !Str_len_app, visible_of_atoms_of in Hnext.
  rewrite Hm, Str_len_app in Hnext. pose proof (str_nonempty _ Hne).
  destruct (Fragment.visible p.1) eqn:Hvis; [|change (Str.len []) with 0 in Hnext; lia].
  rewrite atoms_cons, visible_of_app, visible_of_atoms_of, Hvis in HY.
  destruct (str_cut p.2 (visible_of (atoms Y)) m rest HY) as (x & Hx & _); [lia|]. by exists p, Y, x.
Qed.

(** Nothing to skip. *)
Lemma head_within st B c R N g rest e : inv st B c R N → visible_of (remaining c R) = g ++ rest → end_visible st = Some e →
  Str.len (visible_of (atoms B)) + Str.len c + Str.len g <= e → within c g R.
Proof.
  intros Hst Hrest He Hle. destruct (decide (g = [])) as [->|Hne]; [by left|]. right. pose proof (str_nonempty _ Hne).
  pose proof (made_head _ _ _ _ _ _ _ _ (inv_made _ _ _ _ _ Hst)) as Hhead. pose proof (inv_uncut _ _ _ _ _ Hst) as Hv.
  destruct R as [|p R]; [by destruct g|]. destruct Hhead as [r Hr]. simpl in Hv.
  rewrite (visible_of_remaining _ _ _ _ Hr) in Hrest. rewrite (inv_end_head _ _ _ _ _ _ Hst) in He. injection He as <-.
  destruct (Fragment.visible p.1) eqn:Hvis; [|lia]. rewrite Hr, Str_len_app in Hle.
  destruct (str_cut r (visible_of (atoms R)) g rest Hrest) as (x & -> & _); [lia|]. by exists p, R, x.
Qed.

Lemma seek_start_spec st B c R N g rest : inv st B c R N → started st B c R → visible_of (remaining c R) = g ++ rest →
  ∃ st' B' c' R' N' G m, seek_start st (fragment_start st + Str.len g) = Some st' ∧ inv st' B' c' R' N' ∧
    started st' B' c' R' ∧ frame st st' ∧ atoms (pieces N') = atoms (pieces N) ++ G ∧
    consumed B' c' R' = consumed B c R ++ G ∧ g = visible_of G ++ m ∧ within c' m R' ∧ visible_of (remaining c' R') = m ++ rest.
Proof.
  intros Hst Hstart Hrest. pose proof (started_len _ _ _ _ _ Hst Hstart) as Hlen. unfold seek_start.
  destruct (end_visible st) as [e|] eqn:He; [|by rewrite (inv_end _ _ _ _ _ Hst) in He]. cbn [mbind option_bind].
  destruct (Nat.ltb_spec e (fragment_start st + Str.len g)) as [Hlt|Hge].
  2: { exists st, B, c, R, N, [], g. rewrite !app_nil_r. split_and!; [done..| |done]. eapply head_within; [done..|lia]. }
  destruct (finish_fragment_spec _ _ _ _ _ Hst Hstart) as (st1 & B1 & R1 & N1 & G1 & -> & Hst1 & Hframe & HN1 & HB1 & Hend).
  cbn [mbind option_bind]. specialize (Hend e He).
  pose proof (inv_made _ _ _ _ _ Hst) as Hm. pose proof (inv_made _ _ _ _ _ Hst1) as Hm1.
  assert (visible_of G1 ++ visible_of (atoms R1) = g ++ rest) as Hg.
  { rewrite <-Hrest, <-visible_of_app. f_equal. apply (app_inv_head (consumed B c R)). rewrite app_assoc, <-HB1.
    rewrite (consumed_remaining _ _ _ (made_head _ _ _ _ _ _ _ _ Hm)), <-(made_old _ _ _ _ _ _ _ _ Hm), (made_old _ _ _ _ _ _ _ _ Hm1).
    by rewrite atoms_app. }
  assert (Str.len (visible_of (atoms B1)) = fragment_start st + Str.len (visible_of G1)) as HlB1
    by (by rewrite HB1, visible_of_app, Str_len_app, <-Hstart).
  destruct (str_cut _ _ _ _ (eq_sym Hg)) as (g1 & -> & Hg1); [lia|]. rewrite Str_len_app.
  destruct (slice_to (old_fragments st1) B1 R1 (fragment_start st + (Str.len (visible_of G1) + Str.len g1)))
    as (t & cur & X & Y & -> & Ht & Hlist & Hcur & -> & Hle & Hnext);
    [apply ready_split, Hst1|apply Hm1|lia|]. cbn [mbind option_bind].
  destruct (made_append _ _ _ Hok Hfits _ _ _ _ _ t Hm1 Ht Hlist) as (b & -> & Hb & Hoff). cbn [mbind option_bind].
  destruct (slice_lands B1 X Y g1 rest Hg1) as (m & -> & HY & Hwithin); [lia|destruct Y; [done|lia]|].
  eexists _, (B1 ++ X), [], Y, (N1 ++ kept X), (G1 ++ atoms X), m. split; [done|].
  split; [split; [exact Hcur|exact Hb|autorewrite with pieces; rewrite <-app_assoc; apply Hst1|apply uncut_nil]|].
  split; [|split; [|split_and!]].
  - unfold started, start_visible. cbn [with_start with_cursor with_build fragment_start old_fragments].
    rewrite (split_at_start _ _ _ _ Hcur), (start_after _ Y), consumed_nil; [done|]. rewrite <-app_assoc. apply Hm1.
  - etrans; [exact Hframe|]. by split_and!.
  - autorewrite with pieces. by rewrite HN1, app_assoc.
  - rewrite consumed_nil, atoms_app, HB1. by rewrite app_assoc.
  - by rewrite visible_of_app, app_assoc.
  - done.
  - by rewrite remaining_nil.
Qed.
(** What is left once more has been consumed. *)
Lemma remaining_step st st' B c R N B' c' R' N' G : inv st B c R N → inv st' B' c' R' N' →
  consumed B' c' R' = consumed B c R ++ G → remaining c R = G ++ remaining c' R'.
Proof.
  intros [_ Hm _ _] [_ Hm' _ _] HG. apply (app_inv_head (consumed B c R)). rewrite app_assoc, <-HG.
  rewrite !consumed_remaining by (by eapply made_head). by rewrite <-(made_old _ _ _ _ _ _ _ _ Hm), <-(made_old _ _ _ _ _ _ _ _ Hm').
Qed.

(** An id in front of the first old fragment. *)
Lemma inv_between st B c R N : inv st B c R N →
  ∃ id, Locator.between (Build.max_id (build st)) (next_id R) = Some id ∧ ids_ok (ids_of (pieces N) ++ id :: ids_of R).
Proof.
  intros [_ Hm Hids _]. by eapply made_between.
Qed.

Lemma push_prefix_spec st B c R N m : inv st B c R N → started st B c R → within c m R →
  ∃ st' N' G, push_prefix st (fragment_start st + Str.len m) = Some st' ∧ inv st' B (c ++ m) R N' ∧
    started st' B (c ++ m) R ∧ frame st st' ∧ old_fragments st' = old_fragments st ∧
    atoms (pieces N') = atoms (pieces N) ++ G ∧ consumed B (c ++ m) R = consumed B c R ++ G ∧ visible_of G = m.
Proof.
  intros Hst Hstart Hm. unfold push_prefix. destruct (decide (m = [])) as [->|Hne].
  { change (Str.len []) with 0. rewrite Nat.add_0_r, Nat.ltb_irrefl. exists st, N, []. rewrite !app_nil_r. by split_and!. }
  destruct Hm as [->|(p & R' & r & -> & Hvis & Hp)]; [done|]. pose proof (str_nonempty _ Hne).
  rewrite (proj2 (Nat.ltb_lt _ _)) by lia. rewrite (inv_some_item _ _ _ _ _ _ Hst). cbn [mbind option_bind].
  rewrite (part_spec _ _ _ _ _ _ m r Hst Hstart Hp). cbn [mbind option_bind Fragment.id Fragment.set_range].
  destruct (inv_between _ _ _ _ _ Hst) as (id & Hid & Hids). unfold next_id in Hid. simpl in Hid. rewrite Hid. cbn [mbind option_bind].
  pose proof (part_of_range p (Str.len c) m) as Hpart. set (f := Fragment.set_range _ _ _) in *.
  assert (part_of p (Str.len c) m (Fragment.set_id f id)) as Hpart' by done.
  destruct (made_cut _ _ _ Hok Hfits _ _ _ _ _ _ m r _ (inv_made _ _ _ _ _ Hst) Hp Hne Hpart' eq_refl eq_refl) as (b & Hrun & Hm & Hoff).
  cbn [Fragment.visible Fragment.set_id f Fragment.set_range] in *. rewrite Hvis in Hrun |- *. rewrite Hrun. cbn [mbind option_bind].
  eexists _, _, (rest_part p (Str.len c) m). split; [done|]. split; [split; [apply Hst|exact Hm|by rewrite ids_snoc|by simpl; congruence]|].
  split_and!; [|done..| | |].
  - unfold started. cbn [with_start fragment_start]. rewrite consumed_app, visible_of_app, Str_len_app, visible_rest, Hvis.
    by rewrite <-Hstart.
  - autorewrite with pieces. f_equal. by apply part_atoms.
  - apply consumed_app.
  - by rewrite visible_rest, Hvis.
Qed.

(** ** The inserted text *)

Lemma push_insertion_spec st B c R N text : inv st B c R N → started st B c R → observable timestamp → str_ok text →
  (insertion_offset (build st) + N.of_nat (Str.len text) <= u32_max)%N →
  ∃ st' N', push_insertion timestamp st text = Some st' ∧ inv st' B c R N' ∧ started st' B c R ∧
    ranges st' = ranges st ∧ new_texts st' = new_texts st ∧
    insertion_offset (build st') = (insertion_offset (build st) + N.of_nat (Str.len text))%N ∧
    atoms (pieces N') = atoms (pieces N) ++ inserted timestamp (insertion_offset (build st)) text.
Proof.
  intros Hst Hstart Hts Htext Hlen. unfold push_insertion. destruct text as [|x text].
  { exists st, N. change (Str.len []) with 0. rewrite N.add_0_r, app_nil_r. by split_and!. }
  remember (x :: text) as t eqn:Heq. assert (t ≠ []) as Hne by (by subst). clear x text Heq.
  rewrite (inv_item _ _ _ _ _ Hst). cbn [mbind option_bind].
  destruct (inv_between _ _ _ _ _ Hst) as (id & Hid & Hids).
  assert (match fst <$> head R with Some f => Fragment.id f | None => Locator.max end = next_id R) as -> by (by destruct R).
  destruct (made_insert _ _ _ Hok Hfits _ _ _ _ _ t _ id (fragment_start st) (inv_made _ _ _ _ _ Hst) Hts Htext Hne Hlen Hid Hstart)
    as (b & -> & Hm & Hoff). cbn [mbind option_bind].
  eexists _, _. split; [done|]. split; [split; [apply Hst|exact Hm|by rewrite ids_snoc|apply Hst]|]. split_and!; [done..|].
  autorewrite with pieces. f_equal. by apply atoms_from_ext.
Qed.

(** ** The deleted text *)

Lemma map_kill_invisible A : Forall (λ a, atom_visible a = false) A → map (kill timestamp) A = A.
Proof. induction 1 as [|a A Ha _ IH]; [done|]. simpl. rewrite IH. unfold kill. by rewrite Ha. Qed.

Lemma atoms_of_invisible p : Fragment.visible p.1 = false → Forall (λ a, atom_visible a = false) (atoms_of p).
Proof.
  intros Hv. unfold atoms_of. generalize (Fragment.insertion_offset p.1). induction p.2 as [|x s IH]; intros o; constructor; [done|].
  apply IH.
Qed.

(** An iteration consumes the part of the first fragment that is deleted. *)
Lemma delete_step_spec st B c p R N old rest : inv st B c (p :: R) N → started st B c (p :: R) → observable timestamp →
  visible_of (remaining c (p :: R)) = old ++ rest → old ≠ [] →
  ∃ st' B' c' R' N' M old', delete_step timestamp st (fragment_start st + Str.len old) = Some st' ∧ inv st' B' c' R' N' ∧
    started st' B' c' R' ∧ frame st st' ∧ atoms (pieces N') = atoms (pieces N) ++ map (kill timestamp) M ∧
    consumed B' c' R' = consumed B c (p :: R) ++ M ∧ old = visible_of M ++ old' ∧ (old' = [] ∨ R' = R).
Proof.
  intros Hst Hstart Hts Hrest Hold. pose proof (started_len _ _ _ _ _ Hst Hstart) as Hlen.
  pose proof (made_head _ _ _ _ _ _ _ _ (inv_made _ _ _ _ _ Hst)) as [r Hr]. pose proof (inv_uncut _ _ _ _ _ Hst) as Hv. simpl in Hv.
  pose proof (inv_whole _ _ _ _ _ _ Hst) as Hp. pose proof (whole_nonempty _ Hp) as Hpne.
  pose proof (inv_ids _ _ _ _ _ Hst) as Hids. unfold ids_of in Hids. rewrite map_app in Hids. cbn [map] in Hids.
  unfold delete_step. rewrite (inv_some_item _ _ _ _ _ _ Hst), (inv_end_head _ _ _ _ _ _ Hst). cbn [mbind option_bind].
  rewrite (visible_of_remaining _ _ _ _ Hr) in Hrest. pose proof (str_nonempty _ Hold).
  destruct (Fragment.visible p.1) eqn:Hvis.
  - destruct (common_prefix r (visible_of (atoms R)) old rest Hrest) as (m & y & old' & -> & -> & Hor).
    clear Hv.
    assert (Nat.min (fragment_start st + Str.len (m ++ old')) (Str.len (visible_of (atoms B)) + Str.len p.2) =
      fragment_start st + Str.len m) as ->.
    { rewrite Hr, !Str_len_app, Hlen. destruct Hor as [->| ->]; change (Str.len []) with 0; lia. }
    rewrite (part_spec _ _ _ _ _ _ m y Hst Hstart Hr). cbn [mbind option_bind Fragment.id Fragment.set_range].
    destruct (inv_between _ _ _ _ _ Hst) as (id & Hid & Hids'). unfold next_id in Hid. cbn [head] in Hid. rewrite Hid.
    cbn [mbind option_bind]. set (f := Fragment.set_visible _ _).
    assert (part_of p (Str.len c) m f) as Hpart by done.
    assert (Fragment.len f = N.of_nat (Str.len m)) as -> by done.
    destruct (decide (m = [])) as [->|Hne].
    + destruct Hor as [->|Hor]; [|by rewrite Hor in Hold]. change (Str.len []) with 0.
      change (0 <? N.of_nat 0)%N with false.
      rewrite !app_nil_r in Hr. cbn [mbind option_bind]. rewrite Hr.
      rewrite (proj2 (Nat.leb_le _ _)) by lia.
      pose proof (made_next _ _ _ Hok _ _ _ _ _ _ (inv_made _ _ _ _ _ Hst) Hr) as Hm.
      destruct (inv_next _ _ _ _ _ _ _ _ Hst Hm) as (cur & -> & Hinv).
      { unfold ids_of. rewrite map_app. by eapply ids_cut. }
      cbn [mbind option_bind]. eexists _, (B ++ [p]), [], R, N, [], old'. split; [done|]. split; [apply Hinv|].
      rewrite <-(consumed_all B c p R Hr), !app_nil_r. split_and!; [|done..|by right].
      unfold started. cbn [with_cursor fragment_start]. by rewrite <-(consumed_all B c p R Hr).
    + pose proof (str_nonempty _ Hne). rewrite (proj2 (N.ltb_lt _ _)) by lia.
      destruct (made_kill _ _ _ Hok Hfits _ _ _ _ _ _ m y f (fragment_start st) (inv_made _ _ _ _ _ Hst) Hvis Hr Hne Hpart eq_refl eq_refl Hts Hstart)
        as (b1 & b & Hrun1 & Hrun & Hm & Hoff).
      cbn [andb negb Fragment.visible f Fragment.set_visible]. rewrite Hrun1. cbn [mbind option_bind]. rewrite Hrun. cbn [mbind option_bind].
      cbn [with_start with_build old_fragments].
      assert (atoms (pieces (N ++ [(f, m, Touched)])) = atoms (pieces N) ++ map (kill timestamp) (rest_part p (Str.len c) m)) as Hatoms.
      { autorewrite with pieces. f_equal. by apply part_killed. }
      assert (Str.len (visible_of (consumed B (c ++ m) (p :: R))) = fragment_start st + Str.len m) as Hstart'.
      { by rewrite consumed_app, visible_of_app, Str_len_app, visible_rest, Hvis, <-Hstart. }
      rewrite Hr, !Str_len_app.
      destruct (decide (y = [])) as [->|Hy].
      * change (Str.len []) with 0. rewrite (proj2 (Nat.leb_le _ _)) by lia. rewrite app_nil_r in Hr.
        apply made_next in Hm; [|done..].
        destruct (inv_next _ _ _ _ _ _ _ _ Hst Hm) as (cur & -> & Hinv).
        { rewrite ids_snoc. pose proof (ids_cut (ids_of (pieces N) ++ [id]) (Fragment.id p.1) (ids_of R)) as Hcut.
          rewrite <-!app_assoc in Hcut. exact (Hcut Hids'). }
        cbn [mbind option_bind]. eexists _, (B ++ [p]), [], R, _, (rest_part p (Str.len c) m), old'. split; [done|]. split; [apply Hinv|].
        rewrite <-(consumed_all B (c ++ m) p R Hr). split_and!; [|done|done|by apply consumed_app|by rewrite visible_rest, Hvis|by right].
        unfold started. cbn [with_cursor fragment_start]. by rewrite <-(consumed_all B (c ++ m) p R Hr).
      * destruct Hor as [?| ->]; [done|]. pose proof (str_nonempty _ Hy). change (Str.len []) with 0.
        rewrite (proj2 (Nat.leb_gt _ _)) by lia.
        eexists _, B, (c ++ m), (p :: R), _, (rest_part p (Str.len c) m), []. split; [done|].
        split; [split; [apply Hst|exact Hm|by rewrite ids_snoc|by simpl; congruence]|].
        split_and!; [done..|by apply consumed_app|by rewrite visible_rest, Hvis, app_nil_r|by left].
  - rewrite Hv in * by done. clear Hv. change (Str.len []) with 0 in Hlen. rewrite Nat.add_0_r in Hlen. rewrite Nat.add_0_r, <-Hlen.
    rewrite (proj2 (Nat.leb_le _ _)) by lia. rewrite Nat.min_r by lia. cbn [mbind option_bind andb].
    rewrite (whole_len _ Hp). pose proof (str_nonempty _ Hpne). rewrite (proj2 (N.ltb_lt _ _)) by lia.
    destruct (made_pass _ _ _ Hok Hfits _ _ _ _ _ (inv_made _ _ _ _ _ Hst)) as (b & Hrun & Hm & Hoff). rewrite Hvis in Hrun. rewrite Hrun.
    cbn [mbind option_bind with_start with_build old_fragments].
    destruct (inv_next _ _ _ _ _ _ _ _ Hst Hm) as (cur & -> & Hinv); [by rewrite ids_snoc|]. cbn [mbind option_bind].
    eexists _, (B ++ [p]), [], R, _, (atoms_of p), old. split; [done|]. split; [apply Hinv|].
    rewrite !consumed_nil. autorewrite with pieces. rewrite visible_of_atoms_of, Hvis, map_kill_invisible by by apply atoms_of_invisible.
    split_and!; [|done..|by right].
    unfold started. cbn [with_cursor with_start fragment_start]. rewrite consumed_nil. autorewrite with pieces.
    by rewrite visible_of_atoms_of, Hvis, app_nil_r, Hlen.
Qed.
End steps.
