(* ===== verification/EditFinish.v ===== *)
(** * The end of an edit

    No byte of an insertion is in two fragments, so the insertion keys of the
    fragments are distinct, and the edits of the tree of insertions put exactly the
    new fragments there.

    Local and remote edits end alike: the texts, the fragments and the two trees
    about insertions are put together from what has been built.  The result is a
    consistent snapshot of the new atoms, whatever kind of edit made them. *)

From S2P Require Import Prelude Clock Locator SumTree SumTreeFacts Seek Cursor CursorFacts CursorWalk Keyed KeyedFacts UndoMap TreeMap TreeMapFacts Patch PatchFacts Points Utf8 TextSummary RopeTree Rope RopeFacts RopeSeek RopeCut LineEnding Operation Fragment FragmentFacts Snapshot EditSpec EditInv EditState EditSteps.

Implicit Types (N : list entry) (L : list piece) (p q : piece) (slices : list InsertionSlice).

(** ** Keys *)

Abbreviation piece_key := (λ p, insertion_key p.1) (only parsing).

Lemma bytes_of_atoms_of p : bytes_of (atoms_of p) = stretch (Fragment.timestamp p.1) (Fragment.insertion_offset p.1) (Str.len p.2).
Proof. apply bytes_of_atoms_from. Qed.

Lemma key_in_bytes p : whole p → (Fragment.timestamp p.1, Fragment.insertion_offset p.1) ∈ bytes_of (atoms_of p).
Proof.
  intros Hp. rewrite bytes_of_atoms_of. apply elem_of_stretch. simpl. split; [done|].
  destruct (Str.len p.2) eqn:Hz; [|lia]. apply Str_len_zero in Hz. by apply whole_nonempty in Hz.
Qed.

Lemma key_in_all p L : whole p → p ∈ L → (Fragment.timestamp p.1, Fragment.insertion_offset p.1) ∈ bytes_of (atoms L).
Proof.
  intros Hp Hin. induction L as [|q L IH]; [by apply not_elem_of_nil in Hin|]. rewrite atoms_cons, bytes_of_app, elem_of_app.
  apply elem_of_cons in Hin as [->|Hin]; [left; by apply key_in_bytes|right; by apply IH].
Qed.

Lemma keys_NoDup L : Forall whole L → NoDup (bytes_of (atoms L)) → NoDup (map piece_key L).
Proof.
  induction 1 as [|p L Hp HL IH]; [constructor|]. rewrite atoms_cons, bytes_of_app. intros (Hnd & Hdis & Hnd')%NoDup_app.
  simpl. constructor; [|by apply IH]. intros (q & Heq & Hq)%list_elem_of_fmap. injection Heq as Hts Hoff.
  apply (Hdis _ (key_in_bytes p Hp)). rewrite Hts, Hoff. apply key_in_all; [|done]. by apply (proj1 (Forall_forall _ _) HL).
Qed.

Lemma rewritten_sublist N : rewritten N `sublist_of` pieces N.
Proof. induction N as [|[p []] N IH]; simpl; by constructor. Qed.

Lemma touched_sublist N : touched N `sublist_of` pieces N.
Proof. induction N as [|[p []] N IH]; simpl; by constructor. Qed.

Lemma pieces_marked N p : p ∈ pieces N → (p, Kept) ∈ N ∨ p ∈ rewritten N.
Proof.
  unfold pieces, rewritten. intros ([q μ] & -> & Hq)%list_elem_of_fmap. destruct μ; [by left|right..]; apply list_elem_of_omap;
    by eexists (_, _).
Qed.

Lemma NoDup_map_inj {A B C} (k : A → B) (g : A → C) (l : list A) : NoDup (map k l) → (∀ x y, g x = g y → k x = k y) → NoDup (map g l).
Proof.
  intros Hk Hg. induction l as [|x l IH]; [constructor|]. simpl in Hk |- *. apply NoDup_cons in Hk as [Hx Hk].
  constructor; [|by apply IH]. intros (y & Hy & Hin)%list_elem_of_fmap. apply Hx. apply list_elem_of_fmap. exists y.
  split; [by apply Hg|done].
Qed.

(** Distinct keys identify the elements of a list. *)
Lemma NoDup_map_eq {A B} (k : A → B) (l : list A) x y : NoDup (map k l) → x ∈ l → y ∈ l → k x = k y → x = y.
Proof.
  induction l as [|z l IH]; simpl; [by intros _ ?%not_elem_of_nil|]. intros [Hz Hl]%NoDup_cons.
  rewrite !elem_of_cons. intros [->|Hx] [->|Hy] Heq; [done|..|by apply IH]; exfalso; apply Hz.
  - rewrite Heq. by apply list_elem_of_fmap_2.
  - rewrite <-Heq. by apply list_elem_of_fmap_2.
Qed.

(** ** The tree of insertions *)

Definition insertions_of (fs : list piece) : list (Keyed.Edit InsertionFragment InsertionFragmentKey) :=
  map (λ p, InsertionFragment.insert_new p.1) fs.

Lemma edited_all_insertions_of (fs : list piece) k old :
  edited_all (insertions_of fs) k old =
    match list_find (λ p, insertion_key p.1 = k) fs with Some (_, p) => Some (InsertionFragment.new p.1) | None => old end.
Proof.
  induction fs as [|p fs IH]; [done|].
  change (edited_all (insertions_of (p :: fs)) k old) with (if is_eq (cmp (insertion_key p.1) k)
    then Some (InsertionFragment.new p.1) else edited_all (insertions_of fs) k old). cbn [list_find].
  destruct (is_eq (cmp (insertion_key p.1) k)) eqn:Heq.
  - apply is_eq_true, cmp_eq in Heq. by rewrite decide_True.
  - rewrite decide_False by (intros <-; by rewrite cmp_refl in Heq). rewrite IH. by destruct (list_find _ fs) as [[]|].
Qed.

Section insertions.
Context (tree : SumTree InsertionFragment InsertionFragmentKey) (L : list piece) (N : list entry).
Context (Htree : searchable tree) (Hsorted : sorted (K:=InsertionFragmentKey) (to_list tree)).
Context (Hold : ∀ x, x ∈ to_list tree ↔ x ∈ map (λ p, InsertionFragment.new p.1) L).
Context (HN : NoDup (map piece_key (pieces N))).
Context (Hkeys : ∀ p, p ∈ L → insertion_key p.1 ∈ map piece_key (pieces N)) (Hkept : ∀ p, (p, Kept) ∈ N → p ∈ L).

Lemma old_get p : p ∈ L → list_get (insertion_key p.1) (to_list tree) = Some (InsertionFragment.new p.1).
Proof. intros Hp. apply list_get_sorted; [done| |done]. apply Hold, list_elem_of_fmap. by exists p. Qed.

Lemma new_get p : p ∈ pieces N →
  edited_all (insertions_of (rewritten N)) (insertion_key p.1) (list_get (insertion_key p.1) (to_list tree)) =
    Some (InsertionFragment.new p.1).
Proof.
  intros Hp. rewrite edited_all_insertions_of. destruct (list_find _ _) as [[i q]|] eqn:Hfind.
  - apply list_find_Some in Hfind as (Hq & Hkey & _). apply list_elem_of_lookup_2 in Hq.
    do 2 f_equal. f_equal. apply (NoDup_map_eq piece_key (pieces N)); [done|by eapply elem_of_sublist, rewritten_sublist|done..].
  - apply list_find_None in Hfind. destruct (pieces_marked N p Hp) as [Hk|Hr]; [by apply old_get, Hkept|].
    exfalso. rewrite Forall_forall in Hfind. by apply (Hfind p).
Qed.

Lemma insertions_edited : ∃ removed tree',
  Keyed.edit (K:=InsertionFragmentKey) tree (insertions_of (rewritten N)) = Some (removed, tree') ∧ tree_ok tree' ∧
    sorted (K:=InsertionFragmentKey) (to_list tree') ∧
    ∀ x, x ∈ to_list tree' ↔ x ∈ map (λ p, InsertionFragment.new p.1) (pieces N).
Proof.
  assert (NoDup (map Keyed.edit_key (insertions_of (rewritten N)))) as Hnd.
  { unfold insertions_of. rewrite map_map. eapply sublist_NoDup; [exact HN|exact (fmap_sublist piece_key _ _ (rewritten_sublist N))]. }
  destruct (edit_ok tree _ Htree Hsorted Hnd) as (removed & tree' & Hrun & Hok & Hs & Hget). exists removed, tree'.
  split_and!; [done..|]. intros x. split.
  - intros Hx. assert (list_get (key x : InsertionFragmentKey) (to_list tree') = Some x) as Hxget by by apply list_get_sorted.
    assert (key x ∈ map piece_key (pieces N)) as (p & Hkey & Hp)%list_elem_of_fmap.
    { rewrite Hget, edited_all_insertions_of in Hxget. destruct (list_find _ _) as [[i q]|] eqn:Hfind.
      - apply list_find_Some in Hfind as (Hq & <- & _). apply list_elem_of_lookup_2 in Hq. apply list_elem_of_fmap. exists q.
        split; [done|]. by eapply elem_of_sublist, rewritten_sublist.
      - apply list_get_Some in Hxget as [Hin _]. apply Hold, list_elem_of_fmap in Hin as (q & -> & Hq). by apply Hkeys. }
    rewrite Hkey, Hget, new_get in Hxget by done. injection Hxget as <-. apply list_elem_of_fmap. by exists p.
  - intros (p & -> & Hp)%list_elem_of_fmap. pose proof (new_get p Hp) as Hp'. rewrite <-Hget in Hp'.
    by apply list_get_Some in Hp' as [Hin _].
Qed.
End insertions.

(** ** The set of slices *)

Lemma contains_represents (set : @TreeSet.t InsertionSlice) f x : represents set f →
  TreeSet.contains set x = true ↔ is_Some (f x).
Proof. intros Hset. unfold TreeSet.contains. rewrite (get_represents _ _ _ Hset). destruct (f x); split; (done || by intros [? [=]]). Qed.

Lemma extended_keys slices x old : is_Some (extended (map (λ k, (k, tt)) slices) x old) ↔ x ∈ slices ∨ is_Some old.
Proof.
  induction slices as [|y slices IH]; simpl; [split; [by right|by intros [?%not_elem_of_nil|?]]|].
  rewrite elem_of_cons. destruct (is_eq (cmp y x)) eqn:Heq.
  - apply is_eq_true, cmp_eq in Heq as ->. split; [by left; left|by eexists].
  - rewrite IH. assert (x ≠ y) by (intros ->; by rewrite cmp_refl in Heq). naive_solver.
Qed.

Lemma slices_extended (set : @TreeSet.t InsertionSlice) slices :
  tree_ok set → keys_sorted (to_list set) → Node.height set < STACK_CAPACITY → NoDup slices →
  ∃ set', TreeSet.extend set slices = Some set' ∧ tree_ok set' ∧ keys_sorted (to_list set') ∧
    ∀ x, TreeSet.contains set' x = true ↔ x ∈ slices ∨ TreeSet.contains set x = true.
Proof.
  intros Ht Hs Hh Hnd. assert (represents set (λ k, lookup_entry k (to_list set))) as Hset by done.
  destruct (extend_represents set _ (map (λ k, (k, tt)) slices) Hset Hh) as (set' & Hrun & Hset').
  { rewrite map_map. by rewrite map_id. }
  exists set'. split; [exact Hrun|]. split; [apply Hset'|]. split; [apply Hset'|]. intros x.
  rewrite (contains_represents _ _ _ Hset'), (contains_represents _ _ _ Hset). apply extended_keys.
Qed.

Lemma slice_for_key timestamp (f f' : Fragment) : slice_for timestamp f = slice_for timestamp f' → insertion_key f = insertion_key f'.
Proof.
  intros [= Hv Hr Hoff _]. unfold insertion_key. rewrite Hoff. f_equal.
  destruct (Fragment.timestamp f), (Fragment.timestamp f'). simpl in *. by subst.
Qed.

(** The slice of a fragment covers its atoms. *)
Lemma slice_for_covers timestamp p a : whole p → a ∈ atoms_of p → slice_covers (slice_for timestamp p.1) timestamp a.
Proof.
  intros Hp Ha. assert (atom_insertion a = Fragment.timestamp p.1 ∧ (Fragment.insertion_offset p.1 <= atom_offset a)%N ∧
    (atom_offset a + N.of_nat (len_utf8 (atom_char a)) <= Fragment.insertion_offset p.1 + Fragment.len p.1)%N) as (Hi & Hlo & Hhi).
  { rewrite (whole_len p Hp). revert Ha. unfold atoms_of. generalize (Fragment.insertion_offset p.1). clear Hp.
    induction p.2 as [|c s IH]; intros o Ha; [by apply not_elem_of_nil in Ha|]. rewrite Str_len_cons.
    simpl in Ha. apply elem_of_cons in Ha as [->|Ha]; simpl; [split_and!; [done|lia..]|].
    destruct (IH _ Ha) as (? & ? & ?). split_and!; [done|lia..]. }
  unfold slice_covers, slice_for. simpl. rewrite Hi. split_and!; [by destruct timestamp|by destruct (Fragment.timestamp p.1)|done..].
Qed.

Implicit Types (B R : list piece) (c m r : str) (edits : list (Range * str)) (A : list Atom).

(** ** What an edit may do to the atoms *)

(** It strikes atoms out and takes up an insertion of its own. *)
Record revises (timestamp : Lamport) A A' : Prop := {
  revises_bytes : ∃ n, bytes_of A' ≡ₚ bytes_of A ++ stretch timestamp 0 n;
  revises_origin a : a ∈ A' → a ∈ A ∨ (∃ a0, a0 ∈ A ∧ a = struck timestamp a0) ∨
    (atom_insertion a = timestamp ∧ atom_deletions a = [] ∧ atom_visible a = true);
}.

Section finish.
Context (self : BufferSnapshot) (L : list piece) (timestamp : Lamport).
Context (Hok : snapshot_ok self L) (Hfits : snapshot_fits self).

Lemma inserted_elem offset text a : a ∈ inserted timestamp offset text →
  atom_insertion a = timestamp ∧ atom_deletions a = [] ∧ atom_visible a = true.
Proof.
  unfold inserted. revert offset. induction text as [|x text IH]; intros o Ha; simpl in Ha; [by apply not_elem_of_nil in Ha|].
  apply elem_of_cons in Ha as [->|Ha]; [done|by eapply IH].
Qed.

(** Where the atoms come from. *)
Lemma edited_origin pos full offset A edits A' rs a : edited timestamp pos full offset A edits A' rs → a ∈ A' →
  a ∈ A ∨ (∃ a0, a0 ∈ A ∧ a = struck timestamp a0) ∨
  (atom_insertion a = timestamp ∧ atom_deletions a = [] ∧ atom_visible a = true).
Proof.
  revert pos full offset A A' rs. induction edits as [|[range text] edits IH]; intros pos full offset A A' [|fr rs]; simpl; try done.
  { intros ->. by left. }
  intros (gap & replaced & rest & rest' & -> & -> & _ & _ & _ & _ & Hrest). rewrite !elem_of_app. intros [Ha|[Ha|[Ha|Ha]]].
  - auto.
  - right. right. by eapply inserted_elem.
  - apply list_elem_of_fmap in Ha as (a0 & -> & Ha0). unfold kill. destruct (atom_visible a0); [right; left; exists a0; rewrite !elem_of_app; auto|auto].
  - destruct (IH _ _ _ _ _ _ Hrest Ha) as [?|[(a0 & ? & ?)|?]]; [auto|right; left; exists a0; rewrite !elem_of_app; auto|auto].
Qed.

Lemma edited_revises edits A A' rs : edited timestamp 0 0 0 A edits A' rs → revises timestamp A A'.
Proof.
  intros Hedited. split; [eexists; by eapply edited_bytes|]. intros a. by eapply edited_origin.
Qed.

Lemma bytes_insertion A x : x ∈ bytes_of A → ∃ a, a ∈ A ∧ x.1 = atom_insertion a.
Proof.
  unfold bytes_of. induction A as [|a A IH]; simpl; [by intros ?%not_elem_of_nil|]. intros [Hx|Hx]%elem_of_app.
  - exists a. split; [by left|]. by apply list_elem_of_fmap in Hx as (i & -> & _).
  - destruct (IH Hx) as (a' & ? & ?). exists a'. split; [by right|done].
Qed.

(** The edit's timestamp has not been used. *)
Definition fresh : Prop :=
  (∀ a, a ∈ atoms L → atom_insertion a ≠ timestamp) ∧ UndoMap.is_undone (undo_map self) timestamp = Some false.

Lemma revised_NoDup A' : fresh → revises timestamp (atoms L) A' → NoDup (bytes_of A').
Proof.
  intros [Hfresh _] [[n Hbytes] _]. rewrite Hbytes. apply NoDup_app. split; [apply Hok|].
  split; [|apply stretch_NoDup]. intros x Hx [Hts' _]%elem_of_stretch. apply bytes_insertion in Hx as (a & Ha & Hins).
  apply (Hfresh a Ha). congruence.
Qed.

(** The slices cover the new atoms. *)
Lemma covered_after N set : revises timestamp (atoms L) (atoms (pieces N)) → Forall whole (pieces N) →
  (∀ a, a ∈ atoms (pieces N) → a ∈ atoms L ∨ ∃ p, p ∈ touched N ∧ a ∈ atoms_of p) →
  (∀ x, TreeSet.contains set x = true ↔ x ∈ map (λ p, slice_for timestamp p.1) (touched N) ∨ TreeSet.contains (snapshot_slices self) x = true) →
  covered set (atoms (pieces N)).
Proof.
  intros Hrev Hwhole Htouched Hset a id Ha Hid. pose proof (ok_covered _ _ Hok) as Hcov.
  assert (∀ a0, a0 ∈ atoms L → names id a0 → atom_insertion a0 = atom_insertion a → atom_offset a0 = atom_offset a →
    atom_char a0 = atom_char a → ∃ slice, TreeSet.contains set slice = true ∧ slice_covers slice id a) as Hold.
  { intros a0 Ha0 Hn Hi Ho Hc. destruct (Hcov a0 id Ha0 Hn) as (slice & Hin & Hsc). exists slice. split; [apply Hset; by right|].
    unfold slice_covers in *. by rewrite <-Hi, <-Ho, <-Hc. }
  destruct (Htouched a Ha) as [HaL|(p & Hp & Hap)]; [by apply (Hold a)|].
  assert (id = timestamp → ∃ slice, TreeSet.contains set slice = true ∧ slice_covers slice id a) as Hnew.
  { intros ->. exists (slice_for timestamp p.1). split; [apply Hset; left; apply list_elem_of_fmap; by exists p|].
    apply slice_for_covers; [|done]. apply (proj1 (Forall_forall _ _) Hwhole). eapply elem_of_sublist, touched_sublist. exact Hp. }
  destruct (revises_origin _ _ _ Hrev a Ha) as [HaL|[(a0 & Ha0 & ->)|(Hi & Hd & _)]].
  - by apply (Hold a).
  - unfold names in Hid. simpl in Hid. rewrite elem_of_app, list_elem_of_singleton in Hid.
    destruct Hid as [? [Hid|[Hid|Hid]]]; [| |by apply Hnew]; apply (Hold a0); unfold names; auto.
  - unfold names in Hid. rewrite Hi, Hd in Hid. destruct Hid as [_ [Hid|Hid%not_elem_of_nil]]; [by apply Hnew|done].
Qed.

(** *** The undo map *)

Lemma all_undone_snoc undos ds d b : Fragment.all_undone undos ds = Some b → UndoMap.is_undone undos d = Some false →
  Fragment.all_undone undos (ds ++ [d]) = Some false.
Proof.
  intros Hds Hd. induction ds as [|d' ds IH]; simpl in *; [by rewrite Hd|].
  destruct (UndoMap.is_undone undos d') as [[]|]; [|done..]. by apply IH.
Qed.

Lemma shown_after A' a : fresh → revises timestamp (atoms L) A' → a ∈ A' → shown (undo_map self) a = Some (atom_visible a).
Proof.
  intros [_ Hundone] Hrev Ha. destruct (revises_origin _ _ _ Hrev a Ha) as [HaL|[(a0 & Ha0 & ->)|(Hi & Hd & ->)]].
  - by apply (ok_shown _ _ Hok).
  - pose proof (ok_shown _ _ Hok a0 Ha0) as Hs. unfold shown in *. simpl.
    destruct (UndoMap.is_undone _ (atom_insertion a0)) as [[]|]; [done| |done]. simpl in *. by eapply all_undone_snoc.
  - unfold shown. by rewrite Hi, Hd, Hundone.
Qed.

(** ** The new snapshot *)

(** The old fragments are used up. *)
Lemma build_finished b B N : made self L timestamp b B [] [] N → ids_ok (ids_of (pieces N)) → fresh →
  revises timestamp (atoms L) (atoms (pieces N)) →
  ∃ visible deleted tree removed ins set, RopeBuilder.finish (new_ropes b) = Some (visible, deleted) ∧
    FragmentBuilder.to_sum_tree (new_fragments b) = Some tree ∧
    Keyed.edit (K:=InsertionFragmentKey) (insertions self) (new_insertions b) = Some (removed, ins) ∧
    TreeSet.extend (snapshot_slices self) (insertion_slices b) = Some set ∧
    snapshot_ok (mkSnapshot visible deleted tree ins set (undo_map self) (snapshot_version self) (snapshot_remote_id self)
      (snapshot_replica_id self) (snapshot_line_ending self)) (pieces N) ∧
    relates (edits_patch b) (Str.as_bytes (visible_of (atoms L))) (Str.as_bytes (visible_of (atoms (pieces N)))).
Proof.
  intros [Hold _ [Hfs Hw Hropes Hins Hsl] Hpatch Hkeys Hkept Htouched] Hids Hfresh Hrev.
  pose proof (revised_NoDup _ Hfresh Hrev) as Hnd.
  rewrite app_nil_r in Hold. subst B. rewrite remaining_nil in Hropes. rewrite consumed_nil in Hpatch.
  destruct (ropes_finish _ _ _ _ (fits_visible _ Hfits) (fits_deleted _ Hfits) (visible_fits _ _ Hok Hfits) (deleted_fits _ _ Hok Hfits)
    _ _ _ _ _ Hropes) as (rv & rd & Hfin & Hrv & Hrd).
  destruct (builder_tree _ _ Hfs) as (tree & Hbuild & Htree & Htl).
  pose proof (keys_NoDup _ Hw Hnd) as HkN.
  destruct (insertions_edited (insertions self) L N (conj (proj1 (ok_insertions _ _ Hok)) (fits_insertions _ Hfits))
    (proj2 (ok_insertions _ _ Hok)) (ok_insertion _ _ Hok) HkN)
    as (removed & ins & Hrun & Hins1 & Hins2 & Hins3); [intros p Hp; apply Hkeys; by left|done|].
  destruct (slices_extended (snapshot_slices self) (map (λ p, slice_for timestamp p.1) (touched N))) as (set & Hset & Hset1 & Hset2 & Hset3);
    [apply Hok|apply Hok|apply Hfits| |].
  { apply (NoDup_map_inj piece_key); [|intros p q; apply slice_for_key].
    eapply sublist_NoDup; [exact HkN|exact (fmap_sublist piece_key _ _ (touched_sublist N))]. }
  exists rv, rd, tree, removed, ins, set. rewrite Hins, Hsl. fold (insertions_of (rewritten N)). split_and!; [done..| |done].
  split; cbn [fragments visible_text deleted_text insertions snapshot_slices]; try done.
  - by rewrite app_nil_r in Hrv.
  - by rewrite app_nil_r in Hrd.
  - by eapply covered_after.
  - intros slice [(p & -> & Hp)%list_elem_of_fmap|Hslice]%Hset3.
    + apply list_elem_of_fmap. exists p. split; [|by eapply elem_of_sublist, touched_sublist].
      unfold slice_key, insertion_key. simpl. by destruct (Fragment.timestamp p.1).
    + apply (ok_starts _ _ Hok), list_elem_of_fmap in Hslice as (p & -> & Hp). apply Hkeys. by left.
  - apply Hok.
  - intros a Ha. by eapply shown_after.
Qed.
End finish.
