(* ===== verification/EditFacts.v ===== *)
(** * A local edit changes the text as it says

    The statements of an edit put together: [apply_edit_internal] never panics on
    a consistent snapshot, makes a consistent snapshot of the edited atoms, and
    returns the operation and the patch that describe the edit. *)

From S2P Require Import Prelude Clock Locator SumTree SumTreeFacts Seek Cursor CursorFacts CursorWalk Keyed KeyedFacts UndoMap TreeMap TreeMapFacts Patch PatchFacts Points Utf8 TextSummary RopeTree Rope RopeFacts RopeSeek RopeCut LineEnding Operation Fragment FragmentFacts Snapshot EditSpec EditInv EditState EditSteps EditFinish.

Import BufferSnapshot.

Implicit Types (N : list entry) (L B R : list piece) (p : piece) (c m r : str) (edits : list (Range * str)).

Section loop.
Context (self : BufferSnapshot) (L : list piece) (timestamp : Lamport).
Context (Hok : snapshot_ok self L) (Hfits : snapshot_fits self) (Hts : observable timestamp).
Implicit Types (st : edit_state).

Abbreviation holds_at := (inv self L timestamp) (only parsing).

Lemma delete_loop_spec fuel st B c R N old rest : holds_at st B c R N → started st B c R →
  visible_of (remaining c R) = old ++ rest → length R < fuel ∨ old = [] →
  ∃ st' B' c' R' N' M, delete_loop timestamp fuel st (fragment_start st + Str.len old) = Some st' ∧ holds_at st' B' c' R' N' ∧
    started st' B' c' R' ∧ frame st st' ∧ atoms (pieces N') = atoms (pieces N) ++ map (kill timestamp) M ∧
    consumed B' c' R' = consumed B c R ++ M ∧ visible_of M = old.
Proof.
  revert st B c R N old. induction fuel as [|fuel IH]; intros st B c R N old Hst Hstart Hrest Hfuel;
    (destruct (decide (old = [])) as [->|Hne];
      [exists st, B, c, R, N, []; change (Str.len []) with 0; cbn [delete_loop]; rewrite Nat.add_0_r, Nat.ltb_irrefl, !app_nil_r;
       by split_and!|]); destruct Hfuel as [Hfuel|]; try done; [lia|].
  cbn [delete_loop]. pose proof (str_nonempty _ Hne). rewrite (proj2 (Nat.ltb_lt _ _)) by lia.
  destruct R as [|p R]; [by destruct old|].
  destruct (delete_step_spec _ _ _ Hok Hfits _ _ _ _ _ _ old rest Hst Hstart Hts Hrest Hne)
    as (st1 & B1 & c1 & R1 & N1 & M1 & old' & -> & Hst1 & Hstart1 & Hframe1 & HN1 & HA1 & -> & Hor). cbn [mbind option_bind].
  assert (visible_of (remaining c1 R1) = old' ++ rest) as Hrest1.
  { rewrite (remaining_step _ _ _ _ _ _ _ _ _ _ _ _ _ _ Hst Hst1 HA1), visible_of_app, <-app_assoc in Hrest. by apply app_inv_head in Hrest. }
  assert (fragment_start st + Str.len (visible_of M1 ++ old') = fragment_start st1 + Str.len old') as ->.
  { rewrite Hstart1, HA1, visible_of_app, !Str_len_app, <-Hstart. lia. }
  destruct (IH st1 B1 c1 R1 N1 old' Hst1 Hstart1 Hrest1) as (st2 & B2 & c2 & R2 & N2 & M2 & -> & Hst2 & Hstart2 & Hframe2 & HN2 & HA2 & HM2).
  { destruct Hor as [?| ->]; [by right|left; simpl in Hfuel; lia]. }
  exists st2, B2, c2, R2, N2, (M1 ++ M2). split_and!; [done..| | | |].
  - by etrans.
  - by rewrite HN2, HN1, map_app, app_assoc.
  - by rewrite HA2, HA1, app_assoc.
  - by rewrite visible_of_app, HM2.
Qed.

(** ** One edit *)

(** The offset in the text with its deleted parts. *)
Lemma full_consumed st B c R N : holds_at st B c R N → Str.len (full_of (consumed B c R)) =
  Str.len (visible_of (consumed B c R)) + FragmentTextSummary.deleted (Cursor.start (old_fragments st)).
Proof.
  intros Hst. rewrite full_len, (inv_start _ _ _ Hok _ _ _ _ _ Hst).
  by rewrite (deleted_consumed _ _ _ (made_head _ _ _ _ _ _ _ _ (inv_made _ _ _ _ _ _ _ _ Hst)) (inv_uncut _ _ _ _ _ _ _ _ Hst)).
Qed.

(** The edits done so far. *)
Record progress st B c R N edits : Prop := {
  progress_inv : holds_at st B c R N;
  progress_started : started st B c R;
  progress_edited : edited timestamp 0 0 0 (consumed B c R) edits (atoms (pieces N)) (ranges st);
  progress_texts : new_texts st = map snd edits;
  progress_offset : insertion_offset (build st) = N.of_nat (inserted_len edits);
}.

Context `{LineSeparators}.

Definition normalized (edit : Range * str) : Range * str := (edit.1, LineEnding.normalize_arc edit.2).

Lemma local_step_spec st B c R N edits range text g old rest : progress st B c R N edits →
  let edit := normalized (range, text) in
  str_ok edit.2 → (N.of_nat (inserted_len edits + Str.len edit.2) <= u32_max)%N →
  visible_of (remaining c R) = g ++ old ++ rest → Range.start range = fragment_start st + Str.len g →
  Range.end_ range = Range.start range + Str.len old →
  ∃ st' B' c' R' N', edit_step timestamp self st (range, text) = Some st' ∧ progress st' B' c' R' N' (edits ++ [edit]) ∧
    fragment_start st' = Range.end_ range ∧ visible_of (remaining c' R') = rest.
Proof.
  intros [Hst Hstart Hedited Htexts Hoffset] edit Htext Hlen Hrest Hs He. unfold edit_step.
  change (LineEnding.normalize_arc text) with edit.2. rewrite Hs.
  destruct (seek_start_spec _ _ _ Hok Hfits _ _ _ _ _ g (old ++ rest) Hst Hstart Hrest)
    as (st1 & B1 & c1 & R1 & N1 & G1 & m & -> & Hst1 & Hstart1 & (Hr1 & Ht1 & Ho1) & HN1 & HA1 & -> & Hm & Hrest1). cbn [mbind option_bind].
  assert (fragment_start st + Str.len (visible_of G1 ++ m) = fragment_start st1 + Str.len m) as Hs1.
  { rewrite Hstart1, HA1, visible_of_app, !Str_len_app, <-Hstart. lia. }
  rewrite Hs1.
  destruct (push_prefix_spec _ _ _ Hok Hfits _ _ _ _ _ m Hst1 Hstart1 Hm)
    as (st2 & N2 & G2 & -> & Hst2 & Hstart2 & (Hr2 & Ht2 & Ho2) & Hcur2 & HN2 & HA2 & HG2). cbn [mbind option_bind].
  assert (fragment_start st2 = fragment_start st1 + Str.len m) as Hs2.
  { by rewrite Hstart2, HA2, visible_of_app, Str_len_app, HG2, <-Hstart1. }
  destruct (push_insertion_spec _ _ _ Hok Hfits _ _ _ _ _ edit.2 Hst2 Hstart2 Hts Htext)
    as (st3 & N3 & -> & Hst3 & Hstart3 & Hr3 & Ht3 & Ho3 & HN3); [rewrite Ho2, Ho1, Hoffset; lia|]. cbn [mbind option_bind].
  assert (Range.end_ range = fragment_start st3 + Str.len old) as He3 by (rewrite Hstart3, <-Hstart2; lia).
  assert (visible_of (remaining (c1 ++ m) R1) = old ++ rest) as Hrest2.
  { rewrite (remaining_step _ _ _ _ _ _ _ _ _ _ _ _ _ _ Hst1 Hst2 HA2), visible_of_app, HG2 in Hrest1.
    by apply app_inv_head in Hrest1. }
  rewrite He3.
  destruct (delete_loop_spec (S (length (to_list (fragments self)))) st3 B1 (c1 ++ m) R1 N3 old rest Hst3 Hstart3 Hrest2)
    as (st4 & B4 & c4 & R4 & N4 & M & -> & Hst4 & Hstart4 & (Hr4 & Ht4 & Ho4) & HN4 & HA4 & HM).
  { left. rewrite (ok_list _ _ Hok), length_map, (made_old _ _ _ _ _ _ _ _ (inv_made _ _ _ _ _ _ _ _ Hst3)), length_app. lia. }
  cbn [mbind option_bind].
  assert (fragment_start st4 = fragment_start st3 + Str.len old) as Hs4.
  { by rewrite Hstart4, HA4, visible_of_app, Str_len_app, HM, <-Hstart3. }
  assert (edited timestamp 0 0 0 (consumed B1 (c1 ++ m) R1) edits (atoms (pieces N2)) (ranges st)) as Hedited2.
  { rewrite HA2, HA1, HN2, HN1. by apply edited_gap, edited_gap. }
  eexists _, B4, c4, R4, N4. split; [done|]. cbn [fragment_start]. split; [|split; [by rewrite Hs4|]].
  - split; cbn [old_fragments fragment_start build ranges new_texts].
    + by split; apply Hst4.
    + exact Hstart4.
    + rewrite HA4, HN4, HN3, Ho2, Ho1, Hoffset, Hr4, Hr3, Hr2, Hr1, <-app_assoc.
      pose proof (edited_snoc timestamp 0 0 0 _ _ _ _ M range edit.2
        (Range.mk (fragment_start st1 + Str.len m + FragmentTextSummary.deleted (Cursor.start (old_fragments st1)))
          (fragment_start st3 + Str.len old + FragmentTextSummary.deleted (Cursor.start (old_fragments st4)))) Hedited2) as Hsnoc.
      rewrite N.add_0_l in Hsnoc. apply Hsnoc; cbn [Range.start Range.end_].
      * rewrite Hs, Hs1, <-Hs2. exact Hstart2.
      * by rewrite HM.
      * by rewrite (full_consumed _ _ _ _ _ Hst2), <-Hs2, Hstart2, Hcur2.
      * rewrite <-Hs4, Hstart4, <-(full_consumed _ _ _ _ _ Hst4), HA4, full_of_app, Str_len_app. f_equal.
        by rewrite (full_consumed _ _ _ _ _ Hst2), <-Hs2, Hstart2, Hcur2.
    + by rewrite Ht4, Ht3, Ht2, Ht1, Htexts, map_app.
    + rewrite Ho4, Ho3, Ho2, Ho1, Hoffset, inserted_len_snoc. lia.
  - rewrite (remaining_step _ _ _ _ _ _ _ _ _ _ _ _ _ _ Hst3 Hst4 HA4), visible_of_app, HM in Hrest2. by apply app_inv_head in Hrest2.
Qed.
(** ** All edits *)

Lemma edits_within_start pos s edits : edits_within pos s edits →
  match edits with [] => True | (range, _) :: _ => pos <= Range.start range end.
Proof. destruct edits as [|[range text] edits]; [done|]. intros (gap & old & rest & _ & -> & _). lia. Qed.

Lemma inserted_len_app edits edits' : inserted_len (edits ++ edits') = inserted_len edits + inserted_len edits'.
Proof. unfold inserted_len. rewrite map_app. by rewrite sum_list_with_app. Qed.

Lemma local_loop_spec st B c R N done_ edits pos g : progress st B c R N done_ →
  edits_within pos (g ++ visible_of (remaining c R)) edits → fragment_start st = pos + Str.len g →
  match edits with [] => True | (range, _) :: _ => fragment_start st <= Range.start range end →
  Forall (λ e, str_ok e.2) (map normalized edits) → (N.of_nat (inserted_len (done_ ++ map normalized edits)) <= u32_max)%N →
  ∃ st' B' c' R' N', edit_loop timestamp self st edits = Some st' ∧ progress st' B' c' R' N' (done_ ++ map normalized edits).
Proof.
  revert st B c R N done_ pos g. induction edits as [|[range text] edits IH]; intros st B c R N done_ pos g Hst Hwithin Hpos Hle Htexts Hlen.
  { exists st, B, c, R, N. simpl. by rewrite app_nil_r. }
  destruct Hwithin as (gap & old & rest & Hs & Hstart & Hend & Hwithin). cbn [map] in Htexts, Hlen |- *.
  apply Forall_cons in Htexts as [Htext Htexts].
  assert (done_ ++ normalized (range, text) :: map normalized edits = (done_ ++ [normalized (range, text)]) ++ map normalized edits)
    as Hcons by (by rewrite <-app_assoc). rewrite Hcons in Hlen |- *.
  destruct (str_cut gap (old ++ rest) g _ (eq_sym Hs)) as (g' & -> & Hrest); [lia|]. rewrite Str_len_app in Hstart.
  destruct (local_step_spec st B c R N done_ range text g' old rest Hst Htext)
    as (st1 & B1 & c1 & R1 & N1 & Hrun & Hst1 & Hfs & Hrest1); [|done|lia|done|].
  { rewrite inserted_len_app, inserted_len_snoc in Hlen. lia. }
  cbn [edit_loop]. rewrite Hrun. cbn [mbind option_bind].
  apply (IH st1 B1 c1 R1 N1 _ (Range.end_ range) []); [done|by rewrite Hrest1|by rewrite Hfs, Nat.add_0_r|rewrite Hfs|done..].
  by apply edits_within_start in Hwithin.
Qed.

(** ** The beginning *)

Lemma edit_init_spec start : start <= Str.len (visible_of (atoms L)) → 
  ∃ st B R N, edit_init self start = Some st ∧ progress st B [] R N [] ∧ fragment_start st <= start.
Proof.
  intros Hstart. pose proof (ok_whole _ _ Hok) as HL. unfold edit_init.
  destruct (ropes_new _ _ _ _ (fits_visible _ Hfits) (fits_deleted _ Hfits) (visible_fits _ _ Hok Hfits) (deleted_fits _ _ Hok Hfits)
    (ok_visible _ _ Hok) (ok_deleted _ _ Hok)) as (cv & cd & -> & -> & Hropes). cbn [mbind option_bind].
  destruct (slice_to self L Hok Hfits (Cursor.new (fragments self)) [] L start) as (t & cur & X & Y & -> & Ht & Hlist & Hcur & HXY & Hle & _).
  { rewrite <-(ok_list _ _ Hok). apply ready_new. }
  { done. }
  { change (Str.len (visible_of (atoms []))) with 0. lia. }
  cbn [mbind option_bind]. cbn [app] in Hcur, Hle. rewrite HXY in HL. apply Forall_app in HL as [HX HY].
  pose proof (builder_new t Ht) as Hb. rewrite Hlist in Hb. specialize (Hb (whole_fragments _ HX)).
  rewrite (builder_text _ _ Hb), visible_len_pieces, deleted_len_pieces by done.
  rewrite HXY in Hropes at 3 4. autorewrite with pieces in Hropes.
  destruct (ropes_append _ _ _ _ (fits_visible _ Hfits) (fits_deleted _ Hfits) (visible_fits _ _ Hok Hfits) (deleted_fits _ _ Hok Hfits)
    _ _ _ _ _ _ _ Hropes) as (ropes & -> & Hropes'). cbn [mbind option_bind].
  eexists _, X, Y, (kept X). split; [done|]. cbn [fragment_start].
  rewrite (split_at_start _ _ _ _ Hcur), (start_after _ _ Hok X Y HXY). split; [|exact Hle].
  split; [split| | |done|done]; cbn [old_fragments build fragment_start ranges insertion_offset edits_patch].
  - exact Hcur.
  - split; cbn [edits_patch]; rewrite ?consumed_nil, ?remaining_nil; autorewrite with pieces.
    + exact HXY.
    + apply headed_nil.
    + split; cbn [new_fragments new_ropes new_insertions insertion_slices]; autorewrite with pieces; [done..|exact Hropes'|done|done].
    + done.
    + intros p [Hp|[? _]]; [|done]. apply list_elem_of_fmap. by exists p.
    + intros p (q & [= ->] & Hq)%list_elem_of_fmap. rewrite HXY. apply elem_of_app. by left.
    + intros a Ha. left. rewrite HXY, atoms_app. apply elem_of_app. by left.
  - autorewrite with pieces. rewrite <-HXY. apply Hok.
  - apply uncut_nil.
  - unfold started. cbn [fragment_start]. by rewrite consumed_nil.
  - cbn [edited]. rewrite consumed_nil. by autorewrite with pieces.
Qed.
(** ** The end *)

Lemma edit_finish_spec st B c R N edits : progress st B c R N edits → fresh self L timestamp →
  ∃ self' L' P, edit_finish self st = Some (self', P) ∧ snapshot_ok self' L' ∧
    edited timestamp 0 0 0 (atoms L) edits (atoms L') (ranges st) ∧
    relates P (Str.as_bytes (visible_of (atoms L))) (Str.as_bytes (visible_of (atoms L'))) ∧
    undo_map self' = undo_map self ∧ snapshot_version self' = snapshot_version self ∧
    snapshot_remote_id self' = snapshot_remote_id self ∧ snapshot_replica_id self' = snapshot_replica_id self ∧
    snapshot_line_ending self' = snapshot_line_ending self.
Proof.
  intros [Hst Hstart Hedited Htexts Hoffset] Hfresh. unfold edit_finish.
  destruct (finish_fragment_spec _ _ _ Hok Hfits _ _ _ _ _ Hst Hstart) as (st1 & B1 & R1 & N1 & G & -> & Hst1 & (Hr1 & _) & HN1 & HB1 & _).
  cbn [mbind option_bind]. pose proof (inv_made _ _ _ _ _ _ _ _ Hst1) as Hm1.
  destruct (suffix_spec (fragments self) _ _ _ (fragments_searchable _ _ Hok Hfits) (ready_split _ _ _ _ (inv_cursor _ _ _ _ _ _ _ _ Hst1)))
    as (t & cur & -> & Ht & Hlist & _). cbn [mbind option_bind].
  rewrite <-(app_nil_r R1) in Hm1. destruct (made_append _ _ _ Hok Hfits _ _ _ _ _ t Hm1 Ht Hlist) as (b & -> & Hm & _).
  cbn [mbind option_bind]. set (N2 := N1 ++ kept R1) in *.
  assert (edited timestamp 0 0 0 (atoms L) edits (atoms (pieces N2)) (ranges st)) as Hedited'.
  { pose proof (edited_gap timestamp _ _ _ _ _ _ _ (G ++ atoms R1) Hedited) as Hgap. unfold N2. autorewrite with pieces.
    rewrite HN1, <-app_assoc. rewrite (made_old _ _ _ _ _ _ _ _ Hm1). autorewrite with pieces. simpl. rewrite app_nil_r, HB1, <-app_assoc. exact Hgap. }
  destruct (build_finished self L timestamp Hok Hfits b _ N2 Hm) as (rv & rd & tree & removed & ins & set & -> & Htree & Hins & Hset & Hself' & HP);
    [|done|by eapply edited_revises|].
  { pose proof (inv_ids _ _ _ _ _ _ _ _ Hst1) as Hids. unfold N2. by autorewrite with pieces. }
  cbn [mbind option_bind]. rewrite Htree. cbn [mbind option_bind]. rewrite Hins. cbn [mbind option_bind]. rewrite Hset. cbn [mbind option_bind].
  eexists _, (pieces N2), _. split; [done|]. split; [exact Hself'|]. split; [done|]. split; [exact HP|done].
Qed.

(** ** The whole edit *)

Lemma apply_edit_spec edits : fresh self L timestamp → edits_within 0 (visible_of (atoms L)) edits →
  Forall (λ e, str_ok e.2) (map normalized edits) → (N.of_nat (inserted_len (map normalized edits)) <= u32_max)%N →
  ∃ self' L' ranges P, apply_edit_internal timestamp self edits =
      Some (self', EditOperation.mk timestamp (snapshot_version self) ranges (map snd (map normalized edits)), P) ∧
    snapshot_ok self' L' ∧ edited timestamp 0 0 0 (atoms L) (map normalized edits) (atoms L') ranges ∧
    relates P (Str.as_bytes (visible_of (atoms L))) (Str.as_bytes (visible_of (atoms L'))) ∧
    undo_map self' = undo_map self ∧ snapshot_version self' = snapshot_version self ∧
    snapshot_remote_id self' = snapshot_remote_id self ∧ snapshot_replica_id self' = snapshot_replica_id self ∧
    snapshot_line_ending self' = snapshot_line_ending self.
Proof.
  intros Hfresh Hwithin Htexts Hlen. destruct edits as [|[range text] edits].
  { exists self, L, [], Patch.empty. by split_and!. }
  unfold apply_edit_internal.
  assert (Range.start range <= Str.len (visible_of (atoms L))) as Hstart.
  { destruct Hwithin as (gap & old & rest & -> & -> & _). rewrite !Str_len_app. lia. }
  destruct (edit_init_spec (Range.start range) Hstart) as (st0 & B0 & R0 & N0 & -> & Hst0 & Hle). cbn [mbind option_bind].
  destruct (local_loop_spec st0 B0 [] R0 N0 [] ((range, text) :: edits) 0 (visible_of (atoms B0)))
    as (st & B & c & R & N & -> & Hst); [done| | |done..|].
  { rewrite remaining_nil, <-visible_of_app, <-atoms_app.
    by rewrite <-(made_old _ _ _ _ _ _ _ _ (inv_made _ _ _ _ _ _ _ _ (progress_inv _ _ _ _ _ _ Hst0))). }
  { rewrite (progress_started _ _ _ _ _ _ Hst0), consumed_nil. done. }
  cbn [mbind option_bind]. destruct (edit_finish_spec st B c R N _ Hst Hfresh) as (self' & L' & P & -> & Hself' & Hedited & HP & Hfields).
  cbn [mbind option_bind]. exists self', L', (BufferSnapshot.ranges st), P.
  split; [by rewrite (progress_texts _ _ _ _ _ _ Hst)|]. split; [done|]. split; [exact Hedited|]. by split.
Qed.
End loop.
