(* ===== verification/Undo.v ===== *)
(** * Undoing edits ([crates/text/src/text.rs])

    An undo names edits and says how often each has been undone.  The slices of
    the edits lead to the fragments they touched, by way of the tree of
    insertions; those fragments are shown or hidden anew. *)

From stdpp Require Import sorting.
From S2P Require Import Prelude Clock Locator SumTree SumTreeFacts Cursor Keyed UndoMap TreeMap Patch Utf8 RopeTree Rope LineEnding Operation Fragment Snapshot.

Module UndoEdits.
Section undo.
Implicit Types self : BufferSnapshot.

(** *** [fragment_ids_for_edits] *)

Abbreviation SliceCursor := (Cursor.t (MapEntry InsertionSlice unit) (MapKey InsertionSlice) (MapKey InsertionSlice)) (only parsing).
Abbreviation InsertionCursor := (Cursor.t InsertionFragment InsertionFragmentKey InsertionFragmentKey) (only parsing).

Definition edit_id (slice : InsertionSlice) : Lamport :=
  mkLamport (InsertionSlice.edit_id_value slice) (InsertionSlice.edit_id_replica_id slice).
Definition insertion_id (slice : InsertionSlice) : Lamport :=
  mkLamport (InsertionSlice.insertion_id_value slice) (InsertionSlice.insertion_id_replica_id slice).

(** [iter_from(..).take_while(..)] *)
Fixpoint take_slices (fuel : nat) (id : Lamport) (cursor : SliceCursor) : option (list InsertionSlice) :=
  '(entry, cursor) ← Cursor.iter_next cursor;
  match entry with
  | Some entry =>
      if bool_decide (edit_id (entry_key entry) = id) then
        match fuel with
        | 0 => None
        | S fuel => slices ← take_slices fuel id cursor; Some (entry_key entry :: slices)
        end
      else Some []
  | None => Some []
  end.

Definition slices_for_edit self (id : Lamport) : option (list InsertionSlice) :=
  let insertion_slice := InsertionSlice.mk (value id) (replica_id id) (value Lamport.MIN) (replica_id Lamport.MIN) (0, 0)%N in
  cursor ← TreeSet.iter_from (snapshot_slices self) insertion_slice;
  take_slices (length (to_list (snapshot_slices self))) id cursor.

Fixpoint slices_for_edits self (edit_ids : list Lamport) : option (list InsertionSlice) :=
  match edit_ids with
  | [] => Some []
  | id :: edit_ids =>
      slices ← slices_for_edit self id;
      more ← slices_for_edits self edit_ids;
      Some (slices ++ more)
  end.

(** The key slices are sorted by; [Reverse] turns the order of the ends around. *)
Definition slice_le (a b : InsertionSlice) : Prop :=
  is_le (then_with (cmp (insertion_id a) (insertion_id b))
    (then_with (cmp (InsertionSlice.range a).1 (InsertionSlice.range b).1)
      (cmp (InsertionSlice.range b).2 (InsertionSlice.range a).2))).
#[global] Instance slice_le_dec a b : Decision (slice_le a b).
Proof. apply _. Defined.

Definition locator_le (a b : Locator) : Prop := is_le (cmp a b).
#[global] Instance locator_le_dec a b : Decision (locator_le a b).
Proof. apply _. Defined.

(** The [while] over the fragments of a slice. *)
Fixpoint take_fragments (fuel : nat) (id : Lamport) (end_ : N) (cursor : InsertionCursor) (fragment_ids : list Locator) :
    option (InsertionCursor * list Locator) :=
  item ← Cursor.item cursor;
  match item with
  | Some item =>
      if negb (bool_decide (InsertionFragment.timestamp item = id)) || (end_ <=? InsertionFragment.split_offset item)%N
      then Some (cursor, fragment_ids)
      else
        match fuel with
        | 0 => None
        | S fuel =>
            cursor ← Cursor.next cursor;
            take_fragments fuel id end_ cursor (fragment_ids ++ [InsertionFragment.fragment_id item])
        end
  | None => Some (cursor, fragment_ids)
  end.

(** The body of the loop over the slices. *)
Definition slice_step self (st : InsertionCursor * list Locator) (slice : InsertionSlice) :
    option (InsertionCursor * list Locator) :=
  let '(insertions_cursor, fragment_ids) := st in
  let start := Cursor.start insertions_cursor in
  insertions_cursor ←
    (if negb (bool_decide (insertion_id slice = InsertionFragmentKey.timestamp start)) ||
        (InsertionFragmentKey.split_offset start <? (InsertionSlice.range slice).1)%N then
       '(_, insertions_cursor) ← Cursor.seek_forward
         (seek_ord (InsertionFragmentKey.mk (insertion_id slice) (InsertionSlice.range slice).1)) Left insertions_cursor;
       Some insertions_cursor
     else Some insertions_cursor);
  take_fragments (length (to_list (insertions self))) (insertion_id slice) (InsertionSlice.range slice).2 insertions_cursor fragment_ids.

Fixpoint slice_loop self (st : InsertionCursor * list Locator) (slices : list InsertionSlice) :
    option (InsertionCursor * list Locator) :=
  match slices with [] => Some st | slice :: slices => st ← slice_step self st slice; slice_loop self st slices end.

(** The two sorts are unstable, which makes no difference: what is equal in the
    first is the same to the loop, what is equal in the second is the same. *)
Definition fragment_ids_for_edits self (edit_ids : list Lamport) : option (list Locator) :=
  insertion_slices ← slices_for_edits self edit_ids;
  let insertion_slices := merge_sort slice_le insertion_slices in
  '(_, fragment_ids) ← slice_loop self (Cursor.new (insertions self), []) insertion_slices;
  Some (merge_sort locator_le fragment_ids).

(** *** [apply_undo] *)

Abbreviation IdCursor := (Cursor.t Fragment FragmentSummary (option Locator * nat)) (only parsing).

Record undo_state := mkUndo {
  old_fragments : IdCursor;
  new_fragments : SumTree Fragment FragmentSummary;
  new_ropes : RopeBuilder;
  edits : Patch.t;
}.

(** The part of the body of the loop for a fragment that is there. *)
Definition undo_fragment self (undo : UndoOperation) (st : undo_state) (fragment : Fragment) : option undo_state :=
  let fragment_was_visible := Fragment.visible fragment in
  visible ← Fragment.is_visible fragment (undo_map self);
  let fragment := Fragment.set_visible fragment visible in
  max_undos ← Global.observe (Fragment.max_undos fragment) (timestamp undo);
  let fragment := Fragment.set_max_undos fragment max_undos in
  let old_start := (Cursor.start (old_fragments st)).2 in
  let new_start := FragmentTextSummary.visible (FragmentSummary.text (SumTree.summary (new_fragments st))) in
  let len := N.to_nat (Fragment.len fragment) in
  let edits :=
    if fragment_was_visible && negb (Fragment.visible fragment) then
      Patch.push (edits st) (Patch.Edit.mk (Range.mk old_start (old_start + len)) (Range.mk new_start new_start))
    else if negb fragment_was_visible && Fragment.visible fragment then
      Patch.push (edits st) (Patch.Edit.mk (Range.mk old_start old_start) (Range.mk new_start (new_start + len)))
    else edits st in
  new_ropes ← RopeBuilder.push_fragment (new_ropes st) fragment fragment_was_visible;
  _ ← Fragment.summary fragment;
  new_fragments ← SumTree.push (new_fragments st) fragment;
  old_fragments ← Cursor.next (old_fragments st);
  Some (mkUndo old_fragments new_fragments new_ropes edits).

Definition undo_step self (undo : UndoOperation) (st : undo_state) (fragment_id : Locator) : option undo_state :=
  '(preceding_fragments, old_fragments) ← Cursor.slice (seek_fst (seek_ord (Some fragment_id))) Left (old_fragments st);
  new_ropes ← RopeBuilder.append (new_ropes st) (FragmentSummary.text (SumTree.summary preceding_fragments));
  new_fragments ← SumTree.append (new_fragments st) preceding_fragments;
  let st := mkUndo old_fragments new_fragments new_ropes (edits st) in
  item ← Cursor.item old_fragments;
  match item with
  | Some fragment => undo_fragment self undo st fragment
  | None => Some st
  end.

Fixpoint undo_loop self (undo : UndoOperation) (st : undo_state) (fragment_ids : list Locator) : option undo_state :=
  match fragment_ids with
  | [] => Some st
  | fragment_id :: fragment_ids => st ← undo_step self undo st fragment_id; undo_loop self undo st fragment_ids
  end.

Definition with_undos self (undos : UndoMap.t) : BufferSnapshot :=
  mkSnapshot (visible_text self) (deleted_text self) (fragments self) (insertions self) (snapshot_slices self) undos
    (snapshot_version self) (snapshot_remote_id self) (snapshot_replica_id self) (snapshot_line_ending self).

(** What the loop starts from. *)
Definition undo_init self : option undo_state :=
  visible_cursor ← Rope.cursor (visible_text self) 0;
  deleted_cursor ← Rope.cursor (deleted_text self) 0;
  Some (mkUndo (Cursor.new (fragments self)) SumTree.new (RopeBuilder.new visible_cursor deleted_cursor) Patch.empty).

(** The fragments behind the last one, and the new snapshot. *)
Definition undo_finish self (st : undo_state) : option (BufferSnapshot * Patch.t) :=
  '(suffix, _) ← Cursor.suffix (old_fragments st);
  ropes ← RopeBuilder.append (new_ropes st) (FragmentSummary.text (SumTree.summary suffix));
  fragments ← SumTree.append (new_fragments st) suffix;
  '(visible_text, deleted_text) ← RopeBuilder.finish ropes;
  Some (mkSnapshot visible_text deleted_text fragments (insertions self) (snapshot_slices self) (undo_map self)
      (snapshot_version self) (snapshot_remote_id self) (snapshot_replica_id self) (snapshot_line_ending self),
    edits st).

(** [apply_undo] up to the publication of the patch; [counts.keys()] come in the
    order of [map_to_list]. *)
Definition apply_undo self (undo : UndoOperation) : option (BufferSnapshot * Patch.t) :=
  undos ← UndoMap.insert (undo_map self) undo;
  let self := with_undos self undos in
  st ← undo_init self;
  fragment_ids ← fragment_ids_for_edits self (map fst (map_to_list (counts undo)));
  st ← undo_loop self undo st fragment_ids;
  undo_finish self st.
End undo.
End UndoEdits.
