(* ===== verification/UndoFinds.v ===== *)
(** * An undo finds the fragments of its edits

    The set of slices is ordered by edits and the tree of insertions by insertions,
    so that one pass over each finds the fragments that an edit touched. *)

From stdpp Require Import sorting.
From S2P Require Import Prelude Clock Locator SumTree SumTreeFacts Seek Cursor CursorFacts CursorWalk Keyed KeyedFacts UndoMap TreeMap TreeMapFacts Patch Utf8 RopeTree Rope LineEnding Operation Fragment FragmentFacts Snapshot EditSpec EditFinish Undo.

Import UndoEdits.

Implicit Types (slice : InsertionSlice) (slices : list InsertionSlice).

(** ** The slices of an edit *)

Lemma slice_cmp_edit (a b : InsertionSlice) :
  cmp a b = then_with (cmp (edit_id a) (edit_id b))
    (then_with (cmp (slice_key a) (slice_key b)) (cmp (InsertionSlice.range a).2 (InsertionSlice.range b).2)).
Proof.
  change (cmp a b) with (then_with (cmp (edit_id a) (edit_id b)) (then_with (cmp (insertion_id a) (insertion_id b))
    (then_with (cmp (InsertionSlice.range a).1 (InsertionSlice.range b).1) (cmp (InsertionSlice.range a).2 (InsertionSlice.range b).2)))).
  change (cmp (slice_key a) (slice_key b)) with (then_with (cmp (insertion_id a) (insertion_id b))
    (cmp (InsertionSlice.range a).1 (InsertionSlice.range b).1)).
  by destruct (cmp (edit_id a) _), (cmp (insertion_id a) _).
Qed.

Section slices.
Context (set : @TreeSet.t InsertionSlice) (Hset : searchable set) (Hsorted : keys_sorted (to_list set)).
Implicit Types (x : MapEntry InsertionSlice unit) (B R : list (MapEntry InsertionSlice unit)).

Definition least_slice (id : Lamport) : InsertionSlice :=
  InsertionSlice.mk (value id) (replica_id id) (value Lamport.MIN) (replica_id Lamport.MIN) (0, 0)%N.

Lemma least_slice_lt id slice : cmp slice (least_slice id) = Lt ↔ cmp (edit_id slice) id = Lt.
Proof.
  rewrite slice_cmp_edit. assert (edit_id (least_slice id) = id) as -> by (by destruct id).
  destruct (cmp (edit_id slice) id); simpl; [|done..]. split; [|done].
  change (cmp (slice_key slice) (slice_key (least_slice id))) with (then_with (cmp (insertion_id slice) Lamport.MIN)
    (cmp (InsertionSlice.range slice).1 0%N)).
  pose proof (Lamport_MIN_le (insertion_id slice)) as Hle. rewrite (cmp_opp Lamport.MIN).
  destruct (cmp Lamport.MIN (insertion_id slice)); [|done..].
  by destruct (InsertionSlice.range slice) as [[|a] [|b]].
Qed.

Lemma contains_elem slice : TreeSet.contains set slice = true ↔ slice ∈ map entry_key (to_list set).
Proof.
  assert (represents set (λ k, lookup_entry k (to_list set))) as Hrep by (split; [apply Hset|done]).
  rewrite (contains_represents _ _ _ Hrep). unfold lookup_entry. split.
  - intros [v Hv]. destruct (list_get _ _) as [x|] eqn:Hx; [|done]. apply list_get_entry in Hx as [Hin <-].
    by apply list_elem_of_fmap_2.
  - intros (x & -> & Hx)%list_elem_of_fmap. rewrite (list_get_sorted (Some (entry_key x) : MapKey InsertionSlice) _ x Hsorted Hx eq_refl). by eexists.
Qed.

Lemma entry_lt_edit x y : key_lt (K:=MapKey InsertionSlice) x y → is_le (cmp (edit_id (entry_key x)) (edit_id (entry_key y))).
Proof. unfold key_lt. change (cmp (key x) (key y)) with (cmp (entry_key x) (entry_key y)). rewrite slice_cmp_edit. by destruct (cmp (edit_id _) _). Qed.

Definition of_edit (id : Lamport) (l : list (MapEntry InsertionSlice unit)) : list InsertionSlice :=
  map entry_key (filter (λ x, edit_id (entry_key x) = id) l).

Lemma take_slices_spec id fuel (c : Cursor.t (MapEntry InsertionSlice unit) (MapKey InsertionSlice) (MapKey InsertionSlice)) B R :
  split_at set c B R → length R <= fuel → keys_sorted R → (∀ x, x ∈ R → cmp (edit_id (entry_key x)) id ≠ Lt) →
  take_slices fuel id c = Some (of_edit id R).
Proof.
  unfold of_edit. revert c B R. induction fuel as [|fuel IH]; intros c B R Hc Hlen Hs Hge; simpl.
  - destruct R; simpl in Hlen; [|lia]. by rewrite (cursor_iter_next_end set c _ Hc).
  - destruct R as [|x R]; [by rewrite (cursor_iter_next_end set c _ Hc)|].
    destruct (cursor_iter_next set Hset c _ _ _ Hc) as (c' & -> & Hc'). cbn [mbind option_bind].
    apply sorted_cons in Hs as [Hs Hx]. rewrite filter_cons. case_bool_decide as Hid.
    + rewrite decide_True by done. rewrite (IH _ _ _ Hc'); [done|simpl in Hlen; lia|done|]. intros y Hy. apply Hge. by right.
    + rewrite decide_False, filter_none; [done| |done]. apply Forall_forall. intros y Hy Hidy.
      eapply Forall_forall in Hx; [|done]. apply entry_lt_edit in Hx. rewrite Hidy in Hx.
      assert (cmp (edit_id (entry_key x)) id ≠ Lt) as Hnlt by (apply Hge; by left).
      destruct (cmp (edit_id (entry_key x)) id) eqn:Hcmp; [by apply cmp_eq in Hcmp|done|done].
Qed.

Lemma edit_slices id : ∃ c, TreeSet.iter_from set (least_slice id) = Some c ∧
  take_slices (length (to_list set)) id c = Some (of_edit id (to_list set)).
Proof.
  destruct (seek_key set Hset Hsorted (Some (least_slice id) : MapKey InsertionSlice)) as (found & c & R & Hseek & Hsplit & Hc & HR).
  { discriminate. }
  unfold TreeSet.iter_from, TreeMap.iter_from. rewrite Hseek. exists c. split; [done|].
  assert (keys_sorted R) as HsR by (unfold keys_sorted in Hsorted; rewrite Hsplit in Hsorted; by apply sorted_app in Hsorted as (_ & ? & _)).
  rewrite (take_slices_spec id _ _ _ _ Hc); [|rewrite Hsplit, length_app; lia|done|].
  - f_equal. rewrite Hsplit at 1. unfold of_edit. rewrite filter_app, (filter_none _ (below _ _)); [done|].
    apply Forall_forall. intros x [Hx _]%elem_of_below Hid.
    change (cmp (key x) _) with (cmp (entry_key x) (least_slice id)) in Hx. by rewrite least_slice_lt, Hid, cmp_refl in Hx.
  - intros x Hx Hlt. apply least_slice_lt in Hlt. by apply (HR x Hx).
Qed.
End slices.

Lemma slices_for_edits_spec (self : BufferSnapshot) ids :
  searchable (snapshot_slices self) → keys_sorted (to_list (snapshot_slices self)) →
  ∃ slices, slices_for_edits self ids = Some slices ∧
    ∀ slice, slice ∈ slices ↔ TreeSet.contains (snapshot_slices self) slice = true ∧ edit_id slice ∈ ids.
Proof.
  intros Hset Hsorted. induction ids as [|id ids (slices & Hrun & Hslices)].
  { exists []. split; [done|]. intros slice. split; [by intros ?%not_elem_of_nil|by intros [_ ?%not_elem_of_nil]]. }
  simpl. unfold slices_for_edit. fold (least_slice id).
  destruct (edit_slices _ Hset Hsorted id) as (c & -> & Hrun'). cbn [mbind option_bind]. rewrite Hrun'. cbn [mbind option_bind].
  rewrite Hrun. eexists. split; [done|]. intros slice. rewrite elem_of_app, Hslices, elem_of_cons, (contains_elem _ Hset Hsorted).
  unfold of_edit. rewrite !list_elem_of_fmap. setoid_rewrite list_elem_of_filter. naive_solver.
Qed.

(** ** The fragments of the slices *)

Lemma insertion_key_cmp (a b : InsertionFragmentKey) :
  cmp a b = then_with (cmp (InsertionFragmentKey.timestamp a) (InsertionFragmentKey.timestamp b))
    (cmp (InsertionFragmentKey.split_offset a) (InsertionFragmentKey.split_offset b)).
Proof. done. Qed.

Lemma key_min_le (k : InsertionFragmentKey) : is_le (cmp (InsertionFragmentKey.mk Lamport.MIN 0) k).
Proof.
  rewrite insertion_key_cmp. destruct k as [t o]. simpl. pose proof (Lamport_MIN_le t).
  destruct (cmp Lamport.MIN t); [|done..]. by destruct o.
Qed.

(** The fragments that start inside a slice. *)
Definition in_slice slice (x : InsertionFragment) : Prop :=
  InsertionFragment.timestamp x = insertion_id slice ∧
  ((InsertionSlice.range slice).1 <= InsertionFragment.split_offset x < (InsertionSlice.range slice).2)%N.

Section fragments.
Context (self : BufferSnapshot) (Htree : searchable (insertions self)).
Context (Hsorted : sorted (K:=InsertionFragmentKey) (to_list (insertions self))).
Implicit Types (x : InsertionFragment) (B R P X : list InsertionFragment).

Let fragment_key x : InsertionFragmentKey := key x.

Lemma take_fragments_spec id end_ fuel (c : Cursor.t InsertionFragment InsertionFragmentKey InsertionFragmentKey) ids B R :
  split_at (insertions self) c B R → length R <= fuel →
  ∃ c' X R', take_fragments fuel id end_ c ids = Some (c', ids ++ map InsertionFragment.fragment_id X) ∧
    split_at (insertions self) c' (B ++ X) R' ∧ R = X ++ R' ∧ (∀ x, x ∈ X → InsertionFragment.timestamp x = id) ∧
    match R' with [] => True | x :: _ => InsertionFragment.timestamp x ≠ id ∨ (end_ <= InsertionFragment.split_offset x)%N end.
Proof.
  revert c ids B R. induction fuel as [|fuel IH]; intros c ids B R Hc Hlen; simpl; rewrite (split_at_item _ _ _ _ Hc); cbn [mbind option_bind].
  - destruct R; simpl in Hlen; [|lia]. exists c, [], []. rewrite !app_nil_r. split_and!; try done. by intros x ?%not_elem_of_nil.
  - destruct R as [|x R]; simpl.
    { exists c, [], []. rewrite !app_nil_r. split_and!; try done. by intros x ?%not_elem_of_nil. }
    case_bool_decide as Hid; simpl.
    + destruct (N.leb_spec end_ (InsertionFragment.split_offset x)).
      * exists c, [], (x :: R). rewrite !app_nil_r. split_and!; try done; [by intros ? ?%not_elem_of_nil|by right].
      * destruct (next_spec _ Htree _ _ _ _ Hc) as (c' & -> & Hc'). cbn [mbind option_bind].
        destruct (IH c' (ids ++ [InsertionFragment.fragment_id x]) _ _ Hc') as (c2 & X & R' & -> & Hc2 & -> & HX & HR'); [simpl in Hlen; lia|].
        exists c2, (x :: X), R'. rewrite <-app_assoc in Hc2. rewrite <-app_assoc. split_and!; try done.
        intros y [->|Hy]%elem_of_cons; [done|by apply HX].
    + exists c, [], (x :: R). rewrite !app_nil_r. split_and!; try done; [by intros ? ?%not_elem_of_nil|by left].
Qed.

(** The state between two slices, the last of which starts at a key. *)
Record gathered (c : Cursor.t InsertionFragment InsertionFragmentKey InsertionFragmentKey) (ids : list Locator)
    (last_key : option InsertionFragmentKey) (done_ : list InsertionSlice) B R P : Prop := {
  gathered_cursor : ready (insertions self) c B R;
  gathered_ids : ids = map InsertionFragment.fragment_id P;
  gathered_sub : P `sublist_of` B;
  gathered_last : match last_key with
    | None => B = []
    | Some k => ∀ x, x ∈ B → (cmp (fragment_key x) k ≠ Lt → x ∈ P) ∧
        is_le (cmp (InsertionFragment.timestamp x) (InsertionFragmentKey.timestamp k))
    end;
  gathered_seek : match last_key with None => True | Some _ => split_at (insertions self) c B R end;
  gathered_done slice x : slice ∈ done_ → x ∈ to_list (insertions self) → in_slice slice x → x ∈ P;
}.

(** The position of a cursor is the key of the item in front of it. *)
Lemma position_last c B R : ready (insertions self) c B R →
  Cursor.start c = match last B with Some x => fragment_key x | None => InsertionFragmentKey.mk Lamport.MIN 0 end.
Proof.
  intros Hc. unfold Cursor.start. rewrite (ready_position _ _ _ _ Hc). destruct B as [|x B _] using rev_ind; [done|].
  by rewrite last_snoc, pos_after_app.
Qed.

Lemma last_greatest B R x : to_list (insertions self) = B ++ R → last B = Some x →
  ∀ y, y ∈ B → is_le (cmp (fragment_key y) (fragment_key x)).
Proof.
  intros Hsplit. destruct B as [|z B _] using rev_ind; [done|]. rewrite last_snoc. intros [= ->] y Hy.
  rewrite Hsplit in Hsorted. apply sorted_app in Hsorted as (HB & _). apply sorted_app in HB as (_ & _ & Hlt).
  apply elem_of_app in Hy as [Hy|Hy%list_elem_of_singleton]; [|subst; by rewrite cmp_refl].
  assert (key_lt (K:=InsertionFragmentKey) y x) as Hyx by (apply Hlt; [done|by left]). unfold key_lt in Hyx.
  unfold fragment_key. by rewrite Hyx.
Qed.

Lemma key_not_lt_timestamp (a b : InsertionFragmentKey) : cmp a b ≠ Lt →
  is_le (cmp (InsertionFragmentKey.timestamp b) (InsertionFragmentKey.timestamp a)).
Proof.
  rewrite insertion_key_cmp, (cmp_opp (InsertionFragmentKey.timestamp a)).
  by destruct (cmp (InsertionFragmentKey.timestamp a) _).
Qed.

Lemma key_le_timestamp (a b : InsertionFragmentKey) : is_le (cmp a b) →
  is_le (cmp (InsertionFragmentKey.timestamp a) (InsertionFragmentKey.timestamp b)).
Proof. rewrite insertion_key_cmp. by destruct (cmp (InsertionFragmentKey.timestamp a) _). Qed.

(** Up to the slice: what is behind has been gathered if it is in the slice. *)
Lemma slice_reached c ids last_key done_ B R P slice : gathered c ids last_key done_ B R P →
  insertion_id slice ≠ Lamport.MIN → (∀ k, last_key = Some k → is_le (cmp k (slice_key slice))) →
  let k := slice_key slice in
  ∃ c' X R', (if negb (bool_decide (insertion_id slice = InsertionFragmentKey.timestamp (Cursor.start c))) ||
        (InsertionFragmentKey.split_offset (Cursor.start c) <? (InsertionSlice.range slice).1)%N then
       '(_, insertions_cursor) ← Cursor.seek_forward
         (seek_ord (InsertionFragmentKey.mk (insertion_id slice) (InsertionSlice.range slice).1)) Left c;
       Some insertions_cursor
     else Some c) = Some c' ∧ split_at (insertions self) c' (B ++ X) R' ∧
    (∀ x, x ∈ B ++ X → (cmp (fragment_key x) k ≠ Lt → x ∈ P) ∧ is_le (cmp (InsertionFragment.timestamp x) (insertion_id slice))) ∧
    (∀ x, x ∈ R' → cmp (fragment_key x) k ≠ Lt).
Proof.
  intros [Hc _ _ Hlast Hsplit _] Hmin Hle k. fold k in Hle. pose proof (ready_app _ _ _ _ Hc) as Hlist.
  change (InsertionFragmentKey.mk (insertion_id slice) (InsertionSlice.range slice).1) with k.
  assert (∀ x, x ∈ B → is_le (cmp (InsertionFragment.timestamp x) (insertion_id slice))) as Hts.
  { intros x Hx. destruct last_key as [kl|]; [|by rewrite Hlast in Hx; apply not_elem_of_nil in Hx].
    apply (cmp_le_trans _ _ _ (proj2 (Hlast x Hx))). apply (key_le_timestamp kl k). by apply Hle. }
  rewrite (position_last _ _ _ Hc).
  match goal with |- context [if ?b then _ else _] => destruct b eqn:Hcond end.
  - assert (∀ x, x ∈ B → cmp (fragment_key x) k = Lt) as Hlt.
    { intros x Hx. destruct (last B) as [z|] eqn:Hz; [|by apply last_None in Hz; rewrite Hz in Hx; apply not_elem_of_nil in Hx].
      eapply cmp_le_lt_trans; [by eapply last_greatest|]. rewrite insertion_key_cmp.
      assert (z ∈ B) as Hzin by (apply last_Some in Hz as [B' ->]; apply elem_of_app; right; by left).
      pose proof (Hts z Hzin) as Hzts. change (InsertionFragmentKey.timestamp (fragment_key z)) with (InsertionFragment.timestamp z) in *.
      change (InsertionFragmentKey.timestamp k) with (insertion_id slice).
      destruct (cmp (InsertionFragment.timestamp z) (insertion_id slice)) eqn:Hcmp; [|done..].
      apply cmp_eq in Hcmp. rewrite bool_decide_eq_true_2 in Hcond by done. simpl in Hcond. apply N.ltb_lt in Hcond.
      simpl. by apply N_cmp_lt. }
    destruct (seek_forward_key _ Htree Hsorted c B R k Hc) as (found & c' & R' & -> & HR & Hc' & Hge).
    { pose proof (position_last _ _ _ Hc) as Hpos. unfold Cursor.start in Hpos. rewrite (ready_position _ _ _ _ Hc) in Hpos.
      rewrite Hpos. destruct (last B) as [z|] eqn:Hz.
      - assert (z ∈ B) as Hzin by (apply last_Some in Hz as [B' ->]; apply elem_of_app; right; by left).
        rewrite (cmp_opp (fragment_key z)), (Hlt z Hzin). done.
      - rewrite (cmp_opp (InsertionFragmentKey.mk Lamport.MIN 0)). pose proof (key_min_le k) as Hzero.
        by destruct (cmp (InsertionFragmentKey.mk Lamport.MIN 0) k). }
    cbn [mbind option_bind]. exists c', (below k R), R'. split_and!; [done..| |exact Hge].
    intros x Hx. assert (cmp (fragment_key x) k = Lt) as Hxk.
    { apply elem_of_app in Hx as [Hx|[Hx _]%elem_of_below]; [by apply Hlt|exact Hx]. }
    split; [by rewrite Hxk|]. apply (key_le_timestamp (fragment_key x) k). by rewrite Hxk.
  - apply orb_false_iff in Hcond as [Hid%negb_false_iff%bool_decide_eq_true Hoff%N.ltb_ge].
    destruct (last B) as [z|] eqn:Hz; [|done].
    destruct last_key as [kl|]; [|by rewrite Hlast in Hz]. exists c, [], R. rewrite app_nil_r.
    split_and!; [done..| |].
    + intros x Hx. split; [|by apply Hts]. intros Hxk. apply (Hlast x Hx). intros Hlt. apply Hxk. eapply cmp_lt_le_trans; [done|]. by apply Hle.
    + intros x Hx Hlt. assert (z ∈ B) as Hzin by (apply last_Some in Hz as [B' ->]; apply elem_of_app; right; by left).
      pose proof Hsorted as Hs. rewrite Hlist in Hs. apply sorted_app in Hs as (_ & _ & Hzx). specialize (Hzx z x Hzin Hx).
      assert (cmp (fragment_key z) k = Lt) as Hzk by (by eapply cmp_lt_trans). rewrite insertion_key_cmp in Hzk.
      change (InsertionFragmentKey.timestamp (fragment_key z)) with (InsertionFragment.timestamp z) in *.
      change (InsertionFragmentKey.timestamp k) with (insertion_id slice) in *. simpl in Hid. rewrite Hid, cmp_refl in Hzk. simpl in Hzk.
      apply (proj1 (N_cmp_lt _ _)) in Hzk. simpl in Hzk, Hoff. lia.
Qed.

Lemma slice_step_spec c ids last_key done_ B R P slice : gathered c ids last_key done_ B R P →
  insertion_id slice ≠ Lamport.MIN → (∀ k, last_key = Some k → is_le (cmp k (slice_key slice))) →
  ∃ c' B' R' P', slice_step self (c, ids) slice = Some (c', map InsertionFragment.fragment_id P') ∧
    gathered c' (map InsertionFragment.fragment_id P') (Some (slice_key slice)) (done_ ++ [slice]) B' R' P'.
Proof.
  intros Hst Hmin Hle. unfold slice_step.
  destruct (slice_reached _ _ _ _ _ _ _ _ Hst Hmin Hle) as (c1 & X & R1 & -> & Hc1 & HB1 & HR1). cbn [mbind option_bind].
  pose proof (ready_app _ _ _ _ (ready_split _ _ _ _ Hc1)) as Hlist.
  destruct (take_fragments_spec (insertion_id slice) (InsertionSlice.range slice).2 (length (to_list (insertions self))) c1 ids _ _ Hc1)
    as (c2 & Y & R2 & -> & Hc2 & -> & HY & HR2); [rewrite Hlist, !length_app; lia|].
  destruct Hst as [Hc -> Hsub Hlast _ Hdone]. rewrite <-map_app. exists c2, ((B ++ X) ++ Y), R2, (P ++ Y). split; [done|]. split.
  - by apply ready_split.
  - done.
  - apply sublist_app; [|done]. etrans; [exact Hsub|]. by apply sublist_inserts_r.
  - intros x [Hx|Hx]%elem_of_app.
    + destruct (HB1 x Hx) as [Hp Ht]. split; [|exact Ht]. intros Hk. apply elem_of_app. left. by apply Hp.
    + split; [intros _; apply elem_of_app; by right|]. rewrite (HY x Hx). by rewrite cmp_refl.
  - done.
  - intros s x [Hs|Hs%list_elem_of_singleton]%elem_of_app Hx Hin; [apply elem_of_app; left; by eapply Hdone|]. subst s.
    destruct Hin as [Hid [Hlo Hhi]]. assert (cmp (fragment_key x) (slice_key slice) ≠ Lt) as Hxk.
    { rewrite insertion_key_cmp. change (InsertionFragmentKey.timestamp (fragment_key x)) with (InsertionFragment.timestamp x).
      change (InsertionFragmentKey.timestamp (slice_key slice)) with (insertion_id slice). rewrite Hid, cmp_refl. simpl.
      intros Hlt%(proj1 (N_cmp_lt _ _)). simpl in Hlt. lia. }
    rewrite Hlist, !elem_of_app in Hx. rewrite elem_of_app. destruct Hx as [Hx|[Hx|Hx]].
    + left. by apply HB1; [apply elem_of_app|].
    + by right.
    + exfalso. destruct R2 as [|h R2]; [by apply not_elem_of_nil in Hx|].
      assert (is_le (cmp (fragment_key h) (fragment_key x))) as Hhx.
      { apply elem_of_cons in Hx as [->|Hx]; [by rewrite cmp_refl|]. pose proof Hsorted as Hs. rewrite Hlist in Hs.
        apply sorted_app in Hs as (_ & Hs & _). apply sorted_app in Hs as (_ & Hs & _). apply sorted_cons in Hs as [_ Hs].
        rewrite Forall_forall in Hs. specialize (Hs x Hx). unfold key_lt in Hs. unfold fragment_key. by rewrite Hs. }
      assert (InsertionFragment.timestamp h = insertion_id slice) as Hh.
      { apply cmp_eq. pose proof (key_le_timestamp _ _ Hhx) as H1. change (is_le (cmp (InsertionFragment.timestamp h) (InsertionFragment.timestamp x)) : Prop) in H1.
        assert (cmp (fragment_key h) (slice_key slice) ≠ Lt) as Hhk by (apply HR1, elem_of_app; right; by left).
        pose proof (key_not_lt_timestamp _ _ Hhk) as H2. change (is_le (cmp (insertion_id slice) (InsertionFragment.timestamp h)) : Prop) in H2.
        rewrite Hid in H1. rewrite (cmp_opp (InsertionFragment.timestamp h)) in H2. by destruct (cmp (InsertionFragment.timestamp h) _). }
      destruct HR2 as [?|Hend]; [done|]. rewrite insertion_key_cmp in Hhx.
      change (InsertionFragmentKey.timestamp (fragment_key h)) with (InsertionFragment.timestamp h) in Hhx.
      change (InsertionFragmentKey.timestamp (fragment_key x)) with (InsertionFragment.timestamp x) in Hhx.
      rewrite Hh, Hid, cmp_refl in Hhx. simpl in Hhx.
      assert (InsertionFragment.split_offset h <= InsertionFragment.split_offset x)%N; [|lia].
      apply N.le_ngt. intros Hlt. apply N_cmp_lt in Hlt.
      rewrite (cmp_opp (InsertionFragment.split_offset x)) in Hhx. by rewrite Hlt in Hhx.
Qed.
End fragments.

Lemma slice_le_key a b : slice_le a b → is_le (cmp (slice_key a) (slice_key b)).
Proof.
  unfold slice_le. change (cmp (slice_key a) (slice_key b)) with (then_with (cmp (insertion_id a) (insertion_id b))
    (cmp (InsertionSlice.range a).1 (InsertionSlice.range b).1)).
  by destruct (cmp (insertion_id a) _), (cmp (InsertionSlice.range a).1 _).
Qed.

#[local] Instance slice_le_total : Total slice_le.
Proof.
  intros a b. unfold slice_le. rewrite (cmp_opp (insertion_id a)), (cmp_opp (InsertionSlice.range a).1), (cmp_opp (InsertionSlice.range b).2).
  destruct (cmp (insertion_id a) _), (cmp (InsertionSlice.range a).1 _), (cmp (InsertionSlice.range b).2 _); simpl; auto.
Qed.

#[local] Instance locator_le_total : Total locator_le.
Proof. intros a b. unfold locator_le. rewrite (cmp_opp a). destruct (cmp a b); simpl; auto. Qed.
#[local] Instance locator_le_trans : Transitive locator_le.
Proof. intros a b c. apply cmp_le_trans. Qed.

Definition key_le (a b : InsertionSlice) : Prop := is_le (cmp (slice_key a) (slice_key b)).
#[local] Instance key_le_trans : Transitive key_le.
Proof. intros a b c. apply cmp_le_trans. Qed.

Lemma Sorted_impl {A} (R R' : relation A) (l : list A) : (∀ a b, R a b → R' a b) → Sorted R l → Sorted R' l.
Proof. intros HR. induction 1 as [|a l _ IH Ha]; constructor; [done|]. destruct Ha; constructor. by apply HR. Qed.

Section ids.
Context (self : BufferSnapshot) (Htree : searchable (insertions self)).
Context (Hsorted : sorted (K:=InsertionFragmentKey) (to_list (insertions self))).

Lemma slice_loop_spec slices c ids last_key done_ B R P : gathered self c ids last_key done_ B R P →
  StronglySorted key_le slices → Forall (λ s, insertion_id s ≠ Lamport.MIN) slices →
  (∀ k, last_key = Some k → Forall (λ s, is_le (cmp k (slice_key s))) slices) →
  ∃ c' last_key' B' R' P', slice_loop self (c, ids) slices = Some (c', map InsertionFragment.fragment_id P') ∧
    gathered self c' (map InsertionFragment.fragment_id P') last_key' (done_ ++ slices) B' R' P'.
Proof.
  revert c ids last_key done_ B R P. induction slices as [|slice slices IH]; intros c ids last_key done_ B R P Hst Hs Hmin Hle.
  { rewrite app_nil_r. exists c, last_key, B, R, P. pose proof (gathered_ids _ _ _ _ _ _ _ _ Hst) as <-. done. }
  apply StronglySorted_inv in Hs as [Hs Hhead]. apply Forall_cons in Hmin as [Hm Hmin].
  destruct (slice_step_spec self Htree Hsorted _ _ _ _ _ _ _ slice Hst Hm) as (c1 & B1 & R1 & P1 & Hrun & Hst1).
  { intros k Hk. by apply Hle, Forall_cons in Hk as [? _]. }
  cbn [slice_loop]. rewrite Hrun. cbn [mbind option_bind].
  destruct (IH _ _ _ _ _ _ _ Hst1 Hs Hmin) as (c2 & k2 & B2 & R2 & P2 & Hrun2 & Hst2); [by intros k [= <-]|].
  rewrite <-app_assoc in Hst2. by exists c2, k2, B2, R2, P2.
Qed.

Lemma locators_sorted (ids : list Locator) : NoDup ids → StronglySorted (λ a b : Locator, cmp a b = Lt) (merge_sort locator_le ids).
Proof.
  intros Hnd. rewrite <-(merge_sort_Permutation locator_le) in Hnd.
  assert (StronglySorted locator_le (merge_sort locator_le ids)) as Hs.
  { apply (StronglySorted_merge_sort _). }
  revert Hnd Hs. generalize (merge_sort locator_le ids). induction l as [|a l IH]; intros Hnd Hs; [constructor|].
  apply NoDup_cons in Hnd as [Ha Hnd]. apply StronglySorted_inv in Hs as [Hs Hle]. constructor; [by apply IH|].
  apply Forall_forall. intros b Hb. rewrite Forall_forall in Hle. specialize (Hle b Hb). unfold locator_le in Hle.
  destruct (cmp a b) eqn:Hab; [by apply cmp_eq in Hab; subst|done|done].
Qed.

Lemma fragment_ids_spec edit_ids : searchable (snapshot_slices self) → keys_sorted (to_list (snapshot_slices self)) →
  (∀ slice, TreeSet.contains (snapshot_slices self) slice = true → insertion_id slice ≠ Lamport.MIN) →
  NoDup (map InsertionFragment.fragment_id (to_list (insertions self))) →
  ∃ ids, fragment_ids_for_edits self edit_ids = Some ids ∧ StronglySorted (λ a b : Locator, cmp a b = Lt) ids ∧
    (∀ id, id ∈ ids → id ∈ map InsertionFragment.fragment_id (to_list (insertions self))) ∧
    (∀ x slice, x ∈ to_list (insertions self) → TreeSet.contains (snapshot_slices self) slice = true →
      edit_id slice ∈ edit_ids → in_slice slice x → InsertionFragment.fragment_id x ∈ ids).
Proof.
  intros Hset Hkeys Hmin Hnd. unfold fragment_ids_for_edits.
  destruct (slices_for_edits_spec self edit_ids Hset Hkeys) as (slices & -> & Hslices). cbn [mbind option_bind].
  pose proof (merge_sort_Permutation slice_le slices) as Hperm. set (sorted_slices := merge_sort slice_le slices) in *.
  destruct (slice_loop_spec sorted_slices (Cursor.new (insertions self)) [] None [] [] (to_list (insertions self)) [])
    as (c & k & B & R & P & -> & Hst); [| | |done|].
  - split; try done; [by apply ready_new|by intros s x ?%not_elem_of_nil].
  - apply Sorted_StronglySorted; [apply _|]. eapply Sorted_impl, Sorted_merge_sort; [apply slice_le_key|apply _].
  - apply Forall_forall. intros s Hs. rewrite Hperm in Hs. apply Hslices in Hs as [Hs _]. by apply Hmin.
  - cbn [mbind option_bind]. destruct Hst as [Hc _ Hsub _ _ Hdone]. eexists. split; [done|].
    assert (P `sublist_of` to_list (insertions self)) as HP.
    { rewrite (ready_app _ _ _ _ Hc). etrans; [exact Hsub|]. by apply sublist_inserts_r. }
    split_and!.
    + apply locators_sorted. eapply sublist_NoDup; [exact Hnd|]. exact (fmap_sublist InsertionFragment.fragment_id _ _ HP).
    + intros id Hid. rewrite merge_sort_Permutation in Hid. eapply elem_of_sublist; [exact Hid|].
      exact (fmap_sublist InsertionFragment.fragment_id _ _ HP).
    + intros x slice Hx Hslice Hedit Hin. rewrite merge_sort_Permutation. apply list_elem_of_fmap_2.
      apply (Hdone slice); [|done..]. simpl. rewrite Hperm. by apply Hslices.
Qed.
End ids.
