(* ===== verification/UndoFacts.v ===== *)
(** * An undo shows and hides what it names

    [apply_undo] looks at no more than the fragments its edits touched, and yet
    afterwards every character is shown exactly when the new undo map says so. *)

From stdpp Require Import sorting.
From S2P Require Import Prelude Clock Locator SumTree SumTreeFacts Seek Cursor CursorFacts CursorWalk Keyed KeyedFacts UndoMap TreeMap TreeMapFacts Patch PatchFacts Utf8 TextSummary RopeTree Rope RopeFacts RopeSeek RopeCut LineEnding Operation Fragment FragmentFacts Snapshot EditSpec EditInv EditState EditSteps EditFinish Undo UndoFinds.

Import UndoEdits.

Implicit Types (L B R X : list piece) (p : piece) (f : Fragment) (ids : list Locator).

(** ** The undo map *)

Lemma is_undone_total u id : searchable u → sorted (K:=UndoMapKey) (to_list u) → ∃ b, UndoMap.is_undone u id = Some b.
Proof. intros Hu Hs. unfold UndoMap.is_undone. rewrite (undo_count_spec u Hu Hs). by eexists. Qed.

Lemma all_undone_total u ds : searchable u → sorted (K:=UndoMapKey) (to_list u) → ∃ b, Fragment.all_undone u ds = Some b.
Proof.
  intros Hu Hs. induction ds as [|d ds [b IH]]; simpl; [by eexists|].
  destruct (is_undone_total u d Hu Hs) as [[] ->]; cbn [mbind option_bind]; by eexists.
Qed.

Lemma is_visible_total u f : searchable u → sorted (K:=UndoMapKey) (to_list u) → ∃ b, Fragment.is_visible f u = Some b.
Proof.
  intros Hu Hs. unfold Fragment.is_visible. destruct (is_undone_total u (Fragment.timestamp f) Hu Hs) as [[] ->]; cbn [mbind option_bind].
  - by eexists.
  - by apply all_undone_total.
Qed.

(** The counts after an undo. *)
Lemma undo_count_insert u op u' id : searchable u → sorted (K:=UndoMapKey) (to_list u) →
  (∀ x, x ∈ to_list u → undo_id (UndoMap.entry_key x) ≠ UndoMap.timestamp op) → UndoMap.insert u op = Some u' → searchable u' →
  UndoMap.undo_count u' id = (n ← UndoMap.undo_count u id; Some (N.max n (default 0%N (counts op !! id)))).
Proof.
  intros Hu Hs Hfresh Hrun Hu'. destruct (insert_spec u op Hu Hs Hfresh) as (u2 & Hrun2 & _ & Hs' & Hin).
  rewrite Hrun in Hrun2. injection Hrun2 as <-. rewrite (undo_count_spec u' Hu' Hs'), (undo_count_spec u Hu Hs). cbn [mbind option_bind]. f_equal.
  transitivity (max_list (default 0%N (counts op !! id) :: map undo_count_of (entries_of id (to_list u)))); [|by simpl; rewrite N.max_comm].
  apply N.le_antisymm.
  - destruct (max_list_in (map undo_count_of (entries_of id (to_list u')))) as [->|Hx]; [lia|].
    apply list_elem_of_fmap in Hx as (x & -> & Hx). unfold entries_of in Hx. apply list_elem_of_filter in Hx as [Hid Hx].
    apply Hin in Hx as [Hx|[_ Hx]].
    + apply max_list_le. right. apply list_elem_of_fmap. exists x. split; [done|]. by apply list_elem_of_filter.
    + rewrite Hid in Hx. rewrite Hx. simpl. lia.
  - destruct (max_list_in (default 0%N (counts op !! id) :: map undo_count_of (entries_of id (to_list u)))) as [->|Hx]; [lia|].
    apply elem_of_cons in Hx as [Hx|(x & Hn & Hx)%list_elem_of_fmap].
    + rewrite Hx. destruct (counts op !! id) as [n|] eqn:Hn; simpl; [|lia]. apply max_list_le, list_elem_of_fmap.
      exists (mkUndoMapEntry (mkUndoMapKey id (UndoMap.timestamp op)) n). split; [done|]. apply list_elem_of_filter. split; [done|].
      apply Hin. by right.
    + rewrite Hn. apply max_list_le, list_elem_of_fmap. exists x. split; [done|]. unfold entries_of in *.
      apply list_elem_of_filter in Hx as [Hid Hx]. apply list_elem_of_filter. split; [done|]. apply Hin. by left.
Qed.

Lemma is_undone_insert_other u op u' id : searchable u → sorted (K:=UndoMapKey) (to_list u) →
  (∀ x, x ∈ to_list u → undo_id (UndoMap.entry_key x) ≠ UndoMap.timestamp op) → UndoMap.insert u op = Some u' → searchable u' →
  counts op !! id = None → UndoMap.is_undone u' id = UndoMap.is_undone u id.
Proof.
  intros Hu Hs Hfresh Hrun Hu' Hid. unfold UndoMap.is_undone. rewrite (undo_count_insert u op u') by done. rewrite Hid.
  destruct (UndoMap.undo_count u id); [|done]. cbn [mbind option_bind]. simpl. by rewrite N.max_0_r.
Qed.

Lemma all_undone_same u u' ds : (∀ d, d ∈ ds → UndoMap.is_undone u' d = UndoMap.is_undone u d) →
  Fragment.all_undone u' ds = Fragment.all_undone u ds.
Proof.
  intros Hd. induction ds as [|d ds IH]; [done|]. simpl. rewrite (Hd d) by by left.
  destruct (UndoMap.is_undone u d) as [[]|]; [|done..]. cbn [mbind option_bind]. apply IH. intros d' Hd'. apply Hd. by right.
Qed.

(** ** What an undo makes of a piece *)

Lemma atoms_from_elem f offset (s : str) a : a ∈ atoms_from f offset s →
  atom_insertion a = Fragment.timestamp f ∧ atom_deletions a = Fragment.deletions f ∧ atom_visible a = Fragment.visible f.
Proof.
  revert offset. induction s as [|c s IH]; intros o; [by intros ?%not_elem_of_nil|]. cbn [atoms_from].
  intros [->|Ha]%elem_of_cons; [done|by eapply IH].
Qed.

(** What stays as it is. *)
Definition core (a : Atom) : Lamport * N * char * list Lamport :=
  (atom_insertion a, atom_offset a, atom_char a, atom_deletions a).

Lemma core_names a a' id : core a = core a' → names id a → names id a'.
Proof. intros [= Hi _ _ Hd]. unfold names. by rewrite Hi, Hd. Qed.

Lemma core_bytes A A' : map core A = map core A' → bytes_of A = bytes_of A'.
Proof.
  revert A'. induction A as [|a A IH]; intros [|a' A']; try done. cbn [map]. intros [= Hi Ho Hc _ HA]. unfold bytes_of in *. simpl.
  rewrite (IH A' HA). f_equal. unfold atom_bytes. by rewrite Hi, Ho, Hc.
Qed.

Lemma core_elem A A' a : map core A = map core A' → a ∈ A → ∃ a', a' ∈ A' ∧ core a = core a'.
Proof.
  intros HA Ha. assert (core a ∈ map core A') as (a' & Hc & Ha')%list_elem_of_fmap by (rewrite <-HA; by apply list_elem_of_fmap_2).
  by exists a'.
Qed.

Lemma core_atoms_from f f' offset s : Fragment.timestamp f = Fragment.timestamp f' → Fragment.deletions f = Fragment.deletions f' →
  map core (atoms_from f offset s) = map core (atoms_from f' offset s).
Proof. intros Ht Hd. revert offset. induction s as [|c s IH]; intros o; [done|]. simpl. rewrite IH. unfold core. simpl. by rewrite Ht, Hd. Qed.

Section pieces.
Context (undos : UndoMap.t) (timestamp : Lamport).

Definition undone f : Fragment :=
  Fragment.set_max_undos (Fragment.set_visible f (default false (Fragment.is_visible f undos)))
    (default (Fragment.max_undos f) (Global.observe (Fragment.max_undos f) timestamp)).

Definition undo_piece ids p : piece := if decide (Fragment.id p.1 ∈ ids) then (undone p.1, p.2) else p.

Lemma undone_whole p : observable timestamp → whole p → whole (undone p.1, p.2).
Proof.
  intros Hts [(Ht & Hd & Hu) Hs Hl Hne Ho]. split; simpl; [|done..]. split_and!; [done..|]. simpl.
  by destruct (observe_observable (Fragment.max_undos p.1) timestamp Hu Hts) as (g & -> & Hg).
Qed.

Lemma undo_piece_whole ids p : observable timestamp → whole p → whole (undo_piece ids p).
Proof. intros Hts Hp. unfold undo_piece. destruct (decide _); [by apply undone_whole|done]. Qed.

Lemma undo_piece_same ids p : insertion_key (undo_piece ids p).1 = insertion_key p.1 ∧
  InsertionFragment.new (undo_piece ids p).1 = InsertionFragment.new p.1 ∧ Fragment.id (undo_piece ids p).1 = Fragment.id p.1 ∧
  map core (atoms_of (undo_piece ids p)) = map core (atoms_of p).
Proof. unfold undo_piece. destruct (decide _); [|done]. split_and!; [done..|]. by apply core_atoms_from. Qed.

Lemma undo_pieces_core ids L : map core (atoms (map (undo_piece ids) L)) = map core (atoms L).
Proof. induction L as [|p L IH]; [done|]. cbn [map]. rewrite !atoms_cons, !map_app, IH. f_equal. apply undo_piece_same. Qed.

Lemma undo_pieces_map {A} (g : Fragment → A) ids L : (∀ p, g (undo_piece ids p).1 = g p.1) →
  map (λ p, g p.1) (map (undo_piece ids) L) = map (λ p, g p.1) L.
Proof. intros Hg. rewrite map_map. by apply map_ext. Qed.

End pieces.

(** ** Seeking a fragment by its id *)

Abbreviation IdPosition := (option Locator * nat)%type (only parsing).

Lemma id_after (d : IdPosition) (fs : list Fragment) : Forall fragment_ok fs →
  pos_after d fs = (match last fs with Some f => Some (Fragment.id f) | None => d.1 end, d.2 + visible_len fs).
Proof.
  intros Hfs. destruct fs as [|f fs _] using rev_ind; [destruct d; unfold visible_len; simpl; by rewrite Nat.add_0_r|].
  apply Forall_app in Hfs as [Hfs Hf]. pose proof Hf as [Hf' _]%Forall_cons. rewrite last_snoc.
  apply injective_projections.
  - rewrite pos_after_app. simpl. by rewrite item_id.
  - transitivity (pos_after d.2 (fs ++ [f])); [|by rewrite usize_after by by apply Forall_app].
    clear. generalize (fs ++ [f]). intros l. revert d. induction l as [|x l IH]; intros d; [done|].
    change (x :: l) with ([x] ++ l). rewrite !pos_after_app, IH. done.
Qed.

Abbreviation id_target i := (seek_fst (seek_ord (Some i : option Locator)) : SeekTarget IdPosition) (only parsing).

Lemma cmp_Some_Some {A} `{Ord A} (x y : A) : cmp (Some x) (Some y) = cmp x y.
Proof. done. Qed.

Lemma id_sorted_last B R p : ids_ok (ids_of (B ++ R)) → last B = Some p → ∀ q, q ∈ R → cmp (Fragment.id p.1) (Fragment.id q.1) = Lt.
Proof.
  intros [_ Hs] Hp q Hq. unfold ids_of in Hs. rewrite map_app in Hs. apply StronglySorted_app in Hs as (Hlt & _). apply Hlt.
  - apply last_Some in Hp as [B' ->]. rewrite map_app. apply elem_of_app. right. by left.
  - apply list_elem_of_fmap. by exists q.
Qed.

Lemma last_map {A C} (g : A → C) (l : list A) : last (map g l) = g <$> last l.
Proof. destruct l as [|x l _] using rev_ind; [done|]. rewrite map_app. simpl. by rewrite !last_snoc. Qed.

Lemma id_monotone (i : Locator) B R : Forall whole B → Forall whole R → ids_ok (ids_of (B ++ R)) →
  monotone (id_target i) (pos_after dim_zero (map fst B)) (map fst R).
Proof.
  intros HB HR Hids l1 l2 l3 Heq. apply map_eq_app in Heq as (R1 & R23 & -> & <- & Heq).
  apply map_eq_app in Heq as (R2 & R3 & -> & <- & <-). apply Forall_app in HR as [HR1 HR]. apply Forall_app in HR as [HR2 _].
  unfold seek_fst, seek_ord. rewrite <-!pos_after_app, <-!map_app. apply rank_cmp_le.
  rewrite !id_after by (apply whole_fragments; by rewrite ?Forall_app). cbn [fst]. rewrite !last_map, !app_assoc.
  destruct (last (B ++ R1)) as [p|] eqn:Hp.
  - destruct R2 as [|q R2 _] using rev_ind; [rewrite app_nil_r, Hp; simpl; by rewrite cmp_refl|].
    rewrite (app_assoc (B ++ R1)), last_snoc. simpl. rewrite !app_assoc in Hids. rewrite <-(app_assoc (B ++ R1)) in Hids.
    rewrite <-(app_assoc (B ++ R1)) in Hids.
    rewrite cmp_Some_Some, (id_sorted_last (B ++ R1) _ p Hids Hp q); [done|].
    apply elem_of_app. left. apply elem_of_app. right. by left.
  - simpl. by destruct (last ((B ++ R1) ++ R2)).
Qed.

Lemma id_scan (d : IdPosition) X p R : Forall whole X → whole p → (∀ q, q ∈ X → cmp (Fragment.id q.1) (Fragment.id p.1) = Lt) →
  ∃ pos, lin_seek (id_target (Fragment.id p.1)) Left d (map fst (X ++ p :: R)) = (map fst X, pos, map fst (p :: R)).
Proof.
  intros HX Hp. revert d. induction HX as [|q X Hq _ IH]; intros d Hlt.
  - exists d. cbn [app map lin_seek]. unfold stops, seek_fst, seek_ord. simpl.
    rewrite item_id by apply Hp. by rewrite cmp_Some_Some, cmp_refl.
  - assert (stops (id_target (Fragment.id p.1)) Left (dim_add d (item_summary q.1)) = false) as Hstop.
    { unfold stops, seek_fst, seek_ord. simpl. rewrite item_id by apply Hq.
      by rewrite cmp_Some_Some, (cmp_opp (Fragment.id q.1)), (Hlt q) by by left. }
    destruct (IH (dim_add d (item_summary q.1))) as (pos & Hpos); [intros q' Hq'; apply Hlt; by right|].
    cbn [app map lin_seek]. cbv zeta. rewrite Hstop. cbn [app map] in Hpos. rewrite Hpos. by eexists.
Qed.

(** ** The loop *)

Section loop.
Context (self : BufferSnapshot) (L : list piece) (undo : UndoOperation) (undos : UndoMap.t).
Context (Hok : snapshot_ok self L) (Hfits : snapshot_fits self) (Hts : observable (UndoMap.timestamp undo)).
Context (Hundos : searchable undos) (Hsorted : sorted (K:=UndoMapKey) (to_list undos)).
Implicit Types (st : undo_state).

Abbreviation revised := (undo_piece undos (UndoMap.timestamp undo)) (only parsing).

Record undoing st (done_ : list Locator) B R : Prop := {
  undoing_old : L = B ++ R;
  undoing_cursor : ready (fragments self) (old_fragments st) (map fst B) (map fst R);
  undoing_tree : tree_ok (new_fragments st);
  undoing_list : to_list (new_fragments st) = map fst (map (revised done_) B);
  undoing_ropes : ropes_ok (visible_text self) (deleted_text self) (visible_of (atoms L)) (deleted_of (atoms L)) (new_ropes st)
    (visible_of (atoms R)) (deleted_of (atoms R)) (visible_of (atoms (map (revised done_) B))) (deleted_of (atoms (map (revised done_) B)));
  undoing_patch : relates (edits st) (Str.as_bytes (visible_of (atoms B))) (Str.as_bytes (visible_of (atoms (map (revised done_) B))));
  undoing_done i : i ∈ done_ → i ∈ ids_of B;
}.

Lemma tree_text (t : SumTree Fragment FragmentSummary) X : tree_ok t → to_list t = map fst X → Forall whole X →
  FragmentSummary.text (SumTree.summary t) = FragmentTextSummary.mk (Str.len (visible_of (atoms X))) (Str.len (deleted_of (atoms X))).
Proof.
  intros Ht Hl HX. rewrite (tree_summary_sum t Ht), Hl, sum_text by by apply whole_fragments.
  by rewrite visible_len_pieces, deleted_len_pieces.
Qed.

Lemma revised_whole ids X : Forall whole X → Forall whole (map (revised ids) X).
Proof. intros HX. rewrite Forall_map. eapply Forall_impl; [exact HX|]. intros p Hp. by apply undo_piece_whole. Qed.

(** Nothing but the fragment itself is revised. *)
Lemma revised_snoc done_ B X p R : L = B ++ X ++ p :: R → (∀ i, i ∈ done_ → i ∈ ids_of B) →
  map (revised (done_ ++ [Fragment.id p.1])) (B ++ X ++ [p]) = map (revised done_) B ++ X ++ [(undone undos (UndoMap.timestamp undo) p.1, p.2)].
Proof.
  intros HL Hdone. pose proof (ok_locators _ _ Hok) as [_ Hs]. rewrite HL in Hs. unfold ids_of in Hs. rewrite !map_app in Hs.
  apply StronglySorted_app in Hs as (HB & _ & Hs). apply StronglySorted_app in Hs as (HX & _ & _).
  assert (∀ a b : Locator, cmp a b = Lt → a ≠ b) as Hne by (intros a b Hab ->; by rewrite cmp_refl in Hab).
  rewrite !map_app. f_equal; [|f_equal].
  - apply map_ext_in. intros q Hq%list_elem_of_In. unfold undo_piece. apply decide_ext. rewrite elem_of_app, list_elem_of_singleton.
    split; [|by left]. intros [?|Heq]; [done|]. exfalso. eapply Hne; [|exact Heq]. apply HB; [apply list_elem_of_fmap; by exists q|].
    apply elem_of_app. right. by left.
  - transitivity (map id X); [|apply map_id]. apply map_ext_in. intros q Hq%list_elem_of_In. unfold undo_piece. rewrite decide_False; [done|].
    rewrite elem_of_app, list_elem_of_singleton. intros [Hin|Heq].
    + apply Hdone in Hin. eapply (Hne (Fragment.id q.1)); [|done]. apply HB; [exact Hin|]. apply elem_of_app. left. apply list_elem_of_fmap. by exists q.
    + eapply Hne; [|exact Heq]. apply HX; [apply list_elem_of_fmap; by exists q|by left].
  - simpl. unfold undo_piece. rewrite decide_True; [done|]. apply elem_of_app. right. by left.
Qed.

(** What is passed on the way to a fragment. *)
Lemma undo_reaches st done_ B X p R : undoing st done_ B (X ++ p :: R) →
  ∃ t cur ropes tree, Cursor.slice (id_target (Fragment.id p.1)) Left (old_fragments st) = Some (t, cur) ∧
    RopeBuilder.append (new_ropes st) (FragmentSummary.text (SumTree.summary t)) = Some ropes ∧
    SumTree.append (new_fragments st) t = Some tree ∧ tree_ok tree ∧
    to_list tree = map fst (map (revised done_) B ++ X) ∧
    split_at (fragments self) cur (map fst (B ++ X)) (map fst (p :: R)) ∧
    ropes_ok (visible_text self) (deleted_text self) (visible_of (atoms L)) (deleted_of (atoms L)) ropes
      (visible_of (atoms (p :: R))) (deleted_of (atoms (p :: R)))
      (visible_of (atoms (map (revised done_) B ++ X))) (deleted_of (atoms (map (revised done_) B ++ X))).
Proof.
  intros [HL Hc Ht Hl Hropes _ _]. pose proof (ok_whole _ _ Hok) as Hw. pose proof (ok_locators _ _ Hok) as Hids.
  rewrite HL in Hw, Hids. apply Forall_app in Hw as [HB HXR]. pose proof HXR as [HX [Hp HR]%Forall_cons]%Forall_app.
  pose proof (id_monotone (Fragment.id p.1) B (X ++ p :: R) HB HXR Hids) as Hmono.
  assert (∀ q, q ∈ X → cmp (Fragment.id q.1) (Fragment.id p.1) = Lt) as Hlt.
  { intros q Hq. destruct Hids as [_ Hs]. unfold ids_of in Hs. rewrite !map_app in Hs. apply StronglySorted_app in Hs as (_ & _ & Hs).
    apply StronglySorted_app in Hs as (Hs & _). apply Hs; [apply list_elem_of_fmap; by exists q|by left]. }
  assert (id_target (Fragment.id p.1) (pos_after dim_zero (map fst B)) ≠ Lt) as Hge.
  { unfold seek_fst, seek_ord. rewrite id_after by by apply whole_fragments. cbn [fst]. rewrite last_map.
    destruct (last B) as [q|] eqn:Hq; [|done]. simpl.
    rewrite cmp_Some_Some, (cmp_opp (Fragment.id q.1)), (id_sorted_last B _ q Hids Hq p); [done|]. apply elem_of_app. right. by left. }
  pose proof (slice_spec (fragments self) (id_target (Fragment.id p.1)) Left (exact:=true) _ _ _ (fragments_searchable _ _ Hok Hfits) Hc Hmono Hge) as Hslice.
  destruct (id_scan (pos_after dim_zero (map fst B)) X p R HX Hp Hlt) as (pos & Hscan). rewrite Hscan in Hslice.
  destruct Hslice as (t & cur & Hrun & Htok & Htl & Hcur). exists t, cur.
  rewrite atoms_app, visible_of_app, deleted_of_app in Hropes.
  destruct (ropes_append _ _ _ _ (fits_visible _ Hfits) (fits_deleted _ Hfits) (visible_fits _ _ Hok Hfits) (deleted_fits _ _ Hok Hfits)
    _ _ _ _ _ _ _ Hropes) as (ropes & Hropes1 & Hropes2).
  destruct (append_ok _ _ Ht Htok) as (tree & Htree & Htree1 & Htree2).
  exists ropes, tree. rewrite (tree_text t X) by done. rewrite atoms_app, visible_of_app, deleted_of_app, map_app. split_and!; try done.
  - by rewrite Htree2, Hl, Htl.
  - by rewrite map_app.
Qed.

Lemma undo_patch P (a b m : str) (was now : bool) os ns len :
  relates P (Str.as_bytes a) (Str.as_bytes b) → os = Str.len a → ns = Str.len b → len = Str.len m →
  relates
    (if was && negb now then Patch.push P (Patch.Edit.mk (Range.mk os (os + len)) (Range.mk ns ns))
     else if negb was && now then Patch.push P (Patch.Edit.mk (Range.mk os os) (Range.mk ns (ns + len)))
     else P)
    (Str.as_bytes (a ++ if was then m else [])) (Str.as_bytes (b ++ if now then m else [])).
Proof.
  intros HP -> -> ->. rewrite !Str_as_bytes_app. destruct was, now; simpl.
  - by apply relates_from_snoc_gap.
  - pose proof (relates_from_push 0 0 _ _ _ (Str.as_bytes m) [] HP) as Hpush. unfold tail_edit in Hpush. simpl in Hpush.
    by rewrite Nat.add_0_r in Hpush.
  - pose proof (relates_from_push 0 0 _ _ _ [] (Str.as_bytes m) HP) as Hpush. unfold tail_edit in Hpush. simpl in Hpush.
    by rewrite Nat.add_0_r in Hpush.
  - by rewrite !app_nil_r.
Qed.

Lemma visible_of_snoc X p : visible_of (atoms (X ++ [p])) = visible_of (atoms X) ++ if Fragment.visible p.1 then p.2 else [].
Proof. by rewrite atoms_app, atoms_one, visible_of_app, visible_of_atoms_of. Qed.

Lemma deleted_of_snoc X p : deleted_of (atoms (X ++ [p])) = deleted_of (atoms X) ++ if Fragment.visible p.1 then [] else p.2.
Proof. by rewrite atoms_app, atoms_one, deleted_of_app, deleted_of_atoms_of. Qed.

Lemma undo_step_spec st done_ B X p R : undoing st done_ B (X ++ p :: R) →
  ∃ st', undo_step (with_undos self undos) undo st (Fragment.id p.1) = Some st' ∧
    undoing st' (done_ ++ [Fragment.id p.1]) (B ++ X ++ [p]) R.
Proof.
  intros Hst. pose proof (undoing_old _ _ _ _ Hst) as HL. pose proof (ok_whole _ _ Hok) as Hw. rewrite HL in Hw.
  apply Forall_app in Hw as [HB HXR]. apply Forall_app in HXR as [HX HXR]. apply Forall_cons in HXR as [Hp HR].
  pose proof (revised_snoc done_ B X p R HL (undoing_done _ _ _ _ Hst)) as Hrev.
  destruct (undo_reaches _ _ _ _ _ _ Hst) as (t & cur & ropes & tree & Hslice & Happend & Htree & Htree1 & Htree2 & Hcur & Hropes).
  unfold undo_step. rewrite Hslice. cbn [mbind option_bind]. rewrite Happend. cbn [mbind option_bind]. rewrite Htree. cbn [mbind option_bind].
  rewrite (split_at_item _ _ _ _ Hcur). cbn [mbind option_bind head map]. unfold undo_fragment.
  cbn [old_fragments new_fragments new_ropes edits].
  change (undo_map (with_undos self undos)) with undos.
  destruct (is_visible_total undos p.1 Hundos Hsorted) as [vis Hvis]. rewrite Hvis. cbn [mbind option_bind].
  pose proof Hp as [(_ & _ & Hcan) _ _ _ _].
  destruct (observe_observable (Fragment.max_undos p.1) (UndoMap.timestamp undo) Hcan Hts) as (g & Hg & _).
  change (Fragment.max_undos (Fragment.set_visible p.1 vis)) with (Fragment.max_undos p.1). rewrite Hg. cbn [mbind option_bind].
  pose proof (undone_whole undos (UndoMap.timestamp undo) p Hts Hp) as Hf. unfold undone in Hf, Hrev. rewrite Hvis, Hg in Hf, Hrev. cbn [default] in Hf, Hrev.
  set (f := Fragment.set_max_undos _ _) in *.
  assert (Forall whole (map (revised done_) B ++ X)) as HN by (apply Forall_app; split; [by apply revised_whole|done]).
  rewrite (split_at_start _ _ _ _ Hcur), id_after by (apply whole_fragments; by apply Forall_app).
  rewrite (tree_text tree _ Htree1 Htree2 HN), visible_len_pieces by by apply Forall_app. cbn [snd FragmentTextSummary.visible dim_zero pair_dimension fragment_usize_dimension].
  rewrite Nat.add_0_l.
  rewrite atoms_cons, visible_of_app, deleted_of_app, visible_of_atoms_of, deleted_of_atoms_of in Hropes.
  destruct (ropes_push_fragment _ _ _ _ (fits_visible _ Hfits) (fits_deleted _ Hfits) (visible_fits _ _ Hok Hfits) (deleted_fits _ _ Hok Hfits)
    ropes f p.2 (visible_of (atoms R)) (deleted_of (atoms R)) (visible_of (atoms (map (revised done_) B ++ X)))
    (deleted_of (atoms (map (revised done_) B ++ X))) (Fragment.visible p.1) (whole_len _ Hf) (whole_nonempty _ Hf))
    as (ropes' & -> & Hropes'); [by destruct (Fragment.visible p.1)|]. cbn [mbind option_bind].
  destruct (fragment_summary f (whole_fragment _ Hf)) as (d & -> & _ & _). cbn [mbind option_bind].
  destruct (push_ok tree f Htree1) as (tree' & -> & Htree1' & Htree2'). cbn [mbind option_bind].
  destruct (next_spec _ (fragments_searchable _ _ Hok Hfits) _ _ _ _ Hcur) as (cur' & -> & Hcur'). cbn [mbind option_bind].
  eexists. split; [done|]. split; cbn [old_fragments new_fragments new_ropes edits]; rewrite ?Hrev, ?(app_assoc _ X).
  - by rewrite HL, <-!app_assoc.
  - apply ready_split. rewrite !map_app in Hcur'. rewrite !map_app. exact Hcur'.
  - done.
  - rewrite Htree2', Htree2, !map_app. done.
  - rewrite visible_of_snoc, deleted_of_snoc. simpl in *. destruct vis; by rewrite ?app_nil_r.
  - rewrite !visible_of_snoc. cbn [fst snd]. change (Fragment.visible f) with vis. apply undo_patch.
    + rewrite !atoms_app, !visible_of_app, !Str_as_bytes_app. apply relates_from_snoc_gap, Hst.
    + done.
    + done.
    + change (Fragment.len f) with (Fragment.len p.1). by rewrite (whole_len _ Hp), Nat2N.id.
  - intros i [Hi|Hi%list_elem_of_singleton]%elem_of_app; unfold ids_of; rewrite !map_app, !elem_of_app.
    + left. left. by apply (undoing_done _ _ _ _ Hst).
    + right. subst. by left.
Qed.

(** All fragments of the list, which is in the order of the text. *)
Lemma undo_loop_spec ids st done_ B R : undoing st done_ B R → StronglySorted (λ a b : Locator, cmp a b = Lt) ids →
  (∀ i, i ∈ ids → i ∈ ids_of R) →
  ∃ st' B' R', undo_loop (with_undos self undos) undo st ids = Some st' ∧ undoing st' (done_ ++ ids) B' R'.
Proof.
  revert st done_ B R. induction ids as [|i ids IH]; intros st done_ B R Hst Hs Hids.
  { exists st, B, R. by rewrite app_nil_r. }
  apply StronglySorted_inv in Hs as [Hs Hi]. destruct (proj1 (list_elem_of_fmap _ _ _) (Hids i (list_elem_of_here _ _))) as (p & -> & Hp).
  apply list_elem_of_split in Hp as (X & R' & ->).
  destruct (undo_step_spec _ _ _ _ _ _ Hst) as (st1 & Hrun & Hst1). cbn [undo_loop]. rewrite Hrun. cbn [mbind option_bind].
  destruct (IH _ _ _ _ Hst1 Hs) as (st2 & B2 & R2 & Hrun2 & Hst2).
  - intros j Hj. pose proof (proj1 (Forall_forall _ _) Hi j Hj) as Hlt. pose proof (Hids j (list_elem_of_further _ _ _ Hj)) as Hin.
    pose proof (ok_locators _ _ Hok) as [_ Hl]. rewrite (undoing_old _ _ _ _ Hst) in Hl. unfold ids_of in Hl, Hin.
    rewrite map_app in Hl. apply StronglySorted_app in Hl as (_ & _ & Hl). rewrite map_app in Hl, Hin.
    apply StronglySorted_app in Hl as (Hl & _ & _).
    apply elem_of_app in Hin as [Hin|Hin].
    + pose proof (Hl j (Fragment.id p.1) Hin (list_elem_of_here _ _)) as Hgt. by rewrite (cmp_opp (Fragment.id p.1)), Hlt in Hgt.
    + apply elem_of_cons in Hin as [->|Hin]; [|done]. by rewrite cmp_refl in Hlt.
  - exists st2, B2, R2. split; [done|]. by rewrite <-app_assoc in Hst2.
Qed.

(** The fragments that are left stay as they are. *)
Lemma revised_rest done_ B R : L = B ++ R → (∀ i, i ∈ done_ → i ∈ ids_of B) → map (revised done_) L = map (revised done_) B ++ R.
Proof.
  intros HL Hdone. rewrite HL, map_app. f_equal. transitivity (map id R); [|apply map_id].
  apply map_ext_in. intros q Hq%list_elem_of_In. unfold undo_piece. rewrite decide_False; [done|]. intros Hin%Hdone.
  pose proof (ok_locators _ _ Hok) as [_ Hs]. rewrite HL in Hs. unfold ids_of in Hs. rewrite map_app in Hs.
  apply StronglySorted_app in Hs as (Hs & _). pose proof (Hs _ (Fragment.id q.1) Hin) as Hlt.
  rewrite cmp_refl in Hlt. discriminate Hlt. apply list_elem_of_fmap. by exists q.
Qed.

Lemma undo_init_spec : ∃ st, undo_init (with_undos self undos) = Some st ∧ undoing st [] [] L.
Proof.
  unfold undo_init. cbn [with_undos visible_text deleted_text fragments].
  destruct (ropes_new _ _ _ _ (fits_visible _ Hfits) (fits_deleted _ Hfits) (visible_fits _ _ Hok Hfits) (deleted_fits _ _ Hok Hfits)
    (ok_visible _ _ Hok) (ok_deleted _ _ Hok)) as (cv & cd & -> & -> & Hropes). cbn [mbind option_bind].
  eexists. split; [done|]. split; cbn [old_fragments new_fragments new_ropes edits]; try done.
  - rewrite <-(ok_list _ _ Hok). apply ready_new.
  - by left.
Qed.

(** The snapshot that results, of which the undo map is yet to be looked at. *)
Lemma undo_finish_spec st ids B R : undoing st ids B R →
  ∃ self' P, undo_finish (with_undos self undos) st = Some (self', P) ∧
    tree_ok (fragments self') ∧ to_list (fragments self') = map fst (map (revised ids) L) ∧
    holds (visible_text self') (visible_of (atoms (map (revised ids) L))) ∧
    holds (deleted_text self') (deleted_of (atoms (map (revised ids) L))) ∧
    relates P (Str.as_bytes (visible_of (atoms L))) (Str.as_bytes (visible_of (atoms (map (revised ids) L)))) ∧
    insertions self' = insertions self ∧ snapshot_slices self' = snapshot_slices self ∧ undo_map self' = undos ∧
    snapshot_version self' = snapshot_version self ∧ snapshot_remote_id self' = snapshot_remote_id self ∧
    snapshot_replica_id self' = snapshot_replica_id self ∧ snapshot_line_ending self' = snapshot_line_ending self.
Proof.
  intros [HL Hc Ht Hl Hropes HP Hdone]. pose proof (ok_whole _ _ Hok) as Hw. rewrite HL in Hw. apply Forall_app in Hw as [HB HR].
  unfold undo_finish.
  destruct (suffix_spec (fragments self) _ _ _ (fragments_searchable _ _ Hok Hfits) Hc) as (t & cur & -> & Htok & Htl & _).
  cbn [mbind option_bind]. rewrite (tree_text t R) by done.
  rewrite <-(app_nil_r (visible_of (atoms R))), <-(app_nil_r (deleted_of (atoms R))) in Hropes.
  destruct (ropes_append _ _ _ _ (fits_visible _ Hfits) (fits_deleted _ Hfits) (visible_fits _ _ Hok Hfits) (deleted_fits _ _ Hok Hfits)
    _ _ _ _ _ _ _ Hropes) as (ropes & -> & Hropes2). cbn [mbind option_bind].
  destruct (append_ok _ _ Ht Htok) as (tree & -> & Htree1 & Htree2). cbn [mbind option_bind].
  destruct (ropes_finish _ _ _ _ (fits_visible _ Hfits) (fits_deleted _ Hfits) (visible_fits _ _ Hok Hfits) (deleted_fits _ _ Hok Hfits)
    _ _ _ _ _ Hropes2) as (rv & rd & -> & Hrv & Hrd). cbn [mbind option_bind].
  eexists _, _. split; [done|]. cbn [fragments visible_text deleted_text].
  rewrite (revised_rest ids B R HL Hdone), atoms_app, visible_of_app, deleted_of_app. rewrite app_nil_r in Hrv, Hrd.
  split_and!; try done.
  - by rewrite Htree2, Hl, Htl, map_app.
  - rewrite HL, atoms_app, visible_of_app, !Str_as_bytes_app. by apply relates_from_snoc_gap.
Qed.
End loop.

(** ** The fragments an undo looks at *)

Section selection.
Context (self : BufferSnapshot) (L : list piece) (Hok : snapshot_ok self L) (Hfits : snapshot_fits self).

Lemma slices_searchable : searchable (snapshot_slices self).
Proof. split; [apply Hok|apply Hfits]. Qed.

Lemma insertions_searchable : searchable (insertions self).
Proof. split; [apply Hok|apply Hfits]. Qed.

Lemma undos_searchable : searchable (undo_map self).
Proof. split; [apply Hok|apply Hfits]. Qed.

(** Every insertion has a timestamp of a replica. *)
Lemma slice_insertion slice : TreeSet.contains (snapshot_slices self) slice = true → insertion_id slice ≠ Lamport.MIN.
Proof.
  intros (p & Hp & Hin)%(ok_starts _ _ Hok)%list_elem_of_fmap Hmin.
  pose proof (proj1 (Forall_forall _ _) (ok_whole _ _ Hok) p Hin) as [([_ Hval] & _) _ _ _ _].
  apply (f_equal InsertionFragmentKey.timestamp) in Hp. change (insertion_id slice = Fragment.timestamp p.1) in Hp.
  rewrite <-Hp, Hmin in Hval. by apply Hval.
Qed.

Lemma ids_inj p q : p ∈ L → q ∈ L → Fragment.id p.1 = Fragment.id q.1 → p = q.
Proof.
  intros Hp Hq. apply (NoDup_map_eq (λ p, Fragment.id p.1) L); [|done..]. pose proof (ok_locators _ _ Hok) as [_ Hs].
  fold (ids_of L). induction Hs as [|i l Hs IH Hi]; constructor; [|done]. intros Hin.
  pose proof (proj1 (Forall_forall _ _) Hi i Hin) as Hlt. cbn beta in Hlt. by rewrite cmp_refl in Hlt.
Qed.

Lemma fragment_ids_NoDup : NoDup (map InsertionFragment.fragment_id (to_list (insertions self))).
Proof.
  pose proof (ok_insertions _ _ Hok) as [_ Hs].
  assert (∀ x, x ∈ to_list (insertions self) → ∃ p, x = InsertionFragment.new p.1 ∧ p ∈ L) as Hin
    by (intros x Hx%(ok_insertion _ _ Hok)%list_elem_of_fmap; exact Hx).
  revert Hs Hin. generalize (to_list (insertions self)). intros l. induction l as [|x l IH]; intros Hs Hin; [constructor|].
  apply sorted_cons in Hs as [Hs Hlt]. cbn [map]. constructor; [|apply IH; [done|]; intros y Hy; apply Hin; by right].
  intros (y & Hxy & Hy)%list_elem_of_fmap. destruct (Hin x) as (p & Hp1 & Hp2); [by left|]. destruct (Hin y) as (q & Hq1 & Hq2); [by right|].
  assert (x = y) as <- by (rewrite Hp1, Hq1, (ids_inj p q Hp2 Hq2); [done|]; by rewrite Hp1, Hq1 in Hxy).
  pose proof (proj1 (Forall_forall _ _) Hlt x Hy) as Hxx. unfold key_lt in Hxx. by rewrite cmp_refl in Hxx.
Qed.

(** Every piece an edit made or deleted is found by its edit. *)
Lemma named_in_slice p id : p ∈ L → id ≠ base_timestamp → id = Fragment.timestamp p.1 ∨ id ∈ Fragment.deletions p.1 →
  ∃ slice, TreeSet.contains (snapshot_slices self) slice = true ∧ edit_id slice = id ∧ in_slice slice (InsertionFragment.new p.1).
Proof.
  intros Hp Hbase Hid. pose proof (proj1 (Forall_forall _ _) (ok_whole _ _ Hok) p Hp) as [_ _ _ Hne _].
  destruct (p.2) as [|c s] eqn:Htext; [done|].
  set (a := mkAtom (Fragment.timestamp p.1) (Fragment.insertion_offset p.1) c (Fragment.visible p.1) (Fragment.deletions p.1) (Fragment.max_undos p.1)).
  assert (a ∈ atoms L) as Ha.
  { unfold atoms. apply list_elem_of_In, in_concat. exists (atoms_of p).
    split; [apply list_elem_of_In, list_elem_of_fmap_2, Hp|]. unfold atoms_of. rewrite Htext. by left. }
  destruct (ok_covered _ _ Hok a id Ha (conj Hbase Hid)) as (slice & Hin & He & Hi & Hlo & Hhi). exists slice.
  split; [done|]. split; [done|]. split; [exact (eq_sym Hi)|]. pose proof (len_utf8_pos c). simpl in *. lia.
Qed.
End selection.

(** ** The whole undo *)

Section undo.
Context (self : BufferSnapshot) (L : list piece) (undo : UndoOperation).
Context (Hok : snapshot_ok self L) (Hfits : snapshot_fits self) (Hts : observable (UndoMap.timestamp undo)).
Context (Hbase : counts undo !! base_timestamp = None).
Context (Hfresh : ∀ x, x ∈ to_list (undo_map self) → undo_id (UndoMap.entry_key x) ≠ UndoMap.timestamp undo).

(** What an atom looks like under the old and the new undo map when no edit that
    made it what it is is among those undone. *)
Lemma shown_same undos a : UndoMap.insert (undo_map self) undo = Some undos → searchable undos →
  counts undo !! atom_insertion a = None → (∀ d, d ∈ atom_deletions a → counts undo !! d = None) →
  shown undos a = shown (undo_map self) a.
Proof.
  intros Hrun Hundos Hi Hd. pose proof (ok_undos _ _ Hok) as [_ Hs]. pose proof (undos_searchable _ _ Hok Hfits) as Hu. unfold shown.
  rewrite (is_undone_insert_other (undo_map self) undo undos) by done.
  rewrite (all_undone_same (undo_map self) undos); [done|]. intros d Hin. apply (is_undone_insert_other (undo_map self) undo undos); auto.
Qed.

(** Every atom is shown as the new undo map says. *)
Lemma undone_shown undos ids a : UndoMap.insert (undo_map self) undo = Some undos → searchable undos →
  sorted (K:=UndoMapKey) (to_list undos) →
  (∀ x slice, x ∈ to_list (insertions self) → TreeSet.contains (snapshot_slices self) slice = true →
    edit_id slice ∈ map fst (map_to_list (counts undo)) → in_slice slice x → InsertionFragment.fragment_id x ∈ ids) →
  a ∈ atoms (map (undo_piece undos (UndoMap.timestamp undo) ids) L) → shown undos a = Some (atom_visible a).
Proof.
  intros Hrun Hundos Hs Hids Ha. unfold atoms in Ha. rewrite map_map in Ha.
  apply list_elem_of_In, in_concat in Ha as (l & Hl & Ha). apply list_elem_of_In in Hl, Ha.
  apply list_elem_of_fmap in Hl as (p & -> & Hp). unfold undo_piece in Ha. destruct (decide (Fragment.id p.1 ∈ ids)) as [Hin|Hout].
  - unfold atoms_of in Ha. apply atoms_from_elem in Ha as (Hi & Hd & Hv). unfold shown. rewrite Hi, Hd, Hv. simpl.
    destruct (is_visible_total undos p.1 Hundos Hs) as [b Hb]. rewrite Hb. exact Hb.
  - assert (a ∈ atoms L) as HaL by (unfold atoms; apply list_elem_of_In, in_concat; exists (atoms_of p);
      split; apply list_elem_of_In; [by apply list_elem_of_fmap_2|done]).
    rewrite <-(ok_shown _ _ Hok a HaL). unfold atoms_of in Ha. apply atoms_from_elem in Ha as (Hi & Hd & _).
    assert (∀ id, id = Fragment.timestamp p.1 ∨ id ∈ Fragment.deletions p.1 → counts undo !! id = None) as Hnone.
    { intros id Hid. destruct (counts undo !! id) as [n|] eqn:Hn; [|done]. exfalso. apply Hout.
      destruct (named_in_slice self L Hok p id Hp) as (slice & Hslice & He & Hs'); [by intros ->; rewrite Hbase in Hn|done|].
      apply (Hids (InsertionFragment.new p.1) slice); [|done| |done].
      - apply (ok_insertion _ _ Hok), list_elem_of_fmap. by exists p.
      - rewrite He. apply list_elem_of_fmap. exists (id, n). split; [done|]. by apply elem_of_map_to_list. }
    apply shown_same; [done..| |]; rewrite ?Hi, ?Hd; auto.
Qed.

(** What the new snapshot consists of. *)
Lemma undone_snapshot undos ids self' : UndoMap.insert (undo_map self) undo = Some undos → searchable undos →
  sorted (K:=UndoMapKey) (to_list undos) →
  (∀ x slice, x ∈ to_list (insertions self) → TreeSet.contains (snapshot_slices self) slice = true →
    edit_id slice ∈ map fst (map_to_list (counts undo)) → in_slice slice x → InsertionFragment.fragment_id x ∈ ids) →
  let L' := map (undo_piece undos (UndoMap.timestamp undo) ids) L in
  tree_ok (fragments self') → to_list (fragments self') = map fst L' →
  holds (visible_text self') (visible_of (atoms L')) → holds (deleted_text self') (deleted_of (atoms L')) →
  insertions self' = insertions self → snapshot_slices self' = snapshot_slices self → undo_map self' = undos →
  snapshot_ok self' L'.
Proof.
  intros Hrun Hundos Hs Hids L' Htree Hlist Hvis Hdel Hins Hsl Hun.
  pose proof (undo_piece_same undos (UndoMap.timestamp undo) ids) as Hsame.
  pose proof (undo_pieces_core undos (UndoMap.timestamp undo) ids L) as Hcore. fold L' in Hcore.
  split; try done; rewrite ?Hins, ?Hsl, ?Hun; try apply Hok.
  - by apply revised_whole, Hok.
  - unfold L', ids_of. rewrite undo_pieces_map; [apply Hok|]. intros p. apply Hsame.
  - rewrite (core_bytes _ _ Hcore). apply Hok.
  - intros x. unfold L'. rewrite undo_pieces_map; [apply Hok|]. intros p. apply Hsame.
  - intros a id Ha Hid. destruct (core_elem _ _ a Hcore Ha) as (a0 & Ha0 & Hc).
    destruct (ok_covered _ _ Hok a0 id Ha0 (core_names _ _ _ Hc Hid)) as (slice & Hin & Hsc). exists slice. split; [done|].
    injection Hc as Hi Ho Hch _. unfold slice_covers in *. by rewrite Hi, Ho, Hch.
  - intros slice Hin. unfold L'. rewrite undo_pieces_map; [by apply (ok_starts _ _ Hok)|]. intros p. apply Hsame.
  - by split; [apply Hundos|].
  - intros a Ha. by eapply undone_shown.
Qed.

Lemma apply_undo_spec : (∀ undos, UndoMap.insert (undo_map self) undo = Some undos → Node.height undos < STACK_CAPACITY) →
  ∃ self' L' P, apply_undo self undo = Some (self', P) ∧ snapshot_ok self' L' ∧
    map core (atoms L') = map core (atoms L) ∧ ids_of L' = ids_of L ∧
    relates P (Str.as_bytes (visible_of (atoms L))) (Str.as_bytes (visible_of (atoms L'))) ∧
    UndoMap.insert (undo_map self) undo = Some (undo_map self') ∧ 
    insertions self' = insertions self ∧ snapshot_slices self' = snapshot_slices self ∧
    snapshot_version self' = snapshot_version self ∧ snapshot_remote_id self' = snapshot_remote_id self ∧
    snapshot_replica_id self' = snapshot_replica_id self ∧ snapshot_line_ending self' = snapshot_line_ending self.
Proof.
  intros Hheight. pose proof (undos_searchable _ _ Hok Hfits) as Hu.
  destruct (insert_spec (undo_map self) undo Hu (proj2 (ok_undos _ _ Hok)) Hfresh) as (undos & Hrun & Hut & Hus & _).
  assert (searchable undos) as Hundos by (split; [done|by apply Hheight]).
  destruct (fragment_ids_spec (with_undos self undos) (insertions_searchable _ _ Hok Hfits) (proj2 (ok_insertions _ _ Hok))
    (map fst (map_to_list (counts undo))) (slices_searchable _ _ Hok Hfits) (proj2 (ok_slices _ _ Hok))
    (slice_insertion _ _ Hok) (fragment_ids_NoDup _ _ Hok)) as (ids & Hids & Hsorted & Hin & Hsel).
  unfold apply_undo. rewrite Hrun. cbn [mbind option_bind].
  destruct (undo_init_spec self L undo undos Hok Hfits) as (st0 & -> & Hst0). cbn [mbind option_bind]. rewrite Hids. cbn [mbind option_bind].
  destruct (undo_loop_spec self L undo undos Hok Hfits Hts Hundos Hus ids st0 [] [] L Hst0 Hsorted) as (st & B & R & -> & Hst).
  { intros i (x & -> & (p & -> & Hp)%(ok_insertion _ _ Hok)%list_elem_of_fmap)%Hin%list_elem_of_fmap. apply list_elem_of_fmap. by exists p. }
  cbn [mbind option_bind app].
  destruct (undo_finish_spec self L undo undos Hok Hfits st ids B R Hst) as (self' & P & -> & Htree & Hlist & Hvis & Hdel & HP & Hins & Hsl & Hun & Hrest).
  eexists _, (map (undo_piece undos (UndoMap.timestamp undo) ids) L), P. split; [done|].
  split; [by eapply undone_snapshot|]. split; [apply undo_pieces_core|].
  split; [apply (undo_pieces_map undos (UndoMap.timestamp undo) Fragment.id); intros p; apply undo_piece_same|].
  split; [done|]. split; [by rewrite Hun|]. by split.
Qed.
End undo.
