(* ===== verification/OperationQueue.v ===== *)
(** * Queues of operations ([crates/text/src/operation_queue.rs])

    A queue keeps operations in the order of their timestamps, each once; a buffer
    leaves in it the operations it cannot apply yet. *)

From stdpp Require Import sorting.
From S2P Require Import Prelude Clock SumTree SumTreeFacts Seek Cursor CursorFacts CursorWalk Keyed KeyedFacts UndoMap.

(** [trait Operation] *)
Class QueuedOperation (T : Type) := lamport_timestamp : T → Lamport.

(** [struct OperationKey(Lamport)] *)
Abbreviation OperationKey := Lamport (only parsing).

(** [struct OperationSummary] *)
Module OperationSummary.
Record t := mk { key : OperationKey; len : nat }.
End OperationSummary.
Abbreviation OperationSummary := OperationSummary.t (only parsing).

(** [impl ContextLessSummary]; the assertion that the keys grow holds because a
    queue is sorted ([queue_ok]), as does that of the dimension. *)
#[global] Instance OperationSummary_summary : Summary OperationSummary := {|
  zero := OperationSummary.mk Lamport.MIN 0;
  add_summary self other := OperationSummary.mk (OperationSummary.key other) (OperationSummary.len self + OperationSummary.len other);
|}.

#[global] Instance OperationKey_dimension : Dimension OperationKey OperationSummary := {|
  dim_zero := Lamport.MIN;
  dim_add _ summary := OperationSummary.key summary;
|}.

(** [struct OperationItem<T>(T)] *)
Record OperationItem (T : Type) := mkItem { operation : T }.
Arguments mkItem {T}.
Arguments operation {T}.

#[global] Instance OperationItem_item {T} `{QueuedOperation T} : Item (OperationItem T) OperationSummary := λ self,
  OperationSummary.mk (lamport_timestamp (operation self)) 1.
#[global] Instance OperationItem_keyed {T} `{QueuedOperation T} : KeyedItem (OperationItem T) OperationKey := λ self,
  lamport_timestamp (operation self).

Module OperationQueue.
Section queue.
Context {T : Type} `{QueuedOperation T}.

(** [struct OperationQueue<T>] *)
Definition t : Type := SumTree (OperationItem T) OperationSummary.
Implicit Types (self : t) (ops : list T).

(** Also [Default]. *)
Definition new : t := SumTree.new.
Definition len self : nat := OperationSummary.len (SumTree.summary self).
Definition is_empty self : bool := len self =? 0.

(** [sort_unstable_by_key]: of operations with the same timestamp, which are the
    same operation, any may come first. *)
Definition timestamp_le (a b : T) : Prop := is_le (cmp (lamport_timestamp a) (lamport_timestamp b)).
#[global] Instance timestamp_le_dec a b : Decision (timestamp_le a b).
Proof. apply _. Defined.

(** [dedup_by_key] *)
Fixpoint dedup_after (timestamp : Lamport) ops : list T :=
  match ops with
  | [] => []
  | op :: ops =>
      if bool_decide (lamport_timestamp op = timestamp) then dedup_after timestamp ops
      else op :: dedup_after (lamport_timestamp op) ops
  end.
Definition dedup ops : list T := match ops with [] => [] | op :: ops => op :: dedup_after (lamport_timestamp op) ops end.

Definition insert self ops : option t :=
  let ops := dedup (merge_sort timestamp_le ops) in
  '(_, self) ← Keyed.edit (K:=OperationKey) self (map (λ op, Insert (mkItem op)) ops);
  Some self.

(** Returns the queue that is left and the one drained. *)
Definition drain self : t * t := (SumTree.new, self).

(** The operations a loop over [iter] sees. *)
Definition iter self : option (list T) :=
  items ← CursorWalk.drain Iter.next (S (length (to_list self))) (Iter.new self);
  Some (map operation items).
End queue.
End OperationQueue.

(** ** Laws *)

#[global] Instance OperationSummary_laws : SummaryLaws OperationSummary.
Proof. split; [intros [] [] []; unfold add_summary; simpl; f_equal; lia|by intros []]. Qed.

#[global] Instance OperationItem_laws {T} `{QueuedOperation T} : KeyedItemLaws (OperationItem T) OperationSummary OperationKey.
Proof. split; [apply _|by split|intros x; apply Lamport_MIN_le|done]. Qed.

(** ** Facts *)

Section facts.
Context {T : Type} `{QueuedOperation T}.
Implicit Types (q : @OperationQueue.t T) (ops l : list T) (x : T) (k : Lamport).

Import OperationQueue.

#[local] Instance timestamp_le_total : Total timestamp_le.
Proof. intros a b. unfold timestamp_le. rewrite (cmp_opp (lamport_timestamp b)). by destruct (cmp (lamport_timestamp b) _); [left|right|left]. Qed.

#[local] Instance timestamp_le_trans : Transitive timestamp_le.
Proof. intros a b c. apply cmp_le_trans. Qed.

(** Sorting has brought the repetitions of a timestamp together. *)
Lemma dedup_after_spec k l : StronglySorted timestamp_le l → Forall (λ x, is_le (cmp k (lamport_timestamp x))) l →
  StronglySorted (λ a b, cmp (lamport_timestamp a) (lamport_timestamp b) = Lt) (dedup_after k l) ∧
  Forall (λ x, cmp k (lamport_timestamp x) = Lt) (dedup_after k l) ∧ (∀ x, x ∈ dedup_after k l → x ∈ l) ∧
  ∀ x, x ∈ l → lamport_timestamp x = k ∨ lamport_timestamp x ∈ map lamport_timestamp (dedup_after k l).
Proof.
  revert k. induction l as [|x l IH]; intros k Hs Hk; [simpl; split; [constructor|]; split; [constructor|]; split; intros x Hx; by apply not_elem_of_nil in Hx|].
  apply StronglySorted_inv in Hs as [Hs Hx]. apply Forall_cons in Hk as [Hkx Hk]. cbn [dedup_after]. case_bool_decide as Heq.
  - destruct (IH k Hs Hk) as (H1 & H2 & H3 & H4). split_and!; try done.
    + intros y Hy. right. by apply H3.
    + intros y [->|Hy]%elem_of_cons; [by left|by apply H4].
  - destruct (IH (lamport_timestamp x) Hs Hx) as (H1 & H2 & H3 & H4).
    assert (cmp k (lamport_timestamp x) = Lt) as Hlt.
    { destruct (cmp k (lamport_timestamp x)) eqn:Hc; [|done|done]. by apply cmp_eq_iff in Hc. }
    split_and!.
    + by constructor.
    + constructor; [done|]. eapply Forall_impl; [exact H2|]. intros y Hy. simpl in Hy.
      eapply cmp_le_lt_trans; [|exact Hy]. by rewrite Hlt.
    + intros y [->|Hy]%elem_of_cons; [by left|right; by apply H3].
    + intros y [->|Hy]%elem_of_cons; right; cbn [map]; [by left|].
      destruct (H4 y Hy) as [->|?]; [by left|by right].
Qed.

Lemma dedup_spec l : StronglySorted timestamp_le l →
  StronglySorted (λ a b, cmp (lamport_timestamp a) (lamport_timestamp b) = Lt) (dedup l) ∧ (∀ x, x ∈ dedup l → x ∈ l) ∧
  ∀ x, x ∈ l → lamport_timestamp x ∈ map lamport_timestamp (dedup l).
Proof.
  destruct l as [|x l]; [intros _; simpl; split; [constructor|]; split; intros x Hx; by apply not_elem_of_nil in Hx|].
  intros [Hs Hx]%StronglySorted_inv. destruct (dedup_after_spec (lamport_timestamp x) l Hs Hx) as (H1 & H2 & H3 & H4).
  cbn [dedup]. split_and!.
  - by constructor.
  - intros y [->|Hy]%elem_of_cons; [by left|right; by apply H3].
  - intros y [->|Hy]%elem_of_cons; cbn [map]; [by left|]. destruct (H4 y Hy) as [->|?]; [by left|by right].
Qed.

(** A queue in the order of its timestamps. *)
Definition queue_ok q : Prop := tree_ok q ∧ sorted (K:=OperationKey) (to_list q).

Definition operations_of q : list T := map operation (to_list q).

Lemma new_queue_ok : queue_ok new.
Proof. split; [by left|constructor]. Qed.

Lemma queue_get q x : queue_ok q → x ∈ operations_of q → list_get (lamport_timestamp x) (to_list q) = Some (mkItem x).
Proof.
  intros [_ Hs] (i & -> & Hi)%list_elem_of_fmap. apply list_get_sorted; [exact Hs|by destruct i|done].
Qed.

Lemma queue_insert_spec q ops : queue_ok q → Node.height q < STACK_CAPACITY →
  ∃ q', insert q ops = Some q' ∧ queue_ok q' ∧ (∀ x, x ∈ operations_of q' → x ∈ ops ∨ x ∈ operations_of q) ∧
    ∀ x, x ∈ ops ∨ x ∈ operations_of q → lamport_timestamp x ∈ map lamport_timestamp (operations_of q').
Proof.
  intros [Hok Hs] Hh. unfold insert.
  pose proof (StronglySorted_merge_sort timestamp_le ops) as Hsort. pose proof (merge_sort_Permutation timestamp_le ops) as Hperm.
  destruct (dedup_spec _ Hsort) as (Hlt & Hin1 & Hin2).
  set (es := dedup (merge_sort timestamp_le ops)) in *.
  set (edits := map (λ op, Insert (mkItem op) : Edit (OperationItem T) OperationKey) es).
  assert (map (Keyed.edit_key (K:=OperationKey)) edits = map lamport_timestamp es) as Hkeys by (unfold edits; by rewrite map_map).
  assert (NoDup (map (Keyed.edit_key (K:=OperationKey)) edits)) as Hnd.
  { rewrite Hkeys. clear -Hlt. induction Hlt as [|x l _ IH Hx]; cbn [map]; constructor; [|done].
    intros (y & Hxy & Hy)%list_elem_of_fmap. pose proof (proj1 (Forall_forall _ _) Hx y Hy) as Hc. cbn beta in Hc. by rewrite Hxy, cmp_refl in Hc. }
  destruct (edit_ok (K:=OperationKey) q edits (conj Hok Hh) Hs Hnd) as (removed & q' & -> & Hok' & Hs' & Hget).
  cbn [mbind option_bind]. exists q'. split; [done|]. split; [by split|].
  assert (∀ k, (∃ x, x ∈ es ∧ lamport_timestamp x = k ∧ list_get k (to_list q') = Some (mkItem x)) ∨
    (¬ (k ∈ map lamport_timestamp es) ∧ list_get k (to_list q') = list_get k (to_list q))) as Hcase.
  { intros k. rewrite Hget. destruct (decide (k ∈ map lamport_timestamp es)) as [(x & -> & Hx)%list_elem_of_fmap|Hk].
    - left. exists x. split; [done|]. split; [done|].
      assert ((Insert (mkItem x) : Edit (OperationItem T) OperationKey) ∈ edits) as Hin by (apply list_elem_of_fmap; by exists x).
      exact (edited_all_in (K:=OperationKey) edits _ (list_get (lamport_timestamp x) (to_list q)) Hnd Hin).
    - right. split; [done|]. apply (edited_all_notin (K:=OperationKey)). intros e He Hek. apply Hk. rewrite <-Hkeys, <-Hek.
      by apply list_elem_of_fmap_2. }
  split.
  - intros x Hx. pose proof (queue_get q' x (conj Hok' Hs') Hx) as Hg. destruct (Hcase (lamport_timestamp x)) as [(y & Hy & Hk & Hgy)|[_ Hgy]].
    + rewrite Hgy in Hg. injection Hg as ->. left. rewrite <-Hperm. by apply Hin1.
    + rewrite Hgy in Hg. right. apply list_get_Some in Hg as [Hg _]. apply list_elem_of_fmap. exists (mkItem x). by split.
  - intros x Hx. destruct (Hcase (lamport_timestamp x)) as [(y & Hy & Hk & Hgy)|[Hnk Hgy]].
    + apply list_get_Some in Hgy as [Hgy _]. apply list_elem_of_fmap. exists y. split; [done|]. apply list_elem_of_fmap. by exists (mkItem y).
    + destruct Hx as [Hx|Hx]; [destruct Hnk; apply Hin2; by rewrite Hperm|].
      rewrite (queue_get q x (conj Hok Hs) Hx) in Hgy. apply list_get_Some in Hgy as [Hgy _].
      apply list_elem_of_fmap. exists x. split; [done|]. apply list_elem_of_fmap. by exists (mkItem x).
Qed.

Lemma queue_iter_spec q : queue_ok q → Node.height q < STACK_CAPACITY → iter q = Some (operations_of q).
Proof. intros [Hq _] Hh. unfold iter. rewrite (iter_drain q Hh); [done|exact Hq|lia]. Qed.

Lemma queue_len_spec q : tree_ok q → len q = length (to_list q).
Proof.
  intros Hq. unfold len. change (SumTree.summary q) with (Node.summary q). rewrite (tree_ok_summary q Hq). generalize (to_list q). intros l. unfold items_sum.
  induction l as [|x l IH] using rev_ind; [done|]. rewrite map_app, sum_app by done. cbn. rewrite IH, length_app. done.
Qed.

(** The assertions on summaries hold: what a cursor or a node adds up in a sorted
    queue has growing keys, as long as no timestamp is the least one. *)
Lemma items_sum_key (l : list (OperationItem T)) (x : OperationItem T) : OperationSummary.key (items_sum (S:=OperationSummary) (l ++ [x])) = lamport_timestamp (operation x).
Proof. unfold items_sum. by rewrite map_app, sum_app. Qed.

Lemma queue_summaries_grow q a b c : queue_ok q → Forall (λ x, lamport_timestamp x ≠ Lamport.MIN) (operations_of q) →
  to_list q = a ++ b ++ c → b ≠ [] →
  cmp (OperationSummary.key (items_sum a)) (OperationSummary.key (items_sum b)) = Lt.
Proof.
  intros [_ Hs] Hmin Hq Hb. unfold operations_of in Hmin. rewrite Hq in Hs, Hmin. destruct b as [|y b _] using rev_ind; [done|].
  rewrite items_sum_key. assert (lamport_timestamp (operation y) ≠ Lamport.MIN) as Hy.
  { rewrite Forall_forall in Hmin. apply Hmin. rewrite !map_app. set_solver. }
  destruct a as [|x a _] using rev_ind.
  - pose proof (Lamport_MIN_le (lamport_timestamp (operation y))) as Hle. change (OperationSummary.key (items_sum [])) with Lamport.MIN.
    destruct (cmp Lamport.MIN (lamport_timestamp (operation y))) eqn:Hc; [|done|done]. by apply cmp_eq_iff in Hc.
  - rewrite items_sum_key. apply (StronglySorted_app_1_elem_of (key_lt (K:=OperationKey)) _ _ x y Hs); set_solver.
Qed.
End facts.

(** C17. A queue is a set of operations in the order of their timestamps.  Inserting
    operations, in any order and with repetitions, never panics and gives a
    sorted queue, each timestamp once, of the operations inserted and of those
    that were there; its length is their number, draining empties it, iterating
    over what was drained yields them in order, and the summaries of any two
    neighbouring stretches are in order, as the summaries assert. *)
Theorem operation_queue {T} `{QueuedOperation T} (q : @OperationQueue.t T) (ops : list T)
    (Hq : queue_ok q) (Hheight : Node.height q < STACK_CAPACITY)
    (Hmin : Forall (λ x, lamport_timestamp x ≠ Lamport.MIN) (ops ++ operations_of q)) :
  ∃ q', OperationQueue.insert q ops = Some q' ∧ queue_ok q' ∧
    (∀ x, x ∈ operations_of q' → x ∈ ops ++ operations_of q) ∧
    (∀ x, x ∈ ops ++ operations_of q → lamport_timestamp x ∈ map lamport_timestamp (operations_of q')) ∧
    StronglySorted (λ a b, cmp a b = Lt) (map lamport_timestamp (operations_of q')) ∧
    OperationQueue.len q' = length (operations_of q') ∧ OperationQueue.drain q' = (OperationQueue.new, q') ∧
    (Node.height q' < STACK_CAPACITY → OperationQueue.iter q' = Some (operations_of q')) ∧
    ∀ a b c, to_list q' = a ++ b ++ c → b ≠ [] →
      cmp (OperationSummary.key (items_sum a)) (OperationSummary.key (items_sum b)) = Lt.
Proof.
  destruct (queue_insert_spec q ops Hq Hheight) as (q' & Hrun & Hok & Hin & Hall). exists q'.
  assert (∀ x, x ∈ operations_of q' → x ∈ ops ++ operations_of q) as Hsub by (intros x [?|?]%Hin; set_solver).
  split; [done|]. split; [done|]. split; [done|]. split; [intros x Hx%elem_of_app; by apply Hall|].
  split; [|split; [|split; [done|split]]].
  - destruct Hok as [_ Hs]. unfold operations_of. rewrite map_map. clear -Hs. unfold sorted in Hs.
    induction Hs as [|x l _ IH Hx]; simpl; constructor; [done|]. apply Forall_map. exact Hx.
  - rewrite queue_len_spec by apply Hok. unfold operations_of. by rewrite length_map.
  - intros Hh. by apply queue_iter_spec.
  - intros a b c. apply (queue_summaries_grow q' a b c Hok). rewrite Forall_forall in Hmin |- *. intros x Hx. by apply Hmin, Hsub.
Qed.

(** Numbers that are queued by their value. *)
Module QueueExample.
#[export] Instance queued : QueuedOperation N := λ n, mkLamport n 1.
End QueueExample.
Import QueueExample.

Lemma operation_queue_witness :
  ∃ q', OperationQueue.insert OperationQueue.new [3; 1; 2; 3]%N = Some q' ∧ OperationQueue.len q' = length (operations_of q') ∧
    3%N ∈ operations_of q'.
Proof.
  destruct (operation_queue OperationQueue.new [3; 1; 2; 3]%N new_queue_ok) as (q' & Hrun & _ & _ & Hall & _ & Hlen & _);
    [vm_compute; lia|apply (bool_decide_unpack _); by vm_compute|].
  exists q'. split; [exact Hrun|]. split; [exact Hlen|].
  assert (3%N ∈ [3; 1; 2; 3]%N ++ operations_of OperationQueue.new) as Hin by (by left).
  apply Hall in Hin. apply list_elem_of_fmap in Hin as (x & Hx & Hx'). injection Hx as <-. exact Hx'.
Defined.
