(* ===== verification/Remote.v ===== *)
(** * Edits of other replicas ([crates/text/src/text.rs])

    A remote edit gives its ranges as offsets into the text with its deleted
    parts, as it was at the version the edit was made at.  [VersionedFullOffset]
    counts what that version has observed and steps over what it has not. *)

From S2P Require Import Prelude Clock Locator SumTree SumTreeFacts Cursor Keyed UndoMap TreeMap Patch Points Utf8 RopeTree Rope LineEnding Operation Fragment Snapshot.

(** [enum VersionedFullOffset] *)
Inductive VersionedFullOffset :=
  | Offset (offset : FullOffset)
  | Invalid.

Module VersionedFullOffset.
Definition full_offset (self : VersionedFullOffset) : option FullOffset :=
  match self with Offset position => Some position | Invalid => None end.

(** [impl sum_tree::Dimension]; the context is the version. *)
Definition add_summary (version : Global) (self : VersionedFullOffset) (summary : FragmentSummary) : VersionedFullOffset :=
  match self with
  | Offset offset =>
      if Global.observed_all version (FragmentSummary.max_insertion_version summary) then
        Offset (offset + (FragmentTextSummary.visible (FragmentSummary.text summary) +
                          FragmentTextSummary.deleted (FragmentSummary.text summary)))
      else if Global.observed_any version (FragmentSummary.min_insertion_version summary) then Invalid
      else Offset offset
  | Invalid => Invalid
  end.

(** [impl SeekTarget]; an invalid offset is never sought. *)
Definition target (self : FullOffset) : SeekTarget VersionedFullOffset := λ cursor_position,
  match cursor_position with Offset b => cmp self b | Invalid => Lt end.
End VersionedFullOffset.

Module RemoteEdit.
Section edit.
Context (version : Global) (timestamp : Lamport).
Implicit Types self : BufferSnapshot.

#[local] Instance versioned_dimension : Dimension VersionedFullOffset FragmentSummary := {|
  dim_zero := Offset 0;
  dim_add := VersionedFullOffset.add_summary version;
|}.

(** [Dimensions<VersionedFullOffset, usize>] *)
Abbreviation VersionedCursor := (Cursor.t Fragment FragmentSummary (VersionedFullOffset * nat)) (only parsing).

(** The variables of the loop over the edits. *)
Record remote_state := mkRemote {
  old_fragments : VersionedCursor;
  fragment_start : FullOffset;
  build : Build;
}.
Implicit Types st : remote_state.

Definition start_full st : option FullOffset := VersionedFullOffset.full_offset (Cursor.start (old_fragments st)).1.
Definition start_visible st : nat := (Cursor.start (old_fragments st)).2.
Definition end_full st : option FullOffset :=
  end_ ← Cursor.end_ (old_fragments st); VersionedFullOffset.full_offset end_.1.

(** [old_fragments.item().unwrap()] *)
Definition item st : option Fragment := item ← Cursor.item (old_fragments st); item.

(** [len] and [insertion_offset] of the part of a fragment between two offsets. *)
Definition part st (fragment : Fragment) (end_ : FullOffset) : option Fragment :=
  len ← checked_sub_nat end_ (fragment_start st);
  start ← start_full st;
  skipped ← checked_sub_nat (fragment_start st) start;
  offset ← checked_add u32_max (Fragment.insertion_offset fragment) (as_u32 skipped);
  Some (Fragment.set_range fragment offset (as_u32 len)).

Definition with_build st (build : Build) : remote_state := mkRemote (old_fragments st) (fragment_start st) build.
Definition with_start st (fragment_start : FullOffset) : remote_state := mkRemote (old_fragments st) fragment_start (build st).
Definition with_cursor st (old_fragments : VersionedCursor) : remote_state :=
  mkRemote old_fragments (fragment_start st) (build st).

(** The rest of a fragment that has been consumed in part. *)
Definition finish_fragment st : option remote_state :=
  start ← start_full st;
  if start <? fragment_start st then
    fragment_end ← end_full st;
    st ←
      (if fragment_start st <? fragment_end then
         suffix ← item st;
         suffix ← part st suffix fragment_end;
         build ← Build.push_fragment (build st) suffix (Fragment.visible suffix);
         Some (with_build st build)
       else Some st);
    old_fragments ← Cursor.next (old_fragments st);
    Some (with_cursor st old_fragments)
  else Some st.

(** To the fragment an edit starts in. *)
Definition seek_start st (start : FullOffset) : option remote_state :=
  fragment_end ← end_full st;
  if fragment_end <? start then
    st ← finish_fragment st;
    '(slice, old_fragments) ← Cursor.slice (seek_fst (VersionedFullOffset.target start)) Left (old_fragments st);
    build ← Build.append (build st) slice;
    let st := with_cursor (with_build st build) old_fragments in
    fragment_start ← start_full st;
    Some (with_start st fragment_start)
  else Some st.

(** At the end of a fragment that is not concurrent, to the next one. *)
Definition leave_fragment st (start : FullOffset) : option remote_state :=
  fragment_end ← end_full st;
  if (fragment_end =? start) && (fragment_start st <? fragment_end) then
    fragment ← item st;
    fragment ← part st fragment fragment_end;
    build ← Build.push_fragment (build st) fragment (Fragment.visible fragment);
    old_fragments ← Cursor.next (old_fragments st);
    let st := with_cursor (with_build st build) old_fragments in
    fragment_start ← start_full st;
    Some (with_start st fragment_start)
  else Some st.

(** A fragment that stays as it is. *)
Definition keep_fragment (build : Build) (fragment : Fragment) : option Build :=
  new_ropes ← RopeBuilder.push_fragment (new_ropes build) fragment (Fragment.visible fragment);
  new_fragments ← FragmentBuilder.push (new_fragments build) fragment;
  Some (mkBuild new_fragments new_ropes (new_insertions build) (insertion_slices build) (insertion_offset build) (edits_patch build)).

(** Over the concurrent insertions at the same place that come first. *)
Fixpoint skip_concurrent (fuel : nat) st (start : FullOffset) : option remote_state :=
  fragment ← Cursor.item (old_fragments st);
  match fragment with
  | Some fragment =>
      if (fragment_start st =? start) && is_lt (cmp timestamp (Fragment.timestamp fragment)) then
        match fuel with
        | 0 => None
        | S fuel =>
            build ← keep_fragment (build st) fragment;
            old_fragments ← Cursor.next (old_fragments st);
            skip_concurrent fuel (with_cursor (with_build st build) old_fragments) start
        end
      else Some st
  | None => Some st
  end.

(** The part of the fragment in front of the edit. *)
Definition push_prefix st (start : FullOffset) : option remote_state :=
  if fragment_start st <? start then
    prefix ← item st;
    prefix ← part st prefix start;
    id ← Locator.between (Build.max_id (build st)) (Fragment.id prefix);
    let prefix := Fragment.set_id prefix id in
    build ← Build.push_fragment (build st) prefix (Fragment.visible prefix);
    Some (with_start (with_build st build) start)
  else Some st.

Definition push_insertion st (new_text : str) : option remote_state :=
  match new_text with
  | [] => Some st
  | _ :: _ =>
      old_fragment ← Cursor.item (old_fragments st);
      old_start ←
        (if match old_fragment with Some f => Fragment.visible f | None => false end then
           start ← start_full st;
           skipped ← checked_sub_nat (fragment_start st) start;
           Some (start_visible st + skipped)
         else Some (start_visible st));
      let new_start := Build.new_visible_len (build st) in
      let next_fragment_id := match old_fragment with Some old_fragment => Fragment.id old_fragment | None => Locator.max end in
      build ← Build.push_fragments_for_insertion (build st) new_text timestamp next_fragment_id timestamp;
      Some (with_build st (Build.push_edit build (Range.mk old_start old_start)
                             (Range.mk new_start (new_start + Str.len new_text))))
  end.

(** What becomes of a fragment in the range: one the edit had not seen stays. *)
Definition intersect self st (fragment : Fragment) (intersection_end : FullOffset) : option (Build * Fragment) :=
  if Global.observed version (Fragment.timestamp fragment) then
    intersection ← part st fragment intersection_end;
    id ← Locator.between (Build.max_id (build st)) (Fragment.id intersection);
    let intersection := Fragment.set_id intersection id in
    was_visible ← Fragment.was_visible fragment version (undo_map self);
    if (was_visible : bool) then
      let intersection := Fragment.set_deletions intersection (Fragment.deletions intersection ++ [timestamp]) in
      let intersection := Fragment.set_visible intersection false in
      build ← Build.push_slice (build st) timestamp intersection;
      Some (build, intersection)
    else Some (build st, intersection)
  else Some (build st, fragment).

(** The body of the loop that marks the intersecting fragments as deleted. *)
Definition delete_step self st (end_ : FullOffset) : option remote_state :=
  fragment ← item st;
  fragment_end ← end_full st;
  let intersection_end := Nat.min end_ fragment_end in
  '(build, intersection) ← intersect self st fragment intersection_end;
  st ←
    (if (0 <? Fragment.len intersection)%N then
       build ←
         (if Fragment.visible fragment && negb (Fragment.visible intersection) then
            start ← start_full st;
            skipped ← checked_sub_nat (fragment_start st) start;
            let old_start := start_visible st + skipped in
            let new_start := Build.new_visible_len build in
            Some (Build.push_edit build (Range.mk old_start (old_start + N.to_nat (Fragment.len intersection)))
                    (Range.mk new_start new_start))
          else Some build);
       build ← Build.push_fragment build intersection (Fragment.visible fragment);
       Some (with_start (with_build st build) intersection_end)
     else Some (with_build st build));
  if fragment_end <=? end_ then
    old_fragments ← Cursor.next (old_fragments st); Some (with_cursor st old_fragments)
  else Some st.

Fixpoint delete_loop (fuel : nat) self st (end_ : FullOffset) : option remote_state :=
  if fragment_start st <? end_ then
    match fuel with 0 => None | S fuel => st ← delete_step self st end_; delete_loop fuel self st end_ end
  else Some st.

(** The body of the loop over the edits; each of the loops inside leaves a
    fragment in every iteration but the last. *)
Definition edit_step self st (edit : Range * str) : option remote_state :=
  let '(range, new_text) := edit in
  let fuel := S (length (to_list (fragments self))) in
  st ← seek_start st (Range.start range);
  st ← leave_fragment st (Range.start range);
  st ← skip_concurrent fuel st (Range.start range);
  _ ← rassert (fragment_start st <=? Range.start range);
  st ← push_prefix st (Range.start range);
  st ← push_insertion st new_text;
  delete_loop fuel self st (Range.end_ range).

Fixpoint edit_loop self st (edits : list (Range * str)) : option remote_state :=
  match edits with [] => Some st | edit :: edits => st ← edit_step self st edit; edit_loop self st edits end.

(** What the loop starts from. *)
Definition edit_init self (start : FullOffset) : option remote_state :=
  visible_cursor ← Rope.cursor (visible_text self) 0;
  deleted_cursor ← Rope.cursor (deleted_text self) 0;
  let new_ropes := RopeBuilder.new visible_cursor deleted_cursor in
  let old_fragments : VersionedCursor := Cursor.new (fragments self) in
  '(slice, old_fragments) ← Cursor.slice (seek_fst (VersionedFullOffset.target start)) Left old_fragments;
  let new_fragments := FragmentBuilder.new slice in
  new_ropes ← RopeBuilder.append new_ropes (FragmentSummary.text (FragmentBuilder.summary new_fragments));
  fragment_start ← VersionedFullOffset.full_offset (Cursor.start old_fragments).1;
  Some (mkRemote old_fragments fragment_start (mkBuild new_fragments new_ropes [] [] 0 Patch.empty)).

(** The fragments behind the last edit, and the new snapshot. *)
Definition edit_finish self st : option (BufferSnapshot * Patch.t) :=
  st ← finish_fragment st;
  '(suffix, _) ← Cursor.suffix (old_fragments st);
  build ← Build.append (build st) suffix;
  '(visible_text, deleted_text) ← RopeBuilder.finish (new_ropes build);
  fragments ← FragmentBuilder.to_sum_tree (new_fragments build);
  '(_, insertions) ← Keyed.edit (K:=InsertionFragmentKey) (insertions self) (new_insertions build);
  insertion_slices ← TreeSet.extend (snapshot_slices self) (insertion_slices build);
  Some (mkSnapshot visible_text deleted_text fragments insertions insertion_slices (undo_map self)
    (snapshot_version self) (snapshot_remote_id self) (snapshot_replica_id self) (snapshot_line_ending self),
    edits_patch build).

(** [apply_remote_edit]; there is nothing to publish when there are no ranges. *)
Definition apply_remote_edit self (ranges : list Range) (new_text : list str) : option (BufferSnapshot * option Patch.t) :=
  match ranges with
  | [] => Some (self, None)
  | range :: _ =>
      st ← edit_init self (Range.start range);
      st ← edit_loop self st (zip ranges new_text);
      '(self, edits_patch) ← edit_finish self st;
      Some (self, Some edits_patch)
  end.
End edit.
End RemoteEdit.
