(* ===== verification/RemoteSpec.v ===== *)
(** * What an edit of another replica means

    The specification of [apply_remote_edit], as a function of the atoms: the
    offsets of a remote edit count the atoms its version has seen.  [merged] goes
    through the atoms once, puts the inserted text behind the concurrent insertions
    that come first, and marks the atoms of the ranges that the version showed as
    deleted.

    Two edits made at versions that do not know of each other can be merged in
    either order: the atoms come out the same, but for the order in which an atom's
    deletions are recorded. *)

From S2P Require Import Prelude Clock Locator SumTree SumTreeFacts Seek Cursor CursorFacts CursorWalk Keyed KeyedFacts UndoMap TreeMap TreeMapFacts Patch PatchFacts Points Utf8 TextSummary RopeTree Rope RopeFacts RopeCut Fragment FragmentFacts Snapshot EditSpec.

Implicit Types (A G M : list Atom) (a : Atom) (edits : list (Range * str)).

Section spec.
Context (version : Global) (undone : Lamport → bool) (timestamp : Lamport).

(** The version knows of the atom, and showed it; [undone] tells which edits it
    took to be undone. *)
Definition seen a : bool := Global.observed version (atom_insertion a).
Definition was_shown a : bool :=
  seen a && negb (undone (atom_insertion a)) &&
  forallb (λ d, negb (Global.observed version d) || undone d) (atom_deletions a).

Definition seen_of A : str := map atom_char (filter (λ a, seen a = true) A).

Definition strike a : Atom := if was_shown a then struck timestamp a else a.

(** A concurrent insertion that stays in front of the edit's. *)
Definition before_edit a : bool := is_lt (cmp timestamp (atom_insertion a)).

Section merge.
Context (insertions : nat → list Atom) (hit : nat → bool).

(** The atoms from an offset of the version on; [pending] tells that the text
    inserted there has not been placed yet. *)
Fixpoint merge_at (pos : nat) (pending : bool) A : list Atom :=
  match A with
  | [] => if pending then insertions pos else []
  | a :: A =>
      if seen a then
        (if pending then insertions pos else []) ++
        (if hit pos then strike a else a) :: merge_at (pos + len_utf8 (atom_char a)) true A
      else if pending && negb (before_edit a) then insertions pos ++ a :: merge_at pos false A
      else a :: merge_at pos pending A
  end.
End merge.

(** The inserted texts, one after the other, take up the insertion from [offset]. *)
Fixpoint inserted_at (offset : N) edits (pos : nat) : list Atom :=
  match edits with
  | [] => []
  | (range, text) :: edits =>
      (if Range.start range =? pos then inserted timestamp offset text else []) ++
      inserted_at (offset + N.of_nat (Str.len text)) edits pos
  end.

Definition hit_by edits (pos : nat) : bool :=
  existsb (λ e : Range * str, (Range.start e.1 <=? pos) && (pos <? Range.end_ e.1)) edits.

Definition merged edits A : list Atom := merge_at (inserted_at 0 edits) (hit_by edits) 0 true A.
End spec.

(** What the undo map says of a version. *)
Definition undone_at (version : Global) (undos : UndoMap.t) (t : Lamport) : bool :=
  default false (UndoMap.was_undone undos t version).

Implicit Types (X : list Atom) (pos : nat).

(** ** Atoms up to the order of their deletions

    Whether an atom is visible follows from these and from what is undone. *)

Record alike (a a' : Atom) : Prop := {
  alike_insertion : atom_insertion a = atom_insertion a';
  alike_offset : atom_offset a = atom_offset a';
  alike_char : atom_char a = atom_char a';
  alike_deletions : atom_deletions a ≡ₚ atom_deletions a';
}.

#[export] Instance alike_equivalence : Equivalence alike.
Proof.
  split.
  - by split.
  - intros ?? []; by split.
  - intros ??? [] []; split; by etrans.
Qed.

Abbreviation all_alike := (Forall2 alike) (only parsing).

(** ** Stretches of a merge *)

Section merge.
Context (version : Global) (undone : Lamport → bool) (timestamp : Lamport).
Context (insertions : nat → list Atom) (hit : nat → bool).

Abbreviation seen := (seen version) (only parsing).
Abbreviation before_edit := (before_edit timestamp) (only parsing).
Abbreviation merge_at := (merge_at version undone timestamp insertions hit) (only parsing).

(** Nothing is skipped in front of these atoms. *)
Definition stopped A : Prop := match A with [] => True | a :: _ => seen a = true ∨ before_edit a = false end.

Lemma merge_stopped pos A : stopped A → merge_at pos true A = insertions pos ++ merge_at pos false A.
Proof.
  destruct A as [|a A]; simpl; [by rewrite app_nil_r|]. intros [Ha|Ha]; rewrite Ha; [done|]. by destruct (seen a).
Qed.

Lemma merge_unseen pos X A : Forall (λ a, seen a = false) X → merge_at pos false (X ++ A) = X ++ merge_at pos false A.
Proof. induction 1 as [|a X Ha _ IH]; [done|]. simpl. by rewrite Ha, IH. Qed.

Lemma merge_skipped pos X A : Forall (λ a, seen a = false ∧ before_edit a = true) X →
  merge_at pos true (X ++ A) = X ++ merge_at pos true A.
Proof. induction 1 as [|a X [Ha Hb] _ IH]; [done|]. simpl. by rewrite Ha, Hb, IH. Qed.

Lemma seen_strike a : seen (strike version undone timestamp a) = seen a.
Proof. unfold strike. by destruct (was_shown _ _ _). Qed.

(** What the merge makes of an atom. *)
Definition touch pos a : Atom := if hit pos then strike version undone timestamp a else a.

Lemma char_touch pos a : atom_char (touch pos a) = atom_char a.
Proof. unfold touch, strike. destruct (hit pos); [|done]. by destruct (was_shown _ _ _). Qed.
(** *** One edit *)

Definition ends_seen A : Prop := match last A with Some a => seen a = true | None => True end.

Lemma seen_of_app A A' : seen_of version (A ++ A') = seen_of version A ++ seen_of version A'.
Proof. unfold seen_of. by rewrite filter_app, map_app. Qed.

Lemma seen_of_cons a A : seen_of version (a :: A) = if seen a then atom_char a :: seen_of version A else seen_of version A.
Proof. unfold seen_of. rewrite filter_cons. case_decide as Ha; [by rewrite Ha|]. by destruct (seen a). Qed.

Lemma seen_of_unseen A : Forall (λ a, seen a = false) A → seen_of version A = [].
Proof. induction 1 as [|a A Ha _ IH]; [done|]. by rewrite seen_of_cons, Ha. Qed.

Lemma strike_unseen a : seen a = false → strike version undone timestamp a = a.
Proof. intros Ha. unfold strike, was_shown. by rewrite Ha. Qed.
Lemma ends_seen_pos A : A ≠ [] → ends_seen A → 0 < Str.len (seen_of version A).
Proof.
  destruct A as [|a A _] using rev_ind; [done|]. intros _. unfold ends_seen. rewrite last_snoc. intros Ha.
  rewrite seen_of_app, Str_len_app, seen_of_cons, Ha, Str_len_cons. pose proof (len_utf8_pos (atom_char a)). lia.
Qed.
End merge.

Section steps.
Context (version : Global) (undone : Lamport → bool) (timestamp : Lamport).

Abbreviation seen := (seen version) (only parsing).
Abbreviation seen_len A := (Str.len (seen_of version A)) (only parsing).
Abbreviation strike := (strike version undone timestamp) (only parsing).
Abbreviation merge_at := (merge_at version undone timestamp) (only parsing).
Implicit Types (insertions : nat → list Atom) (hit : nat → bool).

(** Atoms that are all hit, or none of them, and in front of which nothing is
    inserted. *)
Lemma merge_over insertions hit (struck : bool) M pos (pending : bool) X : M ≠ [] → ends_seen version M →
  (∀ p, pos <= p < pos + seen_len M → hit p = struck) →
  (∀ p, (if pending then pos <= p else pos < p) → p < pos + seen_len M → insertions p = []) →
  merge_at insertions hit pos pending (M ++ X) =
    (if struck then map strike M else M) ++ merge_at insertions hit (pos + seen_len M) true X.
Proof.
  revert pos pending. induction M as [|a M IH]; [done|]. intros pos pending _ Hends Hhit Hins.
  rewrite seen_of_cons in *. cbn [app RemoteSpec.merge_at map].
  assert (M ≠ [] → ends_seen version M) as Hends' by (by unfold ends_seen in *; destruct M).
  destruct (RemoteSpec.seen version a) eqn:Ha.
  - rewrite Str_len_cons in *. pose proof (len_utf8_pos (atom_char a)).
    rewrite (Hhit pos) by lia.
    assert ((if pending then insertions pos else []) = []) as -> by (destruct pending; [apply Hins; lia|done]).
    assert (merge_at insertions hit (pos + len_utf8 (atom_char a)) true (M ++ X) =
      (if struck then map strike M else M) ++ merge_at insertions hit (pos + (len_utf8 (atom_char a) + seen_len M)) true X) as ->.
    { destruct (decide (M = [])) as [->|HM].
      - change (seen_len []) with 0. rewrite Nat.add_0_r. by destruct struck.
      - rewrite IH, Nat.add_assoc; [done..|by apply Hends'| |]; intros p ?; [apply Hhit|intros ?; apply Hins; [destruct pending|]]; lia. }
    by destruct struck.
  - destruct (decide (M = [])) as [->|HM]; [by unfold ends_seen in Hends; simpl in Hends; congruence|].
    assert (pending && negb (before_edit timestamp a) = true → insertions pos = []) as Hnone.
    { intros [-> _]%andb_true_iff. apply Hins; [done|]. pose proof (ends_seen_pos version M HM (Hends' HM)). lia. }
    rewrite strike_unseen by done.
    destruct (pending && negb (before_edit timestamp a)) eqn:Hb.
    + rewrite Hnone by done. rewrite IH; [by destruct struck|done|by apply Hends'|done|]. intros p ??. apply Hins; [destruct pending|]; lia.
    + rewrite IH; [by destruct struck|done|by apply Hends'|done..].
Qed.

(** Only what is to come matters. *)
Lemma merge_ext insertions insertions' hit hit' X pos (pending : bool) :
  (∀ p, (if pending then pos <= p else pos < p) → insertions p = insertions' p) → (∀ p, pos <= p → hit p = hit' p) →
  merge_at insertions hit pos pending X = merge_at insertions' hit' pos pending X.
Proof.
  revert pos pending. induction X as [|a X IH]; intros pos pending Hins Hhit; cbn [RemoteSpec.merge_at].
  - destruct pending; [by apply Hins|done].
  - assert ((if pending then insertions pos else []) = if pending then insertions' pos else []) as Hpos
      by (destruct pending; [by apply Hins|done]).
    pose proof (len_utf8_pos (atom_char a)). destruct (RemoteSpec.seen version a).
    + rewrite Hpos, Hhit by done. do 2 f_equal. apply IH; intros p ?; [apply Hins; destruct pending|apply Hhit]; lia.
    + destruct pending; simpl; [|f_equal; by apply IH]. destruct (negb _); [|f_equal; by apply IH].
      rewrite Hins by done. do 2 f_equal. apply IH; intros p ?; [apply Hins; lia|by apply Hhit].
Qed.

(** No edits. *)
Lemma merge_none offset pos (pending : bool) X :
  merge_at (inserted_at timestamp offset []) (hit_by []) pos pending X = X.
Proof.
  revert pos pending. induction X as [|a X IH]; intros pos pending; cbn [RemoteSpec.merge_at]; [by destruct pending|].
  destruct (RemoteSpec.seen version a), pending; cbn [andb app inserted_at hit_by existsb]; try (rewrite IH; done).
  destruct (negb _); by rewrite IH.
Qed.

(** Edits from an offset on. *)
Definition starts_from (k : nat) edits : Prop := Forall (λ e : Range * str, k <= Range.start e.1) edits.

Lemma inserted_before offset edits k p : starts_from k edits → p < k → inserted_at timestamp offset edits p = [].
Proof.
  intros He Hp. revert offset. induction He as [|[range text] edits Hs _ IH]; intros offset; simpl in *; [done|].
  rewrite (proj2 (Nat.eqb_neq _ _)) by lia. apply IH.
Qed.

Lemma hit_before edits k p : starts_from k edits → p < k → hit_by edits p = false.
Proof.
  intros He Hp. induction He as [|[range text] edits Hs _ IH]; simpl in *; [done|].
  rewrite (proj2 (Nat.leb_gt _ _)) by lia. apply IH.
Qed.

(** An edit whose range is a stretch of the atoms. *)
Lemma merge_edit offset range text edits pos gap skipped replaced X :
  ends_seen version gap → ends_seen version replaced →
  Forall (λ a, seen a = false ∧ before_edit timestamp a = true) skipped → stopped version timestamp (replaced ++ X) →
  Range.start range = pos + seen_len gap → Range.end_ range = Range.start range + seen_len replaced →
  starts_from (Range.end_ range) edits →
  merge_at (inserted_at timestamp offset ((range, text) :: edits)) (hit_by ((range, text) :: edits)) pos true
    (gap ++ skipped ++ replaced ++ X) =
  gap ++ skipped ++ inserted timestamp offset text ++ map strike replaced ++
    merge_at (inserted_at timestamp (offset + N.of_nat (Str.len text)) edits) (hit_by edits) (Range.end_ range) true X.
Proof.
  intros Hgap Hrep Hskip Hstop Hs He Hedits.
  set (ins := inserted_at timestamp offset ((range, text) :: edits)). set (hit := hit_by ((range, text) :: edits)).
  set (ins' := inserted_at timestamp (offset + N.of_nat (Str.len text)) edits).
  assert (∀ p, p ≠ Range.start range → ins p = ins' p) as Hins.
  { intros p Hp. unfold ins, ins'. simpl. by rewrite (proj2 (Nat.eqb_neq _ _)). }
  assert (∀ p, p < Range.end_ range → ins' p = []) as Hins' by (intros p; by apply inserted_before).
  assert (∀ p, hit p = (Range.start range <=? p) && (p <? Range.end_ range) || hit_by edits p) as Hhit by done.
  assert (merge_at ins hit pos true (gap ++ skipped ++ replaced ++ X) =
    gap ++ merge_at ins hit (Range.start range) true (skipped ++ replaced ++ X)) as ->.
  { destruct (decide (gap = [])) as [->|Hne]; [change (seen_len []) with 0 in Hs; by rewrite Hs, Nat.add_0_r|].
    rewrite Hs. apply (merge_over ins hit false gap pos true); [done..| |].
    - intros p ?. rewrite Hhit, (hit_before edits (Range.end_ range)), (proj2 (Nat.leb_gt _ _)) by (done || lia). done.
    - intros p ??. rewrite Hins by lia. apply Hins'. lia. }
  rewrite merge_skipped, merge_stopped by done.
  assert (ins (Range.start range) = inserted timestamp offset text ++ ins' (Range.start range)) as ->.
  { unfold ins. simpl. by rewrite Nat.eqb_refl. }
  do 2 f_equal. rewrite <-app_assoc. f_equal.
  destruct (decide (replaced = [])) as [->|Hne].
  - change (seen_len []) with 0 in He. rewrite Nat.add_0_r in He. simpl. rewrite He, (merge_stopped _ _ _ ins') by done. f_equal.
    apply merge_ext; intros p ?; [apply Hins; lia|]. rewrite Hhit, (proj2 (Nat.ltb_ge _ _)) by lia. by rewrite andb_false_r.
  - pose proof (ends_seen_pos version replaced Hne Hrep). rewrite Hins' by lia. simpl.
    rewrite (merge_over ins hit true replaced), <-He; [|done..| |].
    2:{ intros p ?. rewrite Hhit, (proj2 (Nat.leb_le _ _)), (proj2 (Nat.ltb_lt _ _)) by lia. done. }
    2:{ intros p ??. rewrite Hins by lia. apply Hins'. lia. }
    f_equal. apply merge_ext; intros p ?; [apply Hins; lia|]. rewrite Hhit, (proj2 (Nat.ltb_ge _ _)) by lia. by rewrite andb_false_r.
Qed.
End steps.

(** ** An edit where all is seen *)

(** The version has seen the atom, and everything that made it what it is. *)
Definition known (version : Global) (undone : Lamport → bool) a : Prop :=
  seen version a = true ∧ was_shown version undone a = atom_visible a.

Section local.
Context (version : Global) (undone : Lamport → bool) (timestamp : Lamport).
Abbreviation all_known A := (Forall (known version undone) A) (only parsing).

Lemma known_seen_of A : all_known A → seen_of version A = full_of A.
Proof. unfold full_of. induction 1 as [|a A [Ha _] _ IH]; [done|]. by rewrite seen_of_cons, Ha, IH. Qed.

Lemma known_ends A : all_known A → ends_seen version A.
Proof.
  intros HA. destruct A as [|a A _] using rev_ind; [done|]. apply Forall_app in HA as [_ [[Ha _] _]%Forall_cons].
  unfold ends_seen. by rewrite last_snoc.
Qed.

Lemma known_stopped A : all_known A → stopped version timestamp A.
Proof. intros [|a ? [Ha _] _]; [done|by left]. Qed.

Lemma known_strike A : all_known A → map (strike version undone timestamp) A = map (kill timestamp) A.
Proof.
  induction 1 as [|a A [_ Ha] _ IH]; [done|]. simpl. rewrite IH. f_equal. unfold strike, kill. rewrite Ha.
  by destruct (atom_visible a).
Qed.

Lemma edited_starts pos full offset A edits A' ranges : edited timestamp pos full offset A edits A' ranges →
  starts_from full (zip ranges (map snd edits)).
Proof.
  revert pos full offset A A' ranges. induction edits as [|[range text] edits IH]; intros pos full offset A A' [|fr ranges]; simpl; try done.
  { by constructor. }
  intros (gap & replaced & rest & rest' & _ & _ & _ & _ & Hs & He & Hrest). constructor; [simpl; lia|].
  eapply Forall_impl; [by eapply IH|]. simpl. intros e ?. lia.
Qed.

(** A local edit is the merge of the operation it sends. *)
Lemma edited_merge pos full offset A edits A' ranges : edited timestamp pos full offset A edits A' ranges → all_known A →
  A' = merge_at version undone timestamp (inserted_at timestamp offset (zip ranges (map snd edits)))
    (hit_by (zip ranges (map snd edits))) full true A.
Proof.
  revert pos full offset A A' ranges. induction edits as [|[range text] edits IH]; intros pos full offset A A' [|fr ranges]; try done.
  { intros -> _. simpl. by rewrite (merge_none _ _ _ offset). }
  intros (gap & replaced & rest & rest' & -> & -> & _ & _ & Hs & He & Hrest) [Hgap [Hrep HX]%Forall_app]%Forall_app.
  rewrite (IH _ _ _ _ _ _ Hrest HX), <-known_strike by done. symmetry.
  apply (merge_edit version undone timestamp offset fr text _ full gap [] replaced rest); rewrite ?known_seen_of by done;
    [by apply known_ends..|done|by apply known_stopped, Forall_app|done|done|by eapply edited_starts].
Qed.
End local.

(** ** The two orders *)

(** The edit is later than what its version has seen. *)
Definition later_than_seen (version : Global) (timestamp : Lamport) A : Prop :=
  ∀ a, a ∈ A → seen version a = true → before_edit timestamp a = false.

Lemma struck_unseen version undone t a : Global.observed version t = false →
  was_shown version undone (struck t a) = was_shown version undone a.
Proof.
  intros Ht. unfold was_shown, seen. cbn [struck atom_insertion atom_deletions]. rewrite forallb_app. simpl.
  by rewrite Ht, andb_true_r.
Qed.

(** What a merge does at an atom. *)
Section at_atom.
Context (version : Global) (undone : Lamport → bool) (timestamp : Lamport) (insertions : nat → list Atom) (hit : nat → bool).
Abbreviation merge_at := (merge_at version undone timestamp insertions hit) (only parsing).

Lemma at_seen pos (pending : bool) a A : seen version a = true → merge_at pos pending (a :: A) =
  (if pending then insertions pos else []) ++ touch version undone timestamp hit pos a :: merge_at (pos + len_utf8 (atom_char a)) true A.
Proof. intros Ha. cbn [RemoteSpec.merge_at]. by rewrite Ha. Qed.

Lemma at_pass pos a A : seen version a = false → merge_at pos false (a :: A) = a :: merge_at pos false A.
Proof. intros Ha. cbn [RemoteSpec.merge_at]. by rewrite Ha. Qed.

Lemma at_skip pos a A : seen version a = false → before_edit timestamp a = true → merge_at pos true (a :: A) = a :: merge_at pos true A.
Proof. intros Ha Hb. cbn [RemoteSpec.merge_at]. by rewrite Ha, Hb. Qed.

Lemma at_place pos a A : seen version a = false → before_edit timestamp a = false →
  merge_at pos true (a :: A) = insertions pos ++ a :: merge_at pos false A.
Proof. intros Ha Hb. cbn [RemoteSpec.merge_at]. by rewrite Ha, Hb. Qed.
End at_atom.

Lemma insertion_touch version undone timestamp hit pos a :
  atom_insertion (touch version undone timestamp hit pos a) = atom_insertion a.
Proof. unfold touch, strike. destruct (hit pos); [|done]. by destruct (was_shown _ _ _). Qed.

Section commute.
Context (version1 version2 : Global) (undone1 undone2 : Lamport → bool) (t1 t2 : Lamport).
Context (Ht1 : Global.observed version2 t1 = false) (Ht2 : Global.observed version1 t2 = false) (Hlt : cmp t1 t2 = Lt).
Context (ins1 ins2 : nat → list Atom) (hit1 hit2 : nat → bool).
Context (Hins1 : ∀ pos, Forall (λ a, atom_insertion a = t1) (ins1 pos)) (Hins2 : ∀ pos, Forall (λ a, atom_insertion a = t2) (ins2 pos)).

Abbreviation m1 := (merge_at version1 undone1 t1 ins1 hit1) (only parsing).
Abbreviation m2 := (merge_at version2 undone2 t2 ins2 hit2) (only parsing).
Abbreviation touch1 := (touch version1 undone1 t1 hit1) (only parsing).
Abbreviation touch2 := (touch version2 undone2 t2 hit2) (only parsing).

Lemma strike_twice a : alike (strike version2 undone2 t2 (strike version1 undone1 t1 a))
  (strike version1 undone1 t1 (strike version2 undone2 t2 a)).
Proof.
  unfold strike. destruct (was_shown version1 undone1 a) eqn:H1, (was_shown version2 undone2 a) eqn:H2;
    rewrite ?struck_unseen, ?H1, ?H2 by done; try done.
  split; simpl; try done. rewrite <-!app_assoc. by apply Permutation_app_head, Permutation_swap.
Qed.

Lemma touch_twice p1 p2 a : alike (touch2 p2 (touch1 p1 a)) (touch1 p1 (touch2 p2 a)).
Proof. unfold touch. destruct (hit1 p1), (hit2 p2); [apply strike_twice|done..]. Qed.

(** An insertion in front of the later edit's is in front of the earlier one's. *)
Lemma before_trans a : before_edit t2 a = true → before_edit t1 a = true.
Proof.
  unfold before_edit. destruct (cmp t2 _) eqn:Ha; [done| |done]. intros _. by rewrite (cmp_lt_trans _ _ _ Hlt Ha).
Qed.

(** The earlier edit's text goes behind the later one's, *)
Lemma pass_ins2 p q (pending : bool) X : m1 p pending (ins2 q ++ X) = ins2 q ++ m1 p pending X.
Proof.
  destruct pending; [apply merge_skipped|apply merge_unseen]; (eapply Forall_impl; [apply Hins2|]); intros a Ha; cbv beta in Ha;
    unfold seen, before_edit; by rewrite Ha, ?Hlt.
Qed.

(** and the later one's in front of the earlier one's. *)
Lemma pass_ins1 p q (pending : bool) X : pending = false ∨ stopped version2 t2 X →
  m2 p pending (ins1 q ++ X) = (if pending then ins2 p else []) ++ ins1 q ++ m2 p false X.
Proof.
  assert (Forall (λ a, seen version2 a = false) (ins1 q)) as Hunseen.
  { eapply Forall_impl; [apply Hins1|]. intros a Ha. cbv beta in Ha. unfold seen. by rewrite Ha. }
  destruct pending; [|intros _; by apply merge_unseen]. intros [?|HX]; [done|]. rewrite merge_stopped, merge_unseen; [done..|].
  pose proof (Hins1 q) as H. destruct H as [|a Y Ha _]; [done|]. right. unfold before_edit. by rewrite Ha, cmp_opp, Hlt.
Qed.

Lemma stopped_touch p a X : before_edit t2 a = false ∨ seen version2 a = true → stopped version2 t2 (touch1 p a :: X).
Proof. unfold stopped, seen, before_edit. rewrite insertion_touch. tauto. Qed.

Ltac at_atom := repeat first
  [ rewrite at_seen by (unfold seen in *; by rewrite ?insertion_touch)
  | rewrite at_pass by (unfold seen in *; by rewrite ?insertion_touch)
  | rewrite at_skip by (unfold seen, before_edit in *; by rewrite ?insertion_touch)
  | rewrite at_place by (unfold seen, before_edit in *; by rewrite ?insertion_touch)
  | rewrite pass_ins2
  | rewrite pass_ins1 by first [by left|right; apply stopped_touch; tauto|right; unfold stopped; tauto]
  | rewrite <-!app_assoc | progress cbn [app] ].

(** The two merges, wherever they are in what their versions have seen. *)
Lemma merge_commute A p1 p2 b1 b2 : later_than_seen version1 t1 A → later_than_seen version2 t2 A →
  all_alike (m2 p2 b2 (m1 p1 b1 A)) (m1 p1 b1 (m2 p2 b2 A)).
Proof.
  intros Hl1 Hl2. revert p1 p2 b1 b2. induction A as [|a A IH]; intros p1 p2 b1 b2.
  { rewrite <-(app_nil_r (m1 p1 b1 [])), <-(app_nil_r (m2 p2 b2 [])). cbn [merge_at].
    destruct b1, b2; rewrite ?pass_ins1, ?pass_ins2 by (by right); cbn [app merge_at]; rewrite ?pass_ins1, ?pass_ins2, ?app_nil_r by (by left); done. }
  assert (later_than_seen version1 t1 A) as Hl1' by (intros ??; apply Hl1; by right).
  assert (later_than_seen version2 t2 A) as Hl2' by (intros ??; apply Hl2; by right).
  specialize (IH Hl1' Hl2'). pose proof (Hl1 a (list_elem_of_here _ _)) as Ha1. pose proof (Hl2 a (list_elem_of_here _ _)) as Ha2.
  assert (before_edit t2 a = true → before_edit t1 a = true) as Hb by apply before_trans.
  destruct (seen version1 a) eqn:Hs1, (seen version2 a) eqn:Hs2, (before_edit t1 a) eqn:Hb1, (before_edit t2 a) eqn:Hb2;
    first [by discriminate Ha1|by discriminate Ha2|by discriminate Hb|idtac];
    (destruct b1, b2; at_atom; rewrite ?char_touch; repeat (apply Forall2_app; [done|]);
      (constructor; [first [done|apply touch_twice]|apply IH])).
Qed.
End commute.

Lemma inserted_at_insertion timestamp offset edits pos : Forall (λ a, atom_insertion a = timestamp) (inserted_at timestamp offset edits pos).
Proof.
  revert offset. induction edits as [|[range text] edits IH]; intros offset; simpl; [done|]. apply Forall_app. split; [|apply IH].
  destruct (_ =? _); [|done]. unfold inserted. generalize offset. induction text as [|c text IHt]; intros o; constructor; [done|apply IHt].
Qed.

(** Two edits that do not know of each other, in either order *)
Lemma merged_commute version1 version2 undone1 undone2 t1 t2 edits1 edits2 A : t1 ≠ t2 →
  Global.observed version2 t1 = false → Global.observed version1 t2 = false →
  later_than_seen version1 t1 A → later_than_seen version2 t2 A →
  all_alike (merged version2 undone2 t2 edits2 (merged version1 undone1 t1 edits1 A))
    (merged version1 undone1 t1 edits1 (merged version2 undone2 t2 edits2 A)).
Proof.
  intros Hne H1 H2 Hl1 Hl2. unfold merged. destruct (cmp t1 t2) eqn:Hlt; [by apply cmp_eq in Hlt| |].
  - by apply merge_commute; [done..|apply inserted_at_insertion|apply inserted_at_insertion|done|done].
  - symmetry. apply merge_commute; [done..|by rewrite cmp_opp, Hlt|apply inserted_at_insertion|apply inserted_at_insertion|done|done].
Qed.

(** ** Replicas that agree *)

Lemma forallb_permutation {C} (f : C → bool) l k : l ≡ₚ k → forallb f l = forallb f k.
Proof. induction 1 as [|x l k _ IH|x y l|l k m _ IH1 _ IH2]; simpl; [done|by rewrite IH|by destruct (f x), (f y)|congruence]. Qed.

Lemma forallb_same {C} (f g : C → bool) l : (∀ x, f x = g x) → forallb f l = forallb g l.
Proof. intros Hfg. induction l as [|x l IH]; simpl; [done|]. by rewrite Hfg, IH. Qed.

Section agree.
Context (version : Global) (undone undone' : Lamport → bool) (Hsame : ∀ t, undone t = undone' t).

Lemma was_shown_alike a a' : alike a a' → was_shown version undone a = was_shown version undone' a'.
Proof.
  intros [Hi _ _ Hd]. unfold was_shown, seen. rewrite <-Hi, <-Hsame, (forallb_permutation _ _ _ Hd). f_equal.
  apply forallb_same. intros d. by rewrite Hsame.
Qed.

Lemma strike_alike timestamp a a' : alike a a' → alike (strike version undone timestamp a) (strike version undone' timestamp a').
Proof.
  intros Ha. unfold strike. rewrite (was_shown_alike _ _ Ha). destruct (was_shown _ _ _); [|done].
  destruct Ha. split; simpl; try done. by apply Permutation_app.
Qed.

Lemma merge_alike timestamp insertions hit A A' pos (pending : bool) : all_alike A A' →
  all_alike (merge_at version undone timestamp insertions hit pos pending A) (merge_at version undone' timestamp insertions hit pos pending A').
Proof.
  intros HA. revert pos pending. induction HA as [|a a' A A' Ha HA IH]; intros pos pending; cbn [merge_at]; [done|].
  assert (seen version a = seen version a' ∧ before_edit timestamp a = before_edit timestamp a' ∧ atom_char a = atom_char a') as (<- & <- & <-).
  { destruct Ha as [Hi _ Hc _]. unfold seen, before_edit. by rewrite Hi, Hc. }
  destruct (seen version a); [|destruct (pending && _)].
  - apply Forall2_app; [done|]. constructor; [destruct (hit pos); [by apply strike_alike|done]|apply IH].
  - apply Forall2_app; [done|]. constructor; [done|apply IH].
  - constructor; [done|apply IH].
Qed.

Lemma merged_alike timestamp edits A A' : all_alike A A' →
  all_alike (merged version undone timestamp edits A) (merged version undone' timestamp edits A').
Proof. apply merge_alike. Qed.
End agree.

Lemma alike_seen_of version A A' : all_alike A A' → seen_of version A = seen_of version A'.
Proof.
  induction 1 as [|a a' A A' [Hi _ Hc _] _ IH]; [done|]. rewrite !seen_of_cons, IH. unfold seen. by rewrite Hi, Hc.
Qed.

(** A merge adds nothing to what a version has seen that does not know of it. *)
Lemma seen_of_merge w version undone timestamp insertions hit A pos (pending : bool) :
  (∀ p, seen_of w (insertions p) = []) →
  seen_of w (merge_at version undone timestamp insertions hit pos pending A) = seen_of w A.
Proof.
  intros Hins. revert pos pending. induction A as [|a A IH]; intros pos pending; cbn [merge_at]; [destruct pending; [apply Hins|done]|].
  assert (seen_of w (if pending then insertions pos else []) = []) as Hp by (destruct pending; [apply Hins|done]).
  rewrite (seen_of_cons w a A). destruct (seen version a); [|destruct (pending && _)]; rewrite ?seen_of_app, ?Hp, ?Hins, seen_of_cons, IH; [|done..].
  fold (touch version undone timestamp hit pos a). unfold seen. by rewrite insertion_touch, char_touch.
Qed.

(** The operation of a local edit has its ranges on the boundaries of what is there. *)
Lemma edited_within timestamp pos full offset A edits A' ranges : edited timestamp pos full offset A edits A' ranges →
  edits_within full (full_of A) (zip ranges (map snd edits)).
Proof.
  revert pos full offset A A' ranges. induction edits as [|[range text] edits IH]; intros pos full offset A A' [|fr ranges]; simpl; try done.
  intros (gap & replaced & rest & rest' & -> & _ & _ & _ & Hs & He & Hrest).
  exists (full_of gap), (full_of replaced), (full_of rest). rewrite !full_of_app. split_and!; [done..|by eapply IH].
Qed.

Lemma edited_lengths timestamp pos full offset A edits A' ranges : edited timestamp pos full offset A edits A' ranges →
  length ranges = length (map snd edits) ∧ inserted_len (zip ranges (map snd edits)) = inserted_len edits.
Proof.
  revert pos full offset A A' ranges. induction edits as [|[range text] edits IH]; intros pos full offset A A' [|fr ranges]; simpl; try done.
  intros (gap & replaced & rest & rest' & _ & _ & _ & _ & _ & _ & Hrest). destruct (IH _ _ _ _ _ _ Hrest) as [Hl Hi].
  split; [by rewrite Hl|]. unfold inserted_len in *. simpl. by rewrite Hi.
Qed.
