(* ===== verification/RemoteSeek.v ===== *)
(** * Seeking what a version has seen

    The position [VersionedFullOffset] of a remote edit is exact behind fragments
    of which the version has seen all or none; behind others it is invalid, and a
    seek looks into them.  Here are the laws that let a cursor seek such a
    position. *)

From S2P Require Import Prelude Clock Locator SumTree SumTreeFacts Seek Cursor CursorFacts CursorWalk Keyed KeyedFacts UndoMap TreeMap TreeMapFacts Patch PatchFacts Points Utf8 TextSummary RopeTree Rope RopeFacts RopeCut LineEnding Operation Fragment FragmentFacts Snapshot EditSpec Remote.

Import Global GlobalFacts.

Implicit Types (f : Fragment) (fs : list Fragment).

(** ** The versions of the summaries *)

Lemma item_versions f : fragment_ok f → ∃ g, observe Global.new (Fragment.timestamp f) = Some g ∧
  FragmentSummary.min_insertion_version (item_of f) = g ∧ FragmentSummary.max_insertion_version (item_of f) = g.
Proof.
  intros Hf. destruct (fragment_summary f Hf) as (d & Hd & -> & _). unfold Fragment.summary in Hd.
  destruct (observe Global.new (Fragment.timestamp f)) as [g|]; [|done]. cbn [mbind option_bind] in Hd.
  destruct (foldl _ _ _); [|done]. cbn [mbind option_bind] in Hd. injection Hd as <-. by exists g.
Qed.

Lemma get_observe_new t g r : observe Global.new t = Some g → get g r = if decide (r = replica_id t) then value t else 0%N.
Proof. intros Hg. rewrite (get_observe _ _ _ r Hg). change (get new r) with 0%N. case_decide; [lia|done]. Qed.

Section version.
Context (version : Global).

Definition seen_fragment f : bool := observed version (Fragment.timestamp f).

Definition seen_total fs : nat := sum_list (map (λ f, if seen_fragment f then N.to_nat (Fragment.len f) else 0) fs).

Lemma seen_total_app fs fs' : seen_total (fs ++ fs') = seen_total fs + seen_total fs'.
Proof. unfold seen_total. rewrite map_app. by rewrite sum_list_with_app. Qed.

(** The greatest insertions tell whether all have been seen, the least whether any has. *)
Lemma max_versions fs : Forall fragment_ok fs →
  (∀ r, get (FragmentSummary.max_insertion_version (total_of fs)) r <= get version r)%N ↔
  Forall (λ f, seen_fragment f = true) fs.
Proof.
  induction fs as [|f fs IH] using rev_ind; intros Hfs.
  { split; [done|]. intros _ r. change (0 <= get version r)%N. lia. }
  apply Forall_app in Hfs as [Hfs [Hf _]%Forall_cons].
  rewrite <-sum_snoc, Forall_app, <-IH, Forall_singleton by done. clear IH. destruct (item_versions f Hf) as (g & Hg & _ & Hmax).
  simpl. rewrite Hmax. unfold seen_fragment, observed. rewrite N.leb_le. split.
  - intros H. split; [intros r; specialize (H r); rewrite get_join in H; lia|].
    specialize (H (replica_id (Fragment.timestamp f))). rewrite get_join, (get_observe_new _ _ _ Hg), decide_True in H by done. lia.
  - intros [H1 H2] r. specialize (H1 r). rewrite get_join, (get_observe_new _ _ _ Hg). case_decide; [subst|]; lia.
Qed.

Lemma min_versions fs : Forall fragment_ok fs →
  (∃ r, 0 < get (FragmentSummary.min_insertion_version (total_of fs)) r ∧
    get (FragmentSummary.min_insertion_version (total_of fs)) r <= get version r)%N ↔
  Exists (λ f, seen_fragment f = true) fs.
Proof.
  induction fs as [|f fs IH] using rev_ind; intros Hfs.
  { split; [|by intros ?%Exists_nil]. intros (r & Hr & _). change (0 < 0)%N in Hr. lia. }
  apply Forall_app in Hfs as [Hfs [Hf _]%Forall_cons].
  rewrite <-sum_snoc, Exists_app, <-IH, Exists_cons, Exists_nil by done. clear IH. destruct (item_versions f Hf) as (g & Hg & Hmin & _).
  simpl. rewrite Hmin. destruct Hf as [[_ Hv] _]. unfold seen_fragment, observed. rewrite N.leb_le.
  set (m := FragmentSummary.min_insertion_version (total_of fs)). split.
  - intros (r & Hr). rewrite get_meet, (get_observe_new _ _ _ Hg) in Hr.
    destruct (decide (r = replica_id (Fragment.timestamp f))) as [->|]; [|left; exists r; by destruct (get m r)].
    destruct (get m _) eqn:Hm; [right; left; simpl in Hr; lia|]. destruct (value (Fragment.timestamp f)) eqn:Hval; [done|]. simpl in Hr.
    destruct (N.min_spec (N.pos p) (N.pos p0)) as [[_ Heq]|[_ Heq]]; rewrite Heq in Hr; [left; eexists; rewrite Hm|right; left]; lia.
  - intros [(r & Hr)|[Hr|[]]].
    + exists r. rewrite get_meet, (get_observe_new _ _ _ Hg). destruct (get m r) eqn:Hm; [lia|].
      case_decide; simpl; [|lia]. destruct (value (Fragment.timestamp f)) eqn:Hval; simpl; lia.
    + exists (replica_id (Fragment.timestamp f)). rewrite get_meet, (get_observe_new _ _ _ Hg), decide_True by done.
      destruct (get m _) eqn:Hm; simpl; [lia|]. destruct (value (Fragment.timestamp f)) eqn:Hval; simpl; lia.
Qed.

Lemma observed_all_sum fs : Forall fragment_ok fs →
  observed_all version (FragmentSummary.max_insertion_version (total_of fs)) = true ↔ Forall (λ f, seen_fragment f = true) fs.
Proof. intros Hfs. rewrite <-max_versions by done. apply observed_all_iff, summary_vectors. Qed.

Lemma observed_any_sum fs : Forall fragment_ok fs →
  observed_any version (FragmentSummary.min_insertion_version (total_of fs)) = true ↔ Exists (λ f, seen_fragment f = true) fs.
Proof.
  intros Hfs. rewrite <-min_versions, observed_any_iff by done. unfold observed. split.
  - intros (t & Hpos & Heq & Hle%N.leb_le). exists (replica_id t). lia.
  - intros (r & Hpos & Hle). exists (mkLamport (get (FragmentSummary.min_insertion_version (total_of fs)) r) r). simpl.
    split_and!; [done..|]. by apply N.leb_le.
Qed.
End version.

(** ** The position of a remote edit *)

Abbreviation versioned_position := (VersionedFullOffset * nat)%type (only parsing).

Section seek.
Context (version : Global).

#[local] Hint Extern 0 (Dimension VersionedFullOffset _) => exact (RemoteEdit.versioned_dimension version) : typeclass_instances.

Lemma one_sum f : items_sum [f] = item_of f.
Proof. apply sum_singleton. Qed.

Lemma versioned_item k f : fragment_ok f →
  VersionedFullOffset.add_summary version (Offset k) (item_of f) = Offset (k + seen_total version [f]).
Proof.
  intros Hf. unfold VersionedFullOffset.add_summary, seen_total. rewrite (item_text f) by done. simpl. rewrite Nat.add_0_r.
  pose proof (observed_all_sum version [f] ltac:(by constructor)) as Hall. rewrite one_sum, Forall_singleton in Hall.
  pose proof (observed_any_sum version [f] ltac:(by constructor)) as Hany. rewrite one_sum, Exists_cons, Exists_nil in Hany.
  destruct (seen_fragment version f) eqn:Hs.
  - rewrite (proj2 Hall eq_refl). unfold text_summary_of. destruct (Fragment.visible f); simpl; f_equal; lia.
  - destruct (observed_all _ _); [by pose proof (proj1 Hall eq_refl)|]. destruct (observed_any _ _); [|by rewrite Nat.add_0_r].
    by destruct (proj1 Hany eq_refl) as [?|[]].
Qed.

Lemma versioned_after k v fs : Forall fragment_ok fs →
  pos_after ((Offset k, v) : versioned_position) fs = (Offset (k + seen_total version fs), v + visible_len fs).
Proof.
  intros Hfs. revert k v. induction Hfs as [|f fs Hf _ IH]; intros k v.
  { unfold visible_len, seen_total. simpl. by rewrite !Nat.add_0_r. }
  change (f :: fs) with ([f] ++ fs). rewrite pos_after_app, seen_total_app, visible_len_app.
  cbn [pos_after foldl dim_add pair_dimension RemoteEdit.versioned_dimension fragment_usize_dimension fst snd].
  rewrite versioned_item, (item_text f), IH by done. unfold visible_len. simpl. f_equal; [f_equal|]; lia.
Qed.

(** A node is counted as its fragments are, or the seek looks into it. *)
Lemma versioned_node k fs : Forall fragment_ok fs →
  VersionedFullOffset.add_summary version (Offset k) (total_of fs) = Offset (k + seen_total version fs) ∨
  VersionedFullOffset.add_summary version (Offset k) (total_of fs) = Invalid.
Proof.
  intros Hfs. unfold VersionedFullOffset.add_summary. pose proof (observed_all_sum version fs Hfs) as Hall.
  pose proof (observed_any_sum version fs Hfs) as Hany. rewrite (sum_text fs) by done. simpl.
  destruct (observed_all _ _); [|destruct (observed_any _ _); [by right|]].
  - left. f_equal. f_equal. apply proj1 in Hall. specialize (Hall eq_refl). unfold visible_len, deleted_len, seen_total. clear Hany.
    induction Hfs as [|f fs _ _ IH]; [done|]. apply Forall_cons in Hall as [Hf Hall]. simpl. rewrite Hf, <-IH by done.
    unfold text_summary_of. destruct (Fragment.visible f); simpl; lia.
  - left. f_equal. assert (seen_total version fs = 0) as ->; [|by rewrite Nat.add_0_r]. unfold seen_total. clear Hall Hfs.
    induction fs as [|f fs IH]; [done|]. rewrite Exists_cons in Hany. simpl. destruct (seen_fragment version f); [|apply IH; naive_solver].
    exfalso. naive_solver.
Qed.

Abbreviation target k := (seek_fst (VersionedFullOffset.target k) : SeekTarget versioned_position) (only parsing).

Lemma stops_left k n v : stops (target k) Left (Offset n, v) = (k <=? n).
Proof.
  unfold stops, seek_fst, VersionedFullOffset.target, SumTree.target_in_child, cmp, nat_ord. simpl.
  destruct (Nat.compare_spec k n), (Nat.leb_spec k n); (done || lia).
Qed.

Lemma versioned_seekable (root : SumTree Fragment FragmentSummary) k : Forall fragment_ok (to_list root) →
  Seekable root (target k) Left false.
Proof.
  intros Hroot [d v] h t Ht Hsub.
  assert (Forall fragment_ok (to_list t)) as Hfs by (apply Forall_forall; intros f Hf; eapply Forall_forall; [exact Hroot|by apply Hsub]).
  rewrite (wf_summary h t Ht). destruct d as [n|]; [|by right].
  assert (v + visible_len (to_list t) = dim_add (v : nat) (total_of (to_list t))) as Hv.
  { simpl. by rewrite sum_text. }
  destruct (versioned_node n (to_list t) Hfs) as [Heq|Heq]; [left|right]; cbn [dim_add pair_dimension RemoteEdit.versioned_dimension fragment_usize_dimension fst snd]; rewrite Heq; [|done].
  rewrite versioned_after by done. f_equal. exact (eq_sym Hv).
Qed.

Lemma versioned_monotone k n v fs : Forall fragment_ok fs → monotone (target k) (Offset n, v) fs.
Proof.
  intros Hfs l1 l2 l3 ->. apply Forall_app in Hfs as [H1 [H2 _]%Forall_app]. unfold seek_fst, VersionedFullOffset.target.
  rewrite !versioned_after by (by rewrite ?Forall_app). simpl. rewrite seen_total_app.
  generalize (seen_total version l1), (seen_total version l2). intros x y. unfold cmp, nat_ord.
  destruct (Nat.compare_spec k (n + x)), (Nat.compare_spec k (n + (x + y))); simpl; lia.
Qed.
End seek.
