(* ===== verification/RemoteSteps.v ===== *)
(** * The statements of a remote edit

    As in a local edit the cursor stands between the old pieces [B] and [R], of
    which the first has been consumed up to [c]; offsets count what the version of
    the edit has seen, and only a fragment it has seen is cut. *)

From S2P Require Import Prelude Clock Locator SumTree SumTreeFacts Seek Cursor CursorFacts CursorWalk Keyed KeyedFacts UndoMap TreeMap TreeMapFacts Patch PatchFacts Points Utf8 TextSummary RopeTree Rope RopeFacts RopeSeek RopeCut LineEnding Operation Fragment FragmentFacts Snapshot EditSpec EditInv EditState EditSteps EditFinish Remote RemoteSeek RemoteSpec.

Import RemoteEdit.

Implicit Types (N : list entry) (B R X Y : list piece) (p : piece) (f : Fragment) (c m r g : str) (G M : list Atom).

(** ** What a version has seen of pieces *)

Section seen.
Context (version : Global).

Lemma seen_of_atoms_from f offset s : seen_of version (atoms_from f offset s) = if seen_fragment version f then s else [].
Proof.
  revert offset. induction s as [|x s IH]; intros offset; [by destruct (seen_fragment version f)|]. cbn [atoms_from].
  rewrite seen_of_cons, IH. unfold seen, seen_fragment. cbn [atom_insertion atom_char]. by destruct (Global.observed _ _).
Qed.

Lemma seen_of_atoms_of p : seen_of version (atoms_of p) = if seen_fragment version p.1 then p.2 else [].
Proof. apply seen_of_atoms_from. Qed.

Lemma seen_of_rest p k r : seen_of version (rest_part p k r) = if seen_fragment version p.1 then r else [].
Proof. apply seen_of_atoms_from. Qed.

Lemma seen_total_pieces L : Forall whole L → seen_total version (map fst L) = Str.len (seen_of version (atoms L)).
Proof.
  unfold seen_total. induction 1 as [|p L Hp _ IH]; [done|]. simpl. rewrite IH, atoms_cons, seen_of_app, Str_len_app, seen_of_atoms_of.
  f_equal. rewrite (whole_len p Hp). destruct (seen_fragment version p.1); [lia|done].
Qed.

Lemma atoms_from_all (P : Atom → Prop) f offset s : (∀ a, atom_insertion a = Fragment.timestamp f → atom_deletions a = Fragment.deletions f → P a) →
  Forall P (atoms_from f offset s).
Proof. intros HP. revert offset. induction s as [|x s IH]; intros offset; constructor; [by apply HP|apply IH]. Qed.

Lemma ends_seen_from f offset s : seen_fragment version f = true → ends_seen version (atoms_from f offset s).
Proof.
  intros Hf. assert (Forall (λ a, seen version a = true) (atoms_from f offset s)) as Hall.
  { apply atoms_from_all. intros a Ha _. unfold seen. by rewrite Ha. }
  unfold ends_seen. destruct (last (atoms_from f offset s)) as [a|] eqn:Hl; [|done]. apply last_Some in Hl as [A Hl].
  rewrite Hl in Hall. by apply Forall_app in Hall as [_ [Ha _]%Forall_cons].
Qed.

Lemma ends_seen_app A A' : ends_seen version A' → A' ≠ [] → ends_seen version (A ++ A').
Proof. unfold ends_seen. intros HA Hne. destruct A' as [|a A' _] using rev_ind; [done|]. rewrite app_assoc, last_snoc. by rewrite last_snoc in HA. Qed.
End seen.

Hint Rewrite seen_of_app : pieces.

Section steps.
Context (self : BufferSnapshot) (L : list piece) (version : Global) (timestamp : Lamport).
Context (Hok : snapshot_ok self L) (Hfits : snapshot_fits self).
Implicit Types (st : remote_state).

#[local] Hint Extern 0 (Dimension VersionedFullOffset _) => exact (versioned_dimension version) : typeclass_instances.

Abbreviation seen_fragment := (seen_fragment version) (only parsing).
Abbreviation seen_of := (seen_of version) (only parsing).
Abbreviation seen_len A := (Str.len (seen_of A)) (only parsing).

Record remote_inv st B c R N : Prop := {
  rinv_cursor : split_at (fragments self) (old_fragments st) (map fst B) (map fst R);
  rinv_made : made self L timestamp (build st) B c R N;
  rinv_ids : ids_ok (ids_of (pieces N ++ R));
  rinv_open : c ≠ [] → match R with [] => True | p :: _ => seen_fragment p.1 = true ∧ p.2 ≠ c end;
}.

(** Where the edit stands, in the text its version has seen. *)
Definition reached st B c R : Prop := fragment_start st = seen_len (consumed B c R).

(** ** What the cursor says *)

Lemma remote_position B R : L = B ++ R → pos_after (dim_zero : versioned_position) (map fst B) =
  (Offset (seen_len (atoms B)), Str.len (visible_of (atoms B))).
Proof.
  intros HL. pose proof (ok_whole _ _ Hok) as Hw. rewrite HL in Hw. apply Forall_app in Hw as [HB _].
  assert ((dim_zero : versioned_position) = (Offset 0, 0)) as -> by done.
  rewrite versioned_after by by apply whole_fragments. by rewrite seen_total_pieces, visible_len_pieces.
Qed.

Lemma rinv_start st B c R N : remote_inv st B c R N →
  Cursor.start (old_fragments st) = (Offset (seen_len (atoms B)), Str.len (visible_of (atoms B))).
Proof. intros [Hc Hm _ _]. rewrite (split_at_start _ _ _ _ Hc). eapply remote_position, Hm. Qed.

Lemma rinv_start_full st B c R N : remote_inv st B c R N → start_full st = Some (seen_len (atoms B)).
Proof. intros Hst. unfold start_full. by rewrite (rinv_start _ _ _ _ _ Hst). Qed.

Lemma rinv_start_visible st B c R N : remote_inv st B c R N → start_visible st = Str.len (visible_of (atoms B)).
Proof. intros Hst. unfold start_visible. by rewrite (rinv_start _ _ _ _ _ Hst). Qed.

Lemma rinv_end st B c R N : remote_inv st B c R N →
  end_full version st = Some (seen_len (atoms (B ++ option_list (head R)))).
Proof.
  intros [Hc Hm _ _]. unfold end_full. rewrite (split_at_end _ _ _ _ Hc). cbn [mbind option_bind].
  assert (map fst B ++ option_list (head (map fst R)) = map fst (B ++ option_list (head R))) as ->.
  { rewrite map_app. by destruct R. }
  rewrite (remote_position (B ++ option_list (head R)) (tail R)); [done|]. rewrite (made_old _ _ _ _ _ _ _ _ Hm).
  rewrite <-app_assoc. f_equal. by destruct R.
Qed.

Lemma rinv_end_head st B c p R N : remote_inv st B c (p :: R) N →
  end_full version st = Some (seen_len (atoms B) + if seen_fragment p.1 then Str.len p.2 else 0).
Proof.
  intros Hst. rewrite (rinv_end _ _ _ _ _ Hst). simpl. autorewrite with pieces. rewrite Str_len_app, seen_of_atoms_of.
  by destruct (RemoteSeek.seen_fragment version p.1).
Qed.

Lemma rinv_item st B c R N : remote_inv st B c R N → Cursor.item (old_fragments st) = Some (fst <$> head R).
Proof. intros [Hc _ _ _]. rewrite (split_at_item _ _ _ _ Hc). by destruct R. Qed.

Lemma rinv_some_item st B c p R N : remote_inv st B c (p :: R) N → item st = Some p.1.
Proof. intros Hst. unfold item. by rewrite (rinv_item _ _ _ _ _ Hst). Qed.

Lemma rinv_next st B c p R N N' b : remote_inv st B c (p :: R) N → made self L timestamp b (B ++ [p]) [] R N' →
  ids_ok (ids_of (pieces N' ++ R)) →
  ∃ cur, Cursor.next (old_fragments st) = Some cur ∧ ∀ start, remote_inv (mkRemote cur start b) (B ++ [p]) [] R N'.
Proof.
  intros [Hc _ _ _] Hm Hids. destruct (next_spec _ (fragments_searchable _ _ Hok Hfits) _ _ _ _ Hc) as (cur & Hnext & Hcur).
  exists cur. split; [done|]. intros start. split; simpl; [by rewrite map_app|done..].
Qed.

Lemma rinv_whole st B c p R N : remote_inv st B c (p :: R) N → whole p.
Proof. intros [_ Hm _ _]. by eapply made_whole. Qed.

Lemma rinv_split st B c p R N : remote_inv st B c (p :: R) N → ∃ r, p.2 = c ++ r ∧ (c ≠ [] → seen_fragment p.1 = true ∧ r ≠ []).
Proof.
  intros Hst. destruct (made_head _ _ _ _ _ _ _ _ (rinv_made _ _ _ _ _ Hst)) as [r Hr]. exists r. split; [done|].
  intros Hc. destruct (rinv_open _ _ _ _ _ Hst Hc) as [Hs Hne]. split; [done|]. intros ->. by rewrite app_nil_r in Hr.
Qed.

Lemma reached_len st B c R N : remote_inv st B c R N → reached st B c R → fragment_start st = seen_len (atoms B) + Str.len c.
Proof.
  intros Hst ->. destruct (decide (c = [])) as [->|Hc].
  { rewrite consumed_nil. change (Str.len []) with 0. lia. }
  pose proof (made_head _ _ _ _ _ _ _ _ (rinv_made _ _ _ _ _ Hst)) as Hhead. pose proof (rinv_open _ _ _ _ _ Hst Hc) as Hopen.
  destruct R as [|p R]; [done|]. destruct Hopen as [Hs _]. unfold consumed. simpl.
  by rewrite seen_of_app, Str_len_app, seen_of_atoms_from, Hs.
Qed.

(** The offsets of a part of the first fragment. *)
Lemma remote_part st B c p R N m r : remote_inv st B c (p :: R) N → reached st B c (p :: R) → p.2 = c ++ m ++ r →
  part st p.1 (fragment_start st + Str.len m) =
    Some (Fragment.set_range p.1 (Fragment.insertion_offset p.1 + N.of_nat (Str.len c)) (N.of_nat (Str.len m))).
Proof.
  intros Hst Hstart Hp. pose proof (whole_offset _ (rinv_whole _ _ _ _ _ _ Hst)) as Hoff. rewrite Hp, !Str_len_app in Hoff.
  unfold part. rewrite (rinv_start_full _ _ _ _ _ Hst), !(reached_len _ _ _ _ _ Hst Hstart).
  unfold checked_sub_nat. rewrite !rassert_true by (apply Nat.leb_le; lia). cbn [mbind option_bind].
  rewrite rassert_true by (apply Nat.leb_le; lia). cbn [mbind option_bind].
  rewrite !Nat.add_sub', !as_u32_small, checked_add_Some by lia. done.
Qed.

(** What is left, in the text the version has seen. *)
Lemma seen_remaining c p R r : p.2 = c ++ r →
  seen_of (remaining c (p :: R)) = (if seen_fragment p.1 then r else []) ++ seen_of (atoms R).
Proof. intros Hp. rewrite (remaining_cons _ _ _ _ Hp), seen_of_app. by rewrite seen_of_rest. Qed.

Lemma remote_remaining st st' B c R N B' c' R' N' G : remote_inv st B c R N → remote_inv st' B' c' R' N' →
  consumed B' c' R' = consumed B c R ++ G → remaining c R = G ++ remaining c' R'.
Proof.
  intros [_ Hm _ _] [_ Hm' _ _] HG. apply (app_inv_head (consumed B c R)). rewrite app_assoc, <-HG.
  rewrite !consumed_remaining by (by eapply made_head). by rewrite <-(made_old _ _ _ _ _ _ _ _ Hm), <-(made_old _ _ _ _ _ _ _ _ Hm').
Qed.

(** ** Advancing *)

(** One state of the edit follows another: the old atoms [G] have been consumed,
    and the atoms [G'] made. *)
Record advance st B c R N st' B' c' R' N' G (G' : list Atom) : Prop := {
  advance_inv : remote_inv st' B' c' R' N';
  advance_reached : reached st' B' c' R';
  advance_offset : insertion_offset (build st') = insertion_offset (build st);
  advance_made : atoms (pieces N') = atoms (pieces N) ++ G';
  advance_consumed : consumed B' c' R' = consumed B c R ++ G;
}.

Lemma advance_refl st B c R N : remote_inv st B c R N → reached st B c R → advance st B c R N st B c R N [] [].
Proof. intros. split; rewrite ?app_nil_r; done. Qed.

Lemma advance_trans st B c R N st1 B1 c1 R1 N1 G1 G1' st2 B2 c2 R2 N2 G2 G2' :
  advance st B c R N st1 B1 c1 R1 N1 G1 G1' → advance st1 B1 c1 R1 N1 st2 B2 c2 R2 N2 G2 G2' →
  advance st B c R N st2 B2 c2 R2 N2 (G1 ++ G2) (G1' ++ G2').
Proof.
  intros [_ _ Ho1 Hm1 Hc1] [Hi2 Hr2 Ho2 Hm2 Hc2]. split; [done..|congruence|by rewrite Hm2, Hm1, app_assoc|by rewrite Hc2, Hc1, app_assoc].
Qed.

(** The rest of a part, as the whole of what was left of it. *)
Lemma remote_cut st B c p R N m r f b id : remote_inv st B c (p :: R) N → p.2 = c ++ m ++ r → m ≠ [] →
  f = Fragment.set_range p.1 (Fragment.insertion_offset p.1 + N.of_nat (Str.len c)) (N.of_nat (Str.len m)) ∨
  f = Fragment.set_id (Fragment.set_range p.1 (Fragment.insertion_offset p.1 + N.of_nat (Str.len c)) (N.of_nat (Str.len m))) id →
  b = build st →
  ∃ b', Build.push_fragment b f (Fragment.visible p.1) = Some b' ∧ made self L timestamp b' B (c ++ m) (p :: R) (N ++ [(f, m, Cut)]) ∧
    insertion_offset b' = insertion_offset (build st) ∧ atoms_of (f, m) = rest_part p (Str.len c) m.
Proof.
  intros Hst Hp Hne Hf ->. assert (part_of p (Str.len c) m f ∧ Fragment.visible f = Fragment.visible p.1 ∧
    Fragment.deletions f = Fragment.deletions p.1) as (Hpart & Hv & Hd) by by destruct Hf; subst.
  destruct (made_cut _ _ _ Hok Hfits _ _ _ _ _ _ m r f (rinv_made _ _ _ _ _ Hst) Hp Hne Hpart Hv Hd) as (b' & Hrun & Hm & Hoff).
  exists b'. split_and!; [done..|by apply part_atoms].
Qed.

(** Leaving a fragment that has been consumed. *)
Lemma remote_leave st B c p R N N' b : remote_inv st B c (p :: R) N → made self L timestamp b B p.2 (p :: R) N' →
  ids_ok (ids_of (pieces N' ++ R)) →
  ∃ cur, Cursor.next (old_fragments st) = Some cur ∧ ∀ start, remote_inv (mkRemote cur start b) (B ++ [p]) [] R N'.
Proof. intros Hst Hm Hids. apply (made_next _ _ _ Hok) in Hm; [|done]. by eapply rinv_next. Qed.

(** *** The end of a fragment *)

Lemma remote_finish st B c R N : remote_inv st B c R N → reached st B c R →
  ∃ st' B' R' N' G, finish_fragment version st = Some st' ∧ remote_inv st' B' [] R' N' ∧
    insertion_offset (build st') = insertion_offset (build st) ∧
    atoms (pieces N') = atoms (pieces N) ++ G ∧ atoms B' = consumed B c R ++ G ∧
    (∀ e, end_full version st = Some e → seen_len (atoms B') <= e).
Proof.
  intros Hst Hstart. pose proof (reached_len _ _ _ _ _ Hst Hstart) as Hlen. unfold finish_fragment.
  rewrite (rinv_start_full _ _ _ _ _ Hst), Hlen. cbn [mbind option_bind]. destruct (decide (c = [])) as [->|Hc].
  { change (Str.len []) with 0. rewrite Nat.add_0_r, Nat.ltb_irrefl. exists st, B, R, N, [].
    rewrite consumed_nil, !app_nil_r. split_and!; [done..|]. rewrite (rinv_end _ _ _ _ _ Hst). intros e [= <-].
    autorewrite with pieces. rewrite Str_len_app. lia. }
  pose proof (str_nonempty _ Hc) as Hpos. rewrite (proj2 (Nat.ltb_lt _ _)) by lia.
  destruct R as [|p R]; [by pose proof (made_head _ _ _ _ _ _ _ _ (rinv_made _ _ _ _ _ Hst))|].
  destruct (rinv_split _ _ _ _ _ _ Hst) as (r & Hr & Hopen). destruct (Hopen Hc) as [Hseen Hne]. clear Hopen.
  rewrite (rinv_end_head _ _ _ _ _ _ Hst), Hseen, Hr, Str_len_app. cbn [mbind option_bind].
  pose proof (str_nonempty _ Hne) as Hpos'. rewrite (proj2 (Nat.ltb_lt _ _)) by lia.
  rewrite (rinv_some_item _ _ _ _ _ _ Hst). cbn [mbind option_bind].
  assert (p.2 = c ++ r ++ []) as Hr' by (by rewrite app_nil_r).
  rewrite Nat.add_assoc, <-Hlen, (remote_part _ _ _ _ _ _ r [] Hst Hstart Hr'). cbn [mbind option_bind Fragment.visible Fragment.set_range].
  destruct (remote_cut _ _ _ _ _ _ r [] _ _ Locator.min Hst Hr' Hne (or_introl eq_refl) eq_refl) as (b & -> & Hm & Hoff & Hatoms).
  cbn [mbind option_bind with_build old_fragments]. rewrite <-Hr in Hm.
  destruct (remote_leave _ _ _ _ _ _ _ _ Hst Hm) as (cur & -> & Hinv).
  { pose proof (rinv_ids _ _ _ _ _ Hst) as Hids. rewrite pieces_app, <-app_assoc. unfold ids_of in *.
    rewrite !map_app in Hids |- *. exact Hids. }
  cbn [mbind option_bind]. eexists _, (B ++ [p]), R, _, (rest_part p (Str.len c) r). split; [done|]. split; [apply Hinv|].
  split_and!.
  - done.
  - autorewrite with pieces. by rewrite Hatoms.
  - by rewrite <-consumed_app, (consumed_all B (c ++ r) p R), consumed_nil.
  - intros e [= <-]. autorewrite with pieces. rewrite Str_len_app, seen_of_atoms_of, Hseen, Hr, Str_len_app. lia.
Qed.

(** *** Up to the start of an edit *)

(** Slicing up to an offset: the pieces passed end in front of it. *)
Lemma remote_slice (cur : Cursor.t Fragment FragmentSummary versioned_position) B R start : ready (fragments self) cur (map fst B) (map fst R) → L = B ++ R → seen_len (atoms B) <= start →
  ∃ t cur' X Y, Cursor.slice (seek_fst (VersionedFullOffset.target start)) Left cur = Some (t, cur') ∧ tree_ok t ∧
    to_list t = map fst X ∧ split_at (fragments self) cur' (map fst (B ++ X)) (map fst Y) ∧ R = X ++ Y ∧
    (X ≠ [] → seen_len (atoms (B ++ X)) < start) ∧
    match Y with [] => True | p :: _ => start <= seen_len (atoms (B ++ X ++ [p])) end.
Proof.
  intros Hcur HL Hle. pose proof (old_whole _ _ Hok _ _ HL) as [HB HR].
  set (target := seek_fst (VersionedFullOffset.target start) : SeekTarget versioned_position).
  pose proof (versioned_monotone version start (seen_len (atoms B)) (Str.len (visible_of (atoms B))) (map fst R) (whole_fragments _ HR)) as Hmono.
  rewrite <-(remote_position _ _ HL) in Hmono. fold target in Hmono.
  assert (target (pos_after dim_zero (map fst B)) ≠ Lt) as Hge.
  { rewrite (remote_position _ _ HL). unfold target, seek_fst, VersionedFullOffset.target, cmp, nat_ord. simpl.
    destruct (Nat.compare_spec start (seen_len (atoms B))); [done|lia|done]. }
  pose proof (versioned_seekable version (fragments self) start) as Hseekable. rewrite (ok_list _ _ Hok) in Hseekable.
  specialize (Hseekable (whole_fragments _ (ok_whole _ _ Hok))). fold target in Hseekable.
  pose proof (slice_spec (fragments self) target Left (exact:=false) cur _ _ (fragments_searchable _ _ Hok Hfits) Hcur Hmono Hge) as Hslice.
  destruct (lin_seek _ _ _ _) as [[b pos] r] eqn:Hseek. destruct Hslice as (t & cur' & Hrun & Ht & Hlist & Hcur').
  pose proof (lin_seek_split _ _ _ _ _ _ _ Hseek) as (Hsplit & Hpos & Hstop).
  apply map_eq_app in Hsplit as (X & Y & -> & <- & <-).
  exists t, cur', X, Y. rewrite map_app. split_and!; [done..| |].
  - intros HX. pose proof (lin_seek_passed _ _ _ _ _ _ _ Hseek ltac:(by destruct X)) as Hpassed.
    rewrite Hpos, <-pos_after_app, <-map_app, (remote_position _ Y) in Hpassed by (by rewrite <-app_assoc).
    unfold target in Hpassed. rewrite stops_left in Hpassed. by apply Nat.leb_gt in Hpassed.
  - destruct Y as [|p Y]; [done|].
    assert (stops target Left (pos_after dim_zero (map fst (B ++ X ++ [p]))) = true) as Hnext.
    { rewrite !map_app, !pos_after_app, <-Hpos. exact Hstop. }
    rewrite (remote_position _ Y) in Hnext by (by rewrite HL, <-!app_assoc). unfold target in Hnext. rewrite stops_left in Hnext.
    by apply Nat.leb_le in Hnext.
Qed.

(** The next part of the first fragment, which the version has seen. *)
Definition within_seen c m R : Prop := m = [] ∨ ∃ p R' r, R = p :: R' ∧ seen_fragment p.1 = true ∧ p.2 = c ++ m ++ r.

(** Nothing to skip. *)
Lemma remote_head st B c R N g rest e : remote_inv st B c R N → reached st B c R → seen_of (remaining c R) = g ++ rest →
  end_full version st = Some e → fragment_start st + Str.len g <= e → within_seen c g R.
Proof.
  intros Hst Hstart Hrest He Hle. destruct (decide (g = [])) as [->|Hne]; [by left|]. right. pose proof (str_nonempty _ Hne).
  rewrite (reached_len _ _ _ _ _ Hst Hstart) in Hle.
  destruct R as [|p R]; [by destruct g|]. destruct (rinv_split _ _ _ _ _ _ Hst) as (r & Hr & _).
  rewrite (seen_remaining _ _ _ _ Hr) in Hrest. rewrite (rinv_end_head _ _ _ _ _ _ Hst) in He. injection He as <-.
  destruct (RemoteSeek.seen_fragment version p.1) eqn:Hs; [|lia]. rewrite Hr, Str_len_app in Hle.
  destruct (str_cut r (seen_of (atoms R)) g rest Hrest) as (x & -> & _); [lia|]. by exists p, R, x.
Qed.

(** The text of the gap that a slice leaves. *)
Lemma remote_lands B X Y g rest : seen_of (atoms (X ++ Y)) = g ++ rest → seen_len (atoms X) <= Str.len g →
  match Y with [] => True | p :: _ => seen_len (atoms B) + Str.len g <= seen_len (atoms (B ++ X ++ [p])) end →
  ∃ m, g = seen_of (atoms X) ++ m ∧ seen_of (atoms Y) = m ++ rest ∧ within_seen [] m Y.
Proof.
  autorewrite with pieces. intros Hsplit Hle Hnext.
  destruct (str_cut _ _ _ _ (eq_sym Hsplit)) as (m & Hm & HY); [lia|]. exists m. split_and!; [done..|].
  destruct (decide (m = [])) as [->|Hne]; [by left|]. right.
  destruct Y as [|p Y]; [by destruct m|]. autorewrite with pieces in Hnext. rewrite !Str_len_app, seen_of_atoms_of in Hnext.
  rewrite Hm, Str_len_app in Hnext. pose proof (str_nonempty _ Hne).
  destruct (RemoteSeek.seen_fragment version p.1) eqn:Hs; [|change (Str.len []) with 0 in Hnext; lia].
  rewrite atoms_cons, seen_of_app, seen_of_atoms_of, Hs in HY.
  destruct (str_cut p.2 (seen_of (atoms Y)) m rest HY) as (x & Hx & _); [lia|]. by exists p, Y, x.
Qed.

Lemma remote_seek st B c R N g rest : remote_inv st B c R N → reached st B c R → seen_of (remaining c R) = g ++ rest →
  ∃ st' B' c' R' N' G m, seek_start version st (fragment_start st + Str.len g) = Some st' ∧
    advance st B c R N st' B' c' R' N' G G ∧ g = seen_of G ++ m ∧ seen_of (remaining c' R') = m ++ rest ∧
    within_seen c' m R' ∧ (G = [] ∨ m ≠ []).
Proof.
  intros Hst Hstart Hrest. pose proof (reached_len _ _ _ _ _ Hst Hstart) as Hlen. unfold seek_start.
  destruct (end_full version st) as [e|] eqn:He; [|by rewrite (rinv_end _ _ _ _ _ Hst) in He]. cbn [mbind option_bind].
  destruct (Nat.ltb_spec e (fragment_start st + Str.len g)) as [Hlt|Hge].
  2: { exists st, B, c, R, N, [], g. split; [done|]. split; [by apply advance_refl|]. split_and!; [done..|by eapply remote_head|by left]. }
  destruct (remote_finish _ _ _ _ _ Hst Hstart) as (st1 & B1 & R1 & N1 & G1 & -> & Hst1 & Hoff1 & HN1 & HB1 & Hend).
  cbn [mbind option_bind]. specialize (Hend e He).
  assert (remaining c R = G1 ++ atoms R1) as Hrem.
  { rewrite <-remaining_nil. eapply remote_remaining; [done..|]. by rewrite consumed_nil. }
  rewrite Hrem, seen_of_app in Hrest.
  assert (seen_len (atoms B1) = fragment_start st + seen_len G1) as HlB1 by (by rewrite HB1, seen_of_app, Str_len_app, <-Hstart).
  destruct (str_cut _ _ _ _ (eq_sym Hrest)) as (g1 & -> & Hg1); [lia|]. rewrite Str_len_app in Hlt |- *.
  pose proof (rinv_made _ _ _ _ _ Hst1) as Hm1.
  destruct (remote_slice (old_fragments st1) B1 R1 (fragment_start st + (seen_len G1 + Str.len g1)))
    as (t & cur & X & Y & -> & Ht & Hlist & Hcur & -> & Hle & Hnext); [apply ready_split, Hst1|apply Hm1|lia|]. cbn [mbind option_bind].
  destruct (made_append _ _ _ Hok Hfits _ _ _ _ _ t Hm1 Ht Hlist) as (b & -> & Hb & Hoff). cbn [mbind option_bind].
  assert (seen_len (atoms X) <= Str.len g1 ∧ (X ≠ [] → seen_len (atoms X) < Str.len g1)) as [HX HX'].
  { rewrite atoms_app, seen_of_app, Str_len_app in Hle. destruct (decide (X = [])) as [->|HX]; [split; [change (seen_len (atoms [])) with 0; lia|done]|].
    specialize (Hle HX). split; [|intros _]; lia. }
  destruct (remote_lands B1 X Y g1 rest Hg1 HX) as (m & -> & HY & Hwithin); [destruct Y; [done|lia]|].
  assert (remote_inv (mkRemote cur (seen_len (atoms (B1 ++ X))) b) (B1 ++ X) [] Y (N1 ++ kept X)) as Hinv.
  { split; [exact Hcur|exact Hb|autorewrite with pieces; rewrite <-app_assoc; apply Hst1|done]. }
  rewrite (rinv_start_full _ _ _ _ _ Hinv : start_full (with_cursor (with_build st1 b) cur) = _). cbn [mbind option_bind].
  eexists _, (B1 ++ X), [], Y, (N1 ++ kept X), (G1 ++ atoms X), m. split; [done|]. split; [|split_and!].
  - split; [exact Hinv|by unfold reached; rewrite consumed_nil|simpl; congruence| |].
    + autorewrite with pieces. by rewrite HN1, app_assoc.
    + by rewrite consumed_nil, atoms_app, HB1, app_assoc.
  - by rewrite seen_of_app, app_assoc.
  - by rewrite remaining_nil.
  - done.
  - right. intros ->. rewrite app_nil_r in *. destruct (decide (X = [])) as [->|HXne]; [|specialize (HX' HXne); lia].
    change (seen_len (atoms [])) with 0 in *. lia.
Qed.
End steps.
