(* ===== verification/RemoteDelete.v ===== *)
(** * Where a remote edit goes, what it inserts and deletes

    First the statements that find the place of an edit's text: past the fragment
    that ends there, past the concurrent insertions that come first, and past the
    part of a fragment in front of it.  Then the inserted text becomes a fragment
    of its own; of the fragments in the range the edit deletes those its version
    has seen and showed, and passes over the others. *)

From S2P Require Import Prelude Clock Locator SumTree SumTreeFacts Seek Cursor CursorFacts CursorWalk Keyed KeyedFacts UndoMap TreeMap TreeMapFacts Patch PatchFacts Points Utf8 TextSummary RopeTree Rope RopeFacts RopeSeek RopeCut LineEnding Operation Fragment FragmentFacts Snapshot EditSpec EditInv EditState EditSteps EditFinish Remote RemoteSeek RemoteSpec RemoteSteps.

Import RemoteEdit.

Implicit Types (N : list entry) (B R X Y : list piece) (p : piece) (f : Fragment) (c m r g : str) (G M : list Atom).

Hint Rewrite seen_of_app : pieces.

Section place.
Context (self : BufferSnapshot) (L : list piece) (version : Global) (timestamp : Lamport).
Context (Hok : snapshot_ok self L) (Hfits : snapshot_fits self).
Implicit Types (st : remote_state).

#[local] Hint Extern 0 (Dimension VersionedFullOffset _) => exact (versioned_dimension version) : typeclass_instances.

Abbreviation seen_fragment := (seen_fragment version) (only parsing).
Abbreviation seen_of := (seen_of version) (only parsing).
Abbreviation seen_len A := (Str.len (seen_of A)) (only parsing).
Abbreviation remote_inv := (remote_inv self L version timestamp) (only parsing).
Abbreviation advance := (advance self L version timestamp) (only parsing).
Abbreviation reached := (reached version) (only parsing).
Abbreviation within_seen := (within_seen version) (only parsing).

(** ** Past the fragment that ends there *)

(** The next part of the first fragment, with more behind it. *)
Definition inside c m R : Prop := ∃ p R' r, R = p :: R' ∧ seen_fragment p.1 = true ∧ p.2 = c ++ m ++ r ∧ r ≠ [].

Lemma rest_part_nonempty p k m : m ≠ [] → rest_part p k m ≠ [].
Proof. by destruct m. Qed.

Lemma remote_leaves st B c R N m rest : remote_inv st B c R N → reached st B c R → seen_of (remaining c R) = m ++ rest → within_seen c m R →
  ∃ st' B' c' R' N' G m', leave_fragment version st (fragment_start st + Str.len m) = Some st' ∧
    advance st B c R N st' B' c' R' N' G G ∧ m = seen_of G ++ m' ∧ seen_of (remaining c' R') = m' ++ rest ∧ ends_seen version G ∧
    (m' ≠ [] → G = [] ∧ inside c' m' R') ∧ (m' = [] → m = [] ∧ G = [] ∨ G ≠ []).
Proof.
  intros Hst Hstart Hrest Hwithin. pose proof (reached_len _ _ _ _ _ _ _ _ _ Hst Hstart) as Hlen. unfold leave_fragment.
  destruct (decide (m = [])) as [->|Hne].
  { rewrite (rinv_end _ _ _ _ Hok _ _ _ _ _ Hst). change (Str.len []) with 0. rewrite Nat.add_0_r. cbn [mbind option_bind].
    exists st, B, c, R, N, [], []. split; [|split; [by apply advance_refl|]; split_and!; (done || by left)].
    destruct (Nat.eqb_spec (seen_len (atoms (B ++ option_list (head R)))) (fragment_start st)) as [->|]; [|done].
    by rewrite Nat.ltb_irrefl. }
  destruct Hwithin as [->|(p & R0 & r & -> & Hs & Hp)]; [done|]. pose proof (str_nonempty _ Hne) as Hpos.
  rewrite (rinv_end_head _ _ _ _ Hok _ _ _ _ _ _ Hst), Hs, Hp, !Str_len_app. cbn [mbind option_bind].
  destruct (decide (r = [])) as [->|Hr].
  - change (Str.len []) with 0. rewrite Nat.add_0_r, Nat.add_assoc, <-Hlen, Nat.eqb_refl, (proj2 (Nat.ltb_lt _ _)) by lia. cbn [andb].
    rewrite (rinv_some_item _ _ _ _ _ _ _ _ _ _ Hst). cbn [mbind option_bind].
    rewrite (remote_part _ _ _ _ Hok _ _ _ _ _ _ m [] Hst Hstart Hp). cbn [mbind option_bind Fragment.visible Fragment.set_range].
    destruct (remote_cut _ _ _ _ Hok Hfits _ _ _ _ _ _ m [] _ _ Locator.min Hst Hp Hne (or_introl eq_refl) eq_refl) as (b & -> & Hm & Hoff & Hatoms).
    cbn [mbind option_bind with_build old_fragments]. rewrite app_nil_r in Hp. rewrite <-Hp in Hm.
    destruct (remote_leave _ _ _ _ Hok Hfits _ _ _ _ _ _ _ _ Hst Hm) as (cur & -> & Hinv).
    { pose proof (rinv_ids _ _ _ _ _ _ _ _ _ Hst) as Hids. rewrite pieces_app, <-app_assoc. unfold ids_of in *.
      rewrite !map_app in Hids |- *. exact Hids. }
    cbn [mbind option_bind]. rewrite (rinv_start_full _ _ _ _ Hok _ _ _ _ _ (Hinv 0) : start_full (with_cursor (with_build st b) cur) = _).
    cbn [mbind option_bind]. eexists _, (B ++ [p]), [], R0, _, (rest_part p (Str.len c) m), []. split; [done|]. split; [|split_and!].
    + split; [apply Hinv|by unfold RemoteSteps.reached; rewrite consumed_nil|done|autorewrite with pieces; by rewrite Hatoms|].
      by rewrite <-consumed_app, (consumed_all B (c ++ m) p R0).
    + by rewrite seen_of_rest, Hs, app_nil_r.
    + rewrite (seen_remaining _ _ _ _ m Hp), Hs in Hrest. apply app_inv_head in Hrest. by rewrite remaining_nil.
    + by apply ends_seen_from.
    + done.
    + intros _. right. by apply rest_part_nonempty.
  - pose proof (str_nonempty _ Hr). rewrite (proj2 (Nat.eqb_neq _ _)) by lia. cbn [andb].
    exists st, B, c, (p :: R0), N, [], m. split; [done|]. split; [by apply advance_refl|]. split_and!; [done..| |done].
    intros _. split; [done|]. by exists p, R0, r.
Qed.

(** ** Past the concurrent insertions that come first *)

Abbreviation older_seen := (later_than_seen version timestamp (atoms L)) (only parsing).

Lemma made_keep b B p R N : made self L timestamp b B [] (p :: R) N →
  ∃ b', keep_fragment b p.1 = Some b' ∧ made self L timestamp b' (B ++ [p]) [] R (N ++ [(p, Kept)]) ∧
    insertion_offset b' = insertion_offset b.
Proof.
  intros Hm. pose proof (made_whole _ _ _ Hok _ _ _ _ _ _ Hm) as Hwp. destruct Hm as [Hold Hhead Hb Hpatch Hkeys Hkept Htouched].
  apply (built_rest _ _ _ _ _ [] p R p.2 []) in Hb; [|by rewrite app_nil_r]. rewrite app_nil_l, (remaining_all p.2 p R), remaining_nil in Hb by done.
  destruct Hb as [Hfs Hw Hr Hi Hs]. unfold keep_fragment.
  destruct (ropes_push_fragment _ _ _ _ (fits_visible _ Hfits) (fits_deleted _ Hfits) (visible_fits _ _ Hok Hfits) (deleted_fits _ _ Hok Hfits)
    _ p.1 p.2 _ _ _ _ (Fragment.visible p.1) (whole_len _ Hwp) (whole_nonempty _ Hwp) Hr) as (ropes & -> & Hropes). cbn [mbind option_bind].
  destruct (builder_push _ _ p.1 Hfs (whole_fragment _ Hwp)) as (fs & -> & Hfs'). cbn [mbind option_bind].
  eexists. split; [done|]. split; [|done]. split.
  - by rewrite <-app_assoc.
  - apply headed_nil.
  - rewrite remaining_nil. split; cbn [new_fragments new_ropes new_insertions insertion_slices]; autorewrite with pieces; rewrite ?app_nil_r.
    + by rewrite map_app.
    + by apply Forall_snoc_2.
    + rewrite visible_of_atoms_of, deleted_of_atoms_of. destruct (Fragment.visible p.1); by rewrite ?app_nil_r.
    + done.
    + done.
  - rewrite consumed_nil in Hpatch |- *. cbn [edits_patch]. autorewrite with pieces. rewrite !Str_as_bytes_app. by apply relates_from_snoc_gap.
  - intros q [[Hq|Hq%list_elem_of_singleton]%elem_of_app|[? _]]; [..|done]; (eapply (keys_snoc B [] p R); [done|done|auto]).
  - intros q [Hq|Hq%list_elem_of_singleton]%elem_of_app; [by apply Hkept|]. injection Hq as ->. rewrite Hold. set_solver.
  - apply (touched_snoc L); [done|]. right. intros a Ha. rewrite Hold. autorewrite with pieces. apply elem_of_app. right.
    rewrite atoms_cons. apply elem_of_app. by left.
Qed.

Lemma remote_skip fuel st B c R N : older_seen → remote_inv st B c R N → reached st B c R → length R < fuel →
  ∃ st' B' c' R' N' G, skip_concurrent version timestamp fuel st (fragment_start st) = Some st' ∧ advance st B c R N st' B' c' R' N' G G ∧
    Forall (λ a, seen version a = false ∧ before_edit timestamp a = true) G ∧ stopped version timestamp (remaining c' R').
Proof.
  intros Holder. revert st B c R N. induction fuel as [|fuel IH]; intros st B c R N Hst Hstart Hfuel; [lia|].
  cbn [skip_concurrent]. rewrite (rinv_item _ _ _ _ _ _ _ _ _ Hst). cbn [mbind option_bind].
  destruct R as [|p R].
  { exists st, B, c, [], N, []. split; [done|]. split; [by apply advance_refl|]. by split. }
  cbn [head fmap option_fmap option_map]. rewrite Nat.eqb_refl. cbn [andb].
  pose proof (rinv_whole _ _ _ _ Hok _ _ _ _ _ _ Hst) as Hp. pose proof (whole_nonempty _ Hp) as Hpne.
  destruct (rinv_split _ _ _ _ _ _ _ _ _ _ Hst) as (r & Hr & Hopen).
  destruct (is_lt (cmp timestamp (Fragment.timestamp p.1))) eqn:Hlt.
  - assert (RemoteSeek.seen_fragment version p.1 = false) as Hs.
    { destruct (RemoteSeek.seen_fragment version p.1) eqn:Hs; [|done]. exfalso.
      assert (∃ a, a ∈ atoms_of p ∧ atom_insertion a = Fragment.timestamp p.1) as (a & Ha & Hia).
      { unfold atoms_of. destruct p.2 as [|x s]; [done|]. eexists. split; [by left|done]. }
      pose proof (Holder a) as Hold. unfold seen, before_edit in Hold. rewrite Hia, Hlt in Hold. discriminate Hold; [|exact Hs].
      rewrite (made_old _ _ _ _ _ _ _ _ (rinv_made _ _ _ _ _ _ _ _ _ Hst)), atoms_app, atoms_cons. set_solver. }
    assert (c = []) as -> by (destruct (decide (c = [])) as [|Hc]; [done|]; apply Hopen in Hc as [? _]; congruence).
    destruct (made_keep _ _ _ _ _ (rinv_made _ _ _ _ _ _ _ _ _ Hst)) as (b & -> & Hm & Hoff). cbn [mbind option_bind with_build old_fragments].
    destruct (rinv_next _ _ _ _ Hok Hfits _ _ _ _ _ _ _ _ Hst Hm) as (cur & -> & Hinv).
    { pose proof (rinv_ids _ _ _ _ _ _ _ _ _ Hst) as Hids. rewrite pieces_app, <-app_assoc. exact Hids. }
    cbn [mbind option_bind]. specialize (Hinv (fragment_start st)).
    change (with_cursor (with_build st b) cur) with (mkRemote cur (fragment_start st) b). set (st1 := mkRemote cur (fragment_start st) b) in *.
    assert (advance st B [] (p :: R) N st1 (B ++ [p]) [] R (N ++ [(p, Kept)]) (atoms_of p) (atoms_of p)) as Hadv.
    { split; [done| |done|by autorewrite with pieces|by rewrite !consumed_nil, atoms_app, atoms_one].
      unfold RemoteSteps.reached in *. rewrite consumed_nil in *. autorewrite with pieces. by rewrite seen_of_atoms_of, Hs, app_nil_r. }
    destruct (IH st1 (B ++ [p]) [] R (N ++ [(p, Kept)])) as (st2 & B2 & c2 & R2 & N2 & G2 & Hrun & Hadv2 & HG2 & Hstop);
      [done|apply Hadv|simpl in Hfuel; lia|].
    exists st2, B2, c2, R2, N2, (atoms_of p ++ G2). split; [exact Hrun|]. split; [by eapply advance_trans|]. split; [|done].
    apply Forall_app. split; [|done]. apply atoms_from_all. intros a Ha _. unfold seen, before_edit. by rewrite Ha, Hlt.
  - exists st, B, c, (p :: R), N, []. split; [done|]. split; [by apply advance_refl|]. split; [done|].
    rewrite (remaining_cons _ _ _ _ Hr). assert (r ≠ []) as Hrne.
    { destruct (decide (c = [])) as [->|Hc]; [by rewrite Hr in Hpne|by apply Hopen]. }
    destruct r as [|x r]; [done|]. right. exact Hlt.
Qed.

(** ** Past the part of the fragment in front of the edit *)

Lemma remote_prefix st B c R N m : remote_inv st B c R N → reached st B c R → (m ≠ [] → inside c m R) →
  ∃ st' N' G, push_prefix st (fragment_start st + Str.len m) = Some st' ∧ advance st B c R N st' B (c ++ m) R N' G G ∧
    seen_of G = m ∧ ends_seen version G ∧ (m = [] → st' = st ∧ G = []) ∧ (m ≠ [] → G ≠ [] ∧ stopped version timestamp (remaining (c ++ m) R)).
Proof.
  intros Hst Hstart Hm. unfold push_prefix. destruct (decide (m = [])) as [->|Hne].
  { change (Str.len []) with 0. rewrite Nat.add_0_r, Nat.ltb_irrefl. exists st, N, []. split; [done|]. rewrite app_nil_r.
    split; [by apply advance_refl|]. by split_and!. }
  destruct (Hm Hne) as (p & R' & r & -> & Hs & Hp & Hr). pose proof (str_nonempty _ Hne).
  rewrite (proj2 (Nat.ltb_lt _ _)) by lia. rewrite (rinv_some_item _ _ _ _ _ _ _ _ _ _ Hst). cbn [mbind option_bind].
  rewrite (remote_part _ _ _ _ Hok _ _ _ _ _ _ m r Hst Hstart Hp). cbn [mbind option_bind Fragment.id Fragment.set_range].
  destruct (made_between _ _ _ _ _ _ _ _ (rinv_made _ _ _ _ _ _ _ _ _ Hst) (rinv_ids _ _ _ _ _ _ _ _ _ Hst)) as (id & Hid & Hids).
  unfold next_id in Hid. cbn [head] in Hid. rewrite Hid. cbn [mbind option_bind].
  destruct (remote_cut _ _ _ _ Hok Hfits _ _ _ _ _ _ m r _ _ id Hst Hp Hne (or_intror eq_refl) eq_refl) as (b & Hrun & Hmade & Hoff & Hatoms).
  match goal with |- context [Build.push_fragment _ _ ?v] => change v with (Fragment.visible p.1) end.
  rewrite Hrun. cbn [mbind option_bind].
  assert (p.2 = (c ++ m) ++ r) as Hp' by (by rewrite <-app_assoc).
  assert (c ++ m ≠ []) as Hcm by (by intros [? ?]%app_nil).
  eexists _, _, (rest_part p (Str.len c) m). split; [done|]. split; [|split_and!].
  - split.
    + split; [apply Hst|exact Hmade|by rewrite ids_snoc|]. intros _. split; [done|]. intros Heq.
      apply Hr, (app_inv_head (c ++ m)). by rewrite app_nil_r, <-Hp'.
    + unfold RemoteSteps.reached. cbn [with_start fragment_start]. rewrite consumed_app, seen_of_app, Str_len_app, seen_of_rest, Hs.
      by rewrite <-Hstart.
    + done.
    + autorewrite with pieces. by rewrite Hatoms.
    + apply consumed_app.
  - by rewrite seen_of_rest, Hs.
  - by apply ends_seen_from.
  - done.
  - intros _. split; [by apply rest_part_nonempty|]. rewrite (remaining_cons _ _ _ _ Hp').
    destruct r as [|x r]; [done|]. left. exact Hs.
Qed.
End place.

Implicit Types (old : str).

Section delete.
Context (self : BufferSnapshot) (L : list piece) (version : Global) (timestamp : Lamport).
Context (Hok : snapshot_ok self L) (Hfits : snapshot_fits self) (Hts : observable timestamp).
Implicit Types (st : remote_state).

#[local] Hint Extern 0 (Dimension VersionedFullOffset _) => exact (versioned_dimension version) : typeclass_instances.

Abbreviation seen_fragment := (seen_fragment version) (only parsing).
Abbreviation seen_of := (seen_of version) (only parsing).
Abbreviation seen_len A := (Str.len (seen_of A)) (only parsing).
Abbreviation remote_inv := (remote_inv self L version timestamp) (only parsing).
Abbreviation advance := (advance self L version timestamp) (only parsing).
Abbreviation reached := (reached version) (only parsing).
Abbreviation strike := (strike version (undone_at version (undo_map self)) timestamp) (only parsing).

(** ** The inserted text *)

Lemma visible_at B c p R : Str.len (visible_of (consumed B c (p :: R))) =
  Str.len (visible_of (atoms B)) + if Fragment.visible p.1 then Str.len c else 0.
Proof.
  unfold consumed. rewrite visible_of_app, Str_len_app. simpl. rewrite visible_of_atoms_from. by destruct (Fragment.visible p.1).
Qed.

Lemma remote_insertion st B c R N text : remote_inv st B c R N → reached st B c R → str_ok text →
  (insertion_offset (build st) + N.of_nat (Str.len text) <= u32_max)%N →
  ∃ st' N', push_insertion timestamp st text = Some st' ∧ remote_inv st' B c R N' ∧ reached st' B c R ∧
    fragment_start st' = fragment_start st ∧
    insertion_offset (build st') = (insertion_offset (build st) + N.of_nat (Str.len text))%N ∧
    atoms (pieces N') = atoms (pieces N) ++ inserted timestamp (insertion_offset (build st)) text.
Proof.
  intros Hst Hstart Htext Hlen. unfold push_insertion. destruct text as [|x text].
  { exists st, N. change (Str.len []) with 0. rewrite N.add_0_r, app_nil_r. by split_and!. }
  remember (x :: text) as t eqn:Heq. assert (t ≠ []) as Hne by (by subst). clear x text Heq.
  rewrite (rinv_item _ _ _ _ _ _ _ _ _ Hst). cbn [mbind option_bind].
  destruct (made_between _ _ _ _ _ _ _ _ (rinv_made _ _ _ _ _ _ _ _ _ Hst) (rinv_ids _ _ _ _ _ _ _ _ _ Hst)) as (id & Hid & Hids).
  assert (match fst <$> head R with Some f => Fragment.id f | None => Locator.max end = next_id R) as -> by (by destruct R).
  match goal with |- context [@mbind option _ nat _ _ ?e] => assert (e = Some (Str.len (visible_of (consumed B c R)))) as -> end.
  { rewrite (rinv_start_full _ _ _ _ Hok _ _ _ _ _ Hst), (rinv_start_visible _ _ _ _ Hok _ _ _ _ _ Hst).
    rewrite (reached_len _ _ _ _ _ _ _ _ _ Hst Hstart). destruct R as [|p R]; simpl.
    - pose proof (made_head _ _ _ _ _ _ _ _ (rinv_made _ _ _ _ _ _ _ _ _ Hst)) as ->. by rewrite consumed_nil.
    - rewrite visible_at. unfold checked_sub_nat. rewrite rassert_true by (apply Nat.leb_le; lia). cbn [mbind option_bind].
      rewrite Nat.add_sub'. by destruct (Fragment.visible p.1); rewrite ?Nat.add_0_r. }
  cbn [mbind option_bind].
  destruct (made_insert _ _ _ Hok Hfits _ _ _ _ _ t _ id _ (rinv_made _ _ _ _ _ _ _ _ _ Hst) Hts Htext Hne Hlen Hid eq_refl)
    as (b & -> & Hm & Hoff). cbn [mbind option_bind].
  eexists _, _. split; [done|]. split; [split; [apply Hst|exact Hm|by rewrite ids_snoc|apply Hst]|]. split_and!; [done..|].
  autorewrite with pieces. f_equal. by apply atoms_from_ext.
Qed.

(** ** The deleted text *)

Lemma undone_at_spec t : UndoMap.was_undone (undo_map self) t version = Some (undone_at version (undo_map self) t).
Proof.
  unfold undone_at.
  by rewrite (was_undone_spec (undo_map self) (conj (proj1 (ok_undos _ _ Hok)) (fits_undos _ Hfits)) (proj2 (ok_undos _ _ Hok))).
Qed.

(** Whether a fragment was visible, as [was_shown] says it of its atoms. *)
Definition was_shown_fragment f : bool :=
  seen_fragment f && negb (undone_at version (undo_map self) (Fragment.timestamp f)) &&
  forallb (λ d, negb (Global.observed version d) || undone_at version (undo_map self) d) (Fragment.deletions f).

Lemma all_were_undone_spec ds : Fragment.all_were_undone version (undo_map self) ds =
  Some (forallb (λ d, negb (Global.observed version d) || undone_at version (undo_map self) d) ds).
Proof.
  induction ds as [|d ds IH]; simpl; [done|]. rewrite IH, undone_at_spec. destruct (Global.observed version d); simpl; [|done].
  by destruct (undone_at _ _ d).
Qed.

Lemma was_visible_spec f : Fragment.was_visible f version (undo_map self) = Some (was_shown_fragment f).
Proof.
  unfold Fragment.was_visible, was_shown_fragment, RemoteSeek.seen_fragment. destruct (Global.observed _ _); [|done].
  rewrite undone_at_spec, all_were_undone_spec. cbn [mbind option_bind andb]. by destruct (undone_at _ _ _).
Qed.

(** All the atoms of a fragment are struck, or none of them. *)
Lemma strike_rest p k m : map strike (rest_part p k m) =
  if was_shown_fragment p.1 then map (struck timestamp) (rest_part p k m) else rest_part p k m.
Proof.
  assert (Forall (λ a, was_shown version (undone_at version (undo_map self)) a = was_shown_fragment p.1) (rest_part p k m)) as Hall.
  { apply atoms_from_all. intros a Ht Hd. unfold was_shown, seen, was_shown_fragment. by rewrite Ht, Hd. }
  induction Hall as [|a A Ha _ IH]; [by destruct (was_shown_fragment _)|]. simpl. rewrite IH. unfold RemoteSpec.strike. rewrite Ha.
  by destruct (was_shown_fragment _).
Qed.

(** The next part [m] of a fragment the version has seen. *)
Lemma remote_intersect st B c p R N m y : remote_inv st B c (p :: R) N → reached st B c (p :: R) → seen_fragment p.1 = true →
  p.2 = c ++ m ++ y → m ≠ [] →
  ∃ b1 b2 b f (μ : mark), intersect version timestamp self st p.1 (fragment_start st + Str.len m) = Some (b1, f) ∧
    Fragment.len f = N.of_nat (Str.len m) ∧
    (if Fragment.visible p.1 && negb (Fragment.visible f) then
       start ← start_full st;
       skipped ← checked_sub_nat (fragment_start st) start;
       Some (Build.push_edit b1 (Range.mk (start_visible st + skipped) (start_visible st + skipped + N.to_nat (Fragment.len f)))
         (Range.mk (Build.new_visible_len b1) (Build.new_visible_len b1)))
     else Some b1) = Some b2 ∧
    Build.push_fragment b2 f (Fragment.visible p.1) = Some b ∧
    made self L timestamp b B (c ++ m) (p :: R) (N ++ [(f, m, μ)]) ∧
    ids_ok (ids_of (pieces N) ++ Fragment.id f :: ids_of (p :: R)) ∧
    insertion_offset b = insertion_offset (build st) ∧ atoms_of (f, m) = map strike (rest_part p (Str.len c) m).
Proof.
  intros Hst Hstart Hs Hp Hne. unfold intersect. unfold RemoteSeek.seen_fragment in Hs. rewrite Hs.
  rewrite (remote_part _ _ _ _ Hok _ _ _ _ _ _ m y Hst Hstart Hp). cbn [mbind option_bind Fragment.id Fragment.set_range].
  destruct (made_between _ _ _ _ _ _ _ _ (rinv_made _ _ _ _ _ _ _ _ _ Hst) (rinv_ids _ _ _ _ _ _ _ _ _ Hst)) as (id & Hid & Hids).
  unfold next_id in Hid. cbn [head] in Hid. rewrite Hid. cbn [mbind option_bind].
  rewrite was_visible_spec. cbn [mbind option_bind]. setoid_rewrite (strike_rest p (Str.len c) m). destruct (was_shown_fragment p.1).
  - set (f := Fragment.set_visible _ _). assert (part_of p (Str.len c) m f) as Hpart by done.
    destruct (made_struck _ _ _ Hok Hfits _ _ _ _ _ _ m y f _ (rinv_made _ _ _ _ _ _ _ _ _ Hst) Hp Hne Hpart eq_refl eq_refl Hts eq_refl)
      as (b1 & b & Hslice & Hpush & Hm & Hoff).
    rewrite Hslice. cbn [mbind option_bind]. eexists b1, _, b, f, Touched. split; [done|]. split; [done|]. split; [|split; [exact Hpush|]].
    + unfold push_struck. change (Fragment.visible f) with false. destruct (Fragment.visible p.1) eqn:Hv; [|done]. cbn [andb negb].
      rewrite (rinv_start_full _ _ _ _ Hok _ _ _ _ _ Hst), (rinv_start_visible _ _ _ _ Hok _ _ _ _ _ Hst).
      rewrite (reached_len _ _ _ _ _ _ _ _ _ Hst Hstart), visible_at, Hv. cbn [mbind option_bind].
      unfold checked_sub_nat. rewrite rassert_true by (apply Nat.leb_le; lia). cbn [mbind option_bind].
      rewrite Nat.add_sub'. change (Fragment.len f) with (N.of_nat (Str.len m)). by rewrite Nat2N.id.
    + split_and!; [done..|]. by apply part_struck.
  - destruct (remote_cut _ _ _ _ Hok Hfits _ _ _ _ _ _ m y _ _ id Hst Hp Hne (or_intror eq_refl) eq_refl) as (b & Hpush & Hm & Hoff & Hatoms).
    eexists _, _, b, _, Cut. split; [done|]. split; [done|]. split; [|split; [exact Hpush|by split_and!]].
    cbn [Fragment.visible Fragment.set_id Fragment.set_range]. by rewrite andb_negb_r.
Qed.

Lemma strike_unseen_atoms A : Forall (λ a, seen version a = false) A → map strike A = A.
Proof. induction 1 as [|a A Ha _ IH]; [done|]. simpl. by rewrite IH, strike_unseen. Qed.

(** An iteration over a fragment the version has seen, of which the part [m] is in the range. *)
Lemma delete_seen st B c p R N m y old' : remote_inv st B c (p :: R) N → reached st B c (p :: R) → seen_fragment p.1 = true →
  p.2 = c ++ m ++ y → m ≠ [] → y = [] ∨ old' = [] →
  ∃ st' B' c' R' N', delete_step version timestamp self st (fragment_start st + Str.len (m ++ old')) = Some st' ∧
    advance st B c (p :: R) N st' B' c' R' N' (rest_part p (Str.len c) m) (map strike (rest_part p (Str.len c) m)) ∧
    (old' = [] ∨ R' = R).
Proof.
  intros Hst Hstart Hs Hp Hne Hor. pose proof (reached_len _ _ _ _ _ _ _ _ _ Hst Hstart) as Hlen.
  unfold delete_step. rewrite (rinv_some_item _ _ _ _ _ _ _ _ _ _ Hst), (rinv_end_head _ _ _ _ Hok _ _ _ _ _ _ Hst), Hs.
  cbn [mbind option_bind].
  assert (Nat.min (fragment_start st + Str.len (m ++ old')) (seen_len (atoms B) + Str.len p.2) = fragment_start st + Str.len m) as ->.
  { rewrite Hp, !Str_len_app, Hlen. destruct Hor as [->| ->]; change (Str.len []) with 0; lia. }
  destruct (remote_intersect _ _ _ _ _ _ m y Hst Hstart Hs Hp Hne) as (b1 & b2 & b & f & μ & -> & Hfl & Hedit & Hpush & Hm & Hids & Hoff & Hatoms).
  cbn [mbind option_bind]. pose proof (str_nonempty _ Hne). assert ((0 <? Fragment.len f)%N = true) as -> by (apply N.ltb_lt; lia).
  rewrite Hedit. cbn [mbind option_bind]. rewrite Hpush. cbn [mbind option_bind with_build with_start old_fragments].
  assert (seen_len (consumed B (c ++ m) (p :: R)) = fragment_start st + Str.len m) as Hstart'.
  { by rewrite consumed_app, seen_of_app, Str_len_app, seen_of_rest, Hs, <-Hstart. }
  assert (atoms (pieces (N ++ [(f, m, μ)])) = atoms (pieces N) ++ map strike (rest_part p (Str.len c) m)) as HN.
  { autorewrite with pieces. by rewrite Hatoms. }
  rewrite Hp, !Str_len_app. destruct (decide (y = [])) as [->|Hy].
  - change (Str.len []) with 0. rewrite (proj2 (Nat.leb_le _ _)) by lia. rewrite app_nil_r in Hp. rewrite <-Hp in Hm.
    destruct (remote_leave _ _ _ _ Hok Hfits _ _ _ _ _ _ _ _ Hst Hm) as (cur & -> & Hinv).
    { rewrite ids_snoc. pose proof (ids_cut (ids_of (pieces N) ++ [Fragment.id f]) (Fragment.id p.1) (ids_of R)) as Hcut.
      rewrite <-!app_assoc in Hcut. exact (Hcut Hids). }
    cbn [mbind option_bind]. eexists _, (B ++ [p]), [], R, _. split; [done|]. split; [|by right].
    split; [apply Hinv| |done|done|by rewrite <-consumed_app, (consumed_all B (c ++ m) p R)].
    unfold RemoteSteps.reached. cbn [with_cursor fragment_start]. by rewrite <-(consumed_all B (c ++ m) p R Hp).
  - destruct Hor as [?| ->]; [done|]. pose proof (str_nonempty _ Hy). change (Str.len []) with 0.
    rewrite (proj2 (Nat.leb_gt _ _)) by lia.
    eexists _, B, (c ++ m), (p :: R), _. split; [done|]. split; [|by left].
    split; [|done|done|done|by apply consumed_app].
    split; [apply Hst|exact Hm|by rewrite ids_snoc|]. intros _. split; [done|]. intros Heq.
    apply Hy, (app_inv_head (c ++ m)). by rewrite app_nil_r, <-app_assoc, <-Hp.
Qed.

(** An iteration over a concurrent insertion, which stays. *)
Lemma delete_unseen st B c p R N old : remote_inv st B c (p :: R) N → reached st B c (p :: R) → seen_fragment p.1 = false →
  ∃ st' N', delete_step version timestamp self st (fragment_start st + Str.len old) = Some st' ∧
    advance st B c (p :: R) N st' (B ++ [p]) [] R N' (atoms_of p) (map strike (atoms_of p)).
Proof.
  intros Hst Hstart Hs. pose proof (reached_len _ _ _ _ _ _ _ _ _ Hst Hstart) as Hlen.
  pose proof (rinv_whole _ _ _ _ Hok _ _ _ _ _ _ Hst) as Hp. pose proof (whole_nonempty _ Hp) as Hpne.
  assert (c = []) as -> by (destruct (decide (c = [])) as [|Hc]; [done|]; destruct (rinv_open _ _ _ _ _ _ _ _ _ Hst Hc); congruence).
  change (Str.len []) with 0 in Hlen. rewrite Nat.add_0_r in Hlen.
  unfold delete_step. rewrite (rinv_some_item _ _ _ _ _ _ _ _ _ _ Hst), (rinv_end_head _ _ _ _ Hok _ _ _ _ _ _ Hst), Hs.
  cbn [mbind option_bind]. rewrite Nat.add_0_r, <-Hlen, Nat.min_r, (proj2 (Nat.leb_le _ _)) by lia.
  unfold intersect. unfold RemoteSeek.seen_fragment in Hs. rewrite Hs. cbn [mbind option_bind]. rewrite (whole_len _ Hp).
  pose proof (str_nonempty _ Hpne). rewrite (proj2 (N.ltb_lt _ _)) by lia. rewrite andb_negb_r. cbn [mbind option_bind].
  destruct (made_pass _ _ _ Hok Hfits _ _ _ _ _ (rinv_made _ _ _ _ _ _ _ _ _ Hst)) as (b & -> & Hm & Hoff).
  cbn [mbind option_bind with_start with_build old_fragments].
  destruct (rinv_next _ _ _ _ Hok Hfits _ _ _ _ _ _ _ _ Hst Hm) as (cur & -> & Hinv).
  { pose proof (rinv_ids _ _ _ _ _ _ _ _ _ Hst) as Hids. rewrite pieces_app, <-app_assoc. exact Hids. }
  cbn [mbind option_bind]. eexists _, _. split; [done|]. rewrite strike_unseen_atoms.
  2:{ apply atoms_from_all. intros a Ha _. unfold seen. by rewrite Ha. }
  split; [apply Hinv| |done|by autorewrite with pieces|by rewrite !consumed_nil, atoms_app, atoms_one].
  unfold RemoteSteps.reached in *. cbn [with_cursor with_start fragment_start]. rewrite consumed_nil in *. autorewrite with pieces.
  rewrite seen_of_atoms_of. unfold RemoteSeek.seen_fragment. by rewrite Hs, app_nil_r.
Qed.

Lemma remote_delete_step st B c p R N old rest : remote_inv st B c (p :: R) N → reached st B c (p :: R) →
  seen_of (remaining c (p :: R)) = old ++ rest → old ≠ [] →
  ∃ st' B' c' R' N' M old', delete_step version timestamp self st (fragment_start st + Str.len old) = Some st' ∧
    advance st B c (p :: R) N st' B' c' R' N' M (map strike M) ∧ old = seen_of M ++ old' ∧
    (old' = [] → M ≠ [] ∧ ends_seen version M) ∧ (old' = [] ∨ R' = R).
Proof.
  intros Hst Hstart Hrest Hold. destruct (rinv_split _ _ _ _ _ _ _ _ _ _ Hst) as (r & Hr & Hopen).
  rewrite (seen_remaining _ _ _ _ _ Hr) in Hrest. destruct (RemoteSeek.seen_fragment version p.1) eqn:Hs.
  - assert (r ≠ []) as Hrne.
    { destruct (decide (c = [])) as [->|Hc]; [|by apply Hopen]. intros ->.
      by apply (whole_nonempty _ (rinv_whole _ _ _ _ Hok _ _ _ _ _ _ Hst)). }
    destruct (common_prefix r (seen_of (atoms R)) old rest Hrest) as (m & y & old' & -> & -> & Hor).
    assert (m ≠ []) as Hm by (intros ->; by destruct Hor as [->| ->]).
    destruct (delete_seen _ _ _ _ _ _ m y old' Hst Hstart Hs Hr Hm Hor) as (st' & B' & c' & R' & N' & Hrun & Hadv & HR).
    exists st', B', c', R', N', (rest_part p (Str.len c) m), old'. rewrite seen_of_rest, Hs. split_and!; [done..| |done].
    intros _. split; [by apply rest_part_nonempty|by apply ends_seen_from].
  - destruct (delete_unseen _ _ _ _ _ _ old Hst Hstart Hs) as (st' & N' & Hrun & Hadv).
    exists st', (B ++ [p]), [], R, N', (atoms_of p), old. rewrite seen_of_atoms_of, Hs. split_and!; [done..|by right].
Qed.

Lemma remote_delete_loop fuel st B c R N old rest : remote_inv st B c R N → reached st B c R →
  seen_of (remaining c R) = old ++ rest → length R < fuel ∨ old = [] →
  ∃ st' B' c' R' N' M, delete_loop version timestamp fuel self st (fragment_start st + Str.len old) = Some st' ∧
    advance st B c R N st' B' c' R' N' M (map strike M) ∧ seen_of M = old ∧ ends_seen version M.
Proof.
  revert st B c R N old. induction fuel as [|fuel IH]; intros st B c R N old Hst Hstart Hrest Hfuel;
    (destruct (decide (old = [])) as [->|Hne];
      [exists st, B, c, R, N, []; change (Str.len []) with 0; cbn [delete_loop]; rewrite Nat.add_0_r, Nat.ltb_irrefl;
       split; [done|]; split; [by apply advance_refl|done]|]); destruct Hfuel as [Hfuel|]; try done; [lia|].
  cbn [delete_loop]. pose proof (str_nonempty _ Hne). rewrite (proj2 (Nat.ltb_lt _ _)) by lia.
  destruct R as [|p R]; [by destruct old|].
  destruct (remote_delete_step _ _ _ _ _ _ old rest Hst Hstart Hrest Hne)
    as (st1 & B1 & c1 & R1 & N1 & M1 & old' & -> & Hadv & -> & Hends & Hor). cbn [mbind option_bind].
  pose proof (advance_inv _ _ _ _ _ _ _ _ _ _ _ _ _ _ _ _ Hadv) as Hst1.
  assert (seen_of (remaining c1 R1) = old' ++ rest) as Hrest1.
  { rewrite (remote_remaining _ _ _ _ _ _ _ _ _ _ _ _ _ _ _ Hst Hst1 (advance_consumed _ _ _ _ _ _ _ _ _ _ _ _ _ _ _ _ Hadv)), seen_of_app, <-app_assoc in Hrest.
    by apply app_inv_head in Hrest. }
  assert (fragment_start st + Str.len (seen_of M1 ++ old') = fragment_start st1 + Str.len old') as ->.
  { rewrite (advance_reached _ _ _ _ _ _ _ _ _ _ _ _ _ _ _ _ Hadv), (advance_consumed _ _ _ _ _ _ _ _ _ _ _ _ _ _ _ _ Hadv).
    rewrite seen_of_app, !Str_len_app, <-Hstart. lia. }
  destruct (IH st1 B1 c1 R1 N1 old' Hst1 (advance_reached _ _ _ _ _ _ _ _ _ _ _ _ _ _ _ _ Hadv) Hrest1)
    as (st2 & B2 & c2 & R2 & N2 & M2 & -> & Hadv2 & HM2 & Hends2).
  { destruct Hor as [?| ->]; [by right|left; simpl in Hfuel; lia]. }
  exists st2, B2, c2, R2, N2, (M1 ++ M2). rewrite map_app, seen_of_app, HM2. split; [done|].
  split; [by eapply advance_trans|]. split; [done|]. destruct (decide (M2 = [])) as [->|HM]; [|by apply ends_seen_app].
  rewrite app_nil_r. apply Hends. by rewrite <-HM2.
Qed.
End delete.
