(* ===== verification/RemoteFacts.v ===== *)
(** * A remote edit does what it means

    The statements of a remote edit put together: [apply_remote_edit] never panics
    on a consistent snapshot, and makes a consistent snapshot of the atoms that
    [merged] says. *)

From S2P Require Import Prelude Clock Locator SumTree SumTreeFacts Seek Cursor CursorFacts CursorWalk Keyed KeyedFacts UndoMap TreeMap TreeMapFacts Patch PatchFacts Points Utf8 TextSummary RopeTree Rope RopeFacts RopeSeek RopeCut LineEnding Operation Fragment FragmentFacts Snapshot EditSpec EditInv EditState EditSteps EditFinish Remote RemoteSeek RemoteSpec RemoteSteps RemoteDelete.

Import RemoteEdit.

Implicit Types (N : list entry) (B R X Y : list piece) (p : piece) (c m r g old : str) (A G M : list Atom) (edits : list (Range * str)).

Hint Rewrite seen_of_app : pieces.

Section remote.
Context (self : BufferSnapshot) (L : list piece) (version : Global) (timestamp : Lamport).
Context (Hok : snapshot_ok self L) (Hfits : snapshot_fits self) (Hts : observable timestamp) (Holder : later_than_seen version timestamp (atoms L)).
Implicit Types (st : remote_state).

#[local] Hint Extern 0 (Dimension VersionedFullOffset _) => exact (versioned_dimension version) : typeclass_instances.

Abbreviation seen_of := (seen_of version) (only parsing).
Abbreviation seen_len A := (Str.len (seen_of A)) (only parsing).
Abbreviation remote_inv := (remote_inv self L version timestamp) (only parsing).
Abbreviation advance := (advance self L version timestamp) (only parsing).
Abbreviation reached := (reached version) (only parsing).
Abbreviation strike := (strike version (undone_at version (undo_map self)) timestamp) (only parsing).

Lemma advance_start st B c R N st' B' c' R' N' G G' : reached st B c R → advance st B c R N st' B' c' R' N' G G' →
  fragment_start st' = fragment_start st + seen_len G.
Proof. intros Hstart [_ Hr _ _ Hc]. by rewrite Hr, Hc, seen_of_app, Str_len_app, <-Hstart. Qed.

Lemma advance_fuel st B c R N : remote_inv st B c R N → length R < S (length (to_list (fragments self))).
Proof.
  intros Hst. rewrite (ok_list _ _ Hok), length_map, (made_old _ _ _ _ _ _ _ _ (rinv_made _ _ _ _ _ _ _ _ _ Hst)), length_app. lia.
Qed.

(** ** One edit *)

(** Up to the place of the text *)
Lemma remote_place st B c R N g rest : remote_inv st B c R N → reached st B c R → seen_of (remaining c R) = g ++ rest →
  ∃ st1 st2 st3 st' B' c' R' N' gap skipped, let start := fragment_start st + Str.len g in
    seek_start version st start = Some st1 ∧ leave_fragment version st1 start = Some st2 ∧
    skip_concurrent version timestamp (S (length (to_list (fragments self)))) st2 start = Some st3 ∧
    (fragment_start st3 <=? start) = true ∧ push_prefix st3 start = Some st' ∧
    advance st B c R N st' B' c' R' N' (gap ++ skipped) (gap ++ skipped) ∧ seen_of gap = g ∧ ends_seen version gap ∧
    Forall (λ a, seen version a = false ∧ before_edit timestamp a = true) skipped ∧
    stopped version timestamp (remaining c' R') ∧ seen_of (remaining c' R') = rest.
Proof.
  intros Hst Hstart Hrest.
  destruct (remote_seek _ _ _ _ Hok Hfits _ _ _ _ _ g rest Hst Hstart Hrest)
    as (st1 & B1 & c1 & R1 & N1 & G1 & m1 & Hrun1 & Hadv1 & -> & Hrest1 & Hwithin & Hor1).
  pose proof Hadv1 as [Hst1 Hstart1 _ _ _]. pose proof (advance_start _ _ _ _ _ _ _ _ _ _ _ _ Hstart Hadv1) as Hs1.
  destruct (remote_leaves _ _ _ _ Hok Hfits _ _ _ _ _ m1 rest Hst1 Hstart1 Hrest1 Hwithin)
    as (st2 & B2 & c2 & R2 & N2 & G2 & m2 & Hrun2 & Hadv2 & -> & Hrest2 & Hends & Hin & Hor2).
  pose proof Hadv2 as [Hst2 Hstart2 _ _ _]. pose proof (advance_start _ _ _ _ _ _ _ _ _ _ _ _ Hstart1 Hadv2) as Hs2.
  pose proof (advance_trans _ _ _ _ _ _ _ _ _ _ _ _ _ _ _ _ _ _ _ _ _ _ _ Hadv1 Hadv2) as Hadv12.
  set (start := fragment_start st + Str.len (seen_of G1 ++ seen_of G2 ++ m2)) in *.
  assert (fragment_start st1 + Str.len (seen_of G2 ++ m2) = start) as Hstart1' by (unfold start; rewrite !Str_len_app in *; lia).
  assert (fragment_start st2 + Str.len m2 = start) as Hstart2' by (unfold start; rewrite !Str_len_app in *; lia).
  rewrite Hstart1' in Hrun2. clearbody start.
  destruct (decide (m2 = [])) as [->|Hm2].
  - destruct (remote_skip _ _ _ _ Hok Hfits (S (length (to_list (fragments self)))) st2 B2 c2 R2 N2 Holder Hst2 Hstart2 (advance_fuel _ _ _ _ _ Hst2))
      as (st3 & B3 & c3 & R3 & N3 & G3 & Hrun3 & Hadv3 & HG3 & Hstop).
    assert (seen_of G3 = []) as Hsee3.
    { apply seen_of_unseen. eapply Forall_impl; [exact HG3|]. by intros ? []. }
    pose proof (advance_start _ _ _ _ _ _ _ _ _ _ _ _ Hstart2 Hadv3) as Hs3. rewrite Hsee3 in Hs3. change (Str.len []) with 0 in *.
    rewrite Nat.add_0_r in Hs3.
    destruct (remote_prefix _ _ _ _ Hok Hfits st3 B3 c3 R3 N3 [] (advance_inv _ _ _ _ _ _ _ _ _ _ _ _ _ _ _ _ Hadv3)
      (advance_reached _ _ _ _ _ _ _ _ _ _ _ _ _ _ _ _ Hadv3) ltac:(done)) as (st4 & N4 & G4 & Hrun4 & _ & _ & _ & Hnil & _).
    destruct (Hnil eq_refl) as [-> ->]. change (Str.len []) with 0 in Hrun4. rewrite Hs3, Hstart2' in Hrun4.
    assert (fragment_start st2 = start) as Heq by lia. rewrite Heq in Hrun3, Hs3.
    exists st1, st2, st3, st3, B3, c3, R3, N3, (G1 ++ G2), G3. split; [done|]; split; [done|]; split; [done|]; split; [apply Nat.leb_le; lia|]; split; [done|]; split_and!.
    + by eapply advance_trans.
    + by rewrite seen_of_app, app_nil_r.
    + destruct (Hor2 eq_refl) as [[Hnil2 ->]|HG2]; [|by apply ends_seen_app]. rewrite Hnil2 in Hor1. by destruct Hor1 as [->|].
    + done.
    + done.
    + rewrite (remote_remaining _ _ _ _ _ _ _ _ _ _ _ _ _ _ _ Hst2 (advance_inv _ _ _ _ _ _ _ _ _ _ _ _ _ _ _ _ Hadv3)
        (advance_consumed _ _ _ _ _ _ _ _ _ _ _ _ _ _ _ _ Hadv3)), seen_of_app, Hsee3 in Hrest2. exact Hrest2.
  - destruct (Hin Hm2) as [-> Hinside]. change (seen_len []) with 0 in *. pose proof (str_nonempty _ Hm2) as Hpos.
    destruct (remote_prefix _ _ _ _ Hok Hfits st2 B2 c2 R2 N2 m2 Hst2 Hstart2 ltac:(done))
      as (st4 & N4 & G4 & Hrun4 & Hadv4 & HG4 & Hends4 & _ & Hne4). destruct (Hne4 Hm2) as [HG4ne Hstop].
    assert (skip_concurrent version timestamp (S (length (to_list (fragments self)))) st2 start = Some st2) as Hrun3.
    { cbn [skip_concurrent]. destruct Hinside as (p & R' & r & -> & _). rewrite (rinv_item _ _ _ _ _ _ _ _ _ Hst2).
      cbn [mbind option_bind head fmap option_fmap option_map]. by rewrite (proj2 (Nat.eqb_neq _ _)) by lia. }
    exists st1, st2, st2, st4, B2, (c2 ++ m2), R2, N4, (G1 ++ [] ++ G4), [].
    rewrite Hstart2' in Hrun4. split; [done|]; split; [done|]; split; [done|]; split; [apply Nat.leb_le; lia|]; split; [done|]; split_and!.
    + rewrite app_nil_r, app_assoc. by eapply advance_trans.
    + by rewrite !seen_of_app, HG4.
    + apply ends_seen_app; [|by destruct G4]. by apply ends_seen_app.
    + done.
    + done.
    + pose proof (remote_remaining _ _ _ _ _ _ _ _ _ _ _ _ _ _ _ Hst2 (advance_inv _ _ _ _ _ _ _ _ _ _ _ _ _ _ _ _ Hadv4)
        (advance_consumed _ _ _ _ _ _ _ _ _ _ _ _ _ _ _ _ Hadv4)) as Hrem. rewrite Hrem, seen_of_app, HG4 in Hrest2.
      by apply app_inv_head in Hrest2.
Qed.

(** The body of the loop *)
Lemma remote_step st B c R N range text g old rest : remote_inv st B c R N → reached st B c R →
  seen_of (remaining c R) = g ++ old ++ rest → Range.start range = fragment_start st + Str.len g →
  Range.end_ range = Range.start range + Str.len old → str_ok text →
  (insertion_offset (build st) + N.of_nat (Str.len text) <= u32_max)%N →
  ∃ st' B' c' R' N' gap skipped M, edit_step version timestamp self st (range, text) = Some st' ∧
    remote_inv st' B' c' R' N' ∧ reached st' B' c' R' ∧ fragment_start st' = Range.end_ range ∧
    insertion_offset (build st') = (insertion_offset (build st) + N.of_nat (Str.len text))%N ∧
    atoms (pieces N') = atoms (pieces N) ++ gap ++ skipped ++ inserted timestamp (insertion_offset (build st)) text ++ map strike M ∧
    remaining c R = gap ++ skipped ++ M ++ remaining c' R' ∧
    seen_of gap = g ∧ ends_seen version gap ∧ Forall (λ a, seen version a = false ∧ before_edit timestamp a = true) skipped ∧
    stopped version timestamp (M ++ remaining c' R') ∧ seen_of M = old ∧ ends_seen version M.
Proof.
  intros Hst Hstart Hrest Hs He Htext Hlen. unfold edit_step.
  destruct (remote_place st B c R N g (old ++ rest) Hst Hstart Hrest)
    as (st1 & st2 & st3 & st4 & B4 & c4 & R4 & N4 & gap & skipped & Hrun1 & Hrun2 & Hrun3 & Hle & Hrun4 & Hadv & Hgap & Hends & Hskip & Hstop & Hrest4).
  rewrite <-Hs in *. rewrite Hrun1. cbn [mbind option_bind]. rewrite Hrun2. cbn [mbind option_bind]. rewrite Hrun3. cbn [mbind option_bind].
  rewrite Hle. cbn [rassert mbind option_bind]. rewrite Hrun4. cbn [mbind option_bind].
  pose proof (advance_start _ _ _ _ _ _ _ _ _ _ _ _ Hstart Hadv) as Hs4.
  assert (seen_of skipped = []) as Hsee by (apply seen_of_unseen; eapply Forall_impl; [exact Hskip|]; by intros ? []).
  rewrite seen_of_app, Hsee, app_nil_r, Hgap, <-Hs in Hs4. destruct Hadv as [Hst4 Hstart4 Hoff4 HN4 HB4].
  destruct (remote_insertion _ _ _ _ Hok Hfits Hts st4 B4 c4 R4 N4 text Hst4 Hstart4 Htext) as (st5 & N5 & -> & Hst5 & Hstart5 & Hs5 & Hoff5 & HN5).
  { by rewrite Hoff4. }
  cbn [mbind option_bind]. rewrite He, <-Hs4, <-Hs5.
  destruct (remote_delete_loop _ _ _ _ Hok Hfits Hts (S (length (to_list (fragments self)))) st5 B4 c4 R4 N5 old rest Hst5 Hstart5 Hrest4)
    as (st6 & B6 & c6 & R6 & N6 & M & Hrun6 & Hadv6 & HM & HendsM); [left; by eapply advance_fuel|].
  pose proof (advance_start _ _ _ _ _ _ _ _ _ _ _ _ Hstart5 Hadv6) as Hs6. destruct Hadv6 as [Hst6 Hstart6 Hoff6 HN6 HB6].
  assert (remaining c4 R4 = M ++ remaining c6 R6) as Hrem6 by by eapply (remote_remaining _ _ _ _ _ _ _ _ _ _ _ _ _ _ _ Hst5 Hst6).
  exists st6, B6, c6, R6, N6, gap, skipped, M. split; [exact Hrun6|]. split_and!; [done|done| | | | |done|done|done| |done|done].
  - by rewrite Hs6, HM.
  - by rewrite Hoff6, Hoff5, Hoff4.
  - by rewrite HN6, HN5, HN4, Hoff4, <-!app_assoc.
  - by rewrite (remote_remaining _ _ _ _ _ _ _ _ _ _ _ _ _ _ _ Hst Hst4 HB4), Hrem6, <-!app_assoc.
  - by rewrite <-Hrem6.
Qed.

(** ** The loop over the edits *)

Lemma bytes_of_strike A : bytes_of (map strike A) = bytes_of A.
Proof.
  unfold bytes_of. induction A as [|a A IH]; [done|]. simpl. rewrite IH. f_equal. unfold RemoteSpec.strike.
  by destruct (was_shown _ _ _).
Qed.

Lemma bytes_of_inserted offset text : bytes_of (inserted timestamp offset text) = stretch timestamp offset (Str.len text).
Proof. apply bytes_of_atoms_from. Qed.

(** Ranges in order. *)
Lemma within_starts pos (s : str) edits : edits_within pos s edits → starts_from pos edits.
Proof.
  revert pos s. induction edits as [|[range text] edits IH]; intros pos s; simpl; [constructor|].
  intros (gap & old & rest & _ & Hs & He & Hrest). constructor; [simpl; lia|].
  eapply Forall_impl; [by eapply IH|]. simpl. intros e ?. lia.
Qed.

(** The atoms [G] in front of the cursor belong to the gap of the first edit. *)
Lemma remote_loop edits st B c R N A0 G pos : remote_inv st B c R N → reached st B c R →
  atoms (pieces N) = A0 ++ G → fragment_start st = pos + seen_len G →
  (G = [] ∨ match edits with [] => False | (range, _) :: _ => fragment_start st < Range.start range end) →
  edits_within pos (seen_of (G ++ remaining c R)) edits → Forall (λ e, str_ok e.2) edits →
  (insertion_offset (build st) + N.of_nat (inserted_len edits) <= u32_max)%N →
  ∃ st' B' c' R' N' A', edit_loop version timestamp self st edits = Some st' ∧ remote_inv st' B' c' R' N' ∧ reached st' B' c' R' ∧
    atoms (pieces N') = A0 ++ A' ∧
    merge_at version (undone_at version (undo_map self)) timestamp (inserted_at timestamp (insertion_offset (build st)) edits) (hit_by edits) pos true
      (G ++ remaining c R) = A' ++ remaining c' R' ∧
    bytes_of (A' ++ remaining c' R') ≡ₚ
      bytes_of (G ++ remaining c R) ++ stretch timestamp (insertion_offset (build st)) (inserted_len edits).
Proof.
  revert st B c R N A0 G pos. induction edits as [|[range text] edits IH]; intros st B c R N A0 G pos Hst Hstart HN Hpos HG Hwithin Htexts Hlen.
  { destruct HG as [->|[]]. exists st, B, c, R, N, []. rewrite app_nil_r in *. split_and!; [done..|apply merge_none|by rewrite app_nil_r]. }
  destruct Hwithin as (gap0 & old & rest & Hs & Hstart0 & Hend & Hwithin). apply Forall_cons in Htexts as [Htext Htexts]. simpl in Htext.
  rewrite seen_of_app in Hs. change (inserted_len ((range, text) :: edits)) with (Str.len text + inserted_len edits) in Hlen.
  destruct (str_cut gap0 (old ++ rest) (seen_of G) _ (eq_sym Hs)) as (g & -> & Hrest).
  { destruct HG as [->|HG]; [change (seen_len []) with 0|]; lia. }
  rewrite Str_len_app in Hstart0.
  destruct (remote_step st B c R N range text g old rest Hst Hstart Hrest)
    as (st1 & B1 & c1 & R1 & N1 & gap & skipped & M & Hrun & Hst1 & Hstart1 & Hs1 & Hoff1 & HN1 & Hrem & Hgap & Hends & Hskip & Hstop & HM & HendsM);
    [lia|done|done|lia|].
  cbn [edit_loop]. rewrite Hrun. cbn [mbind option_bind].
  assert (seen_of (remaining c1 R1) = rest) as Hrest1.
  { rewrite Hrem, !seen_of_app, Hgap, HM, (seen_of_unseen version skipped) in Hrest by (eapply Forall_impl; [exact Hskip|]; by intros ? []).
    simpl in Hrest. by do 2 apply app_inv_head in Hrest. }
  destruct (IH st1 B1 c1 R1 N1 (atoms (pieces N1)) [] (Range.end_ range) Hst1 Hstart1)
    as (st' & B' & c' & R' & N' & A' & -> & Hst' & Hstart' & HN' & Hmerge & Hbytes);
    [by rewrite app_nil_r|change (seen_len []) with 0; lia|by left|simpl; by rewrite Hrest1|done|lia|].
  exists st', B', c', R', N', (G ++ gap ++ skipped ++ inserted timestamp (insertion_offset (build st)) text ++ map strike M ++ A').
  split_and!; [done..| | |].
  - by rewrite HN', HN1, HN, <-!app_assoc.
  - rewrite Hrem. pose proof (merge_edit version (undone_at version (undo_map self)) timestamp (insertion_offset (build st)) range text edits pos (G ++ gap)
      skipped M (remaining c1 R1)) as Hm. rewrite <-!app_assoc in Hm. rewrite Hm; clear Hm.
    + rewrite Hoff1 in Hmerge. cbn [app] in Hmerge. rewrite Hmerge. by rewrite <-!app_assoc.
    + destruct (decide (gap = [])) as [->|Hne]; [|by apply ends_seen_app]. destruct HG as [->|HG]; [done|].
      rewrite <-Hgap in Hstart0. change (seen_len []) with 0 in Hstart0. lia.
    + done.
    + done.
    + done.
    + rewrite seen_of_app, Str_len_app, Hgap. lia.
    + by rewrite HM.
    + by eapply within_starts.
  - rewrite Hrem. unfold inserted_len. cbn [map sum_list snd]. fold (inserted_len edits). cbn [app] in Hbytes.
    rewrite Hoff1 in Hbytes. rewrite stretch_app, <-!app_assoc, !bytes_of_app, bytes_of_strike, bytes_of_inserted.
    rewrite bytes_of_app in Hbytes. rewrite Hbytes. solve_Permutation.
Qed.

(** ** The beginning *)

Lemma remote_init start : start <= seen_len (atoms L) →
  ∃ st B R N, edit_init version self start = Some st ∧ remote_inv st B [] R N ∧ reached st B [] R ∧
    atoms (pieces N) = atoms B ∧ insertion_offset (build st) = 0%N ∧ (B ≠ [] → fragment_start st < start).
Proof.
  intros Hstart. pose proof (ok_whole _ _ Hok) as HL. unfold edit_init.
  destruct (ropes_new _ _ _ _ (fits_visible _ Hfits) (fits_deleted _ Hfits) (visible_fits _ _ Hok Hfits) (deleted_fits _ _ Hok Hfits)
    (ok_visible _ _ Hok) (ok_deleted _ _ Hok)) as (cv & cd & -> & -> & Hropes). cbn [mbind option_bind].
  destruct (remote_slice self L version Hok Hfits (Cursor.new (fragments self)) [] L start) as (t & cur & X & Y & -> & Ht & Hlist & Hcur & HXY & Hlt & _).
  { rewrite <-(ok_list _ _ Hok). apply ready_new. }
  { done. }
  { change (seen_len (atoms [])) with 0. lia. }
  cbn [mbind option_bind]. cbn [app] in Hcur, Hlt. rewrite HXY in HL. apply Forall_app in HL as [HX HY].
  pose proof (builder_new t Ht) as Hb. rewrite Hlist in Hb. specialize (Hb (whole_fragments _ HX)).
  rewrite (builder_text _ _ Hb), visible_len_pieces, deleted_len_pieces by done.
  rewrite HXY in Hropes at 3 4. autorewrite with pieces in Hropes.
  destruct (ropes_append _ _ _ _ (fits_visible _ Hfits) (fits_deleted _ Hfits) (visible_fits _ _ Hok Hfits) (deleted_fits _ _ Hok Hfits)
    _ _ _ _ _ _ _ Hropes) as (ropes & -> & Hropes'). cbn [mbind option_bind].
  rewrite (split_at_start _ _ _ _ Hcur), (remote_position _ _ _ Hok X Y HXY). cbn [VersionedFullOffset.full_offset fst mbind option_bind].
  eexists _, X, Y, (kept X). split; [done|]. split; [split|split_and!]; cbn [old_fragments build fragment_start insertion_offset edits_patch].
  - exact Hcur.
  - split; cbn [edits_patch]; rewrite ?consumed_nil, ?remaining_nil; autorewrite with pieces.
    + exact HXY.
    + apply headed_nil.
    + split; cbn [new_fragments new_ropes new_insertions insertion_slices]; autorewrite with pieces; [done..|exact Hropes'|done|done].
    + done.
    + intros p [Hp|[? _]]; [|done]. apply list_elem_of_fmap. by exists p.
    + intros p (q & [= ->] & Hq)%list_elem_of_fmap. rewrite HXY. apply elem_of_app. by left.
    + intros a Ha. left. rewrite HXY, atoms_app. apply elem_of_app. by left.
  - autorewrite with pieces. rewrite <-HXY. apply Hok.
  - done.
  - unfold RemoteSteps.reached. cbn [fragment_start]. by rewrite consumed_nil.
  - by autorewrite with pieces.
  - done.
  - exact Hlt.
Qed.

(** ** The end *)

Lemma merge_origin ins hit A pos (pending : bool) a : a ∈ merge_at version (undone_at version (undo_map self)) timestamp ins hit pos pending A →
  a ∈ A ∨ (∃ a0, a0 ∈ A ∧ a = strike a0) ∨ ∃ k, a ∈ ins k.
Proof.
  revert pos pending. induction A as [|a' A IH]; intros pos pending; cbn [RemoteSpec.merge_at].
  { destruct pending; [eauto|by intros ?%not_elem_of_nil]. }
  assert (∀ pos pending, a ∈ merge_at version (undone_at version (undo_map self)) timestamp ins hit pos pending A →
    a ∈ a' :: A ∨ (∃ a0, a0 ∈ a' :: A ∧ a = strike a0) ∨ ∃ k, a ∈ ins k) as IH'.
  { intros pos' pending' [?|[(a0 & ? & ?)|?]]%IH; [left; by right|right; left; exists a0; split; [by right|done]|auto]. }
  assert (a ∈ (if pending then ins pos else []) → ∃ k, a ∈ ins k) as Hins by (destruct pending; [eauto|by intros ?%not_elem_of_nil]).
  destruct (seen version a'); [|destruct (pending && _)].
  - intros [Ha|[->|Ha]%elem_of_cons]%elem_of_app; [auto| |by eapply IH'].
    destruct (hit pos); [right; left; exists a'; split; [by left|done]|left; by left].
  - intros [Ha|[->|Ha]%elem_of_cons]%elem_of_app; [eauto|left; by left|by eapply IH'].
  - intros [->|Ha]%elem_of_cons; [left; by left|by eapply IH'].
Qed.

Lemma merged_revises edits : bytes_of (merged version (undone_at version (undo_map self)) timestamp edits (atoms L)) ≡ₚ
    bytes_of (atoms L) ++ stretch timestamp 0 (inserted_len edits) →
  revises timestamp (atoms L) (merged version (undone_at version (undo_map self)) timestamp edits (atoms L)).
Proof.
  intros Hbytes. split; [by eexists|]. intros a [Ha|[(a0 & Ha0 & ->)|[p Ha]]]%merge_origin; [by left| |].
  - unfold RemoteSpec.strike. destruct (was_shown _ _ _); [right; left; by exists a0|by left].
  - right. right. clear Hbytes. revert Ha. generalize 0%N. induction edits as [|[range text] edits IH]; intros offset Ha; [by apply not_elem_of_nil in Ha|].
    cbn [inserted_at] in Ha. apply elem_of_app in Ha as [Ha|Ha]; [|by eapply IH].
    destruct (_ =? _); [by eapply inserted_elem|by apply not_elem_of_nil in Ha].
Qed.

Lemma remote_end st B c R N A' : remote_inv st B c R N → reached st B c R → fresh self L timestamp →
  A' = atoms (pieces N) ++ remaining c R → revises timestamp (atoms L) A' →
  ∃ self' L' P, edit_finish version self st = Some (self', P) ∧ snapshot_ok self' L' ∧ atoms L' = A' ∧
    relates P (Str.as_bytes (visible_of (atoms L))) (Str.as_bytes (visible_of A')) ∧
    undo_map self' = undo_map self ∧ snapshot_version self' = snapshot_version self ∧
    snapshot_remote_id self' = snapshot_remote_id self ∧ snapshot_replica_id self' = snapshot_replica_id self ∧
    snapshot_line_ending self' = snapshot_line_ending self.
Proof.
  intros Hst Hstart Hfresh HA Hrev. unfold edit_finish.
  destruct (remote_finish _ _ _ _ Hok Hfits _ _ _ _ _ Hst Hstart) as (st1 & B1 & R1 & N1 & G & -> & Hst1 & _ & HN1 & HB1 & _).
  cbn [mbind option_bind]. pose proof (rinv_made _ _ _ _ _ _ _ _ _ Hst1) as Hm1.
  destruct (suffix_any (fragments self) _ _ _ (fragments_searchable _ _ Hok Hfits) (rinv_cursor _ _ _ _ _ _ _ _ _ Hst1))
    as (t & cur & -> & Ht & Hlist). cbn [mbind option_bind].
  rewrite <-(app_nil_r R1) in Hm1. destruct (made_append _ _ _ Hok Hfits _ _ _ _ _ t Hm1 Ht Hlist) as (b & -> & Hm & _).
  cbn [mbind option_bind]. set (N2 := N1 ++ kept R1) in *.
  assert (atoms (pieces N2) = A') as HN2.
  { unfold N2. autorewrite with pieces. rewrite HN1, <-app_assoc, HA. f_equal. symmetry. rewrite <-remaining_nil.
    eapply (remote_remaining _ _ _ _ _ _ _ _ _ _ _ _ _ _ _ Hst Hst1). by rewrite consumed_nil. }
  destruct (build_finished self L timestamp Hok Hfits b _ N2 Hm) as (rv & rd & tree & removed & ins & set & -> & Htree & Hins & Hset & Hself' & HP);
    [|done|by rewrite HN2|].
  { pose proof (rinv_ids _ _ _ _ _ _ _ _ _ Hst1) as Hids. unfold N2. by autorewrite with pieces. }
  cbn [mbind option_bind]. rewrite Htree. cbn [mbind option_bind]. rewrite Hins. cbn [mbind option_bind]. rewrite Hset. cbn [mbind option_bind].
  eexists _, (pieces N2), _. split; [done|]. split; [exact Hself'|]. split; [done|]. rewrite HN2 in HP. split; [exact HP|done].
Qed.

(** ** The whole edit *)

Lemma apply_remote_spec ranges new_text : length ranges = length new_text → fresh self L timestamp →
  edits_within 0 (seen_of (atoms L)) (zip ranges new_text) → Forall str_ok new_text →
  (N.of_nat (inserted_len (zip ranges new_text)) <= u32_max)%N →
  ∃ self' L' patch, apply_remote_edit version timestamp self ranges new_text = Some (self', patch) ∧ snapshot_ok self' L' ∧
    atoms L' = merged version (undone_at version (undo_map self)) timestamp (zip ranges new_text) (atoms L) ∧
    relates (default Patch.empty patch) (Str.as_bytes (visible_of (atoms L))) (Str.as_bytes (visible_of (atoms L'))) ∧
    revises timestamp (atoms L) (atoms L') ∧
    undo_map self' = undo_map self ∧ snapshot_version self' = snapshot_version self ∧
    snapshot_remote_id self' = snapshot_remote_id self ∧ snapshot_replica_id self' = snapshot_replica_id self ∧
    snapshot_line_ending self' = snapshot_line_ending self.
Proof.
  intros Hlength Hfresh Hwithin Htexts Hlen.
  assert (Forall (λ e : Range * str, str_ok e.2) (zip ranges new_text)) as Htexts'.
  { apply Forall_forall. intros [range text] He%elem_of_zip_r. by eapply Forall_forall in Htexts. }
  unfold apply_remote_edit. destruct ranges as [|range ranges].
  { exists self, L, None. unfold merged. cbn [zip zip_with]. rewrite (merge_none _ _ _ 0). split_and!; try done.
    split; [exists 0; by rewrite app_nil_r|by left]. }
  destruct new_text as [|text new_text]; [done|]. cbn [zip zip_with] in *. fold (zip ranges new_text) in *.
  set (edits := (range, text) :: zip ranges new_text) in *.
  assert (Range.start range <= seen_len (atoms L)) as Hs.
  { destruct Hwithin as (gap & old & rest & -> & -> & _). rewrite !Str_len_app. lia. }
  destruct (remote_init (Range.start range) Hs) as (st0 & B0 & R0 & N0 & -> & Hst0 & Hstart0 & HN0 & Hoff0 & Hlt0). cbn [mbind option_bind].
  assert (atoms B0 ++ remaining [] R0 = atoms L) as HL.
  { rewrite remaining_nil, <-atoms_app. by rewrite <-(made_old _ _ _ _ _ _ _ _ (rinv_made _ _ _ _ _ _ _ _ _ Hst0)). }
  destruct (remote_loop edits st0 B0 [] R0 N0 [] (atoms B0) 0 Hst0 Hstart0)
    as (st & B & c & R & N & A' & -> & Hst & Hstart & HN & Hmerge & Hbytes);
    [done|by rewrite Hstart0, consumed_nil| |by rewrite HL|done|by rewrite Hoff0|].
  { destruct B0; [by left|right]. by apply Hlt0. }
  rewrite HL, Hoff0 in Hmerge, Hbytes. rewrite <-Hmerge in Hbytes. cbn [mbind option_bind].
  destruct (remote_end st B c R N (merged version (undone_at version (undo_map self)) timestamp edits (atoms L)) Hst Hstart Hfresh)
    as (self' & L' & P & -> & Hself' & HL' & HP & Hfields); [by rewrite HN|by apply merged_revises|].
  cbn [mbind option_bind]. exists self', L', (Some P). rewrite HL'. split_and!; try done; [by apply merged_revises|apply Hfields..].
Qed.
End remote.
