(* ===== verification/Replay.v ===== *)
(** * Operations and their log

    The specification of a replicated buffer.  The operations of all replicas form
    a log, in the order in which they were made; a replica has applied those its
    version has observed.  Replaying them over the base text gives the atoms of
    the replica, in whatever order they arrived: operations that do not know of
    each other commute. *)

From S2P Require Import Prelude Clock Locator SumTree SumTreeFacts Seek Cursor CursorFacts CursorWalk Keyed KeyedFacts UndoMap TreeMap TreeMapFacts Patch PatchFacts Points Utf8 TextSummary RopeTree Rope RopeFacts RopeCut Operation Fragment FragmentFacts Snapshot EditSpec RemoteSpec.

Implicit Types (A : list Atom) (a : Atom) (op p q : Operation) (log past ops H : list Operation) (v w : Global) (t : Lamport).

(** ** Applying an operation *)

Definition operation_edits (edit : EditOperation) : list (Range * str) := zip (EditOperation.ranges edit) (EditOperation.new_text edit).

(** The counts that the undos a version has observed give an edit. *)
Definition counts_at log v t : list N :=
  omap (λ op, match op with
    | Operation.Undo undo => if Global.observed v (UndoMap.timestamp undo) then counts undo !! t else None
    | Operation.Edit _ => None
    end) log.

Definition undone_by log v t : bool := (max_list (counts_at log v t) mod 2 =? 1)%N.

(** Undos move no atoms. *)
Definition applied log A op : list Atom :=
  match op with
  | Operation.Edit edit => merged (EditOperation.version edit) (undone_by log (EditOperation.version edit))
      (EditOperation.timestamp edit) (operation_edits edit) A
  | Operation.Undo _ => A
  end.

Definition replay log A ops : list Atom := foldl (applied log) A ops.

Definition observes v op : bool := Global.observed v (Operation.timestamp op).
Definition extends v w : Prop := ∀ t, Global.observed w t = true → Global.observed v t = true.

(** ** Facts *)

Lemma counts_at_elem log v t c : c ∈ counts_at log v t ↔
  ∃ undo, Operation.Undo undo ∈ log ∧ Global.observed v (UndoMap.timestamp undo) = true ∧ counts undo !! t = Some c.
Proof.
  unfold counts_at. rewrite list_elem_of_omap. split.
  - intros ([edit|undo] & Hin & Hc); [done|]. exists undo. by destruct (Global.observed v _).
  - intros (undo & Hin & Hv & Hc). exists (Operation.Undo undo). by rewrite Hv.
Qed.

(** Only the operations the version has observed count. *)
Lemma undone_by_same log log' v : (∀ op, observes v op = true → op ∈ log ↔ op ∈ log') → ∀ t, undone_by log v t = undone_by log' v t.
Proof.
  intros Hlog t. unfold undone_by. rewrite (max_list_ext _ (counts_at log' v t)); [done|]. intros c. rewrite !counts_at_elem.
  split; intros (undo & Hin & Hv & Hc); exists undo; (split; [|done]); by apply (Hlog (Operation.Undo undo)).
Qed.

Lemma replay_app log A ops ops' : replay log A (ops ++ ops') = replay log (replay log A ops) ops'.
Proof. apply foldl_app. Qed.

(** *** Atoms that are alike *)

Lemma applied_alike log log' A A' op : (∀ q, observes (Operation.version op) q = true → q ∈ log ↔ q ∈ log') → all_alike A A' →
  all_alike (applied log A op) (applied log' A' op).
Proof. intros Hlog HA. destruct op; [|done]. by apply merged_alike; [apply undone_by_same|]. Qed.

Lemma replay_alike log log' A A' ops : (∀ op q, op ∈ ops → observes (Operation.version op) q = true → q ∈ log ↔ q ∈ log') →
  all_alike A A' → all_alike (replay log A ops) (replay log' A' ops).
Proof.
  revert A A'. induction ops as [|op ops IH]; intros A A' Hlog HA; [done|]. apply IH.
  - intros op' q Hop'. apply Hlog. by right.
  - apply applied_alike; [|done]. intros q. apply Hlog. by left.
Qed.

Lemma replay_same log A A' ops : all_alike A A' → all_alike (replay log A ops) (replay log A' ops).
Proof. by apply replay_alike. Qed.

(** *** Where atoms come from *)

(** What holds of new atoms, and stays when one is struck out. *)
Definition lasts (P : Atom → Prop) t : Prop :=
  (∀ a, P a → P (struck t a)) ∧ ∀ a, atom_insertion a = t → atom_deletions a = [] → P a.

Lemma inserted_at_all t offset (edits : list (Range * str)) pos : Forall (λ a, atom_insertion a = t ∧ atom_deletions a = []) (inserted_at t offset edits pos).
Proof.
  revert offset. induction edits as [|[range text] edits IH]; intros offset; simpl; [done|]. apply Forall_app. split; [|apply IH].
  destruct (_ =? _); [|done]. unfold inserted. generalize offset. induction text as [|c text IHt]; intros o; constructor; [done|apply IHt].
Qed.

Lemma merge_all v undone t ins hit A pos (pending : bool) (P : Atom → Prop) : Forall P A → (∀ a, P a → P (struck t a)) →
  (∀ k, Forall P (ins k)) → Forall P (merge_at v undone t ins hit pos pending A).
Proof.
  intros HA Hstruck Hins. revert pos pending. induction HA as [|a A Ha _ IH]; intros pos pending; cbn [merge_at]; [by destruct pending|].
  destruct (seen v a); [|destruct (pending && _)].
  - apply Forall_app. split; [by destruct pending|]. constructor; [|apply IH]. destruct (hit pos); [|done].
    unfold strike. destruct (was_shown _ _ _); auto.
  - apply Forall_app. split; [done|]. constructor; [done|apply IH].
  - constructor; [done|apply IH].
Qed.

Lemma replay_all log A ops (P : Atom → Prop) : Forall P A → (∀ op, op ∈ ops → lasts P (Operation.timestamp op)) →
  Forall P (replay log A ops).
Proof.
  revert A. induction ops as [|op ops IH]; intros A HA Hops; [done|]. apply IH; [|intros q Hq; apply Hops; by right].
  destruct (Hops op (list_elem_of_here _ _)) as [Hs Hi]. destruct op as [edit|]; [|done]. apply merge_all; [done..|]. intros k.
  eapply Forall_impl; [apply inserted_at_all|]. intros a [? ?]. by apply Hi.
Qed.

Lemma insertion_lasts (I : Lamport → Prop) t : I t → lasts (λ a, I (atom_insertion a)) t.
Proof. intros Ht. split; [done|]. by intros a ->. Qed.

Lemma names_last (I : Lamport → Prop) t : I t → lasts (λ a, I (atom_insertion a) ∧ Forall I (atom_deletions a)) t.
Proof.
  intros Ht. split.
  - intros a [Hi Hd]. split; [done|]. apply Forall_app. by repeat constructor.
  - intros a -> ->. by split.
Qed.

(** ** Commuting *)

Section commute.
Context (log : list Operation) (I : Lamport → Prop).

(** Neither operation has seen the other. *)
Definition concurrent p q : Prop :=
  Operation.timestamp p ≠ Operation.timestamp q ∧ observes (Operation.version p) q = false ∧ observes (Operation.version q) p = false.

(** The operation is later than the insertions it has seen. *)
Definition after_seen op : Prop := ∀ t, I t → Global.observed (Operation.version op) t = true → cmp t (Operation.timestamp op) = Lt.

Abbreviation inserted_in A := (Forall (λ a, I (atom_insertion a)) A) (only parsing).

Lemma after_seen_later op A : after_seen op → inserted_in A →
  later_than_seen (Operation.version op) (Operation.timestamp op) A.
Proof.
  intros Hop HA a Ha Hseen. rewrite Forall_forall in HA. unfold before_edit. rewrite cmp_opp.
  by rewrite (Hop _ (HA a Ha) Hseen).
Qed.

Lemma applied_commute p q A : concurrent p q → after_seen p → after_seen q → inserted_in A →
  all_alike (applied log (applied log A p) q) (applied log (applied log A q) p).
Proof.
  intros (Hne & Hpq & Hqp) Hp Hq HA. pose proof (after_seen_later _ _ Hp HA). pose proof (after_seen_later _ _ Hq HA).
  destruct p, q; [|done..]. by apply merged_commute.
Qed.

(** An operation moves behind those that are concurrent with it. *)
Lemma replay_after op ops A : (∀ q, q ∈ ops → concurrent op q ∧ after_seen q ∧ I (Operation.timestamp q)) → after_seen op →
  inserted_in A → all_alike (replay log (applied log A op) ops) (applied log (replay log A ops) op).
Proof.
  intros Hops Hop. revert A. induction ops as [|q ops IH]; intros A HA; [done|]. cbn [replay foldl].
  destruct (Hops q (list_elem_of_here _ _)) as (Hc & Hq & HIq).
  etrans; [apply replay_same; by apply applied_commute|]. apply IH.
  - intros q' Hq'. apply Hops. by right.
  - by apply (replay_all log A [q]); [|intros ? ->%list_elem_of_singleton; apply insertion_lasts].
Qed.

Lemma applied_seen_of w op A : observes w op = false → seen_of w (applied log A op) = seen_of w A.
Proof.
  intros Hop. destruct op; [|done]. apply seen_of_merge. intros pos. apply seen_of_unseen.
  eapply Forall_impl; [apply inserted_at_insertion|]. intros a Ha. cbv beta in Ha. unfold seen. by rewrite Ha.
Qed.

(** What a version that knows what its operations know has seen is due to the
    operations it has observed. *)
Lemma replay_seen_of w ops A : StronglySorted (λ p q, Operation.timestamp p ≠ Operation.timestamp q ∧ observes (Operation.version p) q = false) ops →
  (∀ op, op ∈ ops → after_seen op ∧ I (Operation.timestamp op)) →
  (∀ op, op ∈ ops → observes w op = true → extends w (Operation.version op)) → inserted_in A →
  seen_of w (replay log A ops) = seen_of w (replay log A (filter (λ op, observes w op = true) ops)).
Proof.
  intros Hsorted. revert A. induction Hsorted as [|op ops Hsorted IH Hop]; intros A Hops Hw HA; [done|].
  destruct (Hops op (list_elem_of_here _ _)) as [Hafter HI]. rewrite Forall_forall in Hop.
  assert (∀ q, q ∈ ops → after_seen q ∧ I (Operation.timestamp q)) as Hops' by (intros q Hq; apply Hops; by right).
  cbn [replay foldl]. fold (replay log (applied log A op) ops). rewrite IH; [|done|intros q Hq; apply Hw; by right|by apply (replay_all log A [op]); [|intros ? ->%list_elem_of_singleton; apply insertion_lasts]].
  rewrite filter_cons. destruct (observes w op) eqn:Hobs; case_decide; try done.
  rewrite (alike_seen_of w _ (applied log (replay log A (filter (λ op, observes w op = true) ops)) op)); [by apply applied_seen_of|].
  apply replay_after; [|done..]. intros q [Hqw Hq]%list_elem_of_filter. destruct (Hops' q Hq). split; [|done].
  destruct (Hop q Hq) as [Hne Hpq]. split_and!; [done..|]. destruct (observes (Operation.version q) op) eqn:Hqp; [|done].
  assert (observes w op = true) as Hwop; [|congruence]. eapply (Hw q); [by right|exact Hqw|exact Hqp].
Qed.
End commute.

(** ** The log *)

Section log.
Context (base : list Atom) (start : Global).

(** A version between which and the start only operations of the log lie. *)
Record cut log v : Prop := {
  cut_start : extends v start;
  cut_closed op : op ∈ log → observes v op = true → extends v (Operation.version op);
  cut_exact r : Global.get v r = Global.get start r ∨
    ∃ op, op ∈ log ∧ Operation.timestamp op = mkLamport (Global.get v r) r;
}.

Definition content_ok past op : Prop :=
  match op with
  | Operation.Edit edit =>
      length (EditOperation.ranges edit) = length (EditOperation.new_text edit) ∧ Forall str_ok (EditOperation.new_text edit) ∧
      (N.of_nat (inserted_len (operation_edits edit)) <= u32_max)%N ∧
      edits_within 0 (seen_of (EditOperation.version edit)
        (replay past base (filter (λ op, observes (EditOperation.version edit) op = true) past))) (operation_edits edit)
  | Operation.Undo undo => ∀ id, is_Some (counts undo !! id) → id ≠ base_timestamp ∧ Global.observed (UndoMap.version undo) id = true
  end.

(** The next operation of a log. *)
Record entry_ok past op : Prop := {
  entry_observable : observable (Operation.timestamp op);
  entry_canonical : canonical (Operation.version op);
  entry_unknown : Global.observed start (Operation.timestamp op) = false;
  entry_fresh q : q ∈ past → Operation.timestamp q ≠ Operation.timestamp op ∧ observes (Operation.version q) op = false;
  entry_itself : observes (Operation.version op) op = false;
  entry_cut : cut past (Operation.version op);
  entry_base : Forall (λ a, cmp (atom_insertion a) (Operation.timestamp op) = Lt) base;
  entry_after q : q ∈ past → observes (Operation.version op) q = true → cmp (Operation.timestamp q) (Operation.timestamp op) = Lt;
  entry_own q : q ∈ past → Operation.replica_id q = Operation.replica_id op → observes (Operation.version op) q = true;
  entry_content : content_ok past op;
}.

Inductive log_ok : list Operation → Prop :=
  | log_nil : log_ok []
  | log_snoc past op : log_ok past → entry_ok past op → log_ok (past ++ [op]).

(** *** Facts *)

Lemma log_entry log op : log_ok log → op ∈ log → ∃ past rest, log = past ++ op :: rest ∧ log_ok past ∧ entry_ok past op.
Proof.
  induction 1 as [|past last Hlog IH Hlast]; [by intros ?%not_elem_of_nil|].
  intros [Hin| ->%list_elem_of_singleton]%elem_of_app; [|by exists past, []].
  destruct (IH Hin) as (past' & rest & -> & Hpast & Hop). exists past', (rest ++ [last]). by rewrite <-app_assoc.
Qed.

(** Earlier operations know nothing of later ones. *)
Definition before p q : Prop := Operation.timestamp p ≠ Operation.timestamp q ∧ observes (Operation.version p) q = false.

Lemma log_sorted log : log_ok log → StronglySorted before log.
Proof.
  induction 1 as [|past op Hlog IH Hop]; [constructor|]. apply StronglySorted_app_2; [|done|repeat constructor].
  intros p q Hp ->%list_elem_of_singleton. by apply (entry_fresh _ _ Hop).
Qed.

Lemma log_before past op rest q : log_ok (past ++ op :: rest) → q ∈ rest → before op q.
Proof.
  intros Hlog%log_sorted%StronglySorted_app_1_r Hq. apply StronglySorted_inv in Hlog as [_ Hlog]. rewrite Forall_forall in Hlog. by apply Hlog.
Qed.

Lemma log_prefix past rest : log_ok (past ++ rest) → log_ok past.
Proof.
  induction rest as [|op rest IH] using rev_ind; [by rewrite app_nil_r|]. rewrite app_assoc. intros Hlog. apply IH.
  inversion Hlog as [Heq|past' op' Hpast Hop Heq]; [by destruct (past ++ rest)|]. by apply app_inj_tail in Heq as [-> ->].
Qed.

Lemma log_itself log op : log_ok log → op ∈ log → observes (Operation.version op) op = false.
Proof. intros Hlog Hop. destruct (log_entry _ _ Hlog Hop) as (past & rest & _ & _ & He). exact (entry_itself _ _ He). Qed.

Lemma log_timestamp log p q : log_ok log → p ∈ log → q ∈ log → Operation.timestamp p = Operation.timestamp q → p = q.
Proof.
  intros Hlog Hp Hq Heq. destruct (log_entry _ _ Hlog Hp) as (past & rest & -> & _ & He).
  apply elem_of_app in Hq as [Hq|[->|Hq]%elem_of_cons]; [|done|].
  - by destruct (proj1 (entry_fresh _ _ He q Hq)).
  - by destruct (proj1 (log_before _ _ _ _ Hlog Hq)).
Qed.

(** What an operation of the log has observed comes before it. *)
Lemma log_observed past op rest q : log_ok (past ++ op :: rest) → q ∈ past ++ op :: rest →
  observes (Operation.version op) q = true → q ∈ past.
Proof.
  intros Hlog [Hq|[->|Hq]%elem_of_cons]%elem_of_app Hobs; [done| |].
  - rewrite (log_itself _ op Hlog) in Hobs; [done|]. apply elem_of_app. right. by left.
  - destruct (log_before _ _ _ _ Hlog Hq). congruence.
Qed.

Lemma log_entry_at past op rest : log_ok (past ++ op :: rest) → entry_ok past op.
Proof.
  intros Hlog. assert (log_ok (past ++ [op])) as H by (apply (log_prefix _ rest); by rewrite <-app_assoc).
  inversion H as [Heq|past' op' Hpast Hop Heq]; [by destruct past|]. by apply app_inj_tail in Heq as [-> ->].
Qed.

(** The insertions there can be. *)
Definition insertion_of log t : Prop := (∃ a, a ∈ base ∧ t = atom_insertion a) ∨ ∃ op, op ∈ log ∧ t = Operation.timestamp op.

Lemma log_after_seen log op : log_ok log → op ∈ log → after_seen (insertion_of log) op.
Proof.
  intros Hlog Hop t Ht Hobs. destruct (list_elem_of_split _ _ Hop) as (past & rest & ->). pose proof (log_entry_at _ _ _ Hlog) as He.
  destruct Ht as [(a & Ha & ->)|(q & Hq & ->)].
  - pose proof (entry_base _ _ He) as Hb. rewrite Forall_forall in Hb. by apply Hb.
  - apply (entry_after _ _ He); [|done]. by eapply log_observed.
Qed.

Lemma base_inserted log : Forall (λ a, insertion_of log (atom_insertion a)) base.
Proof. apply Forall_forall. intros a Ha. left. by exists a. Qed.

(** *** Delivering an operation *)

Abbreviation applied_by log v := (filter (λ q, observes v q = true) log) (only parsing).

Lemma observed_observe v v' t t' : Global.observe v t = Some v' →
  Global.observed v' t' = true ↔ Global.observed v t' = true ∨ (Clock.replica_id t' = Clock.replica_id t ∧ (value t' <= value t)%N).
Proof.
  intros Hv'. unfold Global.observed. rewrite (GlobalFacts.get_observe _ _ _ _ Hv'), !N.leb_le. case_decide; [|naive_solver]. split; [|lia].
  intros Hle. destruct (N.le_gt_cases (value t') (Global.get v (Clock.replica_id t'))); [by left|right; split; [done|lia]].
Qed.

(** The versions of a replica tell apart the operations of the log. *)
Lemma deliver_observed log v v' op : log_ok log → op ∈ log → extends v (Operation.version op) →
  Global.observe v (Operation.timestamp op) = Some v' →
  ∀ q, q ∈ log → observes v' q = true ↔ observes v q = true ∨ q = op.
Proof.
  intros Hlog Hop Hext Hv' q Hq. unfold observes. rewrite (observed_observe _ _ _ _ Hv'). split; [|by intros [?| ->]; [left|right]].
  intros [?|[Hr Hvalue]]; [by left|]. destruct (list_elem_of_split _ _ Hop) as (past & rest & ->).
  apply elem_of_app in Hq as [Hq|[->|Hq]%elem_of_cons]; [|by right|].
  - left. apply Hext. exact (entry_own _ _ (log_entry_at _ _ _ Hlog) q Hq Hr).
  - exfalso. destruct (list_elem_of_split _ _ Hq) as (mid & rest' & ->).
    assert (past ++ op :: mid ++ q :: rest' = (past ++ op :: mid) ++ q :: rest') as Heq by (by rewrite <-app_assoc).
    rewrite Heq in Hlog. pose proof (log_entry_at _ _ _ Hlog) as He.
    assert (op ∈ past ++ op :: mid) as Hin by (apply elem_of_app; right; by left).
    pose proof (entry_after _ _ He op Hin (entry_own _ _ He op Hin (eq_sym Hr))) as Hlt.
    unfold cmp, Lamport_ord in Hlt. destruct (cmp (value (Operation.timestamp op)) (value (Operation.timestamp q))) eqn:Hc; try done.
    + rewrite Hr in Hlt. by rewrite cmp_refl in Hlt.
    + pose proof (proj1 (N.compare_lt_iff _ _) Hc). lia.
Qed.

Lemma deliver_cut log v v' op : log_ok log → cut log v → op ∈ log → observes v op = false → extends v (Operation.version op) →
  Global.observe v (Operation.timestamp op) = Some v' → cut log v'.
Proof.
  intros Hlog Hcut Hop Hnew Hext Hv'. assert (extends v' v) as Hvv by (intros t Ht; rewrite (observed_observe _ _ _ _ Hv'); by left). split.
  - intros t Ht. by apply Hvv, (cut_start _ _ Hcut).
  - intros q Hq Hobs. apply (deliver_observed _ _ _ _ Hlog Hop Hext Hv' q Hq) in Hobs as [Hobs| ->].
    + intros t Ht. by apply Hvv, (cut_closed _ _ Hcut q).
    + intros t Ht. by apply Hvv, Hext.
  - intros r. rewrite (GlobalFacts.get_observe _ _ _ _ Hv'). case_decide as Hr; [|exact (cut_exact _ _ Hcut r)].
    right. exists op. split; [done|]. unfold observes, Global.observed in Hnew. apply N.leb_gt in Hnew. subst r.
    rewrite N.max_r by lia. by destruct (Operation.timestamp op).
Qed.

Lemma filter_observed v v' log : (∀ q, q ∈ log → observes v' q = true ↔ observes v q = true) → applied_by log v' = applied_by log v.
Proof.
  intros Hlog. induction log as [|q log IH]; [done|]. rewrite !filter_cons, IH by (intros q' Hq'; apply Hlog; by right).
  pose proof (Hlog q (list_elem_of_here _ _)). repeat case_decide; try done; tauto.
Qed.

(** It comes last, wherever it stands in the log. *)
Lemma deliver_replay log v v' op : log_ok log → cut log v → op ∈ log → observes v op = false → extends v (Operation.version op) →
  Global.observe v (Operation.timestamp op) = Some v' →
  all_alike (replay log base (applied_by log v')) (applied log (replay log base (applied_by log v)) op).
Proof.
  intros Hlog Hcut Hop Hnew Hext Hv'. pose proof (deliver_observed _ _ _ _ Hlog Hop Hext Hv') as Hobs.
  pose proof (log_after_seen log) as Hafter. destruct (list_elem_of_split _ _ Hop) as (past & rest & Heq).
  assert (∀ q, q ∈ past ∨ q ∈ rest → observes v' q = true ↔ observes v q = true) as Hrest.
  { intros q Hq. rewrite Hobs by (subst; set_solver). split; [|tauto]. intros [?| ->]; [done|]. exfalso. subst log. destruct Hq as [Hq|Hq].
    - by destruct (proj1 (entry_fresh _ _ (log_entry_at _ _ _ Hlog) op Hq)).
    - by destruct (proj1 (log_before _ _ _ _ Hlog Hq)). }
  assert (applied_by log v' = applied_by past v ++ op :: applied_by rest v) as ->.
  { rewrite Heq, filter_app, filter_cons_True by (apply Hobs; [done|by right]).
    by rewrite (filter_observed v v' past), (filter_observed v v' rest) by (intros q Hq; apply Hrest; auto). }
  assert (applied_by log v = applied_by past v ++ applied_by rest v) as ->.
  { rewrite Heq, filter_app, filter_cons_False; [done|congruence]. }
  rewrite !replay_app. cbn [replay foldl]. apply (replay_after _ (insertion_of log)).
  - intros q [Hqv Hq]%list_elem_of_filter. assert (q ∈ log) as Hql by (subst; set_solver). split_and!; [|by apply Hafter|by right; exists q].
    subst log. destruct (log_before _ _ _ _ Hlog Hq) as [Hne Hpq]. split_and!; [done..|].
    destruct (observes (Operation.version q) op) eqn:Hqp; [|done]. assert (observes v op = true); [|congruence].
    exact (cut_closed _ _ Hcut q Hql Hqv _ Hqp).
  - by apply Hafter.
  - apply replay_all; [apply base_inserted|]. intros q [_ Hq]%list_elem_of_filter. apply (insertion_lasts (insertion_of log)). right. exists q. split; [|done]. subst. set_solver.
Qed.

Lemma filter_filter v w log : (∀ q, q ∈ log → observes w q = true → observes v q = true) →
  applied_by (applied_by log v) w = applied_by log w.
Proof.
  intros Hlog. induction log as [|q log IH]; [done|]. rewrite (filter_cons _ q log), (filter_cons (λ q, observes w q = true) q log).
  rewrite <-IH by (intros q' Hq'; apply Hlog; by right). pose proof (Hlog q (list_elem_of_here _ _)).
  destruct (decide (observes v q = true)) as [Hv|Hv]; [by rewrite filter_cons|].
  destruct (decide (observes w q = true)); [tauto|done].
Qed.

Lemma StronglySorted_filter_mono {B} (R : relation B) (P : B → Prop) `{!∀ x, Decision (P x)} (l : list B) :
  StronglySorted R l → StronglySorted R (filter P l).
Proof.
  induction 1 as [|x l _ IH Hx]; [constructor|]. rewrite filter_cons. case_decide; [|done]. constructor; [done|].
  rewrite Forall_forall in *. intros y [_ Hy]%list_elem_of_filter. by apply Hx.
Qed.

(** Its ranges lie in what its version has seen of the replica's text. *)
Lemma deliver_content log v edit : log_ok log → cut log v → Operation.Edit edit ∈ log → extends v (EditOperation.version edit) →
  length (EditOperation.ranges edit) = length (EditOperation.new_text edit) ∧ Forall str_ok (EditOperation.new_text edit) ∧
  (N.of_nat (inserted_len (operation_edits edit)) <= u32_max)%N ∧
  edits_within 0 (seen_of (EditOperation.version edit) (replay log base (applied_by log v))) (operation_edits edit).
Proof.
  intros Hlog Hcut Hop Hext. destruct (list_elem_of_split _ _ Hop) as (past & rest & Heq). set (w := EditOperation.version edit) in *.
  pose proof (log_after_seen log) as Hafter. pose proof Hlog as Hlog'. rewrite Heq in Hlog'. pose proof (log_entry_at _ _ _ Hlog') as He.
  destruct (entry_content _ _ He) as (? & ? & ? & Hwithin). split_and!; [done..|].
  assert (∀ q, q ∈ log → observes w q = true → q ∈ past) as Hpast.
  { intros q Hq Hwq. rewrite Heq in Hq. by eapply log_observed. }
  rewrite (replay_seen_of log (insertion_of log)).
  - rewrite filter_filter by (intros q _; apply Hext).
    assert (applied_by log w = applied_by past w) as ->.
    { rewrite Heq, filter_app. assert (applied_by (Operation.Edit edit :: rest) w = []) as ->; [|apply app_nil_r].
      destruct (applied_by (Operation.Edit edit :: rest) w) as [|q l] eqn:Hf; [done|]. exfalso. assert (q ∈ q :: l) as Hq by left. rewrite <-Hf in Hq.
      apply list_elem_of_filter in Hq as [Hwq Hq]. assert (q ∈ past) as Hqp by (apply Hpast; [rewrite Heq; set_solver|done]).
      apply elem_of_cons in Hq as [->|Hq].
      - by destruct (proj1 (entry_fresh _ _ He _ Hqp)).
      - destruct (list_elem_of_split _ _ Hq) as (mid & rest' & ->). rewrite app_comm_cons, app_assoc in Hlog'.
        by destruct (proj1 (entry_fresh _ _ (log_entry_at _ _ _ Hlog') q ltac:(set_solver))). }
    erewrite alike_seen_of; [exact Hwithin|]. apply replay_alike; [|done]. intros q q' [_ Hq]%list_elem_of_filter Hobs.
    split; [|subst; set_solver]. intros Hq'. destruct (list_elem_of_split _ _ Hq) as (mid & rest' & ->). rewrite Heq in Hq'. rewrite <-app_assoc in Hlog', Hq'.
    assert (q' ∈ mid); [|set_solver]. by eapply log_observed.
  - apply StronglySorted_filter_mono. by apply log_sorted.
  - intros q [_ Hq]%list_elem_of_filter. split; [by apply Hafter|]. right. by exists q.
  - intros q [_ Hq]%list_elem_of_filter Hwq. apply (cut_closed _ _ (entry_cut _ _ He) q); [|done]. by apply Hpast.
  - apply base_inserted.
Qed.

(** *** A new operation *)

Lemma cut_extend past op v : cut past v → observes v op = false → cut (past ++ [op]) v.
Proof.
  intros [Hs Hc He] Hop. split; [done| |].
  - intros q [Hq|Hq%list_elem_of_singleton]%elem_of_app Hobs; [by apply Hc|]. subst. congruence.
  - intros r. destruct (He r) as [?|(q & Hq & ?)]; [by left|]. right. exists q. split; [|done]. apply elem_of_app. by left.
Qed.

Lemma replay_extend past op v : log_ok (past ++ [op]) → observes v op = false →
  all_alike (replay (past ++ [op]) base (applied_by (past ++ [op]) v)) (replay past base (applied_by past v)).
Proof.
  intros Hlog Hop. rewrite filter_app, (filter_cons_False _ op) by congruence. rewrite app_nil_r. apply replay_alike; [|done].
  intros q q' [_ Hq]%list_elem_of_filter Hobs. split; [|set_solver]. intros [Hq'| ->%list_elem_of_singleton]%elem_of_app; [done|].
  pose proof (proj2 (entry_fresh _ _ (log_entry_at past op [] Hlog) q Hq)). congruence.
Qed.
End log.
