(* ===== verification/Buffer.v ===== *)
(** * Buffers ([crates/text/src/text.rs])

    A buffer is a snapshot of its text, the history of its edits, a clock for its
    own operations and a queue for those of other replicas that it cannot apply
    yet.  The patches its subscribers share with it are the cells of a heap, which
    the buffer owns here.  What waits for operations to arrive (one-shot channels)
    is left out, and the current time is an argument. *)

From S2P Require Import Prelude Clock Locator SumTree SumTreeFacts Cursor Keyed UndoMap TreeMap Patch PatchFacts Subscription Points Utf8 TextSummary RopeTree Rope LineEnding Operation OperationQueue History Fragment Snapshot Undo Remote.

(** [struct BufferId(NonZeroU64)] *)
Module BufferId.
Abbreviation t := N (only parsing).

(** The error for zero is [None]. *)
Definition new (id : N) : option t := if (id =? 0)%N then None else Some id.
(** Returns the old id and the new one; the increment saturates. *)
Definition next (self : t) : t * t := (self, N.min (self + 1) u64_max).
Definition to_proto (self : t) : N := self.
End BufferId.

(** [impl operation_queue::Operation for Operation] *)
#[global] Instance Operation_queued : QueuedOperation Operation := Operation.timestamp.

(** [trait ToOffset] *)
Class ToOffset (S : Type) := to_offset : S → BufferSnapshot → option nat.
#[global] Instance Point_to_offset : ToOffset Point := λ self snapshot, Rope.point_to_offset (visible_text snapshot) self.
#[global] Instance usize_to_offset : ToOffset nat := λ self snapshot,
  boundary ← Rope.assert_char_boundary true (visible_text snapshot) self;
  if (boundary : bool) then Some self else Rope.floor_char_boundary (visible_text snapshot) self.
#[global] Instance PointUtf16_to_offset : ToOffset PointUtf16 := λ self snapshot,
  Rope.point_utf16_to_offset (visible_text snapshot) self.

(** The ranges of edits as offsets. *)
Fixpoint edits_to_offsets {S} `{ToOffset S} (snapshot : BufferSnapshot) (edits : list ((S * S) * str)) : option (list (Range * str)) :=
  match edits with
  | [] => Some []
  | ((start, end_), new_text) :: edits =>
      start ← to_offset start snapshot;
      end_ ← to_offset end_ snapshot;
      edits ← edits_to_offsets snapshot edits;
      Some ((Range.mk start end_, new_text) :: edits)
  end.

(** Assignments to fields of a snapshot. *)
Definition with_version (self : BufferSnapshot) (version : Global) : BufferSnapshot :=
  mkSnapshot (visible_text self) (deleted_text self) (fragments self) (insertions self) (snapshot_slices self) (undo_map self)
    version (snapshot_remote_id self) (snapshot_replica_id self) (snapshot_line_ending self).
Definition with_line_ending (self : BufferSnapshot) (line_ending : LineEnding) : BufferSnapshot :=
  mkSnapshot (visible_text self) (deleted_text self) (fragments self) (insertions self) (snapshot_slices self) (undo_map self)
    (snapshot_version self) (snapshot_remote_id self) (snapshot_replica_id self) line_ending.

(** [struct EditedBufferSnapshot] *)
Module EditedBufferSnapshot.
Record t := mk { base_version : Global; snapshot : BufferSnapshot; did_edit : bool }.
End EditedBufferSnapshot.
Abbreviation EditedBufferSnapshot := EditedBufferSnapshot.t (only parsing).

(** [struct Buffer] *)
Module Buffer.
Record t := mk {
  snapshot : BufferSnapshot;
  history : History;
  deferred_ops : @OperationQueue.t Operation;
  deferred_replicas : gset ReplicaId;
  lamport_clock : Lamport;
  subscriptions : Topic;
  patches : Heap;
}.
Implicit Types self : t.

Definition set_snapshot self snapshot : t :=
  mk snapshot (history self) (deferred_ops self) (deferred_replicas self) (lamport_clock self) (subscriptions self) (patches self).
Definition set_history self history : t :=
  mk (snapshot self) history (deferred_ops self) (deferred_replicas self) (lamport_clock self) (subscriptions self) (patches self).
Definition set_deferred self deferred_ops deferred_replicas : t :=
  mk (snapshot self) (history self) deferred_ops deferred_replicas (lamport_clock self) (subscriptions self) (patches self).
Definition set_clock self lamport_clock : t :=
  mk (snapshot self) (history self) (deferred_ops self) (deferred_replicas self) lamport_clock (subscriptions self) (patches self).
Definition set_topic self subscriptions patches : t :=
  mk (snapshot self) (history self) (deferred_ops self) (deferred_replicas self) (lamport_clock self) subscriptions patches.

(** *** Making a buffer *)

(** The loop of [new_normalized] over the parts of the text; every iteration
    takes a part. *)
Fixpoint base_loop (fuel : nat) (visible_text : Rope) (insertion_timestamp : Lamport) (insertion_offset : N) (text_offset : nat)
    (prev_locator : Locator) (fragments : SumTree Fragment FragmentSummary)
    (insertions : SumTree InsertionFragment InsertionFragmentKey) :
    option (SumTree Fragment FragmentSummary * SumTree InsertionFragment InsertionFragmentKey) :=
  let len := Rope.len visible_text in
  if text_offset <? len then
    match fuel with
    | 0 => None
    | S fuel =>
        let target_end :=
          if (N.of_nat (len - text_offset) <=? MAX_INSERTION_LEN)%N then len
          else text_offset + N.to_nat MAX_INSERTION_LEN in
        chunk_end ← (if target_end =? len then Some target_end else Rope.floor_char_boundary visible_text target_end);
        chunk_len ← checked_sub_nat chunk_end text_offset;
        fragment_id ← Locator.between prev_locator Locator.max;
        let fragment := Fragment.mk fragment_id insertion_timestamp insertion_offset (as_u32 chunk_len) true [] Global.new in
        insertions ← SumTree.push insertions (InsertionFragment.new fragment);
        _ ← Fragment.summary fragment;
        fragments ← SumTree.push fragments fragment;
        insertion_offset ← checked_add u32_max insertion_offset (as_u32 chunk_len);
        base_loop fuel visible_text insertion_timestamp insertion_offset chunk_end fragment_id fragments insertions
    end
  else Some (fragments, insertions).

Definition new_normalized (replica_id : ReplicaId) (remote_id : BufferId.t) (line_ending : LineEnding) (normalized : Rope) : option t :=
  let history := History.new normalized in
  let lamport_clock := Lamport.new replica_id in
  let visible_text := History.base_text history in
  '(fragments, insertions, lamport_clock, version) ←
    (if Rope.is_empty visible_text then Some (SumTree.new, SumTree.new, lamport_clock, Global.new)
     else
       let insertion_timestamp := Lamport.new LOCAL in
       lamport_clock ← Lamport.observe lamport_clock insertion_timestamp;
       version ← Global.observe Global.new insertion_timestamp;
       '(fragments, insertions) ←
         base_loop (Rope.len visible_text) visible_text insertion_timestamp 0 0 Locator.min SumTree.new SumTree.new;
       Some (fragments, insertions, lamport_clock, version));
  Some (mk (mkSnapshot visible_text Rope.new fragments insertions TreeMap.default UndoMap.default version remote_id replica_id line_ending)
    history OperationQueue.new ∅ lamport_clock [] (mkHeap ∅ 0)).

Section buffer.
Context `{LineSeparators}.

Definition new (replica_id : ReplicaId) (remote_id : BufferId.t) (base_text : str) : option t :=
  line_ending ← LineEnding.detect base_text;
  rope ← Rope.from_str (LineEnding.normalize base_text);
  new_normalized replica_id remote_id line_ending rope.

Definition version self : Global := snapshot_version (snapshot self).
Definition base_text self : Rope := History.base_text (history self).

Definition branch self : t :=
  mk (snapshot self) (History.new (base_text self)) OperationQueue.new ∅ (Lamport.new LOCAL_BRANCH) [] (mkHeap ∅ 0).

Definition replica_id self : ReplicaId := Clock.replica_id (lamport_clock self).
Definition remote_id self : BufferId.t := snapshot_remote_id (snapshot self).
Definition deferred_ops_len self : nat := OperationQueue.len (deferred_ops self).
Definition has_deferred_ops self : bool := negb (OperationQueue.is_empty (deferred_ops self)).
Definition transaction_group_interval self : Duration := History.group_interval (history self).
Definition operations self : @TreeMap.t Lamport Operation := History.operations (history self).

Definition set_line_ending self (line_ending : LineEnding) : t := set_snapshot self (with_line_ending (snapshot self) line_ending).

(** *** Transactions *)

Definition start_transaction_at self (now : Instant) : option (t * option TransactionId) :=
  '(history, lamport_clock, id) ← History.start_transaction (history self) (version self) now (lamport_clock self);
  Some (set_clock (set_history self history) lamport_clock, id).

Definition end_transaction_at self (now : Instant) : option (t * option (TransactionId * Global)) :=
  '(history, entry) ← History.end_transaction (history self) now;
  match entry with
  | Some entry =>
      let since := Transaction.start (HistoryEntry.transaction entry) in
      '(history, id) ← History.group history;
      id ← id;
      Some (set_history self history, Some (id, since))
  | None => Some (set_history self history, None)
  end.

Definition finalize_last_transaction self : t * option Transaction :=
  let '(history, transaction) := History.finalize_last_transaction (history self) in (set_history self history, transaction).

Definition group_until_transaction self (transaction_id : TransactionId) : option t :=
  history ← History.group_until (history self) transaction_id; Some (set_history self history).

Definition peek_undo_stack self : option HistoryEntry := last (History.undo_stack (history self)).
Definition peek_redo_stack self : option HistoryEntry := last (History.redo_stack (history self)).

Definition forget_transaction self (transaction_id : TransactionId) : option (t * option Transaction) :=
  '(history, transaction) ← History.forget (history self) transaction_id; Some (set_history self history, transaction).

Definition get_transaction self (transaction_id : TransactionId) : option Transaction :=
  History.transaction (history self) transaction_id.

Definition merge_transactions self (transaction destination : TransactionId) : option t :=
  history ← History.merge_transactions (history self) transaction destination; Some (set_history self history).

Definition push_transaction self (transaction : Transaction) (now : Instant) : option t :=
  history ← History.push_transaction (history self) transaction now; Some (set_history self history).

Definition push_empty_transaction self (now : Instant) : option (t * TransactionId) :=
  '(history, lamport_clock, id) ← History.push_empty_transaction (history self) (version self) now (lamport_clock self);
  Some (set_clock (set_history self history) lamport_clock, id).

Definition set_group_interval self (group_interval : Duration) : t :=
  let history := history self in
  set_history self (History.mk (History.base_text history) (History.operations history) (History.undo_stack history)
    (History.redo_stack history) (History.transaction_depth history) group_interval).

(** *** Edits *)

(** [subscriptions.publish_mut] *)
Definition publish self (edits_patch : Patch.t) : option t :=
  '(subscriptions, patches) ← Topic.publish (subscriptions self) (patches self) edits_patch;
  Some (set_topic self subscriptions patches).

Definition observe_version self (timestamp : Lamport) : option t :=
  version ← Global.observe (version self) timestamp; Some (set_snapshot self (with_version (snapshot self) version)).

Definition observe_clock self (timestamp : Lamport) : option t :=
  lamport_clock ← Lamport.observe (lamport_clock self) timestamp; Some (set_clock self lamport_clock).

Definition apply_local_edit {S} `{ToOffset S} self (edits : list ((S * S) * str)) (timestamp : Lamport) :
    option (t * EditOperation) :=
  edits ← edits_to_offsets (snapshot self) edits;
  '(snapshot, edit_op, edits_patch) ← BufferSnapshot.apply_edit_internal timestamp (snapshot self) edits;
  self ← publish (set_snapshot self snapshot) edits_patch;
  Some (self, edit_op).

Definition push_history self (op : Operation) : option t :=
  history ← History.push (history self) op; Some (set_history self history).

(** The times are those at which the transaction starts and ends. *)
Definition edit {S} `{ToOffset S} self (edits : list ((S * S) * str)) (now now' : Instant) : option (t * Operation) :=
  '(self, _) ← start_transaction_at self now;
  '(lamport_clock, timestamp) ← Lamport.tick (lamport_clock self);
  '(self, edit_op) ← apply_local_edit (set_clock self lamport_clock) edits timestamp;
  let operation := Operation.Edit edit_op in
  self ← push_history self operation;
  history ← History.push_undo (history self) (Operation.timestamp operation);
  self ← observe_version (set_history self history) (Operation.timestamp operation);
  '(self, _) ← end_transaction_at self now';
  Some (self, operation).

(** *** Undo and redo *)

(** [apply_undo] with the publication of the patch. *)
Definition apply_undo self (undo : UndoOperation) : option t :=
  '(snapshot, edits) ← UndoEdits.apply_undo (snapshot self) undo;
  publish (set_snapshot self snapshot) edits.

Definition undo_operations self (counts : gmap Lamport N) : option (t * Operation) :=
  '(lamport_clock, timestamp) ← Lamport.tick (lamport_clock self);
  let version := version self in
  self ← observe_version (set_clock self lamport_clock) timestamp;
  let undo := mkUndoOperation timestamp version counts in
  self ← apply_undo self undo;
  Some (self, Operation.Undo undo).

(** The loop of [undo_or_redo]; the count saturates. *)
Fixpoint count_undos (undo_map : UndoMap.t) (counts : gmap Lamport N) (edit_ids : list Lamport) : option (gmap Lamport N) :=
  match edit_ids with
  | [] => Some counts
  | edit_id :: edit_ids =>
      undo_count ← UndoMap.undo_count undo_map edit_id;
      count_undos undo_map (<[edit_id := N.min (undo_count + 1) u32_max]> counts) edit_ids
  end.

Definition undo_or_redo self (transaction : Transaction) : option (t * Operation) :=
  counts ← count_undos (undo_map (snapshot self)) ∅ (Transaction.edit_ids transaction);
  '(self, operation) ← undo_operations self counts;
  self ← push_history self operation;
  Some (self, operation).

Definition undo self : option (t * option (TransactionId * Operation)) :=
  '(history, entry) ← History.pop_undo (history self);
  let self := set_history self history in
  match entry with
  | Some entry =>
      let transaction := HistoryEntry.transaction entry in
      '(self, op) ← undo_or_redo self transaction;
      Some (self, Some (Transaction.id transaction, op))
  | None => Some (self, None)
  end.

Definition redo self : option (t * option (TransactionId * Operation)) :=
  '(history, entry) ← History.pop_redo (history self);
  let self := set_history self history in
  match entry with
  | Some entry =>
      let transaction := HistoryEntry.transaction entry in
      '(self, op) ← undo_or_redo self transaction;
      Some (self, Some (Transaction.id transaction, op))
  | None => Some (self, None)
  end.

Definition undo_transaction self (transaction_id : TransactionId) : option (t * option Operation) :=
  '(history, entry) ← History.remove_from_undo (history self) transaction_id;
  let self := set_history self history in
  match entry with
  | Some entry =>
      '(self, op) ← undo_or_redo self (HistoryEntry.transaction entry);
      Some (self, Some op)
  | None => Some (self, None)
  end.

(** The common end of the two that follow. *)
Fixpoint undo_or_redo_all self (transactions : list Transaction) : option (t * list Operation) :=
  match transactions with
  | [] => Some (self, [])
  | transaction :: transactions =>
      '(self, op) ← undo_or_redo self transaction;
      '(self, ops) ← undo_or_redo_all self transactions;
      Some (self, op :: ops)
  end.

Definition undo_to_transaction self (transaction_id : TransactionId) : option (t * list Operation) :=
  '(history, entries) ← History.remove_from_undo_until (history self) transaction_id;
  undo_or_redo_all (set_history self history) (map HistoryEntry.transaction entries).

Definition redo_to_transaction self (transaction_id : TransactionId) : option (t * list Operation) :=
  '(history, entries) ← History.remove_from_redo (history self) transaction_id;
  undo_or_redo_all (set_history self history) (map HistoryEntry.transaction entries).

(** *** Operations of other replicas *)

Definition can_apply_op self (op : Operation) : bool :=
  if decide (Operation.replica_id op ∈ deferred_replicas self) then false
  else Global.observed_all (version self) (Operation.version op).

(** [resolve_edit] and the notifications of those who wait are left out. *)
Definition apply_op self (op : Operation) : option t :=
  if Global.observed (version self) (Operation.timestamp op) then Some self
  else
    self ←
      match op with
      | Operation.Edit edit =>
          '(snapshot, edits_patch) ← RemoteEdit.apply_remote_edit (EditOperation.version edit) (EditOperation.timestamp edit)
            (snapshot self) (EditOperation.ranges edit) (EditOperation.new_text edit);
          let self := set_snapshot self snapshot in
          match edits_patch with Some edits_patch => publish self edits_patch | None => Some self end
      | Operation.Undo undo => apply_undo self undo
      end;
    self ← observe_version self (Operation.timestamp op);
    observe_clock self (Operation.timestamp op).

(** Also returns the operations that are to be deferred. *)
Definition try_apply (st : t * list Operation) (op : Operation) : option (t * list Operation) :=
  let '(self, deferred) := st in
  if can_apply_op self op then self ← apply_op self op; Some (self, deferred)
  else Some (set_deferred self (deferred_ops self) ({[ Operation.replica_id op ]} ∪ deferred_replicas self), deferred ++ [op]).

Fixpoint flush_loop (st : t * list Operation) (ops : list Operation) : option (t * list Operation) :=
  match ops with [] => Some st | op :: ops => st ← try_apply st op; flush_loop st ops end.

Definition defer self (ops : list Operation) : option t :=
  deferred_ops ← OperationQueue.insert (deferred_ops self) ops; Some (set_deferred self deferred_ops (deferred_replicas self)).

Definition flush_deferred_ops self : option t :=
  let '(emptied, drained) := OperationQueue.drain (deferred_ops self) in
  let self := set_deferred self emptied ∅ in
  ops ← OperationQueue.iter drained;
  '(self, deferred) ← flush_loop (self, []) ops;
  defer self deferred.

Fixpoint apply_loop (st : t * list Operation) (ops : list Operation) : option (t * list Operation) :=
  match ops with
  | [] => Some st
  | op :: ops => self ← push_history st.1 op; st ← try_apply (self, st.2) op; apply_loop st ops
  end.

Definition apply_ops self (ops : list Operation) : option t :=
  '(self, deferred) ← apply_loop (self, []) ops;
  self ← defer self deferred;
  flush_deferred_ops self.

(** *** Subscriptions and snapshots *)

(** Returns the address the subscription owns. *)
Definition subscribe self : t * nat :=
  let '(subscriptions, patches, subscription) := Topic.subscribe (subscriptions self) (patches self) in
  (set_topic self subscriptions patches, subscription).

Definition snapshot_with_edits {S} `{ToOffset S} self (edits : list ((S * S) * str)) : option (t * EditedBufferSnapshot) :=
  let base_version := version self in
  edits ← edits_to_offsets (snapshot self) edits;
  match edits with
  | [] => Some (self, EditedBufferSnapshot.mk base_version (snapshot self) false)
  | _ =>
      '(lamport_clock, timestamp) ← Lamport.tick (lamport_clock self);
      '(snapshot, _, _) ← BufferSnapshot.apply_edit_internal timestamp (snapshot self) edits;
      version ← Global.observe (snapshot_version snapshot) timestamp;
      Some (set_clock self lamport_clock, EditedBufferSnapshot.mk base_version (with_version snapshot version) true)
  end.

Fixpoint observe_all self (timestamps : list Lamport) : option t :=
  match timestamps with [] => Some self | timestamp :: timestamps => self ← observe_clock self timestamp; observe_all self timestamps end.

Definition fast_forward self (edited : EditedBufferSnapshot) : option t :=
  _ ← rassert (negb (Global.changed_since (version self) (EditedBufferSnapshot.base_version edited)));
  observe_all (set_snapshot self (EditedBufferSnapshot.snapshot edited))
    (Global.iter (snapshot_version (EditedBufferSnapshot.snapshot edited))).
End buffer.
End Buffer.
Abbreviation Buffer := Buffer.t (only parsing).
