(* ===== verification/BufferFacts.v ===== *)
(** * Buffers are well formed

    What holds of a buffer between any two calls: its snapshot is consistent with
    the atoms it stands for, its clock is ahead of every timestamp in use, its
    history can be undone, and its subscribers have pending what changed since
    they last looked. *)

From S2P Require Import Prelude Clock Locator SumTree SumTreeFacts Seek Cursor CursorFacts CursorWalk Keyed KeyedFacts UndoMap TreeMap TreeMapFacts Patch PatchFacts Subscription Points Utf8 TextSummary RopeTree Rope RopeFacts RopeSeek RopeCut LineEnding LineEndingFacts Operation OperationQueue History HistoryFacts Fragment FragmentFacts Snapshot EditSpec EditInv EditState EditSteps EditFinish EditFacts Undo UndoFinds UndoFacts Remote Buffer.

Import Buffer.

Implicit Types (self : Buffer) (L : list piece) (s : str).

(** ** The invariant *)

(** The timestamps a snapshot mentions. *)
Definition used (snapshot : BufferSnapshot) L (t : Lamport) : Prop :=
  (∃ a, a ∈ atoms L ∧ (t = atom_insertion a ∨ t ∈ atom_deletions a)) ∨
  (∃ x, x ∈ to_list (undo_map snapshot) ∧ (t = UndoMap.edit_id (UndoMap.entry_key x) ∨ t = undo_id (UndoMap.entry_key x))).

(** The bytes of the text, which subscribers follow. *)
Definition text_bytes L : list N := Str.as_bytes (visible_of (atoms L)).

(** An edit that can be undone. *)
Definition undoable (clock id : Lamport) : Prop := older clock id ∧ id ≠ base_timestamp.

(** [known]: what each subscriber last saw. *)
Record buffer_ok self L (known : gmap nat (list N)) : Prop := {
  buffer_snapshot : snapshot_ok (snapshot self) L;
  buffer_clock : observable (lamport_clock self);
  buffer_version : canonical (version self);
  buffer_used t : used (snapshot self) L t → older (lamport_clock self) t;
  buffer_history : history_ok (history self) (lamport_clock self);
  buffer_edits id : id ∈ edits (history self) → undoable (lamport_clock self) id;
  buffer_operations : tree_ok (operations self) ∧ keys_sorted (to_list (operations self));
  buffer_open : History.transaction_depth (history self) ≠ 0 → (2 <= value (lamport_clock self))%N;
  buffer_subscribers : invariant (mkState (text_bytes L) (subscriptions self) (patches self) known);
  buffer_queue : queue_ok (deferred_ops self);
}.

(** The trees are not higher than the path of a cursor. *)
Record buffer_fits self : Prop := {
  buffer_snapshot_fits : snapshot_fits (snapshot self);
  buffer_operations_fit : Node.height (operations self) < STACK_CAPACITY;
  buffer_queue_fits : Node.height (deferred_ops self) < STACK_CAPACITY;
}.

(** ** New buffers *)

Lemma id_ok_first : ∃ id, Locator.between Locator.min Locator.max = Some id ∧ id_ok id.
Proof.
  destruct (Locator.between_spec Locator.min Locator.max) as (m & Hm & Hlo & Hhi & Hd & Hp & _); try by repeat constructor.
  by exists m.
Qed.

Definition base_fragment (id : Locator) s : Fragment :=
  Fragment.mk id base_timestamp 0 (N.of_nat (Str.len s)) true [] Global.new.

Lemma base_observable : observable base_timestamp.
Proof. by split. Qed.

Lemma base_whole id s : str_ok s → s ≠ [] → (N.of_nat (Str.len s) <= u32_max)%N → whole (base_fragment id s, s).
Proof.
  intros Hs Hne Hlen. split; simpl; [|done|done|done|lia].
  split; [apply base_observable|]. split; [constructor|]. apply new_canonical.
Qed.

Lemma push_new {T S} `{SummaryLaws S, !Item T S} (x : T) :
  ∃ t, SumTree.push SumTree.new x = Some t ∧ tree_ok t ∧ to_list t = [x] ∧ Node.height t = 0.
Proof. destruct (push_ok SumTree.new x (or_introl eq_refl)) as (t & Ht & Hok & Hl). exists t. split_and!; [done..|]. cbn in Ht. by injection Ht as <-. Qed.

(** The pieces of a new buffer. *)
Definition base_pieces (id : Locator) s : list piece := match s with [] => [] | _ => [(base_fragment id s, s)] end.

Lemma base_atoms id s : atoms (base_pieces id s) = inserted base_timestamp 0 s.
Proof. destruct s as [|c s']; [done|]. cbn [base_pieces]. rewrite atoms_one. by apply atoms_from_ext. Qed.

Lemma base_loop_step n r ts prev id frs ins frs' ins' : 0 < Rope.len r → (N.of_nat (Rope.len r) <= u32_max)%N →
  Locator.between prev Locator.max = Some id →
  let f := Fragment.mk id ts 0 (N.of_nat (Rope.len r)) true [] Global.new in
  SumTree.push ins (InsertionFragment.new f) = Some ins' → is_Some (Fragment.summary f) → SumTree.push frs f = Some frs' →
  base_loop (S n) r ts 0 0 prev frs ins = base_loop n r ts (N.of_nat (Rope.len r)) (Rope.len r) id frs' ins'.
Proof.
  intros Hpos Hlen Hid f Hins [d Hd] Hfrs. cbn [base_loop]. rewrite (proj2 (Nat.ltb_lt 0 _)) by done. rewrite Nat.sub_0_r.
  rewrite (proj2 (N.leb_le _ _)) by (unfold MAX_INSERTION_LEN; lia). rewrite Nat.eqb_refl. cbn [mbind option_bind].
  unfold checked_sub_nat. rewrite Nat.sub_0_r. rewrite rassert_true by done. cbn [mbind option_bind]. rewrite Hid. cbn [mbind option_bind].
  cbv beta. rewrite as_u32_small by done. fold f. rewrite Hins. cbn [mbind option_bind]. rewrite Hd. cbn [mbind option_bind]. rewrite Hfrs. cbn [mbind option_bind].
  unfold checked_add. rewrite N.add_0_l, (proj2 (N.leb_le _ _)) by done. done.
Qed.

Lemma base_loop_end n r ts off id frs ins : base_loop n r ts off (Rope.len r) id frs ins = Some (frs, ins).
Proof. destruct n; cbn [base_loop]; by rewrite Nat.ltb_irrefl. Qed.

Lemma base_loop_spec r s : holds r s → str_ok s → s ≠ [] → (N.of_nat (Str.len s) <= u32_max)%N →
  ∃ id fragments insertions, base_loop (Rope.len r) r base_timestamp 0 0 Locator.min SumTree.new SumTree.new = Some (fragments, insertions) ∧
    id_ok id ∧ tree_ok fragments ∧ to_list fragments = [base_fragment id s] ∧ tree_ok insertions ∧
    to_list insertions = [InsertionFragment.new (base_fragment id s)] ∧ Node.height fragments = 0 ∧ Node.height insertions = 0.
Proof.
  intros Hr Hs Hne Hlen. pose proof (str_nonempty _ Hne) as Hpos. rewrite <-(holds_len _ _ Hr) in Hpos, Hlen.
  destruct id_ok_first as (id & Hid & Hidok). exists id. assert (∃ n, Rope.len r = S n) as [n Hn] by (exists (Nat.pred (Rope.len r)); lia).
  destruct (push_new (InsertionFragment.new (base_fragment id s))) as (ins & Hins & Hiok & Hil & Hih).
  destruct (push_new (base_fragment id s)) as (frs & Hfrs & Hfok & Hfl & Hfh).
  assert (is_Some (Fragment.summary (base_fragment id s))) as Hsum.
  { rewrite (holds_len _ _ Hr) in Hlen. destruct (fragment_summary (base_fragment id s)) as (d & -> & _); [by apply (base_whole id s Hs Hne)|by eexists]. }
  exists frs, ins. split; [|by split_and!]. unfold base_fragment in Hins, Hfrs, Hsum. rewrite <-(holds_len _ _ Hr) in Hins, Hfrs, Hsum.
  rewrite Hn at 1. rewrite (base_loop_step n r base_timestamp Locator.min id SumTree.new SumTree.new frs ins) by done. apply base_loop_end.
Qed.

Lemma tree_new_ok {T S} `{Summary S, !Item T S} : tree_ok (SumTree.new : SumTree T S).
Proof. by left. Qed.

(** The snapshot of a new buffer. *)
Lemma base_snapshot_ok id frs ins r s version remote_id replica_id line_ending : holds r s → str_ok s →
  (N.of_nat (Str.len s) <= u32_max)%N → id_ok id → tree_ok frs → to_list frs = map fst (base_pieces id s) → tree_ok ins →
  to_list ins = map (λ p, InsertionFragment.new p.1) (base_pieces id s) →
  snapshot_ok (mkSnapshot r Rope.new frs ins TreeMap.default UndoMap.default version remote_id replica_id line_ending)
    (base_pieces id s).
Proof.
  intros Hr Hs Hlen Hid Hfok Hfl Hiok Hil.
  pose proof (base_atoms id s) as Hatoms.
  assert (visible_of (inserted base_timestamp 0 s) = s) as Hv by (unfold inserted; by rewrite visible_of_atoms_from).
  split; cbn [visible_text deleted_text fragments insertions snapshot_slices undo_map]; rewrite ?Hatoms, ?Hil; try done.
  - destruct s as [|c s']; constructor; [|done]. by apply base_whole.
  - destruct s as [|c s']; (split; [|repeat constructor]); repeat constructor; apply Hid.
  - unfold inserted. rewrite bytes_of_atoms_from. apply stretch_NoDup.
  - by rewrite Hv.
  - unfold inserted. rewrite deleted_of_atoms_from. apply holds_new.
  - split; [done|]. destruct s; repeat constructor.
  - by split; [apply tree_new_ok|constructor].
  - intros a t Ha [Hne [Ht|Ht]]; apply inserted_elem in Ha as (Hi & Hd & _).
    + by rewrite Hi in Ht.
    + rewrite Hd in Ht. by apply not_elem_of_nil in Ht.
  - by split; [apply tree_new_ok|constructor].
  - intros a Ha. apply inserted_elem in Ha as (Hi & Hd & Hvis). unfold shown. by rewrite Hi, Hd, Hvis.
Qed.

(** A buffer with a new history. *)
Lemma base_buffer_ok id frs ins r s clock version remote replica le : holds r s → replaceable r → (N.of_nat (Str.len s) <= u32_max)%N →
  id_ok id → tree_ok frs → to_list frs = map fst (base_pieces id s) → tree_ok ins →
  to_list ins = map (λ p, InsertionFragment.new p.1) (base_pieces id s) → Node.height frs = 0 → Node.height ins = 0 →
  observable clock → (s ≠ [] → value clock = 2%N) → canonical version →
  let self := mk (mkSnapshot r Rope.new frs ins TreeMap.default UndoMap.default version remote replica le)
    (History.new r) OperationQueue.new ∅ clock [] (mkHeap ∅ 0) in
  buffer_ok self (base_pieces id s) ∅ ∧ buffer_fits self.
Proof.
  intros Hr Hrep Hlen Hid Hfok Hfl Hiok Hil Hfh Hih Hclock Htwo Hversion self. pose proof (holds_str_ok _ _ Hr) as Hs.
  pose proof (base_snapshot_ok id frs ins r s version remote replica le Hr Hs Hlen Hid Hfok Hfl Hiok Hil) as Hsnap.
  split; split; unfold self; cbn [snapshot lamport_clock history patches subscriptions deferred_ops]; try done.
  - intros t [(a & Ha & Ht)|(x & Hx%not_elem_of_nil & _)]; [|done]. destruct s as [|c s']; [by apply not_elem_of_nil in Ha|].
    cbn [base_pieces] in Ha. rewrite atoms_one in Ha. unfold atoms_of in Ha. apply atoms_from_elem in Ha as (Hi & Hd & _).
    rewrite Hi, Hd in Ht. destruct Ht as [->|Ht%not_elem_of_nil]; [|done]. intros _. rewrite Htwo by done. simpl. lia.
  - split; [apply NoDup_nil_2|constructor|done].
  - intros id' Hid'. by apply not_elem_of_nil in Hid'.
  - split; [apply tree_new_ok|constructor].
  - apply invariant_init.
  - apply new_queue_ok.
  - split; cbn [fragments insertions visible_text deleted_text snapshot_slices undo_map]; try (rewrite ?Hfh, ?Hih; cbn; change STACK_CAPACITY with 16; lia).
    + exact Hrep.
    + unfold replaceable, slice_height. cbn. change STACK_CAPACITY with 16. lia.
    + by rewrite (holds_len _ _ Hr).
  - cbn. change STACK_CAPACITY with 16. lia.
  - cbn. change STACK_CAPACITY with 16. lia.
Qed.

(** What every replica of a text starts with. *)
Definition base_version s : Global := match s with [] => Global.new | _ => mkGlobal [1%N] end.

Record begins self L s : Prop := {
  begins_atoms : atoms L = inserted base_timestamp 0 s;
  begins_version : version self = base_version s;
  begins_undos : to_list (undo_map (snapshot self)) = [];
  begins_queue : deferred_ops self = OperationQueue.new;
  begins_clock : value (lamport_clock self) = match s with [] => 1%N | _ => 2%N end;
}.

Lemma new_normalized_spec replica remote le r s : holds r s → replaceable r → (N.of_nat (Str.len s) <= u32_max)%N →
  replica ≠ u16_max → 
  ∃ self L, new_normalized replica remote le r = Some self ∧ buffer_ok self L ∅ ∧ buffer_fits self ∧
    visible_of (atoms L) = s ∧ deleted_of (atoms L) = [] ∧ history self = History.new r ∧
    Buffer.replica_id self = replica ∧ (value (lamport_clock self) <= 2)%N ∧ snapshot_line_ending (snapshot self) = le ∧ begins self L s.
Proof.
  intros Hr Hrep Hlen Hreplica. pose proof (holds_str_ok _ _ Hr) as Hs. unfold new_normalized. cbn [History.new History.base_text].
  unfold Rope.is_empty. rewrite (holds_len _ _ Hr). destruct (decide (s = [])) as [->|Hne].
  - change (Str.len []) with 0. cbn [Nat.eqb mbind option_bind]. destruct id_ok_first as (id & _ & Hid).
    eexists _, []. split; [done|].
    destruct (base_buffer_ok id SumTree.new SumTree.new r [] (Lamport.new replica) Global.new remote replica le) as [Hok Hfits]; try done;
      apply tree_new_ok.
  - pose proof (str_nonempty _ Hne). rewrite (proj2 (Nat.eqb_neq _ _)) by lia.
    destruct (base_loop_spec r s Hr Hs Hne Hlen) as (id & frs & ins & Hloop & Hid & Hfok & Hfl & Hiok & Hil & Hfh & Hih).
    rewrite (holds_len _ _ Hr) in Hloop. change (Lamport.new LOCAL) with base_timestamp.
    change (Lamport.observe (Lamport.new replica) base_timestamp) with (Some (mkLamport 2 replica)). cbn [mbind option_bind].
    change (Global.observe Global.new base_timestamp) with (Some (mkGlobal [1%N])). cbn [mbind option_bind].
    rewrite Hloop. cbn [mbind option_bind]. eexists _, (base_pieces id s). split; [done|].
    destruct (base_buffer_ok id frs ins r s (mkLamport 2 replica) (mkGlobal [1%N]) remote replica le) as [Hok Hfits]; try done; [by destruct s..|].
    split; [done|]. split; [done|].
    assert (visible_of (atoms (base_pieces id s)) = s ∧ deleted_of (atoms (base_pieces id s)) = []) as [-> ->].
    2:{ split_and!; [done..|]. split; [apply base_atoms| | | |]; by destruct s. }
    destruct s as [|c s']; [done|]. cbn [base_pieces]. rewrite atoms_one, visible_of_atoms_of, deleted_of_atoms_of. done.
Qed.

Lemma new_spec `{LineSeparatorsLaws} replica remote s : str_ok s → (N.of_nat (Str.len s) <= u32_max)%N → replica ≠ u16_max →
  ∃ self L le, new replica remote s = Some self ∧ LineEnding.detect s = Some le ∧ buffer_ok self L ∅ ∧ buffer_fits self ∧
    visible_of (atoms L) = LineEnding.normalize s ∧ deleted_of (atoms L) = [] ∧
    holds (base_text self) (LineEnding.normalize s) ∧ history self = History.new (base_text self) ∧
    Buffer.replica_id self = replica ∧ (value (lamport_clock self) <= 2)%N ∧ snapshot_line_ending (snapshot self) = le ∧
    begins self L (LineEnding.normalize s).
Proof.
  intros Hs Hlen Hreplica. destruct (normalize_ok s Hs) as [Hn Hle]. destruct (detect_total s Hs) as [le Hdetect].
  unfold new. rewrite Hdetect. cbn [mbind option_bind].
  destruct (built_replaceable (LineEnding.normalize s) Hn) as (r & -> & Hr & Hrep); [lia|]. cbn [mbind option_bind].
  destruct (new_normalized_spec replica remote le r (LineEnding.normalize s) Hr Hrep) as (self & L & Hrun & Hok & Hfits & Hv & Hd & Hh & Hid & Hclock & Hle' & Hbegins);
    [lia|done|]. exists self, L, le. rewrite Hrun. unfold base_text. rewrite Hh. by split_and!.
Qed.
