(* ===== verification/BufferEdit.v ===== *)
(** * Local edits of a buffer

    [Buffer.edit] opens a transaction, edits the snapshot, publishes the patch,
    records the operation and closes the transaction; none of its steps can fail
    on a well-formed buffer, and each leaves it well formed. *)

From S2P Require Import Prelude Clock Locator SumTree SumTreeFacts Seek Cursor CursorFacts CursorWalk Keyed KeyedFacts UndoMap TreeMap TreeMapFacts Patch PatchFacts Subscription Utf8 TextSummary RopeTree Rope RopeFacts RopeSeek RopeCut LineEnding LineEndingFacts Operation OperationQueue History HistoryFacts Fragment FragmentFacts Snapshot EditSpec EditInv EditState EditSteps EditFinish EditFacts Undo UndoFinds UndoFacts Remote Buffer BufferFacts.

Import Buffer.

Implicit Types (self : Buffer) (L : list piece) (s : str) (known : gmap nat (list N)) (h : History) (clock t : Lamport).

(** ** Changing a part *)

Lemma ok_history self L known h' : buffer_ok self L known → history_ok h' (lamport_clock self) →
  (∀ id, id ∈ edits h' → undoable (lamport_clock self) id) → tree_ok (History.operations h') ∧ keys_sorted (to_list (History.operations h')) →
  (History.transaction_depth h' ≠ 0 → (2 <= value (lamport_clock self))%N) → buffer_ok (set_history self h') L known.
Proof. intros [] Hh He Ho Hd. by split. Qed.

Lemma older_later clock clock' t : Clock.replica_id clock' = Clock.replica_id clock → (value clock <= value clock')%N → older clock t → older clock' t.
Proof. intros Hr Hv Ho. unfold older in *. rewrite Hr. intros Ht. specialize (Ho Ht). lia. Qed.

Lemma ok_clock self L known clock' : buffer_ok self L known → Clock.replica_id clock' = Clock.replica_id (lamport_clock self) →
  (value (lamport_clock self) <= value clock')%N → buffer_ok (set_clock self clock') L known.
Proof.
  intros [Hs [Hc1 Hc2] Hver Hu Hh He Ho Hd Hsub Hq] Hr Hv. split; cbn [set_clock snapshot lamport_clock history subscriptions patches deferred_ops]; try done.
  - split; [by rewrite Hr|lia].
  - intros t Ht. eapply older_later; [done..|]. by apply Hu.
  - by apply (history_ok_clock (history self) (lamport_clock self)).
  - intros id Hid. destruct (He id Hid). split; [|done]. by eapply older_later.
  - intros Hdepth. specialize (Hd Hdepth). lia.
Qed.

(** The snapshot with what subscribers learn of it. *)
Lemma ok_publish self L known snapshot' L' P : buffer_ok self L known → snapshot_ok snapshot' L' → canonical (snapshot_version snapshot') →
  (∀ t, used snapshot' L' t → older (lamport_clock self) t) → relates P (text_bytes L) (text_bytes L') →
  ∃ subs heap, publish (set_snapshot self snapshot') P = Some (set_topic (set_snapshot self snapshot') subs heap) ∧
    buffer_ok (set_topic (set_snapshot self snapshot') subs heap) L' known.
Proof.
  intros Hself Hs Hver Hu HP. pose proof (buffer_subscribers _ _ _ Hself) as Hsub.
  destruct (publish_some (mkState (text_bytes L) (subscriptions self) (patches self) known) P (text_bytes L') Hsub HP)
    as (subs & heap & Hrun). exists subs, heap. unfold publish. cbn [set_snapshot subscriptions patches].
  cbn [Subscription.topic Subscription.heap] in Hrun. rewrite Hrun. split; [done|].
  pose proof (step_publish (mkState (text_bytes L) (subscriptions self) (patches self) known) P (text_bytes L') subs heap HP Hrun) as Hstep.
  destruct Hself. split; cbn [set_topic set_snapshot snapshot lamport_clock history subscriptions patches deferred_ops]; try done.
  exact (step_invariant _ _ Hstep Hsub).
Qed.

Lemma ok_version self L known t : buffer_ok self L known → observable t →
  ∃ v, observe_version self t = Some (set_snapshot self (with_version (snapshot self) v)) ∧ Global.observe (version self) t = Some v ∧
    buffer_ok (set_snapshot self (with_version (snapshot self) v)) L known.
Proof.
  intros Hself Ht. destruct (observe_observable (version self) t (buffer_version _ _ _ Hself) Ht) as (v & Hv & Hcan).
  exists v. unfold observe_version. rewrite Hv. split; [done|]. split; [done|].
  destruct Hself as [Hs]. split; cbn [set_snapshot snapshot lamport_clock history subscriptions patches deferred_ops]; try done.
  destruct Hs. by split.
Qed.

Lemma ok_tick self L known : buffer_ok self L known → (value (lamport_clock self) < u32_max)%N →
  let clock' := mkLamport (value (lamport_clock self) + 1) (Clock.replica_id (lamport_clock self)) in
  Lamport.tick (lamport_clock self) = Some (clock', lamport_clock self) ∧ buffer_ok (set_clock self clock') L known.
Proof. intros Hself Hroom clock'. split; [by apply tick_room|]. apply ok_clock; [done..|]. cbn. lia. Qed.

(** ** Transactions *)

Lemma ok_start self L known now : buffer_ok self L known → (value (lamport_clock self) < u32_max)%N →
  ∃ self' id, start_transaction_at self now = Some (self', id) ∧ buffer_ok self' L known ∧ snapshot self' = snapshot self ∧
    deferred_ops self' = deferred_ops self ∧
    (2 <= value (lamport_clock self'))%N ∧ Clock.replica_id (lamport_clock self') = Clock.replica_id (lamport_clock self) ∧
    operations self' = operations self ∧
    (if decide (History.transaction_depth (history self) = 0) then
      lamport_clock self' = mkLamport (value (lamport_clock self) + 1) (Clock.replica_id (lamport_clock self)) ∧
      history self' = History.set_depth (History.set_undo_stack (history self) (History.undo_stack (history self) ++
        [HistoryEntry.mk (Transaction.mk (lamport_clock self) [] (version self)) now now false])) 1
     else lamport_clock self' = lamport_clock self ∧
      history self' = History.set_depth (history self) (History.transaction_depth (history self) + 1)).
Proof.
  intros Hself Hroom. unfold start_transaction_at.
  destruct (History.start_transaction (history self) (version self) now (lamport_clock self)) as [[[h' clock'] id]|] eqn:Hrun.
  2:{ unfold History.start_transaction in Hrun. rewrite tick_room in Hrun by done. by destruct (_ =? 1). }
  cbn [mbind option_bind]. eexists _, id. split; [done|]. cbn [set_clock set_history snapshot lamport_clock history].
  pose proof (start_ok _ _ _ _ _ _ _ (buffer_history _ _ _ Hself) Hrun) as Hh'. pose proof (start_edits _ _ _ _ _ _ _ Hrun) as Hedits.
  pose proof (buffer_clock _ _ _ Hself) as [_ Hpos].
  assert (Clock.replica_id clock' = Clock.replica_id (lamport_clock self) ∧ (value (lamport_clock self) <= value clock')%N ∧
    (2 <= value clock')%N ∧ History.operations h' = operations self ∧
    if decide (History.transaction_depth (history self) = 0) then
      clock' = mkLamport (value (lamport_clock self) + 1) (Clock.replica_id (lamport_clock self)) ∧
      h' = History.set_depth (History.set_undo_stack (history self) (History.undo_stack (history self) ++
        [HistoryEntry.mk (Transaction.mk (lamport_clock self) [] (version self)) now now false])) 1
    else clock' = lamport_clock self ∧ h' = History.set_depth (history self) (History.transaction_depth (history self) + 1))
    as (Hr & Hle & Htwo & Hops & Hcase).
  { unfold History.start_transaction in Hrun. cbn [History.set_depth History.transaction_depth] in Hrun.
    case_decide as Hdepth.
    - rewrite Hdepth in Hrun. cbn [Nat.add Nat.eqb] in Hrun. rewrite tick_room in Hrun by done. injection Hrun as <- <- _.
      cbn. split_and!; try done; lia.
    - rewrite (proj2 (Nat.eqb_neq _ _)) in Hrun by lia. injection Hrun as <- <- _. split_and!; try done.
      by apply (buffer_open _ _ _ Hself). }
  split; [|by split_and!].
  assert (set_clock (set_history self h') clock' = set_history (set_clock self clock') h') as -> by done.
  apply ok_history; [by apply ok_clock|done| | |done].
  - intros id' Hid'. destruct (buffer_edits _ _ _ Hself id' (Hedits _ Hid')). split; [|done]. by eapply older_later.
  - rewrite Hops. apply Hself.
Qed.

Lemma end_total h clock now : history_ok h clock → History.transaction_depth h ≠ 0 →
  ∃ h' entry, History.end_transaction h now = Some (h', entry) ∧ (entry ≠ None → History.undo_stack h' ≠ []) ∧
    History.transaction_depth h' = History.transaction_depth h - 1 ∧ History.operations h' = History.operations h.
Proof.
  intros Hok Hdepth. unfold History.end_transaction. rewrite rassert_true by (by apply negb_true_iff, Nat.eqb_neq).
  cbn [mbind option_bind History.set_depth History.transaction_depth History.undo_stack]. destruct (_ =? 0); [|by eexists _, _].
  destruct (snoc_cases (History.undo_stack h)) as [Hnil|(pre & e & Hs)]; [by destruct (ok_open _ _ Hok Hdepth)|].
  rewrite Hs, last_snoc. cbn [mbind option_bind]. case_bool_decide; [by eexists _, _|].
  cbn [History.set_stacks History.undo_stack]. rewrite last_mut_snoc. cbn [mbind option_bind]. eexists _, _. split; [done|].
  cbn. split_and!; [|done..]. intros _ Hnil. by destruct pre.
Qed.

Lemma ok_end self L known now : buffer_ok self L known → History.transaction_depth (history self) ≠ 0 →
  ∃ self' r, end_transaction_at self now = Some (self', r) ∧ buffer_ok self' L known ∧ snapshot self' = snapshot self ∧
    lamport_clock self' = lamport_clock self ∧ operations self' = operations self ∧ deferred_ops self' = deferred_ops self ∧
    History.transaction_depth (history self') = History.transaction_depth (history self) - 1 ∧
    ∀ h1 entry, History.end_transaction (history self) now = Some (h1, entry) →
      match entry with Some _ => ∃ id, History.group h1 = Some (history self', Some id) | None => history self' = h1 end.
Proof.
  intros Hself Hdepth. unfold end_transaction_at. pose proof (buffer_history _ _ _ Hself) as Hh.
  destruct (end_total _ _ now Hh Hdepth) as (h1 & entry & Hrun & Hne & Hd1 & Hops1).
  pose proof (end_ok _ _ _ _ _ Hh Hrun) as Hh1. pose proof (end_edits _ _ _ _ Hrun) as Hedits1. rewrite Hrun. cbn [mbind option_bind].
  assert (buffer_ok (set_history self h1) L known) as Hself1.
  { apply ok_history; [done|done| | |].
    - intros id Hid. by apply (buffer_edits _ _ _ Hself), Hedits1.
    - rewrite Hops1. apply Hself.
    - intros _. by apply (buffer_open _ _ _ Hself). }
  destruct entry as [entry|].
  - destruct (group_spec h1) as (pre & e & run & Hstack & _ & _ & Hgroup); [by apply Hne|]. rewrite Hgroup. cbn [mbind option_bind].
    eexists _, _. split; [done|]. cbn [set_history snapshot lamport_clock history]. split.
    + assert (set_history self (History.set_undo_stack h1 (pre ++ [merged e run])) =
        set_history (set_history self h1) (History.set_undo_stack h1 (pre ++ [merged e run]))) as -> by done.
      apply ok_history; [done| | |apply Hself1|apply Hself1].
      * eapply (history_step_ok (h1, _) (_, _)); [by eapply step_group|done].
      * intros id Hid. apply (buffer_edits _ _ _ Hself1). by rewrite (group_edits _ _ _ Hgroup) in Hid.
    + split_and!; try done. intros h1' entry' [= <- <-]. by eexists.
  - eexists _, _. split; [done|]. split_and!; try done. by intros h1' entry' [= <- <-].
Qed.

(** ** Recording an operation *)

Lemma ok_push self L known op : buffer_ok self L known → Node.height (operations self) < STACK_CAPACITY →
  ∃ ops, push_history self op = Some (set_history self (History.set_operations (history self) ops)) ∧
    buffer_ok (set_history self (History.set_operations (history self) ops)) L known ∧
    TreeMap.get ops (Operation.timestamp op) = Some op.
Proof.
  intros Hself Hfits. destruct (buffer_operations _ _ _ Hself) as [Ht Hs].
  assert (represents (operations self) (λ k, lookup_entry k (to_list (operations self)))) as Hrep by (by split).
  destruct (insert_or_replace_represents _ _ (Operation.timestamp op) op Hrep Hfits) as (ops & Hrun & Hops).
  unfold TreeMap.insert_or_replace in Hrun.
  destruct (Keyed.insert_or_replace (operations self) _) as [[replaced ops']|] eqn:Hins; [|done]. cbn [mbind option_bind] in Hrun.
  injection Hrun as _ ->. exists ops. unfold push_history, History.push, TreeMap.insert. fold (operations self). rewrite Hins.
  split; [done|]. split.
  - apply ok_history; [done| | | |].
    + destruct (buffer_history _ _ _ Hself). by split.
    + apply Hself.
    + destruct Hops as (? & ? & _). by split.
    + apply Hself.
  - rewrite (get_represents _ _ _ Hops). by rewrite cmp_refl.
Qed.

Lemma ok_push_undo self L known ts op : buffer_ok self L known → History.transaction_depth (history self) ≠ 0 →
  TreeMap.get (operations self) ts = Some (Operation.Edit op) → undoable (lamport_clock self) ts →
  ∃ pre e, History.undo_stack (history self) = pre ++ [e] ∧
    let h' := History.set_undo_stack (history self) (pre ++ [add_edits e [ts]]) in
    History.push_undo (history self) ts = Some h' ∧ buffer_ok (set_history self h') L known.
Proof.
  intros Hself Hdepth Hget Hts. pose proof (buffer_history _ _ _ Hself) as Hh.
  destruct (snoc_cases (History.undo_stack (history self))) as [Hnil|(pre & e & Hs)]; [by destruct (ok_open _ _ Hh Hdepth)|].
  exists pre, e. split; [done|]. intros h'.
  assert (History.push_undo (history self) ts = Some h') as Hrun.
  { unfold History.push_undo. rewrite rassert_true by (by apply negb_true_iff, Nat.eqb_neq). cbn [mbind option_bind].
    fold (operations self). rewrite Hget, Hs, last_mut_snoc. done. }
  split; [done|]. apply ok_history; [done| | |apply Hself|apply Hself].
  - eapply (history_step_ok (history self, _) (_, _)); [by eapply step_did|done].
  - intros id [->|Hid]%(did_edits _ _ _ Hrun)%elem_of_cons; [done|]. by apply (buffer_edits _ _ _ Hself).
Qed.

(** ** The edit of the snapshot *)

Lemma not_older clock : ¬ older clock clock.
Proof. intros Ho. specialize (Ho eq_refl). lia. Qed.

(** Such a time is in no undo entry. *)
Lemma entries_unused self L known ts : buffer_ok self L known → ¬ older (lamport_clock self) ts →
  entries_of ts (to_list (undo_map (snapshot self))) = [].
Proof.
  intros Hself Hts. unfold entries_of. destruct (filter _ _) as [|x l] eqn:Hf; [done|]. exfalso.
  assert (x ∈ x :: l) as Hx by left. rewrite <-Hf in Hx. apply list_elem_of_filter in Hx as [<- Hx].
  apply Hts, (buffer_used _ _ _ Hself). right. exists x. auto.
Qed.

(** The time of the clock is in no use. *)
Lemma clock_fresh self L known : buffer_ok self L known → buffer_fits self → fresh (snapshot self) L (lamport_clock self).
Proof.
  intros Hself Hfits. pose proof (buffer_used _ _ _ Hself) as Hu. pose proof (buffer_snapshot _ _ _ Hself) as Hs. split.
  - intros a Ha Heq. apply (not_older (lamport_clock self)), Hu. left. exists a. by rewrite Heq; split; [|left].
  - unfold UndoMap.is_undone. pose proof (undos_searchable _ _ Hs (buffer_snapshot_fits _ Hfits)) as Hsearch.
    rewrite (undo_count_spec _ Hsearch (proj2 (ok_undos _ _ Hs))). cbn [mbind option_bind].
    by rewrite (entries_unused _ _ _ _ Hself (not_older _)).
Qed.

Section edit.
Context `{LineSeparatorsLaws}.

Lemma used_after snap snap' L L' clock : revises clock (atoms L) (atoms L') →
  undo_map snap' = undo_map snap → (∀ t, used snap L t → older clock t) →
  ∀ t, used snap' L' t → older (mkLamport (value clock + 1) (Clock.replica_id clock)) t.
Proof.
  intros Hrev Hundo Hu t. set (clock' := mkLamport _ _).
  assert (∀ t, older clock t → older clock' t) as Hlater by (intros t'; apply older_later; [done|unfold clock'; simpl; lia]).
  assert (older clock' clock) as Hclock by (intros _; unfold clock'; simpl; lia).
  intros [(a & Ha & Ht)|Ht]; [|apply Hlater, Hu; right; by rewrite <-Hundo].
  destruct (revises_origin _ _ _ Hrev a Ha) as [HaL|[(a0 & Ha0 & ->)|(Hi & Hd & _)]].
  - apply Hlater, Hu. left. by exists a.
  - cbn [struck atom_insertion atom_deletions] in Ht. rewrite elem_of_app, list_elem_of_singleton in Ht.
    destruct Ht as [Ht|[Ht|Ht]]; [apply Hlater, Hu; left; exists a0; auto|apply Hlater, Hu; left; exists a0; auto|by subst].
  - rewrite Hi, Hd in Ht. destruct Ht as [->|Ht%not_elem_of_nil]; done.
Qed.

(** The edit and its publication, at the time of the clock. *)
Lemma ok_local_edit {S} `{!ToOffset S} self L known (edits : list ((S * S) * str)) es : buffer_ok self L known → buffer_fits self →
  edits_to_offsets (snapshot self) edits = Some es → edits_within 0 (visible_of (atoms L)) es →
  Forall (λ e, str_ok e.2) (map normalized es) → (N.of_nat (inserted_len (map normalized es)) <= u32_max)%N →
  let ts := lamport_clock self in
  let self1 := set_clock self (mkLamport (value ts + 1) (Clock.replica_id ts)) in
  ∃ snap L' ranges subs heap,
    let self' := set_topic (set_snapshot self1 snap) subs heap in
    apply_local_edit self1 edits ts = Some (self', EditOperation.mk ts (version self) ranges (map snd (map normalized es))) ∧
    buffer_ok self' L' known ∧ edited ts 0 0 0 (atoms L) (map normalized es) (atoms L') ranges ∧
    undo_map snap = undo_map (snapshot self) ∧ snapshot_version snap = version self ∧
    snapshot_line_ending snap = snapshot_line_ending (snapshot self) ∧ snapshot_remote_id snap = snapshot_remote_id (snapshot self).
Proof.
  intros Hself Hfits Hedits Hwithin Htexts Hlen ts self1. pose proof (buffer_clock _ _ _ Hself) as Hclock.
  destruct (apply_edit_spec (snapshot self) L ts (buffer_snapshot _ _ _ Hself) (buffer_snapshot_fits _ Hfits) Hclock es
    (clock_fresh _ _ _ Hself Hfits) Hwithin Htexts Hlen) as (snap & L' & ranges & P & Hrun & Hsnap & Hedited & HP & Hundo & Hver & Hremote & _ & Hle).
  assert (buffer_ok self1 L known) as Hself1 by (apply ok_clock; [done..|unfold ts; simpl; lia]).
  destruct (ok_publish self1 L known snap L' P Hself1 Hsnap) as (subs & heap & Hpub & Hok').
  - rewrite Hver. apply Hself.
  - apply (used_after (snapshot self) snap L L' ts); [by eapply edited_revises|done|apply Hself].
  - exact HP.
  - exists snap, L', ranges, subs, heap. cbv zeta. unfold apply_local_edit. cbn [set_clock self1 snapshot]. rewrite Hedits. cbn [mbind option_bind].
    rewrite Hrun. cbn [mbind option_bind]. fold self1. rewrite Hpub. cbn [mbind option_bind]. by split_and!.
Qed.
(** *** The whole edit *)

(** The time of the operation. *)
Definition edit_timestamp self : Lamport :=
  if decide (History.transaction_depth (history self) = 0)
  then mkLamport (value (lamport_clock self) + 1) (Clock.replica_id (lamport_clock self)) else lamport_clock self.

(** What the history becomes: an entry of its own, which may be grouped with the
    ones before it, or an edit more in the entry of the open transaction. *)
Definition edit_recorded self self' (now now' : Instant) : Prop :=
  let h := history self in
  History.transaction_depth (history self') = History.transaction_depth h ∧
  if decide (History.transaction_depth h = 0) then
    ∃ id, History.group (History.mk (History.base_text h) (operations self')
      (History.undo_stack h ++ [transaction_entry (lamport_clock self) (version self) now now' [edit_timestamp self]])
      [] 0 (History.group_interval h)) = Some (history self', Some id)
  else ∃ pre e, History.undo_stack h = pre ++ [e] ∧
    history self' = History.set_undo_stack (History.set_operations h (operations self')) (pre ++ [add_edits e [edit_timestamp self]]).

(** Closing the transaction of an edit. *)
Lemma edit_ends self self1 self2 ops h4 now now' pre e : 
  (if decide (History.transaction_depth (history self) = 0) then
    history self1 = History.set_depth (History.set_undo_stack (history self) (History.undo_stack (history self) ++
      [HistoryEntry.mk (Transaction.mk (lamport_clock self) [] (version self)) now now false])) 1
   else history self1 = History.set_depth (history self) (History.transaction_depth (history self) + 1)) →
  History.undo_stack (history self1) = pre ++ [e] →
  h4 = History.set_undo_stack (History.set_operations (history self1) ops) (pre ++ [add_edits e [edit_timestamp self]]) →
  operations self2 = ops → History.transaction_depth (history self2) = History.transaction_depth h4 - 1 →
  (∀ h1 entry, History.end_transaction h4 now' = Some (h1, entry) →
    match entry with Some _ => ∃ id, History.group h1 = Some (history self2, Some id) | None => history self2 = h1 end) →
  edit_recorded self self2 now now'.
Proof.
  intros Hcase Hstack -> Hops Hdepth Hend. unfold edit_recorded. rewrite Hops. case_decide as Hz.
  - rewrite Hcase in Hstack, Hdepth, Hend. cbn [History.set_depth History.set_undo_stack History.set_stacks History.undo_stack] in Hstack.
    apply app_inj_tail in Hstack as [<- <-]. cbn in Hdepth. rewrite Hdepth. split; [done|].
    set (entry := HistoryEntry.set_last_edit_at (add_edits (HistoryEntry.mk (Transaction.mk (lamport_clock self) [] (version self)) now now false)
      [edit_timestamp self]) now').
    apply (Hend _ (Some entry)). unfold History.end_transaction.
    cbn [History.set_operations History.set_depth History.set_undo_stack History.set_stacks History.undo_stack History.transaction_depth History.redo_stack].
    cbn [Nat.eqb negb Nat.sub]. rewrite rassert_true by done. cbn [mbind option_bind]. rewrite last_snoc. cbn [mbind option_bind].
    rewrite bool_decide_eq_false_2 by done. rewrite last_mut_snoc. cbn [mbind option_bind]. by rewrite last_snoc.
  - rewrite Hcase in Hstack, Hdepth, Hend. cbn in Hstack, Hdepth. split; [lia|]. exists pre, e. split; [done|].
    apply (Hend _ None). unfold History.end_transaction.
    cbn [History.set_operations History.set_depth History.set_undo_stack History.set_stacks History.undo_stack History.transaction_depth History.redo_stack].
    rewrite rassert_true by (apply negb_true_iff, Nat.eqb_neq; lia). cbn [mbind option_bind].
    rewrite Nat.add_sub, (proj2 (Nat.eqb_neq _ _)) by done. done.
Qed.

Lemma recorded_edits self self' now now' : edit_recorded self self' now now' → edits (history self') ⊆ edit_timestamp self :: edits (history self).
Proof.
  intros [_ Hrec]. case_decide.
  - destruct Hrec as [id Hgroup]. rewrite (group_edits _ _ _ Hgroup). unfold edits, entries. cbn [History.undo_stack History.redo_stack].
    rewrite app_nil_r, !edits_of_app. unfold edits_of at 2. cbn. set_solver.
  - destruct Hrec as (pre & e & Hstack & ->). unfold edits, entries. cbn [History.set_undo_stack History.set_stacks History.set_operations History.undo_stack History.redo_stack].
    rewrite Hstack, !edits_of_app. unfold edits_of at 2 5. destruct e as [[]]. cbn. rewrite !app_nil_r. set_solver.
Qed.

(** The statements between the start and the end of the transaction. *)
Lemma edit_within {S} `{!ToOffset S} self L known (edits : list ((S * S) * str)) es : buffer_ok self L known → buffer_fits self →
  History.transaction_depth (history self) ≠ 0 → (value (lamport_clock self) < u32_max)%N →
  edits_to_offsets (snapshot self) edits = Some es → edits_within 0 (visible_of (atoms L)) es →
  Forall (λ e, str_ok e.2) (map normalized es) → (N.of_nat (inserted_len (map normalized es)) <= u32_max)%N →
  let ts := lamport_clock self in
  let clock' := mkLamport (value ts + 1) (Clock.replica_id ts) in
  ∃ self2 self3 h4 self5 L' ranges ops pre e,
    let op := EditOperation.mk ts (version self) ranges (map snd (map normalized es)) in
    apply_local_edit (set_clock self clock') edits ts = Some (self2, op) ∧
    push_history self2 (Operation.Edit op) = Some self3 ∧ History.push_undo (history self3) ts = Some h4 ∧
    observe_version (set_history self3 h4) ts = Some self5 ∧ buffer_ok self5 L' known ∧
    edited ts 0 0 0 (atoms L) (map normalized es) (atoms L') ranges ∧ History.undo_stack (history self) = pre ++ [e] ∧
    history self5 = History.set_undo_stack (History.set_operations (history self) ops) (pre ++ [add_edits e [ts]]) ∧
    operations self5 = ops ∧ lamport_clock self5 = clock' ∧ undo_map (snapshot self5) = undo_map (snapshot self) ∧
    Global.observe (version self) ts = Some (version self5) ∧
    snapshot_line_ending (snapshot self5) = snapshot_line_ending (snapshot self) ∧ deferred_ops self5 = deferred_ops self ∧
    remote_id self5 = remote_id self.
Proof.
  intros Hself Hfits Hdepth Hroom Hedits Hwithin Htexts Hlen ts clock'.
  pose proof (buffer_open _ _ _ Hself Hdepth) as Htwo.
  destruct (ok_local_edit self L known edits es Hself Hfits Hedits Hwithin Htexts Hlen)
    as (snap & L' & ranges & subs & heap & Hrun & Hself2 & Hedited & Hundo & Hver & Hle & Hremote). cbv zeta in Hrun, Hself2.
  fold ts clock' in Hrun, Hself2. set (self2 := set_topic _ _ _) in *. set (op := EditOperation.mk _ _ _ _) in *.
  destruct (ok_push self2 L' known (Operation.Edit op) Hself2) as (ops & Hpush & Hself3 & Hget); [apply Hfits|].
  set (self3 := set_history self2 _) in *.
  destruct (ok_push_undo self3 L' known ts op Hself3 Hdepth Hget) as (pre & e & Hstack & Hdid & Hself4).
  { split; [intros _; cbn; lia|]. intros Heq. apply (f_equal value) in Heq. cbn in Heq. unfold ts in Heq. lia. }
  cbv zeta in Hdid, Hself4.
  destruct (ok_version _ L' known ts Hself4 (buffer_clock _ _ _ Hself)) as (v & Hobs & Hv & Hself5).
  eexists self2, self3, _, _, L', ranges, ops, pre, e. cbv zeta. split; [exact Hrun|]. split; [exact Hpush|]. split; [exact Hdid|].
  split; [exact Hobs|]. split; [exact Hself5|]. split; [exact Hedited|]. split; [exact Hstack|].
  assert (Global.observe (version self) ts = Some v) as Hv' by (rewrite <-Hver; exact Hv). by split_and!.
Qed.

Lemma edit_spec {S} `{!ToOffset S} self L known (edits : list ((S * S) * str)) es now now' : buffer_ok self L known → buffer_fits self →
  (value (lamport_clock self) + 1 < u32_max)%N →
  edits_to_offsets (snapshot self) edits = Some es → edits_within 0 (visible_of (atoms L)) es →
  Forall (λ e, str_ok e.2) (map normalized es) → (N.of_nat (inserted_len (map normalized es)) <= u32_max)%N →
  let ts := edit_timestamp self in
  ∃ self' L' ranges,
    edit self edits now now' =
      Some (self', Operation.Edit (EditOperation.mk ts (version self) ranges (map snd (map normalized es)))) ∧
    buffer_ok self' L' known ∧ edited ts 0 0 0 (atoms L) (map normalized es) (atoms L') ranges ∧
    undo_map (snapshot self') = undo_map (snapshot self) ∧ Global.observe (version self) ts = Some (version self') ∧
    snapshot_line_ending (snapshot self') = snapshot_line_ending (snapshot self) ∧
    (value (lamport_clock self') <= value (lamport_clock self) + 2)%N ∧ edit_recorded self self' now now' ∧
    lamport_clock self' = mkLamport (value ts + 1) (Clock.replica_id (lamport_clock self)) ∧ deferred_ops self' = deferred_ops self ∧
    remote_id self' = remote_id self.
Proof.
  intros Hself Hfits Hroom Hedits Hwithin Htexts Hlen ts.
  destruct (ok_start self L known now Hself) as (self1 & id & Hstart & Hself1 & Hsnap1 & Hq1 & Htwo & Hr1 & Hops1 & Hcase); [lia|].
  assert (lamport_clock self1 = ts) as Hts by (unfold ts, edit_timestamp; case_decide; by destruct Hcase).
  assert (buffer_fits self1) as Hfits1 by (destruct Hfits; split; by rewrite ?Hsnap1, ?Hops1, ?Hq1).
  assert (value ts < u32_max)%N as Hroom1 by (unfold ts, edit_timestamp; case_decide; simpl; lia).
  assert (value ts <= value (lamport_clock self) + 1)%N as Hts1 by (unfold ts, edit_timestamp; case_decide; simpl; lia).
  assert (History.transaction_depth (history self1) ≠ 0) as Hdepth1 by (case_decide; destruct Hcase as [_ ->]; cbn; lia).
  rewrite <-Hsnap1 in Hedits. rewrite <-Hts in Hroom1.
  destruct (edit_within self1 L known edits es Hself1 Hfits1 Hdepth1 Hroom1 Hedits Hwithin Htexts Hlen)
    as (self2 & self3 & h4 & self5 & L' & ranges & ops & pre & e & Hrun & Hpush & Hdid & Hobs & Hself5 & Hedited & Hstack & Hh5 & Hops5
      & Hclock5 & Hundo & Hver & Hle & Hq5 & Hremote). cbv zeta in Hrun, Hpush. unfold version in Hrun, Hver, Hpush. rewrite Hts, Hsnap1 in *.
  destruct (ok_end self5 L' known now' Hself5) as (self6 & r & Hend & Hself6 & Hsnap6 & Hclock6 & Hops6 & Hq6 & Hdepth6 & Hresult).
  { rewrite Hh5. exact Hdepth1. }
  exists self6, L', ranges. unfold edit. rewrite Hstart. cbn [mbind option_bind]. rewrite Hts, tick_room by done. cbn [mbind option_bind].
  rewrite Hrun. cbn [mbind option_bind]. rewrite Hpush. cbn [mbind option_bind]. cbn [Operation.timestamp EditOperation.timestamp].
  rewrite Hdid. cbn [mbind option_bind]. rewrite Hobs. cbn [mbind option_bind]. rewrite Hend. cbn [mbind option_bind].
  split; [done|]. unfold version. rewrite Hsnap6, Hclock6, Hclock5. split_and!; try done; [cbn; lia| |by rewrite <-Hr1, <-Hts|congruence|
    unfold remote_id in *; by rewrite Hsnap6, Hremote, ?Hsnap1].
  eapply (edit_ends self self1 self6 ops (history self5) now now' pre e); try done.
  - case_decide; by destruct Hcase.
  - by rewrite Hops6.
Qed.
End edit.
