(* ===== verification/BufferUndo.v ===== *)
(** * Undo and redo of a buffer

    Undoing a transaction and redoing it are the same call: it counts each of the
    edits once more, and an edit is undone when its count is odd.  The text is a
    function of the atoms and of which edits are undone. *)

From S2P Require Import Prelude Clock Locator SumTree SumTreeFacts Seek Cursor CursorFacts CursorWalk Keyed KeyedFacts UndoMap TreeMap TreeMapFacts Patch PatchFacts Subscription Utf8 TextSummary RopeTree Rope RopeFacts RopeSeek RopeCut LineEnding LineEndingFacts Operation OperationQueue History HistoryFacts Fragment FragmentFacts Snapshot EditSpec EditInv EditState EditSteps EditFinish EditFacts Undo UndoFinds UndoFacts Remote Buffer BufferFacts BufferEdit.

Import Buffer.

Implicit Types (self : Buffer) (L : list piece) (s : str) (known : gmap nat (list N)) (clock t id : Lamport) (A : list Atom) (u : Lamport → bool).

(** ** The text for what is undone *)

Abbreviation core_atom := (Lamport * N * char * list Lamport)%type (only parsing).

Definition core_shown_by u (c : core_atom) : bool := negb (u c.1.1.1) && forallb u c.2.
Definition text_by u (C : list core_atom) : str := map (λ c, c.1.2) (filter (λ c, core_shown_by u c = true) C).
Definition hidden_by u (C : list core_atom) : str := map (λ c, c.1.2) (filter (λ c, core_shown_by u c = false) C).

(** [u] is what the undo map says. *)
Definition undoes (undos : UndoMap.t) u : Prop := ∀ id, UndoMap.is_undone undos id = Some (u id).

Lemma text_by_app u C C' : text_by u (C ++ C') = text_by u C ++ text_by u C'.
Proof. unfold text_by. by rewrite filter_app, map_app. Qed.

Lemma all_undone_by undos u ds : undoes undos u → Fragment.all_undone undos ds = Some (forallb u ds).
Proof. intros Hu. induction ds as [|d ds IH]; [done|]. simpl. rewrite Hu. cbn [mbind option_bind]. by destruct (u d). Qed.

Lemma shown_by undos u a : undoes undos u → shown undos a = Some (core_shown_by u (core a)).
Proof.
  intros Hu. unfold shown, core_shown_by. rewrite Hu. cbn [mbind option_bind core fst snd]. destruct (u (atom_insertion a)); [done|].
  simpl. by apply all_undone_by.
Qed.

(** The text of a consistent snapshot. *)
(** The characters an undo map shows, or hides, by the atoms and by their cores. *)
Lemma chars_by_core (b : bool) u A : (∀ a, a ∈ A → atom_visible a = core_shown_by u (core a)) →
  map atom_char (filter (λ a, atom_visible a = b) A) = map (λ c, c.1.2) (filter (λ c, core_shown_by u c = b) (map core A)).
Proof.
  induction A as [|a A IH]; intros Hs; [done|]. cbn [map].
  rewrite !filter_cons, <-(Hs a (list_elem_of_here _ _)). specialize (IH (λ a' Ha', Hs a' (list_elem_of_further _ _ _ Ha'))).
  destruct (decide _); simpl; by rewrite IH.
Qed.

Lemma snapshot_shown snap L u : snapshot_ok snap L → undoes (undo_map snap) u → ∀ a, a ∈ atoms L → atom_visible a = core_shown_by u (core a).
Proof. intros Hok Hu a Ha. pose proof (ok_shown _ _ Hok a Ha) as Hsa. rewrite (shown_by _ u a Hu) in Hsa. by injection Hsa. Qed.

Lemma snapshot_text snap L u : snapshot_ok snap L → undoes (undo_map snap) u → visible_of (atoms L) = text_by u (map core (atoms L)).
Proof. intros Hok Hu. by apply chars_by_core, (snapshot_shown snap). Qed.

Lemma snapshot_hidden snap L u : snapshot_ok snap L → undoes (undo_map snap) u → deleted_of (atoms L) = hidden_by u (map core (atoms L)).
Proof. intros Hok Hu. by apply chars_by_core, (snapshot_shown snap). Qed.

(** Both texts are short enough for their summaries. *)
Definition core_texts_fit u (C : list core_atom) : Prop := text_fits (text_by u C) ∧ text_fits (hidden_by u C).

Lemma core_fits_full u A : text_fits (full_of A) → core_texts_fit u (map core A).
Proof.
  assert (Str.len (text_by u (map core A)) + Str.len (hidden_by u (map core A)) = Str.len (full_of A)) as Hlen; [|unfold core_texts_fit, text_fits; lia].
  unfold full_of, text_by, hidden_by. induction A as [|a A IH]; [done|]. cbn [map]. rewrite !filter_cons.
  destruct (core_shown_by u (core a)); cbn [decide bool_eq_dec]; simpl; rewrite !Str_len_cons, <-IH; lia.
Qed.

Lemma core_texts_checked snap L u : snapshot_ok snap L → undoes (undo_map snap) u → core_texts_fit u (map core (atoms L)) → texts_checked snap.
Proof.
  intros Hok Hu Hfits. apply (snapshot_texts_checked _ _ Hok). unfold texts_fit. by rewrite (snapshot_text _ _ _ Hok Hu), (snapshot_hidden _ _ _ Hok Hu).
Qed.

Lemma text_by_ext u u' C : (∀ c, c ∈ C → u c.1.1.1 = u' c.1.1.1 ∧ ∀ d, d ∈ c.2 → u d = u' d) → text_by u C = text_by u' C.
Proof.
  intros Hu. unfold text_by. f_equal. induction C as [|c C IH]; [done|]. 
  assert (core_shown_by u c = core_shown_by u' c) as Hc.
  { destruct (Hu c (list_elem_of_here _ _)) as [Hi Hd]. unfold core_shown_by. rewrite Hi. f_equal.
    clear -Hd. induction c.2 as [|d ds IH]; [done|]. simpl. rewrite (Hd d) by by left. f_equal. apply IH. intros d' Hd'. apply Hd. by right. }
  rewrite !filter_cons, Hc, IH; [done|]. intros c' Hc'. apply Hu. by right.
Qed.

(** ** Counting *)

Section count.
Context (undos : UndoMap.t) (Hundos : searchable undos) (Hsorted : sorted (K:=UndoMapKey) (to_list undos)).

Definition count_of id : N := max_list (map undo_count_of (entries_of id (to_list undos))).

Lemma count_spec id : UndoMap.undo_count undos id = Some (count_of id).
Proof. by apply undo_count_spec. Qed.

Lemma count_undos_spec counts ids : ∃ m, count_undos undos counts ids = Some m ∧
  ∀ id, m !! id = if decide (id ∈ ids) then Some (N.min (count_of id + 1) u32_max) else counts !! id.
Proof.
  revert counts. induction ids as [|i ids IH]; intros counts; cbn [count_undos].
  { exists counts. split; [done|]. intros id. by rewrite decide_False by apply not_elem_of_nil. }
  rewrite count_spec. cbn [mbind option_bind]. destruct (IH (<[i := N.min (count_of i + 1) u32_max]> counts)) as (m & -> & Hm).
  exists m. split; [done|]. intros id. rewrite Hm. destruct (decide (id ∈ ids)) as [Hin|Hin].
  - by rewrite decide_True by by right.
  - destruct (decide (id = i)) as [->|Hne].
    + rewrite decide_True by by left. by rewrite lookup_insert_eq.
    + rewrite decide_False by (intros [?|?]%elem_of_cons; done). by rewrite lookup_insert_ne.
Qed.
End count.

(** What a count says of the edit. *)
Lemma undoes_count undos : searchable undos → sorted (K:=UndoMapKey) (to_list undos) →
  undoes undos (λ id, count_of undos id mod 2 =? 1)%N.
Proof. intros Hu Hs id. unfold UndoMap.is_undone. by rewrite count_spec. Qed.

(** ** The operation *)

Lemma used_undone self L L' clock (undo : UndoOperation) undos : map core (atoms L') = map core (atoms L) →
  (∀ x, x ∈ to_list undos → x ∈ to_list (undo_map (snapshot self)) ∨ op_entry undo x) →
  (∀ t, used (snapshot self) L t → older clock t) → UndoMap.timestamp undo = clock →
  (∀ id, is_Some (counts undo !! id) → older clock id) →
  ∀ snap t, undo_map snap = undos → used snap L' t → older (mkLamport (value clock + 1) (Clock.replica_id clock)) t.
Proof.
  intros Hcore Hundos Hu Hts Hcounts snap t Hsnap. set (clock' := mkLamport _ _).
  assert (∀ t, older clock t → older clock' t) as Hlater by (intros t'; apply older_later; [done|unfold clock'; simpl; lia]).
  intros [(a & Ha & Ht)|(x & Hx & Ht)].
  - apply Hlater, Hu. left. destruct (core_elem _ _ a Hcore Ha) as (a' & Ha' & [= Hi _ _ Hd]). exists a'. split; [done|]. by rewrite <-Hi, <-Hd.
  - rewrite Hsnap in Hx. destruct (Hundos x Hx) as [Hold|[Hid Hcount]].
    + apply Hlater, Hu. right. by exists x.
    + destruct Ht as [->| ->]; [apply Hlater, Hcounts; by rewrite Hcount|]. rewrite Hid, Hts. intros _. unfold clock'. simpl. lia.
Qed.

(** A cursor can walk the undo map with the new entries. *)
Definition insert_fits self (counts : gmap Lamport N) : Prop := ∀ undos,
  UndoMap.insert (undo_map (snapshot self)) (mkUndoOperation (lamport_clock self) (version self) counts) = Some undos →
  Node.height undos < STACK_CAPACITY.

Lemma undo_operations_spec self L known counts : buffer_ok self L known → buffer_fits self → insert_fits self counts →
  (value (lamport_clock self) < u32_max)%N → (∀ id, is_Some (counts !! id) → undoable (lamport_clock self) id) →
  ∃ self' L', undo_operations self counts =
      Some (self', Operation.Undo (mkUndoOperation (lamport_clock self) (version self) counts)) ∧
    buffer_ok self' L' known ∧ map core (atoms L') = map core (atoms L) ∧
    searchable (undo_map (snapshot self')) ∧
    (∀ id, UndoMap.undo_count (undo_map (snapshot self')) id =
      Some (N.max (count_of (undo_map (snapshot self)) id) (default 0%N (counts !! id)))) ∧
    history self' = history self ∧ Global.observe (version self) (lamport_clock self) = Some (version self') ∧
    lamport_clock self' = mkLamport (value (lamport_clock self) + 1) (Clock.replica_id (lamport_clock self)) ∧
    snapshot_line_ending (snapshot self') = snapshot_line_ending (snapshot self) ∧
    UndoMap.insert (undo_map (snapshot self)) (mkUndoOperation (lamport_clock self) (version self) counts) =
      Some (undo_map (snapshot self')) ∧ deferred_ops self' = deferred_ops self.
Proof.
  intros Hself Hfits Hheight Hroom Hcounts. unfold undo_operations.
  destruct (ok_tick self L known Hself Hroom) as [Htick Hself1]. rewrite Htick. cbn [mbind option_bind].
  destruct (ok_version _ L known (lamport_clock self) Hself1 (buffer_clock _ _ _ Hself)) as (v & Hobs & Hv & Hself2).
  rewrite Hobs. cbn [mbind option_bind]. set (self2 := set_snapshot _ _) in *. set (undo := mkUndoOperation _ _ _).
  assert (snapshot_fits (snapshot self2)) as Hfits2 by (destruct (buffer_snapshot_fits _ Hfits); by split).
  pose proof (buffer_snapshot _ _ _ Hself) as Hs. pose proof (undos_searchable _ _ Hs (buffer_snapshot_fits _ Hfits)) as Hsearch.
  assert (∀ x, x ∈ to_list (undo_map (snapshot self2)) → undo_id (UndoMap.entry_key x) ≠ UndoMap.timestamp undo) as Hfresh.
  { intros x Hx Heq. apply (not_older (lamport_clock self)), (buffer_used _ _ _ Hself). right. exists x. split; [done|]. right. symmetry. exact Heq. }
  assert (counts !! base_timestamp = None) as Hbase.
  { destruct (counts !! base_timestamp) as [n|] eqn:Hn; [|done]. destruct (Hcounts base_timestamp) as [_ Hne]; [by rewrite Hn|done]. }
  destruct (apply_undo_spec (snapshot self2) L undo (buffer_snapshot _ _ _ Hself2) Hfits2 (buffer_clock _ _ _ Hself) Hbase Hfresh)
    as (snap & L' & P & Hrun & Hsnap & Hcore & _ & HP & Hins & _ & _ & Hver & _ & _ & Hle); [apply Hheight|].
  destruct (insert_spec (undo_map (snapshot self)) undo Hsearch (proj2 (ok_undos _ _ Hs)) Hfresh) as (undos & Hins2 & _ & _ & Helems).
  assert (undo_map snap = undos) as Hundos by (cbn in Hins; rewrite Hins2 in Hins; by injection Hins).
  destruct (ok_publish self2 L known snap L' P Hself2 Hsnap) as (subs & heap & Hpub & Hself3).
  - rewrite Hver. apply Hself2.
  - intros t. apply (used_undone self L L' (lamport_clock self) undo undos); try done.
    + intros x Hx. by apply Helems.
    + apply Hself.
    + intros id Hid. by apply Hcounts.
  - exact HP.
  - unfold apply_undo. rewrite Hrun. cbn [mbind option_bind]. rewrite Hpub. cbn [mbind option_bind]. eexists _, L'. split; [done|].
    assert (searchable (undo_map snap)) as Hsearch'.
    { split; [apply Hsnap|]. rewrite Hundos. eapply Hheight. exact Hins2. }
    split; [exact Hself3|]. split; [exact Hcore|]. split; [exact Hsearch'|]. split; [|split; [done|split; [|by split_and!]]].
    + intros id. cbn. rewrite (undo_count_insert (undo_map (snapshot self)) undo (undo_map snap)); try done; [|apply Hs].
      rewrite count_spec; [done|done|apply Hs].
    + unfold version. cbn. rewrite Hver. exact Hv.
Qed.

(** ** Undoing a transaction *)

(** The edits of the transaction change sides. *)
Definition flip (ids : list Lamport) u : Lamport → bool := λ id, if decide (id ∈ ids) then negb (u id) else u id.

Lemma flip_twice ids u id : flip ids (flip ids u) id = u id.
Proof. unfold flip. case_decide; [apply negb_involutive|done]. Qed.

(** The counts an undo gives. *)
Definition next_counts (counts : gmap Lamport N) self (ids : list Lamport) : Prop := ∀ id,
  counts !! id = if decide (id ∈ ids) then Some (N.min (count_of (undo_map (snapshot self)) id + 1) u32_max) else None.

(** The undo map with the entries of an undo is not too high for a cursor. *)
Definition undo_fits self (ids : list Lamport) : Prop := ∀ counts,
  count_undos (undo_map (snapshot self)) ∅ ids = Some counts → insert_fits self counts.

Lemma odd_succ n : (((n + 1) mod 2 =? 1) = negb (n mod 2 =? 1))%N.
Proof.
  rewrite N.Div0.add_mod. pose proof (N.mod_lt n 2 ltac:(done)) as Hlt. revert Hlt. generalize (n mod 2)%N. intros m Hm.
  assert (m = 0 ∨ m = 1)%N as [->| ->] by lia; done.
Qed.

(** The operation of an undo, and what it does to the undo map. *)
Definition undo_issued self self' (ids : list Lamport) (op : Operation) : Prop := ∃ counts,
  let undo := mkUndoOperation (lamport_clock self) (version self) counts in
  next_counts counts self ids ∧ op = Operation.Undo undo ∧
  UndoMap.insert (undo_map (snapshot self)) undo = Some (undo_map (snapshot self')) ∧ deferred_ops self' = deferred_ops self.

Lemma undo_or_redo_spec self L known transaction u : buffer_ok self L known → buffer_fits self →
  undo_fits self (Transaction.edit_ids transaction) →
  (value (lamport_clock self) < u32_max)%N →
  (∀ id, id ∈ Transaction.edit_ids transaction → undoable (lamport_clock self) id ∧ (count_of (undo_map (snapshot self)) id < u32_max)%N) →
  undoes (undo_map (snapshot self)) u →
  ∃ self' L' op, undo_or_redo self transaction = Some (self', op) ∧
    buffer_ok self' L' known ∧ map core (atoms L') = map core (atoms L) ∧
    undoes (undo_map (snapshot self')) (flip (Transaction.edit_ids transaction) u) ∧
    undo_issued self self' (Transaction.edit_ids transaction) op ∧
    history self' = History.set_operations (history self) (operations self') ∧
    Global.observe (version self) (lamport_clock self) = Some (version self') ∧
    lamport_clock self' = mkLamport (value (lamport_clock self) + 1) (Clock.replica_id (lamport_clock self)) ∧
    (∀ id, UndoMap.undo_count (undo_map (snapshot self')) id = 
      Some (count_of (undo_map (snapshot self)) id + if decide (id ∈ Transaction.edit_ids transaction) then 1 else 0)%N) ∧
    snapshot_line_ending (snapshot self') = snapshot_line_ending (snapshot self).
Proof.
  intros Hself Hfits Hheight Hroom Hids Hu. set (ids := Transaction.edit_ids transaction) in *.
  pose proof (buffer_snapshot _ _ _ Hself) as Hs. pose proof (undos_searchable _ _ Hs (buffer_snapshot_fits _ Hfits)) as Hsearch.
  destruct (count_undos_spec _ Hsearch (proj2 (ok_undos _ _ Hs)) ∅ ids) as (counts & Hcounts & Hm).
  unfold undo_or_redo. fold ids. rewrite Hcounts. cbn [mbind option_bind].
  assert (next_counts counts self ids) as Hnext by (intros id; rewrite Hm; by rewrite lookup_empty).
  destruct (undo_operations_spec self L known counts Hself Hfits (Hheight _ Hcounts) Hroom)
    as (self1 & L' & Hrun & Hself1 & Hcore & Hsearch1 & Hcount & Hh & Hver & Hclock & Hle & Hins & Hq).
  { intros id [n Hn]. rewrite Hnext in Hn. case_decide as Hin; [|done]. by apply Hids. }
  rewrite Hrun. cbn [mbind option_bind]. set (op := Operation.Undo _) in *.
  destruct (ok_push self1 L' known op Hself1) as (ops & -> & Hself2 & _); [unfold operations; rewrite Hh; apply Hfits|]. cbn [mbind option_bind].
  assert (∀ id, UndoMap.undo_count (undo_map (snapshot self1)) id =
    Some (count_of (undo_map (snapshot self)) id + if decide (id ∈ ids) then 1 else 0)%N) as Hcount'.
  { intros id. rewrite Hcount, Hnext. f_equal. case_decide as Hin; simpl; [|lia]. destruct (Hids id Hin). lia. }
  eexists _, L', op. split; [done|]. split; [exact Hself2|]. split; [exact Hcore|]. split; [|split; [by exists counts|]].
  - intros id. cbn. unfold UndoMap.is_undone. rewrite Hcount'. cbn [mbind option_bind]. f_equal. unfold flip.
    assert (u id = (count_of (undo_map (snapshot self)) id mod 2 =? 1)%N) as Hid.
    { pose proof (undoes_count _ Hsearch (proj2 (ok_undos _ _ Hs)) id) as Hid. rewrite Hu in Hid. by injection Hid. }
    rewrite Hid. case_decide; [apply odd_succ|by rewrite N.add_0_r].
  - cbn. rewrite Hh. split_and!; try done. 
Qed.

(** ** Undo and redo *)

(** Entries are moved, and the edits of one of them undone or redone. *)
Lemma moved_spec self L known h' e u : buffer_ok self L known → buffer_fits self →
  history_ok h' (lamport_clock self) → edits h' ⊆ edits (history self) → History.operations h' = operations self →
  History.transaction_depth h' = 0 → entry_edits e ⊆ edits (history self) → undo_fits self (entry_edits e) →
  (value (lamport_clock self) < u32_max)%N →
  (∀ id, id ∈ entry_edits e → (count_of (undo_map (snapshot self)) id < u32_max)%N) → undoes (undo_map (snapshot self)) u →
  ∃ self' L' op, undo_or_redo (set_history self h') (HistoryEntry.transaction e) = Some (self', op) ∧
    buffer_ok self' L' known ∧ map core (atoms L') = map core (atoms L) ∧
    undoes (undo_map (snapshot self')) (flip (entry_edits e) u) ∧ undo_issued self self' (entry_edits e) op ∧
    history self' = History.set_operations h' (operations self') ∧
    Global.observe (version self) (lamport_clock self) = Some (version self') ∧
    lamport_clock self' = mkLamport (value (lamport_clock self) + 1) (Clock.replica_id (lamport_clock self)) ∧
    (∀ id, UndoMap.undo_count (undo_map (snapshot self')) id =
      Some (count_of (undo_map (snapshot self)) id + if decide (id ∈ entry_edits e) then 1 else 0)%N) ∧
    snapshot_line_ending (snapshot self') = snapshot_line_ending (snapshot self).
Proof.
  intros Hself Hfits Hh Hedits Hops Hdepth He Hheight Hroom Hcounts Hu.
  assert (buffer_ok (set_history self h') L known) as Hself'.
  { apply ok_history; [done|done| | |by rewrite Hdepth].
    - intros id Hid. by apply (buffer_edits _ _ _ Hself), Hedits.
    - rewrite Hops. apply Hself. }
  assert (buffer_fits (set_history self h')) as Hfits' by (destruct Hfits; split; [done|by unfold operations; simpl; rewrite Hops|done]).
  destruct (undo_or_redo_spec (set_history self h') L known (HistoryEntry.transaction e) u Hself' Hfits' Hheight Hroom)
    as (self' & L' & op & Hrun & Hok & Hcore & Hu' & Hissued & Hh' & Hver & Hclock & Hcount & Hle); [|done|].
  { intros id Hid. split; [by apply (buffer_edits _ _ _ Hself), He|by apply Hcounts]. }
  exists self', L', op. by split_and!.
Qed.

Section pop.
Context self L known (pre : list HistoryEntry) (e : HistoryEntry) u (Hself : buffer_ok self L known) (Hfits : buffer_fits self).
Context (Hdepth : History.transaction_depth (history self) = 0) (Hheight : undo_fits self (entry_edits e)).
Context (Hroom : (value (lamport_clock self) < u32_max)%N) (Hu : undoes (undo_map (snapshot self)) u).
Context (Hcounts : ∀ id, id ∈ entry_edits e → (count_of (undo_map (snapshot self)) id < u32_max)%N).

(** What becomes of the buffer, but for the history. *)
Definition flipped self' L' : Prop :=
  buffer_ok self' L' known ∧ map core (atoms L') = map core (atoms L) ∧
  undoes (undo_map (snapshot self')) (flip (entry_edits e) u) ∧
  Global.observe (version self) (lamport_clock self) = Some (version self') ∧
  lamport_clock self' = mkLamport (value (lamport_clock self) + 1) (Clock.replica_id (lamport_clock self)) ∧
  (∀ id, UndoMap.undo_count (undo_map (snapshot self')) id =
    Some (count_of (undo_map (snapshot self)) id + if decide (id ∈ entry_edits e) then 1 else 0)%N) ∧
  snapshot_line_ending (snapshot self') = snapshot_line_ending (snapshot self).

Lemma undo_spec : History.undo_stack (history self) = pre ++ [e] →
  ∃ self' L' op, undo self = Some (self', Some (entry_id e, op)) ∧ flipped self' L' ∧
    history self' = History.set_operations (History.set_stacks (history self) pre (History.redo_stack (history self) ++ [e])) (operations self') ∧
    undo_issued self self' (entry_edits e) op.
Proof.
  intros Hstack. pose proof (pop_undo_snoc _ _ _ Hdepth Hstack) as Hpop. unfold undo. rewrite Hpop. cbn [mbind option_bind].
  destruct (undone_edits _ _ _ Hpop) as [Hsub He].
  destruct (moved_spec self L known (History.set_stacks (history self) pre (History.redo_stack (history self) ++ [e])) e u Hself Hfits)
    as (self' & L' & op & -> & Hok & Hcore & Hu' & Hissued & Hh & Hver & Hclock & Hcount & Hle); try done.
  - eapply (history_step_ok (history self, _) (_, _)); [by eapply step_undo|apply Hself].
  - by apply He.
  - cbn [mbind option_bind]. exists self', L', op. split; [done|]. split; [by split_and!|done].
Qed.

Lemma redo_spec : History.redo_stack (history self) = pre ++ [e] →
  ∃ self' L' op, redo self = Some (self', Some (entry_id e, op)) ∧ flipped self' L' ∧
    history self' = History.set_operations (History.set_stacks (history self) (History.undo_stack (history self) ++ [e]) pre) (operations self') ∧
    undo_issued self self' (entry_edits e) op.
Proof.
  intros Hstack. pose proof (pop_redo_snoc _ _ _ Hdepth Hstack) as Hpop. unfold redo. rewrite Hpop. cbn [mbind option_bind].
  destruct (redone_edits _ _ _ Hpop) as [Hsub He].
  destruct (moved_spec self L known (History.set_stacks (history self) (History.undo_stack (history self) ++ [e]) pre) e u Hself Hfits)
    as (self' & L' & op & -> & Hok & Hcore & Hu' & Hissued & Hh & Hver & Hclock & Hcount & Hle); try done.
  - eapply (history_step_ok (history self, _) (_, _)); [by eapply step_redo|apply Hself].
  - by apply He.
  - cbn [mbind option_bind]. exists self', L', op. split; [done|]. split; [by split_and!|done].
Qed.
End pop.

(** ** An edit that is undone *)

Lemma text_by_inserted w ts offset (text : str) : w ts = true → text_by w (map core (inserted ts offset text)) = [].
Proof.
  intros Hw. unfold inserted. revert offset. induction text as [|c text IH]; intros o; [done|].
  cbn [atoms_from map]. unfold text_by. rewrite filter_cons_False; [apply IH|]. unfold core_shown_by. cbn. by rewrite Hw.
Qed.

Lemma text_by_kill w ts A : w ts = true → text_by w (map core (map (kill ts) A)) = text_by w (map core A).
Proof.
  intros Hw. unfold text_by. induction A as [|a A IH]; [done|]. cbn [map].
  assert (core_shown_by w (core (kill ts a)) = core_shown_by w (core a) ∧ (core (kill ts a)).1.2 = (core a).1.2) as [Hs Hc].
  { unfold kill. destruct (atom_visible a); [|done]. split; [|done]. unfold core_shown_by. cbn. f_equal. rewrite forallb_app. cbn. by rewrite Hw, !andb_true_r. }
  rewrite !filter_cons, Hs. destruct (core_shown_by w (core a)); cbn [decide bool_eq_dec]; simpl; [|exact IH]. by f_equal.
Qed.

(** Where an edit is undone, the text is what it would be without it. *)
Lemma edited_text_by w ts pos full offset A es A' ranges : edited ts pos full offset A es A' ranges → w ts = true →
  text_by w (map core A') = text_by w (map core A).
Proof.
  intros Hedited Hw. revert pos full offset A A' ranges Hedited.
  induction es as [|[range text] es IH]; intros pos full offset A A' [|fr ranges]; simpl; try done; [by intros ->|].
  intros (gap & replaced & rest & rest' & -> & -> & _ & _ & _ & _ & Hrest). rewrite !map_app, !text_by_app.
  by rewrite text_by_inserted, text_by_kill, (IH _ _ _ _ _ _ Hrest).
Qed.

(** An edit that is not mentioned may be undone or not. *)
Lemma text_by_unused snap L clock ts u : (∀ t, used snap L t → older clock t) → ¬ older clock ts →
  text_by (flip [ts] u) (map core (atoms L)) = text_by u (map core (atoms L)).
Proof.
  intros Hu Hts. assert (∀ t, used snap L t → flip [ts] u t = u t) as Hflip.
  { intros t Ht. unfold flip. rewrite decide_False; [done|]. intros ->%list_elem_of_singleton. apply Hts. by apply Hu. }
  apply text_by_ext. intros c (a & -> & Ha)%list_elem_of_fmap. split; [|intros d Hd]; apply Hflip; left; exists a; auto.
Qed.
