(* ===== verification/BufferLaws.v ===== *)
(** * What a buffer promises

    A new buffer holds its base text; an edit replaces what it says; undoing
    changes sides of exactly the edits of a transaction, and doing it twice
    restores the text. *)

From S2P Require Import Prelude Clock Locator SumTree SumTreeFacts Seek Cursor CursorFacts CursorWalk Keyed KeyedFacts UndoMap TreeMap TreeMapFacts Patch PatchFacts Subscription Utf8 TextSummary RopeTree Rope RopeFacts RopeSeek RopeCut LineEnding LineEndingFacts Operation OperationQueue History HistoryFacts Fragment FragmentFacts Snapshot EditSpec EditInv EditState EditSteps EditFinish EditFacts Undo UndoFinds UndoFacts Remote Buffer BufferFacts BufferEdit BufferUndo.

Import Buffer.

Implicit Types (self : Buffer) (L : list piece) (s : str) (known : gmap nat (list N)) (u : Lamport → bool).

(** The text of a buffer. *)
Definition shows self s : Prop := holds (visible_text (snapshot self)) s.

Lemma shows_visible self L known : buffer_ok self L known → shows self (visible_of (atoms L)).
Proof. intros Hself. apply (ok_visible _ _ (buffer_snapshot _ _ _ Hself)). Qed.

Lemma undoes_exist self L known : buffer_ok self L known → buffer_fits self → ∃ u, undoes (undo_map (snapshot self)) u.
Proof.
  intros Hself Hfits. pose proof (buffer_snapshot _ _ _ Hself) as Hs. eexists.
  apply undoes_count; [exact (undos_searchable _ _ Hs (buffer_snapshot_fits _ Hfits))|apply Hs].
Qed.

(** C11. A new buffer holds the base text.  For any text below 4 GiB and any replica,
    [Buffer::new] does not panic: it makes a well-formed buffer that shows the
    normalised text, has nothing deleted, nothing to undo and no subscriber,
    knows the line ending that was detected, and whose clock belongs to the
    replica and is ahead of the base text's insertion. *)
Theorem buffer_new_holds `{LineSeparatorsLaws} replica remote s
    (Hs : str_ok s) (Hlen : (N.of_nat (Str.len s) <= u32_max)%N) (Hreplica : replica ≠ u16_max) :
  ∃ self L le, new replica remote s = Some self ∧ LineEnding.detect s = Some le ∧ buffer_ok self L ∅ ∧ buffer_fits self ∧
    shows self (LineEnding.normalize s) ∧ holds (deleted_text (snapshot self)) [] ∧ holds (base_text self) (LineEnding.normalize s) ∧
    peek_undo_stack self = None ∧ peek_redo_stack self = None ∧ Buffer.replica_id self = replica ∧
    snapshot_line_ending (snapshot self) = le.
Proof.
  destruct (new_spec replica remote s Hs Hlen Hreplica)
    as (self & L & le & Hrun & Hdetect & Hok & Hfits & Hv & Hd & Hbase & Hh & Hid & _ & Hle & _).
  exists self, L, le. pose proof (buffer_snapshot _ _ _ Hok) as Hsnap. pose proof (ok_deleted _ _ Hsnap) as Hdel. rewrite Hd in Hdel.
  unfold peek_undo_stack, peek_redo_stack. rewrite Hh. split_and!; try done. rewrite <-Hv. by eapply shows_visible.
Qed.

(** C5. A local edit replaces the text as it says.  On a well-formed buffer, with
    ranges in order and on character boundaries, less than 4 GiB to insert, and
    less than 4 GiB in each of the buffer's texts afterwards, [edit] does not
    panic: the text becomes the old one with every range replaced by its
    (normalised) text, and the atoms say where the deleted parts went; the
    operation carries the version before the edit, the ranges among the text
    with its deleted parts, and the inserted texts; the version has then observed
    it, the history has recorded it, and the buffer stays well formed, its
    subscribers' patches included; no sum of text summaries overflows. *)
Theorem local_edit_replaces `{LineSeparatorsLaws} {S} `{!ToOffset S} self L known (edits : list ((S * S) * str)) es now now'
    (Hself : buffer_ok self L known) (Hfits : buffer_fits self) (Hroom : (value (lamport_clock self) + 1 < u32_max)%N)
    (Hoffsets : edits_to_offsets (snapshot self) edits = Some es) (Hwithin : edits_within 0 (visible_of (atoms L)) es)
    (Htexts : Forall (λ e, str_ok e.2) (map normalized es)) (Hlen : (N.of_nat (inserted_len (map normalized es)) <= u32_max)%N)
    (Hresult : edits_fit (atoms L) (map normalized es)) :
  let ts := edit_timestamp self in
  ∃ self' L' ranges s',
    edit self edits now now' =
      Some (self', Operation.Edit (EditOperation.mk ts (version self) ranges (map snd (map normalized es)))) ∧
    shows self' s' ∧ replaced_by 0 (visible_of (atoms L)) (map normalized es) s' ∧
    buffer_ok self' L' known ∧ edited ts 0 0 0 (atoms L) (map normalized es) (atoms L') ranges ∧
    Global.observe (version self) ts = Some (version self') ∧ edit_recorded self self' now now' ∧ texts_checked (snapshot self').
Proof.
  intros ts. destruct (edit_spec self L known edits es now now' Hself Hfits Hroom Hoffsets Hwithin Htexts Hlen)
    as (self' & L' & ranges & Hrun & Hok & Hedited & _ & Hver & _ & _ & Hrec & _).
  exists self', L', ranges, (visible_of (atoms L')). split; [exact Hrun|]. split; [by eapply shows_visible|].
  split; [by eapply edited_visible|]. split_and!; [done..|].
  apply (snapshot_texts_checked _ L'); [by eapply buffer_snapshot|by eapply edited_texts_fit].
Qed.

(** Two snapshots of the same atoms whose undo maps agree show the same. *)
Lemma back_again snap L snap' L' u : snapshot_ok snap L → snapshot_ok snap' L' → undoes (undo_map snap) u → undoes (undo_map snap') u →
  map core (atoms L') = map core (atoms L) →
  visible_of (atoms L') = visible_of (atoms L) ∧ (texts_fit (atoms L) → texts_checked snap').
Proof.
  intros Hs Hs' Hu Hu' Hcore. pose proof (snapshot_text _ _ _ Hs Hu) as Hv. pose proof (snapshot_hidden _ _ _ Hs Hu) as Hd.
  rewrite <-Hcore, <-(snapshot_text _ _ _ Hs' Hu') in Hv. rewrite <-Hcore, <-(snapshot_hidden _ _ _ Hs' Hu') in Hd.
  split; [done|]. unfold texts_fit. rewrite Hv, Hd. by apply snapshot_texts_checked.
Qed.

(** C7. Undoing changes sides of exactly the edits of a transaction.  For a
    transaction whose edits are all known and have been undone less than
    [u32::MAX] times, and when the texts shown and hidden afterwards are below
    4 GiB, [undo_or_redo] does not panic: the atoms stay what they are, every edit
    of the transaction is undone if it was not and the other way around, every
    other edit stays as it is, the text shows the atoms whose insertion is not
    undone and whose deletions all are, and no sum of text summaries overflows.
    Doing it again restores the text. *)
Theorem undo_flips_transaction self L known transaction u
    (Hself : buffer_ok self L known) (Hfits : buffer_fits self) (Hheight : undo_fits self (Transaction.edit_ids transaction))
    (Hroom : (value (lamport_clock self) + 1 < u32_max)%N) (Hu : undoes (undo_map (snapshot self)) u)
    (Hids : ∀ id, id ∈ Transaction.edit_ids transaction →
      undoable (lamport_clock self) id ∧ (count_of (undo_map (snapshot self)) id + 1 < u32_max)%N)
    (Hresult : core_texts_fit (flip (Transaction.edit_ids transaction) u) (map core (atoms L))) :
  ∃ self' L' op, undo_or_redo self transaction = Some (self', op) ∧ buffer_ok self' L' known ∧
    map core (atoms L') = map core (atoms L) ∧ undoes (undo_map (snapshot self')) (flip (Transaction.edit_ids transaction) u) ∧
    shows self' (text_by (flip (Transaction.edit_ids transaction) u) (map core (atoms L))) ∧ texts_checked (snapshot self') ∧
    (buffer_fits self' → undo_fits self' (Transaction.edit_ids transaction) →
      ∃ self'' op', undo_or_redo self' transaction = Some (self'', op') ∧ shows self'' (visible_of (atoms L)) ∧ texts_checked (snapshot self'')).
Proof.
  destruct (undo_or_redo_spec self L known transaction u Hself Hfits Hheight) as (self' & L' & op & Hrun & Hok & Hcore & Hu' & _ & _ & _ & Hclock & Hcount & _);
    [lia|intros id Hid; destruct (Hids id Hid); split; [done|lia]|done|].
  exists self', L', op. split; [done|]. split; [done|]. split; [done|]. split; [done|].
  split; [rewrite <-Hcore, <-(snapshot_text _ _ _ (buffer_snapshot _ _ _ Hok) Hu'); by eapply shows_visible|].
  split; [apply (core_texts_checked _ _ _ (buffer_snapshot _ _ _ Hok) Hu'); by rewrite Hcore|].
  intros Hfits' Hheight'. pose proof (buffer_snapshot _ _ _ Hok) as Hs'.
  destruct (undo_or_redo_spec self' L' known transaction (flip (Transaction.edit_ids transaction) u) Hok Hfits' Hheight') as (self'' & L'' & op' & Hrun' & Hok' & Hcore' & Hu'' & _);
    [rewrite Hclock; simpl; lia| |exact Hu'|].
  { intros id Hid. destruct (Hids id Hid) as [[Hold Hne] Hc]. split; [split; [|done]|].
    - rewrite Hclock. eapply older_later; [| |exact Hold]; simpl; [done|lia].
    - pose proof (count_spec _ (undos_searchable _ _ Hs' (buffer_snapshot_fits _ Hfits')) (proj2 (ok_undos _ _ Hs')) id) as Hn.
      rewrite Hcount, decide_True in Hn by done. injection Hn as <-. lia. }
  assert (undoes (undo_map (snapshot self'')) u) as Hback by (intros id; by rewrite (Hu'' id), flip_twice).
  destruct (back_again (snapshot self) L (snapshot self'') L'' u) as [Hv Hchecked];
    [by eapply buffer_snapshot|by eapply buffer_snapshot|done|done|congruence|].
  exists self'', op'. split; [done|]. rewrite <-Hv. split; [by eapply shows_visible|].
  apply Hchecked, (snapshot_texts_fit (snapshot self)); [by eapply buffer_snapshot|apply Hfits].
Qed.

(** *** An edit that is undone and redone *)

(** Nothing is grouped with what comes next. *)
Definition finished self : Prop :=
  ∀ prev, last (History.undo_stack (history self)) = Some prev → HistoryEntry.suppress_grouping prev = true.

Lemma recorded_alone self self' now now' : History.transaction_depth (history self) = 0 → finished self → edit_recorded self self' now now' →
  ∃ e, History.undo_stack (history self') = History.undo_stack (history self) ++ [e] ∧ entry_edits e = [edit_timestamp self] ∧
    History.transaction_depth (history self') = 0.
Proof.
  intros Hdepth Hfin [Hd Hrec]. rewrite decide_True in Hrec by done. destruct Hrec as [id Hgroup].
  set (h1 := History.mk _ _ _ _ _ _) in Hgroup. set (e := transaction_entry _ _ _ _ _) in h1.
  exists e. split; [|split; [done|by rewrite Hd]].
  rewrite (group_again h1 (History.undo_stack (history self)) e []) in Hgroup.
  - by injection Hgroup as <- _.
  - by rewrite merged_nil.
  - intros prev Hprev. unfold History.joins. by rewrite (Hfin prev Hprev).
Qed.

(** The time of the next edit is in no undo entry. *)
Lemma count_unused self L known : buffer_ok self L known → ∀ ts, ¬ older (lamport_clock self) ts →
  count_of (undo_map (snapshot self)) ts = 0%N.
Proof. intros Hself ts Hts. unfold count_of. by rewrite (entries_unused _ _ _ _ Hself Hts). Qed.

(** After an edit is undone, what it inserted is hidden and the rest is as before. *)
Lemma undone_checked ts L es L1 ranges snap2 L2 : edited ts 0 0 0 (atoms L) es (atoms L1) ranges → snapshot_ok snap2 L2 →
  map core (atoms L2) = map core (atoms L1) → visible_of (atoms L2) = visible_of (atoms L) → text_fits (visible_of (atoms L)) →
  (N.of_nat (Str.len (deleted_of (atoms L)) + inserted_len es) <= u32_max)%N → texts_checked snap2.
Proof.
  intros [Hv1 Hd1]%edited_text_lengths Hs2 Hcore Hv2 Hv Hhidden. apply (snapshot_texts_checked _ _ Hs2). split; [by rewrite Hv2|].
  assert (full_of (atoms L2) = full_of (atoms L1)) as Hfull.
  { unfold full_of. change atom_char with (λ a, (core a).1.2). by rewrite <-!(map_map core (λ c, c.1.2)), Hcore. }
  pose proof (full_len (atoms L1)) as H1. rewrite <-Hfull, full_len, Hv2 in H1. unfold text_fits. lia.
Qed.

(** C6. An edit that is undone is gone, and redone is back.  When no transaction is
    open and the last one is finished, so that the edit is a transaction of its
    own, and what is hidden after the undo is below 4 GiB like the edited text,
    [undo] after [edit] does not panic and shows the text from before the edit,
    and [redo] after it shows the edited text again; all three buffers are well
    formed and no sum of text summaries in them overflows. *)
Theorem edit_undo_redo `{LineSeparatorsLaws} {S} `{!ToOffset S} self L known (edits : list ((S * S) * str)) es now now'
    (Hself : buffer_ok self L known) (Hfits : buffer_fits self) (Hroom : (value (lamport_clock self) + 4 < u32_max)%N)
    (Hdepth : History.transaction_depth (history self) = 0) (Hfin : finished self)
    (Hoffsets : edits_to_offsets (snapshot self) edits = Some es) (Hwithin : edits_within 0 (visible_of (atoms L)) es)
    (Htexts : Forall (λ e, str_ok e.2) (map normalized es)) (Hlen : (N.of_nat (inserted_len (map normalized es)) <= u32_max)%N)
    (Hresult : edits_fit (atoms L) (map normalized es))
    (Hhidden : (N.of_nat (Str.len (deleted_of (atoms L)) + inserted_len (map normalized es)) <= u32_max)%N) :
  ∃ self1 L1 op s1, edit self edits now now' = Some (self1, op) ∧ buffer_ok self1 L1 known ∧
    shows self1 s1 ∧ replaced_by 0 (visible_of (atoms L)) (map normalized es) s1 ∧ texts_checked (snapshot self1) ∧
    (buffer_fits self1 → undo_fits self1 [edit_timestamp self] →
     ∃ self2 L2 id op2, undo self1 = Some (self2, Some (id, op2)) ∧ buffer_ok self2 L2 known ∧ shows self2 (visible_of (atoms L)) ∧ texts_checked (snapshot self2) ∧
      (buffer_fits self2 → undo_fits self2 [edit_timestamp self] →
       ∃ self3 L3 op3, redo self2 = Some (self3, Some (id, op3)) ∧ buffer_ok self3 L3 known ∧ shows self3 s1 ∧ texts_checked (snapshot self3))).
Proof.
  set (ts := edit_timestamp self).
  destruct (edit_spec self L known edits es now now') as (self1 & L1 & ranges & Hrun & Hok1 & Hedited & Hundo & _ & _ & Hclock1 & Hrec & _); try done; [lia|].
  assert (¬ older (lamport_clock self) ts) as Hts.
  { unfold ts, edit_timestamp. rewrite decide_True by done. unfold older. cbn. lia. }
  pose proof (buffer_snapshot _ _ _ Hself) as Hs. destruct (recorded_alone _ _ _ _ Hdepth Hfin Hrec) as (e & Hstack & He & Hdepth1). fold ts in He, Hedited.
  eexists self1, L1, _, (visible_of (atoms L1)). split; [exact Hrun|]. split; [exact Hok1|]. split; [by eapply shows_visible|].
  split; [by eapply edited_visible|]. pose proof (buffer_snapshot _ _ _ Hok1) as Hs1.
  pose proof (edited_texts_fit _ _ _ _ _ Hedited Hresult) as Hshort. split; [by apply (snapshot_texts_checked _ L1)|]. intros Hfits1 Hheight1. rewrite <-He in Hheight1.
  set (u := λ id, (count_of (undo_map (snapshot self)) id mod 2 =? 1)%N).
  pose proof (undoes_count _ (undos_searchable _ _ Hs (buffer_snapshot_fits _ Hfits)) (proj2 (ok_undos _ _ Hs))) as Hu. fold u in Hu.
  assert (u ts = false) as Huts by (unfold u; by rewrite (count_unused _ _ _ Hself ts Hts)).
  rewrite <-Hundo in Hu.
  destruct (undo_spec self1 L1 known (History.undo_stack (history self)) e u Hok1 Hfits1 Hdepth1 Hheight1) as (self2 & L2 & op2 & Hrun2 & Hflip2 & Hh2 & _); [lia|exact Hu| |exact Hstack|].
  { intros id. rewrite He, Hundo. intros ->%list_elem_of_singleton. by rewrite (count_unused _ _ _ Hself ts Hts). }
  destruct Hflip2 as (Hok2 & Hcore2 & Hu2 & _ & Hclock2 & Hcount2 & _). rewrite He in Hu2.
  assert (visible_of (atoms L2) = visible_of (atoms L)) as Hv2.
  { rewrite (snapshot_text _ _ u Hs) by (by rewrite <-Hundo).
    rewrite <-(text_by_unused _ _ _ ts u (buffer_used _ _ _ Hself) Hts).
    rewrite <-(edited_text_by (flip [ts] u) _ _ _ _ _ _ _ _ Hedited), <-Hcore2; [|unfold flip; rewrite decide_True by set_solver; by rewrite Huts].
    by apply snapshot_text with (snapshot self2); [by eapply buffer_snapshot|]. }
  exists self2, L2, (entry_id e), op2. split; [done|]. split; [done|]. split; [rewrite <-Hv2; by eapply shows_visible|]. split.
  { apply (undone_checked ts L (map normalized es) L1 ranges _ L2); try done; [by eapply buffer_snapshot|].
    apply (snapshot_texts_fit (snapshot self)); [done|apply Hfits]. }
  intros Hfits2 Hheight2. rewrite <-He in Hheight2.
  destruct (redo_spec self2 L2 known (History.redo_stack (history self1)) e (flip [ts] u) Hok2 Hfits2) as (self3 & L3 & op3 & Hrun3 & Hflip3 & _); try done.
  - by rewrite Hh2.
  - rewrite Hclock2. cbn. lia.
  - intros id Hid. pose proof (count_spec _ (undos_searchable _ _ (buffer_snapshot _ _ _ Hok2) (buffer_snapshot_fits _ Hfits2))
      (proj2 (ok_undos _ _ (buffer_snapshot _ _ _ Hok2))) id) as Hn.
    rewrite Hcount2, decide_True, Hundo in Hn by done. rewrite He in Hid. apply list_elem_of_singleton in Hid as ->.
    rewrite (count_unused _ _ _ Hself ts Hts) in Hn. injection Hn as <-. vm_compute; done.
  - by rewrite Hh2.
  - destruct Hflip3 as (Hok3 & Hcore3 & Hu3 & _). rewrite He in Hu3. exists self3, L3, op3. split; [done|]. split; [done|].
    assert (undoes (undo_map (snapshot self3)) u) as Hback by (intros id; by rewrite (Hu3 id), flip_twice).
    destruct (back_again (snapshot self1) L1 (snapshot self3) L3 u) as [Hv3 Hchecked]; [done|by eapply buffer_snapshot|done|done|congruence|].
    split; [rewrite <-Hv3; by eapply shows_visible|by apply Hchecked].
Qed.

(** ** An example *)

Lemma Str_split_inj (a b c d : str) : a ++ c = b ++ d → Str.len a = Str.len b → a = b ∧ c = d.
Proof.
  revert b. induction a as [|x a IH]; intros [|y b]; simpl.
  - done.
  - intros _ Hlen. pose proof (str_nonempty (y :: b) ltac:(done)). change (Str.len []) with 0 in Hlen. lia.
  - intros _ Hlen. pose proof (str_nonempty (x :: a) ltac:(done)). change (Str.len []) with 0 in Hlen. lia.
  - intros [= -> Hrest]. change (y :: a) with ([y] ++ a). change (y :: b) with ([y] ++ b). rewrite !Str_len_app. intros Hlen.
    destruct (IH b Hrest) as [-> ->]; [lia|done].
Qed.

(** The edits say what the text becomes. *)
Lemma replaced_by_unique pos s es s1 s2 : replaced_by pos s es s1 → replaced_by pos s es s2 → s1 = s2.
Proof.
  revert pos s s1 s2. induction es as [|[range text] es IH]; intros pos s s1 s2; simpl; [by intros -> ->|].
  intros (g1 & o1 & r1 & r1' & -> & -> & Hs1 & He1 & H1) (g2 & o2 & r2 & r2' & Heq & -> & Hs2 & He2 & H2).
  destruct (Str_split_inj g1 g2 _ _ Heq) as [-> Hrest]; [lia|].
  destruct (Str_split_inj o1 o2 _ _ Hrest) as [-> ->]; [lia|]. by rewrite (IH _ _ _ _ H1 H2).
Qed.

(** The height conditions, decided. *)
Section decide.
Context self.

Definition undo_fits_b (ids : list Lamport) : bool :=
  match count_undos (undo_map (snapshot self)) ∅ ids with
  | Some counts =>
      match UndoMap.insert (undo_map (snapshot self)) (mkUndoOperation (lamport_clock self) (version self) counts) with
      | Some undos => Node.height undos <? STACK_CAPACITY
      | None => true
      end
  | None => true
  end.

Lemma undo_fits_decided ids : undo_fits_b ids = true → undo_fits self ids.
Proof.
  unfold undo_fits_b. intros Hb counts Hcounts undos Hundos. rewrite Hcounts, Hundos in Hb. by apply Nat.ltb_lt.
Qed.

Definition buffer_fits_b : bool :=
  let s := snapshot self in
  forallb (λ h, h <? STACK_CAPACITY)
    [Node.height (fragments s); slice_height (visible_text s); slice_height (deleted_text s); Node.height (insertions s);
     Node.height (snapshot_slices s); Node.height (undo_map s); Node.height (operations self); Node.height (deferred_ops self)] &&
  forallb (λ n, N.of_nat n <=? u32_max)%N [Rope.len (visible_text s); Rope.len (deleted_text s)].

Lemma buffer_fits_decided : buffer_fits_b = true → buffer_fits self.
Proof.
  intros [Hh Hl]%andb_true_iff. rewrite forallb_forall in Hh. rewrite forallb_forall in Hl.
  assert (∀ h, In h _ → h < STACK_CAPACITY) as Hh' by (intros h Hin; by apply Nat.ltb_lt, (Hh h Hin)).
  assert (∀ n, In n _ → (N.of_nat n <= u32_max)%N) as Hl' by (intros n Hin; by apply N.leb_le, (Hl n Hin)).
  clear Hh Hl. split; [split|..]; first [apply Hh'; simpl; tauto|apply Hl'; simpl; tauto].
Qed.
End decide.

(** Of a result, if there is one. *)
Definition holds_of {A} (P : A → bool) (o : option A) : bool := match o with Some a => P a | None => true end.

Lemma holds_of_some {A} (P : A → bool) o a : holds_of P o = true → o = Some a → P a = true.
Proof. by intros Hp ->. Qed.

Module BufferExample.
Import SeparatorsExample.

(** The text is [h], [é], a carriage return and a line feed, [€] and [!]. *)
Definition text : str := [104; 233; 13; 10; 0x20AC; 33]%N.
Definition normal : str := [104; 233; 10; 0x20AC; 33]%N.

Definition buffer : Buffer :=
  match new 1%N 7%N text with
  | Some self => self
  | None =>
      mk (mkSnapshot Rope.new Rope.new SumTree.new SumTree.new TreeMap.default UndoMap.default Global.new 7%N 1%N LineEnding.Unix)
        (History.new Rope.new) OperationQueue.new ∅ (Lamport.new 1%N) [] (mkHeap ∅ 0)
  end.

Lemma buffer_made : new 1%N 7%N text = Some buffer.
Proof. by vm_compute. Qed.

Lemma text_fine : str_ok text.
Proof. apply (bool_decide_unpack _). by vm_compute. Qed.

Lemma text_short : (N.of_nat (Str.len text) <= u32_max)%N.
Proof. by vm_compute. Qed.

Lemma buffer_holds : ∃ L, buffer_ok buffer L ∅ ∧ buffer_fits buffer ∧ visible_of (atoms L) = normal ∧ deleted_of (atoms L) = [].
Proof.
  destruct (new_spec 1%N 7%N text text_fine text_short) as (self & L & le & Hrun & _ & Hok & Hfits & Hv & Hd & _); [done|].
  rewrite buffer_made in Hrun. apply (inj Some) in Hrun. rewrite <-Hrun in Hok, Hfits. exists L. split_and!; [done..| |done]. rewrite Hv. by vm_compute.
Qed.

(** Replace [é] and the line feed by [x] and a carriage return, and append [?]. *)
Definition changes : list ((nat * nat) * str) := [((1, 4), [120; 13]%N); ((8, 8), [63]%N)].
Definition offsets : list (Range * str) := [(Range.mk 1 4, [120; 13]%N); (Range.mk 8 8, [63]%N)].

Lemma changes_offsets : edits_to_offsets (snapshot buffer) changes = Some offsets.
Proof. by vm_compute. Qed.

Lemma offsets_within : edits_within 0 normal offsets.
Proof.
  exists [104]%N, [233; 10]%N, [0x20AC; 33]%N. do 3 (split; [done|]). exists [0x20AC; 33]%N, [], []. by do 3 (split; [done|]).
Qed.

Lemma offsets_texts : Forall (λ e, str_ok e.2) (map normalized offsets) ∧ (N.of_nat (inserted_len (map normalized offsets)) <= u32_max)%N.
Proof. split; [apply (bool_decide_unpack _)|]; by vm_compute. Qed.

Lemma offsets_fit L : visible_of (atoms L) = normal → deleted_of (atoms L) = [] → edits_fit (atoms L) (map normalized offsets) ∧
  (N.of_nat (Str.len (deleted_of (atoms L)) + inserted_len (map normalized offsets)) <= u32_max)%N.
Proof. intros Hv Hd. unfold edits_fit. rewrite Hv, Hd. by vm_compute. Qed.

(** The text with the edits. *)
Definition changed : str := [104; 120; 10; 0x20AC; 33; 63]%N.

Lemma changes_replace : replaced_by 0 normal (map normalized offsets) changed.
Proof.
  exists [104]%N, [233; 10]%N, [0x20AC; 33]%N, [0x20AC; 33; 63]%N. do 4 (split; [by vm_compute|]).
  exists [0x20AC; 33]%N, [], [], []. by do 4 (split; [by vm_compute|]).
Qed.

(** What the edit makes can be undone, and that can be redone. *)
Definition edited : option (Buffer * Operation) := edit buffer changes 0%N 1%N.
Definition ready (self : Buffer) : bool := buffer_fits_b self && undo_fits_b self [edit_timestamp buffer].

Lemma ready_fits self : ready self = true → buffer_fits self ∧ undo_fits self [edit_timestamp buffer].
Proof. intros [Hf Hu]%andb_true_iff. split; [by apply buffer_fits_decided|by apply undo_fits_decided]. Qed.

Lemma edited_ready : holds_of (λ r, ready r.1 && holds_of (λ r, ready r.1) (undo r.1)) edited = true.
Proof. by vm_compute. Qed.

Lemma edited_fits self op : edited = Some (self, op) → ready self = true ∧ holds_of (λ r, ready r.1) (undo self) = true.
Proof. intros Hrun. pose proof (holds_of_some _ _ _ edited_ready Hrun) as Hready. by apply andb_true_iff in Hready. Qed.

Lemma edited_again : let id := edit_timestamp buffer in
  holds_of (λ r, (value (lamport_clock r.1) + 1 <? u32_max)%N &&
    bool_decide (undoable (lamport_clock r.1) id ∧ (count_of (undo_map (snapshot r.1)) id + 1 < u32_max)%N) &&
    holds_of (λ r, ready r.1) (undo_or_redo r.1 (Transaction.mk id [id] Global.new))) edited = true.
Proof. by vm_compute. Qed.
End BufferExample.
Import SeparatorsExample.

Lemma buffer_new_holds_witness : ∃ self L le, new 1%N 7%N BufferExample.text = Some self ∧
  LineEnding.detect BufferExample.text = Some le ∧ buffer_ok self L ∅ ∧ shows self BufferExample.normal ∧ le = LineEnding.Windows.
Proof.
  destruct (buffer_new_holds 1%N 7%N BufferExample.text BufferExample.text_fine BufferExample.text_short ltac:(done))
    as (self & L & le & Hrun & Hle & Hok & _ & Hshows & _).
  exists self, L, le. split; [exact Hrun|]. split; [exact Hle|]. split; [exact Hok|]. split; [exact Hshows|].
  vm_compute in Hle. by injection Hle.
Defined.

Lemma local_edit_replaces_witness : ∃ self' L' op, edit BufferExample.buffer BufferExample.changes 0%N 1%N = Some (self', op) ∧
  buffer_ok self' L' ∅ ∧ shows self' BufferExample.changed.
Proof.
  destruct BufferExample.buffer_holds as (L & Hok & Hfits & Hv & Hd). destruct (BufferExample.offsets_fit L Hv Hd) as [Hresult Hhidden].
  assert (edits_within 0 (visible_of (atoms L)) BufferExample.offsets) as Hwithin by (rewrite Hv; apply BufferExample.offsets_within).
  destruct (local_edit_replaces BufferExample.buffer L ∅ BufferExample.changes BufferExample.offsets 0%N 1%N Hok Hfits
    ltac:(by vm_compute) BufferExample.changes_offsets Hwithin (proj1 BufferExample.offsets_texts) (proj2 BufferExample.offsets_texts) Hresult)
    as (self' & L' & ranges & s' & Hrun & Hshows & Hrep & Hok' & _).
  exists self', L'. eexists. split; [exact Hrun|]. split; [exact Hok'|].
  assert (s' = BufferExample.changed) as ->; [|exact Hshows].
  rewrite Hv in Hrep. eapply replaced_by_unique; [exact Hrep|apply BufferExample.changes_replace].
Defined.

Lemma edit_undo_redo_witness : ∃ self1 L1 op self2 L2 id op2 self3 L3 op3,
  edit BufferExample.buffer BufferExample.changes 0%N 1%N = Some (self1, op) ∧ buffer_ok self1 L1 ∅ ∧ shows self1 BufferExample.changed ∧
  undo self1 = Some (self2, Some (id, op2)) ∧ buffer_ok self2 L2 ∅ ∧ shows self2 BufferExample.normal ∧
  redo self2 = Some (self3, Some (id, op3)) ∧ buffer_ok self3 L3 ∅ ∧ shows self3 BufferExample.changed.
Proof.
  destruct BufferExample.buffer_holds as (L & Hok & Hfits & Hv & Hd). destruct (BufferExample.offsets_fit L Hv Hd) as [Hresult Hhidden].
  assert (edits_within 0 (visible_of (atoms L)) BufferExample.offsets) as Hwithin by (rewrite Hv; apply BufferExample.offsets_within).
  assert (finished BufferExample.buffer) as Hfin by (intros prev; by vm_compute).
  destruct (edit_undo_redo BufferExample.buffer L ∅ BufferExample.changes BufferExample.offsets 0%N 1%N Hok Hfits
    ltac:(by vm_compute) ltac:(by vm_compute) Hfin BufferExample.changes_offsets Hwithin (proj1 BufferExample.offsets_texts)
    (proj2 BufferExample.offsets_texts) Hresult Hhidden) as (self1 & L1 & op & s1 & Hrun & Hok1 & Hshows & Hrep & _ & Hundo).
  rewrite Hv in Hrep. pose proof (replaced_by_unique _ _ _ _ _ Hrep BufferExample.changes_replace) as ->.
  destruct (BufferExample.edited_fits self1 op Hrun) as [[Hfits1 Hheight1]%BufferExample.ready_fits Hready2].
  destruct (Hundo Hfits1 Hheight1) as (self2 & L2 & id & op2 & Hrun2 & Hok2 & Hshows2 & _ & Hredo).
  destruct (BufferExample.ready_fits self2 (holds_of_some _ _ _ Hready2 Hrun2)) as [Hfits2 Hheight2].
  destruct (Hredo Hfits2 Hheight2) as (self3 & L3 & op3 & Hrun3 & Hok3 & Hshows3 & _). rewrite Hv in Hshows2.
  exists self1, L1, op, self2, L2, id, op2, self3, L3, op3.
  repeat (split; [assumption|]). assumption.
Defined.


Lemma undo_flips_transaction_witness : let ids := [edit_timestamp BufferExample.buffer] in
  let transaction := Transaction.mk (edit_timestamp BufferExample.buffer) ids Global.new in
  ∃ self1 op L1 u self2 L2 op2 self3 op3, edit BufferExample.buffer BufferExample.changes 0%N 1%N = Some (self1, op) ∧
    undo_or_redo self1 transaction = Some (self2, op2) ∧ buffer_ok self2 L2 ∅ ∧
    shows self2 (text_by (flip ids u) (map core (atoms L1))) ∧ undo_or_redo self2 transaction = Some (self3, op3) ∧
    shows self3 BufferExample.changed.
Proof.
  intros ids transaction. destruct BufferExample.buffer_holds as (L & Hok & Hfits & Hv & Hd). destruct (BufferExample.offsets_fit L Hv Hd) as [Hresult Hhidden].
  assert (edits_within 0 (visible_of (atoms L)) BufferExample.offsets) as Hwithin by (rewrite Hv; apply BufferExample.offsets_within).
  destruct (edit_spec BufferExample.buffer L ∅ BufferExample.changes BufferExample.offsets 0%N 1%N Hok Hfits
    ltac:(by vm_compute) BufferExample.changes_offsets Hwithin (proj1 BufferExample.offsets_texts) (proj2 BufferExample.offsets_texts))
    as (self1 & L1 & ranges & Hrun & Hok1 & Hedited & _).
  pose proof (edited_visible _ _ _ _ _ _ _ _ Hedited) as Hrep. rewrite Hv in Hrep.
  pose proof (replaced_by_unique _ _ _ _ _ Hrep BufferExample.changes_replace) as Hchanged.
  destruct (BufferExample.edited_fits self1 _ Hrun) as [[Hfits1 Hheight1]%BufferExample.ready_fits _].
  destruct (undoes_exist self1 L1 ∅ Hok1 Hfits1) as [u Hu].
  pose proof (holds_of_some _ _ _ BufferExample.edited_again Hrun) as Hready.
  apply andb_true_iff in Hready as [[Hroom Hidsb]%andb_true_iff Hready].
  destruct (undo_flips_transaction self1 L1 ∅ transaction u Hok1 Hfits1 Hheight1) as (self2 & L2 & op2 & Hrun2 & Hok2 & _ & _ & Hshows2 & _ & Hagain);
    [by apply N.ltb_lt|exact Hu| | |].
  { intros id ->%list_elem_of_singleton. exact (bool_decide_eq_true_1 _ Hidsb). }
  { apply core_fits_full. destruct (edited_text_lengths _ _ _ _ _ _ _ _ Hedited) as [Hl1 Hl2]. rewrite Hd in Hl2. rewrite Hv in Hl1.
    change (Str.len []) with 0 in Hl2. unfold text_fits. rewrite full_len, Hl2, Nat.add_0_l, Hl1. by vm_compute. }
  destruct (BufferExample.ready_fits self2 (holds_of_some _ _ _ Hready Hrun2)) as [Hfits2 Hheight2].
  destruct (Hagain Hfits2 Hheight2) as (self3 & op3 & Hrun3 & Hshows3 & _). rewrite Hchanged in Hshows3.
  exists self1. eexists. exists L1, u, self2, L2, op2, self3, op3. split; [exact Hrun|]. repeat (split; [assumption|]). assumption.
Defined.
