(* ===== verification/Receive.v ===== *)
(** * Applying the operations of other replicas

    [apply_op] on a well-formed buffer: an edit makes the atoms that [merged] says,
    an undo adds its counts; either way the buffer stays well formed, and stands
    for one operation more of the log. *)

From S2P Require Import Prelude Clock Locator SumTree SumTreeFacts Seek Cursor CursorFacts CursorWalk Keyed KeyedFacts UndoMap TreeMap TreeMapFacts Patch PatchFacts Subscription Utf8 TextSummary RopeTree Rope RopeFacts RopeSeek RopeCut LineEnding LineEndingFacts Operation OperationQueue History HistoryFacts Fragment FragmentFacts Snapshot EditSpec EditInv EditState EditSteps EditFinish EditFacts Undo UndoFinds UndoFacts Remote RemoteSeek RemoteSpec RemoteSteps RemoteDelete RemoteFacts Replay Buffer BufferFacts BufferEdit BufferUndo.

Import Buffer.

Implicit Types (self : Buffer) (L : list piece) (A : list Atom) (known : gmap nat (list N)) (op q : Operation) (log : list Operation) (v w : Global) (t : Lamport).

Lemma core_alike A A' : map core A = map core A' → all_alike A A'.
Proof.
  revert A'. induction A as [|a A IH]; intros [|a' A'] Hcore; try done. cbn [map] in Hcore. injection Hcore as Hi Ho Hc Hd Hrest.
  constructor; [|by apply IH]. split; [done..|by rewrite Hd].
Qed.

(** ** The replica and the log *)

Section replica.
Context (base : list Atom) (start : Global).

Abbreviation cut := (cut start) (only parsing).
Abbreviation log_ok := (log_ok base start) (only parsing).
Abbreviation applied_by log v := (filter (λ q, observes v q = true) log) (only parsing).

(** The buffer has applied the operations of the log that its version observes. *)
Record follows log self L : Prop := {
  follows_cut : cut log (version self);
  follows_atoms : all_alike (atoms L) (replay log base (applied_by log (version self)));
  follows_undos x : x ∈ to_list (undo_map (snapshot self)) ↔ ∃ undo, Operation.Undo undo ∈ log ∧
    Global.observed (version self) (UndoMap.timestamp undo) = true ∧ op_entry undo x;
  follows_clock t : Global.observed (version self) t = true → (value t < value (lamport_clock self))%N;
  follows_own op : op ∈ log → Operation.replica_id op = replica_id self → observes (version self) op = true;
}.

(** The base text is known from the start, and nothing of it is deleted. *)
Context (Hbase : Forall (λ a, Global.observed start (atom_insertion a) = true ∧ atom_deletions a = []) base).

Lemma all_alike_elem A A' a : all_alike A A' → a ∈ A → ∃ a', a' ∈ A' ∧ alike a a'.
Proof.
  induction 1 as [|b b' A A' Hb HA IH]; [by intros ?%not_elem_of_nil|]. intros [->|Ha]%elem_of_cons; [by exists b'; split; [left|]|].
  destruct (IH Ha) as (a' & Ha' & ?). exists a'. by split; [right|].
Qed.

(** The version has observed every timestamp in use. *)
Lemma follows_observed log self L t : log_ok log → follows log self L → used (snapshot self) L t → Global.observed (version self) t = true.
Proof.
  intros Hlog Hself [(a & Ha & Ht)|(x & Hx & Ht)].
  - destruct (all_alike_elem _ _ _ (follows_atoms _ _ _ Hself) Ha) as (a' & Ha' & [Hi _ _ Hd]).
    assert (Forall (λ a, Global.observed (version self) (atom_insertion a) = true ∧
      Forall (λ t, Global.observed (version self) t = true) (atom_deletions a)) (replay log base (applied_by log (version self)))) as Hall.
    { apply replay_all.
      - eapply Forall_impl; [exact Hbase|]. intros b [Hb ->]. split; [by apply (cut_start _ _ _ (follows_cut _ _ _ Hself))|done].
      - intros op [Hobs _]%list_elem_of_filter. by apply (names_last (λ t, Global.observed (version self) t = true)). }
    rewrite Forall_forall in Hall. destruct (Hall a' Ha') as [Hi' Hd']. rewrite Forall_forall in Hd'.
    destruct Ht as [->|Ht]; [by rewrite Hi|]. apply Hd'. by rewrite <-Hd.
  - apply (follows_undos _ _ _ Hself) in Hx as (undo & Hin & Hobs & Hid & Hc).
    destruct Ht as [->| ->]; [|by rewrite Hid]. apply (cut_closed _ _ _ (follows_cut _ _ _ Hself) _ Hin Hobs).
    destruct (list_elem_of_split _ _ Hin) as (past & rest & Heq). rewrite Heq in Hlog.
    pose proof (entry_content _ _ _ _ (log_entry_at _ _ _ _ _ Hlog)) as Hcontent. by apply Hcontent.
Qed.

(** What the undo map says at a version is what the log says. *)
Lemma follows_undone log self L known w t : buffer_ok self L known → buffer_fits self → follows log self L → extends (version self) w →
  undone_at w (undo_map (snapshot self)) t = undone_by log w t.
Proof.
  intros Hok Hfits Hself Hw. pose proof (buffer_snapshot _ _ _ Hok) as Hs. unfold undone_at, undone_by.
  rewrite (was_undone_spec _ (undos_searchable _ _ Hs (buffer_snapshot_fits _ Hfits)) (proj2 (ok_undos _ _ Hs))). simpl.
  rewrite (max_list_ext _ (counts_at log w t)); [done|]. intros c. rewrite counts_at_elem, list_elem_of_fmap. split.
  - intros (x & -> & [Hobs [Hid Hx]%list_elem_of_filter]%list_elem_of_filter).
    apply (follows_undos _ _ _ Hself) in Hx as (undo & Hin & _ & Hx1 & Hx2). exists undo. rewrite <-Hid, Hx2, <-Hx1. split_and!; [done| |done].
    by destruct (Global.observed w _).
  - intros (undo & Hin & Hobs & Hc). exists (mkUndoMapEntry (mkUndoMapKey t (UndoMap.timestamp undo)) c). split; [done|].
    unfold entries_of. rewrite !list_elem_of_filter. split_and!; [by apply Is_true_eq_left|done|].
    apply (follows_undos _ _ _ Hself). exists undo. split_and!; [done|by apply Hw|done].
Qed.
(** ** Receiving an operation *)

Section receive.
Context self L known log op (Hok : buffer_ok self L known) (Hfits : buffer_fits self).
Context (Hlog : log_ok log) (Hself : follows log self L) (Hop : op ∈ log).
Context (Hnew : observes (version self) op = false) (Hext : extends (version self) (Operation.version op)).

Abbreviation timestamp := (Operation.timestamp op) (only parsing).

Lemma receive_other : Clock.replica_id timestamp ≠ Clock.replica_id (lamport_clock self).
Proof. intros Heq. pose proof (follows_own _ _ _ Hself op Hop Heq). congruence. Qed.

Lemma receive_entry : ∃ past, entry_ok base start past op.
Proof. destruct (list_elem_of_split _ _ Hop) as (past & rest & Heq). exists past. rewrite Heq in Hlog. by apply log_entry_at in Hlog. Qed.

Lemma receive_observable : observable timestamp.
Proof. destruct receive_entry as [past He]. exact (entry_observable _ _ _ _ He). Qed.

Lemma receive_unused t : used (snapshot self) L t → t ≠ timestamp.
Proof. intros Ht ->. pose proof (follows_observed _ _ _ _ Hlog Hself Ht). unfold observes in Hnew. congruence. Qed.

(** The replica's own timestamps are in the past of its clock. *)
Lemma receive_older t : used (snapshot self) L t ∨ t = timestamp ∨ Global.observed (version self) t = true → older (lamport_clock self) t.
Proof.
  intros [Ht|[->|Ht]]; [by apply (buffer_used _ _ _ Hok)|by intros ?%receive_other|intros _; by apply (follows_clock _ _ _ Hself)].
Qed.

Lemma receive_entries : entries_of timestamp (to_list (undo_map (snapshot self))) = [].
Proof.
  unfold entries_of. destruct (filter _ _) as [|x l] eqn:Hf; [done|]. exfalso. assert (x ∈ x :: l) as Hx by left. rewrite <-Hf in Hx.
  apply list_elem_of_filter in Hx as [Hid Hx]. apply (receive_unused timestamp); [|done]. right. exists x. auto.
Qed.

Lemma receive_fresh : fresh (snapshot self) L timestamp.
Proof.
  split.
  - intros a Ha Heq. apply (receive_unused (atom_insertion a)); [|done]. left. exists a. auto.
  - unfold UndoMap.is_undone. pose proof (undos_searchable _ _ (buffer_snapshot _ _ _ Hok) (buffer_snapshot_fits _ Hfits)) as Hsearch.
    rewrite (undo_count_spec _ Hsearch (proj2 (ok_undos _ _ (buffer_snapshot _ _ _ Hok)))). cbn [mbind option_bind]. by rewrite receive_entries.
Qed.

Lemma receive_later : later_than_seen (Operation.version op) timestamp (atoms L).
Proof.
  intros a Ha Hseen. destruct (all_alike_elem _ _ _ (follows_atoms _ _ _ Hself) Ha) as (a' & Ha' & [Hi _ _ _]).
  unfold seen, before_edit in *. rewrite Hi in *.
  assert (Forall (λ a, insertion_of base log (atom_insertion a)) (replay log base (applied_by log (version self)))) as Hall.
  { apply replay_all; [apply base_inserted|]. intros q [_ Hq]%list_elem_of_filter. apply (insertion_lasts (insertion_of base log)). right. by exists q. }
  rewrite Forall_forall in Hall. rewrite cmp_opp. by rewrite (log_after_seen _ _ _ _ Hlog Hop _ (Hall a' Ha') Hseen).
Qed.

(** *** The snapshot *)

(** The snapshot of the operation, before its timestamp is observed. *)
Definition received (snap : BufferSnapshot) L' (P : Patch.t) : Prop :=
  snapshot_ok snap L' ∧ snapshot_version snap = version self ∧
  (∀ t, used snap L' t → used (snapshot self) L t ∨ t = timestamp ∨ Global.observed (version self) t = true) ∧
  all_alike (atoms L') (applied log (replay log base (applied_by log (version self))) op) ∧
  (∀ x, x ∈ to_list (undo_map snap) ↔ x ∈ to_list (undo_map (snapshot self)) ∨ ∃ undo, op = Operation.Undo undo ∧ op_entry undo x) ∧
  relates P (text_bytes L) (text_bytes L').

Lemma receive_edit edit : op = Operation.Edit edit →
  ∃ snap L' patch, RemoteEdit.apply_remote_edit (EditOperation.version edit) (EditOperation.timestamp edit) (snapshot self)
      (EditOperation.ranges edit) (EditOperation.new_text edit) = Some (snap, patch) ∧ received snap L' (default Patch.empty patch).
Proof.
  intros Heq. pose proof Hop as Hop'. pose proof Hext as Hext'. rewrite Heq in Hop', Hext'.
  destruct (deliver_content _ _ _ _ _ Hlog (follows_cut _ _ _ Hself) Hop' Hext') as (Hlength & Htexts & Hlen & Hwithin).
  rewrite <-(alike_seen_of _ _ _ (follows_atoms _ _ _ Hself)) in Hwithin.
  pose proof receive_observable as Hts. pose proof receive_later as Hlater. pose proof receive_fresh as Hfresh.
  pose proof (receive_unused) as Hunused. rewrite Heq in Hts, Hlater, Hfresh. simpl in Hts, Hlater, Hfresh.
  destruct (apply_remote_spec (snapshot self) L _ _ (buffer_snapshot _ _ _ Hok) (buffer_snapshot_fits _ Hfits) Hts Hlater
    (EditOperation.ranges edit) (EditOperation.new_text edit) Hlength Hfresh Hwithin Htexts Hlen)
    as (snap & L' & patch & Hrun & Hsnap & Hatoms & HP & Hrev & Hundo & Hver & _).
  exists snap, L', patch. split; [done|]. split_and!; [done|done| | | |done].
  - intros t [(a & Ha & Ht)|Ht]; [|left; right; by rewrite <-Hundo].
    destruct (revises_origin _ _ _ Hrev a Ha) as [HaL|[(a0 & Ha0 & ->)|(Hi & Hd & _)]].
    + left. left. by exists a.
    + cbn [struck atom_insertion atom_deletions] in Ht. rewrite elem_of_app, list_elem_of_singleton in Ht. rewrite Heq.
      destruct Ht as [Ht|[Ht|Ht]]; [left; left; exists a0; auto|left; left; exists a0; auto|by right; left].
    + rewrite Hi, Hd in Ht. rewrite Heq. destruct Ht as [->|Ht%not_elem_of_nil]; [by right; left|done].
  - rewrite Hatoms, Heq. apply merged_alike; [|apply Hself]. intros t. by eapply follows_undone.
  - intros x. rewrite Hundo. split; [by left|]. intros [?|(undo & Hu & _)]; [done|]. by rewrite Heq in Hu.
Qed.

Lemma receive_undo undo : op = Operation.Undo undo →
  (∀ undos, UndoMap.insert (undo_map (snapshot self)) undo = Some undos → Node.height undos < STACK_CAPACITY) →
  ∃ snap L' P, UndoEdits.apply_undo (snapshot self) undo = Some (snap, P) ∧ received snap L' P.
Proof.
  intros Heq Hheight. destruct receive_entry as [past He]. pose proof (entry_content _ _ _ _ He) as Hcontent. rewrite Heq in Hcontent.
  pose proof receive_observable as Hts. pose proof receive_unused as Hunused. rewrite Heq in Hts, Hunused. simpl in Hts, Hunused.
  pose proof (buffer_snapshot _ _ _ Hok) as Hs. pose proof (undos_searchable _ _ Hs (buffer_snapshot_fits _ Hfits)) as Hsearch.
  assert (counts undo !! base_timestamp = None) as Hbase'.
  { destruct (counts undo !! base_timestamp) as [n|] eqn:Hn; [|done]. destruct (Hcontent base_timestamp) as [Hne _]; [by rewrite Hn|done]. }
  assert (∀ x, x ∈ to_list (undo_map (snapshot self)) → undo_id (UndoMap.entry_key x) ≠ UndoMap.timestamp undo) as Hfresh.
  { intros x Hx. apply Hunused. right. exists x. auto. }
  destruct (apply_undo_spec (snapshot self) L undo Hs (buffer_snapshot_fits _ Hfits) Hts Hbase' Hfresh Hheight)
    as (snap & L' & P & Hrun & Hsnap & Hcore & _ & HP & Hins & _ & _ & Hver & _).
  destruct (insert_spec (undo_map (snapshot self)) undo Hsearch (proj2 (ok_undos _ _ Hs)) Hfresh) as (undos & Hins2 & _ & _ & Helems).
  rewrite Hins in Hins2. apply (inj Some) in Hins2 as <-.
  exists snap, L', P. split; [done|]. split_and!; [done|done| | | |done].
  - intros t [(a & Ha & Ht)|(x & [Hx|[Hid Hc]]%Helems & Ht)].
    + left. left. destruct (core_elem _ _ a Hcore Ha) as (a' & Ha' & [= Hi _ _ Hd]). exists a'. split; [done|]. by rewrite <-Hi, <-Hd.
    + left. right. by exists x.
    + right. destruct Ht as [->| ->]; [|left; by rewrite Heq]. right. apply Hext. rewrite Heq. by apply Hcontent; rewrite Hc.
  - rewrite Heq. cbn [applied]. etrans; [by apply core_alike|apply Hself].
  - intros x. rewrite Helems, Heq. split; (intros [?|Hx]; [by left|right]); [by exists undo|]. by destruct Hx as (undo' & [= ->] & ?).
Qed.

(** *** The buffer *)

(** The snapshot takes its place, and what changed is published if there is a patch. *)
Definition replace_snapshot (snap : BufferSnapshot) (patch : option Patch.t) : option Buffer :=
  match patch with Some patch => publish (set_snapshot self snap) patch | None => Some (set_snapshot self snap) end.

Lemma receive_replace snap L' patch : received snap L' (default Patch.empty patch) →
  ∃ subs heap, replace_snapshot snap patch = Some (set_topic (set_snapshot self snap) subs heap) ∧
    buffer_ok (set_topic (set_snapshot self snap) subs heap) L' known.
Proof.
  intros (Hsnap & Hver & Hused & _ & _ & HP). 
  assert (canonical (snapshot_version snap)) as Hcan by (rewrite Hver; apply Hok).
  assert (∀ t, used snap L' t → older (lamport_clock self) t) as Holder by (intros t Ht; by apply receive_older, Hused).
  destruct (ok_publish self L known snap L' (default Patch.empty patch) Hok Hsnap Hcan Holder HP) as (subs & heap & Hrun & Hok').
  destruct patch as [P|]; [by exists subs, heap|]. exists (subscriptions self), (patches self). split; [done|].
  assert (text_bytes L = text_bytes L') as Htext by exact HP. destruct Hok as [_ Hc Hv _ Hh He Ho Hd Hsub Hq]. destruct Hok' as [_ _ _ Hu _ _ _ _ _ _].
  split; try done. cbn [set_topic set_snapshot subscriptions patches]. by rewrite <-Htext.
Qed.

(** What an operation asks for: trees that a cursor can walk and room on the clock. *)
Record affordable : Prop := {
  afford_clock : (N.max (value (lamport_clock self)) (value timestamp) < u32_max)%N;
  afford_undo undo undos : op = Operation.Undo undo → UndoMap.insert (undo_map (snapshot self)) undo = Some undos →
    Node.height undos < STACK_CAPACITY;
}.

Lemma receive_snapshot : affordable → ∃ snap L' patch, received snap L' (default Patch.empty patch) ∧
  apply_op self op = (self ← replace_snapshot snap patch; self ← observe_version self timestamp; observe_clock self timestamp).
Proof.
  intros [_ Hundo]. unfold apply_op. unfold observes in Hnew. rewrite Hnew.
  assert ((∃ edit, op = Operation.Edit edit) ∨ ∃ undo, op = Operation.Undo undo) as [[edit Heq]|[undo Heq]] by (destruct op; eauto).
  - destruct (receive_edit edit Heq) as (snap & L' & patch & Hrun & Hrec). exists snap, L', patch. split; [done|].
    rewrite Heq, Hrun. by destruct patch.
  - destruct (receive_undo undo Heq) as (snap & L' & P & Hrun & Hrec); [intros undos; by apply Hundo|].
    exists snap, L', (Some P). split; [done|]. rewrite Heq. unfold apply_undo. by rewrite Hrun.
Qed.

Lemma observe_room clock t : (N.max (value clock) (value t) < u32_max)%N →
  Lamport.observe clock t = Some (mkLamport (N.max (value clock) (value t) + 1) (Clock.replica_id clock)).
Proof. intros Hroom. unfold Lamport.observe, checked_add. by rewrite (proj2 (N.leb_le _ _)) by lia. Qed.

(** The buffer has applied one operation more. *)
Lemma receive_spec : affordable → ∃ self' L', apply_op self op = Some self' ∧ buffer_ok self' L' known ∧ follows log self' L' ∧
  (∀ q, q ∈ log → observes (version self') q = true ↔ observes (version self) q = true ∨ q = op) ∧
  extends (version self') (version self) ∧
  history self' = history self ∧ deferred_ops self' = deferred_ops self ∧ deferred_replicas self' = deferred_replicas self ∧
  replica_id self' = replica_id self ∧ (value (lamport_clock self) <= value (lamport_clock self'))%N.
Proof.
  intros Hafford. pose proof Hafford as [Hroom _]. destruct (receive_snapshot Hafford) as (snap & L' & patch & Hrec & ->).
  destruct (receive_replace snap L' patch Hrec) as (subs & heap & -> & Hok1). cbn [mbind option_bind].
  set (self1 := set_topic _ _ _) in *. destruct Hrec as (_ & Hver & _ & Halike & Hundos & _).
  destruct (ok_version self1 L' known timestamp Hok1 receive_observable) as (v & -> & Hv & Hok2). cbn [mbind option_bind].
  set (self2 := set_snapshot self1 _) in *. unfold observe_clock.
  assert (version self1 = version self) as Hver1 by exact Hver. rewrite Hver1 in Hv.
  change (lamport_clock self2) with (lamport_clock self). rewrite observe_room by done. cbn [mbind option_bind].
  set (clock := mkLamport _ _). assert (value (lamport_clock self) <= value clock)%N as Hclock by (unfold clock; simpl; lia).
  exists (set_clock self2 clock), L'. split; [done|]. split; [by apply ok_clock|].
  pose proof (deliver_observed _ _ _ _ _ _ Hlog Hop Hext Hv) as Hobs.
  assert (extends v (version self)) as Hvv by (intros t Ht; apply (observed_observe _ _ _ _ Hv); by left).
  split; [|by split_and!]. split; cbn [set_clock snapshot lamport_clock version].
  - eapply deliver_cut; [done|apply Hself|done..].
  - change (version (set_clock self2 clock)) with v. etrans; [exact Halike|]. symmetry. eapply deliver_replay; [done|apply Hself|done..].
  - intros x. change (version (set_clock self2 clock)) with v. etrans; [exact (Hundos x)|]. rewrite (follows_undos _ _ _ Hself). split.
    + intros [(undo & Hin & Ho & Hx)|(undo & -> & Hx)]; [exists undo; by auto|]. exists undo. split_and!; [done| |done].
      by apply (Hobs (Operation.Undo undo) Hop); right.
    + intros (undo & Hin & Ho & Hx). apply (Hobs (Operation.Undo undo) Hin) in Ho as [Ho| <-]; [left; by exists undo|right; by exists undo].
  - intros t Ht. change (version (set_clock self2 clock)) with v in Ht. apply (observed_observe _ _ _ _ Hv) in Ht as [Ht|[_ Ht]].
    + pose proof (follows_clock _ _ _ Hself t Ht). lia.
    + unfold clock. simpl. lia.
  - intros q Hq Hown. apply (Hobs q Hq). left. by apply (follows_own _ _ _ Hself).
Qed.
End receive.
End replica.
