(* ===== verification/Delivery.v ===== *)
(** * Delivering operations in any order

    [apply_ops] applies the operations whose version the replica has observed, and
    defers the others until what they wait for has arrived.  It never panics, the
    buffer keeps following the log, no operation is lost, and after each call an
    operation is only deferred when an operation it has seen is still missing. *)

From S2P Require Import Prelude Clock Locator SumTree SumTreeFacts Seek Cursor CursorFacts CursorWalk Keyed KeyedFacts UndoMap TreeMap TreeMapFacts Patch PatchFacts Subscription Utf8 TextSummary RopeTree Rope RopeFacts RopeSeek RopeCut LineEnding LineEndingFacts Operation OperationQueue History HistoryFacts Fragment FragmentFacts Snapshot EditSpec EditInv EditState EditSteps EditFinish EditFacts Undo UndoFinds UndoFacts Remote RemoteSeek RemoteSpec RemoteSteps RemoteDelete RemoteFacts Replay Buffer BufferFacts BufferEdit BufferUndo Receive.

Import Buffer.

Implicit Types (self : Buffer) (L : list piece) (known : gmap nat (list N)) (op p q : Operation) (log ops d : list Operation) (v w : Global) (t : Lamport).

(** ** Versions *)

Lemma extends_get v w : extends v w ↔ ∀ r, (Global.get w r <= Global.get v r)%N.
Proof.
  unfold extends, Global.observed. split.
  - intros H r. specialize (H (mkLamport (Global.get w r) r)). simpl in H. rewrite !N.leb_le in H. by apply H.
  - intros H t. rewrite !N.leb_le. specialize (H (Clock.replica_id t)). lia.
Qed.

Lemma observed_all_extends v w : canonical w → Global.observed_all v w = true ↔ extends v w.
Proof. intros Hw. by rewrite observed_all_iff, extends_get. Qed.

(** ** What a call asks for *)

(** The trees stay within a cursor's path and the clock within its range. *)
Definition ready self op : Prop := buffer_fits self ∧ affordable self op.

Fixpoint flush_ready (st : Buffer * list Operation) ops : Prop :=
  match ops with
  | [] => buffer_fits st.1
  | op :: ops => ready st.1 op ∧ ∀ st', try_apply st op = Some st' → flush_ready st' ops
  end.

Fixpoint loop_ready (st : Buffer * list Operation) ops : Prop :=
  match ops with
  | [] => buffer_fits st.1
  | op :: ops => buffer_fits st.1 ∧ ∀ self, push_history st.1 op = Some self →
      ready self op ∧ ∀ st', try_apply (self, st.2) op = Some st' → loop_ready st' ops
  end.

Definition deliver_ready self ops : Prop :=
  loop_ready (self, []) ops ∧ ∀ self1 d self2, apply_loop (self, []) ops = Some (self1, d) → defer self1 d = Some self2 →
    buffer_fits self2 ∧ flush_ready (set_deferred self2 OperationQueue.new ∅, []) (operations_of (deferred_ops self2)).

Section deliver.
Context (base : list Atom) (start : Global) (log : list Operation) (known : gmap nat (list N)).
Context (Hbase : Forall (λ a, Global.observed start (atom_insertion a) = true ∧ atom_deletions a = []) base).
Context (Hlog : log_ok base start log).

Abbreviation follows := (follows base start log) (only parsing).

(** A replica of the log, with operations of the log deferred. *)
Record stands self L : Prop := {
  stands_ok : buffer_ok self L known;
  stands_follows : follows self L;
  stands_queue op : op ∈ operations_of (deferred_ops self) → op ∈ log;
  stands_edits id : id ∈ edits (history self) → Global.observed (version self) id = true;
}.

Lemma log_canonical op : op ∈ log → canonical (Operation.version op).
Proof.
  intros Hop. destruct (list_elem_of_split _ _ Hop) as (past & rest & Heq). rewrite Heq in Hlog.
  exact (entry_canonical _ _ _ _ (log_entry_at _ _ _ _ _ Hlog)).
Qed.

Lemma stands_push self L op : stands self L → buffer_fits self → ∃ self', push_history self op = Some self' ∧ stands self' L ∧
  version self' = version self ∧ deferred_ops self' = deferred_ops self ∧ deferred_replicas self' = deferred_replicas self ∧
  replica_id self' = replica_id self.
Proof.
  intros [Hok Hself Hq He] Hfits. destruct (ok_push self L known op Hok) as (ops & Hrun & Hok' & _); [apply Hfits|].
  eexists. split; [exact Hrun|]. split; [|done]. split; [done| |done|exact He]. destruct Hself. by split.
Qed.

Lemma stands_deferred self L queue replicas : stands self L → queue_ok queue → (∀ op, op ∈ operations_of queue → op ∈ log) →
  stands (set_deferred self queue replicas) L.
Proof. intros [Hok Hself Hq He] Hqueue Hops. split; [by destruct Hok; split|by destruct Hself; split|done|exact He]. Qed.

(** Deferring puts the operations in the queue. *)
Lemma stands_defer self L d : stands self L → buffer_fits self → (∀ op, op ∈ d → op ∈ log) → ∃ self',
  defer self d = Some self' ∧ stands self' L ∧ version self' = version self ∧ deferred_replicas self' = deferred_replicas self ∧
  replica_id self' = replica_id self ∧
  ∀ op, op ∈ operations_of (deferred_ops self') ↔ op ∈ d ∨ op ∈ operations_of (deferred_ops self).
Proof.
  intros Hself Hfits Hd. unfold defer. 
  destruct (queue_insert_spec (deferred_ops self) d (buffer_queue _ _ _ (stands_ok _ _ Hself)) (buffer_queue_fits _ Hfits))
    as (queue & -> & Hqueue & Hsub & Hsup). cbn [mbind option_bind].
  assert (∀ op, op ∈ operations_of queue → op ∈ log) as Hin by (intros op [?|?]%Hsub; [by apply Hd|by apply (stands_queue _ _ Hself)]).
  eexists. split; [done|]. split; [by apply stands_deferred|]. split_and!; [done..|]. intros op. split; [apply Hsub|].
  intros Hop. apply Hsup in Hop as Hts. apply list_elem_of_fmap in Hts as (op' & Heq & Hop').
  assert (op ∈ log) as Hl by (destruct Hop; [by apply Hd|by apply (stands_queue _ _ Hself)]).
  by rewrite (log_timestamp _ _ _ op op' Hlog Hl (Hin _ Hop') Heq).
Qed.

(** ** One operation *)

(** The version has also observed these. *)
Definition gains self self' (P : Operation → Prop) : Prop :=
  extends (version self') (version self) ∧ ∀ q, q ∈ log → observes (version self') q = true ↔ observes (version self) q = true ∨ P q.

Lemma try_apply_spec self L d op : stands self L → ready self op → op ∈ log → ∃ self' L' d', try_apply (self, d) op = Some (self', d') ∧
  stands self' L' ∧ deferred_ops self' = deferred_ops self ∧ replica_id self' = replica_id self ∧
  if can_apply_op self op then d' = d ∧ deferred_replicas self' = deferred_replicas self ∧ gains self self' (λ q, q = op)
  else d' = d ++ [op] ∧ deferred_replicas self' = {[ Operation.replica_id op ]} ∪ deferred_replicas self ∧ version self' = version self.
Proof.
  intros Hself [Hfits Hafford] Hop. unfold try_apply. destruct (can_apply_op self op) eqn:Hcan.
  - destruct (observes (version self) op) eqn:Hobs.
    { exists self, L, d. unfold apply_op. unfold observes in Hobs. rewrite Hobs. do 6 (split; [done|]). split; [by intros t|].
      intros q Hq. split; [by left|]. by intros [?| ->]. }
    assert (extends (version self) (Operation.version op)) as Hext.
    { apply observed_all_extends; [by apply log_canonical|]. unfold can_apply_op in Hcan. by case_decide. }
    destruct (receive_spec base start Hbase self L known log op (stands_ok _ _ Hself) Hfits Hlog (stands_follows _ _ Hself) Hop Hobs Hext Hafford)
      as (self' & L' & -> & Hok & Hfollows & Hgains & Hvv & Hh & Hqueue & Hreplicas & Hid & _). cbn [mbind option_bind].
    exists self', L', d. split; [done|]. split; [|by split_and!].
    split; [done|done|by rewrite Hqueue; apply (stands_queue _ _ Hself)|]. intros id. rewrite Hh. intros Hid'. by apply Hvv, (stands_edits _ _ Hself).
  - eexists _, L, _. split; [done|]. split; [|by split_and!]. apply stands_deferred; [done|apply (stands_ok _ _ Hself)|apply Hself].
Qed.

(** ** The loop over the operations of the call *)

Lemma apply_loop_spec ops self L d : stands self L → loop_ready (self, d) ops → (∀ op, op ∈ ops → op ∈ log) → (∀ op, op ∈ d → op ∈ log) →
  ∃ self' L' d', apply_loop (self, d) ops = Some (self', d') ∧ stands self' L' ∧ buffer_fits self' ∧
    deferred_ops self' = deferred_ops self ∧ replica_id self' = replica_id self ∧
    extends (version self') (version self) ∧ (∀ op, op ∈ d' → op ∈ log) ∧
    ∀ op, op ∈ ops ∨ op ∈ d → observes (version self') op = true ∨ op ∈ d'.
Proof.
  revert self L d. induction ops as [|op ops IH]; intros self L d Hself Hready Hops Hd.
  { exists self, L, d. split_and!; [done..|by intros t|done|]. intros op [?%not_elem_of_nil|?]; [done|by right]. }
  destruct Hready as [Hfits Hready]. cbn [apply_loop].
  destruct (stands_push self L op Hself Hfits) as (self1 & Hrun1 & Hself1 & Hv1 & Hq1 & Hr1 & Hid1). cbn [fst snd] in *.
  destruct (Hready _ Hrun1) as [Hop Hnext]. rewrite Hrun1. cbn [mbind option_bind].
  destruct (try_apply_spec self1 L d op Hself1 Hop (Hops op ltac:(by left))) as (self2 & L2 & d2 & Hrun2 & Hself2 & Hq2 & Hid2 & Hcase).
  rewrite Hrun2. cbn [mbind option_bind].
  assert (extends (version self2) (version self1) ∧ (∀ q, q ∈ d2 → q ∈ log) ∧ (∀ q, q ∈ d → q ∈ d2) ∧
    (observes (version self2) op = true ∨ op ∈ d2)) as (Hext & Hd2 & Hsub & Hnew).
  { destruct (can_apply_op self1 op).
    - destruct Hcase as (-> & _ & Hext & Hgain). split_and!; try done. left. apply Hgain; [apply Hops; by left|by right].
    - destruct Hcase as (-> & _ & Hver). rewrite Hver. split_and!; [by intros t| |set_solver..].
      intros q [?| ->%list_elem_of_singleton]%elem_of_app; [by apply Hd|]. apply Hops. by left. }
  destruct (IH self2 L2 d2 Hself2 (Hnext _ Hrun2)) as (self' & L' & d' & Hrun & Hself' & Hfits' & Hq' & Hid' & Hext' & Hd' & Hall);
    [intros q Hq; apply Hops; by right|done|].
  exists self', L', d'. split; [done|]. rewrite Hv1 in Hext. split_and!; [done|done|congruence|congruence| |done|].
  - intros t Ht. by apply Hext', Hext.
  - intros q [[->|Hq]%elem_of_cons|Hq]; [|apply Hall; by left|apply Hall; right; by apply Hsub].
    destruct Hnew as [Hnew|Hnew]; [left; by apply Hext'|apply Hall; by right].
Qed.

(** ** The flush *)

(** An operation the other one has seen is missing, and not among those to come. *)
Definition waits self ops op : Prop := ∃ p, p ∈ log ∧ observes (Operation.version op) p = true ∧ observes (version self) p = false ∧ p ∉ ops.

Definition earlier p q : Prop := cmp (Operation.timestamp p) (Operation.timestamp q) = Lt.

(** Between two operations of the flush. *)
Record flush_inv self d ops : Prop := {
  flush_sorted : StronglySorted earlier ops;
  flush_log op : op ∈ d ∨ op ∈ ops → op ∈ log;
  flush_waits op : op ∈ d → waits self ops op;
  flush_replicas r : r ∈ deferred_replicas self → ∃ op, op ∈ d ∧ Operation.replica_id op = r;
  flush_earlier p q : p ∈ d → q ∈ ops → earlier p q;
}.

Lemma earlier_irrefl p : ¬ earlier p p.
Proof. unfold earlier. by rewrite cmp_refl. Qed.

Lemma earlier_trans p q r : earlier p q → earlier q r → earlier p r.
Proof. apply cmp_lt_trans. Qed.

(** A replica's operations see those before them. *)
Lemma log_own p q : p ∈ log → q ∈ log → Operation.replica_id p = Operation.replica_id q → earlier p q →
  observes (Operation.version q) p = true.
Proof.
  intros Hp Hq Hr Hlt. destruct (list_elem_of_split _ _ Hq) as (past & rest & Heq).
  pose proof Hlog as Hl. rewrite Heq in Hl, Hp. pose proof (log_entry_at _ _ _ _ _ Hl) as He.
  apply elem_of_app in Hp as [Hp|[->|Hp]%elem_of_cons]; [by apply (entry_own _ _ _ _ He)|by apply earlier_irrefl in Hlt|].
  exfalso. destruct (list_elem_of_split _ _ Hp) as (mid & rest' & ->). rewrite app_comm_cons, app_assoc in Hl.
  pose proof (log_entry_at _ _ _ _ _ Hl) as Hep. assert (q ∈ past ++ q :: mid) as Hin by set_solver.
  pose proof (entry_after _ _ _ _ Hep q Hin (entry_own _ _ _ _ Hep q Hin (eq_sym Hr))) as Hgt.
  by eapply earlier_irrefl, earlier_trans.
Qed.

(** An operation that sees more than the version does sees an operation of the log that is missing. *)
Lemma not_extends_missing v op : op ∈ log → extends v start → ¬ extends v (Operation.version op) →
  ∃ p, p ∈ log ∧ observes (Operation.version op) p = true ∧ observes v p = false ∧ earlier p op.
Proof.
  intros Hop Hv Hnot. destruct (list_elem_of_split _ _ Hop) as (past & rest & Heq). pose proof Hlog as Hl. rewrite Heq in Hl.
  pose proof (log_entry_at _ _ _ _ _ Hl) as He. pose proof (entry_cut _ _ _ _ He) as Hcut.
  destruct (decide (Forall (λ p, observes (Operation.version op) p = true → observes v p = true) past)) as [Hall|Hsome].
  - exfalso. apply Hnot, extends_get. intros r. rewrite Forall_forall in Hall. destruct (cut_exact _ _ _ Hcut r) as [->|(p & Hp & Hts)].
    + by apply extends_get.
    + assert (observes v p = true) as Hobs.
      { apply Hall; [done|]. unfold observes. rewrite Hts. unfold Global.observed. simpl. apply N.leb_refl. }
      unfold observes in Hobs. rewrite Hts in Hobs. by apply N.leb_le in Hobs.
  - apply not_Forall_Exists, Exists_exists in Hsome as (p & Hp & Hnp); [|intros ?; apply _].
    exists p. assert (observes (Operation.version op) p = true ∧ observes v p = false) as [Ho Hv'].
    { change (¬ (observes (Operation.version op) p = true → observes v p = true)) in Hnp.
      destruct (observes (Operation.version op) p), (observes v p); auto; exfalso; by apply Hnp. }
    split_and!; [rewrite Heq; set_solver|done..|by apply (entry_after _ _ _ _ He)].
Qed.

(** What cannot be applied waits for an operation that does not come. *)
Lemma blocked_waits self L d op ops : stands self L → flush_inv self d (op :: ops) → can_apply_op self op = false → waits self ops op.
Proof.
  intros Hself Hinv Hcan. assert (op ∈ log) as Hop by (apply (flush_log _ _ _ Hinv); right; by left).
  pose proof (flush_sorted _ _ _ Hinv) as Hsorted. apply StronglySorted_inv in Hsorted as [_ Hop'].
  assert (∀ p, earlier p op → p ∉ ops) as Hnot.
  { intros p Hp Hin. rewrite Forall_forall in Hop'. eapply earlier_irrefl, earlier_trans; [exact Hp|]. by apply Hop'. }
  unfold can_apply_op in Hcan. case_decide as Hr.
  - destruct (flush_replicas _ _ _ Hinv _ Hr) as (q & Hq & Hrq).
    assert (earlier q op) as Hlt by (apply (flush_earlier _ _ _ Hinv); [done|by left]).
    assert (q ∈ log) as Hql by (apply (flush_log _ _ _ Hinv); by left).
    exists q. split_and!; [done|by apply log_own| |by apply Hnot].
    destruct (observes (version self) q) eqn:Hobs; [|done]. destruct (flush_waits _ _ _ Hinv q Hq) as (p & Hp & Hqp & Hvp & _).
    pose proof (cut_closed _ _ _ (follows_cut _ _ _ _ _ (stands_follows _ _ Hself)) q Hql Hobs _ Hqp). unfold observes in Hvp. congruence.
  - destruct (not_extends_missing (version self) op Hop) as (p & Hp & Hpo & Hvp & Hlt).
    + apply (follows_cut _ _ _ _ _ (stands_follows _ _ Hself)).
    + rewrite <-observed_all_extends by (by apply log_canonical). congruence.
    + exists p. split_and!; [done..|by apply Hnot].
Qed.

Lemma flush_loop_spec ops self L d : stands self L → flush_ready (self, d) ops → flush_inv self d ops →
  ∃ self' L' d', flush_loop (self, d) ops = Some (self', d') ∧ stands self' L' ∧ buffer_fits self' ∧
    deferred_ops self' = deferred_ops self ∧ replica_id self' = replica_id self ∧ extends (version self') (version self) ∧
    (∀ op, op ∈ d' → op ∈ log ∧ waits self' [] op) ∧ ∀ op, op ∈ ops ∨ op ∈ d → observes (version self') op = true ∨ op ∈ d'.
Proof.
  revert self L d. induction ops as [|op ops IH]; intros self L d Hself Hready Hinv.
  { exists self, L, d. split_and!; [done..|by intros t| |by intros op [?%not_elem_of_nil|?]; [|right]].
    intros op Hop. split; [apply (flush_log _ _ _ Hinv); by left|by apply (flush_waits _ _ _ Hinv)]. }
  destruct Hready as [Hready Hnext]. cbn [flush_loop fst] in *.
  assert (op ∈ log) as Hop by (apply (flush_log _ _ _ Hinv); right; by left).
  destruct (try_apply_spec self L d op Hself Hready Hop) as (self1 & L1 & d1 & Hrun1 & Hself1 & Hq1 & Hid1 & Hcase).
  rewrite Hrun1. cbn [mbind option_bind].
  assert (flush_inv self1 d1 ops ∧ extends (version self1) (version self) ∧ (∀ q, q ∈ d → q ∈ d1) ∧
    (observes (version self1) op = true ∨ op ∈ d1)) as (Hinv1 & Hext & Hsub & Hnew).
  { pose proof Hinv as [Hsorted Hl Hw Hr He]. apply StronglySorted_inv in Hsorted as [Hsorted Hop'].
    destruct (can_apply_op self op) eqn:Hcan.
    - destruct Hcase as (-> & Hrep & Hext & Hgain). split_and!; [|done|done|left; apply Hgain; [done|by right]].
      split; [done|intros q [?|?]; apply Hl; [by left|right; by right]| |by rewrite Hrep|intros p q Hp Hq; apply He; [done|by right]].
      intros q Hq. destruct (Hw q Hq) as (p & Hp & Hqp & Hvp & Hnot). exists p. split_and!; [done|done| |set_solver].
      destruct (observes (version self1) p) eqn:Hobs; [|done]. apply (Hgain p Hp) in Hobs as [?| ->]; [congruence|]. exfalso. apply Hnot. by left.
    - destruct Hcase as (-> & Hrep & Hver). rewrite Hver. split_and!; [|by intros t|set_solver..].
      split; [done|intros q [[Hq| ->%list_elem_of_singleton]%elem_of_app|Hq]; apply Hl; [by left|right; by left|right; by right]| | |].
      + unfold waits. rewrite Hver. intros q [Hq| ->%list_elem_of_singleton]%elem_of_app; [|by eapply blocked_waits].
        destruct (Hw q Hq) as (p & ? & ? & ? & ?). exists p. split_and!; [done..|set_solver].
      + rewrite Hrep. intros r [->%elem_of_singleton|Hr']%elem_of_union; [exists op; set_solver|]. destruct (Hr r Hr') as (q & ? & ?). exists q. set_solver.
      + rewrite Forall_forall in Hop'. intros p q [Hp| ->%list_elem_of_singleton]%elem_of_app Hq; [apply He; [done|by right]|by apply Hop']. }
  destruct (IH self1 L1 d1 Hself1 (Hnext _ Hrun1) Hinv1) as (self' & L' & d' & Hrun & Hself' & Hfits' & Hq' & Hid' & Hext' & Hd' & Hall).
  exists self', L', d'. split; [done|]. split_and!; [done|done|congruence|congruence|intros t Ht; by apply Hext', Hext|done|].
  intros q [[->|Hq]%elem_of_cons|Hq]; [|apply Hall; by left|apply Hall; right; by apply Hsub].
  destruct Hnew as [Hnew|Hnew]; [left; by apply Hext'|apply Hall; by right].
Qed.

(** ** The whole call *)

Lemma queue_earlier (queue : @OperationQueue.t Operation) : queue_ok queue → StronglySorted earlier (operations_of queue).
Proof.
  intros [_ Hs]. unfold operations_of, sorted in *. induction Hs as [|x l _ IH Hx]; simpl; constructor; [done|].
  rewrite Forall_forall in Hx. apply Forall_forall. intros q (y & -> & Hy)%list_elem_of_fmap. by apply Hx.
Qed.

(** Nothing is deferred without need. *)
Definition settled self : Prop := ∀ op, op ∈ operations_of (deferred_ops self) → ¬ extends (version self) (Operation.version op).

Lemma waits_settled self op ops : waits self ops op → ¬ extends (version self) (Operation.version op).
Proof. intros (p & _ & Hp & Hv & _) Hext. unfold observes in *. rewrite (Hext _ Hp) in Hv. done. Qed.

Lemma flush_spec self L : stands self L → buffer_fits self →
  flush_ready (set_deferred self OperationQueue.new ∅, []) (operations_of (deferred_ops self)) →
  ∃ self' L', flush_deferred_ops self = Some self' ∧ stands self' L' ∧ replica_id self' = replica_id self ∧ settled self' ∧
    extends (version self') (version self) ∧
    ∀ op, op ∈ operations_of (deferred_ops self) → observes (version self') op = true ∨ op ∈ operations_of (deferred_ops self').
Proof.
  intros Hself Hfits Hready. unfold flush_deferred_ops, OperationQueue.drain.
  pose proof (buffer_queue _ _ _ (stands_ok _ _ Hself)) as Hqueue.
  rewrite (queue_iter_spec _ Hqueue (buffer_queue_fits _ Hfits)). cbn [mbind option_bind].
  assert (∀ op, op ∈ operations_of (OperationQueue.new : @OperationQueue.t Operation) → op ∈ log) as Hnil by (intros op ?%not_elem_of_nil; done).
  pose proof (stands_deferred self L OperationQueue.new ∅ Hself new_queue_ok Hnil) as Hself0.
  destruct (flush_loop_spec (operations_of (deferred_ops self)) _ L [] Hself0 Hready) as (self1 & L1 & d & Hrun & Hself1 & Hfits1 & Hq1 & Hid1 & Hext & Hd & Hall).
  { split; [by apply queue_earlier|intros op [?%not_elem_of_nil|?]; [done|by apply (stands_queue _ _ Hself)]|by intros op ?%not_elem_of_nil| |by intros p q ?%not_elem_of_nil].
    intros r Hr. set_solver. }
  setoid_rewrite Hrun. cbn [mbind option_bind].
  destruct (stands_defer self1 L1 d Hself1 Hfits1) as (self' & -> & Hself' & Hver & _ & Hid & Helems); [intros op Hop; by apply Hd|].
  rewrite Hq1 in Helems.
  exists self', L1. split_and!; [done|done|by rewrite Hid| |by rewrite Hver|].
  - intros op [Hop| ?%not_elem_of_nil]%Helems; [|done]. rewrite Hver. eapply waits_settled. by apply Hd.
  - intros op Hop. rewrite Hver. destruct (Hall op (or_introl Hop)); [by left|right]. apply Helems. by left.
Qed.

Lemma apply_ops_spec self L ops : stands self L → (∀ op, op ∈ ops → op ∈ log) → deliver_ready self ops →
  ∃ self' L', apply_ops self ops = Some self' ∧ stands self' L' ∧ replica_id self' = replica_id self ∧ settled self' ∧
    extends (version self') (version self) ∧
    ∀ op, op ∈ ops ∨ op ∈ operations_of (deferred_ops self) → observes (version self') op = true ∨ op ∈ operations_of (deferred_ops self').
Proof.
  intros Hself Hops [Hready Hflush]. unfold apply_ops.
  destruct (apply_loop_spec ops self L [] Hself Hready Hops) as (self1 & L1 & d & Hrun1 & Hself1 & Hfits1 & Hq1 & Hid1 & Hext1 & Hd & Hall1);
    [by intros op ?%not_elem_of_nil|]. rewrite Hrun1. cbn [mbind option_bind].
  destruct (stands_defer self1 L1 d Hself1 Hfits1 Hd) as (self2 & Hrun2 & Hself2 & Hver2 & _ & Hid2 & Helems). rewrite Hrun2. cbn [mbind option_bind].
  destruct (Hflush _ _ _ Hrun1 Hrun2) as [Hfits2 Hready2].
  destruct (flush_spec self2 L1 Hself2 Hfits2 Hready2) as (self' & L' & Hrun & Hself' & Hid & Hsettled & Hext & Hall).
  exists self', L'. split_and!; [done|done|congruence|done| |].
  - intros t Ht. apply Hext. rewrite Hver2. by apply Hext1.
  - rewrite Hq1 in Helems. intros op Hop. assert (observes (version self1) op = true ∨ op ∈ operations_of (deferred_ops self2)) as [Hobs|Hq].
    + destruct Hop as [Hop|Hop]; [|right; apply Helems; by right].
      destruct (Hall1 op (or_introl Hop)) as [?|?]; [by left|right; apply Helems; by left].
    + left. apply Hext. rewrite Hver2. exact Hobs.
    + by apply Hall.
Qed.

(** ** Replicas that agree *)

(** A replica that has received every operation has applied it. *)
Lemma settled_complete self L : stands self L → settled self →
  (∀ op, op ∈ log → observes (version self) op = true ∨ op ∈ operations_of (deferred_ops self)) →
  ∀ op, op ∈ log → observes (version self) op = true.
Proof.
  intros Hself Hsettled Hall. pose proof (follows_cut _ _ _ _ _ (stands_follows _ _ Hself)) as Hcut.
  assert (∀ past rest, log = past ++ rest → ∀ op, op ∈ past → observes (version self) op = true) as H.
  { induction past as [|op past IH] using rev_ind; intros rest Heq; [by intros op ?%not_elem_of_nil|].
    rewrite <-app_assoc in Heq. specialize (IH _ Heq). intros q [Hq| ->%list_elem_of_singleton]%elem_of_app; [by apply IH|].
    destruct (Hall op ltac:(rewrite Heq; set_solver)) as [?|Hop]; [done|]. exfalso. apply (Hsettled op Hop).
    apply extends_get. pose proof Hlog as Hl. rewrite Heq in Hl. pose proof (entry_cut _ _ _ _ (log_entry_at _ _ _ _ _ Hl)) as Hc.
    intros r. destruct (cut_exact _ _ _ Hc r) as [->|(p & Hp & Hts)].
    - apply extends_get, Hcut.
    - pose proof (IH p Hp) as Hobs. unfold observes in Hobs. rewrite Hts in Hobs. by apply N.leb_le in Hobs. }
  intros op. apply (H log []). by rewrite app_nil_r.
Qed.
End deliver.

Lemma text_by_alike u A A' : all_alike A A' → text_by u (map core A) = text_by u (map core A').
Proof.
  unfold text_by. induction 1 as [|a a' A A' [Hi _ Hc Hd] _ IH]; [done|]. cbn [map]. rewrite !filter_cons.
  assert (core_shown_by u (core a) = core_shown_by u (core a')) as ->.
  { unfold core_shown_by, core. cbn. by rewrite Hi, (forallb_permutation _ _ _ Hd). }
  case_decide; [|done]. simpl. by rewrite Hc, IH.
Qed.

Section agree.
Context (base : list Atom) (start : Global) (log : list Operation) (known1 known2 : gmap nat (list N)).

Abbreviation stands := (stands base start) (only parsing).

Lemma cut_complete v w : cut start log v → cut start log w → (∀ op, op ∈ log → observes w op = true) → ∀ r, (Global.get v r <= Global.get w r)%N.
Proof.
  intros Hv Hw Hall r. destruct (cut_exact _ _ _ Hv r) as [->|(p & Hp & Hts)].
  - by apply extends_get, Hw.
  - pose proof (Hall p Hp) as Hobs. unfold observes in Hobs. rewrite Hts in Hobs. by apply N.leb_le in Hobs.
Qed.

(** Those that have applied every operation have the same version. *)
Lemma complete_versions self1 L1 self2 L2 : stands log known1 self1 L1 → stands log known2 self2 L2 → (∀ op, op ∈ log → observes (version self1) op = true) →
  (∀ op, op ∈ log → observes (version self2) op = true) → version self1 = version self2.
Proof.
  intros H1 H2 Hall1 Hall2. apply GlobalFacts.canonical_ext; [apply (stands_ok _ _ _ _ _ _ H1)|apply (stands_ok _ _ _ _ _ _ H2)|]. intros r.
  pose proof (follows_cut _ _ _ _ _ (stands_follows _ _ _ _ _ _ H1)). pose proof (follows_cut _ _ _ _ _ (stands_follows _ _ _ _ _ _ H2)).
  apply N.le_antisymm; by apply cut_complete.
Qed.

End agree.
