(* ===== verification/Issue.v ===== *)
(** * Making operations

    A local edit, undo or redo makes an operation and applies it at once.  The
    operation is a next entry of the log, and the buffer follows the longer log:
    what the edit did to the text is what replaying its operation does. *)

From S2P Require Import Prelude Clock Locator SumTree SumTreeFacts Seek Cursor CursorFacts CursorWalk Keyed KeyedFacts UndoMap TreeMap TreeMapFacts Patch PatchFacts Subscription Utf8 TextSummary RopeTree Rope RopeFacts RopeSeek RopeCut LineEnding LineEndingFacts Operation OperationQueue History HistoryFacts Fragment FragmentFacts Snapshot EditSpec EditInv EditState EditSteps EditFinish EditFacts Undo UndoFinds UndoFacts Remote RemoteSeek RemoteSpec RemoteSteps RemoteDelete RemoteFacts Replay Buffer BufferFacts BufferEdit BufferUndo Receive Delivery.

Import Buffer.

Implicit Types (self : Buffer) (L : list piece) (known : gmap nat (list N)) (op p q : Operation) (log ops d : list Operation) (v w : Global) (t : Lamport).

(** The owner of a clock has made no operation that late. *)
Definition behind (clock : Lamport) v : Prop := (Global.get v (Clock.replica_id clock) < value clock)%N.

Section issue.
Context (base : list Atom) (start : Global) (log : list Operation) (known : gmap nat (list N)).
Context (Hbase : Forall (λ a, Global.observed start (atom_insertion a) = true ∧ atom_deletions a = []) base).
Context (Hlog : log_ok base start log).

Abbreviation stands := (stands base start) (only parsing).
Abbreviation follows := (follows base start) (only parsing).
Abbreviation applied_by log v := (filter (λ q, observes v q = true) log) (only parsing).

(** ** A longer log *)

(** The replica has not heard of the operation. *)
Lemma stands_longer op self L : log_ok base start (log ++ [op]) → stands log known self L → observes (version self) op = false →
  Operation.replica_id op ≠ replica_id self → stands (log ++ [op]) known self L.
Proof.
  intros Hlonger [Hok [Hcut Hatoms Hundos Hclock Hown] Hq He] Hobs Hr. split; [done| | |done].
  - split; [by apply cut_extend| |intros x|done|].
    + etrans; [exact Hatoms|]. symmetry. by apply (replay_extend base start).
    + rewrite Hundos. split; intros (undo & Hin & Ho & Hx); exists undo; (split; [|done]); [apply elem_of_app; by left|].
      apply elem_of_app in Hin as [Hin|Hin%list_elem_of_singleton]; [done|]. subst op. unfold observes in Hobs. simpl in Hobs. congruence.
    + intros q [Hin|Hin%list_elem_of_singleton]%elem_of_app Hrq; [by apply Hown|]. by subst.
  - intros q Hq'. apply elem_of_app. left. by apply Hq.
Qed.

(** ** The replica that makes the operation *)

Section local.
Context self L (Hself : stands log known self L).

(** Versions of the log have seen of the replica only what it has made. *)
Lemma cut_behind past v : cut start past v → past ⊆ log → behind (lamport_clock self) v.
Proof.
  intros Hcut Hpast. pose proof (stands_follows _ _ _ _ _ _ Hself) as Hfollows. unfold behind.
  assert (Global.observed (version self) (mkLamport (Global.get v (replica_id self)) (replica_id self)) = true) as Hobs.
  { destruct (cut_exact _ _ _ Hcut (replica_id self)) as [->|(p & Hp & Hts)].
    - apply N.leb_le. simpl. apply extends_get, (cut_start _ _ _ (follows_cut _ _ _ _ _ Hfollows)).
    - rewrite <-Hts. apply (follows_own _ _ _ _ _ Hfollows); [by apply Hpast|]. unfold Operation.replica_id. by rewrite Hts. }
  exact (follows_clock _ _ _ _ _ Hfollows _ Hobs).
Qed.

Lemma log_behind q : q ∈ log → behind (lamport_clock self) (Operation.version q).
Proof.
  intros Hq. destruct (list_elem_of_split _ _ Hq) as (past & rest & Heq). pose proof Hlog as Hl. rewrite Heq in Hl.
  eapply cut_behind; [exact (entry_cut _ _ _ _ (log_entry_at _ _ _ _ _ Hl))|]. rewrite Heq. set_solver.
Qed.

(** An operation of the replica, made at its version. *)
Record issued op : Prop := {
  issued_version : Operation.version op = version self;
  issued_replica : Operation.replica_id op = replica_id self;
  issued_value : (value (lamport_clock self) <= value (Operation.timestamp op))%N;
  issued_content : content_ok base log op;
}.

Lemma observed_older t : Global.observed (version self) t = true → (value t < value (lamport_clock self))%N.
Proof. apply (follows_clock _ _ _ _ _ (stands_follows _ _ _ _ _ _ Hself)). Qed.

Lemma observed_before op t : issued op → Global.observed (version self) t = true → cmp t (Operation.timestamp op) = Lt.
Proof. intros Hop Ht%observed_older. apply Lamport_lt_value. pose proof (issued_value _ Hop). lia. Qed.

Lemma issued_unobserved op : issued op → observes (version self) op = false.
Proof.
  intros Hop. unfold observes. destruct (Global.observed (version self) (Operation.timestamp op)) eqn:Hobs; [|done].
  apply observed_older in Hobs. pose proof (issued_value _ Hop). lia.
Qed.

Lemma issued_entry op : issued op → entry_ok base start log op.
Proof.
  intros Hop. pose proof (stands_ok _ _ _ _ _ _ Hself) as Hok. pose proof (stands_follows _ _ _ _ _ _ Hself) as Hfollows.
  pose proof (buffer_clock _ _ _ Hok) as [Hid Hpos]. pose proof (issued_value _ Hop) as Hvalue. pose proof (issued_replica _ Hop) as Hreplica.
  pose proof (issued_version _ Hop) as Hversion. pose proof (issued_unobserved _ Hop) as Hnew. split; rewrite ?Hversion; try done.
  - split; [|lia]. unfold Operation.replica_id in Hreplica. by rewrite Hreplica.
  - apply Hok.
  - destruct (Global.observed start (Operation.timestamp op)) eqn:Hobs; [|done].
    apply (cut_start _ _ _ (follows_cut _ _ _ _ _ Hfollows)) in Hobs. unfold observes in Hnew. congruence.
  - intros q Hq. split.
    + intros Heq. assert (Operation.replica_id q = replica_id self) as Hrq by (unfold Operation.replica_id in *; congruence).
      pose proof (follows_own _ _ _ _ _ Hfollows q Hq Hrq) as Hobs. unfold observes in *. congruence.
    + unfold observes, Global.observed. apply N.leb_gt. pose proof (log_behind q Hq) as Hbehind. unfold behind, replica_id, Operation.replica_id in *.
      rewrite Hreplica. lia.
  - apply Hfollows.
  - eapply Forall_impl; [exact Hbase|]. intros a [Ha _]. apply observed_before; [done|]. by apply (cut_start _ _ _ (follows_cut _ _ _ _ _ Hfollows)).
  - intros q _ Hobs. by apply observed_before.
  - intros q Hq Hrq. apply (follows_own _ _ _ _ _ Hfollows); [done|]. by rewrite Hrq.
  - exact (issued_content _ Hop).
Qed.

Lemma issued_log op : issued op → log_ok base start (log ++ [op]).
Proof. intros Hop. constructor; [done|by apply issued_entry]. Qed.

(** What else becomes of the replica. *)
Record took self' op : Prop := {
  took_version : Global.observe (version self) (Operation.timestamp op) = Some (version self');
  took_clock : lamport_clock self' = mkLamport (value (Operation.timestamp op) + 1) (replica_id self);
  took_queue : deferred_ops self' = deferred_ops self;
}.

(** The buffer after the operation. *)
Lemma issued_stands op self' L' : issued op → buffer_ok self' L' known →
  all_alike (atoms L') (applied (log ++ [op]) (atoms L) op) →
  (∀ x, x ∈ to_list (undo_map (snapshot self')) ↔ x ∈ to_list (undo_map (snapshot self)) ∨ ∃ undo, op = Operation.Undo undo ∧ op_entry undo x) →
  took self' op → edits (history self') ⊆ Operation.timestamp op :: edits (history self) →
  stands (log ++ [op]) known self' L'.
Proof.
  intros Hop Hok Hatoms Hundos [Hobs Hclock Hqueue] Hedits. pose proof (issued_log _ Hop) as Hlonger. pose proof (issued_unobserved _ Hop) as Hnew.
  pose proof (stands_follows _ _ _ _ _ _ Hself) as Hfollows. set (longer := log ++ [op]) in *.
  assert (op ∈ longer) as Hin by (apply elem_of_app; right; by left).
  assert (extends (version self) (Operation.version op)) as Hext by (rewrite (issued_version _ Hop); by intros t).
  assert (cut start longer (version self)) as Hcut by (apply cut_extend; [apply Hfollows|done]).
  pose proof (deliver_observed _ _ _ _ _ _ Hlonger Hin Hext Hobs) as Hgain.
  assert (extends (version self') (version self)) as Hvv by (intros t Ht; apply (observed_observe _ _ _ _ Hobs); by left).
  split; [done|split| |].
  - by eapply deliver_cut.
  - etrans; [exact Hatoms|]. symmetry. etrans; [by eapply deliver_replay|]. apply (replay_same longer _ _ [op]).
    etrans; [by apply (replay_extend base start)|]. symmetry. apply Hfollows.
  - intros x. rewrite Hundos, (follows_undos _ _ _ _ _ Hfollows). split.
    + intros [(undo & Hu & Ho & Hx)|(undo & Hu & Hx)]; exists undo.
      * split_and!; [apply elem_of_app; by left|by apply Hvv|done].
      * rewrite <-Hu. split_and!; [done| |done]. change (UndoMap.timestamp undo) with (Operation.timestamp (Operation.Undo undo)).
        rewrite <-Hu. apply (Hgain op Hin). by right.
    + intros (undo & Hu & Ho & Hx). apply (Hgain (Operation.Undo undo) Hu) in Ho as [Ho|Heq]; [left|right; by exists undo].
      exists undo. split_and!; [|done..]. apply elem_of_app in Hu as [Hu|Hu%list_elem_of_singleton]; [done|].
      rewrite Hu in Ho. congruence.
  - intros t Ht. rewrite Hclock. simpl. apply (observed_observe _ _ _ _ Hobs) in Ht as [Ht|[_ Ht]]; [|lia].
    pose proof (observed_older _ Ht). pose proof (issued_value _ Hop). lia.
  - intros q Hq Hrq. apply (Hgain q Hq). apply elem_of_app in Hq as [Hq|Hq%list_elem_of_singleton]; [left|by right].
    apply (follows_own _ _ _ _ _ Hfollows); [done|]. rewrite Hrq. unfold replica_id. by rewrite Hclock.
  - intros q. rewrite Hqueue. intros Hq. apply elem_of_app. left. by apply (stands_queue _ _ _ _ _ _ Hself).
  - intros id Hid%Hedits. apply elem_of_cons in Hid as [->|Hid]; [apply (Hgain op Hin); by right|].
    by apply Hvv, (stands_edits _ _ _ _ _ _ Hself).
Qed.

(** *** An edit *)

Context (Hfits : buffer_fits self).

(** The version has observed every undo there is. *)
Lemma undone_at_version t : undone_at (version self) (undo_map (snapshot self)) t = (count_of (undo_map (snapshot self)) t mod 2 =? 1)%N.
Proof.
  pose proof (stands_ok _ _ _ _ _ _ Hself) as Hok. pose proof (buffer_snapshot _ _ _ Hok) as Hs. unfold undone_at, count_of.
  rewrite (was_undone_spec _ (undos_searchable _ _ Hs (buffer_snapshot_fits _ Hfits)) (proj2 (ok_undos _ _ Hs))). simpl.
  rewrite (max_list_ext _ (map undo_count_of (entries_of t (to_list (undo_map (snapshot self)))))); [done|].
  intros c. rewrite !list_elem_of_fmap. split; intros (x & Hc & Hx); exists x; (split; [done|]); [by apply list_elem_of_filter in Hx as [_ Hx]|].
  apply list_elem_of_filter. split; [|done]. apply Is_true_eq_left, (follows_observed base start Hbase log self L); [done|apply Hself|].
  apply list_elem_of_filter in Hx as [_ Hx]. right. exists x. auto.
Qed.

Lemma local_known : Forall (RemoteSpec.known (version self) (undone_at (version self) (undo_map (snapshot self)))) (atoms L).
Proof.
  pose proof (stands_ok _ _ _ _ _ _ Hself) as Hok. pose proof (buffer_snapshot _ _ _ Hok) as Hs.
  pose proof (undoes_count _ (undos_searchable _ _ Hs (buffer_snapshot_fits _ Hfits)) (proj2 (ok_undos _ _ Hs))) as Hu.
  assert (∀ t, used (snapshot self) L t → Global.observed (version self) t = true) as Hobs.
  { intros t. by apply (follows_observed base start Hbase log self L); [|apply Hself]. }
  apply Forall_forall. intros a Ha. assert (seen (version self) a = true) as Hseen by (apply Hobs; left; exists a; auto).
  split; [done|]. pose proof (ok_shown _ _ Hs a Ha) as Hshown. rewrite (shown_by _ _ a Hu) in Hshown. apply (inj Some) in Hshown as <-.
  unfold was_shown, core_shown_by. rewrite Hseen, undone_at_version. cbn [andb core fst snd]. f_equal.
  assert (∀ t, t ∈ atom_deletions a → Global.observed (version self) t = true) as Hd by (intros d Hd; apply Hobs; left; exists a; auto).
  induction (atom_deletions a) as [|d ds IH]; [done|]. simpl. rewrite (Hd d), undone_at_version by by left. cbn [negb orb]. f_equal.
  apply IH. intros d' Hd'. apply Hd. by right.
Qed.

Lemma text_texts (es : list (Range * str)) : Forall (λ e, str_ok e.2) es → Forall str_ok (map snd es).
Proof. by rewrite Forall_map. Qed.

(** The edit is the merge of its operation. *)
Lemma edit_issued `{LineSeparatorsLaws} {S} `{!ToOffset S} (changes : list ((S * S) * str)) es now now' :
  (value (lamport_clock self) + 1 < u32_max)%N → edits_to_offsets (snapshot self) changes = Some es →
  edits_within 0 (visible_of (atoms L)) es → Forall (λ e, str_ok e.2) (map normalized es) →
  (N.of_nat (inserted_len (map normalized es)) <= u32_max)%N →
  ∃ self' L' op, edit self changes now now' = Some (self', op) ∧ issued op ∧ stands (log ++ [op]) known self' L' ∧ took self' op.
Proof.
  intros Hroom Hoffsets Hwithin Htexts Hlen. pose proof (stands_ok _ _ _ _ _ _ Hself) as Hok.
  destruct (edit_spec self L known changes es now now' Hok Hfits Hroom Hoffsets Hwithin Htexts Hlen)
    as (self' & L' & ranges & Hrun & Hok' & Hedited & Hundo & Hver & _ & _ & Hrec & Hclock & Hqueue & _).
  set (op := Operation.Edit _) in *. exists self', L', op.
  destruct (edited_lengths _ _ _ _ _ _ _ _ Hedited) as [Hlengths Hinserted]. pose proof local_known as Hknown.
  assert (issued op) as Hop.
  { split; [done| | |].
    - unfold op, Operation.replica_id, edit_timestamp. cbn. by case_decide.
    - unfold op, edit_timestamp. cbn. case_decide; simpl; lia.
    - cbn [content_ok op EditOperation.ranges EditOperation.new_text EditOperation.version]. unfold operation_edits. cbn [EditOperation.ranges EditOperation.new_text].
      split_and!; [done|by apply text_texts|by rewrite Hinserted|].
      rewrite <-(alike_seen_of _ _ _ (follows_atoms _ _ _ _ _ (stands_follows _ _ _ _ _ _ Hself))), (known_seen_of _ _ _ Hknown).
      by eapply edited_within. }
  assert (took self' op) as Htook by done.
  split; [done|]. split; [done|]. split; [|done]. apply (issued_stands op self' L'); try done; [| |by apply (recorded_edits _ _ now now')].
  - rewrite (edited_merge _ _ _ _ _ _ _ _ _ _ Hedited Hknown). apply merge_alike; [|done]. intros t.
    etrans; [eapply follows_undone; [done|done|apply Hself|by intros t']|]. apply undone_by_same. intros q Hq. split; [intros; apply elem_of_app; by left|].
    intros [?|Hq'%list_elem_of_singleton]%elem_of_app; [done|]. subst q. pose proof (issued_unobserved op Hop). cbn in Hq. congruence.
  - intros x. rewrite Hundo. split; [by left|]. by intros [?|(undo & ? & _)].
Qed.

(** *** An undo or redo *)

Lemma undo_stands self' L' ids op : undo_issued self self' ids op → ids ⊆ edits (history self) → buffer_ok self' L' known →
  map core (atoms L') = map core (atoms L) → Global.observe (version self) (lamport_clock self) = Some (version self') →
  lamport_clock self' = mkLamport (value (lamport_clock self) + 1) (replica_id self) → edits (history self') ⊆ edits (history self) →
  issued op ∧ stands (log ++ [op]) known self' L' ∧ took self' op.
Proof.
  intros (counts & Hcounts & -> & Hins & Hqueue) Hids Hok' Hcore Hver Hclock Hedits. pose proof (stands_ok _ _ _ _ _ _ Hself) as Hok.
  set (undo := mkUndoOperation _ _ _) in *. pose proof (buffer_snapshot _ _ _ Hok) as Hs.
  assert (issued (Operation.Undo undo)) as Hop.
  { split; [done|done|cbn; lia|]. intros id Hid. cbn in Hid. rewrite Hcounts in Hid. case_decide as Hin; [|by destruct Hid]. apply Hids in Hin. split.
    - by apply (buffer_edits _ _ _ Hok).
    - by apply (stands_edits _ _ _ _ _ _ Hself). }
  split; [done|]. split; [|done]. apply (issued_stands (Operation.Undo undo) self' L'); try done; [| |set_solver].
  - by apply core_alike.
  - pose proof (undos_searchable _ _ Hs (buffer_snapshot_fits _ Hfits)) as Hsearch.
    destruct (insert_spec (undo_map (snapshot self)) undo Hsearch (proj2 (ok_undos _ _ Hs))) as (undos & Hins' & _ & _ & Helems).
    { intros x Hx Heq. apply (not_older (lamport_clock self)), (buffer_used _ _ _ Hok). right. exists x. auto. }
    rewrite Hins in Hins'. apply (inj Some) in Hins' as <-. intros x. rewrite Helems. split; (intros [?|Hx]; [by left|right]); [by exists undo|].
    by destruct Hx as (undo' & [= <-] & ?).
Qed.
End local.
End issue.
