(* ===== verification/Network.v ===== *)
(** * A system of replicas

    Replicas of one text: each may edit, undo and redo, in transactions or not, and
    receive any of the operations made so far, in any order and any number of
    times.  Every step keeps the log and the replicas consistent. *)

From S2P Require Import Prelude Clock Locator SumTree SumTreeFacts Seek Cursor CursorFacts CursorWalk Keyed KeyedFacts UndoMap TreeMap TreeMapFacts Patch PatchFacts Subscription Utf8 TextSummary RopeTree Rope RopeFacts RopeSeek RopeCut LineEnding LineEndingFacts Operation OperationQueue History HistoryFacts Fragment FragmentFacts Snapshot EditSpec EditInv EditState EditSteps EditFinish EditFacts Undo UndoFinds UndoFacts Remote RemoteSeek RemoteSpec RemoteSteps RemoteDelete RemoteFacts Replay Buffer BufferFacts BufferEdit BufferUndo BufferLaws Receive Delivery Issue.

Import Buffer.

Implicit Types (self : Buffer) (L : list piece) (s : str) (known : gmap nat (list N)) (op p q : Operation) (log ops inbox : list Operation) (v w : Global) (t : Lamport) (i j : ReplicaId).

(** ** The system *)

(** A buffer with the operations it has made or received. *)
Record Replica := mkReplica { buffer : Buffer; inbox_of : list Operation }.

(** The operations in the order in which they were made, and the replicas. *)
Record System := mkSystem { sys_log : list Operation; replicas : gmap ReplicaId Replica }.

Implicit Types (sys : System) (r : Replica).

(** What the caller of [edit] answers for: ranges in order, on character
    boundaries, and room. *)
Definition can_edit {S} `{ToOffset S} `{LineSeparators} self (changes : list ((S * S) * str)) : Prop := ∃ s es,
  shows self s ∧ edits_to_offsets (snapshot self) changes = Some es ∧ edits_within 0 s es ∧
  Forall (λ e, str_ok e.2) (map normalized es) ∧ (N.of_nat (inserted_len (map normalized es)) <= u32_max)%N ∧
  buffer_fits self ∧ (value (lamport_clock self) + 1 < u32_max)%N.

(** No transaction is open, and there is room for the undo of the entry. *)
Definition can_undo self (stack : list HistoryEntry) : Prop :=
  buffer_fits self ∧ (value (lamport_clock self) < u32_max)%N ∧ History.transaction_depth (history self) = 0 ∧
  ∀ e, last stack = Some e → undo_fits self (entry_edits e) ∧
    ∀ id, id ∈ entry_edits e → (count_of (undo_map (snapshot self)) id < u32_max)%N.

Section system.
Context `{LineSeparatorsLaws}.

Inductive step sys : System → Prop :=
  | step_edit {S} `{!ToOffset S} i r (changes : list ((S * S) * str)) now now' self' op :
      replicas sys !! i = Some r → can_edit (buffer r) changes → edit (buffer r) changes now now' = Some (self', op) →
      step sys (mkSystem (sys_log sys ++ [op]) (<[i := mkReplica self' (inbox_of r ++ [op])]> (replicas sys)))
  | step_undo i r self' id op :
      replicas sys !! i = Some r → can_undo (buffer r) (History.undo_stack (history (buffer r))) →
      undo (buffer r) = Some (self', Some (id, op)) →
      step sys (mkSystem (sys_log sys ++ [op]) (<[i := mkReplica self' (inbox_of r ++ [op])]> (replicas sys)))
  | step_redo i r self' id op :
      replicas sys !! i = Some r → can_undo (buffer r) (History.redo_stack (history (buffer r))) →
      redo (buffer r) = Some (self', Some (id, op)) →
      step sys (mkSystem (sys_log sys ++ [op]) (<[i := mkReplica self' (inbox_of r ++ [op])]> (replicas sys)))
  | step_start i r now self' id :
      replicas sys !! i = Some r → (value (lamport_clock (buffer r)) < u32_max)%N →
      start_transaction_at (buffer r) now = Some (self', id) →
      step sys (mkSystem (sys_log sys) (<[i := mkReplica self' (inbox_of r)]> (replicas sys)))
  | step_end i r now self' result :
      replicas sys !! i = Some r → History.transaction_depth (history (buffer r)) ≠ 0 →
      end_transaction_at (buffer r) now = Some (self', result) →
      step sys (mkSystem (sys_log sys) (<[i := mkReplica self' (inbox_of r)]> (replicas sys)))
  | step_receive i r ops self' :
      replicas sys !! i = Some r → ops ⊆ sys_log sys → deliver_ready (buffer r) ops → apply_ops (buffer r) ops = Some self' →
      step sys (mkSystem (sys_log sys) (<[i := mkReplica self' (inbox_of r ++ ops)]> (replicas sys))).

(** New buffers of one text, with ids of their own. *)
Definition initial (text : str) sys : Prop :=
  sys_log sys = [] ∧ ∀ i r, replicas sys !! i = Some r → i ≠ u16_max ∧ inbox_of r = [] ∧
    ∃ remote_id, Buffer.new i remote_id text = Some (buffer r).

(** ** What holds of every reachable system *)

Section invariant.
Context (text : str) (Htext : str_ok text) (Hlen : (N.of_nat (Str.len text) <= u32_max)%N).

Abbreviation base := (inserted base_timestamp 0 (LineEnding.normalize text)) (only parsing).
Abbreviation start := (base_version (LineEnding.normalize text)) (only parsing).

Record replica_ok log i r : Prop := {
  replica_stands : ∃ L known, stands base start log known (buffer r) L;
  replica_own : replica_id (buffer r) = i;
  replica_settled : settled (buffer r);
  replica_inbox op : op ∈ inbox_of r → observes (version (buffer r)) op = true ∨ op ∈ operations_of (deferred_ops (buffer r));
}.

Record system_ok sys : Prop := {
  system_log : log_ok base start (sys_log sys);
  system_replica i r : replicas sys !! i = Some r → replica_ok (sys_log sys) i r;
}.

Lemma base_known : Forall (λ a, Global.observed start (atom_insertion a) = true ∧ atom_deletions a = []) base.
Proof.
  apply Forall_forall. intros a Ha. destruct (inserted_elem _ _ _ _ Ha) as (-> & -> & _).
  destruct (LineEnding.normalize text); [by apply not_elem_of_nil in Ha|done].
Qed.

Lemma base_get k : (Global.get start k <= match LineEnding.normalize text with [] => 0 | _ => 1 end)%N.
Proof. unfold base_version, Global.get. destruct (LineEnding.normalize text); [done|]. by destruct (N.to_nat k) as [|[]]. Qed.

Lemma initial_system_ok sys : initial text sys → system_ok sys.
Proof.
  intros [Hlog Hinit]. split; [rewrite Hlog; constructor|]. intros i r Hr. destruct (Hinit i r Hr) as (Hi & Hinbox & remote & Hnew).
  destruct (new_spec i remote text Htext Hlen Hi) as (self & L & le & Hrun & _ & Hok & _ & _ & _ & _ & Hh & Hid & _ & _ & Hbegins).
  rewrite Hrun in Hnew. apply (inj Some) in Hnew as ->. destruct Hbegins as [Hatoms Hver Hundos Hqueue Hclock]. rewrite Hlog. split; [|done| |].
  - exists L, ∅. split; [done|split| |].
    + rewrite Hver. split; [by intros t|by intros op ?%not_elem_of_nil|by left].
    + by rewrite Hatoms.
    + intros x. rewrite Hundos. split; [by intros ?%not_elem_of_nil|by intros (undo & ?%not_elem_of_nil & _)].
    + intros t. rewrite Hver, Hclock. unfold Global.observed. rewrite N.leb_le. pose proof (base_get (Clock.replica_id t)) as Hget.
      destruct (LineEnding.normalize text); lia.
    + by intros op ?%not_elem_of_nil.
    + rewrite Hqueue. by intros op ?%not_elem_of_nil.
    + rewrite Hh. by intros id ?%not_elem_of_nil.
  - intros op. rewrite Hqueue. by intros ?%not_elem_of_nil.
  - rewrite Hinbox. by intros op ?%not_elem_of_nil.
Qed.

(** ** Steps *)

(** An own operation brings nothing that a deferred one waits for. *)
Lemma took_settled log known self L self' op : log_ok base start log → stands base start log known self L → settled self →
  issued base log self op → took self self' op → settled self'.
Proof.
  intros Hlog Hself Hsettled Hop [Hver _ Hqueue] q. rewrite Hqueue. intros Hq Hext. apply (Hsettled q Hq), extends_get. intros k.
  pose proof (stands_queue _ _ _ _ _ _ Hself q Hq) as Hql. pose proof (stands_follows _ _ _ _ _ _ Hself) as Hfollows.
  destruct (list_elem_of_split _ _ Hql) as (past & rest & Heq). pose proof Hlog as Hl. rewrite Heq in Hl.
  pose proof (entry_cut _ _ _ _ (log_entry_at _ _ _ _ _ Hl)) as Hcut.
  pose proof (proj1 (extends_get _ _) Hext k) as Hk. rewrite (GlobalFacts.get_observe _ _ _ _ Hver) in Hk.
  case_decide as Heqk; [|done].
  destruct (cut_exact _ _ _ Hcut k) as [->|(p & Hp & Hts)]; [apply extends_get, (cut_start _ _ _ (follows_cut _ _ _ _ _ Hfollows))|].
  assert (observes (version self) p = true) as Hobs.
  { apply (follows_own _ _ _ _ _ Hfollows); [rewrite Heq; set_solver|]. rewrite <-(issued_replica _ _ _ _ Hop). unfold Operation.replica_id.
    by rewrite Hts, Heqk. }
  unfold observes in Hobs. rewrite Hts in Hobs. by apply N.leb_le in Hobs.
Qed.

Lemma issue_step sys i r known L self' L' op : system_ok sys → replicas sys !! i = Some r →
  stands base start (sys_log sys) known (buffer r) L → issued base (sys_log sys) (buffer r) op →
  stands base start (sys_log sys ++ [op]) known self' L' → took (buffer r) self' op →
  system_ok (mkSystem (sys_log sys ++ [op]) (<[i := mkReplica self' (inbox_of r ++ [op])]> (replicas sys))).
Proof.
  intros [Hlog Hreplicas] Hr Hself Hop Hself' Htook. pose proof (Hreplicas i r Hr) as [_ Hid Hsettled Hinbox].
  pose proof (issued_log _ _ _ _ base_known Hlog _ _ Hself _ Hop) as Hlonger. pose proof Htook as [Hver Hclock Hqueue].
  split; [done|]. cbn [sys_log replicas]. intros j r'. rewrite lookup_insert. case_decide as Hij; [intros [= <-]; subst j|intros Hr'].
  - split; cbn [buffer inbox_of]; [by exists L', known| |by apply (took_settled (sys_log sys) known (buffer r) L self' op)|].
    + unfold replica_id. by rewrite Hclock.
    + rewrite Hqueue. intros q [Hq|Hq%list_elem_of_singleton]%elem_of_app.
      * destruct (Hinbox q Hq) as [?|?]; [left|by right]. apply (observed_observe _ _ _ _ Hver). by left.
      * left. apply (observed_observe _ _ _ _ Hver). subst. by right.
  - destruct (Hreplicas j r' Hr') as [(L2 & known2 & Hr2) Hid2 Hsettled2 Hinbox2]. split; [|done..]. exists L2, known2.
    pose proof (issued_replica _ _ _ _ Hop) as Hreplica. apply stands_longer; [done|done| |by rewrite Hreplica, Hid, Hid2].
    unfold observes, Global.observed. apply N.leb_gt.
    pose proof (cut_behind _ _ _ _ _ _ Hself _ _ (follows_cut _ _ _ _ _ (stands_follows _ _ _ _ _ _ Hr2)) ltac:(done)) as Hbehind.
    pose proof (issued_value _ _ _ _ Hop). unfold behind, Operation.replica_id, replica_id in *. rewrite Hreplica. lia.
Qed.

(** A step that changes neither the text nor the version. *)
Lemma quiet_step sys i r self' : system_ok sys → replicas sys !! i = Some r →
  (∀ known L, stands base start (sys_log sys) known (buffer r) L → stands base start (sys_log sys) known self' L) →
  replica_id self' = replica_id (buffer r) → version self' = version (buffer r) → deferred_ops self' = deferred_ops (buffer r) →
  system_ok (mkSystem (sys_log sys) (<[i := mkReplica self' (inbox_of r)]> (replicas sys))).
Proof.
  intros [Hlog Hreplicas] Hr Hself' Hid' Hver Hqueue. split; [done|]. cbn [sys_log replicas]. intros j r'.
  rewrite lookup_insert. case_decide as Hij; [intros [= <-]; subst j|by apply Hreplicas].
  destruct (Hreplicas i r Hr) as [(L & known & Hself) Hid Hsettled Hinbox]. split; cbn [buffer inbox_of].
  - exists L, known. by apply Hself'.
  - by rewrite Hid'.
  - intros op. rewrite Hqueue, Hver. apply Hsettled.
  - intros op. rewrite Hqueue, Hver. apply Hinbox.
Qed.

Definition rope_text (rope : Rope) : str := concat (map Chunk.chunk_text (to_list (Rope.chunks rope))).

Lemma holds_text rope s : holds rope s → s = rope_text rope.
Proof. intros (texts & (_ & Hl & _) & ->). unfold rope_text. rewrite Hl, map_map. f_equal. symmetry. apply map_id. Qed.

Lemma edit_step_ok {S} `{!ToOffset S} sys i r (changes : list ((S * S) * str)) now now' self' op : system_ok sys → replicas sys !! i = Some r →
  can_edit (buffer r) changes → edit (buffer r) changes now now' = Some (self', op) →
  system_ok (mkSystem (sys_log sys ++ [op]) (<[i := mkReplica self' (inbox_of r ++ [op])]> (replicas sys))).
Proof.
  intros Hsys Hr (s & es & Hs & Hoffsets & Hwithin & Htexts & Hins & Hfits & Hroom) Hrun.
  destruct (replica_stands _ _ _ (system_replica _ Hsys i r Hr)) as (L & known & Hself).
  rewrite (holds_text _ _ Hs), <-(holds_text _ _ (shows_visible _ _ _ (stands_ok _ _ _ _ _ _ Hself))) in Hwithin.
  destruct (edit_issued _ _ _ _ base_known (system_log _ Hsys) _ _ Hself Hfits changes es now now' Hroom Hoffsets Hwithin Htexts Hins)
    as (self'' & L' & op' & Hrun' & Hop & Hself' & Htook).
  rewrite Hrun in Hrun'. apply (inj Some) in Hrun' as [= <- <-]. by eapply issue_step.
Qed.

(** An entry that is moved from one stack to the other. *)
Lemma undo_step_ok sys i r L known self' L' op e h' : system_ok sys → replicas sys !! i = Some r →
  stands base start (sys_log sys) known (buffer r) L → buffer_fits (buffer r) → entry_edits e ⊆ edits (history (buffer r)) →
  buffer_ok self' L' known → map core (atoms L') = map core (atoms L) →
  Global.observe (version (buffer r)) (lamport_clock (buffer r)) = Some (version self') →
  lamport_clock self' = mkLamport (value (lamport_clock (buffer r)) + 1) (Clock.replica_id (lamport_clock (buffer r))) →
  history self' = History.set_operations h' (operations self') → edits h' ⊆ edits (history (buffer r)) →
  undo_issued (buffer r) self' (entry_edits e) op →
  system_ok (mkSystem (sys_log sys ++ [op]) (<[i := mkReplica self' (inbox_of r ++ [op])]> (replicas sys))).
Proof.
  intros Hsys Hr Hself Hfits He Hok' Hcore Hver Hclock Hh Hedits Hissued.
  destruct (undo_stands _ _ _ _ base_known (system_log _ Hsys) _ _ Hself Hfits self' L' _ op Hissued He Hok' Hcore Hver Hclock)
    as (Hop & Hself' & Htook); [by rewrite Hh|]. by eapply issue_step.
Qed.

Lemma stack_edits h (e : HistoryEntry) : e ∈ entries h → entry_edits e ⊆ edits h.
Proof. intros He id Hid. unfold edits, edits_of. apply list_elem_of_In, in_concat. exists (entry_edits e). split; apply list_elem_of_In; [by apply (list_elem_of_fmap_2 (λ e, entry_edits e))|done]. Qed.

Lemma undo_entry_step sys i r self' id op : system_ok sys → replicas sys !! i = Some r →
  can_undo (buffer r) (History.undo_stack (history (buffer r))) → undo (buffer r) = Some (self', Some (id, op)) →
  system_ok (mkSystem (sys_log sys ++ [op]) (<[i := mkReplica self' (inbox_of r ++ [op])]> (replicas sys))).
Proof.
  intros Hsys Hr (Hfits & Hroom & Hdepth & Hlast) Hrun.
  destruct (replica_stands _ _ _ (system_replica _ Hsys i r Hr)) as (L & known & Hself). pose proof (stands_ok _ _ _ _ _ _ Hself) as Hok.
  destruct (snoc_cases (History.undo_stack (history (buffer r)))) as [Hnil|(pre & e & Hstack)].
  { unfold undo, History.pop_undo in Hrun. rewrite Hnil, Hdepth in Hrun. done. }
  rewrite Hstack, last_snoc in Hlast. destruct (Hlast e eq_refl) as [Hheight Hcounts].
  destruct (undoes_exist _ _ _ Hok Hfits) as [u Hu].
  destruct (undo_spec _ L known pre e u Hok Hfits Hdepth Hheight Hroom Hu Hcounts Hstack) as (self2 & L' & op' & Hrun' & (Hok' & Hcore & _ & Hver & Hclock & _) & Hh & Hissued).
  rewrite Hrun in Hrun'. apply (inj Some) in Hrun' as [= <- _ <-].
  eapply (undo_step_ok sys i r L known self' L' op e); try done.
  - apply stack_edits. unfold entries. rewrite Hstack. set_solver.
  - unfold edits, entries. cbn [History.set_stacks History.undo_stack History.redo_stack]. rewrite Hstack, !edits_of_app. set_solver.
Qed.

Lemma redo_entry_step sys i r self' id op : system_ok sys → replicas sys !! i = Some r →
  can_undo (buffer r) (History.redo_stack (history (buffer r))) → redo (buffer r) = Some (self', Some (id, op)) →
  system_ok (mkSystem (sys_log sys ++ [op]) (<[i := mkReplica self' (inbox_of r ++ [op])]> (replicas sys))).
Proof.
  intros Hsys Hr (Hfits & Hroom & Hdepth & Hlast) Hrun.
  destruct (replica_stands _ _ _ (system_replica _ Hsys i r Hr)) as (L & known & Hself). pose proof (stands_ok _ _ _ _ _ _ Hself) as Hok.
  destruct (snoc_cases (History.redo_stack (history (buffer r)))) as [Hnil|(pre & e & Hstack)].
  { unfold redo, History.pop_redo in Hrun. rewrite Hnil, Hdepth in Hrun. done. }
  rewrite Hstack, last_snoc in Hlast. destruct (Hlast e eq_refl) as [Hheight Hcounts].
  destruct (undoes_exist _ _ _ Hok Hfits) as [u Hu].
  destruct (redo_spec _ L known pre e u Hok Hfits Hdepth Hheight Hroom Hu Hcounts Hstack) as (self2 & L' & op' & Hrun' & (Hok' & Hcore & _ & Hver & Hclock & _) & Hh & Hissued).
  rewrite Hrun in Hrun'. apply (inj Some) in Hrun' as [= <- _ <-].
  eapply (undo_step_ok sys i r L known self' L' op e); try done.
  - apply stack_edits. unfold entries. rewrite Hstack. set_solver.
  - unfold edits, entries. cbn [History.set_stacks History.undo_stack History.redo_stack]. rewrite Hstack, !edits_of_app. set_solver.
Qed.

(** Starting and ending transactions. *)
Lemma stands_quiet log known self self' L : stands base start log known self L → buffer_ok self' L known → snapshot self' = snapshot self →
  deferred_ops self' = deferred_ops self → replica_id self' = replica_id self →
  (value (lamport_clock self) <= value (lamport_clock self'))%N → edits (history self') ⊆ edits (history self) →
  stands base start log known self' L.
Proof.
  intros [_ [Hcut Hatoms Hundos Hclock Hown] Hq He] Hok' Hsnap Hqueue Hid Hvalue Hedits.
  assert (version self' = version self) as Hver by (unfold version; by rewrite Hsnap).
  split; [done|split; rewrite ?Hver, ?Hsnap, ?Hid; try done| |].
  - intros t Ht. specialize (Hclock t Ht). lia.
  - by rewrite Hqueue.
  - intros id Hid'%Hedits. rewrite Hver. by apply He.
Qed.

Lemma start_step_ok sys i r now self' id : system_ok sys → replicas sys !! i = Some r → (value (lamport_clock (buffer r)) < u32_max)%N →
  start_transaction_at (buffer r) now = Some (self', id) →
  system_ok (mkSystem (sys_log sys) (<[i := mkReplica self' (inbox_of r)]> (replicas sys))).
Proof.
  intros Hsys Hr Hroom Hrun. assert (edits (history self') ⊆ edits (history (buffer r))) as Hedits.
  { unfold start_transaction_at in Hrun. destruct (History.start_transaction _ _ _ _) as [[[h' clock'] id']|] eqn:Hh; [|done].
    cbn [mbind option_bind] in Hrun. injection Hrun as <- _. by apply start_edits in Hh. }
  destruct (replica_stands _ _ _ (system_replica _ Hsys i r Hr)) as (L0 & known0 & Hself0).
  assert (∀ known L, stands base start (sys_log sys) known (buffer r) L → stands base start (sys_log sys) known self' L ∧
    replica_id self' = replica_id (buffer r) ∧ snapshot self' = snapshot (buffer r) ∧ deferred_ops self' = deferred_ops (buffer r)) as Hall.
  { intros known L Hself. destruct (ok_start _ L known now (stands_ok _ _ _ _ _ _ Hself) Hroom)
      as (self2 & id2 & Hrun2 & Hok2 & Hsnap & Hqueue & _ & Hid & _ & Hcase).
    rewrite Hrun in Hrun2. apply (inj Some) in Hrun2 as [= <- _]. split; [|done]. apply (stands_quiet _ _ (buffer r)); try done.
    case_decide; destruct Hcase as [-> _]; simpl; lia. }
  destruct (Hall _ _ Hself0) as (_ & Hid & Hsnap & Hqueue). apply quiet_step; try done; [by intros; apply Hall|]. unfold version. by rewrite Hsnap.
Qed.

Lemma end_step_ok sys i r now self' result : system_ok sys → replicas sys !! i = Some r →
  History.transaction_depth (history (buffer r)) ≠ 0 → end_transaction_at (buffer r) now = Some (self', result) →
  system_ok (mkSystem (sys_log sys) (<[i := mkReplica self' (inbox_of r)]> (replicas sys))).
Proof.
  intros Hsys Hr Hdepth Hrun. assert (edits (history self') ⊆ edits (history (buffer r))) as Hedits.
  { unfold end_transaction_at in Hrun. destruct (History.end_transaction _ _) as [[h1 entry]|] eqn:Hend; [|done].
    apply end_edits in Hend. cbn [mbind option_bind] in Hrun. destruct entry; [|by injection Hrun as <- _].
    destruct (History.group h1) as [[h2 [id|]]|] eqn:Hgroup; try done. apply group_edits in Hgroup. cbn [mbind option_bind] in Hrun.
    injection Hrun as <- _. cbn [set_history history]. by rewrite Hgroup. }
  destruct (replica_stands _ _ _ (system_replica _ Hsys i r Hr)) as (L0 & known0 & Hself0).
  assert (∀ known L, stands base start (sys_log sys) known (buffer r) L → stands base start (sys_log sys) known self' L ∧
    lamport_clock self' = lamport_clock (buffer r) ∧ snapshot self' = snapshot (buffer r) ∧ deferred_ops self' = deferred_ops (buffer r)) as Hall.
  { intros known L Hself. destruct (ok_end _ L known now (stands_ok _ _ _ _ _ _ Hself) Hdepth)
      as (self2 & result2 & Hrun2 & Hok2 & Hsnap & Hclock & _ & Hqueue & _).
    rewrite Hrun in Hrun2. apply (inj Some) in Hrun2 as [= <- _]. split; [|done]. apply (stands_quiet _ _ (buffer r)); try done.
    - unfold replica_id. by rewrite Hclock.
    - by rewrite Hclock. }
  destruct (Hall _ _ Hself0) as (_ & Hclock & Hsnap & Hqueue). apply quiet_step; try done; [by intros; apply Hall| |].
  - unfold replica_id. by rewrite Hclock.
  - unfold version. by rewrite Hsnap.
Qed.

Lemma receive_step_ok sys i r ops : system_ok sys → replicas sys !! i = Some r → ops ⊆ sys_log sys → deliver_ready (buffer r) ops →
  ∃ self', apply_ops (buffer r) ops = Some self' ∧
    system_ok (mkSystem (sys_log sys) (<[i := mkReplica self' (inbox_of r ++ ops)]> (replicas sys))).
Proof.
  intros [Hlog Hreplicas] Hr Hops Hready. destruct (Hreplicas i r Hr) as [(L & known & Hself) Hid Hsettled Hinbox].
  destruct (apply_ops_spec base start _ known base_known Hlog _ L ops Hself) as (self' & L' & Hrun & Hself' & Hid' & Hsettled' & Hext & Hall);
    [by intros op; apply Hops|done|].
  exists self'. split; [done|]. split; [done|]. cbn [sys_log replicas]. intros j r'.
  rewrite lookup_insert. case_decide as Hij; [intros [= <-]; subst j|by apply Hreplicas].
  split; cbn [buffer inbox_of]; [by exists L', known|by rewrite Hid'|done|].
  intros op [Hop|Hop]%elem_of_app; [|apply Hall; by left].
  destruct (Hinbox op Hop) as [?|?]; [left; by apply Hext|apply Hall; by right].
Qed.

Lemma step_ok sys sys' : system_ok sys → step sys sys' → system_ok sys'.
Proof.
  intros Hsys. destruct 1 as [S ? i r changes now now' self' op Hr Hcan Hrun|i r self' id op Hr Hcan Hrun|i r self' id op Hr Hcan Hrun
    |i r now self' id Hr Hroom Hrun|i r now self' result Hr Hdepth Hrun|i r ops self' Hr Hops Hready Hrun].
  - by eapply edit_step_ok.
  - by eapply undo_entry_step.
  - by eapply redo_entry_step.
  - by eapply start_step_ok.
  - by eapply end_step_ok.
  - destruct (receive_step_ok sys i r ops Hsys Hr Hops Hready) as (self2 & Hrun2 & Hok2). rewrite Hrun in Hrun2. by injection Hrun2 as <-.
Qed.

(** The systems that can be reached. *)
Definition reached sys : Prop := ∃ sys0, initial text sys0 ∧ rtc step sys0 sys.

Lemma reached_ok sys : reached sys → system_ok sys.
Proof.
  intros (sys0 & Hinit%initial_system_ok & Hsteps). revert Hinit. induction Hsteps as [|sys0 sys1 sys2 Hstep _ IH]; [done|].
  intros Hok. apply IH. by eapply step_ok.
Qed.
End invariant.

(** ** The text *)

(** What the text of a replica is: the operations its version has observed,
    replayed in the order in which they were made, without what is undone. *)
Definition replayed (text : str) sys v : str :=
  text_by (undone_by (sys_log sys) v) (map core (replay (sys_log sys) (inserted base_timestamp 0 (LineEnding.normalize text))
    (filter (λ op, observes v op = true) (sys_log sys)))).

Lemma replica_text text sys i r : str_ok text → (N.of_nat (Str.len text) <= u32_max)%N → reached text sys → replicas sys !! i = Some r →
  buffer_fits (buffer r) → shows (buffer r) (replayed text sys (version (buffer r))).
Proof.
  intros Htext Hlen Hsys Hr Hfits. destruct (reached_ok text Htext Hlen sys Hsys) as [Hlog Hreplicas].
  destruct (Hreplicas i r Hr) as [(L & known & Hself) _ _ _]. pose proof (stands_ok _ _ _ _ _ _ Hself) as Hok.
  pose proof (stands_follows _ _ _ _ _ _ Hself) as Hfollows. pose proof (buffer_snapshot _ _ _ Hok) as Hs.
  pose proof (undoes_count _ (undos_searchable _ _ Hs (buffer_snapshot_fits _ Hfits)) (proj2 (ok_undos _ _ Hs))) as Hu.
  unfold replayed. rewrite <-(text_by_alike _ _ _ (follows_atoms _ _ _ _ _ Hfollows)).
  rewrite (text_by_ext _ (λ id, count_of (undo_map (snapshot (buffer r))) id mod 2 =? 1)%N).
  - rewrite <-(snapshot_text _ _ _ Hs Hu). by eapply shows_visible.
  - assert (∀ t, undone_by (sys_log sys) (version (buffer r)) t = (count_of (undo_map (snapshot (buffer r))) t mod 2 =? 1)%N) as Hundone.
    { intros t. rewrite <-(undone_at_version _ _ _ _ (base_known text) Hlog _ _ Hself Hfits). symmetry.
      eapply follows_undone; [done..|by intros t']. }
    intros c _. split; [|intros d _]; apply Hundone.
Qed.
End system.
