(* ===== verification/Replicas.v ===== *)
(** * Replicas converge

    What the replicas of a text promise: edits of other replicas are merged as
    [merged] says, every replica shows the replay of the operations it has applied,
    no operation is lost, and replicas that have received the same operations show
    the same text. *)

From S2P Require Import Prelude Clock Locator SumTree SumTreeFacts Seek Cursor CursorFacts CursorWalk Keyed KeyedFacts UndoMap TreeMap TreeMapFacts Patch PatchFacts Subscription Utf8 TextSummary RopeTree Rope RopeFacts RopeSeek RopeCut LineEnding LineEndingFacts Operation OperationQueue History HistoryFacts Fragment FragmentFacts Snapshot EditSpec EditInv EditState EditSteps EditFinish EditFacts Undo UndoFinds UndoFacts Remote RemoteSeek RemoteSpec RemoteSteps RemoteDelete RemoteFacts Replay Buffer BufferFacts BufferEdit BufferUndo BufferLaws Receive Delivery Issue Network.

Import Buffer.

Implicit Types (L : list piece) (s : str) (op p : Operation) (ops : list Operation) (sys : System) (r : Replica).

(** C3. An edit of another replica is merged as specified.  On a consistent
    snapshot, for an edit with a fresh timestamp that is later than what its
    version has seen, with ranges in order and on character boundaries of the
    text its version has seen, and with less than 4 GiB in each of the texts
    afterwards, [apply_remote_edit] does not panic: it makes a consistent
    snapshot of the atoms that [merged] says, in which the inserted texts stand
    behind the concurrent insertions with later timestamps and of the ranges only
    what the version showed is deleted; its patch tells what became of the
    visible text, and no sum of text summaries overflows. *)
Theorem remote_edit_merges self L version timestamp ranges new_text (Hok : snapshot_ok self L) (Hfits : snapshot_fits self)
    (Hts : observable timestamp) (Hlater : later_than_seen version timestamp (atoms L)) (Hfresh : fresh self L timestamp)
    (Hlength : length ranges = length new_text)
    (Hwithin : edits_within 0 (seen_of version (atoms L)) (zip ranges new_text)) (Htexts : Forall str_ok new_text)
    (Hlen : (N.of_nat (inserted_len (zip ranges new_text)) <= u32_max)%N)
    (Hresult : texts_fit (merged version (undone_at version (undo_map self)) timestamp (zip ranges new_text) (atoms L))) :
  ∃ self' L' patch, RemoteEdit.apply_remote_edit version timestamp self ranges new_text = Some (self', patch) ∧ snapshot_ok self' L' ∧
    atoms L' = merged version (undone_at version (undo_map self)) timestamp (zip ranges new_text) (atoms L) ∧
    relates (default Patch.empty patch) (text_bytes L) (text_bytes L') ∧
    undo_map self' = undo_map self ∧ snapshot_version self' = snapshot_version self ∧ texts_checked self'.
Proof.
  destruct (apply_remote_spec self L version timestamp Hok Hfits Hts Hlater ranges new_text Hlength Hfresh Hwithin Htexts Hlen)
    as (self' & L' & patch & Hrun & Hok' & Hatoms & HP & _ & Hundo & Hver & _). exists self', L', patch.
  split_and!; [done..|]. apply (snapshot_texts_checked _ L' Hok'). by rewrite Hatoms.
Qed.

Section system.
Context `{LineSeparatorsLaws}.

(** C1. Replicas that have received the same operations show the same text.  In
    any system reached from new buffers of one text by edits, undos, redos,
    transactions and the delivery of operations in any order, in any batches and
    any number of times: two replicas that have received every operation made so
    far have the same version; and two replicas with the same version show the
    same text, whatever else they have deferred. *)
Theorem replicas_converge text sys i1 i2 r1 r2
    (Htext : str_ok text) (Hlen : (N.of_nat (Str.len text) <= u32_max)%N) (Hsys : reached text sys)
    (H1 : replicas sys !! i1 = Some r1) (H2 : replicas sys !! i2 = Some r2)
    (Hfits1 : buffer_fits (buffer r1)) (Hfits2 : buffer_fits (buffer r2)) :
  (sys_log sys ⊆ inbox_of r1 → sys_log sys ⊆ inbox_of r2 → version (buffer r1) = version (buffer r2)) ∧
  (version (buffer r1) = version (buffer r2) → ∃ s, shows (buffer r1) s ∧ shows (buffer r2) s).
Proof.
  split.
  - intros Hall1 Hall2. destruct (reached_ok text Htext Hlen sys Hsys) as [Hlog Hreplicas].
    destruct (Hreplicas i1 r1 H1) as [(L1 & known1 & Hs1) _ Hset1 Hin1]. destruct (Hreplicas i2 r2 H2) as [(L2 & known2 & Hs2) _ Hset2 Hin2].
    apply (complete_versions _ _ _ _ _ _ _ _ _ Hs1 Hs2).
    + apply (settled_complete _ _ _ _ (base_known text) Hlog _ _ Hs1 Hset1). intros op Hop. by apply Hin1, Hall1.
    + apply (settled_complete _ _ _ _ (base_known text) Hlog _ _ Hs2 Hset2). intros op Hop. by apply Hin2, Hall2.
  - intros Hver. exists (replayed text sys (version (buffer r1))). split; [by eapply replica_text|].
    rewrite Hver. by eapply replica_text.
Qed.

(** C2. The text of a replica is a function of the log and of its version.  Every
    buffer of a reached system is well formed and shows what replaying, in the
    order in which they were made, the operations its version has observed gives,
    without what they undo; its version has observed the timestamps in use, and
    they are behind its clock. *)
Theorem replica_replays_log text sys i r
    (Htext : str_ok text) (Hlen : (N.of_nat (Str.len text) <= u32_max)%N) (Hsys : reached text sys)
    (Hr : replicas sys !! i = Some r) (Hfits : buffer_fits (buffer r)) :
  ∃ L known, buffer_ok (buffer r) L known ∧ replica_id (buffer r) = i ∧
    shows (buffer r) (replayed text sys (version (buffer r))) ∧
    ∀ t, used (snapshot (buffer r)) L t → Global.observed (version (buffer r)) t = true ∧ (value t < value (lamport_clock (buffer r)))%N.
Proof.
  destruct (reached_ok text Htext Hlen sys Hsys) as [Hlog Hreplicas]. destruct (Hreplicas i r Hr) as [(L & known & Hself) Hid _ _].
  exists L, known. split; [apply Hself|]. split; [done|]. split; [by eapply replica_text|]. intros t Ht.
  assert (Global.observed (version (buffer r)) t = true) as Hobs.
  { eapply follows_observed; [apply base_known|exact Hlog|apply Hself|done]. }
  split; [done|]. by apply (follows_clock _ _ _ _ _ (stands_follows _ _ _ _ _ _ Hself)).
Qed.

(** C4. Delivery loses nothing and defers nothing without need.  In a reached
    system, [apply_ops] of any operations of the log does not panic: the buffer
    stays well formed, every operation received so far has been applied or is
    deferred, and whatever is deferred has seen an operation of the log that has not been
    applied here. *)
Theorem delivery_settles text sys i r ops
    (Htext : str_ok text) (Hlen : (N.of_nat (Str.len text) <= u32_max)%N) (Hsys : reached text sys)
    (Hr : replicas sys !! i = Some r) (Hops : ops ⊆ sys_log sys) (Hready : deliver_ready (buffer r) ops) :
  ∃ self' L' known, apply_ops (buffer r) ops = Some self' ∧ buffer_ok self' L' known ∧
    (∀ op, op ∈ inbox_of r ++ ops → observes (version self') op = true ∨ op ∈ operations_of (deferred_ops self')) ∧
    ∀ op, op ∈ operations_of (deferred_ops self') → ∃ p, p ∈ sys_log sys ∧ observes (Operation.version op) p = true ∧
      observes (version self') p = false.
Proof.
  pose proof (reached_ok text Htext Hlen sys Hsys) as Hok. destruct (receive_step_ok text sys i r ops Hok Hr Hops Hready) as (self' & Hrun & [Hlog Hreplicas]).
  destruct (Hreplicas i (mkReplica self' (inbox_of r ++ ops))) as [(L' & known & Hself') _ Hsettled Hinbox]; [apply lookup_insert_eq|].
  exists self', L', known. split; [done|]. split; [apply Hself'|]. split; [exact Hinbox|]. intros op Hop.
  destruct (not_extends_missing _ _ _ (base_known text) Hlog (version self') op) as (p & Hp & Hpo & Hvp & _).
  - by apply (stands_queue _ _ _ _ _ _ Hself').
  - apply (follows_cut _ _ _ _ _ (stands_follows _ _ _ _ _ _ Hself')).
  - by apply Hsettled.
  - by exists p.
Qed.
End system.

(** ** An example *)

(** What a delivery asks for, decided. *)
Section decide.
Context `{LineSeparators}.

Definition ready_b (self : Buffer) op : bool :=
  buffer_fits_b self && (N.max (value (lamport_clock self)) (value (Operation.timestamp op)) <? u32_max)%N &&
  match op with
  | Operation.Undo undo => holds_of (λ undos, Node.height undos <? STACK_CAPACITY) (UndoMap.insert (undo_map (snapshot self)) undo)
  | Operation.Edit _ => true
  end.

Lemma ready_decided self op : ready_b self op = true → ready self op.
Proof.
  intros [[Hfits Hroom]%andb_true_iff Hundo]%andb_true_iff. split; [by apply buffer_fits_decided|]. split; [by apply N.ltb_lt|].
  intros undo undos -> Hins. apply Nat.ltb_lt. exact (holds_of_some _ _ _ Hundo Hins).
Qed.

Fixpoint flush_ready_b (st : Buffer * list Operation) ops : bool :=
  match ops with
  | [] => buffer_fits_b st.1
  | op :: ops => ready_b st.1 op && holds_of (λ st', flush_ready_b st' ops) (try_apply st op)
  end.

Lemma flush_ready_decided st ops : flush_ready_b st ops = true → flush_ready st ops.
Proof.
  revert st. induction ops as [|op ops IH]; intros st; [apply buffer_fits_decided|]. intros [Hop Hnext]%andb_true_iff.
  split; [by apply ready_decided|]. intros st' Hrun. by apply IH, (holds_of_some _ _ _ Hnext Hrun).
Qed.

Fixpoint loop_ready_b (st : Buffer * list Operation) ops : bool :=
  match ops with
  | [] => buffer_fits_b st.1
  | op :: ops => buffer_fits_b st.1 && holds_of (λ self, ready_b self op && 
      holds_of (λ st', loop_ready_b st' ops) (try_apply (self, st.2) op)) (push_history st.1 op)
  end.

Lemma loop_ready_decided st ops : loop_ready_b st ops = true → loop_ready st ops.
Proof.
  revert st. induction ops as [|op ops IH]; intros st; [apply buffer_fits_decided|]. intros [Hfits Hpush]%andb_true_iff.
  split; [by apply buffer_fits_decided|]. intros self Hself. pose proof (holds_of_some _ _ _ Hpush Hself) as [Hop Hnext]%andb_true_iff.
  split; [by apply ready_decided|]. intros st' Hrun. by apply IH, (holds_of_some _ _ _ Hnext Hrun).
Qed.

Definition deliver_ready_b (self : Buffer) ops : bool :=
  loop_ready_b (self, []) ops && holds_of (λ st, holds_of (λ self2,
    buffer_fits_b self2 && flush_ready_b (set_deferred self2 OperationQueue.new ∅, []) (operations_of (deferred_ops self2)))
    (defer st.1 st.2)) (apply_loop (self, []) ops).

Lemma deliver_ready_decided self ops : deliver_ready_b self ops = true → deliver_ready self ops.
Proof.
  intros [Hloop Hflush]%andb_true_iff. split; [by apply loop_ready_decided|]. intros self1 d self2 Hrun1 Hrun2.
  pose proof (holds_of_some _ _ _ (holds_of_some _ _ _ Hflush Hrun1) Hrun2) as [Hfits Hready]%andb_true_iff.
  split; [by apply buffer_fits_decided|by apply flush_ready_decided].
Qed.
Definition can_undo_b (self : Buffer) (stack : list HistoryEntry) : bool :=
  buffer_fits_b self && (value (lamport_clock self) <? u32_max)%N && (History.transaction_depth (history self) =? 0) &&
  match last stack with
  | Some e => undo_fits_b self (entry_edits e) && forallb (λ id, count_of (undo_map (snapshot self)) id <? u32_max)%N (entry_edits e)
  | None => true
  end.

Lemma can_undo_decided self stack : can_undo_b self stack = true → can_undo self stack.
Proof.
  intros [[[Hfits Hroom]%andb_true_iff Hdepth]%andb_true_iff Hlast]%andb_true_iff.
  split; [by apply buffer_fits_decided|]. split; [by apply N.ltb_lt|]. split; [by apply Nat.eqb_eq|]. intros e He. rewrite He in Hlast.
  apply andb_true_iff in Hlast as [Hundo Hcount]. split; [by apply undo_fits_decided|]. intros id Hid. rewrite forallb_forall in Hcount.
  apply N.ltb_lt, Hcount. by apply list_elem_of_In.
Qed.
End decide.

Module ReplicasExample.
Import SeparatorsExample BufferExample.

Definition get_or {A} (default : A) (o : option A) : A := match o with Some a => a | None => default end.

(** Two replicas of the text.  The first edits it as in [BufferExample]; the second
    replaces the line feed and the euro sign, a range that overlaps the first's,
    appends a full stop, undoes that and redoes it. *)
Definition start_of (i : ReplicaId) : Buffer := get_or buffer (new i 7%N text).
Definition changes2 : list ((nat * nat) * str) := [((3, 7), [122]%N); ((8, 8), [46]%N)].
Definition offsets2 : list (Range * str) := [(Range.mk 3 7, [122]%N); (Range.mk 8 8, [46]%N)].

Definition no_op : Operation := Operation.Undo (mkUndoOperation Lamport.MIN Global.new ∅).
Definition edited1 : Buffer * Operation := get_or (start_of 1%N, no_op) (edit (start_of 1%N) changes 0%N 1%N).
Definition edited2 : Buffer * Operation := get_or (start_of 2%N, no_op) (edit (start_of 2%N) changes2 0%N 1%N).
Definition moved (o : option (Buffer * option (TransactionId * Operation))) : Buffer * (TransactionId * Operation) :=
  match o with Some (self, Some result) => (self, result) | _ => (buffer, (Lamport.MIN, no_op)) end.
Definition undone2 : Buffer * (TransactionId * Operation) := moved (undo edited2.1).
Definition redone2 : Buffer * (TransactionId * Operation) := moved (redo undone2.1).

(** The first receives the redo and the undo before the edit, and the edit twice. *)
Definition batch1 : list Operation := [redone2.2.2; undone2.2.2].
Definition batch2 : list Operation := [edited2.2; edited2.2].
Definition waiting1 : Buffer := get_or edited1.1 (apply_ops edited1.1 batch1).
Definition merged1 : Buffer := get_or waiting1 (apply_ops waiting1 batch2).
Definition merged2 : Buffer := get_or redone2.1 (apply_ops redone2.1 [edited1.2]).

Lemma start_new i : i = 1%N ∨ i = 2%N → new i 7%N text = Some (start_of i).
Proof. intros [->| ->]; by vm_compute. Qed.

Lemma start_shows i : i = 1%N ∨ i = 2%N → shows (start_of i) normal ∧ buffer_fits (start_of i).
Proof.
  intros Hi. assert (i ≠ u16_max) as Hne by (by destruct Hi as [->| ->]).
  destruct (new_spec i 7%N text text_fine text_short Hne) as (self & L & le & Hrun & _ & Hok & Hfits & Hv & _).
  rewrite (start_new i Hi) in Hrun. apply (inj Some) in Hrun. rewrite <-Hrun in Hok, Hfits. split; [|done].
  pose proof (shows_visible _ _ _ Hok) as Hs. rewrite Hv in Hs. exact Hs.
Qed.

Lemma can_edit1 : can_edit (start_of 1%N) changes.
Proof.
  destruct (start_shows 1%N (or_introl eq_refl)) as [Hs Hfits]. exists normal, offsets.
  split; [exact Hs|]. split; [by vm_compute|]. split; [apply offsets_within|]. split; [apply offsets_texts|]. split; [apply offsets_texts|].
  split; [exact Hfits|by vm_compute].
Qed.

Lemma can_edit2 : can_edit (start_of 2%N) changes2.
Proof.
  destruct (start_shows 2%N (or_intror eq_refl)) as [Hs Hfits]. exists normal, offsets2.
  split; [exact Hs|]. split; [by vm_compute|]. split.
  { exists [104; 233]%N, [10; 0x20AC]%N, [33]%N. do 3 (split; [done|]). exists [33]%N, [], []. by do 3 (split; [done|]). }
  split; [by apply (bool_decide_unpack _); vm_compute|]. split; [by vm_compute|]. split; [exact Hfits|by vm_compute].
Qed.

(** The systems on the way. *)
Definition ops1 : list Operation := [edited1.2].
Definition ops2 : list Operation := [edited2.2; undone2.2.2; redone2.2.2].

Definition at_start : System := mkSystem [] {[ 1%N := mkReplica (start_of 1%N) []; 2%N := mkReplica (start_of 2%N) [] ]}.
Definition replica1 (inbox : list Operation) (self : Buffer) : Replica := mkReplica self (ops1 ++ inbox).
Definition replica2 (inbox : list Operation) (self : Buffer) : Replica := mkReplica self (ops2 ++ inbox).
Definition apart (self1 : Replica) (self2 : Replica) : System := mkSystem (ops1 ++ ops2) (<[2%N := self2]> (<[1%N := self1]> (replicas at_start))).

Lemma step_to sys sys1 sys2 : step sys sys1 → sys1 = sys2 → step sys sys2.
Proof. by intros Hstep <-. Qed.

Lemma edits_reached : rtc step at_start (apart (replica1 [] edited1.1) (replica2 [] redone2.1)).
Proof.
  eapply rtc_l; [apply (step_edit at_start 1%N (mkReplica (start_of 1%N) []) changes 0%N 1%N edited1.1 edited1.2); [done|apply can_edit1|by vm_compute]|].
  eapply rtc_l; [apply (step_edit _ 2%N (mkReplica (start_of 2%N) []) changes2 0%N 1%N edited2.1 edited2.2); [done|apply can_edit2|by vm_compute]|].
  eapply rtc_l; [apply (step_undo _ 2%N (mkReplica edited2.1 [edited2.2]) undone2.1 undone2.2.1 undone2.2.2);
    [done|apply can_undo_decided; by vm_compute|by vm_compute]|].
  eapply rtc_l; [apply (step_redo _ 2%N (mkReplica undone2.1 [edited2.2; undone2.2.2]) redone2.1 redone2.2.1 redone2.2.2);
    [done|apply can_undo_decided; by vm_compute|by vm_compute]|].
  cbn [sys_log replicas inbox_of at_start]. unfold apart, replica1, replica2, ops1, ops2. cbn [app]. rewrite !insert_insert_eq. apply rtc_refl.
Qed.

Lemma at_start_initial : initial text at_start.
Proof.
  split; [done|]. intros i r. unfold at_start. cbn [replicas].
  assert (∀ k, k = 1%N ∨ k = 2%N → k ≠ u16_max ∧ inbox_of (mkReplica (start_of k) []) = [] ∧
    ∃ remote_id, new k remote_id text = Some (Network.buffer (mkReplica (start_of k) []))) as Hnew.
  { intros k Hk. split; [by destruct Hk as [->| ->]|]. split; [done|]. exists 7%N. by apply start_new. }
  rewrite lookup_insert. case_decide as H1; [intros [= <-]; subst i; apply Hnew; by left|].
  rewrite lookup_singleton. case_decide as H2; [|done]. intros [= <-]. subst i. apply Hnew. by right.
Qed.

Lemma apart_reached : reached text (apart (replica1 [] edited1.1) (replica2 [] redone2.1)).
Proof. exists at_start. split; [apply at_start_initial|apply edits_reached]. Qed.

Lemma received_by1 inbox self ops self' r2 : apply_ops self ops = Some self' → deliver_ready self ops → ops ⊆ ops1 ++ ops2 →
  reached text (apart (replica1 inbox self) r2) → reached text (apart (replica1 (inbox ++ ops) self') r2).
Proof.
  intros Hrun Hready Hops (sys0 & Hinit & Hsteps). exists sys0. split; [done|]. eapply rtc_r; [exact Hsteps|].
  eapply step_to; [apply (step_receive _ 1%N (replica1 inbox self) ops self'); [done|exact Hops|exact Hready|exact Hrun]|done].
Qed.

Lemma received_by2 inbox self ops self' r1 : apply_ops self ops = Some self' → deliver_ready self ops → ops ⊆ ops1 ++ ops2 →
  reached text (apart r1 (replica2 inbox self)) → reached text (apart r1 (replica2 (inbox ++ ops) self')).
Proof.
  intros Hrun Hready Hops (sys0 & Hinit & Hsteps). exists sys0. split; [done|]. eapply rtc_r; [exact Hsteps|].
  eapply step_to; [apply (step_receive _ 2%N (replica2 inbox self) ops self'); [done|exact Hops|exact Hready|exact Hrun]|done].
Qed.

(** The batches, whatever the operations are. *)
Lemma batches (op1 e2 u2 r2 : Operation) : [r2; u2] ⊆ [op1; e2; u2; r2] ∧ [e2; e2] ⊆ [op1; e2; u2; r2] ∧
  [op1; e2; u2; r2] ⊆ [op1; r2; u2; e2; e2] ∧ [op1; e2; u2; r2] ⊆ [e2; u2; r2; op1].
Proof. split_and!; intros op Hop; rewrite !elem_of_cons in *; tauto. Qed.

Lemma batch1_ready : deliver_ready edited1.1 batch1 ∧ batch1 ⊆ ops1 ++ ops2 ∧ apply_ops edited1.1 batch1 = Some waiting1.
Proof. split; [apply deliver_ready_decided; by vm_compute|]. split; [apply batches|by vm_compute]. Qed.

Lemma batch2_ready : deliver_ready waiting1 batch2 ∧ batch2 ⊆ ops1 ++ ops2 ∧ apply_ops waiting1 batch2 = Some merged1.
Proof. split; [apply deliver_ready_decided; by vm_compute|]. split; [apply batches|by vm_compute]. Qed.

Lemma ops1_ready : deliver_ready redone2.1 ops1 ∧ apply_ops redone2.1 ops1 = Some merged2.
Proof. split; [apply deliver_ready_decided; by vm_compute|by vm_compute]. Qed.

Definition final1 : Replica := replica1 (batch1 ++ batch2) merged1.
Definition final2 : Replica := replica2 ops1 merged2.
Definition together : System := apart final1 final2.

Lemma together_replicas : replicas together !! 1%N = Some final1 ∧ replicas together !! 2%N = Some final2.
Proof. done. Qed.

Lemma together_reached : reached text together.
Proof.
  destruct batch1_ready as (Hready1 & Hops1 & Hrun1). destruct batch2_ready as (Hready2 & Hops2 & Hrun2). destruct ops1_ready as [Hready3 Hrun3].
  unfold together, final1, final2. apply (received_by2 [] redone2.1 ops1); [done|done|by intros op ?; apply elem_of_app; left|].
  apply (received_by1 batch1 waiting1 batch2); [done..|]. apply (received_by1 [] edited1.1 batch1); [done..|]. apply apart_reached.
Qed.

Lemma together_fits : buffer_fits (Network.buffer final1) ∧ buffer_fits (Network.buffer final2).
Proof. split; apply buffer_fits_decided; by vm_compute. Qed.

Lemma together_received : sys_log together ⊆ inbox_of final1 ∧ sys_log together ⊆ inbox_of final2.
Proof. split; apply batches. Qed.

Definition converged : str := [104; 120; 10; 122; 33; 46; 63]%N.

Lemma together_text s : shows (Network.buffer final1) s → s = converged.
Proof. intros ->%holds_text. by vm_compute. Qed.

Lemma together_replayed : replayed text together (version (Network.buffer final2)) = converged.
Proof. by vm_compute. Qed.

(** Before they hear of each other. *)
Definition alone1 : Replica := replica1 [] edited1.1.
Definition alone : System := apart alone1 (replica2 [] redone2.1).

Lemma alone_replica : replicas alone !! 1%N = Some alone1.
Proof. done. Qed.

Lemma alone_ready : deliver_ready (Network.buffer alone1) batch1 ∧ batch1 ⊆ sys_log alone.
Proof. destruct batch1_ready as (Hready & Hops & _). by split. Qed.

Lemma alone_waits self : apply_ops (Network.buffer alone1) batch1 = Some self → OperationQueue.len (deferred_ops self) = 2.
Proof. destruct batch1_ready as (_ & _ & Hrun). unfold alone1, replica1. cbn [Network.buffer].
  rewrite Hrun. intros Heq. apply (inj Some) in Heq. rewrite <-Heq. by vm_compute. Qed.
End ReplicasExample.
Import SeparatorsExample ReplicasExample.

(** The text both show has what both did. *)
Lemma replicas_converge_witness : version (buffer final1) = version (buffer final2) ∧ shows (buffer final1) converged ∧ shows (buffer final2) converged.
Proof.
  destruct (replicas_converge BufferExample.text together 1%N 2%N final1 final2 BufferExample.text_fine BufferExample.text_short together_reached
    (proj1 together_replicas) (proj2 together_replicas) (proj1 together_fits) (proj2 together_fits)) as [Hver Hsame].
  specialize (Hver (proj1 together_received) (proj2 together_received)). destruct (Hsame Hver) as (s & Hs1 & Hs2).
  split; [exact Hver|]. pose proof (together_text s Hs1) as ->. split; [exact Hs1|exact Hs2].
Defined.

Lemma replica_replays_log_witness : ∃ L known, buffer_ok (buffer final2) L known ∧
  shows (buffer final2) (replayed BufferExample.text together (version (buffer final2))) ∧
  replayed BufferExample.text together (version (buffer final2)) = converged.
Proof.
  destruct (replica_replays_log BufferExample.text together 2%N final2 BufferExample.text_fine BufferExample.text_short together_reached
    (proj2 together_replicas) (proj2 together_fits)) as (L & known & Hok & _ & Hs & _).
  exists L, known. split; [exact Hok|]. split; [exact Hs|exact together_replayed].
Defined.

(** The redo and the undo wait for the edit. *)
Lemma delivery_settles_witness : ∃ self' L' known, apply_ops (buffer alone1) batch1 = Some self' ∧ buffer_ok self' L' known ∧
  (∀ op, op ∈ inbox_of alone1 ++ batch1 → observes (version self') op = true ∨ op ∈ OperationQueue.operations_of (deferred_ops self')) ∧
  OperationQueue.len (deferred_ops self') = 2.
Proof.
  destruct (delivery_settles BufferExample.text alone 1%N alone1 batch1 BufferExample.text_fine BufferExample.text_short apart_reached alone_replica
    (proj2 alone_ready) (proj1 alone_ready)) as (self' & L' & known & Hrun & Hok & Hall & _).
  exists self', L', known. split; [exact Hrun|]. split; [exact Hok|]. split; [exact Hall|]. exact (alone_waits self' Hrun).
Defined.

(** Another replica, at the base version, replaces two characters of the text. *)
Lemma remote_edit_merges_witness : ∃ self' L' patch,
  RemoteEdit.apply_remote_edit (mkGlobal [1%N]) (mkLamport 5%N 9%N) (snapshot (start_of 1%N)) [Range.mk 1 4] [[120%N]] = Some (self', patch) ∧
  snapshot_ok self' L' ∧ visible_of (atoms L') = [104; 120; 0x20AC; 33]%N ∧ deleted_of (atoms L') = [233; 10]%N.
Proof.
  destruct (new_spec 1%N 7%N BufferExample.text BufferExample.text_fine BufferExample.text_short) as
    (self & L & le & Hrun & _ & Hok & Hfits & _ & _ & _ & _ & _ & _ & _ & [Hatoms _ _ _ _]); [done|].
  rewrite (start_new 1%N (or_introl eq_refl)) in Hrun. apply (inj Some) in Hrun. rewrite <-Hrun in Hok, Hfits.
  assert (Hwithin : edits_within 0 (seen_of (mkGlobal [1%N]) (atoms L)) (zip [Range.mk 1 4] [[120%N]])).
  { rewrite Hatoms. exists [104]%N, [233; 10]%N, [0x20AC; 33]%N. by do 3 (split; [done|]). }
  destruct (remote_edit_merges _ L (mkGlobal [1%N]) (mkLamport 5%N 9%N) [Range.mk 1 4] [[120%N]] (buffer_snapshot _ _ _ Hok) (buffer_snapshot_fits _ Hfits))
    as (self' & L' & patch & Hrun' & Hok' & Hmerged & _ & Hundo & _).
  - done.
  - rewrite Hatoms. intros a Ha _. revert a Ha. apply Forall_forall. repeat constructor.
  - split; [|by vm_compute]. rewrite Hatoms. intros a Ha. revert a Ha. apply Forall_forall. by repeat constructor.
  - done.
  - exact Hwithin.
  - by apply (bool_decide_unpack _); vm_compute.
  - by vm_compute.
  - rewrite Hatoms. split; by vm_compute.
  - exists self', L', patch. split; [exact Hrun'|]. split; [exact Hok'|]. rewrite Hmerged, Hatoms. split; by vm_compute.
Defined.
