(* ===== verification/Anchor.v ===== *)
(** * Anchors ([crates/text/src/anchor.rs], [crates/text/src/text.rs])

    An anchor names a place of the text by the insertion and the offset in it of
    the character it is attached to, so that it stays with this character through
    every edit.  A snapshot resolves an anchor to an offset through the tree of
    insertions, and makes anchors from offsets. *)

From S2P Require Import Prelude Clock Locator SumTree Cursor Keyed UndoMap TreeMap Patch Points Utf8 TextSummary RopeTree Rope LineEnding Operation OperationQueue History Fragment Snapshot Undo Remote Buffer.

(** The derived order of [Bias]. *)
#[global] Instance Bias_ord : Ord Bias := λ self other,
  match self, other with Left, Right => Lt | Right, Left => Gt | _, _ => Eq end.

(** [struct Anchor] *)
Module Anchor.
Record t := mk {
  timestamp_replica_id : ReplicaId;
  timestamp_value : N;
  offset : N;
  bias : Bias;
  buffer_id : BufferId.t;
}.
Implicit Types self : t.

#[global] Instance t_eq_dec : EqDecision t.
Proof. solve_decision. Defined.

Definition new (timestamp : Lamport) (offset : N) (bias : Bias) (buffer_id : BufferId.t) : t :=
  mk (replica_id timestamp) (value timestamp) offset bias buffer_id.

Definition min_for_buffer (buffer_id : BufferId.t) : t :=
  mk (replica_id Lamport.MIN) (value Lamport.MIN) 0 Left buffer_id.

Definition max_for_buffer (buffer_id : BufferId.t) : t :=
  mk (replica_id Lamport.MAX) (value Lamport.MAX) u32_max Right buffer_id.

Definition min_min_range_for_buffer (buffer_id : BufferId.t) : t * t :=
  let min := min_for_buffer buffer_id in (min, min).
Definition max_max_range_for_buffer (buffer_id : BufferId.t) : t * t :=
  let max := max_for_buffer buffer_id in (max, max).
Definition min_max_range_for_buffer (buffer_id : BufferId.t) : t * t :=
  (min_for_buffer buffer_id, max_for_buffer buffer_id).

Definition timestamp self : Lamport := {| replica_id := timestamp_replica_id self; value := timestamp_value self |}.

Definition is_min self : bool :=
  bool_decide (timestamp self = Lamport.MIN) && (offset self =? 0)%N && bool_decide (bias self = Left).

Definition is_max self : bool :=
  bool_decide (timestamp self = Lamport.MAX) && (offset self =? u32_max)%N && bool_decide (bias self = Right).

(** [to_le_bytes] of an integer of [n] bytes. *)
Fixpoint to_le_bytes (n : nat) (x : N) : list N :=
  match n with 0 => [] | S n => N.land x 255 :: to_le_bytes n (N.shiftr x 8) end.

Definition opaque_id self : list N :=
  to_le_bytes 8 (buffer_id self) ++ to_le_bytes 4 (offset self) ++ to_le_bytes 4 (timestamp_value self) ++
  to_le_bytes 2 (timestamp_replica_id self) ++ [match bias self with Left => 0 | Right => 1 end; 0]%N.
End Anchor.
Abbreviation Anchor := Anchor.t (only parsing).

(** ** Resolving anchors *)

Module Anchors.
Implicit Types (self : BufferSnapshot) (anchor : Anchor).
Import Anchor.

Definition anchor_key anchor : InsertionFragmentKey := InsertionFragmentKey.mk (timestamp anchor) (offset anchor).

(** The fragment an anchor lies in, or the nearest before it. *)
Definition try_find_fragment self anchor : option (option InsertionFragment) :=
  '(_, _, item) ← SumTree.find_with_prev (D:=InsertionFragmentKey) (insertions self) (seek_ord (anchor_key anchor)) (bias anchor);
  match item with
  | Some (prev, insertion) =>
      let comparison := cmp (key insertion : InsertionFragmentKey) (anchor_key anchor) in
      if bool_decide (comparison = Gt) ||
         bool_decide (bias anchor = Left) && bool_decide (comparison = Eq) && (0 <? offset anchor)%N
      then Some prev else Some (Some insertion)
  | None => SumTree.last (insertions self)
  end.

(** [item.filter(|insertion| insertion.timestamp == anchor.timestamp())] *)
Definition of_insertion anchor (item : option InsertionFragment) : option InsertionFragment :=
  insertion ← item; if decide (InsertionFragment.timestamp insertion = timestamp anchor) then Some insertion else None.

Definition try_fragment_id_for_anchor self anchor : option (option Locator) :=
  if is_min anchor then Some (Some Locator.min)
  else if is_max anchor then Some (Some Locator.max)
  else
    item ← try_find_fragment self anchor;
    Some (InsertionFragment.fragment_id <$> of_insertion anchor item).

(** A bad anchor panics. *)
Definition fragment_id_for_anchor self anchor : option Locator :=
  id ← try_fragment_id_for_anchor self anchor; id.

(** [self.fragments.find::<Dimensions<Option<&Locator>, usize>, _>(&None, &Some(id), Bias::Left)] *)
Definition find_by_id self (id : Locator) : (option Locator * nat) * (option Locator * nat) * option Fragment :=
  SumTree.find (D:=option Locator * nat) (fragments self) (seek_fst (seek_ord (Some id))) Left.

Definition offset_for_anchor self anchor : option nat :=
  if is_min anchor then Some 0
  else if is_max anchor then Some (Rope.len (visible_text self))
  else
    _ ← rassert (buffer_id anchor =? snapshot_remote_id self)%N;
    _ ← rassert (Global.observed (snapshot_version self) (timestamp anchor));
    item ← try_find_fragment self anchor;
    insertion ← of_insertion anchor item;
    let '(start, _, item) := find_by_id self (InsertionFragment.fragment_id insertion) in
    fragment ← item;
    if Fragment.visible fragment then
      skipped ← checked_subN (offset anchor) (InsertionFragment.split_offset insertion);
      Some (start.2 + N.to_nat skipped)
    else Some start.2.

Definition can_resolve self anchor : bool :=
  is_min anchor || is_max anchor ||
  (snapshot_remote_id self =? buffer_id anchor)%N && Global.observed (snapshot_version self) (timestamp anchor).

(** True when the anchor is located inside a visible fragment. *)
Definition is_valid self anchor : option bool :=
  if is_min anchor || is_max anchor then Some true
  else if negb (buffer_id anchor =? snapshot_remote_id self)%N then Some false
  else
    id ← try_fragment_id_for_anchor self anchor;
    match id with
    | Some id => let '(_, _, item) := find_by_id self id in Some (match item with Some fragment => Fragment.visible fragment | None => false end)
    | None => Some false
    end.

Definition text_summary_for_range {D} `{Dimension D RopeSummary, TextDimension D} {O O'} `{ToOffset O, ToOffset O'}
    self (start : O) (end_ : O') : option D :=
  start ← to_offset start self;
  cursor ← Rope.cursor (visible_text self) start;
  end_ ← to_offset end_ self;
  '(summary, _) ← Rope.RopeCursor.summary cursor end_;
  Some summary.

Definition summary_for_anchor {D} `{Dimension D RopeSummary, TextDimension D} self anchor : option D :=
  offset ← offset_for_anchor self anchor;
  text_summary_for_range self 0 offset.
End Anchors.

(** [impl ToOffset for Anchor] *)
#[global] Instance Anchor_to_offset : ToOffset Anchor := λ self snapshot, Anchors.offset_for_anchor snapshot self.

(** ** Making and comparing anchors *)

Module MakeAnchor.
Implicit Types (self : BufferSnapshot) (bias : Bias).

Definition anchor_at_offset self (offset : nat) bias : option Anchor :=
  if bool_decide (bias = Left) && (offset =? 0) then Some (Anchor.min_for_buffer (snapshot_remote_id self))
  else if bool_decide (bias = Right) && (offset =? Rope.len (visible_text self)) then
    Some (Anchor.max_for_buffer (snapshot_remote_id self))
  else
    boundary ← Rope.assert_char_boundary true (visible_text self) offset;
    offset ←
      (if (boundary : bool) then Some offset
       else match bias with
            | Left => Rope.floor_char_boundary (visible_text self) offset
            | Right => Rope.ceil_char_boundary (visible_text self) offset
            end);
    let '(start, _, item) := SumTree.find (D:=nat) (fragments self) (seek_ord offset) bias in
    fragment ← item;
    overshoot ← checked_sub_nat offset start;
    offset ← checked_add u32_max (Fragment.insertion_offset fragment) (as_u32 overshoot);
    Some (Anchor.new (Fragment.timestamp fragment) offset bias (snapshot_remote_id self)).

Definition anchor_at {S} `{ToOffset S} self (position : S) bias : option Anchor :=
  offset ← to_offset position self; anchor_at_offset self offset bias.

Definition anchor_before {S} `{ToOffset S} self (position : S) : option Anchor := anchor_at self position Left.
Definition anchor_after {S} `{ToOffset S} self (position : S) : option Anchor := anchor_at self position Right.

Definition anchor_range_inside {S} `{ToOffset S} self (position : S * S) : option (Anchor * Anchor) :=
  start ← anchor_after self position.1; end_ ← anchor_before self position.2; Some (start, end_).
Definition anchor_range_outside {S} `{ToOffset S} self (position : S * S) : option (Anchor * Anchor) :=
  start ← anchor_before self position.1; end_ ← anchor_after self position.2; Some (start, end_).

(** [Anchor::bias], [bias_left], [bias_right] *)
Definition bias_left (self : Anchor) (buffer : BufferSnapshot) : option Anchor :=
  match Anchor.bias self with Left => Some self | Right => anchor_before buffer self end.
Definition bias_right (self : Anchor) (buffer : BufferSnapshot) : option Anchor :=
  match Anchor.bias self with Left => anchor_after buffer self | Right => Some self end.
Definition with_bias (self : Anchor) bias (buffer : BufferSnapshot) : option Anchor :=
  match bias with Left => bias_left self buffer | Right => bias_right self buffer end.
End MakeAnchor.

Module CompareAnchor.
Implicit Types (self other : Anchor) (buffer : BufferSnapshot).

(** [Anchor::cmp] *)
Definition cmp_in buffer self other : option comparison :=
  fragment_id_comparison ←
    (if decide (Anchor.timestamp self = Anchor.timestamp other) then Some Eq
     else
       id ← Anchors.fragment_id_for_anchor buffer self;
       other_id ← Anchors.fragment_id_for_anchor buffer other;
       Some (cmp (id : Locator) other_id));
  Some (then_with (then_with fragment_id_comparison (cmp (Anchor.offset self) (Anchor.offset other)))
    (cmp (Anchor.bias self) (Anchor.bias other))).

Definition min_in buffer self other : option Anchor :=
  c ← cmp_in buffer self other; Some (if is_le c then self else other).
Definition max_in buffer self other : option Anchor :=
  c ← cmp_in buffer self other; Some (if is_ge c then self else other).

(** [impl AnchorRangeExt for Range<Anchor>] *)
Definition cmp_range buffer (self other : Anchor * Anchor) : option comparison :=
  c ← cmp_in buffer self.1 other.1;
  match c with Eq => cmp_in buffer other.2 self.2 | _ => Some c end.
Definition overlaps buffer (self other : Anchor * Anchor) : option bool :=
  c ← cmp_in buffer self.1 other.2;
  if is_lt c then c ← cmp_in buffer other.1 self.2; Some (is_lt c) else Some false.
Definition contains_anchor buffer (self : Anchor * Anchor) other : option bool :=
  c ← cmp_in buffer self.1 other;
  if is_le c then c ← cmp_in buffer self.2 other; Some (is_ge c) else Some false.
End CompareAnchor.

(** ** Many anchors at once *)

Module AnchorSummaries.
Section summaries.
Context {D : Type} `{Dimension D RopeSummary, TextDimension D}.
Implicit Types (self : BufferSnapshot) (anchor : Anchor).

(** What the closure captures. *)
Record summaries_state := mkSummaries {
  fragment_cursor : Cursor.t Fragment FragmentSummary (option Locator * nat);
  text_cursor : Rope.RopeCursor.t;
  position : D;
}.

Definition summaries_init self : option summaries_state :=
  text_cursor ← Rope.cursor (visible_text self) 0;
  Some (mkSummaries (Cursor.new (fragments self)) text_cursor dim_zero).

(** The closure *)
Definition summary_step self (st : summaries_state) anchor : option (D * summaries_state) :=
  if Anchor.is_min anchor then Some (dim_zero, st)
  else if Anchor.is_max anchor then Some (from_text_summary (Rope.summary (visible_text self)), st)
  else
    item ← Anchors.try_find_fragment self anchor;
    insertion ← item;
    _ ← rassert (bool_decide (InsertionFragment.timestamp insertion = Anchor.timestamp anchor));
    '(_, fragment_cursor) ← Cursor.seek_forward (seek_fst (seek_ord (Some (InsertionFragment.fragment_id insertion)))) Left
      (fragment_cursor st);
    item ← Cursor.item fragment_cursor;
    fragment ← item;
    let fragment_offset := (Cursor.start fragment_cursor).2 in
    fragment_offset ←
      (if Fragment.visible fragment then
         skipped ← checked_subN (Anchor.offset anchor) (InsertionFragment.split_offset insertion);
         Some (fragment_offset + N.to_nat skipped)
       else Some fragment_offset);
    '(summary, text_cursor) ← Rope.RopeCursor.summary (text_cursor st) fragment_offset;
    position ← td_add_assign (position st) summary;
    Some (position, mkSummaries fragment_cursor text_cursor position).

Fixpoint summaries_loop self {T} (st : summaries_state) (anchors : list (Anchor * T)) : option (list (D * T)) :=
  match anchors with
  | [] => Some []
  | (anchor, payload) :: anchors =>
      '(summary, st) ← summary_step self st anchor;
      summaries ← summaries_loop self st anchors;
      Some ((summary, payload) :: summaries)
  end.

(** The iterators, run to the end. *)
Definition summaries_for_anchors_with_payload self {T} (anchors : list (Anchor * T)) : option (list (D * T)) :=
  st ← summaries_init self; summaries_loop self st anchors.

Definition summaries_for_anchors self (anchors : list Anchor) : option (list D) :=
  summaries ← summaries_for_anchors_with_payload self (map (λ a, (a, ())) anchors);
  Some (map fst summaries).
End summaries.
End AnchorSummaries.
