(* ===== verification/AnchorFacts.v ===== *)
(** * What anchors stand for

    An anchor is attached to an atom, the one behind it with [Right] and the one in
    front of it with [Left], and its offset is what is visible in front of it.
    Nothing in this depends on how the atoms are cut into fragments. *)

From S2P Require Import Prelude Clock Locator SumTree SumTreeFacts Seek Cursor CursorFacts CursorWalk Keyed KeyedFacts UndoMap TreeMap TreeMapFacts Patch PatchFacts Points Utf8 TextSummary RopeTree Rope RopeFacts RopeSeek RopeCut RopePositions LineEnding Operation OperationQueue Fragment FragmentFacts Snapshot EditSpec EditFinish Undo UndoFinds UndoFacts Buffer BufferFacts Anchor.

Implicit Types (anchor : Anchor) (A : list Atom) (a : Atom) (L X R : list piece) (p q : piece) (s : str).

Import Anchor.

Lemma timestamp_new ts o b0 id : timestamp (new ts o b0 id) = ts.
Proof. by destruct ts. Qed.

(** ** Places *)

(** Whether an anchor is attached to something in its insertion that starts at an
    offset and has a length. *)
Definition inside anchor (start len : N) : Prop :=
  match bias anchor with
  | Left => (start < offset anchor <= start + len)%N
  | Right => (start <= offset anchor < start + len)%N
  end.

Definition attached anchor a : Prop :=
  atom_insertion a = timestamp anchor ∧ inside anchor (atom_offset a) (N.of_nat (len_utf8 (atom_char a))).

(** What is visible in front of the anchor; in an atom that is not visible, what
    is in front of the atom. *)
Definition resolves A anchor (n : nat) : Prop := ∃ A1 a A2, A = A1 ++ a :: A2 ∧ attached anchor a ∧
  n = Str.len (visible_of A1) + if atom_visible a then N.to_nat (offset anchor - atom_offset a) else 0.

(** What is attached to is visible. *)
Definition clings A anchor (n : nat) : Prop := ∃ A1 a A2, A = A1 ++ a :: A2 ∧ attached anchor a ∧ atom_visible a = true ∧
  n = Str.len (visible_of A1) + N.to_nat (offset anchor - atom_offset a).

Lemma clings_resolves A anchor n : clings A anchor n → resolves A anchor n.
Proof. intros (A1 & a & A2 & HA & Ha & Hv & ->). exists A1, a, A2. by rewrite Hv. Qed.

(** With the two ends of the buffer. *)
Definition anchored A anchor (n : nat) : Prop :=
  if is_min anchor then n = 0 else if is_max anchor then n = Str.len (visible_of A) else resolves A anchor n.

(** ** Atoms and pieces *)

Lemma atoms_from_split f offset s A1 a A2 : atoms_from f offset s = A1 ++ a :: A2 → ∃ s1 c s2, s = s1 ++ c :: s2 ∧
  A1 = atoms_from f offset s1 ∧ a = mkAtom (Fragment.timestamp f) (offset + N.of_nat (Str.len s1)) c (Fragment.visible f)
    (Fragment.deletions f) (Fragment.max_undos f).
Proof.
  revert offset A1. induction s as [|c s IH]; intros offset A1; [by destruct A1|]. destruct A1 as [|b A1]; cbn [atoms_from app].
  - intros [= <- _]. exists [], c, s. by rewrite N.add_0_r.
  - intros [= <- (s1 & d & s2 & -> & -> & ->)%IH]. exists (c :: s1), d, s2. split; [done|]. split; [done|].
    rewrite Str_len_cons. f_equal. lia.
Qed.

Lemma atoms_split L A1 a A2 : atoms L = A1 ++ a :: A2 → ∃ X p R B1 B2, L = X ++ p :: R ∧ A1 = atoms X ++ B1 ∧ atoms_of p = B1 ++ a :: B2.
Proof.
  revert A1. induction L as [|p L IH]; intros A1; [by destruct A1|]. rewrite atoms_cons. intros Heq. apply app_eq_inv in Heq as [(Y & Hp & HL)|(Y & -> & HL)].
  - destruct Y as [|b Y].
    + destruct (IH [] (eq_sym HL)) as (X & q & R & B1 & B2 & -> & HB & Hq). exists (p :: X), q, R, B1, B2.
      split; [done|]. split; [|done]. rewrite atoms_cons, <-app_assoc, <-HB, app_nil_r. rewrite app_nil_r in Hp. done.
    + injection HL as <- ->. by exists [], p, L, A1, Y.
  - destruct (IH Y HL) as (X & q & R & B1 & B2 & -> & -> & Hq). exists (p :: X), q, R, B1, B2.
    split; [done|]. split; [by rewrite atoms_cons, app_assoc|done].
Qed.

(** No byte of an insertion is in two pieces. *)
Lemma byte_piece L p q b : NoDup (bytes_of (atoms L)) → p ∈ L → q ∈ L → b ∈ bytes_of (atoms_of p) → b ∈ bytes_of (atoms_of q) → p = q.
Proof.
  intros Hnd Hp Hq Hbp Hbq. assert (∀ r L', r ∈ L' → b ∈ bytes_of (atoms_of r) → b ∈ bytes_of (atoms L')) as Hin.
  { intros r L' Hr Hb. induction L' as [|r' L' IH]; [by apply not_elem_of_nil in Hr|]. rewrite atoms_cons, bytes_of_app, elem_of_app.
    apply elem_of_cons in Hr as [->|Hr]; [by left|right; by apply IH]. }
  induction L as [|r L IH]; [by apply not_elem_of_nil in Hp|]. rewrite atoms_cons, bytes_of_app in Hnd. apply NoDup_app in Hnd as (_ & Hdis & Hnd).
  apply elem_of_cons in Hp as [->|Hp], Hq as [->|Hq]; [done|..|by apply IH].
  - destruct (Hdis b Hbp). by apply (Hin q).
  - destruct (Hdis b Hbq). by apply (Hin p).
Qed.

(** ** The tree of insertions *)

Lemma tree_ok_wf {T S} `{Summary S, !Item T S} (t : SumTree T S) x : tree_ok t → x ∈ to_list t → ∃ h, wf h t.
Proof. intros [->|Hwf] Hx; [by apply not_elem_of_nil in Hx|done]. Qed.

Section snapshot.
Context (self : BufferSnapshot) (L : list piece) (Hok : snapshot_ok self L).

(** The anchor is attached to an atom of the piece. *)
Definition within anchor p : Prop :=
  Fragment.timestamp p.1 = timestamp anchor ∧ inside anchor (Fragment.insertion_offset p.1) (N.of_nat (Str.len p.2)).

(** The search for the key of an anchor stops behind the piece it is in. *)
Lemma passes anchor p : within anchor p →
  stops (seek_ord (Anchors.anchor_key anchor)) (bias anchor) (insertion_key p.1) = false.
Proof.
  intros [Hts Hin]. unfold stops, seek_ord, insertion_key. rewrite insertion_key_cmp. unfold Anchors.anchor_key. cbn [InsertionFragmentKey.timestamp InsertionFragmentKey.split_offset].
  rewrite Hts, cmp_refl. cbn [then_with]. unfold inside in Hin. unfold cmp, N_ord. destruct (bias anchor).
  - assert (N.compare (offset anchor) (Fragment.insertion_offset p.1) = Gt) as -> by (apply N.compare_gt_iff; lia). done.
  - destruct (N.compare_spec (offset anchor) (Fragment.insertion_offset p.1)); [done|lia|done].
Qed.

Lemma passed_key anchor k : stops (seek_ord (Anchors.anchor_key anchor)) (bias anchor) k = false →
  InsertionFragmentKey.timestamp k = timestamp anchor → (InsertionFragmentKey.split_offset k <= offset anchor)%N ∧
    (bias anchor = Left → InsertionFragmentKey.split_offset k < offset anchor)%N.
Proof.
  unfold stops, seek_ord. rewrite insertion_key_cmp. intros Hstop Hts. rewrite Hts in Hstop. unfold Anchors.anchor_key in Hstop.
  cbn [InsertionFragmentKey.timestamp InsertionFragmentKey.split_offset] in Hstop. rewrite cmp_refl in Hstop. cbn [then_with] in Hstop.
  unfold cmp, N_ord in Hstop. destruct (N.compare_spec (offset anchor) (InsertionFragmentKey.split_offset k)); [|done|lia].
  destruct (bias anchor); [done|]. split; [lia|done].
Qed.

Lemma stops_behind anchor p q : within anchor p → p ∈ L → q ∈ L → cmp (insertion_key p.1) (insertion_key q.1) = Lt →
  stops (seek_ord (Anchors.anchor_key anchor)) (bias anchor) (insertion_key q.1) = true.
Proof.
  intros Hin Hp Hq Hlt. destruct (stops _ _ _) eqn:Hstop; [done|]. exfalso.
  pose proof (proj1 (Forall_forall _ _) (ok_whole _ _ Hok)) as Hwhole. pose proof Hin as [Hts Hinside].
  assert (InsertionFragmentKey.timestamp (insertion_key q.1) = timestamp anchor ∧
    (Fragment.insertion_offset p.1 < Fragment.insertion_offset q.1)%N) as [Htq Hoff].
  { assert (cmp (timestamp anchor) (Fragment.timestamp q.1) = Eq ∧ (Fragment.insertion_offset p.1 < Fragment.insertion_offset q.1)%N) as [Heq ?].
    { rewrite insertion_key_cmp in Hlt. cbn [insertion_key InsertionFragmentKey.timestamp InsertionFragmentKey.split_offset] in Hlt. rewrite Hts in Hlt.
      unfold stops, seek_ord in Hstop. rewrite insertion_key_cmp in Hstop.
      cbn [insertion_key Anchors.anchor_key InsertionFragmentKey.timestamp InsertionFragmentKey.split_offset] in Hstop.
      destruct (cmp (timestamp anchor) (Fragment.timestamp q.1)); [|done|done]. split; [done|]. by apply N.compare_lt_iff. }
    split; [|done]. symmetry. by apply cmp_eq. }
  destruct (passed_key _ _ Hstop Htq) as [Hle Hleft]. cbn [insertion_key InsertionFragmentKey.split_offset] in Hle, Hleft.
  assert (p = q) as ->; [|by rewrite cmp_refl in Hlt].
  apply (byte_piece L p q (Fragment.timestamp q.1, Fragment.insertion_offset q.1) (ok_bytes _ _ Hok) Hp Hq); [|by apply key_in_bytes, Hwhole].
  rewrite bytes_of_atoms_of. apply elem_of_stretch. simpl. cbn [insertion_key InsertionFragmentKey.timestamp] in Htq. split; [congruence|].
  unfold inside in Hinside. destruct (bias anchor); [specialize (Hleft eq_refl)|]; lia.
Qed.

(** The tree of insertions leads to the piece. *)
Lemma try_find_fragment_spec anchor p : p ∈ L → within anchor p →
  Anchors.try_find_fragment self anchor = Some (Some (InsertionFragment.new p.1)).
Proof.
  intros Hp Hin. destruct (ok_insertions _ _ Hok) as [Htree Hsorted].
  assert (InsertionFragment.new p.1 ∈ to_list (insertions self)) as Hx.
  { apply (ok_insertion _ _ Hok). apply list_elem_of_fmap. by exists p. }
  destruct (tree_ok_wf _ _ Htree Hx) as (h & Hwf). apply list_elem_of_split in Hx as (B & R & Hlist).
  unfold Anchors.try_find_fragment. set (target := seek_ord (Anchors.anchor_key anchor) : SeekTarget InsertionFragmentKey).
  assert (monotone target dim_zero (to_list (insertions self))) as Hm by (apply keyed_monotone; [apply leads_zero|done]).
  rewrite (find_with_prev_spec target (bias anchor) h _ Hwf Hm).
  assert (pos_after (dim_zero : InsertionFragmentKey) (B ++ [InsertionFragment.new p.1]) = insertion_key p.1) as Hpos by by rewrite pos_after_app.
  rewrite Hlist, (app_assoc B [_] R : B ++ _ :: R = _) in Hm |- *. rewrite lin_seek_skip; [|by eapply monotone_app_l|by destruct B|rewrite Hpos; by apply passes].
  rewrite Hpos. rewrite Hlist in Hsorted. apply sorted_app in Hsorted as (_ & HR & _). apply sorted_cons in HR as [_ HR].
  destruct R as [|y R]; cbn [lin_seek].
  - cbn [mbind option_bind]. rewrite last_spec by done. by rewrite Hlist, last_snoc.
  - apply Forall_cons in HR as [Hy _]. assert (∃ q, y = InsertionFragment.new q.1 ∧ q ∈ L) as (q & -> & Hq).
    { apply list_elem_of_fmap, (ok_insertion _ _ Hok). rewrite Hlist. apply elem_of_app. right. right. by left. }
    pose proof (stops_behind anchor p q Hin Hp Hq Hy) as Hstop. cbv zeta.
    change (dim_add (insertion_key p.1) (item_summary (InsertionFragment.new q.1))) with (insertion_key q.1). fold target in Hstop. rewrite Hstop.
    cbn [mbind option_bind]. change (key (InsertionFragment.new q.1)) with (insertion_key q.1). rewrite app_nil_r, last_snoc.
    unfold target, stops, seek_ord, SumTree.target_in_child in Hstop. rewrite (cmp_opp (Anchors.anchor_key anchor)).
    destruct (cmp (Anchors.anchor_key anchor) (insertion_key q.1)) eqn:Hcmp; cbn [CompOpp]; [|by rewrite bool_decide_eq_true_2|done].
    destruct (bias anchor) eqn:Hb; [|done]. assert (0 < offset anchor)%N as Ho.
    { destruct Hin as [_ Hin]. unfold inside in Hin. rewrite Hb in Hin. lia. }
    apply N.ltb_lt in Ho. by rewrite Ho.
Qed.

(** ** The tree of fragments *)

Lemma find_by_id_spec X p R : L = X ++ p :: R →
  ∃ start end_, Anchors.find_by_id self (Fragment.id p.1) = (start, end_, Some p.1) ∧ start.2 = Str.len (visible_of (atoms X)).
Proof.
  intros HL. destruct (tree_ok_wf (fragments self) p.1) as (h & Hwf); [apply Hok| |].
  { rewrite (ok_list _ _ Hok), HL. apply list_elem_of_fmap_2, elem_of_app. right. by left. }
  pose proof (ok_whole _ _ Hok) as Hwhole. pose proof (ok_locators _ _ Hok) as Hids.
  unfold Anchors.find_by_id. set (target := id_target (Fragment.id p.1)).
  assert (monotone target dim_zero (to_list (fragments self))) as Hm.
  { rewrite (ok_list _ _ Hok). apply (id_monotone _ [] L); [done|done|exact Hids]. }
  rewrite (find_spec target Left h _ Hwf Hm). rewrite (ok_list _ _ Hok), HL in Hm |- *. rewrite HL in Hwhole, Hids.
  apply Forall_app in Hwhole as [HX [Hp HR]%Forall_cons].
  destruct (id_scan (dim_zero : IdPosition) X p R HX Hp) as (pos & Hpos).
  { intros q Hq. destruct Hids as [_ Hs]. unfold ids_of in Hs. rewrite map_app in Hs. apply StronglySorted_app in Hs as (Hlt & _).
    apply Hlt; [apply list_elem_of_fmap; by exists q|by left]. }
  pose proof Hpos as (_ & -> & _)%lin_seek_split. fold target in Hpos. rewrite Hpos. do 2 eexists. split; [done|].
  rewrite id_after by by apply whole_fragments. simpl. by apply visible_len_pieces.
Qed.
End snapshot.

(** A text cut inside one of its parts. *)
Lemma cut_inside (s1 s2 v m w : str) : s1 ++ s2 = v ++ m ++ w → Str.len v <= Str.len s1 <= Str.len v + Str.len m →
  ∃ t1 t2, m = t1 ++ t2 ∧ s1 = v ++ t1 ∧ s2 = t2 ++ w.
Proof.
  intros Heq Hlen. assert (∃ k, s1 = v ++ k ∧ k ++ s2 = m ++ w) as (k & -> & Hk).
  { apply app_eq_inv in Heq as [(k & -> & Hk)|(k & -> & Hk)].
    - by exists k.
    - rewrite Str_len_app in Hlen. assert (k = []) as -> by (apply Str_len_zero; lia). exists []. by rewrite !app_nil_r. }
  rewrite Str_len_app in Hlen. apply app_eq_inv in Hk as [(j & -> & ->)|(j & -> & ->)].
  - rewrite Str_len_app in Hlen. assert (j = []) as -> by (apply Str_len_zero; lia). exists m, []. by rewrite !app_nil_r.
  - by exists k, j.
Qed.

(** ** Places in pieces *)

Lemma resolves_piece L anchor n : resolves (atoms L) anchor n ↔ ∃ X p R t1 c t2, L = X ++ p :: R ∧ p.2 = t1 ++ c :: t2 ∧
  Fragment.timestamp p.1 = timestamp anchor ∧
  inside anchor (Fragment.insertion_offset p.1 + N.of_nat (Str.len t1)) (N.of_nat (len_utf8 c)) ∧
  n = Str.len (visible_of (atoms X)) + if Fragment.visible p.1 then N.to_nat (offset anchor - Fragment.insertion_offset p.1) else 0.
Proof.
  split.
  - intros (A1 & a & A2 & HA & [Hts Hin] & ->). apply atoms_split in HA as (X & p & R & B1 & B2 & -> & -> & Hp).
    apply atoms_from_split in Hp as (t1 & c & t2 & Ht & -> & ->). cbn [atom_insertion atom_offset atom_char atom_visible] in *.
    exists X, p, R, t1, c, t2. split_and!; [done..|]. rewrite visible_of_app, Str_len_app, visible_of_atoms_from.
    unfold inside in Hin. destruct (Fragment.visible p.1); [destruct (bias anchor); lia|]. change (Str.len []) with 0. lia.
  - intros (X & p & R & t1 & c & t2 & -> & Ht & Hts & Hin & ->).
    exists (atoms X ++ atoms_from p.1 (Fragment.insertion_offset p.1) t1).
    exists (mkAtom (Fragment.timestamp p.1) (Fragment.insertion_offset p.1 + N.of_nat (Str.len t1)) c (Fragment.visible p.1)
      (Fragment.deletions p.1) (Fragment.max_undos p.1)).
    exists (atoms_from p.1 (Fragment.insertion_offset p.1 + N.of_nat (Str.len t1) + N.of_nat (len_utf8 c)) t2 ++ atoms R).
    split; [|split; [split; [done|exact Hin]|]].
    + rewrite atoms_app, atoms_cons. unfold atoms_of. rewrite Ht, atoms_from_app. by rewrite <-!app_assoc.
    + rewrite visible_of_app, Str_len_app, visible_of_atoms_from. cbn [atom_visible atom_offset]. unfold inside in Hin.
      destruct (Fragment.visible p.1); [destruct (bias anchor); lia|]. change (Str.len []) with 0. lia.
Qed.

Section snapshot.
Context (self : BufferSnapshot) (L : list piece) (Hok : snapshot_ok self L).

Lemma resolves_observable anchor n : resolves (atoms L) anchor n → observable (timestamp anchor).
Proof.
  intros (X & p & R & t1 & c & t2 & HL & _ & Hts & _)%resolves_piece. rewrite <-Hts.
  pose proof (ok_whole _ _ Hok) as Hwhole. rewrite HL in Hwhole. apply Forall_app in Hwhole as [_ [Hp _]%Forall_cons]. apply Hp.
Qed.

Lemma not_end anchor n : resolves (atoms L) anchor n → is_min anchor = false ∧ is_max anchor = false.
Proof.
  intros [Hr Hv]%resolves_observable. unfold is_min, is_max. split; rewrite bool_decide_eq_false_2; [done| |done|]; intros Heq; rewrite Heq in *; done.
Qed.

(** The fragment of an anchor. *)
Lemma try_find_resolved anchor n : resolves (atoms L) anchor n → ∃ X p R, L = X ++ p :: R ∧
  Anchors.try_find_fragment self anchor = Some (Some (InsertionFragment.new p.1)) ∧ Fragment.timestamp p.1 = timestamp anchor ∧
  (Fragment.insertion_offset p.1 <= offset anchor)%N ∧
  n = Str.len (visible_of (atoms X)) + if Fragment.visible p.1 then N.to_nat (offset anchor - Fragment.insertion_offset p.1) else 0.
Proof.
  intros (X & p & R & t1 & c & t2 & HL & Ht & Hts & Hin & Hn)%resolves_piece. exists X, p, R.
  split; [done|]. split; [|split; [done|split; [unfold inside in Hin; destruct (bias anchor); lia|done]]].
  apply (try_find_fragment_spec self L Hok); [rewrite HL; apply elem_of_app; right; by left|]. split; [done|].
  unfold inside in *. rewrite Ht, Str_len_app, Str_len_cons. destruct (bias anchor); lia.
Qed.

Lemma offset_for_anchor_spec anchor n : anchored (atoms L) anchor n → buffer_id anchor = snapshot_remote_id self →
  (resolves (atoms L) anchor n → Global.observed (snapshot_version self) (timestamp anchor) = true) →
  Anchors.offset_for_anchor self anchor = Some n.
Proof.
  unfold anchored, Anchors.offset_for_anchor. intros Hn Hid Hobs. destruct (is_min anchor); [by subst|]. destruct (is_max anchor).
  { subst. f_equal. apply holds_len, Hok. }
  rewrite (rassert_true (buffer_id anchor =? snapshot_remote_id self)%N) by (by apply N.eqb_eq). rewrite rassert_true by (by apply Hobs). cbn [mbind option_bind].
  destruct (try_find_resolved anchor n Hn) as (X & p & R & HL & -> & Hts & Hle & ->). cbn [mbind option_bind]. unfold Anchors.of_insertion.
  cbn [mbind option_bind]. rewrite decide_True by done. cbn [mbind option_bind].
  destruct (find_by_id_spec self L Hok X p R HL) as (start & end_ & Hfind & Hstart).
  cbn [InsertionFragment.fragment_id InsertionFragment.new]. rewrite Hfind. cbn [mbind option_bind].
  destruct (Fragment.visible p.1); [|by rewrite Hstart, Nat.add_0_r]. unfold checked_subN.
  cbn [InsertionFragment.split_offset]. rewrite rassert_true by (by apply N.leb_le). cbn [mbind option_bind]. by rewrite Hstart.
Qed.

(** An anchor to a visible atom is valid. *)
Lemma is_valid_spec anchor n : clings (atoms L) anchor n → buffer_id anchor = snapshot_remote_id self → Anchors.is_valid self anchor = Some true.
Proof.
  intros Hc Hid. pose proof (clings_resolves _ _ _ Hc) as Hn. destruct (not_end _ _ Hn) as [Hmin Hmax].
  destruct Hc as (A1 & a & A2 & HA & [Hts Hin] & Hv & _). apply atoms_split in HA as (X & p & R & B1 & B2 & HL & _ & Hp).
  pose proof Hp as (t1 & c & t2 & Ht & _ & Ha)%atoms_from_split. rewrite Ha in Hts, Hin, Hv. cbn [atom_insertion atom_offset atom_char atom_visible] in Hts, Hin, Hv.
  unfold Anchors.is_valid, Anchors.try_fragment_id_for_anchor. rewrite Hmin, Hmax, (proj2 (N.eqb_eq _ _) Hid). cbn [orb negb].
  rewrite (try_find_fragment_spec self L Hok anchor p).
  - cbn [mbind option_bind]. unfold Anchors.of_insertion. cbn [mbind option_bind]. rewrite decide_True by done. cbn [fmap option_fmap option_map mbind option_bind].
    destruct (find_by_id_spec self L Hok X p R HL) as (start & end_ & Hfind & _). cbn [InsertionFragment.fragment_id InsertionFragment.new]. rewrite Hfind. by rewrite Hv.
  - rewrite HL. apply elem_of_app. right. by left.
  - split; [done|]. unfold inside in *. rewrite Ht, Str_len_app, Str_len_cons. destruct (bias anchor); lia.
Qed.

(** ** Making anchors *)

Lemma usize_monotone (k d : nat) (fs : list Fragment) : Forall fragment_ok fs → monotone (seek_ord k) d fs.
Proof.
  intros Hfs l1 l2 l3 ->. apply Forall_app in Hfs as [H1 [H2 _]%Forall_app]. apply rank_cmp_le. rewrite !usize_after by (by rewrite ?Forall_app).
  rewrite visible_len_app. unfold cmp, nat_ord. destruct (Nat.compare_spec (d + visible_len l1) (d + (visible_len l1 + visible_len l2))); [done|done|lia].
Qed.

(** What a search by offset finds. *)
Lemma find_visible_offset (o : nat) b0 : match b0 with Left => 0 < o <= Str.len (visible_of (atoms L)) | Right => o < Str.len (visible_of (atoms L)) end →
  ∃ X p R end_, L = X ++ p :: R ∧ SumTree.find (D:=nat) (fragments self) (seek_ord o) b0 = (Str.len (visible_of (atoms X)), end_, Some p.1) ∧
    Fragment.visible p.1 = true ∧
    match b0 with Left => Str.len (visible_of (atoms X)) < o <= Str.len (visible_of (atoms X)) + Str.len p.2
                | Right => Str.len (visible_of (atoms X)) <= o < Str.len (visible_of (atoms X)) + Str.len p.2 end.
Proof.
  intros Ho. pose proof (ok_whole _ _ Hok) as Hwhole. destruct L as [|p0 L0] eqn:HL.
  { change (Str.len (visible_of (atoms []))) with 0 in Ho. destruct b0; lia. }
  rewrite <-HL in *. destruct (tree_ok_wf (fragments self) p0.1) as (h & Hwf); [apply Hok| |].
  { rewrite (ok_list _ _ Hok), HL. by left. }
  assert (monotone (seek_ord o) (dim_zero : nat) (to_list (fragments self))) as Hm.
  { apply usize_monotone. rewrite (ok_list _ _ Hok). by apply whole_fragments. }
  rewrite (find_spec _ b0 h _ Hwf Hm). rewrite (ok_list _ _ Hok). clear Hm.
  destruct (lin_seek (seek_ord o) b0 (dim_zero : nat) (map fst L)) as [[b pos] r] eqn:Hlin.
  pose proof (lin_seek_passed _ _ _ _ _ _ _ Hlin) as Hpassed. apply lin_seek_split in Hlin as (Hsplit & -> & Hhead).
  apply map_eq_app in Hsplit as (X & Y & HXY & <- & <-). rewrite HXY in Hwhole. apply Forall_app in Hwhole as [HX HY].
  rewrite usize_after in Hpassed |- * by by apply whole_fragments. rewrite visible_len_pieces in Hpassed |- * by done.
  change (dim_zero : nat) with 0 in *. rewrite Nat.add_0_l in *.
  assert (match b0 with Left => Str.len (visible_of (atoms X)) < o | Right => Str.len (visible_of (atoms X)) <= o end) as Hge.
  { destruct X as [|x X]; [change (Str.len (visible_of (atoms []))) with 0; destruct b0; lia|]. specialize (Hpassed ltac:(done)).
    unfold stops, seek_ord, SumTree.target_in_child, cmp, nat_ord in Hpassed.
    destruct (Nat.compare_spec o (Str.len (visible_of (atoms (x :: X))))); destruct b0; try done; lia. }
  destruct Y as [|p Y]; [rewrite app_nil_r in HXY; subst X; destruct b0; lia|]. apply Forall_cons in HY as [Hp HY].
  cbn [map] in Hhead. simpl in Hhead. rewrite item_text in Hhead by apply Hp. unfold text_summary_of in Hhead. rewrite (whole_len _ Hp) in Hhead.
  assert (Fragment.visible p.1 = true ∧ match b0 with Left => o <= Str.len (visible_of (atoms X)) + Str.len p.2
    | Right => o < Str.len (visible_of (atoms X)) + Str.len p.2 end) as [Hv Hlt].
  { rewrite usize_after in Hhead by by apply whole_fragments. rewrite visible_len_pieces in Hhead by done.
    unfold stops, seek_ord, SumTree.target_in_child, cmp, nat_ord in Hhead.
    destruct (Fragment.visible p.1); cbn [FragmentTextSummary.visible] in Hhead; (split; [try done|]);
      match type of Hhead with context [Nat.compare ?x ?y] => destruct (Nat.compare_spec x y) end; destruct b0; try done; lia. }
  exists X, p, Y. eexists. split; [exact HXY|]. split; [done|]. split; [done|]. destruct b0; lia.
Qed.

Lemma clings_piece X p R t1 c t2 anchor n : L = X ++ p :: R → p.2 = t1 ++ c :: t2 → Fragment.visible p.1 = true →
  Fragment.timestamp p.1 = timestamp anchor →
  inside anchor (Fragment.insertion_offset p.1 + N.of_nat (Str.len t1)) (N.of_nat (len_utf8 c)) →
  n = Str.len (visible_of (atoms X)) + N.to_nat (offset anchor - Fragment.insertion_offset p.1) → clings (atoms L) anchor n.
Proof.
  intros -> Ht Hv Hts Hin ->.
  exists (atoms X ++ atoms_from p.1 (Fragment.insertion_offset p.1) t1).
  exists (mkAtom (Fragment.timestamp p.1) (Fragment.insertion_offset p.1 + N.of_nat (Str.len t1)) c (Fragment.visible p.1)
    (Fragment.deletions p.1) (Fragment.max_undos p.1)).
  exists (atoms_from p.1 (Fragment.insertion_offset p.1 + N.of_nat (Str.len t1) + N.of_nat (len_utf8 c)) t2 ++ atoms R).
  split; [|split; [split; [done|exact Hin]|split; [done|]]].
  - rewrite atoms_app, atoms_cons. unfold atoms_of. rewrite Ht, atoms_from_app. by rewrite <-!app_assoc.
  - rewrite visible_of_app, Str_len_app, visible_of_atoms_from, Hv. cbn [atom_offset]. unfold inside in Hin. destruct (bias anchor); lia.
Qed.

(** An anchor inside the text is attached to the character behind or in front of
    it. *)
Lemma anchor_at_inside s1 s2 b0 : visible_of (atoms L) = s1 ++ s2 → (N.of_nat (Str.len (s1 ++ s2)) <= u32_max)%N →
  match b0 with Left => s1 ≠ [] | Right => s2 ≠ [] end →
  ∃ anchor, MakeAnchor.anchor_at_offset self (Str.len s1) b0 = Some anchor ∧ bias anchor = b0 ∧
    buffer_id anchor = snapshot_remote_id self ∧ clings (atoms L) anchor (Str.len s1).
Proof.
  intros Hs Hlen Hne. pose proof (ok_visible _ _ Hok) as Hholds. rewrite Hs in Hholds. unfold MakeAnchor.anchor_at_offset.
  rewrite (holds_len _ _ Hholds), (rope_assert_char_boundary _ _ Hholds) by done.
  assert (str_ok s2) as Hs2 by (by apply holds_str_ok, Forall_app in Hholds as [_ ?]). rewrite Str_is_char_boundary_app by done.
  assert (match b0 with Left => 0 < Str.len s1 <= Str.len (s1 ++ s2) | Right => Str.len s1 < Str.len (s1 ++ s2) end) as Ho.
  { rewrite Str_len_app. destruct b0.
    - destruct (Str.len s1) eqn:Hz; [by apply Str_len_zero in Hz|lia].
    - destruct (Str.len s2) eqn:Hz; [by apply Str_len_zero in Hz|lia]. }
  assert (bool_decide (b0 = Left) && (Str.len s1 =? 0) = false ∧ bool_decide (b0 = Right) && (Str.len s1 =? Str.len (s1 ++ s2)) = false) as [-> ->].
  { destruct b0; (split; [|]); cbn; try done; apply Nat.eqb_neq; lia. }
  cbn [mbind option_bind]. rewrite <-Hs in Ho. destruct (find_visible_offset _ _ Ho) as (X & p & R & end_ & HL & -> & Hv & Hin).
  cbn [mbind option_bind]. unfold checked_sub_nat. pose proof (ok_whole _ _ Hok) as Hwhole. rewrite HL in Hwhole.
  apply Forall_app in Hwhole as [_ [Hp _]%Forall_cons].
  assert (Hparts : s1 ++ s2 = visible_of (atoms X) ++ p.2 ++ visible_of (atoms R)).
  { rewrite <-Hs, HL, atoms_app, atoms_cons, !visible_of_app, visible_of_atoms_of, Hv. done. }
  destruct (cut_inside _ _ _ _ _ Hparts) as (t1 & t2 & Ht & Hs1 & _); [destruct b0; lia|]. pose proof (whole_offset _ Hp) as Hmax.
  assert (Str.len s1 - Str.len (visible_of (atoms X)) = Str.len t1) as Hover by (rewrite Hs1, Str_len_app; lia).
  rewrite rassert_true by (apply Nat.leb_le; destruct b0; lia). cbn [mbind option_bind]. rewrite Hover.
  rewrite Ht, Str_len_app in Hmax. rewrite as_u32_small by lia. rewrite checked_add_Some by lia. cbn [mbind option_bind].
  eexists. split; [done|]. split; [done|]. split; [done|]. rewrite Hs1, Str_len_app in Hin |- *. rewrite Ht, Str_len_app in Hin.
  destruct b0.
  - destruct t1 as [|c t1 _] using rev_ind; [change (Str.len []) with 0 in Hin; lia|].
    apply (clings_piece X p R t1 c t2); [done|by rewrite Ht, <-app_assoc|done|by rewrite timestamp_new| |cbn [new offset]; lia].
    unfold inside. cbn [new bias offset]. rewrite Str_len_app, Str_len_cons. change (Str.len []) with 0. pose proof (len_utf8_pos c). lia.
  - destruct t2 as [|c t2]; [change (Str.len []) with 0 in Hin; lia|].
    apply (clings_piece X p R t1 c t2); [done|done|done|by rewrite timestamp_new| |cbn [new offset]; lia].
    unfold inside. cbn [new bias offset]. pose proof (len_utf8_pos c). lia.
Qed.

(** An anchor at a position of the text stands for the position. *)
Lemma anchor_at_spec s1 s2 b0 : visible_of (atoms L) = s1 ++ s2 → (N.of_nat (Str.len (s1 ++ s2)) <= u32_max)%N →
  ∃ anchor, MakeAnchor.anchor_at_offset self (Str.len s1) b0 = Some anchor ∧ bias anchor = b0 ∧
    buffer_id anchor = snapshot_remote_id self ∧ anchored (atoms L) anchor (Str.len s1) ∧
    (anchor = min_for_buffer (snapshot_remote_id self) ∨ anchor = max_for_buffer (snapshot_remote_id self) ∨
      clings (atoms L) anchor (Str.len s1)).
Proof.
  intros Hs Hlen. assert (match b0 with Left => s1 = [] | Right => s2 = [] end ∨ match b0 with Left => s1 ≠ [] | Right => s2 ≠ [] end) as [He|He].
  { destruct b0; [destruct s1; [by left|by right]|destruct s2; [by left|by right]]. }
  - unfold MakeAnchor.anchor_at_offset. rewrite (holds_len _ _ (ok_visible _ _ Hok)), Hs. unfold anchored. rewrite Hs. destruct b0; subst.
    + exists (min_for_buffer (snapshot_remote_id self)). split; [done|]. split; [done|]. split; [done|]. split; [done|by left].
    + exists (max_for_buffer (snapshot_remote_id self)). rewrite app_nil_r, Nat.eqb_refl. split; [done|]. split; [done|].
      split; [done|]. split; [done|right; by left].
  - destruct (anchor_at_inside s1 s2 b0 Hs Hlen He) as (anchor & Hrun & Hb & Hid & Hc). exists anchor. split; [done|]. split; [done|]. split; [done|].
    split; [|by do 2 right]. apply clings_resolves in Hc. destruct (not_end _ _ Hc) as [Hmin Hmax]. unfold anchored. by rewrite Hmin, Hmax.
Qed.
End snapshot.

(** ** Anchors and edits *)

(** Whether an anchor at [n] is attached to something in front of [x]. *)
Definition in_front (b0 : Bias) (n x : nat) : bool := match b0 with Left => n <=? x | Right => n <? x end.

(** Where the edits take an anchor: what is behind an edit moves with the text, and
    what an edit replaces ends up behind the new text.  [old_end] and [new_end] are
    where the text behind the last edit starts. *)
Fixpoint moved (b0 : Bias) (new_end old_end : nat) (edits : list (Range * str)) (n : nat) : nat :=
  match edits with
  | [] => new_end + (n - old_end)
  | (range, text) :: edits =>
      let new_start := new_end + (Range.start range - old_end) in
      if in_front b0 n (Range.start range) then new_end + (n - old_end)
      else if in_front b0 n (Range.end_ range) then new_start + Str.len text
      else moved b0 (new_start + Str.len text) (Range.end_ range) edits n
  end.

Lemma attached_bounds anchor a : attached anchor a → let k := N.to_nat (offset anchor - atom_offset a) in
  match bias anchor with Left => 0 < k <= len_utf8 (atom_char a) | Right => k < len_utf8 (atom_char a) end.
Proof. intros [_ Hin]. unfold inside in Hin. destruct (bias anchor); simpl; lia. Qed.

(** The place of an anchor among the parts of a text. *)
Lemma clings_app_l A A' anchor n : clings A anchor n → clings (A ++ A') anchor n.
Proof. intros (A1 & a & A2 & -> & H). exists A1, a, (A2 ++ A'). by rewrite <-app_assoc. Qed.

Lemma clings_bounds A anchor n : clings A anchor n →
  match bias anchor with Left => 0 < n <= Str.len (visible_of A) | Right => n < Str.len (visible_of A) end.
Proof.
  intros (A1 & a & A2 & -> & Ha & Hv & ->). apply attached_bounds in Ha. simpl in Ha. rewrite visible_of_app, Str_len_app.
  assert (visible_of (a :: A2) = atom_char a :: visible_of A2) as ->.
  { unfold visible_of. by rewrite filter_cons_True by done. }
  rewrite Str_len_cons. destruct (bias anchor); lia.
Qed.

Lemma clings_split A A' anchor n : clings (A ++ A') anchor n → clings A anchor n ∨
  ∃ m, n = Str.len (visible_of A) + m ∧ clings A' anchor m.
Proof.
  intros (A1 & a & A2 & Heq & Ha & Hv & ->). symmetry in Heq. apply app_eq_inv in Heq as [(k & -> & Hk)|(k & -> & Hk)].
  - right. exists (Str.len (visible_of k) + N.to_nat (offset anchor - atom_offset a)). rewrite visible_of_app, Str_len_app. split; [lia|].
    exists k, a, A2. by rewrite Hk.
  - destruct k as [|b k].
    + right. exists (N.to_nat (offset anchor - atom_offset a)). rewrite app_nil_r. split; [done|]. exists [], a, A2. split; [exact (eq_sym Hk)|by split].
    + left. injection Hk as <- _. by exists A1, a, k.
Qed.

Lemma resolves_app_r A A' anchor m : resolves A' anchor m → resolves (A ++ A') anchor (Str.len (visible_of A) + m).
Proof.
  intros (A1 & a & A2 & -> & Ha & ->). exists (A ++ A1), a, A2. rewrite <-app_assoc, visible_of_app, Str_len_app. by rewrite Nat.add_assoc.
Qed.

Lemma resolves_app_l A A' anchor m : resolves A anchor m → resolves (A ++ A') anchor m.
Proof. intros (A1 & a & A2 & -> & Ha & ->). exists A1, a, (A2 ++ A'). by rewrite <-app_assoc. Qed.

Lemma resolves_killed ts A anchor n : clings A anchor n → resolves (map (kill ts) A) anchor 0.
Proof.
  intros (A1 & a & A2 & -> & Ha & Hv & _). exists (map (kill ts) A1), (struck ts a), (map (kill ts) A2). split; [|split; [exact Ha|]].
  - rewrite map_app. cbn [map]. unfold kill at 2. by rewrite Hv.
  - by rewrite visible_of_kill.
Qed.

Lemma clings_edited ts pos full off A edits A' ranges anchor n new_end : edited ts pos full off A edits A' ranges → clings A anchor n →
  ∃ m, resolves A' anchor m ∧ moved (bias anchor) new_end pos edits (pos + n) = new_end + m.
Proof.
  revert pos full off A A' ranges n new_end. induction edits as [|[range text] edits IH]; intros pos full off A A' [|fr ranges] n new_end; simpl; try done.
  { intros -> Hn. exists n. split; [by apply clings_resolves|]. lia. }
  intros (gap & replaced & rest & rest' & -> & -> & Hstart & Hend & _ & _ & Hrest) Hn. set (G := Str.len (visible_of gap)) in *.
  apply clings_split in Hn as [Hn|(m & -> & Hn)].
  - pose proof (clings_bounds _ _ _ Hn) as Hb. exists n. split; [by apply resolves_app_l, clings_resolves|].
    assert (in_front (bias anchor) (pos + n) (Range.start range) = true) as ->.
    { unfold in_front. destruct (bias anchor); [apply Nat.leb_le|apply Nat.ltb_lt]; lia. }
    lia.
  - fold G. assert (in_front (bias anchor) (pos + (G + m)) (Range.start range) = false) as ->.
    { pose proof (clings_bounds _ _ _ Hn) as Hb. unfold in_front. destruct (bias anchor); [apply Nat.leb_gt|apply Nat.ltb_ge]; lia. }
    apply clings_split in Hn as [Hn|(k & -> & Hn)].
    + pose proof (clings_bounds _ _ _ Hn) as Hb. exists (G + Str.len text).
      assert (in_front (bias anchor) (pos + (G + m)) (Range.end_ range) = true) as ->.
      { unfold in_front. destruct (bias anchor); [apply Nat.leb_le|apply Nat.ltb_lt]; lia. }
      split; [|lia]. apply (resolves_app_r gap). rewrite <-(Nat.add_0_r (Str.len text)).
      assert (Str.len text = Str.len (visible_of (inserted ts off text))) as -> by (unfold inserted; by rewrite visible_of_atoms_from).
      apply resolves_app_r, resolves_app_l. by eapply resolves_killed.
    + assert (in_front (bias anchor) (pos + (G + (Str.len (visible_of replaced) + k))) (Range.end_ range) = false) as ->.
      { pose proof (clings_bounds _ _ _ Hn) as Hb. unfold in_front. destruct (bias anchor); [apply Nat.leb_gt|apply Nat.ltb_ge]; lia. }
      destruct (IH _ _ _ _ _ _ k (new_end + (Range.start range - pos) + Str.len text) Hrest Hn) as (j & Hj & Hmoved).
      exists (G + (Str.len text + j)). split.
      * apply resolves_app_r.
        assert (Str.len text = Str.len (visible_of (inserted ts off text))) as -> by (unfold inserted; by rewrite visible_of_atoms_from).
        apply resolves_app_r. pose proof (resolves_app_r (map (kill ts) replaced) _ _ _ Hj) as Hr. by rewrite visible_of_kill in Hr.
      * replace (pos + (G + (Str.len (visible_of replaced) + k))) with (Range.end_ range + k) by lia. rewrite Hmoved. lia.
Qed.

(** The ends stay the ends. *)
Lemma moved_start edits : moved Left 0 0 edits 0 = 0.
Proof. by destruct edits as [|[range text] edits]. Qed.

Lemma moved_end ts pos full off A edits A' ranges new_end : edited ts pos full off A edits A' ranges →
  moved Right new_end pos edits (pos + Str.len (visible_of A)) = new_end + Str.len (visible_of A').
Proof.
  revert pos full off A A' ranges new_end. induction edits as [|[range text] edits IH]; intros pos full off A A' [|fr ranges] new_end; simpl; try done.
  { intros ->. lia. }
  intros (gap & replaced & rest & rest' & -> & -> & Hstart & Hend & _ & _ & Hrest). rewrite !visible_of_app, !Str_len_app.
  rewrite !(proj2 (Nat.ltb_ge _ _)) by lia. rewrite visible_of_kill. change (Str.len []) with 0.
  assert (Str.len (visible_of (inserted ts off text)) = Str.len text) as -> by (unfold inserted; by rewrite visible_of_atoms_from).
  replace (pos + _) with (Range.end_ range + Str.len (visible_of rest)) by lia. rewrite (IH _ _ _ _ _ _ _ Hrest). lia.
Qed.

(** ** The order of anchors *)

(** The parts of an insertion stay in their order. *)
Definition ordered A : Prop :=
  StronglySorted (λ a b, atom_insertion a = atom_insertion b → (atom_offset a < atom_offset b)%N) A.

Lemma cmp_in_opp buffer x y c : CompareAnchor.cmp_in buffer x y = Some c → CompareAnchor.cmp_in buffer y x = Some (CompOpp c).
Proof.
  unfold CompareAnchor.cmp_in. rewrite (cmp_opp (offset x)). 
  assert (∀ b b' : Bias, cmp b' b = CompOpp (cmp b b')) as Hb by (by intros [] []). rewrite (Hb (bias x)).
  destruct (decide (timestamp x = timestamp y)) as [He|He].
  - rewrite decide_True by done. cbn [mbind option_bind]. intros [= <-]. by destruct (cmp (offset x) _), (cmp (bias x) _).
  - rewrite (decide_False (P:=timestamp y = timestamp x)) by congruence. destruct (Anchors.fragment_id_for_anchor buffer x) as [i|]; [|done].
    destruct (Anchors.fragment_id_for_anchor buffer y) as [j|]; [|done]. cbn [mbind option_bind]. intros [= <-]. rewrite (cmp_opp i).
    by destruct (cmp i j), (cmp (offset x) _), (cmp (bias x) _).
Qed.

Section order.
Context (self : BufferSnapshot) (L : list piece) (Hok : snapshot_ok self L) (Hordered : ordered (atoms L)).
Implicit Types (x y : Anchor).

(** Two atoms of one insertion do not overlap. *)
Lemma ordered_apart A1 a C b A2 : atoms L = A1 ++ a :: C ++ b :: A2 → atom_insertion a = atom_insertion b →
  (atom_offset a + N.of_nat (len_utf8 (atom_char a)) <= atom_offset b)%N.
Proof.
  intros Heq Hins. unfold ordered in Hordered. rewrite Heq in Hordered. apply StronglySorted_app_1_r, StronglySorted_inv in Hordered as [_ Hall].
  rewrite Forall_forall in Hall. assert (atom_offset a < atom_offset b)%N as Hlt by (apply Hall; [set_solver|done]).
  destruct (N.le_gt_cases (atom_offset a + N.of_nat (len_utf8 (atom_char a))) (atom_offset b)) as [?|Hgt]; [done|exfalso].
  pose proof (ok_bytes _ _ Hok) as Hnd. rewrite Heq, bytes_of_app in Hnd. apply NoDup_app in Hnd as (_ & _ & Hnd).
  change (a :: C ++ b :: A2) with ([a] ++ C ++ [b] ++ A2) in Hnd. rewrite !bytes_of_app in Hnd. apply NoDup_app in Hnd as (_ & Hdis & _).
  apply (Hdis (atom_insertion b, atom_offset b)).
  - unfold bytes_of. cbn [map concat]. rewrite app_nil_r. unfold atom_bytes. rewrite Hins. apply list_elem_of_fmap.
    exists (N.to_nat (atom_offset b - atom_offset a)). split; [f_equal; lia|]. apply elem_of_seq. lia.
  - rewrite !elem_of_app. right. left. unfold bytes_of. cbn [map concat]. rewrite app_nil_r. unfold atom_bytes. apply list_elem_of_fmap.
    exists 0. split; [f_equal; lia|]. apply elem_of_seq. pose proof (len_utf8_pos (atom_char b)). lia.
Qed.

Lemma fragment_id_spec x n A1 a A2 : atoms L = A1 ++ a :: A2 → attached x a → resolves (atoms L) x n →
  ∃ X p R B1 B2, L = X ++ p :: R ∧ A1 = atoms X ++ B1 ∧ atoms_of p = B1 ++ a :: B2 ∧ Fragment.timestamp p.1 = timestamp x ∧
    Anchors.fragment_id_for_anchor self x = Some (Fragment.id p.1).
Proof.
  intros HA [Hts Hin] Hn. destruct (not_end self L Hok x n Hn) as [Hmin Hmax]. unfold Anchors.fragment_id_for_anchor, Anchors.try_fragment_id_for_anchor.
  rewrite Hmin, Hmax. apply atoms_split in HA as (X & p & R & B1 & B2 & HL & HA1 & Hp).
  pose proof Hp as (t1 & c & t2 & Ht & _ & Ha)%atoms_from_split. rewrite Ha in Hts, Hin. cbn [atom_insertion atom_offset atom_char] in Hts, Hin.
  exists X, p, R, B1, B2. split_and!; [done..|]. rewrite (try_find_fragment_spec self L Hok x p).
  - cbn [mbind option_bind]. unfold Anchors.of_insertion. cbn [mbind option_bind]. by rewrite decide_True.
  - rewrite HL. apply elem_of_app. right. by left.
  - split; [done|]. unfold inside in *. rewrite Ht, Str_len_app, Str_len_cons. destruct (bias x); lia.
Qed.

(** Pieces of different atoms. *)
Lemma pieces_apart X p R B1 B2 Y q S C1 C2 a b : L = X ++ p :: R → L = Y ++ q :: S → p ≠ q →
  atoms_of p = B1 ++ a :: B2 → atoms_of q = C1 ++ b :: C2 → length (atoms X ++ B1) < length (atoms Y ++ C1) →
  cmp (Fragment.id p.1) (Fragment.id q.1) = Lt.
Proof.
  intros HX HY Hne Hp Hq Hlen. rewrite HX in HY. apply app_eq_inv in HY as [(k & HXY & HY)|(k & HXY & HY)].
  - destruct k as [|r k]; [by injection HY|]. injection HY as <- _. subst X. rewrite atoms_app, atoms_cons, Hq in Hlen.
    rewrite !length_app in Hlen. simpl in Hlen. lia.
  - destruct k as [|r k]; [by injection HY|]. injection HY as <- HR. destruct (ok_locators _ _ Hok) as [_ Hs]. rewrite HX in Hs.
    unfold ids_of in Hs. rewrite map_app in Hs. apply StronglySorted_app_1_r, StronglySorted_inv in Hs as [_ Hs]. rewrite Forall_forall in Hs.
    apply Hs. rewrite HR. apply list_elem_of_fmap. exists q. split; [done|set_solver].
Qed.

(** An anchor to an earlier atom comes first. *)
Lemma cmp_earlier x y n m A1 a A2 B1 b B2 : atoms L = A1 ++ a :: A2 → attached x a → resolves (atoms L) x n →
  atoms L = B1 ++ b :: B2 → attached y b → resolves (atoms L) y m → length A1 < length B1 → CompareAnchor.cmp_in self x y = Some Lt.
Proof.
  intros HA Hx Hn HB Hy Hm Hlen. unfold CompareAnchor.cmp_in. destruct (decide (timestamp x = timestamp y)) as [Hts|Hts].
  - cbn [mbind option_bind]. f_equal. rewrite HA in HB. apply app_eq_inv in HB as [(k & -> & Hk)|(k & -> & Hk)]; [rewrite length_app in Hlen; lia|].
    destruct k as [|a' C]; [rewrite app_nil_r in Hlen; lia|]. injection Hk as <- Hk. destruct Hx as [Hxt Hx], Hy as [Hyt Hy].
    assert (atom_insertion a = atom_insertion b) as Hab by congruence. rewrite Hk in HA. pose proof (ordered_apart _ _ _ _ _ HA Hab) as Hap.
    cbn [then_with]. unfold inside in *. destruct (bias x), (bias y); unfold cmp at 1, N_ord;
      destruct (N.compare_spec (offset x) (offset y)); try done; lia.
  - destruct (fragment_id_spec x n _ _ _ HA Hx Hn) as (X & p & R & C1 & C2 & HL & -> & Hp & Hpt & ->).
    destruct (fragment_id_spec y m _ _ _ HB Hy Hm) as (Y & q & S & D1 & D2 & HL' & -> & Hq & Hqt & ->). cbn [mbind option_bind].
    rewrite (pieces_apart X p R C1 C2 Y q S D1 D2 a b); [done..| |done|done|done]. intros ->. congruence.
Qed.

Lemma resolves_le x y A1 a A2 n m : attached x a → attached y a → n = Str.len (visible_of A1) + (if atom_visible a then N.to_nat (offset x - atom_offset a) else 0) →
  m = Str.len (visible_of A1) + (if atom_visible a then N.to_nat (offset y - atom_offset a) else 0) → atoms L = A1 ++ a :: A2 →
  CompareAnchor.cmp_in self x y = Some (then_with (cmp (offset x) (offset y)) (cmp (bias x) (bias y))) ∧
  (is_le (then_with (cmp (offset x) (offset y)) (cmp (bias x) (bias y))) → n <= m).
Proof.
  intros [Hx _] [Hy _] -> -> _. split.
  - unfold CompareAnchor.cmp_in. rewrite decide_True by congruence. done.
  - destruct (atom_visible a); [|lia]. unfold cmp at 1, N_ord. destruct (N.compare_spec (offset x) (offset y)); cbn [then_with]; [subst; lia|lia|done].
Qed.

Lemma resolves_earlier x y A1 a A2 B1 b B2 : atoms L = A1 ++ a :: A2 → attached x a → atoms L = B1 ++ b :: B2 → length A1 < length B1 →
  Str.len (visible_of A1) + (if atom_visible a then N.to_nat (offset x - atom_offset a) else 0) <=
  Str.len (visible_of B1) + (if atom_visible b then N.to_nat (offset y - atom_offset b) else 0).
Proof.
  intros HA Hx HB Hlen. rewrite HA in HB. apply app_eq_inv in HB as [(k & -> & Hk)|(k & -> & Hk)]; [rewrite length_app in Hlen; lia|].
  destruct k as [|a' C]; [rewrite app_nil_r in Hlen; lia|]. injection Hk as <- Hk. rewrite visible_of_app, Str_len_app.
  destruct (atom_visible a) eqn:Hv; [|lia]. apply attached_bounds in Hx. simpl in Hx.
  assert (visible_of (a :: C) = atom_char a :: visible_of C) as -> by (unfold visible_of; by rewrite filter_cons_True).
  rewrite Str_len_cons. destruct (bias x); lia.
Qed.

Definition same_anchor x y : Prop := timestamp x = timestamp y ∧ offset x = offset y ∧ bias x = bias y.

(** The comparison orders resolved anchors, and follows the text. *)
Lemma cmp_resolved x y n m : resolves (atoms L) x n → resolves (atoms L) y m → ∃ c, CompareAnchor.cmp_in self x y = Some c ∧
  (c = Eq → same_anchor x y) ∧ (is_le c → n <= m) ∧ (is_le (CompOpp c) → m <= n).
Proof.
  intros Hn Hm. pose proof Hn as (A1 & a & A2 & HA & Hx & En). pose proof Hm as (B1 & b & B2 & HB & Hy & Em).
  destruct (Nat.lt_trichotomy (length A1) (length B1)) as [Hlt|[Heq|Hgt]].
  - exists Lt. rewrite (cmp_earlier x y n m A1 a A2 B1 b B2) by done. split_and!; [done..| |done]. intros _. subst n m. by eapply resolves_earlier.
  - rewrite HA in HB. apply app_inj_1 in HB as [-> HB]; [|done]. injection HB as -> ->.
    destruct (resolves_le x y _ _ _ n m Hx Hy En Em HA) as [Hc Hle]. eexists. split; [exact Hc|].
    destruct (resolves_le y x _ _ _ m n Hy Hx Em En HA) as [Hc' Hle']. apply cmp_in_opp in Hc. rewrite Hc in Hc'. injection Hc' as Hc'.
    split; [|split; [exact Hle|rewrite Hc'; exact Hle']]. intros He. destruct Hx as [Hx _], Hy as [Hy _]. split; [congruence|].
    destruct (cmp (offset x) (offset y)) eqn:Ho; [|done..]. apply cmp_eq in Ho. split; [done|]. by destruct (bias x), (bias y).
  - exists Gt. split; [apply (cmp_in_opp _ _ _ Lt); by apply (cmp_earlier y x m n B1 b B2 A1 a A2)|].
    split; [done|]. split; [done|]. intros _. subst n m. by eapply resolves_earlier.
Qed.

(** At one position, an anchor to what is in front comes before one to what is
    behind. *)
Lemma cmp_sides x y n : bias x = Left → bias y = Right → clings (atoms L) x n → clings (atoms L) y n → CompareAnchor.cmp_in self x y = Some Lt.
Proof.
  intros Hbx Hby Hcx Hcy. pose proof (clings_resolves _ _ _ Hcx) as Hn. pose proof (clings_resolves _ _ _ Hcy) as Hm.
  destruct Hcx as (A1 & a & A2 & HA & Hx & Hv & En), Hcy as (B1 & b & B2 & HB & Hy & Hw & Em).
  destruct (Nat.lt_trichotomy (length A1) (length B1)) as [Hlt|[Heq|Hgt]]; [by apply (cmp_earlier x y n n A1 a A2 B1 b B2)| |exfalso].
  - rewrite HA in HB. apply app_inj_1 in HB as [-> HB]; [|done]. injection HB as -> ->.
    destruct (resolves_le x y B1 b B2 n n Hx Hy) as [-> _]; [by rewrite Hw|by rewrite Hw|done|]. rewrite Hbx, Hby.
    destruct Hx as [_ Hx], Hy as [_ Hy]. unfold inside in Hx, Hy. rewrite Hbx in Hx. rewrite Hby in Hy.
    assert (offset x = offset y) as -> by lia. by rewrite cmp_refl.
  - rewrite HB in HA. apply app_eq_inv in HA as [(k & -> & Hk)|(k & -> & Hk)]; [rewrite length_app in Hgt; lia|].
    destruct k as [|b' C]; [rewrite app_nil_r in Hgt; lia|]. injection Hk as <- _. rewrite visible_of_app, Str_len_app in En.
    assert (visible_of (b :: C) = atom_char b :: visible_of C) as HC by (unfold visible_of; by rewrite filter_cons_True).
    rewrite HC, Str_len_cons in En. apply attached_bounds in Hx, Hy. simpl in Hx, Hy. rewrite Hbx in Hx. rewrite Hby in Hy. lia.
Qed.

Lemma fragment_id_ends x n : anchored (atoms L) x n → ∃ id, Anchors.fragment_id_for_anchor self x = Some id ∧
  if is_min x then id = Locator.min else if is_max x then id = Locator.max else id_ok id.
Proof.
  intros Hn. destruct (is_min x) eqn:Hmin; [exists Locator.min|destruct (is_max x) eqn:Hmax; [exists Locator.max|]];
    unfold Anchors.fragment_id_for_anchor, Anchors.try_fragment_id_for_anchor; rewrite ?Hmin, ?Hmax; [done..|].
  unfold anchored in Hn. rewrite Hmin, Hmax in Hn. pose proof Hn as (A1 & a & A2 & HA & Hx & _).
  destruct (fragment_id_spec x n _ _ _ HA Hx Hn) as (X & p & R & _ & _ & HL & _ & _ & _ & Hid).
  unfold Anchors.fragment_id_for_anchor, Anchors.try_fragment_id_for_anchor in Hid. rewrite Hmin, Hmax in Hid. exists (Fragment.id p.1). split; [exact Hid|].
  destruct (ok_locators _ _ Hok) as [Hids _]. rewrite Forall_forall in Hids. apply Hids. rewrite HL. apply list_elem_of_fmap. exists p. set_solver.
Qed.

Lemma resolves_bound x n : resolves (atoms L) x n → n <= Str.len (visible_of (atoms L)).
Proof.
  intros (A1 & a & A2 & -> & Ha & ->). apply attached_bounds in Ha. simpl in Ha. rewrite visible_of_app, Str_len_app.
  destruct (atom_visible a) eqn:Hv; [|lia].
  assert (visible_of (a :: A2) = atom_char a :: visible_of A2) as -> by (unfold visible_of; by rewrite filter_cons_True).
  rewrite Str_len_cons. destruct (bias x); lia.
Qed.

Lemma end_timestamps x : (is_min x = true → timestamp x = Lamport.MIN ∧ offset x = 0%N ∧ bias x = Left) ∧
  (is_max x = true → timestamp x = Lamport.MAX ∧ offset x = u32_max ∧ bias x = Right).
Proof.
  unfold is_min, is_max. split; intros [[Hts%bool_decide_eq_true Ho%N.eqb_eq]%andb_true_iff Hb%bool_decide_eq_true]%andb_true_iff; by split_and!.
Qed.

(** An end of the buffer, and something else. *)
Lemma cmp_end x y n m : anchored (atoms L) x n → anchored (atoms L) y m → is_min x = true ∧ is_min y = false ∨ is_max y = true ∧ is_max x = false →
  CompareAnchor.cmp_in self x y = Some Lt ∧ n <= m.
Proof.
  intros Hn Hm Hend. destruct (fragment_id_ends x n Hn) as (i & Hi & Hix). destruct (fragment_id_ends y m Hm) as (j & Hj & Hjy).
  destruct (end_timestamps x) as [Hxmin Hxmax], (end_timestamps y) as [Hymin Hymax]. unfold anchored in Hn, Hm.
  assert (cmp (i : Locator) j = Lt ∧ n <= m ∧ timestamp x ≠ timestamp y) as (Hij & Hle & Hts).
  { destruct Hend as [[Hx Hy]|[Hy Hx]].
    - rewrite Hx in Hn, Hix. rewrite Hy in Hm, Hjy. subst. destruct (Hxmin Hx) as [-> _]. split_and!; [|lia|].
      + destruct (is_max y); [by subst|apply Hjy].
      + destruct (is_max y); [by destruct (Hymax eq_refl) as [-> _]|]. intros Heq. destruct (resolves_observable self L Hok y m Hm) as [_ Hv]. by rewrite <-Heq in Hv.
    - destruct (Hymax Hy) as [Hyt [Hyo Hyb]]. assert (is_min y = false) as Hymin0.
      { unfold is_min. rewrite Hyb. apply andb_false_r. }
      rewrite Hymin0, Hy in Hm, Hjy. subst. rewrite Hx in Hn, Hix. rewrite Hyt. destruct (is_min x).
      + subst. split_and!; [done|lia|]. by destruct (Hxmin eq_refl) as [-> _].
      + split_and!; [apply Hix|by apply (resolves_bound x)|]. intros Heq. destruct (resolves_observable self L Hok x n Hn) as [Hr _]. by rewrite Heq in Hr. }
  split; [|done]. unfold CompareAnchor.cmp_in. rewrite decide_False by done. rewrite Hi, Hj. cbn [mbind option_bind]. by rewrite Hij.
Qed.

(** The same with the ends of the buffer. *)
Lemma cmp_anchored x y n m : anchored (atoms L) x n → anchored (atoms L) y m → ∃ c, CompareAnchor.cmp_in self x y = Some c ∧
  (c = Eq → same_anchor x y) ∧ (is_le c → n <= m) ∧ (is_le (CompOpp c) → m <= n).
Proof.
  intros Hn Hm. pose proof (cmp_end x y n m Hn Hm) as Hxy. pose proof (cmp_end y x m n Hm Hn) as Hyx.
  destruct (end_timestamps x) as [Hxmin Hxmax], (end_timestamps y) as [Hymin Hymax].
  assert (∀ x' y', same_anchor x' y' → CompareAnchor.cmp_in self x' y' = Some Eq) as Hsame.
  { intros x' y' (Hts & Ho & Hb). unfold CompareAnchor.cmp_in. rewrite decide_True by done. rewrite Ho, Hb. cbn [mbind option_bind]. rewrite !cmp_refl.
    by destruct (bias y'). }
  destruct (is_min x) eqn:Hx, (is_min y) eqn:Hy.
  - exists Eq. assert (same_anchor x y) as Hs.
    { destruct (Hxmin eq_refl) as (? & ? & ?), (Hymin eq_refl) as (? & ? & ?). split_and!; congruence. }
    split; [by apply Hsame|]. split; [done|]. unfold anchored in Hn, Hm. rewrite Hx in Hn. rewrite Hy in Hm. lia.
  - destruct Hxy as [Hc Hle]; [by left|]. exists Lt. by rewrite Hc.
  - destruct Hyx as [Hc%cmp_in_opp Hle]; [by left|]. exists Gt. by rewrite Hc.
  - destruct (is_max x) eqn:Hx', (is_max y) eqn:Hy'.
    + exists Eq. assert (same_anchor x y) as Hs.
      { destruct (Hxmax eq_refl) as (? & ? & ?), (Hymax eq_refl) as (? & ? & ?). split_and!; congruence. }
      split; [by apply Hsame|]. split; [done|]. unfold anchored in Hn, Hm. rewrite Hx, Hx' in Hn. rewrite Hy, Hy' in Hm. lia.
    + destruct Hyx as [Hc%cmp_in_opp Hle]; [by right|]. exists Gt. by rewrite Hc.
    + destruct Hxy as [Hc Hle]; [by right|]. exists Lt. by rewrite Hc.
    + unfold anchored in Hn, Hm. rewrite Hx, Hx' in Hn. rewrite Hy, Hy' in Hm. by apply cmp_resolved.
Qed.
End order.
