(* ===== verification/AnchorLaws.v ===== *)
(** * What anchors promise

    In a system of replicas, the parts of an insertion stay in their order, so that
    comparing anchors orders them like the text.  An anchor stands for the position
    it was made at, in every replica with the same version, and local edits take it
    along. *)

From S2P Require Import Prelude Clock Locator SumTree SumTreeFacts Seek Cursor CursorFacts CursorWalk Keyed KeyedFacts UndoMap TreeMap TreeMapFacts Patch PatchFacts Subscription Points Utf8 TextSummary RopeTree Rope RopeFacts RopeSeek RopeCut LineEnding LineEndingFacts Operation OperationQueue History HistoryFacts Fragment FragmentFacts Snapshot EditSpec EditInv EditState EditSteps EditFinish EditFacts Undo UndoFinds UndoFacts Remote RemoteSeek RemoteSpec RemoteSteps RemoteDelete RemoteFacts Replay Buffer BufferFacts BufferEdit BufferUndo BufferLaws Receive Delivery Issue Network Replicas Anchor AnchorFacts.

Import Buffer.

Implicit Types (A : list Atom) (a b : Atom) (L : list piece) (t : Lamport) (op p q : Operation) (log ops : list Operation) (edits : list (Range * str)) (pos : nat).

(** ** The order of the parts of an insertion *)

Definition offsets t A : list N := map atom_offset (filter (λ a, atom_insertion a = t) A).

Lemma offsets_app t A A' : offsets t (A ++ A') = offsets t A ++ offsets t A'.
Proof. unfold offsets. by rewrite filter_app, map_app. Qed.

Lemma offsets_cons t a A : offsets t (a :: A) = if decide (atom_insertion a = t) then atom_offset a :: offsets t A else offsets t A.
Proof. unfold offsets. rewrite filter_cons. by case_decide. Qed.

Lemma elem_of_offsets t A o : o ∈ offsets t A ↔ ∃ a, a ∈ A ∧ atom_insertion a = t ∧ o = atom_offset a.
Proof. unfold offsets. rewrite list_elem_of_fmap. setoid_rewrite list_elem_of_filter. naive_solver. Qed.

Lemma ordered_offsets A : ordered A ↔ ∀ t, StronglySorted N.lt (offsets t A).
Proof.
  unfold ordered. induction A as [|a A IH]; [split; [intros _ t|]; constructor|]. split.
  - intros [Hs Ha]%StronglySorted_inv t. rewrite offsets_cons. destruct (decide _) as [<-|Hne]; [|by apply IH]. constructor; [by apply IH|].
    rewrite Forall_forall in Ha. apply Forall_forall. intros o (b & Hb & Hi & ->)%elem_of_offsets. by apply Ha.
  - intros Hall. constructor.
    + apply IH. intros t. specialize (Hall t). rewrite offsets_cons in Hall. destruct (decide _); [by apply StronglySorted_inv in Hall as [? _]|done].
    + apply Forall_forall. intros b Hb Hi. specialize (Hall (atom_insertion a)). rewrite offsets_cons, decide_True in Hall by done.
      apply StronglySorted_inv in Hall as [_ Hall]. rewrite Forall_forall in Hall. apply Hall, elem_of_offsets. by exists b.
Qed.

Lemma offsets_none t A : (∀ a, a ∈ A → atom_insertion a ≠ t) → offsets t A = [].
Proof.
  intros HA. destruct (offsets t A) as [|o l] eqn:Hl; [done|]. assert (o ∈ offsets t A) as (a & Ha & Hi & _)%elem_of_offsets; [rewrite Hl; by left|].
  by destruct (HA a Ha).
Qed.

Lemma ordered_alike A A' : all_alike A A' → ordered A → ordered A'.
Proof.
  rewrite !ordered_offsets. intros HA Hs t. replace (offsets t A') with (offsets t A); [done|]. clear Hs.
  induction HA as [|a a' A A' [Hi Ho _ _] _ IH]; [done|]. by rewrite !offsets_cons, Hi, Ho, IH.
Qed.

(** *** What is inserted *)

Lemma inserted_offsets t o s : StronglySorted N.lt (offsets t (inserted t o s)) ∧
  ∀ x, x ∈ offsets t (inserted t o s) → (o <= x < o + N.of_nat (Str.len s))%N.
Proof.
  unfold inserted. revert o. induction s as [|c s IH]; intros o; cbn [atoms_from]; [split; [constructor|by intros x ?%not_elem_of_nil]|].
  rewrite offsets_cons, decide_True by done. destruct (IH (o + N.of_nat (len_utf8 c))%N) as [Hs Hb]. pose proof (len_utf8_pos c). split.
  - constructor; [done|]. apply Forall_forall. intros x Hx%Hb. cbn [atom_offset]. lia.
  - rewrite Str_len_cons. intros x [->|Hx%Hb]%elem_of_cons; cbn [atom_offset]; lia.
Qed.

(** The edits start one behind the other. *)
Definition in_turn edits : Prop := StronglySorted (λ e e' : Range * str, Range.start e.1 <= Range.start e'.1) edits.

Lemma within_in_turn pos s edits : edits_within pos s edits → in_turn edits ∧ Forall (λ e, pos <= Range.start e.1) edits.
Proof.
  revert pos s. induction edits as [|[range text] edits IH]; intros pos s; [split; constructor|].
  intros (gap & old & rest & -> & Hstart & Hend & [Hs Hall]%IH). split; constructor; [done| |simpl; lia|].
  - eapply Forall_impl; [exact Hall|]. simpl. lia.
  - eapply Forall_impl; [exact Hall|]. simpl. lia.
Qed.

Lemma inserted_at_offsets t o edits pos x : x ∈ offsets t (inserted_at t o edits pos) → (o <= x)%N ∧ ∃ e, e ∈ edits ∧ Range.start e.1 = pos.
Proof.
  revert o. induction edits as [|[range text] edits IH]; intros o; cbn [inserted_at]; [by intros ?%not_elem_of_nil|]. rewrite offsets_app, elem_of_app.
  intros [Hx|Hx].
  - destruct (Nat.eqb_spec (Range.start range) pos); [|by apply not_elem_of_nil in Hx]. apply inserted_offsets in Hx. split; [lia|]. exists (range, text). set_solver.
  - apply IH in Hx as [? (e & ? & ?)]. split; [lia|]. exists e. set_solver.
Qed.

Lemma inserted_at_sorted t o edits : in_turn edits → (∀ pos, StronglySorted N.lt (offsets t (inserted_at t o edits pos))) ∧
  ∀ pos pos' x x', pos < pos' → x ∈ offsets t (inserted_at t o edits pos) → x' ∈ offsets t (inserted_at t o edits pos') → (x < x')%N.
Proof.
  revert o. induction edits as [|[range text] edits IH]; intros o; cbn [inserted_at].
  { intros _. split; [intros _; constructor|by intros pos pos' x x' _ ?%not_elem_of_nil]. }
  intros [Hturn Hfirst]%StronglySorted_inv. destruct (IH (o + N.of_nat (Str.len text))%N Hturn) as [Hs Hlt]. rewrite Forall_forall in Hfirst. split.
  - intros pos. rewrite offsets_app. apply StronglySorted_app_2; [|destruct (_ =? _); [apply inserted_offsets|constructor]|apply Hs].
    intros x x' Hx [Hx' _]%inserted_at_offsets. destruct (_ =? _); [|by apply not_elem_of_nil in Hx]. apply inserted_offsets in Hx. lia.
  - intros pos pos' x x' Hpos. rewrite !offsets_app, !elem_of_app. intros Hx Hx'.
    destruct Hx as [Hx|Hx], Hx' as [Hx'|Hx'].
    + destruct (Nat.eqb_spec (Range.start range) pos); [|by apply not_elem_of_nil in Hx].
      destruct (Nat.eqb_spec (Range.start range) pos'); [lia|by apply not_elem_of_nil in Hx'].
    + destruct (_ =? _); [|by apply not_elem_of_nil in Hx]. apply inserted_offsets in Hx. apply inserted_at_offsets in Hx' as [? _]. lia.
    + destruct (Nat.eqb_spec (Range.start range) pos'); [|by apply not_elem_of_nil in Hx']. apply inserted_at_offsets in Hx as [_ (e' & He & Hpe)].
      specialize (Hfirst e' He). simpl in Hfirst. lia.
    + by eapply Hlt.
Qed.

(** *** Merging *)

Section merge.
Context (version : Global) (undone : Lamport → bool) (timestamp : Lamport) (ins : nat → list Atom) (hit : nat → bool).
Context (Hins : ∀ k a, a ∈ ins k → atom_insertion a = timestamp).

Abbreviation merge_at := (merge_at version undone timestamp ins hit) (only parsing).

Lemma strike_place t a A : offsets t (strike version undone timestamp a :: A) = offsets t (a :: A).
Proof. rewrite !offsets_cons. unfold strike. by destruct (was_shown _ _ _). Qed.

Lemma touched_place t pos a A : offsets t ((if hit pos then strike version undone timestamp a else a) :: A) = offsets t (a :: A).
Proof. destruct (hit pos); [apply strike_place|done]. Qed.

Lemma merge_offsets_other t pos pending A : t ≠ timestamp → offsets t (merge_at pos pending A) = offsets t A.
Proof.
  intros Ht. assert (∀ k, offsets t (ins k) = []) as Hk by (intros k; apply offsets_none; intros a Ha; rewrite (Hins k a Ha); done).
  revert pos pending. induction A as [|a A IH]; intros pos pending; cbn [RemoteSpec.merge_at]; [by destruct pending|].
  destruct (seen version a); [|destruct (pending && _)].
  - rewrite offsets_app, touched_place. rewrite !offsets_cons, IH. by destruct pending; rewrite ?Hk.
  - rewrite offsets_app, Hk. cbn [app]. by rewrite !offsets_cons, IH.
  - by rewrite !offsets_cons, IH.
Qed.

Context (Hsorted : ∀ k, StronglySorted N.lt (offsets timestamp (ins k))).
Context (Hlt : ∀ k k' x x', k < k' → x ∈ offsets timestamp (ins k) → x' ∈ offsets timestamp (ins k') → (x < x')%N).

Lemma merge_offsets_own pos (pending : bool) A : (∀ a, a ∈ A → atom_insertion a ≠ timestamp) →
  StronglySorted N.lt (offsets timestamp (merge_at pos pending A)) ∧
  ∀ x, x ∈ offsets timestamp (merge_at pos pending A) → ∃ k, (if pending then pos <= k else pos < k) ∧ x ∈ offsets timestamp (ins k).
Proof.
  revert pos pending. induction A as [|a A IH]; intros pos pending HA; cbn [RemoteSpec.merge_at].
  { destruct pending; [split; [done|intros x Hx; by exists pos]|split; [constructor|by intros x ?%not_elem_of_nil]]. }
  assert (∀ B, offsets timestamp (a :: B) = offsets timestamp B) as Ha by (intros B; rewrite offsets_cons, decide_False by (apply HA; by left); done).
  assert (∀ b, b ∈ A → atom_insertion b ≠ timestamp) as HA' by (intros b Hb; apply HA; by right). pose proof (len_utf8_pos (atom_char a)).
  destruct (seen version a); [|destruct pending; cbn [andb]; [destruct (negb _)|]].
  - rewrite offsets_app, touched_place, Ha. destruct (IH (pos + len_utf8 (atom_char a)) true HA') as [Hs Hin]. split.
    + apply StronglySorted_app_2; [|destruct pending; [done|constructor]|done]. intros x x' Hx (k & Hk & Hx')%Hin.
      destruct pending; [|by apply not_elem_of_nil in Hx]. apply (Hlt pos k); [lia|done..].
    + intros x [Hx|(k & Hk & Hx)%Hin]%elem_of_app.
      * destruct pending; [by exists pos|by apply not_elem_of_nil in Hx].
      * exists k. split; [destruct pending; lia|done].
  - rewrite offsets_app, Ha. destruct (IH pos false HA') as [Hs Hin]. split.
    + apply StronglySorted_app_2; [|done|done]. intros x x' Hx (k & Hk & Hx')%Hin. by apply (Hlt pos k).
    + intros x [Hx|(k & Hk & Hx)%Hin]%elem_of_app; [by exists pos|]. exists k. split; [lia|done].
  - rewrite Ha. by apply IH.
  - rewrite Ha. by apply IH.
Qed.
End merge.

(** *** The replicas of a log *)

Definition edits_in_turn op : Prop := match op with Operation.Edit edit => in_turn (operation_edits edit) | Operation.Undo _ => True end.

Lemma applied_ordered log A op : edits_in_turn op → (∀ a, a ∈ A → atom_insertion a ≠ Operation.timestamp op) → ordered A → ordered (applied log A op).
Proof.
  destruct op as [edit|]; [|done]. simpl. intros Hturn Hfresh HA. rewrite ordered_offsets in HA |- *. intros t. unfold merged.
  set (ts := EditOperation.timestamp edit) in *. destruct (inserted_at_sorted ts 0 _ Hturn) as [Hs Hlt].
  destruct (decide (t = ts)) as [->|Hne]; [by apply merge_offsets_own|].
  rewrite merge_offsets_other; [apply HA| |done]. intros k. apply Forall_forall, inserted_at_insertion.
Qed.

Lemma replay_ordered log A ops : ordered A → Forall edits_in_turn ops → NoDup (map Operation.timestamp ops) →
  (∀ op a, op ∈ ops → a ∈ A → atom_insertion a ≠ Operation.timestamp op) → ordered (replay log A ops).
Proof.
  revert A. induction ops as [|op ops IH]; intros A HA Hturn Hnd Hfresh; [done|]. apply Forall_cons in Hturn as [Hop Hturn].
  cbn [map] in Hnd. apply NoDup_cons in Hnd as [Hnew Hnd]. cbn [replay foldl]. apply IH; [|done|done|].
  - apply applied_ordered; [done| |done]. intros a. apply Hfresh. by left.
  - intros q a Hq Ha. assert (Forall (λ a, atom_insertion a ≠ Operation.timestamp q) (applied log A op)) as Hall; [|rewrite Forall_forall in Hall; by apply Hall].
    apply (replay_all log A [op] (λ a, atom_insertion a ≠ Operation.timestamp q)).
    + apply Forall_forall. intros b Hb. apply Hfresh; [by right|done].
    + intros p ->%list_elem_of_singleton. apply (insertion_lasts (λ t, t ≠ Operation.timestamp q)). intros Heq. apply Hnew. rewrite Heq.
      by apply list_elem_of_fmap_2.
Qed.

Lemma StronglySorted_NoDup_map {B C} (f : B → C) (R : relation B) (l : list B) : (∀ x y, R x y → f x ≠ f y) → StronglySorted R l → NoDup (map f l).
Proof.
  intros HR. induction 1 as [|x l _ IH Hx]; [constructor|]. cbn [map]. constructor; [|done]. intros (y & Hy & Hin)%list_elem_of_fmap.
  rewrite Forall_forall in Hx. by apply (HR x y (Hx y Hin)).
Qed.

Lemma log_replay_ordered base start log v : log_ok base start log → ordered base → ordered (replay log base (filter (λ q, observes v q = true) log)).
Proof.
  intros Hlog Hbase. assert (∀ op, op ∈ log → edits_in_turn op ∧ ∀ a, a ∈ base → atom_insertion a ≠ Operation.timestamp op) as Hops.
  { intros op Hop. destruct (log_entry _ _ _ _ Hlog Hop) as (past & rest & _ & _ & He). split.
    - pose proof (entry_content _ _ _ _ He) as Hc. destruct op as [edit|]; [|done]. destruct Hc as (_ & _ & _ & Hw). by apply within_in_turn in Hw as [? _].
    - intros a Ha Heq. pose proof (entry_base _ _ _ _ He) as Hb. rewrite Forall_forall in Hb. specialize (Hb a Ha). by rewrite Heq, cmp_refl in Hb. }
  apply replay_ordered; [done| | |].
  - apply Forall_forall. intros op [_ Hop]%list_elem_of_filter. by apply Hops.
  - apply (StronglySorted_NoDup_map _ before); [by intros x y [? _]|]. apply StronglySorted_filter_mono. by eapply log_sorted.
  - intros op a [_ Hop]%list_elem_of_filter. by apply Hops.
Qed.

Section replicas.
Context (text : str).

Abbreviation base := (inserted base_timestamp 0 (LineEnding.normalize text)) (only parsing).
Abbreviation start := (base_version (LineEnding.normalize text)) (only parsing).

Lemma stands_ordered `{LineSeparators} log known self L : log_ok base start log → stands base start log known self L → ordered (atoms L).
Proof.
  intros Hlog Hself. eapply ordered_alike; [symmetry; apply (follows_atoms _ _ _ _ _ (stands_follows _ _ _ _ _ _ Hself))|].
  eapply log_replay_ordered; [exact Hlog|]. apply ordered_offsets. intros t. destruct (decide (t = base_timestamp)) as [->|Hne]; [apply inserted_offsets|].
  rewrite offsets_none; [constructor|]. intros a Ha. destruct (inserted_elem _ _ _ _ Ha) as (-> & _). congruence.
Qed.
End replicas.

(** Replicas with the same version hold the same atoms, shown alike. *)
Definition agree a b : Prop := alike a b ∧ atom_visible a = atom_visible b.

Lemma same_version_agree base start log known1 known2 self1 L1 self2 L2 : stands base start log known1 self1 L1 → buffer_fits self1 →
  stands base start log known2 self2 L2 → buffer_fits self2 → version self1 = version self2 → Forall2 agree (atoms L1) (atoms L2).
Proof.
  intros [Hok1 H1 _ _] Hfits1 [Hok2 H2 _ _] Hfits2 Hver.
  assert (all_alike (atoms L1) (atoms L2)) as Halike by (etrans; [apply H1|]; symmetry; rewrite Hver; apply H2).
  pose proof (buffer_snapshot _ _ _ Hok1) as Hs1. pose proof (buffer_snapshot _ _ _ Hok2) as Hs2.
  pose proof (undoes_count _ (undos_searchable _ _ Hs1 (buffer_snapshot_fits _ Hfits1)) (proj2 (ok_undos _ _ Hs1))) as Hu1.
  pose proof (undoes_count _ (undos_searchable _ _ Hs2 (buffer_snapshot_fits _ Hfits2)) (proj2 (ok_undos _ _ Hs2))) as Hu2.
  assert (∀ id, count_of (undo_map (snapshot self1)) id = count_of (undo_map (snapshot self2)) id) as Hcount.
  { intros id. unfold count_of. apply max_list_ext. intros c. rewrite !list_elem_of_fmap. unfold entries_of.
    setoid_rewrite list_elem_of_filter. setoid_rewrite (follows_undos _ _ _ _ _ H1). setoid_rewrite (follows_undos _ _ _ _ _ H2). by rewrite Hver. }
  pose proof (ok_shown _ _ Hs1) as Hshown1. pose proof (ok_shown _ _ Hs2) as Hshown2.
  assert (∀ a b, a ∈ atoms L1 → b ∈ atoms L2 → alike a b → atom_visible a = atom_visible b) as Hvis.
  { intros a b Ha Hb [Hi _ Hc Hd]. pose proof (Hshown1 a Ha) as Sa. pose proof (Hshown2 b Hb) as Sb. rewrite (shown_by _ _ a Hu1) in Sa. rewrite (shown_by _ _ b Hu2) in Sb.
    injection Sa as <-. injection Sb as <-. unfold core_shown_by, core. cbn. rewrite Hi, (forallb_permutation _ _ _ Hd), Hcount. f_equal.
    clear -Hcount. induction (atom_deletions b) as [|d ds IH]; [done|]. cbn [forallb]. by rewrite Hcount, IH. }
  clear -Halike Hvis. induction Halike as [|a b A B Hab _ IH]; [constructor|]. constructor; [split; [done|apply Hvis; [by left|by left|done]]|].
  apply IH. intros a' b' Ha Hb. apply Hvis; by right.
Qed.

Lemma agree_visible A B : Forall2 agree A B → visible_of A = visible_of B.
Proof.
  unfold visible_of. induction 1 as [|a b A B [[_ _ Hc _] Hv] _ IH]; [done|]. rewrite !filter_cons, Hv. case_decide; [|done].
  cbn [map]. by rewrite Hc, IH.
Qed.

Lemma agree_sym A B : Forall2 agree A B → Forall2 agree B A.
Proof. induction 1 as [|a b A B [Hab Hv] _ IH]; constructor; [split; [by symmetry|done]|done]. Qed.

Lemma agree_anchored A B x n : Forall2 agree A B → anchored A x n → anchored B x n.
Proof.
  unfold anchored. intros HAB. destruct (Anchor.is_min x); [done|]. rewrite (agree_visible _ _ HAB). destruct (Anchor.is_max x); [done|].
  intros (A1 & a & A2 & -> & [Hi Hin] & ->). apply Forall2_app_inv_l in HAB as (B1 & B2' & H1 & H2 & ->).
  apply Forall2_cons_inv_l in H2 as (b & B2 & [[Hi' Ho Hc _] Hv] & H2 & ->). exists B1, b, B2. split; [done|].
  rewrite <-(agree_visible _ _ H1), <-Hv, <-Ho. split; [|done]. split; [by rewrite <-Hi'|]. by rewrite <-Ho, <-Hc.
Qed.

Lemma agree_clings A B x n : Forall2 agree A B → clings A x n → clings B x n.
Proof.
  intros HAB (A1 & a & A2 & -> & [Hi Hin] & Hva & ->). apply Forall2_app_inv_l in HAB as (B1 & B2' & H1 & H2 & ->).
  apply Forall2_cons_inv_l in H2 as (b & B2 & [[Hi' Ho Hc _] Hv] & H2 & ->). exists B1, b, B2. split; [done|].
  rewrite <-(agree_visible _ _ H1), <-Hv, <-Ho. split; [|done]. split; [by rewrite <-Hi'|]. by rewrite <-Ho, <-Hc.
Qed.

Lemma shows_same self s s' : shows self s → shows self s' → s = s'.
Proof. unfold shows. by intros ->%holds_text ->%holds_text. Qed.

(** What an anchor at a position is. *)
Definition placed A (side : Bias) (n : nat) (x : Anchor) : Prop :=
  Anchor.bias x = side ∧ anchored A x n ∧ (Anchor.is_min x = true ∨ Anchor.is_max x = true ∨ clings A x n).

Lemma anchor_placed self L s1 s2 side : snapshot_ok self L → visible_of (atoms L) = s1 ++ s2 → (N.of_nat (Str.len (s1 ++ s2)) <= u32_max)%N →
  ∃ x, MakeAnchor.anchor_at_offset self (Str.len s1) side = Some x ∧ Anchor.buffer_id x = snapshot_remote_id self ∧ placed (atoms L) side (Str.len s1) x.
Proof.
  intros Hok Hs Hlen. destruct (anchor_at_spec self L Hok s1 s2 side Hs Hlen) as (x & Hrun & Hb & Hid & Hx & Hcase). exists x. split; [done|]. split; [done|].
  split; [done|]. split; [done|]. destruct Hcase as [->|[->|?]]; [by left|right; by left|by do 2 right].
Qed.

Lemma agree_placed A B side n x : Forall2 agree A B → placed A side n x → placed B side n x.
Proof.
  intros HAB (Hb & Hx & Hcase). split; [done|]. split; [by eapply agree_anchored|]. destruct Hcase as [?|[?|?]]; [by left|right; by left|do 2 right].
  by eapply agree_clings.
Qed.

(** Comparing what is at two positions. *)
Lemma cmp_placed self L x y n m side1 side2 : snapshot_ok self L → ordered (atoms L) → placed (atoms L) side1 n x → placed (atoms L) side2 m y →
  (n = m → side1 = side2 → x = y) → CompareAnchor.cmp_in self x y = Some (then_with (cmp n m) (cmp side1 side2)).
Proof.
  intros Hok Hord (Hbx & Hx & Hcx) (Hby & Hy & Hcy) Hsame. destruct (cmp_anchored self L Hok Hord x y n m Hx Hy) as (c & Hc & Heq & Hle & Hge).
  rewrite Hc. f_equal. unfold cmp at 1, nat_ord. destruct (Nat.compare_spec n m) as [Hnm|Hlt|Hgt]; cbn [then_with].
  - destruct (decide (side1 = side2)) as [Hb|Hb].
    + specialize (Hsame Hnm Hb). subst y side2. apply cmp_in_opp in Hc as Hc'. rewrite Hc in Hc'. injection Hc' as Hc'. destruct side1, c; try done; by rewrite <-Hb.
    + assert (∀ x y, Anchor.bias x = Left → Anchor.bias y = Right → placed (atoms L) Left n x → placed (atoms L) Right n y →
        CompareAnchor.cmp_in self x y = Some Lt) as Hsides.
      { clear -Hok Hord. intros x y Hbx Hby (_ & Hx & Hcx) (_ & Hy & Hcy).
        assert (Anchor.is_min y = false) as Hymin by (unfold Anchor.is_min; rewrite Hby; apply andb_false_r).
        assert (Anchor.is_max x = false) as Hxmax by (unfold Anchor.is_max; rewrite Hbx; apply andb_false_r).
        destruct Hcx as [Hcx|[Hcx|Hcx]]; [apply (cmp_end self L Hok Hord x y n n Hx Hy); by left|congruence|].
        destruct Hcy as [Hcy|[Hcy|Hcy]]; [congruence|apply (cmp_end self L Hok Hord x y n n Hx Hy); by right|]. by eapply cmp_sides. }
      subst m. destruct side1, side2; try done.
      * rewrite (Hsides x y) in Hc; [by injection Hc|done..].
      * apply cmp_in_opp in Hc. rewrite (Hsides y x) in Hc; [|done..]. injection Hc as Hc. by destruct c.
  - destruct c; [assert (m <= n) by (by apply Hge); lia|done|assert (m <= n) by (by apply Hge); lia].
  - destruct c; [assert (n <= m) by (by apply Hle); lia|assert (n <= m) by (by apply Hle); lia|done].
Qed.

(** ** Properties *)

Section system.
Context `{LineSeparatorsLaws}.

Lemma same_version_atoms text sys i1 i2 r1 r2 : str_ok text → (N.of_nat (Str.len text) <= u32_max)%N → reached text sys →
  replicas sys !! i1 = Some r1 → replicas sys !! i2 = Some r2 → buffer_fits (buffer r1) → buffer_fits (buffer r2) →
  version (buffer r1) = version (buffer r2) → ∃ L1 L2 known1 known2, buffer_ok (buffer r1) L1 known1 ∧ buffer_ok (buffer r2) L2 known2 ∧
    Forall2 agree (atoms L1) (atoms L2) ∧ ordered (atoms L1) ∧ ordered (atoms L2) ∧
    ∀ a, a ∈ atoms L1 → Global.observed (version (buffer r1)) (atom_insertion a) = true.
Proof.
  intros Htext Hlen Hsys H1 H2 Hfits1 Hfits2 Hver. destruct (reached_ok text Htext Hlen sys Hsys) as [Hlog Hreplicas].
  destruct (Hreplicas i1 r1 H1) as [(L1 & known1 & Hs1) _ _ _]. destruct (Hreplicas i2 r2 H2) as [(L2 & known2 & Hs2) _ _ _].
  exists L1, L2, known1, known2. split; [apply Hs1|]. split; [apply Hs2|]. split; [by eapply same_version_agree|].
  split; [by eapply stands_ordered|]. split; [by eapply stands_ordered|]. intros a Ha.
  eapply follows_observed; [apply base_known|exact Hlog|apply Hs1|]. left. exists a. split; [done|by left].
Qed.

(** C8. An anchor stands for the position it was made at, in every replica with the
    same version.  In a reached system, at every position [s1 | s2] of the text of a
    replica, [anchor_at_offset] makes an anchor with either bias, and every replica
    with the same version resolves it to that position; an anchor inside the text is
    one to the character in front of or behind the position, whose fragment is
    visible. *)
Theorem anchors_agree text sys i1 i2 r1 r2 s1 s2 (side : Bias)
    (Htext : str_ok text) (Hlen : (N.of_nat (Str.len text) <= u32_max)%N) (Hsys : reached text sys)
    (H1 : replicas sys !! i1 = Some r1) (H2 : replicas sys !! i2 = Some r2)
    (Hfits1 : buffer_fits (buffer r1)) (Hfits2 : buffer_fits (buffer r2))
    (Hver : version (buffer r1) = version (buffer r2)) (Hremote : remote_id (buffer r1) = remote_id (buffer r2))
    (Hs : shows (buffer r1) (s1 ++ s2)) :
  ∃ x, MakeAnchor.anchor_at_offset (snapshot (buffer r1)) (Str.len s1) side = Some x ∧
    Anchors.offset_for_anchor (snapshot (buffer r1)) x = Some (Str.len s1) ∧
    Anchors.offset_for_anchor (snapshot (buffer r2)) x = Some (Str.len s1) ∧
    Anchors.can_resolve (snapshot (buffer r2)) x = true ∧ Anchors.is_valid (snapshot (buffer r2)) x = Some true.
Proof.
  destruct (same_version_atoms text sys i1 i2 r1 r2 Htext Hlen Hsys H1 H2 Hfits1 Hfits2 Hver)
    as (L1 & L2 & known1 & known2 & Hok1 & Hok2 & Hagree & _ & _ & Hobs).
  pose proof (buffer_snapshot _ _ _ Hok1) as Hs1. pose proof (buffer_snapshot _ _ _ Hok2) as Hs2.
  pose proof (shows_same _ _ _ (shows_visible _ _ _ Hok1) Hs) as Htext1.
  destruct (anchor_placed _ L1 s1 s2 side Hs1 Htext1) as (x & Hrun & Hid & Hplaced).
  { rewrite <-(holds_len _ _ Hs). apply (fits_visible_len _ (buffer_snapshot_fits _ Hfits1)). }
  pose proof (agree_placed _ _ _ _ _ Hagree Hplaced) as Hplaced2. destruct Hplaced as (_ & Hx & Hcase). destruct Hplaced2 as (_ & Hx2 & Hcase2).
  assert (resolves (atoms L1) x (Str.len s1) → Global.observed (version (buffer r1)) (Anchor.timestamp x) = true) as Hseen.
  { intros (A1 & a & A2 & HA & [<- _] & _). apply Hobs. rewrite HA. set_solver. }
  assert (clings (atoms L2) x (Str.len s1) → Global.observed (version (buffer r2)) (Anchor.timestamp x) = true) as Hseen2.
  { intros Hc%(agree_clings _ _ _ _ (agree_sym _ _ Hagree)). rewrite <-Hver. by apply Hseen, clings_resolves. }
  assert (Anchor.buffer_id x = remote_id (buffer r2)) as Hid2 by (by rewrite <-Hremote).
  exists x. split; [exact Hrun|]. split; [by apply (offset_for_anchor_spec _ L1)|]. destruct Hcase2 as [Hend|[Hend|Hc]].
  - split; [|unfold Anchors.can_resolve, Anchors.is_valid; by rewrite Hend].
    unfold Anchors.offset_for_anchor. unfold anchored in Hx2. rewrite Hend in Hx2 |- *. by rewrite Hx2.
  - split; [|unfold Anchors.can_resolve, Anchors.is_valid; by rewrite Hend, orb_true_r].
    apply (offset_for_anchor_spec _ L2); [done..|]. intros Hr. destruct (not_end _ L2 Hs2 x _ Hr). congruence.
  - split; [apply (offset_for_anchor_spec _ L2); [done..|intros _; by apply Hseen2]|]. split; [|by eapply is_valid_spec].
    unfold Anchors.can_resolve. pose proof (Hseen2 Hc) as Hsee. unfold version in Hsee. unfold remote_id in Hid2. rewrite Hsee, <-Hid2, N.eqb_refl. apply orb_true_r.
Qed.

(** C10. Comparing anchors compares their positions.  In a reached system, anchors
    made at two positions of the text of a replica are ordered by every replica with
    the same version like the positions, and at one position the anchor to what is
    in front comes before the anchor to what is behind. *)
Theorem anchors_compare text sys i1 i2 r1 r2 s1 s2 (u1 u2 : str) (side1 side2 : Bias)
    (Htext : str_ok text) (Hlen : (N.of_nat (Str.len text) <= u32_max)%N) (Hsys : reached text sys)
    (H1 : replicas sys !! i1 = Some r1) (H2 : replicas sys !! i2 = Some r2)
    (Hfits1 : buffer_fits (buffer r1)) (Hfits2 : buffer_fits (buffer r2)) (Hver : version (buffer r1) = version (buffer r2))
    (Hs : shows (buffer r1) (s1 ++ s2)) (Ht : shows (buffer r1) (u1 ++ u2)) :
  ∃ x y, MakeAnchor.anchor_at_offset (snapshot (buffer r1)) (Str.len s1) side1 = Some x ∧
    MakeAnchor.anchor_at_offset (snapshot (buffer r1)) (Str.len u1) side2 = Some y ∧
    CompareAnchor.cmp_in (snapshot (buffer r2)) x y = Some (then_with (cmp (Str.len s1) (Str.len u1)) (cmp side1 side2)).
Proof.
  destruct (same_version_atoms text sys i1 i2 r1 r2 Htext Hlen Hsys H1 H2 Hfits1 Hfits2 Hver)
    as (L1 & L2 & known1 & known2 & Hok1 & Hok2 & Hagree & _ & Hord & _).
  pose proof (buffer_snapshot _ _ _ Hok1) as Hs1. pose proof (fits_visible_len _ (buffer_snapshot_fits _ Hfits1)) as Hsmall.
  destruct (anchor_placed _ L1 s1 s2 side1 Hs1) as (x & Hx & _ & Hpx); [by apply (shows_same (buffer r1)); [eapply shows_visible|]|by rewrite <-(holds_len _ _ Hs)|].
  destruct (anchor_placed _ L1 u1 u2 side2 Hs1) as (y & Hy & _ & Hpy); [by apply (shows_same (buffer r1)); [eapply shows_visible|]|by rewrite <-(holds_len _ _ Ht)|].
  exists x, y. split; [done|]. split; [done|]. apply (cmp_placed _ L2); [apply Hok2|done|by eapply agree_placed|by eapply agree_placed|].
  intros Heq ->. rewrite Heq, Hy in Hx. by injection Hx.
Qed.

(** C9. Local edits take anchors along.  In a reached system, an anchor made at a
    position of the text of a replica is resolved, after a local edit, to where
    [moved] says: with the text it is attached to, or behind the text that replaced
    it. *)
Theorem anchors_follow_edits {S} `{!ToOffset S} text sys i r s1 s2 (changes : list ((S * S) * str)) es now now' self' op (side : Bias)
    (Htext : str_ok text) (Hlen : (N.of_nat (Str.len text) <= u32_max)%N) (Hsys : reached text sys)
    (Hr : replicas sys !! i = Some r) (Hs : shows (buffer r) (s1 ++ s2))
    (Hcan : can_edit (buffer r) changes) (Hes : edits_to_offsets (snapshot (buffer r)) changes = Some es)
    (Hrun : edit (buffer r) changes now now' = Some (self', op)) :
  ∃ x, MakeAnchor.anchor_at_offset (snapshot (buffer r)) (Str.len s1) side = Some x ∧
    Anchors.offset_for_anchor (snapshot self') x = Some (moved side 0 0 (map normalized es) (Str.len s1)).
Proof.
  destruct Hcan as (s & es' & Hs' & Hes' & Hwithin & Htexts & Hinserted & Hfits & Hroom). rewrite Hes in Hes'. apply (inj Some) in Hes' as <-.
  destruct (same_version_atoms text sys i i r r Htext Hlen Hsys Hr Hr Hfits Hfits eq_refl) as (L & _ & known & _ & Hok & _ & _ & _ & _ & Hobs).
  pose proof (shows_same _ _ _ (shows_visible _ _ _ Hok) Hs) as Hvis. rewrite (shows_same _ _ _ Hs' (shows_visible _ _ _ Hok)) in Hwithin.
  destruct (edit_spec (buffer r) L known changes es now now' Hok Hfits Hroom Hes Hwithin Htexts Hinserted)
    as (self2 & L' & ranges & Hrun2 & Hok' & Hedited & _ & Hver & _ & _ & _ & _ & _ & Hremote).
  rewrite Hrun in Hrun2. injection Hrun2 as <- _. pose proof (buffer_snapshot _ _ _ Hok') as Hsnap'.
  destruct (anchor_placed _ L s1 s2 side (buffer_snapshot _ _ _ Hok) Hvis) as (x & Hx & Hid & Hb & Hplace & Hcase).
  { rewrite <-(holds_len _ _ Hs). apply (fits_visible_len _ (buffer_snapshot_fits _ Hfits)). }
  exists x. split; [done|]. unfold anchored in Hplace. destruct Hcase as [Hmin|[Hmax|Hc]].
  - rewrite Hmin in Hplace. unfold Anchors.offset_for_anchor. rewrite Hmin, Hplace. destruct (end_timestamps x) as [Hend _].
    destruct (Hend Hmin) as (_ & _ & Hleft). rewrite <-Hb, Hleft, moved_start. done.
  - destruct (end_timestamps x) as [_ Hend]. destruct (Hend Hmax) as (_ & _ & Hright).
    assert (Anchor.is_min x = false) as Hmin by (unfold Anchor.is_min; rewrite Hright; apply andb_false_r).
    rewrite Hmin, Hmax in Hplace. unfold Anchors.offset_for_anchor. rewrite Hmin, Hmax, Hplace, <-Hb, Hright.
    pose proof (moved_end _ 0 _ _ _ _ _ _ 0 Hedited) as Hmoved. rewrite !Nat.add_0_l in Hmoved. rewrite Hmoved. f_equal. apply holds_len. by eapply shows_visible.
  - destruct (clings_edited _ 0 _ _ _ _ _ _ x _ 0 Hedited Hc) as (m & Hm & Hmoved). rewrite !Nat.add_0_l, Hb in Hmoved. rewrite Hmoved.
    destruct (not_end _ L' Hsnap' x m Hm) as [Hmin Hmax]. apply (offset_for_anchor_spec _ L'); [done|unfold anchored; by rewrite Hmin, Hmax| |].
    + rewrite Hid. symmetry. exact Hremote.
    + intros _. apply (observed_observe _ _ _ _ Hver). left. destruct Hc as (A1 & a & A2 & HA & [<- _] & _). apply Hobs. rewrite HA. set_solver.
Qed.
End system.

(** ** An example *)

Import SeparatorsExample ReplicasExample.

Lemma together_shows : shows (buffer final1) converged.
Proof.
  rewrite <-(ltac:(by vm_compute) : replayed BufferExample.text together (version (buffer final1)) = converged).
  exact (replica_text BufferExample.text together 1%N final1 BufferExample.text_fine BufferExample.text_short together_reached
    (proj1 together_replicas) (proj1 together_fits)).
Qed.

Lemma together_same : version (buffer final1) = version (buffer final2) ∧ remote_id (buffer final1) = remote_id (buffer final2).
Proof. by vm_compute. Qed.

(** An anchor to the line feed of the first replica, in the second. *)
Lemma anchors_agree_witness : ∃ x, MakeAnchor.anchor_at_offset (snapshot (buffer final1)) 2 Right = Some x ∧
  Anchors.offset_for_anchor (snapshot (buffer final2)) x = Some 2 ∧ Anchors.is_valid (snapshot (buffer final2)) x = Some true.
Proof.
  destruct (anchors_agree BufferExample.text together 1%N 2%N final1 final2 [104; 120]%N [10; 122; 33; 46; 63]%N Right
    BufferExample.text_fine BufferExample.text_short together_reached (proj1 together_replicas) (proj2 together_replicas)
    (proj1 together_fits) (proj2 together_fits) (proj1 together_same) (proj2 together_same) together_shows) as (x & Hx & _ & Hx2 & _ & Hv).
  exists x. split; [exact Hx|]. split; [exact Hx2|exact Hv].
Defined.

Lemma anchors_compare_witness : ∃ x y, MakeAnchor.anchor_at_offset (snapshot (buffer final1)) 2 Left = Some x ∧
  MakeAnchor.anchor_at_offset (snapshot (buffer final1)) 2 Right = Some y ∧ CompareAnchor.cmp_in (snapshot (buffer final2)) x y = Some Lt.
Proof.
  destruct (anchors_compare BufferExample.text together 1%N 2%N final1 final2 [104; 120]%N [10; 122; 33; 46; 63]%N [104; 120]%N [10; 122; 33; 46; 63]%N
    Left Right BufferExample.text_fine BufferExample.text_short together_reached (proj1 together_replicas) (proj2 together_replicas)
    (proj1 together_fits) (proj2 together_fits) (proj1 together_same) together_shows together_shows) as (x & y & Hx & Hy & Hc).
  exists x, y. split; [exact Hx|]. split; [exact Hy|exact Hc].
Defined.

Lemma start_reached : reached BufferExample.text at_start.
Proof. exists at_start. split; [apply at_start_initial|apply rtc_refl]. Qed.

(** The euro sign stays behind the line feed that replaces what is in front of it. *)
Lemma anchors_follow_edits_witness : ∃ x, MakeAnchor.anchor_at_offset (snapshot (start_of 1%N)) 4 Right = Some x ∧
  Anchors.offset_for_anchor (snapshot edited1.1) x = Some 3.
Proof.
  destruct (anchors_follow_edits BufferExample.text at_start 1%N (mkReplica (start_of 1%N) []) [104; 233; 10]%N [0x20AC; 33]%N BufferExample.changes
    BufferExample.offsets 0%N 1%N edited1.1 edited1.2 Right BufferExample.text_fine BufferExample.text_short start_reached eq_refl
    (proj1 (start_shows 1%N (or_introl eq_refl))) can_edit1) as (x & Hx & Hmoved); [by vm_compute|by vm_compute|].
  exists x. split; [exact Hx|exact Hmoved].
Defined.
